(* ===== verification/_CoqProject ===== *)
-Q . S2P
Prelude.v
Threads.v
Locks.v
LocksInv.v
OnceLock.v
OnceLockInv.v
Hierarchy.v
HierarchyInv.v
HierarchyTheorems.v
CommandQueue.v
ArrayDeque.v
BlockList.v
BloomFilter.v
PagePool.v
ArrayQueue.v
ArrayQueueInv.v
ArrayQueueSeq.v
AssetPath.v
AssetPathTheorems.v
Assets.v
AssetsTheorems.v
AssetsRefine.v
Clock.v
ClockTheorems.v
Tick.v
EntityIdent.v
EntityInfo.v
FreeCount.v
FreeBuffer.v
Allocator.v
Held.v
RemoteAlloc.v
Column.v
Table.v
SparseMap.v
Locations.v
Registry.v
Collector.v
Resource.v
ResourceTheorems.v
World.v
WorldInv.v
WorldRegister.v
WorldDespawn.v
WorldMove.v
WorldWrite.v
WorldQuiet.v
WorldStart.v
WorldSpawn.v
WorldInsert.v
WorldOps.v
WorldTheorems.v
WorldHistory.v
WorldRefine.v
WorldGrows.v
WorldFaults.v
Message.v
State.v
StateTheorems.v
Access.v
QueryMatch.v
Query.v
QueryCells.v
QueryCaches.v
QueryFilters.v
QueryStates.v
QueryIters.v
QueryVisits.v
QueryAccess.v
QueryTheorems.v
Executor.v
Graph.v
Scc.v
Toposort.v
Schedule.v
ScheduleInv.v
ScheduleBuild.v
