(* ===== verification/Prelude.v ===== *)
(** * Voker: a verification development for the voker game-engine crates

    Voker is a modular game engine in Rust.  Its core is an entity component system
    ([crates/voker-ecs]); around it are crates for synchronisation on platforms without a
    standard library ([voker-os]), containers ([voker-utils]), time ([voker-time]), state
    machines ([voker-state]) and assets ([voker-asset]).  This library translates the state
    and the operations of these parts into executable definitions and proves what makes
    them correct.  Paths below are relative to [src/crates].

    ** The parts and how they interact

    A [World] owns an allocator of entity identifiers, a table of entity locations, the
    registries of components, bundles, archetypes and resources, and the storages: dense
    tables (one column per component, one row per entity) and sparse maps.  Spawning takes
    an identifier, registers the bundle's component set, allocates a row in each storage
    and writes the values; insertion and removal move the entity between archetypes;
    despawning frees the rows and gives the identifier back with a new generation.  Every
    stored value has two ticks, which queries compare with the tick of the last run of a
    system.  Systems declare what they read and write in access tables; a schedule sorts
    its systems topologically and compiles them with the conflicts of these tables; the
    executors run them, in parallel where nothing conflicts.  Systems talk through
    resources, double-buffered message queues and commands, which are queued and applied
    later, depth first.  Hooks keep relationship components on both sides in step.  The
    other crates use the same ideas: clocks are advanced once per frame, states change in a
    transition schedule and signal through messages, assets are stored under generational
    indices and report events.

    ** Files

    Shared: [Prelude] (integers, outcomes, tactics, hints, lists), [Threads] (pools of
    interleaved threads).

    Entities ([voker-ecs/src/entity], [tick.rs]): [Tick], [EntityIdent], [EntityInfo]
    (location table), [FreeCount] (packed state word), [FreeBuffer] (chunked array),
    [Allocator] and [Held] (the allocator used by its owner), [RemoteAlloc] (atomic steps of
    concurrent allocation).

    Storages ([storage]): [Column], [Table], [SparseMap], [Locations] (locations against
    rows).  Registries ([bundle], [archetype], [component], [world/methods/register.rs] and
    [arche.rs]): [Registry], [Collector].  Resources ([resource], [storage/global],
    [world/methods/resource.rs]): [Resource], [ResourceTheorems].

    Worlds ([world]): [World] holds the operations, [WorldInv] the invariant,
    [WorldRegister], [WorldDespawn], [WorldMove], [WorldWrite], [WorldQuiet], [WorldStart],
    [WorldSpawn], [WorldInsert] and [WorldOps] one group of operations each,
    [WorldTheorems] the specification of each operation, [WorldHistory] and [WorldRefine]
    histories and their abstraction, [WorldGrows] what is never taken back, [WorldFaults]
    what goes wrong.

    Queries ([query]): [QueryMatch] (galloping search), [Query] (data, filters, states,
    iterators, access by entity), [QueryCells], [QueryCaches], [QueryFilters],
    [QueryStates], [QueryIters], [QueryVisits], [QueryAccess], [QueryTheorems].

    Schedules ([schedule], [system/access]): [Access], [Graph], [Scc], [Toposort],
    [Schedule] with [ScheduleInv] and [ScheduleBuild], [Executor].

    Communication: [Message] ([message]), [CommandQueue] ([command/queue.rs]), [Hierarchy],
    [HierarchyInv] and [HierarchyTheorems] ([relationship], [hierarchy.rs]).

    Synchronisation ([voker-os/src]): [Locks] and [LocksInv] (futex, spin lock, mutex,
    reader-writer lock), [OnceLock] and [OnceLockInv] (once cells and lazy cells),
    [ArrayQueue], [ArrayQueueInv] and [ArrayQueueSeq] (bounded queue).

    Containers ([voker-utils/src/extra]): [ArrayDeque], [BlockList] (linked blocks on a heap),
    [BloomFilter], [PagePool] (bump allocation).

    Time ([voker-time]): [Clock], [ClockTheorems].  States ([voker-state]): [State],
    [StateTheorems].  Assets ([voker-asset]): [AssetPath], [AssetPathTheorems], [Assets],
    [AssetsTheorems], [AssetsRefine].

    ** How code becomes definitions

    A struct is a record, an enum an inductive type, a method [T::m] the definition [T_m]
    with the state passed through.  Fixed-width integers are [Z] with their wrap-around
    written out.  Results are in [outcome]: a value, a panic, or undefined behaviour (a
    raw read of memory never written, an unchecked index out of range), so that a theorem
    that code returns also says that its unsafe blocks are sound there.  Code that other
    threads can observe is a step function on a control point, one step per atomic access,
    and theorems quantify over all interleavings; memory orderings are taken as
    sequentially consistent.  What the sources leave open is a parameter with its
    documented law: the growth of vectors ([VecGrowth]), the iteration order of hash sets,
    the description of component types, the code of commands and systems.

    ** What the theorems show

    - Worlds: any history of calls is the history of the same calls on a map from entities
      to component values, which the calls determine; identifiers of live entities are distinct; insertion, removal, despawning and
      clearing do what they say and touch nothing else; values are dropped once.
    - Allocation: identifiers held, recycled and fresh partition the identifier space,
      also when remote threads race with the owner.
    - Storages: rows move between tables with their values and ticks; sparse maps refine
      finite maps; the ticks a validation pass visits detect exactly the changes since the
      last run (the highest row of a sparse map is not visited).
    - Resources: any history of methods, nested scopes that do not assign included, refines
      a map from types to values.
    - Queries: iteration yields every matching entity once, a state updated incrementally
      equals one built from scratch, access by entity reports the right error, galloping
      search stays in bounds, and two queries granted together never alias.
    - Schedules: a build succeeds exactly on acyclic orders, components and orders are
      correct, systems that run at the same time do not conflict unless they hold a
      reference to the whole world, and a run ends with every system run once, and without
      exclusive systems with those the single-threaded executor runs.
    - Communication: message queues keep what readers have not seen, nested command queues
      run depth first and survive panics, relationships agree on both sides and every
      cascade ends.
    - Synchronisation: exclusion, no lost wake-up, single initialisation, linearizability.
    - Time, states, assets: timers fire the right number of times and the fixed loop ends,
      state machines refine their specification, assets live as long as their handles and
      their events tell what is stored, paths print and parse back.

    ** Bounds and fuel

    Recursions that are not structural carry fuel, and a theorem shows that the fuel is
    enough: closures of required components use the number of known types ([size known]);
    the frame loop of the fixed clock, the number of steps the accumulated time allows;
    relationship cascades, [rel_fuel], seven steps per entity; query iterators, one more
    than the number of entity slots; galloping search, one more than the length of the slice;
    component search, the numbers of nodes and edges ([TarjanScc_fuel]).  The cycle report
    of a topological sort takes its fuel as an argument, because on some graphs it does not
    end ([toposort_diverges]); nested command queues do as well, since commands may queue
    commands for ever, and agree with the reference at every fuel.  [world_room] says that
    the counters of a world are below their width (one more row or storage fits),
    [size known ≤ u32_max] the same of resource identifiers, [MAX_ASSET_INDEX] of assets,
    [limit] of the pushes of a bounded queue before its positions repeat.
    [types_ok] says what registration of components establishes.  [requires_transitive]
    asks more of the component types, that each lists what its required types require in
    turn; registration does not see to it, and [required_chain_uninitialised] shows what
    happens otherwise.  [world_call] leaves out [spawn_at] of an identifier that was not
    reserved and [insert] of a sparse component that is new to the entity
    ([insert_new_sparse_undefined]).  [keeps_clocks] says that the systems of a frame
    return and do not set the clocks, [hs_legal] that handles of assets are dropped once
    and assets not removed while they are shared, [scopes_plain] that no resource scope
    assigns to its resource, [size_bound] that no request to a page pool exceeds half of
    what a layout may have.

    ** Not modelled

    Hooks and observers of user code are recorded and not run, except those of
    relationships.  Left out, because their content is not in the sources or is not
    state: derive macros, reflection and serialization (generated code and serde), maps
    that forward to hashbrown and indexmap, task pools (async-task), the asset server, its
    loaders and sources (asynchronous input and output), logging, floating-point geometry,
    platform threads and time sources, type-erased pointers, system parameters and
    application assembly (generic glue over what is modelled).  Allocation failure and
    alignment are modelled in the page pool only. *)

From Stdlib Require Import ZArith Lia.
From stdpp Require Export base option list numbers sets gmap.

Local Open Scope Z_scope.

(** ** Machine-width integers

    A Rust [u32], [u64] or [usize] (64-bit targets) is a [Z] in its range;
    every wrapping operation is written out with its modulus. *)

Notation W32 := 4294967296 (only parsing).
Notation W64 := 18446744073709551616 (only parsing).

Definition u32_max : Z := 4294967295.
Definition u64_max : Z := 18446744073709551615.

Definition is_u32 (x : Z) : Prop := 0 <= x < W32.
Definition is_u64 (x : Z) : Prop := 0 <= x < W64.

Definition wadd32 (a b : Z) : Z := (a + b) mod W32.
Definition wsub32 (a b : Z) : Z := (a - b) mod W32.
Definition wadd64 (a b : Z) : Z := (a + b) mod W64.
Definition wsub64 (a b : Z) : Z := (a - b) mod W64.

(** [saturating_sub] and [checked_sub] on unsigned integers. *)
Definition sat_sub (a b : Z) : Z := if a <? b then 0 else a - b.
Definition checked_sub (a b : Z) : option Z := if a <? b then None else Some (a - b).

(** [!x] on [u32] and [u64]. *)
Definition not32 (x : Z) : Z := Z.lxor u32_max x.
Definition not64 (x : Z) : Z := Z.lxor u64_max x.

(** [u32::leading_zeros]. *)
Definition leading_zeros32 (x : Z) : Z := if x =? 0 then 32 else 31 - Z.log2 x.

(** ** Outcomes

    [Result<T, E>] as an inductive type, and an outcome monad for code that
    can panic.  [Undefined] marks an access outside the bounds an [unsafe]
    block relies on, so that a theorem can state that it does not happen. *)

Inductive Result (T E : Type) : Type :=
| Ok (t : T)
| Err (e : E).
Arguments Ok {T E} t.
Arguments Err {T E} e.

Inductive outcome (A : Type) : Type :=
| Ret (a : A)
| Panic
| Undefined.
Arguments Ret {A} a.
Arguments Panic {A}.
Arguments Undefined {A}.

#[global] Instance outcome_ret : MRet outcome := fun A a => Ret a.
#[global] Instance outcome_bind : MBind outcome := fun A B f m =>
  match m with
  | Ret a => f a
  | Panic => Panic
  | Undefined => Undefined
  end.

(** Reading a slot an [unsafe] block assumes to be in bounds. *)
Definition of_option {A} (o : option A) : outcome A :=
  match o with
  | Some a => Ret a
  | None => Undefined
  end.

(** ** Tactics *)

(** Splits a sequence of outcome binds known to return. *)
Ltac inv_outcome :=
  repeat match goal with
  | H : mbind _ ?m = Ret _ |- _ => destruct m eqn:?; cbn in H; try discriminate H
  | H : mret _ = Ret _ |- _ => cbn in H
  | H : Ret _ = Ret _ |- _ => injection H as H
  end.

(** [lia] after turning division and modulo into their defining equations. *)
Ltac mlia := Z.to_euclidean_division_equations; lia.

(** Unfolds the width arithmetic and decides the goal. *)
Ltac width :=
  unfold is_u32, is_u64, wadd32, wsub32, wadd64, wsub64, sat_sub,
    u32_max, u64_max in *; repeat case_match; mlia.

Create HintDb voker.

(** ** Width arithmetic *)

Lemma wsub32_range a b : is_u32 (wsub32 a b).
Proof. width. Qed.

Lemma wadd32_range a b : is_u32 (wadd32 a b).
Proof. width. Qed.

Lemma wsub64_range a b : is_u64 (wsub64 a b).
Proof. width. Qed.

Lemma wadd64_range a b : is_u64 (wadd64 a b).
Proof. width. Qed.

#[export] Hint Resolve wsub32_range wadd32_range wsub64_range wadd64_range : voker.

(** Subtracting two wrapped counters recovers the distance when it fits. *)
Lemma wsub32_mod (a b : Z) :
  0 <= a - b < W32 → wsub32 (a mod W32) (b mod W32) = a - b.
Proof.
  intros ?. unfold wsub32. rewrite <- Zminus_mod. by apply Z.mod_small.
Qed.

Lemma wsub64_mod (a b : Z) :
  0 <= a - b < W64 → wsub64 (a mod W64) (b mod W64) = a - b.
Proof.
  intros ?. unfold wsub64. rewrite <- Zminus_mod. by apply Z.mod_small.
Qed.

Lemma sat_sub_max (a b : Z) : sat_sub a b = Z.max 0 (a - b).
Proof. unfold sat_sub. destruct (Z.ltb_spec a b); lia. Qed.

(** ** Bit fields *)

(** A value below [2^n] shares no bit with a multiple of [2^n]. *)
Lemma land_shiftl_disjoint (a b n : Z) :
  0 <= n → 0 <= a < 2 ^ n → Z.land a (Z.shiftl b n) = 0.
Proof.
  intros Hn Ha. apply Z.bits_inj'. intros i Hi.
  rewrite Z.land_spec, Z.bits_0, Z.shiftl_spec by lia.
  destruct (Z.lt_ge_cases i n).
  - by rewrite (Z.testbit_neg_r b), andb_false_r by lia.
  - rewrite <- (Z.mod_small a (2 ^ n)) by done.
    by rewrite Z.mod_pow2_bits_high by lia.
Qed.

Lemma lor_shiftl_add (a b n : Z) :
  0 <= n → 0 <= a < 2 ^ n → Z.lor a (Z.shiftl b n) = a + b * 2 ^ n.
Proof.
  intros Hn Ha. pose proof (land_shiftl_disjoint a b n Hn Ha) as Hd.
  rewrite <- Z.lxor_lor, <- Z.add_nocarry_lxor, Z.shiftl_mul_pow2 by done. done.
Qed.

Lemma lor_shiftl32 (a b : Z) :
  is_u32 a → Z.lor a (Z.shiftl b 32) = a + b * 4294967296.
Proof. intros Ha. by rewrite lor_shiftl_add. Qed.

(** ** Lists *)

(** [position] of an iterator: the first index whose element satisfies [p]. *)
Fixpoint position {A} (p : A → bool) (l : list A) : option nat :=
  match l with
  | [] => None
  | x :: l' => if p x then Some 0%nat else S <$> position p l'
  end.

Lemma position_Some {A} (p : A → bool) (l : list A) i :
  position p l = Some i →
  ∃ x, l !! i = Some x ∧ p x = true ∧
       ∀ j y, (j < i)%nat → l !! j = Some y → p y = false.
Proof.
  revert i. induction l as [|x l IH]; intros i; cbn; [done|].
  destruct (p x) eqn:Hx; [intros [= <-]; exists x; repeat split; auto; lia|].
  intros (k & Hk & ->)%fmap_Some. destruct (IH k Hk) as (y & Hy & Hp & Hmin).
  exists y. repeat split; auto. intros [|j] z Hj; cbn; [congruence|].
  apply Hmin. lia.
Qed.

Lemma position_None {A} (p : A → bool) (l : list A) :
  position p l = None → ∀ x, x ∈ l → p x = false.
Proof.
  induction l as [|x l IH]; cbn; [set_solver|].
  destruct (p x) eqn:Hx; [done|]. intros H%fmap_None y.
  rewrite elem_of_cons. naive_solver.
Qed.

(** [Vec::swap_remove]: the last element takes the removed slot. *)
Definition swap_remove {A} (l : list A) (i : nat) : list A :=
  match last l with
  | Some x => take (length l - 1) (<[i := x]> l)
  | None => l
  end.

(** What is left is the list without the removed element, in some order. *)
Lemma swap_remove_perm {A} (l : list A) i x :
  l !! i = Some x → l ≡ₚ x :: swap_remove l i ∧ length (swap_remove l i) = (length l - 1)%nat.
Proof.
  intros Hi. pose proof (lookup_lt_Some _ _ _ Hi) as Hlt. unfold swap_remove.
  destruct (last l) as [y|] eqn:El.
  2: { apply last_None in El. by subst. }
  apply last_Some in El as [l' ->]. rewrite length_app in *. cbn in *.
  replace (length l' + 1 - 1)%nat with (length l') by lia.
  split; [|rewrite length_take, length_insert, length_app; cbn; lia].
  destruct (decide (i = length l')) as [->|Hne].
  - rewrite lookup_app_r, Nat.sub_diag in Hi by lia. injection Hi as ->.
    rewrite take_insert_ge, take_app_length by lia. by rewrite Permutation_app_comm.
  - rewrite lookup_app_l in Hi by lia. rewrite insert_app_l by lia.
    rewrite take_app_length' by (by rewrite length_insert).
    rewrite (Permutation_app_comm l'). cbn.
    rewrite <- (take_drop_middle l' i x Hi) at 1. rewrite insert_take_drop by lia. solve_Permutation.
Qed.

Lemma elem_of_concat {A} (x : A) (ls : list (list A)) : x ∈ concat ls ↔ ∃ l, x ∈ l ∧ l ∈ ls.
Proof.
  induction ls as [|l ls IH]; cbn.
  - split; [by intros ?%elem_of_nil|by intros (? & _ & ?%elem_of_nil)].
  - rewrite elem_of_app, IH. setoid_rewrite elem_of_cons. naive_solver.
Qed.
