(* ===== verification/Threads.v ===== *)
(** * Interleaved threads

    Threads that share a state and take turns: one step of one thread is one
    atomic access of the code, so a run of the pool is a sequentially consistent
    interleaving.  [tally] counts threads by where they are. *)

From Stdlib Require Import ZArith Lia.
From S2P Require Import Prelude.

Section pool.
Context {S P C L : Type}.

(** [step s pc c]: the thread at [pc] makes its next access of [s]; [c] is what the
    thread or the hardware chooses, [L] what the step reports. *)
Variable step : S → P → C → outcome (S * P * list L).

Inductive pool_step : S * list P → list L → S * list P → Prop :=
| pool_turn s ts i pc c s' pc' l :
    ts !! i = Some pc → step s pc c = Ret (s', pc', l) → pool_step (s, ts) l (s', <[i := pc']> ts).

Inductive pool_run (x : S * list P) : list L → S * list P → Prop :=
| pool_start : pool_run x [] x
| pool_next l y l' z : pool_run x l y → pool_step y l' z → pool_run x (l ++ l') z.

(** An invariant that every step keeps holds after every run. *)
Lemma pool_invariant (I : S → list P → list L → Prop) s0 ts0 :
  I s0 ts0 [] →
  (∀ s ts log i pc c s' pc' l, I s ts log → ts !! i = Some pc → step s pc c = Ret (s', pc', l) → I s' (<[i := pc']> ts) (log ++ l)) →
  ∀ log s ts, pool_run (s0, ts0) log (s, ts) → I s ts log.
Proof.
  intros H0 Hstep log s ts Hrun. remember (s0, ts0) as x. remember (s, ts) as y. revert s ts Heqy.
  induction Hrun as [|l y l' z Hrun IH Hz]; intros s ts ->; [by simplify_eq|].
  inversion Hz; subst. eapply Hstep; [by apply IH|done|done].
Qed.

(** No thread's next step panics or is undefined. *)
Definition steps_defined (x : S * list P) : Prop :=
  ∀ i pc c, x.2 !! i = Some pc → ∃ r, step x.1 pc c = Ret r.

(** Steps of the thread at [i] alone. *)
Fixpoint solo_run (s : S) (pc : P) (cs : list C) : outcome (S * P) :=
  match cs with
  | [] => Ret (s, pc)
  | c :: cs => '(s, pc, _) ← step s pc c; solo_run s pc cs
  end.
End pool.

(** Runs a list of turns: the thread and its choice. *)
Fixpoint turns {S P C L} (step : S → P → C → outcome (S * P * list L)) (s : S) (ts : list P) (cs : list (nat * C)) : option (S * list P * list L) :=
  match cs with
  | [] => Some (s, ts, [])
  | (i, c) :: cs =>
      match ts !! i with
      | Some pc =>
          match step s pc c with
          | Ret (s, pc, l) => '(s, ts, l') ← turns step s (<[i := pc]> ts) cs; Some (s, ts, l ++ l')
          | _ => None
          end
      | None => None
      end
  end.

Lemma turns_run {S P C L} (step : S → P → C → outcome (S * P * list L)) x s ts l0 cs s' ts' l :
  pool_run step x l0 (s, ts) → turns step s ts cs = Some (s', ts', l) → pool_run step x (l0 ++ l) (s', ts').
Proof.
  revert s ts l0 l. induction cs as [|[i c] cs IH]; intros s ts l0 l Hrun He; cbn in He.
  - simplify_eq. by rewrite app_nil_r.
  - destruct (ts !! i) as [pc|] eqn:Hi; [|done]. destruct (step s pc c) as [[[s1 pc1] l1]| |] eqn:Hs; try done.
    apply bind_Some in He as ([[s2 ts2] l2] & He & Heq). simplify_eq.
    rewrite app_assoc. eapply IH; [|exact He]. eapply pool_next; [exact Hrun|]. by econstructor.
Qed.

Lemma turns_run_start {S P C L} (step : S → P → C → outcome (S * P * list L)) s ts cs s' ts' l :
  turns step s ts cs = Some (s', ts', l) → pool_run step (s, ts) l (s', ts').
Proof. intros. apply (turns_run step (s, ts) s ts [] cs); [constructor|done]. Qed.

(** ** Counting threads *)

Definition tally {P} (f : P → bool) (ts : list P) : nat := sum_list_with (λ pc, Nat.b2n (f pc)) ts.

Lemma tally_insert {P} (f : P → bool) ts i pc pc' :
  ts !! i = Some pc → (tally f (<[i := pc']> ts) + Nat.b2n (f pc) = tally f ts + Nat.b2n (f pc'))%nat.
Proof.
  unfold tally. revert i. induction ts as [|x ts IH]; intros [|i] Hi; simplify_eq/=; [lia|].
  specialize (IH i Hi). cbn in IH. lia.
Qed.

Lemma tally_pos {P} (f : P → bool) ts : (0 < tally f ts)%nat ↔ ∃ i pc, ts !! i = Some pc ∧ f pc = true.
Proof.
  unfold tally. induction ts as [|x ts IH]; cbn.
  - split; [lia|]. intros (i & pc & Hi & _). done.
  - split.
    + intros Hp. destruct (f x) eqn:Hx; [by exists 0%nat, x|].
      cbn in Hp. destruct (proj1 IH Hp) as (i & pc & Hi & Hf). by exists (Datatypes.S i), pc.
    + intros ([|i] & pc & Hi & Hf); simplify_eq/=; [rewrite Hf; cbn; lia|].
      assert (0 < sum_list_with (λ pc, Nat.b2n (f pc)) ts)%nat by (apply IH; eauto). lia.
Qed.

Lemma tally_at {P} (f : P → bool) ts i pc : ts !! i = Some pc → f pc = true → (0 < tally f ts)%nat.
Proof. intros. apply tally_pos. eauto. Qed.

Lemma tally_all_false {P} (f : P → bool) ts : (∀ pc, pc ∈ ts → f pc = false) → tally f ts = 0%nat.
Proof.
  intros H. destruct (decide (0 < tally f ts)%nat) as [Hp|]; [|lia].
  apply tally_pos in Hp as (i & pc & Hi & Hf). rewrite H in Hf; [done|]. by eapply list_elem_of_lookup_2.
Qed.

Lemma tally_replicate {P} (f : P → bool) n pc : f pc = false → tally f (replicate n pc) = 0%nat.
Proof. intros Hf. apply tally_all_false. intros x Hx. apply elem_of_replicate in Hx as [-> _]. done. Qed.

(** Two positions that count are the same when at most one thread counts. *)
Lemma tally_unique {P} (f : P → bool) ts i j pi pj :
  (tally f ts ≤ 1)%nat → ts !! i = Some pi → ts !! j = Some pj → f pi = true → f pj = true → i = j.
Proof.
  unfold tally. revert i j. induction ts as [|x ts IH]; intros [|i] [|j] H1 Hi Hj Hfi Hfj; simplify_eq/=; try done.
  - rewrite Hfi in H1. cbn in H1. assert (0 < tally f ts)%nat by (by eapply tally_at). unfold tally in *. lia.
  - rewrite Hfj in H1. cbn in H1. assert (0 < tally f ts)%nat by (by eapply tally_at). unfold tally in *. lia.
  - f_equal. eapply IH; eauto. lia.
Qed.

(** Rewrites every count of the pool after the step of thread [i]. *)
Ltac tally_step H :=
  repeat match goal with
  | |- context [tally ?f (<[?i := ?x]> ?ts)] =>
      lazymatch goal with
      | _ : (tally f (<[i := x]> ts) + _ = _)%nat |- _ => fail
      | _ => let Ht := fresh "Ht" in pose proof (tally_insert f ts i _ x H) as Ht; cbn [Nat.b2n] in Ht
      end
  end.
