(* ===== verification/Locks.v ===== *)
(** * Locks

    [crates/voker-os/src]: [utils/futex.rs] with its users [utils/spin_lock.rs] and
    [sync/__fallback/mutex.rs], and [sync/__fallback/rwlock.rs].  A thread is at a
    control point of the code; each step is one atomic access. *)

From Stdlib Require Import ZArith Lia.
From S2P Require Import Prelude Threads.
Local Open Scope Z_scope.

(** ** [Futex], [SpinLock] and [Mutex] *)

Section mutex.
Context {T : Type}.

(** [SpinLock] and [Mutex] have the same fields. *)
Record Mutex := mkMutex { mx_futex : bool; mx_data : T }.

Definition Mutex_new (t : T) : Mutex := mkMutex false t.

(** [compare_exchange(false, true)]. *)
Definition Futex_try_lock (self : Mutex) : bool * Mutex :=
  if mx_futex self then (false, self) else (true, mkMutex true (mx_data self)).

Definition Futex_unlock (self : Mutex) : Mutex := mkMutex false (mx_data self).

(** Where a thread is: outside, about to exchange in [try_lock] or [lock], in the
    load loop of [lock], with a guard, with a guard and a copy of the data it
    read through it. *)
Inductive MutexPc :=
| MIdle
| MTry
| MLock
| MSpin
| MHeld
| MLoaded (v : T).

(** What a thread does next where it has a choice: a guard holder reads, writes [f]
    of what it read, or drops the guard. *)
Inductive MutexChoice :=
| CTryLock
| CLock
| CRead
| CWrite (f : T → T)
| CDrop.

Definition mutex_step (m : Mutex) (pc : MutexPc) (c : MutexChoice) : outcome (Mutex * MutexPc * list (T → T)) :=
  match pc, c with
  | MIdle, CTryLock => Ret (m, MTry, [])
  | MIdle, CLock => Ret (m, MLock, [])
  | MIdle, _ => Ret (m, MIdle, [])
  | MTry, _ => let '(ok, m) := Futex_try_lock m in Ret (m, if ok : bool then MHeld else MIdle, [])
  | MLock, _ => let '(ok, m) := Futex_try_lock m in Ret (m, if ok : bool then MHeld else MSpin, [])
  | MSpin, _ => Ret (m, if mx_futex m then MSpin else MLock, [])
  | MHeld, CRead => Ret (m, MLoaded (mx_data m), [])
  | MHeld, CDrop => Ret (Futex_unlock m, MIdle, [])
  | MHeld, _ => Ret (m, MHeld, [])
  | MLoaded v, CWrite f => Ret (mkMutex (mx_futex m) (f v), MHeld, [f])
  | MLoaded v, CDrop => Ret (Futex_unlock m, MIdle, [])
  | MLoaded v, _ => Ret (m, MLoaded v, [])
  end.

Definition holds_guard (pc : MutexPc) : bool := match pc with MHeld | MLoaded _ => true | _ => false end.
End mutex.
#[global] Arguments Mutex : clear implicits.
#[global] Arguments MutexPc : clear implicits.
#[global] Arguments MutexChoice : clear implicits.

(** ** [RwLock] *)

Definition READ_LOCKED : Z := 1.
Definition MASK : Z := Z.shiftl 1 30 - 1.
Definition WRITE_LOCKED : Z := MASK.
Definition DOWNGRADE : Z := wsub32 READ_LOCKED WRITE_LOCKED.
Definition MAX_READERS : Z := MASK - 1.
Definition READERS_WAITING : Z := Z.shiftl 1 30.
Definition WRITERS_WAITING : Z := Z.shiftl 1 31.

Definition is_unlocked (state : Z) : bool := Z.land state MASK =? 0.
Definition is_write_locked (state : Z) : bool := Z.land state MASK =? WRITE_LOCKED.
Definition has_readers_waiting (state : Z) : bool := negb (Z.land state READERS_WAITING =? 0).
Definition has_writers_waiting (state : Z) : bool := negb (Z.land state WRITERS_WAITING =? 0).
Definition is_read_lockable (state : Z) : bool :=
  (Z.land state MASK <? MAX_READERS) && negb (has_readers_waiting state) && negb (has_writers_waiting state).
Definition has_reached_max_readers (state : Z) : bool := Z.land state MASK =? MAX_READERS.

(** Control points: [try_read] and [try_write] (a load and an exchange loop),
    [read], [read_contended], [write], [write_contended], the guards, and the three
    exchanges of [wake_writer_or_readers].  A number is the local [state]. *)
Inductive RwPc :=
| RIdle
| TryReadLoad
| TryReadSwap (s : Z)
| TryWriteLoad
| TryWriteSwap (s : Z)
| ReadLoad
| ReadSwap (s : Z)
| ReadSpin
| ReadContended (s : Z)
| ReadGuard
| WriteSwap
| WriteSpin
| WriteContended (s : Z)
| WriteGuard
| DowngradeClear
| WakeWriters (s : Z)
| WakeBoth (s : Z)
| WakeReaders (s : Z).

(** What a thread starts next; [spurious] lets a weak exchange fail. *)
Inductive RwOp := OpTryRead | OpTryWrite | OpRead | OpWrite | OpDrop | OpDowngrade.
Record RwChoice := mkChoice { rw_op : RwOp; rw_spurious : bool }.

(** [compare_exchange(expected, new)]. *)
Definition exchange (state expected new : Z) : Result unit Z * Z :=
  if state =? expected then (Ok tt, new) else (Err state, state).

(** [compare_exchange_weak], which may fail for no reason. *)
Definition exchange_weak (spurious : bool) (state expected new : Z) : Result unit Z * Z :=
  if spurious then (Err state, state) else exchange state expected new.

(** The rest of [wake_writer_or_readers] from its second test, and the whole of it. *)
Definition wake_rest (s : Z) : RwPc :=
  if s =? READERS_WAITING + WRITERS_WAITING then WakeBoth s
  else if s =? READERS_WAITING then WakeReaders s else RIdle.

Definition wake_writer_or_readers (s : Z) : outcome RwPc :=
  if negb (is_unlocked s) then Panic
  else Ret (if s =? WRITERS_WAITING then WakeWriters s else wake_rest s).

(** [debug_assert!]s are panics. *)
Definition write_unlock (state : Z) : outcome (Z * RwPc) :=
  let new := wsub32 state WRITE_LOCKED in
  if state <? WRITE_LOCKED then Panic
  else if negb (is_unlocked new) then Panic
  else if has_writers_waiting new || has_readers_waiting new
  then pc ← wake_writer_or_readers new; Ret (new, pc)
  else Ret (new, RIdle).

Definition read_unlock (state : Z) : outcome (Z * RwPc) :=
  let new := wsub32 state READ_LOCKED in
  if state <? READ_LOCKED then Panic
  else if negb (negb (has_readers_waiting new) || has_writers_waiting new) then Panic
  else if is_unlocked new && has_writers_waiting new
  then pc ← wake_writer_or_readers new; Ret (new, pc)
  else Ret (new, RIdle).

(** [fetch_add(DOWNGRADE)]; the waiting readers are let in by a second access. *)
Definition downgrade (state : Z) : outcome (Z * RwPc) :=
  if negb (is_write_locked state) then Panic
  else Ret (wadd32 state DOWNGRADE, if has_readers_waiting state then DowngradeClear else ReadGuard).

(** A round of the loop of [read_contended]; the assertion on the number of
    readers is a panic. *)
Definition read_contended (state s : Z) (spurious : bool) : outcome (Z * RwPc) :=
  if is_read_lockable s then
    match exchange_weak spurious state s (s + READ_LOCKED) with
    | (Err s', state) => Ret (state, ReadContended s')
    | (Ok _, state) => Ret (state, ReadGuard)
    end
  else if has_reached_max_readers s then Panic
  else if negb (has_readers_waiting s) then
    match exchange state s (Z.lor s READERS_WAITING) with
    | (Err s', state) => Ret (state, ReadContended s')
    | (Ok _, state) => Ret (state, ReadSpin)
    end
  else Ret (state, ReadContended state).

Definition write_contended (state s : Z) (spurious : bool) : Z * RwPc :=
  if is_unlocked s then
    let target := Z.land s (not32 WRITERS_WAITING) in
    match exchange_weak spurious state s (Z.lor target WRITE_LOCKED) with
    | (Err s', state) => (state, WriteContended s')
    | (Ok _, state) => (state, WriteGuard)
    end
  else if negb (has_writers_waiting s) then
    match exchange state s (Z.lor s WRITERS_WAITING) with
    | (Err s', state) => (state, WriteContended s')
    | (Ok _, state) => (state, WriteSpin)
    end
  else (state, WriteContended state).

Definition rw_step (state : Z) (pc : RwPc) (c : RwChoice) : outcome (Z * RwPc * list unit) :=
  '(state, pc) ←
    match pc with
    | RIdle =>
        Ret (state, match rw_op c with
                    | OpTryRead => TryReadLoad
                    | OpTryWrite => TryWriteLoad
                    | OpRead => ReadLoad
                    | OpWrite => WriteSwap
                    | _ => RIdle
                    end)
    | TryReadLoad => Ret (state, TryReadSwap state)
    | TryReadSwap s =>
        if is_read_lockable s then
          match exchange_weak (rw_spurious c) state s (s + READ_LOCKED) with
          | (Ok _, state) => Ret (state, ReadGuard)
          | (Err s', state) => Ret (state, TryReadSwap s')
          end
        else Ret (state, RIdle)
    | TryWriteLoad => Ret (state, TryWriteSwap state)
    | TryWriteSwap s =>
        if is_unlocked s then
          match exchange_weak (rw_spurious c) state s (Z.lor s WRITE_LOCKED) with
          | (Ok _, state) => Ret (state, WriteGuard)
          | (Err s', state) => Ret (state, TryWriteSwap s')
          end
        else Ret (state, RIdle)
    | ReadLoad => Ret (state, ReadSwap state)
    | ReadSwap s =>
        if negb (is_read_lockable s) then Ret (state, ReadContended state)
        else match exchange_weak (rw_spurious c) state s (s + READ_LOCKED) with
             | (Ok _, state) => Ret (state, ReadGuard)
             | (Err _, state) => Ret (state, ReadSpin)
             end
    | ReadSpin => Ret (state, ReadContended state)
    | ReadContended s => read_contended state s (rw_spurious c)
    | ReadGuard => match rw_op c with OpDrop => read_unlock state | _ => Ret (state, ReadGuard) end
    | WriteSwap =>
        match exchange_weak (rw_spurious c) state 0 WRITE_LOCKED with
        | (Ok _, state) => Ret (state, WriteGuard)
        | (Err _, state) => Ret (state, WriteSpin)
        end
    | WriteSpin => Ret (state, WriteContended state)
    | WriteContended s => Ret (write_contended state s (rw_spurious c))
    | WriteGuard =>
        match rw_op c with OpDrop => write_unlock state | OpDowngrade => downgrade state | _ => Ret (state, WriteGuard) end
    | DowngradeClear => Ret (wsub32 state READERS_WAITING, ReadGuard)
    | WakeWriters s =>
        match exchange state s 0 with
        | (Ok _, state) => Ret (state, RIdle)
        | (Err s', state) => Ret (state, wake_rest s')
        end
    | WakeBoth s => Ret ((exchange state s READERS_WAITING).2, RIdle)
    | WakeReaders s => Ret ((exchange state s 0).2, RIdle)
    end;
  Ret (state, pc, []).

(** Threads that hold a guard; [DowngradeClear] already counts as a reader. *)
Definition holds_read (pc : RwPc) : bool := match pc with ReadGuard | DowngradeClear => true | _ => false end.
Definition holds_write (pc : RwPc) : bool := match pc with WriteGuard => true | _ => false end.

(** Threads in [write_contended], in [read_contended], and in the middle of an
    unlock. *)
Definition waits_write (pc : RwPc) : bool := match pc with WriteSpin | WriteContended _ => true | _ => false end.
Definition waits_read (pc : RwPc) : bool := match pc with ReadSpin | ReadContended _ => true | _ => false end.
Definition waking (pc : RwPc) : bool := match pc with WakeWriters _ | WakeBoth _ | WakeReaders _ => true | _ => false end.
