(* ===== verification/LocksInv.v ===== *)
(** * Locks: exclusion and progress *)

From Stdlib Require Import ZArith Lia.
From S2P Require Import Prelude Threads Locks.
Local Open Scope Z_scope.

(** ** [Mutex] *)

Section mutex.
Context {T : Type}.

(** The flag says whether a guard exists, there is at most one, and a copy taken
    through the guard is current. *)
Definition mutex_inv (t0 : T) (m : Mutex T) (ts : list (MutexPc T)) (log : list (T → T)) : Prop :=
  tally holds_guard ts = Nat.b2n (mx_futex m) ∧
  (∀ i v, ts !! i = Some (MLoaded v) → v = mx_data m) ∧
  mx_data m = foldl (λ d f, f d) t0 log.

Lemma mutex_holder m (ts : list (MutexPc T)) t0 log i pc :
  mutex_inv t0 m ts log → ts !! i = Some pc → holds_guard pc = true → mx_futex m = true.
Proof. intros (Hn & _ & _) Hi Hpc. pose proof (tally_at _ _ _ _ Hi Hpc). by destruct (mx_futex m); cbn in Hn; [|lia]. Qed.

Lemma mutex_step_inv t0 m ts log i pc c m' pc' l :
  mutex_inv t0 m ts log → ts !! i = Some pc → mutex_step m pc c = Ret (m', pc', l) →
  mutex_inv t0 m' (<[i := pc']> ts) (log ++ l).
Proof.
  intros Hinv Hi Hstep. pose proof (mutex_holder _ _ _ _ _ _ Hinv Hi) as Hhold.
  destruct Hinv as (Hn & Hv & Hd).
  assert (∀ j v, j ≠ i → ts !! j = Some (MLoaded v) → holds_guard pc = true → False) as Hone.
  { intros j v Hji Hj Hpc. apply Hji. eapply (tally_unique holds_guard ts); eauto.
    rewrite Hn. destruct (mx_futex m); cbn; lia. }
  pose proof (tally_insert holds_guard ts i pc pc' Hi) as Ht.
  assert (∀ j v, <[i := pc']> ts !! j = Some (MLoaded v) → (j = i ∧ pc' = MLoaded v) ∨ (j ≠ i ∧ ts !! j = Some (MLoaded v))) as Hlook.
  { intros j v Hj. apply list_lookup_insert_Some in Hj as [(-> & -> & _)|[? Hj]]; auto. }
  unfold mutex_step, Futex_try_lock, Futex_unlock in Hstep.
  destruct m as [lk d]; cbn in *.
  destruct pc, c, lk; simplify_eq/=; rewrite ?app_nil_r; (split_and!;
    [ cbn in *; first [lia | by specialize (Hhold eq_refl)]
    | intros j u Hj; destruct (Hlook j u Hj) as [[-> ?]|[Hne ?]]; simplify_eq/=; eauto; try (by exfalso; eauto)
    | rewrite ?foldl_app; cbn; try done ]);
    try (by rewrite (Hv i _ Hi)).
Qed.
End mutex.

(** ** The state word of [RwLock] *)

Definition flag (b : bool) (x : Z) : Z := if b then x else 0.

(** [c] in the counting bits, [r] and [w] in the waiting bits. *)
Definition rw_word (c : Z) (r w : bool) : Z := c + flag r READERS_WAITING + flag w WRITERS_WAITING.

(** Arithmetic on state words. *)
Ltac word_lia :=
  unfold rw_word, flag, Z.b2z, DOWNGRADE in *;
  change READERS_WAITING with 1073741824 in *; change WRITERS_WAITING with 2147483648 in *;
  change WRITE_LOCKED with 1073741823 in *; change MAX_READERS with 1073741822 in *; change READ_LOCKED with 1 in *;
  change (2 ^ 30) with 1073741824 in *; change (2 ^ 31) with 2147483648 in *; lia.

Lemma land_pow2 x n : 0 <= n → Z.land x (2 ^ n) = flag (Z.testbit x n) (2 ^ n).
Proof.
  intros Hn. apply Z.bits_inj'. intros k Hk. rewrite Z.land_spec, Z.pow2_bits_eqb by done.
  destruct (Z.eqb_spec n k) as [->|Hne]; [|rewrite andb_false_r].
  - rewrite andb_true_r. destruct (Z.testbit x k) eqn:Hx; cbn; [by rewrite Z.pow2_bits_true|by rewrite Z.bits_0].
  - destruct (Z.testbit x n); cbn; [by rewrite Z.pow2_bits_false|by rewrite Z.bits_0].
Qed.

Section word.
Variables (c : Z) (r w : bool).
Hypothesis Hc : 0 <= c < 2 ^ 30.

Lemma word_count : Z.land (rw_word c r w) MASK = c.
Proof.
  change MASK with (Z.ones 30). rewrite Z.land_ones by lia. unfold rw_word.
  symmetry. apply (Z.mod_unique _ _ (Z.b2z r + 2 * Z.b2z w)); [lia|]. destruct r, w; word_lia.
Qed.

Lemma word_bit30 : Z.testbit (rw_word c r w) 30 = r.
Proof.
  rewrite Z.testbit_odd, Z.shiftr_div_pow2 by lia.
  rewrite <- (Z.div_unique (rw_word c r w) (2 ^ 30) (Z.b2z r + 2 * Z.b2z w) c); [by destruct r, w|lia|].
  destruct r, w; word_lia.
Qed.

Lemma word_bit31 : Z.testbit (rw_word c r w) 31 = w.
Proof.
  rewrite Z.testbit_odd, Z.shiftr_div_pow2 by lia.
  rewrite <- (Z.div_unique (rw_word c r w) (2 ^ 31) (Z.b2z w) (c + flag r (2 ^ 30))); [by destruct w|destruct r; word_lia|].
  destruct r, w; word_lia.
Qed.

Lemma word_readers : has_readers_waiting (rw_word c r w) = r.
Proof.
  unfold has_readers_waiting. change READERS_WAITING with (2 ^ 30). rewrite land_pow2, word_bit30 by lia. by destruct r.
Qed.

Lemma word_writers : has_writers_waiting (rw_word c r w) = w.
Proof.
  unfold has_writers_waiting. change WRITERS_WAITING with (2 ^ 31). rewrite land_pow2, word_bit31 by lia. by destruct w.
Qed.

Lemma word_unlocked : is_unlocked (rw_word c r w) = (c =? 0).
Proof. unfold is_unlocked. by rewrite word_count. Qed.

Lemma word_write_locked : is_write_locked (rw_word c r w) = (c =? WRITE_LOCKED).
Proof. unfold is_write_locked. by rewrite word_count. Qed.

Lemma word_lockable : is_read_lockable (rw_word c r w) = (c <? MAX_READERS) && negb r && negb w.
Proof. unfold is_read_lockable. by rewrite word_count, word_readers, word_writers. Qed.

Lemma word_add_reader : Z.lor (rw_word c false w) READERS_WAITING = rw_word c true w.
Proof.
  pose proof (Z.add_lor_land (rw_word c false w) (2 ^ 30)) as Ha. rewrite land_pow2 in Ha by lia.
  change READERS_WAITING with (2 ^ 30) at 1. enough (flag (Z.testbit (rw_word c false w) 30) (2 ^ 30) = 0).
  { word_lia. }
  rewrite Z.testbit_odd, Z.shiftr_div_pow2 by lia.
  rewrite <- (Z.div_unique (rw_word c false w) (2 ^ 30) (2 * Z.b2z w) c); [by destruct w|lia|].
  destruct w; word_lia.
Qed.

Lemma word_add_writer : Z.lor (rw_word c r false) WRITERS_WAITING = rw_word c r true.
Proof.
  pose proof (Z.add_lor_land (rw_word c r false) (2 ^ 31)) as Ha. rewrite land_pow2 in Ha by lia.
  change WRITERS_WAITING with (2 ^ 31) at 1. enough (flag (Z.testbit (rw_word c r false) 31) (2 ^ 31) = 0).
  { word_lia. }
  rewrite Z.testbit_odd, Z.shiftr_div_pow2 by lia.
  rewrite <- (Z.div_unique (rw_word c r false) (2 ^ 31) 0 (c + flag r (2 ^ 30))); [done|destruct r; word_lia|].
  destruct r; word_lia.
Qed.
End word.

Lemma word_take_write r w : Z.lor (rw_word 0 r w) WRITE_LOCKED = rw_word WRITE_LOCKED r w.
Proof. by destruct r, w. Qed.

Lemma word_take_write_waiting r w :
  Z.lor (Z.land (rw_word 0 r w) (not32 WRITERS_WAITING)) WRITE_LOCKED = rw_word WRITE_LOCKED r false.
Proof. by destruct r, w. Qed.

Lemma word_release_write r w : wsub32 (rw_word WRITE_LOCKED r w) WRITE_LOCKED = rw_word 0 r w.
Proof. by destruct r, w. Qed.

Lemma word_downgrade r w : wadd32 (rw_word WRITE_LOCKED r w) DOWNGRADE = rw_word 1 r w.
Proof. by destruct r, w. Qed.

Lemma word_release_read c r w : 0 < c < 2 ^ 30 → wsub32 (rw_word c r w) READ_LOCKED = rw_word (c - 1) r w.
Proof.
  intros Hc. unfold wsub32. rewrite Z.mod_small; destruct r, w; word_lia.
Qed.

Lemma word_clear_readers c w : 0 <= c < 2 ^ 30 → wsub32 (rw_word c true w) READERS_WAITING = rw_word c false w.
Proof. intros Hc. unfold wsub32. rewrite Z.mod_small; destruct w; word_lia. Qed.

Lemma word_inj c r w c' r' w' : 0 <= c < 2 ^ 30 → 0 <= c' < 2 ^ 30 → rw_word c r w = rw_word c' r' w' → c = c' ∧ r = r' ∧ w = w'.
Proof.
  intros Hc Hc' He. split_and!.
  - rewrite <- (word_count c r w), <- (word_count c' r' w') by done. by rewrite He.
  - rewrite <- (word_bit30 c r w), <- (word_bit30 c' r' w') by done. by rewrite He.
  - rewrite <- (word_bit31 c r w), <- (word_bit31 c' r' w') by done. by rewrite He.
Qed.

(** ** Exclusion *)

Definition clearing (pc : RwPc) : bool := match pc with DowngradeClear => true | _ => false end.
Definition wakes_readers (pc : RwPc) : bool := match pc with WakeReaders _ => true | _ => false end.

(** The word against the number of readers, writers, waiting writers, downgrades
    and wakes of readers in progress. *)
Record rw_counts (c : Z) (r w : bool) (readers writers waiting clears wakes : nat) : Prop := mkCounts {
  rc_lock : (writers = 0%nat ∧ c = Z.of_nat readers ∧ c <= MAX_READERS) ∨ (writers = 1%nat ∧ readers = 0%nat ∧ c = WRITE_LOCKED);
  rc_writers : w = true → (0 < waiting)%nat;
  rc_clear : (0 < clears)%nat → r = true ∧ readers = 1%nat;
  rc_readers : r = true → (0 < readers)%nat → clears = 0%nat → w = true;
  rc_wake : r = true → w = false → writers = 0%nat → readers = 0%nat → (0 < waiting)%nat ∨ (0 < wakes)%nat
}.

(** The local [state] of a thread that wakes others is the word it waits for. *)
Definition wake_pc_ok (pc : RwPc) : Prop :=
  match pc with
  | WakeWriters s => s = rw_word 0 false true
  | WakeBoth s => s = rw_word 0 true true
  | WakeReaders s => s = rw_word 0 true false
  | _ => True
  end.

Definition rw_at (c : Z) (r w : bool) (ts : list RwPc) : Prop :=
  rw_counts c r w (tally holds_read ts) (tally holds_write ts) (tally waits_write ts) (tally clearing ts) (tally wakes_readers ts).

Definition rw_inv (state : Z) (ts : list RwPc) : Prop :=
  ∃ c r w, state = rw_word c r w ∧ 0 <= c < 2 ^ 30 ∧ rw_at c r w ts ∧ Forall wake_pc_ok ts.

Lemma rw_count_range c r w ts : rw_at c r w ts → 0 <= c < 2 ^ 30.
Proof. intros [[(_ & ? & ?)|(_ & _ & ?)] _ _ _ _]; word_lia. Qed.

(** The words of a state in range, read back. *)
Lemma word_counts c r w nr nw ww cl wk : rw_counts c r w nr nw ww cl wk → 0 <= c < 2 ^ 30.
Proof. intros [[(_ & ? & ?)|(_ & _ & ?)] _ _ _ _]; word_lia. Qed.

(** What a step from [pc] to [pc'] does to the counts. *)
Definition counts_after (pc pc' : RwPc) (c : Z) (r w : bool) (nr nw ww cl wk : nat) : Prop :=
  ∀ nr' nw' ww' cl' wk' : nat,
    (nr' + Nat.b2n (holds_read pc) = nr + Nat.b2n (holds_read pc'))%nat →
    (nw' + Nat.b2n (holds_write pc) = nw + Nat.b2n (holds_write pc'))%nat →
    (ww' + Nat.b2n (waits_write pc) = ww + Nat.b2n (waits_write pc'))%nat →
    (cl' + Nat.b2n (clearing pc) = cl + Nat.b2n (clearing pc'))%nat →
    (wk' + Nat.b2n (wakes_readers pc) = wk + Nat.b2n (wakes_readers pc'))%nat →
    rw_counts c r w nr' nw' ww' cl' wk'.

(** The step of a thread at [pc] returns, and the new word fits the new counts. *)
Definition rw_step_ok (state : Z) (pc : RwPc) (ch : RwChoice) (nr nw ww cl wk : nat) : Prop :=
  ∃ c' r' w' pc', rw_step state pc ch = Ret (rw_word c' r' w', pc', []) ∧ wake_pc_ok pc' ∧
    counts_after pc pc' c' r' w' nr nw ww cl wk.

(** Names the state after the step and closes the counting goals. *)
Ltac counting := intros ?????; cbn [Nat.b2n holds_read holds_write waits_write clearing wakes_readers]; intros;
  constructor; intros; try discriminate; intuition (discriminate || congruence || word_lia).
Ltac next_word c r w := eexists c, r, w, _; split_and!; [reflexivity|done|counting].

Section counts.
Variables (c : Z) (r w : bool) (nr nw ww cl wk : nat).
Hypothesis Hc : rw_counts c r w nr nw ww cl wk.

Lemma same_word pc ch pc' :
  rw_step (rw_word c r w) pc ch = Ret (rw_word c r w, pc', []) → wake_pc_ok pc' →
  holds_read pc = holds_read pc' → holds_write pc = holds_write pc' → clearing pc = clearing pc' →
  (waits_write pc = true → waits_write pc' = true) → (wakes_readers pc = true → wakes_readers pc' = true) →
  rw_step_ok (rw_word c r w) pc ch nr nw ww cl wk.
Proof.
  intros Hs Hok Hr Hw Hcl Hww Hwk. exists c, r, w, pc'. split_and!; [done|done|].
  intros nr' nw' ww' cl' wk' H1 H2 H3 H4 H5. rewrite Hr, Hw, Hcl in *.
  destruct Hc as [K1 K2 K3 K4 K5].
  assert (nr' = nr) as -> by lia. assert (nw' = nw) as -> by lia. assert (cl' = cl) as -> by lia.
  assert (ww ≤ ww')%nat by (destruct (waits_write pc); [rewrite Hww in H3 by done|]; cbn in *; destruct (waits_write pc'); cbn in *; lia).
  assert (wk ≤ wk')%nat by (destruct (wakes_readers pc); [rewrite Hwk in H5 by done|]; cbn in *; destruct (wakes_readers pc'); cbn in *; lia).
  constructor; auto.
  - intros Hw'. specialize (K2 Hw'). lia.
  - intros ????. destruct K5 as [?|?]; auto; lia.
Qed.
End counts.

Section steps.
Variables (c : Z) (r w : bool) (nr nw ww cl wk : nat).
Hypothesis Hc : rw_counts c r w nr nw ww cl wk.

Hypothesis Hr : 0 <= c < 2 ^ 30.

(** An exchange against a word read earlier either fails or finds that word. *)
Lemma exchange_cases sp s new :
  (exchange_weak sp (rw_word c r w) s new = (Err (rw_word c r w), rw_word c r w)) ∨
  (s = rw_word c r w ∧ exchange_weak sp (rw_word c r w) s new = (Ok tt, new)).
Proof.
  unfold exchange_weak, exchange. destruct sp; [by left|].
  destruct (Z.eqb_spec (rw_word c r w) s) as [<-|]; auto.
Qed.

Lemma lockable_word : is_read_lockable (rw_word c r w) = true →
  r = false ∧ w = false ∧ c < MAX_READERS ∧ rw_word c r w + READ_LOCKED = rw_word (c + 1) r w.
Proof.
  rewrite word_lockable by done. intros [[H1%Z.ltb_lt H2%negb_true_iff]%andb_prop H3%negb_true_iff]%andb_prop.
  split_and!; try done. unfold rw_word, READ_LOCKED. lia.
Qed.

(** Taking the lock shared, and exclusively. *)
Lemma take_read pc : holds_read pc = false → holds_write pc = false → waits_write pc = false → clearing pc = false → wakes_readers pc = false →
  r = false → w = false → c < MAX_READERS → counts_after pc ReadGuard (c + 1) r w nr nw ww cl wk.
Proof.
  intros E1 E2 E3 E4 E5 -> -> Hlt. destruct Hc. unfold counts_after. rewrite E1, E2, E3, E4, E5. counting.
Qed.

Lemma take_write pc w' : holds_read pc = false → holds_write pc = false → clearing pc = false → wakes_readers pc = false →
  c = 0 → w' = false ∨ (w' = w ∧ waits_write pc = false) → counts_after pc WriteGuard WRITE_LOCKED r w' nr nw ww cl wk.
Proof.
  intros E1 E2 E4 E5 Hz Hw. destruct Hc. unfold counts_after. rewrite E1, E2, E4, E5.
  destruct Hw as [->|[-> E3]]; [destruct (waits_write pc); counting|rewrite E3; destruct w; counting].
Qed.

Ltac stay pc' := apply (same_word _ _ _ _ _ _ _ _ Hc _ _ pc'); [|done..].

Lemma try_read_ok s ch : rw_step_ok (rw_word c r w) (TryReadSwap s) ch nr nw ww cl wk.
Proof.
  destruct (is_read_lockable s) eqn:Hl.
  - destruct (exchange_cases (rw_spurious ch) s (s + READ_LOCKED)) as [He|[-> He]].
    + stay (TryReadSwap (rw_word c r w)). cbn. by rewrite Hl, He.
    + destruct (lockable_word Hl) as (? & ? & ? & Hadd).
      exists (c + 1), r, w, ReadGuard. split_and!; [|done|by apply take_read]. cbn. by rewrite Hl, He, Hadd.
  - stay RIdle. cbn. by rewrite Hl.
Qed.

Lemma read_ok s ch : rw_step_ok (rw_word c r w) (ReadSwap s) ch nr nw ww cl wk.
Proof.
  destruct (is_read_lockable s) eqn:Hl.
  - destruct (exchange_cases (rw_spurious ch) s (s + READ_LOCKED)) as [He|[-> He]].
    + stay ReadSpin. cbn. by rewrite Hl, He.
    + destruct (lockable_word Hl) as (? & ? & ? & Hadd).
      exists (c + 1), r, w, ReadGuard. split_and!; [|done|by apply take_read]. cbn. by rewrite Hl, He, Hadd.
  - stay (ReadContended (rw_word c r w)). cbn. by rewrite Hl.
Qed.

Lemma read_contended_ok s ch : has_reached_max_readers s = false → rw_step_ok (rw_word c r w) (ReadContended s) ch nr nw ww cl wk.
Proof.
  intros Hm. destruct (is_read_lockable s) eqn:Hl.
  { destruct (exchange_cases (rw_spurious ch) s (s + READ_LOCKED)) as [He|[-> He]].
    + stay (ReadContended (rw_word c r w)). cbn. unfold read_contended. by rewrite Hl, He.
    + destruct (lockable_word Hl) as (? & ? & ? & Hadd).
      exists (c + 1), r, w, ReadGuard. split_and!; [|done|by apply take_read]. cbn. unfold read_contended. by rewrite Hl, He, Hadd. }
  destruct (has_readers_waiting s) eqn:Hw.
  { stay (ReadContended (rw_word c r w)). cbn. unfold read_contended. by rewrite Hl, Hm, Hw. }
  destruct (exchange_cases false s (Z.lor s READERS_WAITING)) as [He|[-> He]].
  { stay (ReadContended (rw_word c r w)). cbn in *. unfold read_contended. by rewrite Hl, Hm, Hw, He. }
  rewrite word_readers in Hw by done. subst r.
  exists c, true, w, ReadSpin. split_and!; [|done|].
  { cbn in *. unfold read_contended. by rewrite Hl, Hm, word_readers, He, word_add_reader. }
  unfold has_reached_max_readers in Hm. rewrite word_count, Z.eqb_neq in Hm by done.
  rewrite word_lockable in Hl by done. destruct Hc as [K1 K2 K3 K4 K5].
  assert (w = true ∨ c = WRITE_LOCKED) as Hcase.
  { destruct w; [by left|right]. rewrite !andb_true_r, Z.ltb_ge in Hl. word_lia. }
  destruct w; counting.
Qed.

Lemma try_write_ok s ch : rw_step_ok (rw_word c r w) (TryWriteSwap s) ch nr nw ww cl wk.
Proof.
  destruct (is_unlocked s) eqn:Hl; [|stay RIdle; cbn; by rewrite Hl].
  destruct (exchange_cases (rw_spurious ch) s (Z.lor s WRITE_LOCKED)) as [He|[-> He]].
  { stay (TryWriteSwap (rw_word c r w)). cbn. by rewrite Hl, He. }
  pose proof Hl as Hz. rewrite word_unlocked, Z.eqb_eq in Hz by done.
  exists WRITE_LOCKED, r, w, WriteGuard. split_and!; [|done|apply take_write; auto].
  cbn. rewrite Hl, He. subst c. by rewrite word_take_write.
Qed.

Lemma write_ok ch : rw_step_ok (rw_word c r w) WriteSwap ch nr nw ww cl wk.
Proof.
  destruct (exchange_cases (rw_spurious ch) 0 WRITE_LOCKED) as [He|[Hz He]].
  { stay WriteSpin. cbn. by rewrite He. }
  destruct (word_inj 0 false false c r w) as (Ec & Er & Ew); [lia|done|done|].
  exists WRITE_LOCKED, r, w, WriteGuard. split_and!; [|done|apply take_write; auto]. cbn. rewrite He. by rewrite <- Er, <- Ew.
Qed.

Lemma write_contended_ok s ch : (0 < ww)%nat → rw_step_ok (rw_word c r w) (WriteContended s) ch nr nw ww cl wk.
Proof.
  intros Hpos.
  destruct (is_unlocked s) eqn:Hl.
  { destruct (exchange_cases (rw_spurious ch) s (Z.lor (Z.land s (not32 WRITERS_WAITING)) WRITE_LOCKED)) as [He|[-> He]].
    { stay (WriteContended (rw_word c r w)). cbn. unfold write_contended. by rewrite Hl, He. }
    pose proof Hl as Hz. rewrite word_unlocked, Z.eqb_eq in Hz by done.
    exists WRITE_LOCKED, r, false, WriteGuard. split_and!; [|done|apply take_write; auto].
    cbn. unfold write_contended. rewrite Hl, He. subst c. by rewrite word_take_write_waiting. }
  destruct (has_writers_waiting s) eqn:Hw.
  { stay (WriteContended (rw_word c r w)). cbn. unfold write_contended. by rewrite Hl, Hw. }
  destruct (exchange_cases false s (Z.lor s WRITERS_WAITING)) as [He|[-> He]].
  { stay (WriteContended (rw_word c r w)). cbn in *. unfold write_contended. by rewrite Hl, Hw, He. }
  rewrite word_writers in Hw by done. subst w.
  exists c, r, true, WriteSpin. split_and!; [|done|].
  { cbn in *. unfold write_contended. by rewrite Hl, word_writers, He, word_add_writer. }
  destruct Hc as [K1 K2 K3 K4 K5]. destruct r; counting.
Qed.

(** Dropping a guard, and downgrading one. *)
Lemma wake_start r' w' : wake_writer_or_readers (rw_word 0 r' w') =
  Ret (if r' then if w' then WakeBoth (rw_word 0 true true) else WakeReaders (rw_word 0 true false)
       else if w' then WakeWriters (rw_word 0 false true) else RIdle).
Proof. by destruct r', w'. Qed.

Lemma read_guard_ok ch : (cl < nr)%nat → rw_step_ok (rw_word c r w) ReadGuard ch nr nw ww cl wk.
Proof.
  intros Hcl. destruct (rw_op ch) eqn:Ho; try (stay ReadGuard; cbn; by rewrite Ho).
  pose proof Hc as [K1 K2 K3 K4 K5].
  assert (c = Z.of_nat nr ∧ nw = 0%nat ∧ c <= MAX_READERS) as (Ec & Enw & Emax) by (destruct K1 as [?|?]; [tauto|lia]).
  assert (cl = 0)%nat as Ecl by (destruct (decide (0 < cl)%nat) as [Hp|]; [destruct (K3 Hp); lia|lia]).
  assert (r = true → w = true) as Hrw by (intros; apply K4; auto; lia).
  assert (0 < c) as Hpos by lia.
  assert (read_unlock (rw_word c r w) = Ret (rw_word (c - 1) r w,
            if (c - 1 =? 0) && w then (if r then WakeBoth (rw_word 0 true true) else WakeWriters (rw_word 0 false true)) else RIdle)) as Hu.
  { unfold read_unlock. rewrite word_release_read by lia.
    destruct (Z.ltb_spec (rw_word c r w) READ_LOCKED) as [Hlt|_]; [destruct r, w; word_lia|].
    rewrite word_readers, word_writers, word_unlocked by lia.
    replace (negb (negb r || w)) with false by (destruct r, w; auto; by specialize (Hrw eq_refl)).
    destruct (Z.eqb_spec (c - 1) 0) as [E|E]; [|done]. destruct w; [|done]. cbn [andb]. rewrite E, wake_start. by destruct r. }
  eexists (c - 1), r, w, _. split_and!.
  - cbn. rewrite Ho, Hu. reflexivity.
  - by destruct (c - 1 =? 0), w, r.
  - destruct (Z.eqb_spec (c - 1) 0) as [E|E], w, r; cbn [andb]; counting.
Qed.

Lemma write_guard_ok ch : (0 < nw)%nat → rw_step_ok (rw_word c r w) WriteGuard ch nr nw ww cl wk.
Proof.
  intros Hnw. pose proof Hc as [K1 K2 K3 K4 K5].
  assert (c = WRITE_LOCKED ∧ nw = 1%nat ∧ nr = 0%nat) as (Ec & Enw & Enr) by (destruct K1 as [?|?]; [lia|tauto]).
  assert (cl = 0)%nat as Ecl by (destruct (decide (0 < cl)%nat) as [Hp|]; [destruct (K3 Hp); lia|lia]).
  destruct (rw_op ch) eqn:Ho; try (stay WriteGuard; cbn; by rewrite Ho).
  - eexists 0, r, w, _. split_and!.
    + cbn. rewrite Ho, Ec. unfold write_unlock. rewrite word_release_write.
      destruct (Z.ltb_spec (rw_word WRITE_LOCKED r w) WRITE_LOCKED) as [Hlt|_]; [destruct r, w; word_lia|].
      rewrite word_unlocked, word_readers, word_writers by lia. cbn [negb Z.eqb]. rewrite wake_start.
      instantiate (1 := if r then if w then WakeBoth (rw_word 0 true true) else WakeReaders (rw_word 0 true false)
       else if w then WakeWriters (rw_word 0 false true) else RIdle). by destruct r, w.
    + by destruct r, w.
    + destruct r, w; counting.
  - eexists 1, r, w, _. split_and!.
    + cbn. rewrite Ho, Ec. unfold downgrade. rewrite word_write_locked by word_lia. rewrite word_downgrade, word_readers by word_lia.
      cbn [negb Z.eqb]. reflexivity.
    + by destruct r.
    + destruct r, w; counting.
Qed.

Lemma downgrade_clear_ok ch : (0 < cl)%nat → (cl ≤ nr)%nat → rw_step_ok (rw_word c r w) DowngradeClear ch nr nw ww cl wk.
Proof.
  intros Hcl Hle. pose proof Hc as [K1 K2 K3 K4 K5]. destruct (K3 Hcl) as [Er Enr].
  exists c, false, w, ReadGuard. split_and!; [|done|destruct w; counting].
  cbn. by rewrite Er, word_clear_readers.
Qed.

(** The exchanges of [wake_writer_or_readers]. *)
Lemma wake_writers_ok ch : rw_step_ok (rw_word c r w) (WakeWriters (rw_word 0 false true)) ch nr nw ww cl wk.
Proof.
  pose proof Hc as [K1 K2 K3 K4 K5].
  destruct (exchange_cases false (rw_word 0 false true) 0) as [He|[Hs He]]; cbn in He.
  - assert (wake_rest (rw_word c r w) = RIdle ∨ (wake_rest (rw_word c r w) = WakeBoth (rw_word 0 true true)) ∨
            (wake_rest (rw_word c r w) = WakeReaders (rw_word 0 true false))) as Hrest.
    { unfold wake_rest. change (READERS_WAITING + WRITERS_WAITING) with (rw_word 0 true true).
      change READERS_WAITING with (rw_word 0 true false).
      destruct (Z.eqb_spec (rw_word c r w) (rw_word 0 true true)) as [->|]; [auto|].
      destruct (Z.eqb_spec (rw_word c r w) (rw_word 0 true false)) as [->|]; auto. }
    destruct Hrest as [Hrest|[Hrest|Hrest]]; [stay RIdle|stay (WakeBoth (rw_word 0 true true))|stay (WakeReaders (rw_word 0 true false))];
      cbn; by rewrite He, Hrest.
  - destruct (word_inj 0 false true c r w) as (Ec & Er & Ew); [lia|done|done|]. symmetry in Ec, Er, Ew.
    exists 0, false, false, RIdle. split_and!; [cbn; by rewrite He|done|counting].
Qed.

Lemma wake_both_ok ch : rw_step_ok (rw_word c r w) (WakeBoth (rw_word 0 true true)) ch nr nw ww cl wk.
Proof.
  pose proof Hc as [K1 K2 K3 K4 K5].
  destruct (exchange_cases false (rw_word 0 true true) READERS_WAITING) as [He|[Hs He]]; cbn in He.
  - stay RIdle. cbn. by rewrite He.
  - destruct (word_inj 0 true true c r w) as (Ec & Er & Ew); [lia|done|done|]. symmetry in Ec, Er, Ew.
    exists 0, true, false, RIdle. split_and!; [cbn; by rewrite He|done|counting].
Qed.

Lemma wake_readers_ok ch : rw_step_ok (rw_word c r w) (WakeReaders (rw_word 0 true false)) ch nr nw ww cl wk.
Proof.
  pose proof Hc as [K1 K2 K3 K4 K5].
  destruct (exchange_cases false (rw_word 0 true false) 0) as [He|[Hs He]]; cbn in He.
  - exists c, r, w, RIdle. split_and!; [cbn; by rewrite He|done|].
    assert (¬ (r = true ∧ w = false ∧ c = 0)) as Hne.
    { intros (-> & -> & ->). unfold exchange in He. rewrite Z.eqb_refl in He. done. }
    destruct r, w; counting.
  - destruct (word_inj 0 true false c r w) as (Ec & Er & Ew); [lia|done|done|]. symmetry in Ec, Er, Ew.
    exists 0, false, false, RIdle. split_and!; [cbn; by rewrite He|done|counting].
Qed.
End steps.

Lemma clearing_le ts : (tally clearing ts ≤ tally holds_read ts)%nat.
Proof.
  unfold tally. induction ts as [|pc ts IH]; cbn; [lia|]. destruct pc; cbn; lia.
Qed.

Lemma read_guard_room ts i : ts !! i = Some ReadGuard → (tally clearing ts < tally holds_read ts)%nat.
Proof.
  intros Hi. pose proof (clearing_le (<[i := RIdle]> ts)) as Hle.
  pose proof (tally_insert clearing ts i _ RIdle Hi) as H1. pose proof (tally_insert holds_read ts i _ RIdle Hi) as H2.
  cbn in *. lia.
Qed.

(** A thread in [read_contended] that saw the greatest number of readers; the
    next step of such a thread panics. *)
Definition saw_max_readers (pc : RwPc) : bool := match pc with ReadContended s => has_reached_max_readers s | _ => false end.

Lemma rw_step_not_max state pc ch x : rw_step state pc ch = Ret x → saw_max_readers pc = false.
Proof.
  destruct pc; try done. cbn. unfold read_contended, is_read_lockable, has_reached_max_readers.
  destruct (Z.eqb_spec (Z.land s MASK) MAX_READERS) as [->|]; [|done]. by rewrite Z.ltb_irrefl.
Qed.

Lemma rw_step_total c r w ts i pc ch :
  rw_at c r w ts → Forall wake_pc_ok ts → ts !! i = Some pc → saw_max_readers pc = false →
  rw_step_ok (rw_word c r w) pc ch (tally holds_read ts) (tally holds_write ts) (tally waits_write ts) (tally clearing ts) (tally wakes_readers ts).
Proof.
  intros Hat Hok Hi Hmax. pose proof (rw_count_range _ _ _ _ Hat) as Hr.
  pose proof (Forall_lookup_1 _ _ _ _ Hok Hi) as Hpc. unfold rw_at in Hat.
  destruct pc.
  - destruct (rw_op ch) eqn:Ho; (eapply same_word; [exact Hat|cbn; by rewrite Ho|done..]).
  - eapply same_word; [exact Hat|done..].
  - by apply try_read_ok.
  - eapply same_word; [exact Hat|done..].
  - by apply try_write_ok.
  - eapply same_word; [exact Hat|done..].
  - by apply read_ok.
  - eapply same_word; [exact Hat|done..].
  - by apply read_contended_ok.
  - apply read_guard_ok; [done..|]. by eapply read_guard_room.
  - by apply write_ok.
  - eapply same_word; [exact Hat|done..].
  - apply write_contended_ok; [done..|]. by eapply tally_at.
  - apply write_guard_ok; [done..|]. by eapply tally_at.
  - apply downgrade_clear_ok; [done..| |apply clearing_le]. by eapply tally_at.
  - cbn in Hpc. subst. by apply wake_writers_ok.
  - cbn in Hpc. subst. by apply wake_both_ok.
  - cbn in Hpc. subst. by apply wake_readers_ok.
Qed.

Lemma rw_inv_step state ts i pc ch state' pc' l :
  rw_inv state ts → ts !! i = Some pc → rw_step state pc ch = Ret (state', pc', l) → rw_inv state' (<[i := pc']> ts).
Proof.
  intros (c & r & w & -> & Hr & Hat & Hok) Hi Hs.
  destruct (rw_step_total c r w ts i pc ch Hat Hok Hi (rw_step_not_max _ _ _ _ Hs)) as (c' & r' & w' & pc2 & Hs2 & Hpc & Hcounts).
  rewrite Hs in Hs2. simplify_eq.
  assert (rw_at c' r' w' (<[i := pc2]> ts)) as Hat'.
  { apply Hcounts; by apply tally_insert. }
  exists c', r', w'. split_and!; [done| | |done|].
  - pose proof (rw_count_range _ _ _ _ Hat'). lia.
  - pose proof (rw_count_range _ _ _ _ Hat'). lia.
  - by apply Forall_insert.
Qed.

Lemma rw_inv_start n : rw_inv 0 (replicate n RIdle).
Proof.
  exists 0, false, false. split_and!; [done|lia|lia| |by apply Forall_replicate].
  unfold rw_at. rewrite !tally_replicate by done. constructor; try done; try lia. left. split_and!; [done|done|word_lia].
Qed.

Lemma rw_run_inv n log state ts : pool_run rw_step (0, replicate n RIdle) log (state, ts) → rw_inv state ts.
Proof.
  apply (pool_invariant rw_step (λ s ts _, rw_inv s ts)); [apply rw_inv_start|].
  intros. by eapply rw_inv_step.
Qed.

(** ** The number of readers *)

(** A thread enters or stays in the loop of [read_contended] with the word it
    just read, and without a guard. *)
Lemma read_contended_local state pc ch state' s l :
  rw_step state pc ch = Ret (state', ReadContended s, l) → s = state ∧ holds_read pc = false.
Proof.
  destruct pc; cbn; unfold read_contended, exchange_weak, exchange, write_contended, read_unlock, write_unlock, downgrade,
    wake_writer_or_readers, wake_rest; intros Hs; repeat first [done | progress simplify_eq | progress cbn in Hs | case_match].
Qed.

Lemma tally_le {S} (f : S → bool) ts : (tally f ts ≤ length ts)%nat.
Proof. unfold tally. induction ts as [|x ts IH]; cbn; [lia|]. destruct (f x); cbn; lia. Qed.

Lemma readers_below state ts i pc : rw_inv state ts → Z.of_nat (length ts) <= MAX_READERS →
  ts !! i = Some pc → holds_read pc = false → has_reached_max_readers state = false.
Proof.
  intros (c & r & w & -> & Hc & Hat & _) Hn Hi Hpc. unfold has_reached_max_readers. rewrite word_count by done.
  pose proof (rc_lock _ _ _ _ _ _ _ _ Hat) as Hlock. apply Z.eqb_neq.
  assert (tally holds_read ts < length ts)%nat; [|word_lia].
  pose proof (tally_insert holds_read ts i pc ReadGuard Hi) as Ht. rewrite Hpc in Ht. cbn in Ht.
  pose proof (tally_le holds_read (<[i := ReadGuard]> ts)) as Hle. rewrite length_insert in Hle. lia.
Qed.

(** With no more threads than the lock can count, nobody sees it full. *)
Lemma rw_run_not_max n log state ts : Z.of_nat n <= MAX_READERS →
  pool_run rw_step (0, replicate n RIdle) log (state, ts) → Forall (λ pc, saw_max_readers pc = false) ts.
Proof.
  intros Hn Hrun.
  assert (rw_inv state ts ∧ length ts = n ∧ Forall (λ pc, saw_max_readers pc = false) ts) as (_ & _ & ?); [|done].
  revert log state ts Hrun.
  apply (pool_invariant rw_step (λ s ts _, rw_inv s ts ∧ length ts = n ∧ Forall (λ pc, saw_max_readers pc = false) ts)).
  - split; [apply rw_inv_start|]. split; [by rewrite length_replicate|by apply Forall_replicate].
  - intros m ts log i pc ch m' pc' l (Hinv & Hlen & Hall) Hi Hs. split; [by eapply rw_inv_step|]. split; [by rewrite length_insert|].
    apply Forall_insert; [done|]. destruct pc'; try done.
    apply read_contended_local in Hs as [-> Hpc]. eapply readers_below; eauto. lia.
Qed.

(** ** Progress *)

Definition go (op : RwOp) : RwChoice := mkChoice op false.

(** A waiting writer takes a free lock in two steps of its own. *)
Lemma writer_proceeds r w pc : waits_write pc = true →
  ∃ state', solo_run rw_step (rw_word 0 r w) pc [go OpWrite; go OpWrite] = Ret (state', WriteGuard).
Proof.
  assert (write_contended (rw_word 0 r w) (rw_word 0 r w) false = (rw_word WRITE_LOCKED r false, WriteGuard)) as Hlast.
  { unfold write_contended. rewrite word_unlocked by lia. cbn [Z.eqb]. unfold exchange_weak, exchange.
    by rewrite Z.eqb_refl, word_take_write_waiting. }
  destruct pc; try discriminate; intros _; cbn -[write_contended rw_word].
  { rewrite Hlast. eauto. }
  assert (write_contended (rw_word 0 r w) s false = (rw_word 0 r w, WriteContended (rw_word 0 r w)) ∨
          ∃ state', write_contended (rw_word 0 r w) s false = (state', WriteGuard)) as [He|[state' He]].
  { unfold write_contended. destruct (is_unlocked s) eqn:Hu.
    - unfold exchange_weak, exchange. destruct (rw_word 0 r w =? s); eauto.
    - destruct (has_writers_waiting s) eqn:Hw; [by left|]. cbn [negb]. unfold exchange.
      destruct (Z.eqb_spec (rw_word 0 r w) s) as [<-|]; [|by left]. by rewrite word_unlocked in Hu by lia. }
  - rewrite He. cbn -[write_contended rw_word]. rewrite Hlast. eauto.
  - rewrite He. eauto.
Qed.

(** A waiting reader takes a free lock nobody waits for, unless it last saw the
    greatest number of readers. *)
Lemma reader_proceeds pc : waits_read pc = true → saw_max_readers pc = false →
  ∃ state', solo_run rw_step 0 pc [go OpRead; go OpRead] = Ret (state', ReadGuard).
Proof.
  destruct pc; try discriminate; intros _ Hm; cbn -[read_contended].
  { eauto. }
  cbn in Hm. assert (read_contended 0 s false = Ret (0, ReadContended 0) ∨ read_contended 0 s false = Ret (1, ReadGuard)) as [He|He].
  { unfold read_contended. rewrite Hm. destruct (is_read_lockable s) eqn:Hl.
    - unfold exchange_weak, exchange. destruct (Z.eqb_spec 0 s) as [<-|]; auto.
    - destruct (has_readers_waiting s) eqn:Hw; [by left|]. cbn [negb]. unfold exchange.
      destruct (Z.eqb_spec 0 s) as [<-|]; [done|by left]. }
  - rewrite He. eauto.
  - rewrite He. eauto.
Qed.

Lemma free_word state ts : rw_inv state ts → tally holds_read ts = 0%nat → tally holds_write ts = 0%nat → ∃ r w, state = rw_word 0 r w.
Proof.
  intros (c & r & w & -> & _ & [[(_ & Hc & _)|(? & _ & _)] _ _ _ _] & _) Hnr Hnw; [|lia]. exists r, w. by rewrite Hc, Hnr.
Qed.

Lemma quiet_word state ts : rw_inv state ts → tally holds_read ts = 0%nat → tally holds_write ts = 0%nat →
  tally waits_write ts = 0%nat → tally waking ts = 0%nat → state = 0.
Proof.
  intros (c & r & w & -> & _ & [K1 K2 _ _ K5] & _) Hnr Hnw Hww Hwk.
  assert (tally wakes_readers ts ≤ tally waking ts)%nat as Hle.
  { unfold tally. clear. induction ts as [|pc ts IH]; cbn; [lia|]. destruct pc; cbn; lia. }
  destruct w; [specialize (K2 eq_refl); lia|].
  destruct r; [destruct (K5 eq_refl eq_refl Hnw Hnr); lia|].
  destruct K1 as [(_ & Hc & _)|(? & _ & _)]; [|lia]. rewrite Hc, Hnr. done.
Qed.

(** ** Theorems *)

(** [SpinLock] and [Mutex]: in every interleaving of any number of threads that
    lock, try to lock, read and write through the guard and drop it, at most one
    guard exists, the flag says whether one does, and the data are the result of
    all writes in the order they were made, so no update is lost. *)
Theorem mutex_exclusive {T} (t0 : T) n log m ts :
  pool_run mutex_step (Mutex_new t0, replicate n MIdle) log (m, ts) →
  (tally holds_guard ts ≤ 1)%nat ∧ mx_futex m = bool_decide (0 < tally holds_guard ts)%nat ∧
  mx_data m = foldl (λ d f, f d) t0 log.
Proof.
  intros Hrun.
  assert (mutex_inv t0 m ts log) as (Hn & _ & Hd).
  { revert log m ts Hrun. apply (pool_invariant mutex_step (mutex_inv t0)).
    - split_and!; [by apply tally_replicate| |done]. intros i v Hi. by apply lookup_replicate in Hi as [? _].
    - intros. by eapply mutex_step_inv. }
  rewrite Hn. by destruct (mx_futex m); cbn; split_and!; try lia.
Qed.

(** C29: [RwLock]: in every interleaving of any number of threads that take, try,
    downgrade and drop read and write guards there is at most one writer and no
    reader beside it, and the state word never overflows.  With no more threads
    than [MAX_READERS], no assertion of the lock fails; with more, only the one in
    [read_contended] that counts the readers can. *)
Theorem rwlock_exclusive n log state ts :
  pool_run rw_step (0, replicate n RIdle) log (state, ts) →
  (tally holds_write ts ≤ 1)%nat ∧ (tally holds_write ts = 1%nat → tally holds_read ts = 0%nat) ∧
  is_u32 state ∧ (Z.of_nat n <= MAX_READERS → steps_defined rw_step (state, ts)) ∧
  (∀ i pc ch, ts !! i = Some pc → saw_max_readers pc = false → ∃ x, rw_step state pc ch = Ret x).
Proof.
  intros Hrun. pose proof (rw_run_inv n log state ts Hrun) as (c & r & w & -> & Hc & Hat & Hok).
  pose proof (rc_lock _ _ _ _ _ _ _ _ Hat) as Hlock.
  assert (Hdef : ∀ i pc ch, ts !! i = Some pc → saw_max_readers pc = false → ∃ x, rw_step (rw_word c r w) pc ch = Ret x).
  { intros i pc ch Hi Hm. destruct (rw_step_total c r w ts i pc ch Hat Hok Hi Hm) as (? & ? & ? & ? & Hs & _). eauto. }
  split_and!; [lia|lia|unfold is_u32; destruct r, w; word_lia| |exact Hdef].
  intros Hn i pc ch Hi. eapply Hdef; [exact Hi|]. pose proof (rw_run_not_max n log _ ts Hn Hrun) as Hall.
  by eapply Forall_lookup_1 in Hall.
Qed.

(** C30: [RwLock] loses no wake-up: whenever no thread holds a guard, every thread
    waiting in [write_contended] gets the lock in two steps of its own; and when
    moreover no writer waits, no thread is in the middle of waking others after an
    unlock, and there are no more threads than [MAX_READERS], so does every thread
    waiting in [read_contended]. *)
Theorem rwlock_no_lost_wakeup n log state ts i pc :
  pool_run rw_step (0, replicate n RIdle) log (state, ts) →
  tally holds_read ts = 0%nat → tally holds_write ts = 0%nat → ts !! i = Some pc →
  (waits_write pc = true → ∃ state', solo_run rw_step state pc [go OpWrite; go OpWrite] = Ret (state', WriteGuard)) ∧
  (waits_read pc = true → tally waits_write ts = 0%nat → tally waking ts = 0%nat → Z.of_nat n <= MAX_READERS →
   ∃ state', solo_run rw_step state pc [go OpRead; go OpRead] = Ret (state', ReadGuard)).
Proof.
  intros Hrun0 Hnr Hnw Hi. pose proof (rw_run_inv n log state ts Hrun0) as Hrun. split.
  - intros Hw. destruct (free_word _ _ Hrun Hnr Hnw) as (r & w & ->). by apply writer_proceeds.
  - intros Hr Hww Hwk Hn. rewrite (quiet_word state ts) by done. apply reader_proceeds; [done|].
    pose proof (rw_run_not_max n log _ ts Hn Hrun0) as Hall. by eapply Forall_lookup_1 in Hall.
Qed.

(** ** Examples *)

(** Two threads add to a counter; the second spins until the first is done. *)
Definition ex_mutex_turns : list (nat * MutexChoice Z) :=
  [(0%nat, CLock); (0%nat, CLock); (1%nat, CLock); (1%nat, CLock); (0%nat, CRead); (0%nat, CWrite (Z.add 1)); (1%nat, CLock); (0%nat, CDrop);
   (1%nat, CLock); (1%nat, CLock); (1%nat, CRead); (1%nat, CWrite (Z.add 2))].

Lemma mutex_exclusive_witness :
  (tally (holds_guard (T := Z)) [MIdle; MHeld] ≤ 1)%nat ∧ true = bool_decide (0 < tally (holds_guard (T := Z)) [MIdle; MHeld])%nat ∧
  3 = foldl (λ d (f : Z → Z), f d) 0 [Z.add 1; Z.add 2].
Proof.
  apply (mutex_exclusive 0 2 [Z.add 1; Z.add 2] (mkMutex true 3) [MIdle; MHeld]).
  apply (turns_run_start _ _ _ ex_mutex_turns). reflexivity.
Defined.

(** A writer holds the lock, a reader and another writer wait, and it is dropped. *)
Definition ex_rw_turns : list (nat * RwChoice) :=
  [(0%nat, go OpWrite); (0%nat, go OpWrite);
   (1%nat, go OpRead); (1%nat, go OpRead); (1%nat, go OpRead); (1%nat, go OpRead);
   (2%nat, go OpWrite); (2%nat, go OpWrite); (2%nat, go OpWrite); (2%nat, go OpWrite);
   (0%nat, go OpDrop); (0%nat, go OpDrop)].

Definition ex_rw_pool : list RwPc := [RIdle; ReadSpin; WriteSpin].

Lemma ex_rw_run : pool_run rw_step (0, replicate 3 RIdle) [] (READERS_WAITING, ex_rw_pool).
Proof. apply (turns_run_start _ _ _ ex_rw_turns). reflexivity. Qed.

Lemma rwlock_exclusive_witness :
  (tally holds_write ex_rw_pool ≤ 1)%nat ∧ (tally holds_write ex_rw_pool = 1%nat → tally holds_read ex_rw_pool = 0%nat) ∧
  is_u32 READERS_WAITING ∧ steps_defined rw_step (READERS_WAITING, ex_rw_pool).
Proof.
  destruct (rwlock_exclusive 3 [] READERS_WAITING ex_rw_pool ex_rw_run) as (H1 & H2 & H3 & H4 & _).
  split; [exact H1|]. split; [exact H2|]. split; [exact H3|]. apply H4. by vm_compute.
Defined.

Lemma rwlock_no_lost_wakeup_witness :
  ∃ state', solo_run rw_step READERS_WAITING WriteSpin [go OpWrite; go OpWrite] = Ret (state', WriteGuard).
Proof.
  exact (proj1 (rwlock_no_lost_wakeup 3 [] READERS_WAITING ex_rw_pool 2 WriteSpin ex_rw_run eq_refl eq_refl eq_refl) eq_refl).
Defined.
