(* ===== verification/OnceLock.v ===== *)
(** * One-time initialisation

    [crates/voker-os/src/sync/__fallback/once.rs] ([Once], [OnceLock]) and
    [lazylock.rs].  Threads interleave at every access of the state byte and of the
    cell; the closures that compute a value return one or panic. *)

From Stdlib Require Import ZArith Lia.
From S2P Require Import Prelude Threads.
Local Open Scope Z_scope.

Definition POISONED : Z := 3.
Definition INCOMPLETE : Z := 2.
Definition RUNNING : Z := 1.
Definition COMPLETE : Z := 0.

(** ** The code *)

Section once.
Context {T : Type}.

(** Whether the cell is a [LazyLock], whose closure is stored in the cell. *)
Variable lazy : bool.

(** The cell: [OnceLock]'s [MaybeUninit<T>], or [LazyLock]'s union, which holds the
    closure until it is taken out. *)
Inductive Data :=
| DataF
| DataUninit
| DataValue (v : T).

Record OnceCell := mkOnce { oc_state : Z; oc_data : Data }.

(** [OnceLock::new] and [LazyLock::new]. *)
Definition OnceCell_new : OnceCell := mkOnce INCOMPLETE (if lazy then DataF else DataUninit).

Definition is_completed (self : OnceCell) : bool := oc_state self =? COMPLETE.

(** A [compare_exchange_weak] of the state byte. *)
Definition once_exchange (self : OnceCell) (spurious : bool) (expected new : Z) : Result unit Z * OnceCell :=
  if negb spurious && (oc_state self =? expected) then (Ok tt, mkOnce new (oc_data self)) else (Err (oc_state self), self).

(** [assume_init_ref], or the value field of the union. *)
Definition get_unchecked (self : OnceCell) : outcome T :=
  match oc_data self with DataValue v => Ret v | _ => Undefined end.

(** Who initialises: [get_or_init] or [LazyLock::force], and [set]. *)
Inductive Init := InitWith | InitSet (v : T).

(** Control points of [get]; of [get_or_init], [set] and [force] through
    [Once::call]; of [wait].  [InitRead k mine]: about to return, [mine] when the
    closure of this call ran. *)
Inductive OncePc :=
| OIdle
| GetLoad
| GetRead
| InitLoad (k : Init)
| CallCheck (k : Init)
| CallLoad (k : Init)
| CallLoop (k : Init) (state : Z)
| Running (k : Init) (poisoned : bool)
| RunningF (k : Init)
| Writing (k : Init) (v : T)
| Completing (k : Init)
| InitRead (k : Init) (mine : bool)
| WaitCheck
| WaitLoad
| WaitLoop (state : Z)
| WaitRead.

(** What the caller starts, whether a weak exchange fails, and what its closure
    does: [None] is a panic. *)
Inductive OnceOp := OpGet | OpInit (k : Init) | OpWait.
Record OnceChoice := mkOnceChoice { oc_op : OnceOp; oc_spurious : bool; oc_closure : option T }.

(** What a step reports: the value is stored, a reference to it is returned, [set]
    answers. *)
Inductive OnceEvent :=
| Stored (v : T)
| Got (v : T)
| SetOk (v : T)
| SetErr (v : T).

(** The closure of [initialize] and [LazyLock::force]. *)
Definition closure_result (k : Init) (c : OnceChoice) : option T :=
  match k with InitSet v => Some v | InitWith => oc_closure c end.

(** The guard stores [POISONED] when the closure unwinds. *)
Definition run_closure (self : OnceCell) (k : Init) (c : OnceChoice) : OnceCell * OncePc :=
  match closure_result k c with
  | Some v => (self, Writing k v)
  | None => (mkOnce POISONED (oc_data self), OIdle)
  end.

(** A round of the loop of [Once::call] with [ignore_poisoning]. *)
Definition call_loop (self : OnceCell) (k : Init) (state : Z) (c : OnceChoice) : outcome (OnceCell * OncePc) :=
  if state =? COMPLETE then Ret (self, InitRead k false)
  else if (state =? INCOMPLETE) || (state =? POISONED) then
    match once_exchange self (oc_spurious c) state RUNNING with
    | (Err new, self) => Ret (self, CallLoop k new)
    | (Ok _, self) => Ret (self, Running k (state =? POISONED))
    end
  else if negb (state =? RUNNING) then Panic
  else Ret (self, CallLoop k (oc_state self)).

Definition once_step (self : OnceCell) (pc : OncePc) (c : OnceChoice) : outcome (OnceCell * OncePc * list OnceEvent) :=
  match pc with
  | OIdle =>
      Ret (self, match oc_op c with OpGet => GetLoad | OpInit k => if lazy then CallCheck InitWith else InitLoad k | OpWait => WaitCheck end, [])
  | GetLoad => Ret (self, if is_completed self then GetRead else OIdle, [])
  | GetRead => v ← get_unchecked self; Ret (self, OIdle, [Got v])
  | InitLoad k => Ret (self, if is_completed self then InitRead k false else CallCheck k, [])
  | CallCheck k => Ret (self, if is_completed self then InitRead k false else CallLoad k, [])
  | CallLoad k => Ret (self, CallLoop k (oc_state self), [])
  | CallLoop k state => '(self, pc) ← call_loop self k state c; Ret (self, pc, [])
  | Running k poisoned =>
      if lazy then
        if poisoned : bool then Ret (mkOnce POISONED (oc_data self), OIdle, [])
        else match oc_data self with
             | DataF => Ret (mkOnce (oc_state self) DataUninit, RunningF k, [])
             | _ => Undefined
             end
      else let '(self, pc) := run_closure self k c in Ret (self, pc, [])
  | RunningF k => let '(self, pc) := run_closure self k c in Ret (self, pc, [])
  | Writing k v => Ret (mkOnce (oc_state self) (DataValue v), Completing k, [Stored v])
  | Completing k => Ret (mkOnce COMPLETE (oc_data self), InitRead k true, [])
  | InitRead k mine =>
      v ← get_unchecked self;
      Ret (self, OIdle, match k with InitWith => [Got v] | InitSet w => if mine : bool then [SetOk w] else [SetErr w] end)
  | WaitCheck => Ret (self, if is_completed self then WaitRead else WaitLoad, [])
  | WaitLoad => Ret (self, WaitLoop (oc_state self), [])
  | WaitLoop state => if state =? COMPLETE then Ret (self, WaitRead, []) else Ret (self, WaitLoop (oc_state self), [])
  | WaitRead => v ← get_unchecked self; Ret (self, OIdle, [Got v])
  end.

(** [OnceLock::take], with exclusive access. *)
Definition OnceLock_take (self : OnceCell) : outcome (option T * OnceCell) :=
  if is_completed self then v ← get_unchecked self; Ret (Some v, mkOnce INCOMPLETE (oc_data self)) else Ret (None, self).

(** What the drop of a cell drops: the value, the unused closure, or nothing; a cell
    cannot be dropped while a closure runs. *)
Inductive Dropped := DropNone | DropF | DropValue (v : T).

Definition OnceCell_drop (self : OnceCell) : outcome Dropped :=
  if oc_state self =? COMPLETE then v ← get_unchecked self; Ret (DropValue v)
  else if negb lazy then Ret DropNone
  else if oc_state self =? INCOMPLETE then match oc_data self with DataF => Ret DropF | _ => Undefined end
  else if oc_state self =? POISONED then Ret DropNone else Panic.

(** ** Initialised once *)

Definition running (pc : OncePc) : bool :=
  match pc with Running _ _ | RunningF _ | Writing _ _ | Completing _ => true | _ => false end.

Definition stored (log : list OnceEvent) : list T := omap (λ e, match e with Stored v => Some v | _ => None end) log.

Definition ours (k : Init) (v : T) : Prop := match k with InitSet w => v = w | InitWith => True end.

(** What a control point knows of the cell and of the values stored so far. *)
Definition once_pc_ok (o : OnceCell) (log : list OnceEvent) (pc : OncePc) : Prop :=
  match pc with
  | GetRead | WaitRead | InitRead _ false => oc_state o = COMPLETE
  | InitRead k true => oc_state o = COMPLETE ∧ ∃ v, stored log = [v] ∧ ours k v
  | CallLoop _ s => 0 <= s <= 3 ∧ (s = COMPLETE → oc_state o = COMPLETE)
  | WaitLoop s => s = COMPLETE → oc_state o = COMPLETE
  | Running k p => oc_state o = RUNNING ∧ stored log = [] ∧ (lazy = true → p = false → oc_data o = DataF)
  | RunningF k => oc_state o = RUNNING ∧ stored log = []
  | Writing k v => oc_state o = RUNNING ∧ stored log = [] ∧ ours k v
  | Completing k => oc_state o = RUNNING ∧ ∃ v, oc_data o = DataValue v ∧ stored log = [v] ∧ ours k v
  | _ => True
  end.

Record once_inv (o : OnceCell) (ts : list OncePc) (log : list OnceEvent) : Prop := mkOnceInv {
  oi_state : 0 <= oc_state o <= 3;
  oi_running : tally running ts = Nat.b2n (oc_state o =? RUNNING);
  oi_complete : oc_state o = COMPLETE → ∃ v, oc_data o = DataValue v ∧ stored log = [v];
  oi_incomplete : oc_state o = INCOMPLETE → stored log = [] ∧ (lazy = true → oc_data o = DataF);
  oi_poisoned : oc_state o = POISONED → stored log = [];
  oi_pcs : Forall (once_pc_ok o log) ts;
  oi_got : ∀ v, Got v ∈ log → oc_state o = COMPLETE ∧ stored log = [v];
  oi_set : ∀ v, SetOk v ∈ log → oc_state o = COMPLETE ∧ stored log = [v];
  oi_lost : ∀ v, SetErr v ∈ log → oc_state o = COMPLETE
}.
End once.
#[global] Arguments Data : clear implicits.
#[global] Arguments OnceCell : clear implicits.
#[global] Arguments Init : clear implicits.
#[global] Arguments OncePc : clear implicits.
#[global] Arguments OnceChoice : clear implicits.
#[global] Arguments OnceEvent : clear implicits.
#[global] Arguments OnceOp : clear implicits.
#[global] Arguments Dropped : clear implicits.
