(* ===== verification/OnceLockInv.v ===== *)
(** * One-time initialisation: the value is stored once *)

From Stdlib Require Import ZArith Lia.
From S2P Require Import Prelude Threads OnceLock.
Local Open Scope Z_scope.

Section inv.
Context {T : Type}.
Variable lazy : bool.
Implicit Types (o : OnceCell T) (log : list (OnceEvent T)) (pc : OncePc T) (ts : list (OncePc T)).

Lemma stored_app log l : stored (log ++ l) = stored log ++ stored l.
Proof. unfold stored. by rewrite omap_app. Qed.

(** Events that store nothing. *)
Lemma stored_quiet log l : stored l = [] → stored (log ++ l) = stored log.
Proof. intros Hl. by rewrite stored_app, Hl, app_nil_r. Qed.

(** A control point outside the closure, before completion, knows nothing of the
    cell. *)
Lemma outside_ok o log o' log' pc : once_pc_ok lazy o log pc → running pc = false → oc_state o ≠ COMPLETE → once_pc_ok lazy o' log' pc.
Proof. destruct pc as [| | | | | | | | | | |k []| | | |]; cbn; try done.
  - intros [? H] _ Hnc. split; [done|]. intros E. by destruct (Hnc (H E)).
  - by intros [? ?].
  - intros H _ Hnc E. by destruct (Hnc (H E)).
Qed.

Lemma same_cell_ok o log log' pc : once_pc_ok lazy o log pc → stored log' = stored log → once_pc_ok lazy o log' pc.
Proof. intros H Hs. destruct pc as [| | | | | | | | | | |k []| | | |]; cbn in *; rewrite ?Hs; done. Qed.

(** Steps that leave the cell alone. *)
Lemma keep_cell o ts log i pc pc' l :
  once_inv lazy o ts log → ts !! i = Some pc → running pc' = running pc → stored l = [] →
  once_pc_ok lazy o log pc' →
  (∀ v, Got v ∈ l → oc_state o = COMPLETE ∧ stored log = [v]) →
  (∀ v, SetOk v ∈ l → oc_state o = COMPLETE ∧ stored log = [v]) →
  (∀ v, SetErr v ∈ l → oc_state o = COMPLETE) →
  once_inv lazy o (<[i := pc']> ts) (log ++ l).
Proof.
  intros [I1 I2 I3 I4 I5 I6 I7 I8 I9] Hi Hrun Hl Hpc Hg Hs Hx.
  pose proof (tally_insert running ts i _ pc' Hi) as Ht. rewrite Hrun in Ht.
  pose proof (stored_quiet log l Hl) as Hst.
  constructor; rewrite ?Hst; auto.
  - lia.
  - apply Forall_insert; [|by eapply same_cell_ok].
    eapply Forall_impl; [exact I6|]. intros q Hq. by eapply same_cell_ok.
  - intros v [?|?]%elem_of_app; auto.
  - intros v [?|?]%elem_of_app; auto.
  - intros v [?|?]%elem_of_app; eauto.
Qed.

(** A once_silent step to a control point that knows nothing it did not know. *)
Lemma once_silent o ts log i pc pc' :
  once_inv lazy o ts log → ts !! i = Some pc → running pc' = running pc → once_pc_ok lazy o log pc' →
  once_inv lazy o (<[i := pc']> ts) (log ++ []).
Proof. intros Hinv Hi Hr Hpc. eapply keep_cell; eauto; intros v Hv; by apply not_elem_of_nil in Hv. Qed.

(** Steps that change the cell: before completion, by the one thread that runs the
    closure or that starts to. *)
Lemma change_cell o ts log i pc o' pc' l :
  once_inv lazy o ts log → ts !! i = Some pc → oc_state o ≠ COMPLETE →
  (running pc = true ∨ oc_state o ≠ RUNNING) →
  (∀ v, Got v ∉ l) → (∀ v, SetOk v ∉ l) → (∀ v, SetErr v ∉ l) →
  0 <= oc_state o' <= 3 → Nat.b2n (running pc') = Nat.b2n (oc_state o' =? RUNNING) →
  (oc_state o' = COMPLETE → ∃ v, oc_data o' = DataValue v ∧ stored (log ++ l) = [v]) →
  oc_state o' ≠ INCOMPLETE →
  (oc_state o' = POISONED → stored (log ++ l) = []) →
  once_pc_ok lazy o' (log ++ l) pc' →
  once_inv lazy o' (<[i := pc']> ts) (log ++ l).
Proof.
  intros [I1 I2 I3 I4 I5 I6 I7 I8 I9] Hi Hnc Hwho Hg Hs Hx H1 H2 H3 H4 H5 Hpc.
  pose proof (tally_insert running ts i _ pc' Hi) as Ht.
  assert (tally running ts = Nat.b2n (running pc)) as Hone.
  { destruct Hwho as [Hr|Hr].
    - rewrite Hr, I2. pose proof (tally_at _ _ _ _ Hi Hr) as Hpos. rewrite I2 in Hpos.
      destruct (oc_state o =? RUNNING); cbn in *; lia.
    - rewrite I2, (proj2 (Z.eqb_neq _ _) Hr). destruct (running pc) eqn:Hp; [|done].
      pose proof (tally_at _ _ _ _ Hi Hp) as Hpos. rewrite I2, (proj2 (Z.eqb_neq _ _) Hr) in Hpos. cbn in Hpos. lia. }
  constructor; auto.
  - rewrite <- H2. lia.
  - intros. done.
  - apply Forall_lookup. intros j q [(-> & -> & _)|[Hne Hj]]%list_lookup_insert_Some; [done|].
    assert (running q = false) as Hq.
    { destruct (running q) eqn:Hq; [|done]. exfalso. apply Hne. destruct (running pc) eqn:Hp.
      - eapply (tally_unique running ts); eauto. cbn in Hone. lia.
      - pose proof (tally_at _ _ _ _ Hj Hq). cbn in Hone. lia. }
    eapply outside_ok; [by eapply Forall_lookup_1| |]; done.
  - intros v [[? _]%I7|?]%elem_of_app; [done|by exfalso; eapply Hg].
  - intros v [[? _]%I8|?]%elem_of_app; [done|by exfalso; eapply Hs].
  - intros v [?%I9|?]%elem_of_app; [done|by exfalso; eapply Hx].
Qed.

Lemma complete_value o ts log : once_inv lazy o ts log → oc_state o = COMPLETE → ∃ v, get_unchecked o = Ret v ∧ stored log = [v].
Proof. intros Hinv Hc. destruct (oi_complete _ _ _ _ Hinv Hc) as (v & Hd & Hs). exists v. unfold get_unchecked. by rewrite Hd. Qed.

Lemma completed_spec o : is_completed o = true → oc_state o = COMPLETE.
Proof. apply Z.eqb_eq. Qed.

(** A step returns and keeps the invariant. *)
Definition once_step_ok o ts log (i : nat) pc c : Prop :=
  ∃ o' pc' l, once_step lazy o pc c = Ret (o', pc', l) ∧ once_inv lazy o' (<[i := pc']> ts) (log ++ l).

Section step.
Variables (o : OnceCell T) (ts : list (OncePc T)) (log : list (OnceEvent T)) (i : nat).
Hypothesis Hinv : once_inv lazy o ts log.

(** Tests of the state byte that leave the cell alone. *)
Lemma test_ok pc c pc1 pc2 :
  ts !! i = Some pc → running pc = false → running pc1 = false → running pc2 = false →
  once_step lazy o pc c = Ret (o, if is_completed o then pc1 else pc2, []) →
  (oc_state o = COMPLETE → once_pc_ok lazy o log pc1) → once_pc_ok lazy o log pc2 → once_step_ok o ts log i pc c.
Proof.
  intros Hi Hp H1 H2 Hs Hok1 Hok2. eexists _, _, _. split; [exact Hs|].
  destruct (is_completed o) eqn:Hc; (eapply once_silent; [done|done|by rewrite ?H1, ?H2|]); auto using completed_spec.
Qed.

(** Returning a reference to the value. *)
Lemma got_ok pc c : ts !! i = Some pc → running pc = false → oc_state o = COMPLETE →
  (∀ v, get_unchecked o = Ret v → once_step lazy o pc c = Ret (o, OIdle, [Got v])) → once_step_ok o ts log i pc c.
Proof.
  intros Hi Hp Hc Hs. destruct (complete_value _ _ _ Hinv Hc) as (v & Hv & Hst). eexists _, _, _. split; [by apply Hs|].
  eapply keep_cell; eauto; [done| |]; intros u Hu; apply list_elem_of_singleton in Hu; by simplify_eq.
Qed.

Ltac no_event := intros ? Hev; by apply not_elem_of_nil in Hev.

Lemma call_loop_ok k s c : ts !! i = Some (CallLoop k s) → once_step_ok o ts log i (CallLoop k s) c.
Proof.
  intros Hi. pose proof (Forall_lookup_1 _ _ _ _ (oi_pcs _ _ _ _ Hinv) Hi) as [Hs Hsc].
  pose proof Hinv as [I1 _ _ I4 I5 _ _ _ _].
  unfold once_step_ok, once_step, call_loop.
  destruct (Z.eqb_spec s COMPLETE) as [Hc|Hnc].
  { eexists _, _, _. split; [reflexivity|]. eapply once_silent; eauto. cbn. auto. }
  destruct ((s =? INCOMPLETE) || (s =? POISONED)) eqn:Hfree.
  - unfold once_exchange. destruct (negb (oc_spurious c) && (oc_state o =? s)) eqn:He; cbn [mbind outcome_bind].
    + apply andb_prop in He as [_ He%Z.eqb_eq]. eexists _, _, _. split; [reflexivity|].
      apply orb_prop in Hfree. assert (stored log = []) as Hst.
      { destruct Hfree as [E%Z.eqb_eq|E%Z.eqb_eq]; [by apply I4; lia|apply I5; lia]. }
      eapply change_cell; eauto; cbn; try done; try no_event.
      * lia.
      * right. unfold RUNNING, INCOMPLETE, POISONED in *. destruct Hfree as [E%Z.eqb_eq|E%Z.eqb_eq]; lia.
      * split_and!; [done|by rewrite app_nil_r|]. intros Hlazy Hp. apply Z.eqb_neq in Hp.
        destruct Hfree as [E%Z.eqb_eq|E%Z.eqb_eq]; [apply I4; [lia|done]|done].
    + eexists _, _, _. split; [reflexivity|]. eapply once_silent; eauto. done.
  - apply orb_false_elim in Hfree as [E1%Z.eqb_neq E2%Z.eqb_neq]. unfold INCOMPLETE, POISONED, COMPLETE in *.
    destruct (Z.eqb_spec s RUNNING) as [Hr|Hr]; [|unfold RUNNING in *; lia].
    eexists _, _, _. split; [reflexivity|]. eapply once_silent; eauto. done.
Qed.

(** The closure returns or panics. *)
Lemma closure_ok k c pc :
  ts !! i = Some pc → running pc = true → oc_state o = RUNNING → stored log = [] →
  (once_step lazy o pc c = let '(o', pc') := run_closure o k c in Ret (o', pc', [])) → once_step_ok o ts log i pc c.
Proof.
  intros Hi Hp Hr Hst Hs. unfold once_step_ok. rewrite Hs. unfold run_closure. destruct (closure_result k c) as [v|] eqn:Hv.
  - eexists _, _, _. split; [reflexivity|]. eapply once_silent; eauto. cbn. split_and!; [done|done|].
    destruct k; cbn in *; [done|by simplify_eq].
  - eexists _, _, _. split; [reflexivity|]. eapply change_cell; eauto; cbn; rewrite ?app_nil_r; try done; try no_event. by rewrite Hr.
Qed.

Lemma running_ok k p c : ts !! i = Some (Running k p) → once_step_ok o ts log i (Running k p) c.
Proof.
  intros Hi. pose proof (Forall_lookup_1 _ _ _ _ (oi_pcs _ _ _ _ Hinv) Hi) as (Hr & Hst & Hd).
  assert (lazy = true ∨ lazy = false) as [Hlazy|Hlazy] by (destruct lazy; auto);
    [|eapply closure_ok; eauto; cbn; by rewrite Hlazy].
  unfold once_step_ok, once_step. destruct p.
  - eexists _, _, _. split; [rewrite Hlazy; reflexivity|]. eapply change_cell; eauto; cbn; rewrite ?app_nil_r; try done; try no_event. by rewrite Hr.
  - eexists _, _, _. split; [rewrite Hlazy, Hd by done; reflexivity|].
    eapply change_cell; eauto; cbn; rewrite ?app_nil_r, ?Hr; try done; try no_event.
Qed.

Lemma init_read_ok k mine c : ts !! i = Some (InitRead k mine) → once_step_ok o ts log i (InitRead k mine) c.
Proof.
  intros Hi. pose proof (Forall_lookup_1 _ _ _ _ (oi_pcs _ _ _ _ Hinv) Hi) as Hok.
  assert (oc_state o = COMPLETE) as Hc by (by destruct mine; cbn in Hok; [destruct Hok|]).
  destruct k as [|w]; [by eapply got_ok; eauto; intros v Hv; cbn; rewrite Hv|].
  destruct (complete_value _ _ _ Hinv Hc) as (v & Hv & Hst). eexists _, _, _. split; [cbn; by rewrite Hv|].
  eapply keep_cell; eauto; [by destruct mine|done|..]; intros u Hu; destruct mine; apply list_elem_of_singleton in Hu; simplify_eq; try done.
  destruct Hok as (_ & x & Hx & Ho). cbn in Ho. by subst.
Qed.

Lemma once_step_total pc c : ts !! i = Some pc → once_step_ok o ts log i pc c.
Proof.
  intros Hi. pose proof (Forall_lookup_1 _ _ _ _ (oi_pcs _ _ _ _ Hinv) Hi) as Hok. destruct pc; cbn in Hok.
  - eexists _, _, _. split; [reflexivity|]. eapply once_silent; eauto;
    (destruct (oc_op c); [done|by destruct (lazy : bool)|done]).
  - by apply (test_ok _ c GetRead OIdle).
  - by eapply got_ok; eauto; intros v Hv; cbn; rewrite Hv.
  - by apply (test_ok _ c (InitRead k false) (CallCheck k)).
  - by apply (test_ok _ c (InitRead k false) (CallLoad k)).
  - eexists _, _, _. split; [reflexivity|]. eapply once_silent; eauto. split; [apply Hinv|done].
  - by apply call_loop_ok.
  - by apply running_ok.
  - destruct Hok. by eapply closure_ok.
  - destruct Hok as (Hr & Hst & Ho). eexists _, _, _. split; [reflexivity|].
    eapply change_cell; eauto; cbn; rewrite ?Hr; try done;
      try (intros ? Hev; by apply list_elem_of_singleton in Hev).
    split; [done|]. exists v. rewrite stored_app, Hst. done.
  - destruct Hok as (Hr & v & Hd & Hst & Ho). eexists _, _, _. split; [reflexivity|].
    eapply change_cell; eauto; cbn; rewrite ?Hr, ?app_nil_r; try done; try no_event; eauto.
  - by apply init_read_ok.
  - by apply (test_ok _ c WaitRead WaitLoad).
  - eexists _, _, _. split; [reflexivity|]. eapply once_silent; eauto; cbn; auto.
  - cbn. unfold once_step_ok, once_step. destruct (Z.eqb_spec state COMPLETE) as [Hc|Hc];
      (eexists _, _, _; split; [reflexivity|]; eapply once_silent; eauto); cbn; auto.
  - by eapply got_ok; eauto; intros v Hv; cbn; rewrite Hv.
Qed.
End step.

Lemma once_inv_start n : once_inv (T := T) lazy (OnceCell_new lazy) (replicate n OIdle) [].
Proof.
  constructor; cbn; try done.
  - by apply tally_replicate.
  - intros _. split; [done|]. by intros ->.
  - by apply Forall_replicate.
  - intros v Hv. by apply not_elem_of_nil in Hv.
  - intros v Hv. by apply not_elem_of_nil in Hv.
  - intros v Hv. by apply not_elem_of_nil in Hv.
Qed.

Lemma once_run_inv n log o ts :
  pool_run (once_step lazy) (OnceCell_new lazy, replicate n OIdle) log (o, ts) → once_inv lazy o ts log.
Proof.
  apply (pool_invariant (once_step lazy) (once_inv lazy)); [apply once_inv_start|].
  intros s ts' log' i pc c s' pc' l Hinv Hi Hs. destruct (once_step_total s ts' log' i Hinv pc c Hi) as (o' & pc2 & l2 & Hs2 & Hinv').
  rewrite Hs in Hs2. by simplify_eq.
Qed.
End inv.

(** ** Theorems *)

(** C31: [OnceLock] and [LazyLock]: in every interleaving of any number of threads
    that get, initialise, set and wait, with closures that return or panic, at most
    one value is ever stored; every reference handed out is to that value; [set]
    answers [Ok] only for the value stored and [Err] only after one is; no step reads
    an uninitialised cell, takes the closure twice or fails an assertion; and the
    state byte is [RUNNING] exactly while one thread is in the closure, so a thread
    that spins always waits for a thread that can move. *)
Theorem once_initialised {T} (lazy : bool) n (log : list (OnceEvent T)) o ts :
  pool_run (once_step lazy) (OnceCell_new lazy, replicate n OIdle) log (o, ts) →
  (length (stored log) ≤ 1)%nat ∧
  (∀ v, Got v ∈ log ∨ SetOk v ∈ log → stored log = [v]) ∧
  (∀ v, SetErr v ∈ log → ∃ u, stored log = [u]) ∧
  tally running ts = Nat.b2n (oc_state o =? RUNNING) ∧
  steps_defined (once_step lazy) (o, ts).
Proof.
  intros Hinv%once_run_inv. pose proof Hinv as [I1 I2 I3 I4 I5 I6 I7 I8 I9]. split_and!.
  - unfold COMPLETE, INCOMPLETE, POISONED, RUNNING in *.
    destruct (decide (oc_state o = 0)) as [E|]; [destruct (I3 E) as (v & _ & ->); cbn; lia|].
    destruct (decide (oc_state o = 2)) as [E|]; [destruct (I4 E) as [-> _]; cbn; lia|].
    destruct (decide (oc_state o = 3)) as [E|]; [rewrite (I5 E); cbn; lia|].
    assert (oc_state o = 1) as E by lia. rewrite E in I2. cbn in I2.
    assert (0 < tally running ts)%nat as Hpos by lia. apply tally_pos in Hpos as (i & pc & Hi & Hp).
    pose proof (Forall_lookup_1 _ _ _ _ I6 Hi) as Hok. destruct pc; try discriminate; cbn in Hok.
    + destruct Hok as (_ & -> & _). cbn. lia.
    + destruct Hok as (_ & ->). cbn. lia.
    + destruct Hok as (_ & -> & _). cbn. lia.
    + destruct Hok as (_ & u & _ & -> & _). cbn. lia.
  - intros v [?|?]; [by apply I7|by apply I8].
  - intros v Hv. destruct (I3 (I9 v Hv)) as (u & _ & Hu). eauto.
  - done.
  - intros i pc c Hi. destruct (once_step_total lazy o ts log i Hinv pc c Hi) as (o' & pc' & l & Hs & _). eauto.
Qed.

(** A cell that no thread uses any more is dropped exactly: the value if one was
    stored, else the unused closure of a [LazyLock] whose initialisation never began;
    and [OnceLock::take] returns the value and leaves a cell that starts afresh. *)
Theorem once_dropped {T} (lazy : bool) n (log : list (OnceEvent T)) o ts :
  pool_run (once_step lazy) (OnceCell_new lazy, replicate n OIdle) log (o, ts) → (∀ pc, pc ∈ ts → pc = OIdle) →
  OnceCell_drop lazy o =
    Ret (match stored log with v :: _ => DropValue v | [] => if lazy && (oc_state o =? INCOMPLETE) then DropF else DropNone end) ∧
  ∃ o', OnceLock_take o = Ret (head (stored log), o') ∧
    oc_state o' = match stored log with _ :: _ => INCOMPLETE | [] => oc_state o end.
Proof.
  intros Hinv%once_run_inv Hidle. destruct Hinv as [I1 I2 I3 I4 I5 _ _ _ _].
  assert (oc_state o ≠ RUNNING) as Hnr.
  { intros E. rewrite E in I2. cbn in I2. assert (0 < tally running ts)%nat as Hpos by lia.
    apply tally_pos in Hpos as (i & pc & Hi & Hp). by rewrite (Hidle pc) in Hp by (by eapply list_elem_of_lookup_2). }
  unfold OnceCell_drop, OnceLock_take, is_completed.
  destruct (Z.eqb_spec (oc_state o) COMPLETE) as [E|E].
  - destruct (I3 E) as (v & Hd & ->). unfold get_unchecked. rewrite Hd. cbn. eauto.
  - destruct (Z.eqb_spec (oc_state o) INCOMPLETE) as [E2|E2].
    + destruct (I4 E2) as [-> Hf]. destruct lazy; cbn; [rewrite Hf by done|]; eauto.
    + assert (oc_state o = POISONED) as E3 by (unfold COMPLETE, INCOMPLETE, POISONED, RUNNING in *; lia).
      rewrite (I5 E3), E3. destruct lazy; cbn; eauto.
Qed.

(** ** Examples *)

(** Two threads initialise a cell at once; the first closure panics. *)
Definition with_closure (r : option Z) : OnceChoice Z := mkOnceChoice (OpInit InitWith) false r.

Definition ex_once_turns : list (nat * OnceChoice Z) :=
  ((λ i, (0%nat, with_closure None)) <$> seq 0 6) ++ ((λ i, (1%nat, with_closure (Some 7))) <$> seq 0 9).

Lemma ex_once_run :
  pool_run (once_step false) (OnceCell_new false, replicate 2 OIdle) [Stored 7; Got 7] (mkOnce COMPLETE (DataValue 7), [OIdle; OIdle]).
Proof. apply (turns_run_start _ _ _ ex_once_turns). reflexivity. Qed.

Lemma once_initialised_witness :
  (length (stored [Stored 7; Got 7]) ≤ 1)%nat ∧
  (∀ v, Got v ∈ [Stored 7; Got 7] ∨ SetOk v ∈ [Stored 7; Got 7] → stored [Stored 7; Got 7] = [v]) ∧
  (∀ v, SetErr v ∈ [Stored 7; Got 7] → ∃ u, stored [Stored 7; Got 7] = [u]) ∧
  tally running [OIdle (T := Z); OIdle] = Nat.b2n (COMPLETE =? RUNNING) ∧
  steps_defined (once_step false) (mkOnce COMPLETE (DataValue 7), [OIdle; OIdle]).
Proof. exact (once_initialised false 2 [Stored 7; Got 7] (mkOnce COMPLETE (DataValue 7)) [OIdle; OIdle] ex_once_run). Defined.

Lemma once_dropped_witness :
  OnceCell_drop false (mkOnce COMPLETE (DataValue 7)) = Ret (DropValue 7) ∧
  ∃ o', OnceLock_take (mkOnce COMPLETE (DataValue 7)) = Ret (Some 7, o') ∧ oc_state o' = INCOMPLETE.
Proof.
  apply (once_dropped false 2 [Stored 7; Got 7] (mkOnce COMPLETE (DataValue 7)) [OIdle; OIdle] ex_once_run).
  intros pc Hpc. apply elem_of_cons in Hpc as [->|Hpc]; [reflexivity|]. by apply list_elem_of_singleton in Hpc as ->.
Defined.
