(* ===== verification/Hierarchy.v ===== *)
(** * Relationships

    [crates/voker-ecs/src/relationship/relationship.rs] (the hooks of both sides),
    [methods.rs], [collection.rs] (the [Vec] source set) and [hierarchy.rs]: a
    relationship component on the source entity, the list of sources on its target,
    and the commands the hooks queue to keep the two in step.  A command runs before
    those queued behind it finish, and the commands it queues run right after it, so
    the pending commands are a stack ([CommandQueue] proves this of the queue). *)

From Stdlib Require Import ZArith Lia.
From S2P Require Import Prelude.

Section relationship.
Context {E : Type} `{Countable E}.

(** [ALLOW_SELF_REFERENTIAL] and [LINKED_LIFECYCLE] of the two components, and
    whether the relationship's hook is called before its target's when an entity has
    both. *)
Variables allow_self linked rel_first : bool.

(** Spawned entities, the relationship component and the target component. *)
Record Hier := mkHier { h_alive : gset E; h_rel : gmap E E; h_sources : gmap E (list E) }.

Definition Hier_new : Hier := mkHier ∅ ∅ ∅.

Definition set_rel (h : Hier) (r : gmap E E) : Hier := mkHier (h_alive h) r (h_sources h).
Definition set_sources (h : Hier) (s : gmap E (list E)) : Hier := mkHier (h_alive h) (h_rel h) s.

(** ** The source set of [Vec<Entity>] *)

Definition sources_insert (l : list E) (e : E) : list E := if decide (e ∈ l) then l else l ++ [e].

Fixpoint sources_remove (l : list E) (e : E) : list E :=
  match l with
  | [] => []
  | x :: l => if decide (x = e) then l else x :: sources_remove l e
  end.

(** The source set has room for more than one entity, and none has to go before
    another is inserted. *)
Definition SINGLE_ENTITY : bool := false.
Definition remove_before_insert (_ : list E) : option E := None.

(** ** Hooks *)

Inductive RelCommand :=
| RemoveRel (source : E)
| AddSource (target source : E)
| RemoveEmpty (target : E)
| TryDespawn (e : E).

(** [Relationship::on_insert]. *)
Definition rel_on_insert (h : Hier) (e : E) : outcome (list RelCommand) :=
  match h_rel h !! e with
  | None => Panic
  | Some target =>
      if negb allow_self && bool_decide (target = e) then Ret [RemoveRel e]
      else
        let current := if SINGLE_ENTITY then (if decide (target ∈ h_alive h) then h_sources h !! target ≫= remove_before_insert else None) else None in
        Ret (option_list (RemoveRel <$> current) ++
             if decide (target ∈ h_alive h) then [AddSource target e] else [RemoveRel e])
  end.

(** [Relationship::on_discard]. *)
Definition rel_on_discard (h : Hier) (e : E) : outcome (Hier * list RelCommand) :=
  match h_rel h !! e with
  | None => Panic
  | Some target =>
      if decide (target ∈ h_alive h) then
        match h_sources h !! target with
        | Some l =>
            let l := sources_remove l e in
            Ret (set_sources h (<[target := l]> (h_sources h)), if decide (l = []) then [RemoveEmpty target] else [])
        | None => Ret (h, [])
        end
      else Ret (h, [])
  end.

(** [RelationshipTarget::on_discard] and [on_despawn]. *)
Definition target_on_discard (h : Hier) (p : E) : list RelCommand := RemoveRel <$> default [] (h_sources h !! p).
Definition target_on_despawn (h : Hier) (p : E) : list RelCommand := if linked then TryDespawn <$> default [] (h_sources h !! p) else [].

(** The discard hook of an entity that may lack the component. *)
Definition discard_rel (h : Hier) (e : E) : outcome (Hier * list RelCommand) :=
  match h_rel h !! e with Some _ => rel_on_discard h e | None => Ret (h, []) end.

(** ** Operations of the world, up to their flush *)

(** [insert] of the relationship: the discard hook of the value it replaces, the
    write, the insert hook. *)
Definition insert_rel (h : Hier) (e target : E) : outcome (Hier * list RelCommand) :=
  '(h, c1) ← discard_rel h e;
  let h := set_rel h (<[e := target]> (h_rel h)) in
  c2 ← rel_on_insert h e;
  Ret (h, c1 ++ c2).

(** [modify_component] of the relationship: the discard hook, the write in place, the
    insert hook; nothing when the component is not there. *)
Definition modify_rel (h : Hier) (e target : E) : outcome (option (Hier * list RelCommand)) :=
  match h_rel h !! e with
  | None => Ret None
  | Some _ =>
      '(h, c1) ← rel_on_discard h e;
      let h := set_rel h (<[e := target]> (h_rel h)) in
      c2 ← rel_on_insert h e;
      Ret (Some (h, c1 ++ c2))
  end.

(** [remove] of the relationship: the hook, then the removal. *)
Definition remove_rel (h : Hier) (e : E) : outcome (Hier * list RelCommand) :=
  '(h, cs) ← discard_rel h e;
  Ret (set_rel h (delete e (h_rel h)), cs).

(** [remove] of the target component. *)
Definition remove_sources (h : Hier) (p : E) : Hier * list RelCommand :=
  (set_sources h (delete p (h_sources h)), target_on_discard h p).

(** [despawn_internal]: the despawn hooks, the discard hooks, then the row is
    freed. *)
Definition despawn_rel (h : Hier) (e : E) : outcome (Hier * list RelCommand) :=
  let c1 := target_on_despawn h e in
  '(h, c2) ← (if rel_first then
                '(h, c) ← discard_rel h e; Ret (h, c ++ target_on_discard h e)
              else
                let c := target_on_discard h e in '(h, c') ← discard_rel h e; Ret (h, c ++ c'));
  Ret (mkHier (h_alive h ∖ {[e]}) (delete e (h_rel h)) (delete e (h_sources h)), c1 ++ c2).

(** ** Commands *)

Definition apply_command (h : Hier) (c : RelCommand) : outcome (Hier * list RelCommand) :=
  match c with
  | RemoveRel e => if decide (e ∈ h_alive h) then remove_rel h e else Ret (h, [])
  | AddSource target e =>
      if decide (target ∈ h_alive h) then
        Ret (match h_sources h !! target with
             | Some l => set_sources h (<[target := sources_insert l e]> (h_sources h))
             | None => set_sources h (<[target := sources_insert [] e]> (h_sources h))
             end, [])
      else Ret (h, [])
  | RemoveEmpty target =>
      if decide (target ∈ h_alive h) then
        if decide (h_sources h !! target = Some []) then Ret (remove_sources h target) else Ret (h, [])
      else Ret (h, [])
  | TryDespawn e => if decide (e ∈ h_alive h) then despawn_rel h e else Ret (h, [])
  end.

(** Runs the pending commands; [None] is out of fuel. *)
Fixpoint run_pending (fuel : nat) (h : Hier) (cs : list RelCommand) : option (outcome Hier) :=
  match cs with
  | [] => Some (Ret h)
  | c :: cs =>
      match fuel with
      | O => None
      | S fuel =>
          match apply_command h c with
          | Ret (h, cs') => run_pending fuel h (cs' ++ cs)
          | Panic => Some Panic
          | Undefined => Some Undefined
          end
      end
  end.

(** An operation and its flush. *)
Definition flushed_op (fuel : nat) (r : outcome (Hier * list RelCommand)) : option (outcome Hier) :=
  match r with
  | Ret (h, cs) => run_pending fuel h cs
  | Panic => Some Panic
  | Undefined => Some Undefined
  end.

(** [modify_or_insert_relationship_with_caller]; [large] is
    [size_of::<R>() > size_of::<Entity>()]. *)
Definition modify_or_insert_rel (large : bool) (fuel : nat) (h : Hier) (e target : E) : option (outcome Hier) :=
  if large then
    match modify_rel h e target with
    | Ret (Some r) => flushed_op fuel (Ret r)
    | Ret None => flushed_op fuel (insert_rel h e target)
    | Panic => Some Panic
    | Undefined => Some Undefined
    end
  else flushed_op fuel (insert_rel h e target).

(** ** The interface *)

(** [spawn] without and with the relationship, on an identifier that is not
    spawned. *)
Definition spawn_at (h : Hier) (e : E) (target : option E) : outcome (Hier * list RelCommand) :=
  let h := mkHier (h_alive h ∪ {[e]}) (h_rel h) (h_sources h) in
  match target with
  | None => Ret (h, [])
  | Some t => let h := set_rel h (<[e := t]> (h_rel h)) in cs ← rel_on_insert h e; Ret (h, cs)
  end.

(** One after the other, each flushed. *)
Fixpoint each {A} (f : Hier → A → option (outcome Hier)) (h : Hier) (xs : list A) : option (outcome Hier) :=
  match xs with
  | [] => Some (Ret h)
  | x :: xs =>
      match f h x with
      | Some (Ret h) => each f h xs
      | r => r
      end
  end.

Inductive RelOp :=
| OpSpawn (e : E) (target : option E)
| OpInsert (e target : E)
| OpRemove (e : E)
| OpDetach (p : E)
| OpDespawn (e : E)
| OpAddRelated (large : bool) (p : E) (es : list E)
| OpRemoveRelated (p : E) (es : list E)
| OpDespawnRelated (p : E).

(** [entity_owned] panics on an entity that is not spawned; [despawn] of such an
    entity is an error that changes nothing. *)
Definition run_op (fuel : nat) (h : Hier) (op : RelOp) : option (outcome Hier) :=
  let owned e k := if decide (e ∈ h_alive h) then k else Some Panic in
  match op with
  | OpSpawn e target => flushed_op fuel (spawn_at h e target)
  | OpInsert e target => owned e (flushed_op fuel (insert_rel h e target))
  | OpRemove e => owned e (flushed_op fuel (remove_rel h e))
  | OpDetach p => owned p (flushed_op fuel (Ret (remove_sources h p)))
  | OpDespawn e => if decide (e ∈ h_alive h) then flushed_op fuel (despawn_rel h e) else Some (Ret h)
  | OpAddRelated large p es =>
      owned p (each (λ h e, if decide (e ∈ h_alive h) then modify_or_insert_rel large fuel h e p else Some Panic) h es)
  | OpRemoveRelated p es =>
      owned p (each (λ h e, if decide (e ∈ h_alive h)
                            then if decide (h_rel h !! e = Some p) then flushed_op fuel (remove_rel h e) else Some (Ret h)
                            else Some Panic) h es)
  | OpDespawnRelated p =>
      owned p (each (λ h e, if decide (e ∈ h_alive h) then flushed_op fuel (despawn_rel h e) else Some (Ret h))
                 h (reverse (default [] (h_sources h !! p))))
  end.

(** The insert hook for a set that needs no room made; modifying in place and
    inserting are the same for the links. *)
Lemma rel_on_insert_many h e target : h_rel h !! e = Some target →
  rel_on_insert h e = Ret (if negb allow_self && bool_decide (target = e) then [RemoveRel e]
                           else if decide (target ∈ h_alive h) then [AddSource target e] else [RemoveRel e]).
Proof. unfold rel_on_insert, SINGLE_ENTITY. intros ->. cbn. by destruct (_ && _). Qed.

Lemma modify_or_insert_same large fuel h e target :
  modify_or_insert_rel large fuel h e target = flushed_op fuel (insert_rel h e target).
Proof.
  unfold modify_or_insert_rel, modify_rel, insert_rel, discard_rel. destruct large; [|done]. destruct (h_rel h !! e); [|done].
  destruct (rel_on_discard h e) as [[h1 c1]| |]; cbn [mbind outcome_bind]; [|done|done].
  by destruct (rel_on_insert _ e) as [c2| |].
Qed.
End relationship.
#[global] Arguments Hier E {_ _}.
#[global] Arguments RelCommand : clear implicits.
#[global] Arguments RelOp : clear implicits.
