(* ===== verification/HierarchyInv.v ===== *)
(** * Relationships: both sides agree *)

From Stdlib Require Import ZArith Lia.
From S2P Require Import Prelude Hierarchy.

Section inv.
Context {E : Type} `{Countable E}.
Variables allow_self linked rel_first : bool.
Implicit Types (h : Hier E) (c cs : list (RelCommand E)).

(** ** Source sets *)

Lemma filter_absent (l : list E) e : e ∉ l → filter (λ x, x ≠ e) l = l.
Proof.
  induction l as [|x l IH]; [done|]. intros Hn. rewrite filter_cons, decide_True, IH; [done| |].
  - intros Hx. apply Hn. by apply elem_of_cons; right.
  - intros ->. apply Hn. by apply elem_of_cons; left.
Qed.

Lemma sources_remove_filter (l : list E) e : NoDup l → sources_remove l e = filter (λ x, x ≠ e) l.
Proof.
  induction 1 as [|x l Hx Hl IH]; [done|]. cbn [sources_remove]. rewrite filter_cons. destruct (decide (x = e)) as [->|Hne].
  - rewrite decide_False by (intros Hn; by apply Hn). symmetry. by apply filter_absent.
  - by rewrite decide_True, IH.
Qed.

Lemma sources_insert_elem (l : list E) e x : x ∈ sources_insert l e ↔ x ∈ l ∨ x = e.
Proof.
  unfold sources_insert. destruct (decide (e ∈ l)) as [He|He].
  - split; [auto|]. by intros [?| ->].
  - by rewrite elem_of_app, list_elem_of_singleton.
Qed.

Lemma sources_insert_nodup (l : list E) e : NoDup l → NoDup (sources_insert l e).
Proof.
  intros Hl. unfold sources_insert. destruct (decide (e ∈ l)); [done|]. apply NoDup_app. split_and!; [done| |apply NoDup_singleton].
  intros x Hx Hxe. apply list_elem_of_singleton in Hxe. by subst.
Qed.

Lemma sources_insert_nonempty (l : list E) e : sources_insert l e ≠ [].
Proof. intros Hl. assert (e ∈ sources_insert l e) as He by (apply sources_insert_elem; auto). rewrite Hl in He. by apply not_elem_of_nil in He. Qed.

(** ** The invariant *)

(** [cs] is pending: whatever is out of step has a command that repairs it. *)
Record pending_ok h cs : Prop := mkPending {
  po_down : ∀ p l e, h_sources h !! p = Some l → e ∈ l → h_rel h !! e = Some p;
  po_up : ∀ e p, h_rel h !! e = Some p → (∃ l, h_sources h !! p = Some l ∧ e ∈ l) ∨ RemoveRel e ∈ cs ∨ AddSource p e ∈ cs;
  po_lists : ∀ p l, h_sources h !! p = Some l → NoDup l ∧ (l = [] → RemoveEmpty p ∈ cs);
  po_rel_alive : ∀ e p, h_rel h !! e = Some p → e ∈ h_alive h;
  po_src_alive : ∀ p l, h_sources h !! p = Some l → p ∈ h_alive h;
  po_add : ∀ p e, AddSource p e ∈ cs → h_rel h !! e = Some p ∧ p ∈ h_alive h ∧ RemoveRel e ∉ cs ∧ ∀ x, TryDespawn x ∉ cs;
  po_self : ∀ e, allow_self = false → h_rel h !! e = Some e → RemoveRel e ∈ cs
}.

(** Nothing is pending. *)
Definition consistent h : Prop := pending_ok h [].

(** ** Hooks *)

Definition without (e : E) (m : gmap E (list E)) : gmap E (list E) := (λ l, filter (λ x, x ≠ e) l) <$> m.

Lemma lookup_without e m p : without e m !! p = (λ l, filter (λ x, x ≠ e) l) <$> (m !! p).
Proof. apply lookup_fmap. Qed.

(** The discard hook takes the entity out of every list; an emptied list is queued
    for removal. *)
Lemma discard_rel_spec h cs e : pending_ok h cs →
  ∃ c, discard_rel h e = Ret (set_sources h (without e (h_sources h)), c) ∧
    (∀ x, x ∈ c → ∃ p, x = RemoveEmpty p) ∧ (length c ≤ 1)%nat ∧
    (∀ p l, h_sources h !! p = Some l → e ∈ l → filter (λ x, x ≠ e) l = [] → RemoveEmpty p ∈ c).
Proof.
  intros Hok. unfold discard_rel.
  assert (∀ p l, h_sources h !! p = Some l → h_rel h !! e ≠ Some p → filter (λ x, x ≠ e) l = l) as Hsame.
  { intros p l Hp Hne. apply filter_absent. intros Hx. apply Hne. by eapply po_down. }
  assert (∀ p, (∀ l, h_sources h !! p = Some l → h_rel h !! e = Some p → False) → without e (h_sources h) !! p = h_sources h !! p) as Hw.
  { intros p Hp. rewrite lookup_without. destruct (h_sources h !! p) as [l|] eqn:Hl; [|done]. cbn. f_equal. eapply Hsame; eauto. }
  assert ((∀ p l, h_sources h !! p = Some l → h_rel h !! e = Some p → False) → set_sources h (without e (h_sources h)) = h) as Hid.
  { intros Hn. destruct h as [a r s]. unfold set_sources. cbn in *. f_equal. apply map_eq. intros p. apply Hw. eauto. }
  destruct (h_rel h !! e) as [t|] eqn:Ht.
  - unfold rel_on_discard. rewrite Ht. destruct (decide (t ∈ h_alive h)) as [Ha|Ha].
    + destruct (h_sources h !! t) as [l|] eqn:Hl.
      * destruct (po_lists _ _ Hok t l Hl) as [Hnd _]. rewrite sources_remove_filter by done.
        assert (<[t := filter (λ x, x ≠ e) l]> (h_sources h) = without e (h_sources h)) as ->.
        { apply map_eq. intros p. destruct (decide (p = t)) as [->|Hne].
          - rewrite lookup_insert_eq, lookup_without, Hl. done.
          - rewrite lookup_insert_ne by done. symmetry. apply Hw. intros l' _ Hp. congruence. }
        eexists. split; [reflexivity|]. destruct (decide (filter _ l = [])) as [He|He]; split_and!; cbn; try lia.
        -- intros x Hx%list_elem_of_singleton. eauto.
        -- intros p l' Hp Hin _. pose proof (po_down _ _ Hok p l' e Hp Hin). assert (p = t) as -> by congruence.
           by apply list_elem_of_singleton.
        -- intros x Hx. by apply not_elem_of_nil in Hx.
        -- intros p l' Hp Hin Hnil. pose proof (po_down _ _ Hok p l' e Hp Hin). assert (p = t) as -> by congruence.
           rewrite Hl in Hp. by simplify_eq.
      * exists []. rewrite Hid by (intros p l Hp ?; congruence). split_and!; [done|intros x Hx; by apply not_elem_of_nil in Hx|cbn; lia|].
        intros p l Hp Hin. pose proof (po_down _ _ Hok p l e Hp Hin). congruence.
    + exists []. rewrite Hid by (intros p l Hp ?; apply Ha; simplify_eq; by eapply po_src_alive).
      split_and!; [done|intros x Hx; by apply not_elem_of_nil in Hx|cbn; lia|].
      intros p l Hp Hin. pose proof (po_down _ _ Hok p l e Hp Hin). exfalso. apply Ha. simplify_eq. by eapply po_src_alive.
  - exists []. rewrite Hid by done. split_and!; [done|intros x Hx; by apply not_elem_of_nil in Hx|cbn; lia|].
    intros p l Hp Hin. pose proof (po_down _ _ Hok p l e Hp Hin). congruence.
Qed.

Lemma filter_keeps (l : list E) e x : x ∈ l → x ≠ e → x ∈ filter (λ x, x ≠ e) l.
Proof. intros. by apply list_elem_of_filter. Qed.

(** The lists after the hook are still right, and emptied ones are queued. *)
Lemma without_lists h cs0 e c p l :
  pending_ok h cs0 →
  (∀ p l, h_sources h !! p = Some l → e ∈ l → filter (λ x, x ≠ e) l = [] → RemoveEmpty p ∈ c) →
  without e (h_sources h) !! p = Some l → NoDup l ∧ (l = [] → RemoveEmpty p ∈ c ∨ RemoveEmpty p ∈ cs0).
Proof.
  intros Hok Hc Hl. rewrite lookup_without in Hl. apply fmap_Some in Hl as (l0 & Hl0 & ->).
  destruct (po_lists _ _ Hok p l0 Hl0) as [Hnd Hnil]. split; [by apply NoDup_filter|].
  intros Hf. destruct (decide (e ∈ l0)) as [He|He]; [left; by eapply Hc|].
  right. apply Hnil. by rewrite filter_absent in Hf.
Qed.

Lemma without_down h cs0 e p l x :
  pending_ok h cs0 → without e (h_sources h) !! p = Some l → x ∈ l → x ≠ e ∧ h_rel h !! x = Some p.
Proof.
  intros Hok Hl Hx. rewrite lookup_without in Hl. apply fmap_Some in Hl as (l0 & Hl0 & ->).
  apply list_elem_of_filter in Hx as [Hne Hx]. split; [done|]. by eapply po_down.
Qed.

Lemma without_up h e p l x : h_sources h !! p = Some l → x ∈ l → x ≠ e → ∃ l', without e (h_sources h) !! p = Some l' ∧ x ∈ l'.
Proof. intros Hp Hx Hne. exists (filter (λ x, x ≠ e) l). rewrite lookup_without, Hp. split; [done|by apply filter_keeps]. Qed.

Lemma without_some e m p l : without e m !! p = Some l → ∃ l0, m !! p = Some l0.
Proof. rewrite lookup_without. intros (l0 & ? & _)%fmap_Some. eauto. Qed.

(** ** Steps *)

(** Removing the relationship of [e], with [cs] pending before and [cs'] after. *)
Lemma remove_rel_ok h cs cs' e :
  pending_ok h cs → (∀ p, AddSource p e ∉ cs) →
  (∀ x, x ∈ cs → x ≠ RemoveRel e → x ∈ cs') → (∀ x, x ∈ cs' → x ∈ cs) →
  ∃ c, remove_rel h e = Ret (mkHier (h_alive h) (delete e (h_rel h)) (without e (h_sources h)), c) ∧ (length c ≤ 1)%nat ∧
    (∀ x, x ∈ c → ∃ p, x = RemoveEmpty p) ∧
    pending_ok (mkHier (h_alive h) (delete e (h_rel h)) (without e (h_sources h))) (c ++ cs').
Proof.
  intros Hok Hadd Hto Hfrom. destruct (discard_rel_spec h cs e Hok) as (c & Hd & Hc & Hlen & Hempty).
  exists c. unfold remove_rel. rewrite Hd. split_and!; [done|done|done|]. constructor; cbn.
  - intros p l x Hl Hx. destruct (without_down _ _ _ _ _ _ Hok Hl Hx). by rewrite lookup_delete_ne.
  - intros x p Hx. apply lookup_delete_Some in Hx as [Hne Hx].
    destruct (po_up _ _ Hok x p Hx) as [(l & Hl & Hin)|[Hin|Hin]].
    + left. by eapply without_up.
    + right; left. apply elem_of_app. right. apply Hto; [done|congruence].
    + right; right. apply elem_of_app. right. by apply Hto.
  - intros p l Hl. destruct (without_lists _ _ _ _ _ _ Hok Hempty Hl) as [Hnd Hnil]. split; [done|].
    intros Hn. apply elem_of_app. destruct (Hnil Hn) as [?|?]; [by left|right; by apply Hto].
  - intros x p Hx. apply lookup_delete_Some in Hx as [_ Hx]. by eapply po_rel_alive.
  - intros p l Hl. apply without_some in Hl as [l0 Hl0]. by eapply po_src_alive.
  - intros p x [Hin|Hin]%elem_of_app; [by destruct (Hc _ Hin)|].
    destruct (po_add _ _ Hok p x (Hfrom _ Hin)) as (Hr & Ha & Hn & Ht). split_and!; [|done| |].
    + rewrite lookup_delete_ne; [done|]. intros ->. by eapply Hadd, Hfrom.
    + intros [Hi|Hi]%elem_of_app; [by destruct (Hc _ Hi)|by apply Hn, Hfrom].
    + intros y [Hi|Hi]%elem_of_app; [by destruct (Hc _ Hi)|by eapply Ht, Hfrom].
  - intros x Hs Hx. apply lookup_delete_Some in Hx as [Hne Hx]. apply elem_of_app. right. apply Hto; [by eapply po_self|congruence].
Qed.

(** What a despawn queues: [L] are the sources of the entity. *)
Record despawn_cmds h (L : list E) (e : E) c : Prop := mkDespawnCmds {
  dc_removes : ∀ x, x ∈ L → x ≠ e → RemoveRel x ∈ c;
  dc_despawns : ∀ x, x ∈ L → linked = true → TryDespawn x ∈ c;
  dc_only : ∀ y, y ∈ c → (∃ p, y = RemoveEmpty p) ∨ (∃ x, y = RemoveRel x ∧ x ∈ L) ∨ (∃ x, y = TryDespawn x ∧ x ∈ L ∧ linked = true);
  dc_empty : ∀ q m, h_sources h !! q = Some m → e ∈ m → filter (λ x, x ≠ e) m = [] → RemoveEmpty q ∈ c;
  dc_length : (length c ≤ 2 * length L + 1)%nat
}.

Definition despawned h (e : E) : Hier E :=
  mkHier (h_alive h ∖ {[e]}) (delete e (h_rel h)) (delete e (without e (h_sources h))).

Lemma despawn_rel_spec h cs e : pending_ok h cs →
  ∃ c, despawn_rel linked rel_first h e = Ret (despawned h e, c) ∧ despawn_cmds h (default [] (h_sources h !! e)) e c.
Proof.
  intros Hok. destruct (discard_rel_spec h cs e Hok) as (c & Hd & Hc & Hlen & Hempty).
  set (L := default [] (h_sources h !! e)). unfold despawn_rel. fold L.
  assert (target_on_discard (set_sources h (without e (h_sources h))) e = RemoveRel <$> filter (λ x, x ≠ e) L) as Ht.
  { unfold target_on_discard. cbn. rewrite lookup_without. unfold L. by destruct (h_sources h !! e). }
  assert (target_on_despawn linked h e = if linked then TryDespawn <$> L else []) as Hdes by done.
  assert (∀ M, (∀ x, x ∈ L → x ≠ e → x ∈ M) → (∀ x, x ∈ M → x ∈ L) → (length M ≤ length L)%nat →
          ∀ c', (∀ y, y ∈ c' ↔ y ∈ c ∨ y ∈ RemoveRel <$> M) → length c' = (length c + length M)%nat →
          despawn_cmds h L e ((if linked then TryDespawn <$> L else []) ++ c')) as Hgen.
  { intros M HM1 HM2 HM3 c' Hc' Hl'. constructor.
    - intros x Hx Hne. apply elem_of_app. right. apply Hc'. right. apply list_elem_of_fmap_2. auto.
    - intros x Hx ->. apply elem_of_app. left. by apply list_elem_of_fmap_2.
    - intros y [Hy|Hy]%elem_of_app.
      + destruct linked; [|by apply not_elem_of_nil in Hy]. apply list_elem_of_fmap in Hy as (x & -> & Hx). eauto 10.
      + apply Hc' in Hy as [Hy|Hy]; [left; eauto|]. apply list_elem_of_fmap in Hy as (x & -> & Hx). eauto 10.
    - intros q m Hq Hin Hf. apply elem_of_app. right. apply Hc'. left. by eapply Hempty.
    - rewrite length_app, Hl'. destruct linked; rewrite ?length_fmap; cbn; lia. }
  destruct rel_first.
  - rewrite Hd. cbn [mbind outcome_bind]. rewrite Ht. eexists. split; [reflexivity|]. rewrite Hdes.
    apply (Hgen (filter (λ x, x ≠ e) L)).
    + intros. by apply filter_keeps.
    + intros x Hx. by apply list_elem_of_filter in Hx as [_ ?].
    + apply length_filter.
    + intros y. apply elem_of_app.
    + by rewrite length_app, length_fmap.
  - cbn [mbind outcome_bind]. rewrite Hd. cbn [mbind outcome_bind]. eexists. split; [reflexivity|]. rewrite Hdes.
    apply (Hgen L); auto.
    + intros y. unfold target_on_discard. fold L. rewrite elem_of_app. tauto.
    + unfold target_on_discard. fold L. rewrite length_app, length_fmap. lia.
Qed.

(** Despawning [e]; nothing is being added. *)
Lemma despawn_rel_ok h cs cs' e :
  pending_ok h cs → (∀ p x, AddSource p x ∉ cs) →
  (∀ x, x ∈ cs → x ≠ RemoveRel e → x ≠ TryDespawn e → x ∈ cs') → (∀ x, x ∈ cs' → x ∈ cs) →
  ∃ c, despawn_rel linked rel_first h e = Ret (despawned h e, c) ∧ despawn_cmds h (default [] (h_sources h !! e)) e c ∧
    pending_ok (despawned h e) (c ++ cs').
Proof.
  intros Hok Hadd Hto Hfrom. destruct (despawn_rel_spec h cs e Hok) as (c & Hd & Hc).
  exists c. split_and!; [done|done|]. constructor; cbn.
  - intros p l x Hl Hx. apply lookup_delete_Some in Hl as [_ Hl]. destruct (without_down _ _ _ _ _ _ Hok Hl Hx). by rewrite lookup_delete_ne.
  - intros x p Hx. apply lookup_delete_Some in Hx as [Hne Hx].
    destruct (po_up _ _ Hok x p Hx) as [(l & Hl & Hin)|[Hin|Hin]].
    + destruct (decide (p = e)) as [->|Hpe].
      * right; left. apply elem_of_app. left. eapply dc_removes; [done| |done]. by rewrite Hl.
      * left. destruct (without_up h e p l x) as (l' & Hl' & Hx'); auto. exists l'. by rewrite lookup_delete_ne.
    + right; left. apply elem_of_app. right. apply Hto; [done|congruence|done].
    + by apply Hadd in Hin.
  - intros p l Hl. apply lookup_delete_Some in Hl as [_ Hl].
    destruct (without_lists _ _ _ _ _ _ Hok (dc_empty _ _ _ _ Hc) Hl) as [Hnd Hnil]. split; [done|].
    intros Hn. apply elem_of_app. destruct (Hnil Hn) as [?|?]; [by left|right; by apply Hto].
  - intros x p Hx. apply lookup_delete_Some in Hx as [Hne Hx]. apply elem_of_difference. split; [by eapply po_rel_alive|].
    by apply not_elem_of_singleton.
  - intros p l Hl. apply lookup_delete_Some in Hl as [Hne Hl]. apply without_some in Hl as [l0 Hl0].
    apply elem_of_difference. split; [by eapply po_src_alive|by apply not_elem_of_singleton].
  - intros p x [Hin|Hin]%elem_of_app; [|by apply Hfrom, Hadd in Hin].
    by destruct (dc_only _ _ _ _ Hc _ Hin) as [[? ?]|[(? & ? & _)|(? & ? & _)]].
  - intros x Hs Hx. apply lookup_delete_Some in Hx as [Hne Hx]. apply elem_of_app. right. apply Hto; [by eapply po_self|congruence|done].
Qed.

(** ** Termination *)

(** Entities whose relationship has a spawned target. *)
Definition attached h : gset E := dom (filter (λ kv, kv.2 ∈ h_alive h) (h_rel h)).

Lemma elem_of_attached h x : x ∈ attached h ↔ ∃ p, h_rel h !! x = Some p ∧ p ∈ h_alive h.
Proof.
  unfold attached. rewrite elem_of_dom. split.
  - intros [p Hp]. apply map_lookup_filter_Some in Hp as [? ?]. eauto.
  - intros (p & Hp & Ha). exists p. by apply map_lookup_filter_Some.
Qed.

Definition weight h cs : nat := length cs + 3 * size (h_alive h) + size (h_rel h) + 2 * size (attached h).

(** A command that finds nothing to do. *)
Lemma skip_ok h cs x : pending_ok h (x :: cs) →
  (∀ e, x = RemoveRel e → h_rel h !! e = None) → (∀ p e, x = AddSource p e → ∃ l, h_sources h !! p = Some l ∧ e ∈ l) →
  (∀ p, x = RemoveEmpty p → h_sources h !! p ≠ Some []) → pending_ok h cs.
Proof.
  intros Hok H1 H2 H3. destruct Hok as [K1 K2 K3 K4 K5 K6 K7]. constructor; auto.
  - intros e p Hr. destruct (K2 e p Hr) as [?|[Hin|Hin]]; [auto| |].
    + apply elem_of_cons in Hin as [Heq|?]; [|auto]. exfalso. rewrite (H1 e) in Hr; done.
    + apply elem_of_cons in Hin as [Heq|?]; [|auto]. left. by apply H2.
  - intros p l Hl. destruct (K3 p l Hl) as [? Hn]. split; [done|]. intros ->. specialize (Hn eq_refl).
    apply elem_of_cons in Hn as [Heq|?]; [|done]. by destruct (H3 p).
  - intros p e Hin. destruct (K6 p e) as (? & ? & Hn & Ht); [by apply elem_of_cons; right|]. split_and!; [done|done| |].
    + intros ?. apply Hn. by apply elem_of_cons; right.
    + intros y ?. eapply Ht. by apply elem_of_cons; right.
  - intros e Hs Hr. specialize (K7 e Hs Hr). apply elem_of_cons in K7 as [Heq|?]; [|done]. exfalso. rewrite (H1 e) in Hr; done.
Qed.

Lemma delete_size (m : gmap E E) e p : m !! e = Some p → size m = S (size (delete e m)).
Proof. intros Hm. rewrite <- (insert_delete_id m e p Hm) at 1. by rewrite map_size_insert_None by apply lookup_delete_eq. Qed.

Lemma attached_remove h e : (size (attached (mkHier (h_alive h) (delete e (h_rel h)) (without e (h_sources h)))) ≤ size (attached h))%nat.
Proof.
  apply subseteq_size. intros x Hx. apply elem_of_attached in Hx as (p & Hp & Ha). cbn in *.
  apply lookup_delete_Some in Hp as [_ Hp]. apply elem_of_attached. eauto.
Qed.

(** The sources of a despawned entity are attached no more. *)
Lemma attached_despawn h cs e : pending_ok h cs → e ∈ h_alive h →
  (size (attached (despawned h e)) + length (default [] (h_sources h !! e)) ≤ size (attached h))%nat.
Proof.
  intros Hok He. set (L := default [] (h_sources h !! e)).
  assert (NoDup L ∧ ∀ x, x ∈ L → h_rel h !! x = Some e) as [Hnd HL].
  { unfold L. destruct (h_sources h !! e) as [l|] eqn:Hl; cbn.
    - split; [by eapply po_lists|]. intros x Hx. by eapply po_down.
    - split; [apply NoDup_nil_2|]. intros x Hx. by apply not_elem_of_nil in Hx. }
  rewrite <- (size_list_to_set (C := gset E) L) by done. rewrite <- size_union.
  - apply subseteq_size. intros x [Hx|Hx]%elem_of_union.
    + apply elem_of_attached in Hx as (p & Hp & Ha). cbn in *. apply lookup_delete_Some in Hp as [_ Hp].
      apply elem_of_difference in Ha as [Ha _]. apply elem_of_attached. eauto.
    + apply elem_of_list_to_set in Hx. apply elem_of_attached. eauto.
  - intros x Hx Hx2. apply elem_of_list_to_set in Hx2. apply elem_of_attached in Hx as (p & Hp & Ha). cbn in *.
    apply lookup_delete_Some in Hp as [_ Hp]. rewrite (HL x Hx2) in Hp. simplify_eq. set_solver.
Qed.

(** Every command returns, keeps the invariant and makes progress. *)
Definition command_ok h x cs : Prop :=
  ∃ h' c, apply_command linked rel_first h x = Ret (h', c) ∧ pending_ok h' (c ++ cs) ∧ (weight h' (c ++ cs) < weight h (x :: cs))%nat.

Lemma remove_command_ok h e cs : pending_ok h (RemoveRel e :: cs) → command_ok h (RemoveRel e) cs.
Proof.
  intros Hok. pose proof (λ y (Hy : y ∈ cs), proj2 (elem_of_cons cs y (RemoveRel e)) (or_intror Hy)) as Hfrom. unfold command_ok. cbn [apply_command].
  destruct (decide (e ∈ h_alive h)) as [Ha|Ha].
  - destruct (remove_rel_ok h (RemoveRel e :: cs) cs e Hok) as (c & Hr & Hlen & _ & Hok').
    { intros p Hin. destruct (po_add _ _ Hok p e Hin) as (_ & _ & Hn & _). apply Hn. by apply elem_of_cons; left. }
    { intros y Hy Hne. apply elem_of_cons in Hy as [->|?]; done. }
    { done. }
    destruct (h_rel h !! e) as [p|] eqn:Hp.
    + eexists _, c. split_and!; [exact Hr|done|]. unfold weight. rewrite length_app. cbn [length h_alive h_rel].
      pose proof (delete_size _ _ _ Hp). pose proof (attached_remove h e). lia.
    + 
      unfold remove_rel, discard_rel. rewrite Hp. cbn [mbind outcome_bind]. rewrite delete_id by done.
      exists (set_rel h (h_rel h)), []. split_and!; [done| |unfold weight, set_rel; destruct h; cbn; lia].
      destruct h as [al rl sl]. unfold set_rel. cbn in *. eapply skip_ok; [exact Hok|..]; intros; simplify_eq; done.
  - exists h, []. split_and!; [done| |unfold weight; cbn; lia].
    eapply skip_ok; [exact Hok|..]; intros; simplify_eq.
    destruct (h_rel h !! e0) as [p|] eqn:Hp; [|done]. destruct Ha. by eapply po_rel_alive.
Qed.

Lemma add_command_ok h t e cs : pending_ok h (AddSource t e :: cs) → command_ok h (AddSource t e) cs.
Proof.
  intros Hok. pose proof (λ y (Hy : y ∈ cs), proj2 (elem_of_cons cs y (AddSource t e)) (or_intror Hy)) as Hfrom. unfold command_ok. cbn [apply_command].
  destruct (po_add _ _ Hok t e) as (Hr & Ha & Hn & Ht); [by apply elem_of_cons; left|]. rewrite decide_True by done.
  set (l := default [] (h_sources h !! t)).
  assert ((match h_sources h !! t with
           | Some l => set_sources h (<[t := sources_insert l e]> (h_sources h))
           | None => set_sources h (<[t := sources_insert [] e]> (h_sources h))
           end) = set_sources h (<[t := sources_insert l e]> (h_sources h))) as -> by (unfold l; by destruct (h_sources h !! t)).
  eexists _, []. split_and!; [reflexivity| |unfold weight, attached, set_sources; cbn; lia].
  assert (NoDup l ∧ ∀ x, x ∈ l → h_rel h !! x = Some t) as [Hnd Hl].
  { unfold l. destruct (h_sources h !! t) as [m|] eqn:Hm; cbn.
    - split; [by eapply po_lists|]. intros x Hx. by eapply po_down.
    - split; [apply NoDup_nil_2|]. intros x Hx. by apply not_elem_of_nil in Hx. }
  destruct Hok as [K1 K2 K3 K4 K5 K6 K7]. constructor; cbn; auto.
  - intros p m x Hm Hx. apply lookup_insert_Some in Hm as [[<- <-]|[Hne Hm]]; [|by eapply K1].
    apply sources_insert_elem in Hx as [Hx| ->]; auto.
  - intros x p Hx. assert (p = t → x ∈ l ∨ x = e → ∃ m, <[t := sources_insert l e]> (h_sources h) !! p = Some m ∧ x ∈ m) as Hin.
    { intros -> Hor. exists (sources_insert l e). rewrite lookup_insert_eq. split; [done|by apply sources_insert_elem]. }
    destruct (K2 x p Hx) as [(m & Hm & Hxm)|[Hc|Hc]].
    + left. destruct (decide (p = t)) as [->|Hne]; [apply Hin; [done|left; unfold l; by rewrite Hm]|].
      exists m. by rewrite lookup_insert_ne by done.
    + apply elem_of_cons in Hc as [?|?]; [done|auto].
    + apply elem_of_cons in Hc as [?|?]; [simplify_eq; left; auto|auto].
  - intros p m Hm. apply lookup_insert_Some in Hm as [[<- <-]|[Hne Hm]].
    + split; [by apply sources_insert_nodup|]. intros Hnil. by destruct (sources_insert_nonempty l e).
    + destruct (K3 p m Hm) as [? Hn2]. split; [done|]. intros Hnil. specialize (Hn2 Hnil). by apply elem_of_cons in Hn2 as [?|?].
  - intros p m Hm. apply lookup_insert_Some in Hm as [[<- <-]|[Hne Hm]]; [done|by eapply K5].
  - intros p x Hin. destruct (K6 p x) as (? & ? & Hn2 & Ht2); [auto|]. split_and!; auto.
    intros y Hy. by eapply Ht2, Hfrom.
  - intros x Hs Hx. specialize (K7 x Hs Hx). by apply elem_of_cons in K7 as [?|?].
Qed.

Lemma empty_command_ok h t cs : pending_ok h (RemoveEmpty t :: cs) → command_ok h (RemoveEmpty t) cs.
Proof.
  intros Hok. pose proof (λ y (Hy : y ∈ cs), proj2 (elem_of_cons cs y (RemoveEmpty t)) (or_intror Hy)) as Hfrom. unfold command_ok. cbn [apply_command].
  destruct (decide (t ∈ h_alive h)) as [Ha|Ha]; [destruct (decide (h_sources h !! t = Some [])) as [Hs|Hs]|].
  - unfold remove_sources, target_on_discard. rewrite Hs. cbn [default fmap list_fmap].
    eexists _, []. split_and!; [reflexivity| |unfold weight, attached, set_sources; cbn; lia].
    destruct Hok as [K1 K2 K3 K4 K5 K6 K7]. constructor; cbn; auto.
    + intros p l x Hl. apply lookup_delete_Some in Hl as [_ Hl]. by eapply K1.
    + intros x p Hx. destruct (K2 x p Hx) as [(l & Hl & Hin)|[Hc|Hc]].
      * left. exists l. rewrite lookup_delete_ne; [done|]. intros ->. rewrite Hs in Hl. simplify_eq. by apply not_elem_of_nil in Hin.
      * apply elem_of_cons in Hc as [?|?]; [done|auto].
      * apply elem_of_cons in Hc as [?|?]; [done|auto].
    + intros p l Hl. apply lookup_delete_Some in Hl as [Hne Hl]. destruct (K3 p l Hl) as [? Hn]. split; [done|].
      intros Hnil. specialize (Hn Hnil). apply elem_of_cons in Hn as [?|?]; [congruence|done].
    + intros p l Hl. apply lookup_delete_Some in Hl as [_ Hl]. by eapply K5.
    + intros p x Hin. destruct (K6 p x) as (? & ? & Hn2 & Ht2); [auto|]. split_and!; auto. intros y Hy. by eapply Ht2, Hfrom.
    + intros x Hsf Hx. specialize (K7 x Hsf Hx). by apply elem_of_cons in K7 as [?|?].
  - exists h, []. split_and!; [done| |unfold weight; cbn; lia]. eapply skip_ok; [exact Hok|..]; intros; by simplify_eq.
  - exists h, []. split_and!; [done| |unfold weight; cbn; lia]. eapply skip_ok; [exact Hok|..]; intros; simplify_eq.
    intros Hs. apply Ha. by eapply po_src_alive.
Qed.

Lemma despawn_command_ok h e cs : pending_ok h (TryDespawn e :: cs) → command_ok h (TryDespawn e) cs.
Proof.
  intros Hok. pose proof (λ y (Hy : y ∈ cs), proj2 (elem_of_cons cs y (TryDespawn e)) (or_intror Hy)) as Hfrom. unfold command_ok. cbn [apply_command].
  destruct (decide (e ∈ h_alive h)) as [Ha|Ha].
  - destruct (despawn_rel_ok h (TryDespawn e :: cs) cs e Hok) as (c & Hr & Hc & Hok').
    { intros p x Hin. destruct (po_add _ _ Hok p x Hin) as (_ & _ & _ & Ht). eapply Ht. by apply elem_of_cons; left. }
    { intros y Hy _ Hne. apply elem_of_cons in Hy as [->|?]; done. }
    { done. }
    eexists _, c. split_and!; [exact Hr|done|]. pose proof (attached_despawn _ _ _ Hok Ha) as Hatt.
    pose proof (dc_length _ _ _ _ Hc) as Hlen. unfold weight. rewrite length_app. cbn [length].
    assert (size (h_alive (despawned h e)) + 1 = size (h_alive h))%nat.
    { cbn. rewrite size_difference by set_solver. rewrite size_singleton.
      assert (size (h_alive h) ≠ 0)%nat; [|lia]. apply size_non_empty_iff. set_solver. }
    assert (size (h_rel (despawned h e)) ≤ size (h_rel h))%nat by (cbn; apply dom_subseteq_size, subseteq_dom, delete_subseteq).
    lia.
  - exists h, []. split_and!; [done| |unfold weight; cbn; lia]. eapply skip_ok; [exact Hok|..]; intros; by simplify_eq.
Qed.

Lemma apply_command_ok h x cs : pending_ok h (x :: cs) → command_ok h x cs.
Proof.
  destruct x; [apply remove_command_ok|apply add_command_ok|apply empty_command_ok|apply despawn_command_ok].
Qed.

(** The pending commands run to the end and leave both sides in step. *)
Lemma run_pending_ok fuel h cs : pending_ok h cs → (weight h cs ≤ fuel)%nat →
  ∃ h', run_pending linked rel_first fuel h cs = Some (Ret h') ∧ consistent h'.
Proof.
  revert h cs. induction fuel as [|fuel IH]; intros h [|x cs] Hok Hw; try (by eexists).
  - unfold weight in Hw. cbn in Hw. lia.
  - destruct (apply_command_ok h x cs Hok) as (h' & c & He & Hok' & Hlt).
    cbn [run_pending]. rewrite He. apply IH; [done|lia].
Qed.
End inv.
