(* ===== verification/HierarchyTheorems.v ===== *)
(** * Relationships: what each operation does *)

From Stdlib Require Import ZArith Lia.
From S2P Require Import Prelude Hierarchy HierarchyInv.

Section ops.
Context {E : Type} `{Countable E}.
Variables allow_self linked rel_first : bool.
Implicit Types (h : Hier E) (c cs : list (RelCommand E)).

Notation pending_ok := (pending_ok allow_self).
Notation consistent := (consistent allow_self).
Notation run_pending := (run_pending linked rel_first).

(** ** Removal of entities *)

(** [a] goes when [b] goes. *)
Definition depends h (a b : E) : Prop := linked = true ∧ h_rel h !! a = Some b.

Definition doomed h cs (x : E) : Prop := ∃ f, TryDespawn f ∈ cs ∧ f ∈ h_alive h ∧ rtc (depends h) x f.

(** No source is being added, and only links to entities that are gone are being
    removed. *)
Definition removing h cs : Prop :=
  (∀ p e, AddSource p e ∉ cs) ∧ (∀ y p, RemoveRel y ∈ cs → h_rel h !! y = Some p → p ∉ h_alive h).

(** [hf] is [h] without the entities that are doomed. *)
Definition removed h cs (hf : Hier E) : Prop :=
  (∀ x, x ∈ h_alive hf ↔ x ∈ h_alive h ∧ ¬ doomed h cs x) ∧
  (∀ x p, h_rel hf !! x = Some p ↔ h_rel h !! x = Some p ∧ x ∈ h_alive hf ∧ p ∈ h_alive hf).

Lemma doomed_tail h y cs x : doomed h cs x → doomed h (y :: cs) x.
Proof. intros (f & Hf & Ha & Hr). exists f. split_and!; [by apply elem_of_cons; right|done|done]. Qed.

(** Commands that leave entities alone. *)
Lemma removed_skip h y cs hf : (∀ f, y = TryDespawn f → f ∉ h_alive h) → removed h cs hf → removed h (y :: cs) hf.
Proof.
  intros Hy [H1 H2]. split; [|done]. intros x. rewrite H1. split.
  - intros [Ha Hd]. split; [done|]. intros (f & Hf & Hfa & Hr). apply Hd.
    apply elem_of_cons in Hf as [<-|Hf]; [by destruct (Hy f)|]. by exists f.
  - intros [Ha Hd]. split; [done|]. intros Hx. by apply Hd, doomed_tail.
Qed.

Lemma removed_rel_step h cs y c hf : pending_ok h (RemoveRel y :: cs) → removing h (RemoveRel y :: cs) →
  let h' := mkHier (h_alive h) (delete y (h_rel h)) (without y (h_sources h)) in
  (∀ x, x ∈ c → ∃ p, x = RemoveEmpty p) → removed h' (c ++ cs) hf → removed h (RemoveRel y :: cs) hf.
Proof.
  intros Hok [_ Hrem] h' Hc [H1 H2].
  assert (∀ x, doomed h (RemoveRel y :: cs) x ↔ doomed h' (c ++ cs) x) as Hdoom.
  { intros x. split.
    - intros (f & Hf & Ha & Hr). apply elem_of_cons in Hf as [?|Hf]; [done|]. exists f. split_and!; [by apply elem_of_app; right|done|].
      clear Hf. induction Hr as [z|a b d [Hl Hab] Hr IH]; [done|]. eapply rtc_l; [|by apply IH]. split; [done|]. cbn.
      rewrite lookup_delete_ne; [done|]. intros ->.
      assert (b ∉ h_alive h) as Hb by (eapply Hrem; [by apply elem_of_cons; left|done]).
      destruct Hr as [|b b' d [_ Hb'] _]; [done|]. by eapply Hb, po_rel_alive.
    - intros (f & Hf & Ha & Hr). apply elem_of_app in Hf as [Hf|Hf]; [by destruct (Hc _ Hf)|]. exists f.
      split_and!; [by apply elem_of_cons; right|done|]. clear Hf.
      eapply rtc_subrel; [|exact Hr]. intros a b [Hl Hab]. split; [done|]. cbn in Hab. by apply lookup_delete_Some in Hab as [_ ?]. }
  split.
  - intros x. rewrite H1, Hdoom. done.
  - intros x p. rewrite H2. cbn. rewrite lookup_delete_Some. split; [tauto|].
    intros (Hr & Hx & Hp). split_and!; [|done|done|done]. intros <-.
    apply H1 in Hp as [Hp _]. eapply Hrem; [by apply elem_of_cons; left|done|done].
Qed.

Lemma doomed_despawned h cs e c x :
  pending_ok h (TryDespawn e :: cs) → removing h (TryDespawn e :: cs) → e ∈ h_alive h →
  despawn_cmds linked h (default [] (h_sources h !! e)) e c →
  doomed h (TryDespawn e :: cs) x ↔ x = e ∨ doomed (despawned h e) (c ++ cs) x.
Proof.
  intros Hok [Hadd Hrem] He Hc.
  assert (∀ z, h_rel h !! z = Some e → z ∈ default [] (h_sources h !! e)) as Hall.
  { intros z Hz. destruct (po_up _ _ _ Hok z e Hz) as [(l & Hl & Hin)|[Hin|Hin]].
    - by rewrite Hl.
    - exfalso. by eapply Hrem.
    - by apply Hadd in Hin. }
  split.
  - intros (f & Hf & Ha & Hr). induction Hr as [z|a b d [Hl Hab] Hr IH].
    + destruct (decide (z = e)) as [->|Hne]; [by left|right]. apply elem_of_cons in Hf as [?|Hf]; [congruence|].
      exists z. split_and!; [by apply elem_of_app; right|cbn; set_solver|done].
    + destruct (decide (a = e)) as [->|Hne]; [by left|right].
      assert (h_rel (despawned h e) !! a = Some b) as Hab' by (cbn; by rewrite lookup_delete_ne).
      destruct (IH Hf Ha) as [->|(g & Hg & Hga & Hgr)].
      * exists a. split_and!; [apply elem_of_app; left; by eapply dc_despawns, Hl; auto| |done].
        cbn. pose proof (po_rel_alive _ _ _ Hok a e Hab). set_solver.
      * exists g. split_and!; [done|done|]. eapply rtc_l; [split; [done|exact Hab']|done].
  - assert (∀ a b, rtc (depends (despawned h e)) a b → rtc (depends h) a b) as Hsub.
    { intros a b. apply rtc_subrel. intros u v [Hl Huv]. split; [done|]. cbn in Huv. by apply lookup_delete_Some in Huv as [_ ?]. }
    intros [->|(f & Hf & Ha & Hr)]; [exists e; split_and!; [by apply elem_of_cons; left|done|done]|].
    cbn in Ha. apply elem_of_difference in Ha as [Ha _]. apply Hsub in Hr. apply elem_of_app in Hf as [Hf|Hf].
    + destruct (dc_only _ _ _ _ _ Hc _ Hf) as [[? ?]|[(? & ? & _)|(z & ? & Hz & Hl)]]; simplify_eq.
      exists e. split_and!; [by apply elem_of_cons; left|done|]. eapply rtc_r; [exact Hr|]. split; [done|].
      destruct (h_sources h !! e) as [l|] eqn:Hl'; cbn in Hz; [by eapply po_down|by apply not_elem_of_nil in Hz].
    + exists f. split_and!; [by apply elem_of_cons; right|done|done].
Qed.

Lemma removed_despawn_step h cs e c hf : pending_ok h (TryDespawn e :: cs) → removing h (TryDespawn e :: cs) → e ∈ h_alive h →
  despawn_cmds linked h (default [] (h_sources h !! e)) e c →
  removed (despawned h e) (c ++ cs) hf → removed h (TryDespawn e :: cs) hf.
Proof.
  intros Hok Hrem He Hc [H1 H2]. split.
  - intros x. rewrite H1, (doomed_despawned h cs e c x Hok Hrem He Hc). cbn. set_solver.
  - intros x p. rewrite H2. cbn. rewrite lookup_delete_Some. split; [tauto|].
    intros (Hr & Hx & Hp). split_and!; [|done|done|done]. intros <-. apply H1 in Hx as [Hx _]. cbn in Hx. set_solver.
Qed.

Lemma removed_done h : consistent h → removed h [] h.
Proof.
  intros Hok. split.
  - intros x. split; [|tauto]. intros Hx. split; [done|]. intros (f & Hf & _). by apply not_elem_of_nil in Hf.
  - intros x p. split; [|tauto]. intros Hr. split_and!; [done|by eapply po_rel_alive|].
    destruct (po_up _ _ _ Hok x p Hr) as [(l & Hl & _)|[Hin|Hin]]; [by eapply po_src_alive|by apply not_elem_of_nil in Hin..].
Qed.

(** Only entities and relationships matter. *)
Lemma removed_ext h h' cs hf : h_alive h' = h_alive h → h_rel h' = h_rel h → removed h' cs hf → removed h cs hf.
Proof. intros Ha Hr. unfold removed, doomed, depends. by rewrite Ha, Hr. Qed.

Lemma removing_ext h h' cs : h_alive h' = h_alive h → h_rel h' = h_rel h → removing h cs → removing h' cs.
Proof. intros Ha Hr. unfold removing. by rewrite Ha, Hr. Qed.

Lemma removing_tail h y cs : removing h (y :: cs) → removing h cs.
Proof.
  intros [H1 H2]. split; intros; [intros Hin; eapply H1|eapply H2; [|done]]; by apply elem_of_cons; right.
Qed.

(** One command: what is left to remove afterwards was to be removed before. *)
Lemma command_removes h y cs h' c :
  pending_ok h (y :: cs) → removing h (y :: cs) → apply_command linked rel_first h y = Ret (h', c) →
  removing h' (c ++ cs) ∧ ∀ hf, removed h' (c ++ cs) hf → removed h (y :: cs) hf.
Proof.
  intros Hok Hrem He. pose proof Hrem as [Hadd Hgone].
  assert (∀ z, z ∈ cs → z ∈ y :: cs) as Hfrom by (intros; by apply elem_of_cons; right).
  destruct y as [e|t e|t|e]; cbn in He.
  - destruct (decide (e ∈ h_alive h)) as [Ha|Ha]; simplify_eq.
    + destruct (remove_rel_ok allow_self h (RemoveRel e :: cs) cs e Hok) as (c' & Hr & _ & Hc & _); [by intros|intros z [?|?]%elem_of_cons; by simplify_eq|done|].
      rewrite Hr in He. simplify_eq. split; [|intros hf; by apply removed_rel_step].
      split; [intros p x [Hin|Hin]%elem_of_app; [by destruct (Hc _ Hin)|by eapply Hadd, Hfrom]|].
      intros z p [Hin|Hin]%elem_of_app Hz; [by destruct (Hc _ Hin)|]. cbn in *. apply lookup_delete_Some in Hz as [_ Hz]. by eapply Hgone; [apply Hfrom|].
    + split; [by eapply removing_tail|]. intros hf. by apply removed_skip.
  - exfalso. eapply Hadd. by apply elem_of_cons; left.
  - assert (c = [] ∧ h_alive h' = h_alive h ∧ h_rel h' = h_rel h) as (-> & Ea & Er).
    { destruct (decide (t ∈ h_alive h)); [destruct (decide (h_sources h !! t = Some [])) as [Hs|Hs]|]; simplify_eq; try done.
      unfold target_on_discard. by rewrite Hs. }
    split; [eapply removing_ext; [done|done|]; by eapply removing_tail|].
    intros hf Hf. apply (removed_ext h h') in Hf; [|done|done]. by apply removed_skip.
  - destruct (decide (e ∈ h_alive h)) as [Ha|Ha]; simplify_eq.
    + destruct (despawn_rel_ok allow_self linked rel_first h (TryDespawn e :: cs) cs e Hok Hadd) as (c' & Hr & Hc & _);
        [intros z [?|?]%elem_of_cons; by simplify_eq|done|].
      rewrite Hr in He. simplify_eq. split; [|intros hf; by apply removed_despawn_step].
      split; [intros p x [Hin|Hin]%elem_of_app; [by destruct (dc_only _ _ _ _ _ Hc _ Hin) as [[? ?]|[(? & ? & _)|(? & ? & _)]]|by eapply Hadd, Hfrom]|].
      intros z p Hin Hz. cbn in *. apply lookup_delete_Some in Hz as [Hne Hz]. apply elem_of_app in Hin as [Hin|Hin].
      * destruct (dc_only _ _ _ _ _ Hc _ Hin) as [[? ?]|[(x & ? & Hx)|(? & ? & _)]]; simplify_eq.
        destruct (h_sources h !! e) as [l|] eqn:Hl; cbn in Hx; [|by apply not_elem_of_nil in Hx].
        rewrite (po_down _ _ _ Hok e l x Hl Hx) in Hz. simplify_eq. set_solver.
      * pose proof (Hgone z p (Hfrom _ Hin) Hz). set_solver.
    + split; [by eapply removing_tail|]. intros hf. apply removed_skip. intros f [= <-]. done.
Qed.

(** The pending removals remove exactly the doomed entities. *)
Lemma run_removed fuel h cs : pending_ok h cs → removing h cs → (weight h cs ≤ fuel)%nat →
  ∃ hf, run_pending fuel h cs = Some (Ret hf) ∧ consistent hf ∧ removed h cs hf.
Proof.
  revert h cs. induction fuel as [|fuel IH]; intros h [|y cs] Hok Hrem Hw;
    [by exists h; auto using removed_done|unfold weight in Hw; cbn in Hw; lia|by exists h; auto using removed_done|].
  destruct (apply_command_ok allow_self linked rel_first h y cs Hok) as (h' & c & He & Hok' & Hlt).
  destruct (command_removes h y cs h' c Hok Hrem He) as [Hrem' Hback].
  cbn [Hierarchy.run_pending]. rewrite He. destruct (IH h' (c ++ cs)) as (hf & Hrun & Hcons & Hf); [done|done|lia|].
  exists hf. auto.
Qed.

(** ** Changes of relationships *)

(** Commands that despawn nothing leave the entities alone and remove exactly the
    relationships they name. *)
Lemma run_unlinked fuel h cs : pending_ok h cs → (∀ x, TryDespawn x ∉ cs) → (weight h cs ≤ fuel)%nat →
  ∃ hf, run_pending fuel h cs = Some (Ret hf) ∧ consistent hf ∧ h_alive hf = h_alive h ∧
    ∀ x p, h_rel hf !! x = Some p ↔ h_rel h !! x = Some p ∧ RemoveRel x ∉ cs.
Proof.
  revert h cs. induction fuel as [|fuel IH]; intros h [|y cs] Hok Hnd Hw; [|unfold weight in Hw; cbn in Hw; lia| |];
    [by exists h; split_and!; [done..|]; intros x p; split; [intros; split; [done|by intros ?%not_elem_of_nil]|tauto]..|].
  destruct (apply_command_ok allow_self linked rel_first h y cs Hok) as (h' & c & He & Hok' & Hlt).
  assert (h_alive h' = h_alive h ∧ (∀ x, x ∈ c → ∃ p, x = RemoveEmpty p) ∧
          ∀ x p, h_rel h' !! x = Some p ↔ h_rel h !! x = Some p ∧ y ≠ RemoveRel x) as (Ea & Hc & Er).
  { destruct y as [e|t e|t|e]; cbn in He; [| | |exfalso; eapply Hnd; by apply elem_of_cons; left].
    - destruct (decide (e ∈ h_alive h)) as [Ha|Ha].
      + destruct (remove_rel_ok allow_self h (RemoveRel e :: cs) cs e Hok) as (c' & Hr & _ & Hc & _).
        { intros p Hin. destruct (po_add _ _ _ Hok p e Hin) as (_ & _ & Hn & _). apply Hn. by apply elem_of_cons; left. }
        { intros z [?|?]%elem_of_cons; by simplify_eq. }
        { intros; by apply elem_of_cons; right. }
        rewrite Hr in He. simplify_eq. split_and!; [done|done|]. intros x p. cbn. rewrite lookup_delete_Some. naive_solver.
      + simplify_eq. split_and!; [done|by intros x ?%not_elem_of_nil|]. intros x p. split; [|tauto]. intros Hr. split; [done|].
        intros [= ->]. by eapply Ha, po_rel_alive.
    - case_decide; [case_match|]; simplify_eq; (split_and!; [done|by intros x ?%not_elem_of_nil|intros x p; naive_solver]).
    - repeat case_decide; simplify_eq; (split_and!; [done| |intros x p; naive_solver]); intros x Hx;
        [unfold target_on_discard in Hx; rewrite H1 in Hx; by apply not_elem_of_nil in Hx|by apply not_elem_of_nil in Hx..]. }
  cbn [Hierarchy.run_pending]. rewrite He. destruct (IH h' (c ++ cs)) as (hf & Hrun & Hcons & Haf & Hrf); [done| |lia|].
  { intros x [Hin|Hin]%elem_of_app; [by destruct (Hc _ Hin)|]. eapply Hnd. by apply elem_of_cons; right. }
  exists hf. split_and!; [done|done|congruence|]. intros x p. rewrite Hrf, Er, elem_of_app, elem_of_cons.
  split; [naive_solver|]. intros [Hx Hn]. split_and!; [done|naive_solver|]. intros [Hin|Hin]; [by destruct (Hc _ Hin)|naive_solver].
Qed.

(** ** Fuel *)

Lemma weight_bound h cs : pending_ok h cs → (weight h cs ≤ length cs + 6 * size (h_alive h))%nat.
Proof.
  intros Hok. assert (size (h_rel h) ≤ size (h_alive h))%nat as Hr.
  { rewrite <- size_dom. apply subseteq_size. intros x Hx. apply elem_of_dom in Hx as [p Hp]. by eapply po_rel_alive. }
  assert (size (attached h) ≤ size (h_rel h))%nat as Hat.
  { rewrite <- size_dom. apply subseteq_size. intros x Hx. apply elem_of_attached in Hx as (p & Hp & _). apply elem_of_dom. eauto. }
  unfold weight. lia.
Qed.

(** More pending removals than needed. *)
Lemma more_pending h cs : consistent h → (∀ p e, AddSource p e ∉ cs) → pending_ok h cs.
Proof.
  intros [K1 K2 K3 K4 K5 K6 K7] Hadd. constructor; auto.
  - intros e p Hr. destruct (K2 e p Hr) as [?|[Hin|Hin]]; [auto|by apply not_elem_of_nil in Hin..].
  - intros p l Hl. destruct (K3 p l Hl) as [? Hn]. split; [done|]. intros Hnil. specialize (Hn Hnil). by apply not_elem_of_nil in Hn.
  - intros p e Hin. by apply Hadd in Hin.
  - intros e Hs Hr. specialize (K7 e Hs Hr). by apply not_elem_of_nil in K7.
Qed.

Definition rel_fuel h : nat := 7 * size (h_alive h) + 16.

(** ** Operations *)

(** The relationships after [e] is given the target [t]. *)
Definition linked_to (alive : gset E) (r : gmap E E) (e t : E) : gmap E E :=
  if decide (t ∈ alive ∧ (allow_self = true ∨ t ≠ e)) then <[e := t]> r else delete e r.

Lemma insert_rel_ok h e t : consistent h → e ∈ h_alive h →
  ∃ h' c, insert_rel allow_self h e t = Ret (h', c) ∧ pending_ok h' c ∧ (length c ≤ 2)%nat ∧ (∀ x, TryDespawn x ∉ c) ∧
    h_alive h' = h_alive h ∧ h_rel h' = <[e := t]> (h_rel h) ∧
    (∀ x, RemoveRel x ∈ c ↔ x = e ∧ ¬ (t ∈ h_alive h ∧ (allow_self = true ∨ t ≠ e))).
Proof.
  intros Hok He. destruct (discard_rel_spec allow_self h [] e Hok) as (c & Hd & Hc & Hlen & Hempty).
  unfold insert_rel. rewrite Hd. cbn [mbind outcome_bind].
  unfold set_rel, set_sources. cbn [h_rel h_alive h_sources].
  rewrite (rel_on_insert_many allow_self _ e t) by (cbn; by rewrite lookup_insert_eq). cbn [mbind outcome_bind h_alive].
  set (good := t ∈ h_alive h ∧ (allow_self = true ∨ t ≠ e)).
  set (c2 := if negb allow_self && bool_decide (t = e) then [RemoveRel e] else if decide (t ∈ h_alive h) then [AddSource t e] else [RemoveRel e]).
  assert ((good ∧ c2 = [AddSource t e]) ∨ (¬ good ∧ c2 = [RemoveRel e])) as Hc2.
  { unfold good, c2. destruct allow_self; cbn; repeat case_decide; try case_bool_decide; naive_solver. }
  eexists _, _. split; [reflexivity|]. split_and!; cbn; [| | |done|done|].
  - constructor; cbn.
    + intros p l x Hl Hx. destruct (without_down _ _ _ _ _ _ _ Hok Hl Hx). by rewrite lookup_insert_ne.
    + intros x p Hx. apply lookup_insert_Some in Hx as [[<- <-]|[Hne Hx]].
      * right. rewrite !elem_of_app. destruct Hc2 as [[_ ->]|[_ ->]]; set_solver.
      * left. destruct (po_up _ _ _ Hok x p Hx) as [(l & Hl & Hin)|[Hin|Hin]]; [by eapply without_up|by apply not_elem_of_nil in Hin..].
    + intros p l Hl. destruct (without_lists _ _ _ _ _ _ _ Hok Hempty Hl) as [Hn Hnil]. split; [done|].
      intros Hz. apply elem_of_app. left. destruct (Hnil Hz) as [?|Hin]; [done|by apply not_elem_of_nil in Hin].
    + intros x p Hx. apply lookup_insert_Some in Hx as [[<- <-]|[Hne Hx]]; [done|by eapply po_rel_alive].
    + intros p l Hl. apply without_some in Hl as [l0 Hl0]. by eapply po_src_alive.
    + intros p x [Hin|Hin]%elem_of_app; [by destruct (Hc _ Hin)|].
      destruct Hc2 as [[[Ht Hs] Hc2]|[_ Hc2]]; rewrite Hc2 in *; apply list_elem_of_singleton in Hin; simplify_eq.
      rewrite lookup_insert_eq. split_and!; [done|done| |]; intros; rewrite elem_of_app, list_elem_of_singleton; intros [Hin|?]; try done; by destruct (Hc _ Hin).
    + intros x Hs Hx. apply elem_of_app. right. apply lookup_insert_Some in Hx as [[<- <-]|[Hne Hx]].
      * destruct Hc2 as [[[_ [?|?]] _]|[_ ->]]; [congruence|done|by apply list_elem_of_singleton].
      * pose proof (po_self _ _ _ Hok x Hs Hx) as Hin. by apply not_elem_of_nil in Hin.
  - rewrite length_app. destruct Hc2 as [[_ ->]|[_ ->]]; cbn; lia.
  - intros x. rewrite elem_of_app. intros [Hin|Hin]; [by destruct (Hc _ Hin)|]. destruct Hc2 as [[_ Hc2]|[_ Hc2]]; rewrite Hc2 in Hin; by apply list_elem_of_singleton in Hin.
  - intros x. rewrite elem_of_app. destruct Hc2 as [[Hg ->]|[Hg ->]]; rewrite list_elem_of_singleton; split.
    + intros [Hin|?]; [by destruct (Hc _ Hin)|done].
    + intros [_ ?]. done.
    + intros [Hin|[= ->]]; [by destruct (Hc _ Hin)|done].
    + intros [-> _]. by right.
Qed.

Lemma consistent_target h e p : consistent h → h_rel h !! e = Some p → p ∈ h_alive h.
Proof.
  intros Hok Hr. destruct (po_up _ _ _ Hok e p Hr) as [(l & Hl & _)|[Hin|Hin]]; [by eapply po_src_alive|by apply not_elem_of_nil in Hin..].
Qed.

Lemma insert_run fuel h e t : consistent h → e ∈ h_alive h → (rel_fuel h ≤ fuel)%nat →
  ∃ h', flushed_op linked rel_first fuel (insert_rel allow_self h e t) = Some (Ret h') ∧ consistent h' ∧
    h_alive h' = h_alive h ∧ h_rel h' = linked_to (h_alive h) (h_rel h) e t.
Proof.
  intros Hok He Hf. destruct (insert_rel_ok h e t Hok He) as (h1 & c & Hi & Hp & Hlen & Hnd & Ea & Er & Hrm).
  rewrite Hi. cbn [flushed_op]. destruct (run_unlinked fuel h1 c Hp Hnd) as (hf & Hrun & Hcons & Haf & Hrf).
  { pose proof (weight_bound _ _ Hp) as Hb. rewrite Ea in Hb. unfold rel_fuel in Hf. lia. }
  exists hf. split_and!; [done|done|congruence|]. apply map_eq. intros x. apply option_eq. intros p.
  rewrite Hrf, Er, Hrm. unfold linked_to. destruct (decide _) as [Hg|Hg].
  - split; [tauto|]. intros Hx. split; [done|]. by intros [-> ?].
  - rewrite lookup_delete_Some, lookup_insert_Some. naive_solver.
Qed.

Lemma remove_run fuel h e : consistent h → e ∈ h_alive h → (rel_fuel h ≤ fuel)%nat →
  ∃ h', flushed_op linked rel_first fuel (remove_rel h e) = Some (Ret h') ∧ consistent h' ∧
    h_alive h' = h_alive h ∧ h_rel h' = delete e (h_rel h).
Proof.
  intros Hok He Hf.
  assert (pending_ok h [RemoveRel e]) as Hp by (apply more_pending; [done|intros p x ?%list_elem_of_singleton; done]).
  destruct (run_unlinked (S fuel) h [RemoveRel e] Hp) as (hf & Hrun & Hcons & Haf & Hrf).
  { by intros x ?%list_elem_of_singleton. }
  { pose proof (weight_bound _ _ Hp) as Hb. cbn [length] in Hb. unfold rel_fuel in Hf. lia. }
  cbn [Hierarchy.run_pending apply_command] in Hrun. rewrite decide_True in Hrun by done.
  exists hf. unfold flushed_op. destruct (remove_rel h e) as [[h1 c1]| |]; rewrite ?app_nil_r in Hrun; split_and!; try done.
  all: apply map_eq; intros x; apply option_eq; intros p; rewrite Hrf, list_elem_of_singleton, lookup_delete_Some; naive_solver.
Qed.

Lemma despawn_run fuel h e : consistent h → e ∈ h_alive h → (rel_fuel h ≤ fuel)%nat →
  ∃ h', flushed_op linked rel_first fuel (despawn_rel linked rel_first h e) = Some (Ret h') ∧ consistent h' ∧ removed h [TryDespawn e] h'.
Proof.
  intros Hok He Hf.
  assert (pending_ok h [TryDespawn e]) as Hp by (apply more_pending; [done|intros p x ?%list_elem_of_singleton; done]).
  destruct (run_removed (S fuel) h [TryDespawn e] Hp) as (hf & Hrun & Hcons & Hrem).
  { split; intros; [intros ?%list_elem_of_singleton; done|]. by apply list_elem_of_singleton in H0. }
  { pose proof (weight_bound _ _ Hp) as Hb. cbn [length] in Hb. unfold rel_fuel in Hf. lia. }
  cbn [Hierarchy.run_pending apply_command] in Hrun. rewrite decide_True in Hrun by done.
  exists hf. unfold flushed_op. by destruct (despawn_rel linked rel_first h e) as [[h1 c1]| |]; rewrite ?app_nil_r in Hrun.
Qed.

Lemma detach_run fuel h p : consistent h → p ∈ h_alive h → (rel_fuel h ≤ fuel)%nat →
  ∃ h', flushed_op linked rel_first fuel (Ret (remove_sources h p)) = Some (Ret h') ∧ consistent h' ∧
    h_alive h' = h_alive h ∧ h_rel h' = filter (λ kv, kv.2 ≠ p) (h_rel h).
Proof.
  intros Hok Hp Hf. set (l := default [] (h_sources h !! p)).
  assert (NoDup l ∧ ∀ x, x ∈ l ↔ h_rel h !! x = Some p) as [Hnd Hl].
  { unfold l. destruct (h_sources h !! p) as [m|] eqn:Hm; cbn.
    - split; [by eapply po_lists|]. intros x. split; [by eapply po_down|]. intros Hx.
      destruct (po_up _ _ _ Hok x p Hx) as [(m' & Hm' & Hin)|[Hin|Hin]]; [congruence|by apply not_elem_of_nil in Hin..].
    - split; [apply NoDup_nil_2|]. intros x. split; [by intros ?%not_elem_of_nil|]. intros Hx.
      destruct (po_up _ _ _ Hok x p Hx) as [(m' & Hm' & Hin)|[Hin|Hin]]; [congruence|by apply not_elem_of_nil in Hin..]. }
  assert (pending_ok (set_sources h (delete p (h_sources h))) (RemoveRel <$> l)) as Hpend.
  { destruct (more_pending h (RemoveRel <$> l) Hok) as [K1 K2 K3 K4 K5 K6 K7].
    { intros q x (? & ? & _)%list_elem_of_fmap. done. }
    constructor; cbn; auto; try (intros q m Hq; apply lookup_delete_Some in Hq as [Hne Hq]; eauto; fail).
    - intros q m x Hq. apply lookup_delete_Some in Hq as [_ Hq]. by eapply K1.
    - intros x q Hx. destruct (decide (q = p)) as [->|Hne].
      + right; left. apply list_elem_of_fmap_2. by apply Hl.
      + destruct (K2 x q Hx) as [(m & Hm & Hin)|?]; [|by right]. left. exists m. by rewrite lookup_delete_ne. }
  assert (length l ≤ size (h_alive h))%nat as Hlen.
  { rewrite <- (size_list_to_set (C := gset E) l) by done. apply subseteq_size. intros x Hx. apply elem_of_list_to_set, Hl in Hx. by eapply po_rel_alive. }
  destruct (run_unlinked fuel _ _ Hpend) as (hf & Hrun & Hcons & Haf & Hrf).
  { by intros x (? & ? & _)%list_elem_of_fmap. }
  { pose proof (weight_bound _ _ Hpend) as Hb. rewrite length_fmap in Hb. cbn [set_sources h_alive] in Hb. unfold rel_fuel in Hf. lia. }
  exists hf. split_and!; [exact Hrun|done|done|]. apply map_eq. intros x. apply option_eq. intros q.
  rewrite Hrf, map_lookup_filter_Some, list_elem_of_fmap. cbn. split.
  - intros [Hx Hn]. split; [done|]. intros ->. apply Hn. exists x. split; [done|by apply Hl].
  - intros [Hx Hn]. split; [done|]. intros (y & [= ->] & Hy). apply Hl in Hy. congruence.
Qed.

Lemma spawn_run fuel h e t : consistent h → e ∉ h_alive h → (rel_fuel h ≤ fuel)%nat →
  ∃ h', flushed_op linked rel_first fuel (spawn_at allow_self h e t) = Some (Ret h') ∧ consistent h' ∧
    h_alive h' = h_alive h ∪ {[e]} ∧
    h_rel h' = match t with None => h_rel h | Some t => linked_to (h_alive h ∪ {[e]}) (h_rel h) e t end.
Proof.
  intros Hok He Hf. set (h1 := mkHier (h_alive h ∪ {[e]}) (h_rel h) (h_sources h)).
  assert (consistent h1) as Hok1.
  { destruct Hok as [K1 K2 K3 K4 K5 K6 K7]. constructor; cbn; auto.
    - intros x p Hx. apply elem_of_union. left. by eapply K4.
    - intros p l Hl. apply elem_of_union. left. by eapply K5.
    - intros p x Hin. by apply not_elem_of_nil in Hin. }
  destruct t as [t|]; [|exists h1; by destruct fuel].
  assert (spawn_at allow_self h e (Some t) = insert_rel allow_self h1 e t) as ->.
  { unfold spawn_at, insert_rel, discard_rel. cbn. destruct (h_rel h !! e) as [p|] eqn:Hp; [|done].
    exfalso. apply He. exact (po_rel_alive _ _ _ Hok e p Hp). }
  assert (size (h_alive h1) ≤ S (size (h_alive h)))%nat as Hs.
  { cbn. rewrite size_union_alt, size_difference_alt, size_singleton. lia. }
  destruct (insert_rel_ok h1 e t Hok1) as (h2 & c & Hi & Hp & Hlen & Hnd & Ea & Er & Hrm); [set_solver|].
  rewrite Hi. cbn [flushed_op]. destruct (run_unlinked fuel h2 c Hp Hnd) as (hf & Hrun & Hcons & Haf & Hrf).
  { pose proof (weight_bound _ _ Hp) as Hb. rewrite Ea in Hb. unfold rel_fuel in Hf. lia. }
  exists hf. split_and!; [done|done|by rewrite Haf, Ea|]. apply map_eq. intros x. apply option_eq. intros p.
  rewrite Hrf, Er, Hrm. cbn. unfold linked_to. destruct (decide _) as [Hg|Hg].
  - split; [tauto|]. intros Hx. split; [done|]. by intros [-> ?].
  - rewrite lookup_delete_Some, lookup_insert_Some. naive_solver.
Qed.

(** ** Sequences *)

(** Despawning one entity after another dooms what either dooms. *)
Lemma removed_trans h e es h1 h2 : consistent h →
  removed h [TryDespawn e] h1 → removed h1 (TryDespawn <$> es) h2 → removed h (TryDespawn <$> (e :: es)) h2.
Proof.
  intros Hok [A1 R1] [A2 R2].
  assert (∀ x, doomed h (TryDespawn <$> (e :: es)) x ↔ doomed h [TryDespawn e] x ∨ doomed h (TryDespawn <$> es) x) as Hsplit.
  { intros x. cbn. split.
    - intros (f & Hf & Ha & Hr). apply elem_of_cons in Hf as [Hf|Hf]; [left|right]; exists f; split_and!; try done. rewrite Hf. by apply list_elem_of_singleton.
    - intros [(f & Hf & Ha & Hr)|(f & Hf & Ha & Hr)]; exists f; split_and!; try done; apply elem_of_cons; [left; by apply list_elem_of_singleton in Hf|by right]. }
  assert (∀ x, x ∈ h_alive h1 → doomed h (TryDespawn <$> es) x → doomed h1 (TryDespawn <$> es) x) as Hfwd.
  { intros x Hx (f & Hf & Ha & Hr). exists f. induction Hr as [z|a b d [Hl Hab] Hr IH]; [done|].
    assert (b ∈ h_alive h1) as Hb.
    { apply A1. split; [by eapply consistent_target|]. intros (g & Hg & Hga & Hgr). apply A1 in Hx as [_ Hx]. apply Hx.
      exists g. split_and!; [done|done|]. eapply rtc_l; [|exact Hgr]. by split. }
    destruct (IH Hb Hf Ha) as (Hin & Hda & Hbd). split_and!; [done|done|]. eapply rtc_l; [|exact Hbd]. split; [done|]. apply R1. done. }
  assert (∀ x, doomed h1 (TryDespawn <$> es) x → doomed h (TryDespawn <$> es) x) as Hbwd.
  { intros x (f & Hf & Ha & Hr). exists f. split_and!; [done|by apply A1 in Ha as [? _]|].
    eapply rtc_subrel; [|exact Hr]. intros a b [Hl Hab]. split; [done|]. by apply R1 in Hab as [? _]. }
  split.
  - intros x. rewrite A2, Hsplit. split.
    + intros [Hx Hn]. pose proof Hx as Hx1. apply A1 in Hx1 as [Ha Hd]. split; [done|]. intros [?|Hd2]; [done|]. by apply Hn, Hfwd.
    + intros [Ha Hn]. assert (x ∈ h_alive h1) as Hx by (apply A1; tauto). split; [done|]. intros Hd. apply Hn. right. by apply Hbwd.
  - intros x p. rewrite R2, R1. split; [tauto|]. intros (Hr & Hx & Hp). split_and!; try done; [by apply A2 in Hx as [? _]|by apply A2 in Hp as [? _]].
Qed.

Lemma removed_alive h cs hf : removed h cs hf → h_alive hf ⊆ h_alive h.
Proof. intros [Ha _] x Hx. by apply Ha in Hx as [? _]. Qed.

Lemma rel_fuel_shrinks h h' fuel : h_alive h' ⊆ h_alive h → (rel_fuel h ≤ fuel)%nat → (rel_fuel h' ≤ fuel)%nat.
Proof. intros Hs Hf. pose proof (subseteq_size _ _ Hs). unfold rel_fuel in *. lia. Qed.

Lemma despawn_each_run fuel es h : consistent h → (rel_fuel h ≤ fuel)%nat →
  ∃ h', each (λ h e, if decide (e ∈ h_alive h) then flushed_op linked rel_first fuel (despawn_rel linked rel_first h e) else Some (Ret h)) h es = Some (Ret h') ∧
    consistent h' ∧ removed h (TryDespawn <$> es) h'.
Proof.
  revert h. induction es as [|e es IH]; intros h Hok Hf; [by exists h; auto using removed_done|].
  cbn [each]. destruct (decide (e ∈ h_alive h)) as [He|He].
  - destruct (despawn_run fuel h e Hok He Hf) as (h1 & Hr & Hok1 & Hrem). rewrite Hr.
    destruct (IH h1 Hok1) as (h2 & Hr2 & Hok2 & Hrem2); [eapply rel_fuel_shrinks; [by eapply removed_alive|done]|].
    exists h2. split_and!; [done|done|by eapply removed_trans].
  - destruct (IH h Hok Hf) as (h2 & Hr2 & Hok2 & Hrem2). exists h2. split_and!; [done|done|]. cbn. apply removed_skip; [|done]. by intros f [= <-].
Qed.

Lemma add_each_run large fuel p es h : consistent h → (rel_fuel h ≤ fuel)%nat → (∀ e, e ∈ es → e ∈ h_alive h) →
  ∃ h', each (λ h e, if decide (e ∈ h_alive h) then modify_or_insert_rel allow_self linked rel_first large fuel h e p else Some Panic) h es = Some (Ret h') ∧
    consistent h' ∧ h_alive h' = h_alive h ∧ h_rel h' = foldl (λ r e, linked_to (h_alive h) r e p) (h_rel h) es.
Proof.
  revert h. induction es as [|e es IH]; intros h Hok Hf Hes; [by exists h|].
  cbn [each]. rewrite decide_True by (apply Hes; by apply elem_of_cons; left).
  destruct (insert_run fuel h e p Hok) as (h1 & Hr & Hok1 & Ha & Hr1); [apply Hes; by apply elem_of_cons; left|done|]. rewrite modify_or_insert_same, Hr.
  destruct (IH h1 Hok1) as (h2 & Hr2 & Hok2 & Ha2 & Hrel2).
  { eapply rel_fuel_shrinks; [by rewrite Ha|done]. }
  { intros x Hx. rewrite Ha. apply Hes. by apply elem_of_cons; right. }
  exists h2. split_and!; [done|done|congruence|]. cbn. by rewrite Hrel2, Hr1, Ha.
Qed.

Lemma remove_each_run fuel p es h : consistent h → (rel_fuel h ≤ fuel)%nat → (∀ e, e ∈ es → e ∈ h_alive h) →
  ∃ h', each (λ h e, if decide (e ∈ h_alive h)
                     then if decide (h_rel h !! e = Some p) then flushed_op linked rel_first fuel (remove_rel h e) else Some (Ret h)
                     else Some Panic) h es = Some (Ret h') ∧
    consistent h' ∧ h_alive h' = h_alive h ∧ h_rel h' = filter (λ kv, ¬ (kv.2 = p ∧ kv.1 ∈ es)) (h_rel h).
Proof.
  revert h. induction es as [|e es IH]; intros h Hok Hf Hes.
  { exists h. split_and!; [done|done|done|]. symmetry. apply map_filter_id. intros i x _ [_ Hx]. by apply not_elem_of_nil in Hx. }
  assert (e ∈ h_alive h) as He by (apply Hes; by apply elem_of_cons; left).
  cbn [each]. rewrite decide_True by done. destruct (decide (h_rel h !! e = Some p)) as [Hp|Hp].
  - destruct (remove_run fuel h e Hok He Hf) as (h1 & Hr & Hok1 & Ha & Hr1). rewrite Hr.
    destruct (IH h1 Hok1) as (h2 & Hr2 & Hok2 & Ha2 & Hrel2).
    { eapply rel_fuel_shrinks; [by rewrite Ha|done]. }
    { intros x Hx. rewrite Ha. apply Hes. by apply elem_of_cons; right. }
    exists h2. split_and!; [done|done|congruence|]. rewrite Hrel2, Hr1. apply map_eq. intros x. apply option_eq. intros q.
    rewrite !map_lookup_filter_Some, lookup_delete_Some, elem_of_cons. cbn. naive_solver.
  - destruct (IH h Hok Hf) as (h2 & Hr2 & Hok2 & Ha2 & Hrel2); [intros x Hx; apply Hes; by apply elem_of_cons; right|].
    exists h2. split_and!; [done|done|done|]. rewrite Hrel2. apply map_eq. intros x. apply option_eq. intros q.
    rewrite !map_lookup_filter_Some, elem_of_cons. cbn. naive_solver.
Qed.

(** ** The contract *)

(** The entities an operation may name. *)
Definition op_valid h (op : RelOp E) : Prop :=
  match op with
  | OpSpawn e _ => e ∉ h_alive h
  | OpInsert e _ | OpRemove e => e ∈ h_alive h
  | OpDetach p | OpDespawnRelated p => p ∈ h_alive h
  | OpDespawn e => True
  | OpAddRelated _ p es | OpRemoveRelated p es => p ∈ h_alive h ∧ ∀ e, e ∈ es → e ∈ h_alive h
  end.

(** What it does to the entities and their relationships. *)
Definition op_effect h (op : RelOp E) (h' : Hier E) : Prop :=
  match op with
  | OpSpawn e t => h_alive h' = h_alive h ∪ {[e]} ∧
      h_rel h' = match t with None => h_rel h | Some t => linked_to (h_alive h ∪ {[e]}) (h_rel h) e t end
  | OpInsert e t => h_alive h' = h_alive h ∧ h_rel h' = linked_to (h_alive h) (h_rel h) e t
  | OpRemove e => h_alive h' = h_alive h ∧ h_rel h' = delete e (h_rel h)
  | OpDetach p => h_alive h' = h_alive h ∧ h_rel h' = filter (λ kv, kv.2 ≠ p) (h_rel h)
  | OpDespawn e => removed h [TryDespawn e] h'
  | OpAddRelated _ p es => h_alive h' = h_alive h ∧ h_rel h' = foldl (λ r e, linked_to (h_alive h) r e p) (h_rel h) es
  | OpRemoveRelated p es => h_alive h' = h_alive h ∧ h_rel h' = filter (λ kv, ¬ (kv.2 = p ∧ kv.1 ∈ es)) (h_rel h)
  | OpDespawnRelated p => removed h (TryDespawn <$> reverse (default [] (h_sources h !! p))) h'
  end.

Lemma run_op_ok fuel h op : consistent h → op_valid h op → (rel_fuel h ≤ fuel)%nat →
  ∃ h', run_op allow_self linked rel_first fuel h op = Some (Ret h') ∧ consistent h' ∧ op_effect h op h'.
Proof.
  intros Hok Hv Hf. destruct op as [e t|e t|e|p|e|large p es|p es|p]; cbn [run_op op_valid op_effect] in *.
  - by apply spawn_run.
  - rewrite decide_True by done. by apply insert_run.
  - rewrite decide_True by done. by apply remove_run.
  - rewrite decide_True by done. by apply detach_run.
  - destruct (decide (e ∈ h_alive h)) as [He|He]; [by apply despawn_run|].
    exists h. split_and!; [done|done|]. apply removed_skip; [by intros f [= <-]|by apply removed_done].
  - destruct Hv. rewrite decide_True by done. by apply add_each_run.
  - destruct Hv. rewrite decide_True by done. by apply remove_each_run.
  - rewrite decide_True by done. by apply despawn_each_run.
Qed.

(** ** Theorems *)

(** States that valid operations reach from an empty world. *)
Inductive rel_reach : Hier E → Prop :=
| reach_new : rel_reach Hier_new
| reach_op fuel h op h' : rel_reach h → op_valid h op → (rel_fuel h ≤ fuel)%nat →
    run_op allow_self linked rel_first fuel h op = Some (Ret h') → rel_reach h'.

Lemma reach_consistent h : rel_reach h → consistent h.
Proof.
  induction 1 as [|fuel h op h' Hr IH Hv Hf Hrun].
  - constructor; cbn; try (by intros; rewrite lookup_empty in *); try (by intros; exfalso; eapply not_elem_of_nil).
  - destruct (run_op_ok fuel h op IH Hv Hf) as (h2 & Hrun2 & Hok & _). rewrite Hrun in Hrun2. by simplify_eq.
Qed.

(** C32: After any history of spawns, insertions, replacements and removals of the
    relationship, detachments and despawns, the two sides agree: an entity is in the
    list of its target and in no other, the lists have no duplicates, are never left
    empty and belong to spawned entities, related entities are spawned, and no entity
    is related to itself unless that is allowed. *)
Theorem relationships_consistent h : rel_reach h →
  (∀ e p, h_rel h !! e = Some p ↔ ∃ l, h_sources h !! p = Some l ∧ e ∈ l) ∧
  (∀ p l, h_sources h !! p = Some l → NoDup l ∧ l ≠ [] ∧ p ∈ h_alive h) ∧
  (∀ e p, h_rel h !! e = Some p → e ∈ h_alive h ∧ (allow_self = false → e ≠ p)).
Proof.
  intros Hok%reach_consistent. split_and!.
  - intros e p. split; [|intros (l & Hl & Hin); by eapply po_down]. intros Hr.
    destruct (po_up _ _ _ Hok e p Hr) as [?|[Hin|Hin]]; [done|by apply not_elem_of_nil in Hin..].
  - intros p l Hl. destruct (po_lists _ _ _ Hok p l Hl) as [Hnd Hne]. split_and!; [done| |by eapply po_src_alive].
    intros Hnil. specialize (Hne Hnil). by apply not_elem_of_nil in Hne.
  - intros e p Hr. split; [by eapply po_rel_alive|]. intros Hs ->. pose proof (po_self _ _ _ Hok p Hs Hr) as Hin. by apply not_elem_of_nil in Hin.
Qed.

(** C33: Every operation on spawned entities returns within the fuel, however its hooks
    and the commands they queue nest, and does what it says: a new link holds or is
    dropped when its target is not spawned or is the entity itself; removals remove
    exactly the named links; a despawn removes the entity and, when lifecycles are
    linked, exactly the entities whose chain of targets leads to it, also through
    cycles, and every link to a removed entity. *)
Theorem relationship_operations fuel h op : rel_reach h → op_valid h op → (rel_fuel h ≤ fuel)%nat →
  ∃ h', run_op allow_self linked rel_first fuel h op = Some (Ret h') ∧ op_effect h op h' ∧ rel_reach h'.
Proof.
  intros Hr Hv Hf. destruct (run_op_ok fuel h op (reach_consistent _ Hr) Hv Hf) as (h' & Hrun & _ & He).
  exists h'. split_and!; [done|done|by eapply reach_op].
Qed.
End ops.

(** ** Example *)

(** A chain 3 -> 2 -> 1. *)
Definition ex_family : Hier nat := mkHier {[1; 2; 3]} {[2 := 1; 3 := 2]} {[1 := [2]; 2 := [3]]}.

Lemma ex_family_reach : rel_reach false true false ex_family.
Proof.
  pose (h1 := mkHier {[1]} ∅ ∅ : Hier nat). pose (h2 := mkHier {[1; 2]} {[2 := 1]} {[1 := [2]]} : Hier nat).
  assert (rel_reach false true false h1) as H1.
  { apply (reach_op _ _ _ 100 Hier_new (OpSpawn 1 None)); [constructor|set_solver|vm_compute; lia|vm_compute; reflexivity]. }
  assert (rel_reach false true false h2) as H2.
  { apply (reach_op _ _ _ 100 h1 (OpSpawn 2 (Some 1))); [done|set_solver|vm_compute; lia|vm_compute; reflexivity]. }
  apply (reach_op _ _ _ 100 h2 (OpSpawn 3 (Some 2))); [done|set_solver|vm_compute; lia|vm_compute; reflexivity].
Qed.

Lemma relationships_consistent_witness :
  (∀ e p, h_rel ex_family !! e = Some p ↔ ∃ l, h_sources ex_family !! p = Some l ∧ e ∈ l) ∧
  (∀ p l, h_sources ex_family !! p = Some l → NoDup l ∧ l ≠ [] ∧ p ∈ h_alive ex_family) ∧
  (∀ e p, h_rel ex_family !! e = Some p → e ∈ h_alive ex_family ∧ (false = false → e ≠ p)).
Proof. exact (relationships_consistent false true false ex_family ex_family_reach). Defined.

Lemma relationship_operations_witness :
  ∃ h', run_op false true false 100 ex_family (OpDespawn 1%nat) = Some (Ret h') ∧
    op_effect false true ex_family (OpDespawn 1%nat) h' ∧ rel_reach false true false h'.
Proof. apply (relationship_operations false true false 100 ex_family (OpDespawn 1%nat) ex_family_reach I). vm_compute. lia. Defined.

(** The whole chain goes. *)
Example ex_despawn_chain : run_op false true false 100 ex_family (OpDespawn 1%nat) = Some (Ret Hier_new).
Proof. vm_compute. reflexivity. Qed.
