(* ===== verification/CommandQueue.v ===== *)
(** * Command queues

    [crates/voker-ecs/src/command/queue.rs] and [world/methods/command.rs].  A
    command runs against the world, may queue further commands on it and flush them
    itself, and may panic; the packed bytes are a list of commands, the cursor an
    index into it.  [apply_or_drop] with a world is [apply_queue]; without one the
    commands are only dropped. *)

From Stdlib Require Import Lia.
From S2P Require Import Prelude.

Section queue.
Context {W Cmd : Type}.

(** What the code of a command does, in order; [Look] goes on with what it finds in
    the world. *)
Inductive Act :=
| Do (f : W → W)
| Look (f : W → list Act)
| Push (c : Cmd)
| Flush
| Throw.

(** [Command::apply] of the queued values. *)
Context (body : Cmd → list Act).

Record CommandQueue := mkCommands { cq_bytes : list Cmd; cq_cursor : nat; cq_panic_recovery : list Cmd }.

Definition CommandQueue_new : CommandQueue := mkCommands [] 0 [].

Definition CommandQueue_is_empty (q : CommandQueue) : bool := bool_decide (length (cq_bytes q) ≤ cq_cursor q).

Definition CommandQueue_push (q : CommandQueue) (c : Cmd) : CommandQueue :=
  mkCommands (cq_bytes q ++ [c]) (cq_cursor q) (cq_panic_recovery q).

(** [other.bytes] moves behind [self.bytes]. *)
Definition CommandQueue_append (self other : CommandQueue) : CommandQueue * CommandQueue :=
  (mkCommands (cq_bytes self ++ cq_bytes other) (cq_cursor self) (cq_panic_recovery self),
   mkCommands [] 0 (cq_panic_recovery other)).

(** A run of code ends, unwinds with a panic, or reads past the queue. *)
Inductive Run :=
| Done (w : W) (q : CommandQueue)
| Unwound (w : W) (q : CommandQueue)
| OutOfBounds.

(** What [apply_or_drop_inner] does when a command panics, [local] the first command
    that did not run. *)
Definition recover (q : CommandQueue) (start local : nat) : CommandQueue :=
  let recovery := cq_panic_recovery q ++ drop local (cq_bytes q) in
  let bytes := take start (cq_bytes q) in
  if decide (start = 0) then mkCommands (bytes ++ recovery) start [] else mkCommands bytes start recovery.

(** [apply_or_drop] around the loop of [apply_or_drop_inner]. *)
Definition apply_queue (loop : W → CommandQueue → nat → nat → nat → option Run) (w : W) (q : CommandQueue) : option Run :=
  if CommandQueue_is_empty q then Some (Done w q)
  else
    let start := cq_cursor q in
    let stop := length (cq_bytes q) in
    match loop w (mkCommands (cq_bytes q) stop (cq_panic_recovery q)) start stop start with
    | Some (Done w q) => Some (Done w (mkCommands (take start (cq_bytes q)) start (cq_panic_recovery q)))
    | r => r
    end.

(** The body of a command on the world and its queue, and the loop over the
    commands from [local] to [stop]; [None] is out of fuel. *)
Fixpoint run_acts (fuel : nat) (w : W) (q : CommandQueue) (acts : list Act) {struct fuel} : option Run :=
  match acts with
  | [] => Some (Done w q)
  | act :: acts =>
      match fuel with
      | O => None
      | S fuel =>
          match act with
          | Do f => run_acts fuel (f w) q acts
          | Look f => run_acts fuel w q (f w ++ acts)
          | Push c => run_acts fuel w (CommandQueue_push q c) acts
          | Flush =>
              match apply_queue (apply_loop fuel) w q with
              | Some (Done w q) => run_acts fuel w q acts
              | r => r
              end
          | Throw => Some (Unwound w q)
          end
      end
  end
with apply_loop (fuel : nat) (w : W) (q : CommandQueue) (start stop local : nat) {struct fuel} : option Run :=
  if decide (local < stop) then
    match fuel with
    | O => None
    | S fuel =>
        match cq_bytes q !! local with
        | None => Some OutOfBounds
        | Some c =>
            match (match run_acts fuel w q (body c) with
                   | Some (Done w q) => apply_queue (apply_loop fuel) w q
                   | r => r
                   end) with
            | Some (Done w q) => apply_loop fuel w q start stop (S local)
            | Some (Unwound w q) => Some (Unwound w (recover q start (S local)))
            | r => r
            end
        end
    end
  else Some (Done w q).

(** [World::flush]. *)
Definition World_flush (fuel : nat) (w : W) (q : CommandQueue) : option Run := apply_queue (apply_loop fuel) w q.

(** The loop of [apply_or_drop_inner] on a queue [own] that is not the world's, which
    no command can reach; [q] is the world's queue. *)
Fixpoint apply_own_loop (fuel : nat) (w : W) (q own : CommandQueue) (start stop local : nat) : option (Run * CommandQueue) :=
  if decide (local < stop) then
    match fuel with
    | O => None
    | S fuel =>
        match cq_bytes own !! local with
        | None => Some (OutOfBounds, own)
        | Some c =>
            match (match run_acts fuel w q (body c) with
                   | Some (Done w q) => World_flush fuel w q
                   | r => r
                   end) with
            | Some (Done w q) => apply_own_loop fuel w q own start stop (S local)
            | Some (Unwound w q) => Some (Unwound w q, recover own start (S local))
            | Some OutOfBounds => Some (OutOfBounds, own)
            | None => None
            end
        end
    end
  else Some (Done w q, mkCommands (take start (cq_bytes own)) start (cq_panic_recovery own)).

(** [CommandQueue::apply]: the world's commands first. *)
Definition CommandQueue_apply (fuel : nat) (w : W) (q own : CommandQueue) : option (Run * CommandQueue) :=
  match World_flush fuel w q with
  | Some (Done w q) =>
      if CommandQueue_is_empty own then Some (Done w q, own)
      else
        let start := cq_cursor own in
        let stop := length (cq_bytes own) in
        apply_own_loop fuel w q (mkCommands (cq_bytes own) stop (cq_panic_recovery own)) start stop start
  | Some r => Some (r, own)
  | None => None
  end.

(** [Drop]: the commands whose values are dropped, none of them run. *)
Definition CommandQueue_drop (q : CommandQueue) : list Cmd :=
  match cq_bytes q with
  | [] => []
  | _ => if CommandQueue_is_empty q then [] else drop (cq_cursor q) (cq_bytes q)
  end.

(** ** The order of commands *)

(** Depth first: the commands a command queues run when it flushes or ends, before
    the next command.  A panic leaves the commands that did not run. *)
Inductive RefActs := ActsDone (w : W) (pend : list Cmd) | ActsPanic (w : W) (lost pend : list Cmd).
Inductive RefList := ListDone (w : W) | ListPanic (w : W) (lost : list Cmd).

Fixpoint ref_acts (fuel : nat) (w : W) (pend : list Cmd) (acts : list Act) {struct fuel} : option RefActs :=
  match acts with
  | [] => Some (ActsDone w pend)
  | act :: acts =>
      match fuel with
      | O => None
      | S fuel =>
          match act with
          | Do f => ref_acts fuel (f w) pend acts
          | Look f => ref_acts fuel w pend (f w ++ acts)
          | Push c => ref_acts fuel w (pend ++ [c]) acts
          | Flush =>
              match ref_list fuel w pend with
              | Some (ListDone w) => ref_acts fuel w [] acts
              | Some (ListPanic w lost) => Some (ActsPanic w lost [])
              | None => None
              end
          | Throw => Some (ActsPanic w [] pend)
          end
      end
  end
with ref_list (fuel : nat) (w : W) (cs : list Cmd) {struct fuel} : option RefList :=
  match cs with
  | [] => Some (ListDone w)
  | c :: cs =>
      match fuel with
      | O => None
      | S fuel =>
          match ref_acts fuel w [] (body c) with
          | Some (ActsDone w pend) =>
              match ref_list fuel w pend with
              | Some (ListDone w) => ref_list fuel w cs
              | Some (ListPanic w lost) => Some (ListPanic w (lost ++ cs))
              | None => None
              end
          | Some (ActsPanic w lost pend) => Some (ListPanic w (lost ++ cs ++ pend))
          | None => None
          end
      end
  end.

(** ** The queue follows it *)

(** The queue after a panic: below the outermost level the commands lost are kept
    aside, at the outermost they are the queue again. *)
Definition unwound (pre lost recovery : list Cmd) : CommandQueue :=
  match pre with
  | [] => mkCommands (recovery ++ lost) 0 []
  | _ => mkCommands pre (length pre) (recovery ++ lost)
  end.

Definition flush_result (pre recovery : list Cmd) (r : option RefList) : option Run :=
  match r with
  | Some (ListDone w) => Some (Done w (mkCommands pre (length pre) recovery))
  | Some (ListPanic w lost) => Some (Unwound w (unwound pre lost recovery))
  | None => None
  end.

Definition acts_follow (fuel : nat) : Prop := ∀ w pre pend recovery acts, pre ≠ [] →
  run_acts fuel w (mkCommands (pre ++ pend) (length pre) recovery) acts =
  match ref_acts fuel w pend acts with
  | Some (ActsDone w pend) => Some (Done w (mkCommands (pre ++ pend) (length pre) recovery))
  | Some (ActsPanic w lost pend) => Some (Unwound w (mkCommands (pre ++ pend) (length pre) (recovery ++ lost)))
  | None => None
  end.

Definition loop_follows (fuel : nat) : Prop := ∀ w pre ran rest recovery,
  let all := pre ++ ran ++ rest in
  apply_loop fuel w (mkCommands all (length all) recovery) (length pre) (length all) (length pre + length ran) =
  match ref_list fuel w rest with
  | Some (ListDone w) => Some (Done w (mkCommands all (length all) recovery))
  | Some (ListPanic w lost) => Some (Unwound w (unwound pre lost recovery))
  | None => None
  end.

Lemma flush_follows fuel : loop_follows fuel → ∀ w pre pend recovery,
  apply_queue (apply_loop fuel) w (mkCommands (pre ++ pend) (length pre) recovery) = flush_result pre recovery (ref_list fuel w pend).
Proof.
  intros Hloop w pre pend recovery. unfold apply_queue, CommandQueue_is_empty. cbn [cq_bytes cq_cursor cq_panic_recovery].
  destruct pend as [|c pend].
  - rewrite app_nil_r, bool_decide_true by lia. by destruct fuel.
  - rewrite bool_decide_false by (rewrite length_app; cbn; lia).
    specialize (Hloop w pre [] (c :: pend) recovery). cbn [app length] in Hloop. rewrite Nat.add_0_r in Hloop. rewrite Hloop.
    destruct (ref_list fuel w (c :: pend)) as [[w'|w' lost]|]; cbn; try done. by rewrite take_app_length.
Qed.
Lemma recover_at (pre ran rest pend lost recovery : list Cmd) c :
  recover (mkCommands ((pre ++ ran ++ c :: rest) ++ pend) (length (pre ++ ran ++ c :: rest)) (recovery ++ lost)) (length pre)
    (S (length pre + length ran)) =
  unwound pre (lost ++ rest ++ pend) recovery.
Proof.
  unfold recover, unwound. cbn [cq_bytes cq_cursor cq_panic_recovery].
  replace (drop _ _) with (rest ++ pend).
  2:{ replace (S _) with (length (pre ++ ran ++ [c])) by (rewrite !length_app; cbn; lia).
      replace ((pre ++ ran ++ c :: rest) ++ pend) with ((pre ++ ran ++ [c]) ++ rest ++ pend).
      - by rewrite drop_app_length. - by rewrite <- !app_assoc. }
  destruct pre as [|p pre]; cbn [length].
  - rewrite decide_True by done. by rewrite take_0, <- !app_assoc.
  - rewrite decide_False by done. rewrite <- (app_assoc (p :: pre)).
    change (S (length pre)) with (length (p :: pre)). by rewrite take_app_length, <- !app_assoc.
Qed.

Lemma unwound_inner pre lost recovery : pre ≠ [] → unwound pre lost recovery = mkCommands pre (length pre) (recovery ++ lost).
Proof. by destruct pre. Qed.

Lemma acts_follow_step fuel : acts_follow fuel → loop_follows fuel → acts_follow (S fuel).
Proof.
  intros Hacts Hloop w pre pend recovery [|act acts] Hpre; [done|]. cbn [run_acts ref_acts]. destruct act as [f|f|c| |].
  - by apply Hacts.
  - by apply Hacts.
  - unfold CommandQueue_push. cbn [cq_bytes cq_cursor cq_panic_recovery]. rewrite <- app_assoc. by apply Hacts.
  - rewrite (flush_follows fuel Hloop). destruct (ref_list fuel w pend) as [[w'|w' lost]|]; cbn [flush_result]; [| |done].
    + rewrite <- (app_nil_r pre) at 1. rewrite Hacts by done. done.
    + rewrite unwound_inner by done. by rewrite app_nil_r.
  - by rewrite app_nil_r.
Qed.

Lemma loop_follows_step fuel : acts_follow fuel → loop_follows fuel → loop_follows (S fuel).
Proof.
  intros Hacts Hloop w pre ran [|c rest] recovery all.
  - cbn [ref_list apply_loop]. rewrite decide_False; [done|]. subst all. rewrite app_nil_r, length_app. lia.
  - cbn [ref_list apply_loop]. rewrite decide_True by (subst all; rewrite !length_app; cbn; lia). cbn [cq_bytes].
    assert (all !! (length pre + length ran) = Some c) as ->.
    { subst all. rewrite app_assoc, <- length_app, lookup_app_r, Nat.sub_diag by done. done. }
    assert (all ≠ []) as Hall by (subst all; by destruct pre, ran).
    pose proof (Hacts w all [] recovery (body c) Hall) as Hrun. rewrite app_nil_r in Hrun. rewrite Hrun. clear Hrun.
    destruct (ref_acts fuel w [] (body c)) as [[w' pend|w' lost pend]|]; [| |done].
    + rewrite (flush_follows fuel Hloop). destruct (ref_list fuel w' pend) as [[w2|w2 lost]|]; cbn [flush_result]; [| |done].
      * specialize (Hloop w2 pre (ran ++ [c]) rest recovery). cbn zeta in Hloop.
        replace (pre ++ (ran ++ [c]) ++ rest) with all in Hloop by (subst all; by rewrite <- !app_assoc).
        rewrite <- Hloop. f_equal. rewrite length_app. cbn. lia.
      * rewrite unwound_inner by done. pose proof (recover_at pre ran rest [] lost recovery c) as H. rewrite !app_nil_r in H.
        fold all in H. by rewrite H.
    + subst all. by rewrite recover_at.
Qed.

Lemma queue_follows fuel : acts_follow fuel ∧ loop_follows fuel.
Proof.
  induction fuel as [|fuel [IHa IHl]].
  - split.
    + intros w pre pend recovery [|act acts] Hpre; done.
    + intros w pre ran [|c rest] recovery all; cbn [apply_loop ref_list].
      * rewrite decide_False; [done|]. subst all. rewrite app_nil_r, length_app. lia.
      * rewrite decide_True; [done|]. subst all. rewrite !length_app. cbn. lia.
  - split; [by apply acts_follow_step|by apply loop_follows_step].
Qed.

(** ** Queues outside the world *)

(** One command after the other; [Some (r, rest)] with the commands not started. *)
Fixpoint ref_own (fuel : nat) (w : W) (cs : list Cmd) : option (RefList * list Cmd) :=
  match cs with
  | [] => Some (ListDone w, [])
  | c :: cs =>
      match fuel with
      | O => None
      | S fuel' =>
          match ref_list fuel w [c] with
          | Some (ListDone w) => ref_own fuel' w cs
          | Some (ListPanic w lost) => Some (ListPanic w lost, cs)
          | None => None
          end
      end
  end.

Lemma acts_outermost fuel w pend acts :
  run_acts fuel w (mkCommands pend 0 []) acts =
  match ref_acts fuel w pend acts with
  | Some (ActsDone w pend) => Some (Done w (mkCommands pend 0 []))
  | Some (ActsPanic w lost pend) => Some (Unwound w (mkCommands (lost ++ pend) 0 []))
  | None => None
  end.
Proof.
  revert w pend acts. induction fuel as [|fuel IH]; intros w pend [|act acts]; try done.
  cbn [run_acts ref_acts]. destruct act as [f|f|c| |]; [apply IH|apply IH|apply IH| |done].
  pose proof (flush_follows fuel (proj2 (queue_follows fuel)) w [] pend []) as Hf. cbn [app length] in Hf. rewrite Hf.
  destruct (ref_list fuel w pend) as [[w'|w' lost]|]; cbn [flush_result unwound app]; [apply IH|by rewrite app_nil_r|done].
Qed.

Lemma own_loop_follows fuel w own ran rest stop : own = ran ++ rest → stop = length own →
  apply_own_loop fuel w (mkCommands [] 0 []) (mkCommands own stop []) 0 stop (length ran) =
  match ref_own fuel w rest with
  | Some (ListDone w, _) => Some (Done w (mkCommands [] 0 []), mkCommands [] 0 [])
  | Some (ListPanic w lost, rest) => Some (Unwound w (mkCommands lost 0 []), mkCommands rest 0 [])
  | None => None
  end.
Proof.
  intros Hown Hstop. revert w ran rest Hown. induction fuel as [|fuel IH]; intros w ran [|c rest] Hown; subst own stop.
  1, 3: cbn [ref_own apply_own_loop]; rewrite decide_False by (rewrite app_nil_r; lia); done.
  { cbn [ref_own apply_own_loop]. rewrite decide_True by (rewrite length_app; cbn; lia). done. }
  cbn [ref_own apply_own_loop cq_bytes]. rewrite decide_True by (rewrite length_app; cbn; lia).
  rewrite lookup_app_r, Nat.sub_diag by done. cbn [lookup list_lookup]. rewrite acts_outermost. cbn [ref_list].
  destruct (ref_acts fuel w [] (body c)) as [[w' pend|w' lost pend]|]; [| |done].
  - unfold World_flush. pose proof (flush_follows fuel (proj2 (queue_follows fuel)) w' [] pend []) as Hf.
    cbn [app length] in Hf. rewrite Hf.
    destruct (ref_list fuel w' pend) as [[w2|w2 lost]|]; cbn [flush_result unwound app length]; [| |done].
    + destruct fuel; cbn [ref_list].
      all: rewrite <- IH with (ran := ran ++ [c]) by (by rewrite <- app_assoc); f_equal; rewrite length_app; cbn; lia.
    + pose proof (recover_at [] ran rest [] [] [] c) as H. rewrite !app_nil_r in H. cbn [app length plus] in H. rewrite H.
      cbn [unwound app]. by rewrite !app_nil_r.
  - pose proof (recover_at [] ran rest [] [] [] c) as H. rewrite !app_nil_r in H. cbn [app length plus] in H. rewrite H.
    cbn [unwound app]. done.
Qed.

(** C34: flushing the world's commands, and applying a queue of one's own, run every
    command depth first: what a command queues runs when it flushes or ends, before
    the command after it, whatever flushes are nested inside.  No command is run
    twice and none is read outside the buffer.  When a command panics, exactly the
    commands that did not run, in order, are the queue afterwards, with the cursor
    and the recovery buffer reset; a queue of one's own keeps those it did not
    start, and the world's those the panicking command had queued. *)
Theorem command_queue_depth_first (fuel : nat) (w : W) (cs : list Cmd) :
  World_flush fuel w (mkCommands cs 0 []) =
    match ref_list fuel w cs with
    | Some (ListDone w) => Some (Done w CommandQueue_new)
    | Some (ListPanic w lost) => Some (Unwound w (mkCommands lost 0 []))
    | None => None
    end
  ∧ ∀ own, CommandQueue_apply fuel w (mkCommands cs 0 []) (mkCommands own 0 []) =
    match ref_list fuel w cs with
    | Some (ListDone w) =>
        match ref_own fuel w own with
        | Some (ListDone w, _) => Some (Done w CommandQueue_new, CommandQueue_new)
        | Some (ListPanic w lost, rest) => Some (Unwound w (mkCommands lost 0 []), mkCommands rest 0 [])
        | None => None
        end
    | Some (ListPanic w lost) => Some (Unwound w (mkCommands lost 0 []), mkCommands own 0 [])
    | None => None
    end.
Proof.
  pose proof (flush_follows fuel (proj2 (queue_follows fuel)) w [] cs []) as Hf. cbn [app length] in Hf. fold (World_flush fuel w (mkCommands cs 0 [])) in Hf.
  split; [rewrite Hf; by destruct (ref_list fuel w cs) as [[]|]|].
  intros own. unfold CommandQueue_apply. rewrite Hf.
  destruct (ref_list fuel w cs) as [[w'|w' lost]|]; cbn [flush_result unwound app length]; [|done..].
  unfold CommandQueue_is_empty. cbn [cq_bytes cq_cursor cq_panic_recovery]. destruct own as [|c own].
  - rewrite bool_decide_true by done. by destruct fuel.
  - rewrite bool_decide_false by (cbn; lia). exact (own_loop_follows fuel w' (c :: own) [] (c :: own) _ eq_refl eq_refl).
Qed.
End queue.
#[global] Arguments Act : clear implicits.
#[global] Arguments CommandQueue : clear implicits.
#[global] Arguments Run : clear implicits.

(** Commands that record their number: 1 queues 2 and 3 and flushes, 3 queues 4, and 5
    panics with 6 behind it. *)
Definition ex_command (n : nat) : list (Act (list nat) nat) :=
  Do (λ log, log ++ [n]) ::
  match n with
  | 1 => [Push 2; Push 3; Flush; Do (λ log, log ++ [10])]
  | 3 => [Push 4]
  | 5 => [Push 7; Throw]
  | _ => []
  end.

Example command_queue_run : World_flush ex_command 20 [] (mkCommands [1; 8] 0 []) = Some (Done [1; 2; 3; 4; 10; 8] CommandQueue_new).
Proof. reflexivity. Qed.

Example command_queue_panics : World_flush ex_command 20 [] (mkCommands [1; 5; 6] 0 []) = Some (Unwound [1; 2; 3; 4; 10; 5] (mkCommands [6; 7] 0 [])).
Proof. reflexivity. Qed.
