(* ===== verification/ArrayDeque.v ===== *)
(** * Fixed-capacity double-ended queue

    [crates/voker-utils/src/extra/array_deque.rs].  [N] slots used as a ring,
    with the slot after the last element and the length; the front is computed
    from both.  A slot that was never written is [None]; reading it is undefined.
    Indices are below [usize::MAX / 4 * 3], as [N <= usize::MAX / 4] (checked by
    [new]), so the additions do not wrap. *)

From Stdlib Require Import ZArith Lia.
From S2P Require Import Prelude.

Section deque.
Context {T : Type}.
Variable N : nat.

Record ArrayDeque := mkDeque { dq_slots : list (option T); dq_tail : nat; dq_len : nat }.

(** [a % N]: a division by zero panics. *)
Definition rem_N (a : nat) : outcome nat := if decide (N = 0) then Panic else Ret (a mod N).

(** [ptr::read] of an element. *)
Definition read_slot (d : ArrayDeque) (i : nat) : outcome T :=
  s ← of_option (dq_slots d !! i); of_option s.

(** [slice::from_raw_parts(ptr.add(i), n)], all of it initialised. *)
Definition read_slice (d : ArrayDeque) (i n : nat) : outcome (list T) :=
  if decide (i + n ≤ length (dq_slots d)) then of_option (mapM id (take n (drop i (dq_slots d)))) else Undefined.

(** [ptr::write] into a slot. *)
Definition write_slot (d : ArrayDeque) (i : nat) (x : T) : outcome ArrayDeque :=
  if decide (i < length (dq_slots d)) then Ret (mkDeque (<[i := Some x]> (dq_slots d)) (dq_tail d) (dq_len d)) else Undefined.

Definition ArrayDeque_new : ArrayDeque := mkDeque (replicate N None) 0 0.

Definition ArrayDeque_is_full (self : ArrayDeque) : bool := bool_decide (dq_len self = N).
Definition ArrayDeque_is_empty (self : ArrayDeque) : bool := bool_decide (dq_len self = 0).

(** The values dropped, in order. *)
Definition ArrayDeque_drop_data (self : ArrayDeque) : outcome (list T) :=
  if decide (dq_len self = 0) then Ret []
  else if decide (dq_len self = N) then read_slice self 0 N
  else
    begin ← rem_N (dq_tail self + N - dq_len self);
    if decide (begin < dq_tail self) then read_slice self begin (dq_len self)
    else
      a ← read_slice self 0 (dq_tail self);
      b ← read_slice self begin (N - begin);
      Ret (a ++ b).

Definition ArrayDeque_clear (self : ArrayDeque) : outcome (list T * ArrayDeque) :=
  dropped ← ArrayDeque_drop_data self;
  Ret (dropped, mkDeque (dq_slots self) 0 0).

Definition ArrayDeque_as_slices (self : ArrayDeque) : outcome (list T * list T) :=
  if decide (dq_len self = 0) then Ret ([], [])
  else
    begin ← rem_N (dq_tail self + N - dq_len self);
    if decide (begin < dq_tail self) then a ← read_slice self begin (dq_len self); Ret (a, [])
    else
      a ← read_slice self begin (N - begin);
      b ← read_slice self 0 (dq_tail self);
      Ret (a, b).

Definition ArrayDeque_front (self : ArrayDeque) : outcome (option T) :=
  if ArrayDeque_is_empty self then Ret None
  else front ← rem_N (dq_tail self + N - dq_len self); x ← read_slot self front; Ret (Some x).

Definition ArrayDeque_back (self : ArrayDeque) : outcome (option T) :=
  if ArrayDeque_is_empty self then Ret None
  else back ← rem_N (dq_tail self + N - 1); x ← read_slot self back; Ret (Some x).

Definition ArrayDeque_get (self : ArrayDeque) (index : nat) : outcome (option T) :=
  if decide (dq_len self ≤ index) then Ret None
  else
    '(first, second) ← ArrayDeque_as_slices self;
    match (if decide (index < length first) then first !! index else second !! (index - length first)) with
    | Some x => Ret (Some x)
    | None => Panic
    end.

Definition ArrayDeque_push_front_unchecked (self : ArrayDeque) (element : T) : outcome ArrayDeque :=
  begin ← rem_N (dq_tail self + 2 * N - dq_len self - 1);
  d ← write_slot self begin element;
  Ret (mkDeque (dq_slots d) (dq_tail d) (dq_len d + 1)).

Definition ArrayDeque_push_front (self : ArrayDeque) (element : T) : outcome (Result unit T * ArrayDeque) :=
  if ArrayDeque_is_full self then Ret (Err element, self)
  else d ← ArrayDeque_push_front_unchecked self element; Ret (Ok tt, d).

Definition ArrayDeque_push_back_unchecked (self : ArrayDeque) (element : T) : outcome ArrayDeque :=
  d ← write_slot self (dq_tail self) element;
  tail ← rem_N (dq_tail d + 1);
  Ret (mkDeque (dq_slots d) tail (dq_len d + 1)).

Definition ArrayDeque_push_back (self : ArrayDeque) (element : T) : outcome (Result unit T * ArrayDeque) :=
  if ArrayDeque_is_full self then Ret (Err element, self)
  else d ← ArrayDeque_push_back_unchecked self element; Ret (Ok tt, d).

Definition ArrayDeque_pop_front (self : ArrayDeque) : outcome (option T * ArrayDeque) :=
  if ArrayDeque_is_empty self then Ret (None, self)
  else
    begin ← rem_N (dq_tail self + N - dq_len self);
    x ← read_slot self begin;
    Ret (Some x, mkDeque (dq_slots self) (dq_tail self) (dq_len self - 1)).

Definition ArrayDeque_pop_back (self : ArrayDeque) : outcome (option T * ArrayDeque) :=
  if ArrayDeque_is_empty self then Ret (None, self)
  else
    tail ← rem_N (dq_tail self + N - 1);
    x ← read_slot self tail;
    Ret (Some x, mkDeque (dq_slots self) tail (dq_len self - 1)).

(** [iter]: the two slices, chained. *)
Definition ArrayDeque_iter (self : ArrayDeque) : outcome (list T) :=
  '(a, b) ← ArrayDeque_as_slices self; Ret (a ++ b).

(** [from] an array of [N] values. *)
Definition ArrayDeque_from (value : list T) : ArrayDeque := mkDeque (Some <$> value) 0 N.

(** [clone]: the elements pushed one by one into a new queue. *)
Fixpoint push_all_back (d : ArrayDeque) (xs : list T) : outcome ArrayDeque :=
  match xs with
  | [] => Ret d
  | x :: rest => d' ← ArrayDeque_push_back_unchecked d x; push_all_back d' rest
  end.

Definition ArrayDeque_clone (self : ArrayDeque) : outcome ArrayDeque :=
  items ← ArrayDeque_iter self; push_all_back ArrayDeque_new items.

Definition ArrayDeque_clone_from (self source : ArrayDeque) : outcome (list T * ArrayDeque) :=
  '(dropped, d) ← ArrayDeque_clear self;
  items ← ArrayDeque_iter source;
  d' ← push_all_back d items;
  Ret (dropped, d').

(** ** The elements in order *)

(** The slot of the [i]-th element. *)
Definition pos (d : ArrayDeque) (i : nat) : nat := (dq_tail d + N - dq_len d + i) mod N.

Record deque_rep (d : ArrayDeque) (xs : list T) : Prop := {
  dr_slots : length (dq_slots d) = N;
  dr_len : dq_len d = length xs;
  dr_cap : length xs ≤ N;
  dr_tail : N = 0 ∨ dq_tail d < N;
  dr_elems : ∀ i x, xs !! i = Some x → dq_slots d !! pos d i = Some (Some x)
}.

(** Wrapping at most once. *)
Lemma wrap_once a : 0 < N → a < N + N → a mod N = if decide (a < N) then a else a - N.
Proof.
  intros HN Ha. case_decide; [by apply Nat.mod_small|].
  symmetry. apply (Nat.mod_unique a N 1); lia.
Qed.

Lemma rem_N_wrap a : 0 < N → a < N + N → rem_N a = Ret (if decide (a < N) then a else a - N).
Proof. intros HN Ha. unfold rem_N. rewrite decide_False by lia. by rewrite wrap_once. Qed.

(** Where the front is. *)
Definition front_of (d : ArrayDeque) : nat :=
  if decide (dq_tail d < dq_len d) then dq_tail d + N - dq_len d else dq_tail d - dq_len d.

Lemma front_rem d xs : deque_rep d xs → 0 < length xs → rem_N (dq_tail d + N - dq_len d) = Ret (front_of d).
Proof.
  intros [_ Hl Hc Ht _] Hx. unfold front_of. rewrite rem_N_wrap by lia. f_equal. repeat case_decide; lia.
Qed.

Lemma pos_front d xs i : deque_rep d xs → i < length xs →
  pos d i = if decide (front_of d + i < N) then front_of d + i else front_of d + i - N.
Proof.
  intros [_ Hl Hc Ht _] Hi. unfold pos, front_of.
  destruct (decide (dq_tail d < dq_len d)).
  - rewrite wrap_once by lia. done.
  - replace (dq_tail d + N - dq_len d + i) with (dq_tail d - dq_len d + i + 1 * N) by lia.
    rewrite Nat.Div0.mod_add. rewrite wrap_once by lia. done.
Qed.

Lemma elem_slot d xs i x : deque_rep d xs → xs !! i = Some x → read_slot d (pos d i) = Ret x.
Proof. intros Hr Hi. unfold read_slot. by rewrite (dr_elems _ _ Hr i x Hi). Qed.

Lemma mapM_id_Some (l : list (option T)) (ys : list T) : l = Some <$> ys → mapM id l = Some ys.
Proof. intros ->. induction ys as [|y ys IH]; [done|]. cbn. cbn in IH. by rewrite IH. Qed.

(** A slice whose slots hold [ys]. *)
Lemma read_slice_spec d s ys :
  s + length ys ≤ length (dq_slots d) → (∀ k x, ys !! k = Some x → dq_slots d !! (s + k) = Some (Some x)) →
  read_slice d s (length ys) = Ret ys.
Proof.
  intros Hb Hin. unfold read_slice. rewrite decide_True by done.
  rewrite (mapM_id_Some _ ys); [done|]. apply list_eq. intros k. rewrite list_lookup_fmap.
  destruct (decide (k < length ys)) as [Hk|Hk].
  - rewrite lookup_take_lt, lookup_drop by done. destruct (lookup_lt_is_Some_2 ys k Hk) as [y Hy]. rewrite Hy. by apply Hin.
  - rewrite lookup_take_ge, (lookup_ge_None_2 ys) by lia. done.
Qed.

(** Not wrapped: one slice. *)
Lemma rep_straight d xs :
  deque_rep d xs → 0 < length xs → front_of d < dq_tail d → read_slice d (front_of d) (dq_len d) = Ret xs.
Proof.
  intros Hr Hx Hf. pose proof Hr as [Hs Hl Hc Ht He]. rewrite Hl.
  assert (front_of d + length xs = dq_tail d) by (unfold front_of in *; case_decide; lia).
  apply read_slice_spec; [lia|]. intros k x Hk. rewrite <- (He k x Hk), (pos_front d xs k Hr) by (by eapply lookup_lt_Some).
  apply lookup_lt_Some in Hk. by rewrite decide_True by lia.
Qed.

(** Wrapped: the end of the array, then its beginning. *)
Lemma rep_wrapped d xs :
  deque_rep d xs → 0 < length xs → dq_tail d ≤ front_of d →
  let k := N - front_of d in
  read_slice d (front_of d) (N - front_of d) = Ret (take k xs) ∧ read_slice d 0 (dq_tail d) = Ret (drop k xs).
Proof.
  intros Hr Hx Hf k. pose proof Hr as [Hs Hl Hc Ht He].
  assert (Hlt : dq_tail d < dq_len d ∧ front_of d = dq_tail d + N - dq_len d) by (unfold front_of in *; case_decide; lia).
  destruct Hlt as [Hlt Hfr]. split.
  - replace (N - front_of d) with (length (take k xs)) by (rewrite length_take; lia).
    apply read_slice_spec; [rewrite length_take; lia|]. intros j x Hj. pose proof (lookup_lt_Some _ _ _ Hj) as Hjl.
    rewrite length_take in Hjl. rewrite lookup_take_lt in Hj by lia. rewrite <- (He j x Hj), (pos_front d xs j Hr) by lia.
    by rewrite decide_True by lia.
  - replace (dq_tail d) with (length (drop k xs)) by (rewrite length_drop; lia).
    apply read_slice_spec; [rewrite length_drop; lia|]. intros j x Hj. pose proof (lookup_lt_Some _ _ _ Hj) as Hjl.
    rewrite length_drop in Hjl. rewrite lookup_drop in Hj. rewrite <- (He _ x Hj), (pos_front d xs _ Hr) by lia.
    rewrite decide_False by lia. f_equal. lia.
Qed.

Lemma new_rep : deque_rep ArrayDeque_new [].
Proof. split; cbn; [by rewrite length_replicate|done|lia|lia|by intros i x]. Qed.

Lemma as_slices_rep d xs : deque_rep d xs → ∃ a b, ArrayDeque_as_slices d = Ret (a, b) ∧ a ++ b = xs.
Proof.
  intros Hr. pose proof (dr_len _ _ Hr) as Hl. unfold ArrayDeque_as_slices. case_decide as H0.
  { exists [], []. split; [done|]. destruct xs; [done|cbn in *; lia]. }
  rewrite (front_rem d xs Hr) by lia. cbn [mbind outcome_bind]. case_decide as Hf.
  - rewrite (rep_straight d xs Hr) by lia. cbn. exists xs, []. split; [done|]. apply app_nil_r.
  - destruct (rep_wrapped d xs Hr ltac:(lia) ltac:(lia)) as [-> ->]. cbn. eexists _, _. split; [done|]. apply take_drop.
Qed.

Lemma drop_data_rep d xs : deque_rep d xs → ∃ ys, ArrayDeque_drop_data d = Ret ys ∧ ys ≡ₚ xs.
Proof.
  intros Hr. pose proof Hr as [Hs Hl Hc Ht He]. unfold ArrayDeque_drop_data. case_decide as H0.
  { exists []. split; [done|]. destruct xs; [done|cbn in *; lia]. }
  case_decide as HN.
  { destruct (rep_wrapped d xs Hr ltac:(lia)) as [Ha Hb]; [unfold front_of; case_decide; lia|].
    assert (Hf : front_of d = dq_tail d) by (unfold front_of; case_decide; lia). rewrite Hf in *.
    exists (drop (N - dq_tail d) xs ++ take (N - dq_tail d) xs). split; [|by rewrite (comm app), take_drop].
    set (k := N - dq_tail d) in *. replace N with (length (drop k xs ++ take k xs)) at 1.
    2: { rewrite length_app, length_drop, length_take. lia. }
    apply read_slice_spec; [rewrite length_app, length_drop, length_take; lia|].
    intros j x [Hj|[Hge Hj]]%lookup_app_Some.
    - pose proof (lookup_lt_Some _ _ _ Hj) as Hjl. rewrite length_drop in Hjl. rewrite lookup_drop in Hj.
      rewrite <- (He _ x Hj), (pos_front d xs _ Hr), Hf by lia. rewrite decide_False by lia. f_equal. lia.
    - rewrite length_drop in Hge, Hj. pose proof (lookup_lt_Some _ _ _ Hj) as Hjl. rewrite length_take in Hjl.
      rewrite lookup_take_lt in Hj by lia. rewrite <- (He _ x Hj), (pos_front d xs _ Hr), Hf by lia.
      rewrite decide_True by lia. f_equal. lia. }
  rewrite (front_rem d xs Hr) by lia. cbn [mbind outcome_bind]. case_decide as Hf.
  - rewrite (rep_straight d xs Hr) by lia. by exists xs.
  - destruct (rep_wrapped d xs Hr ltac:(lia) ltac:(lia)) as [-> ->]. cbn. eexists. split; [done|].
    by rewrite (comm app), take_drop.
Qed.

Lemma write_slot_rep d i x :
  length (dq_slots d) = N → i < N → write_slot d i x = Ret (mkDeque (<[i := Some x]> (dq_slots d)) (dq_tail d) (dq_len d)).
Proof. intros Hs Hi. unfold write_slot. by rewrite decide_True by lia. Qed.

Lemma push_back_unchecked_rep d xs x :
  deque_rep d xs → length xs < N → ∃ d', ArrayDeque_push_back_unchecked d x = Ret d' ∧ deque_rep d' (xs ++ [x]).
Proof.
  intros Hr Hlt. pose proof Hr as [Hs Hl Hc Ht He]. unfold ArrayDeque_push_back_unchecked.
  rewrite write_slot_rep by lia. cbn [mbind outcome_bind dq_tail]. rewrite rem_N_wrap by lia. cbn [mbind outcome_bind].
  eexists. split; [done|]. split; cbn.
  - by rewrite length_insert.
  - rewrite length_app. cbn. lia.
  - rewrite length_app. cbn. lia.
  - right. case_decide; lia.
  - intros i y Hy. assert (Hp : pos (mkDeque (<[dq_tail d:=Some x]> (dq_slots d)) (if decide (dq_tail d + 1 < N) then dq_tail d + 1 else dq_tail d + 1 - N) (dq_len d + 1)) i
      = if decide (i < length xs) then pos d i else dq_tail d).
    { apply lookup_lt_Some in Hy. rewrite length_app in Hy. cbn in Hy. unfold pos. cbn. case_decide as Hw.
      - case_decide; [f_equal; lia|]. replace (dq_tail d + 1 + N - (dq_len d + 1) + i) with (dq_tail d + 1 * N) by lia.
        rewrite Nat.Div0.mod_add. apply Nat.mod_small. lia.
      - replace (dq_tail d + 1 - N + N - (dq_len d + 1) + i) with (dq_tail d + i - dq_len d) by lia.
        case_decide; [|rewrite Nat.mod_small; lia].
        replace (dq_tail d + N - dq_len d + i) with (dq_tail d + i - dq_len d + 1 * N) by lia. by rewrite Nat.Div0.mod_add. }
    rewrite Hp. apply lookup_app_Some in Hy as [Hy|[Hge Hy]].
    + pose proof (lookup_lt_Some _ _ _ Hy). rewrite decide_True by done. rewrite list_lookup_insert_ne; [by apply He|].
      rewrite (pos_front d xs i Hr) by done. unfold front_of. repeat case_decide; lia.
    + rewrite decide_False by lia. rewrite list_lookup_insert_eq by lia. destruct (i - length xs) as [|[|]]; by simplify_eq/=.
Qed.

Lemma push_front_unchecked_rep d xs x :
  deque_rep d xs → length xs < N → ∃ d', ArrayDeque_push_front_unchecked d x = Ret d' ∧ deque_rep d' (x :: xs).
Proof.
  intros Hr Hlt. pose proof Hr as [Hs Hl Hc Ht He]. unfold ArrayDeque_push_front_unchecked.
  set (b := (dq_tail d + 2 * N - dq_len d - 1) mod N).
  assert (Hb : b < N) by (apply Nat.mod_upper_bound; lia).
  unfold rem_N. rewrite decide_False by lia. cbn [mbind outcome_bind]. fold b. rewrite write_slot_rep by lia. cbn [mbind outcome_bind].
  eexists. split; [done|]. assert (Hpos : ∀ i, pos (mkDeque (<[b := Some x]> (dq_slots d)) (dq_tail d) (dq_len d + 1)) (S i) = pos d i).
  { intros i. unfold pos. cbn. f_equal. lia. }
  assert (Hp0 : pos (mkDeque (<[b := Some x]> (dq_slots d)) (dq_tail d) (dq_len d + 1)) 0 = b).
  { unfold pos, b. cbn. replace (dq_tail d + (N + (N + 0)) - dq_len d - 1) with (dq_tail d + N - (dq_len d + 1) + 0 + 1 * N) by lia.
    by rewrite Nat.Div0.mod_add. }
  split; cbn in *; [by rewrite length_insert|lia|lia|lia|]. intros [|i] y Hy.
  - injection Hy as <-. rewrite Hp0. by rewrite list_lookup_insert_eq by lia.
  - cbn in Hy. rewrite Hpos, list_lookup_insert_ne; [by apply He|]. rewrite <- Hp0.
    rewrite (pos_front d xs i Hr) by (by eapply lookup_lt_Some). apply lookup_lt_Some in Hy. unfold pos, front_of. cbn.
    rewrite wrap_once by lia. repeat case_decide; lia.
Qed.

Lemma pop_front_rep d x xs :
  deque_rep d (x :: xs) → ∃ d', ArrayDeque_pop_front d = Ret (Some x, d') ∧ deque_rep d' xs.
Proof.
  intros Hr. pose proof Hr as [Hs Hl Hc Ht He]. cbn in Hl, Hc. unfold ArrayDeque_pop_front, ArrayDeque_is_empty.
  rewrite bool_decide_eq_false_2 by lia. rewrite (front_rem d (x :: xs) Hr) by (cbn; lia). cbn [mbind outcome_bind].
  assert (front_of d = pos d 0) as ->.
  { rewrite (pos_front d (x :: xs) 0 Hr) by (cbn; lia). unfold front_of. repeat case_decide; lia. }
  rewrite (elem_slot d (x :: xs) 0 x Hr) by done. cbn. eexists. split; [done|]. split; cbn; [done|lia|lia|lia|].
  intros i y Hy. rewrite <- (He (S i) y Hy). unfold pos. cbn. f_equal. f_equal. lia.
Qed.

Lemma pop_back_rep d x xs :
  deque_rep d (xs ++ [x]) → ∃ d', ArrayDeque_pop_back d = Ret (Some x, d') ∧ deque_rep d' xs.
Proof.
  intros Hr. pose proof Hr as [Hs Hl Hc Ht He]. rewrite length_app in Hl, Hc. cbn in Hl, Hc.
  unfold ArrayDeque_pop_back, ArrayDeque_is_empty. rewrite bool_decide_eq_false_2 by lia. rewrite rem_N_wrap by lia. cbn [mbind outcome_bind].
  set (t := if decide (dq_tail d + N - 1 < N) then dq_tail d + N - 1 else dq_tail d + N - 1 - N).
  assert (Hlast : t = pos d (length xs)).
  { rewrite (pos_front d (xs ++ [x]) (length xs) Hr) by (rewrite length_app; cbn; lia). unfold t, front_of. repeat case_decide; lia. }
  assert (read_slot d t = Ret x) as ->.
  { rewrite Hlast. apply (elem_slot d _ (length xs) x Hr). rewrite lookup_app_r by lia. by rewrite Nat.sub_diag. }
  cbn. eexists. split; [done|]. split; cbn; [done|lia|lia|unfold t; case_decide; lia|].
  intros i y Hy. rewrite <- (He i y) by (by apply lookup_app_l_Some). f_equal. pose proof (lookup_lt_Some _ _ _ Hy) as Hi.
  rewrite (pos_front d (xs ++ [x]) i Hr) by (rewrite length_app; cbn; lia).
  unfold pos, front_of. cbn. unfold t. destruct (decide (dq_tail d + N - 1 < N)).
  - rewrite wrap_once by lia. repeat case_decide; lia.
  - replace (dq_tail d + N - 1 - N + N - (dq_len d - 1) + i) with (dq_tail d + N - dq_len d + i) by lia.
    destruct (decide (dq_tail d < dq_len d)); [rewrite wrap_once by lia; done|].
    replace (dq_tail d + N - dq_len d + i) with (dq_tail d - dq_len d + i + 1 * N) by lia.
    rewrite Nat.Div0.mod_add, Nat.mod_small by lia. rewrite decide_True by lia. done.
Qed.

Lemma push_all_back_rep xs d ys :
  deque_rep d ys → length ys + length xs ≤ N → ∃ d', push_all_back d xs = Ret d' ∧ deque_rep d' (ys ++ xs).
Proof.
  revert d ys. induction xs as [|x xs IH]; intros d ys Hr Hb; cbn in *.
  { exists d. by rewrite app_nil_r. }
  destruct (push_back_unchecked_rep d ys x Hr) as (d1 & -> & Hr1); [lia|]. cbn [mbind outcome_bind].
  destruct (IH d1 (ys ++ [x]) Hr1) as (d2 & -> & Hr2); [rewrite length_app; cbn; lia|].
  exists d2. split; [done|]. by rewrite <- app_assoc in Hr2.
Qed.

Lemma clear_rep d xs : deque_rep d xs → ∃ ys d', ArrayDeque_clear d = Ret (ys, d') ∧ ys ≡ₚ xs ∧ deque_rep d' [].
Proof.
  intros Hr. destruct (drop_data_rep d xs Hr) as (ys & Hd & Hp). unfold ArrayDeque_clear. rewrite Hd. cbn.
  eexists _, _. split; [done|]. split; [done|]. split; cbn; [apply Hr|done|lia|lia|by intros i x].
Qed.

Lemma iter_rep_deque d xs : deque_rep d xs → ArrayDeque_iter d = Ret xs.
Proof. intros Hr. unfold ArrayDeque_iter. by destruct (as_slices_rep d xs Hr) as (a & b & -> & <-). Qed.

Lemma get_rep d xs i : deque_rep d xs → ArrayDeque_get d i = Ret (xs !! i).
Proof.
  intros Hr. pose proof (dr_len _ _ Hr) as Hl. unfold ArrayDeque_get. case_decide as Hi.
  { by rewrite lookup_ge_None_2 by lia. }
  destruct (as_slices_rep d xs Hr) as (a & b & -> & <-). cbn [mbind outcome_bind].
  rewrite length_app in Hl. destruct (lookup_lt_is_Some_2 (a ++ b) i) as [x Hx]; [rewrite length_app; lia|].
  rewrite Hx. case_decide as Ha.
  - by rewrite lookup_app_l in Hx by done; rewrite Hx.
  - by rewrite lookup_app_r in Hx by lia; rewrite Hx.
Qed.

Lemma front_rep d xs : deque_rep d xs → ArrayDeque_front d = Ret (head xs).
Proof.
  intros Hr. pose proof (dr_len _ _ Hr) as Hl. unfold ArrayDeque_front, ArrayDeque_is_empty. destruct xs as [|x xs]; cbn in Hl.
  { by rewrite bool_decide_eq_true_2. }
  rewrite bool_decide_eq_false_2 by lia. destruct (pop_front_rep d x xs Hr) as (d' & Hp & _).
  unfold ArrayDeque_pop_front, ArrayDeque_is_empty in Hp. rewrite bool_decide_eq_false_2 in Hp by lia.
  destruct (rem_N _) as [b| |]; cbn in *; [|done..]. destruct (read_slot d b); cbn in *; congruence.
Qed.

Lemma back_rep d xs : deque_rep d xs → ArrayDeque_back d = Ret (last xs).
Proof.
  intros Hr. pose proof (dr_len _ _ Hr) as Hl. unfold ArrayDeque_back, ArrayDeque_is_empty.
  destruct xs as [|x xs _] using rev_ind; cbn in Hl. { by rewrite bool_decide_eq_true_2. }
  rewrite length_app in Hl. cbn in Hl. rewrite bool_decide_eq_false_2 by lia. destruct (pop_back_rep d x xs Hr) as (d' & Hp & _).
  unfold ArrayDeque_pop_back, ArrayDeque_is_empty in Hp. rewrite bool_decide_eq_false_2 in Hp by lia. rewrite last_snoc.
  destruct (rem_N _) as [b| |]; cbn in *; [|done..]. destruct (read_slot d b); cbn in *; congruence.
Qed.

Lemma from_rep value : length value = N → deque_rep (ArrayDeque_from value) value.
Proof.
  intros Hl. split; cbn; [by rewrite length_fmap|done|lia|lia|]. intros i x Hi. pose proof (lookup_lt_Some _ _ _ Hi).
  unfold pos. cbn. replace (N - N + i) with i by lia. rewrite Nat.mod_small by lia. by rewrite list_lookup_fmap, Hi.
Qed.

(** ** Histories *)

Inductive DequeOp := PushFront (x : T) | PushBack (x : T) | PopFront | PopBack | Clear | Front | Back | Get (i : nat) | Items | CloneFrom.

(** What an operation answers: the element refused, the one removed or read, the
    elements listed. *)
Notation answer := (option T * list T)%type.

Definition deque_exec (d : ArrayDeque) (op : DequeOp) : outcome (answer * ArrayDeque) :=
  match op with
  | PushFront x => '(r, d') ← ArrayDeque_push_front d x; Ret ((match r with Ok _ => None | Err e => Some e end, []), d')
  | PushBack x => '(r, d') ← ArrayDeque_push_back d x; Ret ((match r with Ok _ => None | Err e => Some e end, []), d')
  | PopFront => '(r, d') ← ArrayDeque_pop_front d; Ret ((r, []), d')
  | PopBack => '(r, d') ← ArrayDeque_pop_back d; Ret ((r, []), d')
  | Clear => '(_, d') ← ArrayDeque_clear d; Ret ((None, []), d')
  | Front => r ← ArrayDeque_front d; Ret ((r, []), d)
  | Back => r ← ArrayDeque_back d; Ret ((r, []), d)
  | Get i => r ← ArrayDeque_get d i; Ret ((r, []), d)
  | Items => r ← ArrayDeque_iter d; Ret ((None, r), d)
  | CloneFrom => d' ← ArrayDeque_clone d; Ret ((None, []), d')
  end.

(** The same on a list of at most [N] elements. *)
Definition deque_spec (xs : list T) (op : DequeOp) : answer * list T :=
  match op with
  | PushFront x => if decide (length xs = N) then ((Some x, []), xs) else ((None, []), x :: xs)
  | PushBack x => if decide (length xs = N) then ((Some x, []), xs) else ((None, []), xs ++ [x])
  | PopFront => ((head xs, []), tail xs)
  | PopBack => ((last xs, []), take (length xs - 1) xs)
  | Clear => ((None, []), [])
  | Front => ((head xs, []), xs)
  | Back => ((last xs, []), xs)
  | Get i => ((xs !! i, []), xs)
  | Items => ((None, xs), xs)
  | CloneFrom => ((None, []), xs)
  end.

Fixpoint deque_run (d : ArrayDeque) (ops : list DequeOp) : outcome (list answer * ArrayDeque) :=
  match ops with
  | [] => Ret ([], d)
  | op :: rest => '(a, d') ← deque_exec d op; '(as_, d'') ← deque_run d' rest; Ret (a :: as_, d'')
  end.

Fixpoint deque_spec_run (xs : list T) (ops : list DequeOp) : list answer * list T :=
  match ops with
  | [] => ([], xs)
  | op :: rest => let '(a, xs') := deque_spec xs op in let '(as_, xs'') := deque_spec_run xs' rest in (a :: as_, xs'')
  end.

Lemma deque_exec_rep d xs op :
  deque_rep d xs → ∃ d', deque_exec d op = Ret ((deque_spec xs op).1, d') ∧ deque_rep d' (deque_spec xs op).2.
Proof.
  intros Hr. pose proof (dr_len _ _ Hr) as Hl. pose proof (dr_cap _ _ Hr) as Hc. destruct op; cbn.
  - unfold ArrayDeque_push_front, ArrayDeque_is_full. rewrite Hl. destruct (decide (length xs = N)).
    + rewrite bool_decide_eq_true_2 by done. by exists d.
    + rewrite bool_decide_eq_false_2 by done. destruct (push_front_unchecked_rep d xs x Hr) as (d' & -> & ?); [lia|]. by exists d'.
  - unfold ArrayDeque_push_back, ArrayDeque_is_full. rewrite Hl. destruct (decide (length xs = N)).
    + rewrite bool_decide_eq_true_2 by done. by exists d.
    + rewrite bool_decide_eq_false_2 by done. destruct (push_back_unchecked_rep d xs x Hr) as (d' & -> & ?); [lia|]. by exists d'.
  - destruct xs as [|x xs].
    + unfold ArrayDeque_pop_front, ArrayDeque_is_empty. rewrite bool_decide_eq_true_2 by done. by exists d.
    + destruct (pop_front_rep d x xs Hr) as (d' & -> & ?). by exists d'.
  - destruct xs as [|x xs _] using rev_ind.
    + unfold ArrayDeque_pop_back, ArrayDeque_is_empty. rewrite bool_decide_eq_true_2 by done. by exists d.
    + destruct (pop_back_rep d x xs Hr) as (d' & -> & ?). exists d'. rewrite last_snoc, length_app. cbn.
      rewrite Nat.add_sub, take_app_length. done.
  - destruct (clear_rep d xs Hr) as (ys & d' & -> & _ & ?). by exists d'.
  - rewrite (front_rep d xs Hr). by exists d.
  - rewrite (back_rep d xs Hr). by exists d.
  - rewrite (get_rep d xs i Hr). by exists d.
  - rewrite (iter_rep_deque d xs Hr). by exists d.
  - unfold ArrayDeque_clone. rewrite (iter_rep_deque d xs Hr). cbn.
    destruct (push_all_back_rep xs ArrayDeque_new [] new_rep) as (d' & -> & ?); [done|]. by exists d'.
Qed.

Lemma deque_run_rep ops d xs :
  deque_rep d xs → ∃ d', deque_run d ops = Ret ((deque_spec_run xs ops).1, d') ∧ deque_rep d' (deque_spec_run xs ops).2.
Proof.
  revert d xs. induction ops as [|op ops IH]; intros d xs Hr; cbn; [by exists d|].
  destruct (deque_exec_rep d xs op Hr) as (d1 & -> & Hr1). destruct (deque_spec xs op) as [a xs1]. cbn in *.
  destruct (IH d1 xs1 Hr1) as (d2 & -> & Hr2). destruct (deque_spec_run xs1 ops) as [as_ xs2]. cbn in *. by exists d2.
Qed.
End deque.

#[global] Arguments ArrayDeque : clear implicits.

(** The ring buffer is a bounded list.  Any sequence of pushes and pops at
    both ends, reads by end or index, clears and clones on a new queue returns
    (no read of an unwritten slot, no division by zero even for capacity 0)
    and answers exactly as a list of at most [N] elements does: a push into a full
    queue gives the element back. *)
Theorem array_deque_refines {T} (N : nat) (ops : list (DequeOp (T := T))) :
  ∃ d, deque_run N (ArrayDeque_new N) ops = Ret ((deque_spec_run N [] ops).1, d) ∧
       deque_rep N d (deque_spec_run N [] ops).2.
Proof. apply deque_run_rep, new_rep. Qed.

(** Clearing or dropping a queue drops each element exactly once and nothing
    else, whether or not the elements wrap around the end of the array. *)
Theorem array_deque_drop_once {T} (N : nat) (ops : list (DequeOp (T := T))) :
  ∃ answers d dropped, deque_run N (ArrayDeque_new N) ops = Ret (answers, d) ∧
    ArrayDeque_drop_data N d = Ret dropped ∧ dropped ≡ₚ (deque_spec_run N [] ops).2.
Proof.
  destruct (deque_run_rep N ops (ArrayDeque_new N) [] (new_rep N)) as (d & Hr & Hrep).
  destruct (drop_data_rep N d _ Hrep) as (ys & Hd & Hp). eauto 10.
Qed.
