(* ===== verification/BlockList.v ===== *)
(** * Unbounded queue of blocks

    [crates/voker-utils/src/extra/block_list.rs]: a singly linked list of heap blocks of
    thirteen slots, with up to two emptied blocks kept for reuse.  The blocks of a list are
    a heap of its own, from addresses to blocks; a pointer that does not point to a block
    of the heap, a slot that was never written and a null pointer are undefined to read.
    Where a box is allocated is a parameter ([GlobalAlloc]).  Values given to their
    destructor are recorded in order. *)

From Stdlib Require Import ZArith Lia.
From S2P Require Import Prelude.

(** An allocation is none of the live ones. *)
Class GlobalAlloc := {
  malloc : gset nat → nat;
  malloc_fresh : ∀ live, malloc live ∉ live
}.

Section block_list.
Context `{GlobalAlloc} {T : Type}.

(** [needs_drop::<T>()] and [T::clone]. *)
Variable needs_drop : bool.
Variable clone_value : T → T.

Definition BLOCK_SIZE : nat := 13.
Definition MAX_IDLE : nat := 2.

Record Block := mkBlock { b_head : nat; b_tail : nat; b_data : list (option T); b_next : option nat }.

Definition Block_new : Block := mkBlock 0 0 (replicate BLOCK_SIZE None) None.

Definition Block_reset (self : Block) : Block := mkBlock 0 0 (b_data self) None.

Definition Block_read (b : Block) (i : nat) : outcome T :=
  match b_data b !! i with
  | Some (Some x) => Ret x
  | _ => Undefined
  end.

Definition Block_write (b : Block) (i : nat) (x : T) : outcome Block :=
  if decide (i < length (b_data b))%nat then Ret (mkBlock (b_head b) (b_tail b) (<[i := Some x]> (b_data b)) (b_next b)) else Undefined.

Fixpoint Block_read_all (b : Block) (i n : nat) : outcome (list T) :=
  match n with
  | O => Ret []
  | S n => x ← Block_read b i; xs ← Block_read_all b (S i) n; Ret (x :: xs)
  end.

Definition Block_drop (self : Block) : outcome (list T) :=
  if needs_drop && (b_head self <? b_tail self)%nat then Block_read_all self (b_head self) (b_tail self - b_head self) else Ret [].

Record BlockList := mkBL {
  bl_heap : gmap nat Block;
  head_ptr : option nat;
  tail_ptr : option nat;
  block_num : nat;
  idle : list nat;
  bl_dropped : list T
}.

Definition load_block (s : BlockList) (p : option nat) : outcome (nat * Block) :=
  p ← of_option p; b ← of_option (bl_heap s !! p); Ret (p, b).

Definition store_block (s : BlockList) (p : nat) (b : Block) : BlockList :=
  mkBL (<[p := b]> (bl_heap s)) (head_ptr s) (tail_ptr s) (block_num s) (idle s) (bl_dropped s).

(** Dropping the box at [p]. *)
Definition free_block (s : BlockList) (p : nat) (b : Block) : outcome BlockList :=
  xs ← Block_drop b;
  Ret (mkBL (delete p (bl_heap s)) (head_ptr s) (tail_ptr s) (block_num s) (idle s) (bl_dropped s ++ xs)).

Definition get_block (s : BlockList) : outcome (nat * BlockList) :=
  match last (idle s) with
  | Some p =>
      '(p, b) ← load_block s (Some p);
      Ret (p, mkBL (<[p := Block_reset b]> (bl_heap s)) (head_ptr s) (tail_ptr s) (block_num s) (removelast (idle s)) (bl_dropped s))
  | None => let p := malloc (dom (bl_heap s)) in Ret (p, store_block s p Block_new)
  end.

Definition idle_block (s : BlockList) (p : nat) : outcome BlockList :=
  '(p, b) ← load_block s (Some p);
  if decide (length (idle s) = MAX_IDLE) then free_block s p b
  else Ret (mkBL (bl_heap s) (head_ptr s) (tail_ptr s) (block_num s) (idle s ++ [p]) (bl_dropped s)).

Definition BlockList_init (s : BlockList) : outcome BlockList :=
  if decide (head_ptr s = None ∧ tail_ptr s = None ∧ block_num s = 0%nat) then
    '(p, s) ← get_block s;
    Ret (mkBL (bl_heap s) (Some p) (Some p) (block_num s) (idle s) (bl_dropped s))
  else Panic.

Definition BlockList_new : BlockList := mkBL ∅ None None 0 [] [].

Definition BlockList_is_empty (s : BlockList) : outcome bool :=
  match head_ptr s with
  | None => Ret true
  | Some p => '(_, b) ← load_block s (Some p); Ret (b_tail b =? b_head b)%nat
  end.

Definition BlockList_len (s : BlockList) : outcome nat :=
  match head_ptr s with
  | None => Ret 0%nat
  | Some p =>
      if decide (tail_ptr s = None) then Panic else
      '(_, h) ← load_block s (Some p);
      '(_, t) ← load_block s (tail_ptr s);
      let sum := (block_num s * BLOCK_SIZE + b_tail t)%nat in
      if (sum <? b_head h)%nat then Panic else Ret (sum - b_head h)%nat
  end.

Definition BlockList_push_back (s : BlockList) (value : T) : outcome BlockList :=
  s ← match tail_ptr s with None => BlockList_init s | Some _ => Ret s end;
  '(t, block) ← load_block s (tail_ptr s);
  let index := b_tail block in
  if negb (index <? BLOCK_SIZE)%nat then Panic else
  block ← Block_write block index value;
  let block := mkBlock (b_head block) (index + 1) (b_data block) (b_next block) in
  let s := store_block s t block in
  if decide (b_tail block = BLOCK_SIZE) then
    '(new_block, s) ← get_block s;
    let s := store_block s t (mkBlock (b_head block) (b_tail block) (b_data block) (Some new_block)) in
    Ret (mkBL (bl_heap s) (head_ptr s) (Some new_block) (block_num s + 1) (idle s) (bl_dropped s))
  else Ret s.

Definition BlockList_pop_front (s : BlockList) : outcome (option T * BlockList) :=
  match head_ptr s with
  | None => Ret (None, s)
  | Some _ =>
      '(p, block) ← load_block s (head_ptr s);
      let index := b_head block in
      if negb ((index <? BLOCK_SIZE)%nat && (index <=? b_tail block)%nat) then Panic else
      if decide (index = b_tail block) then Ret (None, s) else
      value ← Block_read block index;
      let block := mkBlock (index + 1) (b_tail block) (b_data block) (b_next block) in
      let s := store_block s p block in
      if decide (b_head block = BLOCK_SIZE) then
        if decide (b_next block = None) then Panic else
        if decide (block_num s = 0%nat) then Panic else
        let s := mkBL (bl_heap s) (b_next block) (tail_ptr s) (block_num s - 1) (idle s) (bl_dropped s) in
        s ← idle_block s p;
        Ret (Some value, s)
      else Ret (Some value, s)
  end.

(** A reference to an element is the address of its block and its slot. *)
Definition Place : Type := nat * nat.

Definition read_place (s : BlockList) (r : Place) : outcome T :=
  '(_, b) ← load_block s (Some r.1); Block_read b r.2.

(** [*r = x] drops the value that was there. *)
Definition assign_place (s : BlockList) (r : Place) (x : T) : outcome BlockList :=
  '(p, b) ← load_block s (Some r.1);
  old ← Block_read b r.2;
  b ← Block_write b r.2 x;
  Ret (mkBL (<[p := b]> (bl_heap s)) (head_ptr s) (tail_ptr s) (block_num s) (idle s)
            (bl_dropped s ++ if needs_drop then [old] else [])).

Definition BlockList_front (s : BlockList) : outcome (option Place) :=
  match head_ptr s with
  | None => Ret None
  | Some _ =>
      '(p, block) ← load_block s (head_ptr s);
      if decide (b_head block = b_tail block) then Ret None else Ret (Some (p, b_head block))
  end.

Record Iter := mkIter { it_block : option nat; it_index : nat; it_tail : option nat; it_len : nat }.

Definition BlockList_iter (s : BlockList) : outcome Iter :=
  match head_ptr s with
  | None => Ret (mkIter None 0 None 0)
  | Some _ =>
      '(_, head) ← load_block s (head_ptr s);
      len ← BlockList_len s;
      Ret (mkIter (head_ptr s) (b_head head) (tail_ptr s) len)
  end.

Definition Iter_end (it : Iter) : outcome (option Place * Iter) :=
  if decide (it_len it = 0%nat) then Ret (None, it) else Panic.

Fixpoint Iter_next (fuel : nat) (s : BlockList) (it : Iter) : outcome (option Place * Iter) :=
  match it_block it with
  | None => Iter_end it
  | Some p =>
      '(_, block) ← load_block s (Some p);
      if (it_index it <? b_tail block)%nat then
        if decide (it_len it = 0%nat) then Panic else
        Ret (Some (p, it_index it), mkIter (it_block it) (it_index it + 1) (it_tail it) (it_len it - 1))
      else if decide (it_block it = it_tail it) then
        Iter_end (mkIter None (it_index it) (it_tail it) (it_len it))
      else
        match fuel with
        | O => Undefined
        | S fuel => Iter_next fuel s (mkIter (b_next block) 0 (it_tail it) (it_len it))
        end
  end.

(** Runs an iterator to its end; [step] is what the loop does with a place. *)
Fixpoint Iter_fold {A} (fuel : nat) (step : BlockList → A → Place → outcome (BlockList * A)) (s : BlockList) (a : A) (it : Iter)
    : outcome (BlockList * A * Iter) :=
  '(r, it) ← Iter_next (S (block_num s)) s it;
  match r with
  | None => Ret (s, a, it)
  | Some r =>
      '(s, a) ← step s a r;
      match fuel with
      | O => Undefined
      | S fuel => Iter_fold fuel step s a it
      end
  end.

(** [iter().collect()], [contains], [iter_mut().for_each(|x| *x = f(x))] and [clone]. *)
Definition BlockList_items (s : BlockList) : outcome (list T) :=
  it ← BlockList_iter s;
  '(_, xs, _) ← Iter_fold (it_len it) (λ s xs r, x ← read_place s r; Ret (s, xs ++ [x])) s [] it;
  Ret xs.

Definition BlockList_contains (eqb : T → T → bool) (s : BlockList) (x : T) : outcome bool :=
  xs ← BlockList_items s; Ret (existsb (eqb x) xs).

Definition BlockList_map_assign (f : T → T) (s : BlockList) : outcome BlockList :=
  it ← BlockList_iter s;
  '(s, _, _) ← Iter_fold (it_len it) (λ s u r, x ← read_place s r; s ← assign_place s r (f x); Ret (s, u)) s tt it;
  Ret s.

Fixpoint BlockList_extend (s : BlockList) (xs : list T) : outcome BlockList :=
  match xs with
  | [] => Ret s
  | x :: xs => s ← BlockList_push_back s x; BlockList_extend s xs
  end.

Definition BlockList_from_iter (xs : list T) : outcome BlockList := BlockList_extend BlockList_new xs.

Definition BlockList_clone (s : BlockList) : outcome BlockList :=
  xs ← BlockList_items s; BlockList_extend BlockList_new (clone_value <$> xs).

Fixpoint clear_loop (fuel : nat) (s : BlockList) : outcome BlockList :=
  '(r, s) ← BlockList_pop_front s;
  match r with
  | None => Ret s
  | Some x =>
      let s := mkBL (bl_heap s) (head_ptr s) (tail_ptr s) (block_num s) (idle s) (bl_dropped s ++ if needs_drop then [x] else []) in
      match fuel with
      | O => Undefined
      | S fuel => clear_loop fuel s
      end
  end.

Definition BlockList_clear (s : BlockList) : outcome BlockList := n ← BlockList_len s; clear_loop n s.

Fixpoint drop_blocks (fuel : nat) (s : BlockList) (p : option nat) : outcome BlockList :=
  match p with
  | None => Ret s
  | Some _ =>
      '(p, b) ← load_block s p;
      s ← free_block s p b;
      match fuel with
      | O => Undefined
      | S fuel => drop_blocks fuel s (b_next b)
      end
  end.

Fixpoint drop_idle (s : BlockList) (ps : list nat) : outcome BlockList :=
  match ps with
  | [] => Ret s
  | p :: ps => '(p, b) ← load_block s (Some p); s ← free_block s p b; drop_idle s ps
  end.

(** [Drop], then the field [idle]. *)
Definition BlockList_drop (s : BlockList) : outcome BlockList :=
  s ← drop_blocks (S (block_num s)) s (head_ptr s); drop_idle s (idle s).

(** ** Representation

    Element [k] is in slot [i] of block [j] where [hd + k = 13 j + i]. *)

Record blk (h : gmap nat Block) (addrs : list nat) (hd : nat) (xs : list T) (j a : nat) (b : Block) : Prop := {
  blk_at : h !! a = Some b;
  blk_len : length (b_data b) = BLOCK_SIZE;
  blk_next : b_next b = addrs !! S j;
  blk_head : b_head b = match j with O => hd | _ => 0%nat end;
  blk_tail : b_tail b = Nat.min BLOCK_SIZE (hd + length xs - BLOCK_SIZE * j);
  blk_data : ∀ i k x, (hd + k = BLOCK_SIZE * j + i)%nat → (i < BLOCK_SIZE)%nat → xs !! k = Some x → b_data b !! i = Some (Some x)
}.

Record chain (h : gmap nat Block) (addrs : list nat) (hd : nat) (xs : list T) : Prop := {
  chain_hd : (hd < BLOCK_SIZE)%nat;
  chain_length : (BLOCK_SIZE * length addrs ≤ hd + length xs + BLOCK_SIZE ∧ hd + length xs < BLOCK_SIZE * length addrs)%nat;
  chain_blk : ∀ j a, addrs !! j = Some a → ∃ b, blk h addrs hd xs j a b
}.

(** An emptied block: dropping it drops nothing. *)
Definition spent (h : gmap nat Block) (a : nat) : Prop :=
  ∃ b, h !! a = Some b ∧ length (b_data b) = BLOCK_SIZE ∧ b_head b = BLOCK_SIZE ∧ b_tail b = BLOCK_SIZE.

(** The heap has the blocks of the chain and the emptied ones, all different. *)
Definition owned (h : gmap nat Block) (addrs ids : list nat) : Prop :=
  NoDup (addrs ++ ids) ∧ dom h = list_to_set (addrs ++ ids) ∧ (length ids ≤ MAX_IDLE)%nat ∧ ∀ a, a ∈ ids → spent h a.

Record blocks (s : BlockList) (addrs : list nat) (hd : nat) (xs : list T) : Prop := {
  bs_head : head_ptr s = addrs !! 0%nat;
  bs_tail : tail_ptr s = last addrs;
  bs_num : (length addrs = S (block_num s))%nat;
  bs_chain : chain (bl_heap s) addrs hd xs;
  bs_owned : owned (bl_heap s) addrs (idle s)
}.

Definition unused (s : BlockList) : Prop :=
  bl_heap s = ∅ ∧ head_ptr s = None ∧ tail_ptr s = None ∧ block_num s = 0%nat ∧ idle s = [].

(** The list holds [xs] and has given [d] to destructors. *)
Definition holds (s : BlockList) (xs d : list T) : Prop :=
  bl_dropped s = d ∧ (unused s ∧ xs = [] ∨ ∃ addrs hd, blocks s addrs hd xs).

Ltac sizes := unfold BLOCK_SIZE, MAX_IDLE in *; lia.

Lemma list_holds_new : holds BlockList_new [] [].
Proof. split; [done|]. left. done. Qed.

(** ** The first and the last block *)

Lemma load_block_ok s p b : bl_heap s !! p = Some b → load_block s (Some p) = Ret (p, b).
Proof. intros Hb. unfold load_block. cbn. by rewrite Hb. Qed.

Lemma first_block s addrs hd xs : blocks s addrs hd xs → ∃ p b, head_ptr s = Some p ∧ addrs !! 0%nat = Some p ∧ load_block s (head_ptr s) = Ret (p, b) ∧
  blk (bl_heap s) addrs hd xs 0 p b.
Proof.
  intros [Hh Ht Hn Hc _]. destruct (lookup_lt_is_Some_2 addrs 0) as [p Hp]; [lia|].
  destruct (chain_blk _ _ _ _ Hc _ _ Hp) as [b Hb]. exists p, b. rewrite Hh, Hp. split; [done|]. split; [done|]. split; [|done].
  apply load_block_ok, (blk_at _ _ _ _ _ _ _ Hb).
Qed.

Lemma last_block s addrs hd xs : blocks s addrs hd xs → ∃ q b, tail_ptr s = Some q ∧ addrs !! block_num s = Some q ∧ load_block s (tail_ptr s) = Ret (q, b) ∧
  blk (bl_heap s) addrs hd xs (block_num s) q b ∧ (b_tail b + BLOCK_SIZE * block_num s = hd + length xs)%nat ∧ (b_tail b < BLOCK_SIZE)%nat.
Proof.
  intros [Hh Ht Hn Hc _]. destruct (lookup_lt_is_Some_2 addrs (block_num s)) as [q Hq]; [lia|].
  destruct (chain_blk _ _ _ _ Hc _ _ Hq) as [b Hb]. exists q, b.
  rewrite Ht, last_lookup, Hn. cbn [pred]. rewrite Hq. split; [done|]. split; [done|].
  split; [apply load_block_ok, (blk_at _ _ _ _ _ _ _ Hb)|]. split; [done|].
  rewrite (blk_tail _ _ _ _ _ _ _ Hb). pose proof (chain_length _ _ _ _ Hc) as [H1 H2]. rewrite Hn in *. sizes.
Qed.

Lemma block_read_ok h addrs hd xs j a b i k x : blk h addrs hd xs j a b → (hd + k = BLOCK_SIZE * j + i)%nat → (i < BLOCK_SIZE)%nat → xs !! k = Some x →
  Block_read b i = Ret x.
Proof. intros Hb Hk Hi Hx. unfold Block_read. by rewrite (blk_data _ _ _ _ _ _ _ Hb i k x). Qed.

Lemma list_len_ok s xs d : holds s xs d → BlockList_len s = Ret (length xs).
Proof.
  intros [_ [[(Eh & Ep & _) ->]|(addrs & hd & Hb)]]; unfold BlockList_len; [by rewrite Ep|].
  destruct (first_block _ _ _ _ Hb) as (p & b & Ep & Hp & Hl & Hblk). destruct (last_block _ _ _ _ Hb) as (q & b' & Eq & Hq & Hl' & Hblk' & Htail & Hlt).
  rewrite Ep in *. destruct (decide (tail_ptr s = None)) as [E|_]; [congruence|]. rewrite Hl, Hl'. cbn [mbind outcome_bind].
  pose proof (blk_head _ _ _ _ _ _ _ Hblk) as Eh. cbn in Eh. pose proof (chain_hd _ _ _ _ (bs_chain _ _ _ _ Hb)) as Hhd.
  destruct (Nat.ltb_spec (block_num s * BLOCK_SIZE + b_tail b') (b_head b)); [|f_equal]; sizes.
Qed.

Lemma list_is_empty_ok s xs d : holds s xs d → BlockList_is_empty s = Ret (bool_decide (xs = [])).
Proof.
  intros [_ [[(Eh & Ep & _) ->]|(addrs & hd & Hb)]]; unfold BlockList_is_empty; [by rewrite Ep|].
  destruct (first_block _ _ _ _ Hb) as (p & b & Ep & Hp & Hl & Hblk). rewrite Ep in *. rewrite Hl. cbn [mbind outcome_bind]. f_equal.
  rewrite (blk_tail _ _ _ _ _ _ _ Hblk), (blk_head _ _ _ _ _ _ _ Hblk). pose proof (chain_hd _ _ _ _ (bs_chain _ _ _ _ Hb)) as Hhd.
  destruct xs; cbn [length]; [rewrite bool_decide_true by done; apply Nat.eqb_eq|rewrite bool_decide_false by done; apply Nat.eqb_neq]; sizes.
Qed.

(** ** Taking and giving back blocks *)

Definition blank (b : Block) : Prop := length (b_data b) = BLOCK_SIZE ∧ b_head b = 0%nat ∧ b_tail b = 0%nat ∧ b_next b = None.

Lemma spent_insert h a a' b : a ≠ a' → spent h a → spent (<[a' := b]> h) a.
Proof. intros Hne (b0 & Hb & Hs). exists b0. by rewrite lookup_insert_ne. Qed.

Lemma owned_store h addrs ids a b : owned h addrs ids → a ∈ addrs → owned (<[a := b]> h) addrs ids.
Proof.
  intros (Hnd & Hdom & Hroom & Hsp) Ha. split; [done|]. split; [rewrite dom_insert_L, Hdom; set_solver|]. split; [done|].
  intros a' Ha'. apply spent_insert; [|by apply Hsp]. intros ->. apply NoDup_app in Hnd as (_ & Hnd & _). by apply (Hnd a).
Qed.

Lemma get_block_ok s addrs : owned (bl_heap s) addrs (idle s) → ∃ r b ids,
  get_block s = Ret (r, mkBL (<[r := b]> (bl_heap s)) (head_ptr s) (tail_ptr s) (block_num s) ids (bl_dropped s)) ∧
  blank b ∧ r ∉ addrs ∧ owned (<[r := b]> (bl_heap s)) (addrs ++ [r]) ids.
Proof.
  intros (Hnd & Hdom & Hroom & Hsp). unfold get_block. destruct (last (idle s)) as [p|] eqn:El.
  - apply last_Some in El as [ids Hids]. rewrite Hids in *. destruct (Hsp p) as (b & Hb & Hlen & Hh & Ht); [set_solver|].
    rewrite (load_block_ok s p b Hb). cbn [mbind outcome_bind]. rewrite removelast_last. exists p, (Block_reset b), ids. split; [done|]. split; [done|].
    rewrite app_assoc in Hnd. apply NoDup_app in Hnd as (Hnd & Hp & _).
    assert (Hpn : p ∉ addrs ++ ids) by (intros Hin; apply (Hp p Hin); set_solver). split; [set_solver|].
    split; [|split; [|split]].
    + rewrite <- app_assoc, (Permutation_app_comm [p]), app_assoc. apply NoDup_app. split; [done|]. split; [set_solver|]. apply NoDup_singleton.
    + rewrite dom_insert_L, Hdom. set_solver.
    + rewrite length_app in Hroom. cbn in Hroom. lia.
    + intros a Ha. apply spent_insert; [set_solver|]. apply Hsp. set_solver.
  - apply last_None in El. rewrite El in *. rewrite app_nil_r in *. pose proof (malloc_fresh (dom (bl_heap s))) as Hf.
    set (p := malloc (dom (bl_heap s))) in *. exists p, Block_new, []. split; [by rewrite <- El|]. rewrite Hdom in Hf.
    split; [done|]. split; [set_solver|]. split; [|split; [|split]]; [| |cbn; sizes|set_solver].
    + rewrite app_nil_r. apply NoDup_app. split; [done|]. split; [set_solver|]. apply NoDup_singleton.
    + rewrite dom_insert_L, Hdom. set_solver.
Qed.

(** ** Pushing *)

Definition pushed (b : Block) (x : T) (next : option nat) : Block :=
  mkBlock (b_head b) (b_tail b + 1) (<[b_tail b := Some x]> (b_data b)) next.

Lemma blk_frame h h' addrs hd xs j a b : h' !! a = h !! a → blk h addrs hd xs j a b → blk h' addrs hd xs j a b.
Proof. intros Ha [H1 H2 H3 H4 H5 H6]. split; [by rewrite Ha|done..]. Qed.

(** A block before the last one is full already. *)
Lemma blk_before h h' addrs extra hd xs x j a b : h' !! a = h !! a → (S j < length addrs)%nat → (BLOCK_SIZE * length addrs ≤ hd + length xs + BLOCK_SIZE)%nat →
  blk h addrs hd xs j a b → blk h' (addrs ++ extra) hd (xs ++ [x]) j a b.
Proof.
  intros Ha Hj Hlen [H1 H2 H3 H4 H5 H6]. split; [by rewrite Ha|done|by rewrite lookup_app_l|done| |].
  - rewrite length_app. cbn [length]. rewrite H5. sizes.
  - intros i k y Hk Hi. assert (k < length xs)%nat by sizes. rewrite lookup_app_l by done. by apply H6.
Qed.

Lemma blk_pushed h h' addrs extra hd xs x j a b : h' !! a = Some (pushed b x ((addrs ++ extra) !! S j)) → (b_tail b + BLOCK_SIZE * j = hd + length xs)%nat →
  (b_tail b < BLOCK_SIZE)%nat → blk h addrs hd xs j a b → blk h' (addrs ++ extra) hd (xs ++ [x]) j a (pushed b x ((addrs ++ extra) !! S j)).
Proof.
  intros Ha Ht Hlt [H1 H2 H3 H4 H5 H6]. split; [done|by cbn; rewrite length_insert|done|done| |].
  - rewrite length_app. cbn [pushed b_tail length]. sizes.
  - intros i k y Hk Hi Hy. cbn [pushed b_data]. destruct (decide (k = length xs)) as [->|Hne].
    + rewrite lookup_app_r, Nat.sub_diag in Hy by lia. injection Hy as ->. replace i with (b_tail b) by sizes. apply list_lookup_insert_eq. sizes.
    + pose proof (lookup_lt_Some _ _ _ Hy) as Hlk. rewrite length_app in Hlk. cbn in Hlk. rewrite lookup_app_l in Hy by lia.
      rewrite list_lookup_insert_ne by sizes. by eapply H6.
Qed.

Lemma nodup_lookup_ne (addrs : list nat) j j' a a' : NoDup addrs → addrs !! j = Some a → addrs !! j' = Some a' → j ≠ j' → a ≠ a'.
Proof. intros Hnd Ha Ha' Hne ->. apply Hne. by eapply NoDup_lookup. Qed.

Lemma chain_push h addrs hd xs x q b : chain h addrs hd xs → NoDup addrs → last addrs = Some q → blk h addrs hd xs (pred (length addrs)) q b →
  (b_tail b + 1 < BLOCK_SIZE)%nat → chain (<[q := pushed b x (b_next b)]> h) addrs hd (xs ++ [x]).
Proof.
  intros [Hhd [Hl1 Hl2] Hblk] Hnd Hq Hb Hlt. rewrite last_lookup in Hq. pose proof (blk_tail _ _ _ _ _ _ _ Hb) as Ht.
  assert (Hn : (0 < length addrs)%nat) by sizes.
  assert (Ht' : (b_tail b + BLOCK_SIZE * pred (length addrs) = hd + length xs)%nat) by sizes.
  split; [done|rewrite length_app; cbn [length]; sizes|]. intros j a Ha. pose proof (lookup_lt_Some _ _ _ Ha) as Hj.
  destruct (decide (j = pred (length addrs))) as [->|Hne].
  - assert (a = q) as -> by congruence. exists (pushed b x (b_next b)).
    pose proof (blk_pushed h (<[q := pushed b x (b_next b)]> h) addrs [] hd xs x (pred (length addrs)) q b) as Hp.
    rewrite app_nil_r, <- (blk_next _ _ _ _ _ _ _ Hb) in Hp. apply Hp; [apply lookup_insert_eq|done|lia|done].
  - destruct (Hblk j a Ha) as [b' Hb']. exists b'.
    pose proof (blk_before h (<[q := pushed b x (b_next b)]> h) addrs [] hd xs x j a b') as Hp. rewrite app_nil_r in Hp. apply Hp; [|lia|done|done].
    apply lookup_insert_ne. eapply nodup_lookup_ne; [done|exact Hq|exact Ha|lia].
Qed.

Lemma chain_push_full h addrs hd xs x q b r b0 : chain h addrs hd xs → NoDup addrs → last addrs = Some q → blk h addrs hd xs (pred (length addrs)) q b →
  (b_tail b + 1 = BLOCK_SIZE)%nat → r ∉ addrs → blank b0 → chain (<[q := pushed b x (Some r)]> (<[r := b0]> h)) (addrs ++ [r]) hd (xs ++ [x]).
Proof.
  intros [Hhd [Hl1 Hl2] Hblk] Hnd Hq Hb Hlt Hr (Hb0 & Eh0 & Et0 & En0). rewrite last_lookup in Hq. pose proof (blk_tail _ _ _ _ _ _ _ Hb) as Ht.
  assert (Hn : (0 < length addrs)%nat) by sizes.
  assert (Ht' : (b_tail b + BLOCK_SIZE * pred (length addrs) = hd + length xs)%nat) by sizes.
  assert (Hqr : q ≠ r) by (intros ->; apply Hr; by eapply list_elem_of_lookup_2).
  split; [done|rewrite !length_app; cbn [length]; sizes|]. intros j a Ha.
  destruct (decide (j = length addrs)) as [->|Hlast].
  { rewrite lookup_app_r, Nat.sub_diag in Ha by lia. injection Ha as <-. exists b0. split; [by rewrite lookup_insert_ne, lookup_insert_eq|done| | | |].
    - rewrite En0. symmetry. apply lookup_ge_None. rewrite length_app. cbn. lia.
    - rewrite Eh0. destruct (length addrs); [lia|done].
    - rewrite length_app. cbn [length]. sizes.
    - intros i k y Hk Hi Hy%lookup_lt_Some. rewrite length_app in Hy. cbn in Hy. sizes. }
  pose proof (lookup_lt_Some _ _ _ Ha) as Hj. rewrite length_app in Hj. cbn in Hj. rewrite lookup_app_l in Ha by lia.
  destruct (decide (j = pred (length addrs))) as [->|Hne].
  - assert (a = q) as -> by congruence. exists (pushed b x ((addrs ++ [r]) !! S (pred (length addrs)))). eapply blk_pushed; [|done|lia|done].
    replace (S (pred (length addrs))) with (length addrs) by lia. rewrite lookup_app_r, Nat.sub_diag by lia. apply lookup_insert_eq.
  - destruct (Hblk j a Ha) as [b' Hb']. exists b'. eapply blk_before; [|lia|done|done].
    rewrite lookup_insert_ne by (eapply nodup_lookup_ne; [done|exact Hq|exact Ha|lia]). apply lookup_insert_ne. intros ->. apply Hr. by eapply list_elem_of_lookup_2.
Qed.

Lemma push_blocks s addrs hd xs x : blocks s addrs hd xs → ∃ s' addrs', BlockList_push_back s x = Ret s' ∧ bl_dropped s' = bl_dropped s ∧ blocks s' addrs' hd (xs ++ [x]).
Proof.
  intros Hb. pose proof Hb as [Hh Ht Hn Hc Ho]. destruct (last_block _ _ _ _ Hb) as (q & b & Eq & Hq & Hl & Hblk & Htail & Hlt).
  pose proof (proj1 (proj1 (NoDup_app _ _) (proj1 Ho))) as Hnd.
  assert (Hqin : q ∈ addrs) by (by eapply list_elem_of_lookup_2).
  unfold BlockList_push_back. rewrite Eq. cbn [mbind outcome_bind]. rewrite Hl. cbn [mbind outcome_bind].
  destruct (Nat.ltb_spec (b_tail b) BLOCK_SIZE) as [_|]; [|lia]. cbn [negb].
  unfold Block_write. rewrite decide_True by (by rewrite (blk_len _ _ _ _ _ _ _ Hblk)). cbn [mbind outcome_bind b_head b_data b_tail b_next].
  replace (block_num s) with (pred (length addrs)) in Hblk by lia. rewrite Ht in Eq.
  case_decide as Hfull.
  - assert (Ho1 : owned (<[q := pushed b x (b_next b)]> (bl_heap s)) addrs (idle s)) by (by apply owned_store).
    destruct (get_block_ok (store_block s q (pushed b x (b_next b))) addrs Ho1) as (r & b0 & ids & Hg & Hblank & Hr & Ho').
    unfold pushed in Hg at 1. rewrite Hg. cbn [mbind outcome_bind]. eexists _, (addrs ++ [r]). split; [reflexivity|]. split; [done|]. split; cbn.
    + rewrite lookup_app_l by lia. done.
    + by rewrite last_snoc.
    + rewrite length_app. cbn. lia.
    + cbn in Ho'. rewrite insert_insert_ne, insert_insert_eq, insert_insert_ne by set_solver.
      eapply chain_push_full; eauto.
    + apply owned_store; [done|set_solver].
  - eexists _, addrs. split; [reflexivity|]. split; [done|]. split; cbn; [done..| |].
    + eapply chain_push; eauto. unfold BLOCK_SIZE in *. lia.
    + by apply owned_store.
Qed.

Lemma init_blocks s : unused s → ∃ s' addrs, BlockList_init s = Ret s' ∧ bl_dropped s' = bl_dropped s ∧ blocks s' addrs 0 [].
Proof.
  intros (Eh & Ep & Et & En & Ei). unfold BlockList_init. rewrite decide_True by done.
  destruct (get_block_ok s []) as (r & b & ids & Hg & (Hb & Eh0 & Et0 & En0) & _ & Ho).
  { rewrite Eh, Ei. split; [constructor|]. split; [set_solver|]. split; [cbn; sizes|set_solver]. }
  rewrite Hg. cbn [mbind outcome_bind]. eexists _, [r]. split; [reflexivity|]. split; [done|]. split; cbn; [done|done|by rewrite En| |done].
  split; [sizes|cbn; sizes|]. intros [|j] a Ha; [|done]. injection Ha as <-. exists b. split; [apply lookup_insert_eq|done|done|done|cbn [length]; sizes|]. intros i k y _ _. by rewrite lookup_nil.
Qed.

Lemma list_push_ok s xs d x : holds s xs d → ∃ s', BlockList_push_back s x = Ret s' ∧ holds s' (xs ++ [x]) d.
Proof.
  intros [Hd [[Hu ->]|(addrs & hd & Hb)]].
  - destruct (init_blocks s Hu) as (s1 & addrs & Hi & Hd1 & Hb). destruct (push_blocks s1 addrs 0 [] x Hb) as (s' & addrs' & Hp & Hd' & Hb').
    exists s'. split; [|split; [congruence|right; eauto]].
    destruct Hu as (_ & _ & Et & _). revert Hp. unfold BlockList_push_back at 1 2. rewrite Et, Hi. cbn [mbind outcome_bind].
    destruct (last_block _ _ _ _ Hb) as (q & b & Eq & _). rewrite Eq. cbn [mbind outcome_bind]. rewrite Eq. exact id.
  - destruct (push_blocks s addrs hd xs x Hb) as (s' & addrs' & Hp & Hd' & Hb'). exists s'. split; [done|]. split; [congruence|right; eauto].
Qed.

(** ** Popping *)

Definition popped (b : Block) : Block := mkBlock (b_head b + 1) (b_tail b) (b_data b) (b_next b).

Lemma chain_pop h addrs hd x xs p b : chain h addrs hd (x :: xs) → NoDup addrs → addrs !! 0%nat = Some p → blk h addrs hd (x :: xs) 0 p b →
  (hd + 1 < BLOCK_SIZE)%nat → chain (<[p := popped b]> h) addrs (hd + 1) xs.
Proof.
  intros [Hhd [Hl1 Hl2] Hblk] Hnd Hp Hb Hlt. cbn [length] in *. split; [done|lia|]. intros j a Ha.
  destruct (decide (j = 0%nat)) as [->|Hj].
  - assert (a = p) as -> by congruence. destruct Hb as [H1 H2 H3 H4 H5 H6]. exists (popped b).
    split; [apply lookup_insert_eq|done|done|cbn; lia|cbn [popped b_tail]; rewrite H5; cbn [length]; sizes|].
    intros i k y Hk Hi Hy. by apply (H6 i (S k) y); [lia..|].
  - destruct (Hblk j a Ha) as [b' [H1 H2 H3 H4 H5 H6]]. exists b'.
    split; [rewrite lookup_insert_ne; [done|eapply nodup_lookup_ne; [done|exact Hp|exact Ha|lia]]|done|done|by destruct j|rewrite H5; cbn [length]; sizes|].
    intros i k y Hk Hi Hy. by apply (H6 i (S k) y); [lia..|].
Qed.

Lemma chain_pop_block h p addrs x xs : chain h (p :: addrs) (BLOCK_SIZE - 1) (x :: xs) → chain h addrs 0 xs.
Proof.
  intros [Hhd [Hl1 Hl2] Hblk]. cbn [length] in *. split; [sizes|sizes|]. intros j a Ha. destruct (Hblk (S j) a Ha) as [b [H1 H2 H3 H4 H5 H6]].
  exists b. split; [done..|by destruct j|rewrite H5; cbn [length]; sizes|]. intros i k y Hk Hi Hy. apply (H6 i (S k) y); [sizes|done|done].
Qed.

(** An emptied block is kept, or freed with nothing to drop. *)
Lemma idle_block_ok s p addrs : owned (bl_heap s) (p :: addrs) (idle s) → spent (bl_heap s) p →
  ∃ h ids, idle_block s p = Ret (mkBL h (head_ptr s) (tail_ptr s) (block_num s) ids (bl_dropped s)) ∧ owned h addrs ids ∧
    (∀ a, a ∈ addrs → h !! a = bl_heap s !! a).
Proof.
  intros (Hnd & Hdom & Hroom & Hsp) Hp. pose proof Hp as (b & Hb & Hlen & Hh & Ht). unfold idle_block. rewrite (load_block_ok s p b Hb). cbn [mbind outcome_bind].
  rewrite <- app_comm_cons in Hnd. apply NoDup_cons in Hnd as [Hpn Hnd]. case_decide as Hfull.
  - unfold free_block, Block_drop. rewrite Hh, Ht, Nat.ltb_irrefl, andb_false_r. cbn [mbind outcome_bind]. rewrite app_nil_r.
    eexists _, (idle s). split; [reflexivity|]. split; [|intros a Ha; apply lookup_delete_ne; set_solver].
    split; [done|]. split; [rewrite dom_delete_L, Hdom; set_solver|]. split; [done|].
    intros a Ha. destruct (Hsp a Ha) as (b' & Hb' & Hs'). exists b'. rewrite lookup_delete_ne; [done|set_solver].
  - eexists _, (idle s ++ [p]). split; [reflexivity|]. split; [|done]. split; [|split; [|split]].
    + rewrite app_assoc. apply NoDup_app. split; [done|]. split; [set_solver|apply NoDup_singleton].
    + rewrite Hdom. set_solver.
    + rewrite length_app. cbn. sizes.
    + intros a [Ha| ->%list_elem_of_singleton]%elem_of_app; [by apply Hsp|done].
Qed.

Lemma chain_frame h h' addrs hd xs : chain h addrs hd xs → (∀ a, a ∈ addrs → h' !! a = h !! a) → chain h' addrs hd xs.
Proof.
  intros [Hhd Hl Hblk] Hf. split; [done|done|]. intros j a Ha. destruct (Hblk j a Ha) as [b Hb]. exists b. eapply blk_frame; [|done].
  apply Hf. by eapply list_elem_of_lookup_2.
Qed.

Lemma pop_blocks s addrs hd x xs : blocks s addrs hd (x :: xs) → ∃ s' addrs' hd', BlockList_pop_front s = Ret (Some x, s') ∧
  bl_dropped s' = bl_dropped s ∧ blocks s' addrs' hd' xs.
Proof.
  intros Hb. pose proof Hb as [Hh Ht Hn Hc Ho]. destruct (first_block _ _ _ _ Hb) as (p & b & Ep & Hp & Hl & Hblk).
  pose proof (proj1 (proj1 (NoDup_app _ _) (proj1 Ho))) as Hnd. pose proof (chain_hd _ _ _ _ Hc) as Hhd. pose proof (chain_length _ _ _ _ Hc) as [Hl1 Hl2].
  pose proof (blk_head _ _ _ _ _ _ _ Hblk) as Eh. pose proof (blk_tail _ _ _ _ _ _ _ Hblk) as Et. cbn [length] in *. cbn in Eh.
  assert (Hpin : p ∈ addrs) by (by eapply list_elem_of_lookup_2).
  unfold BlockList_pop_front. rewrite Ep. rewrite <- Ep, Hl. cbn [mbind outcome_bind]. rewrite Eh.
  destruct (Nat.ltb_spec hd BLOCK_SIZE) as [_|]; [|lia]. destruct (Nat.leb_spec hd (b_tail b)) as [_|]; [|sizes]. cbn [negb andb].
  rewrite decide_False by sizes. rewrite (block_read_ok _ _ _ _ _ _ _ hd 0 x Hblk) by (done || sizes). cbn [mbind outcome_bind b_head b_next].
  assert (Ho1 : owned (<[p := popped b]> (bl_heap s)) addrs (idle s)) by (by apply owned_store).
  unfold popped in Ho1. rewrite Eh in Ho1. case_decide as Hlast.
  - assert (Hhd1 : hd = (BLOCK_SIZE - 1)%nat) by sizes. destruct addrs as [|p' addrs]; [done|]. injection Hp as ->.
    pose proof (blk_next _ _ _ _ _ _ _ Hblk) as En. cbn in En. cbn [length] in *.
    rewrite decide_False. 2: { rewrite En. intros E%lookup_ge_None. sizes. }
    cbn [store_block block_num bl_heap tail_ptr idle bl_dropped]. rewrite decide_False by sizes.
    edestruct (idle_block_ok (mkBL (<[p := mkBlock (hd + 1) (b_tail b) (b_data b) (b_next b)]> (bl_heap s)) (b_next b) (tail_ptr s) (block_num s - 1) (idle s) (bl_dropped s)) p addrs)
      as (h & ids & Hi & Ho2 & Hf); [done| |].
    { eexists. cbn. split; [apply lookup_insert_eq|]. cbn. split; [by rewrite (blk_len _ _ _ _ _ _ _ Hblk)|]. sizes. }
    rewrite Hi. cbn [mbind outcome_bind]. eexists _, addrs, 0%nat. split; [reflexivity|]. split; [done|]. apply NoDup_cons in Hnd as [Hpn Hnd].
    split; cbn; [done|rewrite Ht; destruct addrs; [cbn in Hl2; sizes|done]|sizes| |done]. rewrite Hhd1 in Hc. eapply chain_frame; [exact (chain_pop_block _ _ _ _ _ Hc)|].
    intros a Ha. rewrite Hf by done. cbn. apply lookup_insert_ne. set_solver.
  - eexists _, addrs, (hd + 1)%nat. split; [reflexivity|]. split; [done|]. split; cbn; [done|done|done| |done].
    rewrite <- Eh. eapply chain_pop; eauto. all: rewrite ?Eh; sizes || done.
Qed.

Lemma list_pop_ok s xs d : holds s xs d → match xs with
  | [] => BlockList_pop_front s = Ret (None, s)
  | x :: xs => ∃ s', BlockList_pop_front s = Ret (Some x, s') ∧ holds s' xs d
  end.
Proof.
  intros [Hd [[(_ & Ep & _) ->]|(addrs & hd & Hb)]]; [unfold BlockList_pop_front; by rewrite Ep|]. destruct xs as [|x xs].
  - destruct (first_block _ _ _ _ Hb) as (p & b & Ep & _ & Hl & Hblk). pose proof (chain_hd _ _ _ _ (bs_chain _ _ _ _ Hb)) as Hhd.
    pose proof (blk_head _ _ _ _ _ _ _ Hblk) as Eh. pose proof (blk_tail _ _ _ _ _ _ _ Hblk) as Et. cbn [length] in Et. cbn in Eh.
    unfold BlockList_pop_front. rewrite Ep. rewrite <- Ep, Hl. cbn [mbind outcome_bind]. rewrite Eh.
    destruct (Nat.ltb_spec hd BLOCK_SIZE) as [_|]; [|lia]. destruct (Nat.leb_spec hd (b_tail b)) as [_|]; [|sizes]. cbn [negb andb].
    by rewrite decide_True by sizes.
  - destruct (pop_blocks _ _ _ _ _ Hb) as (s' & addrs' & hd' & Hp & Hd' & Hb'). exists s'. split; [done|]. split; [congruence|right; eauto].
Qed.

(** ** Places *)

(** The place of element [k]. *)
Definition place_at (addrs : list nat) (hd k : nat) (r : Place) : Prop :=
  ∃ j, addrs !! j = Some r.1 ∧ (hd + k = BLOCK_SIZE * j + r.2)%nat ∧ (r.2 < BLOCK_SIZE)%nat.

Lemma read_place_ok s addrs hd xs k r x : blocks s addrs hd xs → place_at addrs hd k r → xs !! k = Some x → read_place s r = Ret x.
Proof.
  intros Hb (j & Hj & Hk & Hi) Hx. destruct (chain_blk _ _ _ _ (bs_chain _ _ _ _ Hb) _ _ Hj) as [b Hblk].
  unfold read_place. rewrite (load_block_ok s _ b (blk_at _ _ _ _ _ _ _ Hblk)). cbn [mbind outcome_bind]. by eapply block_read_ok.
Qed.

Lemma assign_place_ok s addrs hd xs k r x y : blocks s addrs hd xs → place_at addrs hd k r → xs !! k = Some x →
  ∃ s', assign_place s r y = Ret s' ∧ bl_dropped s' = bl_dropped s ++ (if needs_drop then [x] else []) ∧ block_num s' = block_num s ∧
    blocks s' addrs hd (<[k := y]> xs).
Proof.
  intros Hb (j & Hj & Hk & Hi) Hx. pose proof Hb as [Hh Ht Hn Hc Ho]. pose proof Hc as [Hhd Hlen Hblks].
  destruct (Hblks _ _ Hj) as [b Hblk]. pose proof (proj1 (proj1 (NoDup_app _ _) (proj1 Ho))) as Hnd.
  unfold assign_place. rewrite (load_block_ok s _ b (blk_at _ _ _ _ _ _ _ Hblk)). cbn [mbind outcome_bind].
  rewrite (block_read_ok _ _ _ _ _ _ _ _ _ x Hblk Hk Hi Hx). cbn [mbind outcome_bind]. unfold Block_write.
  rewrite decide_True by (by rewrite (blk_len _ _ _ _ _ _ _ Hblk)). cbn [mbind outcome_bind].
  eexists. split; [reflexivity|]. split; [done|]. split; [done|]. split; cbn; [done|done|done| |apply owned_store; [done|by eapply list_elem_of_lookup_2]].
  split; [done|by rewrite length_insert|]. intros j' a Ha. destruct (decide (j' = j)) as [->|Hne].
  - assert (a = r.1) as -> by congruence. destruct Hblk as [H1 H2 H3 H4 H5 H6]. eexists. split; [apply lookup_insert_eq|cbn; by rewrite length_insert|done|done| |].
    + by rewrite length_insert.
    + intros i k' z Hk' Hi' Hz. cbn. destruct (decide (k' = k)) as [->|Hnek].
      * rewrite list_lookup_insert_eq in Hz by (by eapply lookup_lt_Some). injection Hz as ->. replace i with r.2 by lia. apply list_lookup_insert_eq. sizes.
      * rewrite list_lookup_insert_ne in Hz by done. rewrite list_lookup_insert_ne by lia. by eapply H6.
  - destruct (Hblks j' a Ha) as [b' [H1 H2 H3 H4 H5 H6]]. exists b'. split; [rewrite lookup_insert_ne; [done|by eapply nodup_lookup_ne]|done..| |].
    + by rewrite length_insert.
    + intros i k' z Hk' Hi' Hz. rewrite list_lookup_insert_ne in Hz by sizes. by eapply H6.
Qed.

Lemma list_front_ok s addrs hd xs : blocks s addrs hd xs → match xs with
  | [] => BlockList_front s = Ret None
  | _ => ∃ r, BlockList_front s = Ret (Some r) ∧ place_at addrs hd 0 r
  end.
Proof.
  intros Hb. destruct (first_block _ _ _ _ Hb) as (p & b & Ep & Hp & Hl & Hblk). pose proof (chain_hd _ _ _ _ (bs_chain _ _ _ _ Hb)) as Hhd.
  pose proof (blk_head _ _ _ _ _ _ _ Hblk) as Eh. pose proof (blk_tail _ _ _ _ _ _ _ Hblk) as Et. cbn in Eh.
  unfold BlockList_front. rewrite Ep. rewrite <- Ep, Hl. cbn [mbind outcome_bind]. destruct xs as [|x xs]; cbn [length] in Et.
  - by rewrite decide_True by sizes.
  - rewrite decide_False by sizes. eexists. split; [reflexivity|]. exists 0%nat. rewrite Eh. cbn. split; [done|sizes].
Qed.

(** ** Iterating *)

(** The iterator stands before element [k]: in its block, or at the end of the one
    before; or it has ended. *)
Definition iter_at (s : BlockList) (addrs : list nat) (hd : nat) (xs : list T) (k : nat) (it : Iter) : Prop :=
  (k ≤ length xs)%nat ∧ it_len it = (length xs - k)%nat ∧ it_tail it = tail_ptr s ∧
  match it_block it with
  | None => k = length xs
  | Some a => ∃ j, addrs !! j = Some a ∧ (hd + k = BLOCK_SIZE * j + it_index it)%nat ∧ (it_index it ≤ BLOCK_SIZE)%nat
  end.

(** What the next call answers. *)
Definition next_ok (s : BlockList) (addrs : list nat) (hd : nat) (xs : list T) (k : nat) (r : outcome (option Place * Iter)) : Prop :=
  if decide (k < length xs)%nat then ∃ p it, r = Ret (Some p, it) ∧ place_at addrs hd k p ∧ iter_at s addrs hd xs (S k) it
  else ∃ it, r = Ret (None, it) ∧ iter_at s addrs hd xs k it ∧ it_block it = None.

Lemma iter_end_ok s addrs hd xs k it : iter_at s addrs hd xs k it → it_block it = None → next_ok s addrs hd xs k (Iter_end it).
Proof.
  intros (Hk & Hlen & Ht & Hb) En. rewrite En in Hb. unfold next_ok. rewrite decide_False by lia. exists it. unfold Iter_end.
  rewrite decide_True by lia. split; [done|]. split; [|done]. split; [done|]. split; [done|]. split; [done|]. by rewrite En.
Qed.

Lemma iter_next_inside s addrs hd xs k it fuel a j : blocks s addrs hd xs → iter_at s addrs hd xs k it → it_block it = Some a → addrs !! j = Some a →
  (hd + k = BLOCK_SIZE * j + it_index it)%nat → (it_index it < BLOCK_SIZE)%nat → next_ok s addrs hd xs k (Iter_next fuel s it).
Proof.
  intros Hb (Hk & Hlen & Ht & _) Ea Hj Hpos Hi. destruct (chain_blk _ _ _ _ (bs_chain _ _ _ _ Hb) _ _ Hj) as [b Hblk].
  pose proof (blk_tail _ _ _ _ _ _ _ Hblk) as Et. pose proof (chain_length _ _ _ _ (bs_chain _ _ _ _ Hb)) as [Hl1 Hl2].
  pose proof (lookup_lt_Some _ _ _ Hj) as Hjl.
  destruct fuel; cbn [Iter_next]; rewrite Ea, (load_block_ok s a b (blk_at _ _ _ _ _ _ _ Hblk)); cbn [mbind outcome_bind];
    (destruct (Nat.ltb_spec (it_index it) (b_tail b)) as [Hin|Hout]; [unfold next_ok; destruct (decide (k < length xs)%nat) as [_|]; [|sizes]; destruct (decide (it_len it = 0%nat)); [sizes|];
      do 2 eexists; split; [reflexivity|]; split; [by exists j|]; split; [sizes|]; split; [cbn; lia|]; split; [done|]; exists j; cbn; split; [done|sizes]
    |rewrite decide_True by (rewrite Ht, (bs_tail _ _ _ _ Hb), last_lookup, <- Hj; f_equal; sizes);
      apply iter_end_ok; [|done]; split; [done|]; split; [done|]; split; [done|]; cbn; sizes]).
Qed.

Lemma iter_next_ok s addrs hd xs k it fuel : blocks s addrs hd xs → iter_at s addrs hd xs k it → next_ok s addrs hd xs k (Iter_next (S fuel) s it).
Proof.
  intros Hb Hat. destruct (it_block it) as [a|] eqn:Ea; [|cbn [Iter_next]; rewrite Ea; by apply iter_end_ok].
  pose proof Hat as (Hk & Hlen & Ht & Hpos). rewrite Ea in Hpos. destruct Hpos as (j & Hj & Hpos & Hi).
  destruct (decide (it_index it = BLOCK_SIZE)) as [Ei|]; [|eapply iter_next_inside; [done..|lia]].
  destruct (chain_blk _ _ _ _ (bs_chain _ _ _ _ Hb) _ _ Hj) as [b Hblk]. pose proof (blk_tail _ _ _ _ _ _ _ Hblk) as Et.
  pose proof (chain_length _ _ _ _ (bs_chain _ _ _ _ Hb)) as [Hl1 Hl2]. pose proof (lookup_lt_Some _ _ _ Hj) as Hjl.
  pose proof (proj1 (proj1 (NoDup_app _ _) (proj1 (bs_owned _ _ _ _ Hb)))) as Hnd.
  destruct (lookup_lt_is_Some_2 addrs (S j)) as [a' Ha']; [sizes|].
  cbn [Iter_next]. rewrite Ea, (load_block_ok s a b (blk_at _ _ _ _ _ _ _ Hblk)). cbn [mbind outcome_bind].
  destruct (Nat.ltb_spec (it_index it) (b_tail b)) as [|_]; [sizes|]. rewrite decide_False.
  2: { rewrite Ht, (bs_tail _ _ _ _ Hb), last_lookup. intros E. assert (j = pred (length addrs)) by (by eapply NoDup_lookup). sizes. }
  rewrite (blk_next _ _ _ _ _ _ _ Hblk), Ha'. eapply iter_next_inside; [done| |done|exact Ha'|cbn; sizes|cbn; sizes].
  split; [done|]. split; [done|]. split; [done|]. exists (S j). cbn. split; [done|sizes].
Qed.

Lemma iter_start s addrs hd xs : blocks s addrs hd xs → ∃ it, BlockList_iter s = Ret it ∧ iter_at s addrs hd xs 0 it.
Proof.
  intros Hb. destruct (first_block _ _ _ _ Hb) as (p & b & Ep & Hp & Hl & Hblk). unfold BlockList_iter. rewrite Ep. rewrite <- Ep, Hl. cbn [mbind outcome_bind].
  rewrite (list_len_ok s xs (bl_dropped s)) by (split; [done|right; eauto]). cbn [mbind outcome_bind]. eexists. split; [reflexivity|].
  split; [lia|]. split; [cbn; lia|]. split; [done|]. cbn. rewrite Ep. exists 0%nat. rewrite (blk_head _ _ _ _ _ _ _ Hblk).
  pose proof (chain_hd _ _ _ _ (bs_chain _ _ _ _ Hb)). split; [done|]. sizes.
Qed.

(** A loop over the iterator that keeps [inv]. *)
Lemma iter_fold_ok {A} (step : BlockList → A → Place → outcome (BlockList * A)) addrs hd (inv : BlockList → A → list T → nat → Prop) n :
  (∀ s a xs k, inv s a xs k → blocks s addrs hd xs ∧ length xs = n) →
  (∀ s a xs k r, inv s a xs k → (k < n)%nat → place_at addrs hd k r →
     ∃ s' a' xs', step s a r = Ret (s', a') ∧ inv s' a' xs' (S k) ∧ tail_ptr s' = tail_ptr s) →
  ∀ fuel s a xs k it, inv s a xs k → iter_at s addrs hd xs k it → (n ≤ fuel + k)%nat →
  ∃ s' a' xs' it', Iter_fold fuel step s a it = Ret (s', a', it') ∧ inv s' a' xs' n.
Proof.
  intros Hinv Hstep. induction fuel as [|fuel IH]; intros s a xs k it Hi Hat Hf;
    destruct (Hinv _ _ _ _ Hi) as [Hb Hn]; pose proof (iter_next_ok s addrs hd xs k it (block_num s) Hb Hat) as Hnext; unfold next_ok in Hnext;
    (destruct (decide (k < length xs)%nat) as [Hlt|Hge];
     [|destruct Hnext as (it' & Hr & _); cbn [Iter_fold]; rewrite Hr; cbn [mbind outcome_bind]; destruct Hat as [Hle _];
       exists s, a, xs, it'; split; [done|]; by replace n with k by lia]); [lia|].
  destruct Hnext as (r & it' & Hr & Hpl & Hat'). destruct (Hstep s a xs k r Hi ltac:(lia) Hpl) as (s' & a' & xs' & Hs & Hi' & Et).
  cbn [Iter_fold]. rewrite Hr. cbn [mbind outcome_bind]. rewrite Hs. cbn [mbind outcome_bind].
  apply (IH s' a' xs' (S k) it'); [done| |lia]. destruct (Hinv _ _ _ _ Hi') as [_ Hn']. destruct Hat' as (H1 & H2 & H3 & H4).
  split; [lia|]. split; [lia|]. split; [congruence|]. destruct (it_block it'); [done|lia].
Qed.

Definition destroyed (xs : list T) : list T := if needs_drop then xs else [].

Lemma destroyed_app xs ys : destroyed (xs ++ ys) = destroyed xs ++ destroyed ys.
Proof. unfold destroyed. by destruct needs_drop. Qed.

(** The loop over an unused list does nothing. *)
Lemma fold_unused {A} (step : BlockList → A → Place → outcome (BlockList * A)) s a fuel : Iter_fold fuel step s a (mkIter None 0 None 0) = Ret (s, a, mkIter None 0 None 0).
Proof. by destruct fuel. Qed.

Lemma list_items_ok s xs d : holds s xs d → BlockList_items s = Ret xs.
Proof.
  intros [_ [[(_ & Ep & _) ->]|(addrs & hd & Hb)]]; unfold BlockList_items.
  - unfold BlockList_iter. rewrite Ep. cbn [mbind outcome_bind]. by rewrite fold_unused.
  - destruct (iter_start _ _ _ _ Hb) as (it & Hit & Hat). rewrite Hit. cbn [mbind outcome_bind].
    edestruct (iter_fold_ok (λ s xs r, x ← read_place s r; Ret (s, xs ++ [x])) addrs hd (λ s' a ys k, s' = s ∧ ys = xs ∧ a = take k xs) (length xs))
      as (s' & a & ys & it' & Hr & _ & _ & Ha); [| | | exact Hat| |rewrite Hr; cbn; by rewrite Ha, firstn_all].
    + by intros ? ? ? ? (-> & -> & _).
    + intros ? ? ? k r (-> & -> & ->) Hk Hpl. destruct (lookup_lt_is_Some_2 xs k Hk) as [x Hx]. rewrite (read_place_ok _ _ _ _ _ _ _ Hb Hpl Hx).
      cbn [mbind outcome_bind]. eexists _, _, _. split; [reflexivity|]. split; [|done]. by rewrite (take_S_r _ _ _ Hx).
    + done.
    + destruct Hat as (_ & -> & _). lia.
Qed.

Lemma map_assign_ok f s xs d : holds s xs d → ∃ s', BlockList_map_assign f s = Ret s' ∧ holds s' (f <$> xs) (d ++ destroyed xs).
Proof.
  intros [Hd [[Hu ->]|(addrs & hd & Hb)]]; unfold BlockList_map_assign.
  - pose proof Hu as (_ & Ep & _). unfold BlockList_iter. rewrite Ep. cbn [mbind outcome_bind]. rewrite fold_unused. cbn. exists s. split; [done|].
    split; [unfold destroyed; destruct needs_drop; by rewrite app_nil_r|by left].
  - destruct (iter_start _ _ _ _ Hb) as (it & Hit & Hat). rewrite Hit. cbn [mbind outcome_bind].
    edestruct (iter_fold_ok (λ s (u : unit) r, x ← read_place s r; s ← assign_place s r (f x); Ret (s, u)) addrs hd
      (λ s' _ ys k, blocks s' addrs hd ys ∧ ys = (f <$> take k xs) ++ drop k xs ∧ (k ≤ length xs)%nat ∧ bl_dropped s' = d ++ destroyed (take k xs)) (length xs))
      as (s' & a & ys & it' & Hr & Hb' & -> & _ & Hd'); [| |split; [exact Hb|done || idtac]|exact Hat| |rewrite Hr; cbn; exists s'; split; [done|split]].
    + intros ? ? ? ? (H1 & -> & Hk & _). split; [done|]. rewrite length_app, length_fmap, length_take, length_drop. lia.
    + intros s1 u ys k r (H1 & -> & _ & Hd1) Hk Hpl. destruct (lookup_lt_is_Some_2 xs k Hk) as [x Hx].
      assert (Hlen : length (f <$> take k xs) = k) by (rewrite length_fmap, length_take; lia).
      assert (Hx' : ((f <$> take k xs) ++ drop k xs) !! k = Some x).
      { rewrite lookup_app_r by lia. by rewrite Hlen, Nat.sub_diag, lookup_drop, Nat.add_0_r. }
      rewrite (read_place_ok _ _ _ _ _ _ _ H1 Hpl Hx'). cbn [mbind outcome_bind].
      destruct (assign_place_ok _ _ _ _ _ _ _ (f x) H1 Hpl Hx') as (s2 & Hs2 & Hd2 & _ & Hb2). rewrite Hs2. cbn [mbind outcome_bind].
      eexists _, _, _. split; [reflexivity|]. split; [split; [exact Hb2|split; [|split; [lia|]]]|].
      * rewrite insert_app_r_alt, Hlen, Nat.sub_diag by lia. rewrite (drop_S _ _ _ Hx). cbn. rewrite (take_S_r _ _ _ Hx), fmap_app. cbn. by rewrite <- app_assoc.
      * rewrite Hd2, Hd1, (take_S_r _ _ _ Hx), destroyed_app, app_assoc. done.
      * rewrite (bs_tail _ _ _ _ Hb2), (bs_tail _ _ _ _ H1). done.
    + split; [by rewrite take_0, drop_0|]. split; [lia|]. rewrite take_0. unfold destroyed. destruct needs_drop; by rewrite app_nil_r.
    + destruct Hat as (_ & -> & _). lia.
    + by rewrite Hd', firstn_all.
    + right. exists addrs, hd. by rewrite firstn_all, drop_all, app_nil_r in Hb'.
Qed.

Lemma list_extend_ok ys : ∀ s xs d, holds s xs d → ∃ s', BlockList_extend s ys = Ret s' ∧ holds s' (xs ++ ys) d.
Proof.
  induction ys as [|y ys IH]; intros s xs d Hs; cbn [BlockList_extend]; [exists s; by rewrite app_nil_r|].
  destruct (list_push_ok s xs d y Hs) as (s1 & -> & Hs1). cbn [mbind outcome_bind]. destruct (IH s1 _ _ Hs1) as (s2 & Hs2 & H2). exists s2. by rewrite <- app_assoc in H2.
Qed.

Lemma list_clear_ok s xs d : holds s xs d → ∃ s', BlockList_clear s = Ret s' ∧ holds s' [] (d ++ destroyed xs).
Proof.
  intros Hs. unfold BlockList_clear. rewrite (list_len_ok s xs d Hs). cbn [mbind outcome_bind].
  assert (Hfuel : (length xs ≤ length xs)%nat) by lia. revert Hfuel Hs. generalize (length xs) at 2 3 as fuel. intros fuel. revert s xs d.
  induction fuel as [|fuel IH]; intros s [|x xs] d Hf Hs; cbn [length] in *; try lia; pose proof (list_pop_ok _ _ _ Hs) as Hp; cbn [clear_loop].
  1-2: rewrite Hp; cbn [mbind outcome_bind]; exists s; split; [done|]; unfold destroyed; destruct needs_drop; by rewrite app_nil_r.
  destruct Hp as (s1 & -> & Hd1 & Hs1). cbn [mbind outcome_bind]. edestruct (IH (mkBL (bl_heap s1) (head_ptr s1) (tail_ptr s1) (block_num s1) (idle s1) (bl_dropped s1 ++ destroyed [x])) xs (d ++ destroyed [x]))
    as (s2 & Hs2 & H2); [lia| |].
  { split; [cbn; by rewrite Hd1|]. destruct Hs1 as [Hu|(addrs & hd & [H1 H2 H3 H4 H5])]; [by left|right]. exists addrs, hd. by split. }
  exists s2. split; [exact Hs2|]. by rewrite <- app_assoc, <- destroyed_app in H2.
Qed.

(** ** Dropping *)

Lemma block_read_all_ok h addrs hd xs j a b n : blk h addrs hd xs j a b → ∀ i k, (hd + k = BLOCK_SIZE * j + i)%nat → (i + n ≤ BLOCK_SIZE)%nat → (k + n ≤ length xs)%nat →
  Block_read_all b i n = Ret (take n (drop k xs)).
Proof.
  intros Hb. induction n as [|n IH]; intros i k Hk Hi Hn; cbn [Block_read_all]; [by rewrite take_0|].
  destruct (lookup_lt_is_Some_2 xs k) as [x Hx]; [lia|]. rewrite (block_read_ok _ _ _ _ _ _ _ i k x Hb) by (done || lia). cbn [mbind outcome_bind].
  rewrite (IH (S i) (S k)) by lia. cbn [mbind outcome_bind]. by rewrite (drop_S _ _ _ Hx).
Qed.

(** Dropping block [j] drops its elements, which come before those of the next block. *)
Lemma block_drop_ok h addrs hd xs j a b : chain h addrs hd xs → blk h addrs hd xs j a b → addrs !! j = Some a → ∃ ys, Block_drop b = Ret (destroyed ys) ∧
  drop (BLOCK_SIZE * j - hd) xs = ys ++ drop (BLOCK_SIZE * S j - hd) xs.
Proof.
  intros [Hhd [Hl1 Hl2] _] Hb Hj%lookup_lt_Some. pose proof (blk_tail _ _ _ _ _ _ _ Hb) as Et. pose proof (blk_head _ _ _ _ _ _ _ Hb) as Eh.
  set (n := (b_tail b - b_head b)%nat). exists (take n (drop (BLOCK_SIZE * j - hd) xs)).
  assert (Hhead : (b_head b = hd + (BLOCK_SIZE * j - hd) - BLOCK_SIZE * j)%nat) by (rewrite Eh; destruct j; sizes). split.
  - unfold Block_drop, destroyed. destruct needs_drop; [|done]. cbn [andb]. fold n. destruct (Nat.ltb_spec (b_head b) (b_tail b)).
    + eapply block_read_all_ok; [done|sizes..].
    + replace n with 0%nat by lia. by rewrite take_0.
  - rewrite <- (take_drop n (drop (BLOCK_SIZE * j - hd) xs)) at 1. f_equal. rewrite drop_drop.
    destruct (decide (S j = length addrs)); [rewrite !drop_ge by sizes; done|f_equal; sizes].
Qed.

Lemma drop_blocks_ok h0 addrs hd xs : chain h0 addrs hd xs → NoDup addrs → ∀ fuel j s, (length addrs ≤ fuel + j)%nat →
  (∀ a, a ∈ drop j addrs → bl_heap s !! a = h0 !! a) → ∃ h, drop_blocks fuel s (addrs !! j) =
    Ret (mkBL h (head_ptr s) (tail_ptr s) (block_num s) (idle s) (bl_dropped s ++ destroyed (drop (BLOCK_SIZE * j - hd) xs))) ∧
    ∀ a, h !! a = if decide (a ∈ drop j addrs) then None else bl_heap s !! a.
Proof.
  intros Hc Hnd. induction fuel as [|fuel IH]; intros j s Hf Hh; (destruct (addrs !! j) as [a|] eqn:Ha;
    [|pose proof (chain_length _ _ _ _ Hc) as [_ Hl2]; apply lookup_ge_None in Ha; exists (bl_heap s); rewrite !drop_ge by sizes;
      split; [unfold destroyed; destruct needs_drop; rewrite app_nil_r; by destruct s|intros a; by rewrite decide_False by apply not_elem_of_nil]]);
    [apply lookup_lt_Some in Ha; lia|].
  destruct (chain_blk _ _ _ _ Hc _ _ Ha) as [b Hb]. destruct (block_drop_ok _ _ _ _ _ _ _ Hc Hb Ha) as (ys & Hys & Hsplit).
  assert (Hin : a ∈ drop j addrs) by (rewrite (drop_S _ _ _ Ha); set_solver).
  cbn [drop_blocks]. rewrite (load_block_ok s a b) by (rewrite Hh by done; apply (blk_at _ _ _ _ _ _ _ Hb)). cbn [mbind outcome_bind].
  unfold free_block. rewrite Hys. cbn [mbind outcome_bind]. rewrite (blk_next _ _ _ _ _ _ _ Hb).
  assert (Hna : a ∉ drop (S j) addrs).
  { rewrite <- (take_drop j addrs), (drop_S _ _ _ Ha) in Hnd. apply NoDup_app in Hnd as (_ & _ & Hnd). by apply NoDup_cons in Hnd as [? _]. }
  edestruct (IH (S j) (mkBL (delete a (bl_heap s)) (head_ptr s) (tail_ptr s) (block_num s) (idle s) (bl_dropped s ++ destroyed ys))) as (h & Hd & Hl); [lia| |].
  { intros a' Ha'. cbn. rewrite lookup_delete_ne by (by intros ->). apply Hh. rewrite (drop_S _ _ _ Ha). set_solver. }
  exists h. split; [rewrite Hd; cbn [head_ptr tail_ptr block_num idle bl_dropped]; by rewrite Hsplit, destroyed_app, app_assoc|]. intros a'. rewrite Hl. cbn. rewrite (drop_S _ _ _ Ha).
  destruct (decide (a' = a)) as [->|Hne]; [rewrite lookup_delete_eq; repeat case_decide; set_solver|]. rewrite lookup_delete_ne by done.
  repeat case_decide; set_solver.
Qed.

Lemma drop_idle_ok ps : ∀ s, NoDup ps → (∀ a, a ∈ ps → spent (bl_heap s) a) → ∃ h, drop_idle s ps =
    Ret (mkBL h (head_ptr s) (tail_ptr s) (block_num s) (idle s) (bl_dropped s)) ∧ ∀ a, h !! a = if decide (a ∈ ps) then None else bl_heap s !! a.
Proof.
  induction ps as [|p ps IH]; intros s Hnd Hsp; cbn [drop_idle].
  { exists (bl_heap s). split; [by destruct s|]. intros a. by rewrite decide_False by apply not_elem_of_nil. }
  apply NoDup_cons in Hnd as [Hp Hnd]. destruct (Hsp p) as (b & Hb & _ & Hh & Ht); [set_solver|]. rewrite (load_block_ok s p b Hb). cbn [mbind outcome_bind].
  unfold free_block, Block_drop. rewrite Hh, Ht, Nat.ltb_irrefl, andb_false_r. cbn [mbind outcome_bind]. rewrite app_nil_r.
  edestruct (IH (mkBL (delete p (bl_heap s)) (head_ptr s) (tail_ptr s) (block_num s) (idle s) (bl_dropped s)) Hnd) as (h & Hd & Hl).
  { intros a Ha. destruct (Hsp a) as (b' & Hb' & Hs'); [set_solver|]. exists b'. split; [|done]. cbn. rewrite lookup_delete_ne; [done|]. by intros ->. }
  exists h. split; [exact Hd|]. intros a. rewrite Hl. cbn. destruct (decide (a = p)) as [->|Hne]; [rewrite lookup_delete_eq|rewrite lookup_delete_ne by done];
    repeat case_decide; set_solver.
Qed.

Lemma list_drop_ok s xs d : holds s xs d → ∃ s', BlockList_drop s = Ret s' ∧ bl_heap s' = ∅ ∧ bl_dropped s' = d ++ destroyed xs.
Proof.
  intros [Hd [[(Eh & Ep & _ & _ & Ei) ->]|(addrs & hd & Hb)]]; unfold BlockList_drop.
  - rewrite Ep. cbn [drop_blocks mbind outcome_bind]. rewrite Ei. cbn. exists s. split; [done|]. split; [done|]. unfold destroyed. destruct needs_drop; by rewrite app_nil_r.
  - pose proof Hb as [Hh Ht Hn Hc (Hnd & Hdom & Hroom & Hsp)]. apply NoDup_app in Hnd as (Hnd & Hdisj & Hndi).
    destruct (drop_blocks_ok _ _ _ _ Hc Hnd (S (block_num s)) 0 s) as (h & Hdr & Hl); [lia|done|]. rewrite Hh, Hdr. cbn [mbind outcome_bind idle].
    rewrite drop_0 in Hl. edestruct (drop_idle_ok (idle s) (mkBL h (head_ptr s) (tail_ptr s) (block_num s) (idle s) (bl_dropped s ++ destroyed (drop (BLOCK_SIZE * 0 - hd) xs))) Hndi) as (h' & Hdi & Hl').
    { intros a Ha. destruct (Hsp a Ha) as (b & Hb' & Hs). exists b. split; [|done]. cbn. rewrite Hl, decide_False; [done|]. intros Hin. by apply (Hdisj a). }
    rewrite Hdi. eexists. split; [reflexivity|]. cbn. rewrite Hd. split; [|f_equal].
    + apply map_eq. intros a. rewrite Hl'. cbn. rewrite Hl, lookup_empty. repeat case_decide; [done..|]. apply not_elem_of_dom. rewrite Hdom. set_solver.
Qed.

(** ** Histories *)

Inductive BlockListOp :=
| BPush (x : T) | BPop | BFront | BSetFront (x : T) | BLen | BIsEmpty | BItems | BContains (x : T) | BMapAssign (f : T → T)
| BExtend (xs : list T) | BClear | BReplaceByClone.

Inductive BlockListAnswer :=
| BUnit | BValue (x : option T) | BNat (n : nat) | BBool (b : bool) | BList (xs : list T).

Context (eqb : T → T → bool).

(** [BReplaceByClone] is [*list = list.clone()]; the answer counts the blocks of the old
    list that were not freed. *)
Definition list_exec (s : BlockList) (op : BlockListOp) : outcome (BlockListAnswer * BlockList) :=
  match op with
  | BPush x => s ← BlockList_push_back s x; Ret (BUnit, s)
  | BPop => '(r, s) ← BlockList_pop_front s; Ret (BValue r, s)
  | BFront => r ← BlockList_front s; match r with None => Ret (BValue None, s) | Some r => x ← read_place s r; Ret (BValue (Some x), s) end
  | BSetFront x => r ← BlockList_front s; match r with None => Ret (BBool false, s) | Some r => s ← assign_place s r x; Ret (BBool true, s) end
  | BLen => n ← BlockList_len s; Ret (BNat n, s)
  | BIsEmpty => b ← BlockList_is_empty s; Ret (BBool b, s)
  | BItems => xs ← BlockList_items s; Ret (BList xs, s)
  | BContains x => b ← BlockList_contains eqb s x; Ret (BBool b, s)
  | BMapAssign f => s ← BlockList_map_assign f s; Ret (BUnit, s)
  | BExtend xs => s ← BlockList_extend s xs; Ret (BUnit, s)
  | BClear => s ← BlockList_clear s; Ret (BUnit, s)
  | BReplaceByClone =>
      c ← BlockList_clone s;
      old ← BlockList_drop s;
      Ret (BNat (size (bl_heap old)), mkBL (bl_heap c) (head_ptr c) (tail_ptr c) (block_num c) (idle c) (bl_dropped old))
  end.

(** The same on a plain list, with the values it lets go of. *)
Definition list_spec (xs : list T) (op : BlockListOp) : BlockListAnswer * list T * list T :=
  match op with
  | BPush x => (BUnit, xs ++ [x], [])
  | BPop => match xs with [] => (BValue None, [], []) | x :: xs => (BValue (Some x), xs, []) end
  | BFront => (BValue (head xs), xs, [])
  | BSetFront y => match xs with [] => (BBool false, [], []) | x :: xs => (BBool true, y :: xs, destroyed [x]) end
  | BLen => (BNat (length xs), xs, [])
  | BIsEmpty => (BBool (bool_decide (xs = [])), xs, [])
  | BItems => (BList xs, xs, [])
  | BContains x => (BBool (existsb (eqb x) xs), xs, [])
  | BMapAssign f => (BUnit, f <$> xs, destroyed xs)
  | BExtend ys => (BUnit, xs ++ ys, [])
  | BClear => (BUnit, [], destroyed xs)
  | BReplaceByClone => (BNat 0, clone_value <$> xs, destroyed xs)
  end.

Fixpoint list_run (s : BlockList) (ops : list BlockListOp) : outcome (list BlockListAnswer * BlockList) :=
  match ops with
  | [] => Ret ([], s)
  | op :: ops => '(a, s) ← list_exec s op; '(al, s) ← list_run s ops; Ret (a :: al, s)
  end.

Fixpoint list_spec_run (xs d : list T) (ops : list BlockListOp) : list BlockListAnswer * list T * list T :=
  match ops with
  | [] => ([], xs, d)
  | op :: ops => let '(a, xs, d') := list_spec xs op in let '(al, xs, d) := list_spec_run xs (d ++ d') ops in (a :: al, xs, d)
  end.

Lemma front_cases s xs d : holds s xs d → match xs with
  | [] => BlockList_front s = Ret None
  | x :: xs => ∃ r, BlockList_front s = Ret (Some r) ∧ read_place s r = Ret x ∧ ∀ y, ∃ s', assign_place s r y = Ret s' ∧ holds s' (y :: xs) (d ++ destroyed [x])
  end.
Proof.
  intros [Hd [[(_ & Ep & _) ->]|(addrs & hd & Hb)]]; [unfold BlockList_front; by rewrite Ep|]. pose proof (list_front_ok _ _ _ _ Hb) as Hf.
  destruct xs as [|x xs]; [done|]. destruct Hf as (r & Hr & Hpl). exists r. split; [done|]. split; [by eapply read_place_ok|]. intros y.
  destruct (assign_place_ok _ _ _ _ _ _ x y Hb Hpl) as (s' & Hs & Hd' & _ & Hb'); [done|]. exists s'. split; [done|]. split; [by rewrite Hd', Hd|]. right. by exists addrs, hd.
Qed.

Lemma list_replace_ok s xs d : holds s xs d → ∃ s', list_exec s BReplaceByClone = Ret (BNat 0, s') ∧ holds s' (clone_value <$> xs) (d ++ destroyed xs).
Proof.
  intros Hs. cbn [list_exec]. unfold BlockList_clone. rewrite (list_items_ok _ _ _ Hs). cbn [mbind outcome_bind].
  destruct (list_extend_ok (clone_value <$> xs) _ _ _ list_holds_new) as (c & Hc & _ & Hcs). rewrite Hc. cbn [mbind outcome_bind].
  destruct (list_drop_ok _ _ _ Hs) as (old & Ho & Hh & Hd). rewrite Ho. cbn [mbind outcome_bind]. rewrite Hh, map_size_empty. eexists. split; [reflexivity|].
  split; [done|]. destruct Hcs as [[Hu Hx]|(addrs & hd & [H1 H2 H3 H4 H5])]; [by left|]. right. exists addrs, hd. by split.
Qed.

Lemma list_exec_ok s xs d op : holds s xs d → ∃ s', list_exec s op = Ret ((list_spec xs op).1.1, s') ∧ holds s' (list_spec xs op).1.2 (d ++ (list_spec xs op).2).
Proof.
  intros Hs. assert (Hsame : holds s xs (d ++ [])) by (by rewrite app_nil_r). destruct op; cbn [list_exec list_spec fst snd]; rewrite ?app_nil_r.
  - destruct (list_push_ok _ _ _ x Hs) as (s' & -> & Hs'). by exists s'.
  - pose proof (list_pop_ok _ _ _ Hs) as Hp. destruct xs as [|x xs]; [rewrite Hp; by exists s|]. destruct Hp as (s' & -> & Hs'). exists s'. split; [done|]. cbn. by rewrite app_nil_r.
  - pose proof (front_cases _ _ _ Hs) as Hf. destruct xs as [|x xs]; [rewrite Hf; by exists s|]. destruct Hf as (r & -> & Hr & _). cbn [mbind outcome_bind]. rewrite Hr. by exists s.
  - pose proof (front_cases _ _ _ Hs) as Hf. destruct xs as [|x0 xs]; [rewrite Hf; by exists s|]. destruct Hf as (r & -> & _ & Ha). cbn [mbind outcome_bind].
    destruct (Ha x) as (s' & -> & Hs'). by exists s'.
  - rewrite (list_len_ok _ _ _ Hs). by exists s.
  - rewrite (list_is_empty_ok _ _ _ Hs). by exists s.
  - rewrite (list_items_ok _ _ _ Hs). by exists s.
  - unfold BlockList_contains. rewrite (list_items_ok _ _ _ Hs). by exists s.
  - destruct (map_assign_ok f _ _ _ Hs) as (s' & -> & Hs'). by exists s'.
  - destruct (list_extend_ok xs0 _ _ _ Hs) as (s' & -> & Hs'). by exists s'.
  - destruct (list_clear_ok _ _ _ Hs) as (s' & -> & Hs'). by exists s'.
  - apply (list_replace_ok _ _ _ Hs).
Qed.

Lemma list_run_ok ops : ∀ s xs d, holds s xs d → ∃ s', list_run s ops = Ret ((list_spec_run xs d ops).1.1, s') ∧
  holds s' (list_spec_run xs d ops).1.2 (list_spec_run xs d ops).2.
Proof.
  induction ops as [|op ops IH]; intros s xs d Hs; cbn [list_run list_spec_run]; [by exists s|].
  destruct (list_exec_ok s xs d op Hs) as (s1 & -> & H1). cbn [mbind outcome_bind]. destruct (list_spec xs op) as [[a xs1] d1]. cbn [fst snd] in *.
  destruct (IH s1 xs1 (d ++ d1) H1) as (s2 & -> & H2). destruct (list_spec_run xs1 (d ++ d1) ops) as [[al xs2] d2]. by exists s2.
Qed.
End block_list.

(** C9: A block list is a list.  Every history of pushes, pops, reads and writes through
    references and iterators, extension, clearing and cloning on a new list returns (no
    dangling pointer, no unwritten slot, no failed assertion), answers as a plain list does,
    and gives to destructors exactly the values that the list lets go of; and dropping the
    list afterwards frees every block it ever allocated and drops what is left, in order. *)
Theorem block_list_refines `{GlobalAlloc} {T} (needs_drop : bool) (clone_value : T → T) (eqb : T → T → bool) (ops : list (BlockListOp (T := T))) :
  let '(answers, xs, d) := list_spec_run needs_drop clone_value eqb [] [] ops in
  ∃ s s', list_run needs_drop clone_value eqb BlockList_new ops = Ret (answers, s) ∧ bl_dropped s = d ∧
    BlockList_drop needs_drop s = Ret s' ∧ bl_heap s' = ∅ ∧ bl_dropped s' = d ++ destroyed needs_drop xs.
Proof.
  destruct (list_run_ok needs_drop clone_value eqb ops BlockList_new [] [] list_holds_new) as (s & Hr & Hs).
  destruct (list_spec_run needs_drop clone_value eqb [] [] ops) as [[answers xs] d]. cbn [fst snd] in *.
  destruct (list_drop_ok needs_drop s xs d Hs) as (s' & Hd & Hh & Hl). exists s, s'. split; [done|]. by destruct Hs.
Qed.

(** The address after all live ones. *)
#[local] Instance bump_alloc : GlobalAlloc.
Proof.
  refine {| malloc := λ live, S (max_list (elements live)) |}. intros live Hin. apply elem_of_elements, max_list_elem_of_le in Hin. lia.
Defined.

Example block_list_reuses : (λ r, match r with Ret (_, s) => Some (elements (dom (bl_heap s)), idle s, block_num s) | _ => None end)
    (list_run true id Nat.eqb BlockList_new [BExtend (seq 0 40); BClear; BExtend (seq 0 14)]) = Some ([4; 2; 1]%nat, [1]%nat, 1%nat).
Proof. vm_compute. reflexivity. Qed.
