(* ===== verification/BloomFilter.v ===== *)
(** * Bloom filters

    [crates/voker-utils/src/extra/bloom_filter.rs]: [N] words of 64 bits, [N] a power of
    two, and [K] positions per item derived from one 64-bit hash.  The hash of an item is a
    parameter; an index past the words panics, as indexing does. *)

From Stdlib Require Import ZArith Lia.
From S2P Require Import Prelude.

Local Open Scope Z_scope.

Section bloom.
Context {A : Type}.

(** [FixedHashState.hash_one]: a 64-bit word. *)
Variable hash_one : A → Z.
Variables N K : nat.

(** [MASK]: the number of bits less one; a filter of [2^64] bits or more does not compile. *)
Definition BloomFilter_MASK : Z := Z.of_nat N * 64 - 1.

Notation BloomFilter := (list Z) (only parsing).

(** [new] does not compile unless [N] is a power of two. *)
Definition BloomFilter_new : BloomFilter := replicate N 0.

Definition wmul64 (a b : Z) : Z := (a * b) mod W64.

Definition bloom_hash (h1 h2 : Z) (i : nat) : Z := Z.land (wadd64 h1 (wmul64 h2 (Z.of_nat i))) BloomFilter_MASK.

(** The word and the bit of one position. *)
Definition bloom_index (hash : Z) : nat := Z.to_nat (Z.shiftr hash 6).
Definition bloom_bit (hash : Z) : Z := Z.shiftl 1 (Z.land hash 63).

Definition second_hash (h1 : Z) : Z := Z.lor (Z.shiftr h1 32) 1.

Fixpoint insert_loop (h1 h2 : Z) (is_ : list nat) (bits : BloomFilter) : outcome BloomFilter :=
  match is_ with
  | [] => Ret bits
  | i :: is_ =>
      let hash := bloom_hash h1 h2 i in
      match bits !! bloom_index hash with
      | None => Panic
      | Some w => insert_loop h1 h2 is_ (<[bloom_index hash := Z.lor w (bloom_bit hash)]> bits)
      end
  end.

Definition BloomFilter_insert (bits : BloomFilter) (item : A) : outcome BloomFilter :=
  let h1 := hash_one item in insert_loop h1 (second_hash h1) (seq 0 K) bits.

Definition BloomFilter_clear (bits : BloomFilter) : BloomFilter := replicate (length bits) 0.

Fixpoint contains_loop (h1 h2 : Z) (is_ : list nat) (bits : BloomFilter) : outcome bool :=
  match is_ with
  | [] => Ret true
  | i :: is_ =>
      let hash := bloom_hash h1 h2 i in
      match bits !! bloom_index hash with
      | None => Panic
      | Some w => if Z.land w (bloom_bit hash) =? 0 then Ret false else contains_loop h1 h2 is_ bits
      end
  end.

Definition BloomFilter_contains (bits : BloomFilter) (item : A) : outcome bool :=
  let h1 := hash_one item in contains_loop h1 (second_hash h1) (seq 0 K) bits.

Fixpoint checked_loop (h1 h2 : Z) (is_ : list nat) (was_present : bool) (bits : BloomFilter) : outcome (bool * BloomFilter) :=
  match is_ with
  | [] => Ret (was_present, bits)
  | i :: is_ =>
      let hash := bloom_hash h1 h2 i in
      match bits !! bloom_index hash with
      | None => Panic
      | Some segment =>
          if Z.land segment (bloom_bit hash) =? 0
          then checked_loop h1 h2 is_ false (<[bloom_index hash := Z.lor segment (bloom_bit hash)]> bits)
          else checked_loop h1 h2 is_ was_present bits
      end
  end.

Definition BloomFilter_checked_insert (bits : BloomFilter) (item : A) : outcome (bool * BloomFilter) :=
  let h1 := hash_one item in checked_loop h1 (second_hash h1) (seq 0 K) true bits.

(** ** Positions

    The set of bit positions below [64 N] that are set. *)

Definition bit_set (bits : BloomFilter) (pos : Z) : bool :=
  match bits !! Z.to_nat (Z.shiftr pos 6) with
  | Some w => Z.testbit w (Z.land pos 63)
  | None => false
  end.

Definition positions (item : A) : list Z := bloom_hash (hash_one item) (second_hash (hash_one item)) <$> seq 0 K.

Definition well_sized (bits : BloomFilter) : Prop := length bits = N ∧ Forall is_u64 bits.

Hypothesis N_pow2 : ∃ n, (n ≤ 57)%Z ∧ 0 <= n ∧ Z.of_nat N = 2 ^ n.

Lemma mask_ones : ∃ m, 6 <= m <= 64 ∧ BloomFilter_MASK = Z.ones m ∧ Z.of_nat N * 64 = 2 ^ m.
Proof.
  destruct N_pow2 as (n & H58 & H0 & Hn). exists (n + 6). split; [lia|]. assert (E : Z.of_nat N * 64 = 2 ^ (n + 6)) by (rewrite Hn, Z.pow_add_r by lia; done).
  split; [|done]. unfold BloomFilter_MASK. rewrite E, Z.ones_equiv. lia.
Qed.

Lemma position_range h1 h2 i : 0 <= bloom_hash h1 h2 i < Z.of_nat N * 64.
Proof.
  destruct mask_ones as (m & Hm & E & Hn). unfold bloom_hash. rewrite E, Z.land_ones, Hn by lia. apply Z.mod_pos_bound, Z.pow_pos_nonneg; lia.
Qed.

Lemma position_split pos : pos = 64 * (pos / 64) + Z.land pos 63 ∧ 0 <= Z.land pos 63 < 64 ∧ Z.shiftr pos 6 = pos / 64.
Proof.
  rewrite Z.shiftr_div_pow2 by lia. change 63 with (Z.ones 6). rewrite Z.land_ones by lia. change (2 ^ 6) with 64. pose proof (Z.div_mod pos 64). pose proof (Z.mod_pos_bound pos 64). lia.
Qed.

Lemma index_bound bits h1 h2 i : well_sized bits → ∃ w, bits !! bloom_index (bloom_hash h1 h2 i) = Some w.
Proof.
  intros [Hl _]. apply lookup_lt_is_Some_2. pose proof (position_range h1 h2 i). destruct (position_split (bloom_hash h1 h2 i)) as (H1 & H2 & H3).
  unfold bloom_index. rewrite H3, Hl. lia.
Qed.

Lemma testbit_one d : d ≠ 0 → Z.testbit 1 d = false.
Proof. intros Hd. destruct (Z.lt_ge_cases d 0); [by apply Z.testbit_neg_r|]. change 1 with (2 ^ 0). apply Z.pow2_bits_false. lia. Qed.

(** Testing the mask of a position is testing its bit. *)
Lemma bit_tested bits hash w : bits !! bloom_index hash = Some w → (Z.land w (bloom_bit hash) =? 0) = negb (bit_set bits hash).
Proof.
  intros Hw. unfold bit_set. fold (bloom_index hash). rewrite Hw. unfold bloom_bit. destruct (position_split hash) as (_ & H2 & _).
  destruct (Z.testbit w (Z.land hash 63)) eqn:Et; cbn.
  - apply Z.eqb_neq. intros E. apply (f_equal (λ z, Z.testbit z (Z.land hash 63))) in E. rewrite Z.land_spec, Et, Z.shiftl_spec, Z.sub_diag, Z.bits_0 in E by lia. done.
  - apply Z.eqb_eq, Z.bits_inj'. intros j Hj. rewrite Z.land_spec, Z.shiftl_spec, Z.bits_0 by lia. destruct (Z.eq_dec j (Z.land hash 63)) as [->|Hne]; [by rewrite Et|].
    apply andb_false_iff. right. apply testbit_one. lia.
Qed.

Lemma bit_inserted bits hash w pos : bits !! bloom_index hash = Some w → 0 <= pos → 0 <= hash →
  bit_set (<[bloom_index hash := Z.lor w (bloom_bit hash)]> bits) pos = bool_decide (pos = hash) || bit_set bits pos.
Proof.
  intros Hw Hp Hh. unfold bit_set. fold (bloom_index pos). destruct (position_split hash) as (H1 & H2 & H3), (position_split pos) as (P1 & P2 & P3).
  destruct (decide (bloom_index pos = bloom_index hash)) as [E|E].
  - rewrite E, list_lookup_insert_eq by (by eapply lookup_lt_Some). rewrite Hw, Z.lor_spec, orb_comm. f_equal. unfold bloom_bit. rewrite Z.shiftl_spec by lia.
    unfold bloom_index in E. rewrite H3, P3 in E. assert (pos / 64 = hash / 64) by lia. destruct (decide (pos = hash)) as [->|Hne].
    + rewrite bool_decide_true by done. by rewrite Z.sub_diag.
    + rewrite bool_decide_false by done. apply testbit_one. lia.
  - rewrite list_lookup_insert_ne by done. by rewrite bool_decide_false by (by intros ->).
Qed.

Lemma lor_u64 a b : is_u64 a → is_u64 b → is_u64 (Z.lor a b).
Proof.
  unfold is_u64. intros Ha Hb. split; [apply Z.lor_nonneg; lia|]. destruct (Z.eq_dec a 0) as [->|]; [rewrite Z.lor_0_l; lia|].
  destruct (Z.eq_dec b 0) as [->|]; [rewrite Z.lor_0_r; lia|]. change W64 with (2 ^ 64) in *.
  assert (Z.log2 a < 64) by (apply Z.log2_lt_pow2; lia). assert (Z.log2 b < 64) by (apply Z.log2_lt_pow2; lia).
  assert (Z.lor a b ≠ 0) by (intros [? ?]%Z.lor_eq_0_iff; lia). assert (0 <= Z.lor a b) by (apply Z.lor_nonneg; lia).
  apply Z.log2_lt_pow2; [lia|]. rewrite Z.log2_lor by lia. lia.
Qed.

Lemma bit_u64 hash : is_u64 (bloom_bit hash).
Proof.
  unfold bloom_bit. destruct (position_split hash) as (_ & H2 & _). rewrite Z.shiftl_1_l. split; [apply Z.pow_nonneg; lia|]. change W64 with (2 ^ 64).
  apply Z.pow_lt_mono_r; lia.
Qed.

Lemma well_sized_insert bits i w hash : well_sized bits → bits !! i = Some w → well_sized (<[i := Z.lor w (bloom_bit hash)]> bits).
Proof.
  intros [Hl Hf] Hw. split; [by rewrite length_insert|]. apply Forall_insert; [done|]. apply lor_u64; [|apply bit_u64]. by eapply Forall_lookup_1.
Qed.

(** ** Loops *)

Lemma insert_loop_ok h1 h2 is_ : ∀ bits, well_sized bits → ∃ bits', insert_loop h1 h2 is_ bits = Ret bits' ∧ well_sized bits' ∧
  ∀ pos, 0 <= pos → bit_set bits' pos = bool_decide (pos ∈ bloom_hash h1 h2 <$> is_) || bit_set bits pos.
Proof.
  induction is_ as [|i is_ IH]; intros bits Hb; cbn [insert_loop].
  { exists bits. split; [done|]. split; [done|]. intros pos _. by rewrite bool_decide_false by apply not_elem_of_nil. }
  destruct (index_bound bits h1 h2 i Hb) as [w Hw]. rewrite Hw. pose proof (position_range h1 h2 i) as Hr.
  destruct (IH _ (well_sized_insert _ _ _ (bloom_hash h1 h2 i) Hb Hw)) as (bits' & -> & Hb' & Hs). exists bits'. split; [done|]. split; [done|].
  intros pos Hp. rewrite Hs, bit_inserted by (done || lia). rewrite fmap_cons. destruct (bit_set bits pos); [by rewrite !orb_true_r|]. rewrite !orb_false_r.
  rewrite <- bool_decide_or. apply bool_decide_ext. rewrite elem_of_cons. tauto.
Qed.

Lemma contains_loop_ok h1 h2 is_ bits : well_sized bits → contains_loop h1 h2 is_ bits = Ret (forallb (bit_set bits) (bloom_hash h1 h2 <$> is_)).
Proof.
  intros Hb. induction is_ as [|i is_ IH]; cbn [contains_loop]; [done|]. destruct (index_bound bits h1 h2 i Hb) as [w Hw]. rewrite Hw, (bit_tested _ _ _ Hw), IH.
  rewrite fmap_cons. cbn [forallb]. by destruct (bit_set bits (bloom_hash h1 h2 i)).
Qed.

(** The single pass answers what [contains] does and leaves what [insert] does. *)
Lemma checked_loop_ok h1 h2 is_ : ∀ bits was, well_sized bits → ∃ bits', insert_loop h1 h2 is_ bits = Ret bits' ∧
  checked_loop h1 h2 is_ was bits = Ret (was && forallb (bit_set bits) (bloom_hash h1 h2 <$> is_), bits').
Proof.
  induction is_ as [|i is_ IH]; intros bits was Hb; cbn [checked_loop insert_loop]; [exists bits; by rewrite andb_true_r|].
  destruct (index_bound bits h1 h2 i Hb) as [w Hw]. rewrite Hw, (bit_tested _ _ _ Hw), fmap_cons. cbn [forallb].
  pose proof (well_sized_insert _ _ _ (bloom_hash h1 h2 i) Hb Hw) as Hb1. destruct (bit_set bits (bloom_hash h1 h2 i)) eqn:Es; cbn [negb].
  - destruct (IH bits was Hb) as (bits' & Hi & Hc). exists bits'. rewrite andb_true_l. split; [|done]. rewrite <- Hi. f_equal.
    apply list_insert_id. rewrite Hw. f_equal. apply Z.bits_inj'. intros j Hj. rewrite Z.lor_spec. unfold bit_set in Es. fold (bloom_index (bloom_hash h1 h2 i)) in Es.
    rewrite Hw in Es. destruct (position_split (bloom_hash h1 h2 i)) as (_ & H2 & _). unfold bloom_bit. rewrite Z.shiftl_spec by done.
    destruct (Z.eq_dec j (Z.land (bloom_hash h1 h2 i) 63)) as [->|]; [by rewrite Es|]. by rewrite testbit_one, orb_false_r by lia.
  - destruct (IH _ false Hb1) as (bits' & Hi & Hc). exists bits'. split; [done|]. by rewrite Hc, andb_false_r.
Qed.

(** ** Histories *)

Inductive BloomOp := FInsert (x : A) | FChecked (x : A) | FContains (x : A) | FClear.

Definition bloom_exec (bits : BloomFilter) (op : BloomOp) : outcome (option bool * BloomFilter) :=
  match op with
  | FInsert x => bits ← BloomFilter_insert bits x; Ret (None, bits)
  | FChecked x => '(b, bits) ← BloomFilter_checked_insert bits x; Ret (Some b, bits)
  | FContains x => b ← BloomFilter_contains bits x; Ret (Some b, bits)
  | FClear => Ret (None, BloomFilter_clear bits)
  end.

Fixpoint bloom_run (bits : BloomFilter) (ops : list BloomOp) : outcome (list (option bool) * BloomFilter) :=
  match ops with
  | [] => Ret ([], bits)
  | op :: ops => '(a, bits) ← bloom_exec bits op; '(al, bits) ← bloom_run bits ops; Ret (a :: al, bits)
  end.

(** An item counts as present when each of its positions is one of an item inserted since
    the last clearing. *)
Definition covered (items : list A) (x : A) : bool := forallb (λ p, existsb (λ y, bool_decide (p ∈ positions y)) items) (positions x).

Definition bloom_spec (items : list A) (op : BloomOp) : option bool * list A :=
  match op with
  | FInsert x => (None, x :: items)
  | FChecked x => (Some (covered items x), x :: items)
  | FContains x => (Some (covered items x), items)
  | FClear => (None, [])
  end.

Fixpoint bloom_spec_run (items : list A) (ops : list BloomOp) : list (option bool) * list A :=
  match ops with
  | [] => ([], items)
  | op :: ops => let '(a, items) := bloom_spec items op in let '(al, items) := bloom_spec_run items ops in (a :: al, items)
  end.

Definition represents (bits : BloomFilter) (items : list A) : Prop :=
  well_sized bits ∧ ∀ pos, 0 <= pos → bit_set bits pos = existsb (λ y, bool_decide (pos ∈ positions y)) items.

Lemma represents_zero n : n = N → represents (replicate n 0) [].
Proof.
  intros ->. split; [split; [apply length_replicate|]|].
  - apply Forall_replicate. split; lia.
  - intros pos _. unfold bit_set. cbn. destruct (replicate N 0 !! _) as [w|] eqn:Ew; [|done]. apply lookup_replicate in Ew as [-> _]. apply Z.bits_0.
Qed.

Lemma covered_bits bits items x : represents bits items → forallb (bit_set bits) (positions x) = covered items x.
Proof.
  intros [_ Hs]. unfold covered. assert (Hp : Forall (λ p, 0 <= p) (positions x)).
  { apply Forall_forall. intros p (i & -> & _)%list_elem_of_fmap. apply position_range. }
  induction Hp as [|p ps Hp _ IH]; [done|]. cbn [forallb]. by rewrite IH, Hs.
Qed.

Lemma represents_insert bits items x : represents bits items → ∃ bits', BloomFilter_insert bits x = Ret bits' ∧ represents bits' (x :: items).
Proof.
  intros [Hb Hs]. unfold BloomFilter_insert. destruct (insert_loop_ok (hash_one x) (second_hash (hash_one x)) (seq 0 K) bits Hb) as (bits' & -> & Hb' & Hs').
  exists bits'. split; [done|]. split; [done|]. intros pos Hp. rewrite Hs', Hs by done. done.
Qed.

Lemma bloom_exec_ok bits items op : represents bits items → ∃ bits', bloom_exec bits op = Ret ((bloom_spec items op).1, bits') ∧ represents bits' (bloom_spec items op).2.
Proof.
  intros Hr. pose proof Hr as [Hb _]. destruct op as [x|x|x|]; cbn [bloom_exec bloom_spec fst snd].
  - destruct (represents_insert _ _ x Hr) as (bits' & -> & Hr'). by exists bits'.
  - destruct (represents_insert _ _ x Hr) as (bits' & Hi & Hr'). unfold BloomFilter_checked_insert.
    destruct (checked_loop_ok (hash_one x) (second_hash (hash_one x)) (seq 0 K) bits true Hb) as (bits2 & Hi2 & ->). unfold BloomFilter_insert in Hi.
    assert (bits2 = bits') as -> by congruence. exists bits'. cbn [mbind outcome_bind]. rewrite andb_true_l. fold (positions x). by rewrite (covered_bits _ _ _ Hr).
  - unfold BloomFilter_contains. rewrite contains_loop_ok by done. fold (positions x). rewrite (covered_bits _ _ _ Hr). by exists bits.
  - exists (BloomFilter_clear bits). split; [done|]. apply represents_zero, Hb.
Qed.

Lemma bloom_run_ok ops : ∀ bits items, represents bits items → ∃ bits', bloom_run bits ops = Ret ((bloom_spec_run items ops).1, bits') ∧ represents bits' (bloom_spec_run items ops).2.
Proof.
  induction ops as [|op ops IH]; intros bits items Hr; cbn [bloom_run bloom_spec_run]; [by exists bits|].
  destruct (bloom_exec_ok bits items op Hr) as (b1 & -> & H1). cbn [mbind outcome_bind]. destruct (bloom_spec items op) as [a i1]. cbn [fst snd] in *.
  destruct (IH b1 i1 H1) as (b2 & -> & H2). destruct (bloom_spec_run i1 ops) as [al i2]. by exists b2.
Qed.

Lemma covered_member items x : x ∈ items → covered items x = true.
Proof.
  intros Hx. unfold covered. apply forallb_forall. intros p Hp. apply existsb_exists. exists x. split; [by apply list_elem_of_In|].
  apply bool_decide_true. by apply list_elem_of_In.
Qed.
End bloom.

(** C40: A Bloom filter of any power-of-two size never panics and never forgets.  After any
    history, an item inserted since the last clearing is found; and every answer of
    [contains] and [checked_insert] is exactly whether each position of the item was set by
    an item inserted since then, so that the single pass of [checked_insert] is [contains]
    followed by [insert]. *)
Theorem bloom_filter_exact {A} (hash_one : A → Z) (N K : nat) (ops : list (BloomOp (A := A))) :
  (∃ n, n <= 57 ∧ 0 <= n ∧ Z.of_nat N = 2 ^ n) →
  let '(answers, items) := bloom_spec_run hash_one N K [] ops in
  ∃ bits, bloom_run hash_one N K (BloomFilter_new N) ops = Ret (answers, bits) ∧ length bits = N ∧ Forall is_u64 bits ∧
    ∀ x, x ∈ items → BloomFilter_contains hash_one N K bits x = Ret true.
Proof.
  intros HN. destruct (bloom_run_ok hash_one N K HN ops (BloomFilter_new N) [] (represents_zero _ _ _ _ eq_refl)) as (bits & Hr & Hrep).
  destruct (bloom_spec_run hash_one N K [] ops) as [answers items]. cbn [fst snd] in *. exists bits. split; [done|]. pose proof Hrep as [[Hl Hf] _]. split; [done|]. split; [done|].
  intros x Hx. destruct (bloom_exec_ok hash_one N K HN bits items (FContains x) Hrep) as (b & He & _). cbn in He.
  rewrite (covered_member hash_one N K items x Hx) in He. destruct (BloomFilter_contains hash_one N K bits x); cbn in He; congruence.
Qed.

Definition ex_bloom_hash (x : Z) : Z := (x * 11400714819323198485) mod W64.
Definition ex_bloom_ops : list (BloomOp (A := Z)) := [FInsert 1; FChecked 2; FChecked 2; FContains 3; FClear; FContains 1; FInsert 7].

Lemma bloom_filter_exact_witness : ∃ bits, bloom_run ex_bloom_hash 2 2 (BloomFilter_new 2) ex_bloom_ops =
    Ret ([None; Some false; Some true; Some false; None; Some false; None], bits) ∧ BloomFilter_contains ex_bloom_hash 2 2 bits 7 = Ret true.
Proof.
  pose proof (bloom_filter_exact ex_bloom_hash 2 2 ex_bloom_ops) as Hb. specialize (Hb ltac:(exists 1; repeat split; lia)).
  vm_compute (bloom_spec_run _ _ _ _ _) in Hb. destruct Hb as (bits & Hr & _ & _ & Hc). exists bits. split; [exact Hr|]. apply Hc. by apply elem_of_cons; left.
Defined.
