(* ===== verification/PagePool.v ===== *)
(** * Bump allocation in pages

    [crates/voker-utils/src/extra/page_pool.rs]: a pool hands out parts of the last page it
    allocated and starts a new page when the request does not fit.  An address is an
    integer of 64 bits; what the system allocator returns for a page is an argument of the
    operation ([malloc_ok] is what it promises).  Overflow of [usize] arithmetic is a panic,
    overflow of pointer arithmetic and an invalid layout are undefined. *)

From Stdlib Require Import ZArith Lia.
From S2P Require Import Prelude.

Local Open Scope Z_scope.

Record Layout := mkLayout { l_size : Z; l_align : Z }.

Record Page := mkPage { pg_layout : Layout; pg_data : Z; pg_span : Z }.

(** Pages in the order they were allocated. *)
Notation PagePool := (list Page) (only parsing).

Definition PagePool_new : PagePool := [].

(** [usize] addition, and [byte_add]. *)
Definition usize_add (a b : Z) : outcome Z := if a + b <=? u64_max then Ret (a + b) else Panic.
Definition byte_add (p n : Z) : outcome Z := if p + n <=? u64_max then Ret (p + n) else Undefined.

(** [(addr + mask) & !mask] with [mask = align - 1]. *)
Definition align_up (addr align : Z) : outcome Z :=
  sum ← usize_add addr (align - 1);
  Ret (Z.land sum (not64 (align - 1))).

(** [next_power_of_two]. *)
Definition size_pow2 (x : Z) : outcome Z :=
  let p := if x <=? 1 then 1 else 2 ^ (Z.log2 (x - 1) + 1) in
  if p <=? u64_max then Ret p else Panic.

Definition isize_max : Z := 9223372036854775807.

(** The layout of the page [alloc_layout_slow] asks for; [from_size_align_unchecked] takes
    sizes up to [isize::MAX]. *)
Definition page_layout (PAGE_SIZE : Z) (l : Layout) : outcome Layout :=
  page_size ← size_pow2 (Z.max PAGE_SIZE (l_size l));
  page_size ← align_up page_size (l_align l);
  if page_size <=? isize_max then Ret (mkLayout page_size (l_align l)) else Undefined.

(** [malloc] is the system allocator; a null pointer ends the program. *)
Definition alloc_layout_slow (PAGE_SIZE : Z) (pages : PagePool) (l : Layout) (malloc : Layout → Z) : outcome (Z * PagePool) :=
  pl ← page_layout PAGE_SIZE l;
  let data := malloc pl in
  if data =? 0 then Panic
  else span ← byte_add data (l_size l); Ret (data, pages ++ [mkPage pl data span]).

Definition PagePool_alloc (PAGE_SIZE : Z) (pages : PagePool) (l : Layout) (malloc : Layout → Z) : outcome (Z * PagePool) :=
  match last pages with
  | Some page =>
      aligned_addr ← align_up (pg_span page) (l_align l);
      new_span ← byte_add aligned_addr (l_size l);
      page_end ← byte_add (pg_data page) (l_size (pg_layout page));
      if new_span <=? page_end
      then Ret (aligned_addr, removelast pages ++ [mkPage (pg_layout page) (pg_data page) new_span])
      else alloc_layout_slow PAGE_SIZE pages l malloc
  | None => alloc_layout_slow PAGE_SIZE pages l malloc
  end.

(** ** Specification *)

(** Half of what a [Layout] may be: the page of a larger one would not be valid. *)
Definition size_bound : Z := 2 ^ 62.

Definition layout_ok (l : Layout) : Prop := 0 <= l_size l <= size_bound ∧ ∃ k, 0 <= k <= 62 ∧ l_align l = 2 ^ k.

(** Two ranges of addresses share no address. *)
Definition apart (a n b m : Z) : Prop := a + n <= b ∨ b + m <= a ∨ n = 0 ∨ m = 0.

(** The system allocator: null, or an aligned range in the lower half of the address space
    apart from the live ones. *)
Definition malloc_ok (pages : PagePool) (l : Layout) (addr : Z) : Prop :=
  addr = 0 ∨ 0 < addr ∧ addr + l_size l <= 2 ^ 63 ∧ (l_align l | addr) ∧ Forall (λ p, apart addr (l_size l) (pg_data p) (l_size (pg_layout p))) pages.

(** Pages are apart, and every range handed out lies in a page below its span, aligned and
    apart from the others. *)
Record pool_ok (pages : PagePool) (given : list (Z * Layout)) : Prop := {
  po_pages : ∀ i j p q, pages !! i = Some p → pages !! j = Some q → i ≠ j → apart (pg_data p) (l_size (pg_layout p)) (pg_data q) (l_size (pg_layout q));
  po_span : ∀ p, p ∈ pages → 0 < pg_data p ∧ pg_data p <= pg_span p <= pg_data p + l_size (pg_layout p) ∧ pg_data p + l_size (pg_layout p) <= 2 ^ 63;
  po_in : ∀ a l, (a, l) ∈ given → 0 <= l_size l ∧ (l_align l | a) ∧ ∃ p, p ∈ pages ∧ pg_data p <= a ∧ a + l_size l <= pg_span p;
  po_apart : ∀ i j a l b m, given !! i = Some (a, l) → given !! j = Some (b, m) → i ≠ j → apart a (l_size l) b (l_size m)
}.

(** ** Alignment *)

Lemma low_bits_clear k x : 0 <= k <= 62 → 0 <= x <= u64_max → Z.land x (not64 (2 ^ k - 1)) = x / 2 ^ k * 2 ^ k.
Proof.
  intros Hk Hx. replace (2 ^ k - 1) with (Z.ones k) by (rewrite Z.ones_equiv; lia). unfold not64. change u64_max with (Z.ones 64) in *.
  assert (Hone : 0 <= Z.ones k < 2 ^ 63).
  { rewrite Z.ones_equiv. pose proof (Z.pow_pos_nonneg 2 k). pose proof (Z.pow_le_mono_r 2 k 62 ltac:(lia) ltac:(lia)). lia. }
  assert (Hlog : Z.log2 (Z.ones k) < 64).
  { destruct (decide (Z.ones k = 0)) as [->|Hn]; [done|]. apply Z.log2_lt_pow2; lia. }
  rewrite Z.lxor_comm, <- Z.ldiff_ones_l_low by lia.
  assert (Z.land x (Z.ldiff (Z.ones 64) (Z.ones k)) = Z.ldiff (Z.land x (Z.ones 64)) (Z.ones k)) as ->.
  { apply Z.bits_inj'. intros n _. by rewrite Z.land_spec, !Z.ldiff_spec, Z.land_spec, andb_assoc. }
  rewrite Z.land_ones, Z.mod_small by (rewrite Z.ones_equiv in Hx; lia).
  by rewrite Z.ldiff_ones_r, Z.shiftl_mul_pow2, Z.shiftr_div_pow2 by lia.
Qed.

Lemma align_up_spec addr align : 0 <= addr <= 2 ^ 63 → (∃ k, 0 <= k <= 62 ∧ align = 2 ^ k) →
  ∃ a, align_up addr align = Ret a ∧ addr <= a < addr + align ∧ (align | a) ∧ align <= size_bound.
Proof.
  intros Ha (k & Hk & ->). assert (0 < 2 ^ k) by (apply Z.pow_pos_nonneg; lia). assert (2 ^ k <= 2 ^ 62) by (apply Z.pow_le_mono_r; lia).
  unfold align_up, usize_add. rewrite (proj2 (Z.leb_le _ _)) by (change u64_max with (2 ^ 64 - 1); lia). cbn [mbind outcome_bind].
  rewrite low_bits_clear by (change u64_max with (2 ^ 64 - 1); lia). eexists. split; [done|].
  pose proof (Z.div_mod (addr + (2 ^ k - 1)) (2 ^ k)). pose proof (Z.mod_pos_bound (addr + (2 ^ k - 1)) (2 ^ k)). split; [lia|]. split; [apply Z.divide_factor_r|done].
Qed.

Lemma size_pow2_spec x : x <= size_bound → ∃ j, size_pow2 x = Ret (2 ^ j) ∧ 0 <= j <= 62 ∧ x <= 2 ^ j.
Proof.
  intros Hx. unfold size_pow2. destruct (Z.leb_spec x 1) as [H1|H1]; [exists 0; by split_and!|].
  pose proof (Z.log2_spec (x - 1) ltac:(lia)) as Hl. pose proof (Z.log2_nonneg (x - 1)) as Hn. rewrite <- Z.add_1_r in Hl.
  assert (Z.log2 (x - 1) < 62) by (apply Z.log2_lt_pow2; unfold size_bound in Hx; lia).
  exists (Z.log2 (x - 1) + 1). pose proof (Z.pow_le_mono_r 2 (Z.log2 (x - 1) + 1) 62 ltac:(lia) ltac:(lia)).
  rewrite (proj2 (Z.leb_le _ _)) by (change u64_max with (2 ^ 64 - 1); lia). split; [done|]. lia.
Qed.

Lemma page_layout_fits PAGE_SIZE l : PAGE_SIZE <= size_bound → layout_ok l →
  ∃ pl, page_layout PAGE_SIZE l = Ret pl ∧ l_size l <= l_size pl ∧ l_align pl = l_align l ∧ layout_ok pl.
Proof.
  intros HP [Hs Ha]. unfold page_layout. destruct (size_pow2_spec (Z.max PAGE_SIZE (l_size l))) as (j & -> & Hj & Hge); [lia|]. cbn [mbind outcome_bind].
  pose proof (Z.pow_pos_nonneg 2 j). pose proof (Z.pow_le_mono_r 2 j 62 ltac:(lia) ltac:(lia)) as Hle.
  destruct (align_up_spec (2 ^ j) (l_align l)) as (a & -> & Hr & Hdiv & Hab); [lia|done|]. cbn [mbind outcome_bind].
  assert (Hbound : a <= size_bound).
  { destruct Ha as (k & Hk & Ek). unfold size_bound in *. assert (0 < l_align l) as Hpos by (rewrite Ek; apply Z.pow_pos_nonneg; lia).
    destruct Hdiv as [q ->]. destruct (decide (j <= k)) as [Hjk|Hjk].
    - pose proof (Z.pow_le_mono_r 2 j k ltac:(lia) ltac:(lia)) as Hp. rewrite <- Ek in Hp. assert (q < 2) by nia. nia.
    - assert (l_align l | 2 ^ j) as [q0 Hq] by (rewrite Ek; exists (2 ^ (j - k)); rewrite <- Z.pow_add_r by lia; f_equal; lia).
      rewrite Hq in Hr, Hle. assert (q < q0 + 1) by nia. nia. }
  rewrite (proj2 (Z.leb_le _ _)) by (unfold size_bound in Hbound; unfold isize_max; lia). eexists. split; [done|]. cbn. split; [lia|]. split; [done|]. split; [cbn; lia|done].
Qed.

(** ** Allocation *)

Lemma apart_within A N B M a n b m : apart A N B M → A <= a → a + n <= A + N → B <= b → b + m <= B + M → 0 <= n → 0 <= m → apart a n b m.
Proof. unfold apart. lia. Qed.

Lemma apart_sym a n b m : apart a n b m → apart b m a n.
Proof. unfold apart. lia. Qed.

(** A new range that is in a page and apart from those given. *)
Lemma pool_give pages given a l : (∀ b m, (b, m) ∈ given → apart b (l_size m) a (l_size l)) → 0 <= l_size l → (l_align l | a) →
  (∃ p, p ∈ pages ∧ pg_data p <= a ∧ a + l_size l <= pg_span p) → pool_ok pages given → pool_ok pages (given ++ [(a, l)]).
Proof.
  intros Hap Hl Hal Hp [H1 H2 H3 H4]. split; [done|done| |].
  - intros b m [Hin|[= -> ->]%list_elem_of_singleton]%elem_of_app; [by apply H3|done].
  - intros i j b m c n Hi Hj Hne. apply lookup_app_Some in Hi, Hj.
    destruct Hi as [Hi|[Hi Hi']], Hj as [Hj|[Hj Hj']]; [by eapply H4| | |].
    + apply list_lookup_singleton_Some in Hj' as [_ [= <- <-]]. apply Hap. by eapply list_elem_of_lookup_2.
    + apply list_lookup_singleton_Some in Hi' as [_ [= <- <-]]. apply apart_sym, Hap. by eapply list_elem_of_lookup_2.
    + apply list_lookup_singleton_Some in Hi' as [E _], Hj' as [E' _]. lia.
Qed.

(** Raising the span of the last page. *)
Lemma pool_raise pages page span given : pool_ok (pages ++ [page]) given → pg_span page <= span <= pg_data page + l_size (pg_layout page) →
  pool_ok (pages ++ [mkPage (pg_layout page) (pg_data page) span]) given.
Proof.
  intros [H1 H2 H3 H4] Hs. split; [| | |done].
  - assert (Hback : ∀ i p, (pages ++ [mkPage (pg_layout page) (pg_data page) span]) !! i = Some p →
      ∃ p', (pages ++ [page]) !! i = Some p' ∧ pg_data p' = pg_data p ∧ pg_layout p' = pg_layout p).
    { intros i p [Hi|[Hi Hp]]%lookup_app_Some; [exists p; split; [by apply lookup_app_l_Some|done]|].
      apply list_lookup_singleton_Some in Hp as [Hi' <-]. exists page. split; [|done]. rewrite lookup_app_r by lia. by rewrite Hi'. }
    intros i j p q (p' & Hp & Ep & Elp)%Hback (q' & Hq & Eq & Elq)%Hback Hne. rewrite <- Ep, <- Eq, <- Elp, <- Elq. by eapply H1.
  - intros p [Hp| ->%list_elem_of_singleton]%elem_of_app; [apply H2; set_solver|]. cbn. pose proof (H2 page ltac:(apply elem_of_app; right; by apply list_elem_of_singleton)). lia.
  - intros a l Hin. destruct (H3 a l Hin) as (Hl & Ha & p & Hp & Hd & He). split; [done|]. split; [done|].
    apply elem_of_app in Hp as [Hp| ->%list_elem_of_singleton]; [exists p; set_solver|]. eexists. split; [apply elem_of_app; right; by apply list_elem_of_singleton|]. cbn. lia.
Qed.

Lemma pool_grow pages given page : pool_ok pages given →
  0 < pg_data page ∧ pg_data page <= pg_span page <= pg_data page + l_size (pg_layout page) ∧ pg_data page + l_size (pg_layout page) <= 2 ^ 63 →
  Forall (λ p, apart (pg_data page) (l_size (pg_layout page)) (pg_data p) (l_size (pg_layout p))) pages → pool_ok (pages ++ [page]) given.
Proof.
  intros [H1 H2 H3 H4] Hs Hf. rewrite Forall_forall in Hf. split; [| | |done].
  - intros i j p q Hi Hj Hne. apply lookup_app_Some in Hi, Hj. destruct Hi as [Hi|[Hi Hi']], Hj as [Hj|[Hj Hj']]; [by eapply H1| | |].
    + apply list_lookup_singleton_Some in Hj' as [_ <-]. apply apart_sym, Hf. by eapply list_elem_of_lookup_2.
    + apply list_lookup_singleton_Some in Hi' as [_ <-]. apply Hf. by eapply list_elem_of_lookup_2.
    + apply list_lookup_singleton_Some in Hi' as [E _], Hj' as [E' _]. lia.
  - intros p [Hp| ->%list_elem_of_singleton]%elem_of_app; [by apply H2|done].
  - intros a l Hin. destruct (H3 a l Hin) as (? & ? & p & Hp & ?). split; [done|]. split; [done|]. exists p. split; [set_solver|done].
Qed.

(** A range given before is apart from a range in another page, or past the span of its own. *)
Lemma given_apart pages given b m i p a n : pool_ok pages given → (b, m) ∈ given → pages !! i = Some p → pg_span p <= a → a + n <= pg_data p + l_size (pg_layout p) → 0 <= n →
  apart b (l_size m) a n.
Proof.
  intros [H1 H2 H3 H4] Hin Hi Ha Hn H0. destruct (H3 b m Hin) as (Hm & _ & q & Hq & Hd & He). pose proof (H2 q Hq) as Hsq. pose proof (H2 p) as Hsp.
  specialize (Hsp ltac:(by eapply list_elem_of_lookup_2)). apply list_elem_of_lookup_1 in Hq as [j Hj]. destruct (decide (i = j)) as [->|Hne].
  - assert (p = q) as -> by congruence. unfold apart. lia.
  - apply (apart_within _ _ _ _ b (l_size m) a n (H1 j i q p Hj Hi ltac:(done))); lia.
Qed.

Lemma slow_ok PAGE_SIZE pages given l sys : PAGE_SIZE <= size_bound → pool_ok pages given → layout_ok l →
  (∀ pl, layout_ok pl → malloc_ok pages pl (sys pl)) →
  (∃ a pages', alloc_layout_slow PAGE_SIZE pages l sys = Ret (a, pages') ∧ pool_ok pages' (given ++ [(a, l)])) ∨
  (alloc_layout_slow PAGE_SIZE pages l sys = Panic ∧ ∃ pl, sys pl = 0).
Proof.
  intros HP Hok Hl Hsys. pose proof Hl as [Hs _]. unfold alloc_layout_slow.
  destruct (page_layout_fits PAGE_SIZE l HP Hl) as (pl & -> & Hfit & Hal & Hpl). cbn [mbind outcome_bind].
  destruct (Hsys pl Hpl) as [Hnull|(Hm0 & Hmax & Hmd & Hmf)]; [right; rewrite Hnull; eauto|left]. pose proof Hpl as [Hps _]. rewrite (proj2 (Z.eqb_neq _ 0)) by lia. unfold byte_add.
  rewrite (proj2 (Z.leb_le _ _)) by (change u64_max with (2 ^ 64 - 1); lia). cbn [mbind outcome_bind]. eexists _, _. split; [done|].
  apply pool_give; [|lia|by rewrite <- Hal| |].
  - intros b n Hin. destruct (po_in _ _ Hok b n Hin) as (Hn & _ & p & Hp & Hd & He). pose proof (po_span _ _ Hok p Hp). apply apart_sym.
    rewrite Forall_forall in Hmf. apply (apart_within _ _ _ _ _ _ _ _ (Hmf p Hp)); lia.
  - eexists. split; [apply elem_of_app; right; by apply list_elem_of_singleton|]. cbn. lia.
  - apply pool_grow; [done|cbn [pg_data pg_span pg_layout]; lia|done].
Qed.

Lemma alloc_ok PAGE_SIZE pages given l sys : PAGE_SIZE <= size_bound → pool_ok pages given → layout_ok l →
  (∀ pl, layout_ok pl → malloc_ok pages pl (sys pl)) →
  (∃ a pages', PagePool_alloc PAGE_SIZE pages l sys = Ret (a, pages') ∧ pool_ok pages' (given ++ [(a, l)])) ∨
  (PagePool_alloc PAGE_SIZE pages l sys = Panic ∧ ∃ pl, sys pl = 0).
Proof.
  intros HP Hok Hl Hsys. pose proof (slow_ok PAGE_SIZE pages given l sys HP Hok Hl Hsys) as Hslow. pose proof Hl as [Hs Hal].
  unfold PagePool_alloc. destruct (last pages) as [page|] eqn:El; [|done]. apply last_Some in El as [pre ->]. rewrite removelast_last.
  pose proof (po_span _ _ Hok page ltac:(apply elem_of_app; right; by apply list_elem_of_singleton)) as Hsp.
  destruct (align_up_spec (pg_span page) (l_align l)) as (a & -> & Hr & Hdiv & Hab); [lia|done|]. cbn [mbind outcome_bind]. unfold byte_add.
  change u64_max with (2 ^ 64 - 1). unfold size_bound in *. rewrite !(proj2 (Z.leb_le _ (2 ^ 64 - 1))) by lia. cbn [mbind outcome_bind].
  destruct (Z.leb_spec (a + l_size l) (pg_data page + l_size (pg_layout page))) as [Hle|_]; [|done].
  left. eexists _, _. split; [done|]. apply pool_give; [|lia|done| |].
  - intros b n Hin. eapply (given_apart _ _ b n (length pre) page); [exact Hok|done| |lia|lia|lia]. rewrite lookup_app_r, Nat.sub_diag by lia. done.
  - eexists. split; [apply elem_of_app; right; by apply list_elem_of_singleton|]. cbn. lia.
  - apply pool_raise; [done|lia].
Qed.

(** ** Slices

    [alloc_slice] (and [alloc_str], [alloc_value]) copies the bytes of its argument to the
    range it allocates. *)

Fixpoint write_bytes (mem : gmap Z Z) (a : Z) (bytes : list Z) : gmap Z Z :=
  match bytes with
  | [] => mem
  | b :: bytes => write_bytes (<[a := b]> mem) (a + 1) bytes
  end.

Definition read_bytes (mem : gmap Z Z) (a : Z) (n : nat) : option (list Z) := mapM (λ i, mem !! (a + Z.of_nat i)) (seq 0 n).

Definition PagePool_alloc_slice (PAGE_SIZE : Z) (pages : PagePool) (mem : gmap Z Z) (align : Z) (bytes : list Z) (malloc : Layout → Z)
    : outcome (Z * PagePool * gmap Z Z) :=
  '(a, pages) ← PagePool_alloc PAGE_SIZE pages (mkLayout (Z.of_nat (length bytes)) align) malloc;
  Ret (a, pages, write_bytes mem a bytes).

Lemma write_bytes_lookup bytes : ∀ mem a x, write_bytes mem a bytes !! x =
  if decide (a <= x < a + Z.of_nat (length bytes)) then bytes !! Z.to_nat (x - a) else mem !! x.
Proof.
  induction bytes as [|b bytes IH]; intros mem a x; cbn [write_bytes length]; [by rewrite decide_False by lia|]. rewrite IH.
  destruct (decide (x = a)) as [->|Hne].
  - rewrite decide_False, decide_True, lookup_insert_eq, Z.sub_diag by lia. done.
  - rewrite lookup_insert_ne by done. destruct (decide (a + 1 <= x < a + 1 + Z.of_nat (length bytes))).
    + rewrite decide_True by lia. by replace (Z.to_nat (x - a)) with (S (Z.to_nat (x - (a + 1)))) by lia.
    + by rewrite decide_False by lia.
Qed.

Lemma read_bytes_ok mem a bytes : read_bytes mem a (length bytes) = Some bytes ↔ ∀ i, (i < length bytes)%nat → mem !! (a + Z.of_nat i) = bytes !! i.
Proof.
  unfold read_bytes. rewrite mapM_Some, Forall2_lookup. split.
  - intros Hf i Hi. specialize (Hf i). rewrite lookup_seq_lt in Hf by done. cbn in Hf. destruct (lookup_lt_is_Some_2 bytes i Hi) as [b Hb]. rewrite Hb in *. by inversion Hf.
  - intros Hf i. destruct (decide (i < length bytes)%nat) as [Hi|Hi].
    + rewrite lookup_seq_lt by done. cbn. destruct (lookup_lt_is_Some_2 bytes i Hi) as [b Hb]. rewrite Hb. constructor. by rewrite Hf.
    + rewrite lookup_seq_ge, (proj2 (lookup_ge_None bytes i)) by lia. constructor.
Qed.

(** Bytes apart from a write stay. *)
Lemma read_bytes_frame mem a bytes b bytes' : apart b (Z.of_nat (length bytes')) a (Z.of_nat (length bytes)) →
  read_bytes mem b (length bytes') = Some bytes' → read_bytes (write_bytes mem a bytes) b (length bytes') = Some bytes'.
Proof.
  rewrite !read_bytes_ok. intros Hap Hr i Hi. rewrite write_bytes_lookup, decide_False; [by apply Hr|]. unfold apart in Hap. lia.
Qed.

Lemma read_bytes_written mem a bytes : read_bytes (write_bytes mem a bytes) a (length bytes) = Some bytes.
Proof.
  apply read_bytes_ok. intros i Hi. rewrite write_bytes_lookup, decide_True by lia. f_equal. lia.
Qed.

(** ** Histories *)

Section history.

(** The system allocator, and what it promises. *)
Variable PAGE_SIZE : Z.
Variable sys : PagePool → Layout → Z.

(** Allocates slices one after another; the result is where each one went. *)
Fixpoint slices_run (pages : PagePool) (mem : gmap Z Z) (reqs : list (Z * list Z)) : outcome (list Z * PagePool * gmap Z Z) :=
  match reqs with
  | [] => Ret ([], pages, mem)
  | (align, bytes) :: reqs =>
      '(a, pages, mem) ← PagePool_alloc_slice PAGE_SIZE pages mem align bytes (sys pages);
      '(al, pages, mem) ← slices_run pages mem reqs;
      Ret (a :: al, pages, mem)
  end.

Hypothesis page_bound : PAGE_SIZE <= size_bound.
Hypothesis sys_ok : ∀ pages l, layout_ok l → malloc_ok pages l (sys pages l).

Definition req_layout (r : Z * list Z) : Layout := mkLayout (Z.of_nat (length r.2)) r.1.

(** The slices given so far, with their contents. *)
Definition given_of (done_ : list (Z * (Z * list Z))) : list (Z * Layout) := (λ x, (x.1, req_layout x.2)) <$> done_.

Definition stored (mem : gmap Z Z) (done_ : list (Z * (Z * list Z))) : Prop :=
  ∀ a align bytes, (a, (align, bytes)) ∈ done_ → read_bytes mem a (length bytes) = Some bytes.

Lemma slices_run_ok reqs : ∀ pages mem done_, Forall (λ r, layout_ok (req_layout r)) reqs → pool_ok pages (given_of done_) → stored mem done_ →
  (∃ addrs pages' mem', slices_run pages mem reqs = Ret (addrs, pages', mem') ∧
   length addrs = length reqs ∧ pool_ok pages' (given_of (done_ ++ zip addrs reqs)) ∧ stored mem' (done_ ++ zip addrs reqs)) ∨
  (slices_run pages mem reqs = Panic ∧ ∃ pages l, sys pages l = 0).
Proof.
  induction reqs as [|[align bytes] reqs IH]; intros pages mem done_ Hal Hok Hst; cbn [slices_run]; [left; do 3 eexists; split; [done|]; by rewrite app_nil_r|].
  apply Forall_cons in Hal as [Hl Hal]. set (l := mkLayout (Z.of_nat (length bytes)) align). change (layout_ok l) in Hl.
  destruct (alloc_ok PAGE_SIZE pages (given_of done_) l (sys pages) page_bound Hok Hl (sys_ok pages)) as [(a & pages1 & Ea & Hok1)|[Ea [pl Hpl]]];
    unfold PagePool_alloc_slice; fold l; rewrite Ea; [|right; eauto]. cbn [mbind outcome_bind].
  assert (Eg : given_of (done_ ++ [(a, (align, bytes))]) = given_of done_ ++ [(a, l)]) by (unfold given_of; by rewrite fmap_app).
  specialize (IH pages1 (write_bytes mem a bytes) (done_ ++ [(a, (align, bytes))]) Hal ltac:(by rewrite Eg)).
  destruct IH as [(al & pages2 & mem2 & -> & H1 & H2 & H3)|[-> Hx]]; [|cbn [mbind outcome_bind]; left; do 3 eexists; split; [done|]; cbn [length zip]; rewrite <- app_assoc in H2, H3; by rewrite H1|right; done].
  intros b al' bs [Hin|[= -> -> ->]%list_elem_of_singleton]%elem_of_app; [|apply read_bytes_written]. apply read_bytes_frame; [|by eapply Hst].
  apply list_elem_of_lookup_1 in Hin as [i Hi]. assert (Hg : given_of done_ !! i = Some (b, mkLayout (Z.of_nat (length bs)) al')) by (unfold given_of; by rewrite list_lookup_fmap, Hi).
  pose proof (lookup_lt_Some _ _ _ Hg). apply (po_apart _ _ Hok1 i (length (given_of done_)) b (mkLayout (Z.of_nat (length bs)) al') a l); [by apply lookup_app_l_Some| |lia].
  rewrite lookup_app_r, Nat.sub_diag by lia. done.
Qed.
End history.


(** An allocator that places a page after all others while there is room. *)
Definition top_of (pages : PagePool) : Z := foldr (λ p top, Z.max (pg_data p + l_size (pg_layout p)) top) 1 pages.

Definition after_all (pages : PagePool) (l : Layout) : Z :=
  let addr := (top_of pages + l_align l - 1) / l_align l * l_align l in
  if addr + l_size l <=? 2 ^ 63 then addr else 0.

Lemma after_all_ok pages l : layout_ok l → malloc_ok pages l (after_all pages l).
Proof.
  intros [Hs (k & Hk & Ea)]. unfold after_all. set (addr := _ / _ * _). destruct (Z.leb_spec (addr + l_size l) (2 ^ 63)) as [Hle|_]; [right|by left].
  assert (0 < l_align l) by (rewrite Ea; apply Z.pow_pos_nonneg; lia).
  assert (Htop : 1 <= top_of pages ∧ Forall (λ p, pg_data p + l_size (pg_layout p) <= top_of pages) pages).
  { clear. unfold top_of. induction pages as [|p pages [IH1 IH2]]; cbn; [split; [lia|constructor]|]. split; [lia|]. constructor; [lia|]. eapply Forall_impl; [exact IH2|]. cbn. lia. }
  destruct Htop as [H1 Hf]. assert (Hge : top_of pages <= addr).
  { subst addr. pose proof (Z.div_mod (top_of pages + l_align l - 1) (l_align l)). pose proof (Z.mod_pos_bound (top_of pages + l_align l - 1) (l_align l)). lia. }
  split; [lia|]. split; [done|]. split; [apply Z.divide_factor_r|]. eapply Forall_impl; [exact Hf|]. cbn. intros p Hp. unfold apart. lia.
Qed.

Definition ex_reqs : list (Z * list Z) := [(1, [7; 8; 9]); (8, [1; 2]); (4, replicate 70 5); (1, [3])].


(** The page for a request of more than half of what a [Layout] may have is not a valid
    layout. *)
Lemma page_layout_too_large : page_layout 1024 (mkLayout (2 ^ 62 + 1) 1) = Undefined.
Proof. by vm_compute. Qed.
