(* ===== verification/ArrayQueue.v ===== *)
(** * Bounded multi-producer multi-consumer queue

    [crates/voker-os/src/utils/array_queue.rs].  Head and tail are words
    [lap | index]; each slot has a stamp that says which push or pop it waits for.
    A thread runs [push] or [pop] as a sequence of atomic steps (loads, one weak
    compare-exchange, a write or read of the slot, a store of its stamp), in any
    interleaving, over sequentially consistent memory.  [usize] has 64 bits and
    its wrapping additions are written out. *)

From Stdlib Require Import ZArith Lia.
From S2P Require Import Prelude.
Local Open Scope Z_scope.

Section queue.
Context {T : Type}.

Record QSlot := mkQSlot { qs_stamp : Z; qs_value : option T }.

Record ArrayQueue := mkQueue { aq_head : Z; aq_tail : Z; aq_buffer : list QSlot; aq_one_lap : Z }.

Definition usize_MAX : Z := u64_max.

(** [(cap + 1).next_power_of_two()]. *)
Definition next_power_of_two (n : Z) : Z := 2 ^ Z.log2_up n.

Definition ArrayQueue_capacity (self : ArrayQueue) : Z := Z.of_nat (length (aq_buffer self)).

Definition ArrayQueue_new (cap : nat) : outcome ArrayQueue :=
  if decide (cap = 0%nat) then Panic
  else Ret (mkQueue 0 0 ((λ i, mkQSlot (Z.of_nat i) None) <$> seq 0 cap) (next_power_of_two (Z.of_nat cap + 1))).

Definition index_of (self : ArrayQueue) (word : Z) : nat := Z.to_nat (Z.land word (aq_one_lap self - 1)).

Definition lap_of (self : ArrayQueue) (word : Z) : Z := Z.land word (not64 (aq_one_lap self - 1)).

(** The word after [word]: the next index, or the next lap. *)
Definition next_word (self : ArrayQueue) (word : Z) : Z :=
  if Z.of_nat (index_of self word) + 1 <? ArrayQueue_capacity self then word + 1
  else wadd64 (lap_of self word) (aq_one_lap self).

Definition set_tail (self : ArrayQueue) (x : Z) : ArrayQueue := mkQueue (aq_head self) x (aq_buffer self) (aq_one_lap self).
Definition set_head (self : ArrayQueue) (x : Z) : ArrayQueue := mkQueue x (aq_tail self) (aq_buffer self) (aq_one_lap self).
Definition set_slot (self : ArrayQueue) (i : nat) (s : QSlot) : ArrayQueue :=
  mkQueue (aq_head self) (aq_tail self) (<[i := s]> (aq_buffer self)) (aq_one_lap self).

(** [buffer.get_unchecked(index)]. *)
Definition get_slot (self : ArrayQueue) (i : nat) : outcome QSlot := of_option (aq_buffer self !! i).

(** ** Threads *)

(** Where a thread is in [push] or [pop]; [tail] and [head] are its local
    copies. *)
Inductive Pc :=
| Idle
| PushLoad (v : T)
| PushInspect (v : T) (tail : Z)
| PushSwap (v : T) (tail : Z)
| PushCheck (v : T) (tail : Z)
| PushWrite (v : T) (tail : Z)
| PushStamp (tail : Z)
| PopLoad
| PopInspect (head : Z)
| PopSwap (head : Z)
| PopCheck (head : Z)
| PopRead (head : Z)
| PopStamp (v : T) (head : Z).

(** What the environment sees: the moments the queue changes and the answers. *)
Inductive Label :=
| Tau
| LinPush (v : T)
| LinPop
| RetPush
| RetFull (v : T)
| RetPop (v : T)
| RetEmpty.

(** One atomic step of [push]; [spurious] lets the weak compare-exchange fail. *)
Definition push_step (q : ArrayQueue) (pc : Pc) (spurious : bool) : outcome (ArrayQueue * Pc * Label) :=
  match pc with
  | PushLoad v => Ret (q, PushInspect v (aq_tail q), Tau)
  | PushInspect v tail =>
      slot ← get_slot q (index_of q tail);
      let stamp := qs_stamp slot in
      if tail =? stamp then Ret (q, PushSwap v tail, Tau)
      else if wadd64 stamp (aq_one_lap q) =? tail + 1 then Ret (q, PushCheck v tail, Tau)
      else Ret (q, PushLoad v, Tau)
  | PushSwap v tail =>
      if (aq_tail q =? tail) && negb spurious
      then Ret (set_tail q (next_word q tail), PushWrite v tail, LinPush v)
      else Ret (q, PushInspect v (aq_tail q), Tau)
  | PushCheck v tail =>
      if wadd64 (aq_head q) (aq_one_lap q) =? tail then Ret (q, Idle, RetFull v) else Ret (q, PushLoad v, Tau)
  | PushWrite v tail =>
      slot ← get_slot q (index_of q tail);
      Ret (set_slot q (index_of q tail) (mkQSlot (qs_stamp slot) (Some v)), PushStamp tail, Tau)
  | PushStamp tail =>
      slot ← get_slot q (index_of q tail);
      Ret (set_slot q (index_of q tail) (mkQSlot (tail + 1) (qs_value slot)), Idle, RetPush)
  | _ => Undefined
  end.

Definition pop_step (q : ArrayQueue) (pc : Pc) (spurious : bool) : outcome (ArrayQueue * Pc * Label) :=
  match pc with
  | PopLoad => Ret (q, PopInspect (aq_head q), Tau)
  | PopInspect head =>
      slot ← get_slot q (index_of q head);
      let stamp := qs_stamp slot in
      if head + 1 =? stamp then Ret (q, PopSwap head, Tau)
      else if stamp =? head then Ret (q, PopCheck head, Tau)
      else Ret (q, PopLoad, Tau)
  | PopSwap head =>
      if (aq_head q =? head) && negb spurious
      then Ret (set_head q (next_word q head), PopRead head, LinPop)
      else Ret (q, PopInspect (aq_head q), Tau)
  | PopCheck head =>
      if aq_tail q =? head then Ret (q, Idle, RetEmpty) else Ret (q, PopLoad, Tau)
  | PopRead head =>
      slot ← get_slot q (index_of q head);
      v ← of_option (qs_value slot);
      Ret (q, PopStamp v head, Tau)
  | PopStamp v head =>
      slot ← get_slot q (index_of q head);
      Ret (set_slot q (index_of q head) (mkQSlot (wadd64 head (aq_one_lap q)) (qs_value slot)), Idle, RetPop v)
  | _ => Undefined
  end.

Definition is_push (pc : Pc) : bool :=
  match pc with PushLoad _ | PushInspect _ _ | PushSwap _ _ | PushCheck _ _ | PushWrite _ _ | PushStamp _ => true | _ => false end.

Definition queue_step (q : ArrayQueue) (pc : Pc) (spurious : bool) : outcome (ArrayQueue * Pc * Label) :=
  if is_push pc then push_step q pc spurious else pop_step q pc spurious.

(** One step of the system: a thread starts a call, or takes its next step. *)
Inductive qstep : ArrayQueue * list Pc → nat * Label → ArrayQueue * list Pc → Prop :=
| q_start_push q ts i v : ts !! i = Some Idle → qstep (q, ts) (i, Tau) (q, <[i := PushLoad v]> ts)
| q_start_pop q ts i : ts !! i = Some Idle → qstep (q, ts) (i, Tau) (q, <[i := PopLoad]> ts)
| q_run q ts i pc spurious q' pc' l :
    ts !! i = Some pc → pc ≠ Idle → queue_step q pc spurious = Ret (q', pc', l) →
    qstep (q, ts) (i, l) (q', <[i := pc']> ts).

Inductive qtrace : ArrayQueue * list Pc → list (nat * Label) → ArrayQueue * list Pc → Prop :=
| qt_nil s : qtrace s [] s
| qt_snoc s tr s1 l s2 : qtrace s tr s1 → qstep s1 l s2 → qtrace s (tr ++ [l]) s2.

(** ** Exclusive access *)

Definition ArrayQueue_push_mut (self : ArrayQueue) (v : T) : outcome (Result unit T * ArrayQueue) :=
  let tail := aq_tail self in
  if wadd64 (aq_head self) (aq_one_lap self) =? tail then Ret (Err v, self)
  else
    let index := index_of self tail in
    let q := set_tail self (next_word self tail) in
    slot ← get_slot q index;
    Ret (Ok tt, set_slot q index (mkQSlot (tail + 1) (Some v))).

Definition ArrayQueue_pop_mut (self : ArrayQueue) : outcome (option T * ArrayQueue) :=
  let head := aq_head self in
  if aq_tail self =? head then Ret (None, self)
  else
    let index := index_of self head in
    let new := next_word self head in
    slot ← get_slot self index;
    msg ← of_option (qs_value slot);
    Ret (Some msg, set_head (set_slot self index (mkQSlot (wadd64 head (aq_one_lap self)) (qs_value slot))) new).

Definition ArrayQueue_is_empty (self : ArrayQueue) : bool := aq_tail self =? aq_head self.

Definition ArrayQueue_is_full (self : ArrayQueue) : bool := wadd64 (aq_head self) (aq_one_lap self) =? aq_tail self.

(** The length for one consistent pair of words. *)
Definition ArrayQueue_len (self : ArrayQueue) : Z :=
  let hix := Z.land (aq_head self) (aq_one_lap self - 1) in
  let tix := Z.land (aq_tail self) (aq_one_lap self - 1) in
  if hix <? tix then tix - hix
  else if tix <? hix then ArrayQueue_capacity self - hix + tix
  else if aq_tail self =? aq_head self then 0
  else ArrayQueue_capacity self.

(** The values dropped with the queue. *)
Fixpoint drop_slots (self : ArrayQueue) (hix : Z) (is_ : list nat) : outcome (list T) :=
  match is_ with
  | [] => Ret []
  | i :: rest =>
      let index := if hix + Z.of_nat i <? ArrayQueue_capacity self then hix + Z.of_nat i
                   else hix + Z.of_nat i - ArrayQueue_capacity self in
      slot ← get_slot self (Z.to_nat index);
      v ← of_option (qs_value slot);
      vs ← drop_slots self hix rest;
      Ret (v :: vs)
  end.

Definition ArrayQueue_drop (self : ArrayQueue) : outcome (list T) :=
  drop_slots self (Z.land (aq_head self) (aq_one_lap self - 1)) (seq 0 (Z.to_nat (ArrayQueue_len self))).
End queue.

#[global] Arguments ArrayQueue : clear implicits.
#[global] Arguments Pc : clear implicits.
#[global] Arguments Label : clear implicits.
#[global] Arguments QSlot : clear implicits.
