(* ===== verification/ArrayQueueInv.v ===== *)
(** * The bounded queue is linearizable

    Positions count the pushes and pops ever made; [enc] is the word of a
    position.  The invariant says for every slot which position it is at and in
    which phase, and for every thread what it may rely on.  It holds as long as
    fewer pushes have been made than there are words ([limit]): beyond that a
    sleeping thread could meet its old word again. *)

From Stdlib Require Import ZArith Lia.
From S2P Require Import Prelude ArrayQueue.

(** ** Words of positions *)

Section enc.
Variable cap : nat.
Hypothesis cap_pos : 0 < cap.
Hypothesis cap_small : (Z.of_nat cap < 2 ^ 62)%Z.

Definition lap : Z := next_power_of_two (Z.of_nat cap + 1).

Definition enc (n : nat) : Z := (Z.of_nat (n / cap) * lap + Z.of_nat (n mod cap))%Z.

(** The number of laps a word can count. *)
Definition laps : nat := Z.to_nat (2 ^ 64 / lap).

Definition limit : nat := cap * laps.

Lemma lap_pow : ∃ k, (lap = 2 ^ k ∧ 0 <= k <= 62)%Z ∧ (Z.of_nat cap < lap)%Z.
Proof.
  unfold lap, next_power_of_two. exists (Z.log2_up (Z.of_nat cap + 1)). split; [split; [done|split]|].
  - apply Z.log2_up_nonneg.
  - rewrite <- (Z.log2_up_pow2 62) by lia. apply Z.log2_up_le_mono. lia.
  - pose proof (Z.log2_up_spec (Z.of_nat cap + 1)). lia.
Qed.

Lemma lap_laps : (Z.of_nat laps * lap = 2 ^ 64 ∧ 0 < lap <= 2 ^ 62)%Z.
Proof.
  destruct lap_pow as (k & [Hk Hr] & _). unfold laps. rewrite Hk. rewrite Z2Nat.id by (apply Z.div_pos; lia).
  replace (2 ^ 64)%Z with (2 ^ (64 - k) * 2 ^ k)%Z by (rewrite <- Z.pow_add_r by lia; f_equal; lia).
  rewrite Z.div_mul by lia. split; [done|]. split; [lia|]. apply Z.pow_le_mono_r; lia.
Qed.

Lemma enc_bounds n : n < limit → (0 <= enc n < 2 ^ 64)%Z.
Proof.
  intros Hn. destruct lap_laps as [Hl Hr]. destruct lap_pow as (_ & _ & Hc).
  assert (n / cap < laps) by (apply Nat.Div0.div_lt_upper_bound; unfold limit in Hn; lia).
  pose proof (Nat.mod_upper_bound n cap). unfold enc. nia.
Qed.

(** The low part of the word of [n], one above it included. *)
Lemma enc_mod n d : d ≤ 1 → ((enc n + Z.of_nat d) mod lap = Z.of_nat (n mod cap + d))%Z.
Proof.
  intros Hd. destruct lap_pow as (_ & _ & Hc). pose proof (Nat.mod_upper_bound n cap). unfold enc.
  replace (Z.of_nat (n / cap) * lap + Z.of_nat (n mod cap) + Z.of_nat d)%Z
    with (Z.of_nat (n mod cap + d) + Z.of_nat (n / cap) * lap)%Z by lia.
  rewrite Z.mod_add by lia. apply Z.mod_small. lia.
Qed.

Lemma enc_inj n m : enc n = enc m → n = m.
Proof.
  intros Heq. pose proof (enc_mod n 0 ltac:(lia)) as Hn. pose proof (enc_mod m 0 ltac:(lia)) as Hm.
  rewrite Heq, Hm in Hn. destruct lap_laps as [_ Hr]. unfold enc in Heq.
  rewrite (Nat.div_mod_eq n cap), (Nat.div_mod_eq m cap). assert (n mod cap = m mod cap) by lia. assert (n / cap = m / cap) by nia. lia.
Qed.

(** A word and the one above another of the same slot are different. *)
Lemma enc_succ_ne n m : n mod cap = m mod cap → enc n ≠ (enc m + 1)%Z.
Proof.
  intros Hi Heq. pose proof (enc_mod n 0 ltac:(lia)) as Hn. pose proof (enc_mod m 1 ltac:(lia)) as Hm.
  change (Z.of_nat 1) with 1%Z in Hm. rewrite <- Heq in Hm. rewrite Z.add_0_r in Hn. lia.
Qed.

Lemma enc_lap n : (enc (n + cap) = enc n + lap)%Z.
Proof.
  unfold enc. replace (n + cap) with (n + 1 * cap) by lia. rewrite Nat.div_add, Nat.Div0.mod_add by lia. lia.
Qed.

Lemma enc_wrap n : n + cap < limit → wadd64 (enc n) lap = enc (n + cap).
Proof. intros Hn. rewrite <- (Z.mod_small (enc (n + cap)) (2 ^ 64)) by (by apply enc_bounds). by rewrite enc_lap. Qed.

Context {T : Type}.
Implicit Types q : ArrayQueue T.

Definition sized q : Prop := length (aq_buffer q) = cap ∧ aq_one_lap q = lap.

Lemma land_low w : (0 <= w)%Z → Z.land w (lap - 1) = (w mod lap)%Z.
Proof.
  intros _. destruct lap_pow as (k & [-> Hr] & _). rewrite <- Z.land_ones by lia. f_equal. rewrite Z.ones_equiv. lia.
Qed.

Lemma land_high w : (0 <= w < 2 ^ 64)%Z → Z.land w (not64 (lap - 1)) = (w - w mod lap)%Z.
Proof.
  intros Hw. destruct lap_pow as (k & [-> Hr] & _).
  replace (2 ^ k - 1)%Z with (Z.ones k) by (rewrite Z.ones_equiv; lia).
  assert (Z.land w (not64 (Z.ones k)) = Z.ldiff w (Z.ones k)) as ->.
  { apply Z.bits_inj'. intros i Hi. unfold not64, u64_max. change 18446744073709551615%Z with (Z.ones 64).
    rewrite Z.land_spec, Z.lxor_spec, Z.ldiff_spec. destruct (Z.ltb_spec i 64).
    - rewrite (Z.ones_spec_low 64) by lia. by destruct (Z.testbit w i), (Z.testbit (Z.ones k) i).
    - rewrite (Z.bits_above_log2 w i); [done|lia|]. destruct (decide (w = 0)%Z) as [->|]; [cbn; lia|].
      apply Z.log2_lt_pow2; [lia|]. eapply Z.lt_le_trans; [apply Hw|]. apply Z.pow_le_mono_r; lia. }
  rewrite Z.ldiff_ones_r, Z.shiftl_mul_pow2, Z.shiftr_div_pow2 by lia. rewrite (Z.div_mod w (2 ^ k)) at 2 by lia. lia.
Qed.

Lemma index_enc q n : sized q → n < limit → index_of q (enc n) = n mod cap.
Proof.
  intros [_ Hl] Hn. unfold index_of. rewrite Hl, land_low by (by apply enc_bounds). pose proof (enc_mod n 0 ltac:(lia)) as He.
  rewrite Z.add_0_r in He. rewrite He. lia.
Qed.

Lemma next_enc q n : sized q → n + 1 < limit → next_word q (enc n) = enc (n + 1).
Proof.
  intros Hs Hn. unfold next_word. rewrite (index_enc q n Hs) by lia. destruct Hs as [Hb Hl]. unfold ArrayQueue_capacity, lap_of. rewrite Hb, Hl.
  pose proof (Nat.mod_upper_bound n cap ltac:(lia)). pose proof (Nat.div_mod_eq n cap).
  destruct (Z.ltb_spec (Z.of_nat (n mod cap) + 1) (Z.of_nat cap)).
  - unfold enc. assert ((n + 1) / cap = n / cap) as -> by (symmetry; apply (Nat.div_unique _ _ _ (n mod cap + 1)); lia).
    assert ((n + 1) mod cap = n mod cap + 1) as -> by (symmetry; apply (Nat.mod_unique _ _ (n / cap)); lia). lia.
  - assert (Hd : (n + 1) / cap = n / cap + 1) by (symmetry; apply (Nat.div_unique _ _ _ 0); lia).
    assert (Hm : (n + 1) mod cap = 0) by (symmetry; apply (Nat.mod_unique _ _ (n / cap + 1)); lia).
    rewrite land_high by (apply enc_bounds; lia). pose proof (enc_mod n 0 ltac:(lia)) as He. rewrite Z.add_0_r in He. rewrite He.
    assert (Heq : (enc n - Z.of_nat (n mod cap + 0) + lap = enc (n + 1))%Z) by (unfold enc; rewrite Hd, Hm; lia).
    unfold wadd64. rewrite Heq. apply Z.mod_small. apply (enc_bounds (n + 1)). lia.
Qed.
End enc.

(** ** The abstract queue *)

(** The elements in order, and for each thread in the middle of a [pop] the
    element it has taken. *)
Notation AQueue T := (list T * gmap nat T)%type.

Inductive aqstep {T} (cap : nat) : AQueue T → nat * Label T → AQueue T → Prop :=
| aq_tau xs m i : aqstep cap (xs, m) (i, Tau) (xs, m)
| aq_push xs m i v : length xs < cap → aqstep cap (xs, m) (i, LinPush v) (xs ++ [v], m)
| aq_pop xs m i v : aqstep cap (v :: xs, m) (i, LinPop) (xs, <[i := v]> m)
| aq_ret_push xs m i : aqstep cap (xs, m) (i, RetPush) (xs, m)
| aq_ret_full xs m i v : length xs = cap → aqstep cap (xs, m) (i, RetFull v) (xs, m)
| aq_ret_pop xs m i v : m !! i = Some v → aqstep cap (xs, m) (i, RetPop v) (xs, delete i m)
| aq_ret_empty m i : aqstep cap ([], m) (i, RetEmpty) ([], m).

Inductive aqtrace {T} (cap : nat) : AQueue T → list (nat * Label T) → AQueue T → Prop :=
| at_nil s : aqtrace cap s [] s
| at_snoc s tr s1 l s2 : aqtrace cap s tr s1 → aqstep cap s1 l s2 → aqtrace cap s (tr ++ [l]) s2.

(** ** The invariant *)

Section inv.
Context {T : Type}.
Variable cap : nat.
Hypothesis cap_pos : 0 < cap.
Hypothesis cap_small : (Z.of_nat cap < 2 ^ 62)%Z.
Notation enc := (enc cap).
Notation limit := (limit cap).
Implicit Types (q : ArrayQueue T) (ts : list (Pc T)) (log : list T).

Definition push_claim (pc : Pc T) : option Z :=
  match pc with PushWrite _ t => Some t | PushStamp t => Some t | _ => None end.

Definition pop_claim (pc : Pc T) : option Z :=
  match pc with PopRead h => Some h | PopStamp _ h => Some h | _ => None end.

(** The slot of a position. *)
Definition slot_at q (p : nat) : option (QSlot T) := aq_buffer q !! (p mod cap).

(** [log] are the values pushed, [h] counts the pops.  The phases of a slot at
    position [p]: waiting for push [p], claimed by push [p], filled by it. *)
Inductive phase ts log (h p : nat) (s : QSlot T) : Prop :=
| ph_free : qs_stamp s = enc p → length log ≤ p < h + cap → phase ts log h p s
| ph_claimed i pc : qs_stamp s = enc p → h ≤ p < length log → ts !! i = Some pc → push_claim pc = Some (enc p) → phase ts log h p s
| ph_full : qs_stamp s = (enc p + 1)%Z → h ≤ p < length log → qs_value s = log !! p → phase ts log h p s
| ph_popping i pc : qs_stamp s = (enc p + 1)%Z → p < h → length log ≤ p + cap → qs_value s = log !! p →
    ts !! i = Some pc → pop_claim pc = Some (enc p) → phase ts log h p s.

(** What a thread may rely on; [m] are the elements taken but not returned. *)
Definition pc_ok q log (h : nat) (m : gmap nat T) (i : nat) (pc : Pc T) : Prop :=
  match pc with
  | Idle | PushLoad _ | PopLoad => True
  | PushInspect _ t | PushCheck _ t => ∃ p, t = enc p ∧ p ≤ length log
  | PushSwap _ t => ∃ p, t = enc p ∧ p ≤ length log ∧
      (p = length log → ∃ s, slot_at q p = Some s ∧ qs_stamp s = enc p)
  | PushWrite v t => ∃ p s, t = enc p ∧ h ≤ p < length log ∧ log !! p = Some v ∧ slot_at q p = Some s ∧ qs_stamp s = enc p
  | PushStamp t => ∃ p, t = enc p ∧ h ≤ p < length log ∧ slot_at q p = Some (mkQSlot (enc p) (log !! p))
  | PopInspect w | PopCheck w => ∃ p, w = enc p ∧ p ≤ h
  | PopSwap w => ∃ p, w = enc p ∧ p ≤ h ∧ (p = h → ∃ s, slot_at q p = Some s ∧ qs_stamp s = (enc p + 1)%Z)
  | PopRead w => ∃ p v, w = enc p ∧ p < h ∧ log !! p = Some v ∧ m !! i = Some v ∧ slot_at q p = Some (mkQSlot (enc p + 1)%Z (Some v))
  | PopStamp v w => ∃ p, w = enc p ∧ p < h ∧ log !! p = Some v ∧ m !! i = Some v ∧ slot_at q p = Some (mkQSlot (enc p + 1)%Z (Some v))
  end.

Record qinv q ts log (h : nat) (m : gmap nat T) : Prop := {
  qi_sized : sized cap q;
  qi_head : aq_head q = enc h;
  qi_tail : aq_tail q = enc (length log);
  qi_order : h ≤ length log ≤ h + cap;
  qi_slots : ∀ i s, aq_buffer q !! i = Some s → ∃ p, p mod cap = i ∧ phase ts log h p s;
  qi_threads : ∀ i pc, ts !! i = Some pc → pc_ok q log h m i pc;
  qi_push_claims : ∀ i j pc pc' w, ts !! i = Some pc → ts !! j = Some pc' → push_claim pc = Some w → push_claim pc' = Some w → i = j;
  qi_pop_claims : ∀ i j pc pc' w, ts !! i = Some pc → ts !! j = Some pc' → pop_claim pc = Some w → pop_claim pc' = Some w → i = j
}.

(** The slot of every position exists. *)
Lemma slot_exists q p : sized cap q → ∃ s, slot_at q p = Some s.
Proof.
  intros [Hl _]. apply lookup_lt_is_Some_2. rewrite Hl. apply Nat.mod_upper_bound. lia.
Qed.

Lemma slot_phase q ts log h m p s :
  qinv q ts log h m → slot_at q p = Some s → ∃ p', p' mod cap = p mod cap ∧ phase ts log h p' s.
Proof. intros Hi Hs. exact (qi_slots _ _ _ _ _ Hi _ _ Hs). Qed.

(** Positions of one slot within a lap of each other are equal. *)
Lemma same_slot p p' : p mod cap = p' mod cap → p < p' + cap → p' < p + cap → p = p'.
Proof.
  intros Hm H1 H2. pose proof (Nat.div_mod_eq p cap). pose proof (Nat.div_mod_eq p' cap).
  assert (p / cap = p' / cap) by nia. lia.
Qed.

Lemma stamp_inj p p' : enc p = enc p' → p = p'.
Proof. by apply enc_inj. Qed.
Lemma stamp1_inj p p' : (enc p + 1 = enc p' + 1)%Z → p = p'.
Proof. intros Heq. apply stamp_inj. lia. Qed.
Lemma stamp_ne p p' : p mod cap = p' mod cap → enc p ≠ (enc p' + 1)%Z.
Proof. by apply enc_succ_ne. Qed.

(** The phase from the stamp. *)
Lemma phase_enc q ts log h m p s :
  qinv q ts log h m → slot_at q p = Some s → qs_stamp s = enc p →
  length log ≤ p < h + cap ∨
  (h ≤ p < length log ∧ ∃ i pc, ts !! i = Some pc ∧ push_claim pc = Some (enc p)).
Proof.
  intros Hi Hs He. destruct (slot_phase q ts log h m p s Hi Hs) as (p' & Hm & [Hst Hr|i pc Hst Hr Ht Hc|Hst _ _|i pc Hst _ _ _ _ _]);
    rewrite He in Hst.
  - apply stamp_inj in Hst as <-. by left.
  - apply stamp_inj in Hst as <-. right. eauto.
  - by apply stamp_ne in Hst.
  - by apply stamp_ne in Hst.
Qed.

Lemma phase_enc1 q ts log h m p s :
  qinv q ts log h m → slot_at q p = Some s → qs_stamp s = (enc p + 1)%Z →
  p < length log ∧ length log ≤ p + cap ∧ qs_value s = log !! p.
Proof.
  intros Hi Hs He. pose proof (qi_order _ _ _ _ _ Hi) as Ho.
  destruct (slot_phase q ts log h m p s Hi Hs) as (p' & Hm & [Hst Hr|i pc Hst Hr Ht Hc|Hst Hr Hv|i pc Hst Hr Hr' Hv _ _]);
    rewrite He in Hst.
  - symmetry in Hst. by apply stamp_ne in Hst.
  - symmetry in Hst. by apply stamp_ne in Hst.
  - apply stamp1_inj in Hst as <-. split; [lia|]. split; [lia|done].
  - apply stamp1_inj in Hst as <-. split; [lia|]. split; [lia|done].
Qed.

(** A position below the limit indexes its slot. *)
Lemma get_enc q ts log h m p :
  qinv q ts log h m → length log + cap < limit → p ≤ length log →
  ∃ s, get_slot q (index_of q (enc p)) = Ret s ∧ slot_at q p = Some s ∧ index_of q (enc p) = p mod cap.
Proof.
  intros Hi Hb Hp. pose proof (qi_sized _ _ _ _ _ Hi) as Hz. destruct (slot_exists q p Hz) as [s Hs].
  exists s. rewrite (index_enc cap cap_pos cap_small q p Hz) by lia. split; [|done]. unfold get_slot. unfold slot_at in Hs. by rewrite Hs.
Qed.

(** ** Threads *)

(** Phases depend on the threads only through their claims. *)
Lemma phase_threads ts ts' log h p s :
  phase ts log h p s →
  (∀ i pc, ts !! i = Some pc → push_claim pc = Some (enc p) → ∃ i' pc', ts' !! i' = Some pc' ∧ push_claim pc' = Some (enc p)) →
  (∀ i pc, ts !! i = Some pc → pop_claim pc = Some (enc p) → ∃ i' pc', ts' !! i' = Some pc' ∧ pop_claim pc' = Some (enc p)) →
  phase ts' log h p s.
Proof.
  intros [Hst Hr|i pc Hst Hr Ht Hc|Hst Hr Hv|i pc Hst Hr Hr' Hv Ht Hc] Hpush Hpop.
  - by apply ph_free.
  - destruct (Hpush i pc Ht Hc) as (i' & pc' & ? & ?). by eapply ph_claimed.
  - by apply ph_full.
  - destruct (Hpop i pc Ht Hc) as (i' & pc' & ? & ?). by eapply ph_popping.
Qed.

(** A thread that keeps its claims. *)
Lemma claims_kept {A} (f : Pc T → option A) ts i pc pc' w :
  ts !! i = Some pc → (f pc = Some w → f pc' = Some w) →
  ∀ j pcj, ts !! j = Some pcj → f pcj = Some w → ∃ j' pcj', <[i := pc']> ts !! j' = Some pcj' ∧ f pcj' = Some w.
Proof.
  intros Hi Hk j pcj Hj Hw. destruct (decide (j = i)) as [->|Hne].
  - rewrite Hi in Hj. injection Hj as <-. exists i, pc'. rewrite list_lookup_insert_eq by (by eapply lookup_lt_Some). auto.
  - exists j, pcj. by rewrite list_lookup_insert_ne.
Qed.

Lemma claims_unique {A} (f : Pc T → option A) ts i pc pc' :
  ts !! i = Some pc → (∀ w, f pc' = Some w → f pc = Some w ∨ ∀ j pcj, ts !! j = Some pcj → f pcj ≠ Some w) →
  (∀ j k pcj pck w, ts !! j = Some pcj → ts !! k = Some pck → f pcj = Some w → f pck = Some w → j = k) →
  ∀ j k pcj pck w, <[i := pc']> ts !! j = Some pcj → <[i := pc']> ts !! k = Some pck → f pcj = Some w → f pck = Some w → j = k.
Proof.
  intros Hi Hnew Hu j k pcj pck w Hj Hk Hwj Hwk.
  apply list_lookup_insert_Some in Hj as [(<- & <- & _)|[Hnj Hj]]; apply list_lookup_insert_Some in Hk as [(<- & <- & _)|[Hnk Hk]].
  - done.
  - destruct (Hnew w Hwj) as [Ho|Hn]; [|by destruct (Hn k pck Hk)]. by apply (Hu i k pc pck w).
  - destruct (Hnew w Hwk) as [Ho|Hn]; [|by destruct (Hn j pcj Hj)]. by apply (Hu j i pcj pc w).
  - by apply (Hu j k pcj pck w).
Qed.

(** A step that only changes where a thread is. *)
Lemma local_step q ts log h m i pc pc' :
  qinv q ts log h m → ts !! i = Some pc → push_claim pc' = push_claim pc → pop_claim pc' = pop_claim pc →
  pc_ok q log h m i pc' → qinv q (<[i := pc']> ts) log h m.
Proof.
  intros Hi Ht Hpu Hpo Hok. split; try apply Hi.
  - intros k s Hk. destruct (qi_slots _ _ _ _ _ Hi k s Hk) as (p & Hp & Hph). exists p. split; [done|].
    eapply phase_threads; [done| |]; eapply claims_kept; eauto; congruence.
  - intros j pcj [(<- & <- & _)|[_ Hj]]%list_lookup_insert_Some; [done|]. by apply (qi_threads _ _ _ _ _ Hi).
  - eapply claims_unique; [done| |apply Hi]. intros w Hw. left. congruence.
  - eapply claims_unique; [done| |apply Hi]. intros w Hw. left. congruence.
Qed.

(** ** The compare-exchanges *)

Lemma swap_push q ts log h m i v p s :
  qinv q ts log h m → length log + 1 + cap < limit → ts !! i = Some (PushSwap v (enc p)) → p = length log →
  slot_at q p = Some s → qs_stamp s = enc p →
  qinv (set_tail q (next_word q (enc p))) (<[i := PushWrite v (enc p)]> ts) (log ++ [v]) h m ∧ length log < h + cap.
Proof.
  intros Hi Hb Ht -> Hs Hst. pose proof (qi_order _ _ _ _ _ Hi) as Ho. set (p := length log) in *.
  assert (Hlt : p < h + cap) by (destruct (phase_enc q ts log h m p s Hi Hs Hst) as [?|[? _]]; lia). split; [|done].
  assert (Hlog : ∀ k, k < p → (log ++ [v]) !! k = log !! k) by (intros k Hk; by apply lookup_app_l).
  assert (Hlen : length (log ++ [v]) = p + 1) by (rewrite length_app; cbn; lia).
  split; try apply Hi.
  - cbn. rewrite (next_enc cap cap_pos cap_small q p (qi_sized _ _ _ _ _ Hi)) by lia. by rewrite Hlen.
  - rewrite Hlen. lia.
  - intros k sk Hk. destruct (qi_slots _ _ _ _ _ Hi k sk Hk) as (p' & Hp' & Hph). exists p'. split; [done|].
    destruct Hph as [Hst' Hr|j pc Hst' Hr Hj Hc|Hst' Hr Hv|j pc Hst' Hr Hr' Hv Hj Hc].
    + destruct (decide (p' = p)) as [->|Hne].
      * eapply (ph_claimed _ _ _ _ _ i (PushWrite v (enc p))); [done|rewrite Hlen; lia| |done].
        by rewrite list_lookup_insert_eq by (by eapply lookup_lt_Some).
      * apply ph_free; [done|]. rewrite Hlen. lia.
    + destruct (decide (j = i)) as [->|Hne]; [by rewrite Ht in Hj; injection Hj as <-|].
      eapply (ph_claimed _ _ _ _ _ j pc); [done|rewrite Hlen; lia|by rewrite list_lookup_insert_ne|done].
    + apply ph_full; [done|rewrite Hlen; lia|by rewrite Hlog by lia].
    + destruct (decide (j = i)) as [->|Hne]; [by rewrite Ht in Hj; injection Hj as <-|].
      eapply (ph_popping _ _ _ _ _ j pc); [done|done| |rewrite Hlog by lia; done|by rewrite list_lookup_insert_ne|done].
      rewrite Hlen. destruct (decide (p = p' + cap)) as [Heq|]; [|lia]. exfalso.
      assert (Hmod : p mod cap = p' mod cap).
      { rewrite Heq. replace (p' + cap) with (p' + 1 * cap) by lia. apply Nat.Div0.mod_add. }
      unfold slot_at in Hs. rewrite Hmod, Hp' in Hs. cbn in Hk; assert (sk = s) by congruence. subst sk. rewrite Hst in Hst'.
      by apply stamp_ne in Hst'.
  - intros j pcj [(<- & <- & _)|[Hne Hj]]%list_lookup_insert_Some.
    + exists p, s. rewrite Hlen. split; [done|]. split; [lia|]. split; [|done]. rewrite lookup_app_r by done. by rewrite Nat.sub_diag.
    + pose proof (qi_threads _ _ _ _ _ Hi j pcj Hj) as Hok. destruct pcj; cbn in Hok |- *; rewrite ?Hlen; auto.
      * destruct Hok as (p' & -> & Hp'). exists p'. split; [done|lia].
      * destruct Hok as (p' & -> & Hp' & _). exists p'. split; [done|]. split; [lia|]. lia.
      * destruct Hok as (p' & -> & Hp'). exists p'. split; [done|lia].
      * destruct Hok as (p' & s' & -> & Hp' & Hl & Hx). exists p', s'. rewrite Hlog by lia. split; [done|]. split; [lia|done].
      * destruct Hok as (p' & -> & Hp' & Hx). exists p'. rewrite Hlog by lia. split; [done|]. split; [lia|done].
      * destruct Hok as (p' & v' & -> & Hp' & Hl & Hm & Hx). exists p', v'. rewrite Hlog by lia. done.
      * destruct Hok as (p' & -> & Hp' & Hl & Hm & Hx). exists p'. rewrite Hlog by lia. done.
  - eapply claims_unique; [done| |apply Hi]. intros w Hw. right. cbn in Hw. injection Hw as <-. intros j pcj Hj Hc.
    pose proof (qi_threads _ _ _ _ _ Hi j pcj Hj) as Hok. destruct pcj; cbn in Hc, Hok; simplify_eq.
    + destruct Hok as (p' & s' & He & Hp' & _). apply stamp_inj in He. lia.
    + destruct Hok as (p' & He & Hp' & _). apply stamp_inj in He. lia.
  - eapply claims_unique; [done| |apply Hi]. by intros w Hw.
Qed.

Lemma swap_pop q ts log h m i s :
  qinv q ts log h m → length log + cap < limit → ts !! i = Some (PopSwap (enc h)) →
  slot_at q h = Some s → qs_stamp s = (enc h + 1)%Z →
  ∃ v, log !! h = Some v ∧
    qinv (set_head q (next_word q (enc h))) (<[i := PopRead (enc h)]> ts) log (h + 1) (<[i := v]> m).
Proof.
  intros Hi Hb Ht Hs Hst. pose proof (qi_order _ _ _ _ _ Hi) as Ho.
  destruct (phase_enc1 q ts log h m h s Hi Hs Hst) as (Hlt & _ & Hval).
  destruct (lookup_lt_is_Some_2 log h Hlt) as [v Hv]. exists v. split; [done|].
  assert (Hother : ∀ p' s', slot_at q p' = Some s' → qs_stamp s' = enc p' → p' ≠ h).
  { intros p' s' Hs' Hst' ->. rewrite Hs in Hs'. injection Hs' as <-. rewrite Hst in Hst'. symmetry in Hst'. by apply stamp_ne in Hst'. }
  split; try apply Hi.
  - cbn. by rewrite (next_enc cap cap_pos cap_small q h (qi_sized _ _ _ _ _ Hi)) by lia.
  - lia.
  - intros k sk Hk. destruct (qi_slots _ _ _ _ _ Hi k sk Hk) as (p' & Hp' & Hph). exists p'. split; [done|].
    assert (Hsk : slot_at q p' = Some sk) by (unfold slot_at; by rewrite Hp').
    destruct Hph as [Hst' Hr|j pc Hst' Hr Hj Hc|Hst' Hr Hv'|j pc Hst' Hr Hr' Hv' Hj Hc].
    + apply ph_free; [done|lia].
    + destruct (decide (j = i)) as [->|Hne]; [by rewrite Ht in Hj; injection Hj as <-|]. pose proof (Hother p' sk Hsk Hst').
      eapply (ph_claimed _ _ _ _ _ j pc); [done|lia|by rewrite list_lookup_insert_ne|done].
    + destruct (decide (p' = h)) as [->|Hne]; [|apply ph_full; [done|lia|done]].
      eapply (ph_popping _ _ _ _ _ i (PopRead (enc h))); [done|lia|lia|done| |done].
      by rewrite list_lookup_insert_eq by (by eapply lookup_lt_Some).
    + destruct (decide (j = i)) as [->|Hne]; [by rewrite Ht in Hj; injection Hj as <-|].
      eapply (ph_popping _ _ _ _ _ j pc); [done|lia|done|done|by rewrite list_lookup_insert_ne|done].
  - intros j pcj [(<- & <- & _)|[Hne Hj]]%list_lookup_insert_Some.
    + exists h, v. split; [done|]. split; [lia|]. split; [done|]. split; [by rewrite lookup_insert_eq|].
      change (slot_at q h = Some (mkQSlot (enc h + 1)%Z (Some v))). rewrite Hs. destruct s as [st vl]. cbn in *. congruence.
    + pose proof (qi_threads _ _ _ _ _ Hi j pcj Hj) as Hok. destruct pcj; cbn in Hok |- *; auto.
      * destruct Hok as (p' & s' & -> & Hp' & Hl & Hx & Hx'). pose proof (Hother p' s' Hx Hx').
        exists p', s'. split; [done|]. split; [lia|done].
      * destruct Hok as (p' & -> & Hp' & Hx). pose proof (Hother p' _ Hx eq_refl). exists p'. split; [done|]. split; [lia|done].
      * destruct Hok as (p' & -> & Hp'). exists p'. split; [done|lia].
      * destruct Hok as (p' & -> & Hp' & _). exists p'. split; [done|]. split; [lia|]. lia.
      * destruct Hok as (p' & -> & Hp'). exists p'. split; [done|lia].
      * destruct Hok as (p' & v' & -> & Hp' & Hl & Hm & Hx). exists p', v'. rewrite lookup_insert_ne by done. split; [done|]. split; [lia|done].
      * destruct Hok as (p' & -> & Hp' & Hl & Hm & Hx). exists p'. rewrite lookup_insert_ne by done. split; [done|]. split; [lia|done].
  - eapply claims_unique; [done| |apply Hi]. by intros w Hw.
  - eapply claims_unique; [done| |apply Hi]. intros w Hw. right. cbn in Hw. injection Hw as <-. intros j pcj Hj Hc.
    pose proof (qi_threads _ _ _ _ _ Hi j pcj Hj) as Hok. destruct pcj; cbn in Hc, Hok; simplify_eq.
    + destruct Hok as (p' & v' & He & Hp' & _). apply stamp_inj in He. lia.
    + destruct Hok as (p' & He & Hp' & _). apply stamp_inj in He. lia.
Qed.

(** ** Changing one slot *)

Lemma set_slot_at q p p' s :
  sized cap q → slot_at (set_slot q (p mod cap) s) p' = if decide (p' mod cap = p mod cap) then Some s else slot_at q p'.
Proof.
  intros [Hl _]. unfold slot_at, set_slot. cbn. case_decide as Hd.
  - rewrite Hd. apply list_lookup_insert_eq. rewrite Hl. apply Nat.mod_upper_bound. lia.
  - by apply list_lookup_insert_ne.
Qed.

(** Positions a thread looks at, with the stamp it needs there. *)
Definition needs (log : list T) (h : nat) (pc : Pc T) (p : nat) (w : Z) : Prop :=
  match pc with
  | PushSwap _ t => t = enc p ∧ p = length log ∧ w = enc p
  | PushWrite _ t | PushStamp t => t = enc p ∧ w = enc p
  | PopSwap t => t = enc p ∧ p = h ∧ w = (enc p + 1)%Z
  | PopRead t | PopStamp _ t => t = enc p ∧ w = (enc p + 1)%Z
  | _ => False
  end.

(** A thread that does not need the slot that changes. *)
Lemma pc_ok_other q log h m j pc p s0 s :
  sized cap q → pc_ok q log h m j pc → slot_at q p = Some s0 →
  (∀ p' w, needs log h pc p' w → p' mod cap = p mod cap → w ≠ qs_stamp s0) →
  pc_ok (set_slot q (p mod cap) s) log h m j pc.
Proof.
  intros Hz Hok Hs Hn.
  assert (Hx : ∀ p' s', slot_at q p' = Some s' → needs log h pc p' (qs_stamp s') → slot_at (set_slot q (p mod cap) s) p' = Some s').
  { intros p' s' Hs' Hneed. rewrite set_slot_at by done. rewrite decide_False; [done|]. intros Heq.
    apply (Hn p' _ Hneed Heq). unfold slot_at in Hs, Hs'. rewrite Heq, Hs in Hs'. congruence. }
  destruct pc; cbn in Hok |- *; auto.
  - destruct Hok as (p' & -> & Hp & Hc). exists p'. split; [done|]. split; [done|]. intros Hpl.
    destruct (Hc Hpl) as (s' & Hs' & Hst). exists s'. split; [|done]. apply Hx; [done|]. rewrite Hst. by cbn.
  - destruct Hok as (p' & s' & -> & Hp & Hl & Hs' & Hst). exists p', s'. repeat (split; [done|]). split; [|done]. apply Hx; [done|]. by rewrite Hst.
  - destruct Hok as (p' & -> & Hp & Hs'). exists p'. repeat (split; [done|]). by apply Hx.
  - destruct Hok as (p' & -> & Hp & Hc). exists p'. split; [done|]. split; [done|]. intros Hpl.
    destruct (Hc Hpl) as (s' & Hs' & Hst). exists s'. split; [|done]. apply Hx; [done|]. rewrite Hst. by cbn.
  - destruct Hok as (p' & v & -> & Hp & Hl & Hm & Hs'). exists p', v. repeat (split; [done|]). by apply Hx.
  - destruct Hok as (p' & -> & Hp & Hl & Hm & Hs'). exists p'. repeat (split; [done|]). by apply Hx.
Qed.

(** What is known of the stamps threads need. *)
Lemma needs_ok q log h m j pc p w : pc_ok q log h m j pc → needs log h pc p w →
  ∃ s, slot_at q p = Some s ∧ qs_stamp s = w.
Proof.
  intros Hok Hn. destruct pc; cbn in Hok, Hn; try done.
  - destruct Hn as (-> & Hp & ->), Hok as (p' & <-%stamp_inj & _ & Hc). exact (Hc Hp).
  - destruct Hn as (-> & ->), Hok as (p' & s' & <-%stamp_inj & _ & _ & Hs). eauto.
  - destruct Hn as (-> & ->), Hok as (p' & <-%stamp_inj & _ & Hs). eauto.
  - destruct Hn as (-> & Hp & ->), Hok as (p' & <-%stamp_inj & _ & Hc). exact (Hc Hp).
  - destruct Hn as (-> & ->), Hok as (p' & v' & <-%stamp_inj & _ & _ & _ & Hs). eauto.
  - destruct Hn as (-> & ->), Hok as (p' & <-%stamp_inj & _ & _ & _ & Hs). eauto.
Qed.

(** The claim on a push keeps other threads away from the slot. *)
Lemma push_alone q ts log h m i pc p j pcj p' w :
  qinv q ts log h m → ts !! i = Some pc → push_claim pc = Some (enc p) → p < length log →
  j ≠ i → ts !! j = Some pcj → needs log h pcj p' w → p' mod cap = p mod cap → w ≠ enc p.
Proof.
  intros Hi Ht Hc Hlt Hne Hj Hn Hm ->. destruct pcj; cbn in Hn; try done.
  - destruct Hn as (_ & Hp & He%stamp_inj). lia.
  - destruct Hn as (-> & He%stamp_inj). subst p'. apply Hne. by apply (qi_push_claims _ _ _ _ _ Hi j i _ pc (enc p) Hj Ht).
  - destruct Hn as (-> & He%stamp_inj). subst p'. apply Hne. by apply (qi_push_claims _ _ _ _ _ Hi j i _ pc (enc p) Hj Ht).
  - destruct Hn as (_ & _ & He). by apply stamp_ne in He.
  - destruct Hn as (_ & He). by apply stamp_ne in He.
  - destruct Hn as (_ & He). by apply stamp_ne in He.
Qed.

Lemma pop_alone q ts log h m i pc p j pcj p' w :
  qinv q ts log h m → ts !! i = Some pc → pop_claim pc = Some (enc p) → p < h →
  j ≠ i → ts !! j = Some pcj → needs log h pcj p' w → p' mod cap = p mod cap → w ≠ (enc p + 1)%Z.
Proof.
  intros Hi Ht Hc Hlt Hne Hj Hn Hm ->. destruct pcj; cbn in Hn; try done.
  - destruct Hn as (_ & _ & He). symmetry in He. by apply stamp_ne in He.
  - destruct Hn as (_ & He). symmetry in He. by apply stamp_ne in He.
  - destruct Hn as (_ & He). symmetry in He. by apply stamp_ne in He.
  - destruct Hn as (_ & Hp & He%stamp1_inj). lia.
  - destruct Hn as (-> & He%stamp1_inj). subst p'. apply Hne. by apply (qi_pop_claims _ _ _ _ _ Hi j i _ pc (enc p) Hj Ht).
  - destruct Hn as (-> & He%stamp1_inj). subst p'. apply Hne. by apply (qi_pop_claims _ _ _ _ _ Hi j i _ pc (enc p) Hj Ht).
Qed.

Lemma pc_ok_taken q log h m m' j pc : m' !! j = m !! j → pc_ok q log h m j pc → pc_ok q log h m' j pc.
Proof. intros Hm. destruct pc; cbn; rewrite ?Hm; auto. Qed.

(** A step of thread [i] that changes the slot of [p]. *)
Lemma slot_step q ts log h m m' i pc pc' p s0 s :
  qinv q ts log h m → ts !! i = Some pc → slot_at q p = Some s0 →
  (∃ p', p' mod cap = p mod cap ∧ phase (<[i := pc']> ts) log h p' s) →
  (∀ w, push_claim pc = Some w → push_claim pc' = Some w ∨ w = enc p) → (∀ w, push_claim pc' = Some w → push_claim pc = Some w) →
  (∀ w, pop_claim pc = Some w → pop_claim pc' = Some w ∨ w = enc p) → (∀ w, pop_claim pc' = Some w → pop_claim pc = Some w) →
  pc_ok (set_slot q (p mod cap) s) log h m' i pc' →
  (∀ j pcj p' w, j ≠ i → ts !! j = Some pcj → needs log h pcj p' w → p' mod cap = p mod cap → w ≠ qs_stamp s0) →
  (∀ j, j ≠ i → m' !! j = m !! j) →
  qinv (set_slot q (p mod cap) s) (<[i := pc']> ts) log h m'.
Proof.
  intros Hi Ht Hs (p1 & Hp1 & Hph) Hlost Hnew Hlost' Hnew' Hok Halone Hm. pose proof (qi_sized _ _ _ _ _ Hi) as Hz. split; try apply Hi.
  - split; [cbn; rewrite length_insert; apply Hz|apply Hz].
  - intros k sk Hk. destruct (decide (k = p mod cap)) as [->|Hne].
    + cbn in Hk. rewrite list_lookup_insert_eq in Hk by (by eapply lookup_lt_Some). injection Hk as <-. eauto.
    + cbn in Hk. rewrite list_lookup_insert_ne in Hk by done. destruct (qi_slots _ _ _ _ _ Hi k sk Hk) as (p' & Hp' & Hph').
      exists p'. split; [done|]. assert (enc p' ≠ enc p) by (intros He%stamp_inj; congruence).
      eapply phase_threads; [done| |]; eapply claims_kept; eauto.
      * intros Hw. by destruct (Hlost _ Hw).
      * intros Hw. by destruct (Hlost' _ Hw).
  - intros j pcj [(<- & <- & _)|[Hne Hj]]%list_lookup_insert_Some; [done|].
    apply (pc_ok_taken _ _ _ m); [by apply Hm|]. eapply pc_ok_other; [done|by apply (qi_threads _ _ _ _ _ Hi)|done|]. eauto.
  - eapply claims_unique; [done| |apply Hi]. auto.
  - eapply claims_unique; [done| |apply Hi]. auto.
Qed.

Lemma step_push_write q ts log h m i v p s :
  qinv q ts log h m → ts !! i = Some (PushWrite v (enc p)) → slot_at q p = Some s →
  qinv (set_slot q (p mod cap) (mkQSlot (qs_stamp s) (Some v))) (<[i := PushStamp (enc p)]> ts) log h m.
Proof.
  intros Hi Ht Hs. pose proof (qi_threads _ _ _ _ _ Hi i _ Ht) as Hok. cbn in Hok.
  destruct Hok as (p' & s' & <-%stamp_inj & Hp & Hl & Hs' & Hst). rewrite Hs in Hs'. injection Hs' as <-.
  eapply (slot_step q ts log h m m i _ _ p s); [done|done|done| |by left|done|by left|done| | |done].
  - exists p. split; [done|]. apply (ph_claimed _ _ _ _ _ i (PushStamp (enc p))); [done|done| |done].
    by rewrite list_lookup_insert_eq by (by eapply lookup_lt_Some).
  - exists p. split; [done|]. split; [done|]. rewrite set_slot_at by apply Hi. rewrite decide_True by done. by rewrite Hst, Hl.
  - intros j pcj p'' w Hne Hj Hn Hm. rewrite Hst. by eapply push_alone; [exact Hi|exact Ht|..]; eauto; lia.
Qed.

Lemma step_push_stamp q ts log h m i p s :
  qinv q ts log h m → ts !! i = Some (PushStamp (enc p)) → slot_at q p = Some s →
  qinv (set_slot q (p mod cap) (mkQSlot (enc p + 1)%Z (qs_value s))) (<[i := Idle]> ts) log h m.
Proof.
  intros Hi Ht Hs. pose proof (qi_threads _ _ _ _ _ Hi i _ Ht) as Hok. cbn in Hok.
  destruct Hok as (p' & <-%stamp_inj & Hp & Hs'). rewrite Hs in Hs'. injection Hs' as ->.
  eapply (slot_step q ts log h m m i _ _ p); [done|done|done| | |done|by left|done|done| |done].
  - exists p. split; [done|]. by apply ph_full.
  - intros w [= <-]. by right.
  - intros j pcj p'' w Hne Hj Hn Hm. cbn. eapply (push_alone q ts log h m i); eauto; done || lia.
Qed.

Lemma step_pop_stamp q ts log h m i v p s :
  qinv q ts log h m → length log + cap < limit → ts !! i = Some (PopStamp v (enc p)) → slot_at q p = Some s →
  qinv (set_slot q (p mod cap) (mkQSlot (wadd64 (enc p) (aq_one_lap q)) (qs_value s))) (<[i := Idle]> ts) log h (delete i m).
Proof.
  intros Hi Hb Ht Hs. pose proof (qi_threads _ _ _ _ _ Hi i _ Ht) as Hok. cbn in Hok.
  destruct Hok as (p' & <-%stamp_inj & Hp & Hl & Hm & Hs'). rewrite Hs in Hs'. injection Hs' as ->.
  pose proof (qi_order _ _ _ _ _ Hi) as Ho. destruct (phase_enc1 q ts log h m p _ Hi Hs eq_refl) as (_ & Hr & _).
  destruct (qi_sized _ _ _ _ _ Hi) as [_ ->]. rewrite (enc_wrap cap cap_pos cap_small) by lia.
  eapply (slot_step q ts log h m (delete i m) i _ _ p); [done|done|done| |by left|done| |done|done| |].
  - exists (p + cap). split; [replace (p + cap) with (p + 1 * cap) by lia; apply Nat.Div0.mod_add|]. apply ph_free; [done|lia].
  - intros w [= <-]. by right.
  - intros j pcj p'' w Hne Hj Hn Hmod. cbn. eapply (pop_alone q ts log h m i); eauto; done || lia.
  - intros j Hj. by rewrite lookup_delete_ne.
Qed.

(** ** Simulation *)

Definition pushes (l : nat * Label T) : nat := match l.2 with LinPush _ => 1 | _ => 0 end.

Definition steps_to q ts log h m i l q' ts' : Prop :=
  ∃ log' h' m', qinv q' ts' log' h' m' ∧ aqstep cap (drop h log, m) (i, l) (drop h' log', m') ∧
    length log' = length log + pushes (i, l).

(** A step the abstract queue does not see. *)
Lemma silent q ts log h m i pc pc' :
  qinv q ts log h m → ts !! i = Some pc → push_claim pc' = push_claim pc → pop_claim pc' = pop_claim pc →
  pc_ok q log h m i pc' → steps_to q ts log h m i Tau q (<[i := pc']> ts).
Proof.
  intros Hi Ht Hpu Hpo Hok. exists log, h, m. split; [by eapply local_step|]. split; [constructor|]. cbn. lia.
Qed.

Lemma push_sim q ts log h m i pc b q' pc' l :
  qinv q ts log h m → length log + pushes (i, l) + cap < limit → ts !! i = Some pc → push_step q pc b = Ret (q', pc', l) →
  steps_to q ts log h m i l q' (<[i := pc']> ts).
Proof.
  intros Hi Hb Ht Hr. pose proof (qi_threads _ _ _ _ _ Hi i _ Ht) as Hok. pose proof (qi_order _ _ _ _ _ Hi) as Ho.
  pose proof (qi_tail _ _ _ _ _ Hi) as Htl. destruct pc; cbn in Hr; try done.
  - injection Hr as <- <- <-. eapply silent; eauto. rewrite Htl. exists (length log). done.
  - destruct Hok as (p & -> & Hp). destruct (get_enc q ts log h m p Hi ltac:(lia) Hp) as (s & Hg & Hs & _). rewrite Hg in Hr. cbn in Hr.
    destruct (Z.eqb_spec (enc p) (qs_stamp s)) as [He|He]; [injection Hr as <- <- <-; eapply silent; eauto; exists p; eauto|].
    destruct (_ =? _)%Z; injection Hr as <- <- <-; eapply silent; eauto; [by exists p|done].
  - destruct Hok as (p & -> & Hp & Hst). destruct (Z.eqb_spec (aq_tail q) (enc p)) as [He|He]; cbn in Hr.
    2: { injection Hr as <- <- <-. eapply silent; eauto. rewrite Htl. exists (length log). done. }
    destruct b; cbn in Hr; injection Hr as <- <- <-.
    { eapply silent; eauto. rewrite Htl. exists (length log). done. }
    rewrite Htl in He. apply stamp_inj in He as Heq. symmetry in Heq. destruct (Hst Heq) as (s & Hs & Hss). cbn in Hb.
    destruct (swap_push q ts log h m i v p s Hi) as [Hi' Hlt]; [lia|done|done|done|done|].
    exists (log ++ [v]), h, m. split; [done|]. split; [|by rewrite length_app]. rewrite drop_app_le by lia.
    apply aq_push. rewrite length_drop. lia.
  - destruct Hok as (p & -> & Hp). rewrite (qi_head _ _ _ _ _ Hi) in Hr. rewrite (proj2 (qi_sized _ _ _ _ _ Hi)) in Hr.
    rewrite (enc_wrap cap cap_pos cap_small) in Hr by lia.
    destruct (Z.eqb_spec (enc (h + cap)) (enc p)) as [He|He]; injection Hr as <- <- <-; [|eapply silent; eauto; done].
    apply stamp_inj in He. exists log, h, m. split; [eapply local_step; eauto; done|]. split; [|cbn; lia].
    apply aq_ret_full. rewrite length_drop. lia.
  - destruct Hok as (p & s & -> & Hp & Hl & Hs & Hst). destruct (get_enc q ts log h m p Hi ltac:(lia) ltac:(lia)) as (s' & Hg & Hs' & Hix).
    rewrite Hg in Hr. cbn in Hr. rewrite Hix in Hr. injection Hr as <- <- <-. exists log, h, m.
    split; [by eapply step_push_write|]. split; [constructor|cbn; lia].
  - destruct Hok as (p & -> & Hp & Hs). destruct (get_enc q ts log h m p Hi ltac:(lia) ltac:(lia)) as (s' & Hg & Hs' & Hix).
    rewrite Hg in Hr. cbn in Hr. rewrite Hix in Hr. injection Hr as <- <- <-. exists log, h, m.
    split; [by eapply step_push_stamp|]. split; [constructor|cbn; lia].
Qed.

Lemma pop_sim q ts log h m i pc b q' pc' l :
  qinv q ts log h m → length log + pushes (i, l) + cap < limit → ts !! i = Some pc → pop_step q pc b = Ret (q', pc', l) →
  steps_to q ts log h m i l q' (<[i := pc']> ts).
Proof.
  intros Hi Hb Ht Hr. pose proof (qi_threads _ _ _ _ _ Hi i _ Ht) as Hok. pose proof (qi_order _ _ _ _ _ Hi) as Ho.
  pose proof (qi_head _ _ _ _ _ Hi) as Hhd. destruct pc; cbn in Hr; try done.
  - injection Hr as <- <- <-. eapply silent; eauto. rewrite Hhd. exists h. done.
  - destruct Hok as (p & -> & Hp). destruct (get_enc q ts log h m p Hi ltac:(lia) ltac:(lia)) as (s & Hg & Hs & _). rewrite Hg in Hr. cbn in Hr.
    destruct (Z.eqb_spec (enc p + 1) (qs_stamp s)) as [He|He]; [injection Hr as <- <- <-; eapply silent; eauto; exists p; eauto|].
    destruct (_ =? _)%Z; injection Hr as <- <- <-; eapply silent; eauto; [by exists p|done].
  - destruct Hok as (p & -> & Hp & Hst). destruct (Z.eqb_spec (aq_head q) (enc p)) as [He|He]; cbn in Hr.
    2: { injection Hr as <- <- <-. eapply silent; eauto. rewrite Hhd. exists h. done. }
    destruct b; cbn in Hr; injection Hr as <- <- <-.
    { eapply silent; eauto. rewrite Hhd. exists h. done. }
    rewrite Hhd in He. apply stamp_inj in He as <-. destruct (Hst eq_refl) as (s & Hs & Hss).
    destruct (swap_pop q ts log h m i s Hi ltac:(lia) Ht Hs Hss) as (v & Hv & Hi').
    exists log, (h + 1), (<[i := v]> m). split; [done|]. split; [|cbn; lia]. rewrite (drop_S _ _ _ Hv). rewrite Nat.add_1_r. constructor.
  - destruct Hok as (p & -> & Hp). rewrite (qi_tail _ _ _ _ _ Hi) in Hr.
    destruct (Z.eqb_spec (enc (length log)) (enc p)) as [He|He]; injection Hr as <- <- <-; [|eapply silent; eauto; done].
    apply stamp_inj in He. exists log, h, m. split; [eapply local_step; eauto; done|]. split; [|cbn; lia].
    rewrite drop_ge by lia. constructor.
  - destruct Hok as (p & v & -> & Hp & Hl & Hm & Hs). destruct (get_enc q ts log h m p Hi ltac:(lia) ltac:(lia)) as (s' & Hg & Hs' & Hix).
    rewrite Hs in Hs'. injection Hs' as <-. rewrite Hg in Hr. cbn in Hr. injection Hr as <- <- <-. eapply silent; eauto. by exists p.
  - destruct Hok as (p & -> & Hp & Hl & Hm & Hs). destruct (get_enc q ts log h m p Hi ltac:(lia) ltac:(lia)) as (s' & Hg & Hs' & Hix).
    rewrite Hg in Hr. cbn in Hr. rewrite Hix in Hr. injection Hr as <- <- <-. exists log, h, (delete i m).
    split; [eapply step_pop_stamp; eauto; lia|]. split; [by constructor|cbn; lia].
Qed.

Lemma qstep_sim q ts log h m i l q' ts' :
  qinv q ts log h m → length log + pushes (i, l) + cap < limit → qstep (q, ts) (i, l) (q', ts') →
  steps_to q ts log h m i l q' ts'.
Proof.
  intros Hi Hb Hs. inversion Hs as [? ? ? v Ht|? ? ? Ht|? ? ? pc b ? pc' ? Ht _ Hr]; subst.
  - eapply silent; eauto. done.
  - eapply silent; eauto. done.
  - unfold queue_step in Hr. destruct (is_push pc); [by eapply push_sim|by eapply pop_sim].
Qed.

(** Every thread in a call can take its next step. *)
Lemma step_defined q ts log h m i pc b :
  qinv q ts log h m → length log + cap < limit → ts !! i = Some pc → pc ≠ Idle → ∃ r, queue_step q pc b = Ret r.
Proof.
  intros Hi Hb Ht Hne. pose proof (qi_threads _ _ _ _ _ Hi i _ Ht) as Hok. pose proof (qi_order _ _ _ _ _ Hi) as Ho.
  destruct pc; cbn; try done; try (eexists; reflexivity).
  - destruct Hok as (p & -> & Hp). destruct (get_enc q ts log h m p Hi Hb Hp) as (s & -> & _). cbn. repeat case_match; eauto.
  - case_match; eauto.
  - case_match; eauto.
  - destruct Hok as (p & s & -> & Hp & _). destruct (get_enc q ts log h m p Hi Hb ltac:(lia)) as (s' & -> & _). cbn. eauto.
  - destruct Hok as (p & -> & Hp & _). destruct (get_enc q ts log h m p Hi Hb ltac:(lia)) as (s' & -> & _). cbn. eauto.
  - destruct Hok as (p & -> & Hp). destruct (get_enc q ts log h m p Hi Hb ltac:(lia)) as (s & -> & _). cbn. repeat case_match; eauto.
  - case_match; eauto.
  - case_match; eauto.
  - destruct Hok as (p & v & -> & Hp & Hl & Hm & Hs). destruct (get_enc q ts log h m p Hi Hb ltac:(lia)) as (s' & -> & Hs' & _).
    rewrite Hs in Hs'. injection Hs' as <-. cbn. eauto.
  - destruct Hok as (p & -> & Hp & _). destruct (get_enc q ts log h m p Hi Hb ltac:(lia)) as (s' & -> & _). cbn. eauto.
Qed.

Lemma new_inv q n : ArrayQueue_new cap = Ret q → qinv q (replicate n Idle) [] 0 ∅.
Proof.
  unfold ArrayQueue_new. rewrite decide_False by lia. intros [= <-].
  assert (Hsz : sized cap (mkQueue 0 0 ((λ i, mkQSlot (Z.of_nat i) (@None T)) <$> seq 0 cap) (next_power_of_two (Z.of_nat cap + 1)))).
  { split; [cbn; by rewrite length_fmap, length_seq|done]. }
  assert (Hidle : ∀ i pc, replicate n (@Idle T) !! i = Some pc → pc = Idle) by (intros i pc [-> _]%lookup_replicate; done).
  assert (Henc : ∀ i, i < cap → enc i = Z.of_nat i).
  { intros i Hi. unfold ArrayQueueInv.enc. by rewrite Nat.div_small, Nat.mod_small by done. }
  split; cbn; try done.
  - by rewrite Henc.
  - by rewrite Henc.
  - lia.
  - intros i s Hs. rewrite list_lookup_fmap in Hs. apply fmap_Some in Hs as (j & Hj & ->). apply lookup_seq in Hj as [-> Hj].
    exists i. split; [by apply Nat.mod_small|]. apply ph_free; cbn; [by rewrite Henc|lia].
  - by intros i pc ->%Hidle.
  - by intros i j pc pc' w ->%Hidle.
  - by intros i j pc pc' w ->%Hidle.
Qed.

Definition total_pushes (tr : list (nat * Label T)) : nat := sum_list_with pushes tr.

Lemma trace_sim s tr s' :
  qtrace s tr s' → ∀ log h m, qinv s.1 s.2 log h m → length log + total_pushes tr + cap < limit →
  ∃ log' h' m', qinv s'.1 s'.2 log' h' m' ∧ aqtrace cap (drop h log, m) tr (drop h' log', m') ∧
    length log' = length log + total_pushes tr.
Proof.
  induction 1 as [s|s tr [q1 ts1] [i l] [q2 ts2] _ IH Hst]; intros log h m Hi Hb.
  - exists log, h, m. split; [done|]. split; [constructor|]. cbn. lia.
  - unfold total_pushes in *. rewrite sum_list_with_app in Hb |- *. cbn in Hb |- *.
    destruct (IH log h m Hi) as (log1 & h1 & m1 & Hi1 & Ha1 & Hl1); [lia|].
    destruct (qstep_sim q1 ts1 log1 h1 m1 i l q2 ts2 Hi1) as (log2 & h2 & m2 & Hi2 & Ha2 & Hl2); [lia|done|].
    exists log2, h2, m2. split; [done|]. split; [by econstructor|]. lia.
Qed.
End inv.

(** C22: [ArrayQueue] is linearizable.  In any interleaving of any number of
    threads running [push] and [pop], with weak compare-exchanges that may fail
    spuriously, the trace is one of a bounded first-in first-out queue in which
    each operation takes effect at one moment: [push] appends when its
    compare-exchange succeeds, [pop] takes the first element when its
    compare-exchange succeeds and later returns that very element, [push] is
    refused only at a moment the queue is full, and [pop] answers nothing only
    when it is empty.  The words do not repeat below [limit] pushes (about 2^63
    or more). *)
Theorem array_queue_linearizable {T} (cap n : nat) (q0 : ArrayQueue T) tr s :
  0 < cap → (Z.of_nat cap < 2 ^ 62)%Z → ArrayQueue_new cap = Ret q0 →
  qtrace (q0, replicate n Idle) tr s → total_pushes tr + cap < limit cap →
  ∃ xs m, aqtrace cap ([], ∅) tr (xs, m).
Proof.
  intros Hc Hs Hn Ht Hb. pose proof (new_inv cap Hc q0 n Hn) as Hi.
  destruct (trace_sim cap Hc Hs _ _ _ Ht [] 0 ∅ Hi) as (log & h & m & _ & Ha & _); [cbn; lia|]. eauto.
Qed.

(** No step of [ArrayQueue] is undefined: at every point of every
    interleaving each thread in a call can take its next step (its slot exists,
    and a slot it reads is filled). *)
Theorem array_queue_steps_defined {T} (cap n : nat) (q0 : ArrayQueue T) tr q ts i pc spurious :
  0 < cap → (Z.of_nat cap < 2 ^ 62)%Z → ArrayQueue_new cap = Ret q0 →
  qtrace (q0, replicate n Idle) tr (q, ts) → total_pushes tr + cap < limit cap →
  ts !! i = Some pc → pc ≠ Idle → ∃ r, queue_step q pc spurious = Ret r.
Proof.
  intros Hc Hs Hn Ht Hb Hi Hne. pose proof (new_inv cap Hc q0 n Hn) as Hi0.
  destruct (trace_sim cap Hc Hs _ _ _ Ht [] 0 ∅ Hi0) as (log & h & m & Hi1 & _ & Hl); [cbn; lia|].
  eapply (step_defined cap Hc Hs q ts log h m); eauto. cbn in Hl. lia.
Qed.

(** ** Examples *)

(** One thread pushes into a queue of one slot, then a second push is refused
    and a pop takes the element. *)
Lemma limit_1 : 3 < limit 1.
Proof.
  assert (Hs : (Z.of_nat 1 < 2 ^ 62)%Z) by lia. destruct (lap_laps 1 ltac:(lia) Hs) as [Hl Hr].
  change (lap 1) with 2%Z in Hl. unfold limit. lia.
Qed.

Definition ex_q1 : ArrayQueue nat := mkQueue 0 0 [mkQSlot 0 None] 2.

(** Thread 0 in the middle of a push, after its compare-exchange. *)
Lemma ex_push_trace :
  qtrace (ex_q1, replicate 2 Idle) [(0, Tau); (0, Tau); (0, Tau); (0, LinPush 7)]
    (mkQueue 0 2 [mkQSlot 0 None] 2, [PushWrite 7 0; Idle]).
Proof.
  apply (qt_snoc _ [(0, Tau); (0, Tau); (0, Tau)] (ex_q1, [PushSwap 7 0; Idle])).
  apply (qt_snoc _ [(0, Tau); (0, Tau)] (ex_q1, [PushInspect 7 0; Idle])).
  apply (qt_snoc _ [(0, Tau)] (ex_q1, [PushLoad 7; Idle])).
  apply (qt_snoc _ [] (ex_q1, [Idle; Idle])). apply qt_nil.
  - by apply (q_start_push ex_q1 [Idle; Idle] 0 7).
  - by apply (q_run ex_q1 [PushLoad 7; Idle] 0 (PushLoad 7) false).
  - by apply (q_run ex_q1 [PushInspect 7 0; Idle] 0 (PushInspect 7 0) false).
  - by apply (q_run ex_q1 [PushSwap 7 0; Idle] 0 (PushSwap 7 0) false).
Qed.

Lemma array_queue_linearizable_witness :
  ∃ xs m, aqtrace 1 ([], ∅) [(0, Tau); (0, Tau); (0, Tau); (0, LinPush 7)] (xs, m).
Proof.
  apply (array_queue_linearizable 1 2 ex_q1 _ _ ltac:(lia) ltac:(lia) eq_refl ex_push_trace).
  apply (Nat.lt_trans _ 3); [exact (le_n 3)|exact limit_1].
Defined.

Lemma array_queue_steps_defined_witness :
  ∃ r, queue_step (mkQueue 0 2 [mkQSlot 0 None] 2) (PushWrite 7 0) false = Ret r.
Proof.
  eapply (array_queue_steps_defined 1 2 ex_q1 _ _ _ 0 _ false ltac:(lia) ltac:(lia) eq_refl ex_push_trace).
  - apply (Nat.lt_trans _ 3); [exact (le_n 3)|exact limit_1].
  - reflexivity.
  - discriminate.
Defined.
