(* ===== verification/ArrayQueueSeq.v ===== *)
(** * The bounded queue under exclusive access

    [push_mut], [pop_mut], [len], [is_empty], [is_full] and [Drop] of
    [crates/voker-os/src/utils/array_queue.rs], at the points of an interleaving
    where no thread is inside a call: they act on the elements the abstract queue
    holds there. *)

From Stdlib Require Import ZArith Lia.
From S2P Require Import Prelude ArrayQueue ArrayQueueInv.

Section exclusive.
Context {T : Type}.
Variable cap : nat.
Hypothesis cap_pos : 0 < cap.
Hypothesis cap_small : (Z.of_nat cap < 2 ^ 62)%Z.
Notation enc := (enc cap).
Notation limit := (limit cap).
Implicit Types (q : ArrayQueue T) (log : list T).

(** Between calls. *)
Definition quiet q log h : Prop := qinv cap q [Idle] log h ∅ ∧ length log + 1 + cap < limit.

Lemma quiet_of q ts log h m :
  qinv cap q ts log h m → (∀ i pc, ts !! i = Some pc → pc = Idle) → length log + 1 + cap < limit → quiet q log h.
Proof.
  intros Hi Hid Hb. split; [|done]. split; try apply Hi.
  - intros i s Hs. destruct (qi_slots _ _ _ _ _ _ Hi i s Hs) as (p & Hp & Hph). exists p. split; [done|].
    eapply phase_threads; [done| |]; intros j pc Hj Hc; by rewrite (Hid _ _ Hj) in Hc.
  - intros i pc [-> <-]%list_lookup_singleton_Some. done.
  - intros i j pc pc' w [-> <-]%list_lookup_singleton_Some. done.
  - intros i j pc pc' w [-> <-]%list_lookup_singleton_Some. done.
Qed.

(** The slot of every stored position is filled; the next one is free. *)
Lemma quiet_full q log h p : quiet q log h → h ≤ p < length log → slot_at cap q p = Some (mkQSlot (enc p + 1) (log !! p)).
Proof.
  intros [Hi _] Hp. pose proof (qi_order _ _ _ _ _ _ Hi) as Ho.
  destruct (slot_exists cap cap_pos q p (qi_sized _ _ _ _ _ _ Hi)) as [s Hs]. rewrite Hs.
  destruct (slot_phase cap q _ log h ∅ p s Hi Hs) as (p' & Hm & [Hst Hr|i pc ? ? Ht Hc|Hst Hr Hv|i pc ? ? ? ? Ht Hc]).
  - rewrite (same_slot cap cap_pos p' p Hm) in Hr by lia. lia.
  - apply list_lookup_singleton_Some in Ht as [_ <-]. done.
  - rewrite (same_slot cap cap_pos p' p Hm) in Hst, Hv by lia. destruct s. cbn in *. congruence.
  - apply list_lookup_singleton_Some in Ht as [_ <-]. done.
Qed.

Lemma quiet_free q log h : quiet q log h → length log < h + cap → ∃ s, slot_at cap q (length log) = Some s ∧ qs_stamp s = enc (length log).
Proof.
  intros [Hi _] Hp. pose proof (qi_order _ _ _ _ _ _ Hi) as Ho.
  destruct (slot_exists cap cap_pos q (length log) (qi_sized _ _ _ _ _ _ Hi)) as [s Hs]. exists s. split; [done|].
  destruct (slot_phase cap q _ log h ∅ _ s Hi Hs) as (p' & Hm & [Hst Hr|i pc ? ? Ht Hc|Hst Hr Hv|i pc ? ? ? ? Ht Hc]).
  - by rewrite (same_slot cap cap_pos p' (length log) Hm) in Hst by lia.
  - apply list_lookup_singleton_Some in Ht as [_ <-]. done.
  - pose proof (same_slot cap cap_pos p' (length log) Hm). lia.
  - apply list_lookup_singleton_Some in Ht as [_ <-]. done.
Qed.

Lemma quiet_empty q log h : quiet q log h → ArrayQueue_is_empty q = bool_decide (length log = h).
Proof.
  intros [Hi _]. unfold ArrayQueue_is_empty. rewrite (qi_head _ _ _ _ _ _ Hi), (qi_tail _ _ _ _ _ _ Hi).
  case_bool_decide as Hd; [rewrite Hd; apply Z.eqb_refl|]. apply Z.eqb_neq. intros He. by apply (stamp_inj cap cap_pos cap_small) in He.
Qed.

Lemma quiet_is_full q log h : quiet q log h → ArrayQueue_is_full q = bool_decide (length log = h + cap).
Proof.
  intros [Hi Hb]. pose proof (qi_order _ _ _ _ _ _ Hi) as Ho. unfold ArrayQueue_is_full.
  rewrite (qi_head _ _ _ _ _ _ Hi), (qi_tail _ _ _ _ _ _ Hi), (proj2 (qi_sized _ _ _ _ _ _ Hi)), (enc_wrap cap cap_pos cap_small) by lia.
  case_bool_decide as Hd; [rewrite Hd; apply Z.eqb_refl|]. apply Z.eqb_neq. intros He. apply (stamp_inj cap cap_pos cap_small) in He. lia.
Qed.

Lemma land_enc q log h p : quiet q log h → p ≤ length log → Z.land (enc p) (aq_one_lap q - 1) = Z.of_nat (p mod cap).
Proof.
  intros [Hi Hb] Hp. rewrite (proj2 (qi_sized _ _ _ _ _ _ Hi)), (land_low cap) by (try done; apply (enc_bounds cap cap_pos cap_small); lia).
  pose proof (enc_mod cap cap_pos cap_small p 0 ltac:(lia)) as He. rewrite Z.add_0_r in He. rewrite He. f_equal. lia.
Qed.

Lemma quiet_len q log h : quiet q log h → ArrayQueue_len q = Z.of_nat (length log - h).
Proof.
  intros Hq. pose proof Hq as [Hi Hb]. pose proof (qi_order _ _ _ _ _ _ Hi) as Ho. pose proof (quiet_empty q log h Hq) as Hem.
  unfold ArrayQueue_is_empty in Hem. unfold ArrayQueue_len. rewrite Hem. unfold ArrayQueue_capacity.
  rewrite (proj1 (qi_sized _ _ _ _ _ _ Hi)), (qi_head _ _ _ _ _ _ Hi), (qi_tail _ _ _ _ _ _ Hi), !(land_enc q log h) by (done || lia).
  pose proof (Nat.div_mod_eq h cap). pose proof (Nat.div_mod_eq (length log) cap).
  pose proof (Nat.mod_upper_bound h cap ltac:(lia)). pose proof (Nat.mod_upper_bound (length log) cap ltac:(lia)).
  set (a := h mod cap) in *. set (b := length log mod cap) in *. set (c := h / cap) in *. set (d := length log / cap) in *.
  destruct (Z.ltb_spec (Z.of_nat a) (Z.of_nat b)) as [Hab|Hab]; [assert (c = d) by nia; nia|].
  destruct (Z.ltb_spec (Z.of_nat b) (Z.of_nat a)) as [Hba|Hba]; [assert (d = c + 1) by nia; nia|].
  case_bool_decide; [lia|]. assert (a = b) as <- by lia. assert (d = c + 1) by nia. nia.
Qed.

Lemma drop_slots_ok q log h : quiet q log h → ∀ k i, h + i + k = length log →
  drop_slots q (Z.of_nat (h mod cap)) (seq i k) = Ret (drop (h + i) log).
Proof.
  intros Hq. pose proof Hq as [Hi Hb]. pose proof (qi_order _ _ _ _ _ _ Hi) as Ho. induction k as [|k IH]; intros i Hk.
  { cbn. by rewrite drop_ge by lia. }
  cbn. assert (Hix : ∀ z, z = (if (Z.of_nat (h mod cap) + Z.of_nat i <? ArrayQueue_capacity q)%Z then (Z.of_nat (h mod cap) + Z.of_nat i)%Z
    else (Z.of_nat (h mod cap) + Z.of_nat i - ArrayQueue_capacity q)%Z) → Z.to_nat z = (h + i) mod cap).
  { intros z ->. unfold ArrayQueue_capacity. rewrite (proj1 (qi_sized _ _ _ _ _ _ Hi)).
    pose proof (Nat.div_mod_eq h cap). pose proof (Nat.mod_upper_bound h cap ltac:(lia)).
    destruct (Z.ltb_spec (Z.of_nat (h mod cap) + Z.of_nat i) (Z.of_nat cap)).
    - apply (Nat.mod_unique _ _ (h / cap)); lia.
    - apply (Nat.mod_unique _ _ (h / cap + 1)); lia. }
  rewrite (Hix _ eq_refl). unfold get_slot. pose proof (quiet_full q log h (h + i) Hq ltac:(lia)) as Hs. unfold slot_at in Hs. rewrite Hs.
  destruct (lookup_lt_is_Some_2 log (h + i) ltac:(lia)) as [v Hv]. cbn. rewrite Hv. cbn.
  rewrite IH by lia. cbn. rewrite (drop_S _ _ _ Hv). by rewrite Nat.add_succ_r.
Qed.

Lemma quiet_drop q log h : quiet q log h → ArrayQueue_drop q = Ret (drop h log).
Proof.
  intros Hq. pose proof Hq as [Hi Hb]. pose proof (qi_order _ _ _ _ _ _ Hi) as Ho. unfold ArrayQueue_drop.
  rewrite (quiet_len q log h Hq), (qi_head _ _ _ _ _ _ Hi), (land_enc q log h) by (done || lia). rewrite Nat2Z.id.
  rewrite (drop_slots_ok q log h Hq) by lia. by rewrite Nat.add_0_r.
Qed.

(** [push_mut] is the three steps of [push] that change the queue. *)
Lemma quiet_push q log h v : quiet q log h → length log < h + cap → length log + 2 + cap < limit →
  ∃ q', ArrayQueue_push_mut q v = Ret (Ok tt, q') ∧ quiet q' (log ++ [v]) h.
Proof.
  intros Hq Hlt Hb2. pose proof Hq as [Hi Hb]. destruct (quiet_free q log h Hq Hlt) as (s & Hs & Hst).
  pose proof (quiet_is_full q log h Hq) as Hf. unfold ArrayQueue_is_full in Hf. rewrite bool_decide_false in Hf by lia.
  pose proof (qi_tail _ _ _ _ _ _ Hi) as Htl. pose proof (qi_sized _ _ _ _ _ _ Hi) as Hz.
  unfold ArrayQueue_push_mut. rewrite Hf. rewrite Htl. set (p := length log) in *.
  assert (Hix : index_of q (enc p) = p mod cap) by (apply (index_enc cap cap_pos cap_small); done || lia).
  assert (Hg : get_slot (set_tail q (next_word q (enc p))) (index_of q (enc p)) = Ret s).
  { rewrite Hix. unfold get_slot. cbn. unfold slot_at in Hs. by rewrite Hs. }
  rewrite Hg. cbn. eexists. split; [done|]. split; [|rewrite length_app; cbn; lia]. rewrite Hix.
  pose proof (local_step cap q _ log h ∅ 0 Idle (PushSwap v (enc p)) Hi eq_refl eq_refl eq_refl) as H0.
  lapply H0; [clear H0; intros H0|exists p; split; [done|]; split; [lia|]; eauto].
  destruct (swap_push cap cap_pos cap_small q _ log h ∅ 0 v p s H0) as [H1 _]; [lia|done..|].
  pose proof (step_push_write cap cap_pos cap_small _ _ _ _ _ 0 v p s H1 eq_refl Hs) as H2.
  apply (step_push_stamp cap cap_pos cap_small _ _ _ _ _ 0 p (mkQSlot (qs_stamp s) (Some v))) in H2; [|reflexivity|rewrite (set_slot_at cap cap_pos) by done; by rewrite decide_True by done].
  cbn in H2. unfold set_slot in H2 |- *. cbn in H2 |- *. by rewrite list_insert_insert_eq in H2.
Qed.

Lemma quiet_pop q log h v : quiet q log h → log !! h = Some v →
  ∃ q', ArrayQueue_pop_mut q = Ret (Some v, q') ∧ quiet q' log (h + 1).
Proof.
  intros Hq Hv. pose proof Hq as [Hi Hb]. apply lookup_lt_Some in Hv as Hlt. pose proof (quiet_full q log h h Hq ltac:(lia)) as Hs.
  pose proof (quiet_empty q log h Hq) as He. unfold ArrayQueue_is_empty in He. rewrite bool_decide_false in He by lia.
  pose proof (qi_sized _ _ _ _ _ _ Hi) as Hz. unfold ArrayQueue_pop_mut. rewrite He, (qi_head _ _ _ _ _ _ Hi).
  assert (Hix : index_of q (enc h) = h mod cap) by (apply (index_enc cap cap_pos cap_small); done || lia).
  rewrite Hix. unfold get_slot. unfold slot_at in Hs. rewrite Hs. cbn. rewrite Hv. cbn. eexists. split; [done|]. split; [|done].
  pose proof (local_step cap q _ log h ∅ 0 Idle (PopSwap (enc h)) Hi eq_refl eq_refl eq_refl) as H0.
  lapply H0; [clear H0; intros H0|exists h; split; [done|]; split; [lia|]; eauto].
  destruct (swap_pop cap cap_pos cap_small q _ log h ∅ 0 _ H0 ltac:(lia) eq_refl Hs eq_refl) as (v' & Hv' & H1).
  rewrite Hv in Hv'. injection Hv' as <-.
  pose proof (local_step cap _ _ log (h + 1) _ 0 (PopRead (enc h)) (PopStamp v (enc h)) H1 eq_refl eq_refl eq_refl) as H2.
  lapply H2; [clear H2; intros H2|exists h; rewrite lookup_insert_eq; unfold slot_at; cbn; rewrite Hs, Hv; split; [done|]; split; [lia|done]].
  apply (step_pop_stamp cap cap_pos cap_small _ _ _ _ _ 0 v h (mkQSlot (enc h + 1) (Some v))) in H2; [|lia|reflexivity|unfold slot_at; cbn; by rewrite Hs, Hv]. cbn in H2.
  rewrite delete_insert_id in H2 by done. exact H2.
Qed.
End exclusive.

Definition idle {T} (ts : list (Pc T)) : Prop := ∀ i pc, ts !! i = Some pc → pc = Idle.

(** Whenever no thread is inside a call, the operations with exclusive access
    act on the elements [xs] that the linearized history left in the queue: [len],
    [is_empty] and [is_full] describe [xs], dropping the queue drops each element
    of [xs] once and nothing else, [push_mut] appends or, exactly when the queue
    is full, hands the value back, and [pop_mut] takes the first element. *)
Theorem array_queue_exclusive {T} (cap n : nat) (q0 : ArrayQueue T) tr q ts :
  0 < cap → (Z.of_nat cap < 2 ^ 62)%Z → ArrayQueue_new cap = Ret q0 →
  qtrace (q0, replicate n Idle) tr (q, ts) → idle ts → total_pushes tr + 2 + cap < limit cap →
  ∃ xs m, aqtrace cap ([], ∅) tr (xs, m) ∧
    ArrayQueue_len q = Z.of_nat (length xs) ∧
    ArrayQueue_is_empty q = bool_decide (xs = []) ∧
    ArrayQueue_is_full q = bool_decide (length xs = cap) ∧
    ArrayQueue_drop q = Ret xs ∧
    (∀ v, if decide (length xs = cap) then ArrayQueue_push_mut q v = Ret (Err v, q)
          else ∃ q', ArrayQueue_push_mut q v = Ret (Ok tt, q') ∧ ArrayQueue_drop q' = Ret (xs ++ [v])) ∧
    match xs with
    | [] => ArrayQueue_pop_mut q = Ret (None, q)
    | x :: xs' => ∃ q', ArrayQueue_pop_mut q = Ret (Some x, q') ∧ ArrayQueue_drop q' = Ret xs'
    end.
Proof.
  intros Hc Hs Hn Ht Hid Hb. pose proof (new_inv cap Hc q0 n Hn) as Hi0.
  destruct (trace_sim cap Hc Hs _ _ _ Ht [] 0 ∅ Hi0) as (log & h & m & Hi & Ha & Hl); [cbn; lia|]. cbn in Hl.
  pose proof (quiet_of cap q ts log h m Hi Hid ltac:(lia)) as Hq. pose proof (qi_order _ _ _ _ _ _ Hi) as Ho.
  exists (drop h log), m. split; [done|]. split; [rewrite length_drop; exact (quiet_len cap Hc Hs q log h Hq)|].
  split. { rewrite (quiet_empty cap Hc Hs q log h Hq). apply bool_decide_ext. rewrite <- length_zero_iff_nil, length_drop. lia. }
  split. { rewrite (quiet_is_full cap Hc Hs q log h Hq). apply bool_decide_ext. rewrite length_drop. lia. }
  split; [by apply (quiet_drop cap)|]. split.
  - intros v. rewrite length_drop. case_decide as Hd.
    + pose proof (quiet_is_full cap Hc Hs q log h Hq) as Hf. rewrite bool_decide_true in Hf by lia.
      unfold ArrayQueue_push_mut. unfold ArrayQueue_is_full in Hf. by rewrite Hf.
    + destruct (quiet_push cap Hc Hs q log h v Hq) as (q' & Hp & Hq'); [lia|lia|]. exists q'. split; [done|].
      rewrite (quiet_drop cap Hc Hs q' _ h Hq'). by rewrite drop_app_le by lia.
  - destruct (log !! h) as [v|] eqn:Hv.
    + rewrite (drop_S _ _ _ Hv). destruct (quiet_pop cap Hc Hs q log h v Hq Hv) as (q' & Hp & Hq'). exists q'. split; [done|].
      rewrite (quiet_drop cap Hc Hs q' _ _ Hq'). by rewrite Nat.add_1_r.
    + apply lookup_ge_None_1 in Hv. rewrite drop_ge by lia. unfold ArrayQueue_pop_mut.
      pose proof (quiet_empty cap Hc Hs q log h Hq) as He. unfold ArrayQueue_is_empty in He. rewrite He, bool_decide_true by lia. done.
Qed.

Lemma limit_2 : 10 < limit 2.
Proof.
  assert (Hs : (Z.of_nat 2 < 2 ^ 62)%Z) by lia. destruct (lap_laps 2 ltac:(lia) Hs) as [Hl Hr].
  change (lap 2) with 4%Z in Hl. unfold limit. lia.
Qed.

Definition ex_q2 : ArrayQueue nat := mkQueue 0 0 [mkQSlot 0 None; mkQSlot 1 None] 4.

(** One push, run to its end. *)
Lemma ex_push_done :
  qtrace (ex_q2, replicate 1 Idle) [(0, Tau); (0, Tau); (0, Tau); (0, LinPush 7); (0, Tau); (0, RetPush)]
    (mkQueue 0 1 [mkQSlot 1 (Some 7); mkQSlot 1 None] 4, [Idle]).
Proof.
  apply (qt_snoc _ [_; _; _; _; _] (mkQueue 0 1 [mkQSlot 0 (Some 7); mkQSlot 1 None] 4, [PushStamp 0])).
  apply (qt_snoc _ [_; _; _; _] (mkQueue 0 1 [mkQSlot 0 None; mkQSlot 1 None] 4, [PushWrite 7 0])).
  apply (qt_snoc _ [_; _; _] (ex_q2, [PushSwap 7 0])).
  apply (qt_snoc _ [_; _] (ex_q2, [PushInspect 7 0])).
  apply (qt_snoc _ [_] (ex_q2, [PushLoad 7])).
  apply (qt_snoc _ [] (ex_q2, [Idle])). apply qt_nil.
  - by apply (q_start_push ex_q2 [Idle] 0 7).
  - by apply (q_run ex_q2 [PushLoad 7] 0 (PushLoad 7) false).
  - by apply (q_run ex_q2 [PushInspect 7 0] 0 (PushInspect 7 0) false).
  - by apply (q_run ex_q2 [PushSwap 7 0] 0 (PushSwap 7 0) false).
  - by apply (q_run _ [PushWrite 7 0] 0 (PushWrite 7 0) false).
  - by apply (q_run _ [PushStamp 0] 0 (PushStamp 0) false).
Qed.

Lemma array_queue_exclusive_witness :
  ∃ xs m, aqtrace 2 ([], ∅) [(0, Tau); (0, Tau); (0, Tau); (0, LinPush 7); (0, Tau); (0, RetPush)] (xs, m) ∧
    ArrayQueue_len (mkQueue 0 1 [mkQSlot 1 (Some 7); mkQSlot 1 None] 4) = Z.of_nat (length xs).
Proof.
  destruct (array_queue_exclusive 2 1 ex_q2 _ _ _ ltac:(lia) ltac:(lia) eq_refl ex_push_done) as (xs & m & Ha & Hl & _).
  - intros i pc [_ <-]%list_lookup_singleton_Some. reflexivity.
  - apply (Nat.lt_trans _ 10); [exact (ltac:(lia) : 1 + 2 + 2 < 10)|exact limit_2].
  - exists xs, m. split; [exact Ha|exact Hl].
Defined.
