(* ===== verification/AssetPath.v ===== *)
(** * Asset paths

    [crates/voker-asset/src/path.rs]: parsing [source://path#label] and printing it
    back.  A string is its UTF-8 bytes; the three delimiter characters are ASCII, so
    that the bytes of any other character only reset the delimiter count, as the
    character does. *)

From Stdlib Require Import Ascii Lia.
From S2P Require Import Prelude.
Local Open Scope char_scope.

Notation bytes := (list ascii) (only parsing).

Inductive ParseAssetPathError :=
| InvalidSourceSyntax
| InvalidLabelSyntax
| MissingSource
| MissingLabel.

Inductive AssetSourceId :=
| SourceDefault
| SourceName (name : bytes).

Record AssetPath := mkAssetPath { ap_source : AssetSourceId; ap_path : bytes; ap_label : option bytes }.

(** The variables of the loop in [parse_internal]; ranges are pairs of byte
    indices. *)
Record ParseState := mkParse {
  ps_source_range : option (nat * nat);
  ps_path_start : nat;
  ps_path_end : nat;
  ps_label_range : option (nat * nat);
  ps_matched : nat;
  ps_last_found : nat
}.

Definition set_matched (st : ParseState) (k : nat) : ParseState :=
  mkParse (ps_source_range st) (ps_path_start st) (ps_path_end st) (ps_label_range st) k (ps_last_found st).

(** One round of the loop; [len] is [asset_path.len()]. *)
Definition parse_char (len : nat) (st : ParseState) (index : nat) (c : ascii) : Result ParseState ParseAssetPathError :=
  if Ascii.eqb c ":" then Ok (set_matched st 1)
  else if Ascii.eqb c "/" then
    match ps_matched st with
    | 1 => Ok (set_matched st 2)
    | 2 =>
        match ps_source_range st with
        | None =>
            match ps_label_range st with
            | Some _ => Err InvalidSourceSyntax
            | None => Ok (mkParse (Some (0, index - 2)) (index + 1) (ps_path_end st) (ps_label_range st) 0 (index - 2))
            end
        | Some _ => Ok (mkParse (ps_source_range st) (ps_path_start st) (ps_path_end st) (ps_label_range st) 0 (index - 2))
        end
    | _ => Ok st
    end
  else if Ascii.eqb c "#" then
    Ok (mkParse (ps_source_range st) (ps_path_start st) index (Some (index + 1, len)) 0 (ps_last_found st))
  else Ok (set_matched st 0).

Fixpoint parse_loop (len : nat) (st : ParseState) (index : nat) (chars : bytes) : Result ParseState ParseAssetPathError :=
  match chars with
  | [] => Ok st
  | c :: chars =>
      match parse_char len st index c with
      | Ok st => parse_loop len st (S index) chars
      | Err e => Err e
      end
  end.

Definition parse_start (len : nat) : ParseState := mkParse None 0 len None 0 0.

(** [&asset_path[a..b]] panics out of range. *)
Definition str_slice (s : bytes) (r : nat * nat) : outcome bytes :=
  if decide (r.1 ≤ r.2 ≤ length s) then Ret (take (r.2 - r.1) (drop r.1 s)) else Panic.

Definition range_is_empty (r : nat * nat) : bool := bool_decide (r.2 ≤ r.1).

(** A range that must not be empty. *)
Definition part (s : bytes) (r : option (nat * nat)) (missing : ParseAssetPathError) : outcome (Result (option bytes) ParseAssetPathError) :=
  match r with
  | None => Ret (Ok None)
  | Some r => if range_is_empty r then Ret (Err missing) else x ← str_slice s r; Ret (Ok (Some x))
  end.

Definition parse_internal (s : bytes) : outcome (Result (option bytes * bytes * option bytes) ParseAssetPathError) :=
  match parse_loop (length s) (parse_start (length s)) 0 s with
  | Err e => Ret (Err e)
  | Ok st =>
      if match ps_label_range st with Some r => bool_decide (r.1 ≤ ps_last_found st) | None => false end
      then Ret (Err InvalidLabelSyntax)
      else
        source ← part s (ps_source_range st) MissingSource;
        match source with
        | Err e => Ret (Err e)
        | Ok source =>
            label ← part s (ps_label_range st) MissingLabel;
            match label with
            | Err e => Ret (Err e)
            | Ok label => path ← str_slice s (ps_path_start st, ps_path_end st); Ret (Ok (source, path, label))
            end
        end
  end.

Definition AssetPath_try_parse (s : bytes) : outcome (Result AssetPath ParseAssetPathError) :=
  r ← parse_internal s;
  Ret match r with
      | Ok (source, path, label) => Ok (mkAssetPath (match source with Some n => SourceName n | None => SourceDefault end) path label)
      | Err e => Err e
      end.

(** [parse] panics on an error. *)
Definition AssetPath_parse (s : bytes) : outcome AssetPath :=
  r ← AssetPath_try_parse s;
  match r with Ok p => Ret p | Err _ => Panic end.

(** [Display], which [Serialize] uses too; [Deserialize] is [try_parse]. *)
Definition AssetPath_fmt (self : AssetPath) : bytes :=
  match ap_source self with SourceName name => name ++ [":"; "/"; "/"] | SourceDefault => [] end
  ++ ap_path self
  ++ match ap_label self with Some label => "#" :: label | None => [] end.

Definition from_path (path : bytes) : AssetPath := mkAssetPath SourceDefault path None.
Definition remove_label (self : AssetPath) : AssetPath := mkAssetPath (ap_source self) (ap_path self) None.
Definition take_label (self : AssetPath) : option bytes * AssetPath := (ap_label self, remove_label self).
Definition with_source (self : AssetPath) (source : AssetSourceId) : AssetPath := mkAssetPath source (ap_path self) (ap_label self).
Definition with_label (self : AssetPath) (label : bytes) : AssetPath := mkAssetPath (ap_source self) (ap_path self) (Some label).
Definition without_label (self : AssetPath) : AssetPath := remove_label self.
