(* ===== verification/AssetPathTheorems.v ===== *)
(** * Parsing an asset path is the inverse of printing it

    The loop of [parse_internal] keeps the position of the first and the last
    [://] and of the last [#] of the characters read so far; the parts it cuts out
    print back to the string, and every well-formed path is parsed back from its
    printed form. *)

From Stdlib Require Import Ascii Lia.
From S2P Require Import Prelude AssetPath.
Local Open Scope char_scope.

(** [://] at position [i]. *)
Definition occ (p : list ascii) (i : nat) : Prop := p !! i = Some ":" ∧ p !! (i + 1) = Some "/" ∧ p !! (i + 2) = Some "/".

Definition no_delim (p : list ascii) : Prop := ∀ i, ¬ occ p i.
Definition no_hash (p : list ascii) : Prop := "#" ∉ p.

(** How much of a delimiter [p] ends with. *)
Definition ends_one (p : list ascii) : Prop := ∃ p0, p = p0 ++ [":"].
Definition ends_two (p : list ascii) : Prop := ∃ p0, p = p0 ++ [":"; "/"].

Definition matched_ok (p : list ascii) (k : nat) : Prop :=
  (k = 1 ∧ ends_one p) ∨ (k = 2 ∧ ends_two p) ∨ (k = 0 ∧ ¬ ends_one p ∧ ¬ ends_two p).

Lemma occ_lt p i : occ p i → i + 2 < length p.
Proof. intros (_ & _ & H). by apply lookup_lt_Some in H. Qed.

Lemma occ_app_l p k i : occ p i → occ (p ++ k) i.
Proof. intros (H1 & H2 & H3). split_and!; by apply lookup_app_l_Some. Qed.

Lemma occ_app_inv p k i : occ (p ++ k) i → i + 2 < length p → occ p i.
Proof. intros (H1 & H2 & H3) Hi. rewrite lookup_app_l in H1, H2, H3 by lia. done. Qed.

(** A delimiter completed by the next character. *)
Lemma occ_snoc p c i : occ (p ++ [c]) i ↔ occ p i ∨ (c = "/" ∧ i + 2 = length p ∧ ends_two p).
Proof.
  split.
  - intros Ho. pose proof (occ_lt _ _ Ho) as Hl. rewrite length_app in Hl. cbn in Hl.
    destruct (decide (i + 2 = length p)) as [Hi|Hi]; [|left; eapply occ_app_inv; eauto; lia].
    destruct Ho as (H1 & H2 & H3). right. rewrite Hi, list_lookup_middle in H3 by done. injection H3 as ->. split; [done|]. split; [done|].
    rewrite lookup_app_l in H1, H2 by lia. exists (take i p). rewrite <- (take_drop i p) at 1. f_equal.
    rewrite (drop_S _ _ _ H1), <- Nat.add_1_r, (drop_S _ _ _ H2), drop_ge by lia. done.
  - intros [Ho|(-> & Hi & p0 & ->)]; [by apply occ_app_l|]. rewrite length_app in Hi. cbn in Hi.
    assert (i = length p0) as -> by lia. rewrite <- app_assoc. split_and!.
    + by apply list_lookup_middle.
    + rewrite lookup_app_r by lia. by replace (length p0 + 1 - length p0) with 1 by lia.
    + rewrite lookup_app_r by lia. by replace (length p0 + 2 - length p0) with 2 by lia.
Qed.

Lemma ends_one_snoc p c : ends_one (p ++ [c]) ↔ c = ":".
Proof. split; [intros (p0 & [_ [= ->]]%app_inj_2); done|intros ->; by exists p]. Qed.

Lemma ends_two_snoc p c : ends_two (p ++ [c]) ↔ c = "/" ∧ ends_one p.
Proof.
  split.
  - intros (p0 & Hp). replace (p0 ++ [":"; "/"]) with ((p0 ++ [":"]) ++ ["/"]) in Hp by (by rewrite <- app_assoc).
    apply app_inj_2 in Hp as [-> [= ->]]; [|done]. split; [done|]. by exists p0.
  - intros (-> & p0 & ->). exists p0. by rewrite <- app_assoc.
Qed.

Lemma ends_not_both p : ends_one p → ends_two p → False.
Proof. intros (p0 & ->) [[=] _]%ends_two_snoc. Qed.

(** ** The loop *)

Section loop.
Variable len : nat.

Definition source_ok (p : list ascii) (st : ParseState) : Prop :=
  (ps_source_range st = None ∧ ps_path_start st = 0 ∧ no_delim p) ∨
  (∃ e, ps_source_range st = Some (0, e) ∧ ps_path_start st = e + 3 ∧ occ p e ∧ (∀ i, i < e → ¬ occ p i) ∧ no_hash (take e p)).

Definition label_ok (p : list ascii) (st : ParseState) : Prop :=
  (ps_label_range st = None ∧ ps_path_end st = len ∧ no_hash p) ∨
  (∃ j, ps_label_range st = Some (j + 1, len) ∧ ps_path_end st = j ∧ p !! j = Some "#" ∧ no_hash (drop (j + 1) p)).

Record parse_inv (p : list ascii) (st : ParseState) : Prop := {
  pi_source : source_ok p st;
  pi_label : label_ok p st;
  pi_matched : matched_ok p (ps_matched st);
  pi_last : (∀ i, occ p i → i ≤ ps_last_found st) ∧ (ps_last_found st = 0 ∨ occ p (ps_last_found st))
}.

(** A character that completes no delimiter. *)
Lemma source_keep p st st' c :
  source_ok p st → ps_source_range st' = ps_source_range st → ps_path_start st' = ps_path_start st →
  ¬ (c = "/" ∧ ends_two p) → source_ok (p ++ [c]) st'.
Proof.
  intros Hs H1 H2 Hc. unfold source_ok. rewrite H1, H2. destruct Hs as [(Ha & Hb & Hn)|(e & Ha & Hb & Ho & Hf & Hh)]; [left|right].
  - split_and!; [done|done|]. intros i [Hi|(? & ? & ?)]%occ_snoc; [by apply (Hn i)|tauto].
  - exists e. split_and!; [done|done|by apply occ_app_l| |].
    + intros i Hi [Hoi|(? & ? & ?)]%occ_snoc; [by apply (Hf i)|tauto].
    + rewrite take_app_le; [done|]. pose proof (occ_lt _ _ Ho). lia.
Qed.

Lemma last_keep p st st' c :
  (∀ i, occ p i → i ≤ ps_last_found st) ∧ (ps_last_found st = 0 ∨ occ p (ps_last_found st)) →
  ps_last_found st' = ps_last_found st → ¬ (c = "/" ∧ ends_two p) →
  (∀ i, occ (p ++ [c]) i → i ≤ ps_last_found st') ∧ (ps_last_found st' = 0 ∨ occ (p ++ [c]) (ps_last_found st')).
Proof.
  intros [Ha Hb] -> Hc. split; [intros i [Hi|(? & ? & ?)]%occ_snoc; [by apply Ha|tauto]|].
  destruct Hb as [->|Ho]; [by left|right; by apply occ_app_l].
Qed.

Lemma label_keep p st st' c :
  label_ok p st → ps_label_range st' = ps_label_range st → ps_path_end st' = ps_path_end st → c ≠ "#" → label_ok (p ++ [c]) st'.
Proof.
  intros Hl H1 H2 Hc. unfold label_ok. rewrite H1, H2. destruct Hl as [(Ha & Hb & Hn)|(j & Ha & Hb & Hj & Hn)]; [left|right].
  - split_and!; [done|done|]. unfold no_hash in *. rewrite elem_of_app, list_elem_of_singleton. intros [?|?]; [done|congruence].
  - exists j. split_and!; [done|done|by apply lookup_app_l_Some|]. unfold no_hash in *. apply lookup_lt_Some in Hj.
    rewrite drop_app_le by lia. rewrite elem_of_app, list_elem_of_singleton. intros [?|?]; [done|congruence].
Qed.

(** The delimiter that a slash completes. *)
Lemma last_found p st' : ends_two p → ps_last_found st' = length p - 2 →
  (∀ i, occ (p ++ ["/"]) i → i ≤ ps_last_found st') ∧ (ps_last_found st' = 0 ∨ occ (p ++ ["/"]) (ps_last_found st')).
Proof.
  intros He Hf. rewrite Hf. split.
  - intros i [Hi%occ_lt|(_ & Hi & _)]%occ_snoc; lia.
  - right. apply occ_snoc. right. destruct He as (p0 & ->). rewrite length_app. cbn. split_and!; [done|lia|by exists p0].
Qed.

Lemma matched_zero p c : c ≠ ":" → ¬ (c = "/" ∧ ends_one p) → matched_ok (p ++ [c]) 0.
Proof. intros H1 H2. right. right. rewrite ends_one_snoc, ends_two_snoc. done. Qed.

Lemma source_found p st st' :
  source_ok p st → ends_two p → ps_source_range st = None → no_hash p →
  ps_source_range st' = Some (0, length p - 2) → ps_path_start st' = length p + 1 → source_ok (p ++ ["/"]) st'.
Proof.
  intros Hs He Hn Hh H1 H2. right. destruct Hs as [(_ & _ & Hno)|(e & Ha & _)]; [|congruence].
  exists (length p - 2). pose proof He as (p0 & Hp). assert (Hl : 2 ≤ length p) by (rewrite Hp, length_app; cbn; lia).
  split_and!; [done|lia| | |].
  - apply occ_snoc. right. split_and!; [done|lia|done].
  - intros i Hi [Ho|(_ & ? & _)]%occ_snoc; [by apply (Hno i)|lia].
  - unfold no_hash in *. rewrite take_app_le by lia. intros (i & Hi & _)%elem_of_take. apply Hh. by eapply list_elem_of_lookup_2.
Qed.

Lemma source_again p st st' : source_ok p st → is_Some (ps_source_range st) →
  ps_source_range st' = ps_source_range st → ps_path_start st' = ps_path_start st → source_ok (p ++ ["/"]) st'.
Proof.
  intros Hs [x Hx] H1 H2. destruct Hs as [(Ha & _)|(e & Ha & Hb & Ho & Hf & Hh)]; [congruence|]. right. exists e.
  pose proof (occ_lt _ _ Ho). split_and!; [congruence|congruence|by apply occ_app_l| |].
  - intros i Hi [Hoi|(_ & ? & _)]%occ_snoc; [by apply (Hf i)|lia].
  - by rewrite take_app_le by lia.
Qed.

Lemma label_before p j : ends_two p → p !! j = Some "#" → ¬ no_hash (take (length p - 2) p).
Proof.
  intros (p0 & ->) Hj Hn. rewrite length_app in Hn. cbn in Hn. replace (length p0 + 2 - 2) with (length p0) in Hn by lia.
  rewrite take_app_length in Hn. apply Hn. apply lookup_app_Some in Hj as [Hj|[_ Hj]]; [by eapply list_elem_of_lookup_2|].
  destruct (j - length p0) as [|[|[|?]]]; discriminate.
Qed.

Lemma parse_char_ok p st c : parse_inv p st →
  match parse_char len st (length p) c with
  | Ok st' => parse_inv (p ++ [c]) st'
  | Err e => e = InvalidSourceSyntax ∧ ∃ k, k + 2 = length p ∧ occ (p ++ [c]) k ∧ (∀ i, i < k → ¬ occ p i) ∧ ¬ no_hash (take k p)
  end.
Proof.
  intros [Hs Hl Hm Hf]. unfold parse_char.
  destruct (Ascii.eqb_spec c ":") as [->|Hc1].
  { assert (Hn : ¬ (":" = "/" ∧ ends_two p)) by (by intros [[=] _]).
    split; [by eapply source_keep|by eapply label_keep| |by eapply last_keep]. left. split; [done|]. by apply ends_one_snoc. }
  destruct (Ascii.eqb_spec c "/") as [->|Hc2].
  - destruct Hm as [[Hk He]|[[Hk He]|(Hk & He1 & He2)]]; rewrite Hk.
    + assert (Hn : ¬ ("/" = "/" ∧ ends_two p)) by (intros [_ ?]; by eapply ends_not_both).
      split; [by eapply source_keep|by eapply label_keep| |by eapply last_keep]. right. left. split; [done|]. by apply ends_two_snoc.
    + destruct (ps_source_range st) as [sr|] eqn:Hsr.
      { split; [eapply source_again; eauto|by eapply label_keep| |by apply last_found].
        apply matched_zero; [done|]. intros [_ ?]. by eapply ends_not_both. }
      destruct Hl as [(Hla & Hlb & Hh)|(j & Hla & Hlb & Hj & Hh)]; rewrite Hla.
      { split; [by eapply source_found|by eapply label_keep; [left|..]| |by apply last_found].
        apply matched_zero; [done|]. intros [_ ?]. by eapply ends_not_both. }
      split; [done|]. destruct Hs as [(_ & _ & Hno)|(e & Ha & _)]; [|congruence]. pose proof He as (p0 & Hp).
      assert (2 ≤ length p) by (rewrite Hp, length_app; cbn; lia). exists (length p - 2). split_and!; [lia| |eauto|by eapply label_before].
      apply occ_snoc. right. split_and!; [done|lia|done].
    + assert (Hn : ¬ ("/" = "/" ∧ ends_two p)) by tauto.
      split; [by eapply source_keep|by eapply label_keep| |by eapply last_keep]. right. right. split; [done|].
      rewrite ends_one_snoc, ends_two_snoc. split; [done|tauto].
  - assert (Hn : ¬ (c = "/" ∧ ends_two p)) by tauto. assert (Hm0 : matched_ok (p ++ [c]) 0) by (apply matched_zero; tauto).
    destruct (Ascii.eqb_spec c "#") as [->|Hc3].
    + split; [by eapply source_keep| |done|by eapply last_keep]. right. exists (length p). cbn. split_and!; [done|done|by apply list_lookup_middle|].
      rewrite drop_ge; [apply not_elem_of_nil|]. rewrite length_app. cbn. lia.
    + split; [by eapply source_keep|by eapply label_keep|done|by eapply last_keep].
Qed.

(** Why the loop stops: a [#] before the first [://]. *)
Definition source_has_hash (s : list ascii) : Prop := ∃ k, occ s k ∧ (∀ i, i < k → ¬ occ s i) ∧ ¬ no_hash (take k s).

Lemma parse_loop_ok chars : ∀ p st, parse_inv p st →
  match parse_loop len st (length p) chars with
  | Ok st' => parse_inv (p ++ chars) st'
  | Err e => e = InvalidSourceSyntax ∧ source_has_hash (p ++ chars)
  end.
Proof.
  induction chars as [|c chars IH]; intros p st Hi; cbn [parse_loop]; [by rewrite app_nil_r|].
  pose proof (parse_char_ok p st c Hi) as Hc. destruct (parse_char len st (length p) c) as [st'|e].
  - specialize (IH (p ++ [c]) st' Hc). rewrite length_app in IH. cbn in IH. rewrite Nat.add_1_r, <- app_assoc in IH. done.
  - destruct Hc as (-> & k & Hk & Ho & Hf & Hh). split; [done|]. exists k. split_and!.
    + change (c :: chars) with ([c] ++ chars). rewrite app_assoc. by apply occ_app_l.
    + intros i Hi' Hoi. apply (Hf i Hi'). eapply occ_app_inv; [done|lia].
    + by rewrite take_app_le by lia.
Qed.

Lemma parse_start_inv : parse_inv [] (parse_start len).
Proof.
  split.
  - left. split_and!; [done|done|]. intros i Ho%occ_lt. cbn in Ho. lia.
  - left. split_and!; [done|done|apply not_elem_of_nil].
  - right. right. split_and!; [done| |]; intros (p0 & Hp); by destruct p0.
  - split; [|by left]. intros i Ho%occ_lt. cbn in Ho. lia.
Qed.
End loop.

(** ** The grammar *)

(** The parts that a string can be cut into: the source is not empty, has no [#]
    and ends at the first delimiter; without a source there is no delimiter; the
    label is not empty and has neither [#] nor a delimiter; without a label there is
    no [#]. *)
Definition source_wf (source : option (list ascii)) (path : list ascii) : Prop :=
  match source with
  | Some x => x ≠ [] ∧ no_hash x ∧ ∀ i, i < length x → ¬ occ (x ++ [":"; "/"; "/"]) i
  | None => no_delim path
  end.

Definition label_wf (path : list ascii) (label : option (list ascii)) : Prop :=
  match label with
  | Some l => l ≠ [] ∧ no_hash l ∧ no_delim l
  | None => no_hash path
  end.

Definition print_parts (source : option (list ascii)) (path : list ascii) (label : option (list ascii)) : list ascii :=
  match source with Some x => x ++ [":"; "/"; "/"] | None => [] end ++ path ++ match label with Some l => "#" :: l | None => [] end.

Lemma no_hash_app a b : no_hash (a ++ b) ↔ no_hash a ∧ no_hash b.
Proof. unfold no_hash. rewrite elem_of_app. tauto. Qed.

Lemma no_hash_lookup p j : no_hash p → p !! j ≠ Some "#".
Proof. intros Hn Hj. apply Hn. by eapply list_elem_of_lookup_2. Qed.

Lemma no_hash_drop p j : no_hash p → no_hash (drop j p).
Proof. rewrite <- (take_drop j p) at 1. rewrite no_hash_app. tauto. Qed.

Lemma no_hash_take p j : no_hash p → no_hash (take j p).
Proof. rewrite <- (take_drop j p) at 1. rewrite no_hash_app. tauto. Qed.

Lemma no_hash_delim : no_hash [":"; "/"; "/"].
Proof. unfold no_hash. rewrite !elem_of_cons, elem_of_nil. intros [?|[?|[?|?]]]; done. Qed.

Lemma occ_app_r a b i : occ b i → occ (a ++ b) (length a + i).
Proof.
  intros (H1 & H2 & H3). split_and!; rewrite lookup_app_r by lia.
  - by replace (length a + i - length a) with i by lia.
  - by replace (length a + i + 1 - length a) with (i + 1) by lia.
  - by replace (length a + i + 2 - length a) with (i + 2) by lia.
Qed.

Lemma occ_app_r_inv a b i : occ (a ++ b) i → length a ≤ i → occ b (i - length a).
Proof.
  intros (H1 & H2 & H3) Hi. rewrite lookup_app_r in H1, H2, H3 by lia. split_and!; [done| |].
  - by replace (i - length a + 1) with (i + 1 - length a) by lia.
  - by replace (i - length a + 2) with (i + 2 - length a) by lia.
Qed.

(** A delimiter is on one side of a [#]. *)
Lemma occ_hash a b i : occ (a ++ "#" :: b) i → occ a i ∨ (length a < i ∧ occ b (i - length a - 1)).
Proof.
  intros Ho. destruct (decide (i + 2 < length a)) as [Hlt|Hge]; [left; by eapply occ_app_inv|].
  assert (Hmid : (a ++ "#" :: b) !! length a = Some "#") by (by apply list_lookup_middle).
  assert (Hgt : length a < i).
  { destruct Ho as (H1 & H2 & H3). assert (Hne : i ≠ length a ∧ i + 1 ≠ length a ∧ i + 2 ≠ length a) by (split_and!; congruence). lia. }
  right. split; [done|]. replace (i - length a - 1) with (i - length (a ++ ["#"])) by (rewrite length_app; cbn; lia).
  apply occ_app_r_inv; [by rewrite <- app_assoc|]. rewrite length_app. cbn. lia.
Qed.

Lemma cut_delim s e : occ s e → s = take e s ++ [":"; "/"; "/"] ++ drop (e + 3) s.
Proof.
  intros (H1 & H2 & H3). rewrite <- (take_drop e s) at 1. f_equal. rewrite (drop_S _ _ _ H1), <- Nat.add_1_r, (drop_S _ _ _ H2).
  replace (S (e + 1)) with (e + 2) by lia. rewrite (drop_S _ _ _ H3). by replace (S (e + 2)) with (e + 3) by lia.
Qed.

Lemma cut_hash s j : s !! j = Some "#" → s = take j s ++ "#" :: drop (j + 1) s.
Proof. intros H1. rewrite <- (take_drop j s) at 1. by rewrite (drop_S _ _ _ H1), <- Nat.add_1_r. Qed.

(** ** What the loop finds in a printed path *)

Section printed.
Variables (source label : option (list ascii)) (path : list ascii).
Hypothesis Hsw : source_wf source path.
Hypothesis Hlw : label_wf path label.

Definition prefix : list ascii := match source with Some x => x ++ [":"; "/"; "/"] | None => [] end.
Definition suffix : list ascii := match label with Some l => "#" :: l | None => [] end.
Notation s := (print_parts source path label).

Lemma print_split : s = prefix ++ path ++ suffix.
Proof. done. Qed.

Lemma prefix_no_hash : no_hash prefix.
Proof.
  unfold prefix. destruct source as [x|]; [|apply not_elem_of_nil]. destruct Hsw as (_ & Hx & _).
  apply no_hash_app. split; [done|apply no_hash_delim].
Qed.

(** The first delimiter ends the source. *)
Lemma printed_occ k : occ s k → match source with Some x => length x ≤ k | None => match label with Some _ => False | None => False end end.
Proof.
  intros Ho. rewrite print_split in Ho. unfold prefix in Ho. destruct source as [x|]; cbn in Hsw.
  - destruct Hsw as (_ & _ & Hf). destruct (decide (length x ≤ k)); [done|]. exfalso. apply (Hf k ltac:(lia)).
    eapply occ_app_inv; [done|]. rewrite length_app. cbn. lia.
  - cbn in Ho. unfold suffix in Ho. destruct label as [l|]; [|rewrite app_nil_r in Ho; by apply (Hsw k)].
    apply occ_hash in Ho as [Ho|[_ Ho]]; [by apply (Hsw k)|]. destruct Hlw as (_ & _ & Hl). by apply Hl in Ho.
Qed.

Lemma printed_first x : source = Some x → occ s (length x).
Proof.
  intros Hx. rewrite print_split. unfold prefix. rewrite Hx, <- app_assoc. rewrite <- (Nat.add_0_r (length x)). apply occ_app_r. done.
Qed.

Lemma printed_no_error : ¬ source_has_hash s.
Proof.
  intros (k & Ho & Hf & Hh). pose proof (printed_occ k Ho) as Hk. destruct source as [x|] eqn:Hx; [|by destruct label].
  pose proof (printed_first x Hx) as Hox. rewrite Hx in Hox. destruct (decide (length x < k)) as [Hlt|Hge]; [by apply (Hf _ Hlt)|].
  assert (k = length x) as -> by lia. apply Hh. unfold print_parts. rewrite <- !app_assoc, take_app_length.
  apply Hsw.
Qed.

Lemma printed_source st : source_ok s st →
  ps_source_range st = (λ x, (0, length x)) <$> source ∧ ps_path_start st = length prefix.
Proof.
  unfold prefix at 1. intros [(Ha & Hb & Hn)|(e & Ha & Hb & Ho & Hf & _)].
  - destruct source as [x|] eqn:Hx; [|by rewrite Ha, Hb]. pose proof (printed_first x Hx) as Hox. rewrite Hx in Hox. by apply Hn in Hox.
  - pose proof (printed_occ e Ho) as Hk. destruct source as [x|] eqn:Hx; [|by destruct label].
    pose proof (printed_first x Hx) as Hox. rewrite Hx in Hox. assert (e = length x) as ->.
    { destruct (decide (length x < e)) as [Hlt|]; [by apply Hf in Hlt|lia]. }
    rewrite Ha, Hb, length_app. done.
Qed.

Lemma printed_label st : label_ok (length s) s st →
  ps_label_range st = (λ l, (length (prefix ++ path) + 1, length s)) <$> label ∧ ps_path_end st = length (prefix ++ path).
Proof.
  assert (Hs : s = (prefix ++ path) ++ suffix) by (by rewrite print_split, app_assoc).
  unfold suffix in Hs. intros [(Ha & Hb & Hn)|(j & Ha & Hb & Hj & Hn)]; rewrite Ha, Hb.
  - destruct label as [l|]; [|by rewrite Hs, app_nil_r]. exfalso. apply (no_hash_lookup _ (length (prefix ++ path)) Hn). rewrite Hs. by apply list_lookup_middle.
  - destruct label as [l|].
    2: { exfalso. rewrite Hs, app_nil_r in Hj. apply (no_hash_lookup (prefix ++ path) j); [|done]. apply no_hash_app. split; [apply prefix_no_hash|done]. }
    assert (j = length (prefix ++ path)) as ->; [|done]. destruct Hlw as (_ & Hl & _).
    destruct (decide (j < length (prefix ++ path))) as [Hlt|Hge].
    + exfalso. apply (no_hash_lookup _ (length (prefix ++ path) - (j + 1)) Hn). rewrite lookup_drop.
      replace (j + 1 + (length (prefix ++ path) - (j + 1))) with (length (prefix ++ path)) by lia. rewrite Hs. by apply list_lookup_middle.
    + destruct (decide (j = length (prefix ++ path))) as [|Hne]; [done|]. exfalso. rewrite Hs in Hj. rewrite lookup_app_r in Hj by lia.
      destruct (j - length (prefix ++ path)) as [|m] eqn:Hm; [lia|]. cbn in Hj. by apply (no_hash_lookup l m).
Qed.

(** No delimiter lies in the label. *)
Lemma printed_label_free st : parse_inv (length s) s st → label ≠ None → ps_last_found st < length (prefix ++ path) + 1.
Proof.
  intros Hi Hne. destruct (pi_last _ _ _ Hi) as [_ [->|Ho]]; [lia|].
  destruct label as [l|]; [|done]. destruct (decide (ps_last_found st < length (prefix ++ path) + 1)) as [|Hge]; [done|]. exfalso.
  assert (Hs : print_parts source path (Some l) = (prefix ++ path) ++ "#" :: l) by (rewrite <- app_assoc; done). rewrite Hs in Ho.
  destruct Hlw as (_ & _ & Hl). apply occ_hash in Ho as [Ho%occ_lt|[_ Ho]]; [lia|by apply Hl in Ho].
Qed.
End printed.

Lemma slice_mid a b c : str_slice (a ++ b ++ c) (length a, length (a ++ b)) = Ret b.
Proof.
  unfold str_slice. cbn. rewrite decide_True by (rewrite !length_app; lia). rewrite drop_app_length, length_app.
  replace (length a + length b - length a) with (length b) by lia. by rewrite take_app_length.
Qed.

Lemma parse_printed source path label :
  source_wf source path → label_wf path label → parse_internal (print_parts source path label) = Ret (Ok (source, path, label)).
Proof.
  intros Hs Hl. set (s := print_parts source path label). unfold parse_internal.
  pose proof (parse_loop_ok (length s) s [] _ (parse_start_inv (length s))) as Hi. cbn [app length] in Hi.
  destruct (parse_loop (length s) (parse_start (length s)) 0 s) as [st|e].
  2: { destruct Hi as [_ Hi]. by apply printed_no_error in Hi. }
  destruct (printed_source _ _ _ Hs Hl st (pi_source _ _ _ Hi)) as [Hsr Hps].
  destruct (printed_label _ _ _ Hs Hl st (pi_label _ _ _ Hi)) as [Hlr Hpe].
  assert (Hsplit : s = prefix source ++ path ++ suffix label) by done.
  assert (Hpath : str_slice s (ps_path_start st, ps_path_end st) = Ret path) by (rewrite Hps, Hpe, Hsplit; apply slice_mid).
  assert (Hsource : part s (ps_source_range st) MissingSource = Ret (Ok source)).
  { rewrite Hsr. destruct source as [x|]; [|done]. cbn [fmap option_fmap option_map part]. destruct Hs as (Hx & _). unfold range_is_empty.
    assert (Hsl : str_slice s (0, length x) = Ret x) by (rewrite Hsplit; unfold prefix; rewrite <- !app_assoc; apply (slice_mid [])).
    rewrite bool_decide_false by (destruct x; [done|cbn; lia]). by rewrite Hsl. }
  assert (Hlabel : part s (ps_label_range st) MissingLabel = Ret (Ok label)).
  { rewrite Hlr. destruct label as [l|]; [|done]. cbn [fmap option_fmap option_map part]. destruct Hl as (Hl & _).
    assert (Hs2 : s = ((prefix source ++ path) ++ ["#"]) ++ l ++ []) by (rewrite Hsplit; unfold suffix; by rewrite <- !app_assoc, app_nil_r).
    assert (Hlen : length s = length (((prefix source ++ path) ++ ["#"]) ++ l)) by (by rewrite Hs2, app_nil_r).
    unfold range_is_empty. rewrite bool_decide_false.
    - pose proof (slice_mid ((prefix source ++ path) ++ ["#"]) l []) as Hm. rewrite <- Hs2, <- Hlen in Hm.
      rewrite (length_app _ ["#"]) in Hm. change (length ["#"]) with 1 in Hm. fold s. by rewrite Hm.
    - fold s. cbn [fst snd]. rewrite Hlen, !length_app. destruct l; [done|]. cbn. lia. }
  rewrite Hsource, Hlabel, Hpath. cbn. destruct (ps_label_range st) as [[a b]|] eqn:Hr; [|done].
  rewrite bool_decide_false; [done|]. cbn. destruct label as [l|]; [|done]. injection Hlr as -> ->.
  pose proof (printed_label_free _ _ _ Hl st Hi ltac:(done)). unfold s in *. lia.
Qed.

(** A part that was cut out. *)
Lemma part_inv s r m o : part s r m = Ret (Ok o) →
  match r, o with
  | None, None => True
  | Some r, Some x => x = take (r.2 - r.1) (drop r.1 s) ∧ r.1 < r.2 ≤ length s
  | _, _ => False
  end.
Proof.
  unfold part, range_is_empty, str_slice. destruct r as [r|]; [|by intros [= <-]]. case_bool_decide as Hb; [done|].
  case_decide as Hd; cbn; [|done]. intros [= <-]. split; [done|lia].
Qed.

Lemma slice_inv s r x : str_slice s r = Ret x → x = take (r.2 - r.1) (drop r.1 s) ∧ r.1 ≤ r.2 ≤ length s.
Proof. unfold str_slice. case_decide; [|done]. by intros [= <-]. Qed.

Lemma occ_take p k i : occ (take k p) i → occ p i.
Proof. intros Ho. rewrite <- (take_drop k p). by apply occ_app_l. Qed.

Lemma occ_drop p k i : occ (drop k p) i → k ≤ length p → occ p (k + i).
Proof.
  intros Ho Hk. apply (occ_app_r (take k p)) in Ho. by rewrite take_drop, length_take_le in Ho.
Qed.

Lemma delim_take s e : occ s e → take (e + 3) s = take e s ++ [":"; "/"; "/"].
Proof.
  intros Ho. rewrite (cut_delim s e Ho) at 1. pose proof (occ_lt _ _ Ho).
  rewrite app_assoc, take_app_length'; [done|]. rewrite length_app, length_take. cbn. lia.
Qed.

(** The part in front of the path and the one behind it. *)
Lemma prefix_found s st source : source_ok s st → part s (ps_source_range st) MissingSource = Ret (Ok source) →
  take (ps_path_start st) s = prefix source ∧
  match source with Some x => x ≠ [] ∧ no_hash x ∧ ∀ i, i < length x → ¬ occ (x ++ [":"; "/"; "/"]) i | None => no_delim s end.
Proof.
  intros [(Ha & Hb & Hn)|(e & Ha & Hb & Ho & Hf & Hh)] Hp%part_inv; rewrite Ha in Hp; rewrite Hb; destruct source as [x|]; try done.
  destruct Hp as [-> Hr]. cbn in *. rewrite Nat.sub_0_r. change (drop 0 s) with s. unfold prefix. rewrite delim_take by done. split; [done|].
  pose proof (occ_lt _ _ Ho). split_and!; [|done|].
  - intros Hz%(f_equal length). rewrite length_take in Hz. change (length []) with 0 in Hz. lia.
  - intros i Hi Hoi. rewrite length_take in Hi. apply (Hf i); [lia|]. rewrite <- delim_take in Hoi by done. by eapply occ_take.
Qed.

Lemma suffix_found s st label : label_ok (length s) s st → part s (ps_label_range st) MissingLabel = Ret (Ok label) →
  (∀ i, occ s i → match ps_label_range st with Some r => i < r.1 | None => True end) →
  drop (ps_path_end st) s = suffix label ∧
  match label with Some l => l ≠ [] ∧ no_hash l ∧ no_delim l | None => no_hash s end.
Proof.
  intros [(Ha & Hb & Hn)|(j & Ha & Hb & Hj & Hn)] Hp%part_inv Hall; rewrite Ha in Hp, Hall; rewrite Hb; destruct label as [x|]; try done.
  - by rewrite drop_ge.
  - destruct Hp as [-> Hr]. cbn in *. unfold suffix. rewrite (take_ge (drop _ _)) by (rewrite length_drop; lia).
    rewrite (drop_S _ _ _ Hj), <- Nat.add_1_r. split; [done|]. split_and!; [|done|].
    + intros Hz%(f_equal length). rewrite length_drop in Hz. change (length []) with 0 in Hz. lia.
    + intros i Hi%occ_drop; [|lia]. apply Hall in Hi. lia.
Qed.

(** The parts of a string that parses. *)
Lemma parse_parts s source path label : parse_internal s = Ret (Ok (source, path, label)) →
  s = print_parts source path label ∧ source_wf source path ∧ label_wf path label.
Proof.
  unfold parse_internal. pose proof (parse_loop_ok (length s) s [] _ (parse_start_inv (length s))) as Hi. cbn [app length] in Hi.
  destruct (parse_loop (length s) (parse_start (length s)) 0 s) as [st|e]; [|done].
  destruct (match ps_label_range st with Some r => _ | None => _ end) eqn:Hlast; [done|].
  destruct Hi as [Hs Hl _ [Hall _]]. intros Hr.
  destruct (part s (ps_source_range st) MissingSource) as [[source'|e]| |] eqn:Hps; try done. cbn [mbind outcome_bind] in Hr.
  destruct (part s (ps_label_range st) MissingLabel) as [[label'|e]| |] eqn:Hpl; try done. cbn [mbind outcome_bind] in Hr.
  destruct (str_slice s (ps_path_start st, ps_path_end st)) as [path'| |] eqn:Hpp; try done. injection Hr as -> -> ->.
  destruct (prefix_found s st source Hs Hps) as [Hpre Hsw]. destruct (suffix_found s st label Hl Hpl) as [Hsuf Hlw].
  { intros i Ho%Hall. destruct (ps_label_range st); [|done]. apply bool_decide_eq_false in Hlast. lia. }
  apply slice_inv in Hpp as [Hpath Hrange]. cbn in Hpath, Hrange.
  assert (Hprint : s = print_parts source path label).
  { unfold print_parts. fold (prefix source) (suffix label). rewrite <- Hpre, <- Hsuf, Hpath.
    rewrite <- (take_drop (ps_path_start st) s) at 1. f_equal. rewrite <- (take_drop (ps_path_end st - ps_path_start st) (drop (ps_path_start st) s)) at 1.
    f_equal. rewrite drop_drop. f_equal. lia. }
  split; [done|]. split.
  - destruct source as [x|]; [done|]. intros i Ho. apply (Hsw i). rewrite Hprint. unfold print_parts. by apply (occ_app_l path).
  - destruct label as [l|]; [done|]. cbn. rewrite Hprint in Hlw. apply no_hash_app in Hlw as [_ Hlw]. by apply no_hash_app in Hlw as [Hlw _].
Qed.

Lemma parse_internal_total s : ∃ r, parse_internal s = Ret r.
Proof.
  unfold parse_internal. pose proof (parse_loop_ok (length s) s [] _ (parse_start_inv (length s))) as Hi. cbn [app length] in Hi.
  destruct (parse_loop (length s) (parse_start (length s)) 0 s) as [st|e]; [|eauto]. destruct Hi as [Hs Hl _ _].
  destruct (match ps_label_range st with Some r => _ | None => _ end); [eauto|].
  assert (Hpart : ∀ r m, match r with Some r => r.2 ≤ length s | None => True end → ∃ o, part s r m = Ret o).
  { intros [r|] m Hr; [|eauto]. unfold part, range_is_empty, str_slice. case_bool_decide; [eauto|]. rewrite decide_True by lia. eauto. }
  destruct (Hpart (ps_source_range st) MissingSource) as [o1 ->].
  { destruct Hs as [(-> & _)|(e & -> & _ & Ho%occ_lt & _)]; [done|]. cbn. lia. }
  destruct (Hpart (ps_label_range st) MissingLabel) as [o2 Ho2]; [by destruct Hl as [(-> & _)|(j & -> & _)]|].
  cbn. destruct o1 as [o1|]; [|eauto]. rewrite Ho2. cbn. destruct o2 as [o2|]; [|eauto].
  unfold str_slice. rewrite decide_True; [cbn; eauto|]. cbn.
  destruct Hl as [(_ & -> & _)|(j & _ & -> & Hj & _)]; destruct Hs as [(_ & -> & _)|(e & _ & -> & Ho & _ & Hh)]; [lia|by apply occ_lt in Ho; lia| |].
  - apply lookup_lt_Some in Hj. lia.
  - apply lookup_lt_Some in Hj as Hlt. destruct (decide (j < e)) as [Hje|Hje].
    + exfalso. apply (no_hash_lookup (take e s) j Hh). by rewrite lookup_take_lt.
    + destruct Ho as (H1 & H2 & H3). assert (j ≠ e ∧ j ≠ e + 1 ∧ j ≠ e + 2) by (split_and!; congruence). lia.
Qed.

(** ** Claims *)

(** C23: A string that [AssetPath::try_parse] accepts prints back to exactly itself,
    so that [Serialize] after [Deserialize] changes nothing; the parts are well
    formed: a source is not empty, without [#] and ends at the first [://]; a label
    is not empty and contains neither [#] nor [://].  Parsing never panics. *)
Theorem asset_path_parse_print s :
  ∃ r, AssetPath_try_parse s = Ret r ∧
    match r with
    | Ok p => AssetPath_fmt p = s ∧
        let source := match ap_source p with SourceName n => Some n | SourceDefault => None end in
        source_wf source (ap_path p) ∧ label_wf (ap_path p) (ap_label p)
    | Err _ => ∀ source path label, source_wf source path → label_wf path label → s ≠ print_parts source path label
    end.
Proof.
  unfold AssetPath_try_parse. destruct (parse_internal_total s) as [r Hr]. rewrite Hr. cbn [mbind outcome_bind].
  destruct r as [[[source path] label]|e]; eexists; (split; [reflexivity|]).
  - destruct (parse_parts s source path label Hr) as (Hs & Hw1 & Hw2). unfold AssetPath_fmt. cbn. destruct source; done.
  - intros source path label Hw1 Hw2 ->. rewrite parse_printed in Hr by done. done.
Qed.

(** Every well-formed asset path is parsed back from its printed form, and
    therefore two well-formed asset paths that print alike are equal. *)
Theorem asset_path_print_parse p :
  source_wf (match ap_source p with SourceName n => Some n | SourceDefault => None end) (ap_path p) →
  label_wf (ap_path p) (ap_label p) → AssetPath_parse (AssetPath_fmt p) = Ret p.
Proof.
  intros Hs Hl. pose proof (parse_printed _ _ _ Hs Hl) as Hp. unfold AssetPath_parse, AssetPath_try_parse, AssetPath_fmt.
  destruct p as [[|n] path label]; cbn in *; unfold print_parts in Hp; rewrite Hp; done.
Qed.

Lemma asset_path_print_parse_witness :
  AssetPath_parse ["a"; ":"; "/"; "/"; "b"; "#"; "c"] = Ret (mkAssetPath (SourceName ["a"]) ["b"] (Some ["c"])).
Proof.
  apply (asset_path_print_parse (mkAssetPath (SourceName ["a"]) ["b"] (Some ["c"]))).
  - split; [discriminate|]. split; [intros ?%list_elem_of_singleton; discriminate|]. intros [|i] Hi; [intros (? & _); discriminate|]. cbn in Hi. lia.
  - split; [discriminate|]. split; [intros ?%list_elem_of_singleton; discriminate|]. intros i Ho%occ_lt. cbn in Ho. lia.
Defined.
