(* ===== verification/Assets.v ===== *)
(** * Asset storage

    [crates/voker-asset/src/ident.rs] (indices and their allocator), [assets.rs]
    (the table and [Assets<A>]), [changes.rs].  The lock-free queues of the
    allocator are first-in first-out lists; a handle is the index it holds, and its
    last drop is the drop event it sends. *)

From Stdlib Require Import ZArith Lia.
From S2P Require Import Prelude.
Local Open Scope Z_scope.

(** ** Indices *)

Record AssetIndex := mkIndex { ai_index : Z; ai_generation : Z }.

#[global] Instance AssetIndex_eq_dec : EqDecision AssetIndex.
Proof. solve_decision. Defined.

#[global] Instance AssetIndex_countable : Countable AssetIndex.
Proof.
  refine (inj_countable' (λ i, (ai_index i, ai_generation i)) (λ p, mkIndex p.1 p.2) _). by intros [].
Defined.

(** Little-endian layout: the index is the low half. *)
Definition AssetIndex_to_bits (self : AssetIndex) : Z := ai_index self + ai_generation self * W32.
Definition AssetIndex_from_bits (bits : Z) : AssetIndex := mkIndex (bits mod W32) (bits / W32).

Definition MAX_ASSET_INDEX : Z := 2147483647.

Record AssetIndexAllocator := mkAlloc { next_index : Z; recycled_queue : list AssetIndex; recycled : list AssetIndex }.

Definition AssetIndexAllocator_new : AssetIndexAllocator := mkAlloc 0 [] [].

(** [generation += 1] wraps in release builds. *)
Definition reserve (self : AssetIndexAllocator) : outcome (AssetIndex * AssetIndexAllocator) :=
  match recycled_queue self with
  | r :: queue =>
      let r := mkIndex (ai_index r) (wadd32 (ai_generation r) 1) in
      Ret (r, mkAlloc (next_index self) queue (recycled self ++ [r]))
  | [] =>
      let index := next_index self in
      if index <=? MAX_ASSET_INDEX
      then Ret (mkIndex index 0, mkAlloc (wadd32 index 1) [] (recycled self))
      else Panic
  end.

Definition recycle (self : AssetIndexAllocator) (index : AssetIndex) : AssetIndexAllocator :=
  mkAlloc (next_index self) (recycled_queue self ++ [index]) (recycled self).

(** ** The table *)

Section table.
Context {A : Type}.

Record Entry := mkEntry { en_value : option A; en_generation : Z }.

Definition Entry_DEFAULT : Entry := mkEntry None 0.
Definition Entry_none (generation : Z) : Entry := mkEntry None generation.

Record AssetTable := mkTable { at_storage : list (option Entry); at_len : Z; at_allocator : AssetIndexAllocator }.

Definition AssetTable_default : AssetTable := mkTable [] 0 AssetIndexAllocator_new.

(** [resize_with]: truncates or extends. *)
Definition resize_storage (storage : list (option Entry)) (n : nat) : list (option Entry) :=
  take n storage ++ replicate (n - length storage) (Some Entry_DEFAULT).

(** [self.storage[index] = ..] panics out of range. *)
Definition store_entry (storage : list (option Entry)) (i : Z) (e : option Entry) : outcome (list (option Entry)) :=
  if decide (Z.to_nat i < length storage)%nat then Ret (<[Z.to_nat i := e]> storage) else Panic.

Fixpoint flush_recycled (storage : list (option Entry)) (rs : list AssetIndex) : outcome (list (option Entry)) :=
  match rs with
  | [] => Ret storage
  | r :: rs => storage ← store_entry storage (ai_index r) (Some (Entry_none (ai_generation r))); flush_recycled storage rs
  end.

Definition flush (self : AssetTable) : outcome AssetTable :=
  let a := at_allocator self in
  let storage := resize_storage (at_storage self) (Z.to_nat (next_index a)) in
  storage ← flush_recycled storage (recycled a);
  Ret (mkTable storage (at_len self) (mkAlloc (next_index a) (recycled_queue a) [])).

Definition AssetTable_get (self : AssetTable) (index : AssetIndex) : option A :=
  entry ← at_storage self !! Z.to_nat (ai_index index);
  e ← entry;
  if en_generation e =? ai_generation index then en_value e else None.

Inductive InvalidAssetGeneration :=
| Occupied (index : AssetIndex) (current_generation : Z)
| Removed (index : AssetIndex).

(** [self.storage[index]] panics out of range. *)
Definition load_entry (self : AssetTable) (i : Z) : outcome (option Entry) :=
  match at_storage self !! Z.to_nat i with Some e => Ret e | None => Panic end.

Definition set_entry (self : AssetTable) (i : Z) (e : option Entry) : AssetTable :=
  mkTable (<[Z.to_nat i := e]> (at_storage self)) (at_len self) (at_allocator self).

(** [Ok true] when the old asset is replaced. *)
Definition AssetTable_insert (self : AssetTable) (index : AssetIndex) (asset : A)
  : outcome (Result bool InvalidAssetGeneration * AssetTable) :=
  self ← flush self;
  entry ← load_entry self (ai_index index);
  match entry with
  | None => Ret (Err (Removed index), self)
  | Some e =>
      if negb (en_generation e =? ai_generation index) then Ret (Err (Occupied index (en_generation e)), self)
      else
        let is_new_data := match en_value e with None => true | Some _ => false end in
        let self := set_entry self (ai_index index) (Some (mkEntry (Some asset) (en_generation e))) in
        let self := if is_new_data then mkTable (at_storage self) (wadd32 (at_len self) 1) (at_allocator self) else self in
        Ret (Ok (negb is_new_data), self)
  end.

(** [removed_action] runs when the entry was current. *)
Definition remove_internal (self : AssetTable) (index : AssetIndex) (removed_action : AssetTable → AssetTable) : outcome (option A * AssetTable) :=
  self ← flush self;
  entry ← load_entry self (ai_index index);
  match entry with
  | None => Ret (None, self)
  | Some e =>
      if negb (en_generation e =? ai_generation index) then Ret (None, self)
      else
        let value := en_value e in
        let self := set_entry self (ai_index index) (Some (mkEntry None (en_generation e))) in
        let self := match value with
                    | Some _ => mkTable (at_storage self) (wsub32 (at_len self) 1) (at_allocator self)
                    | None => self
                    end in
        Ret (value, removed_action self)
  end.

Definition remove_still_alive (self : AssetTable) (index : AssetIndex) : outcome (option A * AssetTable) :=
  remove_internal self index (λ t, t).

Definition table_remove_and_recycle (self : AssetTable) (index : AssetIndex) : outcome (option A * AssetTable) :=
  remove_internal self index (λ t,
    let t := set_entry t (ai_index index) None in
    mkTable (at_storage t) (at_len t) (recycle (at_allocator t) index)).

(** ** [Assets<A>] *)

Inductive AssetId :=
| IdIndex (index : AssetIndex)
| IdUuid (uuid : Z).

#[global] Instance AssetId_eq_dec : EqDecision AssetId.
Proof. solve_decision. Defined.

#[global] Instance AssetId_countable : Countable AssetId.
Proof.
  refine (inj_countable' (λ i, match i with IdIndex x => inl x | IdUuid u => inr u end)
                         (λ s, match s with inl x => IdIndex x | inr u => IdUuid u end) _). by intros [].
Defined.

Inductive AssetEvent :=
| EvAdded (id : AssetId)
| EvModified (id : AssetId)
| EvRemoved (id : AssetId)
| EvUnused (id : AssetId)
| EvFullyLoaded (id : AssetId).

Record Assets := mkAssets {
  as_table : AssetTable;
  as_hash_map : gmap Z A;
  as_queued_events : list AssetEvent;
  as_duplicate_handles : gmap AssetIndex Z
}.

Definition Assets_default : Assets := mkAssets AssetTable_default ∅ [] ∅.

Definition push_event (self : Assets) (e : AssetEvent) : Assets :=
  mkAssets (as_table self) (as_hash_map self) (as_queued_events self ++ [e]) (as_duplicate_handles self).
Definition set_table (self : Assets) (t : AssetTable) : Assets :=
  mkAssets t (as_hash_map self) (as_queued_events self) (as_duplicate_handles self).
Definition set_handles (self : Assets) (h : gmap AssetIndex Z) : Assets :=
  mkAssets (as_table self) (as_hash_map self) (as_queued_events self) h.

Definition reserve_handle (self : Assets) : outcome (AssetIndex * Assets) :=
  '(i, a) ← reserve (at_allocator (as_table self));
  Ret (i, set_table self (mkTable (at_storage (as_table self)) (at_len (as_table self)) a)).

Definition insert_with_uuid (self : Assets) (uuid : Z) (asset : A) : option A * Assets :=
  let replaced := as_hash_map self !! uuid in
  let self := mkAssets (as_table self) (<[uuid := asset]> (as_hash_map self)) (as_queued_events self) (as_duplicate_handles self) in
  (replaced, push_event self (match replaced with Some _ => EvModified (IdUuid uuid) | None => EvAdded (IdUuid uuid) end)).

Definition insert_with_index (self : Assets) (index : AssetIndex) (asset : A) : outcome (Result bool InvalidAssetGeneration * Assets) :=
  '(r, t) ← AssetTable_insert (as_table self) index asset;
  let self := set_table self t in
  match r with
  | Err e => Ret (Err e, self)
  | Ok replaced => Ret (Ok replaced, push_event self (if replaced : bool then EvModified (IdIndex index) else EvAdded (IdIndex index)))
  end.

Definition Assets_insert (self : Assets) (id : AssetId) (asset : A) : outcome (Result unit InvalidAssetGeneration * Assets) :=
  match id with
  | IdIndex index =>
      '(r, self) ← insert_with_index self index asset;
      Ret (match r with Ok _ => Ok tt | Err e => Err e end, self)
  | IdUuid uuid => Ret (Ok tt, (insert_with_uuid self uuid asset).2)
  end.

(** The handle's index; [unwrap] panics on an error. *)
Definition Assets_add (self : Assets) (asset : A) : outcome (AssetIndex * Assets) :=
  '(index, self) ← reserve_handle self;
  '(r, self) ← insert_with_index self index asset;
  match r with Ok _ => Ret (index, self) | Err _ => Panic end.

Definition Assets_get (self : Assets) (id : AssetId) : option A :=
  match id with
  | IdIndex index => AssetTable_get (as_table self) index
  | IdUuid uuid => as_hash_map self !! uuid
  end.

Definition Assets_contains (self : Assets) (id : AssetId) : bool := match Assets_get self id with Some _ => true | None => false end.

(** [get_mut_untracked] and a write through the reference. *)
Definition Assets_modify_untracked (self : Assets) (id : AssetId) (f : A → A) : Assets :=
  match Assets_get self id with
  | None => self
  | Some a =>
      match id with
      | IdIndex index => set_table self (set_entry (as_table self) (ai_index index) (Some (mkEntry (Some (f a)) (ai_generation index))))
      | IdUuid uuid => mkAssets (as_table self) (<[uuid := f a]> (as_hash_map self)) (as_queued_events self) (as_duplicate_handles self)
      end
  end.

(** [get_mut], a write through [DerefMut] and the drop of the guard. *)
Definition Assets_modify (self : Assets) (id : AssetId) (f : A → A) : Assets :=
  match Assets_get self id with
  | None => self
  | Some _ => push_event (Assets_modify_untracked self id f) (EvModified id)
  end.

Definition u16_MAX : Z := 65535.

(** Whether another strong handle was made. *)
Definition resolve_strong_handle (self : Assets) (id : AssetId) : bool * Assets :=
  match id with
  | IdUuid _ => (false, self)
  | IdIndex index =>
      match AssetTable_get (as_table self) index with
      | None => (false, self)
      | Some _ =>
          let counter := default 0 (as_duplicate_handles self !! index) in
          if counter =? u16_MAX then (false, set_handles self (<[index := counter]> (as_duplicate_handles self)))
          else (true, set_handles self (<[index := counter + 1]> (as_duplicate_handles self)))
      end
  end.

Definition remove_untracked (self : Assets) (id : AssetId) : outcome (option A * Assets) :=
  match id with
  | IdIndex index =>
      let self := set_handles self (delete index (as_duplicate_handles self)) in
      '(r, t) ← remove_still_alive (as_table self) index;
      Ret (r, set_table self t)
  | IdUuid uuid =>
      Ret (as_hash_map self !! uuid,
           mkAssets (as_table self) (delete uuid (as_hash_map self)) (as_queued_events self) (as_duplicate_handles self))
  end.

Definition Assets_remove (self : Assets) (id : AssetId) : outcome (option A * Assets) :=
  '(result, self) ← remove_untracked self id;
  Ret (result, match result with Some _ => push_event self (EvRemoved id) | None => self end).

(** The part of [remove_and_recycle] for the last handle. *)
Definition recycle_last (self : Assets) (index : AssetIndex) : outcome Assets :=
  '(r, t) ← table_remove_and_recycle (as_table self) index;
  let self := push_event (set_table self t) (EvUnused (IdIndex index)) in
  Ret (match r with Some _ => push_event self (EvRemoved (IdIndex index)) | None => self end).

(** Handles the drop of a strong handle. *)
Definition Assets_remove_and_recycle (self : Assets) (index : AssetIndex) : outcome Assets :=
  match as_duplicate_handles self !! index with
  | None => recycle_last self index
  | Some value =>
      if value =? 0 then recycle_last (set_handles self (delete index (as_duplicate_handles self))) index
      else Ret (set_handles self (<[index := value - 1]> (as_duplicate_handles self)))
  end.

(** [track_assets] for handles that the asset server does not manage. *)
Fixpoint track_assets (self : Assets) (drops : list AssetIndex) : outcome Assets :=
  match drops with
  | [] => Ret self
  | index :: drops => self ← Assets_remove_and_recycle self index; track_assets self drops
  end.

Definition get_or_insert (self : Assets) (id : AssetId) (insert_fn : unit → A) : outcome (Result A InvalidAssetGeneration * Assets) :=
  let finish self := match Assets_get self id with Some a => Ret (Ok a, self) | None => Panic end in
  if Assets_contains self id then finish self
  else
    '(r, self) ← Assets_insert self id (insert_fn tt);
    match r with Err e => Ret (Err e, self) | Ok _ => finish self end.

Definition Assets_len (self : Assets) : Z := at_len (as_table self) + Z.of_nat (size (as_hash_map self)).
Definition Assets_is_empty (self : Assets) : bool := (at_len (as_table self) =? 0) && bool_decide (as_hash_map self = ∅).

(** The identifiers [iter_id] yields for the table, in order. *)
Definition table_ids (t : AssetTable) : list AssetIndex :=
  omap (λ p : nat * option Entry, e ← p.2; _ ← en_value e; Some (mkIndex (Z.of_nat p.1 mod W32) (en_generation e)))
    (imap pair (at_storage t)).

(** ** Events *)

Record AssetChanges := mkChanges { change_ticks : gmap AssetId Z; last_change_tick : Z }.

Definition AssetChanges_insert (self : AssetChanges) (id : AssetId) (tick : Z) : AssetChanges :=
  mkChanges (<[id := tick]> (change_ticks self)) tick.
Definition AssetChanges_remove (self : AssetChanges) (id : AssetId) : AssetChanges :=
  mkChanges (delete id (change_ticks self)) (last_change_tick self).

Definition apply_event (this_run : Z) (self : AssetChanges) (e : AssetEvent) : AssetChanges :=
  match e with
  | EvRemoved id | EvUnused id => AssetChanges_remove self id
  | EvAdded id | EvModified id | EvFullyLoaded id => AssetChanges_insert self id this_run
  end.

(** The messages written, and the change ticks when they are tracked. *)
Definition handle_asset_events (self : Assets) (changes : option AssetChanges) (this_run : Z) : list AssetEvent * Assets * option AssetChanges :=
  let events := as_queued_events self in
  (events, mkAssets (as_table self) (as_hash_map self) [] (as_duplicate_handles self),
   (λ c, foldl (apply_event this_run) c events) <$> changes).
End table.
#[global] Arguments Entry : clear implicits.
#[global] Arguments AssetTable : clear implicits.
#[global] Arguments Assets : clear implicits.
