(* ===== verification/AssetsTheorems.v ===== *)
(** * Asset storage refines a map of live indices

    The table and its allocator keep every index ever reserved apart by its
    generation; operations act on a map from live indices to assets, and the queued
    events tell exactly which identifiers are stored. *)

From Stdlib Require Import ZArith Lia.
From S2P Require Import Prelude Assets.
Local Open Scope Z_scope.

Section table.
Context {A : Type}.
Implicit Types (t : AssetTable A) (vals : gmap AssetIndex A) (ever alive : gset AssetIndex) (gen : Z → Z).

(** [gen i] is the last generation handed out for slot [i]; [k] counts the indices
    handed out. *)
Record rep (k : Z) t ever alive vals gen : Prop := {
  r_next : 0 <= next_index (at_allocator t) <= k;
  r_len : Z.of_nat (length (at_storage t)) <= next_index (at_allocator t);
  r_queue : ∀ r, r ∈ recycled_queue (at_allocator t) → 0 <= ai_index r ∧ ai_generation r = gen (ai_index r) ∧ at_storage t !! Z.to_nat (ai_index r) = Some None;
  r_pending : ∀ r, r ∈ recycled (at_allocator t) → 0 <= ai_index r ∧ ai_generation r = gen (ai_index r) ∧ at_storage t !! Z.to_nat (ai_index r) = Some None;
  r_nodup : NoDup (ai_index <$> recycled_queue (at_allocator t) ++ recycled (at_allocator t));
  r_none : ∀ i, at_storage t !! i = Some None → Z.of_nat i ∈ ai_index <$> recycled_queue (at_allocator t) ++ recycled (at_allocator t);
  r_live : ∀ i e, at_storage t !! i = Some (Some e) → en_generation e = gen (Z.of_nat i);
  r_fresh : ∀ i, Z.of_nat (length (at_storage t)) <= i < next_index (at_allocator t) → gen i = 0;
  r_gen : ∀ i, 0 <= gen i <= k;
  r_ever : ∀ x, x ∈ ever ↔ 0 <= ai_index x < next_index (at_allocator t) ∧ 0 <= ai_generation x <= gen (ai_index x);
  r_alive : ∀ x, x ∈ alive ↔ 0 <= ai_index x < next_index (at_allocator t) ∧ ai_generation x = gen (ai_index x) ∧ x ∉ recycled_queue (at_allocator t);
  r_vals : ∀ x v, vals !! x = Some v ↔ 0 <= ai_index x ∧ at_storage t !! Z.to_nat (ai_index x) = Some (Some (mkEntry (Some v) (ai_generation x)));
  r_count : at_len t = Z.of_nat (size vals);
  r_size : Z.of_nat (size alive) <= k
}.

Definition flushed t : Prop := recycled (at_allocator t) = [] ∧ Z.of_nat (length (at_storage t)) = next_index (at_allocator t).

Lemma rep_start : rep 0 AssetTable_default ∅ ∅ ∅ (λ _, 0).
Proof.
  split; cbn; try lia; try set_solver; try done.
  - constructor.
  - intros x. split; [set_solver|lia].
  - intros x. split; [set_solver|lia].
Qed.

(** ** Flushing *)

Lemma lookup_resize (l : list (option (Entry A))) n i :
  (length l ≤ n)%nat → resize_storage l n !! i =
  if decide (i < length l)%nat then l !! i else if decide (i < n)%nat then Some (Some Entry_DEFAULT) else None.
Proof.
  intros Hn. unfold resize_storage. rewrite take_ge by done. repeat case_decide.
  - by rewrite lookup_app_l.
  - rewrite lookup_app_r by lia. by apply lookup_replicate_2; lia.
  - apply lookup_ge_None_2. rewrite length_app, length_replicate. lia.
Qed.

Lemma rep_resize k t ever alive vals gen :
  rep k t ever alive vals gen →
  rep k (mkTable (resize_storage (at_storage t) (Z.to_nat (next_index (at_allocator t)))) (at_len t) (at_allocator t)) ever alive vals gen.
Proof.
  intros [Hn Hl Hq Hp Hd Hno Hli Hfr Hg Hev Hal Hv Hc Hs]. set (n := Z.to_nat (next_index (at_allocator t))).
  assert (Hle : (length (at_storage t) ≤ n)%nat) by lia.
  assert (Hlen : length (resize_storage (at_storage t) n) = n).
  { unfold resize_storage. rewrite length_app, length_take, length_replicate. lia. }
  assert (Hkeep : ∀ i e, at_storage t !! i = Some e → resize_storage (at_storage t) n !! i = Some e).
  { intros i e Hi. rewrite lookup_resize by done. apply lookup_lt_Some in Hi as Hlt. by rewrite decide_True. }
  split; cbn; try done; rewrite ?Hlen; try lia.
  - intros r Hr. destruct (Hq r Hr) as (? & ? & ?). eauto.
  - intros r Hr. destruct (Hp r Hr) as (? & ? & ?). eauto.
  - intros i. rewrite lookup_resize by done. repeat case_decide; [apply Hno|done|done].
  - intros i e. rewrite lookup_resize by done. repeat case_decide; [apply Hli| |done]. intros [= <-]. cbn. symmetry. apply Hfr. lia.
  - intros x v. rewrite Hv. rewrite lookup_resize by done. repeat case_decide; [done| |]; split; intros [? Hx]; try done.
    + by apply lookup_lt_Some in Hx.
    + by apply lookup_lt_Some in Hx.
Qed.

Lemma rep_pop_recycled k storage len n q r rs ever alive vals gen :
  rep k (mkTable storage len (mkAlloc n q (r :: rs))) ever alive vals gen →
  store_entry storage (ai_index r) (Some (Entry_none (ai_generation r))) = Ret (<[Z.to_nat (ai_index r) := Some (Entry_none (ai_generation r))]> storage) ∧
  rep k (mkTable (<[Z.to_nat (ai_index r) := Some (Entry_none (ai_generation r))]> storage) len (mkAlloc n q rs)) ever alive vals gen.
Proof.
  intros [Hn Hl Hq Hp Hd Hno Hli Hfr Hg Hev Hal Hv Hc Hs]. cbn in *.
  destruct (Hp r ltac:(left)) as (Hr0 & Hrg & Hrs). apply lookup_lt_Some in Hrs as Hlt.
  split; [unfold store_entry; by rewrite decide_True|].
  rewrite fmap_app in Hd. cbn in Hd. apply NoDup_app in Hd as (Hd1 & Hd2 & [Hd3 Hd4]%NoDup_cons).
  assert (Hother : ∀ x, x ∈ q ∨ x ∈ rs → ai_index x ≠ ai_index r).
  { intros x [Hx|Hx] Heq.
    - apply (Hd2 (ai_index x)); [by apply list_elem_of_fmap_2|]. rewrite Heq. left.
    - apply Hd3. rewrite <- Heq. by apply list_elem_of_fmap_2. }
  assert (Hkeep : ∀ x, x ∈ q ∨ x ∈ rs → 0 <= ai_index x → storage !! Z.to_nat (ai_index x) = Some None →
    <[Z.to_nat (ai_index r) := Some (Entry_none (ai_generation r))]> storage !! Z.to_nat (ai_index x) = Some None).
  { intros x Hx H0 Hsx. rewrite list_lookup_insert_ne; [done|]. pose proof (Hother x Hx). lia. }
  split; cbn; rewrite ?length_insert; try done.
  - intros x Hx. destruct (Hq x Hx) as (? & ? & ?). eauto.
  - intros x Hx. destruct (Hp x ltac:(by right)) as (? & ? & ?). eauto.
  - rewrite fmap_app. apply NoDup_app. split_and!; [done| |done]. intros x Hx Hx'. apply (Hd2 x Hx). by right.
  - intros i [(<- & ? & _)|[Hne Hi]]%list_lookup_insert_Some; [done|]. apply Hno in Hi. rewrite fmap_app in Hi |- *. cbn in Hi.
    rewrite elem_of_app, elem_of_cons in Hi. rewrite elem_of_app. destruct Hi as [?|[?|?]]; [by left|lia|by right].
  - intros i e [(<- & [= <-] & _)|[Hne Hi]]%list_lookup_insert_Some; [cbn; by rewrite Z2Nat.id|]. by apply Hli.
  - intros x v. rewrite Hv. destruct (decide (Z.to_nat (ai_index r) = Z.to_nat (ai_index x))) as [Heq|Hne].
    + rewrite <- Heq, Hrs, list_lookup_insert_eq by done. split; intros [? [=]].
    + by rewrite list_lookup_insert_ne by done.
Qed.

Lemma rep_flush_recycled k len n q ever alive vals gen rs : ∀ storage,
  rep k (mkTable storage len (mkAlloc n q rs)) ever alive vals gen →
  ∃ storage', flush_recycled storage rs = Ret storage' ∧ length storage' = length storage ∧
    rep k (mkTable storage' len (mkAlloc n q [])) ever alive vals gen.
Proof.
  induction rs as [|r rs IH]; intros storage Hr; cbn [flush_recycled]; [eauto|].
  destruct (rep_pop_recycled _ _ _ _ _ _ _ _ _ _ _ Hr) as [-> Hr']. cbn [mbind outcome_bind].
  destruct (IH _ Hr') as (s' & H1 & H2 & H3). rewrite length_insert in H2. eauto.
Qed.

Lemma rep_flush k t ever alive vals gen :
  rep k t ever alive vals gen → ∃ t', flush t = Ret t' ∧ rep k t' ever alive vals gen ∧ flushed t'.
Proof.
  intros Hr. pose proof (r_next _ _ _ _ _ _ Hr) as Hn. pose proof (r_len _ _ _ _ _ _ Hr) as Hl. apply rep_resize in Hr.
  unfold flush. destruct t as [storage len [n q rs]]. cbn in *.
  destruct (rep_flush_recycled _ _ _ _ _ _ _ _ _ _ Hr) as (s' & -> & Hlen & Hr'). cbn [mbind outcome_bind].
  eexists. split; [done|]. split; [done|]. split; cbn; [done|].
  rewrite Hlen. unfold resize_storage. rewrite length_app, length_take, length_replicate. lia.
Qed.
(** ** The slot of an index *)

Lemma alive_ever k t ever alive vals gen x : rep k t ever alive vals gen → x ∈ alive → x ∈ ever.
Proof. intros Hr. rewrite (r_ever _ _ _ _ _ _ Hr), (r_alive _ _ _ _ _ _ Hr). pose proof (r_gen _ _ _ _ _ _ Hr (ai_index x)). lia. Qed.

Lemma vals_alive k t ever alive vals gen x v : rep k t ever alive vals gen → vals !! x = Some v → x ∈ alive.
Proof.
  intros Hr [H0 Hs]%(r_vals _ _ _ _ _ _ Hr). apply (r_alive _ _ _ _ _ _ Hr). apply lookup_lt_Some in Hs as Hlt.
  pose proof (r_len _ _ _ _ _ _ Hr). apply (r_live _ _ _ _ _ _ Hr) in Hs as Hg. cbn in Hg. rewrite Z2Nat.id in Hg by done.
  split; [lia|]. split; [done|]. intros (_ & _ & Hq)%(r_queue _ _ _ _ _ _ Hr). congruence.
Qed.

Lemma vals_size k t ever alive vals gen : rep k t ever alive vals gen → (size vals ≤ size alive)%nat.
Proof.
  intros Hr. rewrite <- (size_dom (D := gset AssetIndex)). apply subseteq_size. intros x [v Hv]%elem_of_dom. by eapply vals_alive.
Qed.

Lemma slot_of k t ever alive vals gen x :
  rep k t ever alive vals gen → flushed t → x ∈ ever →
  ∃ e, load_entry t (ai_index x) = Ret e ∧
    match e with
    | None => x ∉ alive
    | Some e => (en_generation e =? ai_generation x) = bool_decide (x ∈ alive) ∧
                (x ∈ alive → e = mkEntry (vals !! x) (ai_generation x))
    end.
Proof.
  intros Hr [Hrec Hlen] Hx. apply (r_ever _ _ _ _ _ _ Hr) in Hx as [Hi Hgx].
  destruct (lookup_lt_is_Some_2 (at_storage t) (Z.to_nat (ai_index x)) ltac:(lia)) as [e He].
  exists e. unfold load_entry. rewrite He. split; [done|]. destruct e as [e|].
  - apply (r_live _ _ _ _ _ _ Hr) in He as Hg. rewrite Z2Nat.id in Hg by lia. split.
    + rewrite Hg. case_bool_decide as Ha.
      * apply (r_alive _ _ _ _ _ _ Hr) in Ha as (_ & -> & _). apply Z.eqb_refl.
      * apply Z.eqb_neq. intros Heq. apply Ha, (r_alive _ _ _ _ _ _ Hr). split; [done|]. split; [done|].
        intros (_ & _ & Hq)%(r_queue _ _ _ _ _ _ Hr). congruence.
    + intros (_ & Hgen & _)%(r_alive _ _ _ _ _ _ Hr). destruct e as [v g]. cbn in Hg. rewrite <- Hgen in Hg. subst g. f_equal.
      destruct v as [v|]; symmetry; [apply (r_vals _ _ _ _ _ _ Hr); split; [lia|done]|].
      apply eq_None_not_Some. intros [v [_ Hv]%(r_vals _ _ _ _ _ _ Hr)]. congruence.
  - intros (_ & Hgen & Hq)%(r_alive _ _ _ _ _ _ Hr). apply (r_none _ _ _ _ _ _ Hr) in He. rewrite Hrec, app_nil_r in He.
    apply list_elem_of_fmap in He as (r & Hri & Hrq). destruct (r_queue _ _ _ _ _ _ Hr r Hrq) as (Hr0 & Hrg & _).
    apply Hq. replace x with r; [done|]. destruct r as [ri rg], x as [xi xg]. cbn in *. f_equal; [lia|]. rewrite Hrg, Hgen. f_equal. lia.
Qed.

(** Writing the value of a slot. *)
Lemma rep_value_at k t ever alive vals gen x o len e0 :
  rep k t ever alive vals gen → 0 <= ai_index x → at_storage t !! Z.to_nat (ai_index x) = Some (Some e0) → en_generation e0 = ai_generation x →
  len = Z.of_nat (size (partial_alter (λ _, o) x vals)) →
  rep k (mkTable (<[Z.to_nat (ai_index x) := Some (mkEntry o (ai_generation x))]> (at_storage t)) len (at_allocator t))
    ever alive (partial_alter (λ _, o) x vals) gen.
Proof.
  intros Hr Hi He0 Hge Hsz. apply (r_live _ _ _ _ _ _ Hr) in He0 as Hg. rewrite Z2Nat.id in Hg by lia. rewrite Hge in Hg.
  apply lookup_lt_Some in He0 as Hlt. pose proof Hr as [Hn Hl Hqq Hp Hd Hno Hli Hfr Hgg Hev Hal Hv Hc Hs].
  assert (Hkeep : ∀ r, at_storage t !! Z.to_nat (ai_index r) = Some None →
    <[Z.to_nat (ai_index x) := Some (mkEntry o (ai_generation x))]> (at_storage t) !! Z.to_nat (ai_index r) = Some None).
  { intros r Hrr. rewrite list_lookup_insert_ne; [done|]. intros Heq. rewrite Heq in He0. congruence. }
  split; cbn; rewrite ?length_insert; try done.
  - intros r Hrr. destruct (Hqq r Hrr) as (? & ? & ?). eauto.
  - intros r Hrr. destruct (Hp r Hrr) as (? & ? & ?). eauto.
  - intros i [(<- & ? & _)|[Hne Hii]]%list_lookup_insert_Some; [done|]. by apply Hno.
  - intros i e [(<- & [= <-] & _)|[Hne Hii]]%list_lookup_insert_Some; [cbn; by rewrite Z2Nat.id by lia|]. by apply Hli.
  - intros y v. destruct (decide (x = y)) as [<-|Hne].
    + rewrite lookup_partial_alter_eq, list_lookup_insert_eq by done. split; [intros ->; split; [lia|done]|intros [_ [= ->]]; done].
    + rewrite lookup_partial_alter_ne by done. rewrite Hv. destruct (decide (Z.to_nat (ai_index x) = Z.to_nat (ai_index y))) as [Heq|Hne2].
      * rewrite <- Heq, list_lookup_insert_eq, He0 by done. split; intros [H0 [= He]]; exfalso; apply Hne; destruct x as [xi xg], y as [yi yg]; cbn in *.
        -- subst e0. cbn in Hge. f_equal; [lia|]. congruence.
        -- f_equal; [lia|done].
      * by rewrite list_lookup_insert_ne by done.
Qed.

Lemma rep_value k t ever alive vals gen x o len :
  rep k t ever alive vals gen → flushed t → x ∈ alive → len = Z.of_nat (size (partial_alter (λ _, o) x vals)) →
  rep k (mkTable (<[Z.to_nat (ai_index x) := Some (mkEntry o (ai_generation x))]> (at_storage t)) len (at_allocator t))
    ever alive (partial_alter (λ _, o) x vals) gen.
Proof.
  intros Hr Hfl Hx Hsz. destruct (slot_of k t ever alive vals gen x Hr Hfl (alive_ever _ _ _ _ _ _ _ Hr Hx)) as ([e|] & Hl & He); [|by destruct He].
  destruct He as [_ He]. specialize (He Hx). apply (r_alive _ _ _ _ _ _ Hr) in Hx as ((Hi & _) & _).
  apply (rep_value_at k t ever alive vals gen x o len e); [done|done| |by subst e|done].
  unfold load_entry in Hl. destruct (at_storage t !! Z.to_nat (ai_index x)); congruence.
Qed.

(** Handing a live slot without a value to the queue. *)
Lemma rep_recycle k t ever alive vals gen x :
  rep k t ever alive vals gen → flushed t → x ∈ alive → vals !! x = None →
  rep k (mkTable (<[Z.to_nat (ai_index x) := None]> (at_storage t)) (at_len t) (recycle (at_allocator t) x)) ever (alive ∖ {[x]}) vals gen.
Proof.
  intros Hr [Hrec Hlen] Hx Hnone. pose proof Hx as Hx2. apply (r_alive _ _ _ _ _ _ Hr) in Hx2 as (Hi & Hg & Hq).
  pose proof Hr as [Hn Hl Hqq Hp Hd Hno Hli Hfr Hgg Hev Hal Hv Hc Hs]. assert (Hlt : (Z.to_nat (ai_index x) < length (at_storage t))%nat) by lia.
  destruct (lookup_lt_is_Some_2 _ _ Hlt) as [e0 He0].
  assert (Hfresh : ∀ r, r ∈ recycled_queue (at_allocator t) → ai_index r ≠ ai_index x).
  { intros r Hrq Heq. destruct (Hqq r Hrq) as (_ & Hrg & _). apply Hq. replace x with r; [done|]. destruct r, x. cbn in *. congruence. }
  rewrite Hrec, app_nil_r in *. split; cbn; rewrite ?length_insert, ?Hrec, ?app_nil_r; try done; try lia.
  - intros r [Hrr| ->%list_elem_of_singleton]%elem_of_app.
    + destruct (Hqq r Hrr) as (? & ? & ?). split_and!; [done|done|]. rewrite list_lookup_insert_ne; [done|]. pose proof (Hfresh r Hrr). lia.
    + split_and!; [lia|done|by apply list_lookup_insert_eq].
  - set_solver.
  - rewrite fmap_app. apply NoDup_app. split_and!; [done| |apply NoDup_singleton]. cbn.
    intros i (r & -> & Hrr)%list_elem_of_fmap ?%list_elem_of_singleton. by apply (Hfresh r).
  - intros i [(<- & _ & _)|[Hne Hii]]%list_lookup_insert_Some; rewrite fmap_app, elem_of_app; [right; cbn; rewrite Z2Nat.id by lia; left|].
    left. by apply Hno.
  - intros i e [(<- & ? & _)|[Hne Hii]]%list_lookup_insert_Some; [done|]. by apply Hli.
  - intros y. rewrite elem_of_difference, not_elem_of_singleton, Hal, not_elem_of_app, list_elem_of_singleton. tauto.
  - intros y v. rewrite Hv. destruct (decide (Z.to_nat (ai_index x) = Z.to_nat (ai_index y))) as [Heq|Hne2].
    + rewrite <- Heq, list_lookup_insert_eq by done. split; [|intros [_ [=]]]. intros [H0 Hy]. exfalso.
      assert (Hxy : y = x).
      { rewrite Heq in Hy. apply Hli in Hy as Hgy. cbn in Hgy. rewrite Z2Nat.id in Hgy by done. destruct x, y. cbn in *.
        assert (ai_index0 = ai_index) by lia. subst. congruence. }
      subst y. assert (Hxv : vals !! x = Some v) by (by apply Hv). congruence.
    + by rewrite list_lookup_insert_ne by done.
  - rewrite size_difference, size_singleton by set_solver. lia.
Qed.
(** ** The operations of the table *)

Definition gen_set gen (i g : Z) : Z → Z := λ j, if j =? i then g else gen j.

Lemma gen_set_eq gen i g : gen_set gen i g i = g.
Proof. unfold gen_set. by rewrite Z.eqb_refl. Qed.
Lemma gen_set_ne gen i g j : j ≠ i → gen_set gen i g j = gen j.
Proof. unfold gen_set. intros Hne. by rewrite (proj2 (Z.eqb_neq _ _)). Qed.

Lemma alive_size k alive (x : AssetIndex) : Z.of_nat (size alive) <= k → Z.of_nat (size ({[x]} ∪ alive)) <= k + 1.
Proof. intros Hs. pose proof (size_union_alt ({[x]} : gset AssetIndex) alive) as Hu. rewrite size_singleton in Hu.
  pose proof (subseteq_size (alive ∖ {[x]}) alive ltac:(set_solver)). lia.
Qed.

Lemma rep_reserve k t ever alive vals gen :
  rep k t ever alive vals gen → k <= MAX_ASSET_INDEX →
  ∃ x a' gen', reserve (at_allocator t) = Ret (x, a') ∧ x ∉ ever ∧
    rep (k + 1) (mkTable (at_storage t) (at_len t) a') ({[x]} ∪ ever) ({[x]} ∪ alive) vals gen'.
Proof.
  intros Hr Hk. unfold MAX_ASSET_INDEX in Hk. pose proof Hr as [Hn Hl Hqq Hp Hd Hno Hli Hfr Hgg Hev Hal Hv Hc Hs].
  unfold reserve. destruct (at_allocator t) as [n q rs] eqn:Ha. cbn in *. destruct q as [|r q].
  - rewrite (proj2 (Z.leb_le _ _)) by (unfold MAX_ASSET_INDEX; lia). exists (mkIndex n 0), (mkAlloc (wadd32 n 1) [] rs), (gen_set gen n 0).
    assert (Hw : wadd32 n 1 = n + 1) by (unfold wadd32; rewrite Z.mod_small; lia). rewrite Hw.
    assert (Hlow : ∀ i, i < n → gen_set gen n 0 i = gen i) by (intros i Hi; apply gen_set_ne; lia).
    split; [done|]. split; [rewrite Hev; cbn; lia|]. cbn in *. split; cbn; try done; try lia.
    + intros r Hrr. by apply elem_of_nil in Hrr.
    + intros r Hrr. destruct (Hp r Hrr) as (H0 & Hrg & Hrs). apply lookup_lt_Some in Hrs as Hlt. rewrite Hlow by lia. done.
    + intros i e Hi. apply lookup_lt_Some in Hi as Hlt. rewrite Hlow by lia. by apply Hli.
    + intros i Hi. destruct (decide (i = n)) as [->|Hne]; [apply gen_set_eq|]. rewrite Hlow by lia. apply Hfr. lia.
    + intros i. destruct (decide (i = n)) as [->|Hne]; [rewrite gen_set_eq; lia|]. rewrite gen_set_ne by done. pose proof (Hgg i). lia.
    + intros [xi xg]. rewrite elem_of_union, elem_of_singleton, Hev. cbn. destruct (decide (xi = n)) as [->|Hne].
      * rewrite gen_set_eq. split; [intros [[= ->]|?]; lia|]. intros [_ ?]. left. f_equal. lia.
      * rewrite gen_set_ne by done. split; [intros [[= ? ?]|?]; lia|]. intros ?. right. lia.
    + intros [xi xg]. rewrite elem_of_union, elem_of_singleton, Hal. cbn. destruct (decide (xi = n)) as [->|Hne].
      * rewrite gen_set_eq. split; [intros [[= ->]|?]; [split_and!; lia || set_solver|lia]|]. intros (_ & -> & _). by left.
      * rewrite gen_set_ne by done. split; [intros [[= ? ?]|(? & ? & ?)]; [lia|split_and!; done || lia]|]. intros (? & ? & ?). right. split_and!; done || lia.
    + by apply alive_size.
  - destruct (Hqq r ltac:(left)) as (Hr0 & Hrg & Hrs). apply lookup_lt_Some in Hrs as Hlt. pose proof (Hgg (ai_index r)) as Hgr.
    assert (Hw : wadd32 (ai_generation r) 1 = ai_generation r + 1) by (unfold wadd32; rewrite Z.mod_small; lia). rewrite Hw.
    set (x := mkIndex (ai_index r) (ai_generation r + 1)). cbn in Hd. apply NoDup_cons in Hd as [Hd1 Hd2].
    assert (Hother : ∀ y, y ∈ q ++ rs → ai_index y ≠ ai_index r).
    { intros y Hy Heq. apply Hd1. rewrite <- Heq. by apply list_elem_of_fmap_2. }
    exists x, (mkAlloc n q (rs ++ [x])), (gen_set gen (ai_index r) (ai_generation r + 1)).
    split; [done|]. split; [rewrite Hev; cbn; lia|]. split; cbn; try done; try lia.
    + intros y Hy. destruct (Hqq y ltac:(by right)) as (? & ? & ?). rewrite gen_set_ne by (apply Hother; set_solver). done.
    + intros y [Hy| ->%list_elem_of_singleton]%elem_of_app.
      * destruct (Hp y Hy) as (? & ? & ?). rewrite gen_set_ne by (apply Hother; set_solver). done.
      * cbn. rewrite gen_set_eq. done.
    + rewrite app_assoc, fmap_app. apply NoDup_app. split_and!; [done| |apply NoDup_singleton].
      intros i Hi ->%list_elem_of_singleton. by apply Hd1.
    + intros i Hi%Hno. cbn in Hi. rewrite app_assoc, fmap_app, elem_of_app. apply elem_of_cons in Hi as [->|Hi]; [right; by left|by left].
    + intros i e Hi. rewrite gen_set_ne; [by apply Hli|]. intros Heq. rewrite <- Heq, Nat2Z.id in Hrs. congruence.
    + intros i Hi. rewrite gen_set_ne by lia. by apply Hfr.
    + intros i. destruct (decide (i = ai_index r)) as [->|Hne]; [rewrite gen_set_eq; lia|]. rewrite gen_set_ne by done. pose proof (Hgg i). lia.
    + intros [xi xg]. rewrite elem_of_union, elem_of_singleton, Hev. unfold x. cbn. destruct (decide (xi = ai_index r)) as [->|Hne].
      * rewrite gen_set_eq. split; [intros [[= ->]|?]; lia|]. intros [? ?]. destruct (decide (xg = ai_generation r + 1)) as [->|]; [by left|right; lia].
      * rewrite gen_set_ne by done. split; [intros [[= ? ?]|?]; lia|]. intros ?. right. lia.
    + intros [xi xg]. rewrite elem_of_union, elem_of_singleton, Hal. unfold x. cbn. destruct (decide (xi = ai_index r)) as [->|Hne].
      * rewrite gen_set_eq. split.
        -- intros [[= ->]|(Hi & Hg & Hq)].
           ++ split_and!; [lia|lia|done|]. intros Hq. by apply (Hother (mkIndex (ai_index r) (ai_generation r + 1))); [set_solver|].
           ++ exfalso. apply Hq. apply elem_of_cons. left. destruct r. cbn in *. f_equal. congruence.
        -- intros (_ & -> & _). by left.
      * rewrite gen_set_ne by done. split.
        -- intros [[= ? ?]|(? & ? & Hq)]; [done|]. split_and!; [lia|lia|done|]. intros Hin. apply Hq. by right.
        -- intros (? & ? & Hq). right. split_and!; [lia|lia|done|]. rewrite not_elem_of_cons. split; [|done]. intros Heq. apply Hne. by rewrite <- Heq.
    + by apply alive_size.
Qed.

Lemma insert_ok k t ever alive vals gen x a :
  rep k t ever alive vals gen → k <= MAX_ASSET_INDEX → x ∈ ever →
  ∃ r t', AssetTable_insert t x a = Ret (r, t') ∧
    if decide (x ∈ alive)
    then r = Ok (bool_decide (is_Some (vals !! x))) ∧ rep k t' ever alive (<[x := a]> vals) gen
    else (∃ e, r = Err e) ∧ rep k t' ever alive vals gen.
Proof.
  intros Hr0 Hk Hx. unfold MAX_ASSET_INDEX in Hk. destruct (rep_flush _ _ _ _ _ _ Hr0) as (t1 & Hf & Hr & Hfl).
  unfold AssetTable_insert. rewrite Hf. cbn [mbind outcome_bind].
  destruct (slot_of _ _ _ _ _ _ x Hr Hfl Hx) as (e & -> & He). cbn [mbind outcome_bind]. destruct e as [e|].
  2: { eexists _, _. split; [reflexivity|]. rewrite decide_False by done. split; [by eexists|done]. }
  destruct He as [Hb Hal]. rewrite Hb. case_decide as Ha.
  2: { rewrite bool_decide_false by done. eexists _, _. split; [reflexivity|]. split; [by eexists|done]. }
  rewrite bool_decide_true by done. rewrite (Hal Ha). cbn [negb en_value en_generation].
  pose proof (vals_size _ _ _ _ _ _ Hr) as Hvs. pose proof (r_size _ _ _ _ _ _ Hr) as Has. pose proof (r_count _ _ _ _ _ _ Hr) as Hc.
  eexists _, _. split; [reflexivity|]. split; [by destruct (vals !! x)|].
  destruct (vals !! x) as [v|] eqn:Hv; cbn; apply (rep_value k t1 ever alive vals gen x (Some a)); try done.
  - rewrite Hc. f_equal. change (partial_alter _ _ _) with (<[x := a]> vals). by rewrite map_size_insert_Some.
  - rewrite Hc. change (partial_alter _ _ _) with (<[x := a]> vals). rewrite map_size_insert_None by done. unfold wadd32. rewrite Z.mod_small; lia.
Qed.

Lemma remove_ok k t ever alive vals gen x action :
  rep k t ever alive vals gen → k <= MAX_ASSET_INDEX → x ∈ ever →
  ∃ t', remove_internal t x action = Ret (if decide (x ∈ alive) then vals !! x else None, if decide (x ∈ alive) then action t' else t') ∧
    flushed t' ∧ rep k t' ever alive (if decide (x ∈ alive) then delete x vals else vals) gen.
Proof.
  intros Hr0 Hk Hx. unfold MAX_ASSET_INDEX in Hk. destruct (rep_flush _ _ _ _ _ _ Hr0) as (t1 & Hf & Hr & Hfl).
  unfold remove_internal. rewrite Hf. cbn [mbind outcome_bind].
  destruct (slot_of _ _ _ _ _ _ x Hr Hfl Hx) as (e & -> & He). cbn [mbind outcome_bind]. destruct e as [e|].
  2: { exists t1. by rewrite !decide_False by done. }
  destruct He as [Hb Hal]. rewrite Hb. destruct (decide (x ∈ alive)) as [Ha|Ha].
  2: { rewrite bool_decide_false by done. by exists t1. }
  rewrite bool_decide_true by done. rewrite (Hal Ha). cbn [negb en_value en_generation].
  pose proof (vals_size _ _ _ _ _ _ Hr) as Hvs. pose proof (r_size _ _ _ _ _ _ Hr) as Has. pose proof (r_count _ _ _ _ _ _ Hr) as Hc.
  eexists. split; [reflexivity|]. change (delete x vals) with (partial_alter (λ _, None) x vals).
  assert (Hlen : length (<[Z.to_nat (ai_index x) := Some (mkEntry None (ai_generation x))]> (at_storage t1)) = length (at_storage t1)) by apply length_insert.
  destruct (vals !! x) as [v|] eqn:Hv; cbn; (split; [split; cbn; [apply Hfl|rewrite Hlen; apply Hfl]|]);
    apply (rep_value k t1 ever alive vals gen x None); try done.
  - rewrite Hc. change (partial_alter _ _ _) with (delete x vals). rewrite map_size_delete_Some by done.
    assert (size vals ≠ 0)%nat by (intros Hz%map_size_empty_inv; subst; done). unfold wsub32. rewrite Z.mod_small; lia.
  - rewrite Hc. change (partial_alter _ _ _) with (delete x vals). by rewrite map_size_delete_None.
Qed.

Lemma recycle_ok k t ever alive vals gen x :
  rep k t ever alive vals gen → k <= MAX_ASSET_INDEX → x ∈ ever →
  ∃ t', table_remove_and_recycle t x = Ret (if decide (x ∈ alive) then vals !! x else None, t') ∧
    rep k t' ever (alive ∖ {[x]}) (delete x vals) gen.
Proof.
  intros Hr Hk Hx. destruct (remove_ok k t ever alive vals gen x (λ t,
    let t := set_entry t (ai_index x) None in mkTable (at_storage t) (at_len t) (recycle (at_allocator t) x)) Hr Hk Hx) as (t1 & Hrm & Hfl & Hr1).
  eexists. split; [exact Hrm|]. clear Hrm. case_decide as Ha.
  - cbn. apply rep_recycle; [done|done|done|]. apply lookup_delete_eq.
  - replace (alive ∖ {[x]}) with alive by set_solver. replace (delete x vals) with vals; [done|].
    symmetry. apply delete_id. apply eq_None_not_Some. intros [v Hv]. by eapply vals_alive in Hv; [|exact Hr1].
Qed.

Lemma get_ok k t ever alive vals gen x : rep k t ever alive vals gen → 0 <= ai_index x → AssetTable_get t x = vals !! x.
Proof.
  intros Hr H0. unfold AssetTable_get. apply option_eq. intros v. rewrite (r_vals _ _ _ _ _ _ Hr).
  destruct (at_storage t !! Z.to_nat (ai_index x)) as [[[o g]|]|]; cbn; [|by split; [|intros [_ ?]]..].
  destruct (Z.eqb_spec g (ai_generation x)) as [->|Hne]; [|by split; [|intros [_ [= ]]]]. split; [by intros ->|intros [_ [= ->]]; done].
Qed.
End table.
