(* ===== verification/AssetsRefine.v ===== *)
(** * [Assets<A>] refines a pair of maps

    Histories of operations on [Assets<A>] and the store of handles they refine: the
    strong handles that exist for each index, and the assets stored under live
    indices and under UUIDs.  The events queued along a history, replayed, give exactly the
    identifiers stored. *)

From Stdlib Require Import ZArith Lia.
From S2P Require Import Prelude Assets AssetsTheorems.
Local Open Scope Z_scope.

Section refine.
Context {A : Type}.
Implicit Types (s : Assets A) (id : AssetId) (i : AssetIndex).

Inductive AssetOp :=
| OReserve
| OInsert (id : AssetId) (a : A)
| OAdd (a : A)
| OModify (id : AssetId) (f : A → A)
| ORemove (id : AssetId)
| ODrop (i : AssetIndex)
| OResolve (id : AssetId)
| OEvents.

Inductive AssetRes :=
| RIndex (i : AssetIndex)
| RBool (b : bool)
| RValue (o : option A)
| RUnit
| REvents (es : list AssetEvent).

Definition asset_exec s (o : AssetOp) : outcome (AssetRes * Assets A) :=
  match o with
  | OReserve => '(i, s) ← reserve_handle s; Ret (RIndex i, s)
  | OInsert id a => '(r, s) ← Assets_insert s id a; Ret (RBool (match r with Ok _ => true | Err _ => false end), s)
  | OAdd a => '(i, s) ← Assets_add s a; Ret (RIndex i, s)
  | OModify id f => Ret (RUnit, Assets_modify s id f)
  | ORemove id => '(r, s) ← Assets_remove s id; Ret (RValue r, s)
  | ODrop i => s ← Assets_remove_and_recycle s i; Ret (RUnit, s)
  | OResolve id => let '(b, s) := resolve_strong_handle s id in Ret (RBool b, s)
  | OEvents => let '(es, s, _) := handle_asset_events s None 0 in Ret (REvents es, s)
  end.

(** The indices an operation names. *)
Definition id_index id : list AssetIndex := match id with IdIndex i => [i] | IdUuid _ => [] end.
Definition op_uses (o : AssetOp) : list AssetIndex :=
  match o with
  | OInsert id _ | OModify id _ | ORemove id | OResolve id => id_index id
  | ODrop i => [i]
  | _ => []
  end.

(** ** The store with the code's counters

    The maps and the counter of duplicate handles, without the table's slots; a
    step between the code and the store of handles below. *)

Record AbsAssets := mkAbsAssets {
  ab_ever : gset AssetIndex;
  ab_alive : gset AssetIndex;
  ab_vals : gmap AssetIndex A;
  ab_uuids : gmap Z A;
  ab_dup : gmap AssetIndex Z
}.
Implicit Types (b : AbsAssets).

Definition ab_lookup b id : option A := match id with IdIndex i => ab_vals b !! i | IdUuid u => ab_uuids b !! u end.

Definition ab_set b id (o : option A) : AbsAssets :=
  match id with
  | IdIndex i => mkAbsAssets (ab_ever b) (ab_alive b) (partial_alter (λ _, o) i (ab_vals b)) (ab_uuids b) (ab_dup b)
  | IdUuid u => mkAbsAssets (ab_ever b) (ab_alive b) (ab_vals b) (partial_alter (λ _, o) u (ab_uuids b)) (ab_dup b)
  end.

Definition ab_fresh b i : AbsAssets := mkAbsAssets ({[i]} ∪ ab_ever b) ({[i]} ∪ ab_alive b) (ab_vals b) (ab_uuids b) (ab_dup b).
Definition ab_kill b i : AbsAssets := mkAbsAssets (ab_ever b) (ab_alive b ∖ {[i]}) (delete i (ab_vals b)) (ab_uuids b) (ab_dup b).
Definition ab_count b (d : gmap AssetIndex Z) : AbsAssets := mkAbsAssets (ab_ever b) (ab_alive b) (ab_vals b) (ab_uuids b) d.

(** Whether an identifier can hold an asset. *)
Definition ab_writable b id : bool := match id with IdIndex i => bool_decide (i ∈ ab_alive b) | IdUuid _ => true end.

(** The store after dropping a handle: a counted duplicate, or the last one. *)
Definition ab_drop b i : AbsAssets :=
  match ab_dup b !! i with
  | Some n => if n =? 0 then ab_kill (ab_count b (delete i (ab_dup b))) i else ab_count b (<[i := n - 1]> (ab_dup b))
  | None => ab_kill b i
  end.

Definition ab_resolve b id : bool * AbsAssets :=
  match id with
  | IdUuid _ => (false, b)
  | IdIndex i =>
      match ab_vals b !! i with
      | None => (false, b)
      | Some _ => let n := default 0 (ab_dup b !! i) in
                  if n =? u16_MAX then (false, ab_count b (<[i := n]> (ab_dup b))) else (true, ab_count b (<[i := n + 1]> (ab_dup b)))
      end
  end.

Definition ab_forget b id : AbsAssets := match id with IdIndex i => ab_count b (delete i (ab_dup b)) | IdUuid _ => b end.

Inductive ab_step b : AssetOp → AssetRes → AbsAssets → Prop :=
| ab_s_reserve i : i ∉ ab_ever b → ab_step b OReserve (RIndex i) (ab_fresh b i)
| ab_s_add i a : i ∉ ab_ever b → ab_step b (OAdd a) (RIndex i) (ab_set (ab_fresh b i) (IdIndex i) (Some a))
| ab_s_insert id a : ab_step b (OInsert id a) (RBool (ab_writable b id)) (if ab_writable b id then ab_set b id (Some a) else b)
| ab_s_modify id f : ab_step b (OModify id f) RUnit (match ab_lookup b id with Some a => ab_set b id (Some (f a)) | None => b end)
| ab_s_remove id : ab_step b (ORemove id) (RValue (ab_lookup b id)) (ab_set (ab_forget b id) id None)
| ab_s_drop i : ab_step b (ODrop i) RUnit (ab_drop b i)
| ab_s_resolve id : ab_step b (OResolve id) (RBool (ab_resolve b id).1) (ab_resolve b id).2
| ab_s_events es : ab_step b OEvents (REvents es) b.

(** ** Events *)

(** The identifiers stored, as a reader of the events knows them. *)
Definition replay_event (known : gset AssetId) (e : AssetEvent) : gset AssetId :=
  match e with
  | EvAdded id => {[id]} ∪ known
  | EvRemoved id => known ∖ {[id]}
  | _ => known
  end.

Definition replay (known : gset AssetId) (es : list AssetEvent) : gset AssetId := foldl replay_event known es.

Definition knows (known : gset AssetId) b : Prop := ∀ id, id ∈ known ↔ is_Some (ab_lookup b id).

(** The events of a step take a reader from [b] to [b']. *)
Definition announces (es : list AssetEvent) b b' : Prop := ∀ known, knows known b → knows (replay known es) b'.

Lemma ab_lookup_set b id o id' : ab_lookup (ab_set b id o) id' = if decide (id = id') then o else ab_lookup b id'.
Proof.
  destruct id as [i|u], id' as [i'|u']; cbn; case_decide as Hd; try done; try (injection Hd as <-; apply lookup_partial_alter_eq);
    apply lookup_partial_alter_ne; congruence.
Qed.

Lemma announces_nil b b' : (∀ id, ab_lookup b' id = ab_lookup b id) → announces [] b b'.
Proof. intros Hl known Hk id. cbn. by rewrite Hl. Qed.

Lemma announces_set b id a :
  announces [if ab_lookup b id is Some _ then EvModified id else EvAdded id] b (ab_set b id (Some a)).
Proof.
  intros known Hk id'. rewrite ab_lookup_set. cbn. destruct (ab_lookup b id) as [a0|] eqn:Hl; cbn; case_decide as Hd.
  - subst id'. rewrite (Hk id), Hl. by split; eauto.
  - apply Hk.
  - subst id'. split; [eauto|]. intros _. set_solver.
  - rewrite elem_of_union, elem_of_singleton, (Hk id'). naive_solver.
Qed.

Lemma announces_removed b id :
  announces (match ab_lookup b id with Some _ => [EvRemoved id] | None => [] end) b (ab_set b id None).
Proof.
  intros known Hk id'. rewrite ab_lookup_set. destruct (ab_lookup b id) as [a0|] eqn:Hl; cbn; case_decide as Hd.
  - subst id'. split; [set_solver|intros [? [=]]].
  - rewrite elem_of_difference, not_elem_of_singleton, (Hk id'). naive_solver.
  - subst id'. by rewrite (Hk id), Hl.
  - apply Hk.
Qed.

(** Events that a reader ignores may come in front. *)
Lemma announces_unused es b b' id : announces es b b' → announces (EvUnused id :: es) b b'.
Proof. intros Ha known Hk. by apply Ha. Qed.

Lemma announces_same es b b' b'' : announces es b b' → (∀ id, ab_lookup b'' id = ab_lookup b' id) → announces es b b''.
Proof. intros Ha Hl known Hk id. rewrite (Ha known Hk id). by rewrite Hl. Qed.

Lemma announces_from es b b' b'' : announces es b' b'' → (∀ id, ab_lookup b' id = ab_lookup b id) → announces es b b''.
Proof. intros Ha Hl known Hk. apply Ha. intros id. by rewrite Hl, (Hk id). Qed.
End refine.
#[global] Arguments AssetOp : clear implicits.
#[global] Arguments AssetRes : clear implicits.
#[global] Arguments AbsAssets : clear implicits.

Section simulation.
Context {A : Type}.
Implicit Types (s : Assets A) (b : AbsAssets A) (id : AssetId) (i : AssetIndex).

Definition rep_assets (k : Z) s b gen : Prop :=
  rep k (as_table s) (ab_ever b) (ab_alive b) (ab_vals b) gen ∧ as_hash_map s = ab_uuids b ∧ as_duplicate_handles s = ab_dup b.

Lemma rep_mono k t ever alive (vals : gmap AssetIndex A) gen : rep k t ever alive vals gen → rep (k + 1) t ever alive vals gen.
Proof. intros [Hn Hl Hq Hp Hd Hno Hli Hfr Hg Hev Hal Hv Hc Hs]. split; try done; try lia. intros i. pose proof (Hg i). lia. Qed.

(** What one operation does: its result is the abstract one, and the events it
    queues announce the change. *)
Definition simulates (k : Z) s b (o : AssetOp A) : Prop :=
  ∃ r s' b' gen' es, asset_exec s o = Ret (r, s') ∧ ab_step b o r b' ∧ rep_assets (k + 1) s' b' gen' ∧
    match r with
    | REvents l => l = as_queued_events s ∧ as_queued_events s' = [] ∧ b' = b
    | _ => as_queued_events s' = as_queued_events s ++ es ∧ announces es b b'
    end.

Lemma get_lookup k s b gen id : rep_assets k s b gen → (∀ i, i ∈ id_index id → i ∈ ab_ever b) → Assets_get s id = ab_lookup b id.
Proof.
  intros (Hr & Hu & _) Hv. destruct id as [i|u]; cbn; [|by rewrite Hu]. apply (get_ok _ _ _ _ _ _ _ Hr).
  specialize (Hv i ltac:(cbn; set_solver)). apply (r_ever _ _ _ _ _ _ Hr) in Hv. lia.
Qed.

Lemma sim_reserve k s b gen : rep_assets k s b gen → k <= MAX_ASSET_INDEX → simulates k s b OReserve.
Proof.
  intros (Hr & Hu & Hd) Hk. destruct (rep_reserve _ _ _ _ _ _ Hr Hk) as (i & a' & gen' & He & Hf & Hr').
  eexists (RIndex i), _, (ab_fresh b i), gen', []. cbn. unfold reserve_handle. rewrite He. cbn.
  split; [reflexivity|]. split; [by constructor|]. split; [done|]. cbn. rewrite app_nil_r. split; [done|]. by apply announces_nil.
Qed.

(** Inserting at an index that was handed out. *)
Lemma insert_index_ok k s b gen i a : rep_assets k s b gen → k <= MAX_ASSET_INDEX → i ∈ ab_ever b →
  ∃ r s', insert_with_index s i a = Ret (r, s') ∧
    (match r with Ok _ => true | Err _ => false end) = bool_decide (i ∈ ab_alive b) ∧
    let b' := if bool_decide (i ∈ ab_alive b) then ab_set b (IdIndex i) (Some a) else b in
    rep_assets k s' b' gen ∧ ∃ es, as_queued_events s' = as_queued_events s ++ es ∧ announces es b b'.
Proof.
  intros (Hr & Hu & Hd) Hk Hi. destruct (insert_ok _ _ _ _ _ _ i a Hr Hk Hi) as (r & t' & He & Hcase). unfold insert_with_index. rewrite He. cbn [mbind outcome_bind].
  case_decide as Ha.
  - destruct Hcase as [-> Hr']. rewrite (bool_decide_true (i ∈ ab_alive b)) by done. eexists _, _. split; [reflexivity|]. split; [done|]. split; [done|].
    eexists. split; [reflexivity|]. pose proof (announces_set b (IdIndex i) a) as Han. cbn in Han. cbn.
    destruct (ab_vals b !! i); exact Han.
  - destruct Hcase as [[e ->] Hr']. rewrite (bool_decide_false (i ∈ ab_alive b)) by done. eexists _, _. split; [reflexivity|]. split; [done|]. split; [done|].
    exists []. cbn. rewrite app_nil_r. split; [done|]. by apply announces_nil.
Qed.

Lemma rep_assets_mono k s b gen : rep_assets k s b gen → rep_assets (k + 1) s b gen.
Proof. intros (Hr & ? & ?). split; [by apply rep_mono|done]. Qed.

Lemma sim_insert k s b gen id a : rep_assets k s b gen → k <= MAX_ASSET_INDEX → (∀ i, i ∈ id_index id → i ∈ ab_ever b) →
  simulates k s b (OInsert id a).
Proof.
  intros Hr Hk Hv. destruct id as [i|u].
  - destruct (insert_index_ok k s b gen i a Hr Hk) as (r & s' & He & Hb & Hr' & es & Hq & Han); [apply Hv; cbn; set_solver|].
    eexists (RBool (bool_decide (i ∈ ab_alive b))), s', _, gen, es. cbn. rewrite He. cbn.
    split; [destruct r; cbn in *; by rewrite <- Hb|]. split; [exact (ab_s_insert b (IdIndex i) a)|]. cbn. split; [by apply rep_assets_mono|]. done.
  - destruct Hr as (Hr & Hu & Hd). eexists (RBool true), _, (ab_set b (IdUuid u) (Some a)), gen, _. cbn.
    split; [reflexivity|]. split; [exact (ab_s_insert b (IdUuid u) a)|]. split; [|split; [reflexivity|]].
    + split; [by apply rep_mono|]. cbn. by rewrite Hu.
    + rewrite Hu. pose proof (announces_set b (IdUuid u) a) as Han. cbn in Han. destruct (ab_uuids b !! u); exact Han.
Qed.

Lemma sim_add k s b gen a : rep_assets k s b gen → k + 1 <= MAX_ASSET_INDEX → simulates k s b (OAdd a).
Proof.
  intros Hr0 Hk. pose proof Hr0 as (Hr & Hu & Hd). destruct (rep_reserve _ _ _ _ _ _ Hr) as (i & a' & gen' & He & Hf & Hr'); [lia|].
  set (s1 := set_table s (mkTable (at_storage (as_table s)) (at_len (as_table s)) a')).
  assert (Hr1 : rep_assets (k + 1) s1 (ab_fresh b i) gen') by done.
  destruct (insert_index_ok (k + 1) s1 (ab_fresh b i) gen' i a Hr1) as (r & s' & Hi & Hb & Hr2 & es & Hq & Han); [lia|cbn; set_solver|].
  assert (Hal : i ∈ ab_alive (ab_fresh b i)) by (cbn; set_solver). rewrite bool_decide_true in Hb, Hr2, Han by done.
  eexists (RIndex i), s', _, gen', es. cbn. unfold Assets_add, reserve_handle. rewrite He. cbn [mbind outcome_bind]. fold s1. rewrite Hi. cbn [mbind outcome_bind].
  destruct r as [r|]; [|done]. split; [reflexivity|]. split; [by constructor|]. split; [done|]. split; [done|].
  eapply announces_from; [exact Han|]. by intros [].
Qed.

Lemma sim_modify k s b gen id f : rep_assets k s b gen → (∀ i, i ∈ id_index id → i ∈ ab_ever b) → simulates k s b (OModify id f).
Proof.
  intros Hr Hv. pose proof (get_lookup k s b gen id Hr Hv) as Hg. unfold simulates. cbn. unfold Assets_modify, Assets_modify_untracked. rewrite Hg.
  destruct (ab_lookup b id) as [a|] eqn:Hl.
  - eexists RUnit, _, (ab_set b id (Some (f a))), gen, _. split; [reflexivity|].
    split; [pose proof (ab_s_modify b id f) as Hs; by rewrite Hl in Hs|]. split; [|split; [by destruct id|]].
    + destruct Hr as (Hr & Hu & Hd). destruct id as [i|u]; cbn in *; (split; [|cbn; rewrite ?Hu; done]); [|by apply rep_mono].
      apply rep_mono. apply (r_vals _ _ _ _ _ _ Hr) in Hl as Hs. destruct Hs as [Hi Hs]. eapply rep_value_at; eauto.
      rewrite (r_count _ _ _ _ _ _ Hr). f_equal. change (partial_alter _ _ _) with (<[i := f a]> (ab_vals b)). by rewrite map_size_insert_Some.
    + pose proof (announces_set b id (f a)) as Han. rewrite Hl in Han. exact Han.
  - eexists RUnit, s, b, gen, []. split; [reflexivity|]. split; [pose proof (ab_s_modify b id f) as Hs; by rewrite Hl in Hs|].
    split; [by apply rep_assets_mono|]. rewrite app_nil_r. split; [done|]. by apply announces_nil.
Qed.

Lemma sim_remove k s b gen id : rep_assets k s b gen → k <= MAX_ASSET_INDEX → (∀ i, i ∈ id_index id → i ∈ ab_ever b) → simulates k s b (ORemove id).
Proof.
  intros (Hr & Hu & Hd) Hk Hv. unfold simulates. cbn [asset_exec]. unfold Assets_remove, remove_untracked. destruct id as [i|u].
  - destruct (remove_ok _ _ _ _ _ _ i (λ t, t) Hr Hk) as (t' & He & _ & Hr'); [apply Hv; cbn; set_solver|]. unfold remove_still_alive. cbn [set_handles as_table]. rewrite He.
    assert (Hval : (if decide (i ∈ ab_alive b) then ab_vals b !! i else None) = ab_vals b !! i).
    { case_decide as Ha; [done|]. symmetry. apply eq_None_not_Some. intros [v Hvv]. by eapply vals_alive in Hvv; [|exact Hr]. }
    assert (Hdel : (if decide (i ∈ ab_alive b) then delete i (ab_vals b) else ab_vals b) = delete i (ab_vals b)).
    { case_decide as Ha; [done|]. symmetry. apply delete_id. by rewrite <- Hval. }
    rewrite Hval. rewrite Hdel in Hr'. replace (if decide (i ∈ ab_alive b) then t' else t') with t' by (by case_decide). cbn [mbind outcome_bind].
    eexists (RValue _), _, (ab_set (ab_forget b (IdIndex i)) (IdIndex i) None), gen, (match ab_vals b !! i with Some _ => [EvRemoved (IdIndex i)] | None => [] end).
    split; [reflexivity|]. split; [exact (ab_s_remove b (IdIndex i))|]. split; [|split].
    + split; [|destruct (ab_vals b !! i); cbn; rewrite Hu, ?Hd; done]. apply rep_mono. destruct (ab_vals b !! i); exact Hr'.
    + destruct (ab_vals b !! i); cbn; by rewrite ?app_nil_r.
    + eapply (announces_from _ _ (ab_forget b (IdIndex i))); [exact (announces_removed (ab_forget b (IdIndex i)) (IdIndex i))|]. by intros [].
  - cbn [mbind outcome_bind]. rewrite Hu.
    eexists (RValue _), _, (ab_set b (IdUuid u) None), gen, (match ab_uuids b !! u with Some _ => [EvRemoved (IdUuid u)] | None => [] end).
    split; [reflexivity|]. split; [exact (ab_s_remove b (IdUuid u))|]. split; [|split].
    + split; [|destruct (ab_uuids b !! u); cbn; done]. apply rep_mono. destruct (ab_uuids b !! u); exact Hr.
    + destruct (ab_uuids b !! u); cbn; by rewrite ?app_nil_r.
    + exact (announces_removed b (IdUuid u)).
Qed.

(** The last handle: the slot is recycled. *)
Lemma kill_ok k s b gen i : rep_assets k s b gen → k <= MAX_ASSET_INDEX → i ∈ ab_ever b →
  ∃ r t', table_remove_and_recycle (as_table s) i = Ret (r, t') ∧ r = ab_vals b !! i ∧
    rep k t' (ab_ever b) (ab_alive b ∖ {[i]}) (delete i (ab_vals b)) gen.
Proof.
  intros (Hr & Hu & Hd) Hk Hi. destruct (recycle_ok _ _ _ _ _ _ i Hr Hk Hi) as (t' & He & Hr'). eexists _, t'. split; [exact He|]. split; [|done].
  case_decide as Ha; [done|]. symmetry. apply eq_None_not_Some. intros [v Hv]. by eapply vals_alive in Hv; [|exact Hr].
Qed.

Lemma announces_kill b i :
  announces (EvUnused (IdIndex i) :: match ab_vals b !! i with Some _ => [EvRemoved (IdIndex i)] | None => [] end) b (ab_kill b i).
Proof.
  apply announces_unused. eapply announces_same; [exact (announces_removed b (IdIndex i))|]. intros [j|u]; [|done]. cbn.
  by destruct (decide (i = j)) as [->|Hne].
Qed.

Lemma sim_drop k s b gen i : rep_assets k s b gen → k <= MAX_ASSET_INDEX → i ∈ ab_ever b → simulates k s b (ODrop i).
Proof.
  intros Hr Hk Hi. destruct (kill_ok k s b gen i Hr Hk Hi) as (r & t' & He & -> & Hr'). destruct Hr as (Hr & Hu & Hd).
  assert (Hstep : ab_step b (ODrop i) RUnit (ab_drop b i)) by constructor. unfold ab_drop in Hstep.
  unfold simulates. cbn [asset_exec]. unfold Assets_remove_and_recycle. rewrite Hd.
  assert (Hgo : ∀ d, ∃ s' es, recycle_last (set_handles s d) i = Ret s' ∧ rep_assets (k + 1) s' (ab_kill (ab_count b d) i) gen ∧
    as_queued_events s' = as_queued_events s ++ es ∧ announces es b (ab_kill (ab_count b d) i)).
  { intros d. set (b0 := ab_count b d). unfold recycle_last. cbn [set_handles as_table]. rewrite He. cbn [mbind outcome_bind]. eexists _, _. split; [reflexivity|].
    split; [split; [apply rep_mono; destruct (ab_vals b !! i); exact Hr'|destruct (ab_vals b !! i); cbn; done]|].
    split; [|eapply (announces_from _ _ b0); [exact (announces_kill b0 i)|by intros []]]. cbn. destruct (ab_vals b !! i); cbn; [by rewrite <- app_assoc|done]. }
  destruct (ab_dup b !! i) as [n|] eqn:Hdup; [destruct (n =? 0) eqn:Hn|].
  - destruct (Hgo (delete i (ab_dup b))) as (s' & es & -> & Hr2 & Hq & Han). cbn [mbind outcome_bind].
    eexists RUnit, s', _, gen, es. split; [reflexivity|]. split; [exact Hstep|]. done.
  - cbn [mbind outcome_bind]. eexists RUnit, _, _, gen, []. split; [reflexivity|]. split; [exact Hstep|]. split; [split; [by apply rep_mono|done]|].
    cbn. rewrite app_nil_r. split; [done|]. apply announces_nil. by intros [].
  - destruct (Hgo (as_duplicate_handles s)) as (s' & es & Hs' & Hr2 & Hq & Han).
    assert (Heq : set_handles s (as_duplicate_handles s) = s) by (by destruct s). rewrite Heq in Hs'. rewrite Hs'. cbn [mbind outcome_bind].
    assert (Hb : ab_count b (as_duplicate_handles s) = b) by (rewrite Hd; by destruct b). rewrite Hb in Hr2, Han.
    eexists RUnit, s', _, gen, es. split; [reflexivity|]. split; [exact Hstep|]. done.
Qed.

Lemma sim_resolve k s b gen id : rep_assets k s b gen → (∀ i, i ∈ id_index id → i ∈ ab_ever b) → simulates k s b (OResolve id).
Proof.
  intros Hr Hv. pose proof (get_lookup k s b gen id Hr Hv) as Hg. pose proof (ab_s_resolve b id) as Hstep.
  assert (Hsame : ∀ id', ab_lookup (ab_resolve b id).2 id' = ab_lookup b id').
  { destruct id as [i|u]; [|done]. cbn. intros [j|u]; destruct (ab_vals b !! i); try done; destruct (_ =? _); done. }
  assert (Hex : ∃ s', asset_exec s (OResolve id) = Ret (RBool (ab_resolve b id).1, s') ∧ rep_assets (k + 1) s' (ab_resolve b id).2 gen ∧
    as_queued_events s' = as_queued_events s).
  { apply rep_assets_mono in Hr as (Hr & Hu & Hd). destruct id as [i|u]; cbn in *; [|by exists s]. rewrite Hg. destruct (ab_vals b !! i); [|by exists s].
    rewrite Hd. destruct (_ =? _); eexists; (split; [reflexivity|]); done. }
  destruct Hex as (s' & He & Hr' & Hq). eexists _, s', _, gen, []. split; [exact He|]. split; [exact Hstep|]. split; [done|].
  rewrite app_nil_r. split; [done|]. by apply announces_nil.
Qed.

Lemma simulation k s b gen o :
  rep_assets k s b gen → k + 1 <= MAX_ASSET_INDEX → (∀ i, i ∈ op_uses o → i ∈ ab_ever b) → simulates k s b o.
Proof.
  intros Hr Hk Hv. destruct o; cbn in Hv.
  - eapply sim_reserve; [done|lia].
  - eapply sim_insert; [done|lia|done].
  - by eapply sim_add.
  - by eapply sim_modify.
  - eapply sim_remove; [done|lia|done].
  - eapply sim_drop; [done|lia|]. apply Hv. set_solver.
  - by eapply sim_resolve.
  - eexists (REvents _), _, b, gen, []. split; [reflexivity|]. split; [constructor|]. split; [by apply rep_assets_mono|done].
Qed.
End simulation.

(** ** Histories *)

Section histories.
Context {A : Type}.

Inductive asset_trace : Assets A → list (AssetOp A * AssetRes A) → Assets A → Prop :=
| at_nil s : asset_trace s [] s
| at_cons s o r s' tr s'' : asset_exec s o = Ret (r, s') → asset_trace s' tr s'' → asset_trace s ((o, r) :: tr) s''.

Inductive ab_trace : AbsAssets A → list (AssetOp A * AssetRes A) → AbsAssets A → Prop :=
| abt_nil b : ab_trace b [] b
| abt_cons b o r b' tr b'' : ab_step b o r b' → ab_trace b' tr b'' → ab_trace b ((o, r) :: tr) b''.

(** Every index used was handed out before. *)
Definition handed_out (r : AssetRes A) : gset AssetIndex := match r with RIndex i => {[i]} | _ => ∅ end.

Fixpoint well_used (ever : gset AssetIndex) (tr : list (AssetOp A * AssetRes A)) : Prop :=
  match tr with
  | [] => True
  | (o, r) :: tr => (∀ i, i ∈ op_uses o → i ∈ ever) ∧ well_used (handed_out r ∪ ever) tr
  end.

(** The events delivered to readers. *)
Definition delivered (tr : list (AssetOp A * AssetRes A)) : list AssetEvent :=
  tr ≫= λ p, match p.2 with REvents es => es | _ => [] end.

Definition ab_empty : AbsAssets A := mkAbsAssets ∅ ∅ ∅ ∅ ∅.

Lemma rep_assets_start : rep_assets 0 (@Assets_default A) ab_empty (λ _, 0).
Proof. split; [apply rep_start|done]. Qed.

Lemma ab_step_ever b o r b' : ab_step b o r b' → ab_ever b' = handed_out r ∪ ab_ever b.
Proof.
  destruct 1; cbn; try set_solver.
  - destruct id; cbn; try case_bool_decide; cbn; set_solver.
  - destruct (ab_lookup b id); [destruct id|]; cbn; set_solver.
  - destruct id; cbn; set_solver.
  - unfold ab_drop. destruct (ab_dup b !! i); [destruct (_ =? _)|]; cbn; set_solver.
  - unfold ab_resolve. destruct id as [i|]; [destruct (ab_vals b !! i); [destruct (_ =? _)|]|]; cbn; set_solver.
Qed.

Lemma trace_sim_assets tr : ∀ k s b gen s',
  rep_assets k s b gen → k + Z.of_nat (length tr) <= MAX_ASSET_INDEX → asset_trace s tr s' → well_used (ab_ever b) tr →
  ∃ b' gen', ab_trace b tr b' ∧ rep_assets (k + Z.of_nat (length tr)) s' b' gen' ∧
    (∀ log, knows (replay ∅ (log ++ as_queued_events s)) b → knows (replay ∅ (log ++ delivered tr ++ as_queued_events s')) b').
Proof.
  induction tr as [|[o r] tr IH]; intros k s b gen s' Hr Hk Ht Hw; inversion Ht; subst.
  - exists b, gen. rewrite Z.add_0_r. split; [constructor|]. split; [done|]. done.
  - destruct Hw as [Hu Hw]. cbn [length] in Hk |- *.
    destruct (simulation k s b gen o Hr ltac:(lia) Hu) as (r' & s1 & b1 & gen1 & es & He & Hst & Hr1 & Hev).
    match goal with H : asset_exec s o = _ |- _ => rewrite He in H; injection H as -> -> end.
    rewrite <- (ab_step_ever _ _ _ _ Hst) in Hw.
    match goal with H : asset_trace _ tr s' |- _ => destruct (IH (k + 1) _ b1 gen1 s' Hr1 ltac:(lia) H Hw) as (b2 & gen2 & Hab & Hr2 & Hlog) end.
    exists b2, gen2. split; [by econstructor|]. split; [replace (k + Z.of_nat (S (length tr))) with (k + 1 + Z.of_nat (length tr)) by lia; done|].
    intros log Hkn. cbn [delivered mbind list_bind snd]. fold (delivered tr). destruct r as [i|x|x| |l].
    5: { destruct Hev as (-> & Hq & ->). specialize (Hlog (log ++ as_queued_events s)). rewrite Hq, app_nil_r, <- !app_assoc in Hlog.
         rewrite <- app_assoc. by apply Hlog. }
    all: cbn [app]; apply Hlog; destruct Hev as [-> Han]; rewrite app_assoc; unfold replay; rewrite foldl_app; by apply Han.
Qed.

Lemma trace_ok tr s : asset_trace Assets_default tr s → well_used ∅ tr → Z.of_nat (length tr) <= MAX_ASSET_INDEX →
  ∃ b gen, ab_trace ab_empty tr b ∧ rep_assets (Z.of_nat (length tr)) s b gen ∧ knows (replay ∅ (delivered tr ++ as_queued_events s)) b.
Proof.
  intros Ht Hw Hl. destruct (trace_sim_assets tr 0 Assets_default ab_empty _ s rep_assets_start ltac:(lia) Ht Hw) as (b & gen & H1 & H2 & H3).
  exists b, gen. split; [done|]. split; [done|]. apply (H3 []). intros id. cbn. split; [set_solver|]. destruct id; cbn; rewrite lookup_empty; by intros [? ?].
Qed.

Lemma lookup_any k s (b : AbsAssets A) gen id : rep_assets k s b gen → match id with IdIndex i => 0 <= ai_index i | IdUuid _ => True end →
  Assets_get s id = ab_lookup b id.
Proof. intros (Hr & Hu & _) H0. destruct id as [i|u]; cbn; [by apply (get_ok _ _ _ _ _ _ _ Hr)|by rewrite Hu]. Qed.
End histories.

(** ** The store of handles *)

Section handles.
Context {A : Type}.
Implicit Types (i : AssetIndex) (id : AssetId).

(** Which indices were ever handed out, how many strong handles each index has
    (none when it is not there), and what is stored. *)
Record HandleStore := mkHandles {
  hs_ever : gset AssetIndex;
  hs_handles : gmap AssetIndex Z;
  hs_vals : gmap AssetIndex A;
  hs_uuids : gmap Z A
}.
Implicit Types (h : HandleStore).

Definition hs_empty : HandleStore := mkHandles ∅ ∅ ∅ ∅.
Definition hs_lookup h id : option A := match id with IdIndex i => hs_vals h !! i | IdUuid u => hs_uuids h !! u end.
Definition hs_set h id (o : option A) : HandleStore :=
  match id with
  | IdIndex i => mkHandles (hs_ever h) (hs_handles h) (partial_alter (λ _, o) i (hs_vals h)) (hs_uuids h)
  | IdUuid u => mkHandles (hs_ever h) (hs_handles h) (hs_vals h) (partial_alter (λ _, o) u (hs_uuids h))
  end.

(** A new index has one handle. *)
Definition hs_new h i : HandleStore := mkHandles ({[i]} ∪ hs_ever h) (<[i := 1]> (hs_handles h)) (hs_vals h) (hs_uuids h).

(** Dropping a handle; with the last one the asset goes. *)
Definition hs_drop h i : HandleStore :=
  match hs_handles h !! i with
  | Some n => if n =? 1 then mkHandles (hs_ever h) (delete i (hs_handles h)) (delete i (hs_vals h)) (hs_uuids h)
              else mkHandles (hs_ever h) (<[i := n - 1]> (hs_handles h)) (hs_vals h) (hs_uuids h)
  | None => h
  end.

Definition hs_writable h id : bool := match id with IdIndex i => bool_decide (is_Some (hs_handles h !! i)) | IdUuid _ => true end.

(** A further handle can be made for a stored asset, up to the width of the counter. *)
Definition hs_sharable h id : bool :=
  match id with
  | IdIndex i => bool_decide (is_Some (hs_vals h !! i)) && match hs_handles h !! i with Some n => n <=? u16_MAX | None => false end
  | IdUuid _ => false
  end.

Definition hs_share h id : HandleStore :=
  match id with
  | IdIndex i => mkHandles (hs_ever h) (alter (Z.add 1) i (hs_handles h)) (hs_vals h) (hs_uuids h)
  | IdUuid _ => h
  end.

(** The answers an operation may give, and the store after it. *)
Definition hs_answer h (o : AssetOp A) (r : AssetRes A) : Prop :=
  match o, r with
  | OReserve, RIndex i | OAdd _, RIndex i => i ∉ hs_ever h
  | OInsert id _, RBool x => x = hs_writable h id
  | ORemove id, RValue v => v = hs_lookup h id
  | OResolve id, RBool x => x = hs_sharable h id
  | OModify _ _, RUnit | ODrop _, RUnit | OEvents, REvents _ => True
  | _, _ => False
  end.

Definition hs_next h (o : AssetOp A) (r : AssetRes A) : HandleStore :=
  match o, r with
  | OReserve, RIndex i => hs_new h i
  | OAdd a, RIndex i => hs_set (hs_new h i) (IdIndex i) (Some a)
  | OInsert id a, _ => if hs_writable h id then hs_set h id (Some a) else h
  | OModify id f, _ => match hs_lookup h id with Some a => hs_set h id (Some (f a)) | None => h end
  | ORemove id, _ => hs_set h id None
  | ODrop i, _ => hs_drop h i
  | OResolve id, _ => if hs_sharable h id then hs_share h id else h
  | _, _ => h
  end.

(** What callers must keep to: only indices that were handed out, only handles
    that exist are dropped, and an asset is not removed while a second handle to
    it is alive. *)
Definition hs_legal h (o : AssetOp A) : Prop :=
  (∀ i, i ∈ op_uses o → i ∈ hs_ever h) ∧
  match o with
  | ODrop i => is_Some (hs_handles h !! i)
  | ORemove (IdIndex i) => ∀ n, hs_handles h !! i = Some n → n = 1
  | _ => True
  end.

Fixpoint hs_history h (tr : list (AssetOp A * AssetRes A)) : Prop :=
  match tr with [] => True | (o, r) :: tr => hs_legal h o ∧ hs_history (hs_next h o r) tr end.

Fixpoint hs_answers h (tr : list (AssetOp A * AssetRes A)) : Prop :=
  match tr with [] => True | (o, r) :: tr => hs_answer h o r ∧ hs_answers (hs_next h o r) tr end.

Definition hs_after (tr : list (AssetOp A * AssetRes A)) : HandleStore := foldl (λ h p, hs_next h p.1 p.2) hs_empty tr.

(** ** The counters count the handles *)

Record counts_handles (b : AbsAssets A) h : Prop := {
  ch_ever : ab_ever b = hs_ever h;
  ch_vals : ab_vals b = hs_vals h;
  ch_uuids : ab_uuids b = hs_uuids h;
  ch_alive : ∀ i, i ∈ ab_alive b ↔ is_Some (hs_handles h !! i);
  ch_known : ∀ i, is_Some (hs_handles h !! i) → i ∈ hs_ever h;
  ch_count : ∀ i, match hs_handles h !! i with Some n => 1 <= n <= u16_MAX + 1 ∧ default 0 (ab_dup b !! i) = n - 1 | None => ab_dup b !! i = None end
}.

Lemma counts_empty : counts_handles ab_empty hs_empty.
Proof. split; cbn; try done; intros i; rewrite ?lookup_empty; first [done | by intros [] | split; [set_solver|by intros []]]. Qed.

Lemma counts_lookup b h id : counts_handles b h → ab_lookup b id = hs_lookup h id.
Proof. intros Hc. destruct id; cbn; [by rewrite (ch_vals _ _ Hc)|by rewrite (ch_uuids _ _ Hc)]. Qed.

Lemma counts_set b h id o : counts_handles b h → counts_handles (ab_set b id o) (hs_set h id o).
Proof. intros [? Hv Hu ? ? ?]. destruct id; split; cbn; rewrite ?Hv, ?Hu; done. Qed.

Lemma counts_writable b h id : counts_handles b h → ab_writable b id = hs_writable h id.
Proof. intros Hc. destruct id; [|done]. cbn. apply bool_decide_ext, Hc. Qed.

Lemma counts_new b h i : counts_handles b h → i ∉ ab_ever b → counts_handles (ab_fresh b i) (hs_new h i).
Proof.
  intros [He Hv Hu Ha Hk Hc] Hi. rewrite He in Hi. split; cbn; try done; [by rewrite He| | |]; intros j; destruct (decide (i = j)) as [<-|Hne].
  - rewrite lookup_insert_eq. split; [by eexists|set_solver].
  - rewrite lookup_insert_ne, <- Ha by done. set_solver.
  - set_solver.
  - rewrite lookup_insert_ne by done. intros ?%Hk. set_solver.
  - rewrite lookup_insert_eq. specialize (Hc i). destruct (hs_handles h !! i) eqn:Hn; [destruct Hi; apply Hk; by rewrite Hn|]. rewrite Hc. done.
  - rewrite lookup_insert_ne by done. apply Hc.
Qed.

Lemma counts_drop b h i : counts_handles b h → is_Some (hs_handles h !! i) → counts_handles (ab_drop b i) (hs_drop h i).
Proof.
  intros [He Hv Hu Ha Hk Hc] [n Hn]. pose proof (Hc i) as Hi. rewrite Hn in Hi. destruct Hi as [Hpos Hdup]. unfold ab_drop, hs_drop. rewrite Hn.
  destruct (Z.eqb_spec n 1) as [->|Hne].
  - assert (Hdead : ∀ d, (∀ j, j ≠ i → d !! j = ab_dup b !! j) → d !! i = None →
      counts_handles (ab_kill (ab_count b d) i) (mkHandles (hs_ever h) (delete i (hs_handles h)) (delete i (hs_vals h)) (hs_uuids h))).
    { intros d Hd Hdi. split; cbn; try done; [by rewrite Hv| | |]; intros j; destruct (decide (i = j)) as [<-|Hj];
        rewrite ?lookup_delete_eq, ?lookup_delete_ne by done.
      - split; [set_solver|by intros []].
      - rewrite <- Ha. set_solver.
      - by intros [].
      - apply Hk.
      - done.
      - rewrite Hd by done. apply Hc. }
    destruct (ab_dup b !! i) as [m|] eqn:Hm; cbn in Hdup.
    + rewrite (proj2 (Z.eqb_eq m 0)) by lia. apply Hdead; [intros j Hj; by rewrite lookup_delete_ne|by rewrite lookup_delete_eq].
    + specialize (Hdead (ab_dup b)). replace (ab_count b (ab_dup b)) with b in Hdead by (by destruct b). by apply Hdead.
  - destruct (ab_dup b !! i) as [m|] eqn:Hm; cbn in Hdup; [|lia]. rewrite (proj2 (Z.eqb_neq m 0)) by lia.
    split; cbn; try done; intros j; destruct (decide (i = j)) as [<-|Hj]; rewrite ?lookup_insert_eq, ?lookup_insert_ne by done; try apply Ha; try apply Hk; try apply Hc.
    + rewrite Ha, Hn. split; by eexists.
    + intros _. apply Hk. by rewrite Hn.
    + cbn. lia.
Qed.

Lemma counts_resolve b h id : counts_handles b h → (∀ i v, ab_vals b !! i = Some v → i ∈ ab_alive b) →
  (ab_resolve b id).1 = hs_sharable h id ∧ counts_handles (ab_resolve b id).2 (if hs_sharable h id then hs_share h id else h).
Proof.
  intros Hch Hval. pose proof Hch as [He Hv Hu Ha Hk Hc]. destruct id as [i|u]; [|done]. cbn. rewrite <- Hv.
  destruct (ab_vals b !! i) as [v|] eqn:Hvi; [|done]. apply Hval in Hvi. apply Ha in Hvi as [n Hn]. rewrite Hn.
  pose proof (Hc i) as Hi. rewrite Hn in Hi. destruct Hi as [Hpos ->]. rewrite bool_decide_true by (by eexists). cbn.
  assert (Hput : ∀ m g, 1 <= m <= u16_MAX + 1 → (∀ j, g !! j = if decide (j = i) then Some m else hs_handles h !! j) →
    counts_handles (ab_count b (<[i := m - 1]> (ab_dup b))) (mkHandles (hs_ever h) g (hs_vals h) (hs_uuids h))).
  { intros m g Hm Hg. split; cbn; try done; intros j; rewrite Hg; destruct (decide (j = i)) as [->|Hj]; rewrite ?lookup_insert_eq, ?lookup_insert_ne by done;
      try apply Ha; try apply Hk; try apply Hc.
    - rewrite Ha, Hn. split; by eexists.
    - intros _. apply Hk. by rewrite Hn.
    - done. }
  destruct (Z.eqb_spec (n - 1) u16_MAX) as [Hm|Hm].
  - rewrite (proj2 (Z.leb_gt n u16_MAX)) by lia. cbn. split; [done|]. specialize (Hput n (hs_handles h) Hpos). destruct h. apply Hput. intros j. by case_decide; subst.
  - destruct (Z.leb_spec n u16_MAX) as [Hle|Hgt]; cbn.
    + split; [done|]. replace (n - 1 + 1) with ((1 + n) - 1) by lia. rewrite Hv. apply Hput; [lia|]. intros j. rewrite lookup_alter. destruct (decide (j = i)) as [->|Hj]; [by rewrite decide_True, Hn|by rewrite decide_False].
    + lia.
Qed.

(** One step of the counters is one step of the handles. *)
Lemma counts_step b h o r b' : counts_handles b h → (∀ i v, ab_vals b !! i = Some v → i ∈ ab_alive b) →
  ab_step b o r b' → hs_legal h o → hs_answer h o r ∧ counts_handles b' (hs_next h o r).
Proof.
  intros Hc Hval Hs [_ Hl]. destruct Hs as [i Hi|i a Hi|id a|id f|id|i|id|es]; cbn -[ab_resolve] in Hl |- *.
  - split; [by rewrite <- (ch_ever _ _ Hc)|by apply counts_new].
  - split; [by rewrite <- (ch_ever _ _ Hc)|]. by apply (counts_set (ab_fresh b i) (hs_new h i) (IdIndex i) (Some a)), counts_new.
  - rewrite (counts_writable b h id Hc). split; [done|]. destruct (hs_writable h id); [by apply counts_set|done].
  - split; [done|]. rewrite (counts_lookup b h id Hc). destruct (hs_lookup h id); [by apply counts_set|done].
  - split; [by apply counts_lookup|]. apply counts_set. destruct id as [i|u]; [|done]. cbn. destruct Hc as [? ? ? ? ? Hct]. split; cbn; try done.
    intros j. specialize (Hct j). destruct (decide (i = j)) as [<-|Hne]; [rewrite lookup_delete_eq|by rewrite lookup_delete_ne].
    destruct (hs_handles h !! i) as [n|] eqn:Hn; [|done]. rewrite (Hl n eq_refl). split; [unfold u16_MAX; lia|done].
  - split; [done|]. by apply counts_drop.
  - by apply counts_resolve.
  - done.
Qed.

Lemma handles_sim tr : ∀ k s b gen h s', rep_assets k s b gen → counts_handles b h → k + Z.of_nat (length tr) <= MAX_ASSET_INDEX →
  asset_trace s tr s' → hs_history h tr →
  hs_answers h tr ∧ ∃ b' gen', rep_assets (k + Z.of_nat (length tr)) s' b' gen' ∧ counts_handles b' (foldl (λ h p, hs_next h p.1 p.2) h tr).
Proof.
  induction tr as [|[o r] tr IH]; intros k s b gen h s' Hr Hc Hk Ht Hh; inversion Ht as [|? ? ? s1 ? ? He Ht1]; subst.
  - split; [done|]. exists b, gen. by rewrite Z.add_0_r.
  - destruct Hh as [Hl Hh]. cbn [length] in Hk |- *. pose proof Hl as [Hu _]. rewrite <- (ch_ever _ _ Hc) in Hu.
    destruct (simulation k s b gen o Hr ltac:(lia) Hu) as (r' & s1' & b1 & gen1 & es & He' & Hst & Hr1 & _). rewrite He in He'. injection He' as <- <-.
    destruct (counts_step b h o r b1 Hc) as [Ha Hc1]; [by intros i v Hv; eapply vals_alive; [apply Hr|exact Hv]|done|done|].
    destruct (IH (k + 1) s1 b1 gen1 (hs_next h o r) s' Hr1 Hc1 ltac:(lia) Ht1 Hh) as (Has & b2 & gen2 & Hr2 & Hc2).
    split; [done|]. exists b2, gen2. by replace (k + Z.of_nat (S (length tr))) with (k + 1 + Z.of_nat (length tr)) by lia.
Qed.
End handles.
#[global] Arguments HandleStore : clear implicits.

(** C24: [Assets<A>] refines a store of assets kept alive by handles.  In any history
    of reservations, insertions, additions, modifications, removals, new strong
    handles, handle drops and event deliveries, every answer is the one of a store
    that counts the handles of each index: an index handed out is new (it was never
    handed out before, so a stale identifier never reaches a newer asset), inserting
    succeeds exactly for indices with a handle, an asset stays until it is removed or
    the last handle is dropped, and with that the index is gone; at the end every
    look-up and the number of assets agree with it, and every further operation that
    keeps to the rules returns.  The rules ([hs_legal]): operations name indices that
    were handed out, only handles that exist are dropped, and [remove] is not called
    while the asset has a second strong handle (it would forget that one,
    [remove_forgets_handles]).  The bound is the number of indices the allocator can
    hand out. *)
Theorem assets_refine {A} (tr : list (AssetOp A * AssetRes A)) s :
  asset_trace Assets_default tr s → hs_history hs_empty tr → Z.of_nat (length tr) < MAX_ASSET_INDEX →
  hs_answers hs_empty tr ∧
  let h := hs_after tr in
  (∀ id, match id with IdIndex i => 0 <= ai_index i | IdUuid _ => True end → Assets_get s id = hs_lookup h id) ∧
  Assets_len s = Z.of_nat (size (hs_vals h)) + Z.of_nat (size (hs_uuids h)) ∧
  (∀ o, hs_legal h o → ∃ r s', asset_exec s o = Ret (r, s') ∧ hs_answer h o r).
Proof.
  intros Ht Hh Hl. destruct (handles_sim tr 0 Assets_default ab_empty _ hs_empty s rep_assets_start counts_empty ltac:(lia) Ht Hh)
    as (Has & b & gen & Hr & Hc). split; [done|]. fold (hs_after tr) in Hc. split; [|split].
  - intros id H0. rewrite <- (counts_lookup b (hs_after tr) id Hc). by eapply lookup_any.
  - pose proof Hr as (Hrt & Hu & _). unfold Assets_len. by rewrite (r_count _ _ _ _ _ _ Hrt), Hu, (ch_vals _ _ Hc), (ch_uuids _ _ Hc).
  - intros o Hlo. pose proof Hlo as [Hu _]. rewrite <- (ch_ever _ _ Hc) in Hu.
    destruct (simulation _ s b gen o Hr ltac:(lia) Hu) as (r & s' & b' & ? & ? & He & Hst & _). exists r, s'. split; [done|].
    eapply counts_step; [exact Hc| |exact Hst|done]. intros i v Hv. by eapply vals_alive; [apply Hr|exact Hv].
Qed.

(** C25: The asset events are complete: a reader that keeps the set of identifiers
    it was told were added and not yet removed, from the events delivered so far and
    then those still queued, knows exactly the identifiers under which an asset is
    stored.  The histories are those of the operations above; [remove_untracked],
    which removes without an event by design, is not among them. *)
Theorem asset_events_complete {A} (tr : list (AssetOp A * AssetRes A)) s id :
  asset_trace Assets_default tr s → well_used ∅ tr → Z.of_nat (length tr) < MAX_ASSET_INDEX →
  match id with IdIndex i => 0 <= ai_index i | IdUuid _ => True end →
  id ∈ replay ∅ (delivered tr ++ as_queued_events s) ↔ Assets_contains s id = true.
Proof.
  intros Ht Hw Hl Hid. destruct (trace_ok tr s Ht Hw ltac:(lia)) as (b & gen & Hab & Hr & Hk).
  rewrite (Hk id). unfold Assets_contains. rewrite (lookup_any _ _ _ _ _ Hr Hid). destruct (ab_lookup b id) as [a|].
  - split; [done|]. intros _. by exists a.
  - split; [by intros []|done].
Qed.

(** ** Examples *)

Definition ex_index : AssetIndex := mkIndex 0 0.

Definition ex_history : list (AssetOp nat * AssetRes nat) := [(OAdd 7%nat, RIndex ex_index); (ORemove (IdIndex ex_index), RValue (Some 7%nat))].

Lemma ex_history_trace : ∃ s, asset_trace Assets_default ex_history s ∧ as_queued_events s = [EvAdded (IdIndex ex_index); EvRemoved (IdIndex ex_index)].
Proof.
  eexists. split; [eapply at_cons; [vm_compute; reflexivity|]; eapply at_cons; [vm_compute; reflexivity|]; apply at_nil|]. reflexivity.
Qed.

Lemma ex_history_used : well_used ∅ ex_history.
Proof. split; [intros i Hi; by apply elem_of_nil in Hi|]. split; [|done]. intros i ->%list_elem_of_singleton. set_solver. Qed.

(** Two strong handles: the asset is there after the first drop and gone after the
    second. *)
Definition ex_shared : list (AssetOp nat * AssetRes nat) :=
  [(OAdd 7%nat, RIndex ex_index); (OResolve (IdIndex ex_index), RBool true); (ODrop ex_index, RUnit)].

Lemma assets_refine_witness :
  ∃ s s', asset_trace Assets_default ex_shared s ∧ Assets_get s (IdIndex ex_index) = Some 7%nat ∧
    asset_exec s (ODrop ex_index) = Ret (RUnit, s') ∧ Assets_get s' (IdIndex ex_index) = None.
Proof.
  assert (Hex : ∃ s s', asset_trace Assets_default ex_shared s ∧ asset_exec s (ODrop ex_index) = Ret (RUnit, s')).
  { eexists _, _. split; [do 3 (eapply at_cons; [vm_compute; reflexivity|]); apply at_nil|vm_compute; reflexivity]. }
  destruct Hex as (s & s' & Ht & Hd).
  assert (Hh : ∀ d, hs_legal (hs_after ex_shared) d → hs_history hs_empty (ex_shared ++ [(d, RUnit)])).
  { intros d Hd'. split; [split; [intros i Hi; by apply elem_of_nil in Hi|done]|]. split; [split; [intros i ->%list_elem_of_singleton; apply (bool_decide_unpack _); by vm_compute|done]|].
    split; [split; [intros i ->%list_elem_of_singleton; apply (bool_decide_unpack _); by vm_compute|apply (bool_decide_unpack _); by vm_compute]|]. by split. }
  assert (Hlast : hs_legal (hs_after ex_shared) (ODrop ex_index)).
  { split; [intros i ->%list_elem_of_singleton|]; apply (bool_decide_unpack _); by vm_compute. }
  pose proof (Hh _ Hlast) as Hh1. exists s, s'. split; [exact Ht|]. split; [|split; [exact Hd|]].
  - destruct (assets_refine ex_shared s Ht) as (_ & Hg & _); [destruct Hh1 as (? & ? & ? & _); by split_and!|reflexivity|].
    rewrite Hg by (vm_compute; discriminate). by vm_compute.
  - destruct (assets_refine (ex_shared ++ [(ODrop ex_index, RUnit)]) s') as (_ & Hg & _); [|exact Hh1|reflexivity|].
    + clear -Ht Hd. revert Ht. generalize (@Assets_default nat). induction ex_shared as [|[o r] tr IH]; intros s0 Ht; inversion Ht; subst.
      * eapply at_cons; [exact Hd|apply at_nil].
      * eapply at_cons; [eassumption|by apply IH].
    + rewrite Hg by (vm_compute; discriminate). by vm_compute.
Defined.

Lemma asset_events_complete_witness :
  ∃ s, asset_trace Assets_default ex_history s ∧
    (IdIndex ex_index ∈ replay ∅ (delivered ex_history ++ as_queued_events s) ↔ Assets_contains s (IdIndex ex_index) = true).
Proof.
  destruct ex_history_trace as (s & Ht & _). exists s. split; [exact Ht|].
  apply (asset_events_complete ex_history s (IdIndex ex_index) Ht ex_history_used eq_refl). vm_compute. discriminate.
Defined.

(** After [remove] the count of duplicate handles is forgotten: with two strong
    handles, an asset stored again under the same index is dropped with the first
    of them, although the second is alive. *)
Lemma remove_forgets_handles :
  ∃ s, asset_trace (A := nat) Assets_default
    [(OAdd 7%nat, RIndex ex_index); (OResolve (IdIndex ex_index), RBool true); (ORemove (IdIndex ex_index), RValue (Some 7%nat));
     (OInsert (IdIndex ex_index) 8%nat, RBool true); (ODrop ex_index, RUnit)] s ∧
    Assets_get s (IdIndex ex_index) = None.
Proof.
  eexists. split; [do 5 (eapply at_cons; [vm_compute; reflexivity|]); apply at_nil|]. vm_compute. reflexivity.
Qed.
