(* ===== verification/Clock.v ===== *)
(** * Clocks, timers and the fixed time step

    [crates/voker-time/src]: [Time<T>] with its contexts [Real], [Virtual] and
    [Fixed], [Stopwatch], [Timer], the update systems and the delayed command
    queues.  A [Duration] is its number of nanoseconds; [f32] and [f64] are the
    IEEE 754 numbers of the Standard Library's [SpecFloat]. *)

From Stdlib Require Import ZArith Lia SpecFloat.
From S2P Require Import Prelude.
Local Open Scope Z_scope.

(** ** [core::time::Duration] *)

Notation Duration := Z (only parsing).

Definition NANOS_PER_SEC : Z := 1000000000.

(** [Duration::MAX]: [u64::MAX] seconds and 999_999_999 nanoseconds. *)
Definition Duration_MAX : Duration := W64 * NANOS_PER_SEC - 1.

Definition is_duration (d : Duration) : Prop := 0 <= d <= Duration_MAX.

(** [a + b] and [a += b] panic on overflow; [a - b] below zero. *)
Definition Duration_add (a b : Duration) : outcome Duration := if Duration_MAX <? a + b then Panic else Ret (a + b).
Definition Duration_sub (a b : Duration) : outcome Duration := if a <? b then Panic else Ret (a - b).
Definition Duration_saturating_add (a b : Duration) : Duration := Z.min (a + b) Duration_MAX.

(** [u32 * Duration]. *)
Definition Duration_mul (k : Z) (d : Duration) : outcome Duration := if Duration_MAX <? k * d then Panic else Ret (k * d).

(** [Duration::from_nanos(x as u64)]. *)
Definition Duration_from_nanos_u64 (x : Z) : Duration := x mod W64.

(** [f32] and [f64]. *)
Definition f64_of_Z (z : Z) : spec_float := binary_normalize 53 1024 z 0 false.
Definition f32_of_Z (z : Z) : spec_float := binary_normalize 24 128 z 0 false.

Definition as_secs_f64 (d : Duration) : spec_float :=
  SFadd 53 1024 (f64_of_Z (d / NANOS_PER_SEC)) (SFdiv 53 1024 (f64_of_Z (d mod NANOS_PER_SEC)) (f64_of_Z NANOS_PER_SEC)).

Definition as_secs_f32 (d : Duration) : spec_float :=
  SFadd 24 128 (f32_of_Z (d / NANOS_PER_SEC)) (SFdiv 24 128 (f32_of_Z (d mod NANOS_PER_SEC)) (f32_of_Z NANOS_PER_SEC)).

(** [n / d] rounded to the nearest integer, ties to even. *)
Definition round_half_even (n d : Z) : Z :=
  let q := n / d in
  let r := 2 * (n mod d) in
  if r <? d then q else if d <? r then q + 1 else if Z.even q then q else q + 1.

(** [Duration::from_secs_f64]: rounds to a nanosecond, and panics on a negative,
    overflowing or not finite value. *)
Definition from_secs_f64 (x : spec_float) : outcome Duration :=
  match x with
  | S754_zero _ => Ret 0
  | S754_finite false m e =>
      let n := if 0 <=? e then Z.pos m * 2 ^ e * NANOS_PER_SEC
               else round_half_even (Z.pos m * NANOS_PER_SEC) (2 ^ - e) in
      if Duration_MAX <? n then Panic else Ret n
  | _ => Panic
  end.

Definition Duration_mul_f64 (d : Duration) (k : spec_float) : outcome Duration :=
  from_secs_f64 (SFmul 53 1024 k (as_secs_f64 d)).

(** ** [Time<T>] *)

Record Time (T : Type) := mkTime {
  time_context : T;
  time_wrap_period : Duration;
  time_delta : Duration;
  time_delta_secs : spec_float;
  time_delta_secs_f64 : spec_float;
  time_elapsed : Duration;
  time_elapsed_secs : spec_float;
  time_elapsed_secs_f64 : spec_float;
  time_elapsed_wrapped : Duration;
  time_elapsed_secs_wrapped : spec_float;
  time_elapsed_secs_wrapped_f64 : spec_float
}.
Arguments mkTime {T} _ _ _ _ _ _ _ _ _ _ _.
Arguments time_context {T} _.
Arguments time_wrap_period {T} _.
Arguments time_delta {T} _.
Arguments time_delta_secs {T} _.
Arguments time_delta_secs_f64 {T} _.
Arguments time_elapsed {T} _.
Arguments time_elapsed_secs {T} _.
Arguments time_elapsed_secs_f64 {T} _.
Arguments time_elapsed_wrapped {T} _.
Arguments time_elapsed_secs_wrapped {T} _.
Arguments time_elapsed_secs_wrapped_f64 {T} _.

Definition DEFAULT_WRAP_PERIOD : Duration := 3600 * NANOS_PER_SEC.

Definition f_zero : spec_float := S754_zero false.

(** [new_with], and [default] with the context's default. *)
Definition Time_new_with {T} (context : T) : Time T :=
  mkTime context DEFAULT_WRAP_PERIOD 0 f_zero f_zero 0 f_zero f_zero 0 f_zero f_zero.

(** [dividend.as_nanos() % divisor.as_nanos()] panics on a zero divisor. *)
Definition duration_rem (dividend divisor : Duration) : outcome Duration :=
  if divisor =? 0 then Panic else Ret (Duration_from_nanos_u64 (dividend mod divisor)).

Definition Time_advance_by {T} (self : Time T) (delta : Duration) : outcome (Time T) :=
  elapsed ← Duration_add (time_elapsed self) delta;
  wrapped ← duration_rem elapsed (time_wrap_period self);
  Ret (mkTime (time_context self) (time_wrap_period self) delta (as_secs_f32 delta) (as_secs_f64 delta)
    elapsed (as_secs_f32 elapsed) (as_secs_f64 elapsed) wrapped (as_secs_f32 wrapped) (as_secs_f64 wrapped)).

Definition Time_advance_to {T} (self : Time T) (elapsed : Duration) : outcome (Time T) :=
  if elapsed <? time_elapsed self then Panic
  else delta ← Duration_sub elapsed (time_elapsed self); Time_advance_by self delta.

Definition Time_set_wrap_period {T} (self : Time T) (wrap_period : Duration) : outcome (Time T) :=
  if wrap_period =? 0 then Panic
  else Ret (mkTime (time_context self) wrap_period (time_delta self) (time_delta_secs self) (time_delta_secs_f64 self)
    (time_elapsed self) (time_elapsed_secs self) (time_elapsed_secs_f64 self)
    (time_elapsed_wrapped self) (time_elapsed_secs_wrapped self) (time_elapsed_secs_wrapped_f64 self)).

(** A new context, the rest of the clock kept: [as_generic] and the writes through
    [context_mut]. *)
Definition Time_set_context {T U} (self : Time T) (context : U) : Time U :=
  mkTime context (time_wrap_period self) (time_delta self) (time_delta_secs self) (time_delta_secs_f64 self)
    (time_elapsed self) (time_elapsed_secs self) (time_elapsed_secs_f64 self)
    (time_elapsed_wrapped self) (time_elapsed_secs_wrapped self) (time_elapsed_secs_wrapped_f64 self).

Definition Time_as_generic {T} (self : Time T) : Time unit := Time_set_context self tt.

(** ** [Time<Real>] *)

(** An [Instant] as nanoseconds since some origin. *)
Notation Instant := Z (only parsing).

Record Real := mkReal { real_startup : Instant; real_first_update : option Instant; real_last_update : option Instant }.

Definition Real_new (startup : Instant) : Time Real := Time_new_with (mkReal startup None None).

Definition saturating_duration_since (later earlier : Instant) : Duration := Z.max 0 (later - earlier).

Definition update_with_instant (self : Time Real) (instant : Instant) : outcome (Time Real) :=
  match real_last_update (time_context self) with
  | None => Ret (Time_set_context self (mkReal (real_startup (time_context self)) (Some instant) (Some instant)))
  | Some last_update =>
      let delta := saturating_duration_since instant last_update in
      self ← Time_advance_by self delta;
      Ret (Time_set_context self (mkReal (real_startup (time_context self)) (real_first_update (time_context self)) (Some instant)))
  end.

(** ** [Time<Virtual>] *)

Record Virtual := mkVirtual { virt_max_delta : Duration; virt_paused : bool; virt_relative_speed : spec_float; virt_effective_speed : spec_float }.

Definition f64_one : spec_float := f64_of_Z 1.

Definition DEFAULT_MAX_DELTA : Duration := 250000000.

Definition Virtual_default : Virtual := mkVirtual DEFAULT_MAX_DELTA false f64_one f64_one.

Definition set_max_delta (self : Time Virtual) (max_delta : Duration) : outcome (Time Virtual) :=
  if max_delta =? 0 then Panic
  else let c := time_context self in
       Ret (Time_set_context self (mkVirtual max_delta (virt_paused c) (virt_relative_speed c) (virt_effective_speed c))).

Definition f64_is_finite (x : spec_float) : bool := match x with S754_zero _ | S754_finite _ _ _ => true | _ => false end.

Definition set_relative_speed_f64 (self : Time Virtual) (ratio : spec_float) : outcome (Time Virtual) :=
  if negb (f64_is_finite ratio) then Panic
  else if negb (SFleb f_zero ratio) then Panic
  else let c := time_context self in
       Ret (Time_set_context self (mkVirtual (virt_max_delta c) (virt_paused c) ratio (virt_effective_speed c))).

Definition Virtual_set_paused (self : Time Virtual) (paused : bool) : Time Virtual :=
  let c := time_context self in
  Time_set_context self (mkVirtual (virt_max_delta c) paused (virt_relative_speed c) (virt_effective_speed c)).

Definition Virtual_pause (self : Time Virtual) : Time Virtual := Virtual_set_paused self true.
Definition Virtual_unpause (self : Time Virtual) : Time Virtual := Virtual_set_paused self false.
Definition Virtual_toggle (self : Time Virtual) : Time Virtual := Virtual_set_paused self (xorb (virt_paused (time_context self)) true).
Definition was_paused (self : Time Virtual) : bool := SFeqb (virt_effective_speed (time_context self)) f_zero.

Definition advance_with_raw_delta (self : Time Virtual) (raw_delta : Duration) : outcome (Time Virtual) :=
  let c := time_context self in
  let clamped_delta := if virt_max_delta c <? raw_delta then virt_max_delta c else raw_delta in
  let effective_speed := if virt_paused c then f_zero else virt_relative_speed c in
  delta ← (if negb (SFeqb effective_speed f64_one) then Duration_mul_f64 clamped_delta effective_speed else Ret clamped_delta);
  Time_advance_by (Time_set_context self (mkVirtual (virt_max_delta c) (virt_paused c) (virt_relative_speed c) effective_speed)) delta.

(** ** [Time<Fixed>] *)

Record Fixed := mkFixed { fixed_timestep : Duration; fixed_overstep : Duration }.

Definition DEFAULT_TIMESTEP : Duration := 15625000.

Definition Fixed_default : Fixed := mkFixed DEFAULT_TIMESTEP 0.

Definition set_timestep (self : Time Fixed) (timestep : Duration) : outcome (Time Fixed) :=
  if timestep =? 0 then Panic else Ret (Time_set_context self (mkFixed timestep (fixed_overstep (time_context self)))).

Definition Fixed_from_duration (timestep : Duration) : outcome (Time Fixed) := set_timestep (Time_new_with Fixed_default) timestep.

Definition set_timestep_seconds (self : Time Fixed) (seconds : spec_float) : outcome (Time Fixed) :=
  if negb (SFltb f_zero seconds) then Panic
  else if negb (f64_is_finite seconds) then Panic
  else timestep ← from_secs_f64 seconds; set_timestep self timestep.

Definition set_timestep_hz (self : Time Fixed) (hz : spec_float) : outcome (Time Fixed) :=
  if negb (SFltb f_zero hz) then Panic
  else if negb (f64_is_finite hz) then Panic
  else set_timestep_seconds self (SFdiv 53 1024 f64_one hz).

Definition accumulate_overstep (self : Time Fixed) (delta : Duration) : outcome (Time Fixed) :=
  let c := time_context self in
  overstep ← Duration_add (fixed_overstep c) delta;
  Ret (Time_set_context self (mkFixed (fixed_timestep c) overstep)).

Definition discard_overstep (self : Time Fixed) (discard : Duration) : Time Fixed :=
  let c := time_context self in
  Time_set_context self (mkFixed (fixed_timestep c) (sat_sub (fixed_overstep c) discard)).

Definition expend (self : Time Fixed) : outcome (bool * Time Fixed) :=
  let timestep := fixed_timestep (time_context self) in
  match checked_sub (fixed_overstep (time_context self)) timestep with
  | Some new_value =>
      self ← Time_advance_by (Time_set_context self (mkFixed timestep new_value)) timestep;
      Ret (true, self)
  | None => Ret (false, self)
  end.

(** ** [Stopwatch] and [Timer] *)

Record Stopwatch := mkStopwatch { sw_elapsed : Duration; sw_is_paused : bool }.

Definition Stopwatch_new : Stopwatch := mkStopwatch 0 false.
Definition Stopwatch_set_elapsed (self : Stopwatch) (time : Duration) : Stopwatch := mkStopwatch time (sw_is_paused self).
Definition Stopwatch_pause (self : Stopwatch) : Stopwatch := mkStopwatch (sw_elapsed self) true.
Definition Stopwatch_unpause (self : Stopwatch) : Stopwatch := mkStopwatch (sw_elapsed self) false.
Definition Stopwatch_reset (self : Stopwatch) : Stopwatch := mkStopwatch 0 (sw_is_paused self).
Definition Stopwatch_tick (self : Stopwatch) (delta : Duration) : Stopwatch :=
  if negb (sw_is_paused self) then mkStopwatch (Duration_saturating_add (sw_elapsed self) delta) (sw_is_paused self) else self.

Inductive TimerMode := Once | Repeating.

#[global] Instance TimerMode_eq_dec : EqDecision TimerMode.
Proof. solve_decision. Defined.

Record Timer := mkTimer {
  tm_stopwatch : Stopwatch;
  tm_duration : Duration;
  tm_mode : TimerMode;
  tm_finished : bool;
  tm_times_finished_this_tick : Z
}.

Definition Timer_new (duration : Duration) (mode : TimerMode) : Timer := mkTimer Stopwatch_new duration mode false 0.

Definition Timer_elapsed (self : Timer) : Duration := sw_elapsed (tm_stopwatch self).
Definition Timer_is_paused (self : Timer) : bool := sw_is_paused (tm_stopwatch self).
Definition Timer_just_finished (self : Timer) : bool := 0 <? tm_times_finished_this_tick self.
Definition Timer_remaining (self : Timer) : Duration := sat_sub (tm_duration self) (Timer_elapsed self).

Definition Timer_set_stopwatch (self : Timer) (s : Stopwatch) : Timer :=
  mkTimer s (tm_duration self) (tm_mode self) (tm_finished self) (tm_times_finished_this_tick self).
Definition Timer_set_finished (self : Timer) (b : bool) : Timer :=
  mkTimer (tm_stopwatch self) (tm_duration self) (tm_mode self) b (tm_times_finished_this_tick self).
Definition Timer_set_times (self : Timer) (k : Z) : Timer :=
  mkTimer (tm_stopwatch self) (tm_duration self) (tm_mode self) (tm_finished self) k.

Definition Timer_set_elapsed (self : Timer) (time : Duration) : Timer :=
  Timer_set_stopwatch self (Stopwatch_set_elapsed (tm_stopwatch self) time).
Definition Timer_set_duration (self : Timer) (duration : Duration) : Timer :=
  mkTimer (tm_stopwatch self) duration (tm_mode self) (tm_finished self) (tm_times_finished_this_tick self).
Definition Timer_pause (self : Timer) : Timer := Timer_set_stopwatch self (Stopwatch_pause (tm_stopwatch self)).
Definition Timer_unpause (self : Timer) : Timer := Timer_set_stopwatch self (Stopwatch_unpause (tm_stopwatch self)).
Definition Timer_reset (self : Timer) : Timer :=
  Timer_set_times (Timer_set_finished (Timer_set_stopwatch self (Stopwatch_reset (tm_stopwatch self))) false) 0.

Definition Timer_set_mode (self : Timer) (mode : TimerMode) : Timer :=
  let self :=
    if negb (bool_decide (tm_mode self = Repeating)) && bool_decide (mode = Repeating) && tm_finished self then
      let self := Timer_set_stopwatch self (Stopwatch_reset (tm_stopwatch self)) in
      Timer_set_finished self (Timer_just_finished self)
    else self in
  mkTimer (tm_stopwatch self) (tm_duration self) mode (tm_finished self) (tm_times_finished_this_tick self).

Definition Timer_tick (self : Timer) (delta : Duration) : Timer :=
  let self := Timer_set_times self 0 in
  if Timer_is_paused self then
    if decide (tm_mode self = Repeating) then Timer_set_finished self false else self
  else if negb (bool_decide (tm_mode self = Repeating)) && tm_finished self then self
  else
    let self := Timer_set_stopwatch self (Stopwatch_tick (tm_stopwatch self) delta) in
    let self := Timer_set_finished self (tm_duration self <=? Timer_elapsed self) in
    if tm_finished self then
      if decide (tm_mode self = Repeating) then
        (** [x as u32] keeps the low 32 bits. *)
        let self := Timer_set_times self (if tm_duration self =? 0 then u32_max else (Timer_elapsed self / tm_duration self) mod W32) in
        let elapsed := if tm_duration self =? 0 then 0 else Duration_from_nanos_u64 (Timer_elapsed self mod tm_duration self) in
        Timer_set_elapsed self elapsed
      else
        let self := Timer_set_times self 1 in
        Timer_set_elapsed self (tm_duration self)
    else self.

Definition Timer_finish (self : Timer) : Timer := Timer_tick self (Timer_remaining self).
Definition Timer_almost_finish (self : Timer) : Timer := Timer_tick self (sat_sub (Timer_remaining self) 1).

(** The run conditions [on_timer], [once_after_delay] and [repeating_after_delay]
    keep a timer and answer once per frame. *)
Definition on_timer (duration : Duration) : Timer := Timer_new duration Repeating.
Definition on_timer_call (timer : Timer) (delta : Duration) : bool * Timer :=
  let timer := Timer_tick timer delta in (Timer_just_finished timer, timer).
Definition once_after_delay (duration : Duration) : Timer := Timer_new duration Once.
Definition repeating_after_delay_call (timer : Timer) (delta : Duration) : bool * Timer :=
  let timer := Timer_tick timer delta in (tm_finished timer, timer).

(** ** Update systems *)

Inductive TimeUpdateStrategy :=
| Automatic
| ManualInstant (instant : Instant)
| ManualDuration (duration : Duration)
| FixedTimesteps (factor : Z).

Section systems.
(** The platform's largest [Instant]; adding beyond it panics. *)
Variable instant_max : Instant.

Definition Instant_add (i : Instant) (d : Duration) : outcome Instant := if instant_max <? i + d then Panic else Ret (i + d).

Definition update_with_duration (self : Time Real) (duration : Duration) : outcome (Time Real) :=
  let last_update := default (real_startup (time_context self)) (real_last_update (time_context self)) in
  instant ← Instant_add last_update duration;
  update_with_instant self instant.

(** Writes the virtual clock and the generic one. *)
Definition update_virtual_time (virt : Time Virtual) (real : Time Real) : outcome (Time unit * Time Virtual) :=
  virt ← advance_with_raw_delta virt (time_delta real);
  Ret (Time_as_generic virt, virt).

(** [now] is what [Instant::now()] answers. *)
Definition time_system (now : Instant) (real : Time Real) (virt : Time Virtual) (fixed_time : Time Fixed) (strategy : TimeUpdateStrategy)
  : outcome (Time unit * Time Real * Time Virtual) :=
  real ← match strategy with
         | Automatic => update_with_instant real now
         | ManualInstant instant => update_with_instant real instant
         | ManualDuration duration => update_with_duration real duration
         | FixedTimesteps factor => d ← Duration_mul factor (fixed_timestep (time_context fixed_time)); update_with_duration real d
         end;
  '(time, virt) ← update_virtual_time virt real;
  Ret (time, real, virt).
End systems.

(** The part of the world the fixed loop touches: three clocks and the [FixedMain]
    schedule, which is absent until a system is added to it; [tw_rest] is
    everything else. *)
Record TimeWorld (S R : Type) := mkTimeWorld {
  tw_time : option (Time unit);
  tw_virt : option (Time Virtual);
  tw_fixed : option (Time Fixed);
  tw_fixed_main : option S;
  tw_rest : R
}.
Arguments mkTimeWorld {S R} _ _ _ _ _.
Arguments tw_time {S R} _.
Arguments tw_virt {S R} _.
Arguments tw_fixed {S R} _.
Arguments tw_fixed_main {S R} _.
Arguments tw_rest {S R} _.

(** [world.resource::<T>()] panics on a missing resource. *)
Definition resource {A} (o : option A) : outcome A := match o with Some a => Ret a | None => Panic end.

Section fixed_main.
Context {S R : Type}.
(** [schedule.run(world)]: the systems of the application. *)
Variable run : S → TimeWorld S R → outcome (S * TimeWorld S R).
Implicit Types w : TimeWorld S R.

Definition set_fixed w (t : Time Fixed) : TimeWorld S R := mkTimeWorld (tw_time w) (tw_virt w) (Some t) (tw_fixed_main w) (tw_rest w).
Definition set_time w (t : Time unit) : TimeWorld S R := mkTimeWorld (Some t) (tw_virt w) (tw_fixed w) (tw_fixed_main w) (tw_rest w).
Definition set_fixed_main w (s : option S) : TimeWorld S R := mkTimeWorld (tw_time w) (tw_virt w) (tw_fixed w) s (tw_rest w).

(** [while world.resource_mut::<Time<Fixed>>().expend() { .. }]; [None] is out of
    fuel. *)
Fixpoint fixed_loop (fuel : nat) (schedule : S) w : option (outcome (S * TimeWorld S R)) :=
  match fuel with
  | O => None
  | Datatypes.S fuel =>
      match (fixed ← resource (tw_fixed w); expend fixed) with
      | Ret (false, fixed) => Some (Ret (schedule, set_fixed w fixed))
      | Ret (true, fixed) =>
          let w := set_fixed w fixed in
          match (_ ← resource (tw_time w); run schedule (set_time w (Time_as_generic fixed))) with
          | Ret (schedule, w) => fixed_loop fuel schedule w
          | Panic => Some Panic
          | Undefined => Some Undefined
          end
      | Panic => Some Panic
      | Undefined => Some Undefined
      end
  end.

Definition run_fixed_main_schedule (fuel : nat) w : option (outcome (TimeWorld S R)) :=
  match (virt ← resource (tw_virt w); fixed ← resource (tw_fixed w); accumulate_overstep fixed (time_delta virt)) with
  | Ret fixed =>
      let w := set_fixed w fixed in
      (** [try_schedule_scope]: takes the schedule out, runs the body, puts it back;
          without a schedule the body is skipped and the answer ignored. *)
      let finish w := _ ← resource (tw_time w); virt ← resource (tw_virt w); Ret (set_time w (Time_as_generic virt)) in
      match tw_fixed_main w with
      | None => Some (finish w)
      | Some schedule =>
          match fixed_loop fuel schedule (set_fixed_main w None) with
          | None => None
          | Some (Ret (schedule, w)) => Some (finish (set_fixed_main w (Some schedule)))
          | Some Panic => Some Panic
          | Some Undefined => Some Undefined
          end
      end
  | Panic => Some Panic
  | Undefined => Some Undefined
  end.
End fixed_main.

(** ** Delayed commands *)

Section delayed.
Context {C : Type}.

(** A command queue as the list of its commands. *)
Record DelayedCommandQueue := mkDelayed { submit_at : Duration; dq_queue : list C }.

(** The command that [DelayedCommands::submit] queues, run with the generic clock
    at [elapsed]. *)
Fixpoint delayed_submit (elapsed : Duration) (queues : list DelayedCommandQueue) (delayed_queues : list DelayedCommandQueue)
  : outcome (list DelayedCommandQueue) :=
  match queues with
  | [] => Ret delayed_queues
  | d :: queues =>
      at_ ← Duration_add (submit_at d) elapsed;
      delayed_submit elapsed queues (delayed_queues ++ [mkDelayed at_ (dq_queue d)])
  end.

(** The loop of [queue_delayed_commands]: due queues are swap-removed and appended
    to the commands of the system. *)
Fixpoint queue_delayed_loop (fuel : nat) (elapsed : Duration) (queues : list DelayedCommandQueue) (commands : list C) (index : nat)
  : option (list DelayedCommandQueue * list C) :=
  match fuel with
  | O => None
  | S fuel =>
      match queues !! index with
      | None => Some (queues, commands)
      | Some d =>
          if submit_at d <=? elapsed
          then queue_delayed_loop fuel elapsed (swap_remove queues index) (commands ++ dq_queue d) index
          else queue_delayed_loop fuel elapsed queues commands (index + 1)%nat
      end
  end.

Definition queue_delayed_commands (fuel : nat) (elapsed : Duration) (queues : list DelayedCommandQueue) :=
  queue_delayed_loop fuel elapsed queues [] 0.
End delayed.
#[global] Arguments DelayedCommandQueue : clear implicits.

(** ** A frame of the time plugin *)

(** [TimePlugin::build] runs [time_system] in [First] and
    [run_fixed_main_schedule] in [RunFixedMainLoop], in that order. *)
Section frame.
Context {S R : Type}.
Variable run : S → TimeWorld S R → outcome (S * TimeWorld S R).
Variable instant_max : Instant.

Definition time_frame (fuel : nat) (now : Instant) (strategy : TimeUpdateStrategy) (real : Time Real) (w : TimeWorld S R)
  : option (outcome (Time Real * TimeWorld S R)) :=
  match (_ ← resource (tw_time w); virt ← resource (tw_virt w); fixed ← resource (tw_fixed w);
         time_system instant_max now real virt fixed strategy) with
  | Ret (time, real, virt) =>
      (λ r, w ← r; Ret (real, w)) <$>
        run_fixed_main_schedule run fuel (mkTimeWorld (Some time) (Some virt) (tw_fixed w) (tw_fixed_main w) (tw_rest w))
  | Panic => Some Panic
  | Undefined => Some Undefined
  end.
End frame.
