(* ===== verification/ClockTheorems.v ===== *)
(** * Timers fire when they should and no time is lost

    Over [Clock]: repeating and one-shot timers along any sequence of frame times,
    the fixed-step loop, the conservation of time from the real clock through the
    virtual clock to the fixed clock, and the delayed command queues. *)

From Stdlib Require Import ZArith Lia SpecFloat.
From S2P Require Import Prelude Clock.
Local Open Scope Z_scope.

#[local] Arguments Z.min : simpl never.
#[local] Arguments Z.leb : simpl never.
#[local] Arguments Z.ltb : simpl never.
#[local] Arguments Z.eqb : simpl never.
#[local] Arguments Z.add : simpl never.
#[local] Arguments Z.mul : simpl never.
#[local] Arguments Duration_MAX : simpl never.

Definition sum_Z (l : list Z) : Z := foldr Z.add 0 l.

Lemma sum_Z_cons x l : sum_Z (x :: l) = x + sum_Z l.
Proof. done. Qed.

Lemma sum_Z_app l k : sum_Z (l ++ k) = sum_Z l + sum_Z k.
Proof. induction l as [|x l IH]; [done|]. rewrite <- app_comm_cons, !sum_Z_cons. lia. Qed.

Lemma sum_Z_nonneg l : Forall (λ d, 0 <= d) l → 0 <= sum_Z l.
Proof. induction 1 as [|x l Hx _ IH]; [done|]. rewrite sum_Z_cons. lia. Qed.

(** ** Timers *)

(** The timers after each frame. *)
Fixpoint timer_frames (t : Timer) (ds : list Z) : list Timer :=
  match ds with
  | [] => []
  | d :: ds => let t := Timer_tick t d in t :: timer_frames t ds
  end.

Definition timer_after (t : Timer) (ds : list Z) : Timer := foldl Timer_tick t ds.

Lemma timer_frames_lookup ds : ∀ t i, timer_frames t ds !! i = (if decide (i < length ds)%nat then Some (timer_after t (take (S i) ds)) else None).
Proof.
  induction ds as [|d ds IH]; intros t i; [by destruct i|]. destruct i as [|i]; [done|]. cbn [timer_frames lookup list_lookup].
  rewrite IH. cbn [length]. repeat case_decide; try lia; done.
Qed.

Lemma tick_repeating e dur fin k d :
  Timer_tick (mkTimer (mkStopwatch e false) dur Repeating fin k) d =
  let e' := Duration_saturating_add e d in
  if dur <=? e'
  then mkTimer (mkStopwatch (if dur =? 0 then 0 else Duration_from_nanos_u64 (e' mod dur)) false) dur Repeating true
         (if dur =? 0 then u32_max else (e' / dur) mod W32)
  else mkTimer (mkStopwatch e' false) dur Repeating false 0.
Proof. unfold Timer_tick, Timer_elapsed. cbn. by destruct (_ <=? _). Qed.

Lemma tick_once e dur fin k d :
  Timer_tick (mkTimer (mkStopwatch e false) dur Once fin k) d =
  let e' := Duration_saturating_add e d in
  if fin then mkTimer (mkStopwatch e false) dur Once true 0
  else if dur <=? e' then mkTimer (mkStopwatch dur false) dur Once true 1
  else mkTimer (mkStopwatch e' false) dur Once false 0.
Proof. unfold Timer_tick, Timer_elapsed. destruct fin; [done|]. cbn. by destruct (_ <=? _). Qed.

(** A repeating timer that is running. *)
Record repeating (t : Timer) : Prop := {
  rp_mode : tm_mode t = Repeating;
  rp_running : Timer_is_paused t = false;
  rp_duration : 0 < tm_duration t <= W64;
  rp_elapsed : 0 <= Timer_elapsed t < tm_duration t
}.

(** Frame times whose count fits a [u32] and which do not saturate a [Duration]. *)
Definition frame_fits (dur d : Z) : Prop := 0 <= d <= dur * (W32 - 1) ∧ dur + d <= Duration_MAX.

Lemma repeating_tick t d :
  repeating t → frame_fits (tm_duration t) d →
  repeating (Timer_tick t d) ∧ tm_duration (Timer_tick t d) = tm_duration t ∧
  Timer_elapsed (Timer_tick t d) = (Timer_elapsed t + d) mod tm_duration t ∧
  tm_times_finished_this_tick (Timer_tick t d) = (Timer_elapsed t + d) / tm_duration t ∧
  tm_finished (Timer_tick t d) = Timer_just_finished (Timer_tick t d).
Proof.
  intros [Hm Hr Hd He] [Hb Hmax]. destruct t as [[e p] dur mode fin times].
  cbn in Hm, Hr, Hd, He, Hb, Hmax. subst mode p.
  rewrite tick_repeating. cbn [tm_duration Timer_elapsed tm_stopwatch sw_elapsed]. unfold Duration_from_nanos_u64.
  assert (Hmin : Duration_saturating_add e d = e + d) by (unfold Duration_saturating_add; lia). rewrite !Hmin. cbn zeta.
  pose proof (Z.mod_pos_bound (e + d) dur ltac:(lia)) as Hmod.
  destruct (Z.leb_spec dur (e + d)) as [Hle|Hlt]; cbn.
  - assert (0 < (e + d) / dur) by (apply Z.div_str_pos; lia).
    assert ((e + d) / dur < W32) by (apply Z.div_lt_upper_bound; lia).
    rewrite (proj2 (Z.eqb_neq dur 0)) by lia. rewrite !(Z.mod_small ((e + d) mod dur)) by lia. rewrite (Z.mod_small ((e + d) / dur)) by lia.
    split; [split; cbn; done || lia|]. split; [done|]. split; [done|]. split; [done|]. symmetry. apply Z.ltb_lt. cbn. lia.
  - split; [split; cbn; done || lia|]. split; [done|]. rewrite Z.mod_small, Z.div_small by lia. done.
Qed.

Lemma repeating_after ds : ∀ t,
  repeating t → Forall (frame_fits (tm_duration t)) ds →
  repeating (timer_after t ds) ∧ tm_duration (timer_after t ds) = tm_duration t ∧
  Timer_elapsed (timer_after t ds) = (Timer_elapsed t + sum_Z ds) mod tm_duration t ∧
  sum_Z (tm_times_finished_this_tick <$> timer_frames t ds) = (Timer_elapsed t + sum_Z ds) / tm_duration t.
Proof.
  induction ds as [|d ds IH]; intros t Ht Hb.
  { destruct Ht as [? ? ? ?]. cbn. rewrite Z.add_0_r, Z.mod_small, Z.div_small by done. done. }
  apply Forall_cons in Hb as [Hd Hb]. destruct (repeating_tick t d Ht Hd) as (Ht' & Hdur & Hel & Hk & _).
  rewrite <- Hdur in Hb. destruct (IH (Timer_tick t d) Ht' Hb) as (H1 & H2 & H3 & H4). rewrite Hdur in H2, H3, H4. rewrite Hel in H3, H4.
  change (timer_after t (d :: ds)) with (timer_after (Timer_tick t d) ds). cbn [timer_frames fmap list_fmap]. rewrite !sum_Z_cons.
  split; [done|]. split; [done|]. destruct Ht as [_ _ [Hp _] _].
  split; [rewrite H3, Z.add_mod_idemp_l by lia; f_equal; lia|]. rewrite H4, Hk.
  set (e := Timer_elapsed t + d) in *. replace (Timer_elapsed t + (d + sum_Z ds)) with (e mod tm_duration t + sum_Z ds + e / tm_duration t * tm_duration t).
  - rewrite Z.div_add by lia. lia.
  - pose proof (Z.div_mod e (tm_duration t)). lia.
Qed.

Lemma timer_frames_at ds : ∀ t k, timer_frames t ds !! k = (λ d, Timer_tick (timer_after t (take k ds)) d) <$> ds !! k.
Proof. induction ds as [|d ds IH]; intros t [|k]; cbn; [done|done|done|]. apply IH. Qed.

(** C26: A repeating timer loses no time.  Over any sequence of frame times, the
    number of times it reports having finished adds up to the whole multiples of
    its duration in the total time, and what is left over is carried in its
    elapsed time; and in each frame it reports the multiples that were passed in
    that frame, and just finishing exactly when there was one.  The timer runs, its
    duration is positive and at most [2^64] nanoseconds, and no frame is longer than
    a [u32] of durations or overflows a [Duration]. *)
Theorem repeating_timer_exact t ds :
  repeating t → Forall (frame_fits (tm_duration t)) ds →
  let passed k := (Timer_elapsed t + sum_Z (take k ds)) / tm_duration t in
  sum_Z (tm_times_finished_this_tick <$> timer_frames t ds) = (Timer_elapsed t + sum_Z ds) / tm_duration t ∧
  Timer_elapsed (timer_after t ds) = (Timer_elapsed t + sum_Z ds) mod tm_duration t ∧
  ∀ k u, timer_frames t ds !! k = Some u →
    tm_times_finished_this_tick u = passed (S k) - passed k ∧ (Timer_just_finished u = true ↔ passed k < passed (S k)).
Proof.
  intros Ht Hb passed. destruct (repeating_after ds t Ht Hb) as (_ & _ & He & Hk). split; [done|]. split; [done|]. clear He Hk.
  intros k u Hu. rewrite timer_frames_at in Hu. apply fmap_Some in Hu as (d & Hd & ->).
  destruct (repeating_after (take k ds) t Ht) as (Ht1 & Hdur & He & _); [by apply Forall_take|].
  destruct (repeating_tick (timer_after t (take k ds)) d Ht1) as (_ & _ & _ & Hn & _); [rewrite Hdur; by eapply Forall_lookup_1 in Hb|].
  assert (Heq : tm_times_finished_this_tick (Timer_tick (timer_after t (take k ds)) d) = passed (S k) - passed k).
  { rewrite Hn, Hdur, He. unfold passed. rewrite (take_S_r ds k d Hd), sum_Z_app. cbn [sum_Z foldr]. destruct Ht as [_ _ [Hp _] _].
    set (x := Timer_elapsed t + sum_Z (take k ds)). replace (Timer_elapsed t + (sum_Z (take k ds) + (d + 0))) with (x mod tm_duration t + d + x / tm_duration t * tm_duration t).
    - rewrite Z.div_add by lia. lia.
    - pose proof (Z.div_mod x (tm_duration t)). unfold x in *. lia. }
  split; [exact Heq|]. unfold Timer_just_finished. rewrite Heq, Z.ltb_lt. lia.
Qed.

(** The flag behind [is_finished] is cleared by a frame in which a repeating timer
    does not finish, although it has finished before. *)
Lemma repeating_finished_cleared :
  tm_finished (timer_after (on_timer 10) [12]) = true ∧ tm_finished (timer_after (on_timer 10) [12; 3]) = false.
Proof. by vm_compute. Qed.

Lemma repeating_timer_exact_witness :
  sum_Z (tm_times_finished_this_tick <$> timer_frames (on_timer 10) [7; 25; 3]) = 3 ∧
  Timer_elapsed (timer_after (on_timer 10) [7; 25; 3]) = 5.
Proof.
  destruct (repeating_timer_exact (on_timer 10) [7; 25; 3]) as (H1 & H2 & _).
  - split; cbn; done || lia.
  - repeat constructor; vm_compute; discriminate.
  - split; [exact H1|exact H2].
Defined.

(** A one-shot timer after the frames [ds]. *)
Definition once_state (dur : Z) (ds : list Z) (t : Timer) : Prop :=
  t = mkTimer (mkStopwatch (Z.min dur (sum_Z ds)) false) dur Once (negb (bool_decide (ds = [])) && (dur <=? sum_Z ds))
        (tm_times_finished_this_tick t).

Lemma once_tick dur ds d t :
  is_duration dur → Forall (λ d, 0 <= d) ds → 0 <= d → once_state dur ds t →
  once_state dur (ds ++ [d]) (Timer_tick t d) ∧
  Timer_just_finished (Timer_tick t d) = (dur <=? sum_Z (ds ++ [d])) && (bool_decide (ds = []) || (sum_Z ds <? dur)).
Proof.
  intros Hd Hs Hp Ht. pose proof (sum_Z_nonneg _ Hs) as Hnn. unfold once_state. rewrite sum_Z_app. cbn [sum_Z foldr]. rewrite Z.add_0_r.
  rewrite (bool_decide_false (ds ++ [d] = [])) by (by destruct ds). rewrite Ht.
  unfold is_duration in Hd. rewrite tick_once. cbn zeta.
  assert (Hz : bool_decide (ds = []) = true → sum_Z ds = 0) by (by intros ->%bool_decide_eq_true).
  set (s := sum_Z ds) in *. destruct (negb (bool_decide (ds = [])) && (dur <=? s)) eqn:Ef; cbn.
  - apply andb_true_iff in Ef as [Hne%negb_true_iff Hle%Z.leb_le]. rewrite Hne. cbn.
    rewrite (proj2 (Z.leb_le dur (s + d))), (proj2 (Z.ltb_ge s dur)) by lia. rewrite !Z.min_l by lia. done.
  - assert (Hcase : s < dur ∨ bool_decide (ds = []) = true).
    { destruct (bool_decide _); [by right|]. cbn in Ef. apply Z.leb_gt in Ef. by left. }
    assert (Hor : bool_decide (ds = []) || (s <? dur) = true) by (apply orb_true_iff; rewrite Z.ltb_lt; tauto). rewrite Hor.
    assert (Hmin : Z.min dur s = s) by (destruct Hcase as [?|?%Hz]; lia). rewrite Hmin. unfold Duration_saturating_add.
    destruct (Z.leb_spec dur (s + d)).
    + rewrite (proj2 (Z.leb_le dur _)) by lia. cbn. by rewrite Z.min_l by lia.
    + rewrite (proj2 (Z.leb_gt dur _)) by lia. cbn. by rewrite Z.min_l, Z.min_r by lia.
Qed.

Lemma once_after dur ds : is_duration dur → Forall (λ d, 0 <= d) ds → once_state dur ds (timer_after (once_after_delay dur) ds).
Proof.
  intros Hd. induction ds as [|d ds IH] using rev_ind; intros Hs.
  - unfold once_state, is_duration in *. cbn. by rewrite Z.min_r by lia.
  - apply Forall_app in Hs as [Hs [Hp _]%Forall_cons]. unfold timer_after. rewrite foldl_app. cbn.
    by apply once_tick, IH.
Qed.

(** A one-shot timer fires exactly once.  After any number of frames it is
    finished exactly when the time so far has reached its duration
    ([repeating_after_delay] answers this), it reports just finishing in the one
    frame in which that happens ([once_after_delay]), and its elapsed time stops
    at the duration, even where the sum of the frame times saturates. *)
Theorem once_timer_fires_once dur ds d :
  is_duration dur → Forall (λ d, 0 <= d) ds → 0 <= d →
  let before := sum_Z ds in
  let now := before + d in
  let t := timer_after (once_after_delay dur) ds in
  (repeating_after_delay_call t d).1 = (dur <=? now) ∧
  (on_timer_call t d).1 = (dur <=? now) && (bool_decide (ds = []) || (before <? dur)) ∧
  Timer_elapsed (Timer_tick t d) = Z.min dur now.
Proof.
  intros Hd Hs Hp before now t. pose proof (once_after dur ds Hd Hs) as Ho. destruct (once_tick dur ds d t Hd Hs Hp Ho) as [Ht Hj].
  rewrite sum_Z_app in Hj. cbn [sum_Z foldr] in Hj. rewrite Z.add_0_r in Hj. unfold repeating_after_delay_call, on_timer_call. cbn [fst].
  rewrite Hj. unfold once_state in Ht. rewrite Ht. cbn. rewrite sum_Z_app. cbn [sum_Z foldr]. rewrite Z.add_0_r.
  rewrite bool_decide_false by (by destruct ds). done.
Qed.

Lemma once_timer_fires_once_witness :
  (on_timer_call (timer_after (once_after_delay 10) [4; 5]) 3).1 = true ∧
  (on_timer_call (timer_after (once_after_delay 10) [4; 5; 3]) 3).1 = false.
Proof.
  split.
  - apply (once_timer_fires_once 10 [4; 5] 3); [split; vm_compute; discriminate|repeat constructor; lia|lia].
  - apply (once_timer_fires_once 10 [4; 5; 3] 3); [split; vm_compute; discriminate|repeat constructor; lia|lia].
Defined.

(** ** The fixed time step *)

Lemma advance_by_ok {T} (t : Time T) d :
  time_elapsed t + d <= Duration_MAX → time_wrap_period t ≠ 0 →
  ∃ t', Time_advance_by t d = Ret t' ∧ time_context t' = time_context t ∧ time_delta t' = d ∧
    time_elapsed t' = time_elapsed t + d ∧ time_wrap_period t' = time_wrap_period t ∧
    (0 < time_wrap_period t <= W64 → time_elapsed_wrapped t' = (time_elapsed t + d) mod time_wrap_period t).
Proof.
  intros He Hw. unfold Time_advance_by, Duration_add, duration_rem. rewrite (proj2 (Z.ltb_ge _ _)) by lia. cbn.
  rewrite (proj2 (Z.eqb_neq _ _)) by done. cbn. eexists. split; [reflexivity|]. cbn. do 4 (split; [done|]). intros Hp.
  unfold Duration_from_nanos_u64. apply Z.mod_small. pose proof (Z.mod_pos_bound (time_elapsed t + d) (time_wrap_period t)). lia.
Qed.

(** A fixed clock that can make its steps. *)
Record fixed_ok (t : Time Fixed) : Prop := {
  fo_timestep : 0 < fixed_timestep (time_context t);
  fo_overstep : 0 <= fixed_overstep (time_context t);
  fo_elapsed : 0 <= time_elapsed t;
  fo_room : time_elapsed t + fixed_overstep (time_context t) <= Duration_MAX;
  fo_wrap : time_wrap_period t ≠ 0
}.

Lemma expend_ok t :
  fixed_ok t →
  let ts := fixed_timestep (time_context t) in
  let o := fixed_overstep (time_context t) in
  if o <? ts then expend t = Ret (false, t)
  else ∃ t', expend t = Ret (true, t') ∧ fixed_ok t' ∧ time_context t' = mkFixed ts (o - ts) ∧
         time_delta t' = ts ∧ time_elapsed t' = time_elapsed t + ts.
Proof.
  intros [Hts Ho He Hr Hw] ts o. unfold expend, checked_sub. fold ts o. destruct (Z.ltb_spec o ts) as [Hlt|Hge]; [done|].
  destruct (advance_by_ok (Time_set_context t (mkFixed ts (o - ts))) ts) as (t' & Ha & Hc & Hd & Hel & Hwp & _); [cbn; lia|done|].
  cbn in Hc, Hel, Hwp. rewrite Ha. exists t'. split; [done|]. split; [|done]. split; rewrite ?Hc, ?Hel, ?Hwp; cbn; done || lia.
Qed.

Section fixed_main.
Context {S R : Type}.
Variable run : S → TimeWorld S R → outcome (S * TimeWorld S R).

(** The systems of [FixedMain] return, and leave the virtual and the fixed clock
    alone and the generic clock in place. *)
Definition keeps_clocks : Prop := ∀ s w, ∃ s' w', run s w = Ret (s', w') ∧
  tw_virt w' = tw_virt w ∧ tw_fixed w' = tw_fixed w ∧ (is_Some (tw_time w) → is_Some (tw_time w')).

(** The runs of the schedule one after the other, each with the generic clock it
    sees. *)
Inductive fixed_runs : S → TimeWorld S R → list (Time unit) → S → TimeWorld S R → Prop :=
| runs_done s w : fixed_runs s w [] s w
| runs_more s w f s1 w1 seen s2 w2 :
    run s (set_time (set_fixed w f) (Time_as_generic f)) = Ret (s1, w1) → fixed_runs s1 w1 seen s2 w2 →
    fixed_runs s w (Time_as_generic f :: seen) s2 w2.

Hypothesis Hkeep : keeps_clocks.

Lemma fixed_loop_ok n : ∀ fuel s (w : TimeWorld S R) t,
  tw_fixed w = Some t → is_Some (tw_time w) → fixed_ok t →
  fixed_overstep (time_context t) / fixed_timestep (time_context t) = Z.of_nat n → (n < fuel)%nat →
  ∃ s' w' t' seen, fixed_loop run fuel s w = Some (Ret (s', w')) ∧ fixed_runs s w seen s' w' ∧ length seen = n ∧
    (∀ k g, seen !! k = Some g → time_delta g = fixed_timestep (time_context t) ∧
       time_elapsed g = time_elapsed t + Z.of_nat (k + 1) * fixed_timestep (time_context t)) ∧
    tw_fixed w' = Some t' ∧ tw_virt w' = tw_virt w ∧ is_Some (tw_time w') ∧ fixed_ok t' ∧
    time_elapsed t' = time_elapsed t + Z.of_nat n * fixed_timestep (time_context t) ∧
    time_context t' = mkFixed (fixed_timestep (time_context t)) (fixed_overstep (time_context t) mod fixed_timestep (time_context t)).
Proof.
  induction n as [|n IH]; intros fuel s w t Hf Ht Hok Hn Hfuel; (destruct fuel as [|fuel]; [lia|]);
    pose proof (expend_ok t Hok) as Hex; cbn zeta in Hex; pose proof (fo_timestep t Hok) as Hts; pose proof (fo_overstep t Hok) as Ho;
    cbn [fixed_loop]; rewrite Hf; cbn [resource mbind outcome_bind].
  - apply Z.div_small_iff in Hn; [|lia]. rewrite (proj2 (Z.ltb_lt _ _)) in Hex by lia. rewrite Hex.
    exists s, w, t, []. assert (set_fixed w t = w) as -> by (destruct w; cbn in *; by subst).
    split; [done|]. split; [constructor|]. split; [done|]. split; [done|]. do 4 (split; [done|]). split; [lia|].
    rewrite Z.mod_small by lia. by destruct (time_context t).
  - set (ts := fixed_timestep (time_context t)) in *. set (o := fixed_overstep (time_context t)) in *.
    assert (Hge : ts <= o) by (destruct (Z.lt_ge_cases o ts) as [Hlt|]; [|done]; rewrite Z.div_small in Hn; lia).
    rewrite (proj2 (Z.ltb_ge _ _)) in Hex by lia. destruct Hex as (t1 & -> & Hok1 & Hc1 & Hd1 & He1). destruct Ht as [g0 Hg0].
    change (tw_time (set_fixed w t1)) with (tw_time w). rewrite Hg0. cbn [resource mbind outcome_bind].
    destruct (Hkeep s (set_time (set_fixed w t1) (Time_as_generic t1))) as (s1 & w1 & Hr & Hv1 & Hf1 & Hg1). rewrite Hr.
    assert (Hdiv : (o - ts) / ts = Z.of_nat n) by (replace (o - ts) with (o + -1 * ts) by lia; rewrite Z.div_add by lia; lia).
    destruct (IH fuel s1 w1 t1) as (s2 & w2 & t2 & seen & Hl & Hrs & Hlen & Hseen & Hf2 & Hv2 & Hg2 & Hok2 & He2 & Hc2);
      [done|by apply Hg1|done|by rewrite Hc1|lia|]. rewrite Hc1 in Hseen, He2, Hc2. cbn in Hseen, He2, Hc2.
    exists s2, w2, t2, (Time_as_generic t1 :: seen). split; [done|]. split; [by econstructor|]. split; [cbn; lia|].
    split.
    { intros [|k] g; cbn [lookup list_lookup]; [intros [= <-]; cbn; lia|]. intros [? Hel]%Hseen. split; [done|]. lia. }
    split; [done|]. split; [by rewrite Hv2, Hv1|]. split; [done|]. split; [done|]. split; [lia|]. rewrite Hc2. f_equal.
    replace (o - ts) with (o + -1 * ts) by lia. by rewrite Z.mod_add by lia.
Qed.

(** One call of the system, on a world whose clocks are in place. *)
Lemma run_fixed_ok fuel s (w : TimeWorld S R) t v :
  tw_fixed w = Some t → tw_virt w = Some v → is_Some (tw_time w) → tw_fixed_main w = Some s →
  fixed_ok t → 0 <= time_delta v →
  let ts := fixed_timestep (time_context t) in
  let total := fixed_overstep (time_context t) + time_delta v in
  time_elapsed t + total <= Duration_MAX → total / ts < Z.of_nat fuel →
  ∃ w' t' s1 w1 seen, run_fixed_main_schedule run fuel w = Some (Ret w') ∧
    fixed_runs s (set_fixed_main (set_fixed w (Time_set_context t (mkFixed ts total))) None) seen s1 w1 ∧ Z.of_nat (length seen) = total / ts ∧
    (∀ k g, seen !! k = Some g → time_delta g = ts ∧ time_elapsed g = time_elapsed t + Z.of_nat (k + 1) * ts) ∧
    tw_fixed w' = Some t' ∧ tw_virt w' = Some v ∧ tw_time w' = Some (Time_as_generic v) ∧ tw_fixed_main w' = Some s1 ∧ tw_rest w' = tw_rest w1 ∧
    fixed_ok t' ∧ time_context t' = mkFixed ts (total mod ts) ∧ time_elapsed t' = time_elapsed t + total / ts * ts.
Proof.
  intros Hf Hv Ht Hs Hok Hd ts total Hroom Hfuel. pose proof (fo_timestep t Hok) as Hts. pose proof (fo_overstep t Hok) as Ho.
  pose proof (fo_elapsed t Hok) as Hel. assert (Hq : 0 <= total / ts) by (apply Z.div_pos; unfold total, ts; lia).
  unfold run_fixed_main_schedule. rewrite Hf, Hv. cbn [resource mbind outcome_bind]. unfold accumulate_overstep, Duration_add.
  rewrite (proj2 (Z.ltb_ge _ _)) by lia. cbn [mbind outcome_bind].
  set (t1 := Time_set_context t _). set (w1 := set_fixed w t1).
  assert (Hok1 : fixed_ok t1) by (split; cbn; try apply Hok; lia).
  change (tw_fixed_main w1) with (tw_fixed_main w). rewrite Hs.
  destruct (fixed_loop_ok (Z.to_nat (total / ts)) fuel s (set_fixed_main w1 None) t1) as
    (s2 & w2 & t2 & seen & Hl & Hrs & Hlen & Hseen & Hf2 & Hv2 & [g2 Hg2] & Hok2 & He2 & Hc2); [done|done|done|cbn; fold ts; fold total; lia|lia|].
  rewrite Hl. cbn. rewrite Hg2, Hv2. cbn. rewrite Hv. cbn. cbn in Hseen, He2, Hc2. fold ts total in Hseen, He2, Hc2. rewrite Z2Nat.id in He2 by done.
  do 5 eexists. split; [reflexivity|]. split; [exact Hrs|]. split; [rewrite Hlen; lia|]. split; [exact Hseen|]. cbn.
  split; [exact Hf2|]. split; [by rewrite Hv2|]. done.
Qed.
End fixed_main.

(** C27: [run_fixed_main_schedule], for a [FixedMain] whose systems return and do not
    write to [Time<Fixed>] or [Time<Virtual>] ([keeps_clocks]), runs [FixedMain]
    exactly as often as whole time steps fit in the accumulated time; the [k]-th run
    sees the generic clock one step after the [k-1]-th, with the time step as its
    delta; what is left over is kept as overstep, so that the fixed clock and its
    overstep together have advanced by the virtual delta; and the generic clock is
    the virtual one again at the end.  The loop then ends, and the number of steps
    bounds the fuel; a system that feeds the overstep could keep it running. *)
Theorem fixed_main_steps {S R} (run : S → TimeWorld S R → outcome (S * TimeWorld S R)) fuel s w t v :
  keeps_clocks run → tw_fixed w = Some t → tw_virt w = Some v → is_Some (tw_time w) → tw_fixed_main w = Some s →
  fixed_ok t → 0 <= time_delta v →
  let ts := fixed_timestep (time_context t) in
  let total := fixed_overstep (time_context t) + time_delta v in
  time_elapsed t + total <= Duration_MAX → total / ts < Z.of_nat fuel →
  ∃ w' t' s1 w1 seen, run_fixed_main_schedule run fuel w = Some (Ret w') ∧
    fixed_runs run s (set_fixed_main (set_fixed w (Time_set_context t (mkFixed ts total))) None) seen s1 w1 ∧
    Z.of_nat (length seen) = total / ts ∧
    (∀ k g, seen !! k = Some g → time_delta g = ts ∧ time_elapsed g = time_elapsed t + Z.of_nat (k + 1) * ts) ∧
    tw_fixed w' = Some t' ∧ tw_rest w' = tw_rest w1 ∧ tw_fixed_main w' = Some s1 ∧
    tw_time w' = Some (Time_as_generic v) ∧ 0 <= fixed_overstep (time_context t') < ts ∧
    time_elapsed t' + fixed_overstep (time_context t') = time_elapsed t + total.
Proof.
  intros Hk Hf Hv Ht Hs Hok Hd ts total Hroom Hfuel.
  destruct (run_fixed_ok run Hk fuel s w t v Hf Hv Ht Hs Hok Hd Hroom Hfuel)
    as (w' & t' & s1 & w1 & seen & H1 & H2 & H3 & H4 & H5 & _ & H7 & H8 & H9 & _ & Hc & He).
  pose proof (fo_timestep t Hok). fold ts total in Hc, He. exists w', t', s1, w1, seen. do 8 (split; [done|]). rewrite Hc, He. cbn.
  split; [by apply Z.mod_pos_bound|]. pose proof (Z.div_mod total ts). lia.
Qed.

(** ** Frames *)

(** The time between consecutive instants; an instant in the past counts as none. *)
Fixpoint frame_deltas (last : Z) (nows : list Z) : list Z :=
  match nows with
  | [] => []
  | now :: nows => Z.max 0 (now - last) :: frame_deltas now nows
  end.

Lemma frame_deltas_nonneg nows : ∀ last, Forall (λ d, 0 <= d) (frame_deltas last nows).
Proof. induction nows as [|now nows IH]; intros last; cbn; constructor; [lia|apply IH]. Qed.

Section frames.
Context {S R : Type}.
Variable run : S → TimeWorld S R → outcome (S * TimeWorld S R).
Variable instant_max : Z.
Hypothesis Hkeep : keeps_clocks run.

Fixpoint frames (fuel : nat) (nows : list Z) (real : Time Real) (w : TimeWorld S R) : option (outcome (Time Real * TimeWorld S R)) :=
  match nows with
  | [] => Some (Ret (real, w))
  | now :: nows =>
      match time_frame run instant_max fuel now Automatic real w with
      | Some (Ret (real, w)) => frames fuel nows real w
      | r => r
      end
  end.

(** The game clocks between frames: the virtual clock runs at normal speed, the
    fixed clock is at a multiple of its time step, and with its overstep it adds up
    to the virtual clock. *)
Record game_ok (fuel : nat) (w : TimeWorld S R) (v : Time Virtual) (f : Time Fixed) : Prop := {
  ck_virt : tw_virt w = Some v;
  ck_fixed : tw_fixed w = Some f;
  ck_time : is_Some (tw_time w);
  ck_main : is_Some (tw_fixed_main w);
  ck_wrap : time_wrap_period v ≠ 0;
  ck_speed : virt_paused (time_context v) = false ∧ virt_relative_speed (time_context v) = f64_one ∧ 0 < virt_max_delta (time_context v);
  ck_step : fixed_ok f;
  ck_over : fixed_overstep (time_context f) < fixed_timestep (time_context f);
  ck_mult : (fixed_timestep (time_context f) | time_elapsed f);
  ck_sum : time_elapsed f + fixed_overstep (time_context f) = time_elapsed v;
  ck_fuel : virt_max_delta (time_context v) / fixed_timestep (time_context f) + 1 < Z.of_nat fuel
}.

(** The real clock, at most behind which the virtual one runs. *)
Definition real_ok (last : Z) (real : Time Real) (v : Time Virtual) : Prop :=
  real_last_update (time_context real) = Some last ∧ time_elapsed v <= time_elapsed real ∧ time_wrap_period real ≠ 0.

(** One frame [d] after the last. *)
Lemma virtual_step (v : Time Virtual) d :
  virt_paused (time_context v) = false → virt_relative_speed (time_context v) = f64_one → time_wrap_period v ≠ 0 →
  time_elapsed v + Z.min d (virt_max_delta (time_context v)) <= Duration_MAX →
  ∃ v', advance_with_raw_delta v d = Ret v' ∧ time_delta v' = Z.min d (virt_max_delta (time_context v)) ∧
    time_elapsed v' = time_elapsed v + Z.min d (virt_max_delta (time_context v)) ∧ time_wrap_period v' = time_wrap_period v ∧
    virt_paused (time_context v') = false ∧ virt_relative_speed (time_context v') = f64_one ∧
    virt_max_delta (time_context v') = virt_max_delta (time_context v).
Proof.
  intros Hp Hs Hw Hroom. unfold advance_with_raw_delta. rewrite Hp, Hs. change (SFeqb f64_one f64_one) with true. cbn [negb mbind outcome_bind].
  assert (Hc : (if virt_max_delta (time_context v) <? d then virt_max_delta (time_context v) else d) = Z.min d (virt_max_delta (time_context v))).
  { destruct (Z.ltb_spec (virt_max_delta (time_context v)) d); lia. }
  rewrite Hc. destruct (advance_by_ok (Time_set_context v (mkVirtual (virt_max_delta (time_context v)) false f64_one f64_one))
    (Z.min d (virt_max_delta (time_context v)))) as (v' & Ha & Hctx & Hd & He & Hwp & _); [done|done|].
  exists v'. rewrite Hctx. done.
Qed.

(** The frame once the real clock is updated. *)
Lemma game_step fuel now real real1 w v f :
  game_ok fuel w v f → update_with_instant real now = Ret real1 →
  let d := time_delta real1 in 0 <= d → time_elapsed v + d <= Duration_MAX →
  ∃ w' v' f', time_frame run instant_max fuel now Automatic real w = Some (Ret (real1, w')) ∧ game_ok fuel w' v' f' ∧
    time_elapsed v' = time_elapsed v + Z.min d (virt_max_delta (time_context v)) ∧
    virt_max_delta (time_context v') = virt_max_delta (time_context v) ∧
    fixed_timestep (time_context f') = fixed_timestep (time_context f).
Proof.
  intros [Hv Hf [g Hg] [s Hm] Hwv (Hp & Hs & Hmax) Hok Hover Hmult Hsum Hfuel] Hup d Hd Hroom.
  unfold time_frame. rewrite Hg, Hv, Hf. cbn [resource mbind outcome_bind]. unfold time_system. rewrite Hup. cbn [mbind outcome_bind].
  unfold update_virtual_time. fold d.
  destruct (virtual_step v d Hp Hs Hwv) as (v1 & -> & Hd2 & He2 & Hwp2 & Hp2 & Hs2 & Hm2); [lia|]. cbn [mbind outcome_bind].
  pose proof (fo_timestep f Hok) as Hts. pose proof (fo_overstep f Hok) as Ho. set (m := virt_max_delta (time_context v)) in *.
  set (ts := fixed_timestep (time_context f)) in *. set (o := fixed_overstep (time_context f)) in *.
  assert (Hdd : 0 <= Z.min d m <= m) by lia.
  assert (Hq : (o + Z.min d m) / ts < Z.of_nat fuel).
  { apply Z.le_lt_trans with (m / ts + 1); [|done]. replace (m / ts + 1) with ((m + 1 * ts) / ts) by (by rewrite Z.div_add by lia).
    apply Z.div_le_mono; lia. }
  destruct (run_fixed_ok run Hkeep fuel s (mkTimeWorld (Some (Time_as_generic v1)) (Some v1) (Some f) (tw_fixed_main w) (tw_rest w)) f v1)
    as (w' & f' & s1 & w1 & seen & -> & _ & _ & _ & Hf' & Hv' & Ht' & Hm' & _ & Hok' & Hcf & Hef);
    [done|done|done|done|done|lia|rewrite Hd2; fold o; lia|rewrite Hd2; done|].
  cbn. rewrite Hd2 in Hcf, Hef. fold ts o in Hcf, Hef. pose proof (Z.mod_pos_bound (o + Z.min d m) ts Hts). pose proof (Z.div_mod (o + Z.min d m) ts).
  exists w', v1, f'. split; [done|]. split; [|split; [done|split; [done|by rewrite Hcf]]].
  split; rewrite ?Ht', ?Hm', ?Hm2, ?Hcf, ?Hef; cbn; try done; try lia; eauto; try congruence.
  apply Z.divide_add_r; [done|apply Z.divide_factor_r].
Qed.

Lemma frame_step fuel last now real w v f :
  game_ok fuel w v f → real_ok last real v → let d := Z.max 0 (now - last) in time_elapsed real + d <= Duration_MAX →
  ∃ real' w' v' f', time_frame run instant_max fuel now Automatic real w = Some (Ret (real', w')) ∧ game_ok fuel w' v' f' ∧ real_ok now real' v' ∧
    time_elapsed real' = time_elapsed real + d ∧
    time_elapsed v' = time_elapsed v + Z.min d (virt_max_delta (time_context v)) ∧
    virt_max_delta (time_context v') = virt_max_delta (time_context v) ∧
    fixed_timestep (time_context f') = fixed_timestep (time_context f).
Proof.
  intros Hok (Hlast & Hreal & Hwr) d Hroom. destruct (advance_by_ok real d Hroom Hwr) as (real1 & Ha & Hc1 & Hd1 & He1 & Hwp1 & _).
  set (real2 := Time_set_context real1 (mkReal (real_startup (time_context real1)) (real_first_update (time_context real1)) (Some now))).
  assert (Hup : update_with_instant real now = Ret real2).
  { unfold update_with_instant. rewrite Hlast. unfold saturating_duration_since. fold d. by rewrite Ha. }
  assert (Hd2 : time_delta real2 = d) by done.
  destruct (game_step fuel now real real2 w v f Hok Hup) as (w' & v' & f' & Hfr & Hok' & Hv' & Hm' & Ht'); [lia|lia|].
  rewrite Hd2 in Hv'. exists real2, w', v', f'. split; [done|]. split; [done|]. split; [|done]. split; [done|]. cbn. split; [lia|congruence].
Qed.

Lemma frames_step fuel nows : ∀ last real w v f,
  game_ok fuel w v f → real_ok last real v → time_elapsed real + sum_Z (frame_deltas last nows) <= Duration_MAX →
  ∃ real' w' v' f', frames fuel nows real w = Some (Ret (real', w')) ∧ game_ok fuel w' v' f' ∧
    time_elapsed v' = time_elapsed v + sum_Z (Z.min (virt_max_delta (time_context v)) <$> frame_deltas last nows) ∧
    fixed_timestep (time_context f') = fixed_timestep (time_context f).
Proof.
  induction nows as [|now nows IH]; intros last real w v f Hok Hre Hroom.
  { exists real, w, v, f. cbn. rewrite Z.add_0_r. done. }
  cbn [frame_deltas frames] in *. rewrite sum_Z_cons in Hroom. pose proof (sum_Z_nonneg _ (frame_deltas_nonneg nows now)).
  destruct (frame_step fuel last now real w v f Hok Hre) as (r1 & w1 & v1 & f1 & -> & Hok1 & Hre1 & Hr1 & Hv1 & Hm1 & Ht1); [lia|].
  destruct (IH now r1 w1 v1 f1 Hok1 Hre1) as (r2 & w2 & v2 & f2 & H1 & H2 & H3 & H4); [lia|].
  exists r2, w2, v2, f2. split; [done|]. split; [done|]. rewrite H3, H4, Ht1, Hm1, Hv1. split; [|done].
  cbn [fmap list_fmap]. rewrite sum_Z_cons. rewrite (Z.min_comm (virt_max_delta _) (Z.max _ _)). lia.
Qed.
End frames.

(** The clocks as [TimePlugin] inserts them and the first frame leaves them. *)
Definition start_world {S R} (max_delta timestep : Z) (s : S) (r : R) : TimeWorld S R :=
  mkTimeWorld (Some (Time_new_with tt)) (Some (Time_new_with (mkVirtual max_delta false f64_one f64_one)))
    (Some (Time_new_with (mkFixed timestep 0))) (Some s) r.

(** No time is lost between the clocks.  Starting from the clocks of
    [TimePlugin] with any positive maximal delta and time step, after any sequence
    of frames (instants may even go backwards) the virtual clock has advanced by
    the sum of the real frame times, each cut at the maximal delta; the fixed clock
    stands at the largest multiple of its time step that is not beyond it, with the
    rest as overstep; every frame returns. *)
Theorem frames_conserve_time {S R} (run : S → TimeWorld S R → outcome (S * TimeWorld S R)) instant_max
    fuel max_delta timestep s r startup first nows :
  keeps_clocks run → 0 < max_delta → 0 < timestep → max_delta / timestep + 1 < Z.of_nat fuel →
  sum_Z (frame_deltas first nows) <= Duration_MAX →
  ∃ real w v f, frames run instant_max fuel (first :: nows) (Real_new startup) (start_world max_delta timestep s r) = Some (Ret (real, w)) ∧
    tw_virt w = Some v ∧ tw_fixed w = Some f ∧
    time_elapsed v = sum_Z (Z.min max_delta <$> frame_deltas first nows) ∧
    time_elapsed f = timestep * (time_elapsed v / timestep) ∧
    fixed_overstep (time_context f) = time_elapsed v mod timestep.
Proof.
  intros Hk Hm Ht Hfuel Hsum. set (w0 := start_world max_delta timestep s r).
  set (v0 := Time_new_with (mkVirtual max_delta false f64_one f64_one)). set (f0 := Time_new_with (mkFixed timestep 0)).
  set (real1 := Time_set_context (Real_new startup) (mkReal startup (Some first) (Some first))).
  assert (H0 : game_ok fuel w0 v0 f0).
  { split; cbn; eauto; try done; try (split; cbn; done); try apply Z.divide_0_r. }
  destruct (game_step run instant_max Hk fuel first (Real_new startup) real1 w0 v0 f0 H0) as (w1 & v1 & f1 & Hfr & H1 & Hv1 & Hm1 & Ht1); [done..|].
  assert (Hz : time_elapsed v1 = 0) by (rewrite Hv1; cbn; lia).
  destruct (frames_step run instant_max Hk fuel nows first real1 w1 v1 f1 H1) as (real2 & w2 & v2 & f2 & Hfs & H2 & Hv2 & Ht2);
    [split; [done|]; split; [by rewrite Hz|done]|done|].
  exists real2, w2, v2, f2. cbn [frames]. rewrite Hfr. split; [done|]. split; [apply H2|]. split; [apply H2|].
  rewrite Hm1, Hz in Hv2. split; [done|]. pose proof (ck_sum _ _ _ _ H2) as Hs2. pose proof (ck_over _ _ _ _ H2) as Ho2.
  pose proof (fo_overstep _ (ck_step _ _ _ _ H2)). destruct (ck_mult _ _ _ _ H2) as [k Hk2]. rewrite Ht1 in Ht2. cbn in Ht2. rewrite Ht2 in *.
  assert (Heq : time_elapsed v2 = timestep * k + fixed_overstep (time_context f2)) by lia.
  assert (Hr : 0 <= fixed_overstep (time_context f2) < timestep) by lia.
  rewrite <- (Z.div_unique_pos _ _ _ _ Hr Heq), <- (Z.mod_unique_pos _ _ _ _ Hr Heq). split; [lia|done].
Qed.

(** The [FixedMain] schedule that counts its runs. *)
Definition count_runs (s : unit) (w : TimeWorld unit Z) : outcome (unit * TimeWorld unit Z) :=
  Ret (s, mkTimeWorld (tw_time w) (tw_virt w) (tw_fixed w) (tw_fixed_main w) (tw_rest w + 1)).

Lemma count_runs_keeps : keeps_clocks count_runs.
Proof. intros s w. eexists _, _. split; [reflexivity|]. done. Qed.

Definition ex_virt : Time Virtual := mkTime Virtual_default 1 25 f_zero f_zero 25 f_zero f_zero 0 f_zero f_zero.
Definition ex_fixed : Time Fixed := Time_new_with (mkFixed 10 7).
Definition ex_clocks : TimeWorld unit Z := mkTimeWorld (Some (Time_new_with tt)) (Some ex_virt) (Some ex_fixed) (Some tt) 0.

Lemma fixed_main_steps_witness :
  ∃ w' t', run_fixed_main_schedule count_runs 4 ex_clocks = Some (Ret w') ∧
    tw_fixed w' = Some t' ∧ time_elapsed t' + fixed_overstep (time_context t') = 32.
Proof.
  destruct (fixed_main_steps count_runs 4 tt ex_clocks ex_fixed ex_virt count_runs_keeps eq_refl eq_refl)
    as (w' & t' & s1 & w1 & seen & Hr & _ & _ & _ & Hf & _ & _ & _ & _ & He).
  - eexists. reflexivity.
  - reflexivity.
  - split; vm_compute; congruence.
  - vm_compute. discriminate.
  - vm_compute. discriminate.
  - reflexivity.
  - exists w', t'. split; [exact Hr|split; [exact Hf|exact He]].
Defined.

Lemma frames_conserve_time_witness :
  ∃ real w v f, frames count_runs 0 5 [100; 125; 120; 155] (Real_new 90) (start_world 30 10 tt 0) = Some (Ret (real, w)) ∧
    tw_virt w = Some v ∧ tw_fixed w = Some f ∧ time_elapsed v = 55 ∧ time_elapsed f = 50 ∧ fixed_overstep (time_context f) = 5.
Proof.
  destruct (frames_conserve_time count_runs 0 5 30 10 tt 0 90 100 [125; 120; 155] count_runs_keeps eq_refl eq_refl eq_refl)
    as (real & w & v & f & H1 & H2 & H3 & H4 & H5 & H6); [vm_compute; discriminate|].
  exists real, w, v, f. rewrite H5, H6, H4. do 3 (split; [assumption|]). repeat split.
Defined.

(** ** Delayed commands *)

Lemma queue_delayed_ok {C} fuel elapsed : ∀ (queues : list (DelayedCommandQueue C)) commands index,
  (index + (length queues - index) < fuel + index)%nat → (index <= length queues)%nat →
  Forall (λ d, elapsed < submit_at d) (take index queues) →
  ∃ due rest, queue_delayed_loop fuel elapsed queues commands index = Some (rest, commands ++ mjoin (dq_queue <$> due)) ∧
    queues ≡ₚ due ++ rest ∧ Forall (λ d, submit_at d <= elapsed) due ∧ Forall (λ d, elapsed < submit_at d) rest.
Proof.
  induction fuel as [|fuel IH]; intros queues commands index Hf Hi Hrest; [lia|]. cbn [queue_delayed_loop].
  destruct (queues !! index) as [d|] eqn:Hd.
  2: { apply lookup_ge_None_1 in Hd. exists [], queues. cbn. rewrite app_nil_r. rewrite take_ge in Hrest by done. done. }
  apply lookup_lt_Some in Hd as Hlt. destruct (swap_remove_perm queues index d Hd) as [Hp Hl]. destruct (Z.leb_spec (submit_at d) elapsed) as [Hle|Hgt].
  - destruct (IH (swap_remove queues index) (commands ++ dq_queue d) index) as (due & rest & H1 & H2 & H3 & H4); [lia|lia| |].
    + replace (take index (swap_remove queues index)) with (take index queues); [done|]. unfold swap_remove. destruct (last queues); [|done].
      rewrite take_take, Nat.min_l by lia. by rewrite take_insert_ge.
    + exists (d :: due), rest. rewrite H1. cbn. rewrite <- app_assoc. split; [done|]. split; [by rewrite Hp, H2|]. split; [by constructor|done].
  - destruct (IH queues commands (index + 1)%nat) as (due & rest & H1 & H2 & H3 & H4); [lia|lia| |].
    + rewrite Nat.add_1_r, (take_S_r _ _ d Hd). apply Forall_app. split; [done|]. by constructor.
    + by exists due, rest.
Qed.

(** [queue_delayed_commands] hands over exactly the command queues whose time
    has come, each once and whole, and keeps the others; the loop over the vector
    that it shrinks with [swap_remove] visits every queue. *)
Theorem queue_delayed_exact {C} elapsed (queues : list (DelayedCommandQueue C)) :
  ∃ due rest, queue_delayed_commands (S (length queues)) elapsed queues = Some (rest, mjoin (dq_queue <$> due)) ∧
    queues ≡ₚ due ++ rest ∧ Forall (λ d, submit_at d <= elapsed) due ∧ Forall (λ d, elapsed < submit_at d) rest.
Proof.
  destruct (queue_delayed_ok (S (length queues)) elapsed queues [] 0) as (due & rest & H1 & H2 & H3 & H4); [lia|lia|constructor|].
  exists due, rest. done.
Qed.
