(* ===== verification/Tick.v ===== *)
(** * Change-detection ticks

    [crates/voker-ecs/src/tick.rs], the slice variant
    [check_slice_tick] of [utils/helper.rs] and the world clock of
    [world/world.rs].  A [Tick] is a wrapping 32-bit time stamp; the
    theorems relate it to an unbounded logical clock. *)

From Stdlib Require Import ZArith Lia.
From S2P Require Import Prelude.

Local Open Scope Z_scope.

(** ** Tick *)

Definition CHECK_CYCLE : Z := Z.shiftl 1 29.

Definition MAX_TICK_AGE : Z := u32_max - Z.shiftl CHECK_CYCLE 1 - 1.

Record Tick := mkTick { tick_bits : Z }.

Definition Tick_new (tick : Z) : Tick := mkTick tick.

Definition Tick_get (self : Tick) : Z := tick_bits self.

Definition Tick_set (self : Tick) (tick : Z) : Tick := mkTick tick.

Definition Tick_MAX_AGE : Tick := Tick_new MAX_TICK_AGE.

Definition Tick_relative_to (self other : Tick) : Tick :=
  mkTick (wsub32 (tick_bits self) (tick_bits other)).

Definition Tick_is_newer_than (self other now : Tick) : bool :=
  let min (x y : Z) := if x <? y then x else y in
  let since_insert := min (tick_bits (Tick_relative_to now self)) MAX_TICK_AGE in
  let since_system := min (tick_bits (Tick_relative_to now other)) MAX_TICK_AGE in
  since_insert <? since_system.

Definition Tick_check_tick (self now : Tick) : Tick :=
  let age := Tick_relative_to now self in
  let fallback := Tick_relative_to now Tick_MAX_AGE in
  if MAX_TICK_AGE <? tick_bits age then fallback else self.

(** [check_slice_tick]: the bulk variant over raw words. *)
Definition check_slice_tick (this : list Tick) (now : Tick) : list Tick :=
  let fall_back := wsub32 (tick_bits now) MAX_TICK_AGE in
  (λ x : Tick,
     let age := wsub32 (tick_bits now) (tick_bits x) in
     if MAX_TICK_AGE <? age then mkTick fall_back else x) <$> this.

(** ** The world clock

    [this_run] and [last_check] of [World], with the markers that are stored:
    the ticks of systems, resources and table columns, and one list of rows per
    sparse map, from the first row to the highest one in use. *)

Record Marks (A : Type) := mkMarks { dense : list A; sparse_rows : list (list A) }.
#[global] Arguments mkMarks {A} _ _.
#[global] Arguments dense {A} _.
#[global] Arguments sparse_rows {A} _.

Inductive Place := PDense (i : nat) | PSparse (j r : nat).
#[global] Instance Place_eq_dec : EqDecision Place.
Proof. solve_decision. Defined.

Definition mark_at {A} (ms : Marks A) (p : Place) : option A :=
  match p with PDense i => dense ms !! i | PSparse j r => rows ← sparse_rows ms !! j; rows !! r end.

Definition mark_put {A} (ms : Marks A) (p : Place) (x : A) : Marks A :=
  match p with
  | PDense i => mkMarks (<[i := x]> (dense ms)) (sparse_rows ms)
  | PSparse j r => mkMarks (dense ms) (alter (λ rows, <[r := x]> rows) j (sparse_rows ms))
  end.

(** [Map::check_ticks]: [mapper.values().max()] is the highest row itself, and
    [Column::check_ticks] takes it as the number of rows. *)
Definition check_map_ticks (now : Tick) (rows : list Tick) : list Tick :=
  check_slice_tick (take (length rows - 1) rows) now ++ drop (length rows - 1) rows.

(** One validation pass over the schedules, resources, tables and maps. *)
Definition check_ticks_cold (now : Tick) (ms : Marks Tick) : Marks Tick :=
  mkMarks (check_slice_tick (dense ms) now) (check_map_ticks now <$> sparse_rows ms).

(** The markers a pass visits. *)
Definition visited {A} (ms : Marks A) (p : Place) : bool :=
  match p with
  | PDense _ => true
  | PSparse j r => match sparse_rows ms !! j with Some rows => bool_decide (S r < length rows)%nat | None => false end
  end.

Record Clock := mkClock {
  this_run : Z;
  last_check : Tick;
  last_run : Tick;
  markers : Marks Tick
}.

Definition Clock_new (ms : Marks Tick) : Clock :=
  mkClock 1 (Tick_new 0) (Tick_new 0) ms.

Definition World_advance_tick (w : Clock) : Tick * Clock :=
  (Tick_new (this_run w),
   mkClock (wadd32 (this_run w) 1) (last_check w) (last_run w) (markers w)).

Definition World_check_ticks (w : Clock) : option Tick * Clock :=
  let now := Tick_new (this_run w) in
  if CHECK_CYCLE <=? wsub32 (this_run w) (Tick_get (last_check w)) then
    (Some now,
     mkClock (this_run w) (last_check w) (last_run w)
       (check_ticks_cold now (markers w)))
  else (None, w).

Definition World_reset_last_run (w : Clock) : Tick * Clock :=
  let w1 := (World_check_ticks w).2 in
  let last := this_run w1 in
  let this := wadd32 last 1 in
  let w2 := mkClock this (last_check w1) (Tick_new last) (markers w1) in
  let w3 := (World_check_ticks w2).2 in
  (Tick_new this, w3).

(** ** Facts about single ticks *)

Lemma CHECK_CYCLE_eq : CHECK_CYCLE = 536870912.
Proof. reflexivity. Qed.

Lemma MAX_TICK_AGE_eq : MAX_TICK_AGE = 3221225470.
Proof. reflexivity. Qed.

(** The stamp of logical time [t]. *)
Definition stamp (t : Z) : Tick := mkTick (t mod 4294967296).

Lemma relative_to_stamp t now :
  0 <= now - t < W32 → tick_bits (Tick_relative_to (stamp now) (stamp t)) = now - t.
Proof. apply wsub32_mod. Qed.

Lemma check_slice_tick_spec this now :
  check_slice_tick this now = (λ t, Tick_check_tick t now) <$> this.
Proof. reflexivity. Qed.

Lemma check_tick_stamp t now :
  0 <= now - t < W32 →
  Tick_check_tick (stamp t) (stamp now) = stamp (Z.max t (now - MAX_TICK_AGE)).
Proof.
  intros H. unfold Tick_check_tick. rewrite relative_to_stamp by done.
  rewrite MAX_TICK_AGE_eq. destruct (Z.ltb_spec 3221225470 (now - t)).
  - rewrite Z.max_r by lia. unfold Tick_relative_to, stamp; cbn. f_equal.
    rewrite MAX_TICK_AGE_eq. width.
  - by rewrite Z.max_l by lia.
Qed.

(** A marker [m] faithfully represents the logical write time [t] when the
    clock shows [now]: it is the stamp of [t], or of a clamped time that is
    already older than the observable window. *)
Definition tracks (now t : Z) (m : Tick) : Prop :=
  ∃ t', m = stamp t' ∧ 0 <= now - t' < W32 ∧
        (t' = t ∨ (t < t' ∧ MAX_TICK_AGE <= now - t')).

Lemma tracks_age now t m :
  tracks now t m →
  Z.min (tick_bits (Tick_relative_to (stamp now) m)) MAX_TICK_AGE
  = Z.min (now - t) MAX_TICK_AGE.
Proof.
  intros (t' & -> & Ht & Hcase). rewrite relative_to_stamp by done.
  rewrite MAX_TICK_AGE_eq in *. lia.
Qed.

Lemma tracks_newer now ti tj mi mj :
  tracks now ti mi → tracks now tj mj →
  Tick_is_newer_than mi mj (stamp now)
  = bool_decide (tj < ti ∧ now - ti < MAX_TICK_AGE).
Proof.
  intros Hi%tracks_age Hj%tracks_age. unfold Tick_is_newer_than.
  assert (∀ x y, (if x <? y then x else y) = Z.min x y) as Hmin.
  { intros x y. destruct (Z.ltb_spec x y); lia. }
  rewrite !Hmin, Hi, Hj. rewrite MAX_TICK_AGE_eq in *.
  case_bool_decide; [apply Z.ltb_lt | apply Z.ltb_ge]; lia.
Qed.

(** ** Operations of the world clock in sequence *)

Inductive WorldOp :=
| OpAdvance                (* [advance_tick] *)
| OpReset                  (* [reset_last_run] *)
| OpCheck                  (* [check_ticks] *)
| OpWrite (p : Place).     (* a write stamps the marker at [p] with [this_run] *)

Definition exec_op (w : Clock) (o : WorldOp) : Clock :=
  match o with
  | OpAdvance => (World_advance_tick w).2
  | OpReset => (World_reset_last_run w).2
  | OpCheck => (World_check_ticks w).2
  | OpWrite p => mkClock (this_run w) (last_check w) (last_run w)
                   (mark_put (markers w) p (Tick_new (this_run w)))
  end.

Definition exec_ops (w : Clock) (os : list WorldOp) : Clock := foldl exec_op w os.

(** The same history on the unbounded clock: current time and true write times. *)
Definition ghost_op (g : Z * Marks Z) (o : WorldOp) : Z * Marks Z :=
  match o with
  | OpAdvance | OpReset => (g.1 + 1, g.2)
  | OpCheck => g
  | OpWrite p => (g.1, mark_put g.2 p g.1)
  end.

Definition ghost_ops (g : Z * Marks Z) (os : list WorldOp) : Z * Marks Z :=
  foldl ghost_op g os.

(** At most [2^28] clock increments between two validation calls. *)
Definition PACE : Z := 268435456.

Fixpoint paced (k : Z) (os : list WorldOp) : bool :=
  match os with
  | [] => true
  | OpAdvance :: os' => (k + 1 <=? PACE) && paced (k + 1) os'
  | OpReset :: os' | OpCheck :: os' => paced 0 os'
  | OpWrite _ :: os' => paced k os'
  end.

(** How old a stored stamp may be, [k] ticks after the last call. *)
Definition age_limit (now k : Z) : Z :=
  let w := (now - k) mod 4294967296 in
  if w <? CHECK_CYCLE then MAX_TICK_AGE + PACE + w + k else MAX_TICK_AGE + k.

Definition tracks_within (now k t : Z) (m : Tick) : Prop :=
  ∃ t', m = stamp t' ∧ 0 <= now - t' <= age_limit now k ∧
        (t' = t ∨ (t < t' ∧ MAX_TICK_AGE <= now - t')).

Definition clock_inv (k : Z) (g : Z * Marks Z) (w : Clock) : Prop :=
  0 <= k <= PACE ∧ last_check w = Tick_new 0 ∧ this_run w = g.1 mod 4294967296 ∧
  ∀ p, visited (markers w) p = true → option_Forall2 (tracks_within g.1 k) (mark_at g.2 p) (mark_at (markers w) p).

Lemma list_lookup_insert_Some_fmap {A} (l : list A) (i j : nat) x :
  <[i := x]> l !! j = if decide (i = j) then (λ _, x) <$> l !! j else l !! j.
Proof.
  case_decide as Hij; [subst j|by rewrite list_lookup_insert_ne].
  destruct (l !! i) as [y|] eqn:Hy; [rewrite list_lookup_insert_eq by (by eapply lookup_lt_Some); done|].
  apply lookup_ge_None in Hy. rewrite list_insert_ge by done. by apply lookup_ge_None.
Qed.

Lemma mark_at_put {A} (ms : Marks A) p q x :
  mark_at (mark_put ms p x) q = if decide (p = q) then (λ _, x) <$> mark_at ms q else mark_at ms q.
Proof.
  destruct p as [i|j r], q as [i'|j' r']; cbn; try by rewrite decide_False.
  - rewrite list_lookup_insert_Some_fmap. repeat case_decide; naive_solver.
  - destruct (decide (j = j')) as [->|Hj].
    + rewrite list_lookup_alter_eq. destruct (sparse_rows ms !! j') as [rows|]; cbn; [|by case_decide].
      rewrite list_lookup_insert_Some_fmap. repeat case_decide; naive_solver.
    + rewrite list_lookup_alter_ne by done. rewrite decide_False by naive_solver. done.
Qed.

(** The markers written at the given times. *)
Definition stamps (ts : Marks Z) : Marks Tick :=
  mkMarks (stamp <$> dense ts) ((λ rows : list Z, stamp <$> rows) <$> sparse_rows ts).

Lemma mark_at_stamp (ts : Marks Z) p : mark_at (stamps ts) p = stamp <$> mark_at ts p.
Proof.
  destruct p; cbn; rewrite list_lookup_fmap; [done|]. destruct (sparse_rows ts !! j); cbn; [by rewrite list_lookup_fmap|done].
Qed.

Lemma visited_put {A} (ms : Marks A) p q x : visited (mark_put ms p x) q = visited ms q.
Proof.
  destruct p as [i|j r], q as [i'|j' r']; cbn; try done. destruct (decide (j = j')) as [->|Hj].
  - rewrite list_lookup_alter_eq. destruct (sparse_rows ms !! j'); cbn; [by rewrite length_insert|done].
  - by rewrite list_lookup_alter_ne.
Qed.

Lemma check_map_length now rows : length (check_map_ticks now rows) = length rows.
Proof. unfold check_map_ticks, check_slice_tick. rewrite length_app, length_fmap, length_take, length_drop. lia. Qed.

Lemma visited_check now ms p : visited (check_ticks_cold now ms) p = visited ms p.
Proof.
  destruct p as [i|j r]; [done|]. cbn. rewrite list_lookup_fmap. destruct (sparse_rows ms !! j); cbn; [by rewrite check_map_length|done].
Qed.

Lemma mark_at_check now ms p :
  mark_at (check_ticks_cold now ms) p = (if visited ms p then λ m, Tick_check_tick m now else id) <$> mark_at ms p.
Proof.
  destruct p as [i|j r]; cbn; [by rewrite check_slice_tick_spec, list_lookup_fmap|].
  rewrite list_lookup_fmap. destruct (sparse_rows ms !! j) as [rows|]; cbn; [|done].
  unfold check_map_ticks. rewrite check_slice_tick_spec. case_bool_decide as Hr.
  - rewrite lookup_app_l by (rewrite length_fmap, length_take; lia).
    rewrite list_lookup_fmap, lookup_take_lt by lia. done.
  - rewrite lookup_app_r by (rewrite length_fmap, length_take; lia).
    rewrite length_fmap, length_take, lookup_drop, option_fmap_id. f_equal. lia.
Qed.

Ltac clock_arith :=
  unfold age_limit, PACE, stamp in *;
  rewrite ?CHECK_CYCLE_eq, ?MAX_TICK_AGE_eq in *;
  repeat match goal with
  | |- context [?a <? ?b] => destruct (Z.ltb_spec a b)
  | H : context [?a <? ?b] |- _ => destruct (Z.ltb_spec a b)
  end; mlia.

Lemma age_limit_fits now k : 0 <= k <= PACE → 0 <= age_limit now k < W32.
Proof. intros. clock_arith. Qed.

Lemma tracks_within_tracks now k t m :
  0 <= k <= PACE → tracks_within now k t m → tracks now t m.
Proof.
  intros Hk (t' & -> & Ht & Hc). exists t'. split; [done|]. split; [|done].
  pose proof (age_limit_fits now k Hk). lia.
Qed.

Lemma tracks_within_advance now k t m :
  0 <= k → k + 1 <= PACE → tracks_within now k t m → tracks_within (now + 1) (k + 1) t m.
Proof.
  intros Hk Hp (t' & -> & Ht & Hc). exists t'. split; [done|].
  split; [|lia]. unfold age_limit in *.
  replace (now + 1 - (k + 1)) with (now - k) by lia.
  repeat case_match; lia.
Qed.

Lemma tracks_within_idle now k t m :
  0 <= k <= PACE → now mod W32 < CHECK_CYCLE →
  tracks_within now k t m → tracks_within now 0 t m.
Proof.
  intros Hk Hw (t' & -> & Ht & Hc). exists t'. split; [done|]. split; [|done].
  clear Hc. clock_arith.
Qed.

Lemma tracks_within_clamp now k t m :
  0 <= k <= PACE → CHECK_CYCLE <= now mod W32 →
  tracks_within now k t m → tracks_within now 0 t (Tick_check_tick m (stamp now)).
Proof.
  intros Hk Hw (t' & -> & Ht & Hc).
  pose proof (age_limit_fits now k Hk).
  rewrite check_tick_stamp by lia.
  exists (Z.max t' (now - MAX_TICK_AGE)). split; [done|].
  unfold age_limit. rewrite Z.sub_0_r, (proj2 (Z.ltb_ge _ _) Hw).
  rewrite MAX_TICK_AGE_eq in *. lia.
Qed.

Lemma check_inv k g w :
  clock_inv k g w → clock_inv 0 g (World_check_ticks w).2.
Proof.
  intros (Hk & Hlc & Hrun & Hm). unfold World_check_ticks.
  rewrite Hlc, Hrun. cbn.
  replace (wsub32 (g.1 mod W32) 0) with (g.1 mod W32) by width.
  assert (0 <= 0 <= PACE) by (unfold PACE; lia).
  destruct (Z.leb_spec CHECK_CYCLE (g.1 mod W32)) as [Hc|Hc]; cbn.
  - split; [done|]. split; [done|]. split; [done|]. intros p Hv. cbn in Hv |- *. rewrite visited_check in Hv.
    rewrite mark_at_check, Hv. destruct (Hm p Hv) as [t m Htm|]; constructor. by apply (tracks_within_clamp _ k).
  - split; [done|]. split; [done|]. split; [done|]. intros p Hv.
    destruct (Hm p Hv) as [t m Htm|]; constructor. by apply (tracks_within_idle _ k).
Qed.

Lemma advance_inv k g w :
  k + 1 <= PACE → clock_inv k g w →
  clock_inv (k + 1) (g.1 + 1, g.2) (World_advance_tick w).2.
Proof.
  intros Hp (Hk & Hlc & Hrun & Hm). split; [lia|]. split; [done|]. split.
  - cbn. rewrite Hrun. unfold wadd32. by rewrite Zplus_mod_idemp_l.
  - intros p Hv. cbn in Hv |- *. destruct (Hm p Hv) as [t m Htm|]; constructor. apply tracks_within_advance; [lia..|done].
Qed.

Lemma write_inv k g w p :
  clock_inv k g w → clock_inv k (ghost_op g (OpWrite p)) (exec_op w (OpWrite p)).
Proof.
  intros (Hk & Hlc & Hrun & Hm). split; [done|]. split; [done|]. split; [done|]. intros q Hv. cbn in Hv |- *.
  rewrite visited_put in Hv. rewrite !mark_at_put. case_decide; [|by apply Hm].
  destruct (Hm q Hv) as [t m Htm|]; cbn; constructor. exists (g.1). rewrite Hrun.
  pose proof (age_limit_fits g.1 k Hk). split; [done|]. split; lia.
Qed.

(** The invariant carried by a paced history. *)
Lemma paced_inv os : ∀ k g w,
  paced k os = true → clock_inv k g w →
  ∃ k', clock_inv k' (ghost_ops g os) (exec_ops w os).
Proof.
  induction os as [|o os IH]; intros k g w Hp Hinv; [by exists k|].
  destruct o; cbn in *.
  - apply andb_prop in Hp as [Hle Hp]. apply Z.leb_le in Hle.
    eapply IH; [exact Hp|]. by apply advance_inv.
  - eapply IH; [exact Hp|]. unfold World_reset_last_run.
    apply check_inv in Hinv. eapply check_inv.
    refine (_ : clock_inv (0 + 1) (g.1 + 1, g.2) _).
    destruct (advance_inv 0 g (World_check_ticks w).2) as (?&?&?&?);
      [unfold PACE; lia|done|].
    split; [done|]. split; [done|]. split; [done|]. done.
  - eapply IH; [exact Hp|]. by eapply check_inv.
  - eapply IH; [exact Hp|]. by apply write_inv.
Qed.

(** ** Properties *)

(** C13: change detection is exact.  Run any sequence of clock operations
    (advancing, resetting the world baseline, validating, writing markers)
    in which validation is called at least once per [2^28] ticks, starting
    from markers written no longer than [MAX_TICK_AGE] ago.  However far the
    32-bit clock has wrapped, [is_newer_than] between any two markers that the
    passes visit answers exactly whether the first was written after the second
    and within the observable window [MAX_TICK_AGE].  Visited are the markers of
    systems, resources and tables, and the rows of a sparse map below the highest
    one in use, which [Map::check_ticks] leaves out. *)
Theorem change_detection_exact (now0 : Z) (ts0 : Marks Z) (os : list WorldOp) :
  (∀ p t, mark_at ts0 p = Some t → 0 <= now0 - t <= MAX_TICK_AGE) →
  paced 0 os = true →
  let w := exec_ops (mkClock (now0 mod 4294967296) (Tick_new 0) (Tick_new 0)
                       (stamps ts0)) os in
  let g := ghost_ops (now0, ts0) os in
  this_run w = g.1 mod 4294967296 ∧
  ∀ p q tp tq mp mq,
    visited (markers w) p = true → visited (markers w) q = true →
    mark_at g.2 p = Some tp → mark_at g.2 q = Some tq →
    mark_at (markers w) p = Some mp → mark_at (markers w) q = Some mq →
    Tick_is_newer_than mp mq (Tick_new (this_run w))
    = bool_decide (tq < tp ∧ g.1 - tp < MAX_TICK_AGE).
Proof.
  intros Hages Hp w g.
  destruct (paced_inv os 0 (now0, ts0)
    (mkClock (now0 mod 4294967296) (Tick_new 0) (Tick_new 0) (stamps ts0)))
    as (k' & Hk & _ & Hrun & Hm); [done| |].
  { split; [unfold PACE; lia|]. split; [done|]. split; [done|]. cbn. intros p _. rewrite mark_at_stamp.
    destruct (mark_at ts0 p) as [t|] eqn:Ht; constructor. apply Hages in Ht.
    exists t. split; [done|]. split; [|by left]. unfold age_limit. repeat case_match; unfold PACE; mlia. }
  split; [done|]. intros p q tp tq mp mq Hvp Hvq Htp Htq Hmp Hmq.
  change (exec_ops _ os) with w in Hm, Hrun. change (ghost_ops _ os) with g in Hm, Hrun, Hk.
  change (Tick_new (this_run w)) with (mkTick (this_run w)). rewrite Hrun.
  apply Hm in Hvp, Hvq. rewrite Htp, Hmp in Hvp. rewrite Htq, Hmq in Hvq. inversion Hvp; inversion Hvq; subst.
  apply tracks_newer; by eapply tracks_within_tracks.
Qed.

Lemma change_detection_exact_witness :
  let w := exec_ops (mkClock 4294967295 (Tick_new 0) (Tick_new 0)
                       (mkMarks [stamp 4294967290] [[stamp 4294967294; stamp 4294967294]]))
             [OpAdvance; OpReset; OpWrite (PDense 0); OpAdvance; OpCheck] in
  Tick_is_newer_than (default (stamp 0) (mark_at (markers w) (PDense 0)))
    (default (stamp 0) (mark_at (markers w) (PSparse 0 0))) (Tick_new (this_run w)) = true.
Proof.
  pose proof (change_detection_exact 4294967295 (mkMarks [4294967290] [[4294967294; 4294967294]])
    [OpAdvance; OpReset; OpWrite (PDense 0); OpAdvance; OpCheck]) as H.
  destruct H as [_ H].
  - intros [[|i]|[|j] [|[|r]]] t Ht; cbn in Ht; try discriminate Ht; injection Ht as <-; split; vm_compute; discriminate.
  - reflexivity.
  - specialize (H (PDense 0) (PSparse 0 0) _ _ _ _ eq_refl eq_refl eq_refl eq_refl eq_refl eq_refl).
    vm_compute in H |- *. reflexivity.
Defined.

(** validating a marker never changes an answer of change detection at
    that moment, and leaves its age within [MAX_TICK_AGE]. *)
Theorem check_tick_transparent (m other now : Tick) :
  is_u32 (tick_bits m) → is_u32 (tick_bits now) →
  Tick_is_newer_than (Tick_check_tick m now) other now
  = Tick_is_newer_than m other now ∧
  tick_bits (Tick_relative_to now (Tick_check_tick m now)) <= MAX_TICK_AGE.
Proof.
  intros Hm Hn. unfold Tick_check_tick, Tick_is_newer_than, Tick_relative_to; cbn.
  destruct (Z.ltb_spec MAX_TICK_AGE (wsub32 (tick_bits now) (tick_bits m))); cbn;
    [|done].
  replace (wsub32 (tick_bits now) (wsub32 (tick_bits now) MAX_TICK_AGE))
    with MAX_TICK_AGE.
  2: { rewrite MAX_TICK_AGE_eq in *. width. }
  split; [|done]. rewrite Z.ltb_irrefl.
  by rewrite (proj2 (Z.ltb_ge (wsub32 (tick_bits now) (tick_bits m)) MAX_TICK_AGE)) by lia.
Qed.

Lemma check_tick_transparent_witness :
  Tick_is_newer_than (Tick_check_tick (mkTick 5) (mkTick 4000000000))
    (mkTick 7) (mkTick 4000000000) = false.
Proof.
  rewrite (proj1 (check_tick_transparent (mkTick 5) (mkTick 7) (mkTick 4000000000)
    ltac:(split; vm_compute; congruence) ltac:(split; vm_compute; congruence))).
  reflexivity.
Defined.

Lemma exec_op_last_check w o : last_check (exec_op w o) = last_check w.
Proof.
  destruct o; unfold exec_op, World_reset_last_run, World_check_ticks;
    cbn; repeat case_match; done.
Qed.

Lemma exec_ops_last_check w os : last_check (exec_ops w os) = last_check w.
Proof.
  revert w. induction os as [|o os IH]; intros w; [done|].
  cbn. unfold exec_ops in IH. by rewrite IH, exec_op_last_check.
Qed.

Lemma check_ticks_fires w :
  last_check w = Tick_new 0 → CHECK_CYCLE <= this_run w < 4294967296 →
  World_check_ticks w
  = (Some (Tick_new (this_run w)),
     mkClock (this_run w) (last_check w) (last_run w)
       (check_ticks_cold (Tick_new (this_run w)) (markers w))).
Proof.
  intros Hlc Hw. unfold World_check_ticks. rewrite Hlc.
  replace (wsub32 (this_run w) (Tick_get (Tick_new 0))) with (this_run w)
    by (cbn; rewrite CHECK_CYCLE_eq in *; width).
  by rewrite (proj2 (Z.leb_le _ _) (proj1 Hw)).
Qed.

(** the validation throttle does not throttle.  [last_check] keeps its
    initial value in every history, so once the clock has reached
    [CHECK_CYCLE] (and until it wraps) every call of [check_ticks] runs a full
    pass, also immediately after another one. *)
Theorem check_ticks_repeats (n : Z) (last : Tick) (ms : Marks Tick) (os : list WorldOp) :
  let w := exec_ops (mkClock n (Tick_new 0) last ms) os in
  CHECK_CYCLE <= this_run w < 4294967296 →
  (World_check_ticks w).1 = Some (Tick_new (this_run w)) ∧
  (World_check_ticks (World_check_ticks w).2).1 = Some (Tick_new (this_run w)).
Proof.
  intros w Hw.
  assert (Hlc : last_check w = Tick_new 0) by apply exec_ops_last_check.
  rewrite (check_ticks_fires w Hlc Hw). split; [done|].
  by rewrite check_ticks_fires by done.
Qed.

Lemma check_ticks_repeats_witness :
  (World_check_ticks (World_check_ticks
     (exec_ops (mkClock 536870912 (Tick_new 0) (Tick_new 3) (mkMarks [Tick_new 9] [])) [OpReset])).2).1
  = Some (Tick_new 536870913).
Proof.
  apply (check_ticks_repeats 536870912 (Tick_new 3) (mkMarks [Tick_new 9] []) [OpReset]).
  split; vm_compute; congruence.
Defined.
