(* ===== verification/EntityIdent.v ===== *)
(** * Entity identifiers

    [crates/voker-ecs/src/entity/ident.rs]: the non-zero row identifier
    [EntityId], the wrapping generation [EntityTag], and the packed [Entity]
    with its 64-bit representation. *)

From Stdlib Require Import ZArith Lia.
From S2P Require Import Prelude.

Local Open Scope Z_scope.

(** ** EntityId *)

Record EntityId := mkEntityId { id_bits : Z }.

#[global] Instance EntityId_eq_dec : EqDecision EntityId.
Proof. solve_decision. Defined.

#[global] Instance EntityId_countable : Countable EntityId.
Proof.
  apply (inj_countable' id_bits mkEntityId). by intros [].
Defined.

(** The invariant of [NonZeroU32]. *)
Definition EntityId_valid (i : EntityId) : Prop := 0 < id_bits i < 4294967296.

Definition EntityId_to_bits (self : EntityId) : Z := id_bits self.

Definition EntityId_without_provenance (id : Z) : outcome EntityId :=
  if (id =? 0) || (u32_max <? id) then Panic else Ret (mkEntityId id).

Definition EntityId_index (self : EntityId) : nat := Z.to_nat (EntityId_to_bits self).

(** ** EntityTag *)

Record EntityTag := mkEntityTag { tag_bits : Z }.

#[global] Instance EntityTag_eq_dec : EqDecision EntityTag.
Proof. solve_decision. Defined.

#[global] Instance EntityTag_countable : Countable EntityTag.
Proof.
  apply (inj_countable' tag_bits mkEntityTag). by intros [].
Defined.

Definition EntityTag_FIRST : EntityTag := mkEntityTag 0.

Definition EntityTag_wrapping_add (self : EntityTag) (versions : Z) : EntityTag :=
  mkEntityTag (wadd32 (tag_bits self) versions).

(** [overflowing_add]: the wrapped sum and whether it overflowed. *)
Definition EntityTag_checked_add (self : EntityTag) (versions : Z) : EntityTag * bool :=
  (mkEntityTag (wadd32 (tag_bits self) versions),
   u32_max <? tag_bits self + versions).

Definition EntityTag_cmp (self other : EntityTag) : comparison :=
  let DIFF_MAX := Z.shiftr u32_max 1 in
  let d := wsub32 (tag_bits self) (tag_bits other) in
  if d =? 0 then Eq
  else if (1 <=? d) && (d <? DIFF_MAX) then Gt
  else Lt.

(** ** Entity *)

Record Entity := mkEntity { ent_id : EntityId; ent_tag : EntityTag }.

#[global] Instance Entity_eq_dec : EqDecision Entity.
Proof. solve_decision. Defined.

#[global] Instance Entity_countable : Countable Entity.
Proof.
  apply (inj_countable' (λ e, (ent_id e, ent_tag e)) (λ p, mkEntity p.1 p.2)).
  by intros [].
Defined.

Definition Entity_valid (e : Entity) : Prop :=
  EntityId_valid (ent_id e) ∧ is_u32 (tag_bits (ent_tag e)).

Definition Entity_new (id : EntityId) (tag : EntityTag) : Entity := mkEntity id tag.

Definition Entity_index (self : Entity) : nat := EntityId_index (ent_id self).

(** [#[repr(C, align(8))]] lays the fields out in declaration order, and the
    declaration order depends on the target: two 32-bit words in memory. *)
Inductive endian := LittleEndian | BigEndian.

Definition Entity_words (t : endian) (self : Entity) : Z * Z :=
  match t with
  | LittleEndian => (id_bits (ent_id self), tag_bits (ent_tag self))
  | BigEndian => (tag_bits (ent_tag self), id_bits (ent_id self))
  end.

Definition words_to_u64 (t : endian) (w : Z * Z) : Z :=
  match t with
  | LittleEndian => Z.lor w.1 (Z.shiftl w.2 32)
  | BigEndian => Z.lor (Z.shiftl w.1 32) w.2
  end.

Definition u64_to_words (t : endian) (bits : Z) : Z * Z :=
  let low := Z.land bits u32_max in
  let high := Z.shiftr bits 32 in
  match t with
  | LittleEndian => (low, high)
  | BigEndian => (high, low)
  end.

Definition Entity_of_words (t : endian) (w : Z * Z) : Entity :=
  match t with
  | LittleEndian => mkEntity (mkEntityId w.1) (mkEntityTag w.2)
  | BigEndian => mkEntity (mkEntityId w.2) (mkEntityTag w.1)
  end.

Definition Entity_to_bits (t : endian) (self : Entity) : Z :=
  words_to_u64 t (Entity_words t self).

Definition Entity_from_bits_unchecked (t : endian) (bits : Z) : Entity :=
  Entity_of_words t (u64_to_words t bits).

Definition Entity_from_bits (t : endian) (bits : Z) : outcome Entity :=
  let entity := Entity_from_bits_unchecked t bits in
  if id_bits (ent_id entity) =? 0 then Panic else Ret entity.

Definition Entity_PLACEHOLDER : Entity := Entity_from_bits_unchecked LittleEndian u64_max.

Definition Entity_eqb (t : endian) (self other : Entity) : bool :=
  Entity_to_bits t self =? Entity_to_bits t other.

Definition Entity_cmp (t : endian) (self other : Entity) : comparison :=
  Entity_to_bits t self ?= Entity_to_bits t other.

(** [Serialize] writes the bits; [Deserialize] rejects a zero identifier. *)
Definition Entity_serialize (t : endian) (self : Entity) : Z := Entity_to_bits t self.

Definition Entity_deserialize (t : endian) (bits : Z) : Result Entity unit :=
  let entity := Entity_from_bits_unchecked t bits in
  if negb (id_bits (ent_id entity) =? 0) then Ok entity else Err tt.

(** ** Lemmas *)

Lemma Entity_to_bits_arith t e :
  Entity_valid e →
  Entity_to_bits t e = id_bits (ent_id e) + tag_bits (ent_tag e) * 4294967296.
Proof.
  intros [Hi Ht]. unfold EntityId_valid in Hi.
  destruct t; cbn; [|rewrite Z.lor_comm]; apply lor_shiftl32; red; lia.
Qed.

Lemma from_bits_unchecked_arith t bits :
  is_u64 bits →
  Entity_from_bits_unchecked t bits
  = mkEntity (mkEntityId (bits mod 4294967296)) (mkEntityTag (bits / 4294967296)).
Proof.
  intros Hb. assert (Z.land bits u32_max = bits mod 4294967296) as H1.
  { change u32_max with (Z.ones 32). by rewrite Z.land_ones by lia. }
  assert (Z.shiftr bits 32 = bits / 4294967296) as H2.
  { by rewrite Z.shiftr_div_pow2 by lia. }
  destruct t; cbn; by rewrite H1, H2.
Qed.

Lemma Entity_ext e1 e2 :
  id_bits (ent_id e1) = id_bits (ent_id e2) →
  tag_bits (ent_tag e1) = tag_bits (ent_tag e2) → e1 = e2.
Proof. destruct e1 as [[] []], e2 as [[] []]; cbn. by intros -> ->. Qed.

Lemma Entity_to_bits_inj t e1 e2 :
  Entity_valid e1 → Entity_valid e2 →
  Entity_to_bits t e1 = Entity_to_bits t e2 → e1 = e2.
Proof.
  intros H1 H2. rewrite !Entity_to_bits_arith by done.
  destruct H1 as [Hi1 Ht1], H2 as [Hi2 Ht2]. unfold EntityId_valid, is_u32 in *.
  intros H. apply Entity_ext; lia.
Qed.

(** ** Properties *)

(** the packed representation is a bijection between valid entities and
    the 64-bit words with a non-zero low half, and the same on little- and
    big-endian targets; [from_bits] panics and [Deserialize] fails exactly on
    the words with a zero low half. *)
Theorem Entity_bits_roundtrip (t t' : endian) (e : Entity) (bits : Z) :
  Entity_valid e → is_u64 bits →
  Entity_from_bits t (Entity_to_bits t' e) = Ret e ∧
  Entity_deserialize t (Entity_serialize t' e) = Ok e ∧
  (if bits mod 4294967296 =? 0
   then Entity_from_bits t bits = Panic ∧ Entity_deserialize t bits = Err tt
   else ∃ e', Entity_from_bits t bits = Ret e' ∧ Entity_deserialize t bits = Ok e' ∧
              Entity_valid e' ∧ Entity_to_bits t' e' = bits).
Proof.
  intros He Hb. pose proof He as [Hi Ht]. unfold EntityId_valid in Hi.
  unfold Entity_from_bits, Entity_deserialize, Entity_serialize.
  assert (is_u64 (Entity_to_bits t' e)) as Hu.
  { rewrite Entity_to_bits_arith by done. width. }
  assert (Entity_from_bits_unchecked t (Entity_to_bits t' e) = e) as ->.
  { rewrite from_bits_unchecked_arith, Entity_to_bits_arith by done.
    apply Entity_ext; cbn; width. }
  rewrite (proj2 (Z.eqb_neq _ _) (ltac:(lia) : id_bits (ent_id e) ≠ 0)).
  split; [done|]. split; [done|].
  rewrite from_bits_unchecked_arith by done. cbn.
  destruct (Z.eqb_spec (bits mod 4294967296) 0); [done|].
  eexists. split; [done|]. split; [done|].
  assert (Entity_valid (mkEntity (mkEntityId (bits mod 4294967296))
    (mkEntityTag (bits / 4294967296)))) as Hv.
  { split; [red; cbn; mlia|cbn; width]. }
  split; [done|]. rewrite Entity_to_bits_arith by done. cbn. mlia.
Qed.

Lemma Entity_bits_roundtrip_witness :
  Entity_from_bits BigEndian
    (Entity_to_bits LittleEndian (mkEntity (mkEntityId 20260101) (mkEntityTag 7)))
  = Ret (mkEntity (mkEntityId 20260101) (mkEntityTag 7)).
Proof.
  refine (proj1 (Entity_bits_roundtrip BigEndian LittleEndian
    (mkEntity (mkEntityId 20260101) (mkEntityTag 7)) 5 _ _)).
  - split; split; vm_compute; congruence.
  - split; vm_compute; congruence.
Defined.

(** The order the engine uses on entities: generation first, then row. *)
Lemma Entity_cmp_lex t e1 e2 :
  Entity_valid e1 → Entity_valid e2 →
  Entity_cmp t e1 e2
  = match tag_bits (ent_tag e1) ?= tag_bits (ent_tag e2) with
    | Eq => id_bits (ent_id e1) ?= id_bits (ent_id e2)
    | c => c
    end.
Proof.
  intros H1 H2. unfold Entity_cmp. rewrite !Entity_to_bits_arith by done.
  destruct H1 as [Hi1 Ht1], H2 as [Hi2 Ht2]. unfold EntityId_valid, is_u32 in *.
  destruct (Z.compare_spec (tag_bits (ent_tag e1)) (tag_bits (ent_tag e2)));
    [destruct (Z.compare_spec (id_bits (ent_id e1)) (id_bits (ent_id e2)))| |];
    rewrite ?Z.compare_eq_iff, ?Z.compare_lt_iff, ?Z.compare_gt_iff; nia.
Qed.

(** [PartialEq] and [Ord] on entities: comparing the packed words is
    equality of entities and the lexicographic order on generation and row,
    on either target. *)
Theorem Entity_order (t : endian) (e1 e2 : Entity) :
  Entity_valid e1 → Entity_valid e2 →
  (Entity_eqb t e1 e2 = true ↔ e1 = e2) ∧
  (Entity_cmp t e1 e2 = Eq ↔ e1 = e2) ∧
  Entity_cmp t e1 e2
  = match tag_bits (ent_tag e1) ?= tag_bits (ent_tag e2) with
    | Eq => id_bits (ent_id e1) ?= id_bits (ent_id e2)
    | c => c
    end.
Proof.
  intros H1 H2. unfold Entity_eqb. rewrite Z.eqb_eq. split.
  { split; [by apply Entity_to_bits_inj|congruence]. }
  split; [|by apply Entity_cmp_lex].
  unfold Entity_cmp. rewrite Z.compare_eq_iff.
  split; [by apply Entity_to_bits_inj|congruence].
Qed.

Lemma Entity_order_witness :
  Entity_cmp LittleEndian (mkEntity (mkEntityId 9) (mkEntityTag 1))
    (mkEntity (mkEntityId 3) (mkEntityTag 2)) = Lt.
Proof.
  rewrite (proj2 (proj2 (Entity_order LittleEndian (mkEntity (mkEntityId 9) (mkEntityTag 1))
    (mkEntity (mkEntityId 3) (mkEntityTag 2))
    ltac:(split; split; vm_compute; congruence) ltac:(split; split; vm_compute; congruence)))).
  reflexivity.
Defined.

(** wrapping order of generations.  A generation advanced by fewer than
    [2^31 - 1] steps compares as later, and the old one as earlier, across
    the 32-bit wrap.  At a distance of exactly [2^31 - 1] the order loses
    antisymmetry: each of the two compares as earlier than the other. *)
Theorem EntityTag_cmp_wrapping (a : EntityTag) (d : Z) :
  is_u32 (tag_bits a) → 0 < d < 2147483648 →
  let b := EntityTag_wrapping_add a d in
  EntityTag_cmp a b = Lt ∧
  EntityTag_cmp b a = if d =? 2147483647 then Lt else Gt.
Proof.
  intros Ha Hd b. unfold EntityTag_cmp, b, EntityTag_wrapping_add; cbn [tag_bits].
  change (Z.shiftr u32_max 1) with 2147483647.
  assert (wsub32 (wadd32 (tag_bits a) d) (tag_bits a) = d) as -> by width.
  assert (wsub32 (tag_bits a) (wadd32 (tag_bits a) d) = 4294967296 - d) as -> by width.
  repeat match goal with |- context [?x =? ?y] => destruct (Z.eqb_spec x y); try lia end;
  repeat match goal with |- context [?x <=? ?y] => destruct (Z.leb_spec x y); try lia end;
  repeat match goal with |- context [?x <? ?y] => destruct (Z.ltb_spec x y); try lia end; done.
Qed.

Lemma EntityTag_cmp_wrapping_witness :
  EntityTag_cmp (mkEntityTag 4294967290) (mkEntityTag 4) = Lt ∧
  EntityTag_cmp (mkEntityTag 4) (mkEntityTag 4294967290) = Gt ∧
  EntityTag_cmp (mkEntityTag 2147483647) (mkEntityTag 0) = Lt.
Proof.
  pose proof (EntityTag_cmp_wrapping (mkEntityTag 4294967290) 10
    ltac:(split; vm_compute; congruence) ltac:(lia)) as H1.
  pose proof (EntityTag_cmp_wrapping (mkEntityTag 0) 2147483647
    ltac:(split; vm_compute; congruence) ltac:(lia)) as H2.
  vm_compute in H1, H2 |- *. tauto.
Defined.
