(* ===== verification/EntityInfo.v ===== *)
(** * Entity locations

    [crates/voker-ecs/src/entity/info.rs] with the error types of
    [entity/error.rs]: the table [Entities] that records, per row identifier,
    the current generation and the storage location of the live entity. *)

From Stdlib Require Import ZArith Lia.
From S2P Require Import Prelude EntityIdent.

Local Open Scope Z_scope.

(** ** Data *)

Record EntityLocation := mkLoc {
  arche_id : Z; table_id : Z; arche_row : Z; table_row : Z
}.

Record EntityInfo := mkInfo { info_tag : EntityTag; info_location : option EntityLocation }.

Definition DEFAULT_INFO : EntityInfo := mkInfo EntityTag_FIRST None.

Record Entities := mkEntities { infos : list EntityInfo }.

Inductive FetchError :=
| FetchError_NotFound (id : EntityId)
| FetchError_NotSpawned (e : Entity)
| FetchError_Mismatch (expect actual : Entity).

Inductive MoveError :=
| MoveError_NotFound (id : EntityId)
| MoveError_NotSpawned (e : Entity)
| MoveError_Mismatch (expect actual : Entity).

Inductive DespawnError :=
| DespawnError_NotFound (id : EntityId)
| DespawnError_NotSpawned (e : Entity)
| DespawnError_Mismatch (expect actual : Entity).

Inductive SpawnError :=
| SpawnError_NotFound (id : EntityId)
| SpawnError_AlreadySpawned (e : Entity)
| SpawnError_Mismatch (expect actual : Entity).

Definition DespawnError_from (value : FetchError) : DespawnError :=
  match value with
  | FetchError_NotFound id => DespawnError_NotFound id
  | FetchError_NotSpawned e => DespawnError_NotSpawned e
  | FetchError_Mismatch expect actual => DespawnError_Mismatch expect actual
  end.

Definition MoveError_from (value : FetchError) : MoveError :=
  match value with
  | FetchError_NotFound id => MoveError_NotFound id
  | FetchError_NotSpawned e => MoveError_NotSpawned e
  | FetchError_Mismatch expect actual => MoveError_Mismatch expect actual
  end.

Inductive Row := Row_Arche (r : Z) | Row_Table (r : Z).

Record MovedEntityRow := mkMoved { moved_entity : option Entity; new_row : Row }.

Definition MovedEntityRow_in_table (e : option Entity) (row : Z) : MovedEntityRow :=
  mkMoved e (Row_Table row).

Definition MovedEntityRow_in_arche (e : option Entity) (row : Z) : MovedEntityRow :=
  mkMoved e (Row_Arche row).

(** ** Growth of a [Vec]

    [Vec::reserve] promises only that the capacity afterwards is at least the
    length plus the request; how much it over-allocates is a parameter. *)
Class VecGrowth := {
  grown_capacity : nat → nat → nat;
  grown_capacity_ge : ∀ len additional, (len + additional ≤ grown_capacity len additional)%nat
}.

(** An amortised doubling policy, for evaluating the model. *)
Definition doubling : VecGrowth.
Proof.
  refine {| grown_capacity := λ len additional,
    Nat.max (len + additional) (Nat.max (2 * len) 4) |}.
  intros. lia.
Defined.

(** ** Operations *)

Section Entities.
Context `{VecGrowth}.

Definition Entities_new : Entities := mkEntities [].

Definition Entities_count_spawned (self : Entities) : nat :=
  length (filter (λ info, is_Some (info_location info)) (infos self)).

Definition Entities_resolve (self : Entities) (id : EntityId) : Entity :=
  let info := default DEFAULT_INFO (infos self !! EntityId_index id) in
  Entity_new id (info_tag info).

Definition Entities_try_locate (self : Entities) (entity : Entity)
    : Result (option EntityLocation) FetchError :=
  let info := default DEFAULT_INFO (infos self !! Entity_index entity) in
  if decide (info_tag info = ent_tag entity) then Ok (info_location info)
  else Err (FetchError_Mismatch entity (Entity_new (ent_id entity) (info_tag info))).

Definition Entities_locate (self : Entities) (entity : Entity)
    : Result EntityLocation FetchError :=
  match infos self !! Entity_index entity with
  | None => Err (FetchError_NotFound (ent_id entity))
  | Some info =>
      if decide (info_tag info = ent_tag entity) then
        match info_location info with
        | Some loc => Ok loc
        | None => Err (FetchError_NotSpawned entity)
        end
      else Err (FetchError_Mismatch entity (Entity_new (ent_id entity) (info_tag info)))
  end.

(** [resize]: reserve for [len] slots, then fill the whole capacity. *)
Definition Entities_resize (self : Entities) (len : nat) : Entities :=
  let old := length (infos self) in
  let capacity := grown_capacity old (len - old) in
  mkEntities (infos self ++ replicate (capacity - old) DEFAULT_INFO).

Definition Entities_free (self : Entities) (id : EntityId) (version : Z)
    : outcome (Entity * Entities) :=
  let index := EntityId_index id in
  let self1 :=
    if decide (length (infos self) ≤ index)%nat
    then Entities_resize self (index + 1) else self in
  info ← of_option (infos self1 !! index);
  let '(new_tag, wrapping) := EntityTag_checked_add (info_tag info) version in
  Ret (Entity_new id new_tag,
       mkEntities (<[index := mkInfo new_tag (info_location info)]> (infos self1))).

Definition Entities_can_spawn (self : Entities) (entity : Entity) : Result unit SpawnError :=
  let info := default DEFAULT_INFO (infos self !! Entity_index entity) in
  match info_location info with
  | Some _ => Err (SpawnError_AlreadySpawned entity)
  | None =>
      if decide (info_tag info = ent_tag entity) then Ok tt
      else Err (SpawnError_Mismatch entity (Entity_new (ent_id entity) (info_tag info)))
  end.

Definition Entities_set_spawned (self : Entities) (entity : Entity) (location : EntityLocation)
    : outcome (Result unit SpawnError * Entities) :=
  let index := Entity_index entity in
  self1 ←
    (if decide (length (infos self) ≤ index)%nat then
       let grown := Entities_resize self (index + 1) in
       info ← of_option (infos grown !! index);
       Ret (mkEntities (<[index := mkInfo (ent_tag entity) (info_location info)]> (infos grown)))
     else Ret self);
  info ← of_option (infos self1 !! index);
  if decide (info_tag info = ent_tag entity) then
    match info_location info with
    | Some _ => Ret (Err (SpawnError_AlreadySpawned entity), self1)
    | None =>
        Ret (Ok tt,
             mkEntities (<[index := mkInfo (info_tag info) (Some location)]> (infos self1)))
    end
  else Ret (Err (SpawnError_Mismatch entity (Entity_new (ent_id entity) (info_tag info))), self1).

Definition Entities_set_despawned (self : Entities) (entity : Entity)
    : Result EntityLocation DespawnError * Entities :=
  let index := Entity_index entity in
  match infos self !! index with
  | None => (Err (DespawnError_NotFound (ent_id entity)), self)
  | Some info =>
      if decide (info_tag info = ent_tag entity) then
        (* [take] empties the slot whether or not it was occupied *)
        let self1 := mkEntities (<[index := mkInfo (info_tag info) None]> (infos self)) in
        match info_location info with
        | Some loc => (Ok loc, self1)
        | None => (Err (DespawnError_NotSpawned entity), self1)
        end
      else (Err (DespawnError_Mismatch entity (Entity_new (ent_id entity) (info_tag info))), self)
  end.

Definition Entities_update_location (self : Entities) (entity : Entity)
    (location : EntityLocation) : Result unit MoveError * Entities :=
  let index := Entity_index entity in
  match infos self !! index with
  | None => (Err (MoveError_NotFound (ent_id entity)), self)
  | Some info =>
      if decide (info_tag info = ent_tag entity) then
        match info_location info with
        | None => (Err (MoveError_NotSpawned entity), self)
        | Some _ =>
            (Ok tt, mkEntities (<[index := mkInfo (info_tag info) (Some location)]> (infos self)))
        end
      else (Err (MoveError_Mismatch entity (Entity_new (ent_id entity) (info_tag info))), self)
  end.

Definition Entities_update_row (self : Entities) (moved : MovedEntityRow)
    : Result unit MoveError * Entities :=
  match moved_entity moved with
  | None => (Ok tt, self)
  | Some entity =>
      let index := Entity_index entity in
      match infos self !! index with
      | None => (Err (MoveError_NotFound (ent_id entity)), self)
      | Some info =>
          if decide (info_tag info = ent_tag entity) then
            match info_location info with
            | None => (Err (MoveError_NotSpawned entity), self)
            | Some l =>
                let l' := match new_row moved with
                          | Row_Arche r => mkLoc (arche_id l) (table_id l) r (table_row l)
                          | Row_Table r => mkLoc (arche_id l) (table_id l) (arche_row l) r
                          end in
                (Ok tt, mkEntities (<[index := mkInfo (info_tag info) (Some l')]> (infos self)))
            end
          else (Err (MoveError_Mismatch entity (Entity_new (ent_id entity) (info_tag info))), self)
      end
  end.

(** [iter]: one step of the [filter_map], then the whole traversal. *)
Definition Entities_iter_item (idx : nat) (info : EntityInfo)
    : outcome (option (Entity * EntityLocation)) :=
  match info_location info with
  | Some location =>
      temp ← Entity_from_bits LittleEndian (Z.of_nat idx);
      Ret (Some (Entity_new (ent_id temp) (info_tag info), location))
  | None => Ret None
  end.

Fixpoint Entities_iter_from (idx : nat) (l : list EntityInfo)
    : outcome (list (Entity * EntityLocation)) :=
  match l with
  | [] => Ret []
  | info :: l' =>
      item ← Entities_iter_item idx info;
      rest ← Entities_iter_from (S idx) l';
      Ret (match item with Some x => x :: rest | None => rest end)
  end.

Definition Entities_iter (self : Entities) : outcome (list (Entity * EntityLocation)) :=
  Entities_iter_from 0 (infos self).

(** ** The slot of an identifier

    What every operation reads: the record of a slot, the default one past
    the end of the vector. *)
Definition slot (self : Entities) (i : nat) : EntityInfo := default DEFAULT_INFO (infos self !! i).

Lemma slot_in self i info : infos self !! i = Some info → slot self i = info.
Proof. unfold slot. by intros ->. Qed.

Lemma slot_insert l i x j :
  (i < length l)%nat →
  slot (mkEntities (<[i := x]> l)) j = if decide (i = j) then x else slot (mkEntities l) j.
Proof.
  intros Hi. unfold slot; cbn. destruct (decide (i = j)) as [->|Hne].
  - by rewrite list_lookup_insert_eq.
  - by rewrite list_lookup_insert_ne.
Qed.

Lemma resize_length self n :
  (length (infos self) ≤ n)%nat → (n ≤ length (infos (Entities_resize self n)))%nat.
Proof.
  intros Hn. cbn. rewrite length_app, length_replicate.
  pose proof (grown_capacity_ge (length (infos self)) (n - length (infos self))). lia.
Qed.

Lemma slot_resize self n j : slot (Entities_resize self n) j = slot self j.
Proof.
  unfold slot, Entities_resize; cbn.
  destruct (decide (j < length (infos self))%nat).
  - by rewrite lookup_app_l.
  - rewrite lookup_app_r by lia. rewrite (lookup_ge_None_2 (infos self) j) by lia.
    destruct (replicate _ _ !! _) eqn:E; [|done].
    apply lookup_replicate in E as [-> _]. done.
Qed.

(** The vector after making room for [index], as [free] and [set_spawned] do. *)
Definition ensure (self : Entities) (index : nat) : Entities :=
  if decide (length (infos self) ≤ index)%nat then Entities_resize self (index + 1) else self.

Lemma ensure_lookup self i : infos (ensure self i) !! i = Some (slot self i).
Proof.
  assert (i < length (infos (ensure self i)))%nat as Hlt.
  { unfold ensure. case_decide; [|lia].
    pose proof (resize_length self (i + 1)). lia. }
  destruct (lookup_lt_is_Some_2 _ _ Hlt) as [x Hx].
  rewrite Hx. f_equal. apply slot_in in Hx. rewrite <- Hx.
  unfold ensure. case_decide; [apply slot_resize|done].
Qed.

Lemma slot_ensure self i j : slot (ensure self i) j = slot self j.
Proof. unfold ensure. case_decide; [apply slot_resize|done]. Qed.

Lemma ensure_eta self i :
  ensure self i = mkEntities (infos (ensure self i)).
Proof. by destruct (ensure self i). Qed.

Lemma slot_update self i x j :
  slot (mkEntities (<[i := x]> (infos (ensure self i)))) j
  = if decide (i = j) then x else slot self j.
Proof.
  rewrite slot_insert by (eapply lookup_lt_Some, ensure_lookup).
  rewrite <- ensure_eta. by rewrite slot_ensure.
Qed.

Lemma slot_update_in self i x j info :
  infos self !! i = Some info →
  slot (mkEntities (<[i := x]> (infos self))) j = if decide (i = j) then x else slot self j.
Proof.
  intros Hi%lookup_lt_Some. rewrite slot_insert by done. by destruct self.
Qed.

Lemma free_spec self id v :
  let i := EntityId_index id in
  let tag' := EntityTag_wrapping_add (info_tag (slot self i)) v in
  ∃ self', Entities_free self id v = Ret (Entity_new id tag', self') ∧
    (i < length (infos self'))%nat ∧
    ∀ j, slot self' j
         = if decide (i = j) then mkInfo tag' (info_location (slot self i)) else slot self j.
Proof.
  intros i tag'. unfold Entities_free. fold i. fold (ensure self i).
  rewrite ensure_lookup. cbn. eexists. split; [done|]. split.
  - cbn. rewrite length_insert. eapply lookup_lt_Some, ensure_lookup.
  - intros j. by rewrite slot_update.
Qed.

(** A spawn into a slot that exists. *)
Lemma set_spawned_in self e loc info :
  infos self !! Entity_index e = Some info →
  Entities_set_spawned self e loc
  = Ret (if decide (info_tag info = ent_tag e) then
           match info_location info with
           | Some _ => (Err (SpawnError_AlreadySpawned e), self)
           | None => (Ok tt, mkEntities (<[Entity_index e :=
                        mkInfo (info_tag info) (Some loc)]> (infos self)))
           end
         else (Err (SpawnError_Mismatch e (Entity_new (ent_id e) (info_tag info))), self)).
Proof.
  intros Hi. unfold Entities_set_spawned.
  rewrite decide_False by (apply lookup_lt_Some in Hi; lia). cbn. rewrite Hi. cbn.
  by repeat case_match.
Qed.

(** A spawn past the end of the vector grows it and adopts the tag. *)
Lemma set_spawned_out self e loc :
  infos self !! Entity_index e = None →
  ∃ self', Entities_set_spawned self e loc = Ret (Ok tt, self') ∧
    (Entity_index e < length (infos self'))%nat ∧
    ∀ j, slot self' j = if decide (Entity_index e = j)
                        then mkInfo (ent_tag e) (Some loc) else slot self j.
Proof.
  intros Hn. assert (length (infos self) ≤ Entity_index e)%nat as Hlen
    by by apply lookup_ge_None.
  pose proof (ensure_lookup self (Entity_index e)) as He.
  pose proof (lookup_lt_Some _ _ _ He) as Hlt.
  unfold Entities_set_spawned. rewrite decide_True by done.
  replace (Entities_resize self (Entity_index e + 1)) with (ensure self (Entity_index e))
    by (unfold ensure; by rewrite decide_True by done).
  rewrite He. cbn. rewrite list_lookup_insert_eq by done. cbn.
  rewrite decide_True by done.
  assert (info_location (slot self (Entity_index e)) = None) as ->.
  { unfold slot. by rewrite Hn. }
  rewrite list_insert_insert_eq.
  eexists. split; [done|]. split; [by cbn; rewrite length_insert|].
  intros j. apply slot_update.
Qed.

(** ** Well-formedness *)

(** Row 0 is never live, live rows are 32-bit identifiers, and generations
    are 32-bit. *)
Definition Entities_wf (self : Entities) : Prop :=
  (∀ i, is_Some (info_location (slot self i)) → 0 < Z.of_nat i < 4294967296) ∧
  (∀ i, is_u32 (tag_bits (info_tag (slot self i)))).

Lemma valid_index e : EntityId_valid (ent_id e) → 0 < Z.of_nat (Entity_index e) < 4294967296.
Proof.
  unfold Entity_index, EntityId_index, EntityId_to_bits, EntityId_valid. lia.
Qed.

Lemma wf_update self self' i x :
  Entities_wf self → 0 < Z.of_nat i < 4294967296 → is_u32 (tag_bits (info_tag x)) →
  (∀ j, slot self' j = if decide (i = j) then x else slot self j) →
  Entities_wf self'.
Proof.
  intros [H0 Ht] Hi Hx Hslot. split; intros j; rewrite Hslot; case_decide; subst; auto.
Qed.

(** Replacing only the location of a live slot keeps the table well formed. *)
Lemma wf_set_location self e info l :
  Entities_wf self → Entity_valid e → infos self !! Entity_index e = Some info →
  Entities_wf (mkEntities (<[Entity_index e := mkInfo (info_tag info) l]> (infos self))).
Proof.
  intros Hwf He Hi.
  eapply (wf_update self _ _ _ Hwf (valid_index e (proj1 He))).
  2: { intros j. by eapply slot_update_in. }
  cbn. rewrite <- (slot_in self _ _ Hi). apply Hwf.
Qed.

(** ** A history of table operations *)

Inductive EntitiesOp :=
| EFree (id : EntityId) (version : Z)
| ESpawn (e : Entity) (loc : EntityLocation)
| EDespawn (e : Entity)
| EMove (e : Entity) (loc : EntityLocation)
| ERow (m : MovedEntityRow).

Definition Entities_exec (self : Entities) (o : EntitiesOp) : outcome Entities :=
  match o with
  | EFree id v => r ← Entities_free self id v; Ret r.2
  | ESpawn e loc => r ← Entities_set_spawned self e loc; Ret r.2
  | EDespawn e => Ret (Entities_set_despawned self e).2
  | EMove e loc => Ret (Entities_update_location self e loc).2
  | ERow m => Ret (Entities_update_row self m).2
  end.

Definition EntitiesOp_valid (o : EntitiesOp) : Prop :=
  match o with
  | EFree id v => EntityId_valid id
  | ESpawn e _ | EDespawn e | EMove e _ => Entity_valid e
  | ERow m => match moved_entity m with Some e => Entity_valid e | None => True end
  end.

Fixpoint Entities_run (self : Entities) (os : list EntitiesOp) : outcome Entities :=
  match os with
  | [] => Ret self
  | o :: os' => self' ← Entities_exec self o; Entities_run self' os'
  end.

Lemma Entities_exec_wf self o :
  Entities_wf self → EntitiesOp_valid o →
  ∃ self', Entities_exec self o = Ret self' ∧ Entities_wf self'.
Proof.
  intros Hwf Ho. destruct o as [id v|e loc|e|e loc|[[e|] r]]; cbn in Ho |- *.
  - destruct (free_spec self id v) as (self' & -> & _ & Hs). exists self'.
    split; [done|]. eapply (wf_update self self'); [done| | |exact Hs];
      [by apply (valid_index (mkEntity id EntityTag_FIRST))|apply wadd32_range].
  - destruct (infos self !! Entity_index e) as [info|] eqn:E.
    + rewrite (set_spawned_in _ _ _ _ E). cbn. eexists. split; [done|].
      repeat case_match; cbn; try done. by apply wf_set_location.
    + destruct (set_spawned_out self e loc E) as (self' & -> & _ & Hs).
      exists self'. split; [done|].
      eapply (wf_update self self' _ _ Hwf (valid_index e (proj1 Ho)));
        [|exact Hs]. apply Ho.
  - eexists. split; [done|]. unfold Entities_set_despawned.
    destruct (infos self !! Entity_index e) as [info|] eqn:E; [|done].
    repeat case_match; cbn; try done; by apply wf_set_location.
  - eexists. split; [done|]. unfold Entities_update_location.
    destruct (infos self !! Entity_index e) as [info|] eqn:E; [|done].
    repeat case_match; cbn; try done; by apply wf_set_location.
  - eexists. split; [done|]. unfold Entities_update_row; cbn.
    destruct (infos self !! Entity_index e) as [info|] eqn:E; [|done].
    case_decide; [|done]. destruct (info_location info); [|done].
    by apply wf_set_location.
  - by eexists.
Qed.

Lemma Entities_run_wf os : ∀ self,
  Entities_wf self → Forall EntitiesOp_valid os →
  ∃ self', Entities_run self os = Ret self' ∧ Entities_wf self'.
Proof.
  induction os as [|o os IH]; intros self Hwf Hos; [by exists self|].
  apply Forall_cons in Hos as [Ho Hos].
  destruct (Entities_exec_wf self o Hwf Ho) as (self1 & Hex & Hwf1).
  cbn. rewrite Hex. cbn. by apply IH.
Qed.

(** ** Properties *)

Lemma locate_in self e :
  (Entity_index e < length (infos self))%nat →
  Entities_locate self e =
  let info := slot self (Entity_index e) in
  if decide (info_tag info = ent_tag e) then
    match info_location info with
    | Some loc => Ok loc
    | None => Err (FetchError_NotSpawned e)
    end
  else Err (FetchError_Mismatch e (Entity_new (ent_id e) (info_tag info))).
Proof.
  intros [x Hx]%lookup_lt_is_Some_2. unfold Entities_locate.
  by rewrite Hx, (slot_in _ _ _ Hx).
Qed.

Lemma lookup_slot self i :
  (i < length (infos self))%nat → infos self !! i = Some (slot self i).
Proof. intros [x Hx]%lookup_lt_is_Some_2. by rewrite Hx, (slot_in _ _ _ Hx). Qed.

Lemma locate_ok self e loc :
  Entities_locate self e = Ok loc →
  infos self !! Entity_index e = Some (mkInfo (ent_tag e) (Some loc)).
Proof.
  unfold Entities_locate. destruct (infos self !! Entity_index e) as [[t [l|]]|];
    [| |done]; case_decide; cbn in *; try done. intros [= ->]. by subst.
Qed.

Lemma can_spawn_ok self e :
  Entities_can_spawn self e = Ok tt → slot self (Entity_index e) = mkInfo (ent_tag e) None.
Proof.
  unfold Entities_can_spawn. fold (slot self (Entity_index e)).
  destruct (slot self (Entity_index e)) as [t [l|]]; [done|]. cbn.
  case_decide; [by subst|done].
Qed.

(** spawning.  When [can_spawn] accepts an entity, [set_spawned] succeeds,
    the entity is then found at the given location, spawning it again is
    refused, despawning it returns that location and restores every slot, and
    no other slot changes in between. *)
Theorem spawn_lifecycle (self : Entities) (e : Entity) (loc : EntityLocation) :
  Entities_can_spawn self e = Ok tt →
  ∃ self', Entities_set_spawned self e loc = Ret (Ok tt, self') ∧
    Entities_locate self' e = Ok loc ∧
    Entities_try_locate self' e = Ok (Some loc) ∧
    Entities_can_spawn self' e = Err (SpawnError_AlreadySpawned e) ∧
    Entities_set_spawned self' e loc = Ret (Err (SpawnError_AlreadySpawned e), self') ∧
    (∀ j, j ≠ Entity_index e → slot self' j = slot self j) ∧
    (Entities_set_despawned self' e).1 = Ok loc ∧
    (∀ j, slot (Entities_set_despawned self' e).2 j = slot self j).
Proof.
  intros Hs%can_spawn_ok.
  assert (∃ self', Entities_set_spawned self e loc = Ret (Ok tt, self') ∧
    (Entity_index e < length (infos self'))%nat ∧
    ∀ j, slot self' j = if decide (Entity_index e = j)
                        then mkInfo (ent_tag e) (Some loc) else slot self j)
    as (self' & Hsp & Hlt & Hslot).
  { destruct (infos self !! Entity_index e) as [info|] eqn:E.
    - pose proof (slot_in _ _ _ E) as Hin. rewrite Hs in Hin. subst info.
      rewrite (set_spawned_in _ _ _ _ E). cbn. rewrite decide_True by done.
      eexists. split; [done|]. split; [cbn; rewrite length_insert; by eapply lookup_lt_Some|].
      intros j. by eapply slot_update_in.
    - by apply set_spawned_out. }
  exists self'. split; [done|].
  assert (Hme : slot self' (Entity_index e) = mkInfo (ent_tag e) (Some loc))
    by (rewrite Hslot; by rewrite decide_True by done).
  pose proof (lookup_slot self' _ Hlt) as Hlook. rewrite Hme in Hlook.
  split. { unfold Entities_locate. rewrite Hlook. cbn. by rewrite decide_True. }
  split. { unfold Entities_try_locate. rewrite Hlook. cbn. by rewrite decide_True. }
  split. { unfold Entities_can_spawn. by rewrite Hlook. }
  split. { rewrite (set_spawned_in _ _ _ _ Hlook). cbn. by rewrite decide_True. }
  split. { intros j Hj. rewrite Hslot. by case_decide. }
  unfold Entities_set_despawned. rewrite Hlook. cbn. rewrite decide_True by done. cbn.
  split; [done|]. intros j. rewrite (slot_update_in _ _ _ _ _ Hlook), Hslot.
  case_decide; [subst|]; done.
Qed.

Lemma stale_mismatch self e info :
  infos self !! Entity_index e = Some info → info_tag info ≠ ent_tag e →
  let e' := Entity_new (ent_id e) (info_tag info) in
  Entities_locate self e = Err (FetchError_Mismatch e e') ∧
  Entities_try_locate self e = Err (FetchError_Mismatch e e') ∧
  (∀ loc, Entities_set_spawned self e loc = Ret (Err (SpawnError_Mismatch e e'), self)) ∧
  Entities_set_despawned self e = (Err (DespawnError_Mismatch e e'), self) ∧
  (∀ loc, Entities_update_location self e loc = (Err (MoveError_Mismatch e e'), self)) ∧
  (∀ r, Entities_update_row self (mkMoved (Some e) r) = (Err (MoveError_Mismatch e e'), self)).
Proof.
  intros Hi Hne e'.
  unfold Entities_locate, Entities_try_locate, Entities_set_despawned,
    Entities_update_location, Entities_update_row; cbn. rewrite Hi. cbn.
  repeat split; intros; rewrite ?(set_spawned_in _ _ _ _ Hi); by rewrite decide_False by done.
Qed.

(** generational safety.  Despawn a live entity and free its row,
    advancing the generation by [version] steps that do not wrap back to
    zero.  Every operation then refuses the old handle with a mismatch that
    names the new one, leaves the table unchanged, and the new handle can be
    spawned. *)
Theorem stale_handle_rejected (self : Entities) (e : Entity) (loc : EntityLocation)
    (version : Z) :
  Entity_valid e → Entities_locate self e = Ok loc → 0 < version < 4294967296 →
  let self1 := (Entities_set_despawned self e).2 in
  ∃ e' self2,
    Entities_free self1 (ent_id e) version = Ret (e', self2) ∧
    ent_id e' = ent_id e ∧ e' ≠ e ∧
    Entities_can_spawn self2 e' = Ok tt ∧
    Entities_locate self2 e = Err (FetchError_Mismatch e e') ∧
    Entities_try_locate self2 e = Err (FetchError_Mismatch e e') ∧
    Entities_can_spawn self2 e = Err (SpawnError_Mismatch e e') ∧
    (∀ l, Entities_set_spawned self2 e l = Ret (Err (SpawnError_Mismatch e e'), self2)) ∧
    Entities_set_despawned self2 e = (Err (DespawnError_Mismatch e e'), self2) ∧
    (∀ l, Entities_update_location self2 e l = (Err (MoveError_Mismatch e e'), self2)) ∧
    (∀ r, Entities_update_row self2 (mkMoved (Some e) r)
          = (Err (MoveError_Mismatch e e'), self2)).
Proof.
  intros He Hloc%locate_ok Hv self1.
  assert (slot self1 (Entity_index e) = mkInfo (ent_tag e) None) as Hs1.
  { unfold self1, Entities_set_despawned. rewrite Hloc. cbn. rewrite decide_True by done.
    cbn. rewrite (slot_update_in _ _ _ _ _ Hloc). by rewrite decide_True by done. }
  destruct (free_spec self1 (ent_id e) version) as (self2 & Hfree & Hlt & Hslot).
  fold (Entity_index e) in Hfree, Hlt, Hslot. rewrite Hs1 in Hfree, Hslot. cbn in Hfree, Hslot.
  set (tag' := EntityTag_wrapping_add (ent_tag e) version) in *.
  exists (Entity_new (ent_id e) tag'), self2. split; [done|]. split; [done|].
  assert (tag' ≠ ent_tag e) as Hne.
  { intros [=Heq%(f_equal tag_bits)]. destruct He as [_ Ht]. cbn in Heq. width. }
  split. { intros [= Heq]%(f_equal ent_tag). done. }
  pose proof (lookup_slot self2 _ Hlt) as Hlook.
  rewrite Hslot, decide_True in Hlook by done.
  split. { unfold Entities_can_spawn. cbn. change (Entity_index _) with (Entity_index e).
    rewrite Hlook. cbn. by rewrite decide_True. }
  destruct (stale_mismatch self2 e _ Hlook Hne) as (H1 & H2 & H3 & H4 & H5 & H6).
  split; [done|]. split; [done|].
  split. { unfold Entities_can_spawn. rewrite Hlook. cbn. by rewrite decide_False. }
  done.
Qed.

(** the two spawn checks disagree past the end of the vector.  For an
    entity whose row has no slot yet and whose generation is not the first,
    [can_spawn] reports a mismatch while [set_spawned] succeeds and adopts
    the foreign generation. *)
Theorem spawn_checks_disagree (self : Entities) (e : Entity) (loc : EntityLocation) :
  (length (infos self) ≤ Entity_index e)%nat → ent_tag e ≠ EntityTag_FIRST →
  Entities_can_spawn self e
  = Err (SpawnError_Mismatch e (Entity_new (ent_id e) EntityTag_FIRST)) ∧
  ∃ self', Entities_set_spawned self e loc = Ret (Ok tt, self') ∧
           Entities_locate self' e = Ok loc.
Proof.
  intros Hlen Hne. apply lookup_ge_None in Hlen. split.
  - unfold Entities_can_spawn. rewrite Hlen. cbn. by rewrite decide_False by done.
  - destruct (set_spawned_out self e loc Hlen) as (self' & Hs & Hlt & Hslot).
    exists self'. split; [done|]. rewrite locate_in by done.
    assert (slot self' (Entity_index e) = mkInfo (ent_tag e) (Some loc)) as ->.
    { rewrite Hslot. by case_decide. }
    cbn. by case_decide.
Qed.

(** [iter] on a suffix of the table. *)
Lemma iter_from_spec l : ∀ k,
  (∀ i info, l !! i = Some info → is_Some (info_location info) →
             0 < Z.of_nat (k + i) < 4294967296) →
  ∃ r, Entities_iter_from k l = Ret r ∧
    length r = length (filter (λ info, is_Some (info_location info)) l) ∧
    (∀ e loc, (e, loc) ∈ r ↔
       ∃ i, l !! i = Some (mkInfo (ent_tag e) (Some loc)) ∧
            id_bits (ent_id e) = Z.of_nat (k + i)).
Proof.
  induction l as [|info l IH]; intros k Hk.
  { exists []. split; [done|]. split; [done|]. intros e loc. split; [set_solver|].
    by intros (i & Hi & _). }
  destruct (IH (S k)) as (r & Hr & Hlen & Hel).
  { intros i x Hi Hx. specialize (Hk (S i) x Hi Hx). lia. }
  destruct info as [t [loc|]].
  - assert (0 < Z.of_nat k < 4294967296) as Hkr.
    { specialize (Hk 0%nat _ eq_refl (mk_is_Some _ _ eq_refl)). lia. }
    exists ((mkEntity (mkEntityId (Z.of_nat k)) t, loc) :: r). split; [|split].
    + cbn [Entities_iter_from]. unfold Entities_iter_item; cbn [info_location].
      unfold Entity_from_bits. rewrite from_bits_unchecked_arith by width. cbn.
      rewrite Z.mod_small by lia. rewrite (proj2 (Z.eqb_neq _ 0)) by lia. cbn.
      by rewrite Hr.
    + rewrite filter_cons_True by (by eexists). cbn. by rewrite Hlen.
    + intros e l0. rewrite elem_of_cons, Hel. split.
      * intros [[= -> ->]|(i & Hi & Hid)]; [exists 0%nat; cbn; split; [done|lia]|].
        exists (S i). split; [done|lia].
      * intros ([|i] & Hi & Hid); cbn in Hi.
        -- injection Hi as -> ->. left. f_equal. apply Entity_ext; cbn; [lia|done].
        -- right. exists i. split; [done|lia].
  - exists r. split; [by cbn; rewrite Hr|]. split.
    + rewrite filter_cons_False by (by intros [? ?]). done.
    + intros e l0. rewrite Hel. split.
      * intros (i & Hi & Hid). exists (S i). split; [done|lia].
      * intros ([|i] & Hi & Hid); [done|]. exists i. split; [done|lia].
Qed.

(** invariant of the entity table.  Any history of frees, spawns,
    despawns, moves and row updates on valid entities, from the empty table,
    runs without undefined access; afterwards [iter] terminates without
    panicking and yields exactly the entities that [locate] finds, each with
    its location, [count_spawned] of them. *)
Theorem Entities_history_sound (os : list EntitiesOp) :
  Forall EntitiesOp_valid os →
  ∃ self r,
    Entities_run Entities_new os = Ret self ∧ Entities_wf self ∧
    Entities_iter self = Ret r ∧ length r = Entities_count_spawned self ∧
    (∀ e loc, Entity_valid e → ((e, loc) ∈ r ↔ Entities_locate self e = Ok loc)).
Proof.
  intros Hos.
  destruct (Entities_run_wf os Entities_new) as (self & Hrun & Hwf); [|done|].
  { split; intros i; unfold slot, Entities_new; cbn [infos]; rewrite lookup_nil;
      [by intros [? ?]|cbn; width]. }
  destruct (iter_from_spec (infos self) 0) as (r & Hr & Hlen & Hel).
  { intros i info Hi Hs. cbn [Nat.add]. apply (proj1 Hwf). by rewrite (slot_in _ _ _ Hi). }
  exists self, r. repeat (split; [done|]). intros e loc He. rewrite Hel. split.
  - intros (i & Hi & Hid). cbn in Hid. assert (Entity_index e = i) as <-.
    { unfold Entity_index, EntityId_index, EntityId_to_bits. lia. }
    unfold Entities_locate. rewrite Hi. cbn. by rewrite decide_True.
  - intros Hl%locate_ok. exists (Entity_index e). split; [done|].
    destruct He as [Hv _]. unfold Entity_index, EntityId_index, EntityId_to_bits, EntityId_valid in *.
    lia.
Qed.

End Entities.

(** ** Witnesses *)

Definition ex_entity (i t : Z) : Entity := mkEntity (mkEntityId i) (mkEntityTag t).

Lemma spawn_lifecycle_witness :
  ∃ self', Entities_set_spawned (H := doubling) Entities_new (ex_entity 3 0) (mkLoc 1 2 3 4)
           = Ret (Ok tt, self') ∧
           Entities_locate self' (ex_entity 3 0) = Ok (mkLoc 1 2 3 4).
Proof.
  destruct (spawn_lifecycle (H := doubling) Entities_new (ex_entity 3 0) (mkLoc 1 2 3 4)
    eq_refl) as (self' & H1 & H2 & _).
  by exists self'.
Defined.

Definition ex_table : Entities :=
  mkEntities [DEFAULT_INFO; mkInfo (mkEntityTag 4294967295) (Some (mkLoc 0 0 0 0))].

Lemma stale_handle_rejected_witness :
  ∃ e' self2,
    Entities_free (H := doubling) (Entities_set_despawned ex_table (ex_entity 1 4294967295)).2
      (mkEntityId 1) 1 = Ret (e', self2) ∧
    Entities_locate self2 (ex_entity 1 4294967295)
    = Err (FetchError_Mismatch (ex_entity 1 4294967295) e').
Proof.
  destruct (stale_handle_rejected (H := doubling) ex_table (ex_entity 1 4294967295)
    (mkLoc 0 0 0 0) 1) as (e' & self2 & H1 & _ & _ & _ & H2 & _).
  - split; split; vm_compute; congruence.
  - reflexivity.
  - lia.
  - by exists e', self2.
Defined.

Lemma spawn_checks_disagree_witness :
  Entities_can_spawn ex_table (ex_entity 5 2)
  = Err (SpawnError_Mismatch (ex_entity 5 2) (ex_entity 5 0)).
Proof.
  refine (proj1 (spawn_checks_disagree (H := doubling) ex_table (ex_entity 5 2)
    (mkLoc 0 0 0 0) _ _)); vm_compute; [lia|congruence].
Defined.

Lemma Entities_history_sound_witness :
  ∃ self r, Entities_run (H := doubling) Entities_new
      [ESpawn (ex_entity 2 0) (mkLoc 0 0 0 0); EDespawn (ex_entity 2 0);
       EFree (mkEntityId 2) 1; ESpawn (ex_entity 2 1) (mkLoc 1 1 0 0)] = Ret self ∧
    Entities_iter self = Ret r ∧ length r = 1%nat.
Proof.
  destruct (Entities_history_sound (H := doubling)
      [ESpawn (ex_entity 2 0) (mkLoc 0 0 0 0); EDespawn (ex_entity 2 0);
       EFree (mkEntityId 2) 1; ESpawn (ex_entity 2 1) (mkLoc 1 1 0 0)])
    as (self & r & Hrun & _ & Hiter & Hlen & _).
  - repeat constructor; vm_compute; congruence.
  - exists self, r. split; [done|]. split; [done|]. rewrite Hlen.
    vm_compute in Hrun. injection Hrun as <-. reflexivity.
Defined.
