(* ===== verification/FreeCount.v ===== *)
(** * The packed state word of the free list

    [FreeCountState] of [crates/voker-ecs/src/entity/allocator.rs]: one 64-bit
    word holding a 33-bit length (offset by [2^32] so that over-popping does
    not borrow at once), a disabling bit, and a 30-bit generation that every
    pop decrements. *)

From Stdlib Require Import ZArith Lia.
From S2P Require Import Prelude.

Local Open Scope Z_scope.

Definition DISABLING_BIT : Z := Z.shiftl 1 33.
Definition LENGTH_MASK : Z := Z.lor (Z.shiftl 1 32) u32_max.
Definition LENGTH_0 : Z := Z.shiftl 1 32.
Definition GENERATION_LEAST_BIT : Z := Z.shiftl 1 34.

Definition FreeCountState_zero : Z := LENGTH_0.

Definition FreeCountState_length (self : Z) : Z :=
  let unsigned_length := Z.land self LENGTH_MASK in
  sat_sub unsigned_length LENGTH_0 mod 4294967296.

Definition FreeCountState_is_disabled (self : Z) : bool := 0 <? Z.land self DISABLING_BIT.

Definition FreeCountState_with_length (self length : Z) : Z :=
  let length := Z.lor length LENGTH_0 in
  Z.lor (Z.land self (not64 LENGTH_MASK)) length.

Definition FreeCountState_encode_generation (num : Z) : Z :=
  let subtract_length := num in
  Z.lor subtract_length GENERATION_LEAST_BIT.

Definition FreeCountState_pop (self num : Z) : Z :=
  wsub64 self (FreeCountState_encode_generation num).

(** [FreeCount]: the atomic word; each method is one atomic operation, given
    by the value it returns and the value it stores. *)

Definition FreeCount_new : Z := FreeCountState_zero.

Definition FreeCount_acquire_state (word : Z) : Z := word.

Definition FreeCount_pop_for_state (word num : Z) : Z * Z :=
  let to_sub := FreeCountState_encode_generation num in
  (word, wsub64 word to_sub).

Definition FreeCount_disable_for_state (word : Z) : Z * Z :=
  (word, Z.lor word DISABLING_BIT).

Definition FreeCount_set_state_risky (word state : Z) : Z := state.

Definition FreeCount_try_set_state (word expected_current_state target_state : Z)
    : Result unit Z * Z :=
  if word =? expected_current_state then (Ok tt, target_state) else (Err word, word).

(** ** Arithmetic reading of the fields *)

(** The word with generation [g], disabling bit [d] and raw length [l]. *)
Definition pack (g d l : Z) : Z := g * 17179869184 + d * 8589934592 + l.

Definition gen_ok (g : Z) : Prop := 0 <= g < 1073741824.
Definition bit_ok (d : Z) : Prop := 0 <= d < 2.
Definition raw_ok (l : Z) : Prop := 0 <= l < 8589934592.

Lemma mask_mod x : Z.land x LENGTH_MASK = x mod 8589934592.
Proof. change LENGTH_MASK with (Z.ones 33). by rewrite Z.land_ones by lia. Qed.

Lemma pack_mod g d l : raw_ok l → pack g d l mod 8589934592 = l.
Proof. unfold raw_ok, pack. intros. mlia. Qed.

Lemma pack_div g d l : raw_ok l → pack g d l / 8589934592 = g * 2 + d.
Proof. unfold raw_ok, pack. intros. mlia. Qed.

Lemma pack_u64 g d l : gen_ok g → bit_ok d → raw_ok l → is_u64 (pack g d l).
Proof. unfold gen_ok, bit_ok, raw_ok, is_u64, pack. lia. Qed.

Lemma pack_inj g d l g' d' l' :
  bit_ok d → bit_ok d' → raw_ok l → raw_ok l' → pack g d l = pack g' d' l' →
  g = g' ∧ d = d' ∧ l = l'.
Proof. unfold bit_ok, raw_ok, pack. lia. Qed.

Lemma length_pack g d l :
  raw_ok l → FreeCountState_length (pack g d l) = Z.max 0 (l - 4294967296).
Proof.
  intros Hl. unfold FreeCountState_length. rewrite mask_mod, pack_mod by done.
  rewrite sat_sub_max. change LENGTH_0 with 4294967296.
  unfold raw_ok in Hl. rewrite Z.mod_small by lia. lia.
Qed.

Lemma is_disabled_pack g d l :
  bit_ok d → raw_ok l → FreeCountState_is_disabled (pack g d l) = (d =? 1).
Proof.
  intros Hd Hl. unfold FreeCountState_is_disabled.
  change DISABLING_BIT with (2 ^ 33).
  assert (Z.land (pack g d l) (2 ^ 33) = if Z.testbit (pack g d l) 33 then 2 ^ 33 else 0) as ->.
  { apply Z.bits_inj'. intros n Hn. rewrite Z.land_spec, Z.pow2_bits_eqb by lia.
    destruct (Z.eqb_spec 33 n) as [<-|Hne].
    - rewrite andb_true_r. destruct (Z.testbit _ 33); [by rewrite Z.pow2_bits_true|by rewrite Z.bits_0].
    - rewrite andb_false_r. destruct (Z.testbit _ 33); [|by rewrite Z.bits_0].
      by rewrite Z.pow2_bits_false by lia. }
  rewrite Z.testbit_eqb by lia. change (2 ^ 33) with 8589934592.
  rewrite pack_div by done. unfold bit_ok in Hd.
  assert (d = 0 ∨ d = 1) as [-> | ->] by lia.
  - replace ((g * 2 + 0) mod 2) with 0 by mlia. done.
  - replace ((g * 2 + 1) mod 2) with 1 by mlia. done.
Qed.

Lemma with_length_pack g d l n :
  gen_ok g → bit_ok d → raw_ok l → is_u32 n →
  FreeCountState_with_length (pack g d l) n = pack g d (4294967296 + n).
Proof.
  intros Hg Hd Hl Hn. unfold FreeCountState_with_length.
  assert (Z.land (pack g d l) (not64 LENGTH_MASK) = Z.shiftl (g * 2 + d) 33) as ->.
  { transitivity (Z.ldiff (pack g d l) (Z.ones 33)).
    - apply Z.bits_inj'. intros i Hi. unfold not64.
      rewrite Z.land_spec, Z.lxor_spec, Z.ldiff_spec.
      change u64_max with (Z.ones 64). change LENGTH_MASK with (Z.ones 33).
      destruct (Z.lt_ge_cases i 64); [by rewrite (Z.ones_spec_low 64) by lia|].
      rewrite <- (Z.mod_small (pack g d l) (2 ^ 64)) by by apply pack_u64.
      by rewrite Z.mod_pow2_bits_high by lia.
    - rewrite Z.ldiff_ones_r by lia. f_equal. rewrite Z.shiftr_div_pow2 by lia.
      by apply pack_div. }
  change LENGTH_0 with (Z.shiftl 1 32). rewrite (lor_shiftl32 n 1) by done.
  rewrite Z.lor_comm, lor_shiftl_add by (unfold is_u32 in Hn; lia).
  unfold pack. lia.
Qed.

Lemma encode_generation_eq n :
  is_u32 n → FreeCountState_encode_generation n = n + 17179869184.
Proof.
  intros Hn. unfold FreeCountState_encode_generation, GENERATION_LEAST_BIT.
  rewrite lor_shiftl_add by (unfold is_u32 in Hn; lia). lia.
Qed.

(** Popping decrements the generation (modulo [2^30]) and the raw length, as
    long as the length does not borrow from the disabling bit. *)
Lemma pop_pack g d l n :
  gen_ok g → bit_ok d → raw_ok l → is_u32 n → n <= l →
  wsub64 (pack g d l) (FreeCountState_encode_generation n)
  = pack ((g - 1) mod 1073741824) d (l - n).
Proof.
  intros Hg Hd Hl Hn Hle. rewrite encode_generation_eq by done.
  unfold pack, gen_ok, bit_ok, raw_ok, is_u32, wsub64 in *.
  destruct (Z.eq_dec g 0) as [->|Hg0].
  - replace ((0 - 1) mod 1073741824) with 1073741823 by done. mlia.
  - rewrite (Z.mod_small (g - 1)) by lia. mlia.
Qed.

Lemma disable_pack g l :
  raw_ok l → Z.lor (pack g 0 l) DISABLING_BIT = pack g 1 l.
Proof.
  intros Hl. unfold pack. change DISABLING_BIT with (Z.shiftl 1 33).
  replace (g * 17179869184 + 0 * 8589934592 + l) with (l + (g * 2) * 2 ^ 33) by lia.
  rewrite <- (lor_shiftl_add l (g * 2) 33) by (unfold raw_ok in Hl; lia).
  rewrite <- Z.lor_assoc, <- Z.shiftl_lor.
  assert (Z.lor (g * 2) 1 = g * 2 + 1) as ->.
  { rewrite Z.lor_comm. replace (g * 2) with (Z.shiftl g 1) by (rewrite Z.shiftl_mul_pow2; lia).
    rewrite lor_shiftl_add by lia. rewrite Z.shiftl_mul_pow2 by lia. lia. }
  rewrite lor_shiftl_add by (unfold raw_ok in Hl; lia). lia.
Qed.
