(* ===== verification/FreeBuffer.v ===== *)
(** * The chunked buffer of recycled entities

    [Chunk], [FreeBuffer] and [FreeBufferIter] of
    [crates/voker-ecs/src/entity/allocator.rs]: a buffer addressed by a 32-bit
    index, stored in 24 chunks of doubling capacity.  The theorems show that
    it behaves as one flat array. *)

From Stdlib Require Import ZArith Lia.
From S2P Require Import Prelude EntityIdent.

Local Open Scope Z_scope.

(** ** Chunk

    [head] is null or points to [chunk_cap] slots, each holding the
    placeholder until it is written. *)

Record ChunkMem := mkChunkMem { chunk_cap : Z; chunk_slots : gmap Z Entity }.

Record Chunk := mkChunk { head : option ChunkMem }.

Definition Chunk_new : Chunk := mkChunk None.

Definition Chunk_alloc (capacity : Z) : ChunkMem := mkChunkMem capacity ∅.

(** A raw read: defined only inside the allocation. *)
Definition mem_read (m : ChunkMem) (i : Z) : outcome Entity :=
  if (0 <=? i) && (i <? chunk_cap m)
  then Ret (default Entity_PLACEHOLDER (chunk_slots m !! i)) else Undefined.

Definition Chunk_get (self : Chunk) (index : Z) : outcome Entity :=
  match head self with
  | None => Undefined
  | Some m => mem_read m index
  end.

Definition Chunk_get_slice (self : Chunk) (index required_len chunk_capacity : Z)
    : outcome (list Entity) :=
  let available_len := chunk_capacity - index in
  let len := Z.min available_len required_len in
  match head self with
  | None => Undefined
  | Some m =>
      foldr (λ i acc, e ← mem_read m i; es ← acc; Ret (e :: es)) (Ret [])
        (seqZ index len)
  end.

(** [ptr::copy_nonoverlapping] of [es] to the slots from [i] on. *)
Fixpoint mem_write (m : ChunkMem) (i : Z) (es : list Entity) : outcome ChunkMem :=
  match es with
  | [] => Ret m
  | e :: es' =>
      if (0 <=? i) && (i <? chunk_cap m)
      then mem_write (mkChunkMem (chunk_cap m) (<[i := e]> (chunk_slots m))) (i + 1) es'
      else Undefined
  end.

Definition Chunk_set_slice (self : Chunk) (index : Z) (entities : list Entity)
    (chunk_capacity : Z) : outcome (nat * Chunk) :=
  let available_len := Z.to_nat (chunk_capacity - index) in
  let len := Nat.min available_len (length entities) in
  let m := match head self with
           | Some m => m
           | None => Chunk_alloc chunk_capacity
           end in
  m' ← mem_write m index (take len entities);
  Ret (len, mkChunk (Some m')).

(** ** FreeBuffer *)

Definition NUM_CHUNKS : Z := 24.
Definition NUM_SKIPPED : Z := 32 - NUM_CHUNKS.

Notation FreeBuffer := (list Chunk).

Definition FreeBuffer_new : FreeBuffer := replicate (Z.to_nat NUM_CHUNKS) Chunk_new.

Definition FreeBuffer_chunck_capacity (chunk_index : Z) : Z :=
  let corrected := if chunk_index =? 0 then 1 else chunk_index in
  let corrected := corrected + NUM_SKIPPED in
  Z.shiftl 1 corrected.

(** The chunk's position, the index within it, and its capacity. *)
Definition FreeBuffer_chunk_with_index (full_index : Z) : nat * Z * Z :=
  let chunk_index := sat_sub (NUM_CHUNKS - 1) (leading_zeros32 full_index) in
  let chunk_capacity := FreeBuffer_chunck_capacity chunk_index in
  let index_in_chunk := Z.land full_index (not32 chunk_capacity) in
  (Z.to_nat chunk_index, index_in_chunk, chunk_capacity).

Definition FreeBuffer_get (self : FreeBuffer) (full_index : Z) : outcome Entity :=
  let '(c, index, _) := FreeBuffer_chunk_with_index full_index in
  chunk ← of_option (self !! c);
  Chunk_get chunk index.

(** The [while] loop of [set_slice]; every round consumes at least one
    entity, so as many rounds as entities are enough. *)
Fixpoint FreeBuffer_set_slice_loop (fuel : nat) (self : FreeBuffer) (full_index : Z)
    (entities : list Entity) : outcome FreeBuffer :=
  match entities with
  | [] => Ret self
  | _ =>
      match fuel with
      | O => Undefined
      | S fuel' =>
          let '(c, index, cap) := FreeBuffer_chunk_with_index full_index in
          chunk ← of_option (self !! c);
          r ← Chunk_set_slice chunk index entities cap;
          let next := full_index + Z.of_nat r.1 in
          if u32_max <? next then Panic
          else FreeBuffer_set_slice_loop fuel' (<[c := r.2]> self) next (drop r.1 entities)
      end
  end.

Definition FreeBuffer_set_slice (self : FreeBuffer) (full_index : Z) (entities : list Entity)
    : outcome FreeBuffer :=
  FreeBuffer_set_slice_loop (length entities) self full_index entities.

(** ** FreeBufferIter *)

Record FreeBufferIter := mkIter {
  buffer : FreeBuffer;
  current_iter : list Entity;
  rem_start : Z;
  rem_end : Z
}.

Definition FreeBuffer_iter (self : FreeBuffer) (lo hi : Z) : FreeBufferIter :=
  mkIter self [] lo hi.

(** [Range::len]. *)
Definition range_len (lo hi : Z) : Z := if lo <? hi then hi - lo else 0.

Definition FreeBufferIter_slow_next (this : FreeBufferIter) (required : Z)
    : outcome (option Entity * FreeBufferIter) :=
  let next_index := rem_start this in
  let '(c, index, capacity) := FreeBuffer_chunk_with_index next_index in
  chunk ← of_option (buffer this !! c);
  slice ← Chunk_get_slice chunk index required capacity;
  match slice with
  | [] => Undefined
  | next :: rest =>
      Ret (Some next,
           mkIter (buffer this) rest (next_index + Z.of_nat (length slice)) (rem_end this))
  end.

Definition FreeBufferIter_next (self : FreeBufferIter)
    : outcome (option Entity * FreeBufferIter) :=
  match current_iter self with
  | e :: rest => Ret (Some e, mkIter (buffer self) rest (rem_start self) (rem_end self))
  | [] =>
      let still_need := range_len (rem_start self) (rem_end self) in
      if still_need =? 0 then Ret (None, self)
      else FreeBufferIter_slow_next self still_need
  end.

Definition FreeBufferIter_len (self : FreeBufferIter) : Z :=
  Z.of_nat (length (current_iter self)) + range_len (rem_start self) (rem_end self).

(** Running [next] until it returns [None]. *)
Fixpoint FreeBufferIter_drain (fuel : nat) (it : FreeBufferIter) : outcome (list Entity) :=
  match fuel with
  | O => Undefined
  | S fuel' =>
      r ← FreeBufferIter_next it;
      match r.1 with
      | None => Ret []
      | Some e => es ← FreeBufferIter_drain fuel' r.2; Ret (e :: es)
      end
  end.

Definition FreeBufferIter_collect (it : FreeBufferIter) : outcome (list Entity) :=
  FreeBufferIter_drain (S (Z.to_nat (FreeBufferIter_len it))) it.

#[global] Arguments FreeBufferIter_next : simpl never.
#[global] Arguments FreeBufferIter_collect : simpl never.
#[global] Arguments FreeBuffer_chunk_with_index : simpl never.
#[global] Arguments FreeBuffer_chunck_capacity : simpl never.

(** ** Chunk geometry *)

(** First flat index of a chunk. *)
Definition chunk_base (c : nat) : Z := if decide (c = 0)%nat then 0 else 2 ^ (Z.of_nat c + 8).

Lemma chunck_capacity_eq (c : nat) :
  FreeBuffer_chunck_capacity (Z.of_nat c)
  = if decide (c = 0)%nat then 512 else 2 ^ (Z.of_nat c + 8).
Proof.
  unfold FreeBuffer_chunck_capacity, NUM_SKIPPED, NUM_CHUNKS.
  destruct (decide (c = 0)%nat) as [->|Hc]; [done|].
  destruct (Z.eqb_spec (Z.of_nat c) 0); [lia|].
  by rewrite Z.shiftl_mul_pow2, Z.mul_1_l by lia.
Qed.

Lemma land_not32 x y : is_u32 x → Z.land x (not32 y) = Z.ldiff x y.
Proof.
  intros Hx. apply Z.bits_inj'. intros n Hn. unfold not32.
  rewrite Z.land_spec, Z.lxor_spec, Z.ldiff_spec.
  change u32_max with (Z.ones 32).
  destruct (Z.lt_ge_cases n 32).
  - by rewrite Z.ones_spec_low by lia.
  - rewrite <- (Z.mod_small x (2 ^ 32)) by done.
    by rewrite Z.mod_pow2_bits_high by lia.
Qed.

(** Removing the leading bit. *)
Lemma ldiff_top x n : 0 <= n → 2 ^ n <= x < 2 ^ (n + 1) → Z.ldiff x (2 ^ n) = x - 2 ^ n.
Proof.
  intros Hn Hx. symmetry. apply Z.sub_nocarry_ldiff. apply Z.bits_inj'. intros i Hi.
  rewrite Z.ldiff_spec, Z.bits_0, Z.pow2_bits_eqb by lia.
  destruct (Z.eqb_spec n i) as [<-|]; [|done]. cbn.
  assert (Z.log2 x = n) as Hlog.
  { apply Z.log2_unique; [lia|]. by replace (Z.succ n) with (n + 1) by lia. }
  assert (0 < 2 ^ n) by (apply Z.pow_pos_nonneg; lia).
  rewrite <- Hlog. by rewrite Z.bit_log2 by lia.
Qed.

Lemma ldiff_512 x : 0 <= x < 512 → Z.ldiff x 512 = x.
Proof.
  intros Hx. rewrite <- (Z.sub_0_r x) at 2. symmetry.
  apply Z.bits_inj'. intros i Hi. rewrite Z.sub_0_r, Z.ldiff_spec.
  change 512 with (2 ^ 9). rewrite Z.pow2_bits_eqb by lia.
  destruct (Z.eqb_spec 9 i) as [<-|]; [|by rewrite andb_true_r].
  rewrite andb_false_r. rewrite <- (Z.mod_small x (2 ^ 9)) by done.
  by rewrite Z.mod_pow2_bits_high by lia.
Qed.

Lemma chunk_with_index_spec x :
  is_u32 x →
  ∃ c ix, FreeBuffer_chunk_with_index x = (c, ix, FreeBuffer_chunck_capacity (Z.of_nat c)) ∧
    (c < 24)%nat ∧ x = chunk_base c + ix ∧ 0 <= ix < FreeBuffer_chunck_capacity (Z.of_nat c).
Proof.
  intros Hx. unfold FreeBuffer_chunk_with_index, leading_zeros32, NUM_CHUNKS.
  destruct (Z.lt_ge_cases x 512) as [Hlo|Hhi].
  - assert (sat_sub (24 - 1) (if x =? 0 then 32 else 31 - Z.log2 x) = 0) as ->.
    { rewrite sat_sub_max. destruct (Z.eqb_spec x 0); [lia|].
      assert (Z.log2 x <= 8); [|lia]. assert (Z.log2 x < 9); [|lia].
      apply Z.log2_lt_pow2; unfold is_u32 in Hx; lia. }
    exists 0%nat, x. cbn [Z.to_nat]. rewrite land_not32 by done.
    change (FreeBuffer_chunck_capacity (Z.of_nat 0)) with 512.
    change (FreeBuffer_chunck_capacity 0) with 512.
    unfold is_u32 in Hx. rewrite ldiff_512 by lia. repeat split; cbn; lia.
  - set (L := Z.log2 x).
    assert (9 <= L) as HL1 by (apply Z.log2_le_pow2; lia).
    assert (L < 32) as HL2 by (apply Z.log2_lt_pow2; unfold is_u32 in Hx; lia).
    destruct (Z.log2_spec x ltac:(lia)) as [Hp1 Hp2]. fold L in Hp1, Hp2.
    replace (Z.succ L) with (L + 1) in Hp2 by lia.
    rewrite (proj2 (Z.eqb_neq x 0)) by lia.
    assert (sat_sub (24 - 1) (31 - L) = L - 8) as -> by (rewrite sat_sub_max; lia).
    exists (Z.to_nat (L - 8)), (x - 2 ^ L).
    rewrite Z2Nat.id by lia.
    assert (FreeBuffer_chunck_capacity (L - 8) = 2 ^ L) as ->.
    { rewrite <- (Z2Nat.id (L - 8)) by lia. rewrite chunck_capacity_eq.
      rewrite decide_False by lia. f_equal. lia. }
    rewrite land_not32, ldiff_top by (done || lia).
    split; [done|]. split; [lia|].
    assert (chunk_base (Z.to_nat (L - 8)) = 2 ^ L) as ->.
    { unfold chunk_base. rewrite decide_False by lia. f_equal. lia. }
    rewrite Z.pow_add_r in Hp2 by lia. lia.
Qed.

Notation cap_of c := (FreeBuffer_chunck_capacity (Z.of_nat c)).

Lemma cap_of_pos c : 0 < cap_of c.
Proof. rewrite chunck_capacity_eq. case_decide; [done|]. apply Z.pow_pos_nonneg; lia. Qed.

Lemma chunk_base_nonneg c : 0 <= chunk_base c.
Proof. unfold chunk_base. case_decide; [done|]. apply Z.pow_nonneg; lia. Qed.

(** Chunks cover consecutive, disjoint ranges. *)
Lemma chunk_ranges_disjoint c c' : (c < c')%nat → chunk_base c + cap_of c <= chunk_base c'.
Proof.
  intros Hlt. rewrite chunck_capacity_eq. unfold chunk_base.
  rewrite (decide_False (P := c' = 0%nat)) by lia.
  case_decide as Hc.
  - change (0 + 512) with (2 ^ 9). apply Z.pow_le_mono_r; lia.
  - replace (2 ^ (Z.of_nat c + 8) + 2 ^ (Z.of_nat c + 8)) with (2 ^ (Z.of_nat c + 8 + 1)).
    { apply Z.pow_le_mono_r; lia. }
    rewrite (Z.pow_add_r 2 (Z.of_nat c + 8) 1) by lia. lia.
Qed.

Lemma chunk_end_u32 c : (c < 24)%nat → chunk_base c + cap_of c <= 4294967296.
Proof.
  intros Hc. replace 4294967296 with (chunk_base 24) by done.
  by apply chunk_ranges_disjoint.
Qed.

Lemma chunk_with_index_at c ix :
  (c < 24)%nat → 0 <= ix < cap_of c →
  FreeBuffer_chunk_with_index (chunk_base c + ix) = (c, ix, cap_of c).
Proof.
  intros Hc Hix. pose proof (chunk_end_u32 c Hc). pose proof (chunk_base_nonneg c).
  destruct (chunk_with_index_spec (chunk_base c + ix)) as (c' & ix' & -> & Hc' & Heq & Hix').
  { unfold is_u32. lia. }
  destruct (Nat.lt_trichotomy c c') as [Hlt|[->|Hlt]].
  - pose proof (chunk_ranges_disjoint c c' Hlt). lia.
  - by replace ix' with ix by lia.
  - pose proof (chunk_ranges_disjoint c' c Hlt). lia.
Qed.

Lemma get_at (b : FreeBuffer) c ix chunk :
  (c < 24)%nat → 0 <= ix < cap_of c → b !! c = Some chunk →
  FreeBuffer_get b (chunk_base c + ix) = Chunk_get chunk ix.
Proof.
  intros Hc Hix Hb. unfold FreeBuffer_get. rewrite chunk_with_index_at by done.
  by rewrite Hb.
Qed.

(** ** Invariant *)

(** 24 chunks, each null or allocated with its own capacity. *)
Definition FreeBuffer_wf (self : FreeBuffer) : Prop :=
  length self = 24%nat ∧
  ∀ c m, self !! c = Some (mkChunk (Some m)) → chunk_cap m = cap_of c.

Lemma FreeBuffer_new_wf : FreeBuffer_wf FreeBuffer_new.
Proof.
  split; [done|]. intros c m [Hm _]%lookup_replicate. done.
Qed.

Lemma mem_write_spec es : ∀ m i,
  0 <= i → i + Z.of_nat (length es) <= chunk_cap m →
  ∃ m', mem_write m i es = Ret m' ∧ chunk_cap m' = chunk_cap m ∧
    (∀ j, chunk_slots m' !! j =
       if decide (i <= j < i + Z.of_nat (length es))
       then es !! Z.to_nat (j - i) else chunk_slots m !! j).
Proof.
  induction es as [|e es IH]; intros m i Hi Hlen.
  { exists m. split; [done|]. split; [done|]. intros j. cbn.
    by rewrite decide_False by lia. }
  cbn [mem_write]. cbn [length] in Hlen.
  rewrite (proj2 (Z.leb_le 0 i)), (proj2 (Z.ltb_lt i _)) by lia. cbn.
  destruct (IH (mkChunkMem (chunk_cap m) (<[i:=e]> (chunk_slots m))) (i + 1))
    as (m' & Hw & Hcap & Hsl); [lia|cbn; lia|].
  exists m'. split; [done|]. split; [done|]. intros j. rewrite Hsl. cbn [length chunk_slots].
  destruct (decide (j = i)) as [->|Hne].
  - rewrite decide_False, decide_True, lookup_insert_eq by lia.
    by replace (i - i) with 0 by lia.
  - rewrite lookup_insert_ne by done.
    destruct (decide (i + 1 <= j < i + 1 + Z.of_nat (length es))).
    + rewrite decide_True by lia.
      replace (Z.to_nat (j - i)) with (S (Z.to_nat (j - (i + 1)))) by lia. done.
    + by rewrite decide_False by lia.
Qed.

Lemma mem_read_in m i :
  0 <= i < chunk_cap m → mem_read m i = Ret (default Entity_PLACEHOLDER (chunk_slots m !! i)).
Proof.
  intros Hi. unfold mem_read.
  by rewrite (proj2 (Z.leb_le 0 i)), (proj2 (Z.ltb_lt i _)) by lia.
Qed.

(** Writing a slice into one chunk. *)
Lemma Chunk_set_slice_spec chunk ix es cap :
  0 <= ix < cap → (∀ m, head chunk = Some m → chunk_cap m = cap) →
  let n := Nat.min (Z.to_nat (cap - ix)) (length es) in
  ∃ m', Chunk_set_slice chunk ix es cap = Ret (n, mkChunk (Some m')) ∧ chunk_cap m' = cap ∧
    (∀ k e, (k < n)%nat → es !! k = Some e →
       Chunk_get (mkChunk (Some m')) (ix + Z.of_nat k) = Ret e) ∧
    (∀ j e, j < ix ∨ ix + Z.of_nat n <= j → Chunk_get chunk j = Ret e →
       Chunk_get (mkChunk (Some m')) j = Ret e).
Proof.
  intros Hix Hcap n. unfold Chunk_set_slice. fold n.
  set (m := match head chunk with Some m => m | None => _ end).
  assert (Hm : chunk_cap m = cap) by (unfold m; case_match; [by apply Hcap|done]).
  assert (Hlen : length (take n es) = n) by (rewrite length_take; lia).
  destruct (mem_write_spec (take n es) m ix) as (m' & Hw & Hc & Hsl); [lia|lia|].
  rewrite Hw. cbn. exists m'. split; [done|]. split; [congruence|]. rewrite Hlen in Hsl. split.
  - intros k e Hk He. unfold Chunk_get; cbn. rewrite mem_read_in by lia.
    rewrite Hsl, decide_True by lia.
    replace (Z.to_nat (ix + Z.of_nat k - ix)) with k by lia.
    by rewrite lookup_take_lt, He by done.
  - intros j e Hj. unfold Chunk_get; cbn. destruct (head chunk) as [m0|] eqn:Hh; [|done].
    unfold mem_read. rewrite Hc. unfold m. rewrite Hsl, decide_False by lia. done.
Qed.

Lemma FreeBuffer_wf_insert b c m :
  FreeBuffer_wf b → chunk_cap m = cap_of c → FreeBuffer_wf (<[c := mkChunk (Some m)]> b).
Proof.
  intros [Hlen Hcap] Hm. split; [by rewrite length_insert|]. intros c' m' Hl.
  destruct (decide (c = c')) as [->|Hne].
  - destruct (decide (c' < length b)%nat).
    + rewrite list_lookup_insert_eq in Hl by done. by injection Hl as <-.
    + rewrite list_insert_ge in Hl by lia. by apply Hcap.
  - rewrite list_lookup_insert_ne in Hl by done. by apply Hcap.
Qed.

(** One round of the loop seen from the flat index space. *)
Lemma set_slice_round b i es :
  FreeBuffer_wf b → is_u32 i → es ≠ [] →
  ∃ c ix chunk chunk' n,
    FreeBuffer_chunk_with_index i = (c, ix, cap_of c) ∧ b !! c = Some chunk ∧
    Chunk_set_slice chunk ix es (cap_of c) = Ret (n, chunk') ∧
    (0 < n ≤ length es)%nat ∧ FreeBuffer_wf (<[c := chunk']> b) ∧
    (∀ k e, (k < n)%nat → es !! k = Some e →
       FreeBuffer_get (<[c := chunk']> b) (i + Z.of_nat k) = Ret e) ∧
    (∀ j e, is_u32 j → j < i ∨ i + Z.of_nat n <= j → FreeBuffer_get b j = Ret e →
       FreeBuffer_get (<[c := chunk']> b) j = Ret e).
Proof.
  intros Hwf Hi Hes. destruct (chunk_with_index_spec i Hi) as (c & ix & Hci & Hc & Heq & Hix).
  destruct Hwf as [Hlen Hcap].
  destruct (lookup_lt_is_Some_2 b c) as [chunk Hb]; [lia|].
  destruct (Chunk_set_slice_spec chunk ix es (cap_of c)) as (m' & Hset & Hm' & Hin & Hout);
    [done| |].
  { intros m Hh. apply Hcap. rewrite Hb. destruct chunk; cbn in *. by subst. }
  set (n := Nat.min (Z.to_nat (cap_of c - ix)) (length es)) in *.
  assert (Hnle : (n ≤ Z.to_nat (cap_of c - ix))%nat ∧ (n ≤ length es)%nat) by (unfold n; lia).
  assert (Hnpos : (0 < n)%nat) by (unfold n; destruct es; [done|]; cbn; lia).
  exists c, ix, chunk, (mkChunk (Some m')), n. do 3 (split; [done|]).
  split; [lia|]. split; [by apply FreeBuffer_wf_insert|].
  assert (Hnew : <[c := mkChunk (Some m')]> b !! c = Some (mkChunk (Some m')))
    by (apply list_lookup_insert_eq; lia).
  split.
  - intros k e Hk He. subst i. replace (chunk_base c + ix + Z.of_nat k)
      with (chunk_base c + (ix + Z.of_nat k)) by lia.
    assert (0 <= ix + Z.of_nat k < cap_of c) as Hk' by lia.
    rewrite (get_at _ c _ _ Hc Hk' Hnew). by apply Hin.
  - intros j e Hj Hside Hget.
    destruct (chunk_with_index_spec j Hj) as (c' & ix' & Hci' & Hc' & Heq' & Hix').
    destruct (decide (c' = c)) as [->|Hne].
    + subst j. rewrite (get_at _ c _ _ Hc Hix' Hnew). apply Hout; [lia|].
      by rewrite <- (get_at b c ix' chunk).
    + subst j. unfold FreeBuffer_get in *. rewrite Hci' in *.
      by rewrite list_lookup_insert_ne by done.
Qed.

Lemma set_slice_loop_spec fuel : ∀ b i es,
  (length es ≤ fuel)%nat → FreeBuffer_wf b → 0 <= i →
  i + Z.of_nat (length es) <= u32_max →
  ∃ b', FreeBuffer_set_slice_loop fuel b i es = Ret b' ∧ FreeBuffer_wf b' ∧
    (∀ k e, es !! k = Some e → FreeBuffer_get b' (i + Z.of_nat k) = Ret e) ∧
    (∀ j e, is_u32 j → j < i ∨ i + Z.of_nat (length es) <= j →
       FreeBuffer_get b j = Ret e → FreeBuffer_get b' j = Ret e).
Proof.
  induction fuel as [|fuel IH]; intros b i es Hfuel Hwf Hi Hbound.
  { destruct es; [|cbn in Hfuel; lia]. exists b. repeat (split; [done|]). done. }
  destruct es as [|e0 es0]; [exists b; repeat (split; [done|]); done|].
  set (es := e0 :: es0) in *.
  destruct (set_slice_round b i es) as (c & ix & chunk & chunk' & n & Hci & Hb & Hset & Hn
    & Hwf1 & Hin & Hout); [done|unfold is_u32, u32_max in *; lia|done|].
  destruct (IH (<[c := chunk']> b) (i + Z.of_nat n) (drop n es))
    as (b' & Hloop & Hwf' & Hin' & Hout');
    [rewrite length_drop; lia|done|lia|rewrite length_drop; lia|].
  rewrite length_drop in Hout'.
  exists b'. split.
  { unfold es. cbn [FreeBuffer_set_slice_loop]. fold es. rewrite Hci, Hb. cbn.
    rewrite Hset. cbn. by rewrite (proj2 (Z.ltb_ge _ _)) by lia. }
  split; [done|]. split.
  - intros k e He. destruct (decide (k < n)%nat) as [Hk|Hk].
    + apply lookup_lt_Some in He as Hlt. unfold u32_max in *.
      apply Hout'; [unfold is_u32; lia|lia|]. by apply Hin.
    + replace (i + Z.of_nat k) with (i + Z.of_nat n + Z.of_nat (k - n)) by lia.
      apply Hin'. rewrite lookup_drop. by replace (n + (k - n))%nat with k by lia.
  - intros j e Hj Hside Hget. apply Hout'; [done|lia|]. apply Hout; [done|lia|done].
Qed.

(** ** Reading a range *)

(** [b] holds [xs] at the flat indices from [lo] on. *)
Definition holds (b : FreeBuffer) (lo : Z) (xs : list Entity) : Prop :=
  ∀ k e, xs !! k = Some e → FreeBuffer_get b (lo + Z.of_nat k) = Ret e.

Lemma holds_drop b lo xs n : holds b lo xs → holds b (lo + Z.of_nat n) (drop n xs).
Proof.
  intros H k e. rewrite lookup_drop. intros Hk.
  replace (lo + Z.of_nat n + Z.of_nat k) with (lo + Z.of_nat (n + k)) by lia. by apply H.
Qed.

Lemma mem_read_seq m : ∀ n ix xs,
  (∀ k e, xs !! k = Some e → mem_read m (ix + Z.of_nat k) = Ret e) → length xs = n →
  foldr (λ i acc, e ← mem_read m i; es ← acc; Ret (e :: es)) (Ret []) (seqZ ix (Z.of_nat n))
  = Ret xs.
Proof.
  induction n as [|n IH]; intros ix xs Hx Hlen.
  { destruct xs; [|done]. by rewrite seqZ_nil by lia. }
  destruct xs as [|x xs]; [done|]. rewrite seqZ_cons by lia. cbn.
  pose proof (Hx 0%nat x eq_refl) as H0. rewrite Z.add_0_r in H0. rewrite H0. cbn.
  replace (Z.pred (Z.of_nat (S n))) with (Z.of_nat n) by lia.
  rewrite (IH (Z.succ ix) xs); [done| |by injection Hlen].
  intros k e He. specialize (Hx (S k) e He).
  by replace (Z.succ ix + Z.of_nat k) with (ix + Z.of_nat (S k)) by lia.
Qed.

Lemma slow_next_spec b s e xs :
  FreeBuffer_wf b → 0 <= s → e <= u32_max → holds b s xs → xs ≠ [] →
  Z.of_nat (length xs) = e - s →
  ∃ n x rest, take n xs = x :: rest ∧ (0 < n ≤ length xs)%nat ∧
    FreeBufferIter_slow_next (mkIter b [] s e) (e - s)
    = Ret (Some x, mkIter b rest (s + Z.of_nat n) e).
Proof.
  intros [Hlen Hcap] Hs He Hh Hne Hl. unfold u32_max in *.
  assert (0 < length xs)%nat by (destruct xs; [done|cbn; lia]).
  destruct (chunk_with_index_spec s) as (c & ix & Hci & Hc & Heq & Hix);
    [unfold is_u32; lia|].
  destruct (lookup_lt_is_Some_2 b c) as [chunk Hb]; [lia|].
  set (n := Z.to_nat (Z.min (cap_of c - ix) (e - s))).
  assert (Hn : (0 < n ≤ length xs)%nat ∧ Z.of_nat n = Z.min (cap_of c - ix) (e - s))
    by (unfold n; lia).
  destruct Hn as [Hn HnZ].
  assert (Hread : ∀ k x, take n xs !! k = Some x → Chunk_get chunk (ix + Z.of_nat k) = Ret x).
  { intros k x Hk. apply lookup_take_Some in Hk as [Hk Hlt].
    assert (0 <= ix + Z.of_nat k < cap_of c) as Hr by lia.
    rewrite <- (get_at b c _ _ Hc Hr Hb), Z.add_assoc, <- Heq. by apply Hh. }
  destruct (take n xs) as [|x rest] eqn:Ht.
  { apply (f_equal length) in Ht. rewrite length_take in Ht. cbn in Ht. lia. }
  exists n, x, rest. split; [done|]. split; [done|].
  unfold FreeBufferIter_slow_next; cbn [rem_start buffer rem_end]. rewrite Hci, Hb. cbn.
  unfold Chunk_get_slice. rewrite <- HnZ.
  assert (Hlt : length (x :: rest) = n) by (rewrite <- Ht, length_take; lia).
  destruct (head chunk) as [m|] eqn:Hh'.
  2: { specialize (Hread 0%nat x eq_refl). unfold Chunk_get in Hread. by rewrite Hh' in Hread. }
  rewrite (mem_read_seq m n ix (x :: rest)); [cbn; by rewrite <- Hlt| |done].
  intros k y Hk. specialize (Hread k y Hk). unfold Chunk_get in Hread. by rewrite Hh' in Hread.
Qed.

(** The iterator still has [l] to deliver. *)
Definition iter_rep (it : FreeBufferIter) (l : list Entity) : Prop :=
  FreeBuffer_wf (buffer it) ∧ 0 <= rem_start it <= rem_end it ∧ rem_end it <= u32_max ∧
  ∃ xs, holds (buffer it) (rem_start it) xs ∧
        Z.of_nat (length xs) = rem_end it - rem_start it ∧ l = current_iter it ++ xs.

Lemma iter_rep_len it l : iter_rep it l → FreeBufferIter_len it = Z.of_nat (length l).
Proof.
  intros (_ & Hs & _ & xs & _ & Hl & ->). unfold FreeBufferIter_len, range_len.
  rewrite length_app. destruct (Z.ltb_spec (rem_start it) (rem_end it)); lia.
Qed.

Lemma iter_rep_next_nil it : iter_rep it [] → FreeBufferIter_next it = Ret (None, it).
Proof.
  intros (_ & Hs & _ & xs & _ & Hl & Heq). symmetry in Heq.
  apply app_nil in Heq as [Hc ->]. cbn in Hl.
  unfold FreeBufferIter_next, range_len. rewrite Hc.
  by rewrite (proj2 (Z.ltb_ge (rem_start it) (rem_end it))) by lia.
Qed.

Lemma iter_rep_next_cons it x l :
  iter_rep it (x :: l) → ∃ it', FreeBufferIter_next it = Ret (Some x, it') ∧ iter_rep it' l.
Proof.
  destruct it as [b cur s e]. intros (Hwf & Hs & He & xs & Hh & Hl & Heq).
  cbn [buffer rem_start rem_end current_iter] in *.
  unfold FreeBufferIter_next; cbn [current_iter rem_start rem_end].
  destruct cur as [|y cur].
  - cbn in Heq. subst xs. cbn [length] in Hl. unfold range_len.
    rewrite (proj2 (Z.ltb_lt s e)), (proj2 (Z.eqb_neq (e - s) 0)) by lia.
    destruct (slow_next_spec b s e (x :: l)) as (n & y & rest & Ht & Hn & ->);
      try done; [lia|].
    destruct n as [|n]; [lia|]. cbn in Ht. injection Ht as <- <-.
    eexists. split; [done|]. split; [done|]. cbn in *. split; [lia|]. split; [done|].
    exists (drop n l). split; [apply (holds_drop b s (x :: l) (S n) Hh)|].
    rewrite length_drop. split; [lia|]. by rewrite take_drop.
  - cbn in Heq. injection Heq as <- ->. eexists. split; [done|].
    split; [done|]. split; [done|]. split; [done|]. by exists xs.
Qed.

Lemma drain_spec l : ∀ fuel it,
  iter_rep it l → (length l < fuel)%nat → FreeBufferIter_drain fuel it = Ret l.
Proof.
  induction l as [|x l IH]; intros [|fuel] it Hrep Hf; cbn in Hf |- *; try lia.
  - by rewrite (iter_rep_next_nil it Hrep).
  - destruct (iter_rep_next_cons it x l Hrep) as (it' & -> & Hrep'). cbn.
    by rewrite (IH fuel it') by (done || lia).
Qed.

Lemma iter_rep_collect it l : iter_rep it l → FreeBufferIter_collect it = Ret l.
Proof.
  intros Hrep. apply drain_spec; [done|]. rewrite (iter_rep_len it l Hrep). lia.
Qed.

Lemma iter_rep_iter b lo hi xs :
  FreeBuffer_wf b → 0 <= lo <= hi → hi <= u32_max → holds b lo xs →
  Z.of_nat (length xs) = hi - lo → iter_rep (FreeBuffer_iter b lo hi) xs.
Proof. intros. split; [done|]. split; [done|]. split; [done|]. by exists xs. Qed.

(** ** Properties *)

(** chunk addressing.  [chunk_with_index] maps the 32-bit index space
    one-to-one onto the slots of the 24 chunks: it always names an existing
    chunk and a slot inside its capacity, every slot of every chunk is the
    image of an index, and two indices never share a slot. *)
Theorem chunk_addressing_bijective :
  (∀ x, is_u32 x →
     ∃ c ix, FreeBuffer_chunk_with_index x = (c, ix, FreeBuffer_chunck_capacity (Z.of_nat c)) ∧
       (c < Z.to_nat NUM_CHUNKS)%nat ∧ 0 <= ix < FreeBuffer_chunck_capacity (Z.of_nat c)) ∧
  (∀ c ix, (c < Z.to_nat NUM_CHUNKS)%nat →
     0 <= ix < FreeBuffer_chunck_capacity (Z.of_nat c) →
     ∃ x, is_u32 x ∧
       FreeBuffer_chunk_with_index x = (c, ix, FreeBuffer_chunck_capacity (Z.of_nat c))) ∧
  (∀ x y, is_u32 x → is_u32 y →
     FreeBuffer_chunk_with_index x = FreeBuffer_chunk_with_index y → x = y).
Proof.
  change (Z.to_nat NUM_CHUNKS) with 24%nat. split; [|split].
  - intros x Hx. destruct (chunk_with_index_spec x Hx) as (c & ix & -> & Hc & _ & Hix). eauto.
  - intros c ix Hc Hix. exists (chunk_base c + ix). split.
    + pose proof (chunk_end_u32 c Hc). pose proof (chunk_base_nonneg c). unfold is_u32. lia.
    + by apply chunk_with_index_at.
  - intros x y Hx Hy Heq.
    destruct (chunk_with_index_spec x Hx) as (c & ix & Ex & _ & -> & _).
    destruct (chunk_with_index_spec y Hy) as (c' & ix' & Ey & _ & -> & _).
    rewrite Ex, Ey in Heq. by injection Heq as -> ->.
Qed.

(** the buffer is an array.  Writing a slice at an index (across as many
    chunks as it spans, allocating them on demand) terminates, keeps the
    chunk invariant, makes [get] and the range iterator return exactly the
    slice, and leaves every other readable slot unchanged. *)
Theorem FreeBuffer_array (b : FreeBuffer) (i : Z) (es : list Entity) :
  FreeBuffer_wf b → 0 <= i → i + Z.of_nat (length es) <= u32_max →
  ∃ b', FreeBuffer_set_slice b i es = Ret b' ∧ FreeBuffer_wf b' ∧
    (∀ k e, es !! k = Some e → FreeBuffer_get b' (i + Z.of_nat k) = Ret e) ∧
    (∀ j e, is_u32 j → j < i ∨ i + Z.of_nat (length es) <= j →
       FreeBuffer_get b j = Ret e → FreeBuffer_get b' j = Ret e) ∧
    FreeBufferIter_collect (FreeBuffer_iter b' i (i + Z.of_nat (length es))) = Ret es.
Proof.
  intros Hwf Hi Hb.
  destruct (set_slice_loop_spec (length es) b i es) as (b' & Hs & Hwf' & Hin & Hout); try done.
  exists b'. repeat (split; [done|]). apply iter_rep_collect, iter_rep_iter; try done; lia.
Qed.

Lemma FreeBuffer_array_witness :
  ∃ b', FreeBuffer_set_slice FreeBuffer_new 510
          ((λ k, mkEntity (mkEntityId k) (mkEntityTag 1)) <$> seqZ 1 5) = Ret b' ∧
        FreeBuffer_get b' 513 = Ret (mkEntity (mkEntityId 4) (mkEntityTag 1)).
Proof.
  destruct (FreeBuffer_array FreeBuffer_new 510
    ((λ k, mkEntity (mkEntityId k) (mkEntityTag 1)) <$> seqZ 1 5)) as (b' & H1 & _ & H2 & _).
  - apply FreeBuffer_new_wf.
  - lia.
  - vm_compute. discriminate.
  - exists b'. split; [done|]. by apply (H2 3%nat).
Defined.
