(* ===== verification/Allocator.v ===== *)
(** * The entity allocator, used by its owner

    [FreeList], [FreshAllocator], [AllocEntitiesIter] and [EntityAllocator] of
    [crates/voker-ecs/src/entity/allocator.rs], as executed by the thread that
    owns the allocator.  The interleaving with remote allocators is in
    [RemoteAlloc]. *)

From Stdlib Require Import ZArith Lia.
From S2P Require Import Prelude EntityIdent FreeCount FreeBuffer.

Local Open Scope Z_scope.

(** ** FreeList *)

Record FreeList := mkFreeList { fl_buffer : FreeBuffer; fl_len : Z }.

Definition FreeList_new : FreeList := mkFreeList FreeBuffer_new FreeCount_new.

Definition FreeList_count (self : FreeList) : Z :=
  FreeCountState_length (FreeCount_acquire_state (fl_len self)).

Definition FreeList_free (self : FreeList) (entities : list Entity) : outcome FreeList :=
  let '(state, _) := FreeCount_disable_for_state (fl_len self) in
  let full_index := FreeCountState_length state in
  buf ← FreeBuffer_set_slice (fl_buffer self) full_index entities;
  let n := full_index + Z.of_nat (length entities) in
  if u32_max <? n then Panic
  else
    let new_state := FreeCountState_with_length state n in
    Ret (mkFreeList buf (FreeCount_set_state_risky (fl_len self) new_state)).

Definition FreeList_alloc (self : FreeList) : outcome (option Entity * FreeList) :=
  let '(state, word) := FreeCount_pop_for_state (fl_len self) 1 in
  let self1 := mkFreeList (fl_buffer self) word in
  match checked_sub (FreeCountState_length state) 1 with
  | None => Ret (None, self1)
  | Some index =>
      e ← FreeBuffer_get (fl_buffer self1) index;
      Ret (Some e, self1)
  end.

Definition FreeList_alloc_many (self : FreeList) (count : Z) : FreeBufferIter * FreeList :=
  let '(state, word) := FreeCount_pop_for_state (fl_len self) count in
  let len := FreeCountState_length state in
  let index := sat_sub len count in
  (FreeBuffer_iter (fl_buffer self) index len, mkFreeList (fl_buffer self) word).

(** ** FreshAllocator *)

Definition entity_from_u32 (id : Z) : Entity := Entity_new (mkEntityId id) EntityTag_FIRST.

Definition MAX_ENTITIES : Z := u32_max.

Definition FreshAllocator_new : Z := 1.

Definition FreshAllocator_count (next_id : Z) : Z := next_id - 1.

(** [fetch_add] stores the wrapped sum before the overflow check, so the new
    counter is part of the result also when the call panics. *)
Definition FreshAllocator_alloc (next_id : Z) : outcome Entity * Z :=
  let index := next_id in
  let next := wadd32 next_id 1 in
  if index =? MAX_ENTITIES then (Panic, next) else (Ret (entity_from_u32 index), next).

Definition FreshAllocator_alloc_many (next_id count : Z) : outcome (Z * Z) * Z :=
  if count =? 0 then (Ret (0, 0), next_id)
  else
    let start := next_id in
    let next := wadd32 next_id count in
    if MAX_ENTITIES - count <? start then (Panic, next) else (Ret (start, start + count), next).

(** [FreshEntityIter]: what is left of the identifier range. *)
Definition FreshEntityIter_next (r : Z * Z) : option Entity * (Z * Z) :=
  if r.1 <? r.2 then (Some (entity_from_u32 r.1), (r.1 + 1, r.2)) else (None, r).

Definition FreshEntityIter_rest (r : Z * Z) : list Entity :=
  entity_from_u32 <$> seqZ r.1 (r.2 - r.1).

(** ** AllocEntitiesIter *)

Record AllocEntitiesIter := mkAllocIter { it_fresh : Z * Z; it_reused : FreeBufferIter }.

Definition AllocEntitiesIter_next (self : AllocEntitiesIter)
    : outcome (option Entity * AllocEntitiesIter) :=
  r ← FreeBufferIter_next (it_reused self);
  match r.1 with
  | Some e => Ret (Some e, mkAllocIter (it_fresh self) r.2)
  | None =>
      let '(o, fresh) := FreshEntityIter_next (it_fresh self) in
      Ret (o, mkAllocIter fresh r.2)
  end.

Definition AllocEntitiesIter_len (self : AllocEntitiesIter) : Z :=
  FreeBufferIter_len (it_reused self) + range_len (it_fresh self).1 (it_fresh self).2.

(** Consuming the iterator to its end. *)
Fixpoint AllocEntitiesIter_drain (fuel : nat) (it : AllocEntitiesIter) : outcome (list Entity) :=
  match fuel with
  | O => Undefined
  | S fuel' =>
      r ← AllocEntitiesIter_next it;
      match r.1 with
      | None => Ret []
      | Some e => es ← AllocEntitiesIter_drain fuel' r.2; Ret (e :: es)
      end
  end.

Definition AllocEntitiesIter_collect (it : AllocEntitiesIter) : outcome (list Entity) :=
  AllocEntitiesIter_drain (S (Z.to_nat (AllocEntitiesIter_len it))) it.

(** ** EntityAllocator *)

Definition LOCAL_CAP : nat := 127.

Record EntityAllocator := mkAllocator {
  sh_free : FreeList;
  sh_fresh : Z;
  sh_is_closed : bool;
  local_free : list Entity;
  local_alloc : list Entity
}.

Definition EntityAllocator_new : EntityAllocator :=
  mkAllocator FreeList_new FreshAllocator_new false [] [].

Definition EntityAllocator_drop (self : EntityAllocator) : EntityAllocator :=
  mkAllocator (sh_free self) (sh_fresh self) true (local_free self) (local_alloc self).

(** [ArrayVec::push_unchecked] on a buffer of [LOCAL_CAP] slots. *)
Definition push_unchecked (l : list Entity) (e : Entity) : outcome (list Entity) :=
  if decide (length l < LOCAL_CAP)%nat then Ret (l ++ [e]) else Undefined.

Definition push_all (l es : list Entity) : outcome (list Entity) :=
  foldl (λ acc e, l' ← acc; push_unchecked l' e) (Ret l) es.

Definition EntityAllocator_flush_freed (this : EntityAllocator) : outcome EntityAllocator :=
  fl ← FreeList_free (sh_free this) (local_free this);
  Ret (mkAllocator fl (sh_fresh this) (sh_is_closed this) [] (local_alloc this)).

Definition EntityAllocator_free (self : EntityAllocator) (entity : Entity)
    : outcome EntityAllocator :=
  self1 ← (if decide (length (local_free self) = LOCAL_CAP)
           then EntityAllocator_flush_freed self else Ret self);
  l ← push_unchecked (local_free self1) entity;
  Ret (mkAllocator (sh_free self1) (sh_fresh self1) (sh_is_closed self1) l (local_alloc self1)).

Definition EntityAllocator_free_many (self : EntityAllocator) (entities : list Entity)
    : outcome EntityAllocator :=
  if decide (length entities ≤ LOCAL_CAP - length (local_free self))%nat then
    Ret (mkAllocator (sh_free self) (sh_fresh self) (sh_is_closed self)
           (local_free self ++ entities) (local_alloc self))
  else
    fl ← FreeList_free (sh_free self) entities;
    Ret (mkAllocator fl (sh_fresh self) (sh_is_closed self) (local_free self) (local_alloc self)).

(** The refill of [alloc_mut]: a batch of [LOCAL_CAP + 1] entities, recycled
    ones first; the first is returned and the rest fill the local buffer. *)
Definition EntityAllocator_alloc_slow (this : EntityAllocator)
    : outcome (Entity * EntityAllocator) :=
  let count := Z.of_nat LOCAL_CAP + 1 in
  let '(reused, fl) := FreeList_alloc_many (sh_free this) count in
  let still_need := count - FreeBufferIter_len reused in
  let '(fresh, next_id) := FreshAllocator_alloc_many (sh_fresh this) still_need in
  fresh ← fresh;
  r ← FreeBufferIter_next reused;
  reused_rest ← FreeBufferIter_collect r.2;
  la ← push_all (local_alloc this) reused_rest;
  let '(ret, fresh) := match r.1 with
                       | Some e => (Some e, fresh)
                       | None => FreshEntityIter_next fresh
                       end in
  la ← push_all la (FreshEntityIter_rest fresh);
  e ← of_option ret;
  Ret (e, mkAllocator fl next_id (sh_is_closed this) (local_free this) la).

(** [pop] takes the last element. *)
Definition EntityAllocator_alloc_mut (self : EntityAllocator)
    : outcome (Entity * EntityAllocator) :=
  match last (local_alloc self) with
  | Some entity =>
      Ret (entity, mkAllocator (sh_free self) (sh_fresh self) (sh_is_closed self)
                     (local_free self)
                     (take (length (local_alloc self) - 1) (local_alloc self)))
  | None => EntityAllocator_alloc_slow self
  end.

Definition EntityAllocator_alloc (self : EntityAllocator) : outcome (Entity * EntityAllocator) :=
  r ← FreeList_alloc (sh_free self);
  match r.1 with
  | Some e => Ret (e, mkAllocator r.2 (sh_fresh self) (sh_is_closed self)
                        (local_free self) (local_alloc self))
  | None =>
      let '(o, next_id) := FreshAllocator_alloc (sh_fresh self) in
      e ← o;
      Ret (e, mkAllocator r.2 next_id (sh_is_closed self) (local_free self) (local_alloc self))
  end.

Definition EntityAllocator_alloc_many (self : EntityAllocator) (count : Z)
    : outcome (AllocEntitiesIter * EntityAllocator) :=
  let '(reused, fl) := FreeList_alloc_many (sh_free self) count in
  let still_need := count - FreeBufferIter_len reused in
  let '(fresh, next_id) := FreshAllocator_alloc_many (sh_fresh self) still_need in
  fresh ← fresh;
  Ret (mkAllocIter fresh reused,
       mkAllocator fl next_id (sh_is_closed self) (local_free self) (local_alloc self)).

#[global] Arguments FreshEntityIter_rest : simpl never.
#[global] Arguments push_all : simpl never.

(** ** The free list as a stack *)

(** The list holds [xs] and has been over-popped by [d]. *)
Definition FreeList_rep (fl : FreeList) (xs : list Entity) (d : Z) : Prop :=
  FreeBuffer_wf (fl_buffer fl) ∧ holds (fl_buffer fl) 0 xs ∧
  Z.of_nat (length xs) <= u32_max ∧ 0 <= d < 4294967296 ∧ (xs = [] ∨ d = 0) ∧
  ∃ g, gen_ok g ∧ fl_len fl = pack g 0 (4294967296 + Z.of_nat (length xs) - d).

Lemma FreeList_new_rep : FreeList_rep FreeList_new [] 0.
Proof.
  split; [apply FreeBuffer_new_wf|]. split; [by intros k e|]. split; [done|].
  split; [lia|]. split; [by left|]. exists 0. split; [done|]. done.
Qed.

Lemma rep_raw_ok (n d : Z) :
  0 <= n <= u32_max → 0 <= d < 4294967296 → raw_ok (4294967296 + n - d).
Proof. unfold u32_max, raw_ok. lia. Qed.

Lemma rep_length fl xs d :
  FreeList_rep fl xs d → FreeCountState_length (fl_len fl) = Z.of_nat (length xs).
Proof.
  intros (_ & _ & Hlen & Hd & Hxd & g & Hg & ->).
  rewrite length_pack by (apply rep_raw_ok; lia).
  destruct Hxd as [-> | ->]; cbn; lia.
Qed.

Lemma holds_prefix b lo xs ys : holds b lo (xs ++ ys) → holds b lo xs.
Proof. intros H k e Hk. apply H. by apply lookup_app_l_Some. Qed.

Lemma gen_ok_pred g : gen_ok ((g - 1) mod 1073741824).
Proof. unfold gen_ok. mlia. Qed.

(** The state word after popping [n]. *)
Lemma rep_pop fl xs d n ys d' :
  FreeList_rep fl xs d → is_u32 n →
  holds (fl_buffer fl) 0 ys → (ys = [] ∨ d' = 0) → 0 <= d' < 4294967296 →
  Z.of_nat (length ys) - d' = Z.of_nat (length xs) - d - n →
  (length ys ≤ length xs)%nat →
  FreeList_rep (mkFreeList (fl_buffer fl)
    (wsub64 (fl_len fl) (FreeCountState_encode_generation n))) ys d'.
Proof.
  intros (Hwf & _ & Hlen & Hd & _ & g & Hg & ->) Hn Hys Hcase Hd' Heq Hle.
  unfold FreeList_rep; cbn [fl_buffer fl_len].
  split; [done|]. split; [done|]. split; [lia|]. split; [done|]. split; [done|].
  exists ((g - 1) mod 1073741824). split; [apply gen_ok_pred|].
  rewrite pop_pack; [f_equal; lia|done|by unfold bit_ok| |done|lia].
  apply rep_raw_ok; lia.
Qed.

Lemma alloc_some fl xs e :
  FreeList_rep fl (xs ++ [e]) 0 →
  ∃ fl', FreeList_alloc fl = Ret (Some e, fl') ∧ FreeList_rep fl' xs 0.
Proof.
  intros Hrep. pose proof (rep_length _ _ _ Hrep) as Hl. rewrite length_app in Hl. cbn in Hl.
  pose proof Hrep as (_ & Hh & _).
  unfold FreeList_alloc, FreeCount_pop_for_state. cbn [fl_buffer].
  rewrite Hl. unfold checked_sub. rewrite (proj2 (Z.ltb_ge _ 1)) by lia.
  assert (FreeBuffer_get (fl_buffer fl) (Z.of_nat (length xs + 1) - 1) = Ret e) as ->.
  { replace (Z.of_nat (length xs + 1) - 1) with (0 + Z.of_nat (length xs)) by lia.
    apply Hh. rewrite lookup_app_r by lia. by rewrite Nat.sub_diag. }
  cbn. eexists. split; [done|].
  eapply rep_pop; [done|done| |by right|lia| |]; rewrite ?length_app; cbn; try lia.
  by eapply holds_prefix.
Qed.

Lemma alloc_none fl d :
  FreeList_rep fl [] d → d + 1 < 4294967296 →
  ∃ fl', FreeList_alloc fl = Ret (None, fl') ∧ FreeList_rep fl' [] (d + 1).
Proof.
  intros Hrep Hd. pose proof (rep_length _ _ _ Hrep) as Hl. cbn in Hl.
  unfold FreeList_alloc, FreeCount_pop_for_state. rewrite Hl. cbn.
  eexists. split; [done|]. pose proof Hrep as (_ & Hh & _ & Hd0 & _).
  eapply rep_pop; [done|done|done|by left|lia|cbn; lia|done].
Qed.

Lemma holds_suffix b xs n : holds b 0 xs → (n ≤ length xs)%nat → holds b (Z.of_nat n) (drop n xs).
Proof. intros H _. by apply (holds_drop b 0 xs n) in H. Qed.

(** Popping a batch: the top of the stack, in buffer order. *)
Lemma alloc_many_spec fl xs d count :
  FreeList_rep fl xs d → is_u32 count →
  let k := Nat.min (Z.to_nat count) (length xs) in
  d + (count - Z.of_nat k) < 4294967296 →
  ∃ it fl', FreeList_alloc_many fl count = (it, fl') ∧
    iter_rep it (drop (length xs - k) xs) ∧
    FreeList_rep fl' (take (length xs - k) xs) (d + (count - Z.of_nat k)).
Proof.
  intros Hrep Hc k Hd. pose proof (rep_length _ _ _ Hrep) as Hl.
  pose proof Hrep as (Hwf & Hh & Hlen & Hd0 & Hcase & _). unfold is_u32 in Hc.
  assert (Hk : Z.of_nat k = Z.min count (Z.of_nat (length xs))) by (unfold k; lia).
  assert (Hkle : (k ≤ length xs)%nat) by (unfold k; lia).
  unfold FreeList_alloc_many, FreeCount_pop_for_state. rewrite Hl, sat_sub_max.
  replace (Z.max 0 (Z.of_nat (length xs) - count)) with (Z.of_nat (length xs - k)) by lia.
  eexists _, _. split; [done|]. split.
  - apply iter_rep_iter; [done|lia|lia|apply holds_suffix; [done|lia]|].
    rewrite length_drop. lia.
  - eapply rep_pop; [done|done| | |lia| |].
    + eapply holds_prefix. by rewrite take_drop.
    + destruct Hcase as [-> | ->]; [left; by rewrite take_nil|].
      destruct (decide (length xs ≤ Z.to_nat count)%nat).
      * left. replace (length xs - k)%nat with 0%nat by (unfold k; lia). done.
      * right. unfold k. lia.
    + rewrite length_take. lia.
    + rewrite length_take. lia.
Qed.

(** Pushing a batch on top, whatever had been over-popped. *)
Lemma free_rep fl xs d es :
  FreeList_rep fl xs d → Z.of_nat (length xs + length es) <= u32_max →
  ∃ fl', FreeList_free fl es = Ret fl' ∧ FreeList_rep fl' (xs ++ es) 0.
Proof.
  intros Hrep Hb. pose proof (rep_length _ _ _ Hrep) as Hl.
  destruct Hrep as (Hwf & Hh & Hlen & Hd & _ & g & Hg & Hword).
  unfold FreeList_free, FreeCount_disable_for_state, FreeCount_set_state_risky. rewrite Hl.
  destruct (set_slice_loop_spec (length es) (fl_buffer fl) (Z.of_nat (length xs)) es)
    as (b' & Hset & Hwf' & Hin & Hout); [lia|done|lia|lia|].
  unfold FreeBuffer_set_slice. rewrite Hset. cbn.
  rewrite (proj2 (Z.ltb_ge _ _)) by lia. eexists. split; [done|].
  unfold u32_max in *. split; [done|]. cbn [fl_buffer fl_len]. split.
  { intros k e [Hk|[Hk Hk']]%lookup_app_Some.
    - apply Hout; [|apply lookup_lt_Some in Hk; lia|by apply Hh].
      apply lookup_lt_Some in Hk. unfold is_u32. lia.
    - replace (0 + Z.of_nat k) with (Z.of_nat (length xs) + Z.of_nat (k - length xs)) by lia.
      by apply Hin. }
  rewrite length_app. split; [unfold u32_max; lia|]. split; [lia|]. split; [by right|].
  exists g. split; [done|]. rewrite Hword, with_length_pack;
    [f_equal; lia|done|by unfold bit_ok| |unfold is_u32; lia].
  apply rep_raw_ok; unfold u32_max; lia.
Qed.

(** ** Draining [AllocEntitiesIter] *)

Lemma fresh_rest_cons lo hi :
  lo < hi → FreshEntityIter_rest (lo, hi) = entity_from_u32 lo :: FreshEntityIter_rest (lo + 1, hi).
Proof.
  intros H. unfold FreshEntityIter_rest; cbn. rewrite seqZ_cons by lia. cbn.
  replace (Z.pred (hi - lo)) with (hi - (lo + 1)) by lia. done.
Qed.

Lemma fresh_rest_nil lo hi : hi <= lo → FreshEntityIter_rest (lo, hi) = [].
Proof. intros H. unfold FreshEntityIter_rest; cbn. by rewrite seqZ_nil by lia. Qed.

Lemma fresh_drain_spec n : ∀ lo hi it fuel,
  iter_rep it [] → Z.to_nat (hi - lo) = n → (n < fuel)%nat →
  AllocEntitiesIter_drain fuel (mkAllocIter (lo, hi) it) = Ret (FreshEntityIter_rest (lo, hi)).
Proof.
  induction n as [|n IH]; intros lo hi it [|fuel] Hrep Hn Hf; try lia;
    cbn [AllocEntitiesIter_drain]; unfold AllocEntitiesIter_next; cbn [it_reused it_fresh];
    rewrite (iter_rep_next_nil it Hrep); cbn; unfold FreshEntityIter_next; cbn.
  - rewrite (proj2 (Z.ltb_ge lo hi)) by lia. cbn. by rewrite fresh_rest_nil by lia.
  - rewrite (proj2 (Z.ltb_lt lo hi)) by lia. cbn.
    rewrite (IH (lo + 1) hi it fuel) by (done || lia). cbn. by rewrite <- fresh_rest_cons by lia.
Qed.

Lemma alloc_iter_drain l : ∀ lo hi it fuel,
  iter_rep it l → (length l + Z.to_nat (hi - lo) < fuel)%nat →
  AllocEntitiesIter_drain fuel (mkAllocIter (lo, hi) it)
  = Ret (l ++ FreshEntityIter_rest (lo, hi)).
Proof.
  induction l as [|x l IH]; intros lo hi it fuel Hrep Hf.
  { by apply (fresh_drain_spec (Z.to_nat (hi - lo))). }
  destruct fuel as [|fuel]; [lia|]. cbn in Hf. cbn [AllocEntitiesIter_drain].
  unfold AllocEntitiesIter_next; cbn [it_reused it_fresh].
  destruct (iter_rep_next_cons it x l Hrep) as (it' & -> & Hrep'). cbn.
  by rewrite (IH lo hi it' fuel) by (done || lia).
Qed.

Lemma alloc_iter_collect l lo hi it :
  iter_rep it l →
  AllocEntitiesIter_collect (mkAllocIter (lo, hi) it) = Ret (l ++ FreshEntityIter_rest (lo, hi)).
Proof.
  intros Hrep. unfold AllocEntitiesIter_collect. apply alloc_iter_drain; [done|].
  unfold AllocEntitiesIter_len; cbn. rewrite (iter_rep_len it l Hrep). unfold range_len.
  destruct (Z.ltb_spec lo hi); lia.
Qed.

(** ** Who holds which identifier *)

Definition ident (e : Entity) : Z := id_bits (ent_id e).

(** [out] lists the identifiers handed to callers.  Together with the ones in
    the local buffers and in the free list they are exactly the identifiers
    issued so far; the free list is over-popped by at most their number. *)
Definition EntityAllocator_inv (a : EntityAllocator) (out : list Z) : Prop :=
  ∃ xs d, FreeList_rep (sh_free a) xs d ∧ d <= sh_fresh a - 1 ∧
    1 <= sh_fresh a <= u32_max ∧
    (length (local_free a) ≤ LOCAL_CAP)%nat ∧ (length (local_alloc a) ≤ LOCAL_CAP)%nat ∧
    out ++ (ident <$> (local_free a ++ local_alloc a ++ xs)) ≡ₚ seqZ 1 (sh_fresh a - 1).

Lemma EntityAllocator_new_inv : EntityAllocator_inv EntityAllocator_new [].
Proof.
  exists [], 0. split; [apply FreeList_new_rep|]. cbn.
  split; [done|]. split; [unfold FreshAllocator_new, u32_max; lia|].
  split; [unfold LOCAL_CAP; lia|]. split; [unfold LOCAL_CAP; lia|]. done.
Qed.

(** Identifiers are conserved when some move between holders and [n] fresh
    ones are issued. *)
Lemma issue_fresh (l l' : list Z) (next n : Z) :
  1 <= next → 0 <= n → l ≡ₚ seqZ 1 (next - 1) → l' ≡ₚ l ++ seqZ next n →
  l' ≡ₚ seqZ 1 (next + n - 1).
Proof.
  intros Hnext Hn Hl ->. rewrite Hl.
  replace (next + n - 1) with ((next - 1) + n) by lia.
  rewrite seqZ_app by lia. by replace (1 + (next - 1)) with next by lia.
Qed.

Lemma ident_fresh (lo hi : Z) : ident <$> FreshEntityIter_rest (lo, hi) = seqZ lo (hi - lo).
Proof.
  unfold FreshEntityIter_rest; cbn. rewrite <- list_fmap_compose.
  rewrite <- (list_fmap_id (seqZ lo (hi - lo))) at 2. by apply list_fmap_ext.
Qed.

Lemma fresh_alloc_many_spec next count :
  1 <= next <= u32_max → 0 <= count <= u32_max →
  (∃ r, FreshAllocator_alloc_many next count = (Ret r, next + count) ∧
        next + count <= u32_max ∧
        ident <$> FreshEntityIter_rest r = seqZ next count ∧
        r.2 - r.1 = count) ∨
  (∃ n', FreshAllocator_alloc_many next count = (Panic, n') ∧ u32_max < next + count).
Proof.
  intros Hn Hc. unfold FreshAllocator_alloc_many, MAX_ENTITIES, u32_max in *.
  destruct (Z.eqb_spec count 0) as [->|Hne].
  { left. exists (0, 0). rewrite Z.add_0_r. by repeat (split; [done || lia|]). }
  destruct (Z.ltb_spec (4294967295 - count) next) as [Hlt|Hge].
  - right. eexists. split; [done|lia].
  - left. exists (next, next + count). split; [f_equal; width|]. split; [lia|].
    rewrite ident_fresh. cbn. replace (next + count - next) with count by lia. done.
Qed.

Lemma push_all_spec es : ∀ l,
  (length l + length es ≤ LOCAL_CAP)%nat → push_all l es = Ret (l ++ es).
Proof.
  unfold push_all. induction es as [|e es IH]; intros l Hl; cbn in *.
  { by rewrite app_nil_r. }
  unfold push_unchecked at 2. rewrite decide_True by lia.
  rewrite IH by (rewrite length_app; cbn; lia). by rewrite <- app_assoc.
Qed.

(** Total number of identifiers: bounds every list involved. *)
Lemma inv_count a out xs :
  out ++ (ident <$> (local_free a ++ local_alloc a ++ xs)) ≡ₚ seqZ 1 (sh_fresh a - 1) →
  1 <= sh_fresh a →
  Z.of_nat (length out + length (local_free a) + length (local_alloc a) + length xs)
  = sh_fresh a - 1.
Proof.
  intros Hp Hf. apply Permutation_length in Hp.
  rewrite length_seqZ, length_app, length_fmap, !length_app in Hp. lia.
Qed.

Lemma flush_inv a out :
  EntityAllocator_inv a out →
  ∃ a', EntityAllocator_flush_freed a = Ret a' ∧ EntityAllocator_inv a' out ∧
        local_free a' = [].
Proof.
  intros (xs & d & Hrep & Hd & Hf & Hlf & Hla & Hp).
  pose proof (inv_count a out xs Hp ltac:(lia)) as Hcount.
  destruct (free_rep (sh_free a) xs d (local_free a) Hrep) as (fl' & Hfree & Hrep'); [lia|].
  unfold EntityAllocator_flush_freed. rewrite Hfree. cbn. eexists. split; [done|].
  split; [|done]. exists (xs ++ local_free a), 0. cbn. split; [done|].
  split; [lia|]. split; [done|]. split; [lia|]. split; [done|].
  rewrite <- Hp. rewrite !fmap_app. solve_Permutation.
Qed.

(** [free] takes back an identifier that is out. *)
Lemma free_inv a out out' e :
  EntityAllocator_inv a out → out ≡ₚ ident e :: out' →
  ∃ a', EntityAllocator_free a e = Ret a' ∧ EntityAllocator_inv a' out'.
Proof.
  intros Hinv Hout.
  assert (∃ a1, (if decide (length (local_free a) = LOCAL_CAP)
    then EntityAllocator_flush_freed a else Ret a) = Ret a1 ∧ EntityAllocator_inv a1 out ∧
    (length (local_free a1) < LOCAL_CAP)%nat) as (a1 & Hflush & Hinv1 & Hroom).
  { case_decide.
    - destruct (flush_inv a out Hinv) as (a1 & -> & Hinv1 & Hnil). exists a1.
      split; [done|]. split; [done|]. rewrite Hnil. cbn. unfold LOCAL_CAP. lia.
    - exists a. split; [done|]. split; [done|]. destruct Hinv as (?&?&_&_&_&?&_). lia. }
  unfold EntityAllocator_free. rewrite Hflush. cbn.
  unfold push_unchecked. rewrite decide_True by done. cbn. eexists. split; [done|].
  destruct Hinv1 as (xs & d & Hrep & Hd & Hf & Hlf & Hla & Hp).
  exists xs, d. cbn. split; [done|]. split; [done|]. split; [done|].
  split; [rewrite length_app; cbn; lia|]. split; [done|].
  rewrite <- Hp, Hout, !fmap_app. cbn. solve_Permutation.
Qed.

Lemma free_many_inv a out out' es :
  EntityAllocator_inv a out → out ≡ₚ (ident <$> es) ++ out' →
  ∃ a', EntityAllocator_free_many a es = Ret a' ∧ EntityAllocator_inv a' out'.
Proof.
  intros (xs & d & Hrep & Hd & Hf & Hlf & Hla & Hp) Hout.
  pose proof (inv_count a out xs Hp ltac:(lia)) as Hcount.
  pose proof (Permutation_length Hout) as Hol. rewrite length_app, length_fmap in Hol.
  unfold EntityAllocator_free_many. case_decide.
  - eexists. split; [done|]. exists xs, d. cbn.
    split; [done|]. split; [done|]. split; [done|].
    split; [rewrite length_app; lia|]. split; [done|].
    rewrite <- Hp, Hout, !fmap_app. solve_Permutation.
  - destruct (free_rep (sh_free a) xs d es Hrep) as (fl' & -> & Hrep'); [lia|].
    cbn. eexists. split; [done|]. exists (xs ++ es), 0. cbn.
    split; [done|]. split; [lia|]. split; [done|]. split; [done|]. split; [done|].
    rewrite <- Hp, Hout, !fmap_app. solve_Permutation.
Qed.

(** How many recycled entities a batch gets, before anything is consumed. *)
Lemma alloc_many_len fl xs d count :
  FreeList_rep fl xs d → is_u32 count →
  FreeBufferIter_len (FreeList_alloc_many fl count).1
  = Z.of_nat (Nat.min (Z.to_nat count) (length xs)).
Proof.
  intros Hrep Hc. unfold is_u32 in Hc. unfold FreeList_alloc_many, FreeCount_pop_for_state.
  rewrite (rep_length _ _ _ Hrep), sat_sub_max. unfold FreeBufferIter_len, range_len; cbn.
  destruct (Z.ltb_spec (Z.max 0 (Z.of_nat (length xs) - count)) (Z.of_nat (length xs))); lia.
Qed.

(** [alloc_many] over-pops by exactly the number of fresh identifiers. *)
Lemma alloc_many_inv a out count :
  EntityAllocator_inv a out → is_u32 count →
  (∃ it a' es, EntityAllocator_alloc_many a count = Ret (it, a') ∧
     AllocEntitiesIter_collect it = Ret es ∧ Z.of_nat (length es) = count ∧
     EntityAllocator_inv a' (out ++ (ident <$> es))) ∨
  (EntityAllocator_alloc_many a count = Panic ∧ u32_max < sh_fresh a + count).
Proof.
  intros (xs & d & Hrep & Hd & Hf & Hlf & Hla & Hp) Hc.
  pose proof (alloc_many_len _ _ _ count Hrep Hc) as Hlen. unfold is_u32 in Hc.
  pose proof (inv_count a out xs Hp ltac:(lia)) as Hcount.
  set (k := Nat.min (Z.to_nat count) (length xs)) in *.
  assert (Hk : (Z.of_nat k <= count) ∧ (k ≤ length xs)%nat) by (unfold k; lia).
  unfold EntityAllocator_alloc_many.
  destruct (fresh_alloc_many_spec (sh_fresh a) (count - Z.of_nat k))
    as [(r & Hfr & Hmax & Hid & Hrl)|(n' & Hfr & Hmax)]; [done|unfold u32_max; lia| |].
  - left. destruct (alloc_many_spec (sh_free a) xs d count Hrep Hc) as (it & fl' & Ham & Hit & Hrep').
    { fold k. unfold u32_max in *. lia. }
    fold k in Hit, Hrep'. rewrite Ham in Hlen |- *. cbn in Hlen. rewrite Hlen, Hfr. cbn.
    eexists _, _, _. split; [done|].
    destruct r as [lo hi]. split; [by apply alloc_iter_collect|].
    assert (length (FreshEntityIter_rest (lo, hi)) = Z.to_nat (count - Z.of_nat k)) as Hlr.
    { rewrite <- (length_fmap ident), Hid, length_seqZ. done. }
    split; [rewrite length_app, length_drop, Hlr; lia|].
    exists (take (length xs - k) xs), (d + (count - Z.of_nat k)). cbn.
    split; [done|]. split; [lia|]. split; [lia|]. split; [done|]. split; [done|].
    rewrite <- (take_drop (length xs - k) xs) in Hp.
    eapply issue_fresh; [| |exact Hp|]; [lia|lia|].
    rewrite !fmap_app, Hid. solve_Permutation.
  - right. split; [|lia].
    destruct (FreeList_alloc_many (sh_free a) count) as [it fl']. cbn in Hlen.
    by rewrite Hlen, Hfr.
Qed.

Lemma alloc_inv a out :
  EntityAllocator_inv a out →
  (∃ e a', EntityAllocator_alloc a = Ret (e, a') ∧ EntityAllocator_inv a' (out ++ [ident e])) ∨
  (EntityAllocator_alloc a = Panic ∧ sh_fresh a = u32_max).
Proof.
  intros (xs & d & Hrep & Hd & Hf & Hlf & Hla & Hp). unfold EntityAllocator_alloc.
  destruct xs as [|e ys _] using rev_ind.
  - destruct (alloc_none (sh_free a) d Hrep) as (fl' & -> & Hrep').
    { unfold u32_max in *. lia. }
    cbn. unfold FreshAllocator_alloc, MAX_ENTITIES.
    destruct (Z.eqb_spec (sh_fresh a) u32_max) as [He|Hne]; [by right|].
    left. cbn. eexists _, _. split; [done|]. exists [], (d + 1). cbn.
    replace (wadd32 (sh_fresh a) 1) with (sh_fresh a + 1) by width.
    split; [done|]. split; [lia|]. split; [lia|]. split; [done|]. split; [done|].
    eapply issue_fresh; [| |exact Hp|]; [lia|lia|].
    rewrite seqZ_cons, seqZ_nil by lia. rewrite !fmap_app. unfold ident; cbn. solve_Permutation.
  - assert (d = 0) as ->.
    { destruct Hrep as (_ & _ & _ & _ & [Hnil|Hd0] & _); [by destruct ys|done]. }
    destruct (alloc_some (sh_free a) ys e Hrep) as (fl' & -> & Hrep').
    cbn. left. eexists _, _. split; [done|]. exists ys, 0. cbn.
    split; [done|]. split; [done|]. split; [done|]. split; [done|]. split; [done|].
    rewrite <- Hp, !fmap_app. cbn. solve_Permutation.
Qed.

Lemma alloc_slow_inv a out :
  EntityAllocator_inv a out → local_alloc a = [] →
  (∃ e a', EntityAllocator_alloc_slow a = Ret (e, a') ∧
           EntityAllocator_inv a' (out ++ [ident e])) ∨
  (EntityAllocator_alloc_slow a = Panic ∧ u32_max < sh_fresh a + 128).
Proof.
  intros (xs & d & Hrep & Hd & Hf & Hlf & Hla & Hp) Hnil.
  assert (Hc : is_u32 128) by (unfold is_u32; lia).
  pose proof (alloc_many_len _ _ _ 128 Hrep Hc) as Hlen.
  pose proof (inv_count a out xs Hp ltac:(lia)) as Hcount.
  set (k := Nat.min (Z.to_nat 128) (length xs)) in *.
  assert (Hk : (k ≤ 128)%nat ∧ (k ≤ length xs)%nat) by (unfold k; lia).
  unfold EntityAllocator_alloc_slow. change (Z.of_nat LOCAL_CAP + 1) with 128.
  destruct (fresh_alloc_many_spec (sh_fresh a) (128 - Z.of_nat k))
    as [(r & Hfr & Hmax & Hid & Hrl)|(n' & Hfr & Hmax)]; [done|unfold u32_max; lia| |].
  2: { right. split; [|lia]. destruct (FreeList_alloc_many (sh_free a) 128) as [it fl'].
       cbn in Hlen. by rewrite Hlen, Hfr. }
  left. destruct (alloc_many_spec (sh_free a) xs d 128 Hrep Hc) as (it & fl' & Ham & Hit & Hrep').
  { fold k. unfold u32_max in *. lia. }
  fold k in Hit, Hrep'. rewrite Ham in Hlen |- *. cbn in Hlen. rewrite Hlen, Hfr. cbn.
  rewrite <- (take_drop (length xs - k) xs) in Hp. rewrite Hnil in Hp |- *.
  assert (HR : length (drop (length xs - k) xs) = k) by (rewrite length_drop; lia).
  assert (HF : length (FreshEntityIter_rest r) = Z.to_nat (128 - Z.of_nat k)).
  { rewrite <- (length_fmap ident), Hid, length_seqZ. done. }
  destruct (drop (length xs - k) xs) as [|x R] eqn:HdR; cbn in HR.
  - rewrite (iter_rep_next_nil it Hit). cbn. rewrite (iter_rep_collect it [] Hit). cbn.
    destruct r as [lo hi]. cbn in Hrl. unfold FreshEntityIter_next; cbn.
    rewrite (proj2 (Z.ltb_lt lo hi)) by lia. cbn.
    rewrite fresh_rest_cons in HF, Hid by lia. cbn in HF.
    rewrite !push_all_spec by (unfold LOCAL_CAP; cbn; lia). cbn.
    rewrite push_all_spec by (unfold LOCAL_CAP; cbn; lia). cbn.
    eexists _, _. split; [done|].
    exists (take (length xs - k) xs), (d + (128 - Z.of_nat k)). cbn.
    split; [done|]. split; [lia|]. split; [lia|]. split; [done|].
    split; [unfold LOCAL_CAP; lia|].
    eapply issue_fresh; [| |exact Hp|]; [lia|lia|].
    rewrite <- Hid, !fmap_app. cbn. solve_Permutation.
  - destruct (iter_rep_next_cons it x R Hit) as (it' & -> & Hit'). cbn.
    rewrite (iter_rep_collect it' R Hit'). cbn.
    rewrite push_all_spec by (unfold LOCAL_CAP; cbn; lia). cbn.
    rewrite push_all_spec by (unfold LOCAL_CAP; cbn; lia). cbn.
    eexists _, _. split; [done|].
    exists (take (length xs - k) xs), (d + (128 - Z.of_nat k)). cbn.
    split; [done|]. split; [lia|]. split; [lia|]. split; [done|].
    split; [rewrite length_app; unfold LOCAL_CAP; lia|].
    eapply issue_fresh; [| |exact Hp|]; [lia|lia|].
    rewrite <- Hid, !fmap_app. cbn. solve_Permutation.
Qed.

Lemma alloc_mut_inv a out :
  EntityAllocator_inv a out →
  (∃ e a', EntityAllocator_alloc_mut a = Ret (e, a') ∧
           EntityAllocator_inv a' (out ++ [ident e])) ∨
  (EntityAllocator_alloc_mut a = Panic ∧ u32_max < sh_fresh a + 128).
Proof.
  intros Hinv. unfold EntityAllocator_alloc_mut.
  destruct (local_alloc a) as [|e l _] eqn:Hl using rev_ind.
  { cbn. by apply alloc_slow_inv. }
  rewrite last_snoc. left. eexists _, _. split; [done|].
  destruct Hinv as (xs & d & Hrep & Hd & Hf & Hlf & Hla & Hp). rewrite Hl in Hla, Hp.
  rewrite length_app in Hla |- *. cbn in Hla |- *.
  replace (length l + 1 - 1)%nat with (length l) by lia. rewrite take_app_length.
  exists xs, d. cbn. split; [done|]. split; [done|]. split; [done|]. split; [done|].
  split; [lia|]. rewrite <- Hp, !fmap_app. cbn. solve_Permutation.
Qed.

(** ** Histories *)

(** One call by the owner; [out] are the identifiers callers hold.  A freed
    entity must be one of them (its generation may have advanced). *)
Inductive alloc_step : EntityAllocator * list Z → EntityAllocator * list Z → Prop :=
| step_alloc a out e a' :
    EntityAllocator_alloc a = Ret (e, a') →
    alloc_step (a, out) (a', out ++ [ident e])
| step_alloc_mut a out e a' :
    EntityAllocator_alloc_mut a = Ret (e, a') →
    alloc_step (a, out) (a', out ++ [ident e])
| step_alloc_many a out count it a' es :
    is_u32 count → EntityAllocator_alloc_many a count = Ret (it, a') →
    AllocEntitiesIter_collect it = Ret es →
    alloc_step (a, out) (a', out ++ (ident <$> es))
| step_free a out out' e a' :
    out ≡ₚ ident e :: out' → EntityAllocator_free a e = Ret a' →
    alloc_step (a, out) (a', out')
| step_free_many a out out' es a' :
    out ≡ₚ (ident <$> es) ++ out' → EntityAllocator_free_many a es = Ret a' →
    alloc_step (a, out) (a', out').

Lemma alloc_step_inv s s' :
  alloc_step s s' → EntityAllocator_inv s.1 s.2 → EntityAllocator_inv s'.1 s'.2.
Proof.
  intros Hstep Hinv. destruct Hstep as
    [a out e a' H|a out e a' H|a out count it a' es Hc H He|a out out' e a' Ho H|a out out' es a' Ho H];
    cbn [fst snd] in *.
  - destruct (alloc_inv a out Hinv) as [(e0 & a0 & H0 & ?)|[H0 _]];
      rewrite H in H0; by simplify_eq.
  - destruct (alloc_mut_inv a out Hinv) as [(e0 & a0 & H0 & ?)|[H0 _]];
      rewrite H in H0; by simplify_eq.
  - destruct (alloc_many_inv a out count Hinv Hc) as [(it0 & a0 & es0 & H0 & H1 & _ & ?)|[H0 _]];
      [|congruence]. assert (it = it0 ∧ a' = a0) as [-> ->] by (split; congruence).
    by assert (es = es0) as -> by congruence.
  - destruct (free_inv a out out' e Hinv Ho) as (a0 & H0 & ?).
    rewrite H in H0. by simplify_eq.
  - destruct (free_many_inv a out out' es Hinv Ho) as (a0 & H0 & ?).
    rewrite H in H0. by simplify_eq.
Qed.

Lemma alloc_reachable_inv s :
  rtc alloc_step (EntityAllocator_new, []) s → EntityAllocator_inv s.1 s.2.
Proof.
  intros Hr.
  assert (∀ s0 s1, rtc alloc_step s0 s1 →
    EntityAllocator_inv s0.1 s0.2 → EntityAllocator_inv s1.1 s1.2) as Hind.
  { intros s0 s1. induction 1; eauto using alloc_step_inv. }
  apply (Hind _ _ Hr). apply EntityAllocator_new_inv.
Qed.

(** ** Properties *)

(** C15: no identifier is issued twice.  In every history of allocations and
    frees by the owner, the identifiers callers hold are pairwise distinct
    and disjoint from the ones in the local buffers and the free list, and
    all of these together are exactly the identifiers issued so far: none is
    duplicated and none is lost. *)
Theorem allocator_partition (a : EntityAllocator) (out : list Z) :
  rtc alloc_step (EntityAllocator_new, []) (a, out) →
  ∃ recycled, NoDup (out ++ recycled) ∧
    out ++ recycled ≡ₚ seqZ 1 (FreshAllocator_count (sh_fresh a)) ∧
    Z.of_nat (length recycled)
    = Z.of_nat (length (local_free a)) + Z.of_nat (length (local_alloc a))
      + FreeList_count (sh_free a).
Proof.
  intros (xs & d & Hrep & _ & _ & _ & _ & Hp)%alloc_reachable_inv. cbn in *.
  exists (ident <$> (local_free a ++ local_alloc a ++ xs)). split; [|split].
  - rewrite Hp. apply NoDup_seqZ.
  - done.
  - unfold FreeList_count, FreeCount_acquire_state. rewrite (rep_length _ _ _ Hrep).
    rewrite length_fmap, !length_app. lia.
Qed.

(** the allocator is total.  In every reachable state each operation
    returns (no out-of-bounds access, no missing chunk), and the only panic
    is exhaustion of the 32-bit identifier space. *)
Theorem allocator_total (a : EntityAllocator) (out : list Z) :
  rtc alloc_step (EntityAllocator_new, []) (a, out) →
  ((∃ r, EntityAllocator_alloc a = Ret r) ∨
   (EntityAllocator_alloc a = Panic ∧ sh_fresh a = u32_max)) ∧
  ((∃ r, EntityAllocator_alloc_mut a = Ret r) ∨
   (EntityAllocator_alloc_mut a = Panic ∧ u32_max < sh_fresh a + 128)) ∧
  (∀ count, is_u32 count →
     (∃ it a' es, EntityAllocator_alloc_many a count = Ret (it, a') ∧
        AllocEntitiesIter_collect it = Ret es ∧ Z.of_nat (length es) = count) ∨
     (EntityAllocator_alloc_many a count = Panic ∧ u32_max < sh_fresh a + count)) ∧
  (∀ e out', out ≡ₚ ident e :: out' → ∃ a', EntityAllocator_free a e = Ret a') ∧
  (∀ es out', out ≡ₚ (ident <$> es) ++ out' → ∃ a', EntityAllocator_free_many a es = Ret a').
Proof.
  intros Hinv%alloc_reachable_inv. cbn in Hinv. split; [|split; [|split; [|split]]].
  - destruct (alloc_inv a out Hinv) as [(e & a' & H & _)|?]; eauto.
  - destruct (alloc_mut_inv a out Hinv) as [(e & a' & H & _)|?]; eauto.
  - intros count Hc. destruct (alloc_many_inv a out count Hinv Hc)
      as [(it & a' & es & ? & ? & ? & _)|?]; naive_solver.
  - intros e out' Ho. destruct (free_inv a out out' e Hinv Ho) as (a' & H & _). eauto.
  - intros es out' Ho. destruct (free_many_inv a out out' es Hinv Ho) as (a' & H & _). eauto.
Qed.

Definition ex_id (i t : Z) : Entity := mkEntity (mkEntityId i) (mkEntityTag t).

(** Allocate two, free the first with an advanced generation. *)
Definition ex_alloc_state : EntityAllocator :=
  mkAllocator (mkFreeList FreeBuffer_new (pack 1073741822 0 4294967294)) 3 false [ex_id 1 1] [].

Lemma ex_alloc_reachable : rtc alloc_step (EntityAllocator_new, []) (ex_alloc_state, [2]).
Proof.
  eapply rtc_l.
  { apply (step_alloc _ _ (ex_id 1 0)
      (mkAllocator (mkFreeList FreeBuffer_new (pack 1073741823 0 4294967295)) 2 false [] [])).
    vm_compute. reflexivity. }
  eapply rtc_l.
  { apply (step_alloc _ _ (ex_id 2 0)
      (mkAllocator (mkFreeList FreeBuffer_new (pack 1073741822 0 4294967294)) 3 false [] [])).
    vm_compute. reflexivity. }
  eapply rtc_l; [|apply rtc_refl].
  apply (step_free _ _ [2] (ex_id 1 1)).
  - done.
  - vm_compute. reflexivity.
Defined.

Lemma allocator_partition_witness :
  ∃ recycled, NoDup ([2] ++ recycled) ∧ [2] ++ recycled ≡ₚ [1; 2].
Proof.
  destruct (allocator_partition ex_alloc_state [2] ex_alloc_reachable) as (r & H1 & H2 & _).
  exists r. split; [done|]. exact H2.
Defined.

Lemma allocator_total_witness :
  ∃ a', EntityAllocator_free ex_alloc_state (ex_id 2 5) = Ret a'.
Proof.
  destruct (allocator_total ex_alloc_state [2] ex_alloc_reachable) as (_ & _ & _ & H & _).
  by apply (H (ex_id 2 5) []).
Defined.

(** what the identifier overflow leaves behind.  A call of [alloc] on an
    exhausted counter panics, but the counter has already been advanced and
    has wrapped: the next call returns identifier 0, which [EntityId] must
    never hold, and the calls after it return identifiers already issued. *)
Theorem fresh_overflow_wraps :
  let '(o1, n1) := FreshAllocator_alloc MAX_ENTITIES in
  let '(o2, n2) := FreshAllocator_alloc n1 in
  let '(o3, _) := FreshAllocator_alloc n2 in
  o1 = Panic ∧ o2 = Ret (entity_from_u32 0) ∧ ¬ Entity_valid (entity_from_u32 0) ∧
  o3 = Ret (entity_from_u32 1).
Proof.
  cbn. split; [done|]. split; [done|]. split; [|done].
  intros [[H _] _]. cbn in H. lia.
Qed.
