(* ===== verification/Held.v ===== *)
(** * What the allocator holds

    The allocator's invariant with the entities themselves, not only their
    identifiers: an allocation takes one of the entities held, or a fresh one of
    the first generation, and keeps the rest; a free adds one. *)

From Stdlib Require Import ZArith Lia.
From S2P Require Import Prelude EntityIdent FreeCount FreeBuffer Allocator.
Local Open Scope Z_scope.

(** [out] are the identifiers callers hold, [held] the entities the allocator
    holds. *)
Definition allocator_held (a : EntityAllocator) (out : list Z) (held : list Entity) : Prop :=
  ∃ xs d, FreeList_rep (sh_free a) xs d ∧ d <= sh_fresh a - 1 ∧
    1 <= sh_fresh a <= u32_max ∧
    (length (local_free a) ≤ LOCAL_CAP)%nat ∧ (length (local_alloc a) ≤ LOCAL_CAP)%nat ∧
    held ≡ₚ local_free a ++ local_alloc a ++ xs ∧
    out ++ (ident <$> held) ≡ₚ seqZ 1 (sh_fresh a - 1).

Lemma held_inv a out held : allocator_held a out held → EntityAllocator_inv a out.
Proof.
  intros (xs & d & Hrep & Hd & Hf & Hlf & Hla & Hh & Hp). exists xs, d. repeat (split; [done|]). by rewrite <- Hh.
Qed.

Lemma held_new : allocator_held EntityAllocator_new [] [].
Proof.
  exists [], 0. split; [apply FreeList_new_rep|]. cbn. unfold FreshAllocator_new, u32_max, LOCAL_CAP. by repeat (split; [lia|]).
Qed.

Lemma held_disjoint a out held : allocator_held a out held → NoDup (out ++ (ident <$> held)).
Proof. intros (xs & d & _ & _ & _ & _ & _ & _ & Hp). rewrite Hp. apply NoDup_seqZ. Qed.

(** Every identifier outside has been issued. *)
Lemma held_range a out held i : allocator_held a out held → i ∈ out ++ (ident <$> held) → 1 <= i < sh_fresh a ∧ sh_fresh a <= u32_max.
Proof. intros (xs & d & _ & _ & Hf & _ & _ & _ & Hp). rewrite Hp, elem_of_seqZ. lia. Qed.

(** The identifiers are determined by the entities and the counter. *)
Lemma held_ids (out held : list Z) (next n : Z) held' e :
  1 <= next → 0 <= n → out ++ held ≡ₚ seqZ 1 (next - 1) → e :: held' ≡ₚ held ++ seqZ next n →
  (out ++ [e]) ++ held' ≡ₚ seqZ 1 (next + n - 1).
Proof.
  intros Hnext Hn Hp He. eapply issue_fresh; [exact Hnext|exact Hn|exact Hp|].
  rewrite <- !app_assoc. cbn. by rewrite He.
Qed.

Definition fresh_entities (next n : Z) : list Entity := entity_from_u32 <$> seqZ next n.

Lemma fresh_entities_ids next n : ident <$> fresh_entities next n = seqZ next n.
Proof.
  unfold fresh_entities. rewrite <- list_fmap_compose. rewrite <- (list_fmap_id (seqZ next n)) at 2. by apply list_fmap_ext.
Qed.

Lemma fresh_rest_entities lo hi : FreshEntityIter_rest (lo, hi) = fresh_entities lo (hi - lo).
Proof. done. Qed.

(** The outcome of an allocation. *)
Definition taken (a : EntityAllocator) (out : list Z) (held : list Entity) (e : Entity) (a' : EntityAllocator) (held' : list Entity) : Prop :=
  allocator_held a' (out ++ [ident e]) held' ∧ sh_fresh a <= sh_fresh a' ∧
  e :: held' ≡ₚ held ++ fresh_entities (sh_fresh a) (sh_fresh a' - sh_fresh a).

(** A new state of the allocator from its parts. *)
Lemma taken_intro a out held xs' d' e a' n :
  allocator_held a out held → FreeList_rep (sh_free a') xs' d' → d' <= sh_fresh a' - 1 → 0 <= n → sh_fresh a' = sh_fresh a + n →
  sh_fresh a' <= u32_max → (length (local_free a') ≤ LOCAL_CAP)%nat → (length (local_alloc a') ≤ LOCAL_CAP)%nat →
  e :: local_free a' ++ local_alloc a' ++ xs' ≡ₚ held ++ fresh_entities (sh_fresh a) n →
  taken a out held e a' (local_free a' ++ local_alloc a' ++ xs').
Proof.
  intros (xs & d & _ & _ & Hf & _ & _ & _ & Hp) Hrep Hd Hn Hfr Hmax Hlf Hla He. split; [|split; [lia|]].
  - exists xs', d'. split; [done|]. split; [done|]. split; [lia|]. repeat (split; [done|]). rewrite Hfr.
    eapply held_ids; [lia|exact Hn|exact Hp|]. rewrite <- fresh_entities_ids, <- fmap_app, <- He. done.
  - by replace (sh_fresh a' - sh_fresh a) with n by lia.
Qed.

Lemma alloc_slow_held a out held :
  allocator_held a out held → local_alloc a = [] →
  (∃ e a' held', EntityAllocator_alloc_slow a = Ret (e, a') ∧ taken a out held e a' held') ∨
  (EntityAllocator_alloc_slow a = Panic ∧ u32_max < sh_fresh a + 128).
Proof.
  intros Hheld Hnil. pose proof Hheld as (xs & d & Hrep & Hd & Hf & Hlf & Hla & Hh & Hp).
  assert (Hc : is_u32 128) by (unfold is_u32; lia).
  pose proof (alloc_many_len _ _ _ 128 Hrep Hc) as Hlen.
  pose proof (inv_count a out xs) as Hcount. rewrite <- Hh in Hcount. specialize (Hcount Hp ltac:(lia)).
  set (k := Nat.min (Z.to_nat 128) (length xs)) in *.
  assert (Hk : (k ≤ 128)%nat ∧ (k ≤ length xs)%nat) by (unfold k; lia).
  unfold EntityAllocator_alloc_slow. change (Z.of_nat LOCAL_CAP + 1) with 128.
  destruct (fresh_alloc_many_spec (sh_fresh a) (128 - Z.of_nat k))
    as [([lo hi] & Hfr & Hmax & Hid & Hrl)|(n' & Hfr & Hmax)]; [done|unfold u32_max; lia| |].
  2: { right. split; [|lia]. destruct (FreeList_alloc_many (sh_free a) 128) as [it fl'].
       cbn in Hlen. by rewrite Hlen, Hfr. }
  left. destruct (alloc_many_spec (sh_free a) xs d 128 Hrep Hc) as (it & fl' & Ham & Hit & Hrep').
  { fold k. unfold u32_max in *. lia. }
  fold k in Hit, Hrep'. rewrite Ham in Hlen |- *. cbn in Hlen. rewrite Hlen, Hfr. cbn.
  cbn in Hrl. assert (Hrest : FreshEntityIter_rest (lo, hi) = fresh_entities (sh_fresh a) (128 - Z.of_nat k)).
  { rewrite ident_fresh in Hid. rewrite fresh_rest_entities. unfold fresh_entities. by rewrite Hid. }
  rewrite <- (take_drop (length xs - k) xs) in Hh. rewrite Hnil in Hh |- *.
  assert (HR : length (drop (length xs - k) xs) = k) by (rewrite length_drop; lia).
  destruct (drop (length xs - k) xs) as [|x R] eqn:HdR; cbn in HR.
  - assert (Hlt : lo < hi) by lia. rewrite (iter_rep_next_nil it Hit). cbn. rewrite (iter_rep_collect it [] Hit). cbn.
    rewrite push_all_spec by (unfold LOCAL_CAP; cbn; lia). unfold FreshEntityIter_next. cbn.
    rewrite (proj2 (Z.ltb_lt lo hi)) by lia. rewrite fresh_rest_cons in Hrest by lia.
    assert (HF : length (FreshEntityIter_rest (lo + 1, hi)) = Z.to_nat (hi - lo - 1)).
    { rewrite <- (length_fmap ident), ident_fresh, length_seqZ. lia. }
    cbn. rewrite push_all_spec by (unfold LOCAL_CAP; cbn; lia). cbn.
    eexists _, _, _. split; [done|].
    eapply (taken_intro _ _ _ (take (length xs - k) xs) (d + (128 - Z.of_nat k)) _ _ (128 - Z.of_nat k));
      cbn; [exact Hheld|exact Hrep'|lia|lia|done|lia|done|unfold LOCAL_CAP; lia|].
    rewrite Hh, <- Hrest, app_nil_r. solve_Permutation.
  - destruct (iter_rep_next_cons it x R Hit) as (it' & -> & Hit'). cbn.
    rewrite (iter_rep_collect it' R Hit'). cbn.
    assert (HF : length (FreshEntityIter_rest (lo, hi)) = Z.to_nat (hi - lo)).
    { rewrite <- (length_fmap ident), ident_fresh, length_seqZ. lia. }
    rewrite push_all_spec by (unfold LOCAL_CAP; cbn; lia). cbn.
    rewrite push_all_spec by (unfold LOCAL_CAP; cbn; lia). cbn.
    eexists _, _, _. split; [done|].
    eapply (taken_intro _ _ _ (take (length xs - k) xs) (d + (128 - Z.of_nat k)) _ _ (128 - Z.of_nat k));
      cbn; [exact Hheld|exact Hrep'|lia|lia|done|lia|done|rewrite length_app; unfold LOCAL_CAP; lia|].
    rewrite Hh, <- Hrest. cbn. solve_Permutation.
Qed.

Lemma alloc_mut_held a out held :
  allocator_held a out held →
  (∃ e a' held', EntityAllocator_alloc_mut a = Ret (e, a') ∧ taken a out held e a' held') ∨
  (EntityAllocator_alloc_mut a = Panic ∧ u32_max < sh_fresh a + 128).
Proof.
  intros Hheld. unfold EntityAllocator_alloc_mut.
  destruct (local_alloc a) as [|e l _] eqn:Hl using rev_ind; [by apply alloc_slow_held|].
  pose proof Hheld as (xs & d & Hrep & Hd & Hf & Hlf & Hla & Hh & Hp). rewrite Hl in Hla, Hh.
  rewrite last_snoc. left. eexists _, _, _. split; [done|].
  rewrite length_app in Hla |- *. cbn in Hla |- *.
  replace (length l + 1 - 1)%nat with (length l) by lia. rewrite take_app_length.
  eapply (taken_intro _ _ _ xs d _ _ 0); cbn; [exact Hheld|exact Hrep|lia|lia|lia|lia|done|lia|].
  unfold fresh_entities. rewrite seqZ_nil by lia. rewrite Hh. cbn. solve_Permutation.
Qed.

Lemma alloc_held a out held :
  allocator_held a out held →
  (∃ e a' held', EntityAllocator_alloc a = Ret (e, a') ∧ taken a out held e a' held') ∨
  (EntityAllocator_alloc a = Panic ∧ sh_fresh a = u32_max).
Proof.
  intros Hheld. pose proof Hheld as (xs & d & Hrep & Hd & Hf & Hlf & Hla & Hh & Hp). unfold EntityAllocator_alloc.
  destruct xs as [|e ys _] using rev_ind.
  - destruct (alloc_none (sh_free a) d Hrep) as (fl' & -> & Hrep'); [unfold u32_max in *; lia|].
    cbn. unfold FreshAllocator_alloc, MAX_ENTITIES. destruct (Z.eqb_spec (sh_fresh a) u32_max) as [He|Hne]; [by right|].
    left. cbn. replace (wadd32 (sh_fresh a) 1) with (sh_fresh a + 1) by width. eexists _, _, _. split; [done|].
    eapply (taken_intro _ _ _ [] (d + 1) _ _ 1); cbn; [exact Hheld|exact Hrep'|lia|lia|done|lia|done|done|].
    unfold fresh_entities. rewrite seqZ_cons, seqZ_nil by lia. cbn. rewrite Hh. solve_Permutation.
  - assert (d = 0) as -> by (destruct Hrep as (_ & _ & _ & _ & [Hnil|Hd0] & _); [by destruct ys|done]).
    destruct (alloc_some (sh_free a) ys e Hrep) as (fl' & -> & Hrep'). cbn. left. eexists _, _, _. split; [done|].
    eapply (taken_intro _ _ _ ys 0 _ _ 0); cbn; [exact Hheld|exact Hrep'|lia|lia|lia|lia|done|done|].
    unfold fresh_entities. rewrite seqZ_nil by lia. rewrite Hh. solve_Permutation.
Qed.

Lemma free_held a out out' held e :
  allocator_held a out held → out ≡ₚ ident e :: out' →
  ∃ a', EntityAllocator_free a e = Ret a' ∧ allocator_held a' out' (e :: held) ∧ sh_fresh a' = sh_fresh a.
Proof.
  intros (xs & d & Hrep & Hd & Hf & Hlf & Hla & Hh & Hp) Hout.
  assert (Hids : out' ++ (ident <$> e :: held) ≡ₚ seqZ 1 (sh_fresh a - 1)) by (rewrite <- Hp, Hout; cbn; solve_Permutation).
  pose proof (inv_count a out xs) as Hcount. rewrite <- Hh in Hcount. specialize (Hcount Hp ltac:(lia)).
  unfold EntityAllocator_free. case_decide as Hfull.
  - destruct (free_rep (sh_free a) xs d (local_free a) Hrep) as (fl' & Hfree & Hrep'); [lia|].
    unfold EntityAllocator_flush_freed. rewrite Hfree. cbn. eexists. split; [done|]. split; [|done].
    exists (xs ++ local_free a), 0. cbn. split; [done|]. split; [lia|]. split; [lia|]. split; [unfold LOCAL_CAP; lia|].
    split; [done|]. split; [|exact Hids]. rewrite Hh. solve_Permutation.
  - cbn. unfold push_unchecked. rewrite decide_True by lia. cbn. eexists. split; [done|]. split; [|done].
    exists xs, d. cbn. split; [done|]. split; [done|]. split; [done|]. split; [rewrite length_app; cbn; lia|].
    split; [done|]. split; [|exact Hids]. rewrite Hh. solve_Permutation.
Qed.
