(* ===== verification/RemoteAlloc.v ===== *)
(** * Concurrent allocation from the free list

    [FreeList::remote_alloc], [FreeList::alloc], [FreeList::alloc_many] and
    [FreeList::free] of [crates/voker-ecs/src/entity/allocator.rs] as atomic
    steps of concurrent threads.  Remote threads load the state word, read the
    top entity and claim it with compare-and-swap; threads that share the
    allocator pop with [fetch_sub] and then read; the owner frees with the
    word disabled.

    Fields starting with [g_] are history variables that no step reads. *)

From Stdlib Require Import ZArith Lia.
From S2P Require Import Prelude EntityIdent FreeCount FreeBuffer Allocator.

Local Open Scope Z_scope.

(** ** State *)

(** Program counter of an allocating thread.  A snapshot carries the number
    of pops and the stack at the time of the load, as history. *)
Inductive tpc :=
| TIdle
| TReading (lo hi : Z) (g_ys : list Entity)        (* popped [lo, hi), reading *)
| TLoaded (st : Z) (g_p : Z) (g_ys : list Entity)  (* remote: state loaded *)
| TRead (st : Z) (e : Entity) (g_p : Z) (g_ys : list Entity). (* remote: entity read *)

(** Program counter of [free]. *)
Inductive fpc :=
| FIdle
| FWriting (state : Z) (next : Z) (todo : list Entity) (g_done : list Entity).

Record shared := mkShared {
  s_buf : FreeBuffer;
  s_word : Z;
  s_free : fpc;
  s_threads : list tpc;
  g_stack : list Entity;
  g_deficit : Z;
  g_pops : Z;
  g_freed : list Entity;
  g_out : list Entity
}.

(** [remote_alloc]'s dispatch on a state it has just observed: retry while
    disabled, give up on an empty list, else go and read the top. *)
Definition remote_observe (st g_p : Z) (g_ys : list Entity) : tpc :=
  if FreeCountState_is_disabled st then TIdle
  else match checked_sub (FreeCountState_length st) 1 with
       | None => TIdle
       | Some _ => TLoaded st g_p g_ys
       end.

Definition set_thread (s : shared) (t : nat) (pc : tpc) : shared :=
  mkShared (s_buf s) (s_word s) (s_free s) (<[t := pc]> (s_threads s))
    (g_stack s) (g_deficit s) (g_pops s) (g_freed s) (g_out s).

(** A thread that holds a shared borrow of the allocator. *)
Definition borrowing (pc : tpc) : Prop :=
  match pc with TReading _ _ _ => True | _ => False end.

(** ** Steps *)

Inductive rstep : shared → shared → Prop :=
(* [alloc]/[alloc_many]: [pop_for_state] *)
| r_pop s t count st w' :
    s_threads s !! t = Some TIdle → s_free s = FIdle → is_u32 count →
    FreeCount_pop_for_state (s_word s) count = (st, w') →
    let len := FreeCountState_length st in
    let lo := sat_sub len count in
    rstep s (mkShared (s_buf s) w' (s_free s)
      (<[t := TReading lo len (drop (Z.to_nat lo) (g_stack s))]> (s_threads s))
      (take (Z.to_nat lo) (g_stack s))
      (g_deficit s + (count - (len - lo))) (g_pops s + 1) (g_freed s) (g_out s))
(* one read of the popped range *)
| r_read s t lo hi ys e :
    s_threads s !! t = Some (TReading lo hi ys) → lo < hi →
    FreeBuffer_get (s_buf s) lo = Ret e →
    rstep s (mkShared (s_buf s) (s_word s) (s_free s)
      (<[t := TReading (lo + 1) hi (drop 1 ys)]> (s_threads s))
      (g_stack s) (g_deficit s) (g_pops s) (g_freed s) (g_out s ++ [e]))
| r_read_done s t lo hi ys :
    s_threads s !! t = Some (TReading lo hi ys) → hi <= lo →
    rstep s (set_thread s t TIdle)
(* [remote_alloc]: [acquire_state] *)
| r_load s t :
    s_threads s !! t = Some TIdle →
    rstep s (set_thread s t
      (remote_observe (FreeCount_acquire_state (s_word s)) (g_pops s) (g_stack s)))
(* [remote_alloc]: read the entity before claiming it *)
| r_peek s t st p ys e :
    s_threads s !! t = Some (TLoaded st p ys) →
    FreeBuffer_get (s_buf s) (FreeCountState_length st - 1) = Ret e →
    rstep s (set_thread s t (TRead st e p ys))
(* [remote_alloc]: [try_set_state] succeeds *)
| r_cas_ok s t st e p ys w' :
    s_threads s !! t = Some (TRead st e p ys) →
    FreeCount_try_set_state (s_word s) st (FreeCountState_pop st 1) = (Ok tt, w') →
    rstep s (mkShared (s_buf s) w' (s_free s) (<[t := TIdle]> (s_threads s))
      (take (length (g_stack s) - 1) (g_stack s))
      (g_deficit s) (g_pops s + 1) (g_freed s) (g_out s ++ [e]))
(* [remote_alloc]: [try_set_state] fails with the actual state *)
| r_cas_fail s t st e p ys actual w' :
    s_threads s !! t = Some (TRead st e p ys) →
    FreeCount_try_set_state (s_word s) st (FreeCountState_pop st 1) = (Err actual, w') →
    rstep s (set_thread s t (remote_observe actual (g_pops s) (g_stack s)))
(* [free]: [disable_for_state]; exclusive access, so no borrow is active *)
| r_free_begin s es st w' :
    s_free s = FIdle → Forall (λ pc, ¬ borrowing pc) (s_threads s) →
    FreeCount_disable_for_state (s_word s) = (st, w') →
    FreeCountState_length st + Z.of_nat (length es) <= u32_max →
    rstep s (mkShared (s_buf s) w' (FWriting st (FreeCountState_length st) es [])
      (s_threads s) (g_stack s) (g_deficit s) (g_pops s) (g_freed s) (g_out s))
(* [free]: [set_slice], one entity at a time *)
| r_free_write s st next e todo done b' :
    s_free s = FWriting st next (e :: todo) done →
    FreeBuffer_set_slice (s_buf s) next [e] = Ret b' →
    rstep s (mkShared b' (s_word s) (FWriting st (next + 1) todo (done ++ [e]))
      (s_threads s) (g_stack s) (g_deficit s) (g_pops s) (g_freed s) (g_out s))
(* [free]: [set_state_risky] *)
| r_free_end s st next done :
    s_free s = FWriting st next [] done →
    rstep s (mkShared (s_buf s)
      (FreeCount_set_state_risky (s_word s) (FreeCountState_with_length st next))
      FIdle (s_threads s) (g_stack s ++ done) 0 (g_pops s) (g_freed s ++ done) (g_out s)).

Definition r_init (n : nat) : shared :=
  mkShared FreeBuffer_new FreeCount_new FIdle (replicate n TIdle) [] 0 0 [] [].

(** The two limits of the packed word: no attempt of a remote thread spans
    [2^30] pops (the generation would repeat), and the list is never
    over-popped by [2^32] (the length would borrow). *)
Definition snapshot_age_ok (pops : Z) (pc : tpc) : Prop :=
  match pc with
  | TLoaded _ p _ | TRead _ _ p _ => pops - p < 1073741824
  | _ => True
  end.

Definition calm (s : shared) : Prop :=
  Forall (snapshot_age_ok (g_pops s)) (s_threads s) ∧ g_deficit s < 4294967296.

Definition calm_step (s s' : shared) : Prop := rstep s s' ∧ calm s ∧ calm s'.

(** ** Invariant *)

Definition pending (pc : tpc) : list Entity :=
  match pc with TReading _ _ ys => ys | _ => [] end.

Definition readable (b : FreeBuffer) (i : Z) : Prop := ∃ e, FreeBuffer_get b i = Ret e.

(** Generation stored in the word after [p] pops. *)
Definition gen_after (p : Z) : Z := (- p) mod 1073741824.

(** A remote snapshot: the packed state at [p] pops over stack [ys]; while
    nothing has been popped since, [ys] is still the bottom of the stack. *)
Definition snapshot_ok (s : shared) (st p : Z) (ys : list Entity) : Prop :=
  p <= g_pops s ∧ ys ≠ [] ∧ Z.of_nat (length ys) <= u32_max ∧
  st = pack (gen_after p) 0 (4294967296 + Z.of_nat (length ys)) ∧
  readable (s_buf s) (Z.of_nat (length ys) - 1) ∧
  (p = g_pops s → ys `prefix_of` g_stack s).

Definition thread_ok (s : shared) (pc : tpc) : Prop :=
  match pc with
  | TIdle => True
  | TReading lo hi ys =>
      s_free s = FIdle ∧ 0 <= lo ∧ Z.of_nat (length ys) = Z.max 0 (hi - lo) ∧
      holds (s_buf s) lo ys ∧ hi <= u32_max
  | TLoaded st p ys => snapshot_ok s st p ys
  | TRead st e p ys => snapshot_ok s st p ys ∧ (p = g_pops s → last ys = Some e)
  end.

Definition free_ok (s : shared) : Prop :=
  match s_free s with
  | FIdle => s_word s = pack (gen_after (g_pops s)) 0
                          (4294967296 + Z.of_nat (length (g_stack s)) - g_deficit s)
  | FWriting st next todo done =>
      st = pack (gen_after (g_pops s)) 0
             (4294967296 + Z.of_nat (length (g_stack s)) - g_deficit s) ∧
      s_word s = pack (gen_after (g_pops s)) 1
             (4294967296 + Z.of_nat (length (g_stack s)) - g_deficit s) ∧
      next = Z.of_nat (length (g_stack s ++ done)) ∧
      next + Z.of_nat (length todo) <= u32_max ∧
      holds (s_buf s) (Z.of_nat (length (g_stack s))) done
  end.

Definition shared_inv (s : shared) : Prop :=
  FreeBuffer_wf (s_buf s) ∧ holds (s_buf s) 0 (g_stack s) ∧
  Z.of_nat (length (g_stack s)) <= u32_max ∧
  0 <= g_deficit s < 4294967296 ∧ (g_stack s = [] ∨ g_deficit s = 0) ∧
  free_ok s ∧ Forall (thread_ok s) (s_threads s) ∧
  g_freed s ≡ₚ g_out s ++ concat (pending <$> s_threads s) ++ g_stack s.

(** ** Frame lemmas *)

Lemma gen_after_ok p : gen_ok (gen_after p).
Proof. unfold gen_ok, gen_after. mlia. Qed.

Lemma gen_after_succ p : (gen_after p - 1) mod 1073741824 = gen_after (p + 1).
Proof. unfold gen_after. mlia. Qed.

(** Within [2^30] pops the generation identifies the number of pops. *)
Lemma gen_after_inj p q : p <= q → q - p < 1073741824 → gen_after p = gen_after q → p = q.
Proof. unfold gen_after. intros. mlia. Qed.

(** What a step must preserve for the threads it does not move. *)
Definition keeps_thread (s s' : shared) (pc : tpc) : Prop :=
  (∀ i, is_u32 i → readable (s_buf s) i → readable (s_buf s') i) ∧
  (borrowing pc → s_buf s' = s_buf s ∧ s_free s' = s_free s) ∧
  ((g_pops s' = g_pops s ∧ g_stack s `prefix_of` g_stack s') ∨ g_pops s < g_pops s').

Lemma snapshot_frame s s' st p ys :
  (∀ i, is_u32 i → readable (s_buf s) i → readable (s_buf s') i) →
  ((g_pops s' = g_pops s ∧ g_stack s `prefix_of` g_stack s') ∨ g_pops s < g_pops s') →
  snapshot_ok s st p ys → snapshot_ok s' st p ys.
Proof.
  intros Hr Hp (H1 & H2 & H3 & H4 & H5 & H6).
  assert (is_u32 (Z.of_nat (length ys) - 1)).
  { unfold is_u32, u32_max in *. destruct ys; [done|cbn in *; lia]. }
  split; [lia|]. split; [done|]. split; [done|]. split; [done|]. split; [by auto|].
  intros ->. destruct Hp as [[Heq Hpre]|Hlt]; [|lia].
  etrans; [apply H6; lia|done].
Qed.

Lemma thread_frame s s' pc : keeps_thread s s' pc → thread_ok s pc → thread_ok s' pc.
Proof.
  intros (Hr & Hb & Hp). destruct pc as [|lo hi ys|st p ys|st e p ys]; cbn.
  - done.
  - destruct Hb as [-> ->]; done.
  - by apply snapshot_frame.
  - intros [Hs He]. split; [by eapply snapshot_frame|].
    intros ->. destruct Hs as (Hle & _). apply He. destruct Hp as [[-> _]|]; [done|lia].
Qed.

Lemma threads_frame s s' t pc' :
  (∀ pc, pc ∈ s_threads s → keeps_thread s s' pc) →
  Forall (thread_ok s) (s_threads s) → thread_ok s' pc' →
  Forall (thread_ok s') (<[t := pc']> (s_threads s)).
Proof.
  intros Hk Hall Hpc. apply Forall_insert; [|done].
  apply Forall_forall. intros pc Hin. rewrite Forall_forall in Hall.
  apply (thread_frame s); auto.
Qed.

Lemma threads_frame_all s s' :
  (∀ pc, pc ∈ s_threads s → keeps_thread s s' pc) →
  Forall (thread_ok s) (s_threads s) → Forall (thread_ok s') (s_threads s).
Proof.
  intros Hk. rewrite !Forall_forall. intros Hall pc Hin. apply (thread_frame s); auto.
Qed.

(** Replacing one thread's counter swaps its pending entities. *)
Lemma pending_insert (ts : list tpc) t pc :
  ts !! t = Some pc →
  ∃ R, concat (pending <$> ts) ≡ₚ pending pc ++ R ∧
       ∀ pc', concat (pending <$> <[t := pc']> ts) ≡ₚ pending pc' ++ R.
Proof.
  intros Ht. pose proof (lookup_lt_Some _ _ _ Ht) as Hlt.
  exists (concat (pending <$> take t ts) ++ concat (pending <$> drop (S t) ts)). split.
  - rewrite <- (take_drop_middle ts t pc Ht) at 1.
    rewrite fmap_app, concat_app. cbn. solve_Permutation.
  - intros pc'. rewrite insert_take_drop by done.
    rewrite fmap_app, concat_app. cbn. solve_Permutation.
Qed.

Lemma set_slice_readable b i e b' :
  FreeBuffer_wf b → 0 <= i → i + 1 <= u32_max → FreeBuffer_set_slice b i [e] = Ret b' →
  FreeBuffer_wf b' ∧ FreeBuffer_get b' i = Ret e ∧
  (∀ j x, is_u32 j → j ≠ i → FreeBuffer_get b j = Ret x → FreeBuffer_get b' j = Ret x).
Proof.
  intros Hwf Hi Hm Hset.
  destruct (set_slice_loop_spec 1 b i [e]) as (b0 & Hs & Hwf' & Hin & Hout); [done..|].
  unfold FreeBuffer_set_slice in Hset. cbn [length] in *. rewrite Hset in Hs.
  injection Hs as <-. split; [done|]. split.
  - rewrite <- (Z.add_0_r i). by apply (Hin 0%nat).
  - intros j x Hj Hne. apply Hout; [done|lia].
Qed.

Lemma stack_raw_ok s :
  shared_inv s → raw_ok (4294967296 + Z.of_nat (length (g_stack s)) - g_deficit s).
Proof. intros (_ & _ & Hl & Hd & _). apply rep_raw_ok; lia. Qed.

(** The dispatch on an observed idle word gives a valid snapshot. *)
Lemma observe_ok s :
  shared_inv s →
  thread_ok s (remote_observe (s_word s) (g_pops s) (g_stack s)).
Proof.
  intros Hinv. pose proof (stack_raw_ok s Hinv) as Hraw.
  destruct Hinv as (Hwf & Hh & Hl & Hd & Hcase & Hfree & _).
  unfold remote_observe. unfold free_ok in Hfree.
  assert (Hbit : bit_ok 0 ∧ bit_ok 1) by (unfold bit_ok; lia). destruct Hbit.
  destruct (s_free s) as [|st next todo done].
  2: { destruct Hfree as (_ & -> & _). by rewrite is_disabled_pack by done. }
  rewrite Hfree, is_disabled_pack, length_pack by done. cbn.
  unfold checked_sub. destruct (Z.ltb_spec (Z.max 0 (4294967296
    + Z.of_nat (length (g_stack s)) - g_deficit s - 4294967296)) 1); [done|].
  assert (g_stack s ≠ []) as Hne by (intros Hnil; rewrite Hnil in *; cbn in *; lia).
  assert (g_deficit s = 0) as Hd0 by (destruct Hcase; done).
  split; [done|]. split; [done|]. split; [done|]. split; [f_equal; lia|]. split; [|done].
  destruct (lookup_lt_is_Some_2 (g_stack s) (length (g_stack s) - 1)) as [e He].
  { destruct (g_stack s); [done|cbn; lia]. }
  exists e. replace (Z.of_nat (length (g_stack s)) - 1)
    with (0 + Z.of_nat (length (g_stack s) - 1)) by (destruct (g_stack s); [done|cbn; lia]).
  by apply Hh.
Qed.

(** Only the thread list (and the output) changes. *)
Lemma same_store_keeps s s' pc :
  s_buf s' = s_buf s → s_free s' = s_free s → g_pops s' = g_pops s →
  g_stack s' = g_stack s → keeps_thread s s' pc.
Proof.
  intros Hb Hf Hp Hs. split; [by rewrite Hb|]. split; [done|]. left. by rewrite Hs.
Qed.

(** ** Preservation, step by step *)

Lemma inv_set_thread s t pc pc' :
  shared_inv s → s_threads s !! t = Some pc → pending pc ≡ₚ pending pc' →
  thread_ok s pc' → shared_inv (set_thread s t pc').
Proof.
  intros (Hwf & Hh & Hl & Hd & Hc & Hf & Ht & Hp) Hpc Hpend Hok.
  split; [done|]. split; [done|]. split; [done|]. split; [done|]. split; [done|].
  split; [done|]. split.
  - apply (threads_frame s); [|done|].
    + intros pc0 _. by apply same_store_keeps.
    + eapply thread_frame; [|exact Hok]. by apply same_store_keeps.
  - cbn. destruct (pending_insert _ _ _ Hpc) as (R & HR & HR').
    rewrite Hp, HR, HR', Hpend. done.
Qed.

Lemma inv_pop s t count st w' :
  shared_inv s → s_threads s !! t = Some TIdle → s_free s = FIdle → is_u32 count →
  FreeCount_pop_for_state (s_word s) count = (st, w') →
  let len := FreeCountState_length st in
  let lo := sat_sub len count in
  g_deficit s + (count - (len - lo)) < 4294967296 →
  shared_inv (mkShared (s_buf s) w' (s_free s)
      (<[t := TReading lo len (drop (Z.to_nat lo) (g_stack s))]> (s_threads s))
      (take (Z.to_nat lo) (g_stack s))
      (g_deficit s + (count - (len - lo))) (g_pops s + 1) (g_freed s) (g_out s)).
Proof.
  intros Hinv Hpc Hidle Hcount Hpop len lo Hcalm. pose proof (stack_raw_ok s Hinv) as Hraw.
  destruct Hinv as (Hwf & Hh & Hl & Hd & Hc & Hf & Ht & Hp).
  unfold free_ok in Hf. rewrite Hidle in Hf.
  injection Hpop as <- <-. unfold is_u32 in Hcount.
  assert (Hlen : len = Z.of_nat (length (g_stack s))).
  { unfold len. rewrite Hf, length_pack by done. destruct Hc as [-> | ->]; cbn; lia. }
  assert (Hlo : lo = Z.max 0 (len - count)) by (unfold lo; by rewrite sat_sub_max).
  assert (Htake : length (take (Z.to_nat lo) (g_stack s)) = Z.to_nat lo)
    by (rewrite length_take; lia).
  split; [done|]. cbn. split.
  { eapply holds_prefix. by rewrite take_drop. }
  split; [lia|]. split; [lia|]. split.
  { destruct Hc as [-> | H0]; [left; by rewrite take_nil|].
    destruct (decide (len <= count)); [left|right; lia].
    by replace (Z.to_nat lo) with 0%nat by lia. }
  split.
  { unfold free_ok; cbn. rewrite Hidle. rewrite Hf, pop_pack.
    - rewrite gen_after_succ. f_equal. lia.
    - apply gen_after_ok.
    - by unfold bit_ok.
    - done.
    - unfold is_u32; lia.
    - lia. }
  split.
  { apply (threads_frame s); [|done|].
    - intros pc _. split; [done|]. split; [done|]. right. cbn. lia.
    - cbn. rewrite length_drop. split; [done|]. split; [lia|]. split; [lia|].
      split; [|lia]. replace lo with (Z.of_nat (Z.to_nat lo)) at 1 by lia.
      by apply (holds_drop (s_buf s) 0). }
  destruct (pending_insert _ _ _ Hpc) as (R & HR & HR').
  rewrite Hp, HR, HR'. cbn. rewrite <- (take_drop (Z.to_nat lo) (g_stack s)) at 1.
  solve_Permutation.
Qed.

Lemma inv_read s t lo hi ys e :
  shared_inv s → s_threads s !! t = Some (TReading lo hi ys) → lo < hi →
  FreeBuffer_get (s_buf s) lo = Ret e →
  shared_inv (mkShared (s_buf s) (s_word s) (s_free s)
      (<[t := TReading (lo + 1) hi (drop 1 ys)]> (s_threads s))
      (g_stack s) (g_deficit s) (g_pops s) (g_freed s) (g_out s ++ [e])).
Proof.
  intros (Hwf & Hh & Hl & Hd & Hc & Hf & Ht & Hp) Hpc Hlt Hget.
  pose proof (Forall_lookup_1 _ _ _ _ Ht Hpc) as (Hidle & Hlo & Hys & Hold & Hhi).
  destruct ys as [|y ys]; [cbn in Hys; lia|]. cbn in Hys.
  assert (y = e) as ->.
  { specialize (Hold 0%nat y eq_refl). rewrite Z.add_0_r in Hold. congruence. }
  split; [done|]. split; [done|]. split; [done|]. split; [done|]. split; [done|].
  split; [done|]. split.
  - apply (threads_frame s); [|done|].
    + intros pc0 _. by apply same_store_keeps.
    + cbn. split; [done|]. split; [lia|]. rewrite drop_0. split; [lia|].
      split; [|done]. by apply (holds_drop (s_buf s) lo (e :: ys) 1).
  - cbn. destruct (pending_insert _ _ _ Hpc) as (R & HR & HR').
    rewrite Hp, HR, HR'. cbn. rewrite drop_0. solve_Permutation.
Qed.

(** A successful claim validates the snapshot: nothing was popped since the
    load, the stack is the one loaded, and the entity read is its top. *)
Lemma cas_validates s t st e p ys :
  shared_inv s → calm s → s_threads s !! t = Some (TRead st e p ys) → s_word s = st →
  s_free s = FIdle ∧ g_deficit s = 0 ∧ ∃ zs, g_stack s = zs ++ [e].
Proof.
  intros Hinv [Hage _] Hpc Hw. pose proof (stack_raw_ok s Hinv) as Hraw.
  destruct Hinv as (_ & _ & _ & Hd & Hc & Hf & Ht & _).
  pose proof (Forall_lookup_1 _ _ _ _ Ht Hpc) as [(Hple & Hne & Hyl & Hst & Hrd & Hpre) Hlast].
  pose proof (Forall_lookup_1 _ _ _ _ Hage Hpc) as Hyoung. cbn in Hyoung.
  assert (Hb : bit_ok 0 ∧ bit_ok 1) by (unfold bit_ok; lia). destruct Hb as [Hb0 Hb1].
  assert (Hyr : raw_ok (4294967296 + Z.of_nat (length ys)))
    by (unfold raw_ok, u32_max in *; lia).
  unfold free_ok in Hf. destruct (s_free s) as [|fst next todo done].
  2: { destruct Hf as (_ & Hword & _). rewrite Hword, Hst in Hw.
       apply pack_inj in Hw as (_ & Hbad & _); done. }
  rewrite Hf, Hst in Hw. apply pack_inj in Hw as (Hg & _ & Hraweq); [|done..].
  assert (p = g_pops s) as -> by (symmetry in Hg; by apply gen_after_inj).
  destruct (Hpre eq_refl) as [k Hk]. specialize (Hlast eq_refl).
  assert (g_deficit s = 0) as Hd0.
  { destruct Hc as [Hnil|]; [|done]. rewrite Hnil in Hk. by destruct ys. }
  split; [done|]. split; [done|]. rewrite Hk, length_app in Hraweq.
  assert (k = []) as -> by (destruct k; [done|cbn in Hraweq; lia]).
  rewrite app_nil_r in Hk. apply last_Some in Hlast as [zs Hz]. exists zs. congruence.
Qed.

Lemma inv_cas_ok s t st e p ys w' :
  shared_inv s → calm s → s_threads s !! t = Some (TRead st e p ys) →
  FreeCount_try_set_state (s_word s) st (FreeCountState_pop st 1) = (Ok tt, w') →
  shared_inv (mkShared (s_buf s) w' (s_free s) (<[t := TIdle]> (s_threads s))
      (take (length (g_stack s) - 1) (g_stack s))
      (g_deficit s) (g_pops s + 1) (g_freed s) (g_out s ++ [e])).
Proof.
  intros Hinv Hcalm Hpc Hcas. pose proof (stack_raw_ok s Hinv) as Hraw.
  unfold FreeCount_try_set_state in Hcas.
  destruct (Z.eqb_spec (s_word s) st) as [Hw|]; [|done]. injection Hcas as <-.
  destruct (cas_validates s t st e p ys Hinv Hcalm Hpc Hw) as (Hidle & Hd0 & zs & Hz).
  destruct Hinv as (Hwf & Hh & Hl & Hd & Hc & Hf & Ht & Hp).
  unfold free_ok in Hf. rewrite Hidle in Hf.
  rewrite Hz, length_app in *. cbn [length] in *.
  replace (length zs + 1 - 1)%nat with (length zs) by lia. rewrite take_app_length.
  split; [done|]. cbn. split; [by eapply holds_prefix|].
  split; [lia|]. split; [lia|]. split; [by right|]. split.
  { unfold free_ok; cbn. rewrite Hidle. unfold FreeCountState_pop. rewrite <- Hw, Hf, pop_pack.
    - rewrite gen_after_succ. f_equal. lia.
    - apply gen_after_ok.
    - by unfold bit_ok.
    - done.
    - unfold is_u32; lia.
    - lia. }
  split.
  { apply (threads_frame s); [|done|done].
    intros pc _. split; [done|]. split; [done|]. right. cbn. lia. }
  destruct (pending_insert _ _ _ Hpc) as (R & HR & HR').
  rewrite Hp, HR, HR'. cbn. solve_Permutation.
Qed.

Lemma inv_free_begin s es st w' :
  shared_inv s → s_free s = FIdle → Forall (λ pc, ¬ borrowing pc) (s_threads s) →
  FreeCount_disable_for_state (s_word s) = (st, w') →
  FreeCountState_length st + Z.of_nat (length es) <= u32_max →
  shared_inv (mkShared (s_buf s) w' (FWriting st (FreeCountState_length st) es [])
      (s_threads s) (g_stack s) (g_deficit s) (g_pops s) (g_freed s) (g_out s)).
Proof.
  intros Hinv Hidle Hnb Hdis Hroom. pose proof (stack_raw_ok s Hinv) as Hraw.
  destruct Hinv as (Hwf & Hh & Hl & Hd & Hc & Hf & Ht & Hp).
  unfold free_ok in Hf. rewrite Hidle in Hf. injection Hdis as <- <-.
  split; [done|]. split; [done|]. split; [done|]. split; [done|]. split; [done|]. split.
  { unfold free_ok; cbn. rewrite app_nil_r. split; [done|].
    split; [by rewrite Hf, disable_pack|].
    assert (FreeCountState_length (s_word s) = Z.of_nat (length (g_stack s))) as Hlen.
    { rewrite Hf, length_pack by done. destruct Hc as [-> | ->]; cbn; lia. }
    split; [done|]. split; [done|]. by intros k e. }
  split; [|done]. apply (threads_frame_all s); [|done].
  intros pc Hin. split; [done|]. split; [|by left].
  rewrite Forall_forall in Hnb. by intros Hbr%(Hnb pc Hin).
Qed.

Lemma inv_free_write s st next e todo done b' :
  shared_inv s → s_free s = FWriting st next (e :: todo) done →
  FreeBuffer_set_slice (s_buf s) next [e] = Ret b' →
  shared_inv (mkShared b' (s_word s) (FWriting st (next + 1) todo (done ++ [e]))
      (s_threads s) (g_stack s) (g_deficit s) (g_pops s) (g_freed s) (g_out s)).
Proof.
  intros (Hwf & Hh & Hl & Hd & Hc & Hf & Ht & Hp) Hfp Hset.
  unfold free_ok in Hf. rewrite Hfp in Hf. destruct Hf as (Hst & Hw & Hnext & Hroom & Hdone).
  rewrite length_app in Hnext. cbn in Hroom.
  destruct (set_slice_readable (s_buf s) next e b') as (Hwf' & Hnew & Hold); [done|lia|lia|done|].
  unfold u32_max in *. split; [done|]. cbn. split.
  { intros k x Hk. apply lookup_lt_Some in Hk as Hlt.
    apply Hold; [unfold is_u32; lia|lia|by apply Hh]. }
  split; [unfold u32_max; lia|]. split; [done|]. split; [done|]. split.
  { unfold free_ok; cbn. rewrite !length_app. cbn. split; [done|]. split; [done|].
    split; [lia|]. split; [unfold u32_max; lia|].
    intros k x [Hk|[Hk Hx]]%lookup_app_Some.
    - apply lookup_lt_Some in Hk as Hlt. apply Hold; [unfold is_u32; lia|lia|by apply Hdone].
    - apply list_lookup_singleton_Some in Hx as [Hk0 <-].
      by replace (Z.of_nat (length (g_stack s)) + Z.of_nat k) with next by lia. }
  split; [|done]. apply (threads_frame_all s); [|done].
  intros pc Hin. split.
  { intros i Hi [x Hx]. destruct (decide (i = next)) as [->|]; [by exists e|].
    exists x. by apply Hold. }
  split; [|by left]. rewrite Forall_forall in Ht. specialize (Ht pc Hin).
  destruct pc; cbn in *; try done. destruct Ht as [Hbad _]. congruence.
Qed.

Lemma inv_free_end s st next done :
  shared_inv s → s_free s = FWriting st next [] done →
  shared_inv (mkShared (s_buf s)
      (FreeCount_set_state_risky (s_word s) (FreeCountState_with_length st next))
      FIdle (s_threads s) (g_stack s ++ done) 0 (g_pops s) (g_freed s ++ done) (g_out s)).
Proof.
  intros Hinv Hfp. pose proof (stack_raw_ok s Hinv) as Hraw.
  destruct Hinv as (Hwf & Hh & Hl & Hd & Hc & Hf & Ht & Hp).
  unfold free_ok in Hf. rewrite Hfp in Hf. destruct Hf as (Hst & Hw & Hnext & Hroom & Hdone).
  cbn in Hroom. unfold u32_max in *. split; [by apply Hwf|]. cbn. split.
  { intros k x [Hk|[Hk Hx]]%lookup_app_Some; [by apply Hh|].
    replace (0 + Z.of_nat k) with
      (Z.of_nat (length (g_stack s)) + Z.of_nat (k - length (g_stack s))) by lia.
    by apply Hdone. }
  split; [unfold u32_max; lia|]. split; [lia|]. split; [by right|]. split.
  { unfold free_ok, FreeCount_set_state_risky; cbn. rewrite Hst, with_length_pack.
    - f_equal. lia.
    - apply gen_after_ok.
    - by unfold bit_ok.
    - done.
    - rewrite length_app in Hnext. unfold is_u32; lia. }
  split.
  { apply (threads_frame_all s); [|done]. intros pc Hin. split; [by auto|]. split.
    - rewrite Forall_forall in Ht. specialize (Ht pc Hin).
      destruct pc; cbn in *; try done. destruct Ht as [Hbad _]. congruence.
    - left. split; [done|]. by apply prefix_app_r. }
  rewrite Hp. solve_Permutation.
Qed.

Lemma inv_step s s' : calm_step s s' → shared_inv s → shared_inv s'.
Proof.
  intros (Hstep & Hcalm & Hcalm') Hinv. destruct Hstep.
  - apply inv_pop; try done. apply Hcalm'.
  - by eapply inv_read.
  - eapply inv_set_thread; [done|done| |done].
    destruct Hinv as (_ & _ & _ & _ & _ & _ & Ht & _).
    pose proof (Forall_lookup_1 _ _ _ _ Ht H) as (_ & _ & Hys & _).
    destruct ys; [done|cbn in Hys; lia].
  - eapply inv_set_thread; [done|done| |by apply observe_ok].
    unfold remote_observe. by repeat case_match.
  - eapply inv_set_thread; [done|done|done|].
    pose proof Hinv as (_ & Hh & _ & _ & _ & _ & Ht & _).
    pose proof (Forall_lookup_1 _ _ _ _ Ht H) as Hsn. cbn in Hsn. split; [done|].
    intros ->. destruct Hsn as (_ & Hne & Hyl & -> & _ & Hpre). specialize (Hpre eq_refl).
    rewrite length_pack in H0 by (unfold raw_ok, u32_max in *; lia).
    destruct (last ys) as [y|] eqn:Hlast; [|by apply last_None in Hlast].
    rewrite last_lookup in Hlast.
    assert (0 < length ys)%nat by (destruct ys; [done|cbn; lia]).
    assert (FreeBuffer_get (s_buf s) (0 + Z.of_nat (pred (length ys))) = Ret y) as Hy
      by (apply Hh; by eapply prefix_lookup_Some).
    f_equal. replace (Z.max 0 (4294967296 + Z.of_nat (length ys) - 4294967296) - 1)
      with (0 + Z.of_nat (pred (length ys))) in H0 by lia. congruence.
  - by eapply inv_cas_ok.
  - assert (actual = s_word s) as ->.
    { unfold FreeCount_try_set_state in H0. destruct (s_word s =? st); naive_solver. }
    eapply inv_set_thread; [done|done| |by apply observe_ok].
    unfold remote_observe. by repeat case_match.
  - by apply inv_free_begin.
  - by apply inv_free_write.
  - by apply inv_free_end.
Qed.

Lemma init_inv n : shared_inv (r_init n).
Proof.
  split; [apply FreeBuffer_new_wf|]. split; [by intros k e|]. split; [done|]. split; [done|].
  split; [by left|]. split; [done|]. split; [by apply Forall_replicate|]. cbn.
  by induction n.
Qed.

Lemma reachable_inv n s : rtc calm_step (r_init n) s → shared_inv s.
Proof.
  intros Hr. assert (∀ s0 s1, rtc calm_step s0 s1 → shared_inv s0 → shared_inv s1) as Hind.
  { intros s0 s1. induction 1; eauto using inv_step. }
  eapply Hind; [exact Hr|apply init_inv].
Qed.

(** ** Properties *)

(** C7: concurrent allocation conserves entities.  For any number of threads
    and any interleaving of remote allocations, shared pops and owner frees
    within the limits of the packed word, the entities freed so far are, with
    multiplicity, exactly the ones handed out, the ones popped and still
    being read, and the ones on the list.  So if every freed entity was freed
    once, no two threads ever receive the same one, and none is both handed
    out and still listed. *)
Theorem remote_alloc_conserves (n : nat) (s : shared) :
  rtc calm_step (r_init n) s →
  g_freed s ≡ₚ g_out s ++ concat (pending <$> s_threads s) ++ g_stack s ∧
  (NoDup (g_freed s) → NoDup (g_out s) ∧ ∀ e, e ∈ g_out s → e ∉ g_stack s) ∧
  (∀ k e, g_stack s !! k = Some e → FreeBuffer_get (s_buf s) (Z.of_nat k) = Ret e) ∧
  (s_free s = FIdle → FreeCountState_length (s_word s) = Z.of_nat (length (g_stack s))).
Proof.
  intros Hinv%reachable_inv. pose proof (stack_raw_ok s Hinv) as Hraw.
  destruct Hinv as (_ & Hh & _ & Hd & Hc & Hf & _ & Hp).
  split; [done|]. split.
  { rewrite Hp, app_assoc. intros (Hnd & Hdisj & _)%NoDup_app.
    apply NoDup_app in Hnd as (Hnd & _ & _). split; [done|].
    intros e Hout. apply Hdisj. set_solver. }
  split; [by intros k e Hk; apply (Hh k e)|].
  intros Hidle. unfold free_ok in Hf. rewrite Hidle in Hf. rewrite Hf, length_pack by done.
  destruct Hc as [-> | ->]; cbn; lia.
Qed.

(** unsynchronised reads are in bounds.  Whenever a thread is about to
    read a slot of the buffer (a remote thread the top it has loaded, perhaps
    long since popped and reused, or a popping thread its range), the slot
    lies in an allocated chunk. *)
Theorem remote_reads_defined (n : nat) (s : shared) (t : nat) :
  rtc calm_step (r_init n) s →
  (∀ st p ys, s_threads s !! t = Some (TLoaded st p ys) →
     ∃ e, FreeBuffer_get (s_buf s) (FreeCountState_length st - 1) = Ret e) ∧
  (∀ lo hi ys, s_threads s !! t = Some (TReading lo hi ys) → lo < hi →
     ∃ e, FreeBuffer_get (s_buf s) lo = Ret e).
Proof.
  intros (_ & _ & _ & _ & _ & _ & Ht & _)%reachable_inv. split.
  - intros st p ys Hpc. pose proof (Forall_lookup_1 _ _ _ _ Ht Hpc)
      as (_ & Hne & Hyl & -> & [e He] & _).
    exists e. rewrite length_pack by (unfold raw_ok, u32_max in *; lia).
    assert (0 < length ys)%nat by (destruct ys; [done|cbn; lia]).
    by replace (Z.max 0 (4294967296 + Z.of_nat (length ys) - 4294967296) - 1)
      with (Z.of_nat (length ys) - 1) by lia.
  - intros lo hi ys Hpc Hlt. pose proof (Forall_lookup_1 _ _ _ _ Ht Hpc)
      as (_ & _ & Hys & Hh & _).
    destruct ys as [|y ys]; [cbn in Hys; lia|]. exists y.
    rewrite <- (Z.add_0_r lo). by apply (Hh 0%nat).
Qed.

(** ** Witness: one entity freed by the owner and claimed by a remote thread *)

Definition ex_e : Entity := mkEntity (mkEntityId 7) (mkEntityTag 1).

Ltac calm_tac := split; [repeat constructor|vm_compute; reflexivity].

Lemma ex_calm s1 s2 s3 :
  calm s1 → rstep s1 s2 → calm s2 → rtc calm_step s2 s3 → rtc calm_step s1 s3.
Proof. intros ? ? ? ?. by eapply rtc_l. Qed.

Definition ex_buf : FreeBuffer :=
  match FreeBuffer_set_slice FreeBuffer_new 0 [ex_e] with Ret b => b | _ => FreeBuffer_new end.

Definition ex_state (w : Z) (b : FreeBuffer) (f : fpc) (pc : tpc)
    (stack : list Entity) (pops : Z) (freed out : list Entity) : shared :=
  mkShared b w f [pc] stack 0 pops freed out.

Definition ex_full : Z := 4294967297.
Definition ex_s1 := ex_state 12884901888 FreeBuffer_new (FWriting 4294967296 0 [ex_e] []) TIdle [] 0 [] [].
Definition ex_s2 := ex_state 12884901888 ex_buf (FWriting 4294967296 1 [] [ex_e]) TIdle [] 0 [] [].
Definition ex_s3 := ex_state ex_full ex_buf FIdle TIdle [ex_e] 0 [ex_e] [].
Definition ex_s4 := ex_state ex_full ex_buf FIdle (TLoaded ex_full 0 [ex_e]) [ex_e] 0 [ex_e] [].
Definition ex_s5 := ex_state ex_full ex_buf FIdle (TRead ex_full ex_e 0 [ex_e]) [ex_e] 0 [ex_e] [].
Definition ex_s6 := ex_state 18446744060824649728 ex_buf FIdle TIdle [] 1 [ex_e] [ex_e].

Lemma ex_remote_loaded : rtc calm_step (r_init 1) ex_s4.
Proof.
  eapply (ex_calm _ ex_s1); [calm_tac| |calm_tac|].
  { apply (r_free_begin (r_init 1) [ex_e] 4294967296 12884901888);
      [done|repeat constructor; cbn; tauto|reflexivity|vm_compute; discriminate]. }
  eapply (ex_calm _ ex_s2); [calm_tac| |calm_tac|].
  { exact (r_free_write ex_s1 4294967296 0 ex_e [] [] ex_buf eq_refl eq_refl). }
  eapply (ex_calm _ ex_s3); [calm_tac| |calm_tac|].
  { exact (r_free_end ex_s2 4294967296 1 [ex_e] eq_refl). }
  eapply (ex_calm _ ex_s4); [calm_tac| |calm_tac|apply rtc_refl].
  exact (r_load ex_s3 0 eq_refl).
Defined.

Lemma ex_remote_claimed : rtc calm_step (r_init 1) ex_s6.
Proof.
  etrans; [apply ex_remote_loaded|].
  eapply (ex_calm _ ex_s5); [calm_tac| |calm_tac|].
  { exact (r_peek ex_s4 0 ex_full 0 [ex_e] ex_e eq_refl eq_refl). }
  eapply (ex_calm _ ex_s6); [calm_tac| |calm_tac|apply rtc_refl].
  exact (r_cas_ok ex_s5 0 ex_full ex_e 0 [ex_e] 18446744060824649728 eq_refl eq_refl).
Defined.

Lemma remote_alloc_conserves_witness : NoDup [ex_e].
Proof.
  exact (proj1 (proj1 (proj2 (remote_alloc_conserves 1 _ ex_remote_claimed)) (NoDup_singleton ex_e))).
Defined.

Lemma remote_reads_defined_witness :
  ∃ e, FreeBuffer_get ex_buf (FreeCountState_length ex_full - 1) = Ret e.
Proof.
  exact (proj1 (remote_reads_defined 1 _ 0 ex_remote_loaded) _ _ _ eq_refl).
Defined.
