(* ===== verification/Column.v ===== *)
(** * Component columns

    [crates/voker-ecs/src/storage/column/]: the type-erased item buffer
    [BlobArray] (blob_array.rs), the tick buffer [TickArray] (tick_array.rs)
    and the [Column] (mod.rs) that keeps one value and two change-detection
    ticks per row.

    Memory is modelled at the byte: a buffer is a list of cells, a cell being
    an initialised byte or not.  An access outside the buffer, an overlapping
    [copy_nonoverlapping], a [realloc] or [dealloc] with another layout than
    the allocation's, and a read of a tick that was never written are
    [Undefined].  The allocator always succeeds; a dropper call is recorded by
    the bytes it is given. *)

From Stdlib Require Import ZArith Lia.
From S2P Require Import Prelude Tick.

(** ** Memory *)

Notation cell := (option Byte.byte).
Notation value := (list cell).

Definition isize_max : Z := 9223372036854775807.

Definition mem_load {A} (m : list A) (off size : nat) : outcome (list A) :=
  if decide (off + size ≤ length m) then Ret (take size (drop off m)) else Undefined.

Definition mem_store {A} (m : list A) (off : nat) (v : list A) : outcome (list A) :=
  if decide (off + length v ≤ length m)
  then Ret (take off m ++ v ++ drop (off + length v) m) else Undefined.

Definition disjoint_regions (a b size : nat) : bool :=
  bool_decide (a + size ≤ b) || bool_decide (b + size ≤ a).

(** ** BlobArray *)

(** [dropper] says whether the item type has a drop function. *)
Record BlobArray := mkBlob {
  item_size : nat; item_align : nat; blob_data : list cell; blob_dropper : bool
}.

Definition BlobArray_is_zst (self : BlobArray) : bool := bool_decide (item_size self = 0).

Definition with_data (self : BlobArray) (d : list cell) : BlobArray :=
  mkBlob (item_size self) (item_align self) d (blob_dropper self).

(** [Layout::pad_to_align]. *)
Definition pad_to_align (size align : nat) : nat := (size + align - 1) / align * align.

Definition BlobArray_new (size align : nat) (dropper : bool) : BlobArray :=
  mkBlob (pad_to_align size align) align [] dropper.

(** The byte size of [n] items, or a panic past [isize::MAX]. *)
Definition array_layout (size n : nat) : outcome nat :=
  if (isize_max <? Z.of_nat size * Z.of_nat n)%Z then Panic else Ret (size * n).

Definition BlobArray_alloc (self : BlobArray) (capacity : nat) : outcome BlobArray :=
  if BlobArray_is_zst self then Ret self
  else n ← array_layout (item_size self) capacity;
       Ret (with_data self (replicate n None)).

Definition BlobArray_realloc (self : BlobArray) (current new : nat) : outcome BlobArray :=
  if BlobArray_is_zst self then Ret self
  else n ← array_layout (item_size self) new;
       if decide (length (blob_data self) = item_size self * current)
       then Ret (with_data self (resize n None (blob_data self))) else Undefined.

Definition BlobArray_dealloc (self : BlobArray) (current : nat) : outcome BlobArray :=
  if bool_decide (current ≠ 0) && negb (BlobArray_is_zst self) then
    if decide (length (blob_data self) = item_size self * current)
    then Ret (with_data self []) else Undefined
  else Ret self.

Definition BlobArray_get (self : BlobArray) (index : nat) : outcome value :=
  mem_load (blob_data self) (index * item_size self) (item_size self).

Definition BlobArray_init_item (self : BlobArray) (index : nat) (v : value)
    : outcome BlobArray :=
  src ← mem_load v 0 (item_size self);
  d ← mem_store (blob_data self) (index * item_size self) src;
  Ret (with_data self d).

(** Operations that may call the dropper return the values they dropped. *)
Definition BlobArray_replace_item (self : BlobArray) (index : nat) (v : value)
    : outcome (list value * BlobArray) :=
  log ← (if blob_dropper self
         then old ← BlobArray_get self index; Ret [old] else Ret []);
  self' ← BlobArray_init_item self index v;
  Ret (log, self').

Definition BlobArray_remove_item (self : BlobArray) (index : nat) : outcome value :=
  BlobArray_get self index.

Definition BlobArray_drop_item (self : BlobArray) (index : nat) : outcome (list value) :=
  if blob_dropper self then v ← BlobArray_get self index; Ret [v] else Ret [].

Fixpoint BlobArray_drop_range (self : BlobArray) (index len : nat) : outcome (list value) :=
  match len with
  | 0 => Ret []
  | S len' =>
      v ← BlobArray_get self index;
      vs ← BlobArray_drop_range self (S index) len';
      Ret (v :: vs)
  end.

Definition BlobArray_drop_slice (self : BlobArray) (len : nat) : outcome (list value) :=
  if blob_dropper self then BlobArray_drop_range self 0 len else Ret [].

Definition BlobArray_swap_remove_not_last (self : BlobArray) (index last_index : nat)
    : outcome (value * BlobArray) :=
  let size := item_size self in
  if disjoint_regions (size * index) (size * last_index) size then
    item ← mem_load (blob_data self) (size * index) size;
    last ← mem_load (blob_data self) (size * last_index) size;
    d1 ← mem_store (blob_data self) (size * index) last;
    d2 ← mem_store d1 (size * last_index) item;
    r ← mem_load d2 (size * last_index) size;
    Ret (r, with_data self d2)
  else Undefined.

Definition BlobArray_swap_forget_not_last (self : BlobArray) (index last_index : nat)
    : outcome BlobArray :=
  let size := item_size self in
  if disjoint_regions (size * index) (size * last_index) size then
    last ← mem_load (blob_data self) (size * last_index) size;
    d ← mem_store (blob_data self) (size * index) last;
    Ret (with_data self d)
  else Undefined.

Definition BlobArray_swap_drop_not_last (self : BlobArray) (index last_index : nat)
    : outcome (list value * BlobArray) :=
  '(v, self') ← BlobArray_swap_remove_not_last self index last_index;
  Ret (if blob_dropper self then [v] else [], self').

(** ** TickArray *)

Notation TickArray := (list (option Tick)).

Definition TickArray_new : TickArray := [].

Definition TickArray_alloc (self : TickArray) (capacity : nat) : outcome TickArray :=
  n ← array_layout 4 capacity; Ret (replicate (n / 4) None).

Definition TickArray_realloc (self : TickArray) (current new : nat) : outcome TickArray :=
  n ← array_layout 4 new;
  if decide (length self = current) then Ret (resize (n / 4) None self) else Undefined.

Definition TickArray_dealloc (self : TickArray) (current : nat) : outcome TickArray :=
  if bool_decide (current ≠ 0) then
    if decide (length self = current) then Ret [] else Undefined
  else Ret self.

Definition TickArray_set (self : TickArray) (index : nat) (t : Tick) : outcome TickArray :=
  mem_store self index [Some t].

Definition TickArray_get (self : TickArray) (index : nat) : outcome Tick :=
  of_option (mjoin (self !! index)).

(** [get_slice_mut().as_mut(len)]: the first [len] ticks, all initialised. *)
Definition TickArray_slice (self : TickArray) (len : nat) : outcome (list Tick) :=
  s ← mem_load self 0 len; of_option (mapM id s).

Definition TickArray_move_last_to (self : TickArray) (last to : nat) : outcome TickArray :=
  if disjoint_regions last to 1 then
    src ← mem_load self last 1; mem_store self to src
  else Undefined.

(** ** Column *)

Record Column := mkColumn { col_data : BlobArray; col_added : TickArray; col_changed : TickArray }.

Definition Column_new (size align : nat) (dropper : bool) : Column :=
  mkColumn (BlobArray_new size align dropper) TickArray_new TickArray_new.

Definition Column_alloc (self : Column) (new : nat) : outcome Column :=
  d ← BlobArray_alloc (col_data self) new;
  a ← TickArray_alloc (col_added self) new;
  c ← TickArray_alloc (col_changed self) new;
  Ret (mkColumn d a c).

Definition Column_realloc (self : Column) (current new : nat) : outcome Column :=
  d ← BlobArray_realloc (col_data self) current new;
  a ← TickArray_realloc (col_added self) current new;
  c ← TickArray_realloc (col_changed self) current new;
  Ret (mkColumn d a c).

Definition Column_dealloc (self : Column) (current : nat) : outcome Column :=
  d ← BlobArray_dealloc (col_data self) current;
  a ← TickArray_dealloc (col_added self) current;
  c ← TickArray_dealloc (col_changed self) current;
  Ret (mkColumn d a c).

Definition Column_get_data (self : Column) (index : nat) : outcome value :=
  BlobArray_get (col_data self) index.

Definition Column_get_added (self : Column) (index : nat) : outcome Tick :=
  TickArray_get (col_added self) index.

Definition Column_get_changed (self : Column) (index : nat) : outcome Tick :=
  TickArray_get (col_changed self) index.

Definition Column_init_item (self : Column) (index : nat) (v : value) (tick : Tick)
    : outcome Column :=
  d ← BlobArray_init_item (col_data self) index v;
  a ← TickArray_set (col_added self) index tick;
  c ← TickArray_set (col_changed self) index tick;
  Ret (mkColumn d a c).

Definition Column_replace_item (self : Column) (index : nat) (v : value) (tick : Tick)
    : outcome (list value * Column) :=
  '(log, d) ← BlobArray_replace_item (col_data self) index v;
  c ← TickArray_set (col_changed self) index tick;
  Ret (log, mkColumn d (col_added self) c).

Definition Column_remove_item (self : Column) (index : nat) : outcome value :=
  BlobArray_remove_item (col_data self) index.

Definition Column_drop_item (self : Column) (index : nat) : outcome (list value) :=
  BlobArray_drop_item (col_data self) index.

Definition Column_drop_slice (self : Column) (len : nat) : outcome (list value) :=
  BlobArray_drop_slice (col_data self) len.

Definition Column_swap_forget_not_last (self : Column) (index last_index : nat)
    : outcome Column :=
  a ← TickArray_move_last_to (col_added self) last_index index;
  c ← TickArray_move_last_to (col_changed self) last_index index;
  d ← BlobArray_swap_forget_not_last (col_data self) index last_index;
  Ret (mkColumn d a c).

Definition Column_swap_drop_not_last (self : Column) (index last_index : nat)
    : outcome (list value * Column) :=
  a ← TickArray_move_last_to (col_added self) last_index index;
  c ← TickArray_move_last_to (col_changed self) last_index index;
  '(log, d) ← BlobArray_swap_drop_not_last (col_data self) index last_index;
  Ret (log, mkColumn d a c).

(** Returns the other column; this one keeps the moved-out bytes. *)
Definition Column_move_item_to (self other : Column) (src dst : nat) : outcome Column :=
  v ← BlobArray_remove_item (col_data self) src;
  d ← BlobArray_init_item (col_data other) dst v;
  ta ← TickArray_get (col_added self) src;
  a ← TickArray_set (col_added other) dst ta;
  tc ← TickArray_get (col_changed self) src;
  c ← TickArray_set (col_changed other) dst tc;
  Ret (mkColumn d a c).

Definition TickArray_check (self : TickArray) (len : nat) (now : Tick) : outcome TickArray :=
  s ← TickArray_slice self len;
  mem_store self 0 (Some <$> check_slice_tick s now).

Definition Column_check_ticks (self : Column) (len : nat) (now : Tick) : outcome Column :=
  a ← TickArray_check (col_added self) len now;
  c ← TickArray_check (col_changed self) len now;
  Ret (mkColumn (col_data self) a c).

(** ** Blocks: a buffer as an array of fixed-size items *)

Definition block {A} (m : list A) (size i : nat) : list A := take size (drop (i * size) m).
Arguments block : simpl never.

Lemma block_length {A} (m : list A) size cap i :
  length m = size * cap → i < cap → length (block m size i) = size.
Proof. intros. unfold block. rewrite length_take, length_drop. nia. Qed.

Lemma lookup_block {A} (m : list A) size i k :
  block m size i !! k = if decide (k < size) then m !! (i * size + k) else None.
Proof.
  unfold block. case_decide.
  - by rewrite lookup_take_lt, lookup_drop by lia.
  - apply lookup_take_ge. lia.
Qed.

Lemma mem_load_block {A} (m : list A) size cap i :
  length m = size * cap → i < cap → mem_load m (i * size) size = Ret (block m size i).
Proof. intros. unfold mem_load. rewrite decide_True by nia. done. Qed.

Lemma mem_load_all {A} (v : list A) size : length v = size → mem_load v 0 size = Ret v.
Proof.
  intros. unfold mem_load. rewrite decide_True by lia. rewrite drop_0, take_ge by lia. done.
Qed.

Lemma block_ext {A} (m m' : list A) size i j :
  (∀ k, k < size → m !! (i * size + k) = m' !! (j * size + k)) →
  block m size i = block m' size j.
Proof.
  intros Hk. apply list_eq. intros k. rewrite !lookup_block. case_decide; auto.
Qed.

(** Storing one item changes that item only. *)
Lemma mem_store_block {A} (m v : list A) size cap i :
  length m = size * cap → i < cap → length v = size →
  ∃ m', mem_store m (i * size) v = Ret m' ∧ length m' = size * cap ∧
        ∀ j, j < cap → block m' size j = if decide (j = i) then v else block m size j.
Proof.
  intros Hm Hi Hv. unfold mem_store. rewrite decide_True by nia.
  eexists. split; [done|].
  assert (Hlen : length (take (i * size) m ++ v ++ drop (i * size + length v) m) = size * cap).
  { rewrite !length_app, length_take, length_drop. nia. }
  split; [done|]. intros j Hj. case_decide as Hji.
  - subst j. apply list_eq. intros k. rewrite lookup_block. case_decide.
    + rewrite lookup_app_r by (rewrite length_take; nia).
      rewrite length_take, lookup_app_l by nia. f_equal. nia.
    + symmetry. apply lookup_ge_None_2. lia.
  - apply block_ext. intros k Hk.
    destruct (decide (j < i)).
    + rewrite lookup_app_l, lookup_take_lt by (rewrite ?length_take; nia). done.
    + rewrite lookup_app_r by (rewrite length_take; nia).
      rewrite lookup_app_r by (rewrite length_take; nia).
      rewrite lookup_drop. f_equal. rewrite length_take. nia.
Qed.

Lemma mem_store_one {A} (m : list A) i x :
  i < length m → mem_store m i [x] = Ret (<[i := x]> m).
Proof.
  intros. unfold mem_store. cbn. rewrite decide_True by lia.
  rewrite insert_take_drop by done. by rewrite Nat.add_1_r.
Qed.

Lemma mem_load_one {A} (m : list A) i x :
  m !! i = Some x → mem_load m i 1 = Ret [x].
Proof.
  intros Hx. pose proof (lookup_lt_Some _ _ _ Hx). unfold mem_load.
  rewrite decide_True by lia. by rewrite (drop_S _ _ _ Hx).
Qed.

Lemma disjoint_blocks size i j :
  i ≠ j → disjoint_regions (size * i) (size * j) size = true.
Proof.
  intros. unfold disjoint_regions. apply orb_true_iff.
  rewrite !bool_decide_eq_true. nia.
Qed.

(** ** A column as an array of cells *)

(** The value and the two ticks of row [i]. *)
Definition Column_cell (c : Column) (i : nat) : value * option Tick * option Tick :=
  (block (blob_data (col_data c)) (item_size (col_data c)) i,
   mjoin (col_added c !! i), mjoin (col_changed c !! i)).

Definition col_size (c : Column) : nat := item_size (col_data c).
Definition col_drops (c : Column) : bool := blob_dropper (col_data c).

Definition same_layout (c c' : Column) : Prop :=
  col_size c' = col_size c ∧ col_drops c' = col_drops c.

(** Buffers of exactly [cap] rows; a zero-sized item type needs no bytes. *)
Definition col_ok (cap : nat) (c : Column) : Prop :=
  length (blob_data (col_data c)) = col_size c * cap ∧
  length (col_added c) = cap ∧ length (col_changed c) = cap.

(** [c'] is [c] with the cells given by [f]. *)
Definition col_is (cap : nat) (c c' : Column) (f : nat → value * option Tick * option Tick) : Prop :=
  col_ok cap c' ∧ same_layout c c' ∧ ∀ j, j < cap → Column_cell c' j = f j.

Lemma Column_cell_value_length cap c i :
  col_ok cap c → i < cap → length (Column_cell c i).1.1 = col_size c.
Proof. intros (Hd & _) ?. cbn. by eapply block_length. Qed.

Lemma Column_get_data_spec cap c i :
  col_ok cap c → i < cap → Column_get_data c i = Ret (Column_cell c i).1.1.
Proof. intros (Hd & _) ?. by eapply mem_load_block. Qed.

Lemma BlobArray_init_item_spec b cap i v :
  length (blob_data b) = item_size b * cap → i < cap → length v = item_size b →
  ∃ d, BlobArray_init_item b i v = Ret (with_data b d) ∧ length d = item_size b * cap ∧
       ∀ j, j < cap → block d (item_size b) j
                      = if decide (j = i) then v else block (blob_data b) (item_size b) j.
Proof.
  intros Hd Hi Hv. unfold BlobArray_init_item. rewrite mem_load_all by done. cbn.
  destruct (mem_store_block (blob_data b) v (item_size b) cap i) as (d & -> & ? & ?); auto.
  cbn. eauto.
Qed.

Lemma mjoin_insert (l : TickArray) i j x :
  i < length l → mjoin (<[i := x]> l !! j) = if decide (j = i) then x else mjoin (l !! j).
Proof.
  intros. case_decide as E.
  - subst. by rewrite list_lookup_insert_eq by done.
  - by rewrite list_lookup_insert_ne by done.
Qed.

Lemma Column_init_item_spec cap c i v t :
  col_ok cap c → i < cap → length v = col_size c →
  ∃ c', Column_init_item c i v t = Ret c' ∧
        col_is cap c c' (λ j, if decide (j = i) then (v, Some t, Some t) else Column_cell c j).
Proof.
  intros (Hd & Ha & Hc) Hi Hv. unfold Column_init_item, TickArray_set.
  destruct (BlobArray_init_item_spec (col_data c) cap i v) as (d & -> & Hd' & Hblk); auto.
  cbn. rewrite !mem_store_one by lia. cbn. eexists. split; [done|].
  split; [|split; [done|]].
  - repeat split; cbn; rewrite ?length_insert; auto.
  - intros j Hj. unfold Column_cell; cbn. rewrite Hblk, !mjoin_insert by lia.
    by case_decide.
Qed.

Lemma Column_replace_item_spec cap c i v t :
  col_ok cap c → i < cap → length v = col_size c →
  ∃ c', Column_replace_item c i v t
        = Ret (if col_drops c then [(Column_cell c i).1.1] else [], c') ∧
        col_is cap c c' (λ j, if decide (j = i) then (v, (Column_cell c i).1.2, Some t)
                              else Column_cell c j).
Proof.
  intros (Hd & Ha & Hc) Hi Hv. unfold Column_replace_item, BlobArray_replace_item, TickArray_set.
  unfold BlobArray_get. erewrite mem_load_block by eauto.
  destruct (BlobArray_init_item_spec (col_data c) cap i v) as (d & -> & Hd' & Hblk); auto.
  unfold col_drops. exists (mkColumn (with_data (col_data c) d) (col_added c) (<[i:=Some t]> (col_changed c))).
  rewrite mem_store_one by lia. split; [by destruct (blob_dropper (col_data c))|].
  split; [|split; [done|]].
  - repeat split; cbn; rewrite ?length_insert; auto.
  - intros j Hj. unfold Column_cell; cbn. rewrite Hblk, mjoin_insert by lia.
    by case_decide; subst.
Qed.

Lemma Column_drop_item_spec cap c i :
  col_ok cap c → i < cap →
  Column_drop_item c i = Ret (if col_drops c then [(Column_cell c i).1.1] else []).
Proof.
  intros (Hd & _) Hi. unfold Column_drop_item, BlobArray_drop_item, BlobArray_get, col_drops.
  erewrite mem_load_block by eauto. by destruct (blob_dropper _).
Qed.

Lemma BlobArray_drop_range_spec b cap i len :
  length (blob_data b) = item_size b * cap → i + len ≤ cap →
  BlobArray_drop_range b i len
  = Ret (block (blob_data b) (item_size b) <$> seq i len).
Proof.
  intros Hd. revert i. induction len as [|len IH]; intros i Hi; [done|]. cbn.
  unfold BlobArray_get. erewrite mem_load_block by (eauto; lia). cbn.
  rewrite IH by lia. done.
Qed.

Lemma Column_drop_slice_spec cap c len :
  col_ok cap c → len ≤ cap →
  Column_drop_slice c len
  = Ret (if col_drops c then (λ i, (Column_cell c i).1.1) <$> seq 0 len else []).
Proof.
  intros (Hd & _) Hl. unfold Column_drop_slice, BlobArray_drop_slice, col_drops.
  destruct (blob_dropper _); [|done]. by erewrite BlobArray_drop_range_spec by eauto.
Qed.

Lemma TickArray_move_last_to_spec (s : TickArray) last to :
  last < length s → to < length s → last ≠ to →
  TickArray_move_last_to s last to = Ret (<[to := mjoin (s !! last)]> s).
Proof.
  intros Hl Ht Hne. unfold TickArray_move_last_to.
  assert (disjoint_regions last to 1 = true) as ->.
  { unfold disjoint_regions. apply orb_true_iff. rewrite !bool_decide_eq_true. lia. }
  destruct (lookup_lt_is_Some_2 s last Hl) as [x Hx]. rewrite (mem_load_one _ _ _ Hx). cbn.
  by rewrite mem_store_one, Hx by done.
Qed.

Lemma Column_swap_forget_not_last_spec cap c i l :
  col_ok cap c → i < cap → l < cap → i ≠ l →
  ∃ c', Column_swap_forget_not_last c i l = Ret c' ∧
        col_is cap c c' (λ j, Column_cell c (if decide (j = i) then l else j)).
Proof.
  intros (Hd & Ha & Hc) Hi Hl Hne. unfold Column_swap_forget_not_last.
  rewrite !TickArray_move_last_to_spec by lia. cbn.
  unfold BlobArray_swap_forget_not_last. rewrite disjoint_blocks by done.
  rewrite !(Nat.mul_comm (item_size _)). erewrite mem_load_block by eauto. cbn.
  destruct (mem_store_block (blob_data (col_data c)) (block (blob_data (col_data c))
    (item_size (col_data c)) l) (item_size (col_data c)) cap i) as (d & -> & Hd' & Hblk);
    [done|done|by eapply block_length|].
  cbn. eexists. split; [done|]. split; [|split; [done|]].
  - repeat split; cbn; rewrite ?length_insert; auto.
  - intros j Hj. unfold Column_cell; cbn. rewrite Hblk, !mjoin_insert by lia.
    by case_decide.
Qed.

(** Dropping row [i] moves row [l] into it and hands the old value to the
    dropper; the dropped bytes stay in slot [l]. *)
Lemma Column_swap_drop_not_last_spec cap c i l :
  col_ok cap c → i < cap → l < cap → i ≠ l →
  ∃ c', Column_swap_drop_not_last c i l
        = Ret (if col_drops c then [(Column_cell c i).1.1] else [], c') ∧
        col_ok cap c' ∧ same_layout c c' ∧
        ∀ j, j < cap → j ≠ l → Column_cell c' j = Column_cell c (if decide (j = i) then l else j).
Proof.
  intros (Hd & Ha & Hc) Hi Hl Hne. unfold Column_swap_drop_not_last.
  rewrite !TickArray_move_last_to_spec by lia. cbn.
  unfold BlobArray_swap_drop_not_last, BlobArray_swap_remove_not_last.
  rewrite disjoint_blocks by done. rewrite !(Nat.mul_comm (item_size _)).
  erewrite !mem_load_block by eauto. cbn.
  set (bi := block _ _ i). set (bl := block _ _ l).
  assert (length bi = item_size (col_data c)) by (by eapply block_length).
  assert (length bl = item_size (col_data c)) by (by eapply block_length).
  destruct (mem_store_block (blob_data (col_data c)) bl (item_size (col_data c)) cap i)
    as (d1 & -> & Hd1 & Hb1); auto. cbn.
  destruct (mem_store_block d1 bi (item_size (col_data c)) cap l)
    as (d2 & -> & Hd2 & Hb2); auto. cbn.
  erewrite mem_load_block by eauto. cbn. rewrite Hb2, decide_True by done.
  eexists. split; [done|]. split; [|split; [done|]].
  - repeat split; cbn; rewrite ?length_insert; auto.
  - intros j Hj Hjl. unfold Column_cell; cbn. rewrite Hb2, decide_False by done.
    rewrite Hb1, !mjoin_insert by lia. by case_decide.
Qed.

(** Moving a live row copies its value and both ticks. *)
Lemma Column_move_item_to_spec cap cap' c o src dst ta tc :
  col_ok cap c → col_ok cap' o → src < cap → dst < cap' → col_size o = col_size c →
  (Column_cell c src).1.2 = Some ta → (Column_cell c src).2 = Some tc →
  ∃ o', Column_move_item_to c o src dst = Ret o' ∧
        col_is cap' o o' (λ j, if decide (j = dst) then Column_cell c src else Column_cell o j).
Proof.
  intros (Hd & Ha & Hc) (Hd' & Ha' & Hc') Hs Ht Hsz Hta Htc. cbn in Hta, Htc.
  unfold Column_move_item_to, BlobArray_remove_item, BlobArray_get, TickArray_get, TickArray_set.
  erewrite mem_load_block by eauto. cbn.
  destruct (BlobArray_init_item_spec (col_data o) cap' dst
    (block (blob_data (col_data c)) (item_size (col_data c)) src)) as (d & -> & Hl & Hblk);
    [done|done|erewrite block_length by eauto; done|].
  cbn. rewrite Hta, Htc. cbn. rewrite !mem_store_one by lia. cbn.
  eexists. split; [done|]. split; [|split; [done|]].
  - repeat split; cbn; rewrite ?length_insert; auto.
  - intros j Hj. unfold Column_cell; cbn. rewrite Hblk, !mjoin_insert by lia.
    case_decide; [by rewrite Hta, Htc|done].
Qed.

Lemma block_resize {A} (m : list A) size cap cap' x j :
  length m = size * cap → j < cap → cap ≤ cap' →
  block (resize (size * cap') x m) size j = block m size j.
Proof.
  intros Hm Hj Hc. apply block_ext. intros k Hk. apply lookup_resize; nia.
Qed.

Lemma array_layout_Ret size n :
  (Z.of_nat size * Z.of_nat n ≤ isize_max)%Z → array_layout size n = Ret (size * n).
Proof. intros. unfold array_layout. by rewrite (proj2 (Z.ltb_ge _ _)). Qed.

Lemma TickArray_alloc_spec s cap :
  (4 * Z.of_nat cap ≤ isize_max)%Z → TickArray_alloc s cap = Ret (replicate cap None).
Proof.
  intros. unfold TickArray_alloc. rewrite array_layout_Ret by done.
  unfold mbind, outcome_bind. by rewrite (Nat.mul_comm 4), Nat.div_mul.
Qed.

Lemma TickArray_realloc_spec s cap cap' :
  (4 * Z.of_nat cap' ≤ isize_max)%Z → length s = cap →
  TickArray_realloc s cap cap' = Ret (resize cap' None s).
Proof.
  intros. unfold TickArray_realloc. rewrite array_layout_Ret by done.
  unfold mbind, outcome_bind. by rewrite decide_True, (Nat.mul_comm 4), Nat.div_mul.
Qed.

(** Growing keeps every row already there. *)
Lemma Column_grow_spec cap cap' c :
  col_ok cap c → cap ≤ cap' →
  (Z.of_nat (col_size c) * Z.of_nat cap' ≤ isize_max)%Z → (4 * Z.of_nat cap' ≤ isize_max)%Z →
  ∃ c', (if decide (cap = 0) then Column_alloc c cap' else Column_realloc c cap cap') = Ret c' ∧
        col_ok cap' c' ∧ same_layout c c' ∧
        ∀ j, j < cap → Column_cell c' j = Column_cell c j.
Proof.
  intros (Hd & Ha & Hc) Hle Hsz Htk. unfold col_size in Hsz.
  case_decide as Hcap.
  - unfold Column_alloc, BlobArray_alloc. rewrite array_layout_Ret, !TickArray_alloc_spec by done.
    cbn. unfold BlobArray_is_zst. case_bool_decide as Hz; cbn; (eexists; split; [done|]);
      (split; [|split; [done|lia]]); repeat split; cbn; unfold col_size in *; cbn;
      rewrite ?length_replicate; auto. cbn. rewrite Hd, Hz. lia.
  - unfold Column_realloc, BlobArray_realloc.
    rewrite array_layout_Ret, !TickArray_realloc_spec by done. cbn.
    assert (Htick : ∀ (l : TickArray) j, length l = cap → j < cap →
      mjoin (resize cap' None l !! j) = mjoin (l !! j)).
    { intros l j ? ?. by rewrite lookup_resize by lia. }
    unfold BlobArray_is_zst. case_bool_decide as Hz; cbn; rewrite ?decide_True by done;
      cbn; (eexists; split; [done|]); (split; [|split; [done|]]).
    + repeat split; cbn; unfold col_size in *; rewrite ?length_resize; auto. cbn. rewrite Hd, Hz. lia.
    + intros j Hj. unfold Column_cell; cbn. by rewrite !Htick.
    + repeat split; cbn; unfold col_size in *; rewrite ?length_resize; auto.
    + intros j Hj. unfold Column_cell; cbn. by erewrite block_resize, !Htick by eauto.
Qed.

(** ** Tick validation *)

Definition ticks_init (c : Column) (len : nat) : Prop :=
  ∀ j, j < len → is_Some (Column_cell c j).1.2 ∧ is_Some (Column_cell c j).2.

Definition clamp_cell (now : Tick) (x : value * option Tick * option Tick) :=
  (x.1.1, (λ t, Tick_check_tick t now) <$> x.1.2, (λ t, Tick_check_tick t now) <$> x.2).

Lemma TickArray_check_spec (s : TickArray) len now :
  len ≤ length s → (∀ j, j < len → is_Some (mjoin (s !! j))) →
  ∃ s', TickArray_check s len now = Ret s' ∧ length s' = length s ∧
        ∀ j, mjoin (s' !! j) = if decide (j < len)
                               then (λ t, Tick_check_tick t now) <$> mjoin (s !! j)
                               else mjoin (s !! j).
Proof.
  intros Hlen Hinit.
  assert (∃ ts, mapM id (take len s) = Some ts) as [ts Hts].
  { apply mapM_is_Some_2, Forall_lookup_2. intros i x [Hx Hi]%lookup_take_Some.
    specialize (Hinit i Hi). by rewrite Hx in Hinit. }
  assert (take len s = Some <$> ts) as Htake.
  { apply mapM_Some in Hts.
    clear -Hts. induction Hts as [|x y ? ? Hx]; cbn; [done|]. cbn in Hx. by f_equal. }
  assert (length ts = len) as Hl.
  { apply (f_equal length) in Htake. rewrite length_fmap, length_take in Htake. lia. }
  unfold TickArray_check, TickArray_slice, mem_load. rewrite decide_True by lia.
  unfold mbind, outcome_bind. rewrite drop_0, Hts. cbn [of_option]. unfold mem_store.
  rewrite length_fmap, check_slice_tick_spec, length_fmap, Hl, take_0, !Nat.add_0_l, app_nil_l.
  rewrite decide_True by lia. eexists. split; [done|]. split.
  - rewrite length_app, !length_fmap, length_drop. lia.
  - intros j. case_decide.
    + rewrite lookup_app_l by (rewrite !length_fmap; lia).
      rewrite !list_lookup_fmap. rewrite <- (lookup_take_lt s len) by done.
      rewrite Htake, list_lookup_fmap. by destruct (ts !! j).
    + rewrite lookup_app_r by (rewrite !length_fmap; lia).
      rewrite !length_fmap, lookup_drop. do 2 f_equal. lia.
Qed.

Lemma Column_check_ticks_spec cap c len now :
  col_ok cap c → len ≤ cap → ticks_init c len →
  ∃ c', Column_check_ticks c len now = Ret c' ∧
        col_is cap c c' (λ j, if decide (j < len) then clamp_cell now (Column_cell c j)
                              else Column_cell c j).
Proof.
  intros (Hd & Ha & Hc) Hlen Hi. unfold Column_check_ticks.
  destruct (TickArray_check_spec (col_added c) len now) as (a & -> & Hal & Hac);
    [lia|intros; by apply Hi|].
  destruct (TickArray_check_spec (col_changed c) len now) as (b & -> & Hbl & Hbc);
    [lia|intros; by apply Hi|].
  cbn. eexists. split; [done|]. split; [|split; [done|]].
  - repeat split; cbn; auto; lia.
  - intros j Hj. unfold Column_cell; cbn. rewrite Hac, Hbc. by case_decide.
Qed.

(** Freeing passes the layout that was allocated. *)
Lemma Column_dealloc_spec cap c :
  col_ok cap c → ∃ c', Column_dealloc c cap = Ret c' ∧ length (blob_data (col_data c')) = 0 ∧
                       col_added c' = [] ∧ col_changed c' = [].
Proof.
  intros (Hd & Ha & Hc). unfold Column_dealloc, BlobArray_dealloc, TickArray_dealloc, BlobArray_is_zst.
  unfold col_size in Hd.
  destruct (decide (cap = 0)) as [->|Hne].
  - rewrite bool_decide_eq_false_2 by tauto. cbn. eexists. split; [done|]. cbn.
    rewrite Hd. split; [lia|]. split; by apply nil_length_inv.
  - rewrite bool_decide_eq_true_2 by done. cbn.
    case_bool_decide as Hz; cbn; rewrite !decide_True by done; cbn;
      (eexists; split; [done|]); cbn; [rewrite Hd, Hz|]; done.
Qed.
