(* ===== verification/Table.v ===== *)
(** * Dense tables

    [crates/voker-ecs/src/storage/dense/table.rs] and the vector helpers of
    [storage/utils.rs]: a [Table] keeps one [Column] per component of an
    archetype and one row per entity.  Rows are kept dense: removing one moves
    the last row into its place.

    The theorems read a table as a finite map from an entity and a component
    to a value with its two ticks ([Table_lookup]) and show that every
    operation that moves rows around keeps that map for every other entity. *)

From Stdlib Require Import ZArith Lia Sorting.Sorted.
From S2P Require Import Prelude Tick EntityIdent EntityInfo Column.

(** ** Vector helpers *)

Definition Vec_remove_last {A} (self : list A) (last_index : nat) : outcome (A * list A) :=
  value ← of_option (self !! last_index);
  Ret (value, take last_index self).

Definition Vec_move_last_to {A} (self : list A) (last_index to : nat) : outcome (A * list A) :=
  value ← of_option (self !! last_index);
  if decide (to < length self)
  then Ret (value, take last_index (<[to := value]> self)) else Undefined.

(** ** Table *)

(** Layout and dropper of a component type, from the component registry. *)
Record ComponentInfo := mkComponentInfo { layout_size : nat; layout_align : nat; has_dropper : bool }.

Record Table := mkTable {
  tbl_id : Z;
  tbl_columns : list Column;
  tbl_components : list Z;
  tbl_entities : list Entity;
  tbl_capacity : nat
}.

Definition set_columns (t : Table) (cs : list Column) : Table :=
  mkTable (tbl_id t) cs (tbl_components t) (tbl_entities t) (tbl_capacity t).

Definition set_entities (t : Table) (es : list Entity) : Table :=
  mkTable (tbl_id t) (tbl_columns t) (tbl_components t) es (tbl_capacity t).

(** [iter_mut().for_each] over columns, collecting the values dropped. *)
Fixpoint for_each_col (f : Column → outcome (list value * Column)) (cs : list Column)
    : outcome (list value * list Column) :=
  match cs with
  | [] => Ret ([], [])
  | c :: cs' =>
      '(log, c') ← f c;
      '(logs, cs'') ← for_each_col f cs';
      Ret (log ++ logs, c' :: cs'')
  end.

Section Table.
Context `{VecGrowth}.
Variable info : Z → ComponentInfo.

Definition Table_new (table_id : Z) (idents : list Z) : Table :=
  mkTable table_id
    ((λ id, Column_new (layout_size (info id)) (layout_align (info id)) (has_dropper (info id)))
       <$> idents)
    idents [] 0.

Definition Table_entity_count (self : Table) : nat := length (tbl_entities self).

Definition Table_check_ticks (self : Table) (now : Tick) : outcome Table :=
  let len := Table_entity_count self in
  '(_, cs) ← for_each_col (λ c, c' ← Column_check_ticks c len now; Ret ([], c'))
               (tbl_columns self);
  Ret (set_columns self cs).

Definition Table_drop (self : Table) : outcome (list value) :=
  let len := Table_entity_count self in
  let current_capacity := tbl_capacity self in
  '(log, _) ← for_each_col
      (λ c, log ← Column_drop_slice c len;
            c' ← Column_dealloc c current_capacity;
            Ret (log, c')) (tbl_columns self);
  Ret log.

Definition Table_reserve_many (this : Table) : outcome Table :=
  let old_cap := tbl_capacity this in
  let new_cap := grown_capacity (length (tbl_entities this)) 1 in
  if (u32_max <? Z.of_nat new_cap)%Z then Panic
  else
    '(_, cs) ← for_each_col
        (λ col, c' ← (if decide (old_cap = 0) then Column_alloc col new_cap
                      else Column_realloc col old_cap new_cap);
                Ret ([], c')) (tbl_columns this);
    Ret (mkTable (tbl_id this) cs (tbl_components this) (tbl_entities this) new_cap).

Definition Table_alloc_row (self : Table) (entity : Entity) : outcome (nat * Table) :=
  let len := length (tbl_entities self) in
  self' ← (if decide (len = tbl_capacity self) then Table_reserve_many self else Ret self);
  Ret (len, set_entities self' (tbl_entities self' ++ [entity])).

Definition Table_dealloc_row (DROP : bool) (self : Table) (table_row : nat)
    : outcome (list value * MovedEntityRow * Table) :=
  let removal := table_row in
  if decide (Table_entity_count self = 0) then Panic
  else
    let last := Table_entity_count self - 1 in
    if decide (removal ≤ last) then
      if decide (removal ≠ last) then
        '(swapped, es) ← Vec_move_last_to (tbl_entities self) last removal;
        '(log, cs) ← for_each_col
            (λ c, if DROP then Column_swap_drop_not_last c removal last
                  else c' ← Column_swap_forget_not_last c removal last; Ret ([], c'))
            (tbl_columns self);
        Ret (log, MovedEntityRow_in_table (Some swapped) (Z.of_nat table_row),
             set_columns (set_entities self es) cs)
      else
        '(log, cs) ← (if DROP
          then for_each_col (λ c, log ← Column_drop_item c last; Ret (log, c)) (tbl_columns self)
          else Ret ([], tbl_columns self));
        Ret (log, MovedEntityRow_in_table None (Z.of_nat table_row),
             set_columns (set_entities self (take last (tbl_entities self))) cs)
    else Panic.

(** [binary_search] on the sorted component list. *)
Definition Table_get_table_col (self : Table) (key : Z) : option nat :=
  position (λ id, bool_decide (id = key)) (tbl_components self).

Definition Table_get_table_row (self : Table) (key : Entity) : option nat :=
  position (λ it, bool_decide (it = key)) (tbl_entities self).

Definition Table_get_column (self : Table) (index : nat) : outcome Column :=
  of_option (tbl_columns self !! index).

Definition Table_get_data (self : Table) (table_row table_col : nat) : outcome value :=
  if decide (table_row < Table_entity_count self)
  then col ← Table_get_column self table_col; Column_get_data col table_row else Panic.

Definition Table_get_added (self : Table) (table_row table_col : nat) : outcome Tick :=
  if decide (table_row < Table_entity_count self)
  then col ← Table_get_column self table_col; Column_get_added col table_row else Panic.

Definition Table_get_changed (self : Table) (table_row table_col : nat) : outcome Tick :=
  if decide (table_row < Table_entity_count self)
  then col ← Table_get_column self table_col; Column_get_changed col table_row else Panic.

Definition Table_init_item (self : Table) (table_col table_row : nat) (data : value) (tick : Tick)
    : outcome Table :=
  if decide (table_row < Table_entity_count self) then
    column ← Table_get_column self table_col;
    column' ← Column_init_item column table_row data tick;
    Ret (set_columns self (<[table_col := column']> (tbl_columns self)))
  else Panic.

Definition Table_replace_item (self : Table) (table_col table_row : nat) (data : value) (tick : Tick)
    : outcome (list value * Table) :=
  if decide (table_row < Table_entity_count self) then
    column ← Table_get_column self table_col;
    '(log, column') ← Column_replace_item column table_row data tick;
    Ret (log, set_columns self (<[table_col := column']> (tbl_columns self)))
  else Panic.

Definition Table_remove_item (self : Table) (table_col table_row : nat) : outcome value :=
  if decide (table_row < Table_entity_count self) then
    column ← Table_get_column self table_col; Column_remove_item column table_row
  else Panic.

Definition Table_drop_item (self : Table) (table_col table_row : nat) : outcome (list value) :=
  if decide (table_row < Table_entity_count self) then
    column ← Table_get_column self table_col; Column_drop_item column table_row
  else Panic.

(** The closure of [move_row] over one [(id, col)] pair, for a source row
    that is not the last one, and for one that is. *)
Definition move_col_swap (DROP : bool) (src last dst : nat) (id : Z) (col : Column) (other : Table)
    : outcome (list value * Column * Table) :=
  match Table_get_table_col other id with
  | Some table_col =>
      other_col ← Table_get_column other table_col;
      other_col' ← Column_move_item_to col other_col src dst;
      col' ← Column_swap_forget_not_last col src last;
      Ret ([], col', set_columns other (<[table_col := other_col']> (tbl_columns other)))
  | None =>
      if DROP then
        '(log, col') ← Column_swap_drop_not_last col src last; Ret (log, col', other)
      else col' ← Column_swap_forget_not_last col src last; Ret ([], col', other)
  end.

Definition move_col_last (DROP : bool) (src last dst : nat) (id : Z) (col : Column) (other : Table)
    : outcome (list value * Column * Table) :=
  match Table_get_table_col other id with
  | Some table_col =>
      other_col ← Table_get_column other table_col;
      other_col' ← Column_move_item_to col other_col src dst;
      Ret ([], col, set_columns other (<[table_col := other_col']> (tbl_columns other)))
  | None =>
      if DROP then log ← Column_drop_item col last; Ret (log, col, other)
      else Ret ([], col, other)
  end.

(** [compnents.iter().zip(columns.iter_mut()).for_each]. *)
Fixpoint zip_for_each (f : Z → Column → Table → outcome (list value * Column * Table))
    (ids : list Z) (cols : list Column) (other : Table)
    : outcome (list value * list Column * Table) :=
  match ids, cols with
  | id :: ids', col :: cols' =>
      '(log, col', other') ← f id col other;
      '(logs, cols'', other'') ← zip_for_each f ids' cols' other';
      Ret (log ++ logs, col' :: cols'', other'')
  | _, _ => Ret ([], cols, other)
  end.

Definition Table_move_row (DROP : bool) (self : Table) (table_row : nat) (other : Table)
    : outcome (list value * MovedEntityRow * nat * Table * Table) :=
  let src := table_row in
  if decide (Table_entity_count self = 0) then Panic
  else
    let last := Table_entity_count self - 1 in
    if decide (src ≤ last) then
      if decide (src ≠ last) then
        moved ← of_option (tbl_entities self !! src);
        '(swapped, es) ← Vec_move_last_to (tbl_entities self) last src;
        '(dst, other1) ← Table_alloc_row other moved;
        '(log, cs, other2) ← zip_for_each (move_col_swap DROP src last dst)
                               (tbl_components self) (tbl_columns self) other1;
        Ret (log, MovedEntityRow_in_table (Some swapped) (Z.of_nat table_row), dst,
             set_columns (set_entities self es) cs, other2)
      else
        '(moved, es) ← Vec_remove_last (tbl_entities self) last;
        '(dst, other1) ← Table_alloc_row other moved;
        '(log, cs, other2) ← zip_for_each (move_col_last DROP src last dst)
                               (tbl_components self) (tbl_columns self) other1;
        Ret (log, MovedEntityRow_in_table None (Z.of_nat table_row), dst,
             set_columns (set_entities self es) cs, other2)
    else Panic.

(** ** Well-formed tables *)

Definition col_for (cap : nat) (id : Z) (c : Column) : Prop :=
  col_ok cap c ∧
  col_size c = pad_to_align (layout_size (info id)) (layout_align (info id)) ∧
  col_drops c = has_dropper (info id).

Record table_ok (t : Table) : Prop := {
  ok_columns : Forall2 (col_for (tbl_capacity t)) (tbl_components t) (tbl_columns t);
  ok_sorted : StronglySorted Z.lt (tbl_components t);
  ok_len : length (tbl_entities t) ≤ tbl_capacity t;
  ok_cap : (Z.of_nat (tbl_capacity t) ≤ u32_max)%Z;
  ok_entities : NoDup (tbl_entities t)
}.

(** What a table stores for an entity and a component. *)
Definition Table_lookup (t : Table) (e : Entity) (id : Z)
    : option (value * option Tick * option Tick) :=
  row ← Table_get_table_row t e;
  col ← Table_get_table_col t id;
  c ← tbl_columns t !! col;
  Some (Column_cell c row).

(** Both ticks of every column are written at row [r]. *)
Definition row_init (t : Table) (r : nat) : Prop :=
  Forall (λ c, is_Some (Column_cell c r).1.2 ∧ is_Some (Column_cell c r).2) (tbl_columns t).

(** ** Lists *)

Lemma position_NoDup {A} `{EqDecision A} (l : list A) x i :
  NoDup l → position (λ y, bool_decide (y = x)) l = Some i ↔ l !! i = Some x.
Proof.
  intros Hnd. split.
  - intros (y & Hy & E & _)%position_Some. apply bool_decide_eq_true in E. by subst.
  - intros Hi. destruct (position _ l) as [j|] eqn:E.
    + apply position_Some in E as (y & Hy & E & _). apply bool_decide_eq_true in E. subst.
      f_equal. by eapply NoDup_lookup.
    + eapply position_None in E; [|by eapply list_elem_of_lookup_2].
      by rewrite bool_decide_eq_false in E.
Qed.

Lemma position_None_iff {A} `{EqDecision A} (l : list A) x :
  position (λ y, bool_decide (y = x)) l = None ↔ x ∉ l.
Proof.
  split.
  - intros E Hx. eapply position_None in E; [|done]. by rewrite bool_decide_eq_false in E.
  - intros Hx. destruct (position _ l) as [j|] eqn:E; [|done].
    apply position_Some in E as (y & Hy & E & _). apply bool_decide_eq_true in E. subst.
    destruct Hx. by eapply list_elem_of_lookup_2.
Qed.

Lemma StronglySorted_lt_NoDup (l : list Z) : StronglySorted Z.lt l → NoDup l.
Proof.
  induction 1 as [|x l Hs IH Hf]; constructor; [|done].
  intros Hin. rewrite Forall_forall in Hf. specialize (Hf x Hin). lia.
Qed.

(** Moving the last element into slot [r] and truncating. *)
Lemma Vec_move_last_to_spec {A} (l : list A) r x :
  r < length l - 1 → l !! (length l - 1) = Some x →
  ∃ l', Vec_move_last_to l (length l - 1) r = Ret (x, l') ∧ length l' = length l - 1 ∧
        ∀ j, j < length l - 1 → l' !! j = l !! (if decide (j = r) then length l - 1 else j).
Proof.
  intros Hr Hx. unfold Vec_move_last_to. rewrite Hx. cbn. rewrite decide_True by lia.
  eexists. split; [done|]. split.
  - rewrite length_take, length_insert. lia.
  - intros j Hj. rewrite lookup_take_lt by done. case_decide as E.
    + subst. by rewrite list_lookup_insert_eq, Hx by lia.
    + by rewrite list_lookup_insert_ne by done.
Qed.

(** The list after [swap_remove] at [r]: every element but the one at [r],
    each at its place except the last one, now at [r]. *)
Definition swap_removed {A} (l l' : list A) (r : nat) : Prop :=
  length l' = length l - 1 ∧
  ∀ j, j < length l - 1 → l' !! j = l !! (if decide (j = r) then length l - 1 else j).

Lemma swap_removed_last {A} (l : list A) : swap_removed l (take (length l - 1) l) (length l - 1).
Proof.
  split; [rewrite length_take; lia|]. intros j Hj. rewrite lookup_take_lt by done.
  case_decide; [lia|done].
Qed.

Lemma swap_removed_lookup {A} (l l' : list A) r i x :
  NoDup l → r < length l → swap_removed l l' r →
  l' !! i = Some x ↔
  ∃ i0, l !! i0 = Some x ∧ i0 ≠ r ∧ i = if decide (i0 = length l - 1) then r else i0.
Proof.
  intros Hnd Hr [Hlen Hl]. split.
  - intros Hi. pose proof (lookup_lt_Some _ _ _ Hi).
    rewrite Hl in Hi by lia. eexists. split; [done|].
    repeat case_decide; split; lia.
  - intros (i0 & Hi0 & Hne & ->). pose proof (lookup_lt_Some _ _ _ Hi0).
    rewrite Hl by (case_decide; lia). repeat case_decide; subst; auto; try lia.
Qed.

Lemma swap_removed_NoDup {A} (l l' : list A) r :
  NoDup l → r < length l → swap_removed l l' r → NoDup l'.
Proof.
  intros Hnd Hr Hsr. apply NoDup_alt. intros i j x Hi Hj.
  apply (swap_removed_lookup l l' r) in Hi as (i0 & Hi & ? & ->); auto.
  apply (swap_removed_lookup l l' r) in Hj as (j0 & Hj & ? & ->); auto.
  by rewrite (NoDup_lookup l i0 j0 x).
Qed.

(** ** Columns of a table *)

Lemma for_each_col_spec (f : Column → outcome (list value * Column)) (g : Column → list value)
    (P : Column → Prop) (R : Column → Column → Prop) cs :
  (∀ c, P c → ∃ c', f c = Ret (g c, c') ∧ R c c') → Forall P cs →
  ∃ cs', for_each_col f cs = Ret (concat (g <$> cs), cs') ∧ Forall2 R cs cs'.
Proof.
  intros Hf. induction 1 as [|c cs Hc Hcs (cs' & IH & HR)]; cbn; [eauto|].
  destruct (Hf c Hc) as (c' & -> & Hc'). cbn. rewrite IH. cbn. eauto.
Qed.

Lemma ok_column t k c :
  table_ok t → tbl_columns t !! k = Some c →
  ∃ id, tbl_components t !! k = Some id ∧ col_for (tbl_capacity t) id c.
Proof. intros Hok Hc. by apply (Forall2_lookup_r _ _ _ _ _ (ok_columns _ Hok)) in Hc. Qed.

Lemma ok_columns_Forall t : table_ok t → Forall (col_ok (tbl_capacity t)) (tbl_columns t).
Proof.
  intros Hok. eapply Forall_lookup_2. intros k c (id & _ & Hc & _)%(ok_column t); auto.
Qed.

Lemma col_for_same_layout cap cap' id c c' :
  col_for cap id c → col_ok cap' c' → same_layout c c' → col_for cap' id c'.
Proof. intros (_ & Hs & Hd) Hc [Hs' Hd']. repeat split; try apply Hc; congruence. Qed.

Lemma Forall2_col_for cap cap' ids cs cs' :
  Forall2 (col_for cap) ids cs →
  Forall2 (λ c c', col_ok cap' c' ∧ same_layout c c') cs cs' →
  Forall2 (col_for cap') ids cs'.
Proof.
  intros H1. revert cs'. induction H1; intros cs' H2; inversion H2; subst; constructor.
  - destruct_and?. by eapply col_for_same_layout.
  - auto.
Qed.

Lemma get_table_row_Some t e r :
  table_ok t → Table_get_table_row t e = Some r ↔ tbl_entities t !! r = Some e.
Proof. intros Hok. apply position_NoDup, Hok. Qed.

Lemma get_table_col_Some t id k :
  table_ok t → Table_get_table_col t id = Some k ↔ tbl_components t !! k = Some id.
Proof. intros Hok. apply position_NoDup, StronglySorted_lt_NoDup, Hok. Qed.

(** The column list after an operation on columns, seen through [Table_lookup]. *)
Lemma Table_lookup_row t e id r :
  table_ok t → tbl_entities t !! r = Some e →
  Table_lookup t e id
  = col ← Table_get_table_col t id; c ← tbl_columns t !! col; Some (Column_cell c r).
Proof.
  intros Hok He. unfold Table_lookup. by rewrite (proj2 (get_table_row_Some t e r Hok) He).
Qed.

(** Two tables with the same components whose columns agree on two rows. *)
Lemma Table_lookup_agree t t' e id r r' :
  table_ok t → table_ok t' → tbl_components t' = tbl_components t →
  tbl_entities t !! r = Some e → tbl_entities t' !! r' = Some e →
  Forall2 (λ c c', Column_cell c' r' = Column_cell c r) (tbl_columns t) (tbl_columns t') →
  Table_lookup t' e id = Table_lookup t e id.
Proof.
  intros Hok Hok' Hcomp He He' Hcols.
  rewrite (Table_lookup_row t e id r), (Table_lookup_row t' e id r') by done.
  unfold Table_get_table_col. rewrite Hcomp.
  destruct (position _ _) as [k|]; [|done]. cbn.
  destruct (tbl_columns t !! k) as [c|] eqn:Hk.
  - eapply Forall2_lookup_l in Hcols as (c' & -> & Hc'); [|done]. cbn. by rewrite Hc'.
  - by erewrite (proj1 (Forall2_lookup_None _ _ _ _ Hcols)) || (
    eapply Forall2_length in Hcols; apply lookup_ge_None in Hk;
    rewrite (lookup_ge_None_2 (tbl_columns t')) by lia; done).
Qed.

(** ** Removing a row *)

Definition dropped_value (r : nat) (c : Column) : list value :=
  if col_drops c then [(Column_cell c r).1.1] else [].

(** The values row [r] hands to its droppers. *)
Definition row_values (t : Table) (r : nat) : list value :=
  concat (dropped_value r <$> tbl_columns t).

(** What removing row [r] of [t] leaves, however its values were disposed of. *)
Definition row_removed (t t' : Table) (r : nat) : Prop :=
  tbl_capacity t' = tbl_capacity t ∧
  tbl_components t' = tbl_components t ∧
  swap_removed (tbl_entities t) (tbl_entities t') r ∧
  Forall2 (λ c c', col_ok (tbl_capacity t) c' ∧ same_layout c c' ∧
                   ∀ j, j < length (tbl_entities t) - 1 →
                        Column_cell c' j
                        = Column_cell c (if decide (j = r) then length (tbl_entities t) - 1 else j))
          (tbl_columns t) (tbl_columns t').

(** The row change reported to the location table. *)
Definition row_moved (t : Table) (r : nat) : MovedEntityRow :=
  MovedEntityRow_in_table
    (if decide (r = length (tbl_entities t) - 1) then None
     else tbl_entities t !! (length (tbl_entities t) - 1)) (Z.of_nat r).

Lemma row_removed_ok t t' r :
  table_ok t → r < length (tbl_entities t) → row_removed t t' r → table_ok t'.
Proof.
  intros Hok Hr (Hcap & Hcomp & Hent & Hcols). pose proof (ok_len _ Hok). split.
  - rewrite Hcap, Hcomp. eapply Forall2_col_for; [apply Hok|].
    eapply Forall2_impl; [exact Hcols|]. cbn. tauto.
  - rewrite Hcomp. apply Hok.
  - rewrite (proj1 Hent). rewrite Hcap. lia.
  - rewrite Hcap. apply Hok.
  - eapply swap_removed_NoDup; [apply Hok| |done]. done.
Qed.

Lemma row_removed_gone t t' r e :
  table_ok t → tbl_entities t !! r = Some e → row_removed t t' r → e ∉ tbl_entities t'.
Proof.
  intros Hok He (_ & _ & Hent & _) (i & Hi)%list_elem_of_lookup.
  apply (swap_removed_lookup (tbl_entities t)) with (r := r) in Hi
    as (i0 & Hi0 & Hne & _); [|apply Hok|by eapply lookup_lt_Some|done].
  apply Hne. eapply NoDup_lookup; [apply Hok|done|done].
Qed.

(** Where every remaining entity is. *)
Lemma row_removed_location t t' r e e' r' :
  table_ok t → tbl_entities t !! r = Some e → row_removed t t' r → e' ≠ e →
  tbl_entities t !! r' = Some e' →
  tbl_entities t' !! (if decide (moved_entity (row_moved t r) = Some e') then r else r') = Some e'.
Proof.
  intros Hok He (_ & _ & Hent & _) Hne Hr'.
  pose proof (lookup_lt_Some _ _ _ Hr'). pose proof (lookup_lt_Some _ _ _ He).
  apply (swap_removed_lookup (tbl_entities t)) with (r := r); [apply Hok|done|done|].
  exists r'. split; [done|]. split; [congruence|].
  unfold row_moved; cbn. destruct (decide (r = length (tbl_entities t) - 1)) as [->|Hlast].
  - rewrite decide_False by done. rewrite decide_False; [done|]. congruence.
  - destruct (decide (r' = length (tbl_entities t) - 1)) as [->|Hne'].
    + by rewrite decide_True.
    + rewrite decide_False; [done|]. intros Heq. apply Hne'.
      eapply NoDup_lookup; [apply Hok|done|done].
Qed.

Lemma row_removed_lookup t t' r e e' id :
  table_ok t → tbl_entities t !! r = Some e → row_removed t t' r → e' ≠ e →
  Table_lookup t' e' id = Table_lookup t e' id.
Proof.
  intros Hok He Hrem Hne. pose proof (lookup_lt_Some _ _ _ He).
  pose proof (row_removed_ok t t' r Hok ltac:(done) Hrem) as Hok'.
  destruct (Table_get_table_row t e') as [r'|] eqn:Hr'.
  - apply get_table_row_Some in Hr'; [|done].
    pose proof (row_removed_location t t' r e e' r' Hok He Hrem Hne Hr') as Hloc.
    eapply Table_lookup_agree; try done; [apply Hrem|].
    destruct Hrem as (_ & _ & [Hlen Hent] & Hcols).
    pose proof (lookup_lt_Some _ _ _ Hloc) as Hlt. rewrite Hlen in Hlt.
    eapply Forall2_impl; [exact Hcols|]. intros c c' (_ & _ & Hcell).
    rewrite Hcell by done. f_equal.
    pose proof (Hent _ Hlt) as Hi. rewrite Hloc in Hi. symmetry in Hi.
    eapply NoDup_lookup; [apply Hok|done|done].
  - unfold Table_lookup. rewrite Hr'.
    destruct (Table_get_table_row t' e') as [r'|] eqn:Hr''; [|done].
    apply get_table_row_Some in Hr''; [|done].
    apply (swap_removed_lookup (tbl_entities t)) with (r := r) in Hr''
      as (i0 & Hi0 & _ & _); [|apply Hok|done|apply Hrem].
    by rewrite (proj2 (get_table_row_Some t e' i0 Hok) Hi0) in Hr'.
Qed.

Lemma swap_col_spec (DROP : bool) cap c r last :
  col_ok cap c → r < cap → last < cap → r ≠ last →
  ∃ c', (if DROP then Column_swap_drop_not_last c r last
         else c' ← Column_swap_forget_not_last c r last; Ret ([], c'))
        = Ret (if DROP then dropped_value r c else [], c') ∧
        col_ok cap c' ∧ same_layout c c' ∧
        ∀ j, j < last → Column_cell c' j = Column_cell c (if decide (j = r) then last else j).
Proof.
  intros Hc Hr Hl Hne. destruct DROP.
  - destruct (Column_swap_drop_not_last_spec cap c r last) as (c' & -> & ? & ? & Hcell); auto.
    exists c'. split; [done|]. split; [done|]. split; [done|]. intros j Hj. apply Hcell; lia.
  - destruct (Column_swap_forget_not_last_spec cap c r last) as (c' & -> & ? & ? & Hcell); auto.
    exists c'. split; [done|]. split; [done|]. split; [done|]. intros j Hj. apply Hcell. lia.
Qed.

Lemma concat_nil_fmap {A B} (l : list A) : concat ((λ _ : A, @nil B) <$> l) = [].
Proof. by induction l. Qed.

Lemma Table_dealloc_row_spec DROP t r :
  table_ok t → r < length (tbl_entities t) →
  ∃ t', Table_dealloc_row DROP t r
        = Ret (if DROP then row_values t r else [], row_moved t r, t') ∧
        row_removed t t' r.
Proof.
  intros Hok Hr. pose proof (ok_len _ Hok) as Hlen.
  unfold Table_dealloc_row, row_moved, Table_entity_count.
  rewrite decide_False, decide_True by lia.
  destruct (decide (r = length (tbl_entities t) - 1)) as [->|Hne].
  - rewrite decide_False by tauto.
    destruct DROP.
    + destruct (for_each_col_spec
        (λ c, log ← Column_drop_item c (length (tbl_entities t) - 1); Ret (log, c))
        (dropped_value (length (tbl_entities t) - 1)) (col_ok (tbl_capacity t))
        (λ c c', c' = c ∧ col_ok (tbl_capacity t) c) (tbl_columns t)) as (cs' & -> & Hcs).
      * intros c Hc. erewrite Column_drop_item_spec by (eauto; lia). cbn. eauto.
      * by apply ok_columns_Forall.
      * cbn. eexists. split; [done|]. split; [done|]. split; [done|].
        split; [apply swap_removed_last|]. cbn. eapply Forall2_impl; [exact Hcs|].
        intros c c' [-> ?]. split; [done|]. split; [done|]. intros j Hj. rewrite decide_False by lia. done.
    + cbn. eexists. split; [done|]. split; [done|]. split; [done|].
      split; [apply swap_removed_last|]. cbn. apply Forall_Forall2_diag.
      eapply Forall_impl; [by apply ok_columns_Forall|]. intros c Hc.
      split; [done|]. split; [done|]. intros j Hj. rewrite decide_False by lia. done.
  - rewrite decide_True by done.
    destruct (lookup_lt_is_Some_2 (tbl_entities t) (length (tbl_entities t) - 1)) as [x Hx];
      [lia|].
    destruct (Vec_move_last_to_spec (tbl_entities t) r x) as (es & -> & Hes); [lia|done|].
    cbn. edestruct (for_each_col_spec
      (λ c, if DROP then Column_swap_drop_not_last c r (length (tbl_entities t) - 1)
            else c' ← Column_swap_forget_not_last c r (length (tbl_entities t) - 1); Ret ([], c')))
      as (cs' & -> & Hcs);
      [intros c Hc; apply (swap_col_spec DROP (tbl_capacity t)); [exact Hc|lia..]
      |by apply ok_columns_Forall|].
    cbn. rewrite Hx. exists (set_columns (set_entities t es) cs'). split; [|split; [done|]; split; [done|]; split; [exact Hes|exact Hcs]].
    destruct DROP; [done|]. by rewrite concat_nil_fmap.
Qed.

(** ** Adding a row *)

(** Items are small enough that [u32::MAX] of them fit an allocation. *)
Hypothesis small_items : ∀ id,
  (Z.of_nat (pad_to_align (layout_size (info id)) (layout_align (info id))) ≤ 2147483648)%Z.

(** [t'] is [t] with [e] on a new last row, the other rows untouched. *)
Definition row_added (t t' : Table) (e : Entity) : Prop :=
  tbl_components t' = tbl_components t ∧
  tbl_entities t' = tbl_entities t ++ [e] ∧
  tbl_capacity t ≤ tbl_capacity t' ∧
  Forall2 (λ c c', col_ok (tbl_capacity t') c' ∧ same_layout c c' ∧
                   ∀ j, j < length (tbl_entities t) → Column_cell c' j = Column_cell c j)
          (tbl_columns t) (tbl_columns t').

(** Room for one more row: a slot is free or the vector may grow. *)
Definition has_room (t : Table) : Prop :=
  length (tbl_entities t) = tbl_capacity t →
  (Z.of_nat (grown_capacity (length (tbl_entities t)) 1) ≤ u32_max)%Z.

Lemma grow_col_spec t id c cap' :
  table_ok t → col_for (tbl_capacity t) id c → tbl_capacity t ≤ cap' →
  (Z.of_nat cap' ≤ u32_max)%Z →
  ∃ c', (c' ← (if decide (tbl_capacity t = 0) then Column_alloc c cap'
               else Column_realloc c (tbl_capacity t) cap'); Ret ([] : list value, c'))
        = Ret ([], c') ∧
        col_ok cap' c' ∧ same_layout c c' ∧
        ∀ j, j < tbl_capacity t → Column_cell c' j = Column_cell c j.
Proof.
  intros Hok (Hc & Hs & _) Hle Hu. unfold u32_max in Hu. specialize (small_items id).
  destruct (Column_grow_spec (tbl_capacity t) cap' c) as (c' & -> & Hc'); auto.
  - rewrite Hs. unfold isize_max. nia.
  - unfold isize_max. lia.
  - eauto.
Qed.

Lemma row_added_ok t t' e :
  table_ok t → row_added t t' e → e ∉ tbl_entities t →
  length (tbl_entities t') ≤ tbl_capacity t' → (Z.of_nat (tbl_capacity t') ≤ u32_max)%Z →
  table_ok t'.
Proof.
  intros Hok (Hcomp & Hent & _ & Hcols) He Hlen Hu. split; auto.
  - rewrite Hcomp. eapply Forall2_col_for; [apply Hok|].
    eapply Forall2_impl; [exact Hcols|]. cbn. tauto.
  - rewrite Hcomp. apply Hok.
  - rewrite Hent. apply NoDup_app. split; [apply Hok|]. split; [|apply NoDup_singleton].
    intros x Hx ->%list_elem_of_singleton. done.
Qed.

Lemma Table_alloc_row_spec t e :
  table_ok t → has_room t → e ∉ tbl_entities t →
  ∃ t', Table_alloc_row t e = Ret (length (tbl_entities t), t') ∧
        table_ok t' ∧ row_added t t' e.
Proof.
  intros Hok Hroom He. unfold Table_alloc_row, Table_reserve_many. pose proof (ok_len _ Hok).
  case_decide as Hfull.
  - specialize (Hroom Hfull).
    rewrite (proj2 (Z.ltb_ge _ _)) by done.
    pose proof (grown_capacity_ge (length (tbl_entities t)) 1) as Hge.
    set (cap' := grown_capacity _ 1) in *.
    edestruct (for_each_col_spec
      (λ col, c' ← (if decide (tbl_capacity t = 0) then Column_alloc col cap'
                    else Column_realloc col (tbl_capacity t) cap'); Ret ([], c')) (λ _, [])
      (λ c, ∃ id, col_for (tbl_capacity t) id c)) as (cs' & -> & Hcs).
    + intros c (id & Hc). apply (grow_col_spec t id); auto; lia.
    + apply Forall_lookup_2. intros k c (id & _ & Hc)%(ok_column t); eauto.
    + cbn. eexists. split; [done|].
      assert (Hadd : row_added t (mkTable (tbl_id t) cs' (tbl_components t)
                                    (tbl_entities t ++ [e]) cap') e).
      { split; [done|]. split; [done|]. split; [cbn; lia|]. cbn.
        eapply Forall2_impl; [exact Hcs|]. intros c c' (? & ? & Hcell).
        split; [done|]. split; [done|]. intros j Hj. apply Hcell. lia. }
      split; [|exact Hadd]. eapply row_added_ok; eauto; cbn; rewrite ?length_app; cbn; lia.
  - cbn. eexists. split; [done|].
    assert (Hadd : row_added t (set_entities t (tbl_entities t ++ [e])) e).
    { split; [done|]. split; [done|]. split; [done|]. cbn.
      apply Forall_Forall2_diag. eapply Forall_impl; [by apply ok_columns_Forall|]. done. }
    split; [|exact Hadd]. eapply row_added_ok; eauto; cbn; rewrite ?length_app; cbn; try lia.
    apply Hok.
Qed.

Lemma row_added_lookup t t' e e' id :
  table_ok t → table_ok t' → row_added t t' e → e' ≠ e →
  Table_lookup t' e' id = Table_lookup t e' id.
Proof.
  intros Hok Hok' (Hcomp & Hent & _ & Hcols) Hne.
  destruct (Table_get_table_row t e') as [r|] eqn:Hr.
  - apply get_table_row_Some in Hr; [|done]. pose proof (lookup_lt_Some _ _ _ Hr).
    apply (Table_lookup_agree t t' e' id r r); auto.
    + by rewrite Hent, lookup_app_l.
    + eapply Forall2_impl; [exact Hcols|]. intros c c' (_ & _ & Hc). auto.
  - unfold Table_lookup. rewrite Hr.
    destruct (Table_get_table_row t' e') as [r|] eqn:Hr'; [|done].
    apply get_table_row_Some in Hr'; [|done]. rewrite Hent in Hr'.
    apply lookup_app_Some in Hr' as [Hr'|[_ Hr']].
    + by rewrite (proj2 (get_table_row_Some t e' r Hok) Hr') in Hr.
    + apply list_lookup_singleton_Some in Hr' as [_ ?]. done.
Qed.

(** ** Moving a row to another table *)

(** Writing one row of one column of [o]. *)
Definition col_written (o o' : Table) (k dst : nat) (x : value * option Tick * option Tick) : Prop :=
  tbl_components o' = tbl_components o ∧ tbl_entities o' = tbl_entities o ∧
  tbl_capacity o' = tbl_capacity o ∧
  length (tbl_columns o') = length (tbl_columns o) ∧
  ∀ j oc oc', tbl_columns o !! j = Some oc → tbl_columns o' !! j = Some oc' →
    col_ok (tbl_capacity o) oc' ∧ same_layout oc oc' ∧
    ∀ i, i < tbl_capacity o →
         Column_cell oc' i = if decide (j = k ∧ i = dst) then x else Column_cell oc i.

(** What the loop of [move_row] over [ids] and [cols] does to [o]. *)
Definition row_received (ids : list Z) (cols : list Column) (o o' : Table) (src dst : nat) : Prop :=
  tbl_components o' = tbl_components o ∧ tbl_entities o' = tbl_entities o ∧
  tbl_capacity o' = tbl_capacity o ∧
  length (tbl_columns o') = length (tbl_columns o) ∧
  ∀ j oc oc', tbl_columns o !! j = Some oc → tbl_columns o' !! j = Some oc' →
    col_ok (tbl_capacity o) oc' ∧ same_layout oc oc' ∧
    (∀ i, i < tbl_capacity o → i ≠ dst → Column_cell oc' i = Column_cell oc i) ∧
    (∀ n id c, ids !! n = Some id → cols !! n = Some c → tbl_components o !! j = Some id →
               Column_cell oc' dst = Column_cell c src) ∧
    (∀ id, tbl_components o !! j = Some id → id ∉ ids → Column_cell oc' dst = Column_cell oc dst).

Definition cell_live (c : Column) (r : nat) : Prop :=
  is_Some (Column_cell c r).1.2 ∧ is_Some (Column_cell c r).2.

Lemma table_ok_updated o o' :
  table_ok o → tbl_components o' = tbl_components o → tbl_entities o' = tbl_entities o →
  tbl_capacity o' = tbl_capacity o → length (tbl_columns o') = length (tbl_columns o) →
  (∀ j oc oc', tbl_columns o !! j = Some oc → tbl_columns o' !! j = Some oc' →
     col_ok (tbl_capacity o) oc' ∧ same_layout oc oc') →
  table_ok o'.
Proof.
  intros Hok Hcomp Hent Hcap Hlen Hcols. split.
  - rewrite Hcomp, Hcap. eapply Forall2_col_for; [apply Hok|].
    apply Forall2_same_length_lookup_2; auto.
  - rewrite Hcomp. apply Hok.
  - rewrite Hent, Hcap. apply Hok.
  - rewrite Hcap. apply Hok.
  - rewrite Hent. apply Hok.
Qed.

Lemma move_item_written cap id c o k oc src dst :
  table_ok o → col_for cap id c → cell_live c src → src < cap → dst < tbl_capacity o →
  tbl_components o !! k = Some id → tbl_columns o !! k = Some oc →
  ∃ oc', Column_move_item_to c oc src dst = Ret oc' ∧
         col_written o (set_columns o (<[k := oc']> (tbl_columns o))) k dst (Column_cell c src).
Proof.
  intros Hok (Hc & Hs & _) [[ta Hta] [tc Htc]] Hsrc Hdst Hid Hoc.
  destruct (ok_column o k oc Hok Hoc) as (id' & Hid' & Hoc' & Hs' & _). simplify_eq.
  destruct (Column_move_item_to_spec cap (tbl_capacity o) c oc src dst ta tc)
    as (oc' & -> & Hok' & Hsl & Hcell); auto; [congruence|].
  exists oc'. split; [done|]. repeat (split; [done|]). cbn. split; [by rewrite length_insert|].
  intros j o1 o2 Hj1 Hj2. apply list_lookup_insert_Some in Hj2 as [(-> & -> & _)|[Hne Hj2]].
  - simplify_eq. split; [done|]. split; [done|]. intros i Hi. rewrite Hcell by done.
    destruct (decide (i = dst)); [by rewrite decide_True|by rewrite decide_False by tauto].
  - simplify_eq. split; [by apply (ok_column o j _ Hok) in Hj1 as (? & _ & ? & _)|].
    split; [done|]. intros i Hi. by rewrite decide_False by naive_solver.
Qed.

Lemma col_written_ok o o' k dst x : table_ok o → col_written o o' k dst x → table_ok o'.
Proof.
  intros Hok (? & ? & ? & ? & Hcols). eapply table_ok_updated; eauto.
  intros j oc oc' Hj1 Hj2. destruct (Hcols j oc oc' Hj1 Hj2) as (? & ? & _). done.
Qed.

(** Values of the source row that the other table has no column for. *)
Definition left_behind (DROP : bool) (comps : list Z) (src : nat) (ids : list Z) (cols : list Column)
    : list value :=
  concat (zip_with (λ id c, if decide (id ∈ comps) then []
                            else if DROP then dropped_value src c else []) ids cols).

Section loop.
Variables (DROP : bool) (cap src last dst : nat).
Variable f : Z → Column → Table → outcome (list value * Column * Table).
Variable R : Column → Column → Prop.
Hypothesis f_spec : ∀ o id c,
  table_ok o → col_for cap id c → cell_live c src → dst < tbl_capacity o →
  ∃ c' o', f id c o = Ret (if decide (id ∈ tbl_components o) then []
                           else if DROP then dropped_value src c else [], c', o') ∧ R c c' ∧
    match Table_get_table_col o id with
    | Some k => col_written o o' k dst (Column_cell c src)
    | None => o' = o
    end.

Lemma row_received_cons id ids c cols o o1 o' :
  id ∉ ids → table_ok o →
  match Table_get_table_col o id with
  | Some k => col_written o o1 k dst (Column_cell c src)
  | None => o1 = o
  end →
  dst < tbl_capacity o →
  row_received ids cols o1 o' src dst → row_received (id :: ids) (c :: cols) o o' src dst.
Proof.
  intros Hid Hok Hhead Hdst (Hcomp & Hent & Hcap & Hlen & Hcols).
  destruct (Table_get_table_col o id) as [k|] eqn:Hk.
  - apply (get_table_col_Some o id k Hok) in Hk.
    destruct Hhead as (Hcomp1 & Hent1 & Hcap1 & Hlen1 & Hcols1).
    repeat (split; [congruence|]). intros j oc oc' Hj Hj'.
    destruct (lookup_lt_is_Some_2 (tbl_columns o1) j) as [oc1 Hj1].
    { rewrite Hlen1. by eapply lookup_lt_Some. }
    destruct (Hcols1 j oc oc1 Hj Hj1) as (_ & Hsl1 & Hc1).
    destruct (Hcols j oc1 oc' Hj1 Hj') as (Hok' & Hsl & Hrest & Hnew & Hold).
    rewrite Hcap1 in *. split; [done|]. split; [destruct Hsl, Hsl1; split; congruence|].
    split; [|split].
    + intros i Hi Hne. rewrite Hrest, Hc1, decide_False by naive_solver. done.
    + intros [|n] id' c' Hn Hc' Hj0; cbn in Hn, Hc'; simplify_eq.
      * assert (j = k) as -> by
          (eapply NoDup_lookup; [apply StronglySorted_lt_NoDup, Hok|done|done]).
        rewrite (Hold id'), Hc1, decide_True by (try congruence; auto). done.
      * apply (Hnew n id' c'); [done|done|by rewrite Hcomp1].
    + intros id' Hj0 Hin. rewrite (Hold id') by (try congruence; set_solver).
      rewrite Hc1, decide_False by (try done; intros [-> _]; simplify_eq; set_solver). done.
  - subst o1. repeat (split; [done|]). intros j oc oc' Hj Hj'.
    destruct (Hcols j oc oc' Hj Hj') as (Hok' & Hsl & Hrest & Hnew & Hold).
    split; [done|]. split; [done|]. split; [done|]. split.
    + intros [|n] id' c' Hn Hc' Hj0; cbn in Hn, Hc'; simplify_eq; [|by eapply Hnew].
      by rewrite (proj2 (get_table_col_Some o id' j Hok) Hj0) in Hk.
    + intros id' Hj0 Hin. apply (Hold id'); [done|set_solver].
Qed.

Lemma row_received_nil o : table_ok o → row_received [] [] o o src dst.
Proof.
  intros Hok. repeat (split; [done|]). intros j oc oc' Hj Hj'. simplify_eq.
  split; [by apply (ok_column o j _ Hok) in Hj as (? & _ & ? & _)|].
  repeat (split; [done|]). done.
Qed.

Lemma zip_for_each_spec ids cols o :
  NoDup ids → Forall2 (col_for cap) ids cols → Forall (λ c, cell_live c src) cols →
  table_ok o → dst < tbl_capacity o →
  ∃ cols' o', zip_for_each f ids cols o
              = Ret (left_behind DROP (tbl_components o) src ids cols, cols', o') ∧
              Forall2 R cols cols' ∧ table_ok o' ∧ row_received ids cols o o' src dst.
Proof.
  intros Hnd Hcols. revert o. induction Hcols as [|id c ids cols Hc Hcols IH]; intros o Hlive Hok Hdst.
  - exists [], o. split; [done|]. split; [constructor|]. split; [done|].
    by apply row_received_nil.
  - apply NoDup_cons in Hnd as [Hnin Hnd]. apply Forall_cons in Hlive as [Hlc Hlive].
    destruct (f_spec o id c Hok Hc Hlc Hdst) as (c' & o1 & Hf & HR & Hmid).
    assert (Hok1 : table_ok o1).
    { destruct (Table_get_table_col o id); [by eapply col_written_ok|by subst]. }
    assert (Hcomp1 : tbl_components o1 = tbl_components o ∧ tbl_capacity o1 = tbl_capacity o).
    { destruct (Table_get_table_col o id); [split; apply Hmid|by subst]. }
    destruct Hcomp1 as [Hcomp1 Hcap1].
    destruct (IH Hnd o1 Hlive Hok1 ltac:(lia)) as (cols' & o' & Hz & HRs & Hok' & Hrec).
    exists (c' :: cols'), o'. cbn. rewrite Hf. cbn. rewrite Hz. cbn. rewrite Hcomp1.
    split; [done|]. split; [by constructor|]. split; [done|].
    by eapply row_received_cons.
Qed.
End loop.

Lemma move_col_swap_spec DROP cap src last dst o id c :
  src < cap → last < cap → src ≠ last →
  table_ok o → col_for cap id c → cell_live c src → dst < tbl_capacity o →
  ∃ c' o', move_col_swap DROP src last dst id c o
           = Ret (if decide (id ∈ tbl_components o) then []
                  else if DROP then dropped_value src c else [], c', o') ∧
    (col_ok cap c' ∧ same_layout c c' ∧
     ∀ j, j < last → Column_cell c' j = Column_cell c (if decide (j = src) then last else j)) ∧
    match Table_get_table_col o id with
    | Some k => col_written o o' k dst (Column_cell c src)
    | None => o' = o
    end.
Proof.
  intros Hsrc Hlast Hne Hok Hc Hlive Hdst. unfold move_col_swap.
  destruct (Table_get_table_col o id) as [k|] eqn:Hk.
  - apply (get_table_col_Some o id k Hok) in Hk.
    destruct (Forall2_lookup_l _ _ _ _ _ (ok_columns _ Hok) Hk) as (oc & Hoc & _).
    destruct (move_item_written cap id c o k oc src dst) as (oc' & Hmv & Hw); auto.
    destruct (swap_col_spec false cap c src last (proj1 Hc)) as (c' & Hsw & Hr); auto.
    unfold Table_get_column. rewrite Hoc. cbn. rewrite Hmv. cbn. inv_outcome. simplify_eq.
    eexists _, _. split; [|by split].
    rewrite decide_True by (by eapply list_elem_of_lookup_2). done.
  - rewrite decide_False by (by apply position_None_iff).
    destruct (swap_col_spec DROP cap c src last (proj1 Hc)) as (c' & Hsw & Hr); auto.
    exists c', o. split; [|by split]. destruct DROP; inv_outcome; simplify_eq; [|done].
    by rewrite Hsw.
Qed.

Lemma move_col_last_spec DROP cap src dst o id c :
  src < cap →
  table_ok o → col_for cap id c → cell_live c src → dst < tbl_capacity o →
  ∃ c' o', move_col_last DROP src src dst id c o
           = Ret (if decide (id ∈ tbl_components o) then []
                  else if DROP then dropped_value src c else [], c', o') ∧
    (col_ok cap c' ∧ same_layout c c' ∧
     ∀ j, j < src → Column_cell c' j = Column_cell c (if decide (j = src) then src else j)) ∧
    match Table_get_table_col o id with
    | Some k => col_written o o' k dst (Column_cell c src)
    | None => o' = o
    end.
Proof.
  intros Hsrc Hok Hc Hlive Hdst. unfold move_col_last.
  assert (Hid : col_ok cap c ∧ same_layout c c ∧
    ∀ j, j < src → Column_cell c j = Column_cell c (if decide (j = src) then src else j)).
  { split; [apply Hc|]. split; [done|]. intros j Hj. by rewrite decide_False by lia. }
  destruct (Table_get_table_col o id) as [k|] eqn:Hk.
  - apply (get_table_col_Some o id k Hok) in Hk.
    destruct (Forall2_lookup_l _ _ _ _ _ (ok_columns _ Hok) Hk) as (oc & Hoc & _).
    destruct (move_item_written cap id c o k oc src dst) as (oc' & Hmv & Hw); auto.
    unfold Table_get_column. rewrite Hoc. cbn. rewrite Hmv. cbn.
    eexists _, _. split; [|by split].
    rewrite decide_True by (by eapply list_elem_of_lookup_2). done.
  - rewrite decide_False by (by apply position_None_iff).
    exists c, o. split; [|by split]. destruct DROP; [|done].
    by erewrite Column_drop_item_spec by (eauto; apply Hc).
Qed.

Lemma Table_move_row_spec DROP t r o e :
  table_ok t → table_ok o → has_room o →
  tbl_entities t !! r = Some e → e ∉ tbl_entities o → Forall (λ c, cell_live c r) (tbl_columns t) →
  ∃ t' o1 o', Table_move_row DROP t r o
     = Ret (left_behind DROP (tbl_components o) r (tbl_components t) (tbl_columns t),
            row_moved t r, length (tbl_entities o), t', o') ∧
     row_removed t t' r ∧ table_ok o1 ∧ row_added o o1 e ∧ table_ok o' ∧
     row_received (tbl_components t) (tbl_columns t) o1 o' r (length (tbl_entities o)).
Proof.
  intros Hok Hoko Hroom He Hne Hlive. pose proof (lookup_lt_Some _ _ _ He) as Hr.
  pose proof (ok_len _ Hok) as Hlen.
  destruct (Table_alloc_row_spec o e Hoko Hroom Hne) as (o1 & Halloc & Hok1 & Hadd).
  assert (Hdst : length (tbl_entities o) < tbl_capacity o1).
  { pose proof (ok_len _ Hok1) as Hl1. destruct Hadd as (_ & Hent & _).
    rewrite Hent, length_app in Hl1. cbn in Hl1. lia. }
  assert (Hnd : NoDup (tbl_components t)) by apply StronglySorted_lt_NoDup, Hok.
  assert (Hcomp1 : tbl_components o1 = tbl_components o) by apply Hadd.
  unfold Table_move_row, row_moved, Table_entity_count. rewrite decide_False, decide_True by lia.
  destruct (decide (r = length (tbl_entities t) - 1)) as [Heq|Hnl].
  - rewrite decide_False by tauto. rewrite <- Heq.
    unfold Vec_remove_last. rewrite He. cbn. rewrite Halloc. cbn.
    edestruct (zip_for_each_spec DROP (tbl_capacity t) r (length (tbl_entities o))
      (move_col_last DROP r r (length (tbl_entities o)))) as (cs & o' & Hz & HR & Hok' & Hrec);
      [intros; apply (move_col_last_spec DROP (tbl_capacity t)); auto; lia
      |exact Hnd|apply Hok|exact Hlive|exact Hok1|exact Hdst|].
    rewrite Hz, Hcomp1. cbn. eexists _, o1, o'. split; [done|].
    split; [|done]. split; [done|]. split; [done|]. split; [rewrite Heq; apply swap_removed_last|].
    cbn. rewrite <- Heq. exact HR.
  - rewrite decide_True by done. rewrite He. cbn.
    destruct (lookup_lt_is_Some_2 (tbl_entities t) (length (tbl_entities t) - 1)) as [x Hx];
      [lia|].
    destruct (Vec_move_last_to_spec (tbl_entities t) r x) as (es & -> & Hes); [lia|done|].
    cbn. rewrite Halloc. cbn.
    edestruct (zip_for_each_spec DROP (tbl_capacity t) r (length (tbl_entities o))
      (move_col_swap DROP r (length (tbl_entities t) - 1) (length (tbl_entities o))))
      as (cs & o' & Hz & HR & Hok' & Hrec);
      [intros; apply (move_col_swap_spec DROP (tbl_capacity t)); auto; lia
      |exact Hnd|apply Hok|exact Hlive|exact Hok1|exact Hdst|].
    rewrite Hz, Hcomp1, Hx. cbn. eexists _, o1, o'. split; [done|].
    split; [|done]. split; [done|]. split; [done|]. split; [exact Hes|exact HR].
Qed.

Lemma row_received_lookup_other ids cols o o' src dst e id :
  table_ok o → table_ok o' → row_received ids cols o o' src dst →
  tbl_entities o !! dst ≠ Some e →
  Table_lookup o' e id = Table_lookup o e id.
Proof.
  intros Hok Hok' (Hcomp & Hent & Hcap & Hlen & Hcols) Hne.
  destruct (Table_get_table_row o e) as [r|] eqn:Hr.
  - apply get_table_row_Some in Hr; [|done].
    apply (Table_lookup_agree o o' e id r r); auto; [by rewrite Hent|].
    apply Forall2_same_length_lookup_2; [done|]. intros j oc oc' Hj Hj'.
    destruct (Hcols j oc oc' Hj Hj') as (_ & _ & Hrest & _). apply Hrest; [|congruence].
    pose proof (lookup_lt_Some _ _ _ Hr). pose proof (ok_len _ Hok). lia.
  - unfold Table_lookup, Table_get_table_row. rewrite Hent.
    unfold Table_get_table_row in Hr. by rewrite Hr.
Qed.

Lemma row_received_lookup_moved t o o' src dst e id :
  table_ok t → table_ok o → table_ok o' →
  row_received (tbl_components t) (tbl_columns t) o o' src dst →
  tbl_entities t !! src = Some e → tbl_entities o !! dst = Some e →
  id ∈ tbl_components t → id ∈ tbl_components o →
  Table_lookup o' e id = Table_lookup t e id.
Proof.
  intros Hokt Hok Hok' (Hcomp & Hent & Hcap & Hlen & Hcols) He He' Ht Ho.
  apply list_elem_of_lookup in Ht as [n Hn]. apply list_elem_of_lookup in Ho as [k Hk].
  rewrite (Table_lookup_row t e id src), (Table_lookup_row o' e id dst)
    by (try done; by rewrite Hent).
  rewrite (proj2 (get_table_col_Some t id n Hokt) Hn).
  rewrite (proj2 (get_table_col_Some o' id k Hok')) by (by rewrite Hcomp). cbn.
  destruct (Forall2_lookup_l _ _ _ _ _ (ok_columns _ Hokt) Hn) as (c & Hc & _).
  destruct (Forall2_lookup_l _ _ _ _ _ (ok_columns _ Hok) Hk) as (oc & Hoc & _).
  rewrite <- Hcomp in Hk.
  destruct (Forall2_lookup_l _ _ _ _ _ (ok_columns _ Hok') Hk) as (oc' & Hoc' & _).
  rewrite Hc, Hoc'. cbn. f_equal. rewrite Hcomp in Hk.
  destruct (Hcols k oc oc' Hoc Hoc') as (_ & _ & _ & Hnew & _). by apply (Hnew n id c).
Qed.
End Table.

(** ** Theorems *)

(** Every component type is at most 2^31 bytes, so that [u32::MAX] items fit an
    allocation. *)
Definition items_small (info : Z → ComponentInfo) : Prop := ∀ id,
  (Z.of_nat (pad_to_align (layout_size (info id)) (layout_align (info id))) ≤ 2147483648)%Z.

Lemma Table_new_ok info id idents :
  StronglySorted Z.lt idents → table_ok info (Table_new info id idents).
Proof.
  intros Hs. split; cbn; [|done|lia|unfold u32_max; lia|constructor].
  apply Forall2_fmap_r, Forall_Forall2_diag, Forall_true. intros x. repeat split; cbn; lia.
Qed.

(** [dealloc_row] on a live row [r] holding entity [e] never accesses
    memory it may not: it returns the values of that row that have a dropper,
    each once, when asked to drop and none otherwise; [e] leaves the table; it
    reports the entity it moved and that entity is found on row [r]; every
    other entity keeps its row; and what the table stores for every other
    entity, values and ticks, is unchanged. *)
Theorem dealloc_row_correct info (DROP : bool) t r e :
  table_ok info t → tbl_entities t !! r = Some e →
  ∃ t', Table_dealloc_row DROP t r = Ret (if DROP then row_values t r else [], row_moved t r, t') ∧
    table_ok info t' ∧ e ∉ tbl_entities t' ∧
    (∀ e' r', e' ≠ e → Table_get_table_row t e' = Some r' →
       Table_get_table_row t' e'
       = Some (if decide (moved_entity (row_moved t r) = Some e') then r else r')) ∧
    (∀ e' id, e' ≠ e → Table_lookup t' e' id = Table_lookup t e' id).
Proof.
  intros Hok He. pose proof (lookup_lt_Some _ _ _ He).
  destruct (Table_dealloc_row_spec info DROP t r Hok) as (t' & -> & Hrem); [done|].
  pose proof (row_removed_ok info t t' r Hok ltac:(done) Hrem) as Hok'.
  exists t'. split; [done|]. split; [done|]. split; [by apply (row_removed_gone info t t' r)|]. split.
  - intros e' r' Hne Hr'. apply (get_table_row_Some info) in Hr'; [|done].
    apply (get_table_row_Some info); [done|]. by apply (row_removed_location info t t' r e).
  - intros e' id Hne. by apply (row_removed_lookup info t t' r e).
Qed.

(** [move_row] between two tables of one registry, for an entity whose row
    is initialised: the entity leaves the source and gets the last row of the
    target; every component both tables have arrives with its value and its
    two ticks; the values dropped are exactly those of components the target
    lacks (none when not asked to drop); every other entity of either table
    keeps its data. *)
Theorem move_row_correct `{VecGrowth} info (DROP : bool) t r o e :
  items_small info → table_ok info t → table_ok info o → has_room o →
  tbl_entities t !! r = Some e → e ∉ tbl_entities o → Forall (λ c, cell_live c r) (tbl_columns t) →
  ∃ t' o', Table_move_row DROP t r o
     = Ret (left_behind DROP (tbl_components o) r (tbl_components t) (tbl_columns t),
            row_moved t r, length (tbl_entities o), t', o') ∧
    table_ok info t' ∧ table_ok info o' ∧
    Table_get_table_row t' e = None ∧
    Table_get_table_row o' e = Some (length (tbl_entities o)) ∧
    (∀ id, id ∈ tbl_components t → id ∈ tbl_components o →
           Table_lookup o' e id = Table_lookup t e id) ∧
    (∀ e' id, e' ≠ e → Table_lookup t' e' id = Table_lookup t e' id ∧
                       Table_lookup o' e' id = Table_lookup o e' id).
Proof.
  intros Hsm Hok Hoko Hroom He Hne Hlive. pose proof (lookup_lt_Some _ _ _ He).
  destruct (Table_move_row_spec info Hsm DROP t r o e)
    as (t' & o1 & o' & -> & Hrem & Hok1 & Hadd & Hok' & Hrec); auto.
  pose proof (row_removed_ok info t t' r Hok ltac:(done) Hrem) as Hokt'.
  assert (Hdst : tbl_entities o1 !! length (tbl_entities o) = Some e).
  { destruct Hadd as (_ & -> & _). by rewrite lookup_app_r, Nat.sub_diag by done. }
  exists t', o'. repeat (split; [done|]). split; [|split; [|split]].
  - apply position_None_iff. by apply (row_removed_gone info t t' r).
  - apply (get_table_row_Some info); [done|]. destruct Hrec as (_ & -> & _). done.
  - intros id Ht Ho.
    apply (row_received_lookup_moved info t o1 o' r (length (tbl_entities o)) e id); auto.
    by rewrite (proj1 Hadd).
  - intros e' id Hne'. split; [by apply (row_removed_lookup info t t' r e)|].
    rewrite (row_received_lookup_other info _ _ o1 o' _ _ e' id Hok1 Hok' Hrec) by congruence.
    by apply (row_added_lookup info o o1 e).
Qed.

Lemma Table_written_lookup info t k c c' r e id x :
  table_ok info t → tbl_entities t !! r = Some e → tbl_components t !! k = Some id →
  tbl_columns t !! k = Some c →
  col_is (tbl_capacity t) c c' (λ j, if decide (j = r) then x else Column_cell c j) →
  let t' := set_columns t (<[k := c']> (tbl_columns t)) in
  table_ok info t' ∧
  ∀ e' id', Table_lookup t' e' id'
            = if decide (e' = e ∧ id' = id) then Some x else Table_lookup t e' id'.
Proof.
  intros Hok He Hid Hc (Hokc & Hsl & Hcell) t'.
  assert (Hok' : table_ok info t').
  { apply (table_ok_updated info t); try done; [by cbn; rewrite length_insert|].
    intros j oc oc' Hj Hj'. cbn in Hj'.
    apply list_lookup_insert_Some in Hj' as [(-> & -> & _)|[Hne Hj']]; simplify_eq; [done|].
    split; [|done]. by apply (ok_column info t j _ Hok) in Hj as (? & _ & ? & _). }
  split; [done|]. intros e' id'. unfold Table_lookup.
  change (Table_get_table_row t' e') with (Table_get_table_row t e').
  change (Table_get_table_col t' id') with (Table_get_table_col t id').
  destruct (Table_get_table_row t e') as [r'|] eqn:Hr'; cbn.
  2: { rewrite decide_False; [done|]. intros [-> _].
       by rewrite (proj2 (get_table_row_Some info t e r Hok) He) in Hr'. }
  apply (get_table_row_Some info) in Hr'; [|done].
  destruct (Table_get_table_col t id') as [k'|] eqn:Hk'; cbn.
  2: { rewrite decide_False; [done|]. intros [_ ->].
       by rewrite (proj2 (get_table_col_Some info t id k Hok) Hid) in Hk'. }
  apply (get_table_col_Some info) in Hk'; [|done].
  pose proof (lookup_lt_Some _ _ _ Hr'). pose proof (ok_len _ _ Hok).
  destruct (decide (k' = k)) as [->|Hkk].
  - rewrite list_lookup_insert_eq by (by eapply lookup_lt_Some). cbn. rewrite Hcell by lia.
    rewrite Hc. cbn. simplify_eq. destruct (decide (r' = r)) as [->|Hrr].
    + simplify_eq. by rewrite decide_True.
    + rewrite decide_False; [done|]. intros [-> _]. apply Hrr.
      eapply NoDup_lookup; [apply Hok|done|done].
  - rewrite list_lookup_insert_ne by done. rewrite decide_False; [done|]. intros [_ ->].
    apply Hkk. eapply NoDup_lookup; [apply StronglySorted_lt_NoDup, Hok|done|done].
Qed.

(** Writing one component of one row, as the columns see it. *)
Lemma Table_init_item_spec info t r e k id v tick :
  table_ok info t → tbl_entities t !! r = Some e → tbl_components t !! k = Some id →
  length v = pad_to_align (layout_size (info id)) (layout_align (info id)) →
  ∃ cs, Table_init_item t k r v tick = Ret (set_columns t cs) ∧ table_ok info (set_columns t cs) ∧
    ∀ e' id', Table_lookup (set_columns t cs) e' id'
              = if decide (e' = e ∧ id' = id) then Some (v, Some tick, Some tick) else Table_lookup t e' id'.
Proof.
  intros Hok He Hid Hv. pose proof (lookup_lt_Some _ _ _ He) as Hr. pose proof (ok_len _ _ Hok).
  destruct (Forall2_lookup_l _ _ _ _ _ (ok_columns _ _ Hok) Hid) as (c & Hc & Hcok & Hs & Hd).
  destruct (Column_init_item_spec (tbl_capacity t) c r v tick) as (c1 & Hi & H1); [done|lia|congruence|].
  exists (<[k := c1]> (tbl_columns t)). unfold Table_init_item, Table_get_column, Table_entity_count.
  rewrite decide_True, Hc by done. cbn. rewrite Hi. split; [done|].
  by apply (Table_written_lookup info t k c c1 r e id).
Qed.

Lemma Table_replace_item_spec info t r e k id v tick :
  table_ok info t → tbl_entities t !! r = Some e → tbl_components t !! k = Some id →
  length v = pad_to_align (layout_size (info id)) (layout_align (info id)) →
  ∃ cs old added changed, Table_lookup t e id = Some (old, added, changed) ∧
    Table_replace_item t k r v tick = Ret (if has_dropper (info id) then [old] else [], set_columns t cs) ∧
    table_ok info (set_columns t cs) ∧
    ∀ e' id', Table_lookup (set_columns t cs) e' id'
              = if decide (e' = e ∧ id' = id) then Some (v, added, Some tick) else Table_lookup t e' id'.
Proof.
  intros Hok He Hid Hv. pose proof (lookup_lt_Some _ _ _ He) as Hr. pose proof (ok_len _ _ Hok).
  destruct (Forall2_lookup_l _ _ _ _ _ (ok_columns _ _ Hok) Hid) as (c & Hc & Hcok & Hs & Hd).
  destruct (Column_replace_item_spec (tbl_capacity t) c r v tick) as (c1 & Hi & H1); [done|lia|congruence|].
  exists (<[k := c1]> (tbl_columns t)), (Column_cell c r).1.1, (Column_cell c r).1.2, (Column_cell c r).2.
  split. { rewrite (Table_lookup_row info t e id r), (proj2 (get_table_col_Some info t id k Hok) Hid) by done. cbn. by rewrite Hc. }
  unfold Table_replace_item, Table_get_column, Table_entity_count.
  rewrite decide_True, Hc by done. cbn. rewrite Hi. split; [by cbn; rewrite Hd|].
  by apply (Table_written_lookup info t k c c1 r e id).
Qed.

(** Writing a component.  [init_item] stores the value with both ticks set
    to the given one; [replace_item] keeps the added tick, sets the changed
    one and drops the old value if its type has a dropper; neither touches any
    other entity or component; and reading back gives the value written. *)
Theorem item_write_correct info t r e k id v tick :
  table_ok info t → tbl_entities t !! r = Some e → tbl_components t !! k = Some id →
  length v = pad_to_align (layout_size (info id)) (layout_align (info id)) →
  ∃ old added changed t1 t2,
    Table_lookup t e id = Some (old, added, changed) ∧
    Table_init_item t k r v tick = Ret t1 ∧ table_ok info t1 ∧
    Table_get_data t1 r k = Ret v ∧ Table_get_added t1 r k = Ret tick ∧
    (∀ e' id', Table_lookup t1 e' id' = if decide (e' = e ∧ id' = id)
                 then Some (v, Some tick, Some tick) else Table_lookup t e' id') ∧
    Table_replace_item t k r v tick = Ret (if has_dropper (info id) then [old] else [], t2) ∧
    table_ok info t2 ∧ Table_get_data t2 r k = Ret v ∧ Table_get_changed t2 r k = Ret tick ∧
    (∀ e' id', Table_lookup t2 e' id' = if decide (e' = e ∧ id' = id)
                 then Some (v, added, Some tick) else Table_lookup t e' id').
Proof.
  intros Hok He Hid Hv. pose proof (lookup_lt_Some _ _ _ He) as Hr. pose proof (ok_len _ _ Hok).
  destruct (Forall2_lookup_l _ _ _ _ _ (ok_columns _ _ Hok) Hid) as (c & Hc & Hcok & Hs & Hd).
  pose proof (lookup_lt_Some _ _ _ Hc).
  destruct (Column_init_item_spec (tbl_capacity t) c r v tick) as (c1 & Hi & H1); [done|lia|congruence|].
  destruct (Column_replace_item_spec (tbl_capacity t) c r v tick) as (c2 & Hrp & H2);
    [done|lia|congruence|].
  destruct (Table_written_lookup info t k c c1 r e id _ Hok He Hid Hc H1) as [Hok1 HL1].
  destruct (Table_written_lookup info t k c c2 r e id _ Hok He Hid Hc H2) as [Hok2 HL2].
  exists (Column_cell c r).1.1, (Column_cell c r).1.2, (Column_cell c r).2.
  exists (set_columns t (<[k := c1]> (tbl_columns t))), (set_columns t (<[k := c2]> (tbl_columns t))).
  unfold Table_init_item, Table_replace_item, Table_get_data, Table_get_added, Table_get_changed,
    Table_get_column, Table_entity_count.
  cbn [tbl_entities tbl_columns set_columns].
  rewrite !(decide_True (P := r < length (tbl_entities t))) by done. rewrite Hc. cbn. rewrite Hi, Hrp. cbn.
  split. { rewrite (Table_lookup_row info t e id r), (proj2 (get_table_col_Some info t id k Hok) Hid)
             by done. cbn. by rewrite Hc. }
  split; [done|]. split; [done|].
  rewrite !list_lookup_insert_eq by done. cbn.
  destruct H1 as (H1 & _ & Hcell1), H2 as (H2 & _ & Hcell2).
  specialize (Hcell1 r ltac:(lia)). specialize (Hcell2 r ltac:(lia)).
  rewrite decide_True in Hcell1, Hcell2 by done.
  rewrite !(Column_get_data_spec (tbl_capacity t)) by (try done; lia).
  rewrite Hcell1, Hcell2. split; [done|].
  split. { unfold Column_get_added, TickArray_get. by injection Hcell1 as _ -> _. }
  split; [exact HL1|]. split; [by rewrite Hd|]. split; [done|].
  split; [done|].
  split. { unfold Column_get_changed, TickArray_get. by injection Hcell2 as _ _ ->. }
  exact HL2.
Qed.

(** Dropping a table hands every stored value of a type with a dropper to
    it exactly once, and frees every buffer with the layout it was allocated
    with. *)
Theorem table_drop_once info t :
  table_ok info t →
  Table_drop t
  = Ret (concat ((λ c, if col_drops c
                       then (λ r, (Column_cell c r).1.1) <$> seq 0 (length (tbl_entities t))
                       else []) <$> tbl_columns t)).
Proof.
  intros Hok. unfold Table_drop, Table_entity_count. pose proof (ok_len _ _ Hok).
  edestruct (for_each_col_spec
    (λ c, log ← Column_drop_slice c (length (tbl_entities t));
          c' ← Column_dealloc c (tbl_capacity t); Ret (log, c'))) as (cs' & -> & _);
    [|by eapply ok_columns_Forall|done].
  intros c Hc. cbn in Hc. erewrite Column_drop_slice_spec by eauto. cbn.
  destruct (Column_dealloc_spec _ _ Hc) as (c' & -> & _). cbn.
  exists c'. split; [done|]. exact I.
Qed.

(** A validation pass over a table whose rows are initialised clamps both
    ticks of every stored component and changes nothing else. *)
Theorem table_check_ticks_all info t now :
  table_ok info t → (∀ r, r < length (tbl_entities t) → Forall (λ c, cell_live c r) (tbl_columns t)) →
  ∃ t', Table_check_ticks t now = Ret t' ∧ table_ok info t' ∧
    tbl_entities t' = tbl_entities t ∧
    ∀ e id, Table_lookup t' e id = clamp_cell now <$> Table_lookup t e id.
Proof.
  intros Hok Hlive. unfold Table_check_ticks, Table_entity_count. pose proof (ok_len _ _ Hok) as Hl.
  edestruct (for_each_col_spec
    (λ c, c' ← Column_check_ticks c (length (tbl_entities t)) now; Ret ([], c')) (λ _, [])
    (λ c, col_ok (tbl_capacity t) c ∧ ticks_init c (length (tbl_entities t)))) as (cs' & -> & Hcs).
  - intros c [Hc Hi]. cbn in Hc.
    destruct (Column_check_ticks_spec (tbl_capacity t) c (length (tbl_entities t)) now)
      as (c' & -> & Hc'); auto. cbn. exists c'. split; [done|]. exact Hc'.
  - apply Forall_lookup_2. intros k c Hk. split.
    + eapply Forall_lookup_1; [by eapply ok_columns_Forall|done].
    + intros j Hj. exact (Forall_lookup_1 _ _ _ _ (Hlive j Hj) Hk).
  - cbn. exists (set_columns t cs'). split; [done|].
    assert (Hok' : table_ok info (set_columns t cs')).
    { apply (table_ok_updated info t); try done; cbn.
      - symmetry. by eapply Forall2_length.
      - intros j oc oc' Hj Hj'. pose proof (Forall2_lookup_lr _ _ _ _ _ _ Hcs Hj Hj') as (? & ? & _).
        done. }
    split; [done|]. split; [done|]. intros e id. unfold Table_lookup.
    change (Table_get_table_row (set_columns t cs') e) with (Table_get_table_row t e).
    change (Table_get_table_col (set_columns t cs') id) with (Table_get_table_col t id).
    destruct (Table_get_table_row t e) as [r|] eqn:Hr; [|done]. cbn.
    destruct (Table_get_table_col t id) as [k|] eqn:Hk; [|done]. cbn.
    apply (get_table_row_Some info) in Hr; [|done]. pose proof (lookup_lt_Some _ _ _ Hr).
    destruct (tbl_columns t !! k) as [c|] eqn:Hc.
    + destruct (Forall2_lookup_l _ _ _ _ _ Hcs Hc) as (c' & -> & _ & _ & Hcell). cbn.
      rewrite Hcell, decide_True by lia. done.
    + apply lookup_ge_None in Hc. rewrite (Forall2_length _ _ _ Hcs) in Hc.
      by rewrite (lookup_ge_None_2 cs').
Qed.

(** ** Witnesses *)

(** Component 1 is one byte with a dropper, component 2 zero-sized without,
    component 5 two bytes. *)
Definition ex_info (id : Z) : ComponentInfo :=
  if (id =? 1)%Z then mkComponentInfo 1 1 true
  else if (id =? 2)%Z then mkComponentInfo 0 1 false else mkComponentInfo 2 2 true.

Definition ex_ent (n : Z) : Entity := mkEntity (mkEntityId n) (mkEntityTag 0).

Definition ex_byte (b : Byte.byte) : value := [Some b].

(** Three entities with components 1 and 2. *)
Definition ex_table : outcome Table :=
  let t0 := Table_new ex_info 7 [1; 2]%Z in
  '(_, t1) ← @Table_alloc_row doubling t0 (ex_ent 10);
  '(_, t2) ← @Table_alloc_row doubling t1 (ex_ent 11);
  '(_, t3) ← @Table_alloc_row doubling t2 (ex_ent 12);
  t4 ← Table_init_item t3 0 0 (ex_byte Byte.x0a) (mkTick 1);
  t5 ← Table_init_item t4 0 1 (ex_byte Byte.x0b) (mkTick 2);
  t6 ← Table_init_item t5 0 2 (ex_byte Byte.x0c) (mkTick 3);
  t7 ← Table_init_item t6 1 0 [] (mkTick 1);
  t8 ← Table_init_item t7 1 1 [] (mkTick 2);
  Table_init_item t8 1 2 [] (mkTick 3).

Definition ex_t : Table :=
  Eval vm_compute in match ex_table with Ret t => t | _ => Table_new ex_info 7 [1; 2]%Z end.

Definition ex_o : Table := Table_new ex_info 8 [1; 5]%Z.

Lemma ex_t_ok : table_ok ex_info ex_t.
Proof.
  split; cbn; [|repeat constructor|lia|unfold u32_max; lia|].
  - repeat constructor.
  - repeat (constructor; [set_solver|]). constructor.
Qed.

Lemma ex_o_ok : table_ok ex_info ex_o.
Proof. apply Table_new_ok. repeat constructor. Qed.

Lemma ex_small : items_small ex_info.
Proof.
  intros id. unfold ex_info. destruct (id =? 1)%Z; [|destruct (id =? 2)%Z]; vm_compute; discriminate.
Qed.

(** Removing the first of three rows drops its byte and moves the last one. *)
Lemma dealloc_row_correct_witness :
  ∃ t', Table_dealloc_row true ex_t 0
        = Ret ([ex_byte Byte.x0a], MovedEntityRow_in_table (Some (ex_ent 12)) 0, t') ∧
        Table_lookup t' (ex_ent 12) 1 = Some (ex_byte Byte.x0c, Some (mkTick 3), Some (mkTick 3)).
Proof.
  destruct (dealloc_row_correct ex_info true ex_t 0 (ex_ent 10) ex_t_ok eq_refl)
    as (t' & Heq & _ & _ & _ & HL).
  exists t'. split; [exact Heq|]. rewrite HL by done. reflexivity.
Defined.

(** Moving the middle row to a table with components 1 and 5. *)
Lemma move_row_correct_witness :
  ∃ t' o', @Table_move_row doubling true ex_t 1 ex_o
           = Ret ([], MovedEntityRow_in_table (Some (ex_ent 12)) 1, 0, t', o') ∧
           Table_lookup o' (ex_ent 11) 1 = Some (ex_byte Byte.x0b, Some (mkTick 2), Some (mkTick 2)).
Proof.
  destruct (@move_row_correct doubling ex_info true ex_t 1 ex_o (ex_ent 11) ex_small ex_t_ok ex_o_ok)
    as (t' & o' & Heq & _ & _ & _ & _ & HL & _).
  - intros _. vm_compute. discriminate.
  - reflexivity.
  - cbn. set_solver.
  - repeat constructor; eexists; reflexivity.
  - exists t', o'. split; [exact Heq|]. rewrite HL by (cbn; set_solver). reflexivity.
Defined.

Lemma item_write_correct_witness :
  ∃ t2, Table_replace_item ex_t 0 2 (ex_byte Byte.xff) (mkTick 9) = Ret ([ex_byte Byte.x0c], t2) ∧
        Table_lookup t2 (ex_ent 12) 1 = Some (ex_byte Byte.xff, Some (mkTick 3), Some (mkTick 9)).
Proof.
  destruct (item_write_correct ex_info ex_t 2 (ex_ent 12) 0 1 (ex_byte Byte.xff) (mkTick 9)
    ex_t_ok eq_refl eq_refl eq_refl)
    as (old & added & changed & t1 & t2 & H0 & _ & _ & _ & _ & _ & H1 & _ & _ & _ & HL).
  assert (old = ex_byte Byte.x0c ∧ added = Some (mkTick 3)) as [-> ->].
  { vm_compute in H0. by simplify_eq. }
  exists t2. split; [exact H1|]. by rewrite HL.
Defined.

Lemma table_drop_once_witness :
  Table_drop ex_t = Ret [ex_byte Byte.x0a; ex_byte Byte.x0b; ex_byte Byte.x0c].
Proof. exact (table_drop_once ex_info ex_t ex_t_ok). Defined.

Lemma table_check_ticks_all_witness :
  ∃ t', Table_check_ticks ex_t (mkTick 3221225480) = Ret t' ∧
        Table_lookup t' (ex_ent 10) 1 = Some (ex_byte Byte.x0a, Some (mkTick 10), Some (mkTick 10)).
Proof.
  destruct (table_check_ticks_all ex_info ex_t (mkTick 3221225480) ex_t_ok)
    as (t' & Heq & _ & _ & HL).
  - intros r Hr. cbn in Hr. destruct r as [|[|[|r]]]; [..|lia];
      repeat constructor; eexists; reflexivity.
  - exists t'. split; [exact Heq|]. rewrite HL. reflexivity.
Defined.
