(* ===== verification/SparseMap.v ===== *)
(** * Sparse component maps

    [crates/voker-ecs/src/storage/sparse/map.rs]: the storage of one sparse
    component.  Rows are stable: a removed row goes to a min-heap of free rows
    and is the first to be reused.

    [BinaryHeap<Reverse<MapRow>>] is a multiset that pops its least element;
    it is modelled by the ascending list of its elements.  The entity hash map
    is a finite map.  The row vector is kept at its capacity, so its capacity
    is its length. *)

From Stdlib Require Import ZArith Lia Sorting.Sorted.
From S2P Require Import Prelude Tick EntityIdent EntityInfo Column Table.

Local Arguments Column_cell : simpl never.

(** ** Min-heap of free rows *)

Fixpoint heap_push (r : nat) (h : list nat) : list nat :=
  match h with
  | [] => [r]
  | x :: h' => if decide (r ≤ x) then r :: h else x :: heap_push r h'
  end.

Definition heap_pop (h : list nat) : option (nat * list nat) :=
  match h with
  | [] => None
  | x :: h' => Some (x, h')
  end.

Definition heap_extend (h rs : list nat) : list nat := foldl (λ h r, heap_push r h) h rs.

(** ** Map *)

Record SMap := mkSMap {
  map_id : Z;
  map_component : Z;
  map_entities : list (option Entity);
  map_free : list nat;
  map_mapper : gmap Entity nat;
  map_column : Column
}.

Definition set_column (m : SMap) (c : Column) : SMap :=
  mkSMap (map_id m) (map_component m) (map_entities m) (map_free m) (map_mapper m) c.

(** The greatest of a list of rows. *)
Definition rows_max (rs : list nat) : option nat :=
  match rs with
  | [] => None
  | r :: rs' => Some (foldr Nat.max r rs')
  end.

Section Map.
Context `{VecGrowth}.

Definition Map_new (id component : Z) (info : ComponentInfo) : SMap :=
  mkSMap id component [] [] ∅
    (Column_new (layout_size info) (layout_align info) (has_dropper info)).

Definition Map_capacity (self : SMap) : nat := length (map_entities self).

Definition Map_check_ticks (self : SMap) (now : Tick) : outcome SMap :=
  match rows_max ((map_to_list (map_mapper self)).*2) with
  | Some row => c ← Column_check_ticks (map_column self) row now; Ret (set_column self c)
  | None => Ret self
  end.

Fixpoint Map_drop_loop (c : Column) (idx : nat) (es : list (option Entity)) : outcome (list value) :=
  match es with
  | [] => Ret []
  | v :: es' =>
      log ← (match v with Some _ => Column_drop_item c idx | None => Ret [] end);
      logs ← Map_drop_loop c (S idx) es';
      Ret (log ++ logs)
  end.

Definition Map_drop (self : SMap) : outcome (list value) :=
  let current_capacity := Map_capacity self in
  log ← Map_drop_loop (map_column self) 0 (map_entities self);
  _ ← Column_dealloc (map_column self) current_capacity;
  Ret log.

Definition Map_reserve_many (this : SMap) : outcome (nat * SMap) :=
  let old_cap := Map_capacity this in
  let new_cap := grown_capacity (length (map_entities this)) 1 in
  let entities := resize new_cap None (map_entities this) in
  if (u32_max <? Z.of_nat new_cap)%Z then Panic
  else
    c ← (if decide (old_cap = 0) then Column_alloc (map_column this) new_cap
         else Column_realloc (map_column this) old_cap new_cap);
    let range := seq (old_cap + 1) (new_cap - (old_cap + 1)) in
    Ret (old_cap, mkSMap (map_id this) (map_component this) entities
                    (heap_extend (map_free this) range) (map_mapper this) c).

Definition Map_alloc_row (self : SMap) (entity : Entity) : outcome (nat * SMap) :=
  '(row, self1) ← (match heap_pop (map_free self) with
    | Some (row, free) =>
        Ret (row, mkSMap (map_id self) (map_component self) (map_entities self) free
                    (map_mapper self) (map_column self))
    | None => Map_reserve_many self
    end);
  if decide (row < length (map_entities self1)) then
    Ret (row, mkSMap (map_id self1) (map_component self1)
                (<[row := Some entity]> (map_entities self1)) (map_free self1)
                (<[entity := row]> (map_mapper self1)) (map_column self1))
  else Undefined.

Definition Map_drop_item (self : SMap) (map_row : nat) : outcome (list value) :=
  if decide (map_row < Map_capacity self) then Column_drop_item (map_column self) map_row
  else Panic.

Definition Map_dealloc_row (DROP : bool) (self : SMap) (map_row : nat)
    : outcome (list value * SMap) :=
  if decide (map_row < Map_capacity self) then
    entity ← of_option (mjoin (map_entities self !! map_row));
    let entities := <[map_row := None]> (map_entities self) in
    if decide (map_mapper self !! entity = Some map_row) then
      let self' := mkSMap (map_id self) (map_component self) entities
                     (heap_push map_row (map_free self))
                     (delete entity (map_mapper self)) (map_column self) in
      log ← (if DROP then Map_drop_item self' map_row else Ret []);
      Ret (log, self')
    else Panic
  else Panic.

Definition Map_get_map_row (self : SMap) (entity : Entity) : option nat :=
  map_mapper self !! entity.

Definition Map_get_data (self : SMap) (map_row : nat) : outcome value :=
  if decide (map_row < Map_capacity self) then Column_get_data (map_column self) map_row else Panic.

Definition Map_get_added (self : SMap) (map_row : nat) : outcome Tick :=
  if decide (map_row < Map_capacity self) then Column_get_added (map_column self) map_row else Panic.

Definition Map_get_changed (self : SMap) (map_row : nat) : outcome Tick :=
  if decide (map_row < Map_capacity self) then Column_get_changed (map_column self) map_row else Panic.

Definition Map_init_item (self : SMap) (map_row : nat) (data : value) (tick : Tick) : outcome SMap :=
  if decide (map_row < Map_capacity self) then
    c ← Column_init_item (map_column self) map_row data tick; Ret (set_column self c)
  else Panic.

Definition Map_replace_item (self : SMap) (map_row : nat) (data : value) (tick : Tick)
    : outcome (list value * SMap) :=
  if decide (map_row < Map_capacity self) then
    '(log, c) ← Column_replace_item (map_column self) map_row data tick;
    Ret (log, set_column self c)
  else Panic.

Definition Map_remove_item (self : SMap) (map_row : nat) : outcome value :=
  if decide (map_row < Map_capacity self) then Column_remove_item (map_column self) map_row
  else Panic.

(** ** Well-formed maps *)

(** [hw] is a row past every row in use. *)
Record map_shape (info : ComponentInfo) (hw : nat) (m : SMap) : Prop := {
  mok_column : col_ok (length (map_entities m)) (map_column m);
  mok_size : col_size (map_column m) = pad_to_align (layout_size info) (layout_align info);
  mok_drops : col_drops (map_column m) = has_dropper info;
  mok_mapper : ∀ e r, map_mapper m !! e = Some r ↔ map_entities m !! r = Some (Some e);
  mok_free : ∀ r, r ∈ map_free m ↔ map_entities m !! r = Some None;
  mok_sorted : StronglySorted lt (map_free m);
  mok_cap : (Z.of_nat (length (map_entities m)) ≤ u32_max)%Z;
  mok_hw : hw ≤ length (map_entities m);
  mok_above : ∀ r e, map_entities m !! r = Some (Some e) → r < hw
}.

(** Every row below [hw] was used once, and its ticks are written. *)
Definition map_ok (info : ComponentInfo) (hw : nat) (m : SMap) : Prop :=
  map_shape info hw m ∧ ticks_init (map_column m) hw.

(** What the map stores for an entity. *)
Definition Map_lookup (m : SMap) (e : Entity) : option (value * option Tick * option Tick) :=
  Column_cell (map_column m) <$> Map_get_map_row m e.

(** ** Heap *)

Lemma heap_push_elem r h x : x ∈ heap_push r h ↔ x = r ∨ x ∈ h.
Proof.
  induction h as [|y h IH]; cbn; [set_solver|]. case_decide; [set_solver|].
  rewrite !elem_of_cons, IH. tauto.
Qed.

Lemma heap_push_sorted r h :
  StronglySorted lt h → r ∉ h → StronglySorted lt (heap_push r h).
Proof.
  induction 1 as [|y h Hs IH Hf]; intros Hr; cbn; [repeat constructor|].
  rewrite not_elem_of_cons in Hr. destruct Hr as [Hne Hr]. case_decide.
  - constructor; [by constructor|]. constructor; [lia|].
    eapply Forall_impl; [exact Hf|]. cbn. lia.
  - constructor; [auto|]. apply Forall_forall. intros z Hz%heap_push_elem.
    rewrite Forall_forall in Hf. destruct Hz as [->|Hz]; [lia|auto].
Qed.

Lemma heap_extend_elem h rs x : x ∈ heap_extend h rs ↔ x ∈ h ∨ x ∈ rs.
Proof.
  unfold heap_extend. revert h. induction rs as [|r rs IH]; intros h; cbn; [set_solver|].
  rewrite IH, heap_push_elem, elem_of_cons. tauto.
Qed.

Lemma heap_extend_sorted h rs :
  StronglySorted lt h → NoDup rs → (∀ x, x ∈ rs → x ∉ h) →
  StronglySorted lt (heap_extend h rs).
Proof.
  unfold heap_extend. revert h. induction rs as [|r rs IH]; intros h Hh Hnd Hd; cbn; [done|].
  apply NoDup_cons in Hnd as [Hr Hnd]. apply IH; [|done|].
  - apply heap_push_sorted; [done|]. apply Hd. set_solver.
  - intros x Hx. rewrite heap_push_elem. intros [->|Hin]; [done|]. eapply Hd; [|done]. set_solver.
Qed.

Lemma foldr_max_ge r rs x : x ∈ r :: rs → x ≤ foldr Nat.max r rs.
Proof.
  induction rs as [|y rs IH]; cbn; [set_solver|].
  rewrite !elem_of_cons in *. intros [->|[->|Hx]]; [|lia|].
  - assert (r ≤ foldr Nat.max r rs) by (apply IH; auto). lia.
  - assert (x ≤ foldr Nat.max r rs) by (apply IH; auto). lia.
Qed.

Lemma foldr_max_elem r rs : foldr Nat.max r rs ∈ r :: rs.
Proof.
  induction rs as [|y rs IH]; cbn; [set_solver|].
  destruct (Nat.max_spec y (foldr Nat.max r rs)) as [[_ ->]|[_ ->]]; set_solver.
Qed.

Lemma rows_max_spec rs r :
  rows_max rs = Some r → r ∈ rs ∧ ∀ x, x ∈ rs → x ≤ r.
Proof.
  destruct rs as [|y rs]; [done|]. cbn. intros [= <-].
  split; [apply foldr_max_elem|apply foldr_max_ge].
Qed.

Lemma mapper_rows (m : gmap Entity nat) r :
  r ∈ (map_to_list m).*2 ↔ ∃ e, m !! e = Some r.
Proof.
  rewrite list_elem_of_fmap. split.
  - intros ([e r'] & -> & Hin). apply elem_of_map_to_list in Hin. eauto.
  - intros (e & He). exists (e, r). split; [done|]. by apply elem_of_map_to_list.
Qed.

(** ** Allocating a row *)

Variable info : ComponentInfo.
Hypothesis small_item :
  (Z.of_nat (pad_to_align (layout_size info) (layout_align info)) ≤ 2147483648)%Z.

Definition map_room (m : SMap) : Prop :=
  map_free m = [] → (Z.of_nat (grown_capacity (length (map_entities m)) 1) ≤ u32_max)%Z.

(** A row [r] taken out of the free rows of [m], not yet assigned. *)
Record row_taken (m : SMap) (r : nat) (m1 : SMap) : Prop := {
  rt_mapper : map_mapper m1 = map_mapper m;
  rt_row : map_entities m1 !! r = Some None;
  rt_live : ∀ x e, map_entities m1 !! x = Some (Some e) ↔ map_entities m !! x = Some (Some e);
  rt_free : ∀ x, x ∈ map_free m1 ↔ map_entities m1 !! x = Some None ∧ x ≠ r;
  rt_sorted : StronglySorted lt (map_free m1);
  rt_len : length (map_entities m) ≤ length (map_entities m1);
  rt_cap : (Z.of_nat (length (map_entities m1)) ≤ u32_max)%Z;
  rt_column : col_ok (length (map_entities m1)) (map_column m1);
  rt_layout : same_layout (map_column m) (map_column m1);
  rt_cells : ∀ j, j < length (map_entities m) →
             Column_cell (map_column m1) j = Column_cell (map_column m) j
}.

Lemma pop_row_taken hw m r free :
  map_shape info hw m → map_free m = r :: free →
  row_taken m r (mkSMap (map_id m) (map_component m) (map_entities m) free
                   (map_mapper m) (map_column m)) ∧ r ≤ hw.
Proof.
  intros Hok Hf. pose proof (mok_free _ _ _ Hok) as Hfree. pose proof (mok_sorted _ _ _ Hok) as Hs.
  rewrite Hf in *. apply StronglySorted_inv in Hs as [Hs Hlt]. rewrite Forall_forall in Hlt.
  assert (Hr : map_entities m !! r = Some None) by (apply Hfree; set_solver).
  split.
  - split; cbn; auto; try apply Hok; try done.
    intros x. rewrite <- Hfree, elem_of_cons. split; [|naive_solver].
    intros Hx. split; [auto|]. intros ->. specialize (Hlt r Hx). lia.
  - destruct (decide (r ≤ hw)) as [|Hgt]; [done|]. exfalso.
    assert (Hhw : map_entities m !! hw = Some None).
    { pose proof (lookup_lt_Some _ _ _ Hr).
      destruct (lookup_lt_is_Some_2 (map_entities m) hw) as [[e|] Hx]; [lia| |done].
      apply (mok_above _ _ _ Hok) in Hx. lia. }
    apply Hfree in Hhw. rewrite elem_of_cons in Hhw.
    destruct Hhw as [->|Hhw]; [lia|]. specialize (Hlt _ Hhw). lia.
Qed.

Lemma reserve_row_taken hw m :
  map_shape info hw m → map_free m = [] → map_room m →
  ∃ m1, Map_reserve_many m = Ret (length (map_entities m), m1) ∧
        row_taken m (length (map_entities m)) m1 ∧ length (map_entities m) ≤ hw.
Proof.
  intros Hok Hf Hroom. specialize (Hroom Hf). unfold Map_reserve_many, Map_capacity.
  rewrite (proj2 (Z.ltb_ge _ _)) by done.
  pose proof (grown_capacity_ge (length (map_entities m)) 1) as Hge.
  set (cap' := grown_capacity _ 1) in *. unfold u32_max in *.
  destruct (Column_grow_spec (length (map_entities m)) cap' (map_column m))
    as (c' & -> & Hc' & Hsl & Hcell);
    [apply Hok|lia|rewrite (mok_size _ _ _ Hok); unfold isize_max; nia|unfold isize_max; lia|].
  cbn. eexists. split; [done|].
  assert (Hlive : ∀ x, x < length (map_entities m) → ∃ e, map_entities m !! x = Some (Some e)).
  { intros x Hx. destruct (lookup_lt_is_Some_2 _ _ Hx) as [[e|] He]; [eauto|].
    apply (mok_free _ _ _ Hok) in He. rewrite Hf in He. set_solver. }
  assert (Hres : ∀ x, resize cap' None (map_entities m) !! x
      = if decide (x < length (map_entities m)) then map_entities m !! x
        else if decide (x < cap') then Some None else None).
  { intros x. destruct (decide (x < length (map_entities m))).
    - apply lookup_resize; lia.
    - destruct (decide (x < cap')); [by rewrite lookup_resize_new by lia|].
      by rewrite lookup_resize_old by lia. }
  split.
  - split; cbn; auto.
    + rewrite Hres, decide_False, decide_True by lia. done.
    + intros x e. rewrite Hres. repeat case_decide; try done; split; try done;
        intros Hx%lookup_lt_Some; lia.
    + intros x. rewrite heap_extend_elem, Hf, elem_of_seq, Hres.
      repeat case_decide; [|set_solver by lia|set_solver by lia].
      destruct (Hlive x) as [e ->]; [done|]. set_solver by lia.
    + apply heap_extend_sorted; [apply Hok|apply NoDup_seq|]. rewrite Hf. set_solver.
    + rewrite length_resize. lia.
    + rewrite length_resize. done.
    + by rewrite length_resize.
  - destruct (decide (length (map_entities m) = 0)); [lia|].
    destruct (Hlive (length (map_entities m) - 1)) as [e He]; [lia|].
    apply (mok_above _ _ _ Hok) in He. lia.
Qed.

Lemma Map_alloc_row_spec hw m e :
  map_shape info hw m → map_mapper m !! e = None → map_room m →
  ∃ r m', Map_alloc_row m e = Ret (r, m') ∧ r ≤ hw ∧
    map_shape info (Nat.max hw (r + 1)) m' ∧
    map_mapper m' = <[e := r]> (map_mapper m) ∧
    (∀ e', map_mapper m !! e' ≠ Some r) ∧
    ∀ j, j < length (map_entities m) →
         Column_cell (map_column m') j = Column_cell (map_column m) j.
Proof.
  intros Hok He Hroom.
  assert (∃ r m1, (match heap_pop (map_free m) with
    | Some (row, free) => Ret (row, mkSMap (map_id m) (map_component m) (map_entities m) free
                                      (map_mapper m) (map_column m))
    | None => Map_reserve_many m end) = Ret (r, m1) ∧ row_taken m r m1 ∧ r ≤ hw)
    as (r & m1 & Htake & Hrt & Hle).
  { destruct (map_free m) as [|r free] eqn:Hf; cbn.
    - destruct (reserve_row_taken hw m) as (m1 & -> & ? & ?); eauto.
    - destruct (pop_row_taken hw m r free); eauto. }
  unfold Map_alloc_row. rewrite Htake. cbn.
  pose proof (lookup_lt_Some _ _ _ (rt_row _ _ _ Hrt)) as Hr. rewrite decide_True by done.
  eexists r, _. split; [done|]. split; [done|].
  assert (Hfresh : ∀ e', map_mapper m !! e' ≠ Some r).
  { intros e' Hx%(mok_mapper _ _ _ Hok)%(rt_live _ _ _ Hrt). by rewrite (rt_row _ _ _ Hrt) in Hx. }
  split; [|split; [cbn; by rewrite (rt_mapper _ _ _ Hrt)|split; [done|apply Hrt]]].
  destruct Hrt as [Hmap Hrow Hlive Hfree Hs Hlen Hcap Hcol [Hsl Hsl'] Hcells].
  pose proof (mok_hw _ _ _ Hok).
  split; cbn; rewrite ?length_insert; auto; try lia.
  - rewrite Hsl. apply Hok.
  - rewrite Hsl'. apply Hok.
  - intros e' r'. rewrite Hmap. rewrite lookup_insert_Some, list_lookup_insert_Some.
    rewrite Hlive, <- (mok_mapper _ _ _ Hok). split; [|naive_solver].
    intros [[-> ->]|[Hne Hx]]; [by left|]. right. split; [|done]. intros ->. by eapply Hfresh.
  - intros x. rewrite Hfree, list_lookup_insert_Some. naive_solver.
  - intros x e'. rewrite list_lookup_insert_Some, Hlive.
    intros [(-> & _)|[_ Hx%(mok_above _ _ _ Hok)]]; lia.
Qed.

Lemma Map_init_item_spec hw m r v t :
  map_shape info hw m → r < length (map_entities m) →
  length v = pad_to_align (layout_size info) (layout_align info) →
  ∃ c', Map_init_item m r v t = Ret (set_column m c') ∧
    map_shape info hw (set_column m c') ∧
    ∀ j, j < length (map_entities m) →
         Column_cell c' j = if decide (j = r) then (v, Some t, Some t)
                            else Column_cell (map_column m) j.
Proof.
  intros Hok Hr Hv. unfold Map_init_item, Map_capacity. rewrite decide_True by done.
  destruct (Column_init_item_spec (length (map_entities m)) (map_column m) r v t)
    as (c' & -> & Hc & [Hs Hd] & Hcell); [apply Hok|done|by rewrite (mok_size _ _ _ Hok)|].
  cbn. exists c'. split; [done|]. split; [|done].
  split; cbn; try apply Hok; [done|rewrite Hs; apply Hok|rewrite Hd; apply Hok].
Qed.

Lemma Map_replace_item_spec hw m r v t :
  map_shape info hw m → r < length (map_entities m) →
  length v = pad_to_align (layout_size info) (layout_align info) →
  ∃ c', Map_replace_item m r v t
        = Ret (if has_dropper info then [(Column_cell (map_column m) r).1.1] else [],
               set_column m c') ∧
    map_shape info hw (set_column m c') ∧
    ∀ j, j < length (map_entities m) →
         Column_cell c' j = if decide (j = r) then (v, (Column_cell (map_column m) r).1.2, Some t)
                            else Column_cell (map_column m) j.
Proof.
  intros Hok Hr Hv. unfold Map_replace_item, Map_capacity. rewrite decide_True by done.
  destruct (Column_replace_item_spec (length (map_entities m)) (map_column m) r v t)
    as (c' & -> & Hc & [Hs Hd] & Hcell); [apply Hok|done|by rewrite (mok_size _ _ _ Hok)|].
  cbn. exists c'. rewrite (mok_drops _ _ _ Hok). split; [done|]. split; [|done].
  split; cbn; try apply Hok; [done|rewrite Hs; apply Hok|rewrite Hd; apply Hok].
Qed.

Lemma Map_dealloc_row_spec (DROP : bool) hw m r e :
  map_shape info hw m → map_mapper m !! e = Some r →
  ∃ m', Map_dealloc_row DROP m r
        = Ret (if DROP && has_dropper info then [(Column_cell (map_column m) r).1.1] else [], m') ∧
    map_shape info hw m' ∧ map_mapper m' = delete e (map_mapper m) ∧ map_column m' = map_column m.
Proof.
  intros Hok He. pose proof (proj1 (mok_mapper _ _ _ Hok e r) He) as Hr.
  pose proof (lookup_lt_Some _ _ _ Hr) as Hlt.
  unfold Map_dealloc_row, Map_drop_item, Map_capacity. rewrite decide_True, Hr by done. cbn.
  rewrite decide_True by done. cbn. rewrite length_insert, decide_True by done.
  erewrite Column_drop_item_spec by (try apply Hok; done). rewrite (mok_drops _ _ _ Hok).
  eexists. split; [by destruct DROP, (has_dropper info)|]. split; [|done].
  split; cbn; rewrite ?length_insert; try apply Hok.
  - intros e' r'. rewrite lookup_delete_Some, list_lookup_insert_Some, <- (mok_mapper _ _ _ Hok).
    split; [|naive_solver]. intros [Hne Hx]. right. split; [|done]. intros ->. apply Hne.
    apply (mok_mapper _ _ _ Hok) in Hx. by simplify_eq.
  - intros x. rewrite heap_push_elem, list_lookup_insert_Some, <- (mok_free _ _ _ Hok).
    split; [|naive_solver]. intros [->|Hx]; [by left|]. right. split; [|done]. intros ->.
    apply (mok_free _ _ _ Hok) in Hx. by simplify_eq.
  - apply heap_push_sorted; [apply Hok|]. intros Hx%(mok_free _ _ _ Hok). by simplify_eq.
  - intros x e'. rewrite list_lookup_insert_Some. intros [(_ & ? & _)|[_ Hx]]; [done|].
    by eapply mok_above.
Qed.

(** ** Sequences of operations

    The way the world drives a map: a component is inserted on a fresh row or
    replaced on the row it has, and removed with its row. *)

Inductive MapOp :=
| MInsert (e : Entity) (v : value) (t : Tick)
| MRemove (DROP : bool) (e : Entity).

Definition Map_exec (m : SMap) (o : MapOp) : outcome (list value * SMap) :=
  match o with
  | MInsert e v t =>
      match Map_get_map_row m e with
      | Some r => Map_replace_item m r v t
      | None => '(r, m1) ← Map_alloc_row m e; m2 ← Map_init_item m1 r v t; Ret ([], m2)
      end
  | MRemove DROP e =>
      match Map_get_map_row m e with
      | Some r => Map_dealloc_row DROP m r
      | None => Ret ([], m)
      end
  end.

(** The same operations on a finite map from entities to value, added tick
    and changed tick. *)
Definition spec_exec (s : gmap Entity (value * Tick * Tick)) (o : MapOp)
    : list value * gmap Entity (value * Tick * Tick) :=
  match o with
  | MInsert e v t =>
      match s !! e with
      | Some (old, a, _) => (if has_dropper info then [old] else [], <[e := (v, a, t)]> s)
      | None => ([], <[e := (v, t, t)]> s)
      end
  | MRemove DROP e =>
      match s !! e with
      | Some (old, _, _) => (if DROP && has_dropper info then [old] else [], delete e s)
      | None => ([], s)
      end
  end.

Definition stored (x : value * Tick * Tick) : value * option Tick * option Tick :=
  (x.1.1, Some x.1.2, Some x.2).

Definition map_refines (hw : nat) (m : SMap) (s : gmap Entity (value * Tick * Tick)) : Prop :=
  map_ok info hw m ∧ ∀ e, Map_lookup m e = stored <$> s !! e.

Definition op_fits (o : MapOp) : Prop :=
  match o with
  | MInsert _ v _ => length v = pad_to_align (layout_size info) (layout_align info)
  | MRemove _ _ => True
  end.

Lemma map_row_lt hw m e r :
  map_shape info hw m → map_mapper m !! e = Some r → r < hw ∧ r < length (map_entities m).
Proof.
  intros Hok Hx%(mok_mapper _ _ _ Hok). split; [by eapply mok_above|by eapply lookup_lt_Some].
Qed.

Lemma map_row_inj hw m e e' r :
  map_shape info hw m → map_mapper m !! e = Some r → map_mapper m !! e' = Some r → e = e'.
Proof. intros Hok H1%(mok_mapper _ _ _ Hok) H2%(mok_mapper _ _ _ Hok). by simplify_eq. Qed.

Lemma map_refines_replace hw m s e v t r old a b :
  map_refines hw m s → length v = pad_to_align (layout_size info) (layout_align info) →
  Map_get_map_row m e = Some r → s !! e = Some (old, a, b) →
  ∃ m', Map_replace_item m r v t = Ret (if has_dropper info then [old] else [], m') ∧
        map_refines hw m' (<[e := (v, a, t)]> s).
Proof.
  intros [[Hok Hi] Href] Hv Hr Hs. pose proof (map_row_lt hw m e r Hok Hr) as [Hlt Hlt'].
  pose proof (Href e) as He. unfold Map_lookup in He. rewrite Hr, Hs in He. cbn in He.
  apply (inj Some) in He.
  destruct (Map_replace_item_spec hw m r v t) as (c' & Hx & Hok' & Hcell); auto.
  rewrite He in Hx. exists (set_column m c'). split; [exact Hx|].
  split; [split; [done|]|].
  - intros j Hj. pose proof (mok_hw _ _ _ Hok). cbn. rewrite Hcell by lia.
    case_decide; [|by apply Hi]. by rewrite He.
  - intros e'. unfold Map_lookup, Map_get_map_row in *. cbn. destruct (decide (e' = e)) as [->|Hne].
    + rewrite Hr, lookup_insert_eq. cbn. rewrite Hcell, decide_True by done. by rewrite He.
    + rewrite lookup_insert_ne by done. rewrite <- Href.
      destruct (map_mapper m !! e') as [r'|] eqn:Hr'; [|done]. cbn.
      pose proof (map_row_lt hw m e' r' Hok Hr') as [_ ?].
      rewrite Hcell, decide_False; [done| |done]. intros ->. apply Hne.
      by eapply (map_row_inj hw m).
Qed.

Lemma map_refines_insert hw m s e v t :
  map_refines hw m s → length v = pad_to_align (layout_size info) (layout_align info) →
  Map_get_map_row m e = None → map_room m →
  ∃ hw' m', ('(r, m1) ← Map_alloc_row m e; m2 ← Map_init_item m1 r v t; Ret ([] : list value, m2))
            = Ret ([], m') ∧
        map_refines hw' m' (<[e := (v, t, t)]> s).
Proof.
  intros [[Hok Hi] Href] Hv Hr Hroom.
  destruct (Map_alloc_row_spec hw m e Hok Hr Hroom) as (r & m1 & -> & Hle & Hok1 & Hmap & Hfresh & Hc1).
  assert (Hr1 : map_mapper m1 !! e = Some r) by (rewrite Hmap; apply lookup_insert_eq).
  pose proof (map_row_lt _ m1 e r Hok1 Hr1) as [_ Hlt].
  destruct (Map_init_item_spec _ m1 r v t Hok1 Hlt Hv) as (c' & Hx & Hok' & Hcell).
  exists (Nat.max hw (r + 1)), (set_column m1 c').
  unfold mbind, outcome_bind. rewrite Hx. split; [done|].
  pose proof (mok_hw _ _ _ Hok). pose proof (mok_hw _ _ _ Hok1).
  split; [split; [done|]|].
  - intros j Hj. cbn. rewrite Hcell by lia.
    case_decide; [done|]. rewrite Hc1 by lia. apply Hi. lia.
  - intros e'. unfold Map_lookup, Map_get_map_row. cbn. rewrite Hmap.
    destruct (decide (e' = e)) as [->|Hne].
    + rewrite !lookup_insert_eq. cbn. by rewrite Hcell, decide_True by done.
    + rewrite !lookup_insert_ne by done. rewrite <- Href. unfold Map_lookup, Map_get_map_row.
      destruct (map_mapper m !! e') as [r'|] eqn:Hr'; [|done]. cbn.
      pose proof (map_row_lt hw m e' r' Hok Hr') as [_ ?].
      assert (r' ≠ r) by (intros ->; by eapply Hfresh).
      assert (Hr1' : map_mapper m1 !! e' = Some r') by (rewrite Hmap; by rewrite lookup_insert_ne).
      pose proof (map_row_lt _ m1 e' r' Hok1 Hr1') as [_ ?].
      by rewrite Hcell, decide_False, Hc1 by done.
Qed.

Lemma map_refines_remove DROP hw m s e r old a b :
  map_refines hw m s → Map_get_map_row m e = Some r → s !! e = Some (old, a, b) →
  ∃ m', Map_dealloc_row DROP m r = Ret (if DROP && has_dropper info then [old] else [], m') ∧
        map_refines hw m' (delete e s).
Proof.
  intros [[Hok Hi] Href] Hr Hs.
  pose proof (Href e) as He. unfold Map_lookup in He. rewrite Hr, Hs in He. cbn in He.
  apply (inj Some) in He.
  destruct (Map_dealloc_row_spec DROP hw m r e Hok Hr) as (m' & Hx & Hok' & Hmap & Hcol).
  rewrite He in Hx. exists m'. split; [exact Hx|].
  split; [split; [done|by rewrite Hcol]|].
  intros e'. unfold Map_lookup, Map_get_map_row. rewrite Hmap, Hcol.
  destruct (decide (e' = e)) as [->|Hne].
  - by rewrite !lookup_delete_eq.
  - rewrite !lookup_delete_ne by done. rewrite <- Href. done.
Qed.
End Map.

Lemma Map_new_shape info id comp : map_shape info 0 (Map_new id comp info).
Proof. split; cbn; try done; try (unfold u32_max; lia); try (intros; set_solver). constructor. Qed.

(** ** Theorems *)

(** C16: A sparse map refines a finite map from entities to a value and two
    ticks: starting from an empty map related to the empty finite map, every
    insert (new or replacing) and removal returns, stays within its buffers,
    drops exactly the values the finite-map operation drops, and leads to
    related states. *)
Theorem sparse_map_refines `{VecGrowth} info :
  (Z.of_nat (pad_to_align (layout_size info) (layout_align info)) ≤ 2147483648)%Z →
  (∀ id comp, map_refines info 0 (Map_new id comp info) ∅) ∧
  ∀ hw m s o, map_refines info hw m s → op_fits info o → map_room m →
    ∃ hw' m', Map_exec m o = Ret ((spec_exec info s o).1, m') ∧
              map_refines info hw' m' (spec_exec info s o).2.
Proof.
  intros Hsm. split.
  - intros id comp. split; [split; [|intros j Hj; lia]|].
    + apply Map_new_shape.
    + intros e. unfold Map_lookup. cbn. by rewrite !lookup_empty.
  - intros hw m s o Href Hfit Hroom. pose proof (proj2 Href) as Hl.
    destruct o as [e v t|DROP e]; cbn [Map_exec spec_exec]; specialize (Hl e);
      unfold Map_lookup in Hl; destruct (s !! e) as [[[old a] b]|] eqn:Hs;
      destruct (Map_get_map_row m e) as [r|] eqn:Hr; cbn in Hl; try discriminate; cbn [fst snd].
    + destruct (map_refines_replace info hw m s e v t r old a b) as (m' & -> & ?); eauto.
    + by apply (map_refines_insert info Hsm hw).
    + destruct (map_refines_remove info DROP hw m s e r old a b) as (m' & -> & ?); eauto.
    + eauto.
Qed.

(** [check_ticks] of a sparse map passes the greatest row in use as the
    number of rows to validate.  The pass is defined, and clamps the ticks of
    every entity except the one on that greatest row, which keeps its ticks
    however old they are. *)
Theorem sparse_check_ticks_skips_last info hw m now e r :
  map_ok info hw m → Map_get_map_row m e = Some r →
  (∀ e' r', Map_get_map_row m e' = Some r' → r' ≤ r) →
  ∃ m', Map_check_ticks m now = Ret m' ∧ map_ok info hw m' ∧
    Map_lookup m' e = Map_lookup m e ∧
    ∀ e', e' ≠ e → Map_lookup m' e' = clamp_cell now <$> Map_lookup m e'.
Proof.
  intros [Hok Hi] He Hmax. unfold Map_check_ticks, Map_get_map_row in *.
  assert (rows_max ((map_to_list (map_mapper m)).*2) = Some r) as ->.
  { destruct (rows_max _) as [r'|] eqn:E.
    - apply rows_max_spec in E as [[e' He']%mapper_rows Hge]. f_equal.
      assert (r ≤ r') by (apply Hge, mapper_rows; eauto). specialize (Hmax e' r' He'). lia.
    - destruct ((map_to_list (map_mapper m)).*2) eqn:E'; [|done].
      assert (r ∈ (map_to_list (map_mapper m)).*2) as Hin by (apply mapper_rows; eauto).
      rewrite E' in Hin. set_solver. }
  pose proof (map_row_lt info hw m e r Hok He) as [Hlt Hlt'].
  destruct (Column_check_ticks_spec (length (map_entities m)) (map_column m) r now)
    as (c' & -> & Hc & [Hs Hd] & Hcell); [apply Hok|lia|intros j Hj; apply Hi; lia|].
  cbn. eexists. split; [done|].
  pose proof (mok_hw _ _ _ Hok). split; [split|split].
  - split; cbn; try apply Hok; [done|rewrite Hs; apply Hok|rewrite Hd; apply Hok].
  - intros j Hj. cbn. rewrite Hcell by lia. specialize (Hi j Hj). destruct Hi as [[x Hx] [y Hy]].
    case_decide; cbn; cbn in Hx, Hy; rewrite Hx, Hy; eauto.
  - unfold Map_lookup, Map_get_map_row. cbn. rewrite He. cbn.
    by rewrite Hcell, decide_False by lia.
  - intros e' Hne. unfold Map_lookup, Map_get_map_row. cbn.
    destruct (map_mapper m !! e') as [r'|] eqn:Hr'; [|done]. cbn.
    pose proof (map_row_lt info hw m e' r' Hok Hr') as [_ ?].
    assert (r' ≠ r) by (intros ->; apply Hne; by eapply (map_row_inj info hw m)).
    specialize (Hmax e' r' Hr'). by rewrite Hcell, decide_True by lia.
Qed.

(** ** Witnesses *)

Lemma sparse_map_refines_witness :
  ∃ hw' m', @Map_exec doubling (Map_new 0 1 (ex_info 1)) (MInsert (ex_ent 4) (ex_byte Byte.x07) (mkTick 5))
            = Ret ([], m') ∧
            map_refines (ex_info 1) hw' m' {[ ex_ent 4 := (ex_byte Byte.x07, mkTick 5, mkTick 5) ]}.
Proof.
  destruct (@sparse_map_refines doubling (ex_info 1)) as [Hinit Hstep]; [vm_compute; discriminate|].
  destruct (Hstep 0 (Map_new 0 1 (ex_info 1)) ∅ (MInsert (ex_ent 4) (ex_byte Byte.x07) (mkTick 5)))
    as (hw' & m' & Hx & Hy); [apply Hinit|reflexivity|intros _; vm_compute; discriminate|].
  exists hw', m'. unfold spec_exec in Hx, Hy. rewrite lookup_empty in Hx, Hy. done.
Defined.

(** A map with the two entities 4 and 6 on rows 0 and 1. *)
Definition ex_map : outcome (list value * SMap) :=
  '(_, m1) ← @Map_exec doubling (Map_new 0 1 (ex_info 1)) (MInsert (ex_ent 4) (ex_byte Byte.x07) (mkTick 5));
  @Map_exec doubling m1 (MInsert (ex_ent 6) (ex_byte Byte.x08) (mkTick 6)).

Definition ex_m : SMap :=
  Eval vm_compute in match ex_map with Ret (_, m) => m | _ => Map_new 0 1 (ex_info 1) end.

Lemma ex_m_ok : map_ok (ex_info 1) 2 ex_m.
Proof.
  split.
  - split; cbn; try done; try (unfold u32_max; lia); try lia.
    + intros e r. split.
      * intros He.
        assert (He' : (e, r) ∈ map_to_list (map_mapper ex_m)) by (by apply elem_of_map_to_list).
        assert (map_to_list (map_mapper ex_m) = [(ex_ent 6, 1); (ex_ent 4, 0)]) as Hl
          by (vm_compute; reflexivity).
        rewrite Hl in He'. rewrite !elem_of_cons, elem_of_nil in He'.
        destruct He' as [[= -> ->]|[[= -> ->]|[]]]; reflexivity.
      * destruct r as [|[|[|[|r]]]]; cbn; intros [= <-]; reflexivity.
    + intros r. destruct r as [|[|[|[|r]]]]; cbn; split; intros Hr; try done; set_solver.
    + repeat constructor.
    + intros r e. destruct r as [|[|[|[|r]]]]; cbn; try done; lia.
  - intros j Hj. destruct j as [|[|j]]; [..|lia]; split; eexists; reflexivity.
Qed.

(** At tick 3221225480 both entries are older than the limit; only the one on
    row 0 is clamped. *)
Lemma sparse_check_ticks_skips_last_witness :
  ∃ m', Map_check_ticks ex_m (mkTick 3221225480) = Ret m' ∧
        Map_lookup m' (ex_ent 6) = Some (ex_byte Byte.x08, Some (mkTick 6), Some (mkTick 6)) ∧
        Map_lookup m' (ex_ent 4) = Some (ex_byte Byte.x07, Some (mkTick 10), Some (mkTick 10)).
Proof.
  destruct (sparse_check_ticks_skips_last (ex_info 1) 2 ex_m (mkTick 3221225480) (ex_ent 6) 1)
    as (m' & Heq & _ & H1 & H2); [exact ex_m_ok|reflexivity| |].
  - intros e' r' Hr'. apply (map_row_lt (ex_info 1) 2 ex_m) in Hr'; [lia|apply ex_m_ok].
  - exists m'. split; [exact Heq|]. split; [rewrite H1|rewrite H2 by done]; reflexivity.
Defined.
