(* ===== verification/Locations.v ===== *)
(** * Locations and rows

    What [Entities] answers and what the row vectors of archetypes and tables
    hold are two descriptions of the same thing.  [located] reads the location
    table; [placed] says that a position function and a list of row vectors
    describe each other.  The lemmas give the effect of every operation of
    [entity/info.rs] on [located], and the effect of adding, removing and moving
    a row on [placed]; archetypes and tables both use them. *)

From Stdlib Require Import ZArith Lia.
From S2P Require Import Prelude Tick EntityIdent EntityInfo Column Table.

(** ** Reading the location table *)

Definition located (es : Entities) (e : Entity) : option EntityLocation :=
  match Entities_locate es e with Ok l => Some l | Err _ => None end.

(** A slot with a location exists. *)
Lemma slot_live es i t l : slot es i = mkInfo t (Some l) → i < length (infos es).
Proof.
  intros Hs. destruct (decide (i < length (infos es))); [done|].
  unfold slot in Hs. by rewrite lookup_ge_None_2 in Hs by lia.
Qed.

Lemma located_slot es e l :
  located es e = Some l ↔ slot es (Entity_index e) = mkInfo (ent_tag e) (Some l).
Proof.
  unfold located. split.
  - destruct (Entities_locate es e) as [l'|] eqn:Hl; [|done]. intros [= <-].
    apply locate_ok in Hl. by apply slot_in.
  - intros Hs. rewrite locate_in by (by eapply slot_live). cbn. rewrite Hs. cbn. by rewrite decide_True.
Qed.

Lemma located_in es e l :
  located es e = Some l → infos es !! Entity_index e = Some (mkInfo (ent_tag e) (Some l)).
Proof. intros Hs%located_slot. by rewrite lookup_slot, Hs by (by eapply slot_live). Qed.

(** A live slot belongs to one entity. *)
Lemma Entity_index_ext e e' :
  0 < Entity_index e → Entity_index e = Entity_index e' → ent_tag e = ent_tag e' → e = e'.
Proof.
  destruct e as [[i] t], e' as [[i'] t']. unfold Entity_index, EntityId_index, EntityId_to_bits.
  cbn. intros Hp Hi ->. by replace i' with i by lia.
Qed.

Lemma located_pos es e l : Entities_wf es → located es e = Some l → 0 < Entity_index e.
Proof.
  intros [H0 _] Hs%located_slot. specialize (H0 (Entity_index e)). rewrite Hs in H0.
  cbn in H0. specialize (H0 ltac:(eauto)). lia.
Qed.

Lemma located_inj es e e' l l' :
  Entities_wf es → located es e = Some l → located es e' = Some l' → Entity_index e = Entity_index e' → e = e'.
Proof.
  intros Hwf Hl Hl' Hi. apply Entity_index_ext; [by eapply located_pos|done|].
  apply located_slot in Hl, Hl'. rewrite Hi, Hl' in Hl. by injection Hl.
Qed.

(** Writing the slot of an entity whose tag stays: only its own location changes. *)
Lemma located_write es es' e l0 o :
  Entities_wf es → located es e = Some l0 →
  es' = mkEntities (<[Entity_index e := mkInfo (ent_tag e) o]> (infos es)) →
  Entities_wf es' ∧ ∀ e', located es' e' = if decide (e' = e) then o else located es e'.
Proof.
  intros Hwf Hl ->. pose proof (located_in _ _ _ Hl) as Hi. pose proof (located_pos _ _ _ Hwf Hl) as Hp.
  split.
  { eapply (wf_update es _ _ _ Hwf); [| |intros j; by eapply slot_update_in]; cbn.
    - destruct Hwf as [H0 _]. apply H0. apply located_slot in Hl. rewrite Hl. by eexists.
    - destruct Hwf as [_ Ht]. apply located_slot in Hl as Hs. specialize (Ht (Entity_index e)).
      by rewrite Hs in Ht. }
  intros e'. unfold located, Entities_locate. cbn. destruct (decide (Entity_index e = Entity_index e')) as [Hx|Hx].
  - rewrite <- Hx, Hi, list_lookup_insert_eq by (by eapply lookup_lt_Some). cbn. repeat case_decide; subst; try done.
    + by destruct o.
    + exfalso. by apply H0, eq_sym, Entity_index_ext.
  - rewrite list_lookup_insert_ne by done. rewrite decide_False; [done|]. by intros ->.
Qed.

Lemma set_despawned_located es e l :
  Entities_wf es → located es e = Some l →
  ∃ es', Entities_set_despawned es e = (Ok l, es') ∧ Entities_wf es' ∧
    slot es' (Entity_index e) = mkInfo (ent_tag e) None ∧
    ∀ e', located es' e' = if decide (e' = e) then None else located es e'.
Proof.
  intros Hwf Hl. unfold Entities_set_despawned. pose proof (located_in _ _ _ Hl) as Hi. rewrite Hi. cbn.
  rewrite decide_True by done.
  destruct (located_write es _ e l None Hwf Hl eq_refl) as [Hwf' He].
  eexists. split; [done|]. split; [done|]. split; [|done].
  erewrite slot_update_in by done. by rewrite decide_True.
Qed.

Lemma update_location_located es e l0 l :
  Entities_wf es → located es e = Some l0 →
  ∃ es', Entities_update_location es e l = (Ok tt, es') ∧ Entities_wf es' ∧
    ∀ e', located es' e' = if decide (e' = e) then Some l else located es e'.
Proof.
  intros Hwf Hl. unfold Entities_update_location. rewrite (located_in _ _ _ Hl). cbn. rewrite decide_True by done.
  destruct (located_write es _ e l0 (Some l) Hwf Hl eq_refl) as [Hwf' He]. eauto.
Qed.

(** The location after a row report. *)
Definition with_row (r : Row) (l : EntityLocation) : EntityLocation :=
  match r with
  | Row_Arche r => mkLoc (arche_id l) (table_id l) r (table_row l)
  | Row_Table r => mkLoc (arche_id l) (table_id l) (arche_row l) r
  end.

(** A row report for a live entity, or for none, changes that entity's row only;
    no slot loses or gains a location. *)
Lemma update_row_located es moved :
  Entities_wf es → (∀ e, moved_entity moved = Some e → is_Some (located es e)) →
  ∃ es', Entities_update_row es moved = (Ok tt, es') ∧ Entities_wf es' ∧
    (∀ e', located es' e' = (if decide (moved_entity moved = Some e') then with_row (new_row moved) else id) <$> located es e') ∧
    ∀ i, info_location (slot es i) = None → slot es' i = slot es i.
Proof.
  intros Hwf Hm. unfold Entities_update_row. destruct (moved_entity moved) as [e|] eqn:Em.
  2: { exists es. split; [done|]. split; [done|]. split; [|done]. intros e'. rewrite decide_False by done.
       by rewrite option_fmap_id. }
  destruct (Hm e eq_refl) as [l Hl]. pose proof (located_in _ _ _ Hl) as Hi. rewrite Hi. cbn.
  rewrite decide_True by done.
  destruct (located_write es _ e l (Some (with_row (new_row moved) l)) Hwf Hl eq_refl) as [Hwf' He].
  eexists. split; [done|]. split; [done|]. split.
  - intros e'. etransitivity; [exact (He e')|]. repeat case_decide; simplify_eq; try done.
    + by rewrite Hl.
    + by rewrite option_fmap_id.
  - intros i Hn. erewrite slot_update_in by done. case_decide; [|done]. subst.
    apply located_slot in Hl as Hs. by rewrite Hs in Hn.
Qed.

(** Freeing an identifier that is not spawned moves its generation on and
    leaves every location. *)
Lemma free_located `{VecGrowth} es e v :
  Entities_wf es → 0 < Entity_index e → (Z.of_nat (Entity_index e) < 4294967296)%Z →
  info_location (slot es (Entity_index e)) = None →
  let tag' := EntityTag_wrapping_add (info_tag (slot es (Entity_index e))) v in
  ∃ es', Entities_free es (ent_id e) v = Ret (Entity_new (ent_id e) tag', es') ∧ Entities_wf es' ∧
    slot es' (Entity_index e) = mkInfo tag' None ∧
    (∀ j, j ≠ Entity_index e → slot es' j = slot es j) ∧
    ∀ e', located es' e' = located es e'.
Proof.
  intros Hwf Hp Hu Hn tag'. destruct (free_spec es (ent_id e) v) as (es' & -> & Hlen & Hs).
  fold (Entity_index e) in *. fold tag' in Hs |- *. exists es'. split; [done|]. split; [|split; [|split]].
  - eapply (wf_update es _ (Entity_index e) _ Hwf); [lia| |exact Hs]. cbn.
    unfold tag', EntityTag_wrapping_add, is_u32. cbn. apply wadd32_range.
  - rewrite Hs, decide_True by done. by rewrite Hn.
  - intros j Hj. by rewrite Hs, decide_False by done.
  - intros e'. apply option_eq. intros l. rewrite !located_slot, Hs. case_decide as Hx.
    + rewrite <- Hx. split; intros Hc; [|by rewrite Hc in Hn]. rewrite Hn in Hc. by injection Hc.
    + done.
Qed.

Lemma set_spawned_located `{VecGrowth} es e l :
  Entities_wf es → Entity_valid e → Entities_can_spawn es e = Ok tt →
  ∃ es', Entities_set_spawned es e l = Ret (Ok tt, es') ∧ Entities_wf es' ∧
    (∀ j, j ≠ Entity_index e → slot es' j = slot es j) ∧
    ∀ e', located es' e' = if decide (e' = e) then Some l else located es e'.
Proof.
  intros Hwf Hv Hc%can_spawn_ok. pose proof (valid_index e (proj1 Hv)) as Hp.
  assert (∃ es', Entities_set_spawned es e l = Ret (Ok tt, es') ∧ Entity_index e < length (infos es') ∧
    ∀ j, slot es' j = if decide (Entity_index e = j) then mkInfo (ent_tag e) (Some l) else slot es j)
    as (es' & -> & Hlen & Hs).
  { destruct (infos es !! Entity_index e) as [info|] eqn:Hi.
    - rewrite (set_spawned_in _ _ _ _ Hi). rewrite (slot_in _ _ _ Hi) in Hc. subst info. cbn.
      rewrite decide_True by done. eexists. split; [done|]. split.
      + cbn. rewrite length_insert. by eapply lookup_lt_Some.
      + intros j. by eapply slot_update_in.
    - by apply set_spawned_out. }
  exists es'. split; [done|]. split; [|split].
  - eapply (wf_update es _ _ _ Hwf); [| |exact Hs]; [lia|exact (proj2 Hv)].
  - intros j Hj. by rewrite Hs, decide_False by done.
  - intros e'. apply option_eq. intros l'. rewrite located_slot, Hs. case_decide as Hx.
    + case_decide; subst.
      * split; [by intros [= ->]|]. by intros [= ->].
      * split; [intros [= Ht _]; exfalso; apply H0; symmetry; apply Entity_index_ext; auto; lia|].
        intros Hl%located_slot. by rewrite <- Hx, Hc in Hl.
    + rewrite decide_False by (by intros ->). by rewrite located_slot.
Qed.

(** ** Row vectors *)

(** [pos] and the vectors [vs] describe the same placement. *)
Definition placed (pos : Entity → option (nat * nat)) (vs : list (list Entity)) : Prop :=
  ∀ e i r, pos e = Some (i, r) ↔ ∃ v, vs !! i = Some v ∧ v !! r = Some e.

(** The entity [swap_remove] moves when it removes row [r]. *)
Definition moved_last (v : list Entity) (r : nat) : option Entity :=
  if decide (r = length v - 1) then None else v !! (length v - 1).

Lemma placed_NoDup pos vs i v : placed pos vs → vs !! i = Some v → NoDup v.
Proof.
  intros Hp Hv. apply NoDup_alt. intros r r' e Hr Hr'.
  assert (pos e = Some (i, r)) by (apply Hp; eauto). assert (pos e = Some (i, r')) by (apply Hp; eauto).
  congruence.
Qed.

Lemma placed_at pos vs e i r v : placed pos vs → pos e = Some (i, r) → vs !! i = Some v → v !! r = Some e.
Proof. intros Hp He Hv. apply Hp in He as (v' & Hv' & Hr). by simplify_eq. Qed.

Lemma placed_not_in pos vs e i v : placed pos vs → (∀ r, pos e ≠ Some (i, r)) → vs !! i = Some v → e ∉ v.
Proof. intros Hp Hn Hv [r Hr]%list_elem_of_lookup. apply (Hn r), Hp. eauto. Qed.

Lemma moved_last_pos pos vs e i r v e' :
  placed pos vs → pos e = Some (i, r) → vs !! i = Some v → moved_last v r = Some e' →
  e' ≠ e ∧ pos e' = Some (i, length v - 1) ∧ r ≠ length v - 1.
Proof.
  intros Hp He Hv. unfold moved_last. case_decide as Hr; [done|]. intros Hl.
  assert (pos e' = Some (i, length v - 1)) by (apply Hp; eauto). split; [|done]. intros ->. congruence.
Qed.

Lemma placed_remove pos pos' vs i r v v' e :
  placed pos vs → pos e = Some (i, r) → vs !! i = Some v → swap_removed v v' r →
  (∀ e', pos' e' = if decide (e' = e) then None
                   else if decide (moved_last v r = Some e') then Some (i, r) else pos e') →
  placed pos' (<[i := v']> vs).
Proof.
  intros Hp He Hv Hsr Hpos e' i' r'. rewrite Hpos. pose proof (placed_NoDup _ _ _ _ Hp Hv) as Hnd.
  pose proof (placed_at _ _ _ _ _ _ Hp He Hv) as Her. pose proof (lookup_lt_Some _ _ _ Her) as Hlt.
  destruct (decide (i' = i)) as [->|Hi].
  2: { rewrite list_lookup_insert_ne by done. case_decide as He'; [subst|case_decide as Hm].
       - split; [done|]. intros Hx%Hp. congruence.
       - split; [congruence|]. intros Hx%Hp. apply (moved_last_pos pos vs e i r v e') in Hm; auto.
         destruct Hm as (_ & Hm & _). congruence.
       - apply Hp. }
  rewrite list_lookup_insert_eq by (by eapply lookup_lt_Some).
  transitivity (v' !! r' = Some e'); [|naive_solver].
  rewrite (swap_removed_lookup v v' r r' e' Hnd Hlt Hsr). case_decide as He'; [subst|case_decide as Hm].
  - split; [done|]. intros (i0 & Hi0 & Hne & _). exfalso. apply Hne. by eapply NoDup_lookup.
  - unfold moved_last in Hm. case_decide as Hlast; [done|]. split.
    + intros [= <-]. exists (length v - 1). split; [done|]. split; [done|]. by rewrite decide_True.
    + intros (i0 & Hi0 & Hne & ->). assert (i0 = length v - 1) as -> by (by eapply NoDup_lookup).
      by rewrite decide_True.
  - rewrite (Hp e' i r'). split.
    + intros (v0 & Hv0 & Hr'). simplify_eq. exists r'. split; [done|]. split; [congruence|].
      case_decide as Hl; [|done]. subst. exfalso. apply Hm. unfold moved_last. rewrite decide_False; [done|]. congruence.
    + intros (i0 & Hi0 & Hne & ->). case_decide as Hl; [|eauto]. subst. exfalso. apply Hm.
      unfold moved_last. by rewrite decide_False by done.
Qed.

Lemma placed_add pos pos' vs i v e :
  placed pos vs → pos e = None → vs !! i = Some v →
  (∀ e', pos' e' = if decide (e' = e) then Some (i, length v) else pos e') →
  placed pos' (<[i := v ++ [e]]> vs).
Proof.
  intros Hp He Hv Hpos e' i' r'. rewrite Hpos. pose proof (lookup_lt_Some _ _ _ Hv).
  destruct (decide (i' = i)) as [->|Hi].
  2: { rewrite list_lookup_insert_ne by done. case_decide as He'; [subst|apply Hp].
       split; [congruence|]. intros Hx%Hp. congruence. }
  rewrite list_lookup_insert_eq by done. transitivity ((v ++ [e]) !! r' = Some e'); [|naive_solver].
  rewrite lookup_app_Some, list_lookup_singleton_Some. case_decide as He'; [subst|].
  - split.
    + intros [= <-]. right. split; [done|]. split; [lia|done].
    + intros [Hr|(Hle & Hr & _)]; [|f_equal; f_equal; lia].
      assert (pos e = Some (i, r')) by (apply Hp; eauto). congruence.
  - rewrite (Hp e' i r'). split; [intros (v0 & ? & ?); simplify_eq; by left|].
    intros [Hr|(_ & _ & ?)]; [eauto|congruence].
Qed.

(** Out of vector [i], onto the end of vector [k]. *)
Lemma placed_move pos pos' vs i k r v v' u e :
  placed pos vs → pos e = Some (i, r) → vs !! i = Some v → vs !! k = Some u → i ≠ k → swap_removed v v' r →
  (∀ e', pos' e' = if decide (e' = e) then Some (k, length u)
                   else if decide (moved_last v r = Some e') then Some (i, r) else pos e') →
  placed pos' (<[k := u ++ [e]]> (<[i := v']> vs)).
Proof.
  intros Hp He Hv Hu Hne Hsr Hpos.
  pose (pos1 := λ e', if decide (e' = e) then None
                      else if decide (moved_last v r = Some e') then Some (i, r) else pos e').
  apply (placed_add pos1).
  - by eapply (placed_remove pos).
  - unfold pos1. by rewrite decide_True.
  - by rewrite list_lookup_insert_ne.
  - intros e'. rewrite Hpos. unfold pos1. by repeat case_decide.
Qed.

Lemma placed_register pos vs : placed pos vs → placed pos (vs ++ [[]]).
Proof.
  intros Hp e i r. rewrite (Hp e i r). split.
  - intros (v & Hv & Hr). exists v. split; [|done]. by apply lookup_app_l_Some.
  - intros (v & [Hv|[_ Hv]]%lookup_app_Some & Hr); [eauto|].
    apply list_lookup_singleton_Some in Hv as [_ <-]. done.
Qed.

Lemma placed_ext pos pos' vs : placed pos vs → (∀ e, pos' e = pos e) → placed pos' vs.
Proof. intros Hp Heq e i r. rewrite Heq. apply Hp. Qed.

(** A row report, seen as a change of position. *)
Definition reported (moved : option Entity) (r : nat) (pos : Entity → option (nat * nat)) (e : Entity) : option (nat * nat) :=
  if decide (moved = Some e) then (λ p, (p.1, r)) <$> pos e else pos e.

Lemma reported_moved pos vs e i r v e' :
  placed pos vs → pos e = Some (i, r) → vs !! i = Some v →
  reported (moved_last v r) r pos e' = if decide (moved_last v r = Some e') then Some (i, r) else pos e'.
Proof.
  intros Hp He Hv. unfold reported. case_decide as Hm; [|done].
  apply (moved_last_pos pos vs e i r v e') in Hm as (_ & -> & _); done.
Qed.

Lemma reported_fst m r pos e : fst <$> reported m r pos e = fst <$> pos e.
Proof. unfold reported. case_decide; [|done]. by destruct (pos e). Qed.

Lemma reported_ext m r pos pos' e : pos e = pos' e → reported m r pos e = reported m r pos' e.
Proof. unfold reported. by intros ->. Qed.

(** Locations are read through these two projections. *)
Definition apos (es : Entities) (e : Entity) : option (nat * nat) :=
  (λ l, (Z.to_nat (arche_id l), Z.to_nat (arche_row l))) <$> located es e.

Definition tpos (es : Entities) (e : Entity) : option (nat * nat) :=
  (λ l, (Z.to_nat (table_id l), Z.to_nat (table_row l))) <$> located es e.

Lemma apos_located es e : is_Some (apos es e) ↔ is_Some (located es e).
Proof. unfold apos. by rewrite fmap_is_Some. Qed.

Lemma apos_tpos es e : is_Some (apos es e) ↔ is_Some (tpos es e).
Proof. unfold apos, tpos. by rewrite !fmap_is_Some. Qed.

Lemma update_row_arche es m r :
  Entities_wf es → (∀ e, m = Some e → is_Some (apos es e)) →
  ∃ es', Entities_update_row es (MovedEntityRow_in_arche m (Z.of_nat r)) = (Ok tt, es') ∧ Entities_wf es' ∧
    (∀ e, apos es' e = reported m r (apos es) e) ∧ (∀ e, tpos es' e = tpos es e) ∧
    ∀ i, info_location (slot es i) = None → slot es' i = slot es i.
Proof.
  intros Hwf Hm. destruct (update_row_located es (MovedEntityRow_in_arche m (Z.of_nat r)) Hwf) as (es' & -> & Hwf' & Hl & Hs).
  { cbn. intros e He. by eapply fmap_is_Some, Hm. }
  exists es'. split; [done|]. split; [done|]. split; [|split; [|done]]; intros e; unfold apos, tpos, reported in *; cbn in Hl.
  - rewrite Hl. case_decide; [|by rewrite option_fmap_id]. destruct (located es e) as [l|]; [|done]. cbn.
    by rewrite Nat2Z.id.
  - rewrite Hl. case_decide; [|by rewrite option_fmap_id]. by destruct (located es e).
Qed.

Lemma update_row_table es m r :
  Entities_wf es → (∀ e, m = Some e → is_Some (tpos es e)) →
  ∃ es', Entities_update_row es (MovedEntityRow_in_table m (Z.of_nat r)) = (Ok tt, es') ∧ Entities_wf es' ∧
    (∀ e, apos es' e = apos es e) ∧ (∀ e, tpos es' e = reported m r (tpos es) e) ∧
    ∀ i, info_location (slot es i) = None → slot es' i = slot es i.
Proof.
  intros Hwf Hm. destruct (update_row_located es (MovedEntityRow_in_table m (Z.of_nat r)) Hwf) as (es' & -> & Hwf' & Hl & Hs).
  { cbn. intros e He. by eapply fmap_is_Some, Hm. }
  exists es'. split; [done|]. split; [done|]. split; [|split; [|done]]; intros e; unfold apos, tpos, reported in *; cbn in Hl.
  - rewrite Hl. case_decide; [|by rewrite option_fmap_id]. by destruct (located es e).
  - rewrite Hl. case_decide; [|by rewrite option_fmap_id]. destruct (located es e) as [l|]; [|done]. cbn.
    by rewrite Nat2Z.id.
Qed.
