(* ===== verification/Registry.v ===== *)
(** * Component sets: bundles, archetypes and their storages

    [crates/voker-ecs/src/bundle/], [archetype/], [component/tools.rs] (the
    collector), [storage/dense/tables.rs], [storage/sparse/maps.rs] and the
    registration methods of [world/methods/register.rs] and
    [world/methods/arche.rs].

    A bundle is a set of components, an archetype the component set of a group
    of entities; each archetype has a table for its dense components, each
    sparse component a map.  Component types are named by their identifiers, and
    [ComponentDesc] is what the component registry records of a type.  A bundle
    type is the list of the component types it is made of, which stands for its
    [TypeId].  [register_explicit_bundle] and [register_required_bundle] collect
    with a fuel: the recursion through required components meets every component
    type once. *)

From Stdlib Require Import ZArith Lia Sorting.Sorted.
From stdpp Require Import sorting.
From S2P Require Import Prelude Tick EntityIdent EntityInfo Column Table SparseMap.

(** ** Components *)

Inductive HookKind := OnAdd | OnClone | OnInsert | OnRemove | OnDiscard | OnDespawn.

#[global] Instance HookKind_eq_dec : EqDecision HookKind.
Proof. solve_decision. Defined.

Inductive StorageMode := Dense | Sparse.

#[global] Instance StorageMode_eq_dec : EqDecision StorageMode.
Proof. solve_decision. Defined.

(** [ComponentDescriptor]: layout and dropper, storage, the component types
    directly required, the hooks; and what [Default] constructs. *)
Record ComponentDesc := mkDesc {
  cd_info : ComponentInfo;
  cd_storage : StorageMode;
  cd_required : list Z;
  cd_hook : HookKind → bool;
  cd_default : value
}.

(** [sort] followed by [dedup]. *)
Fixpoint dedup (l : list Z) : list Z :=
  match l with
  | x :: ((y :: _) as rest) => if decide (x = y) then dedup rest else x :: dedup rest
  | _ => l
  end.

Definition sort_dedup (l : list Z) : list Z := dedup (merge_sort Z.le l).

(** The identifier for the next slot of a vector, [NonMaxU32::new(len).expect(..)]. *)
Definition next_id (len : nat) : outcome nat :=
  if decide (Z.of_nat len < u32_max)%Z then Ret len else Panic.

(** ** Bundles *)

Record BundleInfo := mkBundle { bi_id : nat; bi_dense_len : nat; bi_components : list Z }.

Definition BundleInfo_dense_components (self : BundleInfo) : list Z := take (bi_dense_len self) (bi_components self).

Definition BundleInfo_sparse_components (self : BundleInfo) : list Z := drop (bi_dense_len self) (bi_components self).

Definition BundleInfo_contains_component (self : BundleInfo) (id : Z) : bool := bool_decide (id ∈ bi_components self).

Record Bundles := mkBundles {
  bd_infos : list BundleInfo;
  bd_mapper : gmap (list Z) nat;
  bd_explicit : gmap (list Z) nat;
  bd_required : gmap (list Z) nat
}.

Definition Bundles_new : Bundles :=
  mkBundles [mkBundle 0 0 []] {[ [] := 0 ]} {[ [] := 0 ]} {[ [] := 0 ]}.

(** The part [register_explicit] and [register_required] share: the identifier
    of a component set, a new one if it has none. *)
Definition Bundles_intern (self : Bundles) (components : list Z) (dense_len : nat) : outcome (nat * Bundles) :=
  match bd_mapper self !! components with
  | Some id => Ret (id, self)
  | None =>
      id ← next_id (length (bd_infos self));
      Ret (id, mkBundles (bd_infos self ++ [mkBundle id dense_len components])
                 (<[components := id]> (bd_mapper self)) (bd_explicit self) (bd_required self))
  end.

Definition Bundles_register_explicit (self : Bundles) (type_id components : list Z) (dense_len : nat)
    : outcome (nat * Bundles) :=
  '(id, self') ← Bundles_intern self components dense_len;
  Ret (id, mkBundles (bd_infos self') (bd_mapper self') (<[type_id := id]> (bd_explicit self')) (bd_required self')).

Definition Bundles_register_required (self : Bundles) (type_id components : list Z) (dense_len : nat)
    : outcome (nat * Bundles) :=
  '(id, self') ← Bundles_intern self components dense_len;
  Ret (id, mkBundles (bd_infos self') (bd_mapper self') (bd_explicit self') (<[type_id := id]> (bd_required self'))).

Definition Bundles_register_dynamic_unique (self : Bundles) (components : list Z) (dense_len : nat)
    : outcome (nat * Bundles) :=
  id ← next_id (length (bd_infos self));
  Ret (id, mkBundles (bd_infos self ++ [mkBundle id dense_len components])
             (<[components := id]> (bd_mapper self)) (bd_explicit self) (bd_required self)).

Definition Bundles_get_id (self : Bundles) (components : list Z) : option nat := bd_mapper self !! components.

Definition Bundles_get_unchecked (self : Bundles) (id : nat) : outcome BundleInfo := of_option (bd_infos self !! id).

(** ** Archetypes *)

Record Archetype := mkArche {
  ar_id : nat;
  ar_table_id : nat;
  ar_observers : list HookKind;
  ar_dense_len : nat;
  ar_components : list Z;
  ar_entities : list Entity;
  ar_hooks : HookKind → list Z;
  ar_after_insert : gmap nat nat;
  ar_after_remove : gmap nat nat
}.

Definition Archetype_dense_components (self : Archetype) : list Z := take (ar_dense_len self) (ar_components self).

Definition Archetype_sparse_components (self : Archetype) : list Z := drop (ar_dense_len self) (ar_components self).

(** Linear search below 200 components, two binary searches above. *)
Definition Archetype_contains_component (self : Archetype) (id : Z) : bool :=
  if decide (length (ar_components self) < 200) then bool_decide (id ∈ ar_components self)
  else bool_decide (id ∈ Archetype_dense_components self) || bool_decide (id ∈ Archetype_sparse_components self).

Definition Archetype_contains_dense_component (self : Archetype) (id : Z) : bool :=
  bool_decide (id ∈ Archetype_dense_components self).

Definition Archetype_contains_sparse_component (self : Archetype) (id : Z) : bool :=
  bool_decide (id ∈ Archetype_sparse_components self).

Definition Archetype_has_observer (self : Archetype) (k : HookKind) : bool := bool_decide (k ∈ ar_observers self).

Definition Archetype_merge_observer_flags (self : Archetype) (flag : HookKind) : Archetype :=
  mkArche (ar_id self) (ar_table_id self) (flag :: ar_observers self) (ar_dense_len self) (ar_components self)
    (ar_entities self) (ar_hooks self) (ar_after_insert self) (ar_after_remove self).

Definition arche_set_entities (self : Archetype) (es : list Entity) : Archetype :=
  mkArche (ar_id self) (ar_table_id self) (ar_observers self) (ar_dense_len self) (ar_components self)
    es (ar_hooks self) (ar_after_insert self) (ar_after_remove self).

(** [position_entity]. *)
Definition Archetype_get_arche_row (self : Archetype) (entity : Entity) : option nat :=
  position (λ e, bool_decide (e = entity)) (ar_entities self).

Definition Archetype_alloc_row (self : Archetype) (entity : Entity) : nat * Archetype :=
  (length (ar_entities self), arche_set_entities self (ar_entities self ++ [entity])).

Definition Archetype_dealloc_row (self : Archetype) (row : nat) : outcome (MovedEntityRow * Archetype) :=
  let last := length (ar_entities self) - 1 in
  let dst := row in
  if decide (ar_entities self = []) then Undefined
  else if decide (dst = last) then
    Ret (MovedEntityRow_in_arche None (Z.of_nat row), arche_set_entities self (take last (ar_entities self)))
  else
    '(entity, es) ← Vec_move_last_to (ar_entities self) last dst;
    Ret (MovedEntityRow_in_arche (Some entity) (Z.of_nat row), arche_set_entities self es).

Definition Archetype_set_after_insert (self : Archetype) (bundle arche : nat) : Archetype :=
  mkArche (ar_id self) (ar_table_id self) (ar_observers self) (ar_dense_len self) (ar_components self)
    (ar_entities self) (ar_hooks self) (<[bundle := arche]> (ar_after_insert self)) (ar_after_remove self).

Definition Archetype_set_after_remove (self : Archetype) (bundle arche : nat) : Archetype :=
  mkArche (ar_id self) (ar_table_id self) (ar_observers self) (ar_dense_len self) (ar_components self)
    (ar_entities self) (ar_hooks self) (ar_after_insert self) (<[bundle := arche]> (ar_after_remove self)).

Record Archetypes := mkArchetypes {
  as_arches : list Archetype;
  as_mapper : gmap (list Z) nat;
  as_bundles : list (option nat)
}.

Definition set_arches (self : Archetypes) (l : list Archetype) : Archetypes :=
  mkArchetypes l (as_mapper self) (as_bundles self).

Definition Archetypes_get_unchecked (self : Archetypes) (id : nat) : outcome Archetype := of_option (as_arches self !! id).

Definition Archetypes_get_id (self : Archetypes) (components : list Z) : option nat := as_mapper self !! components.

Definition Archetypes_get_id_by_bundle (self : Archetypes) (id : nat) : option nat := mjoin (as_bundles self !! id).

(** ** Storages *)

Record Tables := mkTables { ts_tables : list Table; ts_mapper : gmap (list Z) nat }.

Record Maps := mkMaps { ms_maps : list SMap; ms_mapper : gmap Z nat }.

Definition Tables_get_unchecked (self : Tables) (id : nat) : outcome Table := of_option (ts_tables self !! id).

Definition set_table (self : Tables) (id : nat) (t : Table) : Tables :=
  mkTables (<[id := t]> (ts_tables self)) (ts_mapper self).

Definition Maps_get_id (self : Maps) (component : Z) : option nat := ms_mapper self !! component.

(** [maps.get_id(cid).debug_checked_unwrap()] and [get_unchecked_mut]. *)
Definition Maps_get_unchecked (self : Maps) (component : Z) : outcome (nat * SMap) :=
  id ← of_option (Maps_get_id self component);
  m ← of_option (ms_maps self !! id);
  Ret (id, m).

Definition set_map (self : Maps) (id : nat) (m : SMap) : Maps :=
  mkMaps (<[id := m]> (ms_maps self)) (ms_mapper self).

Section Registry.
Context `{VecGrowth}.
Variable desc : Z → ComponentDesc.
Variable components_len : nat.

Notation info := (λ id, cd_info (desc id)).

(** ** The collector *)

Record ComponentCollector := mkCollector { cl_dense : list Z; cl_sparse : list Z; cl_collected : gset Z }.

Definition ComponentCollector_new : ComponentCollector := mkCollector [] [] ∅.

Definition collect_push (self : ComponentCollector) (id : Z) : ComponentCollector :=
  match cd_storage (desc id) with
  | Dense => mkCollector (cl_dense self ++ [id]) (cl_sparse self) ({[id]} ∪ cl_collected self)
  | Sparse => mkCollector (cl_dense self) (cl_sparse self ++ [id]) ({[id]} ∪ cl_collected self)
  end.

Definition ComponentCollector_collect_explicit (self : ComponentCollector) (id : Z) : ComponentCollector :=
  if decide (id ∈ cl_collected self) then self else collect_push self id.

Fixpoint ComponentCollector_collect_required (fuel : nat) (self : ComponentCollector) (id : Z)
    : outcome ComponentCollector :=
  match fuel with
  | 0 => Undefined
  | S fuel' =>
      if decide (id ∈ cl_collected self) then Ret self
      else foldl (λ c r, c' ← c; ComponentCollector_collect_required fuel' c' r)
             (Ret (collect_push self id)) (cd_required (desc id))
  end.

Definition ComponentCollector_sorted (self : ComponentCollector) : list Z * list Z :=
  (sort_dedup (cl_dense self), sort_dedup (cl_sparse self)).

(** [Bundle::collect_explicit] and [Bundle::collect_required] of a bundle made
    of the given component types. *)
Definition bundle_collect_explicit (types : list Z) : ComponentCollector :=
  foldl ComponentCollector_collect_explicit ComponentCollector_new types.

Definition bundle_collect_required (types : list Z) : outcome ComponentCollector :=
  foldl (λ c t, c' ← c; ComponentCollector_collect_required (S components_len) c' t)
    (Ret ComponentCollector_new) types.

(** ** Registration in the storages *)

Definition Archetype_new (arche_id table_id dense_len : nat) (idents : list Z) : Archetype :=
  mkArche arche_id table_id [] dense_len idents []
    (λ k, filter (λ id, cd_hook (desc id) k = true) idents) ∅ ∅.

Definition Archetypes_new : Archetypes :=
  mkArchetypes [Archetype_new 0 0 0 []] {[ [] := 0 ]} [Some 0].

Definition Archetypes_map_bundle_id (self : Archetypes) (bundle_id arche_id : nat) : outcome Archetypes :=
  let index := bundle_id in
  let bundles :=
    if decide (length (as_bundles self) ≤ index) then
      resize (grown_capacity (length (as_bundles self)) (index + 1 - length (as_bundles self))) None (as_bundles self)
    else as_bundles self in
  if decide (index < length bundles)
  then Ret (mkArchetypes (as_arches self) (as_mapper self) (<[index := Some arche_id]> bundles))
  else Undefined.

Definition Archetypes_register_unique (self : Archetypes) (table_id dense_len : nat) (idents : list Z)
    : outcome (nat * Archetypes) :=
  arche_id ← next_id (length (as_arches self));
  Ret (arche_id, mkArchetypes (as_arches self ++ [Archetype_new arche_id table_id dense_len idents])
                   (<[idents := arche_id]> (as_mapper self)) (as_bundles self)).

Definition Tables_new : Tables := mkTables [Table_new info 0 []] {[ [] := 0 ]}.

Definition Tables_register (self : Tables) (idents : list Z) : outcome (nat * Tables) :=
  match ts_mapper self !! idents with
  | Some id => Ret (id, self)
  | None =>
      table_id ← next_id (length (ts_tables self));
      Ret (table_id, mkTables (ts_tables self ++ [Table_new info (Z.of_nat table_id) idents])
                       (<[idents := table_id]> (ts_mapper self)))
  end.

Definition Maps_new : Maps := mkMaps [] ∅.

Definition Maps_prepare (self : Maps) (id : Z) : outcome Maps :=
  match ms_mapper self !! id with
  | Some _ => Ret self
  | None =>
      map_id ← next_id (length (ms_maps self));
      Ret (mkMaps (ms_maps self ++ [Map_new (Z.of_nat map_id) id (info id)]) (<[id := map_id]> (ms_mapper self)))
  end.

Fixpoint Maps_register (self : Maps) (idents : list Z) : outcome Maps :=
  match idents with
  | [] => Ret self
  | id :: rest => self' ← Maps_prepare self id; Maps_register self' rest
  end.
End Registry.
