(* ===== verification/Collector.v ===== *)
(** * Collecting component sets

    [sort] and [dedup], and the [ComponentCollector] of [component/tools.rs]:
    collecting with required components ends, also when requirements are cyclic,
    and gives the closure of the types asked for. *)

From Stdlib Require Import ZArith Lia Sorting.Sorted Relations.
From stdpp Require Import sorting relations.
From S2P Require Import Prelude Tick EntityIdent EntityInfo Column Table SparseMap Registry.

(** ** Sorting *)

Lemma dedup_cons2 y z l : dedup (y :: z :: l) = if decide (y = z) then dedup (z :: l) else y :: dedup (z :: l).
Proof. done. Qed.

Lemma dedup_elem l x : x ∈ dedup l ↔ x ∈ l.
Proof.
  induction l as [|y [|z l] IH]; [done|done|]. rewrite dedup_cons2. case_decide; subst.
  - rewrite IH. set_solver.
  - rewrite elem_of_cons, IH. set_solver.
Qed.

Lemma dedup_sorted l : StronglySorted Z.le l → StronglySorted Z.lt (dedup l).
Proof.
  induction l as [|y [|z l] IH]; intros Hs; [constructor|by repeat constructor|].
  inversion Hs as [|? ? Hs' Hall]; subst. rewrite dedup_cons2. case_decide as Hyz; subst; [by apply IH|].
  constructor; [by apply IH|]. apply Forall_forall. intros x Hx. rewrite dedup_elem in Hx.
  rewrite Forall_forall in Hall. pose proof (Hall z ltac:(set_solver)) as Hz.
  apply elem_of_cons in Hx as [->|Hx]; [lia|]. inversion Hs' as [|? ? _ Hall']; subst.
  rewrite Forall_forall in Hall'. specialize (Hall' x Hx). lia.
Qed.

Lemma sort_dedup_elem l x : x ∈ sort_dedup l ↔ x ∈ l.
Proof. unfold sort_dedup. by rewrite dedup_elem, merge_sort_Permutation. Qed.

Lemma sort_dedup_sorted l : StronglySorted Z.lt (sort_dedup l).
Proof. apply dedup_sorted, (StronglySorted_merge_sort Z.le). Qed.

(** ** Collecting *)

Section collector.
Variable desc : Z → ComponentDesc.

Definition requires (c r : Z) : Prop := r ∈ cd_required (desc c).

(** The lists and the set of a collector agree. *)
Record collector_ok (c : ComponentCollector) : Prop := {
  cc_dense : ∀ x, x ∈ cl_dense c ↔ x ∈ cl_collected c ∧ cd_storage (desc x) = Dense;
  cc_sparse : ∀ x, x ∈ cl_sparse c ↔ x ∈ cl_collected c ∧ cd_storage (desc x) = Sparse
}.

Lemma collector_new_ok : collector_ok ComponentCollector_new.
Proof. split; cbn; set_solver. Qed.

Lemma collect_push_ok c id :
  collector_ok c → collector_ok (collect_push desc c id) ∧
  cl_collected (collect_push desc c id) = {[id]} ∪ cl_collected c.
Proof.
  intros [Hd Hs]. unfold collect_push. destruct (cd_storage (desc id)) eqn:Eid; (split; [|done]); split; cbn; intros x;
    rewrite ?elem_of_app, ?list_elem_of_singleton, ?Hd, ?Hs, elem_of_union, elem_of_singleton;
    destruct (decide (x = id)) as [->|]; intuition congruence.
Qed.

Lemma collect_explicit_spec types :
  collector_ok (bundle_collect_explicit desc types) ∧
  ∀ x, x ∈ cl_collected (bundle_collect_explicit desc types) ↔ x ∈ types.
Proof.
  unfold bundle_collect_explicit.
  assert (Hgen : ∀ c, collector_ok c →
    collector_ok (foldl (ComponentCollector_collect_explicit desc) c types) ∧
    ∀ x, x ∈ cl_collected (foldl (ComponentCollector_collect_explicit desc) c types) ↔ x ∈ cl_collected c ∨ x ∈ types).
  { induction types as [|t ts IH]; intros c Hc; cbn; [set_solver|].
    assert (collector_ok (ComponentCollector_collect_explicit desc c t) ∧
            ∀ x, x ∈ cl_collected (ComponentCollector_collect_explicit desc c t) ↔ x = t ∨ x ∈ cl_collected c) as [Hok Hx].
    { unfold ComponentCollector_collect_explicit. case_decide; [set_solver|].
      destruct (collect_push_ok c t Hc) as [? ->]. set_solver. }
    destruct (IH _ Hok) as [? Hy]. split; [done|]. intros x. rewrite Hy, Hx. set_solver. }
  destruct (Hgen _ collector_new_ok) as [? Hx]. split; [done|]. intros x. rewrite Hx. cbn. set_solver.
Qed.

(** A universe of component types. *)
Variable known : gset Z.

(** What a run of the collector from [c] to [c'] adds for the types [ts]. *)
Record collected (ts : list Z) (c c' : ComponentCollector) : Prop := {
  co_ok : collector_ok c';
  co_mono : cl_collected c ⊆ cl_collected c';
  co_known : cl_collected c' ⊆ known;
  co_roots : ∀ t, t ∈ ts → t ∈ cl_collected c';
  co_closed : ∀ x r, x ∈ cl_collected c' → x ∉ cl_collected c → requires x r → r ∈ cl_collected c';
  co_reach : ∀ x, x ∈ cl_collected c' → x ∈ cl_collected c ∨ ∃ t, t ∈ ts ∧ rtc requires t x
}.

Lemma collected_refl c : collector_ok c → cl_collected c ⊆ known → collected [] c c.
Proof. intros Hc Hk. split; auto; [set_solver|]. intros x r Hx Hn. done. Qed.

Lemma collected_trans ts ts' c c1 c2 : collected ts c c1 → collected ts' c1 c2 → collected (ts ++ ts') c c2.
Proof.
  intros H1 H2. pose proof (co_mono _ _ _ H1) as M1. pose proof (co_mono _ _ _ H2) as M2. split.
  - apply H2.
  - set_solver.
  - apply H2.
  - intros t [Ht|Ht]%elem_of_app; [|by apply (co_roots _ _ _ H2)]. by apply M2, (co_roots _ _ _ H1).
  - intros x r Hx Hn Hr. destruct (decide (x ∈ cl_collected c1)) as [Hx1|Hx1].
    + apply M2. by apply (co_closed _ _ _ H1 x).
    + by apply (co_closed _ _ _ H2 x).
  - intros x Hx. destruct (co_reach _ _ _ H2 x Hx) as [Hx1|(t & Ht & Hr)]; [|set_solver].
    destruct (co_reach _ _ _ H1 x Hx1) as [|(t & Ht & Hr)]; [by left|set_solver].
Qed.

(** Collecting a list of types one after the other. *)
Lemma collect_list fuel (f : ComponentCollector → Z → outcome ComponentCollector) ts c :
  (∀ c t, collector_ok c → cl_collected c ⊆ known → t ∈ known → size (known ∖ cl_collected c) < fuel →
          ∃ c', f c t = Ret c' ∧ collected [t] c c') →
  collector_ok c → cl_collected c ⊆ known → (∀ t, t ∈ ts → t ∈ known) → size (known ∖ cl_collected c) < fuel →
  ∃ c', foldl (λ c t, c' ← c; f c' t) (Ret c) ts = Ret c' ∧ collected ts c c'.
Proof.
  intros Hf. revert c. induction ts as [|t ts IH]; intros c Hc Hk Hts Hsz; cbn.
  { exists c. split; [done|]. by apply collected_refl. }
  destruct (Hf c t) as (c1 & Hc1 & H1); [done|done|apply Hts; set_solver|done|].
  unfold mbind, outcome_bind. rewrite Hc1.
  destruct (IH c1) as (c2 & Hc2 & H2); [apply H1|apply H1|intros; apply Hts; set_solver| |].
  { eapply Nat.le_lt_trans; [|exact Hsz]. apply subseteq_size. pose proof (co_mono _ _ _ H1). set_solver. }
  exists c2. split; [exact Hc2|]. exact (collected_trans [t] ts c c1 c2 H1 H2).
Qed.

(** The types, and all they require. *)
Definition closure_of (ts : list Z) (x : Z) : Prop := ∃ t, t ∈ ts ∧ rtc requires t x.

Lemma collected_closure ts c :
  collected ts ComponentCollector_new c → ∀ x, x ∈ cl_collected c ↔ closure_of ts x.
Proof.
  intros Hc x. split.
  - intros Hx. destruct (co_reach _ _ _ Hc x Hx) as [?|Hr]; [set_solver|done].
  - intros (t & Ht & Hr). apply (co_roots _ _ _ Hc) in Ht. induction Hr as [|y z x Hyz Hr IH]; [done|].
    apply IH. eapply (co_closed _ _ _ Hc); [done|cbn; set_solver|done].
Qed.

(** The universe has whatever its members require. *)
Hypothesis known_closed : ∀ c r, c ∈ known → requires c r → r ∈ known.

Lemma collect_required_spec fuel c t :
  collector_ok c → cl_collected c ⊆ known → t ∈ known → size (known ∖ cl_collected c) < fuel →
  ∃ c', ComponentCollector_collect_required desc fuel c t = Ret c' ∧ collected [t] c c'.
Proof.
  revert c t. induction fuel as [|fuel IH]; intros c t Hc Hk Ht Hsz; [lia|]. cbn. case_decide as Hin.
  { exists c. split; [done|]. split; auto.
    - by intros t' ->%list_elem_of_singleton.
    - intros x r Hx Hn. done. }
  destruct (collect_push_ok c t Hc) as [Hc1 Hcol].
  assert (Hsz1 : size (known ∖ cl_collected (collect_push desc c t)) < fuel).
  { rewrite Hcol. assert (Hlt : size (known ∖ ({[t]} ∪ cl_collected c)) < size (known ∖ cl_collected c)); [|lia].
    apply subset_size. set_solver. }
  destruct (collect_list fuel (ComponentCollector_collect_required desc fuel) (cd_required (desc t)) (collect_push desc c t) IH)
    as (c' & Hc' & H'); [done|rewrite Hcol; set_solver|intros r Hr; by apply (known_closed t)|done|].
  exists c'. split; [exact Hc'|].
  pose proof (co_mono _ _ _ H') as M. rewrite Hcol in M. split.
  - apply H'.
  - set_solver.
  - apply H'.
  - intros t' ->%list_elem_of_singleton. set_solver.
  - intros x r Hx Hn Hr. destruct (decide (x = t)) as [->|Hne].
    + by apply (co_roots _ _ _ H').
    + apply (co_closed _ _ _ H' x r Hx); [|done]. rewrite Hcol. set_solver.
  - intros x Hx. destruct (co_reach _ _ _ H' x Hx) as [Hx1|(r & Hr & Hreach)].
    + rewrite Hcol in Hx1. apply elem_of_union in Hx1 as [->%elem_of_singleton|?]; [|by left].
      right. exists t. split; [set_solver|done].
    + right. exists t. split; [set_solver|]. by eapply rtc_l.
Qed.

Lemma bundle_collect_required_spec types :
  (∀ t, t ∈ types → t ∈ known) →
  ∃ c, bundle_collect_required desc (size known) types = Ret c ∧ collector_ok c ∧
    (∀ x, x ∈ cl_collected c → x ∈ known) ∧ ∀ x, x ∈ cl_collected c ↔ closure_of types x.
Proof.
  intros Hts. unfold bundle_collect_required.
  destruct (collect_list (S (size known)) (ComponentCollector_collect_required desc (S (size known))) types ComponentCollector_new)
    as (c & Hc & H); auto.
  - intros. by apply collect_required_spec.
  - apply collector_new_ok.
  - cbn. set_solver.
  - cbn. apply Nat.lt_succ_r, subseteq_size. set_solver.
  - exists c. split; [done|]. split; [apply H|]. split; [apply H|]. by apply collected_closure.
Qed.
End collector.
