(* ===== verification/Resource.v ===== *)
(** * Resources

    [crates/voker-ecs/src/resource/resources.rs], [storage/global/] (data.rs, set.rs), the
    methods of [world/methods/resource.rs] and the mutable borrow of [borrow.rs]: one
    value per registered type, with the ticks of its insertion and last change.

    [None] in [rd_data] is the null pointer; a value is of any type [V].  A dropped value
    goes to [rw_dropped] when its type has a dropper.  [T::from_world] is the value it
    returns; what a caller does with a mutable borrow is one assignment.  The [!Send]
    methods first assert that they run on the thread of the world. *)

From Stdlib Require Import ZArith Lia.
From S2P Require Import Prelude Tick EntityInfo Registry.

Section Resource.
Context `{VecGrowth}.
Context {V : Type}.
Variable droppers : Z → bool.

(** ** One resource *)

Record ResourceData := mkRes { rd_dropper : bool; rd_data : option V; rd_added : Tick; rd_changed : Tick }.

Definition ResourceData_new (t : Z) : ResourceData := mkRes (droppers t) None (Tick_new 0) (Tick_new 0).

(** The dropper on a value. *)
Definition call_dropper (self : ResourceData) (v : V) : list V := if rd_dropper self then [v] else [].

Definition ResourceData_insert_untyped (self : ResourceData) (v : V) (tick : Tick) : list V * ResourceData :=
  match rd_data self with
  | Some old => (call_dropper self old, mkRes (rd_dropper self) (Some v) (rd_added self) tick)
  | None => ([], mkRes (rd_dropper self) (Some v) tick tick)
  end.

Definition ResourceData_check_ticks (self : ResourceData) (now : Tick) : ResourceData :=
  mkRes (rd_dropper self) (rd_data self) (Tick_check_tick (rd_added self) now) (Tick_check_tick (rd_changed self) now).

Definition ResourceData_is_active (self : ResourceData) : bool := bool_decide (is_Some (rd_data self)).

Definition ResourceData_get_ref (self : ResourceData) : option (V * Tick * Tick) :=
  v ← rd_data self; Some (v, rd_added self, rd_changed self).

Definition ResourceData_clear (self : ResourceData) : list V * ResourceData :=
  match rd_data self with
  | Some v => (call_dropper self v, mkRes (rd_dropper self) None (rd_added self) (rd_changed self))
  | None => ([], self)
  end.

Definition ResourceData_leak (self : ResourceData) : option (V * Tick * Tick) * ResourceData :=
  (ResourceData_get_ref self, mkRes (rd_dropper self) None (rd_added self) (rd_changed self)).

Definition ResourceData_from_raw (self : ResourceData) (v : V) (added changed : Tick) : list V * ResourceData :=
  let '(log, self) := ResourceData_clear self in
  (log, mkRes (rd_dropper self) (Some v) added changed).

Definition ResourceData_remove (self : ResourceData) : option V * ResourceData :=
  match rd_data self with
  | None => (None, self)
  | Some v => (Some v, mkRes (rd_dropper self) None (rd_added self) (rd_changed self))
  end.

(** ** Storage and registry *)

Notation ResourceStorage := (list (option ResourceData)).

Definition ResourceStorage_check_ticks (self : ResourceStorage) (now : Tick) : ResourceStorage :=
  option_map (λ d, ResourceData_check_ticks d now) <$> self.

Definition ResourceStorage_get (self : ResourceStorage) (id : nat) : option ResourceData := mjoin (self !! id).

Definition ResourceStorage_prepare (self : ResourceStorage) (id : nat) (t : Z) : outcome ResourceStorage :=
  match ResourceStorage_get self id with
  | Some _ => Ret self
  | None =>
      let self := if decide (length self ≤ id) then resize (grown_capacity (length self) (id + 1 - length self)) None self else self in
      if decide (id < length self) then Ret (<[id := Some (ResourceData_new t)]> self) else Undefined
  end.

Definition ResourceStorage_len (self : ResourceStorage) : nat := length (omap id self).

Record Resources := mkResources { rs_infos : list Z; rs_mapper : gmap Z nat }.

Definition Resources_get_id (self : Resources) (t : Z) : option nat := rs_mapper self !! t.

Definition Resources_register (self : Resources) (t : Z) : outcome (nat * Resources) :=
  match Resources_get_id self t with
  | Some id => Ret (id, self)
  | None => id ← next_id (length (rs_infos self)); Ret (id, mkResources (rs_infos self ++ [t]) (<[t := id]> (rs_mapper self)))
  end.

(** ** The world *)

Record ResWorld := mkResWorld {
  rw_resources : Resources; rw_storage : ResourceStorage; rw_last_run : Tick; rw_this_run : Tick; rw_dropped : list V
}.

Definition ResWorld_new (last_run this_run : Tick) : ResWorld := mkResWorld (mkResources [] ∅) [] last_run this_run [].

Definition put_data (w : ResWorld) (id : nat) (x : list V * ResourceData) : ResWorld :=
  mkResWorld (rw_resources w) (<[id := Some x.2]> (rw_storage w)) (rw_last_run w) (rw_this_run w) (rw_dropped w ++ x.1).

(** [self.resources.get_id(..)] and [self.storages.resources.get_mut(id)]. *)
Definition find_data (w : ResWorld) (t : Z) : option (nat * ResourceData) :=
  id ← Resources_get_id (rw_resources w) t; d ← ResourceStorage_get (rw_storage w) id; Some (id, d).

Definition World_prepare_resource (w : ResWorld) (id : nat) : outcome ResWorld :=
  match rs_infos (rw_resources w) !! id with
  | Some t => s ← ResourceStorage_prepare (rw_storage w) id t; Ret (mkResWorld (rw_resources w) s (rw_last_run w) (rw_this_run w) (rw_dropped w))
  | None => Ret w
  end.

Definition insert_internal (w : ResWorld) (v : V) (id : nat) : outcome ResWorld :=
  w ← World_prepare_resource w id;
  d ← of_option (ResourceStorage_get (rw_storage w) id);
  Ret (put_data w id (ResourceData_insert_untyped d v (rw_this_run w))).

Definition World_contains_resource (w : ResWorld) (t : Z) : bool :=
  match find_data w t with Some (_, d) => ResourceData_is_active d | None => false end.

Definition World_insert_resource (w : ResWorld) (t : Z) (v : V) : outcome ResWorld :=
  '(id, rs) ← Resources_register (rw_resources w) t;
  insert_internal (mkResWorld rs (rw_storage w) (rw_last_run w) (rw_this_run w) (rw_dropped w)) v id.

Definition World_remove_resource (w : ResWorld) (t : Z) : option V * ResWorld :=
  match find_data w t with
  | Some (id, d) => let '(v, d) := ResourceData_remove d in (v, put_data w id ([], d))
  | None => (None, w)
  end.

Definition World_drop_resource (w : ResWorld) (t : Z) : ResWorld :=
  match find_data w t with Some (id, d) => put_data w id (ResourceData_clear d) | None => w end.

Definition World_get_resource (w : ResWorld) (t : Z) : option V := '(_, d) ← find_data w t; rd_data d.

Definition World_resource (w : ResWorld) (t : Z) : outcome V := match World_get_resource w t with Some v => Ret v | None => Panic end.

(** The reference with its ticks; the two ticks of the run come from the world. *)
Definition World_get_resource_ref (w : ResWorld) (t : Z) : option (V * Tick * Tick) := '(_, d) ← find_data w t; ResourceData_get_ref d.

(** An assignment through [deref_mut]. *)
Record ResMut := mkResMut { rm_value : V; rm_added : Tick; rm_changed : Tick; rm_last_run : Tick; rm_this_run : Tick }.

Definition ResMut_assign (self : ResMut) (v : V) : ResMut :=
  mkResMut v (rm_added self) (rm_this_run self) (rm_last_run self) (rm_this_run self).

(** The borrowed value and ticks are those of the storage. *)
Definition get_mut_assign (w : ResWorld) (id : nat) (d : ResourceData) (x : V * Tick * Tick) (v : V) : ResWorld :=
  let m := ResMut_assign (mkResMut x.1.1 x.1.2 x.2 (rw_last_run w) (rw_this_run w)) v in
  put_data w id ([], mkRes (rd_dropper d) (Some (rm_value m)) (rm_added m) (rm_changed m)).

(** [get_resource_mut] and an assignment; the answer says whether there was a resource. *)
Definition World_get_resource_mut (w : ResWorld) (t : Z) (v : V) : bool * ResWorld :=
  match find_data w t with
  | Some (id, d) => match ResourceData_get_ref d with Some x => (true, get_mut_assign w id d x v) | None => (false, w) end
  | None => (false, w)
  end.

Definition World_init_resource (w : ResWorld) (t : Z) (v : V) : outcome ResWorld :=
  if World_contains_resource w t then Ret w else World_insert_resource w t v.

(** [resource_mut_or_init] and an assignment. *)
Definition World_resource_mut_or_init (w : ResWorld) (t : Z) (init v : V) : outcome ResWorld :=
  let '(found, w') := World_get_resource_mut w t v in
  if found : bool then Ret w'
  else
    '(id, rs) ← Resources_register (rw_resources w) t;
    w ← World_prepare_resource (mkResWorld rs (rw_storage w) (rw_last_run w) (rw_this_run w) (rw_dropped w)) id;
    d ← of_option (ResourceStorage_get (rw_storage w) id);
    let w := put_data w id (ResourceData_insert_untyped d init (rw_this_run w)) in
    d ← of_option (ResourceStorage_get (rw_storage w) id);
    x ← of_option (ResourceData_get_ref d);
    Ret (get_mut_assign w id d x v).

(** [ReinsertGuard::drop]. *)
Definition ReinsertGuard_drop (w : ResWorld) (id : nat) (v : V) (added changed : Tick) : outcome ResWorld :=
  match ResourceStorage_get (rw_storage w) id with
  | None => Panic
  | Some d =>
      let '(log, d) := if ResourceData_is_active d then ResourceData_clear d else ([], d) in
      let '(log', d) := ResourceData_from_raw d v added changed in
      Ret (put_data w id (log ++ log', d))
  end.

(** The guard copies the ticks before the closure borrows them, and shares the value. *)
Definition World_try_resource_scope {R} (w : ResWorld) (t : Z) (func : ResWorld → ResMut → outcome (R * ResWorld * ResMut))
    : outcome (option R * ResWorld) :=
  match find_data w t with
  | Some (id, d) =>
      match ResourceData_leak d with
      | (Some (v, added, changed), d) =>
          let w := put_data w id ([], d) in
          '(r, w, m) ← func w (mkResMut v added changed (rw_last_run w) (rw_this_run w));
          w ← ReinsertGuard_drop w id (rm_value m) added changed;
          Ret (Some r, w)
      | (None, d) => Ret (None, put_data w id ([], d))
      end
  | None => Ret (None, w)
  end.

Definition World_check_resource_ticks (w : ResWorld) (now : Tick) : ResWorld :=
  mkResWorld (rw_resources w) (ResourceStorage_check_ticks (rw_storage w) now) (rw_last_run w) (rw_this_run w) (rw_dropped w).
End Resource.
