(* ===== verification/ResourceTheorems.v ===== *)
(** * Resources: theorems

    A world's resources are a map from types to a value with two ticks.  Every history of
    the methods of [Resource.v] gives the answers of that map and drops what the map
    drops. *)

From Stdlib Require Import ZArith Lia.
From S2P Require Import Prelude Tick EntityInfo Registry Resource.

(** ** Histories *)

(** The [!Send] methods are called on the thread of the world, or on another. *)
Inductive Kind := KSend | KNonSend (main : bool).

(** One call; a scope runs calls on the world and may assign to its resource. *)
Inductive ROp {V : Type} :=
| OContains (t : Z)
| OInsert (k : Kind) (t : Z) (v : V)
| ORemove (k : Kind) (t : Z)
| ODrop (k : Kind) (t : Z)
| OGet (k : Kind) (t : Z)
| OExpect (k : Kind) (t : Z)
| OGetRef (k : Kind) (t : Z)
| OAssign (k : Kind) (t : Z) (v : V)
| OInit (k : Kind) (t : Z) (v : V)
| OMutOrInit (k : Kind) (t : Z) (init v : V)
| OScope (k : Kind) (t : Z) (body : list ROp) (v : option V)
| OClock (last_run this_run : Tick)
| OCheck (now : Tick).
Arguments ROp : clear implicits.

Inductive RAns {V : Type} :=
| AUnit
| ABool (b : bool)
| AVal (v : option V)
| ARef (x : option (V * Tick * Tick))
| AScope (r : option (list RAns)).
Arguments RAns : clear implicits.

Definition on_thread {A} (k : Kind) (o : outcome A) : outcome A := match k with KNonSend false => Panic | _ => o end.

Section histories.
Context `{VecGrowth} {V : Type}.
Variable droppers : Z → bool.
Notation World := (@ResWorld V).

Definition quiet_ans (a : RAns V) (o : outcome World) : outcome (RAns V * World) := w ← o; Ret (a, w).

(** A list of calls. *)
Definition each_op (f : ROp V → World → outcome (RAns V * World)) : list (ROp V) → World → outcome (list (RAns V) * World) :=
  fix go l w :=
    match l with
    | [] => Ret ([], w)
    | o :: l => '(a, w) ← f o w; '(r, w) ← go l w; Ret (a :: r, w)
    end.

Fixpoint run_rop (o : ROp V) (w : World) : outcome (RAns V * World) :=
  match o with
  | OContains t => Ret (ABool (World_contains_resource w t), w)
  | OInsert k t v => on_thread k (quiet_ans AUnit (World_insert_resource droppers w t v))
  | ORemove k t => on_thread k (let '(v, w) := World_remove_resource w t in Ret (AVal v, w))
  | ODrop k t => on_thread k (Ret (AUnit, World_drop_resource w t))
  | OGet k t => on_thread k (Ret (AVal (World_get_resource w t), w))
  | OExpect k t => on_thread k (v ← World_resource w t; Ret (AVal (Some v), w))
  | OGetRef k t => on_thread k (Ret (ARef (World_get_resource_ref w t), w))
  | OAssign k t v => on_thread k (let '(b, w) := World_get_resource_mut w t v in Ret (ABool b, w))
  | OInit k t v =>
      if World_contains_resource w t then Ret (AUnit, w) else on_thread k (quiet_ans AUnit (World_init_resource droppers w t v))
  | OMutOrInit k t init v => on_thread k (quiet_ans AUnit (World_resource_mut_or_init droppers w t init v))
  | OScope k t body v =>
      on_thread k
        ('(r, w) ← World_try_resource_scope w t (λ w m, '(r, w) ← each_op run_rop body w; Ret (r, w, default m (ResMut_assign m <$> v)));
         Ret (AScope r, w))
  | OClock last_run this_run => Ret (AUnit, mkResWorld (rw_resources w) (rw_storage w) last_run this_run (rw_dropped w))
  | OCheck now => Ret (AUnit, World_check_resource_ticks w now)
  end.

(** ** The abstract world *)

Record AState := mkAState { as_map : gmap Z (V * Tick * Tick); as_last : Tick; as_this : Tick; as_dropped : list V }.

Definition a_drop (t : Z) (x : option (V * Tick * Tick)) : list V := match x with Some (v, _, _) => if droppers t then [v] else [] | None => [] end.

Definition a_set (s : AState) (t : Z) (x : option (V * Tick * Tick)) (log : list V) : AState :=
  mkAState (partial_alter (λ _, x) t (as_map s)) (as_last s) (as_this s) (as_dropped s ++ log).

Definition a_insert (s : AState) (t : Z) (v : V) : AState :=
  match as_map s !! t with
  | Some (old, added, _) => a_set s t (Some (v, added, as_this s)) (a_drop t (as_map s !! t))
  | None => a_set s t (Some (v, as_this s, as_this s)) []
  end.

Definition a_assign (s : AState) (t : Z) (v : V) : AState :=
  match as_map s !! t with Some (_, added, _) => a_set s t (Some (v, added, as_this s)) [] | None => s end.

Definition a_thread {A} (k : Kind) (o : option A) : option A := match k with KNonSend false => None | _ => o end.

Definition a_each (f : ROp V → AState → option (RAns V * AState)) : list (ROp V) → AState → option (list (RAns V) * AState) :=
  fix go l s :=
    match l with
    | [] => Some ([], s)
    | o :: l => match f o s with None => None | Some (a, s) => match go l s with None => None | Some (r, s) => Some (a :: r, s) end end
    end.

(** [None] where the program panics.  An assignment in a scope is a change at the
    time of the scope, as any other. *)
Fixpoint a_run (o : ROp V) (s : AState) : option (RAns V * AState) :=
  match o with
  | OContains t => Some (ABool (bool_decide (is_Some (as_map s !! t))), s)
  | OInsert k t v => a_thread k (Some (AUnit, a_insert s t v))
  | ORemove k t => a_thread k (Some (AVal ((λ x, x.1.1) <$> as_map s !! t), a_set s t None []))
  | ODrop k t => a_thread k (Some (AUnit, a_set s t None (a_drop t (as_map s !! t))))
  | OGet k t => a_thread k (Some (AVal ((λ x, x.1.1) <$> as_map s !! t), s))
  | OExpect k t => a_thread k (match as_map s !! t with Some x => Some (AVal (Some x.1.1), s) | None => None end)
  | OGetRef k t => a_thread k (Some (ARef (as_map s !! t), s))
  | OAssign k t v => a_thread k (Some (ABool (bool_decide (is_Some (as_map s !! t))), a_assign s t v))
  | OInit k t v => match as_map s !! t with Some _ => Some (AUnit, s) | None => a_thread k (Some (AUnit, a_insert s t v)) end
  | OMutOrInit k t init v =>
      a_thread k (Some (AUnit, match as_map s !! t with Some _ => a_assign s t v | None => a_set s t (Some (v, as_this s, as_this s)) [] end))
  | OScope k t body v =>
      a_thread k
        (match as_map s !! t with
         | None => Some (AScope None, s)
         | Some (old, added, changed) =>
             match a_each a_run body (a_set s t None []) with
             | None => None
             | Some (r, s1) =>
                 Some (AScope (Some r), a_set s1 t (Some (default old v, added, if v then as_this s else changed)) (a_drop t (as_map s1 !! t)))
             end
         end)
  | OClock last_run this_run => Some (AUnit, mkAState (as_map s) last_run this_run (as_dropped s))
  | OCheck now =>
      Some (AUnit, mkAState ((λ x, (x.1.1, Tick_check_tick x.1.2 now, Tick_check_tick x.2 now)) <$> as_map s) (as_last s) (as_this s) (as_dropped s))
  end.

(** The types a call names. *)
Fixpoint rop_types (o : ROp V) : list Z :=
  match o with
  | OContains t | OInsert _ t _ | ORemove _ t | ODrop _ t | OGet _ t | OExpect _ t | OGetRef _ t | OAssign _ t _ | OInit _ t _ | OMutOrInit _ t _ _ => [t]
  | OScope _ t body _ => t :: concat (map rop_types body)
  | OClock _ _ | OCheck _ => []
  end.

(** No scope assigns to its resource. *)
Fixpoint scopes_plain (o : ROp V) : bool :=
  match o with OScope _ _ body v => match v with Some _ => false | None => forallb scopes_plain body end | _ => true end.

(** ** What a world stores *)

Definition lookup_res (w : World) (t : Z) : option (V * Tick * Tick) := x ← find_data w t; ResourceData_get_ref x.2.

Record res_wf (known : gset Z) (w : World) : Prop := {
  rf_ids : ∀ t i, rs_mapper (rw_resources w) !! t = Some i ↔ rs_infos (rw_resources w) !! i = Some t;
  rf_known : ∀ i t, rs_infos (rw_resources w) !! i = Some t → t ∈ known;
  rf_data : ∀ i d, ResourceStorage_get (rw_storage w) i = Some d → ∃ t, rs_infos (rw_resources w) !! i = Some t ∧ rd_dropper d = droppers t
}.

Definition res_refines (w : World) (s : AState) : Prop :=
  (∀ t, as_map s !! t = lookup_res w t) ∧ as_last s = rw_last_run w ∧ as_this s = rw_this_run w ∧ as_dropped s = rw_dropped w.

(** Slots are never destroyed. *)
Definition keeps (w w' : World) : Prop := ∀ t i d, find_data w t = Some (i, d) → ∃ d', find_data w' t = Some (i, d').

#[local] Instance keeps_preorder : PreOrder keeps.
Proof. split; [by intros w t i d Hf; eauto|]. intros w1 w2 w3 H1 H2 t i d Hf. destruct (H1 t i d Hf) as [d' Hf']. exact (H2 t i d' Hf'). Qed.

Lemma find_same_keeps w w' : (∀ t, find_data w' t = find_data w t) → keeps w w'.
Proof. intros Hf t i d Hd. rewrite Hf. eauto. Qed.

(** ** Slots *)

Variable known : gset Z.
Hypothesis room : (Z.of_nat (size known) ≤ u32_max)%Z.

Lemma find_data_inv (w : World) t i d : find_data w t = Some (i, d) → rs_mapper (rw_resources w) !! t = Some i ∧ ResourceStorage_get (rw_storage w) i = Some d.
Proof.
  unfold find_data, Resources_get_id. destruct (rs_mapper (rw_resources w) !! t) as [j|]; [|done]. cbn.
  destruct (ResourceStorage_get (rw_storage w) j) eqn:Hd; [|done]. cbn. by intros [= <- <-].
Qed.

Lemma storage_get_insert (l : list (option (@ResourceData V))) i d j : is_Some (ResourceStorage_get l i) →
  ResourceStorage_get (<[i := Some d]> l) j = if decide (i = j) then Some d else ResourceStorage_get l j.
Proof.
  unfold ResourceStorage_get. intros [x Hx]. destruct (decide (i = j)) as [->|Hne]; [|by rewrite list_lookup_insert_ne].
  destruct (l !! j) eqn:Hj; [|done]. by rewrite list_lookup_insert_eq by (by eapply lookup_lt_Some).
Qed.

Lemma put_find (w : World) t i d x : res_wf known w → find_data w t = Some (i, d) → rd_dropper x.2 = rd_dropper d →
  res_wf known (put_data w i x) ∧ ∀ t', find_data (put_data w i x) t' = if decide (t' = t) then Some (i, x.2) else find_data w t'.
Proof.
  intros Hwf Hf Hx. pose proof (find_data_inv _ _ _ _ Hf) as [Hi Hd]. pose proof (λ d' j, storage_get_insert _ i d' j (ex_intro _ _ Hd)) as Hget. split.
  - split; [apply Hwf|apply Hwf|]. intros j d'. cbn [put_data rw_storage rw_resources]. rewrite Hget. case_decide as Hj; [|apply Hwf].
    intros [= <-]. subst j. rewrite Hx. exact (rf_data _ _ Hwf i d Hd).
  - intros t'. unfold find_data, Resources_get_id, put_data. cbn [rw_storage rw_resources].
    destruct (decide (t' = t)) as [->|Hne]; [rewrite Hi; cbn; by rewrite Hget, decide_True|].
    destruct (rs_mapper (rw_resources w) !! t') as [j|] eqn:Hj; [|done]. cbn. rewrite Hget, decide_False; [done|].
    intros ->. apply (rf_ids _ _ Hwf) in Hi, Hj. congruence.
Qed.

Lemma refine_put (w : World) s t i d x : res_wf known w → res_refines w s → find_data w t = Some (i, d) → rd_dropper x.2 = rd_dropper d →
  res_wf known (put_data w i x) ∧ res_refines (put_data w i x) (a_set s t (ResourceData_get_ref x.2) x.1) ∧ keeps w (put_data w i x).
Proof.
  intros Hwf (Hm & Hl & Ht & Hd) Hf Hx. destruct (put_find w t i d x Hwf Hf Hx) as [Hwf' Hfind]. split; [done|].
  split; [|intros t' j d' Hj; rewrite Hfind; case_decide; [subst t'; rewrite Hf in Hj; injection Hj as <- _; eauto|eauto]].
  split; [|cbn; split_and!; [done|done|by rewrite Hd]]. intros t'. unfold lookup_res. rewrite Hfind. cbn [as_map a_set].
  destruct (decide (t' = t)) as [->|Hne]; [by rewrite lookup_partial_alter_eq|]. rewrite lookup_partial_alter_ne by done. apply Hm.
Qed.

Lemma a_set_same s t log : a_set s t (as_map s !! t) log = mkAState (as_map s) (as_last s) (as_this s) (as_dropped s ++ log).
Proof. unfold a_set. f_equal. apply map_eq. intros t'. destruct (decide (t' = t)) as [->|Hne]; [by rewrite lookup_partial_alter_eq|by rewrite lookup_partial_alter_ne]. Qed.

Lemma a_set_twice s t x y log log' : a_set (a_set s t x log) t y log' = a_set s t y (log ++ log').
Proof.
  unfold a_set. cbn. rewrite app_assoc. f_equal. apply map_eq. intros t'.
  destruct (decide (t' = t)) as [->|Hne]; [by rewrite !lookup_partial_alter_eq|by rewrite !lookup_partial_alter_ne].
Qed.

Lemma state_eta (s : AState) : mkAState (as_map s) (as_last s) (as_this s) (as_dropped s ++ []) = s.
Proof. rewrite app_nil_r. by destruct s. Qed.

(** ** Registration *)

Lemma infos_short (w : World) t : res_wf known w → t ∈ known → rs_mapper (rw_resources w) !! t = None → (Z.of_nat (length (rs_infos (rw_resources w))) < u32_max)%Z.
Proof.
  intros Hwf Ht Hn. assert (NoDup (rs_infos (rw_resources w))) as Hnd.
  { apply NoDup_alt. intros i j x Hi%(rf_ids _ _ Hwf) Hj%(rf_ids _ _ Hwf). congruence. }
  assert (length (rs_infos (rw_resources w)) ≤ size (known ∖ {[t]})) as Hlen.
  { rewrite <- (size_list_to_set (C := gset Z)) by done. apply subseteq_size. intros x [i Hi]%elem_of_list_to_set%list_elem_of_lookup_1.
    apply elem_of_difference. split; [by eapply rf_known|]. intros ->%elem_of_singleton. apply (rf_ids _ _ Hwf) in Hi. congruence. }
  rewrite size_difference, size_singleton in Hlen by set_solver. assert (0 < size known); [|lia].
  apply Nat.neq_0_lt_0. intros Hz%size_empty_inv. set_solver.
Qed.

Lemma register_wf (w : World) t : res_wf known w → t ∈ known → ∃ id rs, Resources_register (rw_resources w) t = Ret (id, rs) ∧
  rs_mapper rs !! t = Some id ∧ rs_infos rs !! id = Some t ∧ let w1 := mkResWorld rs (rw_storage w) (rw_last_run w) (rw_this_run w) (rw_dropped w) in
  res_wf known w1 ∧ ∀ t', find_data w1 t' = find_data w t'.
Proof.
  intros Hwf Hk. unfold Resources_register, Resources_get_id. destruct (rs_mapper (rw_resources w) !! t) as [id|] eqn:Ht.
  - exists id, (rw_resources w). split; [done|]. split; [done|]. split; [by apply (rf_ids _ _ Hwf)|]. split; [|done]. by destruct Hwf.
  - pose proof (infos_short w t Hwf Hk Ht) as Hlen. unfold next_id. rewrite decide_True by done. cbn [mbind outcome_bind].
    set (n := length _). assert (Hnone : ∀ d, ResourceStorage_get (rw_storage w) n = Some d → False).
    { intros d (x & Hx%lookup_lt_Some & _)%(rf_data _ _ Hwf). unfold n in Hx. lia. }
    eexists _, _. split; [done|]. cbn. rewrite lookup_insert_eq, lookup_app_r, Nat.sub_diag by (unfold n; lia). split; [done|]. split; [done|]. split; [split; cbn|].
    + intros t' i. destruct (decide (t' = t)) as [->|Hne].
      * rewrite lookup_insert_eq. split; [intros [= <-]; by rewrite lookup_app_r, Nat.sub_diag by (unfold n; lia)|].
        intros Hi. destruct (decide (i < n)) as [Hlt|Hge]; [rewrite lookup_app_l in Hi by done; apply (rf_ids _ _ Hwf) in Hi; congruence|].
        apply lookup_lt_Some in Hi. rewrite length_app in Hi. cbn in Hi. f_equal. unfold n in *. lia.
      * rewrite lookup_insert_ne, (rf_ids _ _ Hwf) by done. rewrite lookup_app. destruct (rs_infos (rw_resources w) !! i) eqn:Hi; [done|].
        split; [done|]. intros [_ ->]%list_lookup_singleton_Some. done.
    + intros i x. rewrite lookup_app. destruct (rs_infos (rw_resources w) !! i) eqn:Hi; [intros [= <-]; by eapply rf_known|].
      by intros [_ <-]%list_lookup_singleton_Some.
    + intros i d Hd. destruct (rf_data _ _ Hwf i d Hd) as (x & Hx & ?). exists x. split; [|done]. by apply lookup_app_l_Some.
    + intros t'. unfold find_data, Resources_get_id. cbn. destruct (decide (t' = t)) as [->|Hne]; [|by rewrite lookup_insert_ne].
      rewrite lookup_insert_eq, Ht. cbn. destruct (ResourceStorage_get (rw_storage w) n) eqn:Hd; [by destruct (Hnone _ eq_refl)|done].
Qed.

Lemma prepare_storage (l : list (option (@ResourceData V))) id t : ∃ l' d, ResourceStorage_prepare droppers l id t = Ret l' ∧
  ResourceStorage_get l' id = Some d ∧ (∀ j, j ≠ id → ResourceStorage_get l' j = ResourceStorage_get l j) ∧
  match ResourceStorage_get l id with Some d0 => d = d0 | None => d = ResourceData_new droppers t end.
Proof.
  unfold ResourceStorage_prepare. destruct (ResourceStorage_get l id) as [d|] eqn:Hd; [by exists l, d|].
  set (l1 := if decide (length l ≤ id) then _ else l).
  assert (id < length l1 ∧ ∀ j, ResourceStorage_get l1 j = ResourceStorage_get l j) as [Hlt Hl1].
  { subst l1. case_decide as Hle; [|split; [lia|done]]. pose proof (grown_capacity_ge (length l) (id + 1 - length l)) as Hc.
    rewrite resize_ge by lia. rewrite length_app, length_replicate. split; [lia|]. intros j. unfold ResourceStorage_get. rewrite lookup_app.
    destruct (l !! j) eqn:Hj; [done|]. destruct (replicate _ None !! _) as [x|] eqn:Hx; [|done]. by apply lookup_replicate in Hx as [-> _]. }
  rewrite decide_True by done. eexists _, _. split; [done|]. unfold ResourceStorage_get in *. split; [by rewrite list_lookup_insert_eq|].
  split; [|done]. intros j Hj. by rewrite list_lookup_insert_ne.
Qed.

(** [prepare_resource] changes nothing that can be read. *)
Lemma prepare_wf (w : World) t id : res_wf known w → rs_mapper (rw_resources w) !! t = Some id → rs_infos (rw_resources w) !! id = Some t →
  ∃ w1 d, World_prepare_resource droppers w id = Ret w1 ∧ res_wf known w1 ∧ find_data w1 t = Some (id, d) ∧ rd_dropper d = droppers t ∧
    ResourceData_get_ref d = lookup_res w t ∧ (∀ s, res_refines w s → res_refines w1 s) ∧ rw_this_run w1 = rw_this_run w ∧ keeps w w1.
Proof.
  intros Hwf Hm Hi. unfold World_prepare_resource. rewrite Hi.
  destruct (prepare_storage (rw_storage w) id t) as (l & d & -> & Hd & Hoth & Hold). cbn [mbind outcome_bind].
  assert (Hdr : rd_dropper d = droppers t).
  { destruct (ResourceStorage_get (rw_storage w) id) as [d0|] eqn:E; [|by rewrite Hold]. subst d0. destruct (rf_data _ _ Hwf id d E) as (x & Hx & ->). congruence. }
  assert (Href : ResourceData_get_ref d = lookup_res w t).
  { unfold lookup_res, find_data, Resources_get_id. rewrite Hm. cbn. destruct (ResourceStorage_get (rw_storage w) id); cbn; by rewrite Hold. }
  assert (Hfind : ∀ t', t' ≠ t → find_data (mkResWorld (rw_resources w) l (rw_last_run w) (rw_this_run w) (rw_dropped w)) t' = find_data w t').
  { intros t' Hne. unfold find_data, Resources_get_id. cbn. destruct (rs_mapper (rw_resources w) !! t') as [j|] eqn:Hj; [|done]. cbn. rewrite Hoth; [done|].
    intros ->. apply (rf_ids _ _ Hwf) in Hj. congruence. }
  eexists _, d. split; [done|]. split; [|split; [|split; [done|split; [done|split; [|split; [done|]]]]]].
  - split; [apply Hwf|apply Hwf|]. intros j x Hx. cbn in Hx |- *. destruct (decide (j = id)) as [->|Hne]; [|rewrite Hoth in Hx by done; by apply (rf_data _ _ Hwf)].
    rewrite Hd in Hx. injection Hx as <-. eauto.
  - unfold find_data, Resources_get_id. cbn. rewrite Hm. cbn. by rewrite Hd.
  - intros s (Hs & ? & ? & ?). split; [|done]. intros t'. rewrite Hs. unfold lookup_res at 2. destruct (decide (t' = t)) as [->|Hne]; [|by rewrite Hfind].
    rewrite <- Href. unfold find_data, Resources_get_id. cbn. rewrite Hm. cbn. by rewrite Hd.
  - intros t' j x Hx. destruct (decide (t' = t)) as [->|Hne]; [|rewrite Hfind by done; eauto]. apply find_data_inv in Hx as [Hj _].
    rewrite Hm in Hj. injection Hj as <-. exists d. unfold find_data, Resources_get_id. cbn. rewrite Hm. cbn. by rewrite Hd.
Qed.

(** Registering and preparing a type. *)
Lemma prepared (w : World) s t : res_wf known w → res_refines w s → t ∈ known → ∃ id rs w1 d,
  Resources_register (rw_resources w) t = Ret (id, rs) ∧
  World_prepare_resource droppers (mkResWorld rs (rw_storage w) (rw_last_run w) (rw_this_run w) (rw_dropped w)) id = Ret w1 ∧
  res_wf known w1 ∧ res_refines w1 s ∧ find_data w1 t = Some (id, d) ∧ rd_dropper d = droppers t ∧
  ResourceData_get_ref d = as_map s !! t ∧ rw_this_run w1 = as_this s ∧ keeps w w1.
Proof.
  intros Hwf Hr Hk. destruct (register_wf w t Hwf Hk) as (id & rs & Hreg & Hm & Hi & Hwf1 & Hfind).
  destruct (prepare_wf _ t id Hwf1 Hm Hi) as (w1 & d & Hp & Hwf2 & Hf & Hdr & Href & Hkeep & Hthis & Hks).
  exists id, rs, w1, d. split; [done|]. split; [done|]. split; [done|]. split; [|split; [done|split; [done|]]].
  - apply Hkeep. destruct Hr as (Hs & ? & ? & ?). split; [|done]. intros t'. rewrite Hs. unfold lookup_res. by rewrite Hfind.
  - destruct Hr as (Hs & ? & Ht & ?). split; [rewrite Href, Hs; unfold lookup_res; by rewrite Hfind|].
    split; [by rewrite Hthis|]. intros t' i x Hx. apply (Hks t' i x). by rewrite Hfind.
Qed.

(** ** Operations *)

Definition step_ok (w w' : World) (s' : AState) : Prop := res_wf known w' ∧ res_refines w' s' ∧ keeps w w'.

Lemma insert_resource_ok (w : World) s t v : res_wf known w → res_refines w s → t ∈ known →
  ∃ w', World_insert_resource droppers w t v = Ret w' ∧ step_ok w w' (a_insert s t v).
Proof.
  intros Hwf Hr Hk. destruct (prepared w s t Hwf Hr Hk) as (id & rs & w1 & d & Hreg & Hp & Hwf1 & Hr1 & Hf & Hdr & Href & Hthis & Hks).
  unfold World_insert_resource. rewrite Hreg. cbn [mbind outcome_bind]. unfold insert_internal. rewrite Hp. cbn [mbind outcome_bind].
  rewrite (proj2 (find_data_inv _ _ _ _ Hf)). cbn [of_option mbind outcome_bind]. eexists. split; [done|].
  destruct (refine_put w1 s t id d (ResourceData_insert_untyped d v (rw_this_run w1)) Hwf1 Hr1 Hf) as (Hwf2 & Hr2 & Hk2).
  { unfold ResourceData_insert_untyped. by destruct (rd_data d). }
  split; [done|]. split; [|by etrans]. clear Hk2. unfold a_insert, a_drop. rewrite <- Href. unfold ResourceData_insert_untyped, ResourceData_get_ref, call_dropper in *.
  rewrite Hthis, Hdr in Hr2 |- *. destruct (rd_data d) as [old|]; exact Hr2.
Qed.

Lemma lookup_find (w : World) s t : res_refines w s → as_map s !! t = x ← find_data w t; ResourceData_get_ref x.2.
Proof. intros (Hs & _). apply Hs. Qed.

Lemma contains_resource_ok (w : World) s t : res_refines w s → World_contains_resource w t = bool_decide (is_Some (as_map s !! t)).
Proof.
  intros Hr. rewrite (lookup_find w s t Hr). unfold World_contains_resource, ResourceData_is_active, ResourceData_get_ref.
  destruct (find_data w t) as [[i d]|]; [|done]. cbn. by destruct (rd_data d).
Qed.

Lemma get_resource_ok (w : World) s t : res_refines w s → World_get_resource w t = (λ x, x.1.1) <$> as_map s !! t.
Proof.
  intros Hr. rewrite (lookup_find w s t Hr). unfold World_get_resource, ResourceData_get_ref. destruct (find_data w t) as [[i d]|]; [|done]. cbn.
  by destruct (rd_data d).
Qed.

Lemma find_dropper (w : World) t i d : res_wf known w → find_data w t = Some (i, d) → rd_dropper d = droppers t.
Proof. intros Hwf [Hi Hd]%find_data_inv. destruct (rf_data _ _ Hwf i d Hd) as (x & Hx & ->). apply (rf_ids _ _ Hwf) in Hi. congruence. Qed.

Lemma remove_resource_ok (w : World) s t : res_wf known w → res_refines w s →
  (World_remove_resource w t).1 = (λ x, x.1.1) <$> as_map s !! t ∧ step_ok w (World_remove_resource w t).2 (a_set s t None []).
Proof.
  intros Hwf Hr. pose proof (lookup_find w s t Hr) as Hl. unfold World_remove_resource. destruct (find_data w t) as [[i d]|] eqn:Hf; cbn in Hl.
  - unfold ResourceData_get_ref in Hl. unfold ResourceData_remove. destruct (rd_data d) as [v|] eqn:Hd; cbn in Hl; rewrite Hl; cbn; (split; [done|]).
    + by apply (refine_put w s t i d ([], mkRes (rd_dropper d) None (rd_added d) (rd_changed d))).
    + pose proof (refine_put w s t i d ([], d) Hwf Hr Hf eq_refl) as Hx. unfold ResourceData_get_ref in Hx. cbn in Hx. by rewrite Hd in Hx.
  - rewrite Hl. split; [done|]. cbn. rewrite <- Hl, a_set_same, state_eta. by split_and!.
Qed.

Lemma drop_resource_ok (w : World) s t : res_wf known w → res_refines w s → step_ok w (World_drop_resource w t) (a_set s t None (a_drop t (as_map s !! t))).
Proof.
  intros Hwf Hr. pose proof (lookup_find w s t Hr) as Hl. unfold World_drop_resource. destruct (find_data w t) as [[i d]|] eqn:Hf; cbn in Hl.
  - pose proof (find_dropper w t i d Hwf Hf) as Hdr. pose proof (refine_put w s t i d (ResourceData_clear d) Hwf Hr Hf) as Hx.
    unfold ResourceData_clear, ResourceData_get_ref, call_dropper in *. rewrite Hl. destruct (rd_data d) eqn:Hd; cbn in *; rewrite ?Hd, ?Hdr in Hx; rewrite ?Hdr; by apply Hx.
  - rewrite Hl. cbn. rewrite <- Hl, a_set_same, state_eta. by split_and!.
Qed.

Lemma get_resource_mut_ok (w : World) s t v : res_wf known w → res_refines w s →
  (World_get_resource_mut w t v).1 = bool_decide (is_Some (as_map s !! t)) ∧ step_ok w (World_get_resource_mut w t v).2 (a_assign s t v).
Proof.
  intros Hwf Hr. pose proof (lookup_find w s t Hr) as Hl. unfold World_get_resource_mut, a_assign. destruct (find_data w t) as [[i d]|] eqn:Hf; cbn in Hl; rewrite Hl; [|by split_and!].
  destruct (ResourceData_get_ref d) as [[[old added] changed]|] eqn:Hd; [|by split_and!]. split; [done|]. cbn [snd].
  pose proof (refine_put w s t i d ([], mkRes (rd_dropper d) (Some v) added (rw_this_run w)) Hwf Hr Hf eq_refl) as Hx.
  destruct Hr as (_ & _ & -> & _). exact Hx.
Qed.

Lemma init_resource_ok (w : World) s t v : res_wf known w → res_refines w s → t ∈ known → as_map s !! t = None →
  ∃ w', World_init_resource droppers w t v = Ret w' ∧ step_ok w w' (a_insert s t v).
Proof.
  intros Hwf Hr Hk Hn. unfold World_init_resource. rewrite (contains_resource_ok w s t Hr), Hn. cbn. by apply insert_resource_ok.
Qed.

Lemma mut_or_init_ok (w : World) s t init v : res_wf known w → res_refines w s → t ∈ known →
  ∃ w', World_resource_mut_or_init droppers w t init v = Ret w' ∧
    step_ok w w' (match as_map s !! t with Some _ => a_assign s t v | None => a_set s t (Some (v, as_this s, as_this s)) [] end).
Proof.
  intros Hwf Hr Hk. pose proof (get_resource_mut_ok w s t v Hwf Hr) as [Hb Hs]. unfold World_resource_mut_or_init.
  destruct (World_get_resource_mut w t v) as [b w']. cbn [fst snd] in *. subst b. destruct (as_map s !! t) as [x|] eqn:Ht; cbn [bool_decide]; [by exists w'|].
  destruct (prepared w s t Hwf Hr Hk) as (id & rs & w1 & d & Hreg & Hp & Hwf1 & Hr1 & Hf & Hdr & Href & Hthis & Hks).
  rewrite Hreg. cbn [mbind outcome_bind]. rewrite Hp. cbn [mbind outcome_bind]. pose proof (find_data_inv _ _ _ _ Hf) as [_ Hd]. rewrite Hd.
  cbn [of_option mbind outcome_bind]. rewrite Ht in Href. unfold ResourceData_get_ref in Href. destruct (rd_data d) eqn:Hn; [done|].
  unfold ResourceData_insert_untyped. rewrite Hn. set (d1 := mkRes _ (Some init) _ _).
  destruct (refine_put w1 s t id d ([], d1) Hwf1 Hr1 Hf eq_refl) as (Hwf2 & Hr2 & Hk2). pose proof (put_find w1 t id d ([], d1) Hwf1 Hf eq_refl) as [_ Hf2].
  specialize (Hf2 t). rewrite decide_True in Hf2 by done. rewrite (proj2 (find_data_inv _ _ _ _ Hf2)). cbn [of_option mbind outcome_bind].
  eexists. split; [done|]. unfold get_mut_assign. cbn [rm_value rm_added rm_changed ResMut_assign].
  pose proof (refine_put _ _ t id d1 ([], mkRes (rd_dropper d1) (Some v) (rw_this_run w1) (rw_this_run w1)) Hwf2 Hr2 Hf2 eq_refl) as (Hwf3 & Hr3 & Hk3).
  split; [done|]. split; [|by do 2 (etrans; [done|])]. rewrite a_set_twice in Hr3. rewrite <- Hthis. exact Hr3.
Qed.

Lemma check_ticks_ok (w : World) s now : res_wf known w → res_refines w s →
  step_ok w (World_check_resource_ticks w now)
    (mkAState ((λ x, (x.1.1, Tick_check_tick x.1.2 now, Tick_check_tick x.2 now)) <$> as_map s) (as_last s) (as_this s) (as_dropped s)).
Proof.
  intros Hwf (Hs & ? & ? & ?). assert (Hget : ∀ i, ResourceStorage_get (ResourceStorage_check_ticks (rw_storage w) now) i =
    (λ d, ResourceData_check_ticks d now) <$> ResourceStorage_get (rw_storage w) i).
  { intros i. unfold ResourceStorage_get, ResourceStorage_check_ticks. rewrite list_lookup_fmap. by destruct (rw_storage w !! i) as [[]|]. }
  split; [|split].
  - split; [apply Hwf|apply Hwf|]. intros i d. cbn. rewrite Hget. intros (d0 & Hd & ->)%fmap_Some. exact (rf_data _ _ Hwf i d0 Hd).
  - split; [|done]. intros t. cbn. rewrite lookup_fmap, Hs. unfold lookup_res, find_data, Resources_get_id. cbn.
    destruct (rs_mapper (rw_resources w) !! t) as [i|]; [|done]. cbn. rewrite Hget. destruct (ResourceStorage_get (rw_storage w) i) as [d|]; [|done]. cbn.
    unfold ResourceData_get_ref. cbn. by destruct (rd_data d).
  - intros t i d [Hi Hd]%find_data_inv. eexists. unfold find_data, Resources_get_id. cbn. rewrite Hi. cbn. rewrite Hget, Hd. done.
Qed.

(** A scope, given what its closure does. *)
Lemma scope_ok {R} (w : World) s t (func : World → ResMut → outcome (R * World * ResMut)) (afunc : AState → option (R * AState)) (v : option V) :
  res_wf known w → res_refines w s →
  (∀ w1 s1 m, res_wf known w1 → res_refines w1 s1 → match afunc s1 with
     | None => func w1 m = Panic
     | Some (r, s2) => ∃ w2, func w1 m = Ret (r, w2, default m (ResMut_assign m <$> v)) ∧ step_ok w1 w2 s2
     end) →
  match as_map s !! t with
  | None => ∃ w', World_try_resource_scope w t func = Ret (None, w') ∧ step_ok w w' s
  | Some (old, added, changed) =>
      match afunc (a_set s t None []) with
      | None => World_try_resource_scope w t func = Panic
      | Some (r, s1) => ∃ w', World_try_resource_scope w t func = Ret (Some r, w') ∧
          step_ok w w' (a_set s1 t (Some (default old v, added, changed)) (a_drop t (as_map s1 !! t)))
      end
  end.
Proof.
  intros Hwf Hr Hfunc. pose proof (lookup_find w s t Hr) as Hl. unfold World_try_resource_scope.
  destruct (find_data w t) as [[i d]|] eqn:Hf; cbn in Hl; [|rewrite Hl; exists w; by split_and!]. unfold ResourceData_leak. cbn [fst snd].
  pose proof (refine_put w s t i d ([], mkRes (rd_dropper d) None (rd_added d) (rd_changed d)) Hwf Hr Hf eq_refl) as (Hwf1 & Hr1 & Hk1).
  cbn [fst snd] in Hr1. unfold ResourceData_get_ref at 1 in Hr1. cbn in Hr1. rewrite Hl.
  destruct (ResourceData_get_ref d) as [[[old added] changed]|] eqn:Hd.
  2: { eexists. split; [done|]. split; [done|]. split; [|done]. by rewrite <- Hl, a_set_same, state_eta in Hr1. }
  set (w1 := put_data w i _) in *. specialize (Hfunc w1 _ (mkResMut old added changed (rw_last_run w1) (rw_this_run w1)) Hwf1 Hr1).
  destruct (afunc (a_set s t None [])) as [[r s1]|]; [|by rewrite Hfunc]. destruct Hfunc as (w2 & -> & Hwf2 & Hr2 & Hk2). cbn [mbind outcome_bind].
  destruct (Hk1 t i d Hf) as [d1 Hf1]. destruct (Hk2 t i d1 Hf1) as [d2 Hf2]. pose proof (find_dropper w2 t i d2 Hwf2 Hf2) as Hdr.
  pose proof (lookup_find w2 s1 t Hr2) as Hl2. rewrite Hf2 in Hl2. cbn in Hl2. unfold ReinsertGuard_drop. rewrite (proj2 (find_data_inv _ _ _ _ Hf2)).
  set (val := rm_value _). assert (val = default old v) as Hval by (subst val; by destruct v).
  assert (Hend : ∀ log, log = a_drop t (as_map s1 !! t) → step_ok w (put_data w2 i (log, mkRes (rd_dropper d2) (Some val) added changed))
    (a_set s1 t (Some (default old v, added, changed)) (a_drop t (as_map s1 !! t)))).
  { intros log ->. destruct (refine_put w2 s1 t i d2 (a_drop t (as_map s1 !! t), mkRes (rd_dropper d2) (Some val) added changed) Hwf2 Hr2 Hf2 eq_refl) as (Hwf3 & Hr3 & Hk3).
    split; [done|]. split; [rewrite <- Hval; exact Hr3|]. by do 2 (etrans; [done|]). }
  unfold ResourceData_is_active, ResourceData_from_raw, ResourceData_clear, call_dropper. unfold ResourceData_get_ref in Hl2.
  destruct (rd_data d2) eqn:Hd2; cbn in Hl2 |- *; rewrite ?Hd2; cbn; eexists; (split; [done|]); apply Hend; rewrite Hl2; cbn; [by rewrite Hdr, app_nil_r|done].
Qed.

(** ** Histories refine the map *)

Lemma ROp_tree (P : ROp V → Prop) :
  (∀ o, match o with OScope _ _ _ _ => True | _ => P o end) → (∀ k t body v, Forall P body → P (OScope k t body v)) → ∀ o, P o.
Proof.
  intros Hflat Hscope. fix IH 1. intros o. pose proof (Hflat o) as Hf. destruct o as [| | | | | | | | | |k t body v| |]; try exact Hf. clear Hf. apply Hscope. induction body; constructor; [apply IH|done].
Qed.

Definition run_ok (o : ROp V) : Prop := ∀ w s, res_wf known w → res_refines w s → Forall (.∈ known) (rop_types o) → scopes_plain o = true →
  match a_run o s with None => run_rop o w = Panic | Some (a, s') => ∃ w', run_rop o w = Ret (a, w') ∧ step_ok w w' s' end.

Lemma each_ok body : Forall run_ok body → ∀ w s, res_wf known w → res_refines w s → Forall (.∈ known) (concat (map rop_types body)) → forallb scopes_plain body = true →
  match a_each a_run body s with None => each_op run_rop body w = Panic | Some (r, s') => ∃ w', each_op run_rop body w = Ret (r, w') ∧ step_ok w w' s' end.
Proof.
  induction 1 as [|o body Ho Hbody IH]; intros w s Hwf Hr Hk Hp; [exists w; by split_and!|]. cbn in Hk, Hp. apply Forall_app in Hk as [Hk1 Hk2]. apply andb_prop in Hp as [Hp1 Hp2].
  specialize (Ho w s Hwf Hr Hk1 Hp1). cbn [a_each each_op]. destruct (a_run o s) as [[a s1]|]; [|by rewrite Ho].
  destruct Ho as (w1 & -> & Hwf1 & Hr1 & Hks). cbn [mbind outcome_bind]. specialize (IH w1 s1 Hwf1 Hr1 Hk2 Hp2).
  fold (a_each a_run). fold (each_op run_rop). destruct (a_each a_run body s1) as [[r s2]|]; [|by rewrite IH].
  destruct IH as (w2 & -> & Hwf2 & Hr2 & Hks2). cbn. eexists. split; [done|]. split; [done|]. split; [done|by etrans].
Qed.

Lemma step_ok_refl w s : res_wf known w → res_refines w s → step_ok w w s.
Proof. intros. by split_and!. Qed.

Lemma on_thread_ok {A} (k : Kind) (o : outcome (A * World)) (x : option (A * AState)) w :
  match x with None => o = Panic | Some (a, s') => ∃ w', o = Ret (a, w') ∧ step_ok w w' s' end →
  match a_thread k x with None => on_thread k o = Panic | Some (a, s') => ∃ w', on_thread k o = Ret (a, w') ∧ step_ok w w' s' end.
Proof. by destruct k as [|[]]. Qed.

Lemma run_rop_ok o : run_ok o.
Proof.
  revert o. apply ROp_tree; [intros o|intros k t body v IH].
  - destruct o as [t|k t v|k t|k t|k t|k t|k t|k t v|k t v|k t i v|k t body v|l n|n]; [..|done| |]; intros w s Hwf Hr Hk _; cbn [rop_types] in Hk;
      cbn [a_run run_rop]; rewrite ?Forall_singleton in Hk.
    + rewrite (contains_resource_ok w s t Hr). eauto using step_ok_refl.
    + apply on_thread_ok. destruct (insert_resource_ok w s t v Hwf Hr Hk) as (w' & Hi & Hs). unfold quiet_ans. rewrite Hi. cbn. eauto.
    + apply on_thread_ok. destruct (remove_resource_ok w s t Hwf Hr) as [<- Hs]. destruct (World_remove_resource w t) as [v w']. eauto.
    + apply on_thread_ok. eexists. split; [done|]. by apply drop_resource_ok.
    + apply on_thread_ok. rewrite (get_resource_ok w s t Hr). eauto using step_ok_refl.
    + apply on_thread_ok. unfold World_resource. rewrite (get_resource_ok w s t Hr). destruct (as_map s !! t); cbn; eauto using step_ok_refl.
    + apply on_thread_ok. assert (World_get_resource_ref w t = as_map s !! t) as -> by (rewrite (lookup_find w s t Hr); unfold World_get_resource_ref; by destruct (find_data w t) as [[]|]).
      eauto using step_ok_refl.
    + apply on_thread_ok. destruct (get_resource_mut_ok w s t v Hwf Hr) as [<- Hs]. destruct (World_get_resource_mut w t v) as [b w']. eauto.
    + rewrite (contains_resource_ok w s t Hr). destruct (as_map s !! t) eqn:Ht; cbn [bool_decide]; [eauto using step_ok_refl|].
      apply on_thread_ok. destruct (init_resource_ok w s t v Hwf Hr Hk Ht) as (w' & Hi & Hs). unfold quiet_ans. rewrite Hi. cbn. eauto.
    + apply on_thread_ok. destruct (mut_or_init_ok w s t i v Hwf Hr Hk) as (w' & Hi & Hs). unfold quiet_ans. rewrite Hi. cbn. eauto.
    + eexists. split; [done|]. split; [by destruct Hwf|]. split; [|by apply find_same_keeps]. by destruct Hr as (Hs & _ & _ & Hd).
    + eexists. split; [done|]. by apply check_ticks_ok.
  - intros w s Hwf Hr Hk Hp. cbn in Hp. destruct v; [done|]. cbn [rop_types] in Hk. apply Forall_cons in Hk as [Ht Hk]. cbn [a_run run_rop]. apply on_thread_ok.
    pose proof (scope_ok w s t (λ w m, '(r, w) ← each_op run_rop body w; Ret (r, w, default m (ResMut_assign m <$> None))) (a_each a_run body) None Hwf Hr) as Hs.
    assert (Hs' := Hs ltac:(intros w1 s1 m Hwf1 Hr1; pose proof (each_ok body IH w1 s1 Hwf1 Hr1 Hk Hp) as He; destruct (a_each a_run body s1) as [[r s2]|];
      [destruct He as (w2 & -> & Hs2); cbn; eauto|by rewrite He])). clear Hs.
    destruct (as_map s !! t) as [[[old added] changed]|]; [|destruct Hs' as (w' & -> & ?); cbn; eauto].
    destruct (a_each a_run body (a_set s t None [])) as [[r s1]|]; [destruct Hs' as (w' & -> & ?); cbn; eauto|by rewrite Hs'].
Qed.

Lemma res_new_wf last_run this_run : res_wf known (ResWorld_new last_run this_run).
Proof. split; cbn; [intros t i; by rewrite lookup_empty, lookup_nil|by intros i t; rewrite lookup_nil|by intros i d]. Qed.

Lemma new_refines last_run this_run : res_refines (ResWorld_new last_run this_run) (mkAState ∅ last_run this_run []).
Proof. split; [|done]. intros t. cbn. unfold lookup_res, find_data, Resources_get_id. cbn. by rewrite !lookup_empty. Qed.
End histories.

(** ** Claims *)

(** C38: Resources are a map from types to values.  Every history of the resource methods
    of a world in which no scope assigns to its own resource, nested scopes included, panics
    exactly where the map says so (a missing resource that is asked for, a [!Send] method on
    another thread) and otherwise gives the answers of a map from types to a value with the
    ticks of its insertion and of its last change, and drops, in order, exactly the values
    the map lets go of.  After an assignment in a scope the tick of the last change is wrong
    ([resource_scope_forgets_change]). *)
Theorem resources_refine `{VecGrowth} {V : Type} droppers (known : gset Z) last_run this_run (ops : list (ROp V)) :
  (Z.of_nat (size known) ≤ u32_max)%Z → Forall (.∈ known) (concat (map rop_types ops)) → forallb scopes_plain ops = true →
  match a_each (a_run droppers) ops (mkAState ∅ last_run this_run []) with
  | None => each_op (run_rop droppers) ops (ResWorld_new last_run this_run) = Panic
  | Some (answers, s) => ∃ w, each_op (run_rop droppers) ops (ResWorld_new last_run this_run) = Ret (answers, w) ∧
      (∀ t, World_get_resource_ref w t = as_map s !! t) ∧ rw_dropped w = as_dropped s
  end.
Proof.
  intros Hroom Hk Hp. pose proof (each_ok droppers known ops) as He. specialize (He ltac:(apply Forall_forall; intros o _; by apply run_rop_ok)).
  specialize (He _ _ (res_new_wf droppers known last_run this_run) (new_refines last_run this_run) Hk Hp).
  destruct (a_each _ ops _) as [[r s]|]; [|done]. destruct He as (w & -> & _ & (Hs & _ & _ & Hd) & _). exists w. split; [done|]. split; [|done].
  intros t. rewrite Hs. unfold World_get_resource_ref, lookup_res. by destruct (find_data w t) as [[]|].
Qed.

(** A change made in a scope is forgotten.  An assignment through the borrow that
    [resource_scope] hands to its closure stores the value, but the change tick of the
    resource is afterwards the one from before the scope, so that readers who have seen that
    one are not told; the same assignment through [get_resource_mut] is seen. *)
Lemma resource_scope_forgets_change `{VecGrowth} {V : Type} droppers (v v' : V) (t : Z) (t0 t1 t2 : Tick) :
  ∃ w w', each_op (run_rop droppers) [OInsert KSend t v; OClock t1 t2; OScope KSend t [] (Some v')] (ResWorld_new t0 t1) = Ret ([AUnit; AUnit; AScope (Some [])], w) ∧
    each_op (run_rop droppers) [OInsert KSend t v; OClock t1 t2; OAssign KSend t v'] (ResWorld_new t0 t1) = Ret ([AUnit; AUnit; ABool true], w') ∧
    World_get_resource_ref w t = Some (v', t1, t1) ∧ World_get_resource_ref w' t = Some (v', t1, t2).
Proof.
  assert (Hroom : (Z.of_nat (size ({[t]} : gset Z)) ≤ u32_max)%Z) by (rewrite size_singleton; done).
  pose proof (insert_resource_ok droppers {[t]} Hroom (ResWorld_new t0 t1) _ t v (res_new_wf droppers {[t]} t0 t1) (new_refines t0 t1)
    ltac:(set_solver)) as (w1 & Hw1 & Hwf1 & Hr1 & _). unfold a_insert in Hr1. cbn in Hr1. rewrite lookup_empty in Hr1.
  pose proof (run_rop_ok droppers {[t]} Hroom (OClock t1 t2) w1 _ Hwf1 Hr1 ltac:(constructor) eq_refl) as (w2 & Hw2 & Hwf2 & Hr2 & _). cbn in Hw2, Hr2.
  pose proof (scope_ok droppers {[t]} w2 _ t (λ w m, Ret ([], w, default m (ResMut_assign m <$> Some v'))) (λ s, Some ([] : list (RAns V), s)) (Some v') Hwf2 Hr2) as Hs.
  cbn in Hs. rewrite !lookup_partial_alter_eq in Hs. destruct Hs as (w & Hw & _ & (Hm & _) & _); [intros; eexists; split; [done|by apply step_ok_refl]|].
  pose proof (get_resource_mut_ok droppers {[t]} w2 _ t v' Hwf2 Hr2) as (Hb & _ & (Hm' & _) & _).
  destruct (World_get_resource_mut w2 t v') as [b w'] eqn:Hg. exists w, w'. unfold quiet_ans in *. cbn. unfold quiet_ans. rewrite Hw1. cbn.
  injection Hw2 as ->. rewrite Hw, Hg. cbn. unfold a_assign in Hm'. cbn in Hb, Hm', Hm. rewrite lookup_partial_alter_eq in Hb, Hm'. cbn in Hb. subst b.
  split; [done|]. split; [done|]. specialize (Hm t). specialize (Hm' t). cbn in Hm, Hm'. rewrite !lookup_partial_alter_eq in Hm, Hm'.
  unfold World_get_resource_ref. unfold lookup_res in Hm, Hm'. split; [rewrite Hm|rewrite Hm']; [by destruct (find_data w t) as [[]|]|by destruct (find_data w' t) as [[]|]].
Qed.

(** ** Examples *)

#[local] Existing Instance doubling.

Definition ex_res_ops : list (ROp Z) :=
  [OInsert KSend 1 10; OScope KSend 1 [OInsert KSend 1 11; OInsert (KNonSend true) 2 20] None; OAssign KSend 1 12; ORemove KSend 1; OGetRef KSend 2; OContains 1]%Z.

Lemma resources_refine_witness : ∃ w, each_op (run_rop (λ _, true)) ex_res_ops (ResWorld_new (Tick_new 0) (Tick_new 1)) =
    Ret ([AUnit; AScope (Some [AUnit; AUnit]); ABool true; AVal (Some 12%Z); ARef (Some (20%Z, Tick_new 1, Tick_new 1)); ABool false], w) ∧ rw_dropped w = [11%Z].
Proof.
  pose proof (resources_refine (λ _, true) {[1; 2]}%Z (Tick_new 0) (Tick_new 1) ex_res_ops) as Hr.
  specialize (Hr ltac:(by vm_compute) ltac:(by apply (bool_decide_unpack _); vm_compute) eq_refl).
  destruct (a_each (a_run (λ _, true)) ex_res_ops (mkAState ∅ (Tick_new 0) (Tick_new 1) [])) as [[r s]|] eqn:Ha; [|clear Hr; vm_compute in Ha; discriminate Ha].
  destruct Hr as (w & Hw & _ & Hd). vm_compute in Ha. injection Ha as <- <-. exists w. split; [exact Hw|exact Hd].
Defined.

