(* ===== verification/World.v ===== *)
(** * The world: spawning, despawning, inserting and removing

    [crates/voker-ecs/src/world/methods/] (register.rs, arche.rs, spawn.rs,
    despawn.rs, forget.rs, uninit.rs), [world/entity/] (insert.rs, remove.rs,
    clear.rs) and the [ComponentWriter] of [component/tools.rs]: the operations
    that keep entity locations, archetypes, tables and sparse maps in step.

    A bundle value is the list of its components with their bytes.  Hooks and
    observers are recorded in the order they are called ([w_fired]), values handed
    to droppers in [w_dropped]; hooks themselves leave the world as it is and
    queue no commands, so [flush] does nothing.  A panic ends the run: the
    clean-up guards only matter where the code drops them without a panic. *)

From Stdlib Require Import ZArith Lia Sorting.Sorted.
From S2P Require Import Prelude Tick EntityIdent EntityInfo FreeCount FreeBuffer Allocator Column Table SparseMap Registry.

Inductive Fired :=
| FHook (k : HookKind) (id : Z) (e : Entity)
| FEvent (k : HookKind) (components : list Z) (e : Entity).

Record World := mkWorld {
  w_entities : Entities;
  w_allocator : EntityAllocator;
  w_bundles : Bundles;
  w_archetypes : Archetypes;
  w_tables : Tables;
  w_maps : Maps;
  w_this_run : Tick;
  w_fired : list Fired;
  w_dropped : list value
}.

Definition set_entities_w (w : World) (x : Entities) : World :=
  mkWorld x (w_allocator w) (w_bundles w) (w_archetypes w) (w_tables w) (w_maps w) (w_this_run w) (w_fired w) (w_dropped w).
Definition set_allocator (w : World) (x : EntityAllocator) : World :=
  mkWorld (w_entities w) x (w_bundles w) (w_archetypes w) (w_tables w) (w_maps w) (w_this_run w) (w_fired w) (w_dropped w).
Definition set_bundles (w : World) (x : Bundles) : World :=
  mkWorld (w_entities w) (w_allocator w) x (w_archetypes w) (w_tables w) (w_maps w) (w_this_run w) (w_fired w) (w_dropped w).
Definition set_archetypes (w : World) (x : Archetypes) : World :=
  mkWorld (w_entities w) (w_allocator w) (w_bundles w) x (w_tables w) (w_maps w) (w_this_run w) (w_fired w) (w_dropped w).
Definition set_tables (w : World) (x : Tables) : World :=
  mkWorld (w_entities w) (w_allocator w) (w_bundles w) (w_archetypes w) x (w_maps w) (w_this_run w) (w_fired w) (w_dropped w).
Definition set_maps (w : World) (x : Maps) : World :=
  mkWorld (w_entities w) (w_allocator w) (w_bundles w) (w_archetypes w) (w_tables w) x (w_this_run w) (w_fired w) (w_dropped w).
Definition add_fired (w : World) (l : list Fired) : World :=
  mkWorld (w_entities w) (w_allocator w) (w_bundles w) (w_archetypes w) (w_tables w) (w_maps w) (w_this_run w)
    (w_fired w ++ l) (w_dropped w).
Definition add_dropped (w : World) (l : list value) : World :=
  mkWorld (w_entities w) (w_allocator w) (w_bundles w) (w_archetypes w) (w_tables w) (w_maps w) (w_this_run w)
    (w_fired w) (w_dropped w ++ l).

(** Writing one archetype back. *)
Definition put_arche (w : World) (id : nat) (a : Archetype) : World :=
  set_archetypes w (set_arches (w_archetypes w) (<[id := a]> (as_arches (w_archetypes w)))).

(** [entities.update_row(moved).unwrap()]. *)
Definition update_row_unwrap (w : World) (moved : MovedEntityRow) : outcome World :=
  match Entities_update_row (w_entities w) moved with
  | (Ok _, es) => Ret (set_entities_w w es)
  | (Err _, _) => Panic
  end.

(** ** Hooks *)

(** Hooks of kind [k] for the components [sel] selects, then the observer event
    on [components] when [observed]. *)
Definition fire (k : HookKind) (hooks : list Z) (sel : Z → bool) (observed : bool) (components : list Z) (e : Entity)
    : list Fired :=
  ((λ id, FHook k id e) <$> filter (λ id, sel id = true) hooks) ++ (if observed then [FEvent k components e] else []).

(** [trigger_on_add] and its siblings. *)
Definition Archetype_trigger (self : Archetype) (k : HookKind) (e : Entity) : list Fired :=
  fire k (ar_hooks self k) (λ _, true) (Archetype_has_observer self k) (ar_components self) e.

(** ** The component writer *)

Inductive WritedState := Writed_Required | Writed_Explicit.

Record ComponentWriter := mkWriter {
  wr_entity : Entity;
  wr_tick : Tick;
  wr_table_row : nat;
  wr_table : Table;
  wr_maps : Maps;
  wr_writed : gmap Z WritedState;
  wr_dropped : list value
}.

Definition ComponentWriter_new (w : World) (entity : Entity) (table_id table_row : nat) : outcome ComponentWriter :=
  table ← Tables_get_unchecked (w_tables w) table_id;
  Ret (mkWriter entity (w_this_run w) table_row table (w_maps w) ∅ []).

Definition ComponentWriter_set_writed (self : ComponentWriter) (id : Z) : ComponentWriter :=
  mkWriter (wr_entity self) (wr_tick self) (wr_table_row self) (wr_table self) (wr_maps self)
    (<[id := Writed_Explicit]> (wr_writed self)) (wr_dropped self).

(** The storages after a write, with the state recorded for the component. *)
Definition wrote (self : ComponentWriter) (t : Table) (m : Maps) (id : Z) (s : WritedState) (log : list value)
    : ComponentWriter :=
  mkWriter (wr_entity self) (wr_tick self) (wr_table_row self) t m (<[id := s]> (wr_writed self)) (wr_dropped self ++ log).

Definition ComponentWriter_init_dense (self : ComponentWriter) (id : Z) (data : value) : outcome ComponentWriter :=
  col ← of_option (Table_get_table_col (wr_table self) id);
  t ← Table_init_item (wr_table self) col (wr_table_row self) data (wr_tick self);
  Ret (wrote self t (wr_maps self) id Writed_Required []).

Definition ComponentWriter_init_sparse (self : ComponentWriter) (id : Z) (data : value) : outcome ComponentWriter :=
  '(map_id, m) ← Maps_get_unchecked (wr_maps self) id;
  row ← of_option (Map_get_map_row m (wr_entity self));
  m' ← Map_init_item m row data (wr_tick self);
  Ret (wrote self (wr_table self) (set_map (wr_maps self) map_id m') id Writed_Required []).

Definition ComponentWriter_write_dense (self : ComponentWriter) (id : Z) (data : value) : outcome ComponentWriter :=
  col ← of_option (Table_get_table_col (wr_table self) id);
  let row := wr_table_row self in
  match wr_writed self !! id with
  | Some _ =>
      '(log, t) ← Table_replace_item (wr_table self) col row data (wr_tick self);
      Ret (wrote self t (wr_maps self) id Writed_Explicit log)
  | None =>
      t ← Table_init_item (wr_table self) col row data (wr_tick self);
      Ret (wrote self t (wr_maps self) id Writed_Explicit [])
  end.

Definition ComponentWriter_write_sparse (self : ComponentWriter) (id : Z) (data : value) : outcome ComponentWriter :=
  '(map_id, m) ← Maps_get_unchecked (wr_maps self) id;
  row ← of_option (Map_get_map_row m (wr_entity self));
  match wr_writed self !! id with
  | Some _ =>
      '(log, m') ← Map_replace_item m row data (wr_tick self);
      Ret (wrote self (wr_table self) (set_map (wr_maps self) map_id m') id Writed_Explicit log)
  | None =>
      m' ← Map_init_item m row data (wr_tick self);
      Ret (wrote self (wr_table self) (set_map (wr_maps self) map_id m') id Writed_Explicit [])
  end.

Section World.
Context `{VecGrowth}.
Variable desc : Z → ComponentDesc.
Variable components_len : nat.

Definition ComponentWriter_write_required (self : ComponentWriter) (id : Z) : outcome ComponentWriter :=
  match wr_writed self !! id with
  | Some _ => Ret self
  | None =>
      let data := cd_default (desc id) in
      match cd_storage (desc id) with
      | Dense => ComponentWriter_init_dense self id data
      | Sparse => ComponentWriter_init_sparse self id data
      end
  end.

Definition ComponentWriter_write_explicit (self : ComponentWriter) (id : Z) (data : value) : outcome ComponentWriter :=
  match cd_storage (desc id) with
  | Dense => ComponentWriter_write_dense self id data
  | Sparse => ComponentWriter_write_sparse self id data
  end.

(** [Bundle::write_explicit]: every field in order. *)
Fixpoint bundle_write_explicit (bundle : list (Z * value)) (wr : ComponentWriter) : outcome ComponentWriter :=
  match bundle with
  | [] => Ret wr
  | (id, data) :: rest => wr' ← ComponentWriter_write_explicit wr id data; bundle_write_explicit rest wr'
  end.

(** [Required::write] of one component type: its required components, not
    theirs. *)
Fixpoint required_write (ids : list Z) (wr : ComponentWriter) : outcome ComponentWriter :=
  match ids with
  | [] => Ret wr
  | id :: rest => wr' ← ComponentWriter_write_required wr id; required_write rest wr'
  end.

Fixpoint bundle_write_required (types : list Z) (wr : ComponentWriter) : outcome ComponentWriter :=
  match types with
  | [] => Ret wr
  | t :: rest => wr' ← required_write (cd_required (desc t)) wr; bundle_write_required rest wr'
  end.

(** The borrowed table and maps go back to the world. *)
Definition put_writer (w : World) (table_id : nat) (wr : ComponentWriter) : World :=
  add_dropped (set_maps (set_tables w (set_table (w_tables w) table_id (wr_table wr))) (wr_maps wr)) (wr_dropped wr).

(** The parts of a new world that the operations below use. *)
Definition World_alloc : World :=
  mkWorld Entities_new EntityAllocator_new Bundles_new (Archetypes_new desc) (Tables_new desc) Maps_new (Tick_new 1) [] [].

(** ** Registration *)

Definition World_register_explicit_bundle (w : World) (types : list Z) : outcome (nat * World) :=
  match bd_explicit (w_bundles w) !! types with
  | Some id => Ret (id, w)
  | None =>
      let '(dense, sparse) := ComponentCollector_sorted (bundle_collect_explicit desc types) in
      '(id, b) ← Bundles_register_explicit (w_bundles w) types (dense ++ sparse) (length dense);
      Ret (id, set_bundles w b)
  end.

Definition World_register_required_bundle (w : World) (types : list Z) : outcome (nat * World) :=
  match bd_required (w_bundles w) !! types with
  | Some id => Ret (id, w)
  | None =>
      c ← bundle_collect_required desc components_len types;
      let '(dense, sparse) := ComponentCollector_sorted c in
      '(id, b) ← Bundles_register_required (w_bundles w) types (dense ++ sparse) (length dense);
      Ret (id, set_bundles w b)
  end.

Definition World_register_dynamic_bundle (w : World) (idents : list Z) : outcome (nat * World) :=
  match Bundles_get_id (w_bundles w) idents with
  | Some id => Ret (id, w)
  | None =>
      let dense := sort_dedup (filter (λ id, cd_storage (desc id) = Dense) idents) in
      let sparse := sort_dedup (filter (λ id, cd_storage (desc id) = Sparse) idents) in
      '(id, b) ← Bundles_register_dynamic_unique (w_bundles w) (dense ++ sparse) (length dense);
      Ret (id, set_bundles w b)
  end.

(** The storages of a component set and its archetype: the common tail of
    [register_archetype], [arche_after_insert] and [arche_after_remove]. *)
Definition register_storages (w : World) (idents : list Z) (dense_len : nat) : outcome (nat * World) :=
  maps ← Maps_register desc (w_maps w) (drop dense_len idents);
  '(table_id, tables) ← Tables_register desc (w_tables w) (take dense_len idents);
  '(arche_id, arches) ← Archetypes_register_unique desc (w_archetypes w) table_id dense_len idents;
  Ret (arche_id, set_archetypes (set_tables (set_maps w maps) tables) arches).

Definition World_register_archetype (w : World) (bundle_id : nat) : outcome (nat * World) :=
  match Archetypes_get_id_by_bundle (w_archetypes w) bundle_id with
  | Some id => Ret (id, w)
  | None =>
      bundle ← Bundles_get_unchecked (w_bundles w) bundle_id;
      match Archetypes_get_id (w_archetypes w) (bi_components bundle) with
      | Some id =>
          arches ← Archetypes_map_bundle_id (w_archetypes w) bundle_id id;
          Ret (id, set_archetypes w arches)
      | None =>
          '(arche_id, w1) ← register_storages w (bi_components bundle) (bi_dense_len bundle);
          arches ← Archetypes_map_bundle_id (w_archetypes w1) bundle_id arche_id;
          Ret (arche_id, set_archetypes w1 arches)
      end
  end.

(** The archetype of a component set, registered if it is new. *)
Definition find_or_register (w : World) (idents : list Z) (dense_len : nat) : outcome (nat * World) :=
  match Archetypes_get_id (w_archetypes w) idents with
  | Some id => Ret (id, w)
  | None => register_storages w idents dense_len
  end.

Definition World_arche_after_insert (w : World) (arche_id bundle_id : nat) : outcome (nat * World) :=
  arche ← Archetypes_get_unchecked (w_archetypes w) arche_id;
  match ar_after_insert arche !! bundle_id with
  | Some cached => Ret (cached, w)
  | None =>
      bundle ← Bundles_get_unchecked (w_bundles w) bundle_id;
      let dense := sort_dedup (Archetype_dense_components arche ++ BundleInfo_dense_components bundle) in
      let sparse := sort_dedup (Archetype_sparse_components arche ++ BundleInfo_sparse_components bundle) in
      '(result, w1) ← find_or_register w (dense ++ sparse) (length dense);
      arche1 ← Archetypes_get_unchecked (w_archetypes w1) arche_id;
      Ret (result, put_arche w1 arche_id (Archetype_set_after_insert arche1 bundle_id result))
  end.

(** [info.required()] of the components that stay. *)
Definition collect_remaining (ids : list Z) : outcome ComponentCollector :=
  foldl (λ c id, c' ← c;
           foldl (λ c r, c' ← c; ComponentCollector_collect_required desc (S components_len) c' r)
             (Ret c') (cd_required (desc id)))
    (Ret ComponentCollector_new) ids.

Definition World_arche_after_remove (w : World) (arche_id bundle_id : nat) : outcome (nat * World) :=
  arche ← Archetypes_get_unchecked (w_archetypes w) arche_id;
  match ar_after_remove arche !! bundle_id with
  | Some cached => Ret (cached, w)
  | None =>
      bundle ← Bundles_get_unchecked (w_bundles w) bundle_id;
      let dense := filter (λ id, id ∉ BundleInfo_dense_components bundle) (Archetype_dense_components arche) in
      let sparse := filter (λ id, id ∉ BundleInfo_sparse_components bundle) (Archetype_sparse_components arche) in
      c ← collect_remaining (dense ++ sparse);
      let dense_vec := sort_dedup (cl_dense c ++ dense) in
      let sparse_vec := sort_dedup (cl_sparse c ++ sparse) in
      '(result, w1) ← find_or_register w (dense_vec ++ sparse_vec) (length dense_vec);
      arche1 ← Archetypes_get_unchecked (w_archetypes w1) arche_id;
      Ret (result, put_arche w1 arche_id (Archetype_set_after_remove arche1 bundle_id result))
  end.

(** ** Spawning *)

(** A row in the map of every sparse component. *)
Fixpoint alloc_map_rows (ids : list Z) (entity : Entity) (maps : Maps) : outcome Maps :=
  match ids with
  | [] => Ret maps
  | id :: rest =>
      '(map_id, m) ← Maps_get_unchecked maps id;
      '(_, m') ← Map_alloc_row m entity;
      alloc_map_rows rest entity (set_map maps map_id m')
  end.

(** Rows for [entity] in an archetype, its table and its maps. *)
Definition alloc_rows (w : World) (arche_id : nat) (entity : Entity) : outcome (EntityLocation * World) :=
  arche ← Archetypes_get_unchecked (w_archetypes w) arche_id;
  let table_id := ar_table_id arche in
  table ← Tables_get_unchecked (w_tables w) table_id;
  let '(arche_row, arche1) := Archetype_alloc_row arche entity in
  '(table_row, table1) ← Table_alloc_row table entity;
  maps ← alloc_map_rows (Archetype_sparse_components arche) entity (w_maps w);
  Ret (mkLoc (Z.of_nat arche_id) (Z.of_nat table_id) (Z.of_nat arche_row) (Z.of_nat table_row),
       set_maps (set_tables (put_arche w arche_id arche1) (set_table (w_tables w) table_id table1)) maps).

(** [entities.set_spawned(entity, location).unwrap()]. *)
Definition set_spawned_unwrap (w : World) (entity : Entity) (location : EntityLocation) : outcome World :=
  '(r, es) ← Entities_set_spawned (w_entities w) entity location;
  match r with Ok _ => Ret (set_entities_w w es) | Err _ => Panic end.

Definition BundleSpawner_spawn_at (w : World) (arche_id : nat) (bundle : list (Z * value)) (entity : Entity)
    : outcome (EntityLocation * World) :=
  '(location, w1) ← alloc_rows w arche_id entity;
  wr ← ComponentWriter_new w1 entity (Z.to_nat (table_id location)) (Z.to_nat (table_row location));
  wr ← bundle_write_explicit bundle wr;
  wr ← bundle_write_required bundle.*1 wr;
  let w2 := put_writer w1 (Z.to_nat (table_id location)) wr in
  w3 ← set_spawned_unwrap w2 entity location;
  arche ← Archetypes_get_unchecked (w_archetypes w3) arche_id;
  Ret (location, add_fired w3 (Archetype_trigger arche OnAdd entity ++ Archetype_trigger arche OnInsert entity)).

Definition World_spawn (w : World) (bundle : list (Z * value)) : outcome (Entity * World) :=
  '(bundle_id, w1) ← World_register_required_bundle w bundle.*1;
  '(arche_id, w2) ← World_register_archetype w1 bundle_id;
  '(entity, alloc) ← EntityAllocator_alloc_mut (w_allocator w2);
  '(_, w3) ← BundleSpawner_spawn_at (set_allocator w2 alloc) arche_id bundle entity;
  Ret (entity, w3).

Definition World_spawn_at (w : World) (bundle : list (Z * value)) (entity : Entity)
    : outcome (Result Entity SpawnError * World) :=
  match Entities_can_spawn (w_entities w) entity with
  | Err e => Ret (Err e, w)
  | Ok _ =>
      '(bundle_id, w1) ← World_register_required_bundle w bundle.*1;
      '(arche_id, w2) ← World_register_archetype w1 bundle_id;
      '(_, w3) ← BundleSpawner_spawn_at w2 arche_id bundle entity;
      Ret (Ok entity, w3)
  end.

(** [World::alloc_entity]. *)
Definition World_alloc_entity (w : World) : outcome (Entity * World) :=
  '(e, alloc) ← EntityAllocator_alloc (w_allocator w);
  Ret (e, set_allocator w alloc).

(** [World::alloc_entities]; the length fits the cast after the assertion. *)
Definition World_alloc_entities (w : World) (count : Z) : outcome (AllocEntitiesIter * World) :=
  if (count <? u32_max)%Z
  then '(ids, alloc) ← EntityAllocator_alloc_many (w_allocator w) count; Ret (ids, set_allocator w alloc)
  else Panic.

(** The iterator of reserved identifiers borrows the allocator's buffer: what
    is left of the slice it walks through is read from the buffer as it is when
    it is read. *)
Fixpoint read_slots (b : FreeBuffer) (indices : list Z) : outcome (list Entity) :=
  match indices with
  | [] => Ret []
  | i :: rest => e ← FreeBuffer_get b i; es ← read_slots b rest; Ret (e :: es)
  end.

Definition AllocEntitiesIter_borrow (alloc : EntityAllocator) (ids : AllocEntitiesIter) : outcome AllocEntitiesIter :=
  let it := it_reused ids in
  let n := Z.of_nat (length (current_iter it)) in
  cur ← read_slots (fl_buffer (sh_free alloc)) (seqZ (rem_start it - n) n);
  Ret (mkAllocIter (it_fresh ids) (mkIter (fl_buffer (sh_free alloc)) cur (rem_start it) (rem_end it))).

(** [SpawnBatchIter]: one bundle per turn, each with the next reserved
    identifier or a new one, and at the end the reserved identifiers left over
    go back. *)
Fixpoint spawn_batch_loop (w : World) (arche_id : nat) (bundles : list (list (Z * value))) (ids : AllocEntitiesIter)
    : outcome (list Entity * AllocEntitiesIter * World) :=
  match bundles with
  | [] => Ret ([], ids, w)
  | bundle :: rest =>
      ids0 ← AllocEntitiesIter_borrow (w_allocator w) ids;
      '(next, ids1) ← AllocEntitiesIter_next ids0;
      '(entity, w1) ← (match next with
                       | Some e => Ret (e, w)
                       | None => '(e, alloc) ← EntityAllocator_alloc_mut (w_allocator w); Ret (e, set_allocator w alloc)
                       end);
      '(_, w2) ← BundleSpawner_spawn_at w1 arche_id bundle entity;
      '(es, ids2, w3) ← spawn_batch_loop w2 arche_id rest ids1;
      Ret (entity :: es, ids2, w3)
  end.

(** [for e in allocator { world.allocator.free(e) }]: a free may write to the
    buffer the iterator still reads. *)
Fixpoint free_rest (fuel : nat) (ids : AllocEntitiesIter) (alloc : EntityAllocator) : outcome EntityAllocator :=
  match fuel with
  | 0 => Undefined
  | S fuel' =>
      ids0 ← AllocEntitiesIter_borrow alloc ids;
      '(next, ids1) ← AllocEntitiesIter_next ids0;
      match next with
      | None => Ret alloc
      | Some e => alloc1 ← EntityAllocator_free alloc e; free_rest fuel' ids1 alloc1
      end
  end.

(** A batch of bundles of one type whose iterator promises [count] of them,
    collected and dropped. *)
Definition World_spawn_batch (w : World) (types : list Z) (bundles : list (list (Z * value))) (count : Z)
    : outcome (list Entity * World) :=
  '(bundle_id, w1) ← World_register_required_bundle w types;
  '(arche_id, w2) ← World_register_archetype w1 bundle_id;
  '(ids, alloc) ← EntityAllocator_alloc_many (w_allocator w2) count;
  '(es, ids1, w3) ← spawn_batch_loop (set_allocator w2 alloc) arche_id bundles ids;
  alloc1 ← free_rest (S (Z.to_nat count)) ids1 (w_allocator w3);
  Ret (es, set_allocator w3 alloc1).

(** ** Despawning *)

(** [map.get_map_row(entity).unwrap()] and [dealloc_row] for every component. *)
Fixpoint dealloc_map_rows (DROP : bool) (ids : list Z) (entity : Entity) (maps : Maps)
    : outcome (list value * Maps) :=
  match ids with
  | [] => Ret ([], maps)
  | id :: rest =>
      '(map_id, m) ← Maps_get_unchecked maps id;
      match Map_get_map_row m entity with
      | None => Panic
      | Some row =>
          '(log, m') ← Map_dealloc_row DROP m row;
          '(logs, maps') ← dealloc_map_rows DROP rest entity (set_map maps map_id m');
          Ret (log ++ logs, maps')
      end
  end.

Definition despawn_internal (w : World) (entity : Entity) (location : EntityLocation) : outcome (Entity * World) :=
  let aid := Z.to_nat (arche_id location) in
  arche ← Archetypes_get_unchecked (w_archetypes w) aid;
  let w0 := add_fired w (Archetype_trigger arche OnDespawn entity ++ Archetype_trigger arche OnDiscard entity ++
                         Archetype_trigger arche OnRemove entity) in
  let '(despawned, es) := Entities_set_despawned (w_entities w0) entity in
  _ ← (match despawned with Ok l => Ret l | Err _ => Undefined end);
  '(arche_moved, arche1) ← Archetype_dealloc_row arche (Z.to_nat (arche_row location));
  let '(move_res1, es1) := Entities_update_row es arche_moved in
  let tid := Z.to_nat (table_id location) in
  table ← Tables_get_unchecked (w_tables w0) tid;
  '(log, table_moved, table1) ← Table_dealloc_row true table (Z.to_nat (table_row location));
  let '(move_res2, es2) := Entities_update_row es1 table_moved in
  '(logs, maps) ← dealloc_map_rows true (Archetype_sparse_components arche) entity (w_maps w0);
  _ ← (match move_res1 with Ok _ => Ret tt | Err _ => Panic end);
  _ ← (match move_res2 with Ok _ => Ret tt | Err _ => Panic end);
  '(new_entity, es3) ← Entities_free es2 (ent_id entity) 1;
  Ret (new_entity,
       add_dropped (set_entities_w (set_maps (set_tables (put_arche w0 aid arche1)
         (set_table (w_tables w0) tid table1)) maps) es3) (log ++ logs)).

Definition World_despawn (w : World) (entity : Entity) : outcome (Result unit DespawnError * World) :=
  match Entities_locate (w_entities w) entity with
  | Err e => Ret (Err (DespawnError_from e), w)
  | Ok location =>
      '(e, w1) ← despawn_internal w entity location;
      alloc ← EntityAllocator_free (w_allocator w1) e;
      Ret (Ok tt, set_allocator w1 alloc)
  end.

Definition World_try_despawn (w : World) (entity : Entity) : outcome (bool * World) :=
  match Entities_locate (w_entities w) entity with
  | Err _ => Ret (false, w)
  | Ok location =>
      '(e, w1) ← despawn_internal w entity location;
      alloc ← EntityAllocator_free (w_allocator w1) e;
      Ret (true, set_allocator w1 alloc)
  end.

Definition World_despawn_no_free (w : World) (entity : Entity) : outcome (Result Entity DespawnError * World) :=
  match Entities_locate (w_entities w) entity with
  | Err e => Ret (Err (DespawnError_from e), w)
  | Ok location => '(e, w1) ← despawn_internal w entity location; Ret (Ok e, w1)
  end.

(** ** Moving between archetypes *)

(** The archetype part of a move: out of the old archetype, into the new one. *)
Definition move_arche (w : World) (entity : Entity) (location : EntityLocation) (new_arche_id : nat)
    : outcome (EntityLocation * World) :=
  let old_id := Z.to_nat (arche_id location) in
  old_arche ← Archetypes_get_unchecked (w_archetypes w) old_id;
  '(moved, old1) ← Archetype_dealloc_row old_arche (Z.to_nat (arche_row location));
  w1 ← update_row_unwrap (put_arche w old_id old1) moved;
  new_arche ← Archetypes_get_unchecked (w_archetypes w1) new_arche_id;
  let '(row, new1) := Archetype_alloc_row new_arche entity in
  Ret (mkLoc (Z.of_nat new_arche_id) (table_id location) (Z.of_nat row) (table_row location),
       put_arche w1 new_arche_id new1).

(** The table part: [move_row] when the tables differ. *)
Definition move_table (DROP : bool) (w : World) (location : EntityLocation) (old_table_id new_table_id : nat)
    : outcome (EntityLocation * World) :=
  if decide (old_table_id = new_table_id) then Ret (location, w)
  else
    old_table ← Tables_get_unchecked (w_tables w) old_table_id;
    new_table ← Tables_get_unchecked (w_tables w) new_table_id;
    '(log, moved, row, old1, new1) ← Table_move_row DROP old_table (Z.to_nat (table_row location)) new_table;
    let w1 := set_tables w (set_table (set_table (w_tables w) old_table_id old1) new_table_id new1) in
    w2 ← update_row_unwrap (add_dropped w1 log) moved;
    Ret (mkLoc (arche_id location) (Z.of_nat new_table_id) (arche_row location) (Z.of_nat row), w2).

(** [entities.update_location(entity, location).unwrap()]. *)
Definition update_location_unwrap (w : World) (entity : Entity) (location : EntityLocation) : outcome World :=
  match Entities_update_location (w_entities w) entity location with
  | (Ok _, es) => Ret (set_entities_w w es)
  | (Err _, _) => Panic
  end.

(** [EntityOwned::relocate]. *)
Definition relocate (w : World) (entity : Entity) : option EntityLocation :=
  match Entities_locate (w_entities w) entity with Ok l => Some l | Err _ => None end.

(** ** Inserting *)

Definition insert_local (w : World) (entity : Entity) (location : EntityLocation) (explicit_bundle_id : nat)
    (bundle : list (Z * value)) : outcome (option EntityLocation * World) :=
  let aid := Z.to_nat (arche_id location) in
  arche ← Archetypes_get_unchecked (w_archetypes w) aid;
  binfo ← Bundles_get_unchecked (w_bundles w) explicit_bundle_id;
  let w0 := add_fired w (fire OnDiscard (ar_hooks arche OnDiscard) (BundleInfo_contains_component binfo)
                           (Archetype_has_observer arche OnDiscard) (bi_components binfo) entity) in
  wr ← ComponentWriter_new w0 entity (ar_table_id arche) (Z.to_nat (table_row location));
  let wr := foldl ComponentWriter_set_writed wr (ar_components arche) in
  wr ← bundle_write_explicit bundle wr;
  let w1 := put_writer w0 (ar_table_id arche) wr in
  let w2 := add_fired w1 (fire OnInsert (ar_hooks arche OnInsert) (BundleInfo_contains_component binfo)
                            (Archetype_has_observer arche OnInsert) (bi_components binfo) entity) in
  Ret (relocate w2 entity, w2).

Definition insert_moved (w : World) (entity : Entity) (location : EntityLocation) (new_arche_id : nat)
    (explicit_bundle_id : nat) (bundle : list (Z * value)) : outcome (option EntityLocation * World) :=
  let old_id := Z.to_nat (arche_id location) in
  old_arche ← Archetypes_get_unchecked (w_archetypes w) old_id;
  new_arche ← Archetypes_get_unchecked (w_archetypes w) new_arche_id;
  binfo ← Bundles_get_unchecked (w_bundles w) explicit_bundle_id;
  let in_old := Archetype_contains_component old_arche in
  let in_bundle := BundleInfo_contains_component binfo in
  let w0 := add_fired w (fire OnDiscard (ar_hooks old_arche OnDiscard) in_bundle (Archetype_has_observer old_arche OnDiscard)
                           (filter (λ id, in_old id = true) (bi_components binfo)) entity) in
  '(loc1, w1) ← move_arche w0 entity location new_arche_id;
  '(loc2, w2) ← move_table false w1 loc1 (ar_table_id old_arche) (ar_table_id new_arche);
  wr ← ComponentWriter_new w2 entity (Z.to_nat (table_id loc2)) (Z.to_nat (table_row loc2));
  let wr := foldl ComponentWriter_set_writed wr (ar_components old_arche) in
  wr ← bundle_write_explicit bundle wr;
  wr ← bundle_write_required bundle.*1 wr;
  let w3 := put_writer w2 (Z.to_nat (table_id loc2)) wr in
  w4 ← update_location_unwrap w3 entity loc2;
  let new_component id := negb (in_old id) in
  let w5 := add_fired w4
    (fire OnAdd (ar_hooks new_arche OnAdd) new_component (Archetype_has_observer old_arche OnAdd)
       (filter (λ id, new_component id = true) (ar_components new_arche)) entity ++
     fire OnInsert (ar_hooks new_arche OnInsert) (λ id, new_component id || in_bundle id)
       (Archetype_has_observer old_arche OnInsert)
       (filter (λ id, (new_component id || in_bundle id) = true) (ar_components new_arche)) entity) in
  Ret (relocate w5 entity, w5).

(** [assert_is_spawned]: the handle still has a location. *)
Definition assert_is_spawned (location : option EntityLocation) : outcome EntityLocation :=
  match location with Some l => Ret l | None => Panic end.

Definition EntityOwned_insert (w : World) (entity : Entity) (handle : option EntityLocation) (bundle : list (Z * value))
    : outcome (option EntityLocation * World) :=
  location ← assert_is_spawned handle;
  '(required_id, w1) ← World_register_required_bundle w bundle.*1;
  '(explicit_id, w2) ← World_register_explicit_bundle w1 bundle.*1;
  '(new_arche_id, w3) ← World_arche_after_insert w2 (Z.to_nat (arche_id location)) required_id;
  if decide (Z.to_nat (arche_id location) = new_arche_id)
  then insert_local w3 entity location explicit_id bundle
  else insert_moved w3 entity location new_arche_id explicit_id bundle.

(** The closure is called only when the bundle is not complete: [bundle] is
    its value. *)
Definition EntityOwned_insert_if_new (w : World) (entity : Entity) (handle : option EntityLocation)
    (bundle : list (Z * value)) : outcome (option EntityLocation * World) :=
  location ← assert_is_spawned handle;
  '(explicit_id, w1) ← World_register_explicit_bundle w bundle.*1;
  arche ← Archetypes_get_unchecked (w_archetypes w1) (Z.to_nat (arche_id location));
  binfo ← Bundles_get_unchecked (w_bundles w1) explicit_id;
  if forallb (Archetype_contains_component arche) (bi_components binfo) then Ret (Some location, w1)
  else EntityOwned_insert w1 entity (Some location) bundle.

(** ** Removing *)

Definition remove_moved (w : World) (entity : Entity) (location : EntityLocation) (new_arche_id : nat)
    : outcome (option EntityLocation * World) :=
  let old_id := Z.to_nat (arche_id location) in
  old_arche ← Archetypes_get_unchecked (w_archetypes w) old_id;
  new_arche ← Archetypes_get_unchecked (w_archetypes w) new_arche_id;
  let lost id := negb (Archetype_contains_component new_arche id) in
  let lost_components := filter (λ id, lost id = true) (ar_components old_arche) in
  let w0 := add_fired w
    (fire OnDiscard (ar_hooks old_arche OnDiscard) lost (Archetype_has_observer old_arche OnDiscard) lost_components entity ++
     fire OnRemove (ar_hooks old_arche OnRemove) lost (Archetype_has_observer old_arche OnRemove) lost_components entity) in
  '(loc1, w1) ← move_arche w0 entity location new_arche_id;
  '(loc2, w2) ← move_table true w1 loc1 (ar_table_id old_arche) (ar_table_id new_arche);
  '(log, maps) ← dealloc_map_rows true
      (filter (λ id, Archetype_contains_sparse_component new_arche id = false) (Archetype_sparse_components old_arche))
      entity (w_maps w2);
  w3 ← update_location_unwrap (add_dropped (set_maps w2 maps) log) entity loc2;
  Ret (relocate w3 entity, w3).

Definition EntityOwned_remove_dynamic (w : World) (entity : Entity) (handle : option EntityLocation) (bundle_id : nat)
    : outcome (option EntityLocation * World) :=
  location ← assert_is_spawned handle;
  '(new_arche_id, w1) ← World_arche_after_remove w (Z.to_nat (arche_id location)) bundle_id;
  if decide (Z.to_nat (arche_id location) = new_arche_id) then Ret (Some location, w1)
  else remove_moved w1 entity location new_arche_id.

Definition EntityOwned_remove_explicit (w : World) (entity : Entity) (handle : option EntityLocation) (types : list Z)
    : outcome (option EntityLocation * World) :=
  '(bundle_id, w1) ← World_register_explicit_bundle w types;
  EntityOwned_remove_dynamic w1 entity handle bundle_id.

Definition EntityOwned_remove_required (w : World) (entity : Entity) (handle : option EntityLocation) (types : list Z)
    : outcome (option EntityLocation * World) :=
  '(bundle_id, w1) ← World_register_required_bundle w types;
  EntityOwned_remove_dynamic w1 entity handle bundle_id.

Definition EntityOwned_clear (w : World) (entity : Entity) (handle : option EntityLocation)
    : outcome (option EntityLocation * World) :=
  location ← assert_is_spawned handle;
  let old_id := Z.to_nat (arche_id location) in
  if decide (old_id = 0) then Ret (Some location, w)
  else
    old_arche ← Archetypes_get_unchecked (w_archetypes w) old_id;
    let w0 := add_fired w (Archetype_trigger old_arche OnDiscard entity ++ Archetype_trigger old_arche OnRemove entity) in
    '(loc1, w1) ← move_arche w0 entity location 0;
    '(loc2, w2) ← move_table true w1 loc1 (ar_table_id old_arche) 0;
    '(log, maps) ← dealloc_map_rows true (Archetype_sparse_components old_arche) entity (w_maps w2);
    w3 ← update_location_unwrap (add_dropped (set_maps w2 maps) log) entity loc2;
    Ret (relocate w3 entity, w3).

(** ** Forgetting *)

Fixpoint forget_arches (ids : list nat) (entity : Entity) (w : World) : outcome World :=
  match ids with
  | [] => Ret w
  | id :: rest =>
      arche ← Archetypes_get_unchecked (w_archetypes w) id;
      w1 ← (match Archetype_get_arche_row arche entity with
            | Some row =>
                '(moved, arche1) ← Archetype_dealloc_row arche row;
                update_row_unwrap (put_arche w id arche1) moved
            | None => Ret w
            end);
      forget_arches rest entity w1
  end.

Fixpoint forget_tables (ids : list nat) (entity : Entity) (w : World) : outcome World :=
  match ids with
  | [] => Ret w
  | id :: rest =>
      table ← Tables_get_unchecked (w_tables w) id;
      w1 ← (match Table_get_table_row table entity with
            | Some row =>
                '(_, moved, table1) ← Table_dealloc_row false table row;
                update_row_unwrap (set_tables w (set_table (w_tables w) id table1)) moved
            | None => Ret w
            end);
      forget_tables rest entity w1
  end.

Fixpoint forget_maps (maps : list SMap) (entity : Entity) : outcome (list SMap) :=
  match maps with
  | [] => Ret []
  | m :: rest =>
      m1 ← (match Map_get_map_row m entity with
            | Some row => '(_, m') ← Map_dealloc_row false m row; Ret m'
            | None => Ret m
            end);
      rest' ← forget_maps rest entity;
      Ret (m1 :: rest')
  end.

Definition World_forget (w : World) (entity : Entity) : outcome World :=
  let w0 := set_entities_w w (Entities_set_despawned (w_entities w) entity).2 in
  w1 ← forget_arches (seq 0 (length (as_arches (w_archetypes w0)))) entity w0;
  w2 ← forget_tables (seq 0 (length (ts_tables (w_tables w1)))) entity w1;
  maps ← forget_maps (ms_maps (w_maps w2)) entity;
  Ret (set_maps w2 (mkMaps maps (ms_mapper (w_maps w2)))).

(** ** Spawning without components *)

(** The handle returned is the entity with the location it was given. *)
Definition World_spawn_empty (w : World) : outcome (Entity * EntityLocation * World) :=
  '(entity, alloc) ← EntityAllocator_alloc_mut (w_allocator w);
  let w0 := set_allocator w alloc in
  arche ← Archetypes_get_unchecked (w_archetypes w0) 0;
  table ← Tables_get_unchecked (w_tables w0) 0;
  let '(arche_row, arche1) := Archetype_alloc_row arche entity in
  '(table_row, table1) ← Table_alloc_row table entity;
  let location := mkLoc 0 0 (Z.of_nat arche_row) (Z.of_nat table_row) in
  w1 ← set_spawned_unwrap (set_tables (put_arche w0 0 arche1) (set_table (w_tables w0) 0 table1)) entity location;
  w2 ← World_forget w1 entity;
  Ret (entity, location, w2).

Definition World_spawn_empty_at (w : World) (entity : Entity)
    : outcome (Result (Entity * EntityLocation) SpawnError * World) :=
  match Entities_can_spawn (w_entities w) entity with
  | Err e => Ret (Err e, w)
  | Ok _ => '(entity', location, w') ← World_spawn_empty w; Ret (Ok (entity', location), w')
  end.

Definition World_spawn_uninit (w : World) (arche_id : nat) : outcome (Entity * EntityLocation * World) :=
  '(entity, alloc) ← EntityAllocator_alloc_mut (w_allocator w);
  '(location, w1) ← alloc_rows (set_allocator w alloc) arche_id entity;
  w2 ← set_spawned_unwrap w1 entity location;
  Ret (entity, location, w2).

End World.
