(* ===== verification/WorldInv.v ===== *)
(** * The invariant of the world

    [registry_ok] is about what is registered: component sets, their tables and
    maps, the caches.  [rows_ok] is about what is stored: the location table and
    the rows of archetypes and tables describe each other, and an entity has a
    row in the map of a sparse component exactly when its archetype has the
    component.  [World_get] is what the world stores for an entity and a
    component, wherever it is kept. *)

From Stdlib Require Import ZArith Lia Sorting.Sorted.
From S2P Require Import Prelude Tick EntityIdent EntityInfo FreeCount FreeBuffer Allocator Column Table SparseMap.
From S2P Require Import Locations Registry World.

Notation cell := (value * option Tick * option Tick)%type.

(** Both ticks are written. *)
Definition written (x : cell) : Prop := is_Some x.1.2 ∧ is_Some x.2.

(** The value of a cell as it goes to its dropper. *)
Definition cell_drop (drops : bool) (x : option cell) : list value :=
  match x with Some x => if drops then [x.1.1] else [] | None => [] end.

(** ** Sparse maps of a world *)

Definition map_of (maps : Maps) (c : Z) : option SMap := id ← ms_mapper maps !! c; ms_maps maps !! id.

Definition map_get (maps : Maps) (c : Z) (e : Entity) : option cell := m ← map_of maps c; Map_lookup m e.

Section maps.
Context `{VecGrowth}.
Variable desc : Z → ComponentDesc.
Notation info := (λ c, cd_info (desc c)).

Record maps_ok (maps : Maps) : Prop := {
  mp_shape : ∀ c id, ms_mapper maps !! c = Some id → ∃ m hw, ms_maps maps !! id = Some m ∧ map_shape (info c) hw m;
  mp_inj : ∀ c c' id, ms_mapper maps !! c = Some id → ms_mapper maps !! c' = Some id → c = c'
}.

Lemma map_of_shape maps c m : maps_ok maps → map_of maps c = Some m → ∃ hw, map_shape (info c) hw m.
Proof.
  intros Hok (id & Hid & Hm)%bind_Some. destruct (mp_shape _ Hok c id Hid) as (m' & hw & Hm' & Hs).
  simplify_eq. eauto.
Qed.

Lemma map_of_get maps c m :
  map_of maps c = Some m → ∃ id, Maps_get_unchecked maps c = Ret (id, m) ∧ ms_mapper maps !! c = Some id.
Proof.
  intros (id & Hid & Hm)%bind_Some. exists id. unfold Maps_get_unchecked, Maps_get_id. rewrite Hid. cbn. by rewrite Hm.
Qed.

Lemma map_get_row maps c m e x :
  map_of maps c = Some m → map_get maps c e = Some x →
  ∃ r, Map_get_map_row m e = Some r ∧ x = Column_cell (map_column m) r.
Proof.
  intros Hm. unfold map_get. rewrite Hm. cbn. unfold Map_lookup. intros (r & Hr & ->)%fmap_Some. eauto.
Qed.

Lemma set_map_ok maps c id hw m' :
  maps_ok maps → ms_mapper maps !! c = Some id → map_shape (info c) hw m' →
  maps_ok (set_map maps id m') ∧
  ∀ c', map_of (set_map maps id m') c' = if decide (c' = c) then Some m' else map_of maps c'.
Proof.
  intros Hok Hid Hs. destruct (mp_shape _ Hok c id Hid) as (m & hw0 & Hm & _). split.
  - split; cbn; [|apply Hok]. intros c' id' Hid'. destruct (decide (id' = id)) as [->|Hne].
    + rewrite (mp_inj _ Hok c' c id Hid' Hid).
      exists m', hw. by rewrite list_lookup_insert_eq by (by eapply lookup_lt_Some).
    + rewrite list_lookup_insert_ne by done. by apply Hok.
  - intros c'. unfold map_of. cbn. case_decide as Hc; [subst c'; rewrite Hid|].
    + cbn. by rewrite list_lookup_insert_eq by (by eapply lookup_lt_Some).
    + destruct (ms_mapper maps !! c') as [id'|] eqn:Hid'; [|done]. cbn.
      rewrite list_lookup_insert_ne; [done|]. intros <-. apply Hc. by eapply mp_inj.
Qed.

Lemma set_map_get maps c id hw m' :
  maps_ok maps → ms_mapper maps !! c = Some id → map_shape (info c) hw m' →
  ∀ c' e', map_get (set_map maps id m') c' e' = if decide (c' = c) then Map_lookup m' e' else map_get maps c' e'.
Proof.
  intros Hok Hid Hs c' e'. unfold map_get.
  rewrite (proj2 (set_map_ok maps c id hw m' Hok Hid Hs)). by case_decide.
Qed.

(** Taking the rows of one entity out of several maps. *)
Lemma dealloc_map_rows_spec DROP ids e maps :
  maps_ok maps → NoDup ids → (∀ c, c ∈ ids → is_Some (map_get maps c e)) →
  ∃ maps', dealloc_map_rows DROP ids e maps
           = Ret (concat ((λ c, cell_drop (DROP && has_dropper (info c)) (map_get maps c e)) <$> ids), maps') ∧
    maps_ok maps' ∧ ms_mapper maps' = ms_mapper maps ∧
    ∀ c e', map_get maps' c e' = if decide (e' = e ∧ c ∈ ids) then None else map_get maps c e'.
Proof.
  revert maps. induction ids as [|c ids IH]; intros maps Hok Hnd Hin; cbn.
  { exists maps. split; [done|]. split; [done|]. split; [done|]. intros c e'. rewrite decide_False; [done|]. set_solver. }
  apply NoDup_cons in Hnd as [Hc Hnd]. destruct (Hin c) as [x Hx]; [set_solver|].
  assert (∃ m, map_of maps c = Some m) as [m Hm].
  { unfold map_get in Hx. destruct (map_of maps c); [eauto|done]. }
  destruct (map_of_get _ _ _ Hm) as (id & -> & Hid). destruct (map_of_shape _ _ _ Hok Hm) as [hw Hs].
  destruct (map_get_row _ _ _ _ _ Hm Hx) as (r & Hr & ->).
  cbn [mbind outcome_bind]. rewrite Hr.
  destruct (Map_dealloc_row_spec (info c) DROP hw m r e Hs Hr) as (m' & -> & Hs' & Hmap & Hcol).
  cbn [mbind outcome_bind].
  destruct (set_map_ok maps c id hw m' Hok Hid Hs') as [Hok' _].
  pose proof (set_map_get maps c id hw m' Hok Hid Hs') as Hget.
  assert (Hget' : ∀ c' e', map_get (set_map maps id m') c' e'
                           = if decide (e' = e ∧ c' = c) then None else map_get maps c' e').
  { intros c' e'. rewrite Hget. destruct (decide (c' = c)) as [->|Hne].
    - unfold Map_lookup, Map_get_map_row. rewrite Hmap, Hcol.
      destruct (decide (e' = e)) as [->|Hee].
      + by rewrite lookup_delete_eq, decide_True by done.
      + rewrite lookup_delete_ne, decide_False by naive_solver.
        unfold map_get. by rewrite Hm.
    - rewrite decide_False by naive_solver. done. }
  destruct (IH (set_map maps id m') Hok' Hnd) as (maps' & -> & Hok2 & Hmapper & Hget2).
  { intros c' Hc'. rewrite Hget', decide_False by (intros [_ ->]; done). apply Hin. set_solver. }
  cbn [mbind outcome_bind]. exists maps'. split; [|split; [done|split; [done|]]].
  - f_equal. f_equal. f_equal.
    + rewrite Hx. cbn. by destruct DROP, (has_dropper _).
    + f_equal. apply list_fmap_ext. intros i c' Hc'. f_equal. rewrite Hget', decide_False; [done|].
      intros [_ ->]. apply Hc. by eapply list_elem_of_lookup_2.
  - intros c' e'. rewrite Hget2, Hget'. repeat case_decide; set_solver.
Qed.

(** Giving an entity a row in several maps. *)
Lemma alloc_map_rows_spec ids e maps :
  items_small info → maps_ok maps → NoDup ids →
  (∀ c, c ∈ ids → ∃ m, map_of maps c = Some m ∧ map_room m) → (∀ c, c ∈ ids → map_get maps c e = None) →
  ∃ maps', alloc_map_rows ids e maps = Ret maps' ∧ maps_ok maps' ∧ ms_mapper maps' = ms_mapper maps ∧
    (∀ c, c ∈ ids → is_Some (map_get maps' c e)) ∧
    ∀ c e', ¬ (e' = e ∧ c ∈ ids) → map_get maps' c e' = map_get maps c e'.
Proof.
  intros Hsm. revert maps. induction ids as [|c ids IH]; intros maps Hok Hnd Hroom Hfree; cbn.
  { exists maps. repeat (split; [done|]). split; [set_solver|done]. }
  apply NoDup_cons in Hnd as [Hc Hnd]. destruct (Hroom c) as (m & Hm & Hmr); [set_solver|].
  destruct (map_of_get _ _ _ Hm) as (id & -> & Hid). destruct (map_of_shape _ _ _ Hok Hm) as [hw Hs].
  assert (Hnone : map_mapper m !! e = None).
  { specialize (Hfree c ltac:(set_solver)). unfold map_get in Hfree. rewrite Hm in Hfree.
    by apply fmap_None in Hfree. }
  cbn [mbind outcome_bind].
  destruct (Map_alloc_row_spec (info c) (Hsm c) hw m e Hs Hnone Hmr) as (r & m' & -> & _ & Hs' & Hmap & Hfresh & Hcell).
  cbn [mbind outcome_bind].
  destruct (set_map_ok maps c id _ m' Hok Hid Hs') as [Hok' Hof'].
  pose proof (set_map_get maps c id _ m' Hok Hid Hs') as Hget.
  assert (Hget' : ∀ c' e', ¬ (e' = e ∧ c' = c) → map_get (set_map maps id m') c' e' = map_get maps c' e').
  { intros c' e' Hn. rewrite Hget. case_decide; [subst|done]. unfold map_get. rewrite Hm. cbn.
    unfold Map_lookup, Map_get_map_row. rewrite Hmap, lookup_insert_ne by naive_solver.
    destruct (map_mapper m !! e') as [r'|] eqn:Hr'; [|done]. cbn. f_equal. apply Hcell.
    by eapply (map_row_lt (info c) hw m e'). }
  destruct (IH (set_map maps id m') Hok' Hnd) as (maps' & -> & Hok2 & Hmapper & Hin2 & Hget2).
  { intros c' Hc'. rewrite Hof', decide_False by (by intros ->). apply Hroom. set_solver. }
  { intros c' Hc'. rewrite Hget' by (intros [_ ->]; done). apply Hfree. set_solver. }
  exists maps'. repeat (split; [done|]). split.
  - intros c' [->|Hc']%elem_of_cons; [|by apply Hin2].
    rewrite Hget2, Hget, decide_True by naive_solver. unfold Map_lookup, Map_get_map_row.
    rewrite Hmap, lookup_insert_eq. by eexists.
  - intros c' e' Hn. rewrite Hget2, Hget' by set_solver. done.
Qed.
End maps.

(** ** What is registered *)

(** A world without its rows and values. *)
Record Shape := mkShape {
  sh_bundles : Bundles;
  sh_arches : list Archetype;
  sh_amapper : gmap (list Z) nat;
  sh_abundles : list (option nat);
  sh_tables : list (list Z);
  sh_tmapper : gmap (list Z) nat;
  sh_maps : gmap Z nat
}.

Definition cleared (a : Archetype) : Archetype := arche_set_entities a [].

Definition shape (w : World) : Shape :=
  mkShape (w_bundles w) (cleared <$> as_arches (w_archetypes w)) (as_mapper (w_archetypes w))
    (as_bundles (w_archetypes w)) (tbl_components <$> ts_tables (w_tables w)) (ts_mapper (w_tables w))
    (ms_mapper (w_maps w)).

(** [known] is the set of component types registered; its size is the fuel of
    the collector. *)
Section inv.
Context `{VecGrowth}.
Variable desc : Z → ComponentDesc.
Variable known : gset Z.
Notation info := (λ c, cd_info (desc c)).

(** A component list: the dense components, ascending, then the sparse ones. *)
Record set_ok (dense_len : nat) (components : list Z) : Prop := {
  so_dense_sorted : StronglySorted Z.lt (take dense_len components);
  so_sparse_sorted : StronglySorted Z.lt (drop dense_len components);
  so_len : dense_len ≤ length components;
  so_dense : Forall (λ c, cd_storage (desc c) = Dense) (take dense_len components);
  so_sparse : Forall (λ c, cd_storage (desc c) = Sparse) (drop dense_len components)
}.

(** A component set has whatever its members require. *)
Definition required_closed (components : list Z) : Prop :=
  ∀ c r, c ∈ components → r ∈ cd_required (desc c) → r ∈ components.

(** The component sets after inserting and after removing a bundle. *)
Definition insert_target (a : Archetype) (b : BundleInfo) : nat * list Z :=
  let dense := sort_dedup (Archetype_dense_components a ++ BundleInfo_dense_components b) in
  let sparse := sort_dedup (Archetype_sparse_components a ++ BundleInfo_sparse_components b) in
  (length dense, dense ++ sparse).

Definition remove_target (a : Archetype) (b : BundleInfo) : outcome (nat * list Z) :=
  let dense := filter (λ id, id ∉ BundleInfo_dense_components b) (Archetype_dense_components a) in
  let sparse := filter (λ id, id ∉ BundleInfo_sparse_components b) (Archetype_sparse_components a) in
  c ← collect_remaining desc (size known) (dense ++ sparse);
  Ret (length (sort_dedup (cl_dense c ++ dense)), sort_dedup (cl_dense c ++ dense) ++ sort_dedup (cl_sparse c ++ sparse)).

Record arche_ok (s : Shape) (i : nat) (a : Archetype) : Prop := {
  ao_set : set_ok (ar_dense_len a) (ar_components a);
  ao_closed : required_closed (ar_components a);
  ao_known : ∀ c, c ∈ ar_components a → c ∈ known;
  ao_table : sh_tables s !! ar_table_id a = Some (Archetype_dense_components a);
  ao_maps : ∀ c, c ∈ Archetype_sparse_components a → is_Some (sh_maps s !! c);
  ao_mapper : sh_amapper s !! ar_components a = Some i;
  ao_insert : ∀ b i', ar_after_insert a !! b = Some i' →
    ∃ bi a', bd_infos (sh_bundles s) !! b = Some bi ∧ sh_arches s !! i' = Some a' ∧
             (ar_dense_len a', ar_components a') = insert_target a bi;
  ao_remove : ∀ b i', ar_after_remove a !! b = Some i' →
    ∃ bi a', bd_infos (sh_bundles s) !! b = Some bi ∧ sh_arches s !! i' = Some a' ∧
             Ret (ar_dense_len a', ar_components a') = remove_target a bi
}.

(** The dense and sparse parts a collector gives for a set of component types. *)
Definition set_of (c : ComponentCollector) : nat * list Z :=
  let '(dense, sparse) := ComponentCollector_sorted c in (length dense, dense ++ sparse).

Record bundles_ok (s : Shape) : Prop := {
  bo_set : ∀ i b, bd_infos (sh_bundles s) !! i = Some b → set_ok (bi_dense_len b) (bi_components b);
  bo_mapper : ∀ cs i, bd_mapper (sh_bundles s) !! cs = Some i →
    ∃ b, bd_infos (sh_bundles s) !! i = Some b ∧ bi_components b = cs;
  bo_explicit : ∀ ts i, bd_explicit (sh_bundles s) !! ts = Some i →
    ∃ b, bd_infos (sh_bundles s) !! i = Some b ∧ (bi_dense_len b, bi_components b) = set_of (bundle_collect_explicit desc ts);
  bo_required : ∀ ts i, bd_required (sh_bundles s) !! ts = Some i →
    ∃ b c, bd_infos (sh_bundles s) !! i = Some b ∧ bundle_collect_required desc (size known) ts = Ret c ∧
           (bi_dense_len b, bi_components b) = set_of c
}.

Record registry_ok (s : Shape) : Prop := {
  ro_bundles : bundles_ok s;
  ro_arche : ∀ i a, sh_arches s !! i = Some a → arche_ok s i a;
  ro_amapper : ∀ cs i, sh_amapper s !! cs = Some i → ∃ a, sh_arches s !! i = Some a ∧ ar_components a = cs;
  ro_abundles : ∀ b i, sh_abundles s !! b = Some (Some i) →
    ∃ bi a, bd_infos (sh_bundles s) !! b = Some bi ∧ sh_arches s !! i = Some a ∧ ar_components a = bi_components bi;
  ro_tmapper : ∀ cs i, sh_tmapper s !! cs = Some i → sh_tables s !! i = Some cs;
  ro_empty : ∃ a, sh_arches s !! 0 = Some a ∧ ar_components a = [] ∧ ar_table_id a = 0
}.

(** ** What is stored *)

(** The archetype of an entity. *)
Definition arche_of (w : World) (e : Entity) : option Archetype :=
  p ← apos (w_entities w) e; as_arches (w_archetypes w) !! p.1.

Definition table_live (t : Table) : Prop := ∀ e c x, Table_lookup t e c = Some x → written x.

Record rows_ok (w : World) : Prop := {
  rw_wf : Entities_wf (w_entities w);
  rw_arches : placed (apos (w_entities w)) (ar_entities <$> as_arches (w_archetypes w));
  rw_tables : placed (tpos (w_entities w)) (tbl_entities <$> ts_tables (w_tables w));
  rw_link : ∀ e p q a, apos (w_entities w) e = Some p → tpos (w_entities w) e = Some q →
    as_arches (w_archetypes w) !! p.1 = Some a → q.1 = ar_table_id a;
  rw_table_ok : ∀ i t, ts_tables (w_tables w) !! i = Some t → table_ok info t ∧ table_live t;
  rw_maps_ok : maps_ok desc (w_maps w);
  rw_sparse : ∀ c e, is_Some (map_get (w_maps w) c e) ↔
    ∃ a, arche_of w e = Some a ∧ c ∈ Archetype_sparse_components a;
  rw_sparse_live : ∀ c e x, map_get (w_maps w) c e = Some x → written x
}.

Definition world_inv (w : World) : Prop := registry_ok (shape w) ∧ rows_ok w.

(** What the world stores for an entity and a component. *)
Definition World_get (w : World) (e : Entity) (c : Z) : option cell :=
  a ← arche_of w e;
  if decide (c ∈ Archetype_dense_components a)
  then t ← ts_tables (w_tables w) !! ar_table_id a; Table_lookup t e c
  else map_get (w_maps w) c e.

Definition World_components (w : World) (e : Entity) : option (list Z) := ar_components <$> arche_of w e.

(** The values of an entity that go to droppers, for the components [ids]. *)
Definition entity_values (w : World) (e : Entity) (ids : list Z) : list value :=
  concat ((λ c, cell_drop (has_dropper (info c)) (World_get w e c)) <$> ids).

(** Nothing changed for an entity, its place apart. *)
Definition same_entity (w w' : World) (e : Entity) : Prop :=
  World_components w' e = World_components w e ∧ ∀ c, World_get w' e c = World_get w e c.
End inv.

(** ** Shapes *)

Lemma fmap_insert_same {A B} (f : A → B) (l : list A) i a a' :
  l !! i = Some a → f a' = f a → f <$> <[i := a']> l = f <$> l.
Proof. intros Hi Hf. rewrite list_fmap_insert, Hf. apply list_insert_id. by rewrite list_lookup_fmap, Hi. Qed.

Lemma shape_arche w i a : as_arches (w_archetypes w) !! i = Some a → sh_arches (shape w) !! i = Some (cleared a).
Proof. intros Hi. cbn. by rewrite list_lookup_fmap, Hi. Qed.

Lemma shape_arche_inv w i a :
  sh_arches (shape w) !! i = Some a → ∃ a0, as_arches (w_archetypes w) !! i = Some a0 ∧ a = cleared a0.
Proof. cbn. rewrite list_lookup_fmap. intros (a0 & -> & ->)%fmap_Some. eauto. Qed.

Section lemmas.
Context `{VecGrowth}.
Variable desc : Z → ComponentDesc.
Variable known : gset Z.
Notation info := (λ c, cd_info (desc c)).
Notation rows_ok := (rows_ok desc).

Lemma set_ok_NoDup dl cs : set_ok desc dl cs → NoDup cs.
Proof.
  intros Hs. rewrite <- (take_drop dl cs). apply NoDup_app.
  split; [apply StronglySorted_lt_NoDup, Hs|]. split; [|apply StronglySorted_lt_NoDup, Hs].
  intros c Hd Hsp. pose proof (proj1 (Forall_forall _ _) (so_dense _ _ _ Hs) c Hd) as H1.
  pose proof (proj1 (Forall_forall _ _) (so_sparse _ _ _ Hs) c Hsp) as H2. cbn in *. congruence.
Qed.

Lemma set_ok_dense dl cs c : set_ok desc dl cs → c ∈ take dl cs ↔ c ∈ cs ∧ cd_storage (desc c) = Dense.
Proof.
  intros Hs. rewrite <- (take_drop dl cs) at 2. rewrite elem_of_app.
  pose proof (proj1 (Forall_forall _ _) (so_dense _ _ _ Hs) c) as H1.
  pose proof (proj1 (Forall_forall _ _) (so_sparse _ _ _ Hs) c) as H2. cbn in *.
  split; [naive_solver|]. intros [[Hc|Hc] Hd]; [done|]. specialize (H2 Hc). congruence.
Qed.

Lemma set_ok_sparse dl cs c : set_ok desc dl cs → c ∈ drop dl cs ↔ c ∈ cs ∧ cd_storage (desc c) = Sparse.
Proof.
  intros Hs. rewrite <- (take_drop dl cs) at 2. rewrite elem_of_app.
  pose proof (proj1 (Forall_forall _ _) (so_dense _ _ _ Hs) c) as H1.
  pose proof (proj1 (Forall_forall _ _) (so_sparse _ _ _ Hs) c) as H2. cbn in *.
  split; [naive_solver|]. intros [[Hc|Hc] Hd]; [|done]. specialize (H1 Hc). congruence.
Qed.

(** The clock, the allocator and the logs are not part of the invariant. *)
Lemma world_inv_same w w' :
  world_inv desc known w → w_entities w' = w_entities w → w_bundles w' = w_bundles w →
  w_archetypes w' = w_archetypes w → w_tables w' = w_tables w → w_maps w' = w_maps w → world_inv desc known w'.
Proof.
  destruct w, w'. cbn. intros [Hreg Hrow] -> -> -> -> ->. split; [exact Hreg|]. destruct Hrow. by split.
Qed.

(** ** Where an entity is *)

Lemma rows_arche w e i r :
  rows_ok w → apos (w_entities w) e = Some (i, r) →
  ∃ a, as_arches (w_archetypes w) !! i = Some a ∧ ar_entities a !! r = Some e ∧ arche_of w e = Some a.
Proof.
  intros Hr Hp. pose proof Hp as (v & Hv & He)%(rw_arches _ _ Hr). rewrite list_lookup_fmap in Hv.
  apply fmap_Some in Hv as (a & Ha & ->). exists a. split; [done|]. split; [done|].
  unfold arche_of. by rewrite Hp.
Qed.

Lemma rows_table w e i r :
  rows_ok w → tpos (w_entities w) e = Some (i, r) →
  ∃ t, ts_tables (w_tables w) !! i = Some t ∧ tbl_entities t !! r = Some e ∧ table_ok info t ∧ table_live t.
Proof.
  intros Hr Hp. apply (rw_tables _ _ Hr) in Hp as (v & Hv & He). rewrite list_lookup_fmap in Hv.
  apply fmap_Some in Hv as (t & Ht & ->). exists t. split; [done|]. split; [done|]. by apply (rw_table_ok _ _ Hr i).
Qed.

(** Everything known about a located entity. *)
Lemma rows_entity w e l :
  world_inv desc known w → located (w_entities w) e = Some l →
  ∃ a t, as_arches (w_archetypes w) !! Z.to_nat (arche_id l) = Some a ∧
    ts_tables (w_tables w) !! Z.to_nat (table_id l) = Some t ∧
    Z.to_nat (table_id l) = ar_table_id a ∧
    ar_entities a !! Z.to_nat (arche_row l) = Some e ∧ tbl_entities t !! Z.to_nat (table_row l) = Some e ∧
    arche_of w e = Some a ∧ table_ok info t ∧ table_live t ∧
    tbl_components t = Archetype_dense_components a ∧
    arche_ok desc known (shape w) (Z.to_nat (arche_id l)) (cleared a).
Proof.
  intros [Hreg Hrow] Hl.
  assert (Ha : apos (w_entities w) e = Some (Z.to_nat (arche_id l), Z.to_nat (arche_row l))) by (unfold apos; by rewrite Hl).
  assert (Ht : tpos (w_entities w) e = Some (Z.to_nat (table_id l), Z.to_nat (table_row l))) by (unfold tpos; by rewrite Hl).
  destruct (rows_arche w e _ _ Hrow Ha) as (a & Hi & He & Hof).
  destruct (rows_table w e _ _ Hrow Ht) as (t & Hti & Hte & Hok & Hlive).
  pose proof (rw_link _ _ Hrow e _ _ a Ha Ht Hi) as Hlink. cbn in Hlink.
  pose proof (ro_arche _ _ _ Hreg _ _ (shape_arche w _ _ Hi)) as Hao.
  exists a, t. repeat (split; [done|]). split; [|done].
  pose proof (ao_table _ _ _ _ _ Hao) as Hx. cbn in Hx. rewrite <- Hlink, list_lookup_fmap, Hti in Hx.
  by injection Hx.
Qed.

Lemma Archetype_dealloc_spec a r :
  r < length (ar_entities a) →
  ∃ es, Archetype_dealloc_row a r
        = Ret (MovedEntityRow_in_arche (moved_last (ar_entities a) r) (Z.of_nat r), arche_set_entities a es) ∧
        swap_removed (ar_entities a) es r.
Proof.
  intros Hr. unfold Archetype_dealloc_row, moved_last.
  destruct (ar_entities a) as [|x0 l0] eqn:El; [cbn in Hr; lia|]. rewrite decide_False by done. rewrite <- El in *.
  destruct (decide (r = length (ar_entities a) - 1)) as [->|Hne].
  - eexists. split; [done|]. apply swap_removed_last.
  - destruct (lookup_lt_is_Some_2 (ar_entities a) (length (ar_entities a) - 1)) as [x Hx]; [lia|].
    destruct (Vec_move_last_to_spec (ar_entities a) r x) as (es & -> & Hes); [lia|done|].
    cbn. rewrite Hx. eauto.
Qed.

(** ** Reading a row *)

Lemma row_cell t e r k c col :
  table_ok info t → tbl_entities t !! r = Some e → tbl_components t !! k = Some c → tbl_columns t !! k = Some col →
  Table_lookup t e c = Some (Column_cell col r) ∧ col_drops col = has_dropper (info c).
Proof.
  intros Hok He Hc Hcol. split.
  - rewrite (Table_lookup_row info t e c r Hok He), (proj2 (get_table_col_Some info t c k Hok) Hc). cbn. by rewrite Hcol.
  - destruct (Forall2_lookup_lr _ _ _ _ _ _ (ok_columns _ _ Hok) Hc Hcol) as (_ & _ & ?). done.
Qed.

(** The columns of a row, seen through the components. *)
Lemma row_zip {B} (f : Z → Column → B) (g : Z → option cell → B) t e r :
  table_ok info t → tbl_entities t !! r = Some e →
  (∀ c col, col_drops col = has_dropper (info c) → f c col = g c (Some (Column_cell col r))) →
  zip_with f (tbl_components t) (tbl_columns t) = (λ c, g c (Table_lookup t e c)) <$> tbl_components t.
Proof.
  intros Hok He Hfg. pose proof (Forall2_length _ _ _ (ok_columns _ _ Hok)) as Hlen.
  apply list_eq. intros k. rewrite lookup_zip_with, list_lookup_fmap.
  destruct (tbl_components t !! k) as [c|] eqn:Hc; [|done]. cbn.
  destruct (lookup_lt_is_Some_2 (tbl_columns t) k) as [col Hcol]; [apply lookup_lt_Some in Hc; lia|].
  rewrite Hcol. cbn. destruct (row_cell t e r k c col Hok He Hc Hcol) as [-> Hd]. by rewrite Hfg.
Qed.

Lemma row_values_spec t e r :
  table_ok info t → tbl_entities t !! r = Some e →
  row_values t r = concat ((λ c, cell_drop (has_dropper (info c)) (Table_lookup t e c)) <$> tbl_components t).
Proof.
  intros Hok He. unfold row_values. f_equal.
  rewrite <- (row_zip (λ _ col, dropped_value r col) (λ c, cell_drop (has_dropper (info c))) t e r Hok He).
  - (* the components do not matter *)
    pose proof (Forall2_length _ _ _ (ok_columns _ _ Hok)) as Hlen. revert Hlen. generalize (tbl_components t).
    induction (tbl_columns t) as [|col cols IH]; intros [|c cs]; cbn; try done. intros [= Hlen]. f_equal. by apply IH.
  - intros c col Hd. unfold dropped_value. cbn. by rewrite Hd.
Qed.

Lemma left_behind_spec DROP t e r comps :
  table_ok info t → tbl_entities t !! r = Some e →
  left_behind DROP comps r (tbl_components t) (tbl_columns t)
  = concat ((λ c, if decide (c ∈ comps) then [] else cell_drop (DROP && has_dropper (info c)) (Table_lookup t e c))
              <$> tbl_components t).
Proof.
  intros Hok He. unfold left_behind. f_equal.
  apply (row_zip _ (λ c x, if decide (c ∈ comps) then [] else cell_drop (DROP && has_dropper (info c)) x) t e r Hok He).
  intros c col Hd. case_decide; [done|]. unfold dropped_value. rewrite Hd. cbn. by destruct DROP, (has_dropper _).
Qed.

Lemma row_live t e r :
  table_ok info t → table_live t → tbl_entities t !! r = Some e → Forall (λ col, cell_live col r) (tbl_columns t).
Proof.
  intros Hok Hlive He. apply Forall_lookup_2. intros k col Hcol.
  destruct (Forall2_lookup_r _ _ _ _ _ (ok_columns _ _ Hok) Hcol) as (c & Hc & _).
  destruct (row_cell t e r k c col Hok He Hc Hcol) as [Hx _]. by apply Hlive in Hx.
Qed.

(** ** What is left alone *)

Lemma arche_of_frame w w' e :
  shape w' = shape w → fst <$> apos (w_entities w') e = fst <$> apos (w_entities w) e →
  cleared <$> arche_of w' e = cleared <$> arche_of w e.
Proof.
  intros Hsh Hp. unfold arche_of.
  destruct (apos (w_entities w') e) as [[i' r']|], (apos (w_entities w) e) as [[i r]|]; try done.
  cbn in *. injection Hp as ->. apply (f_equal sh_arches) in Hsh. cbn in Hsh.
  by rewrite <- !list_lookup_fmap, Hsh.
Qed.

Lemma link_frame w w' e p q a :
  shape w' = shape w → rows_ok w →
  fst <$> apos (w_entities w') e = fst <$> apos (w_entities w) e →
  fst <$> tpos (w_entities w') e = fst <$> tpos (w_entities w) e →
  apos (w_entities w') e = Some p → tpos (w_entities w') e = Some q →
  as_arches (w_archetypes w') !! p.1 = Some a → q.1 = ar_table_id a.
Proof.
  intros Hsh Hrow Hfa Hft Hp Hq Ha. rewrite Hp in Hfa. rewrite Hq in Hft.
  destruct (apos (w_entities w) e) as [p0|] eqn:Hp0; [|done].
  destruct (tpos (w_entities w) e) as [q0|] eqn:Hq0; [|done]. cbn in *. injection Hfa as Hfa. injection Hft as Hft.
  apply shape_arche in Ha. rewrite Hsh in Ha. apply shape_arche_inv in Ha as (a0 & Ha0 & Hc).
  rewrite Hfa in Ha0. rewrite Hft, (rw_link _ _ Hrow e p0 q0 a0 Hp0 Hq0 Ha0).
  by rewrite (f_equal ar_table_id Hc : ar_table_id a = ar_table_id a0).
Qed.

(** The archetype of an entity that kept it, for what does not depend on rows. *)
Lemma arche_of_sparse w w' e c :
  cleared <$> arche_of w' e = cleared <$> arche_of w e →
  (∃ a, arche_of w' e = Some a ∧ c ∈ Archetype_sparse_components a) ↔
  (∃ a, arche_of w e = Some a ∧ c ∈ Archetype_sparse_components a).
Proof.
  destruct (arche_of w' e) as [a'|], (arche_of w e) as [a|]; intros Ha; try done. apply (inj Some) in Ha.
  pose proof (f_equal Archetype_sparse_components Ha : Archetype_sparse_components a' = Archetype_sparse_components a) as Hs.
  split; intros (a0 & [= <-] & Hc); eexists; (split; [done|]); congruence.
Qed.

Lemma same_entity_frame w w' e :
  shape w' = shape w → fst <$> apos (w_entities w') e = fst <$> apos (w_entities w) e →
  (∀ i c, (t ← ts_tables (w_tables w') !! i; Table_lookup t e c) = (t ← ts_tables (w_tables w) !! i; Table_lookup t e c)) →
  (∀ c, map_get (w_maps w') c e = map_get (w_maps w) c e) → same_entity w w' e.
Proof.
  intros Hsh Hp Ht Hm.
  pose proof (arche_of_frame w w' e Hsh Hp) as Ha.
  unfold same_entity, World_components, World_get.
  destruct (arche_of w' e) as [a'|], (arche_of w e) as [a|]; try done. cbn in *. apply (inj Some) in Ha.
  split; [by rewrite (f_equal ar_components Ha : ar_components a' = ar_components a)|]. intros c.
  rewrite (f_equal Archetype_dense_components Ha : Archetype_dense_components a' = Archetype_dense_components a).
  rewrite (f_equal ar_table_id Ha : ar_table_id a' = ar_table_id a).
  case_decide; [apply Ht|apply Hm].
Qed.

(** An operation on one entity [e] that registers nothing: what remains to show
    is where [e] is and what the maps hold for it. *)
Lemma rows_update w w' e :
  rows_ok w → shape w' = shape w → Entities_wf (w_entities w') →
  placed (apos (w_entities w')) (ar_entities <$> as_arches (w_archetypes w')) →
  placed (tpos (w_entities w')) (tbl_entities <$> ts_tables (w_tables w')) →
  (∀ i t, ts_tables (w_tables w') !! i = Some t → table_ok info t ∧ table_live t) →
  maps_ok desc (w_maps w') →
  (∀ e', e' ≠ e → fst <$> apos (w_entities w') e' = fst <$> apos (w_entities w) e' ∧
                  fst <$> tpos (w_entities w') e' = fst <$> tpos (w_entities w) e' ∧
                  ∀ c, map_get (w_maps w') c e' = map_get (w_maps w) c e') →
  (∀ p q a, apos (w_entities w') e = Some p → tpos (w_entities w') e = Some q →
            as_arches (w_archetypes w') !! p.1 = Some a → q.1 = ar_table_id a) →
  (∀ c, is_Some (map_get (w_maps w') c e) ↔ ∃ a, arche_of w' e = Some a ∧ c ∈ Archetype_sparse_components a) →
  (∀ c x, map_get (w_maps w') c e = Some x → written x) →
  rows_ok w'.
Proof.
  intros Hrow Hsh Hwf Ha Ht Htab Hmaps Hother Hlink Hsp Hlive. split; try done.
  - intros e'. destruct (decide (e' = e)) as [->|Hne]; [done|].
    destruct (Hother e' Hne) as (? & ? & _). intros p q a. by apply (link_frame w).
  - intros c e'. destruct (decide (e' = e)) as [->|Hne]; [done|]. destruct (Hother e' Hne) as (? & _ & ->).
    rewrite (rw_sparse _ _ Hrow c e'). symmetry. by apply arche_of_sparse, arche_of_frame.
  - intros c e' x. destruct (decide (e' = e)) as [->|Hne]; [by apply Hlive|].
    destruct (Hother e' Hne) as (_ & _ & ->). apply Hrow.
Qed.

Lemma World_get_dense w e a t c :
  arche_of w e = Some a → ts_tables (w_tables w) !! ar_table_id a = Some t →
  c ∈ Archetype_dense_components a → World_get w e c = Table_lookup t e c.
Proof. intros Ha Ht Hc. unfold World_get. rewrite Ha. cbn. by rewrite decide_True, Ht by done. Qed.

Lemma World_get_sparse w e a c :
  arche_of w e = Some a → set_ok desc (ar_dense_len a) (ar_components a) →
  c ∈ Archetype_sparse_components a → World_get w e c = map_get (w_maps w) c e.
Proof.
  intros Ha Hs Hc. unfold World_get. rewrite Ha. cbn. rewrite decide_False; [done|]. intros Hd.
  pose proof (proj1 (Forall_forall _ _) (so_dense _ _ _ Hs) c Hd) as X1.
  pose proof (proj1 (Forall_forall _ _) (so_sparse _ _ _ Hs) c Hc) as X2. cbn in *. congruence.
Qed.

(** Values of an entity: those in its table, then those in the maps. *)
Lemma entity_values_split w e a t (f : Z → bool) :
  arche_of w e = Some a → set_ok desc (ar_dense_len a) (ar_components a) →
  ts_tables (w_tables w) !! ar_table_id a = Some t →
  entity_values desc w e (filter (λ c, f c = true) (ar_components a))
  = concat ((λ c, cell_drop (has_dropper (info c)) (Table_lookup t e c)) <$> filter (λ c, f c = true) (Archetype_dense_components a)) ++
    concat ((λ c, cell_drop (has_dropper (info c)) (map_get (w_maps w) c e)) <$> filter (λ c, f c = true) (Archetype_sparse_components a)).
Proof.
  intros Ha Hs Ht. unfold entity_values. rewrite <- (take_drop (ar_dense_len a) (ar_components a)) at 1.
  rewrite filter_app, fmap_app, concat_app. f_equal; f_equal; apply list_fmap_ext; intros k c Hc; f_equal;
    apply list_elem_of_lookup_2, list_elem_of_filter in Hc as [_ Hc].
  - by apply (World_get_dense w e a t).
  - by apply (World_get_sparse w e a).
Qed.

Lemma table_frame (ts : list Table) j t t' e i c :
  ts !! j = Some t → (∀ c, Table_lookup t' e c = Table_lookup t e c) →
  (t0 ← <[j := t']> ts !! i; Table_lookup t0 e c) = (t0 ← ts !! i; Table_lookup t0 e c).
Proof.
  intros Hj Ht. destruct (decide (i = j)) as [->|Hne].
  - rewrite list_lookup_insert_eq, Hj by (by eapply lookup_lt_Some). apply Ht.
  - by rewrite list_lookup_insert_ne by done.
Qed.
End lemmas.
