(* ===== verification/WorldRegister.v ===== *)
(** * Registration

    Registering bundles, archetypes, tables and maps
    ([world/methods/register.rs], [world/methods/arche.rs]): whatever is
    registered stays, entities keep their components and values, and the
    invariant is preserved. *)

From Stdlib Require Import ZArith Lia Sorting.Sorted.
From stdpp Require Import relations.
From S2P Require Import Prelude Tick EntityIdent EntityInfo FreeCount FreeBuffer Allocator Column Table SparseMap.
From S2P Require Import Locations Registry Collector World WorldInv.

(** ** Shapes that grow *)

Record shape_le (s s' : Shape) : Prop := {
  sl_bundles : ∀ i b, bd_infos (sh_bundles s) !! i = Some b → bd_infos (sh_bundles s') !! i = Some b;
  sl_arches : ∀ i a, sh_arches s !! i = Some a →
    ∃ a', sh_arches s' !! i = Some a' ∧ (ar_dense_len a', ar_components a') = (ar_dense_len a, ar_components a);
  sl_amapper : ∀ cs i, sh_amapper s !! cs = Some i → sh_amapper s' !! cs = Some i;
  sl_tables : ∀ i cs, sh_tables s !! i = Some cs → sh_tables s' !! i = Some cs;
  sl_maps : ∀ c i, sh_maps s !! c = Some i → sh_maps s' !! c = Some i
}.

(** ** Worlds that grow *)

Definition same_set (a a' : Archetype) : Prop :=
  ar_entities a' = ar_entities a ∧ ar_table_id a' = ar_table_id a ∧ ar_dense_len a' = ar_dense_len a ∧
  ar_components a' = ar_components a ∧ ar_hooks a' = ar_hooks a ∧ ar_observers a' = ar_observers a.

Section register.
Context `{VecGrowth}.
Variable desc : Z → ComponentDesc.
Variable known : gset Z.
Notation info := (λ c, cd_info (desc c)).
Notation world_inv := (world_inv desc known).
Notation rows_ok := (rows_ok desc).
Notation registry_ok := (registry_ok desc known).
Notation arche_ok := (arche_ok desc known).

(** [w'] is [w] with more registered: empty archetypes, tables and maps, caches. *)
Record extends (w w' : World) : Prop := {
  ex_entities : w_entities w' = w_entities w;
  ex_alloc : w_allocator w' = w_allocator w;
  ex_fired : w_fired w' = w_fired w;
  ex_dropped : w_dropped w' = w_dropped w;
  ex_run : w_this_run w' = w_this_run w;
  ex_bundles : ∀ i b, bd_infos (w_bundles w) !! i = Some b → bd_infos (w_bundles w') !! i = Some b;
  ex_arches : ∀ i a, as_arches (w_archetypes w) !! i = Some a →
    ∃ a', as_arches (w_archetypes w') !! i = Some a' ∧ same_set a a';
  ex_arows : ∃ k, ar_entities <$> as_arches (w_archetypes w') = (ar_entities <$> as_arches (w_archetypes w)) ++ replicate k [];
  ex_trows : ∃ k, tbl_entities <$> ts_tables (w_tables w') = (tbl_entities <$> ts_tables (w_tables w)) ++ replicate k [];
  ex_tables : ∀ i t, ts_tables (w_tables w) !! i = Some t → ts_tables (w_tables w') !! i = Some t;
  ex_new_tables : ∀ i t, ts_tables (w_tables w') !! i = Some t →
    ts_tables (w_tables w) !! i = Some t ∨ (table_ok info t ∧ tbl_entities t = []);
  ex_maps_ok : maps_ok desc (w_maps w) → maps_ok desc (w_maps w');
  ex_map_get : ∀ c e, map_get (w_maps w') c e = map_get (w_maps w) c e;
  ex_new_maps : ∀ c m, map_of (w_maps w') c = Some m → map_of (w_maps w) c = Some m ∨ map_entities m = []
}.

Lemma extends_refl w : extends w w.
Proof.
  split; auto; try (exists 0; by rewrite app_nil_r).
  intros i a Ha. exists a. by repeat split.
Qed.

Lemma same_set_trans a b c : same_set a b → same_set b c → same_set a c.
Proof. unfold same_set. intuition congruence. Qed.

Lemma extends_trans w1 w2 w3 : extends w1 w2 → extends w2 w3 → extends w1 w3.
Proof.
  intros H1 H2. split.
  - by rewrite (ex_entities _ _ H2), (ex_entities _ _ H1).
  - by rewrite (ex_alloc _ _ H2), (ex_alloc _ _ H1).
  - by rewrite (ex_fired _ _ H2), (ex_fired _ _ H1).
  - by rewrite (ex_dropped _ _ H2), (ex_dropped _ _ H1).
  - by rewrite (ex_run _ _ H2), (ex_run _ _ H1).
  - intros i b Hb. by apply H2, H1.
  - intros i a Ha. apply H1 in Ha as (a' & Ha' & Hs). apply H2 in Ha' as (a'' & Ha'' & Hs').
    exists a''. split; [done|]. by eapply same_set_trans.
  - destruct (ex_arows _ _ H1) as [k1 E1], (ex_arows _ _ H2) as [k2 E2]. exists (k1 + k2).
    by rewrite E2, E1, <- app_assoc, replicate_add.
  - destruct (ex_trows _ _ H1) as [k1 E1], (ex_trows _ _ H2) as [k2 E2]. exists (k1 + k2).
    by rewrite E2, E1, <- app_assoc, replicate_add.
  - intros i t Ht. by apply H2, H1.
  - intros i t [Ht|Ht]%(ex_new_tables _ _ H2); [|by right]. by apply H1.
  - intros Hm. by apply H2, H1.
  - intros c e. by rewrite (ex_map_get _ _ H2), (ex_map_get _ _ H1).
  - intros c m [Hm|Hm]%(ex_new_maps _ _ H2); [|by right]. by apply H1.
Qed.

Lemma placed_replicate pos vs k : placed pos vs → placed pos (vs ++ replicate k []).
Proof.
  intros Hp. induction k as [|k IH]; [by rewrite app_nil_r|].
  rewrite replicate_S_end, app_assoc. by apply placed_register.
Qed.

Lemma extends_arche_of w w' e a :
  extends w w' → arche_of w e = Some a → ∃ a', arche_of w' e = Some a' ∧ same_set a a'.
Proof.
  intros Hex (p & Hp & Ha)%bind_Some. unfold arche_of. rewrite (ex_entities _ _ Hex), Hp. cbn. by apply Hex.
Qed.

Lemma extends_arche_of_inv w w' e a' :
  rows_ok w → extends w w' → arche_of w' e = Some a' → ∃ a, arche_of w e = Some a ∧ same_set a a'.
Proof.
  intros Hrow Hex Ha'. pose proof Ha' as (p & Hp & _)%bind_Some. rewrite (ex_entities _ _ Hex) in Hp. destruct p as [i r].
  destruct (rows_arche desc w e i r Hrow Hp) as (a & _ & _ & Ha). exists a. split; [done|].
  destruct (extends_arche_of w w' e a Hex Ha) as (a0 & Ha0 & Hs). by simplify_eq.
Qed.

Lemma extends_rows w w' : rows_ok w → extends w w' → rows_ok w'.
Proof.
  intros Hrow Hex. split.
  - rewrite (ex_entities _ _ Hex). apply Hrow.
  - rewrite (ex_entities _ _ Hex). destruct (ex_arows _ _ Hex) as [k ->]. apply placed_replicate, Hrow.
  - rewrite (ex_entities _ _ Hex). destruct (ex_trows _ _ Hex) as [k ->]. apply placed_replicate, Hrow.
  - rewrite (ex_entities _ _ Hex). intros e [i r] q a' Hp Hq Ha'. cbn in Ha'.
    destruct (rows_arche desc w e i r Hrow Hp) as (a & Ha & _ & _).
    rewrite (rw_link _ _ Hrow e (i, r) q a Hp Hq Ha). apply (ex_arches _ _ Hex) in Ha as (a0 & Ha0 & Hs). simplify_eq.
    symmetry. apply Hs.
  - intros i t [Ht|[Hok He]]%(ex_new_tables _ _ Hex); [by apply (rw_table_ok _ _ Hrow i)|]. split; [done|].
    intros e c x. unfold Table_lookup, Table_get_table_row. by rewrite He.
  - apply Hex, Hrow.
  - intros c e. rewrite (ex_map_get _ _ Hex), (rw_sparse _ _ Hrow). split; intros (a & Ha & Hc).
    + destruct (extends_arche_of w w' e a Hex Ha) as (a' & Ha' & _ & _ & Hd & Hcs & _). exists a'. split; [done|].
      unfold Archetype_sparse_components in *. congruence.
    + destruct (extends_arche_of_inv w w' e a Hrow Hex Ha) as (a' & Ha' & _ & _ & Hd & Hcs & _). exists a'. split; [done|].
      unfold Archetype_sparse_components in *. congruence.
  - intros c e x. rewrite (ex_map_get _ _ Hex). apply Hrow.
Qed.

Lemma extends_same w w' e :
  world_inv w → extends w w' → same_entity w w' e.
Proof.
  intros [Hreg Hrow] Hex. unfold same_entity, World_components, World_get. destruct (arche_of w e) as [a|] eqn:Ha.
  - destruct (extends_arche_of w w' e a Hex Ha) as (a' & -> & _ & Ht & Hd & Hcs & _). cbn. split; [congruence|].
    intros c. unfold Archetype_dense_components. rewrite Ht, Hd, Hcs, (ex_map_get _ _ Hex). case_decide; [|done].
    apply bind_Some in Ha as ([i r] & Hp & Ha). cbn in Ha.
    pose proof (ao_table _ _ _ _ _ (ro_arche _ _ _ Hreg _ _ (shape_arche w _ _ Ha))) as Hx. cbn in Hx.
    rewrite list_lookup_fmap in Hx. apply fmap_Some in Hx as (t & Htt & _).
    by rewrite Htt, (ex_tables _ _ Hex _ _ Htt).
  - destruct (arche_of w' e) as [a'|] eqn:Ha'; [|done].
    destruct (extends_arche_of_inv w w' e a' Hrow Hex Ha') as (? & ? & _). congruence.
Qed.

Lemma arche_ok_mono s s' i a : shape_le s s' → arche_ok s i a → arche_ok s' i a.
Proof.
  intros Hle Ha. split; try apply Ha.
  - by apply Hle, Ha.
  - intros c [j Hj]%(ao_maps _ _ _ _ _ Ha). exists j. by apply Hle.
  - by apply Hle, Ha.
  - intros b i' (bi & a' & Hb & Ha' & Heq)%(ao_insert _ _ _ _ _ Ha).
    apply (sl_arches _ _ Hle) in Ha' as (a2 & Ha2 & Heq2). exists bi, a2. split; [by apply Hle|]. split; [done|]. congruence.
  - intros b i' (bi & a' & Hb & Ha' & Heq)%(ao_remove _ _ _ _ _ Ha).
    apply (sl_arches _ _ Hle) in Ha' as (a2 & Ha2 & Heq2). exists bi, a2. split; [by apply Hle|]. split; [done|]. congruence.
Qed.

(** ** Writing a cache *)

Lemma put_arche_extends w i a a' :
  as_arches (w_archetypes w) !! i = Some a → same_set a a' → extends w (put_arche w i a').
Proof.
  intros Ha Hs. split; cbn; auto.
  - intros j b Hb. destruct (decide (j = i)) as [->|Hne].
    + simplify_eq. exists a'. by rewrite list_lookup_insert_eq by (by eapply lookup_lt_Some).
    + exists b. rewrite list_lookup_insert_ne by done. by repeat split.
  - exists 0. rewrite app_nil_r. eapply fmap_insert_same; [done|]. apply Hs.
  - exists 0. by rewrite app_nil_r.
Qed.

Lemma put_arche_inv w i a a' :
  world_inv w → as_arches (w_archetypes w) !! i = Some a → same_set a a' →
  arche_ok (shape w) i (cleared a') → world_inv (put_arche w i a').
Proof.
  intros [Hreg Hrow] Ha Hs Hok. split; [|by eapply extends_rows, put_arche_extends].
  assert (Hle : shape_le (shape w) (shape (put_arche w i a'))).
  { split; auto. intros j b. cbn. rewrite list_fmap_insert. intros Hb. destruct (decide (j = i)) as [->|Hne].
    - exists (cleared a'). rewrite list_lookup_insert_eq by (by eapply lookup_lt_Some). split; [done|].
      rewrite list_lookup_fmap, Ha in Hb. injection Hb as <-. cbn. destruct Hs as (_ & _ & -> & -> & _). done.
    - exists b. by rewrite list_lookup_insert_ne. }
  assert (Hget : ∀ j b, sh_arches (shape (put_arche w i a')) !! j = Some b →
                 j = i ∧ b = cleared a' ∨ sh_arches (shape w) !! j = Some b).
  { intros j b. cbn. rewrite list_fmap_insert. intros [(-> & <- & _)|[_ Hb]]%list_lookup_insert_Some; [by left|by right]. }
  split.
  - split; apply Hreg.
  - intros j b [[-> ->]|Hb]%Hget; eapply arche_ok_mono; try done. by apply Hreg.
  - intros cs j (b & Hb & <-)%(ro_amapper _ _ _ Hreg). apply (sl_arches _ _ Hle) in Hb as (b' & Hb' & [= _ Heq]). eauto.
  - intros b j (bi & x & Hbi & Hx & Heq)%(ro_abundles _ _ _ Hreg).
    apply (sl_arches _ _ Hle) in Hx as (x' & Hx' & [= _ Heq']). exists bi, x'. split; [done|]. split; [done|]. congruence.
  - apply Hreg.
  - destruct (ro_empty _ _ _ Hreg) as (b & Hb & Hc & Ht). destruct (decide (i = 0)) as [->|Hne].
    + exists (cleared a'). cbn. rewrite list_fmap_insert, list_lookup_insert_eq by (rewrite length_fmap; by eapply lookup_lt_Some).
      cbn in Hb. rewrite list_lookup_fmap, Ha in Hb. injection Hb as <-. cbn in *.
      destruct Hs as (_ & -> & _ & -> & _). done.
    + exists b. cbn. rewrite list_fmap_insert, list_lookup_insert_ne by done. done.
Qed.

(** ** Maps and tables *)

Lemma next_id_ok n : (Z.of_nat n < u32_max)%Z → next_id n = Ret n.
Proof. intros Hn. unfold next_id. by rewrite decide_True. Qed.

(** What registering maps does. *)
Record maps_grown (maps maps' : Maps) (ids : list Z) : Prop := {
  mg_ok : maps_ok desc maps';
  mg_mono : ∀ c i, ms_mapper maps !! c = Some i → ms_mapper maps' !! c = Some i;
  mg_has : ∀ c, c ∈ ids → is_Some (ms_mapper maps' !! c);
  mg_get : ∀ c e, map_get maps' c e = map_get maps c e;
  mg_new : ∀ c m, map_of maps' c = Some m → map_of maps c = Some m ∨ map_entities m = [];
  mg_len : length (ms_maps maps') ≤ length (ms_maps maps) + length ids
}.

Lemma Maps_prepare_spec maps c :
  maps_ok desc maps → (Z.of_nat (length (ms_maps maps)) < u32_max)%Z →
  ∃ maps', Maps_prepare desc maps c = Ret maps' ∧ maps_grown maps maps' [c].
Proof.
  intros Hok Hlen. unfold Maps_prepare. destruct (ms_mapper maps !! c) as [i|] eqn:Hc.
  { exists maps. split; [done|]. split; auto; [|cbn; lia]. intros c' ->%list_elem_of_singleton. eauto. }
  rewrite next_id_ok by done. cbn [mbind outcome_bind]. eexists. split; [done|].
  assert (Hlt : ∀ c' i, ms_mapper maps !! c' = Some i → i < length (ms_maps maps)).
  { intros c' i Hi. apply (mp_shape _ _ Hok) in Hi as (m & _ & Hm & _). by eapply lookup_lt_Some. }
  assert (Hof : ∀ c', map_of (mkMaps (ms_maps maps ++ [Map_new (Z.of_nat (length (ms_maps maps))) c (info c)])
                        (<[c := length (ms_maps maps)]> (ms_mapper maps))) c'
                = if decide (c' = c) then Some (Map_new (Z.of_nat (length (ms_maps maps))) c (info c)) else map_of maps c').
  { intros c'. unfold map_of. cbn. case_decide as Hcc; [subst|].
    - rewrite lookup_insert_eq. cbn. by rewrite lookup_app_r, Nat.sub_diag by done.
    - rewrite lookup_insert_ne by done. destruct (ms_mapper maps !! c') as [i|] eqn:Hi; [|done]. cbn.
      by rewrite lookup_app_l by (by eapply Hlt). }
  split; cbn.
  - split; cbn.
    + intros c' i. rewrite lookup_insert_Some. intros [[<- <-]|[Hne Hi]].
      * eexists _, 0. rewrite lookup_app_r, Nat.sub_diag by done. split; [done|]. apply Map_new_shape.
      * apply (mp_shape _ _ Hok) in Hi as (m & hw & Hm & Hs). exists m, hw. split; [|done].
        rewrite lookup_app_l; [done|by eapply lookup_lt_Some].
    + intros c1 c2 i. rewrite !lookup_insert_Some. intros [[<- <-]|[_ H1]] [[<- H2]|[_ H2]]; auto.
      * apply Hlt in H2. lia.
      * subst. apply Hlt in H1. lia.
      * by eapply mp_inj.
  - intros c' i Hi. rewrite lookup_insert_ne; [done|]. congruence.
  - intros c' ->%list_elem_of_singleton. rewrite lookup_insert_eq. eauto.
  - intros c' e. unfold map_get. rewrite Hof. case_decide; [subst|done]. cbn. unfold map_of. by rewrite Hc.
  - intros c' m. rewrite Hof. case_decide; [|by left]. intros [= <-]. by right.
  - rewrite length_app. cbn. lia.
Qed.

Lemma Maps_register_spec maps ids :
  maps_ok desc maps → (Z.of_nat (length (ms_maps maps) + length ids) ≤ u32_max)%Z →
  ∃ maps', Maps_register desc maps ids = Ret maps' ∧ maps_grown maps maps' ids.
Proof.
  revert maps. induction ids as [|c ids IH]; intros maps Hok Hlen; cbn.
  { exists maps. split; [done|]. split; auto; [|lia]. by intros c ?%elem_of_nil. }
  destruct (Maps_prepare_spec maps c Hok) as (m1 & -> & H1); [cbn in Hlen; lia|]. cbn [mbind outcome_bind].
  pose proof (mg_len _ _ _ H1) as L1. cbn in L1, Hlen.
  destruct (IH m1) as (m2 & -> & H2); [apply H1|lia|]. exists m2. split; [done|]. split.
  - apply H2.
  - intros c' i Hi. by apply H2, H1.
  - intros c' [->|Hc]%elem_of_cons; [|by apply H2]. destruct (mg_has _ _ _ H1 c ltac:(set_solver)) as [i Hi].
    exists i. by apply H2.
  - intros c' e. by rewrite (mg_get _ _ _ H2), (mg_get _ _ _ H1).
  - intros c' m [Hm|Hm]%(mg_new _ _ _ H2); [|by right]. by apply H1.
  - pose proof (mg_len _ _ _ H2). cbn. lia.
Qed.

Lemma Tables_register_spec w cs :
  registry_ok (shape w) → StronglySorted Z.lt cs → (Z.of_nat (length (ts_tables (w_tables w))) < u32_max)%Z →
  ∃ i ts, Tables_register desc (w_tables w) cs = Ret (i, ts) ∧
    (ts = w_tables w ∧ sh_tables (shape w) !! i = Some cs ∨
     i = length (ts_tables (w_tables w)) ∧
     ts = mkTables (ts_tables (w_tables w) ++ [Table_new info (Z.of_nat i) cs]) (<[cs := i]> (ts_mapper (w_tables w))) ∧
     ts_mapper (w_tables w) !! cs = None).
Proof.
  intros Hreg Hs Hlen. unfold Tables_register. destruct (ts_mapper (w_tables w) !! cs) as [i|] eqn:Hi.
  - exists i, (w_tables w). split; [done|]. left. split; [done|]. by apply (ro_tmapper _ _ _ Hreg).
  - rewrite next_id_ok by done. cbn [mbind outcome_bind]. eexists _, _. split; [done|]. right. done.
Qed.

(** ** Storages of a component set *)

(** Room for an archetype with its storages, and for bundles. *)
Definition id_room (w : World) : Prop :=
  (Z.of_nat (length (as_arches (w_archetypes w))) < u32_max)%Z ∧
  (Z.of_nat (length (ts_tables (w_tables w))) < u32_max)%Z ∧
  (Z.of_nat (length (ms_maps (w_maps w)) + size known) ≤ u32_max)%Z.

Definition bundle_room (w : World) (n : nat) : Prop := (Z.of_nat (length (bd_infos (w_bundles w)) + n) ≤ u32_max)%Z.

Lemma subset_length (cs : list Z) : NoDup cs → (∀ c, c ∈ cs → c ∈ known) → length cs ≤ size known.
Proof.
  intros Hnd Hsub. rewrite <- (size_list_to_set (C := gset Z) cs Hnd). apply subseteq_size.
  intros c. rewrite elem_of_list_to_set. apply Hsub.
Qed.

Lemma register_storages_spec w cs dl :
  world_inv w → id_room w → set_ok desc dl cs → required_closed desc cs → (∀ c, c ∈ cs → c ∈ known) →
  as_mapper (w_archetypes w) !! cs = None →
  ∃ w' a, register_storages desc w cs dl = Ret (length (as_arches (w_archetypes w)), w') ∧
    world_inv w' ∧ extends w w' ∧ w_bundles w' = w_bundles w ∧ as_bundles (w_archetypes w') = as_bundles (w_archetypes w) ∧
    as_arches (w_archetypes w') !! length (as_arches (w_archetypes w)) = Some a ∧
    ar_dense_len a = dl ∧ ar_components a = cs.
Proof.
  intros [Hreg Hrow] (Hra & Hrt & Hrm) Hset Hcl Hk Hnone. unfold register_storages.
  assert (Hnd : NoDup cs) by by eapply set_ok_NoDup.
  destruct (Maps_register_spec (w_maps w) (drop dl cs)) as (maps & -> & Hmaps); [apply Hrow| |].
  { pose proof (subset_length cs Hnd Hk) as Hl. rewrite length_drop. lia. }
  cbn [mbind outcome_bind].
  destruct (Tables_register_spec w (take dl cs) Hreg) as (ti & ts & -> & Hts); [apply Hset|done|].
  cbn [mbind outcome_bind]. unfold Archetypes_register_unique. rewrite next_id_ok by done. cbn [mbind outcome_bind].
  set (n := length (as_arches (w_archetypes w))) in *. set (a := Archetype_new desc n ti dl cs).
  match goal with |- ∃ w' a, Ret (n, ?x) = _ ∧ _ => set (w' := x) end. exists w', a. split; [done|].
  assert (Hti : sh_tables (shape w') !! ti = Some (take dl cs) ∧
                ∀ i x, sh_tables (shape w) !! i = Some x → sh_tables (shape w') !! i = Some x).
  { cbn. destruct Hts as [[-> Hti]|(Hti & -> & _)]; [done|]. cbn. rewrite fmap_app. split.
    - by rewrite lookup_app_r, length_fmap, Hti, Nat.sub_diag by (rewrite length_fmap; lia).
    - intros i x Hx. by apply lookup_app_l_Some. }
  assert (Hle : shape_le (shape w) (shape w')).
  { split; cbn.
    - done.
    - intros i b Hb. exists b. rewrite fmap_app. split; [by apply lookup_app_l_Some|done].
    - intros cs' i Hi. rewrite lookup_insert_ne; [done|]. congruence.
    - apply Hti.
    - apply Hmaps. }
  assert (Hex : extends w w').
  { split; cbn; auto.
    - intros i b Hb. exists b. split; [by apply lookup_app_l_Some|]. by repeat split.
    - exists 1. by rewrite fmap_app.
    - destruct Hts as [[-> _]|(_ & -> & _)]; [exists 0; by rewrite app_nil_r|]. exists 1. cbn. by rewrite fmap_app.
    - intros i t Ht. destruct Hts as [[-> _]|(_ & -> & _)]; [done|]. by apply lookup_app_l_Some.
    - intros i t Ht. destruct Hts as [[-> _]|(_ & -> & _)]; [by left|]. cbn in Ht.
      apply lookup_app_Some in Ht as [?|[_ Ht]]; [by left|]. apply list_lookup_singleton_Some in Ht as [_ <-].
      right. split; [|done]. apply Table_new_ok, Hset.
    - intros _. apply Hmaps.
    - apply Hmaps.
    - apply Hmaps. }
  assert (Hnew : as_arches (w_archetypes w') !! n = Some a) by (cbn; by rewrite lookup_app_r, Nat.sub_diag by done).
  assert (Hnew' : arche_ok (shape w') n (cleared a)).
  { split; cbn; auto; try done.
    - exact (proj1 Hti).
    - intros c Hc. by apply Hmaps.
    - apply lookup_insert_eq. }
  split; [|done]. split; [|by eapply extends_rows].
  split.
  - split; apply Hreg.
  - intros i b (b0 & Hb & ->)%shape_arche_inv. cbn in Hb. apply lookup_app_Some in Hb as [Hb|[Hlen Hb]].
    + eapply arche_ok_mono; [done|]. apply Hreg. by apply shape_arche.
    + apply list_lookup_singleton_Some in Hb as [Hi <-]. by replace i with n by (unfold n; lia).
  - intros cs' i. cbn. rewrite lookup_insert_Some, fmap_app. intros [[<- <-]|[Hne Hi]].
    + exists (cleared a). split; [|done]. by rewrite lookup_app_r, length_fmap, Nat.sub_diag by (by rewrite length_fmap).
    + apply (ro_amapper _ _ _ Hreg) in Hi as (b & Hb & Heq). exists b. split; [by apply lookup_app_l_Some|done].
  - intros b i Hb. apply (ro_abundles _ _ _ Hreg) in Hb as (bi & x & Hbi & Hx & Heq). exists bi, x. split; [done|]. split; [|done].
    cbn. rewrite fmap_app. by apply lookup_app_l_Some.
  - intros cs' i. cbn. destruct Hts as [[-> _]|(-> & -> & _)]; [apply (ro_tmapper _ _ _ Hreg)|]. cbn.
    rewrite lookup_insert_Some, fmap_app. intros [[<- <-]|[_ Hi]].
    + by rewrite lookup_app_r, length_fmap, Nat.sub_diag by (by rewrite length_fmap).
    + apply lookup_app_l_Some. by apply (ro_tmapper _ _ _ Hreg).
  - destruct (ro_empty _ _ _ Hreg) as (b & Hb & Hc & Ht). exists b. split; [|done]. cbn. rewrite fmap_app. by apply lookup_app_l_Some.
Qed.

(** ** Component sets *)

Lemma set_ok_app dense sparse :
  StronglySorted Z.lt dense → StronglySorted Z.lt sparse →
  (∀ c, c ∈ dense → cd_storage (desc c) = Dense) → (∀ c, c ∈ sparse → cd_storage (desc c) = Sparse) →
  set_ok desc (length dense) (dense ++ sparse).
Proof.
  intros Hd Hs HD HS. split; rewrite ?take_app_length, ?drop_app_length, ?length_app; auto; [lia| |];
    by apply Forall_forall.
Qed.

(** The storage of the components says where the dense part ends. *)
Lemma set_ok_len_unique dl dl' cs : set_ok desc dl cs → set_ok desc dl' cs → dl = dl'.
Proof.
  assert (Hlt : ∀ d d', set_ok desc d cs → set_ok desc d' cs → ¬ d < d').
  { intros d d' Hd Hd' Hl. pose proof (so_len _ _ _ Hd').
    destruct (lookup_lt_is_Some_2 cs d) as [c Hc]; [lia|].
    assert (c ∈ drop d cs) as [_ Hs]%(set_ok_sparse desc d cs c Hd).
    { apply list_elem_of_lookup. exists 0. by rewrite lookup_drop, Nat.add_0_r. }
    assert (c ∈ take d' cs) as [_ Hx]%(set_ok_dense desc d' cs c Hd').
    { apply list_elem_of_lookup. exists d. by rewrite lookup_take_lt. }
    congruence. }
  intros H1 H2. pose proof (Hlt _ _ H1 H2). pose proof (Hlt _ _ H2 H1). lia.
Qed.

Lemma set_of_ok c :
  collector_ok desc c → set_ok desc (set_of c).1 (set_of c).2 ∧ ∀ x, x ∈ (set_of c).2 ↔ x ∈ cl_collected c.
Proof.
  intros [Hd Hs]. unfold set_of, ComponentCollector_sorted. cbn. split.
  - apply set_ok_app; try apply sort_dedup_sorted; intros x; rewrite sort_dedup_elem; [rewrite Hd|rewrite Hs]; tauto.
  - intros x. rewrite elem_of_app, !sort_dedup_elem, Hd, Hs. destruct (cd_storage (desc x)); naive_solver.
Qed.

Lemma insert_target_ok a b :
  set_ok desc (ar_dense_len a) (ar_components a) → set_ok desc (bi_dense_len b) (bi_components b) →
  set_ok desc (insert_target a b).1 (insert_target a b).2 ∧
  ∀ c, c ∈ (insert_target a b).2 ↔ c ∈ ar_components a ∨ c ∈ bi_components b.
Proof.
  intros Ha Hb. unfold insert_target. cbn. unfold Archetype_dense_components, BundleInfo_dense_components,
    Archetype_sparse_components, BundleInfo_sparse_components. split.
  - apply set_ok_app; try apply sort_dedup_sorted; intros x; rewrite sort_dedup_elem, elem_of_app;
      rewrite ?(set_ok_dense desc _ _ _ Ha), ?(set_ok_dense desc _ _ _ Hb), ?(set_ok_sparse desc _ _ _ Ha),
        ?(set_ok_sparse desc _ _ _ Hb); tauto.
  - intros x. rewrite elem_of_app, !sort_dedup_elem, !elem_of_app.
    rewrite (set_ok_dense desc _ _ _ Ha), (set_ok_dense desc _ _ _ Hb), (set_ok_sparse desc _ _ _ Ha),
      (set_ok_sparse desc _ _ _ Hb). destruct (cd_storage (desc x)); naive_solver.
Qed.

Hypothesis known_closed : ∀ c r, c ∈ known → requires desc c r → r ∈ known.

Lemma collect_remaining_spec ids :
  (∀ c, c ∈ ids → c ∈ known) →
  ∃ c, collect_remaining desc (size known) ids = Ret c ∧ collector_ok desc c ∧ (∀ x, x ∈ cl_collected c → x ∈ known) ∧
    ∀ x, x ∈ cl_collected c ↔ ∃ y r, y ∈ ids ∧ requires desc y r ∧ rtc (requires desc) r x.
Proof.
  intros Hk. unfold collect_remaining. match goal with |- context [foldl ?f _ ids] => set (F := f) end.
  assert (Hgen : ∀ c0, collector_ok desc c0 → cl_collected c0 ⊆ known →
    ∃ c, foldl F (Ret c0) ids = Ret c ∧
         collected desc known (ids ≫= λ y, cd_required (desc y)) c0 c).
  { induction ids as [|y ids IH]; intros c0 Hok Hsub.
    { exists c0. split; [done|]. by apply collected_refl. }
    destruct (collect_list desc known (S (size known)) (ComponentCollector_collect_required desc (S (size known)))
                (cd_required (desc y)) c0) as (c1 & Hc1 & H1); auto.
    - intros. by apply collect_required_spec.
    - intros r Hr. apply (known_closed y); [apply Hk; set_solver|done].
    - apply Nat.lt_succ_r, subseteq_size. set_solver.
    - change (foldl F (Ret c0) (y :: ids)) with (foldl F (F (Ret c0) y) ids).
      assert (F (Ret c0) y = Ret c1) as -> by exact Hc1. destruct (IH ltac:(intros; apply Hk; set_solver) c1) as (c2 & -> & H2); [apply H1|apply H1|].
      exists c2. split; [done|]. by apply (collected_trans desc known _ _ c0 c1 c2). }
  destruct (Hgen ComponentCollector_new) as (c & -> & Hc); [apply collector_new_ok|cbn; set_solver|].
  exists c. split; [done|]. split; [apply Hc|]. split; [apply Hc|]. intros x.
  rewrite (collected_closure desc known _ c Hc x). unfold closure_of. setoid_rewrite list_elem_of_bind. naive_solver.
Qed.

(** What stays after removing a bundle: the other components and whatever they
    require. *)
Definition remaining (a : Archetype) (b : BundleInfo) : list Z :=
  filter (λ c, c ∉ bi_components b) (ar_components a).

Lemma remove_target_ok a b :
  set_ok desc (ar_dense_len a) (ar_components a) → set_ok desc (bi_dense_len b) (bi_components b) →
  required_closed desc (ar_components a) → (∀ c, c ∈ ar_components a → c ∈ known) →
  ∃ dl cs, remove_target desc known a b = Ret (dl, cs) ∧ set_ok desc dl cs ∧ required_closed desc cs ∧
    (∀ c, c ∈ cs ↔ closure_of desc (remaining a b) c) ∧ (∀ c, c ∈ cs → c ∈ ar_components a).
Proof.
  intros Ha Hb Hcl Hk. unfold remove_target.
  set (dense := filter _ (Archetype_dense_components a)). set (sparse := filter _ (Archetype_sparse_components a)).
  assert (Hrem : ∀ c, c ∈ remaining a b ↔ c ∈ ar_components a ∧ c ∉ bi_components b)
    by (intros c; unfold remaining; rewrite list_elem_of_filter; tauto).
  assert (Hdense : ∀ c, c ∈ dense ↔ c ∈ remaining a b ∧ cd_storage (desc c) = Dense).
  { intros c. unfold dense. rewrite list_elem_of_filter, Hrem. unfold Archetype_dense_components, BundleInfo_dense_components.
    rewrite (set_ok_dense desc _ _ _ Ha), (set_ok_dense desc _ _ _ Hb). tauto. }
  assert (Hsparse : ∀ c, c ∈ sparse ↔ c ∈ remaining a b ∧ cd_storage (desc c) = Sparse).
  { intros c. unfold sparse. rewrite list_elem_of_filter, Hrem. unfold Archetype_sparse_components, BundleInfo_sparse_components.
    rewrite (set_ok_sparse desc _ _ _ Ha), (set_ok_sparse desc _ _ _ Hb). tauto. }
  assert (Hids : ∀ c, c ∈ dense ++ sparse ↔ c ∈ remaining a b).
  { intros c. rewrite elem_of_app, Hdense, Hsparse. destruct (cd_storage (desc c)); naive_solver. }
  destruct (collect_remaining_spec (dense ++ sparse)) as (c & -> & [Hcd Hcs] & Hck & Hcx).
  { intros c [Hc _]%Hids%Hrem. by apply Hk. }
  cbn [mbind outcome_bind]. eexists _, _. split; [reflexivity|].
  assert (Hmem : ∀ x, x ∈ sort_dedup (cl_dense c ++ dense) ++ sort_dedup (cl_sparse c ++ sparse) ↔ closure_of desc (remaining a b) x).
  { intros x. rewrite elem_of_app, !sort_dedup_elem, !elem_of_app, Hcd, Hcs, Hdense, Hsparse, Hcx.
    transitivity ((∃ y r, y ∈ dense ++ sparse ∧ requires desc y r ∧ rtc (requires desc) r x) ∨ x ∈ remaining a b).
    { destruct (cd_storage (desc x)); naive_solver. }
    unfold closure_of. setoid_rewrite Hids. split.
    - intros [(y & r & Hy & Hr & Hx)|Hx]; [|by exists x]. exists y. split; [done|]. by eapply rtc_l.
    - intros (y & Hy & Hx). inversion Hx as [|? r ? Hr Hx']; subst; [by right|]. left. eauto. }
  split; [|split; [|split]].
  - apply set_ok_app; try apply sort_dedup_sorted; intros x; rewrite sort_dedup_elem, elem_of_app, ?Hcd, ?Hcs, ?Hdense, ?Hsparse; tauto.
  - intros x r Hx Hr. rewrite Hmem in Hx |- *. destruct Hx as (y & Hy & Hyx). exists y. split; [done|]. by eapply rtc_r.
  - exact Hmem.
  - intros x (y & [Hy _]%Hrem & Hyx)%Hmem. induction Hyx as [|y z x Hyz Hzx IH]; [done|]. apply IH. by eapply Hcl.
Qed.

(** ** Archetype transitions *)

Lemma find_or_register_spec w cs dl :
  world_inv w → id_room w → set_ok desc dl cs → required_closed desc cs → (∀ c, c ∈ cs → c ∈ known) →
  ∃ i w' a, find_or_register desc w cs dl = Ret (i, w') ∧ world_inv w' ∧ extends w w' ∧
    w_bundles w' = w_bundles w ∧ as_bundles (w_archetypes w') = as_bundles (w_archetypes w) ∧
    as_arches (w_archetypes w') !! i = Some a ∧ ar_dense_len a = dl ∧ ar_components a = cs.
Proof.
  intros Hinv Hroom Hset Hcl Hk. unfold find_or_register, Archetypes_get_id.
  destruct (as_mapper (w_archetypes w) !! cs) as [i|] eqn:Hi.
  - destruct (ro_amapper _ _ _ (proj1 Hinv) cs i Hi) as (a & Ha & Hc).
    pose proof (ao_set _ _ _ _ _ (ro_arche _ _ _ (proj1 Hinv) _ _ Ha)) as Hs.
    apply shape_arche_inv in Ha as (a0 & Ha0 & ->). cbn in Hc, Hs. exists i, w, a0.
    split; [done|]. split; [done|]. split; [apply extends_refl|]. repeat (split; [done|]). split; [|done].
    rewrite Hc in Hs. by eapply set_ok_len_unique.
  - destruct (register_storages_spec w cs dl Hinv Hroom Hset Hcl Hk Hi) as (w' & a & -> & Hrest). eauto 10.
Qed.

Lemma arche_after_insert_spec w i a b bi :
  world_inv w → id_room w → as_arches (w_archetypes w) !! i = Some a → bd_infos (w_bundles w) !! b = Some bi →
  required_closed desc (bi_components bi) → (∀ c, c ∈ bi_components bi → c ∈ known) →
  ∃ r w' a', World_arche_after_insert desc w i b = Ret (r, w') ∧ world_inv w' ∧ extends w w' ∧
    as_arches (w_archetypes w') !! r = Some a' ∧ (ar_dense_len a', ar_components a') = insert_target a bi.
Proof.
  intros Hinv Hroom Ha Hb Hcl Hk. pose proof (ro_arche _ _ _ (proj1 Hinv) _ _ (shape_arche w _ _ Ha)) as Hao.
  unfold World_arche_after_insert, Archetypes_get_unchecked, Bundles_get_unchecked. rewrite Ha. cbn [of_option mbind outcome_bind].
  destruct (ar_after_insert a !! b) as [r|] eqn:Hr.
  { destruct (ao_insert _ _ _ _ _ Hao b r Hr) as (bi' & a' & Hb' & Ha' & Heq). cbn in Hb'. simplify_eq.
    apply shape_arche_inv in Ha' as (a0 & Ha0 & ->). exists r, w, a0. repeat (split; [done|]).
    split; [apply extends_refl|]. split; [done|exact Heq]. }
  rewrite Hb. cbn [of_option mbind outcome_bind].
  pose proof (bo_set _ _ _ (ro_bundles _ _ _ (proj1 Hinv)) b bi Hb) as Hbs.
  destruct (insert_target_ok a bi) as [Hset Hmem]; [apply Hao|done|].
  destruct (find_or_register_spec w (insert_target a bi).2 (insert_target a bi).1)
    as (r & w1 & a' & Hf & Hinv1 & Hex & Hwb & _ & Ha' & Hdl & Hcs); auto.
  { intros c x Hc Hx. rewrite Hmem in Hc |- *. destruct Hc as [Hc|Hc]; [left; by eapply (ao_closed _ _ _ _ _ Hao)|right; by eapply Hcl]. }
  { intros c [Hc|Hc]%Hmem; [by apply (ao_known _ _ _ _ _ Hao)|by apply Hk]. }
  unfold insert_target in Hf. cbn [fst snd] in Hf. rewrite Hf. cbn [mbind outcome_bind].
  destruct (ex_arches _ _ Hex i a Ha) as (a1 & Ha1 & Hs1). rewrite Ha1. cbn [of_option mbind outcome_bind].
  assert (Hs2 : same_set a1 (Archetype_set_after_insert a1 b r)) by (by repeat split).
  pose proof (ro_arche _ _ _ (proj1 Hinv1) _ _ (shape_arche w1 _ _ Ha1)) as Hao1.
  assert (Htgt : insert_target a1 bi = insert_target a bi).
  { destruct Hs1 as (_ & _ & Hd & Hc & _). unfold insert_target, Archetype_dense_components, Archetype_sparse_components.
    by rewrite Hd, Hc. }
  assert (Hao2 : arche_ok (shape w1) i (cleared (Archetype_set_after_insert a1 b r))).
  { split; try apply Hao1. intros b' i'. cbn. rewrite lookup_insert_Some. intros [[<- <-]|[_ Hi']]; [|by apply (ao_insert _ _ _ _ _ Hao1)].
    exists bi, (cleared a'). cbn. rewrite Hwb. split; [done|]. split; [by rewrite list_lookup_fmap, Ha'|].
    change (insert_target (cleared _) bi) with (insert_target a1 bi). rewrite Htgt, Hdl, Hcs. by destruct (insert_target a bi). }
  pose proof (put_arche_inv w1 i a1 _ Hinv1 Ha1 Hs2 Hao2) as Hinv2.
  pose proof (put_arche_extends w1 i a1 _ Ha1 Hs2) as Hex2.
  destruct (ex_arches _ _ Hex2 r a' Ha') as (a2 & Ha2 & Hsa2).
  exists r, (put_arche w1 i (Archetype_set_after_insert a1 b r)), a2. split; [done|]. split; [done|].
  split; [by eapply extends_trans|]. split; [done|]. destruct Hsa2 as (_ & _ & -> & -> & _). rewrite Hdl, Hcs.
  by destruct (insert_target a bi).
Qed.

Lemma arche_after_remove_spec w i a b bi :
  world_inv w → id_room w → as_arches (w_archetypes w) !! i = Some a → bd_infos (w_bundles w) !! b = Some bi →
  ∃ r w' a', World_arche_after_remove desc (size known) w i b = Ret (r, w') ∧ world_inv w' ∧ extends w w' ∧
    as_arches (w_archetypes w') !! r = Some a' ∧ Ret (ar_dense_len a', ar_components a') = remove_target desc known a bi.
Proof.
  intros Hinv Hroom Ha Hb. pose proof (ro_arche _ _ _ (proj1 Hinv) _ _ (shape_arche w _ _ Ha)) as Hao.
  unfold World_arche_after_remove, Archetypes_get_unchecked, Bundles_get_unchecked. rewrite Ha. cbn [of_option mbind outcome_bind].
  destruct (ar_after_remove a !! b) as [r|] eqn:Hr.
  { destruct (ao_remove _ _ _ _ _ Hao b r Hr) as (bi' & a' & Hb' & Ha' & Heq). cbn in Hb'. simplify_eq.
    apply shape_arche_inv in Ha' as (a0 & Ha0 & ->). exists r, w, a0. repeat (split; [done|]).
    split; [apply extends_refl|]. split; [done|exact Heq]. }
  rewrite Hb. cbn [of_option mbind outcome_bind].
  pose proof (bo_set _ _ _ (ro_bundles _ _ _ (proj1 Hinv)) b bi Hb) as Hbs.
  destruct (remove_target_ok a bi) as (dl & cs & Htgt & Hset & Hcl & _ & Hsub); [apply Hao|done|apply Hao|apply Hao|].
  pose proof Htgt as Htgt'. unfold remove_target in Htgt'.
  destruct (collect_remaining desc (size known) _) as [c| |] eqn:Hc; try done.
  cbn [mbind outcome_bind] in Htgt' |- *. injection Htgt' as Hdl Hcs.
  destruct (find_or_register_spec w cs dl) as (r & w1 & a' & Hf & Hinv1 & Hex & Hwb & _ & Ha' & Hdl' & Hcs'); auto.
  { intros x Hx%Hsub. by apply (ao_known _ _ _ _ _ Hao). }
  rewrite Hcs, Hdl, Hf. cbn [mbind outcome_bind].
  destruct (ex_arches _ _ Hex i a Ha) as (a1 & Ha1 & Hs1). rewrite Ha1. cbn [of_option mbind outcome_bind].
  assert (Hs2 : same_set a1 (Archetype_set_after_remove a1 b r)) by (by repeat split).
  pose proof (ro_arche _ _ _ (proj1 Hinv1) _ _ (shape_arche w1 _ _ Ha1)) as Hao1.
  assert (Htgt1 : remove_target desc known a1 bi = remove_target desc known a bi).
  { destruct Hs1 as (_ & _ & Hd & Hcc & _). unfold remove_target, Archetype_dense_components, Archetype_sparse_components.
    by rewrite Hd, Hcc. }
  assert (Hao2 : arche_ok (shape w1) i (cleared (Archetype_set_after_remove a1 b r))).
  { split; try apply Hao1. intros b' i'. cbn. rewrite lookup_insert_Some. intros [[<- <-]|[_ Hi']]; [|by apply (ao_remove _ _ _ _ _ Hao1)].
    exists bi, (cleared a'). cbn. rewrite Hwb. split; [done|]. split; [by rewrite list_lookup_fmap, Ha'|].
    transitivity (remove_target desc known a1 bi); [|reflexivity].
    by rewrite Htgt1, Htgt, Hdl', Hcs'. }
  pose proof (put_arche_inv w1 i a1 _ Hinv1 Ha1 Hs2 Hao2) as Hinv2.
  pose proof (put_arche_extends w1 i a1 _ Ha1 Hs2) as Hex2.
  destruct (ex_arches _ _ Hex2 r a' Ha') as (a2 & Ha2 & Hsa2).
  exists r, (put_arche w1 i (Archetype_set_after_remove a1 b r)), a2. split; [done|]. split; [done|].
  split; [by eapply extends_trans|]. split; [done|]. destruct Hsa2 as (_ & _ & -> & -> & _). by rewrite Hdl', Hcs', Htgt.
Qed.

(** ** Bundles *)

Lemma set_bundles_spec w b :
  world_inv w → (∀ i bi, bd_infos (w_bundles w) !! i = Some bi → bd_infos b !! i = Some bi) →
  bundles_ok desc known (shape (set_bundles w b)) → world_inv (set_bundles w b) ∧ extends w (set_bundles w b).
Proof.
  intros [Hreg Hrow] Hmono Hok.
  assert (Hex : extends w (set_bundles w b)).
  { split; cbn; auto; try (exists 0; by rewrite app_nil_r). intros i a Ha. exists a. by repeat split. }
  split; [|done]. split; [|by eapply extends_rows].
  assert (Hle : shape_le (shape w) (shape (set_bundles w b))) by (split; auto; intros i a Ha; by exists a).
  split; try apply Hreg; [done| |].
  - intros i a Ha. eapply arche_ok_mono; [done|]. by apply Hreg.
  - intros j i Hj. destruct (ro_abundles _ _ _ Hreg j i Hj) as (bi & a & Hb & Ha & Heq). exists bi, a.
    split; [by apply Hmono|done].
Qed.

(** The identifier of a component set, with the maps left to their owner. *)
Lemma Bundles_intern_spec w dl cs :
  world_inv w → bundle_room w 1 → set_ok desc dl cs →
  ∃ id b bi, Bundles_intern (w_bundles w) cs dl = Ret (id, b) ∧ bd_infos b !! id = Some bi ∧
    (bi_dense_len bi, bi_components bi) = (dl, cs) ∧
    (∀ i x, bd_infos (w_bundles w) !! i = Some x → bd_infos b !! i = Some x) ∧
    (∀ i x, bd_infos b !! i = Some x → bd_infos (w_bundles w) !! i = Some x ∨ x = bi) ∧
    (∀ k i, bd_mapper b !! k = Some i → bd_mapper (w_bundles w) !! k = Some i ∨ (k = cs ∧ i = id)) ∧
    bd_explicit b = bd_explicit (w_bundles w) ∧ bd_required b = bd_required (w_bundles w) ∧
    length (bd_infos b) ≤ S (length (bd_infos (w_bundles w))).
Proof.
  intros [Hreg _] Hroom Hset. unfold bundle_room in Hroom. unfold Bundles_intern. destruct (bd_mapper (w_bundles w) !! cs) as [i|] eqn:Hi.
  - destruct (bo_mapper _ _ _ (ro_bundles _ _ _ Hreg) cs i Hi) as (bi & Hbi & Hcs).
    pose proof (bo_set _ _ _ (ro_bundles _ _ _ Hreg) i bi Hbi) as Hs. cbn in Hs, Hbi.
    exists i, (w_bundles w), bi. repeat (split; [done|]). split; [|by eauto 10].
    rewrite Hcs in Hs |- *. f_equal. by eapply set_ok_len_unique.
  - rewrite next_id_ok by lia. cbn [mbind outcome_bind]. eexists _, _, _. split; [done|]. cbn.
    split; [by rewrite lookup_app_r, Nat.sub_diag by done|]. split; [done|].
    split; [intros; by apply lookup_app_l_Some|]. split; [|split; [|rewrite length_app; cbn; split; [done|split; [done|lia]]]].
    + intros i x [?|[_ Hx]]%lookup_app_Some; [by left|]. apply list_lookup_singleton_Some in Hx as [_ <-]. by right.
    + intros k i. rewrite lookup_insert_Some. naive_solver.
Qed.

Lemma World_eta w : w = set_bundles w (w_bundles w).
Proof. by destruct w. Qed.

(** Recording the interned set for a bundle type. *)
Lemma bundles_record w id b bi dl cs ex rq :
  world_inv w → bd_infos b !! id = Some bi → (bi_dense_len bi, bi_components bi) = (dl, cs) → set_ok desc dl cs →
  (∀ i x, bd_infos (w_bundles w) !! i = Some x → bd_infos b !! i = Some x) →
  (∀ i x, bd_infos b !! i = Some x → bd_infos (w_bundles w) !! i = Some x ∨ x = bi) →
  (∀ k i, bd_mapper b !! k = Some i → bd_mapper (w_bundles w) !! k = Some i ∨ (k = cs ∧ i = id)) →
  (∀ k i, ex !! k = Some i → bd_explicit (w_bundles w) !! k = Some i ∨
          (i = id ∧ (dl, cs) = set_of (bundle_collect_explicit desc k))) →
  (∀ k i, rq !! k = Some i → bd_required (w_bundles w) !! k = Some i ∨
          (i = id ∧ ∃ c, bundle_collect_required desc (size known) k = Ret c ∧ (dl, cs) = set_of c)) →
  bundles_ok desc known (shape (set_bundles w (mkBundles (bd_infos b) (bd_mapper b) ex rq))).
Proof.
  intros [Hreg _] Hid Heq Hset Hmono Hinv Hmap Hex Hrq. pose proof (ro_bundles _ _ _ Hreg) as Hb. split; cbn.
  - intros i x [Hx| ->]%Hinv; [by apply (bo_set _ _ _ Hb i)|]. by injection Heq as -> ->.
  - intros k i [Hk|[-> ->]]%Hmap; [|exists bi; split; [done|]; by injection Heq].
    destruct (bo_mapper _ _ _ Hb k i Hk) as (x & Hx & ?). exists x. split; [by apply Hmono|done].
  - intros k i [Hk|[-> Hc]]%Hex; [|exists bi; split; [done|]; by rewrite Heq].
    destruct (bo_explicit _ _ _ Hb k i Hk) as (x & Hx & ?). exists x. split; [by apply Hmono|done].
  - intros k i [Hk|(-> & c & Hc & Hs)]%Hrq; [|exists bi, c; split; [done|]; split; [done|]; by rewrite Heq].
    destruct (bo_required _ _ _ Hb k i Hk) as (x & c & Hx & ? & ?). exists x, c. split; [by apply Hmono|done].
Qed.

Lemma register_explicit_spec w ts :
  world_inv w → bundle_room w 1 →
  ∃ id b bi, World_register_explicit_bundle desc w ts = Ret (id, set_bundles w b) ∧
    world_inv (set_bundles w b) ∧ extends w (set_bundles w b) ∧ length (bd_infos b) ≤ S (length (bd_infos (w_bundles w))) ∧
    bd_infos b !! id = Some bi ∧ (bi_dense_len bi, bi_components bi) = set_of (bundle_collect_explicit desc ts).
Proof.
  intros Hinv Hroom. unfold World_register_explicit_bundle. destruct (bd_explicit (w_bundles w) !! ts) as [id|] eqn:Hid.
  { destruct (bo_explicit _ _ _ (ro_bundles _ _ _ (proj1 Hinv)) ts id Hid) as (bi & Hbi & Heq).
    exists id, (w_bundles w), bi. rewrite <- World_eta. split; [done|]. split; [done|]. split; [apply extends_refl|]. by eauto 10. }
  destruct (set_of_ok _ (proj1 (collect_explicit_spec desc ts))) as [Hset _].
  destruct (set_of (bundle_collect_explicit desc ts)) as [dl cs] eqn:Hof. unfold set_of in Hof.
  destruct (ComponentCollector_sorted (bundle_collect_explicit desc ts)) as [dense sparse] eqn:Hsrt. injection Hof as Hdl Hcs.
  rewrite Hdl, Hcs. unfold Bundles_register_explicit.
  destruct (Bundles_intern_spec w dl cs Hinv Hroom Hset) as (id & b & bi & -> & Hbi & Heq & Hmono & Hold & Hmap & Hex & Hrq & Hlen).
  cbn [mbind outcome_bind]. eexists id, _, bi. split; [reflexivity|].
  assert (Hok : bundles_ok desc known (shape (set_bundles w (mkBundles (bd_infos b) (bd_mapper b) (<[ts:=id]> (bd_explicit b)) (bd_required b))))).
  { eapply bundles_record; eauto.
    - intros k i. rewrite lookup_insert_Some, Hex. intros [[<- <-]|[_ ?]]; [right|by left]. split; [done|].
      unfold set_of. by rewrite Hsrt, Hdl, Hcs.
    - intros k i. rewrite Hrq. by left. }
  destruct (set_bundles_spec w (mkBundles (bd_infos b) (bd_mapper b) (<[ts:=id]> (bd_explicit b)) (bd_required b)) Hinv Hmono Hok) as [? ?]. eauto 10.
Qed.

Lemma register_required_spec w ts :
  world_inv w → bundle_room w 1 → (∀ t, t ∈ ts → t ∈ known) →
  ∃ id b bi, World_register_required_bundle desc (size known) w ts = Ret (id, set_bundles w b) ∧
    world_inv (set_bundles w b) ∧ extends w (set_bundles w b) ∧ length (bd_infos b) ≤ S (length (bd_infos (w_bundles w))) ∧
    bd_infos b !! id = Some bi ∧ set_ok desc (bi_dense_len bi) (bi_components bi) ∧
    required_closed desc (bi_components bi) ∧ (∀ c, c ∈ bi_components bi → c ∈ known) ∧
    ∀ c, c ∈ bi_components bi ↔ closure_of desc ts c.
Proof.
  intros Hinv Hroom Hts. unfold World_register_required_bundle.
  destruct (bundle_collect_required_spec desc known known_closed ts Hts) as (c & Hc & Hcok & Hck & Hcl).
  destruct (set_of_ok c Hcok) as [Hset Hmem].
  assert (Hfacts : ∀ bi, (bi_dense_len bi, bi_components bi) = set_of c →
    set_ok desc (bi_dense_len bi) (bi_components bi) ∧ required_closed desc (bi_components bi) ∧
    (∀ x, x ∈ bi_components bi → x ∈ known) ∧ ∀ x, x ∈ bi_components bi ↔ closure_of desc ts x).
  { intros bi Hb. destruct (set_of c) as [dl cs]. injection Hb as -> ->. cbn in Hset, Hmem. split; [done|].
    assert (Hx : ∀ x, x ∈ cs ↔ closure_of desc ts x) by (intros x; by rewrite Hmem, Hcl). split; [|split; [|done]].
    - intros y r Hy Hr. rewrite Hx in Hy |- *. destruct Hy as (t & Ht & Hty). exists t. split; [done|]. by eapply rtc_r.
    - intros x Hxx. by apply Hck, Hmem. }
  destruct (bd_required (w_bundles w) !! ts) as [id|] eqn:Hid.
  { destruct (bo_required _ _ _ (ro_bundles _ _ _ (proj1 Hinv)) ts id Hid) as (bi & c' & Hbi & Hc' & Heq).
    rewrite Hc in Hc'. injection Hc' as <-. exists id, (w_bundles w), bi. rewrite <- World_eta. split; [done|]. split; [done|].
    split; [apply extends_refl|]. split; [lia|]. split; [done|]. by apply Hfacts. }
  rewrite Hc. cbn [mbind outcome_bind].
  destruct (set_of c) as [dl cs] eqn:Hof. pose proof Hof as Hof'. unfold set_of in Hof'.
  destruct (ComponentCollector_sorted c) as [dense sparse] eqn:Hsrt. injection Hof' as Hdl Hcs.
  rewrite Hdl, Hcs. unfold Bundles_register_required.
  destruct (Bundles_intern_spec w dl cs Hinv Hroom Hset) as (id & b & bi & -> & Hbi & Heq & Hmono & Hold & Hmap & Hex & Hrq & Hlen).
  cbn [mbind outcome_bind]. eexists id, _, bi. split; [reflexivity|].
  assert (Hok : bundles_ok desc known (shape (set_bundles w (mkBundles (bd_infos b) (bd_mapper b) (bd_explicit b) (<[ts:=id]> (bd_required b)))))).
  { eapply bundles_record; eauto.
    - intros k i. rewrite Hex. by left.
    - intros k i. rewrite lookup_insert_Some, Hrq. intros [[<- <-]|[_ ?]]; [right|by left]. split; [done|]. eauto. }
  destruct (set_bundles_spec w (mkBundles (bd_infos b) (bd_mapper b) (bd_explicit b) (<[ts:=id]> (bd_required b))) Hinv Hmono Hok) as [? ?]. split; [done|]. split; [done|]. split; [done|]. split; [done|]. by apply Hfacts.
Qed.

(** ** The archetype of a bundle *)

Lemma map_bundle_id_spec w b i a bi :
  world_inv w → bd_infos (w_bundles w) !! b = Some bi → as_arches (w_archetypes w) !! i = Some a →
  ar_components a = bi_components bi →
  ∃ ar, Archetypes_map_bundle_id (w_archetypes w) b i = Ret ar ∧ world_inv (set_archetypes w ar) ∧
    extends w (set_archetypes w ar) ∧ as_arches ar = as_arches (w_archetypes w).
Proof.
  intros [Hreg Hrow] Hb Ha Heq. unfold Archetypes_map_bundle_id.
  set (bs := if decide (length (as_bundles (w_archetypes w)) ≤ b) then _ else _).
  assert (Hlen : b < length bs ∧ ∀ j x, bs !! j = Some (Some x) → as_bundles (w_archetypes w) !! j = Some (Some x)).
  { unfold bs. case_decide as Hle; [|split; [lia|done]].
    pose proof (grown_capacity_ge (length (as_bundles (w_archetypes w))) (b + 1 - length (as_bundles (w_archetypes w)))) as Hg.
    rewrite resize_ge by lia. rewrite length_app, length_replicate. split; [lia|].
    intros j x [?|[_ Hx]]%lookup_app_Some; [done|]. by apply lookup_replicate in Hx as [? _]. }
  destruct Hlen as [Hlen Hbs]. rewrite decide_True by done. eexists. split; [done|].
  match goal with |- WorldInv.world_inv _ _ (set_archetypes w ?x) ∧ _ => set (ar := x) end.
  assert (Hex : extends w (set_archetypes w ar)).
  { split; cbn; auto; try (exists 0; by rewrite app_nil_r). intros j x Hx. exists x. by repeat split. }
  split; [|done]. split; [|by eapply extends_rows].
  assert (Hle : shape_le (shape w) (shape (set_archetypes w ar))) by (split; auto; intros j x Hx; by exists x).
  split; try apply Hreg.
  - destruct (ro_bundles _ _ _ Hreg). by split.
  - intros j x Hx. eapply arche_ok_mono; [done|]. by apply Hreg.
  - intros j x. cbn. intros [(<- & [= <-] & _)|[_ Hx]]%list_lookup_insert_Some.
    + exists bi, (cleared a). split; [done|]. split; [by rewrite list_lookup_fmap, Ha|done].
    + apply Hbs in Hx. by apply (ro_abundles _ _ _ Hreg).
Qed.

Lemma register_archetype_spec w b bi :
  world_inv w → id_room w → bd_infos (w_bundles w) !! b = Some bi →
  required_closed desc (bi_components bi) → (∀ c, c ∈ bi_components bi → c ∈ known) →
  ∃ i w' a, World_register_archetype desc w b = Ret (i, w') ∧ world_inv w' ∧ extends w w' ∧
    as_arches (w_archetypes w') !! i = Some a ∧ ar_components a = bi_components bi.
Proof.
  intros Hinv Hroom Hb Hcl Hk. unfold World_register_archetype, Archetypes_get_id_by_bundle, Bundles_get_unchecked.
  destruct (as_bundles (w_archetypes w) !! b) as [[i|]|] eqn:Hi; cbn [mjoin option_join].
  1: { destruct (ro_abundles _ _ _ (proj1 Hinv) b i Hi) as (bi' & a & Hb' & Ha & Heq). cbn in Hb'. simplify_eq.
       apply shape_arche_inv in Ha as (a0 & Ha0 & ->). exists i, w, a0. repeat (split; [done|]).
       split; [apply extends_refl|]. split; [done|exact Heq]. }
  all: rewrite Hb; cbn [of_option mbind outcome_bind];
    pose proof (bo_set _ _ _ (ro_bundles _ _ _ (proj1 Hinv)) b bi Hb) as Hset;
    pose proof (find_or_register_spec w (bi_components bi) (bi_dense_len bi) Hinv Hroom Hset Hcl Hk)
      as (j & w1 & a & Hf & Hinv1 & Hex1 & Hwb & Hwa & Ha & Hdl & Hcs);
    assert (Hb1 : bd_infos (w_bundles w1) !! b = Some bi) by (by rewrite Hwb);
    destruct (map_bundle_id_spec w1 b j a bi Hinv1 Hb1 Ha Hcs) as (ar & Har & Hinv2 & Hex2 & Hars);
    unfold find_or_register, Archetypes_get_id in *;
    exists j, (set_archetypes w1 ar), a;
    (split; [|split; [done|split; [by eapply extends_trans|split; [cbn; by rewrite Hars|done]]]]);
    destruct (as_mapper (w_archetypes w) !! bi_components bi) as [j'|];
    [injection Hf as -> ->; by rewrite Har|rewrite Hf; cbn [mbind outcome_bind]; by rewrite Har].
Qed.

(** ** Room for rows *)

(** Every table and map may take one more row, and identifiers are left. *)
Definition world_room (w : World) : Prop :=
  (∀ i t, ts_tables (w_tables w) !! i = Some t → has_room t) ∧
  (∀ c m, map_of (w_maps w) c = Some m → map_room m) ∧ id_room w ∧ bundle_room w 2.

(** A new vector may take its first element. *)
Hypothesis small_growth : (Z.of_nat (grown_capacity 0 1) ≤ u32_max)%Z.

Lemma extends_table_room w w' i t :
  world_room w → extends w w' → ts_tables (w_tables w') !! i = Some t → has_room t.
Proof.
  intros (Ht & _) Hex [Hi|[_ He]]%(ex_new_tables _ _ Hex); [by eapply Ht|]. unfold has_room. by rewrite He.
Qed.

Lemma extends_map_room w w' c m :
  world_room w → extends w w' → map_of (w_maps w') c = Some m → map_room m.
Proof.
  intros (_ & Hm & _) Hex [Hi|He]%(ex_new_maps _ _ Hex); [by eapply Hm|]. unfold map_room. by rewrite He.
Qed.

Lemma entity_values_same w w' e ids :
  same_entity w w' e → entity_values desc w' e ids = entity_values desc w e ids.
Proof. intros [_ Hg]. unfold entity_values. f_equal. apply list_fmap_ext. intros k c _. by rewrite Hg. Qed.
End register.

Lemma same_entity_refl w e : same_entity w w e.
Proof. by split. Qed.

Lemma same_entity_trans w1 w2 w3 e : same_entity w1 w2 e → same_entity w2 w3 e → same_entity w1 w3 e.
Proof. intros [H1 H2] [H3 H4]. split; [congruence|]. intros c. by rewrite H4. Qed.

(** The hypotheses about a component registry that hold together: types fit an
    allocation, what is required is registered, vectors can start to grow. *)
Record types_ok `{VecGrowth} (desc : Z → ComponentDesc) (known : gset Z) : Prop := {
  ty_small : items_small (λ c, cd_info (desc c));
  ty_closed : ∀ c r, c ∈ known → requires desc c r → r ∈ known;
  ty_growth : (Z.of_nat (grown_capacity 0 1) ≤ u32_max)%Z
}.
