(* ===== verification/WorldDespawn.v ===== *)
(** * Despawning

    [despawn_internal] and its callers ([world/methods/despawn.rs]): the entity
    leaves its archetype, its table and its maps, the entities that took over its
    rows are told, its values are dropped, and the invariant holds again. *)

From Stdlib Require Import ZArith Lia Sorting.Sorted.
From S2P Require Import Prelude Tick EntityIdent EntityInfo FreeCount FreeBuffer Allocator Column Table SparseMap.
From S2P Require Import Locations Registry World WorldInv.

Section despawn.
Context `{VecGrowth}.
Variable desc : Z → ComponentDesc.
Variable known : gset Z.
Notation info := (λ c, cd_info (desc c)).
Notation world_inv := (world_inv desc known).
Notation rows_ok := (rows_ok desc).

(** The location table through a despawn: gone, two row reports, a new
    generation. *)
Lemma despawn_entities es e l am ar tm tr :
  Entities_wf es → located es e = Some l →
  (∀ x, am = Some x → x ≠ e ∧ is_Some (apos es x)) → (∀ x, tm = Some x → x ≠ e ∧ is_Some (tpos es x)) →
  ∃ es1 es2 es3 es4,
    Entities_set_despawned es e = (Ok l, es1) ∧
    Entities_update_row es1 (MovedEntityRow_in_arche am (Z.of_nat ar)) = (Ok tt, es2) ∧
    Entities_update_row es2 (MovedEntityRow_in_table tm (Z.of_nat tr)) = (Ok tt, es3) ∧
    Entities_free es3 (ent_id e) 1 = Ret (Entity_new (ent_id e) (EntityTag_wrapping_add (ent_tag e) 1), es4) ∧
    Entities_wf es4 ∧
    slot es4 (Entity_index e) = mkInfo (EntityTag_wrapping_add (ent_tag e) 1) None ∧
    (∀ e', apos es4 e' = if decide (e' = e) then None else reported am ar (apos es) e') ∧
    ∀ e', tpos es4 e' = if decide (e' = e) then None else reported tm tr (tpos es) e'.
Proof.
  intros Hwf Hl Ham Htm. pose proof (located_pos _ _ _ Hwf Hl) as Hpos.
  assert (Hu : (Z.of_nat (Entity_index e) < 4294967296)%Z).
  { destruct Hwf as [H0 _]. apply H0. apply located_slot in Hl. rewrite Hl. by eexists. }
  destruct (set_despawned_located es e l Hwf Hl) as (es1 & H1 & Hwf1 & Hs1 & Hl1).
  assert (Ha1 : ∀ x, apos es1 x = if decide (x = e) then None else apos es x) by (intros x; unfold apos; rewrite Hl1; by case_decide).
  assert (Ht1 : ∀ x, tpos es1 x = if decide (x = e) then None else tpos es x) by (intros x; unfold tpos; rewrite Hl1; by case_decide).
  destruct (update_row_arche es1 am ar Hwf1) as (es2 & H2 & Hwf2 & Ha2 & Ht2 & Hs2).
  { intros x Hx. rewrite Ha1, decide_False by (by apply Ham). by apply Ham. }
  destruct (update_row_table es2 tm tr Hwf2) as (es3 & H3 & Hwf3 & Ha3 & Ht3 & Hs3).
  { intros x Hx. rewrite Ht2, Ht1, decide_False by (by apply Htm). by apply Htm. }
  assert (Hs : slot es2 (Entity_index e) = mkInfo (ent_tag e) None) by (rewrite Hs2; [done|by rewrite Hs1]).
  assert (Hs' : slot es3 (Entity_index e) = mkInfo (ent_tag e) None) by (rewrite Hs3; [done|by rewrite Hs]).
  destruct (free_located es3 e 1 Hwf3 Hpos Hu) as (es4 & H4 & Hwf4 & Hs4 & _ & Hl4); [by rewrite Hs'|].
  rewrite Hs' in H4, Hs4. exists es1, es2, es3, es4. repeat (split; [done|]). split; intros e'.
  - transitivity (apos es3 e'); [unfold apos; by rewrite Hl4|]. rewrite Ha3, Ha2. unfold reported. rewrite !Ha1.
    repeat case_decide; naive_solver.
  - transitivity (tpos es3 e'); [unfold tpos; by rewrite Hl4|]. rewrite Ht3. unfold reported. rewrite !Ht2, !Ht1.
    repeat case_decide; naive_solver.
Qed.

(** Removing a row from a table keeps it live. *)
Lemma row_removed_live t t' r e :
  table_ok info t → table_live t → tbl_entities t !! r = Some e → row_removed t t' r → table_live t'.
Proof.
  intros Hok Hlive He Hrem e' c x Hx. pose proof (lookup_lt_Some _ _ _ He) as Hlt.
  destruct (decide (e' = e)) as [->|Hne].
  - pose proof (row_removed_gone info t t' r e Hok He Hrem) as Hgone.
    unfold Table_lookup in Hx. apply bind_Some in Hx as (r' & Hr' & _).
    apply (get_table_row_Some info) in Hr'; [|by eapply row_removed_ok].
    exfalso. apply Hgone. by eapply list_elem_of_lookup_2.
  - rewrite (row_removed_lookup info t t' r e e' c Hok He Hrem Hne) in Hx. by eapply Hlive.
Qed.

Lemma list_filter_all (l : list Z) : filter (λ _, true = true) l = l.
Proof. induction l as [|x l IH]; [done|]. rewrite filter_cons_True by done. by rewrite IH. Qed.

Lemma despawn_spec w e l a :
  world_inv w → located (w_entities w) e = Some l → arche_of w e = Some a →
  ∃ w', despawn_internal w e l = Ret (Entity_new (ent_id e) (EntityTag_wrapping_add (ent_tag e) 1), w') ∧
    world_inv w' ∧ shape w' = shape w ∧ w_allocator w' = w_allocator w ∧
    slot (w_entities w') (Entity_index e) = mkInfo (EntityTag_wrapping_add (ent_tag e) 1) None ∧
    (∀ e', e' ≠ e → same_entity w w' e') ∧
    w_dropped w' = w_dropped w ++ entity_values desc w e (ar_components a) ∧
    w_fired w' = w_fired w ++ Archetype_trigger a OnDespawn e ++ Archetype_trigger a OnDiscard e ++ Archetype_trigger a OnRemove e.
Proof.
  intros Hinv Hl Hof. pose proof Hinv as [Hreg Hrow].
  destruct (rows_entity desc known w e l Hinv Hl)
    as (a' & t & Ha & Ht & Hlink & Hae & Hte & Hof' & Htok & Hlive & Hcomp & Hao). simplify_eq.
  set (ai := Z.to_nat (arche_id l)) in *. set (arow := Z.to_nat (arche_row l)) in *.
  set (ti := Z.to_nat (table_id l)) in *. set (trow := Z.to_nat (table_row l)) in *.
  assert (Hap : apos (w_entities w) e = Some (ai, arow)) by (unfold apos; by rewrite Hl).
  assert (Htp : tpos (w_entities w) e = Some (ti, trow)) by (unfold tpos; by rewrite Hl).
  assert (Hva : (ar_entities <$> as_arches (w_archetypes w)) !! ai = Some (ar_entities a)) by (by rewrite list_lookup_fmap, Ha).
  assert (Hvt : (tbl_entities <$> ts_tables (w_tables w)) !! ti = Some (tbl_entities t)) by (by rewrite list_lookup_fmap, Ht).
  destruct (Archetype_dealloc_spec a arow) as (aes & Hdea & Hasr); [by eapply lookup_lt_Some|].
  destruct (Table_dealloc_row_spec info true t trow Htok) as (t' & Hdet & Hrem); [by eapply lookup_lt_Some|].
  destruct (despawn_entities (w_entities w) e l (moved_last (ar_entities a) arow) arow
              (moved_last (tbl_entities t) trow) trow) as (es1 & es2 & es3 & es4 & H1 & H2 & H3 & H4 & Hwf4 & Hs4 & Ha4 & Ht4).
  { apply Hrow. }
  { done. }
  { intros x Hx. eapply moved_last_pos in Hx as (? & -> & _); [|apply Hrow|done|done]. eauto. }
  { intros x Hx. eapply moved_last_pos in Hx as (? & -> & _); [|apply Hrow|done|done]. eauto. }
  destruct (dealloc_map_rows_spec desc true (Archetype_sparse_components a) e (w_maps w))
    as (maps' & Hmaps & Hmok & Hmm & Hmget).
  { apply Hrow. }
  { apply StronglySorted_lt_NoDup. exact (so_sparse_sorted _ _ _ (ao_set _ _ _ _ _ Hao)). }
  { intros c Hc. apply Hrow. eauto. }
  unfold despawn_internal, Archetypes_get_unchecked, Tables_get_unchecked. fold ai arow ti trow.
  cbn [w_archetypes w_entities w_tables w_maps add_fired]. rewrite Ha. cbn [of_option mbind outcome_bind].
  rewrite H1, Hdea. cbn [mbind outcome_bind]. rewrite H2, Ht. cbn [of_option mbind outcome_bind].
  rewrite Hdet. cbn [mbind outcome_bind]. change (row_moved t trow) with (MovedEntityRow_in_table (moved_last (tbl_entities t) trow) (Z.of_nat trow)).
  rewrite H3, Hmaps. cbn [mbind outcome_bind]. rewrite H4. cbn [mbind outcome_bind].
  eexists. split; [reflexivity|].
  match goal with |- context [WorldInv.world_inv _ _ ?x] => set (w' := x) end.
  assert (Hsh : shape w' = shape w).
  { unfold shape, w'. cbn. rewrite Hmm. f_equal; eapply fmap_insert_same; try done. apply Hrem. }
  assert (Hfst : ∀ e', e' ≠ e → fst <$> apos (w_entities w') e' = fst <$> apos (w_entities w) e').
  { intros e' Hne. cbn. rewrite Ha4, decide_False by done. apply reported_fst. }
  assert (Hgone : arche_of w' e = None) by (unfold arche_of; cbn; by rewrite Ha4, decide_True).
  assert (Htok' : table_ok info t') by (eapply row_removed_ok; [done| |done]; by eapply lookup_lt_Some).
  assert (Htl' : ∀ e' c, e' ≠ e → Table_lookup t' e' c = Table_lookup t e' c)
    by (intros; by apply (row_removed_lookup info t t' trow e)).
  split; [|split; [done|split; [done|split; [done|split; [|split]]]]].
  - split; [by rewrite Hsh|]. apply (rows_update desc w w' e); auto; cbn.
    + rewrite list_fmap_insert. eapply (placed_remove (apos (w_entities w))); [apply Hrow|done|done|exact Hasr|].
      intros e'. rewrite Ha4. case_decide; [done|]. eapply reported_moved; [apply Hrow|done|done].
    + rewrite list_fmap_insert. eapply (placed_remove (tpos (w_entities w))); [apply Hrow|done|done|apply Hrem|].
      intros e'. rewrite Ht4. case_decide; [done|]. eapply reported_moved; [apply Hrow|done|done].
    + intros i t0 [(<- & <- & _)|[_ Ht0]]%list_lookup_insert_Some; [|by eapply (rw_table_ok _ _ Hrow)].
      split; [done|]. by apply (row_removed_live t t' trow e).
    + intros e' Hne. split; [by apply Hfst|]. split; [rewrite Ht4, decide_False by done; apply reported_fst|].
      intros c. by rewrite Hmget, decide_False by naive_solver.
    + intros p q a' Hp. by rewrite Ha4, decide_True in Hp.
    + intros c. rewrite Hgone, Hmget. case_decide as Hc; [split; [by intros []|by intros (? & ? & _)]|].
      rewrite (rw_sparse _ _ Hrow c e), Hof. split; [|by intros (? & ? & _)].
      intros (a0 & [= <-] & Hc0). exfalso. by apply Hc.
    + intros c x. rewrite Hmget. case_decide; [done|]. apply Hrow.
  - intros e' Hne. apply same_entity_frame; [done|by apply Hfst| |].
    + intros i c. cbn. eapply table_frame; [done|]. intros c'. by apply Htl'.
    + intros c. cbn. by rewrite Hmget, decide_False by naive_solver.
  - cbn. f_equal. rewrite <- (list_filter_all (ar_components a)).
    rewrite (entity_values_split desc w e a t (λ _, true) Hof (ao_set _ _ _ _ _ Hao)) by (by rewrite <- Hlink).
    rewrite !list_filter_all.
    by rewrite (row_values_spec desc t e trow Htok Hte), Hcomp.
  - done.
Qed.
End despawn.
