(* ===== verification/WorldMove.v ===== *)
(** * Moving an entity to another archetype

    The part [insert_moved], [remove_moved] and [clear] share: out of the old
    archetype and table, into the new ones, with the values of the components
    both have. *)

From Stdlib Require Import ZArith Lia Sorting.Sorted.
From S2P Require Import Prelude Tick EntityIdent EntityInfo FreeCount FreeBuffer Allocator Column Table SparseMap.
From S2P Require Import Locations Registry World WorldInv WorldDespawn.

(** Every stored cell is written, except cells of [e] outside [ids]. *)
Definition table_live_but (t : Table) (e : Entity) (ids : list Z) : Prop :=
  ∀ e' c x, Table_lookup t e' c = Some x → (e' = e → c ∈ ids) → written x.

Lemma table_live_weaken t e ids : table_live t → table_live_but t e ids.
Proof. intros Hl e' c x Hx _. by eapply Hl. Qed.

Lemma concat_if_filter {A B} (P : A → Prop) `{∀ x, Decision (P x)} (q : A → bool) (f : A → list B) (l : list A) :
  (∀ x, x ∈ l → q x = true ↔ ¬ P x) →
  concat ((λ x, if decide (P x) then [] else f x) <$> l) = concat (f <$> filter (λ x, q x = true) l).
Proof.
  induction l as [|x l IH]; intros Hq; [done|]. rewrite fmap_cons. cbn [concat]. rewrite IH by (intros; apply Hq; set_solver).
  specialize (Hq x ltac:(set_solver)). case_decide as Hp.
  - rewrite filter_cons_False by tauto. done.
  - rewrite filter_cons_True by tauto. done.
Qed.

Lemma list_filter_iff_elem {A} (P Q : A → Prop) `{∀ x, Decision (P x)} `{∀ x, Decision (Q x)} (l : list A) :
  (∀ x, x ∈ l → P x ↔ Q x) → filter P l = filter Q l.
Proof.
  induction l as [|x l IH]; intros HPQ; [done|]. specialize (IH ltac:(intros; apply HPQ; set_solver)).
  pose proof (HPQ x ltac:(set_solver)) as Hx. destruct (decide (P x)).
  - rewrite !filter_cons_True by tauto. by rewrite IH.
  - rewrite !filter_cons_False by tauto. by rewrite IH.
Qed.

(** Components not kept. *)
Definition lost (na : Archetype) (c : Z) : bool := negb (bool_decide (c ∈ ar_components na)).

Lemma lost_true na c : lost na c = true ↔ c ∉ ar_components na.
Proof. unfold lost. destruct (bool_decide_reflect (c ∈ ar_components na)); cbn; naive_solver. Qed.

Section move.
Context `{VecGrowth}.
Variable desc : Z → ComponentDesc.
Variable known : gset Z.
Notation info := (λ c, cd_info (desc c)).
Notation world_inv := (world_inv desc known).
Notation rows_ok := (rows_ok desc).

Lemma move_arche_spec w e l a ni na :
  rows_ok w → located (w_entities w) e = Some l →
  as_arches (w_archetypes w) !! Z.to_nat (arche_id l) = Some a → as_arches (w_archetypes w) !! ni = Some na →
  Z.to_nat (arche_id l) ≠ ni →
  ∃ aes es, swap_removed (ar_entities a) aes (Z.to_nat (arche_row l)) ∧ Entities_wf es ∧
    (∀ e', apos es e' = reported (moved_last (ar_entities a) (Z.to_nat (arche_row l))) (Z.to_nat (arche_row l)) (apos (w_entities w)) e') ∧
    (∀ e', tpos es e' = tpos (w_entities w) e') ∧
    move_arche w e l ni
    = Ret (mkLoc (Z.of_nat ni) (table_id l) (Z.of_nat (length (ar_entities na))) (table_row l),
           set_archetypes (set_entities_w w es) (set_arches (w_archetypes w)
             (<[ni := arche_set_entities na (ar_entities na ++ [e])]>
              (<[Z.to_nat (arche_id l) := arche_set_entities a aes]> (as_arches (w_archetypes w)))))).
Proof.
  intros Hrow Hl Ha Hna Hne. set (ai := Z.to_nat (arche_id l)) in *. set (r := Z.to_nat (arche_row l)).
  assert (Hap : apos (w_entities w) e = Some (ai, r)) by (unfold apos; by rewrite Hl).
  assert (Hva : (ar_entities <$> as_arches (w_archetypes w)) !! ai = Some (ar_entities a)) by (by rewrite list_lookup_fmap, Ha).
  pose proof (placed_at _ _ _ _ _ _ (rw_arches _ _ Hrow) Hap Hva) as He.
  destruct (Archetype_dealloc_spec a r) as (aes & Hde & Hsr); [by eapply lookup_lt_Some|].
  destruct (update_row_arche (w_entities w) (moved_last (ar_entities a) r) r) as (es & Hup & Hwf & Hpa & Hpt & _).
  { apply Hrow. }
  { intros x Hx. eapply moved_last_pos in Hx as (_ & -> & _); [by eexists|apply Hrow|done|done]. }
  exists aes, es. repeat (split; [done|]).
  unfold move_arche, Archetypes_get_unchecked. fold ai r. rewrite Ha. cbn [of_option mbind outcome_bind].
  rewrite Hde. cbn [mbind outcome_bind]. unfold update_row_unwrap, put_arche. cbn. rewrite Hup. cbn [mbind outcome_bind].
  cbn. rewrite list_lookup_insert_ne by done. rewrite Hna. done.
Qed.

(** What moving to table [tj] gives, however it is done. *)
Record table_moved (w w' : World) (e : Entity) (t : Table) (l l' : EntityLocation) (tj : nat) : Prop := {
  tm_arches : w_archetypes w' = w_archetypes w;
  tm_bundles : w_bundles w' = w_bundles w;
  tm_maps : w_maps w' = w_maps w;
  tm_alloc : w_allocator w' = w_allocator w;
  tm_fired : w_fired w' = w_fired w;
  tm_run : w_this_run w' = w_this_run w;
  tm_mapper : ts_mapper (w_tables w') = ts_mapper (w_tables w);
  tm_comps : tbl_components <$> ts_tables (w_tables w') = tbl_components <$> ts_tables (w_tables w);
  tm_loc : arche_id l' = arche_id l ∧ arche_row l' = arche_row l ∧ Z.to_nat (table_id l') = tj;
  tm_wf : Entities_wf (w_entities w');
  tm_apos : ∀ e', apos (w_entities w') e' = apos (w_entities w) e';
  tm_tpos : ∀ e', fst <$> tpos (w_entities w') e' = fst <$> tpos (w_entities w) e';
  tm_placed : ∀ pos, pos e = Some (tj, Z.to_nat (table_row l')) → (∀ e', e' ≠ e → pos e' = tpos (w_entities w') e') →
    placed pos (tbl_entities <$> ts_tables (w_tables w'));
  tm_target : ∃ o, ts_tables (w_tables w') !! tj = Some o ∧ tbl_entities o !! Z.to_nat (table_row l') = Some e ∧
    ∀ c, c ∈ tbl_components t → c ∈ tbl_components o → Table_lookup o e c = Table_lookup t e c;
  tm_tables : ∀ i o, ts_tables (w_tables w') !! i = Some o → table_ok info o ∧ table_live_but o e (tbl_components t);
  tm_others : ∀ e', e' ≠ e → ∀ i c,
    (o ← ts_tables (w_tables w') !! i; Table_lookup o e' c) = (o ← ts_tables (w_tables w) !! i; Table_lookup o e' c)
}.

Lemma move_table_same w e t l ti :
  Entities_wf (w_entities w) → placed (tpos (w_entities w)) (tbl_entities <$> ts_tables (w_tables w)) →
  (∀ i o, ts_tables (w_tables w) !! i = Some o → table_ok info o ∧ table_live o) →
  tpos (w_entities w) e = Some (ti, Z.to_nat (table_row l)) → Z.to_nat (table_id l) = ti →
  ts_tables (w_tables w) !! ti = Some t →
  table_moved w w e t l l ti.
Proof.
  intros Hwf Hp Htok Htp Hti Ht. split; try done.
  - intros pos He Hother. eapply placed_ext; [done|]. intros e'. destruct (decide (e' = e)) as [->|Hne]; [congruence|auto].
  - exists t. split; [done|]. split; [|done]. eapply placed_at; [done|done|]. by rewrite list_lookup_fmap, Ht.
  - intros i o Ho. destruct (Htok i o Ho). split; [done|]. by apply table_live_weaken.
Qed.

Lemma move_table_other DROP w e t o l ti tj :
  items_small info → ti ≠ tj → Entities_wf (w_entities w) →
  placed (tpos (w_entities w)) (tbl_entities <$> ts_tables (w_tables w)) →
  (∀ i o, ts_tables (w_tables w) !! i = Some o → table_ok info o ∧ table_live o) →
  tpos (w_entities w) e = Some (ti, Z.to_nat (table_row l)) →
  ts_tables (w_tables w) !! ti = Some t → ts_tables (w_tables w) !! tj = Some o → has_room o →
  ∃ l' w', move_table DROP w l ti tj = Ret (l', w') ∧ table_moved w w' e t l l' tj ∧
    w_dropped w' = w_dropped w ++ left_behind DROP (tbl_components o) (Z.to_nat (table_row l)) (tbl_components t) (tbl_columns t).
Proof.
  intros Hsm Hne Hwf Hp Htok Htp Ht Ho Hroom. set (r := Z.to_nat (table_row l)) in *.
  destruct (Htok ti t Ht) as [Hokt Hlt]. destruct (Htok tj o Ho) as [Hoko Hlo].
  assert (Hvt : (tbl_entities <$> ts_tables (w_tables w)) !! ti = Some (tbl_entities t)) by (by rewrite list_lookup_fmap, Ht).
  assert (Hvo : (tbl_entities <$> ts_tables (w_tables w)) !! tj = Some (tbl_entities o)) by (by rewrite list_lookup_fmap, Ho).
  pose proof (placed_at _ _ _ _ _ _ Hp Htp Hvt) as He.
  assert (Heo : e ∉ tbl_entities o) by (eapply placed_not_in; [exact Hp| |done]; intros r' Hr'; congruence).
  destruct (Table_move_row_spec info Hsm DROP t r o e Hokt Hoko Hroom He Heo)
    as (t' & o1 & o' & Hmv & Hrem & Hok1 & Hadd & Hok' & Hrec); [by eapply row_live|].
  destruct (update_row_table (w_entities w) (moved_last (tbl_entities t) r) r Hwf) as (es & Hup & Hwf' & Hpa & Hpt & _).
  { intros x Hx. eapply moved_last_pos in Hx as (_ & -> & _); [by eexists|done|done|done]. }
  assert (Hent' : tbl_entities o' = tbl_entities o ++ [e]) by (destruct Hrec as (_ & -> & _); apply Hadd).
  assert (Hcomp' : tbl_components o' = tbl_components o) by (destruct Hrec as (-> & _); apply Hadd).
  assert (Hdst : tbl_entities o1 !! length (tbl_entities o) = Some e).
  { destruct Hadd as (_ & -> & _). by rewrite lookup_app_r, Nat.sub_diag by done. }
  assert (Hlo' : ∀ e' c, e' ≠ e → Table_lookup o' e' c = Table_lookup o e' c).
  { intros e' c Hne'. rewrite (row_received_lookup_other info _ _ o1 o' _ _ e' c Hok1 Hok' Hrec) by congruence.
    by apply (row_added_lookup info o o1 e). }
  assert (Hlt' : ∀ e' c, e' ≠ e → Table_lookup t' e' c = Table_lookup t e' c)
    by (intros; by apply (row_removed_lookup info t t' r e)).
  assert (Hmoved : ∀ c, c ∈ tbl_components t → c ∈ tbl_components o' → Table_lookup o' e c = Table_lookup t e c).
  { intros c Hct Hco. apply (row_received_lookup_moved info t o1 o' r (length (tbl_entities o)) e c); auto.
    rewrite (proj1 Hadd). by rewrite <- Hcomp'. }
  pose proof (lookup_lt_Some _ _ _ Ht) as Hlti. pose proof (lookup_lt_Some _ _ _ Ho) as Hltj.
  unfold move_table, Tables_get_unchecked. rewrite decide_False, Ht by done. cbn [of_option mbind outcome_bind].
  rewrite Ho. cbn [of_option mbind outcome_bind]. fold r. rewrite Hmv. cbn [mbind outcome_bind].
  unfold update_row_unwrap. cbn [w_entities add_dropped set_tables].
  change (row_moved t r) with (MovedEntityRow_in_table (moved_last (tbl_entities t) r) (Z.of_nat r)).
  rewrite Hup. cbn [mbind outcome_bind]. eexists _, _. split; [reflexivity|]. split; [|done]. split; cbn; try done.
  - rewrite (fmap_insert_same _ _ _ o); [|by rewrite list_lookup_insert_ne|done].
    eapply fmap_insert_same; [done|]. apply Hrem.
  - rewrite Nat2Z.id. done.
  - intros e'. rewrite Hpt. apply reported_fst.
  - intros pos Hpe Hpo. rewrite Nat2Z.id in Hpe. rewrite !list_fmap_insert, Hent'.
    eapply (placed_move (tpos (w_entities w)) pos _ ti tj r); [done|done|done|done|done|apply Hrem|].
    intros e'. case_decide as Hee; [congruence|]. rewrite Hpo, Hpt by done. by eapply reported_moved.
  - exists o'. rewrite list_lookup_insert_eq by (by rewrite length_insert). split; [done|].
    rewrite Nat2Z.id, Hent', lookup_app_r, Nat.sub_diag by done. split; [done|]. exact Hmoved.
  - intros i x [(<- & <- & _)|[_ Hx]]%list_lookup_insert_Some.
    + split; [done|]. intros e' c y Hy Hin. destruct (decide (e' = e)) as [->|Hne'].
      * apply (Hlt e c). rewrite <- Hmoved; [done|by apply Hin|]. unfold Table_lookup in Hy.
        apply bind_Some in Hy as (r' & _ & Hy). apply bind_Some in Hy as (k & Hk & _).
        apply (get_table_col_Some info) in Hk; [|done]. by eapply list_elem_of_lookup_2.
      * rewrite Hlo' in Hy by done. by eapply Hlo.
    + apply list_lookup_insert_Some in Hx as [(<- & <- & _)|[_ Hx]].
      * split; [by apply (row_removed_ok info t t' r Hokt (lookup_lt_Some _ _ _ He))|].
        apply table_live_weaken. by apply (row_removed_live desc t t' r e).
      * destruct (Htok i x Hx). split; [done|]. by apply table_live_weaken.
  - intros e' Hne' i c. etransitivity; [eapply (table_frame _ tj o o')|eapply (table_frame _ ti t t')]; try done; auto.
    by rewrite list_lookup_insert_ne.
Qed.

(** The world between the two moves and the final [update_location]. *)
Record moved (DROP : bool) (w w' : World) (e : Entity) (a na : Archetype) (ni : nat) (l' : EntityLocation) : Prop := {
  mv_shape : shape w' = shape w;
  mv_maps : w_maps w' = w_maps w;
  mv_alloc : w_allocator w' = w_allocator w;
  mv_fired : w_fired w' = w_fired w;
  mv_run : w_this_run w' = w_this_run w;
  mv_dropped : w_dropped w' = w_dropped w ++
    concat ((λ c, if decide (c ∈ Archetype_dense_components na) then []
                  else cell_drop (DROP && has_dropper (info c)) (World_get w e c)) <$> Archetype_dense_components a);
  mv_loc : Z.to_nat (arche_id l') = ni ∧ Z.to_nat (table_id l') = ar_table_id na;
  mv_target : ∃ o, ts_tables (w_tables w') !! ar_table_id na = Some o ∧
    tbl_components o = Archetype_dense_components na ∧ tbl_entities o !! Z.to_nat (table_row l') = Some e ∧
    ∀ c, c ∈ Archetype_dense_components a → c ∈ Archetype_dense_components na → Table_lookup o e c = World_get w e c;
  mv_tables : ∀ i o, ts_tables (w_tables w') !! i = Some o →
    table_ok info o ∧ table_live_but o e (Archetype_dense_components a);
  mv_others : ∀ e', e' ≠ e → ∀ i c,
    (o ← ts_tables (w_tables w') !! i; Table_lookup o e' c) = (o ← ts_tables (w_tables w) !! i; Table_lookup o e' c);
  mv_location : ∃ es, Entities_update_location (w_entities w') e l' = (Ok tt, es) ∧ Entities_wf es ∧
    located es e = Some l' ∧ placed (apos es) (ar_entities <$> as_arches (w_archetypes w')) ∧
    placed (tpos es) (tbl_entities <$> ts_tables (w_tables w')) ∧
    ∀ e', e' ≠ e → fst <$> apos es e' = fst <$> apos (w_entities w) e' ∧ fst <$> tpos es e' = fst <$> tpos (w_entities w) e'
}.

Lemma apos_set es es' e l :
  (∀ e', located es' e' = if decide (e' = e) then Some l else located es e') →
  (∀ e', apos es' e' = if decide (e' = e) then Some (Z.to_nat (arche_id l), Z.to_nat (arche_row l)) else apos es e') ∧
  ∀ e', tpos es' e' = if decide (e' = e) then Some (Z.to_nat (table_id l), Z.to_nat (table_row l)) else tpos es e'.
Proof. intros Hl. unfold apos, tpos. split; intros e'; rewrite Hl; by case_decide. Qed.

(** The table half of a move inside the world, in either case. *)
Lemma move_table_spec DROP w e t o l ti tj :
  items_small info → Entities_wf (w_entities w) →
  placed (tpos (w_entities w)) (tbl_entities <$> ts_tables (w_tables w)) →
  (∀ i o, ts_tables (w_tables w) !! i = Some o → table_ok info o ∧ table_live o) →
  tpos (w_entities w) e = Some (ti, Z.to_nat (table_row l)) → Z.to_nat (table_id l) = ti →
  ts_tables (w_tables w) !! ti = Some t → ts_tables (w_tables w) !! tj = Some o → has_room o →
  ∃ l' w', move_table DROP w l ti tj = Ret (l', w') ∧ table_moved w w' e t l l' tj ∧
    w_dropped w' = w_dropped w ++
      concat ((λ c, if decide (c ∈ tbl_components o) then [] else cell_drop (DROP && has_dropper (info c)) (Table_lookup t e c))
                <$> tbl_components t).
Proof.
  intros Hsm Hwf Hp Htok Htp Hti Ht Ho Hroom.
  assert (He : tbl_entities t !! Z.to_nat (table_row l) = Some e).
  { eapply placed_at; [done|done|]. by rewrite list_lookup_fmap, Ht. }
  rewrite <- (left_behind_spec desc DROP t e (Z.to_nat (table_row l))) by (try done; by eapply Htok).
  destruct (decide (ti = tj)) as [->|Hne].
  - exists l, w. unfold move_table. rewrite decide_True by done. split; [done|]. split; [by apply move_table_same|].
    simplify_eq. rewrite (left_behind_spec desc DROP _ e (Z.to_nat (table_row l))) by (try done; by eapply Htok).
    replace (_ <$> _) with ((λ _ : Z, @nil value) <$> tbl_components t).
    { by rewrite concat_nil_fmap, app_nil_r. }
    apply list_fmap_ext. intros k c Hc. rewrite decide_True; [done|]. by eapply list_elem_of_lookup_2.
  - eapply move_table_other; eauto.
Qed.

Lemma move_spec DROP w e l a ni na o :
  items_small info → world_inv w → located (w_entities w) e = Some l → arche_of w e = Some a →
  as_arches (w_archetypes w) !! ni = Some na → Z.to_nat (arche_id l) ≠ ni →
  ts_tables (w_tables w) !! ar_table_id na = Some o → has_room o →
  ∃ l1 w1 l2 w2, move_arche w e l ni = Ret (l1, w1) ∧
    move_table DROP w1 l1 (ar_table_id a) (ar_table_id na) = Ret (l2, w2) ∧ moved DROP w w2 e a na ni l2.
Proof.
  intros Hsm Hinv Hl Hof Hna Hne Ho Hroom. pose proof Hinv as [Hreg Hrow].
  destruct (rows_entity desc known w e l Hinv Hl)
    as (a' & t & Ha & Ht & Hlink & Hae & Hte & Hof' & Htok & Hlive & Hcomp & Hao). simplify_eq.
  assert (Hcompo : tbl_components o = Archetype_dense_components na).
  { pose proof (ao_table _ _ _ _ _ (ro_arche _ _ _ Hreg _ _ (shape_arche w _ _ Hna))) as Hx. cbn in Hx.
    rewrite list_lookup_fmap, Ho in Hx. by injection Hx. }
  destruct (move_arche_spec w e l a ni na Hrow Hl Ha Hna Hne) as (aes & es & Hsr & Hwf & Hap & Htp & Hmva).
  match type of Hmva with _ = Ret (?x, ?y) => set (l1 := x) in *; set (w1 := y) in * end.
  assert (Htpe : tpos (w_entities w) e = Some (Z.to_nat (table_id l), Z.to_nat (table_row l))) by (unfold tpos; by rewrite Hl).
  assert (Hape : apos (w_entities w) e = Some (Z.to_nat (arche_id l), Z.to_nat (arche_row l))) by (unfold apos; by rewrite Hl).
  assert (Hva : (ar_entities <$> as_arches (w_archetypes w)) !! Z.to_nat (arche_id l) = Some (ar_entities a))
    by (by rewrite list_lookup_fmap, Ha).
  destruct (move_table_spec DROP w1 e t o l1 (ar_table_id a) (ar_table_id na)) as (l2 & w2 & Hmvt & Htm & Hdrop); auto.
  { cbn. eapply placed_ext; [apply Hrow|done]. }
  { cbn. apply Hrow. }
  { cbn. by rewrite Htp, Htpe, Hlink. }
  { cbn. by rewrite <- Hlink. }
  exists l1, w1, l2, w2. split; [done|]. split; [done|].
  destruct (tm_loc _ _ _ _ _ _ _ Htm) as (Hl2a & Hl2r & Hl2t). cbn in Hl2a, Hl2r.
  destruct (tm_target _ _ _ _ _ _ _ Htm) as (o' & Ho' & Hoe & Hocells).
  assert (Hsh : shape w2 = shape w).
  { unfold shape. rewrite (tm_bundles _ _ _ _ _ _ _ Htm), (tm_arches _ _ _ _ _ _ _ Htm), (tm_maps _ _ _ _ _ _ _ Htm),
      (tm_mapper _ _ _ _ _ _ _ Htm), (tm_comps _ _ _ _ _ _ _ Htm). cbn. f_equal.
    rewrite (fmap_insert_same _ _ _ na); [by eapply fmap_insert_same|by rewrite list_lookup_insert_ne|done]. }
  assert (Hcompo' : tbl_components o' = Archetype_dense_components na).
  { apply (f_equal sh_tables) in Hsh. cbn in Hsh. apply (f_equal (lookup (ar_table_id na))) in Hsh.
    rewrite !list_lookup_fmap, Ho', Ho in Hsh. injection Hsh as ->. done. }
  split.
  - done.
  - by rewrite (tm_maps _ _ _ _ _ _ _ Htm).
  - by rewrite (tm_alloc _ _ _ _ _ _ _ Htm).
  - by rewrite (tm_fired _ _ _ _ _ _ _ Htm).
  - by rewrite (tm_run _ _ _ _ _ _ _ Htm).
  - rewrite Hdrop. cbn. f_equal. f_equal. rewrite Hcompo, Hcomp. apply list_fmap_ext. intros k c Hc.
    rewrite (World_get_dense w e a t c); [done|done|by rewrite <- Hlink|by eapply list_elem_of_lookup_2].
  - rewrite Hl2a. by rewrite Nat2Z.id.
  - exists o'. repeat (split; [done|]). intros c Hca Hcn.
    rewrite (World_get_dense w e a t c) by (try done; by rewrite <- Hlink). apply Hocells; [by rewrite Hcomp|by rewrite Hcompo'].
  - rewrite <- Hcomp. apply Htm.
  - intros e' Hne' i c. by rewrite (tm_others _ _ _ _ _ _ _ Htm e' Hne').
  - assert (is_Some (located (w_entities w2) e)) as [l0 Hl0].
    { apply apos_located. rewrite (tm_apos _ _ _ _ _ _ _ Htm e). cbn. rewrite Hap.
      unfold reported. case_decide as Hm; [|by rewrite Hape].
      eapply moved_last_pos in Hm as (? & _); [|apply Hrow|done|done]. done. }
    destruct (update_location_located (w_entities w2) e l0 l2 (tm_wf _ _ _ _ _ _ _ Htm) Hl0) as (es3 & Hup & Hwf3 & Hloc3).
    destruct (apos_set _ _ _ _ Hloc3) as [Ha3 Ht3]. exists es3.
    split; [done|]. split; [done|]. split; [by rewrite Hloc3, decide_True|].
    assert (Ha3' : ∀ e', e' ≠ e → apos es3 e' = reported (moved_last (ar_entities a) (Z.to_nat (arche_row l))) (Z.to_nat (arche_row l)) (apos (w_entities w)) e').
    { intros e' Hne'. rewrite Ha3, decide_False, (tm_apos _ _ _ _ _ _ _ Htm e') by done. cbn. apply Hap. }
    split; [|split].
    + rewrite (tm_arches _ _ _ _ _ _ _ Htm). cbn. rewrite !list_fmap_insert.
      eapply (placed_move (apos (w_entities w))); [apply Hrow|exact Hape|exact Hva|by rewrite list_lookup_fmap, Hna|done|exact Hsr|].
      intros e'. destruct (decide (e' = e)) as [->|Hne'].
      * by rewrite Ha3, decide_True, Hl2a, Hl2r, !Nat2Z.id by done.
      * rewrite Ha3' by done. eapply reported_moved; [apply Hrow|done|done].
    + apply (tm_placed _ _ _ _ _ _ _ Htm).
      * by rewrite Ht3, decide_True, Hl2t by done.
      * intros e' Hne'. by rewrite Ht3, decide_False.
    + intros e' Hne'. split; [rewrite Ha3' by done; apply reported_fst|].
      rewrite Ht3, decide_False, (tm_tpos _ _ _ _ _ _ _ Htm e') by done. cbn. by rewrite Htp.
Qed.

(** The end of a move: values and maps are final, [update_location] records the
    new place. *)
Lemma moved_finish DROP w w2 w3 e a na ni l2 :
  world_inv w → as_arches (w_archetypes w) !! ni = Some na → moved DROP w w2 e a na ni l2 →
  w_entities w3 = w_entities w2 → w_archetypes w3 = w_archetypes w2 → shape w3 = shape w →
  tbl_entities <$> ts_tables (w_tables w3) = tbl_entities <$> ts_tables (w_tables w2) →
  (∀ i t, ts_tables (w_tables w3) !! i = Some t → table_ok info t ∧ table_live t) → maps_ok desc (w_maps w3) →
  (∀ e', e' ≠ e → (∀ i c, (o ← ts_tables (w_tables w3) !! i; Table_lookup o e' c)
                          = (o ← ts_tables (w_tables w) !! i; Table_lookup o e' c)) ∧
                  ∀ c, map_get (w_maps w3) c e' = map_get (w_maps w) c e') →
  (∀ c, is_Some (map_get (w_maps w3) c e) ↔ c ∈ Archetype_sparse_components na) →
  (∀ c x, map_get (w_maps w3) c e = Some x → written x) →
  ∃ es na', update_location_unwrap w3 e l2 = Ret (set_entities_w w3 es) ∧ world_inv (set_entities_w w3 es) ∧
    located es e = Some l2 ∧ (∀ e', e' ≠ e → same_entity w (set_entities_w w3 es) e') ∧
    arche_of (set_entities_w w3 es) e = Some na' ∧ cleared na' = cleared na.
Proof.
  intros [Hreg Hrow] Hna Hmv Hes Har Hsh Hte Htab Hmaps Hother Hsp Hlive.
  destruct (mv_location _ _ _ _ _ _ _ _ Hmv) as (es & Hup & Hwf & Hloc & Hpa & Hpt & Hfst).
  destruct (mv_loc _ _ _ _ _ _ _ _ Hmv) as [Hni Htj].
  assert (Hna' : sh_arches (shape w3) !! ni = Some (cleared na)) by (rewrite Hsh; by apply shape_arche).
  apply shape_arche_inv in Hna' as (na' & Hna' & Hcl).
  assert (Hofe : arche_of (set_entities_w w3 es) e = Some na').
  { unfold arche_of, apos. cbn. rewrite Hloc. cbn. by rewrite Hni. }
  exists es, na'. split; [unfold update_location_unwrap; by rewrite Hes, Hup|]. split.
  - split; [by rewrite <- Hsh in Hreg|]. apply (rows_update desc w (set_entities_w w3 es) e); auto; cbn.
    + by rewrite Har.
    + by rewrite Hte.
    + intros e' Hne. destruct (Hfst e' Hne) as [? ?]. destruct (Hother e' Hne) as [_ ?]. done.
    + intros p q a0 Hp Hq Ha0. unfold apos in Hp. unfold tpos in Hq. rewrite Hloc in Hp, Hq. cbn in Hp, Hq.
      injection Hp as <-. injection Hq as <-. cbn in Ha0 |- *. rewrite Hni, Hna' in Ha0. injection Ha0 as <-.
      rewrite Htj. exact (f_equal ar_table_id Hcl).
    + intros c. rewrite Hsp, Hofe.
      rewrite (f_equal Archetype_sparse_components Hcl : Archetype_sparse_components na = Archetype_sparse_components na').
      split; [eauto|]. by intros (? & [= <-] & ?).
  - split; [done|]. split; [|done]. intros e' Hne. destruct (Hother e' Hne) as [Ht Hm].
    apply same_entity_frame; [done|by apply Hfst|exact Ht|exact Hm].
Qed.

(** A moved entity is in its new table only. *)
Lemma moved_place DROP w w2 e a na ni l2 i t c x :
  moved DROP w w2 e a na ni l2 → ts_tables (w_tables w2) !! i = Some t → Table_lookup t e c = Some x →
  i = ar_table_id na ∧ c ∈ Archetype_dense_components na.
Proof.
  intros Hmv Ht Hx. destruct (mv_tables _ _ _ _ _ _ _ _ Hmv i t Ht) as [Hok _].
  destruct (mv_location _ _ _ _ _ _ _ _ Hmv) as (es & _ & _ & Hloc & _ & Hpt & _).
  destruct (mv_loc _ _ _ _ _ _ _ _ Hmv) as [_ Htj].
  destruct (mv_target _ _ _ _ _ _ _ _ Hmv) as (o & Ho & Hcomp & _).
  unfold Table_lookup in Hx. apply bind_Some in Hx as (r & Hr & Hx). apply bind_Some in Hx as (k & Hk & _).
  apply (get_table_row_Some info) in Hr; [|done]. apply (get_table_col_Some info) in Hk; [|done].
  assert (Htp : tpos es e = Some (i, r)) by (apply Hpt; exists (tbl_entities t); by rewrite list_lookup_fmap, Ht).
  unfold tpos in Htp. rewrite Hloc in Htp. cbn in Htp. rewrite Htj in Htp. simplify_eq. split; [done|].
  rewrite <- Hcomp. by eapply list_elem_of_lookup_2.
Qed.

(** Once every component of the new table was in the old one, nothing is
    unwritten. *)
Lemma moved_live DROP w w2 e a na ni l2 :
  moved DROP w w2 e a na ni l2 →
  (∀ c, c ∈ Archetype_dense_components na → c ∈ Archetype_dense_components a) →
  ∀ i t, ts_tables (w_tables w2) !! i = Some t → table_ok info t ∧ table_live t.
Proof.
  intros Hmv Hsub i t Ht. destruct (mv_tables _ _ _ _ _ _ _ _ Hmv i t Ht) as [Hok Hlive]. split; [done|].
  intros e' c x Hx. apply (Hlive e' c x Hx). intros ->. apply Hsub. by eapply moved_place.
Qed.

(** ** Losing components *)

(** A move to fewer components, with the rows of the lost sparse ones freed. *)
Lemma shrink_spec w e l a ni na o :
  items_small info → world_inv w → located (w_entities w) e = Some l → arche_of w e = Some a →
  as_arches (w_archetypes w) !! ni = Some na → Z.to_nat (arche_id l) ≠ ni →
  ts_tables (w_tables w) !! ar_table_id na = Some o → has_room o →
  (∀ c, c ∈ ar_components na → c ∈ ar_components a) →
  ∃ l1 w1 l2 w2 log maps w4,
    move_arche w e l ni = Ret (l1, w1) ∧
    move_table true w1 l1 (ar_table_id a) (ar_table_id na) = Ret (l2, w2) ∧
    dealloc_map_rows true (filter (λ c, Archetype_contains_sparse_component na c = false) (Archetype_sparse_components a))
      e (w_maps w2) = Ret (log, maps) ∧
    update_location_unwrap (add_dropped (set_maps w2 maps) log) e l2 = Ret w4 ∧
    world_inv w4 ∧ shape w4 = shape w ∧ relocate w4 e = Some l2 ∧ w_fired w4 = w_fired w ∧ w_allocator w4 = w_allocator w ∧
    (∀ e', e' ≠ e → same_entity w w4 e') ∧
    World_components w4 e = Some (ar_components na) ∧
    (∀ c, World_get w4 e c = if decide (c ∈ ar_components na) then World_get w e c else None) ∧
    w_dropped w4 = w_dropped w ++ entity_values desc w e (filter (λ c, lost na c = true) (ar_components a)).
Proof.
  intros Hsm Hinv Hl Hof Hna Hne Ho Hroom Hsub. pose proof Hinv as [Hreg Hrow].
  destruct (rows_entity desc known w e l Hinv Hl)
    as (a' & t & Ha & Ht & Hlink & _ & _ & Hof' & Htok & Hlv & Hcomp & Hao). simplify_eq.
  pose proof (ao_set _ _ _ _ _ Hao) as Hseta. cbn in Hseta.
  pose proof (ao_set _ _ _ _ _ (ro_arche _ _ _ Hreg _ _ (shape_arche w _ _ Hna))) as Hsetn. cbn in Hsetn.
  pose proof (λ c, set_ok_dense desc _ _ c Hsetn) as Hdense. pose proof (λ c, set_ok_sparse desc _ _ c Hsetn) as Hsparse.
  pose proof (λ c, set_ok_dense desc _ _ c Hseta) as Hdensea. pose proof (λ c, set_ok_sparse desc _ _ c Hseta) as Hsparsea.
  destruct (move_spec true w e l a ni na o) as (l1 & w1 & l2 & w2 & Hm1 & Hm2 & Hmv); auto.
  set (ids := filter (λ c, Archetype_contains_sparse_component na c = false) (Archetype_sparse_components a)).
  assert (Hids : ∀ c, c ∈ ids ↔ c ∈ Archetype_sparse_components a ∧ c ∉ ar_components na).
  { intros c. unfold ids. rewrite list_elem_of_filter. unfold Archetype_contains_sparse_component.
    rewrite bool_decide_eq_false. unfold Archetype_sparse_components. rewrite Hsparse, Hsparsea. naive_solver. }
  destruct (dealloc_map_rows_spec desc true ids e (w_maps w)) as (maps & Hde & Hmok & Hmm & Hmget).
  { apply Hrow. }
  { apply NoDup_filter, StronglySorted_lt_NoDup. exact (so_sparse_sorted _ _ _ Hseta). }
  { intros c [Hc _]%Hids. apply Hrow. eauto. }
  rewrite <- (mv_maps _ _ _ _ _ _ _ _ Hmv) in Hde.
  match type of Hde with _ = Ret (?x, _) => set (log := x) in * end.
  assert (Hsh3 : shape (add_dropped (set_maps w2 maps) log) = shape w).
  { rewrite <- (mv_shape _ _ _ _ _ _ _ _ Hmv). unfold shape. cbn. by rewrite Hmm, (mv_maps _ _ _ _ _ _ _ _ Hmv). }
  assert (Hspa : ∀ c, is_Some (map_get (w_maps w) c e) ↔ c ∈ Archetype_sparse_components a).
  { intros c. rewrite (rw_sparse _ _ Hrow), Hof. split; [by intros (? & [= <-] & ?)|eauto]. }
  destruct (moved_finish true w w2 (add_dropped (set_maps w2 maps) log) e a na ni l2)
    as (es & na' & Hup & Hinv4 & Hloc & Hothers & Hof4 & Hcl); auto; cbn.
  { apply (moved_live _ _ _ _ _ _ _ _ Hmv). intros c [Hc Hd]%Hdense. apply Hdensea. auto. }
  { intros e' Hne'. split; [by apply (mv_others _ _ _ _ _ _ _ _ Hmv)|]. intros c. by rewrite Hmget, decide_False by naive_solver. }
  { intros c. rewrite Hmget. case_decide as Hc.
    - destruct Hc as [_ Hc]. apply Hids in Hc as [_ Hc]. split; [by intros []|]. by intros [? _]%Hsparse.
    - rewrite Hspa. split.
      + intros Hc'. pose proof Hc' as [_ Hs]%Hsparsea. apply Hsparse. split; [|done].
        destruct (decide (c ∈ ar_components na)); [done|]. exfalso. apply Hc. split; [done|]. by apply Hids.
      + intros [Hc' Hs]%Hsparse. apply Hsparsea. auto. }
  { intros c x. rewrite Hmget. case_decide; [done|]. apply Hrow. }
  exists l1, w1, l2, w2, log, maps, (set_entities_w (add_dropped (set_maps w2 maps) log) es).
  repeat (split; [done|]).
  split; [apply (mv_fired _ _ _ _ _ _ _ _ Hmv)|]. split; [apply (mv_alloc _ _ _ _ _ _ _ _ Hmv)|]. split; [done|].
  split; [unfold World_components; rewrite Hof4; cbn; by rewrite (f_equal ar_components Hcl : ar_components na' = ar_components na)|].
  split.
  - intros c. unfold World_get at 1. rewrite Hof4. cbn.
    rewrite (f_equal Archetype_dense_components Hcl : Archetype_dense_components na' = Archetype_dense_components na).
    rewrite (f_equal ar_table_id Hcl : ar_table_id na' = ar_table_id na).
    destruct (mv_target _ _ _ _ _ _ _ _ Hmv) as (o' & -> & _ & _ & Hcells). cbn. rewrite Hmget.
    destruct (decide (c ∈ Archetype_dense_components na)) as [Hd|Hd].
    + pose proof Hd as [Hc Hs]%Hdense. rewrite decide_True by done. apply Hcells; [|done]. apply Hdensea. auto.
    + destruct (decide (c ∈ ar_components na)) as [Hc|Hc].
      * assert (Hsp : c ∈ Archetype_sparse_components a).
        { apply Hsparsea. split; [auto|]. destruct (cd_storage (desc c)) eqn:Es; [|done]. exfalso. apply Hd, Hdense. done. }
        rewrite decide_False by (intros [_ Hx]; apply Hids in Hx; naive_solver).
        symmetry. by apply (World_get_sparse desc w e a).
      * case_decide as Hx; [done|]. destruct (map_get (w_maps w) c e) eqn:Hg; [|done]. exfalso. apply Hx. split; [done|].
        apply Hids. split; [|done]. apply Hspa. eauto.
  - cbn. rewrite (mv_dropped _ _ _ _ _ _ _ _ Hmv), <- app_assoc. f_equal.
    rewrite (entity_values_split desc w e a t (lost na) Hof Hseta) by (by rewrite <- Hlink). f_equal.
    + rewrite (concat_if_filter _ (lost na)).
      * f_equal. apply list_fmap_ext. intros k c Hc. f_equal.
        apply list_elem_of_lookup_2, list_elem_of_filter in Hc as [_ Hc]. apply (World_get_dense w e a t); [done|by rewrite <- Hlink|done].
      * intros c [Hc Hs]%Hdensea. rewrite lost_true. unfold Archetype_dense_components. rewrite Hdense. naive_solver.
    + unfold log. rewrite (mv_maps _ _ _ _ _ _ _ _ Hmv). f_equal. f_equal. unfold ids. apply list_filter_iff_elem. intros c [Hc Hs]%Hsparsea.
      unfold Archetype_contains_sparse_component. rewrite lost_true, bool_decide_eq_false.
      unfold Archetype_sparse_components. rewrite Hsparse. naive_solver.
Qed.
End move.
