(* ===== verification/WorldWrite.v ===== *)
(** * Writing a bundle

    The [ComponentWriter] of [component/tools.rs] as the world drives it:
    explicit components are stored with the values given, required ones with
    their defaults unless something is stored already, and nothing else
    changes. *)

From Stdlib Require Import ZArith Lia Sorting.Sorted.
From S2P Require Import Prelude Tick EntityIdent EntityInfo FreeCount FreeBuffer Allocator Column Table SparseMap.
From S2P Require Import Locations Registry World WorldInv.

Section writer.
Context `{VecGrowth}.
Variable desc : Z → ComponentDesc.
Notation info := (λ c, cd_info (desc c)).

(** What is stored for the entity being written. *)
Definition wr_get (wr : ComponentWriter) (c : Z) : option cell :=
  match cd_storage (desc c) with
  | Dense => Table_lookup (wr_table wr) (wr_entity wr) c
  | Sparse => map_get (wr_maps wr) c (wr_entity wr)
  end.

Record writer_ok (wr : ComponentWriter) : Prop := {
  wo_table : table_ok info (wr_table wr);
  wo_row : tbl_entities (wr_table wr) !! wr_table_row wr = Some (wr_entity wr);
  wo_maps : maps_ok desc (wr_maps wr)
}.

(** What no write changes. *)
Record wrote_to (wr wr' : ComponentWriter) : Prop := {
  wt_ok : writer_ok wr';
  wt_entity : wr_entity wr' = wr_entity wr;
  wt_tick : wr_tick wr' = wr_tick wr;
  wt_ents : tbl_entities (wr_table wr') = tbl_entities (wr_table wr);
  wt_comps : tbl_components (wr_table wr') = tbl_components (wr_table wr);
  wt_mapper : ms_mapper (wr_maps wr') = ms_mapper (wr_maps wr);
  wt_table : ∀ e c, e ≠ wr_entity wr → Table_lookup (wr_table wr') e c = Table_lookup (wr_table wr) e c;
  wt_maps : ∀ e c, e ≠ wr_entity wr → map_get (wr_maps wr') c e = map_get (wr_maps wr) c e;
  wt_dom : ∀ c, is_Some (map_get (wr_maps wr') c (wr_entity wr)) ↔ is_Some (map_get (wr_maps wr) c (wr_entity wr))
}.

Lemma wrote_to_refl wr : writer_ok wr → wrote_to wr wr.
Proof. intros Hok. by split. Qed.

Lemma wrote_to_trans wr1 wr2 wr3 : wrote_to wr1 wr2 → wrote_to wr2 wr3 → wrote_to wr1 wr3.
Proof.
  intros H1 H2. pose proof (wt_entity _ _ H1) as He. split.
  - apply H2.
  - by rewrite (wt_entity _ _ H2).
  - by rewrite (wt_tick _ _ H2), (wt_tick _ _ H1).
  - by rewrite (wt_ents _ _ H2), (wt_ents _ _ H1).
  - by rewrite (wt_comps _ _ H2), (wt_comps _ _ H1).
  - by rewrite (wt_mapper _ _ H2), (wt_mapper _ _ H1).
  - intros e c Hne. rewrite (wt_table _ _ H2) by (by rewrite He). by apply H1.
  - intros e c Hne. rewrite (wt_maps _ _ H2) by (by rewrite He). by apply H1.
  - intros c. rewrite <- (wt_dom _ _ H1), <- He. apply H2.
Qed.

Definition fits (c : Z) (v : value) : Prop := length v = pad_to_align (layout_size (info c)) (layout_align (info c)).

(** [wr'] stores [x] for [c] and is otherwise as [wr]. *)
Definition stores (wr wr' : ComponentWriter) (c : Z) (x : cell) : Prop :=
  wrote_to wr wr' ∧ ∀ c', wr_get wr' c' = if decide (c' = c) then Some x else wr_get wr c'.

Lemma dense_column wr c :
  writer_ok wr → cd_storage (desc c) = Dense → is_Some (wr_get wr c) →
  ∃ k, Table_get_table_col (wr_table wr) c = Some k ∧ tbl_components (wr_table wr) !! k = Some c.
Proof.
  intros Hok Hd. unfold wr_get. rewrite Hd. intros [x Hx]. unfold Table_lookup in Hx.
  apply bind_Some in Hx as (r & _ & Hx). apply bind_Some in Hx as (k & Hk & _). exists k. split; [done|].
  apply (get_table_col_Some info) in Hk; [done|apply Hok].
Qed.

Lemma sparse_row wr c :
  writer_ok wr → cd_storage (desc c) = Sparse → is_Some (wr_get wr c) →
  ∃ id m r hw, Maps_get_unchecked (wr_maps wr) c = Ret (id, m) ∧ ms_mapper (wr_maps wr) !! c = Some id ∧
    map_of (wr_maps wr) c = Some m ∧ map_shape (info c) hw m ∧ Map_get_map_row m (wr_entity wr) = Some r ∧
    wr_get wr c = Some (Column_cell (map_column m) r).
Proof.
  intros Hok Hs. unfold wr_get. rewrite Hs. intros [x Hx].
  assert (∃ m, map_of (wr_maps wr) c = Some m) as [m Hm].
  { unfold map_get in Hx. destruct (map_of (wr_maps wr) c); [eauto|done]. }
  destruct (map_of_get _ _ _ Hm) as (id & Hget & Hid). destruct (map_of_shape _ _ _ _ (wo_maps _ Hok) Hm) as [hw Hsh].
  destruct (map_get_row _ _ _ _ _ Hm Hx) as (r & Hr & ->). exists id, m, r, hw. by rewrite Hx.
Qed.

(** A column write in a table is a store of a dense component. *)
Lemma table_stores wr cs c x s log :
  writer_ok wr → cd_storage (desc c) = Dense → table_ok info (set_columns (wr_table wr) cs) →
  (∀ e' c', Table_lookup (set_columns (wr_table wr) cs) e' c'
            = if decide (e' = wr_entity wr ∧ c' = c) then Some x else Table_lookup (wr_table wr) e' c') →
  stores wr (wrote wr (set_columns (wr_table wr) cs) (wr_maps wr) c s log) c x.
Proof.
  intros Hok Hd Htok Hl. split.
  - split; try done; [split; [done|apply Hok|apply Hok]|]. intros e' c' Hne.
    cbn [wrote wr_table]. by rewrite Hl, decide_False by naive_solver.
  - intros c'. unfold wr_get. cbn [wrote wr_table wr_maps wr_entity]. destruct (decide (c' = c)) as [->|Hne].
    + by rewrite Hd, Hl, decide_True by done.
    + destruct (cd_storage (desc c')); [|done]. by rewrite Hl, decide_False by naive_solver.
Qed.

(** A column write in a map is a store of a sparse component. *)
Lemma map_stores wr id m r hw col c x s log :
  writer_ok wr → cd_storage (desc c) = Sparse → ms_mapper (wr_maps wr) !! c = Some id → map_of (wr_maps wr) c = Some m →
  map_shape (info c) hw m → Map_get_map_row m (wr_entity wr) = Some r → map_shape (info c) hw (set_column m col) →
  (∀ j, j < length (map_entities m) → Column_cell col j = if decide (j = r) then x else Column_cell (map_column m) j) →
  stores wr (wrote wr (wr_table wr) (set_map (wr_maps wr) id (set_column m col)) c s log) c x.
Proof.
  intros Hok Hs Hid Hm Hsh Hr Hsh' Hcell.
  destruct (set_map_ok desc (wr_maps wr) c id hw _ (wo_maps _ Hok) Hid Hsh') as [Hmok _].
  pose proof (set_map_get desc (wr_maps wr) c id hw _ (wo_maps _ Hok) Hid Hsh') as Hget.
  assert (Hl : ∀ e', Map_lookup (set_column m col) e' = if decide (e' = wr_entity wr) then Some x else Map_lookup m e').
  { intros e'. unfold Map_lookup, Map_get_map_row in *. cbn. destruct (map_mapper m !! e') as [r'|] eqn:Hr'; cbn.
    - pose proof (map_row_lt (info c) hw m e' r' Hsh Hr') as [_ Hlt]. rewrite Hcell by done. case_decide as He.
      + subst r'. rewrite decide_True; [done|]. by eapply map_row_inj.
      + rewrite decide_False; [done|]. intros ->. congruence.
    - rewrite decide_False; [done|]. intros ->. congruence. }
  assert (Hmget : ∀ c' e', map_get (set_map (wr_maps wr) id (set_column m col)) c' e'
                           = if decide (c' = c ∧ e' = wr_entity wr) then Some x else map_get (wr_maps wr) c' e').
  { intros c' e'. rewrite Hget. destruct (decide (c' = c)) as [->|Hne].
    - rewrite Hl. unfold map_get. rewrite Hm. cbn. repeat case_decide; naive_solver.
    - by rewrite decide_False by naive_solver. }
  split.
  - split; cbn; try done.
    + split; cbn; [apply Hok|apply Hok|done].
    + intros e' c' Hne. by rewrite Hmget, decide_False by naive_solver.
    + intros c'. rewrite Hmget. case_decide as Hx; [|done]. destruct Hx as [-> _]. split; [|by eexists].
      intros _. unfold map_get. rewrite Hm. cbn. unfold Map_lookup. rewrite Hr. by eexists.
  - intros c'. unfold wr_get. cbn. destruct (decide (c' = c)) as [->|Hne].
    + by rewrite Hs, Hmget, decide_True by done.
    + destruct (cd_storage (desc c')); [done|]. by rewrite Hmget, decide_False by naive_solver.
Qed.

(** ** Single writes *)

Lemma write_explicit_spec wr c v :
  writer_ok wr → is_Some (wr_get wr c) → fits c v →
  ∃ wr' old, ComponentWriter_write_explicit desc wr c v = Ret wr' ∧ wr_get wr c = Some old ∧
    stores wr wr' c (v, if decide (is_Some (wr_writed wr !! c)) then old.1.2 else Some (wr_tick wr), Some (wr_tick wr)) ∧
    wr_writed wr' = <[c := Writed_Explicit]> (wr_writed wr) ∧
    wr_dropped wr' = wr_dropped wr ++
      (if decide (is_Some (wr_writed wr !! c)) then cell_drop (has_dropper (info c)) (Some old) else []).
Proof.
  intros Hok Hav Hfit. unfold ComponentWriter_write_explicit. destruct (cd_storage (desc c)) eqn:Hs.
  - destruct (dense_column wr c Hok Hs Hav) as (k & Hk & Hck). unfold ComponentWriter_write_dense. rewrite Hk. cbn [of_option mbind outcome_bind].
    destruct (Table_replace_item_spec info (wr_table wr) (wr_table_row wr) (wr_entity wr) k c v (wr_tick wr))
      as (cs & o & ad & ch & Hl & Hrep & Htok & Htl); [apply Hok|apply Hok|done|done|].
    destruct (Table_init_item_spec info (wr_table wr) (wr_table_row wr) (wr_entity wr) k c v (wr_tick wr))
      as (cs' & Hini & Htok' & Htl'); [apply Hok|apply Hok|done|done|].
    assert (Hold : wr_get wr c = Some (o, ad, ch)) by (unfold wr_get; by rewrite Hs).
    destruct (wr_writed wr !! c) as [st|] eqn:Hw.
    + rewrite Hrep. cbn [mbind outcome_bind]. eexists _, (o, ad, ch). split; [reflexivity|]. split; [done|].
      rewrite !decide_True by (by eexists). split; [by apply table_stores|]. split; [done|]. cbn. by destruct (has_dropper _).
    + rewrite Hini. cbn [mbind outcome_bind]. eexists _, (o, ad, ch). split; [reflexivity|]. split; [done|].
      rewrite !decide_False by (by intros []). split; [by apply table_stores|]. done.
  - destruct (sparse_row wr c Hok Hs Hav) as (id & m & r & hw & Hget & Hid & Hm & Hsh & Hr & Hold).
    pose proof (map_row_lt (info c) hw m _ r Hsh Hr) as [_ Hlt].
    unfold ComponentWriter_write_sparse. rewrite Hget. cbn [mbind outcome_bind]. rewrite Hr. cbn [of_option mbind outcome_bind].
    destruct (Map_replace_item_spec (info c) hw m r v (wr_tick wr) Hsh Hlt Hfit) as (col & Hrep & Hsh' & Hcell).
    destruct (Map_init_item_spec (info c) hw m r v (wr_tick wr) Hsh Hlt Hfit) as (col' & Hini & Hsh2 & Hcell').
    destruct (wr_writed wr !! c) as [st|] eqn:Hw.
    + rewrite Hrep. cbn [mbind outcome_bind]. eexists _, _. split; [reflexivity|]. split; [done|].
      rewrite !decide_True by (by eexists). split; [by eapply map_stores|]. done.
    + rewrite Hini. cbn [mbind outcome_bind]. eexists _, _. split; [reflexivity|]. split; [done|].
      rewrite !decide_False by (by intros []). split; [by eapply map_stores|]. done.
Qed.

Lemma write_required_spec wr c :
  writer_ok wr → is_Some (wr_get wr c) → fits c (cd_default (desc c)) →
  ∃ wr', ComponentWriter_write_required desc wr c = Ret wr' ∧ wr_dropped wr' = wr_dropped wr ∧
    if decide (is_Some (wr_writed wr !! c)) then wr' = wr
    else stores wr wr' c (cd_default (desc c), Some (wr_tick wr), Some (wr_tick wr)) ∧
         wr_writed wr' = <[c := Writed_Required]> (wr_writed wr).
Proof.
  intros Hok Hav Hfit. unfold ComponentWriter_write_required. destruct (wr_writed wr !! c) as [st|] eqn:Hw.
  { exists wr. split; [done|]. split; [done|]. by rewrite decide_True by (by eexists). }
  destruct (cd_storage (desc c)) eqn:Hs.
  - destruct (dense_column wr c Hok Hs Hav) as (k & Hk & Hck). unfold ComponentWriter_init_dense. rewrite Hk. cbn [of_option mbind outcome_bind].
    destruct (Table_init_item_spec info (wr_table wr) (wr_table_row wr) (wr_entity wr) k c (cd_default (desc c)) (wr_tick wr))
      as (cs & Hini & Htok & Htl); [apply Hok|apply Hok|done|done|].
    rewrite Hini. cbn [mbind outcome_bind]. eexists. split; [reflexivity|]. split; [cbn; by rewrite app_nil_r|].
    rewrite decide_False by (by intros []). split; [by apply table_stores|done].
  - destruct (sparse_row wr c Hok Hs Hav) as (id & m & r & hw & Hget & Hid & Hm & Hsh & Hr & Hold).
    pose proof (map_row_lt (info c) hw m _ r Hsh Hr) as [_ Hlt].
    unfold ComponentWriter_init_sparse. rewrite Hget. cbn [mbind outcome_bind]. rewrite Hr. cbn [of_option mbind outcome_bind].
    destruct (Map_init_item_spec (info c) hw m r _ (wr_tick wr) Hsh Hlt Hfit) as (col & Hini & Hsh2 & Hcell).
    rewrite Hini. cbn [mbind outcome_bind]. eexists. split; [reflexivity|]. split; [cbn; by rewrite app_nil_r|].
    rewrite decide_False by (by intros []). split; [by eapply map_stores|done].
Qed.

(** ** Whole bundles *)

Lemma stores_available wr wr' c x c' :
  stores wr wr' c x → is_Some (wr_get wr c') → is_Some (wr_get wr' c').
Proof. intros [_ Hg] Hs. rewrite Hg. by case_decide. Qed.

Lemma bundle_write_explicit_spec bundle wr :
  writer_ok wr → NoDup bundle.*1 → (∀ c v, (c, v) ∈ bundle → is_Some (wr_get wr c) ∧ fits c v) →
  ∃ wr', bundle_write_explicit desc bundle wr = Ret wr' ∧ wrote_to wr wr' ∧
    (∀ c v, (c, v) ∈ bundle → ∃ old, wr_get wr c = Some old ∧
       wr_get wr' c = Some (v, if decide (is_Some (wr_writed wr !! c)) then old.1.2 else Some (wr_tick wr), Some (wr_tick wr))) ∧
    (∀ c, c ∉ bundle.*1 → wr_get wr' c = wr_get wr c) ∧
    (∀ c, is_Some (wr_writed wr' !! c) ↔ is_Some (wr_writed wr !! c) ∨ c ∈ bundle.*1) ∧
    wr_dropped wr' = wr_dropped wr ++
      concat ((λ c, if decide (is_Some (wr_writed wr !! c)) then cell_drop (has_dropper (info c)) (wr_get wr c) else []) <$> bundle.*1).
Proof.
  revert wr. induction bundle as [|[c v] bundle IH]; intros wr Hok Hnd Hav; cbn.
  { exists wr. split; [done|]. split; [by apply wrote_to_refl|]. split; [set_solver|]. split; [done|]. split; [set_solver|]. by rewrite app_nil_r. }
  cbn in Hnd. apply NoDup_cons in Hnd as [Hc Hnd]. destruct (Hav c v) as [Hav1 Hfit]; [set_solver|].
  destruct (write_explicit_spec wr c v Hok Hav1 Hfit) as (wr1 & old & -> & Hold & Hst & Hw1 & Hd1). cbn [mbind outcome_bind].
  pose proof Hst as [Hto Hg1].
  destruct (IH wr1) as (wr2 & -> & Hto2 & Hin & Hout & Hw2 & Hd2); [apply Hto|done| |].
  { intros c' v' Hx. destruct (Hav c' v') as [Ha Hf]; [set_solver|]. split; [by eapply stores_available|done]. }
  assert (Hne : ∀ c', c' ∈ bundle.*1 → c' ≠ c) by (intros c' Hx ->; done).
  assert (Hkeep : ∀ c', c' ∈ bundle.*1 → wr_get wr1 c' = wr_get wr c' ∧ wr_writed wr1 !! c' = wr_writed wr !! c').
  { intros c' Hx. specialize (Hne c' Hx). rewrite Hg1, Hw1, decide_False by done. split; [done|]. by rewrite lookup_insert_ne. }
  assert (Htk : wr_tick wr1 = wr_tick wr) by apply Hto.
  exists wr2. split; [done|]. split; [by eapply wrote_to_trans|]. split; [|split; [|split]].
  - intros c' v' [[= -> ->]|Hx]%elem_of_cons.
    + exists old. split; [done|]. by rewrite (Hout c), Hg1, decide_True by done.
    + assert (Hx' : c' ∈ bundle.*1) by (apply list_elem_of_fmap; by exists (c', v')).
      destruct (Hin c' v' Hx) as (old' & Ho & Hn). destruct (Hkeep c' Hx') as [Hk1 Hk2].
      exists old'. rewrite <- Hk1, <- Hk2, <- Htk. done.
  - intros c' Hn. apply not_elem_of_cons in Hn as [Hn1 Hn2]. by rewrite Hout, Hg1, decide_False.
  - intros c'. rewrite Hw2, Hw1. rewrite elem_of_cons. destruct (decide (c' = c)) as [->|Hcc].
    + rewrite lookup_insert_eq. split; [by right; left|]. intros _. left. by eexists.
    + rewrite lookup_insert_ne by done. tauto.
  - rewrite Hd2, Hd1, <- app_assoc. f_equal. rewrite Hold. f_equal. f_equal. apply list_fmap_ext. intros k c' Hx.
    apply list_elem_of_lookup_2 in Hx. destruct (Hkeep c' Hx) as [-> ->]. done.
Qed.

Lemma required_write_app ids ids' wr :
  required_write desc (ids ++ ids') wr = wr' ← required_write desc ids wr; required_write desc ids' wr'.
Proof.
  revert wr. induction ids as [|id ids IH]; intros wr; cbn; [done|].
  destruct (ComponentWriter_write_required desc wr id) as [wr1| |]; cbn; [apply IH|done|done].
Qed.

Lemma bundle_write_required_flat types wr :
  bundle_write_required desc types wr = required_write desc (types ≫= λ t, cd_required (desc t)) wr.
Proof.
  revert wr. induction types as [|t types IH]; intros wr; [done|]. cbn [bundle_write_required mbind list_bind].
  rewrite required_write_app. destruct (required_write desc (cd_required (desc t)) wr) as [wr1| |]; cbn; [apply IH|done|done].
Qed.

Lemma required_write_spec ids wr :
  writer_ok wr → (∀ c, c ∈ ids → is_Some (wr_get wr c) ∧ fits c (cd_default (desc c))) →
  ∃ wr', required_write desc ids wr = Ret wr' ∧ wrote_to wr wr' ∧ wr_dropped wr' = wr_dropped wr ∧
    (∀ c, wr_get wr' c = if decide (c ∈ ids ∧ ¬ is_Some (wr_writed wr !! c))
                         then Some (cd_default (desc c), Some (wr_tick wr), Some (wr_tick wr)) else wr_get wr c) ∧
    ∀ c, is_Some (wr_writed wr' !! c) ↔ is_Some (wr_writed wr !! c) ∨ c ∈ ids.
Proof.
  revert wr. induction ids as [|c ids IH]; intros wr Hok Hav; cbn.
  { exists wr. split; [done|]. split; [by apply wrote_to_refl|]. split; [done|]. split; [|set_solver].
    intros c. rewrite decide_False; [done|]. set_solver. }
  destruct (Hav c) as [Hav1 Hfit]; [set_solver|].
  destruct (write_required_spec wr c Hok Hav1 Hfit) as (wr1 & -> & Hd1 & Hif). cbn [mbind outcome_bind].
  destruct (decide (is_Some (wr_writed wr !! c))) as [Hw|Hw].
  - subst wr1. destruct (IH wr Hok) as (wr2 & -> & Hto & Hd & Hg & Hw2); [intros; apply Hav; set_solver|].
    exists wr2. split; [done|]. split; [done|]. split; [done|]. split.
    + intros c'. rewrite Hg. repeat case_decide; set_solver.
    + intros c'. rewrite Hw2. set_solver.
  - destruct Hif as [Hst Hw1]. pose proof Hst as [Hto1 Hg1].
    destruct (IH wr1) as (wr2 & -> & Hto & Hd & Hg & Hw2); [apply Hto1| |].
    { intros c' Hx. destruct (Hav c') as [Ha Hf]; [set_solver|]. split; [by eapply stores_available|done]. }
    exists wr2. split; [done|]. split; [by eapply wrote_to_trans|]. split; [by rewrite Hd|]. split.
    + intros c'. rewrite Hg, Hg1, Hw1, (wt_tick _ _ Hto1). destruct (decide (c' = c)) as [->|Hcc].
      * rewrite lookup_insert_eq. rewrite decide_False by (intros [_ Hx]; apply Hx; by eexists).
        rewrite decide_True; [done|]. set_solver.
      * rewrite lookup_insert_ne by done. repeat case_decide; set_solver.
    + intros c'. rewrite Hw2, Hw1, elem_of_cons. destruct (decide (c' = c)) as [->|Hcc].
      * rewrite lookup_insert_eq. split; [by right; left|]. intros _. left. by eexists.
      * rewrite lookup_insert_ne by done. tauto.
Qed.

(** The components a bundle's types require directly. *)
Definition directly_required (types : list Z) : list Z := types ≫= λ t, cd_required (desc t).


(** Explicit and then required components: [writed] tells what was stored
    before. *)
Lemma bundle_write_spec bundle wr :
  writer_ok wr → NoDup bundle.*1 → (∀ c v, (c, v) ∈ bundle → is_Some (wr_get wr c) ∧ fits c v) →
  (∀ c, c ∈ directly_required bundle.*1 → is_Some (wr_get wr c) ∧ fits c (cd_default (desc c))) →
  ∃ wr1 wr2, bundle_write_explicit desc bundle wr = Ret wr1 ∧ bundle_write_required desc bundle.*1 wr1 = Ret wr2 ∧
    wrote_to wr wr2 ∧
    (∀ c v, (c, v) ∈ bundle → ∃ old, wr_get wr c = Some old ∧
       wr_get wr2 c = Some (v, if decide (is_Some (wr_writed wr !! c)) then old.1.2 else Some (wr_tick wr), Some (wr_tick wr))) ∧
    (∀ c, c ∉ bundle.*1 → wr_get wr2 c = if decide (c ∈ directly_required bundle.*1 ∧ ¬ is_Some (wr_writed wr !! c))
       then Some (cd_default (desc c), Some (wr_tick wr), Some (wr_tick wr)) else wr_get wr c) ∧
    wr_dropped wr2 = wr_dropped wr ++
      concat ((λ c, if decide (is_Some (wr_writed wr !! c)) then cell_drop (has_dropper (info c)) (wr_get wr c) else []) <$> bundle.*1).
Proof.
  intros Hok Hnd Hexp Hreq.
  destruct (bundle_write_explicit_spec bundle wr Hok Hnd Hexp) as (wr1 & Hw1 & Hto1 & Hin1 & Hout1 & Hwd1 & Hdr1).
  destruct (required_write_spec (directly_required bundle.*1) wr1 (wt_ok _ _ Hto1)) as (wr2 & Hw2 & Hto2 & Hdr2 & Hg2 & Hwd2).
  { intros c Hx. destruct (Hreq c Hx) as [Hav Hf]. split; [|done]. destruct (decide (c ∈ bundle.*1)) as [Hc|Hc].
    - apply list_elem_of_fmap in Hc as ([c' v] & -> & Hc). cbn. destruct (Hin1 _ _ Hc) as (old & _ & ->). by eexists.
    - by rewrite Hout1. }
  exists wr1, wr2. split; [done|]. split; [by rewrite bundle_write_required_flat|]. split; [by eapply wrote_to_trans|].
  split; [|split; [|by rewrite Hdr2]].
  - intros c v Hx. destruct (Hin1 c v Hx) as (old & Ho & Hg). exists old. split; [done|]. rewrite Hg2, decide_False; [done|].
    intros [_ Hn]. apply Hn, Hwd1. right. apply list_elem_of_fmap. by exists (c, v).
  - intros c Hc. rewrite Hg2, Hout1, (wt_tick _ _ Hto1) by done. repeat case_decide; naive_solver.
Qed.
End writer.
