(* ===== verification/WorldQuiet.v ===== *)
(** * What operations leave alone

    Operations on a spawned entity never touch the allocator and never change the
    generation recorded in a slot, whatever else they do. *)

From Stdlib Require Import ZArith Lia.
From S2P Require Import Prelude Tick EntityIdent EntityInfo FreeCount FreeBuffer Allocator Column Table SparseMap Registry World.

Definition tag_at (es : Entities) (j : nat) : EntityTag := info_tag (slot es j).

Definition quiet (w w' : World) : Prop :=
  w_allocator w' = w_allocator w ∧ ∀ j, tag_at (w_entities w') j = tag_at (w_entities w) j.

#[global] Instance quiet_preorder : PreOrder quiet.
Proof.
  split; [by intros w|]. intros w1 w2 w3 [Ha Ht] [Ha' Ht']. split; [congruence|]. intros j. by rewrite Ht'.
Qed.

(** The same location table and allocator. *)
Lemma quiet_same w w' : w_allocator w' = w_allocator w → w_entities w' = w_entities w → quiet w w'.
Proof. intros Ha He. split; [done|]. intros j. by rewrite He. Qed.

(** Splits a run known to return. *)
Ltac split_run H :=
  repeat match type of H with
  | mbind _ ?m = Ret _ => destruct m eqn:?; cbn [mbind outcome_bind] in H; [|discriminate H|discriminate H]
  | (let '(_, _) := ?p in _) = Ret _ => destruct p eqn:?
  | (if decide ?P then _ else _) = Ret _ => destruct (decide P)
  | match ?x with Some _ => _ | None => _ end = Ret _ => destruct x eqn:?
  | match ?x with Ok _ => _ | Err _ => _ end = Ret _ => destruct x eqn:?; try discriminate H
  | Ret _ = Ret _ => injection H as H
  end; simplify_eq; cbn [fst snd] in *.

(** Chains the quiet steps of a run. *)
Ltac solve_quiet :=
  unfold quiet in *; cbn in *;
  repeat match goal with Hq : _ ∧ (∀ j, tag_at _ j = tag_at _ j) |- _ => destruct Hq end;
  split; [congruence|]; let j := fresh in intros j;
  repeat match goal with Hq : ∀ j, tag_at _ j = tag_at _ j |- _ => specialize (Hq j) end; congruence.

(** Writing a location keeps every tag. *)
Lemma set_location_tags es i info o j :
  infos es !! i = Some info → tag_at (mkEntities (<[i := mkInfo (info_tag info) o]> (infos es))) j = tag_at es j.
Proof.
  intros Hi. unfold tag_at, slot. cbn. destruct (decide (i = j)) as [<-|Hne].
  - rewrite list_lookup_insert_eq by (by eapply lookup_lt_Some). by rewrite Hi.
  - by rewrite list_lookup_insert_ne.
Qed.

Lemma update_row_tags es m j : tag_at (Entities_update_row es m).2 j = tag_at es j.
Proof.
  unfold Entities_update_row. destruct (moved_entity m) as [e|]; [|done].
  destruct (infos es !! Entity_index e) as [info|] eqn:Hi; [|done]. case_decide; [|done].
  destruct (info_location info); [|done]. by apply set_location_tags.
Qed.

Lemma update_location_tags es e l j : tag_at (Entities_update_location es e l).2 j = tag_at es j.
Proof.
  unfold Entities_update_location. destruct (infos es !! Entity_index e) as [info|] eqn:Hi; [|done]. case_decide; [|done].
  destruct (info_location info); [|done]. by apply set_location_tags.
Qed.

Lemma set_despawned_tags es e j : tag_at (Entities_set_despawned es e).2 j = tag_at es j.
Proof.
  unfold Entities_set_despawned. destruct (infos es !! Entity_index e) as [info|] eqn:Hi; [|done]. case_decide; [|done].
  destruct (info_location info); by apply set_location_tags.
Qed.

Lemma update_row_unwrap_quiet w m w' : update_row_unwrap w m = Ret w' → quiet w w'.
Proof.
  unfold update_row_unwrap. intros Hr. pose proof (update_row_tags (w_entities w) m) as Ht.
  destruct (Entities_update_row (w_entities w) m) as [[] es]; by simplify_eq.
Qed.

Lemma update_location_unwrap_quiet w e l w' : update_location_unwrap w e l = Ret w' → quiet w w'.
Proof.
  unfold update_location_unwrap. intros Hr. pose proof (update_location_tags (w_entities w) e l) as Ht.
  destruct (Entities_update_location (w_entities w) e l) as [[] es]; by simplify_eq.
Qed.

Section quiet.
Context `{VecGrowth}.
Variable desc : Z → ComponentDesc.
Variable len : nat.

Lemma move_arche_quiet w e l i l' w' : move_arche w e l i = Ret (l', w') → quiet w w'.
Proof. unfold move_arche. intros Hr. split_run Hr. apply update_row_unwrap_quiet in Heqo1. solve_quiet. Qed.

Lemma move_table_quiet DROP w l i j l' w' : move_table DROP w l i j = Ret (l', w') → quiet w w'.
Proof. unfold move_table. intros Hr. split_run Hr; [done|]. apply update_row_unwrap_quiet in Heqo2. solve_quiet. Qed.

(** Registration touches neither locations nor the allocator. *)
Lemma find_or_register_quiet w cs dl i w' : find_or_register desc w cs dl = Ret (i, w') → quiet w w'.
Proof. unfold find_or_register, register_storages. intros Hr. split_run Hr; by apply quiet_same. Qed.

Lemma arche_after_insert_quiet w a b i w' : World_arche_after_insert desc w a b = Ret (i, w') → quiet w w'.
Proof.
  unfold World_arche_after_insert. intros Hr. split_run Hr; [done|]. apply find_or_register_quiet in Heqo2. solve_quiet.
Qed.

Lemma arche_after_remove_quiet w a b i w' : World_arche_after_remove desc len w a b = Ret (i, w') → quiet w w'.
Proof.
  unfold World_arche_after_remove. intros Hr. split_run Hr; [done|]. apply find_or_register_quiet in Heqo3. solve_quiet.
Qed.

Lemma register_explicit_quiet w ts i w' : World_register_explicit_bundle desc w ts = Ret (i, w') → quiet w w'.
Proof. unfold World_register_explicit_bundle. intros Hr. split_run Hr; by apply quiet_same. Qed.

Lemma register_required_quiet w ts i w' : World_register_required_bundle desc len w ts = Ret (i, w') → quiet w w'.
Proof. unfold World_register_required_bundle. intros Hr. split_run Hr; by apply quiet_same. Qed.

Lemma insert_local_quiet w e l b bundle r w' : insert_local desc w e l b bundle = Ret (r, w') → quiet w w'.
Proof. unfold insert_local. intros Hr. split_run Hr. by apply quiet_same. Qed.

Lemma insert_moved_quiet w e l i b bundle r w' : insert_moved desc w e l i b bundle = Ret (r, w') → quiet w w'.
Proof.
  unfold insert_moved. intros Hr. split_run Hr. apply move_arche_quiet in Heqo2. apply move_table_quiet in Heqo3.
  apply update_location_unwrap_quiet in Heqo7. solve_quiet.
Qed.

Lemma insert_quiet w e h bundle r w' : EntityOwned_insert desc len w e h bundle = Ret (r, w') → quiet w w'.
Proof.
  unfold EntityOwned_insert. intros Hr. split_run Hr;
    apply register_required_quiet in Heqo0; apply register_explicit_quiet in Heqo1; apply arche_after_insert_quiet in Heqo2;
    [apply insert_local_quiet in Hr|apply insert_moved_quiet in Hr]; solve_quiet.
Qed.

Lemma remove_moved_quiet w e l i r w' : remove_moved w e l i = Ret (r, w') → quiet w w'.
Proof.
  unfold remove_moved. intros Hr. split_run Hr. apply move_arche_quiet in Heqo1. apply move_table_quiet in Heqo2.
  apply update_location_unwrap_quiet in Heqo4. solve_quiet.
Qed.

Lemma remove_dynamic_quiet w e h b r w' : EntityOwned_remove_dynamic desc len w e h b = Ret (r, w') → quiet w w'.
Proof.
  unfold EntityOwned_remove_dynamic. intros Hr. split_run Hr; apply arche_after_remove_quiet in Heqo0; [done|].
  apply remove_moved_quiet in Hr. solve_quiet.
Qed.

Lemma clear_quiet w e h r w' : EntityOwned_clear w e h = Ret (r, w') → quiet w w'.
Proof.
  unfold EntityOwned_clear. intros Hr. split_run Hr; [done|]. apply move_arche_quiet in Heqo1. apply move_table_quiet in Heqo2.
  apply update_location_unwrap_quiet in Heqo4. solve_quiet.
Qed.

(** A despawn advances the generation of its own slot only. *)
Lemma free_tags es id v e es' j :
  Entities_free es id v = Ret (e, es') → j ≠ EntityId_index id → tag_at es' j = tag_at es j.
Proof.
  intros Hr Hj. destruct (free_spec es id v) as (es1 & Hr' & _ & Hs). rewrite Hr in Hr'. injection Hr' as -> ->.
  unfold tag_at. by rewrite Hs, decide_False.
Qed.

Lemma despawn_internal_tags w e l e' w' :
  despawn_internal w e l = Ret (e', w') →
  w_allocator w' = w_allocator w ∧ ∀ j, j ≠ Entity_index e → tag_at (w_entities w') j = tag_at (w_entities w) j.
Proof.
  unfold despawn_internal. intros Hr. split_run Hr. split; [done|]. intros j Hj. cbn.
  erewrite free_tags by eauto.
  change e2 with (r1, e2).2. rewrite <- Heqp4, update_row_tags. change e1 with (r0, e1).2. rewrite <- Heqp1, update_row_tags.
  change e0 with (r, e0).2. by rewrite <- Heqp, set_despawned_tags.
Qed.
End quiet.
