(* ===== verification/WorldStart.v ===== *)
(** * New worlds

    [World::alloc] establishes the invariant, and a world whose rows and
    registries are below their limits has room ([world_roomb] decides it). *)

From Stdlib Require Import ZArith Lia Sorting.Sorted.
From S2P Require Import Prelude Tick EntityIdent EntityInfo FreeCount FreeBuffer Allocator Column Table SparseMap.
From S2P Require Import Locations Registry Collector World WorldInv WorldRegister.

Lemma located_new e : located Entities_new e = None.
Proof.
  unfold located, Entities_locate. destruct (Entity_index e); cbn; by repeat case_decide.
Qed.

Section start.
Context `{VecGrowth}.
Variable desc : Z → ComponentDesc.
Variable known : gset Z.
Notation info := (λ c, cd_info (desc c)).
Notation empty_info := (mkBundle 0 0 []).

Lemma set_ok_nil : set_ok desc 0 [].
Proof. split; [constructor..|done|constructor|constructor]. Qed.

Lemma alloc_bundles_ok : bundles_ok desc known (shape (World_alloc desc)).
Proof.
  assert (Hl : ∀ i b, [empty_info] !! i = Some b → b = empty_info) by (by intros i b [_ <-]%list_lookup_singleton_Some).
  split.
  - intros i b ->%Hl. apply set_ok_nil.
  - cbn. intros cs i [<- <-]%lookup_singleton_Some. eauto.
  - cbn. intros ts i [<- <-]%lookup_singleton_Some. exists empty_info. done.
  - cbn. intros ts i [<- <-]%lookup_singleton_Some. exists empty_info, ComponentCollector_new. done.
Qed.

Lemma alloc_registry_ok : registry_ok desc known (shape (World_alloc desc)).
Proof.
  set (a0 := Archetype_new desc 0 0 0 []).
  assert (Hl : ∀ i a, [a0] !! i = Some a → a = a0 ∧ i = 0) by (by intros i a [-> <-]%list_lookup_singleton_Some).
  split.
  - apply alloc_bundles_ok.
  - intros i a [-> ->]%Hl. split; cbn; try set_solver.
    + apply set_ok_nil.
    + by intros c r Hc%elem_of_nil.
  - cbn. intros cs i [<- <-]%lookup_singleton_Some. exists a0. done.
  - intros b i [-> [= <-]]%list_lookup_singleton_Some. exists empty_info, a0. done.
  - cbn. intros cs i [<- <-]%lookup_singleton_Some. done.
  - exists a0. done.
Qed.

Lemma alloc_rows_ok : rows_ok desc (World_alloc desc).
Proof.
  assert (Ha : ∀ e, apos Entities_new e = None) by (intros e; unfold apos; by rewrite located_new).
  assert (Ht : ∀ e, tpos Entities_new e = None) by (intros e; unfold tpos; by rewrite located_new).
  assert (Hp : ∀ pos, (∀ e, pos e = None) → placed pos [[]]).
  { intros pos Hpos e i r. rewrite Hpos. split; [done|]. intros (v & [-> <-]%list_lookup_singleton_Some & Hr). done. }
  split; cbn.
  - split; cbn; intros [|i]; unfold slot; cbn; by try intros [? [=]].
  - by apply Hp.
  - by apply Hp.
  - intros e p q a. by rewrite Ha.
  - intros i t [-> <-]%list_lookup_singleton_Some. split; [apply Table_new_ok; constructor|].
    intros e c x. unfold Table_lookup. by cbn.
  - split; cbn; set_solver.
  - intros c e. split; [by intros [? ?]|]. intros (a & Hof & _). unfold arche_of in Hof. cbn in Hof. by rewrite Ha in Hof.
  - intros c e x. by cbn.
Qed.

Lemma World_alloc_inv : world_inv desc known (World_alloc desc).
Proof. split; [apply alloc_registry_ok|apply alloc_rows_ok]. Qed.
End start.

(** ** Room *)

Section room.
Context `{VecGrowth}.

Definition table_roomb (t : Table) : bool :=
  bool_decide (length (tbl_entities t) = tbl_capacity t →
               (Z.of_nat (grown_capacity (length (tbl_entities t)) 1) ≤ u32_max)%Z).

Definition map_roomb (m : SMap) : bool :=
  bool_decide (map_free m = [] → (Z.of_nat (grown_capacity (length (map_entities m)) 1) ≤ u32_max)%Z).

Definition world_roomb (known : gset Z) (w : World) : bool :=
  forallb table_roomb (ts_tables (w_tables w)) && forallb map_roomb (ms_maps (w_maps w)) &&
  bool_decide (Z.of_nat (length (as_arches (w_archetypes w))) < u32_max)%Z &&
  bool_decide (Z.of_nat (length (ts_tables (w_tables w))) < u32_max)%Z &&
  bool_decide (Z.of_nat (length (ms_maps (w_maps w)) + size known) ≤ u32_max)%Z &&
  bool_decide (Z.of_nat (length (bd_infos (w_bundles w)) + 2) ≤ u32_max)%Z.

Lemma world_roomb_sound known w : world_roomb known w = true → world_room known w.
Proof.
  unfold world_roomb. rewrite !andb_true_iff, !forallb_forall, !bool_decide_eq_true.
  intros (((((Ht & Hm) & Ha) & Hts) & Hms) & Hb). split; [|split; [|done]].
  - intros i t Hi%list_elem_of_lookup_2%list_elem_of_In. apply Ht in Hi. by apply bool_decide_eq_true in Hi.
  - intros c m (id & _ & Hi)%bind_Some. apply list_elem_of_lookup_2, list_elem_of_In in Hi. apply Hm in Hi.
    by apply bool_decide_eq_true in Hi.
Qed.
End room.
