(* ===== verification/WorldSpawn.v ===== *)
(** * Spawning

    [BundleSpawner::spawn_at], [spawn] and [spawn_at]
    ([world/methods/spawn.rs]). *)

From Stdlib Require Import ZArith Lia Sorting.Sorted.
From stdpp Require Import relations.
From S2P Require Import Prelude Tick EntityIdent EntityInfo FreeCount FreeBuffer Allocator Column Table SparseMap.
From S2P Require Import Locations Registry Collector World WorldInv WorldRegister WorldDespawn WorldMove WorldWrite.

Section spawn.
Context `{VecGrowth}.
Variable desc : Z → ComponentDesc.
Variable known : gset Z.
Hypothesis types : types_ok desc known.
Notation info := (λ c, cd_info (desc c)).
Notation world_inv := (world_inv desc known).
Notation rows_ok := (rows_ok desc).

(** Rows for a new entity: [w1] has them, unwritten. *)
Record allocated (w w1 : World) (e : Entity) (ni : nat) (na : Archetype) (l : EntityLocation) : Prop := {
  al_loc : l = mkLoc (Z.of_nat ni) (Z.of_nat (ar_table_id na)) (Z.of_nat (length (ar_entities na))) (table_row l);
  al_entities : w_entities w1 = w_entities w;
  al_alloc : w_allocator w1 = w_allocator w;
  al_run : w_this_run w1 = w_this_run w;
  al_logs : w_fired w1 = w_fired w ∧ w_dropped w1 = w_dropped w;
  al_shape : shape w1 = shape w;
  al_arches : ar_entities <$> as_arches (w_archetypes w1)
              = <[ni := ar_entities na ++ [e]]> (ar_entities <$> as_arches (w_archetypes w));
  al_table : ∃ o o', ts_tables (w_tables w) !! ar_table_id na = Some o ∧
    ts_tables (w_tables w1) = <[ar_table_id na := o']> (ts_tables (w_tables w)) ∧
    tbl_entities o' = tbl_entities o ++ [e] ∧ Z.to_nat (table_row l) = length (tbl_entities o) ∧
    table_ok info o' ∧ tbl_components o' = Archetype_dense_components na ∧
    ∀ e' c, e' ≠ e → Table_lookup o' e' c = Table_lookup o e' c;
  al_maps_ok : maps_ok desc (w_maps w1);
  al_maps : ∀ c e', e' ≠ e → map_get (w_maps w1) c e' = map_get (w_maps w) c e';
  al_sparse : ∀ c, is_Some (map_get (w_maps w1) c e) ↔ c ∈ Archetype_sparse_components na
}.

Lemma alloc_rows_spec w e ni na o :
  world_inv w → as_arches (w_archetypes w) !! ni = Some na → apos (w_entities w) e = None →
  ts_tables (w_tables w) !! ar_table_id na = Some o → has_room o →
  (∀ c m, c ∈ Archetype_sparse_components na → map_of (w_maps w) c = Some m → map_room m) →
  ∃ l w1, alloc_rows w ni e = Ret (l, w1) ∧ allocated w w1 e ni na l.
Proof.
  intros [Hreg Hrow] Hna Hfree Ho Hroom Hmroom.
  pose proof (ro_arche _ _ _ Hreg _ _ (shape_arche w _ _ Hna)) as Hao.
  assert (Hco : tbl_components o = Archetype_dense_components na).
  { pose proof (ao_table _ _ _ _ _ Hao) as Hx. cbn in Hx. rewrite list_lookup_fmap, Ho in Hx. by injection Hx. }
  assert (Htp : tpos (w_entities w) e = None).
  { destruct (tpos (w_entities w) e) eqn:E; [|done]. assert (is_Some (apos (w_entities w) e)) as [? ?] by (apply apos_tpos; by rewrite E). congruence. }
  assert (Hne : e ∉ tbl_entities o).
  { apply (placed_not_in _ _ _ (ar_table_id na) _ (rw_tables _ _ Hrow)); [intros r; by rewrite Htp|by rewrite list_lookup_fmap, Ho]. }
  destruct (Table_alloc_row_spec info (ty_small _ _ types) o e (proj1 (rw_table_ok _ _ Hrow _ _ Ho)) Hroom Hne) as (o' & Hal & Hok' & Hadd).
  assert (Hnone : ∀ c, map_get (w_maps w) c e = None).
  { intros c. destruct (map_get (w_maps w) c e) eqn:E; [|done]. exfalso.
    destruct (proj1 (rw_sparse _ _ Hrow c e)) as (a & Ha & _); [by eexists|]. unfold arche_of in Ha. by rewrite Hfree in Ha. }
  destruct (alloc_map_rows_spec desc (Archetype_sparse_components na) e (w_maps w)) as (maps & Hmaps & Hmok & Hmm & Hhas & Hsame).
  { apply types. }
  { apply Hrow. }
  { apply StronglySorted_lt_NoDup. exact (so_sparse_sorted _ _ _ (ao_set _ _ _ _ _ Hao)). }
  { intros c Hc. destruct (ao_maps _ _ _ _ _ Hao c Hc) as [id Hid]. cbn in Hid.
    destruct (mp_shape _ _ (rw_maps_ok _ _ Hrow) c id Hid) as (m & _ & Hm & _). exists m.
    assert (Hof : map_of (w_maps w) c = Some m) by (unfold map_of; by rewrite Hid). split; [done|]. by eapply Hmroom. }
  { auto. }
  unfold alloc_rows, Archetypes_get_unchecked, Tables_get_unchecked. rewrite Hna. cbn [of_option mbind outcome_bind].
  rewrite Ho. cbn [of_option mbind outcome_bind]. unfold Archetype_alloc_row. rewrite Hal. cbn [mbind outcome_bind].
  rewrite Hmaps. cbn [mbind outcome_bind]. eexists _, _. split; [reflexivity|]. split; cbn; auto.
  - unfold shape. cbn. rewrite Hmm. f_equal; eapply fmap_insert_same; try done. apply Hadd.
  - by rewrite list_fmap_insert.
  - exists o, o'. split; [done|]. split; [done|]. split; [apply Hadd|]. split; [by rewrite Nat2Z.id|]. split; [done|].
    split; [rewrite <- Hco; apply Hadd|]. intros e' c Hne'. by apply (row_added_lookup info o o' e);
      [apply (rw_table_ok _ _ Hrow _ _ Ho)|..].
  - intros c e' Hne'. apply Hsame. naive_solver.
  - intros c. split; [|apply Hhas]. intros Hx. destruct (decide (c ∈ Archetype_sparse_components na)) as [|Hn]; [done|].
    rewrite Hsame, Hnone in Hx by naive_solver. by destruct Hx.
Qed.

(** The world once a new entity is written and recorded. *)
Lemma spawn_finish w w1 e ni na l wr wr2 es :
  world_inv w → as_arches (w_archetypes w) !! ni = Some na → allocated w w1 e ni na l →
  wr_entity wr = e → ts_tables (w_tables w1) !! ar_table_id na = Some (wr_table wr) → wr_maps wr = w_maps w1 →
  wrote_to desc wr wr2 → apos (w_entities w) e = None →
  (∀ c, c ∈ ar_components na → ∃ x, wr_get desc wr2 c = Some x ∧ written x) →
  Entities_wf es → (∀ e', located es e' = if decide (e' = e) then Some l else located (w_entities w) e') →
  let w3 := set_entities_w (put_writer w1 (ar_table_id na) wr2) es in
  world_inv w3 ∧ shape w3 = shape w ∧ (∀ e', e' ≠ e → same_entity w w3 e') ∧
  (∃ a, as_arches (w_archetypes w3) !! ni = Some a ∧ cleared a = cleared na) ∧
  World_components w3 e = Some (ar_components na) ∧
  ∀ c, c ∈ ar_components na → World_get w3 e c = wr_get desc wr2 c.
Proof.
  intros [Hreg Hrow] Hna Hd Hwe Htw Hmw Hto Hfree Hlive Hwf Hloc w3.
  pose proof (ro_arche _ _ _ Hreg _ _ (shape_arche w _ _ Hna)) as Hao.
  pose proof (ao_set _ _ _ _ _ Hao) as Hset. cbn in Hset.
  destruct (al_table _ _ _ _ _ _ Hd) as (o & o' & Ho & Hts & Hent & Hrow' & Hok' & Hcomp' & Hoth).
  pose proof (lookup_lt_Some _ _ _ Ho) as Hlt.
  assert (Hwt : wr_table wr = o'). { rewrite Hts, list_lookup_insert_eq in Htw by done. by injection Htw. }
  destruct (apos_set _ _ _ _ Hloc) as [Hap Htp].
  assert (Hl : Z.to_nat (arche_id l) = ni ∧ Z.to_nat (arche_row l) = length (ar_entities na) ∧ Z.to_nat (table_id l) = ar_table_id na).
  { rewrite (al_loc _ _ _ _ _ _ Hd). cbn. by rewrite !Nat2Z.id. }
  destruct Hl as (Hlni & Hlr & Hltj).
  assert (Hts3 : ts_tables (w_tables w3) = <[ar_table_id na := wr_table wr2]> (ts_tables (w_tables w))).
  { cbn. by rewrite Hts, list_insert_insert_eq. }
  assert (Hsh : shape w3 = shape w).
  { rewrite <- (al_shape _ _ _ _ _ _ Hd). unfold shape, w3. cbn.
    rewrite (wt_mapper _ _ _ Hto), Hmw. f_equal. eapply fmap_insert_same; [exact Htw|]. apply Hto. }
  assert (∃ a, as_arches (w_archetypes w3) !! ni = Some a ∧ cleared a = cleared na) as (a & Ha & Hcl).
  { assert (Hx : sh_arches (shape w3) !! ni = Some (cleared na)) by (rewrite Hsh; by apply shape_arche).
    apply shape_arche_inv in Hx as (a & Ha & Hcl). eauto. }
  assert (Hof : arche_of w3 e = Some a) by (unfold arche_of; cbn [w3 set_entities_w w_entities]; by rewrite Hap, decide_True, Hlni by done).
  assert (Hothers : ∀ e', e' ≠ e → apos es e' = apos (w_entities w) e' ∧ tpos es e' = tpos (w_entities w) e').
  { intros e' Hne. by rewrite Hap, Htp, !decide_False by done. }
  assert (Hoth2 : ∀ e' c, e' ≠ e → Table_lookup (wr_table wr2) e' c = Table_lookup o e' c).
  { intros e' c Hne. rewrite (wt_table _ _ _ Hto) by (by rewrite Hwe). rewrite Hwt. by apply Hoth. }
  assert (Hmoth : ∀ e' c, e' ≠ e → map_get (wr_maps wr2) c e' = map_get (w_maps w) c e').
  { intros e' c Hne. rewrite (wt_maps _ _ _ Hto) by (by rewrite Hwe). rewrite Hmw. by apply (al_maps _ _ _ _ _ _ Hd). }
  assert (Hinv3 : world_inv w3).
  { split; [by rewrite Hsh|]. apply (rows_update desc w w3 e); auto.
    - cbn. rewrite (al_arches _ _ _ _ _ _ Hd).
      eapply (placed_add (apos (w_entities w))); [apply Hrow|done|by rewrite list_lookup_fmap, Hna|].
      intros e'. by rewrite Hap, Hlni, Hlr.
    - rewrite Hts3, list_fmap_insert, (wt_ents _ _ _ Hto), Hwt, Hent.
      eapply (placed_add (tpos (w_entities w))); [apply Hrow| |by rewrite list_lookup_fmap, Ho|].
      + destruct (tpos (w_entities w) e) eqn:E; [|done].
        assert (is_Some (apos (w_entities w) e)) as [? ?] by (apply apos_tpos; by rewrite E). congruence.
      + intros e'. cbn. by rewrite Htp, Hltj, Hrow'.
    - rewrite Hts3. intros i t [(<- & <- & _)|[_ Ht]]%list_lookup_insert_Some; [|by apply (rw_table_ok _ _ Hrow i)].
      split; [apply Hto|]. intros e' c x Hx. destruct (decide (e' = e)) as [->|Hne].
      + assert (Hc : c ∈ Archetype_dense_components na).
        { unfold Table_lookup in Hx. apply bind_Some in Hx as (r & _ & Hx). apply bind_Some in Hx as (k & Hk & _).
          apply (get_table_col_Some info) in Hk; [|apply Hto]. rewrite (wt_comps _ _ _ Hto), Hwt, Hcomp' in Hk.
          by eapply list_elem_of_lookup_2. }
        apply (set_ok_dense desc _ _ c Hset) in Hc as [Hc Hs]. destruct (Hlive c Hc) as (y & Hy & Hwy).
        unfold wr_get in Hy. rewrite Hs, (wt_entity _ _ _ Hto), Hwe in Hy. congruence.
      + rewrite Hoth2 in Hx by done. by eapply (proj2 (rw_table_ok _ _ Hrow _ _ Ho)).
    - apply Hto.
    - intros e' Hne. cbn. destruct (Hothers e' Hne) as [-> ->]. split; [done|]. split; [done|]. intros c. by apply Hmoth.
    - cbn. intros p q a' Hp Hq Ha'. rewrite Hap, decide_True in Hp by done. rewrite Htp, decide_True in Hq by done.
      injection Hp as <-. injection Hq as <-. cbn in Ha' |- *. rewrite Hlni in Ha'. rewrite Hltj.
      change (as_arches (w_archetypes w3) !! ni = Some a') in Ha'. rewrite Ha in Ha'. injection Ha' as <-. exact (eq_sym (f_equal ar_table_id Hcl)).
    - intros c. rewrite Hof. cbn. rewrite <- Hwe, (wt_dom _ _ _ Hto), Hmw, Hwe, (al_sparse _ _ _ _ _ _ Hd).
      rewrite <- (f_equal Archetype_sparse_components Hcl : Archetype_sparse_components a = Archetype_sparse_components na).
      split; [eauto|]. by intros (? & [= <-] & ?).
    - cbn. intros c x Hx. assert (Hc : c ∈ Archetype_sparse_components na).
      { apply (al_sparse _ _ _ _ _ _ Hd). rewrite <- Hmw, <- Hwe. apply (wt_dom _ _ _ Hto). rewrite Hwe. by eexists. }
      apply (set_ok_sparse desc _ _ c Hset) in Hc as [Hc Hs]. destruct (Hlive c Hc) as (y & Hy & Hwy).
      unfold wr_get in Hy. rewrite Hs, (wt_entity _ _ _ Hto), Hwe in Hy. congruence. }
  split; [done|]. split; [done|]. split; [|split; [eauto|split]].
  - intros e' Hne. apply same_entity_frame; [done|cbn; by rewrite (proj1 (Hothers e' Hne))| |].
    + intros i c. rewrite Hts3. eapply table_frame; [done|]. intros c'. by apply Hoth2.
    + intros c. cbn. by apply Hmoth.
  - unfold World_components. rewrite Hof. cbn. exact (f_equal Some (f_equal ar_components Hcl)).
  - intros c Hc. unfold World_get. rewrite Hof. cbn [mbind option_bind]. unfold wr_get.
    rewrite (f_equal Archetype_dense_components Hcl : Archetype_dense_components a = Archetype_dense_components na).
    rewrite (f_equal ar_table_id Hcl : ar_table_id a = ar_table_id na).
    pose proof (set_ok_dense desc _ _ c Hset) as Hdd. unfold Archetype_dense_components.
    rewrite Hts3, list_lookup_insert_eq by done. cbn [mbind option_bind]. rewrite (wt_entity _ _ _ Hto), Hwe.
    destruct (cd_storage (desc c)) eqn:Hs.
    + by rewrite decide_True by (by apply Hdd).
    + rewrite decide_False; [done|]. intros [_ ?]%Hdd. congruence.
Qed.

Lemma spawn_at_spec w e ni na o bundle :
  world_inv w → as_arches (w_archetypes w) !! ni = Some na → Entity_valid e → Entities_can_spawn (w_entities w) e = Ok tt →
  ts_tables (w_tables w) !! ar_table_id na = Some o → has_room o →
  (∀ c m, c ∈ Archetype_sparse_components na → map_of (w_maps w) c = Some m → map_room m) →
  NoDup bundle.*1 → (∀ c v, (c, v) ∈ bundle → fits desc c v) →
  (∀ c, c ∈ directly_required desc bundle.*1 → fits desc c (cd_default (desc c))) →
  (∀ c, c ∈ ar_components na ↔ c ∈ bundle.*1 ∨ c ∈ directly_required desc bundle.*1) →
  ∃ l w', BundleSpawner_spawn_at desc w ni bundle e = Ret (l, w') ∧ world_inv w' ∧ shape w' = shape w ∧
    located (w_entities w') e = Some l ∧ w_allocator w' = w_allocator w ∧
    (∀ j, j ≠ Entity_index e → slot (w_entities w') j = slot (w_entities w) j) ∧
    (∀ e', e' ≠ e → same_entity w w' e') ∧ World_components w' e = Some (ar_components na) ∧
    (∀ c v, (c, v) ∈ bundle → World_get w' e c = Some (v, Some (w_this_run w), Some (w_this_run w))) ∧
    (∀ c, c ∈ ar_components na → c ∉ bundle.*1 →
          World_get w' e c = Some (cd_default (desc c), Some (w_this_run w), Some (w_this_run w))) ∧
    w_dropped w' = w_dropped w ∧
    w_fired w' = w_fired w ++ Archetype_trigger na OnAdd e ++ Archetype_trigger na OnInsert e.
Proof.
  intros Hinv Hna Hval Hcan Ho Hroom Hmroom Hnd Hfit Hdef Hcomps. pose proof Hinv as [Hreg Hrow].
  pose proof (ro_arche _ _ _ Hreg _ _ (shape_arche w _ _ Hna)) as Hao.
  pose proof (ao_set _ _ _ _ _ Hao) as Hset. cbn in Hset.
  assert (Hfree : apos (w_entities w) e = None).
  { unfold apos. destruct (located (w_entities w) e) as [l|] eqn:E; [|done].
    apply located_slot in E. apply can_spawn_ok in Hcan. congruence. }
  destruct (alloc_rows_spec w e ni na o Hinv Hna Hfree Ho Hroom Hmroom) as (l & w1 & Hal & Hd).
  destruct (al_table _ _ _ _ _ _ Hd) as (o0 & o' & Ho0 & Hts & Hent & Hrow' & Hok' & Hcomp' & Hoth). simplify_eq.
  assert (Hto' : ts_tables (w_tables w1) !! ar_table_id na = Some o').
  { rewrite Hts. by rewrite list_lookup_insert_eq by (by eapply lookup_lt_Some). }
  assert (Hids : Z.to_nat (arche_id l) = ni ∧ Z.to_nat (table_id l) = ar_table_id na).
  { rewrite (al_loc _ _ _ _ _ _ Hd). cbn. by rewrite !Nat2Z.id. }
  destruct Hids as [Hlni Hltj].
  assert (Hrowe : tbl_entities o' !! Z.to_nat (table_row l) = Some e) by (by rewrite Hrow', Hent, lookup_app_r, Nat.sub_diag).
  set (wr := mkWriter e (w_this_run w1) (Z.to_nat (table_row l)) o' (w_maps w1) ∅ []).
  assert (Hwok : writer_ok desc wr) by (split; [done|done|apply Hd]).
  assert (Hav : ∀ c, c ∈ ar_components na → is_Some (wr_get desc wr c)).
  { intros c Hc. unfold wr_get. cbn. destruct (cd_storage (desc c)) eqn:Hs.
    - assert (c ∈ tbl_components o') as [k Hk]%list_elem_of_lookup by (rewrite Hcomp'; by apply (set_ok_dense desc _ _ c Hset)).
      destruct (Forall2_lookup_l _ _ _ _ _ (ok_columns _ _ Hok') Hk) as (col & Hcol & _).
      destruct (row_cell desc o' e _ k c col Hok' Hrowe Hk Hcol) as [-> _]. by eexists.
    - apply (al_sparse _ _ _ _ _ _ Hd). by apply (set_ok_sparse desc _ _ c Hset). }
  destruct (bundle_write_spec desc bundle wr Hwok Hnd) as (wr1 & wr2 & Hw1 & Hw2 & Hto & Hin & Hout & Hdrop).
  { intros c v Hx. split; [|by apply Hfit]. apply Hav, Hcomps. left. apply list_elem_of_fmap. by exists (c, v). }
  { intros c Hx. split; [|by apply Hdef]. apply Hav, Hcomps. by right. }
  assert (Hvals : ∀ c, c ∈ ar_components na → ∃ v, wr_get desc wr2 c = Some (v, Some (w_this_run w), Some (w_this_run w)) ∧
            (∀ v', (c, v') ∈ bundle → v' = v) ∧ (c ∉ bundle.*1 → v = cd_default (desc c))).
  { intros c Hc. rewrite <- (al_run _ _ _ _ _ _ Hd). destruct (decide (c ∈ bundle.*1)) as [Hb|Hb].
    - apply list_elem_of_fmap in Hb as ([c' v] & -> & Hb). cbn in *. exists v. destruct (Hin _ _ Hb) as (old & _ & Hg).
      rewrite decide_False in Hg by (by intros []). split; [done|]. split; [|intros Hn; destruct Hn; apply list_elem_of_fmap; by exists (c', v)].
      intros v' Hb'. destruct (Hin _ _ Hb') as (old' & _ & Hg'). rewrite Hg in Hg'. by injection Hg'.
    - eexists. rewrite Hout, decide_True; [|split; [|by intros []]|done].
      + split; [done|]. split; [|done]. intros v' Hv. destruct Hb. apply list_elem_of_fmap. by exists (c, v').
      + apply Hcomps in Hc. tauto. }
  assert (Hcan1 : Entities_can_spawn (w_entities w1) e = Ok tt) by (by rewrite (al_entities _ _ _ _ _ _ Hd)).
  destruct (set_spawned_located (w_entities w1) e l) as (es & Hes & Hwf & Hslot & Hloc); [|done|done|].
  { rewrite (al_entities _ _ _ _ _ _ Hd). apply Hrow. }
  unfold BundleSpawner_spawn_at. rewrite Hal. cbn [mbind outcome_bind]. unfold ComponentWriter_new, Tables_get_unchecked.
  rewrite Hltj, Hto'. cbn [of_option mbind outcome_bind]. fold wr. rewrite Hw1. cbn [mbind outcome_bind].
  rewrite Hw2. cbn [mbind outcome_bind]. unfold set_spawned_unwrap. cbn [put_writer add_dropped w_entities set_maps set_tables].
  rewrite Hes. cbn [mbind outcome_bind].
  rewrite (al_entities _ _ _ _ _ _ Hd) in Hslot, Hloc.
  destruct (spawn_finish w w1 e ni na l wr wr2 es) as (Hinv3 & Hsh & Hoth3 & (a & Ha & Hcl) & Hc3 & Hg3); auto.
  { intros c Hc. destruct (Hvals c Hc) as (v & Hv & _). eexists. split; [exact Hv|]. split; by eexists. }
  set (w3 := set_entities_w (put_writer w1 (ar_table_id na) wr2) es) in *.
  unfold Archetypes_get_unchecked. rewrite Ha. cbn [of_option mbind outcome_bind].
  eexists l, _. split; [reflexivity|]. split; [by apply (world_inv_same desc known w3)|]. split; [done|].
  split; [cbn; by rewrite Hloc, decide_True|]. split; [apply Hd|]. split; [done|]. split; [exact Hoth3|]. split; [exact Hc3|].
  split; [|split; [|split]].
  - intros c v Hx. assert (Hc : c ∈ ar_components na) by (apply Hcomps; left; apply list_elem_of_fmap; by exists (c, v)).
    destruct (Hvals c Hc) as (v' & Hv & Hb & _). rewrite (Hb v Hx), <- Hv. by apply Hg3.
  - intros c Hc Hn. destruct (Hvals c Hc) as (v' & Hv & _ & Hdf). rewrite <- (Hdf Hn), <- Hv. by apply Hg3.
  - cbn. rewrite Hdrop, (proj2 (al_logs _ _ _ _ _ _ Hd)). cbn.
    replace (_ <$> bundle.*1) with ((λ _ : Z, @nil value) <$> bundle.*1).
    + by rewrite concat_nil_fmap, app_nil_r.
    + apply list_fmap_ext. intros k c _. by rewrite decide_False by (by intros []).
  - cbn. rewrite (proj1 (al_logs _ _ _ _ _ _ Hd)). f_equal.
    assert (Ht : ∀ k, Archetype_trigger a k e = Archetype_trigger na k e) by (intros k; exact (f_equal (λ x, Archetype_trigger x k e) Hcl)).
    by rewrite !Ht.
Qed.
End spawn.
