(* ===== verification/WorldInsert.v ===== *)
(** * Inserting

    [EntityOwned::insert] ([world/entity/insert.rs]), in place and with a move to
    a larger archetype. *)

From Stdlib Require Import ZArith Lia Sorting.Sorted.
From stdpp Require Import relations.
From S2P Require Import Prelude Tick EntityIdent EntityInfo FreeCount FreeBuffer Allocator Column Table SparseMap.
From S2P Require Import Locations Registry Collector World WorldInv WorldRegister WorldDespawn WorldMove WorldWrite.

Lemma set_writed_all wr ids :
  let wr' := foldl ComponentWriter_set_writed wr ids in
  wr_entity wr' = wr_entity wr ∧ wr_tick wr' = wr_tick wr ∧ wr_table_row wr' = wr_table_row wr ∧
  wr_table wr' = wr_table wr ∧ wr_maps wr' = wr_maps wr ∧ wr_dropped wr' = wr_dropped wr ∧
  ∀ c, is_Some (wr_writed wr' !! c) ↔ is_Some (wr_writed wr !! c) ∨ c ∈ ids.
Proof.
  revert wr. induction ids as [|id ids IH]; intros wr; cbn; [set_solver|].
  destruct (IH (ComponentWriter_set_writed wr id)) as (-> & -> & -> & -> & -> & -> & Hw). cbn in *.
  repeat (split; [done|]). intros c. rewrite Hw, elem_of_cons. destruct (decide (c = id)) as [->|Hne].
  - rewrite lookup_insert_eq. split; [by right; left|]. intros _. left. by eexists.
  - rewrite lookup_insert_ne by done. tauto.
Qed.

Section insert.
Context `{VecGrowth}.
Variable desc : Z → ComponentDesc.
Variable known : gset Z.
Hypothesis types : types_ok desc known.
Notation info := (λ c, cd_info (desc c)).
Notation world_inv := (world_inv desc known).
Notation rows_ok := (rows_ok desc).

(** What inserting [bundle] for [e], whose components were [old], leaves. *)
Record inserted (w w' : World) (e : Entity) (bundle : list (Z * value)) (old cs : list Z) : Prop := {
  in_inv : world_inv w';
  in_components : World_components w' e = Some cs;
  in_explicit : ∀ c v, (c, v) ∈ bundle → World_get w' e c
    = Some (v, if decide (c ∈ old) then x ← World_get w e c; x.1.2 else Some (w_this_run w), Some (w_this_run w));
  in_kept : ∀ c, c ∉ bundle.*1 → c ∈ old → World_get w' e c = World_get w e c;
  in_required : ∀ c, c ∉ bundle.*1 → c ∉ old → c ∈ cs →
    World_get w' e c = Some (cd_default (desc c), Some (w_this_run w), Some (w_this_run w));
  in_others : ∀ e', e' ≠ e → same_entity w w' e';
  in_dropped : w_dropped w' = w_dropped w ++
    concat ((λ c, if decide (c ∈ old) then cell_drop (has_dropper (info c)) (World_get w e c) else []) <$> bundle.*1)
}.

(** A writer on the row of [e], with the components of [a] marked as stored. *)
Lemma entity_writer w e a t row ids :
  maps_ok desc (w_maps w) → ts_tables (w_tables w) !! ar_table_id a = Some t → table_ok info t → tbl_entities t !! row = Some e →
  ∃ wr, ComponentWriter_new w e (ar_table_id a) row = Ret wr ∧
    let wr' := foldl ComponentWriter_set_writed wr ids in
    writer_ok desc wr' ∧ wr_entity wr' = e ∧ wr_tick wr' = w_this_run w ∧ wr_table wr' = t ∧ wr_maps wr' = w_maps w ∧
    wr_dropped wr' = [] ∧ ∀ c, is_Some (wr_writed wr' !! c) ↔ c ∈ ids.
Proof.
  intros Hmok Ht Htok He. unfold ComponentWriter_new, Tables_get_unchecked. rewrite Ht. cbn [of_option mbind outcome_bind].
  eexists. split; [reflexivity|]. set (wr' := foldl ComponentWriter_set_writed _ ids).
  destruct (set_writed_all (mkWriter e (w_this_run w) row t (w_maps w) ∅ []) ids) as (H1 & H2 & H3 & H4 & H5 & H6 & H7).
  fold wr' in H1, H2, H3, H4, H5, H6, H7. cbn in *.
  split; [split; [by rewrite H4|by rewrite H1, H3, H4|by rewrite H5]|]. repeat (split; [done|]).
  intros c. rewrite H7. split; [intros [[]|]; done|by right].
Qed.

(** Writing the row of an entity that stays where it is. *)
Lemma put_writer_inv w e l a t wr wr' :
  world_inv w → located (w_entities w) e = Some l → arche_of w e = Some a →
  ts_tables (w_tables w) !! ar_table_id a = Some t → wr_table wr = t → wr_maps wr = w_maps w → wr_entity wr = e →
  wrote_to desc wr wr' → (∀ c, c ∈ ar_components a → ∃ x, wr_get desc wr' c = Some x ∧ written x) →
  let w' := put_writer w (ar_table_id a) wr' in
  world_inv w' ∧ (∀ e', e' ≠ e → same_entity w w' e') ∧ arche_of w' e = Some a ∧
  ∀ c, c ∈ ar_components a → World_get w' e c = wr_get desc wr' c.
Proof.
  intros Hinv Hl Hof Ht Hwt Hwm Hwe Hto Hlive w'. pose proof Hinv as [Hreg Hrow]. subst t.
  destruct (rows_entity desc known w e l Hinv Hl)
    as (a' & t & Ha & Ht' & Hlink & _ & Hte & Hof' & Htok & Htl & Hcomp & Hao). simplify_eq. rewrite Hlink in Ht'. simplify_eq.
  pose proof (ao_set _ _ _ _ _ Hao) as Hset. cbn in Hset.
  assert (Hsh : shape w' = shape w).
  { unfold shape, w'. cbn. rewrite (wt_mapper _ _ _ Hto), Hwm. f_equal. eapply fmap_insert_same; [done|]. apply Hto. }
  assert (Hof2 : arche_of w' (wr_entity wr) = Some a) by done.
  split; [split; [by rewrite Hsh|]|split; [|split; [done|]]].
  - apply (rows_update desc w w' (wr_entity wr)); auto.
    + apply Hrow.
    + apply Hrow.
    + cbn. erewrite (fmap_insert_same tbl_entities); [apply Hrow|done|apply Hto].
    + cbn. intros i t [(<- & <- & _)|[_ Hi]]%list_lookup_insert_Some; [|by apply (rw_table_ok _ _ Hrow i)].
      split; [apply Hto|]. intros e' c x Hx. destruct (decide (e' = wr_entity wr)) as [->|Hne].
      * assert (Hc : c ∈ Archetype_dense_components a).
        { unfold Table_lookup in Hx. apply bind_Some in Hx as (r & _ & Hx). apply bind_Some in Hx as (k & Hk & _).
          apply (get_table_col_Some info) in Hk; [|apply Hto]. rewrite (wt_comps _ _ _ Hto), Hcomp in Hk.
          by eapply list_elem_of_lookup_2. }
        apply (set_ok_dense desc _ _ c Hset) in Hc as [Hc Hs]. destruct (Hlive c Hc) as (y & Hy & Hwy).
        unfold wr_get in Hy. rewrite Hs, (wt_entity _ _ _ Hto) in Hy. congruence.
      * rewrite (wt_table _ _ _ Hto) in Hx by done. by eapply Htl.
    + apply Hto.
    + intros e' Hne. split; [done|]. split; [done|]. intros c. cbn. rewrite (wt_maps _ _ _ Hto) by done. by rewrite Hwm.
    + intros p q a' Hp Hq Ha'. by apply (rw_link _ _ Hrow (wr_entity wr) p q).
    + intros c. cbn. rewrite (wt_dom _ _ _ Hto), Hwm, (rw_sparse _ _ Hrow). by rewrite Hof, Hof2.
    + cbn. intros c x Hx. assert (Hc : c ∈ Archetype_sparse_components a).
      { assert (Hsm : is_Some (map_get (w_maps w) c (wr_entity wr))) by (rewrite <- Hwm; apply (wt_dom _ _ _ Hto); by eexists).
        apply (rw_sparse _ _ Hrow) in Hsm as (a0 & ? & ?). congruence. }
      apply (set_ok_sparse desc _ _ c Hset) in Hc as [Hc Hs]. destruct (Hlive c Hc) as (y & Hy & Hwy).
      unfold wr_get in Hy. rewrite Hs, (wt_entity _ _ _ Hto) in Hy. congruence.
  - intros e' Hne. apply same_entity_frame; [done|done| |].
    + intros i c. cbn. eapply table_frame; [done|]. intros c'. by apply (wt_table _ _ _ Hto).
    + intros c. cbn. rewrite (wt_maps _ _ _ Hto) by done. by rewrite Hwm.
  - intros c Hc. unfold World_get. rewrite Hof2. cbn [mbind option_bind]. unfold wr_get.
    pose proof (set_ok_dense desc _ _ c Hset) as Hdd. unfold Archetype_dense_components. cbn.
    rewrite list_lookup_insert_eq by (by eapply lookup_lt_Some). cbn [mbind option_bind]. rewrite (wt_entity _ _ _ Hto).
    destruct (cd_storage (desc c)) eqn:Hs.
    + by rewrite decide_True by (by apply Hdd).
    + rewrite decide_False; [done|]. intros [_ ?]%Hdd. congruence.
Qed.

(** What the world stores for a component of an entity is what its writer sees. *)
Lemma writer_sees w e a t wr c :
  arche_of w e = Some a → set_ok desc (ar_dense_len a) (ar_components a) →
  ts_tables (w_tables w) !! ar_table_id a = Some t → wr_table wr = t → wr_maps wr = w_maps w → wr_entity wr = e →
  c ∈ ar_components a → wr_get desc wr c = World_get w e c.
Proof.
  intros Hof Hset Ht Hwt Hwm Hwe Hc. unfold wr_get. destruct (cd_storage (desc c)) eqn:Hs.
  - rewrite (World_get_dense w e a t c) by (try done; by apply (set_ok_dense desc _ _ c Hset)). by rewrite Hwt, Hwe.
  - rewrite (World_get_sparse desc w e a c) by (try done; by apply (set_ok_sparse desc _ _ c Hset)). by rewrite Hwm, Hwe.
Qed.

(** Every component of an entity is stored and written. *)
Lemma World_get_written w e l a c :
  world_inv w → located (w_entities w) e = Some l → arche_of w e = Some a → c ∈ ar_components a →
  ∃ x, World_get w e c = Some x ∧ written x.
Proof.
  intros Hinv Hl Hof Hc. pose proof Hinv as [Hreg Hrow].
  destruct (rows_entity desc known w e l Hinv Hl)
    as (a' & t & Ha & Ht & Hlink & _ & Hte & Hof' & Htok & Htl & Hcomp & Hao). simplify_eq. rewrite Hlink in Ht.
  pose proof (ao_set _ _ _ _ _ Hao) as Hset. cbn in Hset. destruct (cd_storage (desc c)) eqn:Hs.
  - assert (Hd : c ∈ Archetype_dense_components a) by (by apply (set_ok_dense desc _ _ c Hset)).
    rewrite (World_get_dense w e a t c Hof Ht Hd). pose proof Hd as [k Hk]%list_elem_of_lookup. rewrite <- Hcomp in Hk.
    destruct (Forall2_lookup_l _ _ _ _ _ (ok_columns _ _ Htok) Hk) as (col & Hcol & _).
    destruct (row_cell desc t e _ k c col Htok Hte Hk Hcol) as [Hx _]. eexists. split; [exact Hx|]. by eapply Htl.
  - assert (Hd : c ∈ Archetype_sparse_components a) by (by apply (set_ok_sparse desc _ _ c Hset)).
    rewrite (World_get_sparse desc w e a c Hof Hset Hd).
    assert (is_Some (map_get (w_maps w) c e)) as [x Hx] by (apply (rw_sparse _ _ Hrow); eauto).
    exists x. split; [done|]. by eapply (rw_sparse_live _ _ Hrow).
Qed.

Lemma insert_local_spec w e l a b bi bundle :
  world_inv w → located (w_entities w) e = Some l → arche_of w e = Some a → bd_infos (w_bundles w) !! b = Some bi →
  NoDup bundle.*1 → (∀ c v, (c, v) ∈ bundle → c ∈ ar_components a ∧ fits desc c v) →
  ∃ w', insert_local desc w e l b bundle = Ret (located (w_entities w') e, w') ∧
    inserted w w' e bundle (ar_components a) (ar_components a) ∧ w_allocator w' = w_allocator w ∧ w_entities w' = w_entities w.
Proof.
  intros Hinv Hl Hof Hb Hnd Hbun.
  destruct (rows_entity desc known w e l Hinv Hl)
    as (a' & t & Ha & Ht & Hlink & _ & Hte & Hof' & Htok & Htl & Hcomp & Hao). simplify_eq. rewrite Hlink in Ht.
  pose proof (ao_set _ _ _ _ _ Hao) as Hset. cbn in Hset.
  unfold insert_local, Archetypes_get_unchecked, Bundles_get_unchecked. rewrite Ha. cbn [of_option mbind outcome_bind].
  rewrite Hb. cbn [of_option mbind outcome_bind]. match goal with |- context [add_fired w ?x] => set (w0 := add_fired w x) end.
  assert (Hinv0 : world_inv w0) by (by apply (world_inv_same desc known w)).
  destruct (entity_writer w0 e a t (Z.to_nat (table_row l)) (ar_components a) (rw_maps_ok _ _ (proj2 Hinv0)) Ht Htok Hte)
    as (wr0 & -> & Hwok & Hwe & Hwk & Hwt & Hwm & Hwd & Hww).
  cbn [mbind outcome_bind]. set (wr := foldl ComponentWriter_set_writed wr0 (ar_components a)) in *.
  assert (Hsees : ∀ c, c ∈ ar_components a → wr_get desc wr c = World_get w e c) by (intros c Hc; by apply (writer_sees w e a t)).
  destruct (bundle_write_explicit_spec desc bundle wr Hwok Hnd) as (wr' & -> & Hto & Hin & Hout & _ & Hdr).
  { intros c v Hx. destruct (Hbun c v Hx) as [Hc Hf]. split; [|done]. rewrite Hsees by done.
    destruct (World_get_written w e l a c Hinv Hl Hof Hc) as (x & -> & _). by eexists. }
  cbn [mbind outcome_bind].
  assert (Hlive : ∀ c, c ∈ ar_components a → ∃ x, wr_get desc wr' c = Some x ∧ written x).
  { intros c Hc. destruct (World_get_written w e l a c Hinv Hl Hof Hc) as (x & Hx & Hxw).
    destruct (decide (c ∈ bundle.*1)) as [Hb'|Hb'].
    - apply list_elem_of_fmap in Hb' as ([c' v] & -> & Hb'). cbn in *. destruct (Hin _ _ Hb') as (old & Ho & Hg).
      rewrite Hsees, Hx in Ho by done. injection Ho as <-. eexists. split; [exact Hg|].
      split; [case_decide; [apply Hxw|by eexists]|by eexists].
    - rewrite Hout, Hsees by done. eauto. }
  destruct (put_writer_inv w0 e l a t wr wr' Hinv0 Hl Hof Ht Hwt Hwm Hwe Hto Hlive) as (Hinv1 & Hoth & Hof1 & Hg1).
  match goal with |- context [relocate ?x e] => set (w2 := x) end.
  exists w2. split; [done|]. split; [|done]. split.
  - by apply (world_inv_same desc known (put_writer w0 (ar_table_id a) wr')).
  - unfold World_components. change (arche_of w2 e) with (arche_of (put_writer w0 (ar_table_id a) wr') e). by rewrite Hof1.
  - intros c v Hx. destruct (Hbun c v Hx) as [Hc _]. change (World_get w2 e c) with (World_get (put_writer w0 (ar_table_id a) wr') e c).
    rewrite Hg1 by done. destruct (Hin c v Hx) as (old & Ho & ->). rewrite Hsees in Ho by done.
    rewrite decide_True by (by apply Hww). rewrite decide_True by done. rewrite Ho, Hwk. done.
  - intros c Hn Hc. change (World_get w2 e c) with (World_get (put_writer w0 (ar_table_id a) wr') e c).
    rewrite Hg1, Hout by done. by apply Hsees.
  - intros c _ Hn Hc. done.
  - intros e' Hne. exact (Hoth e' Hne).
  - cbn. rewrite Hdr, Hwd. cbn. f_equal. f_equal. apply list_fmap_ext. intros k c Hk. apply list_elem_of_lookup_2 in Hk.
    apply list_elem_of_fmap in Hk as ([c' v] & -> & Hk). cbn. destruct (Hbun c' v Hk) as [Hc _].
    rewrite decide_True by (by apply Hww). rewrite decide_True by done. by rewrite Hsees.
Qed.

(** A move to a larger set leaves nothing behind. *)
Lemma moved_grow_nothing w e a na :
  (∀ c, c ∈ Archetype_dense_components a → c ∈ Archetype_dense_components na) →
  concat ((λ c, if decide (c ∈ Archetype_dense_components na) then []
                else cell_drop (false && has_dropper (info c)) (World_get w e c)) <$> Archetype_dense_components a) = [].
Proof.
  intros Hsub. etrans; [|apply (concat_nil_fmap (B := value) (Archetype_dense_components a))]. f_equal. apply list_fmap_ext.
  intros k c Hc. apply list_elem_of_lookup_2 in Hc. rewrite decide_True by auto. done.
Qed.

(** The world and the writer of [insert_moved] before the bundle is written:
    [e] is in its new rows and everything it had is marked as stored. *)
Record ready (w w2 : World) (e : Entity) (a na : Archetype) (ni : nat) (l2 : EntityLocation) (wr : ComponentWriter) : Prop := {
  rd_moved : moved desc false w w2 e a na ni l2;
  rd_writer : writer_ok desc wr;
  rd_entity : wr_entity wr = e;
  rd_tick : wr_tick wr = w_this_run w;
  rd_table : ts_tables (w_tables w2) !! ar_table_id na = Some (wr_table wr);
  rd_comps : tbl_components (wr_table wr) = Archetype_dense_components na;
  rd_maps : wr_maps wr = w_maps w;
  rd_dropped : wr_dropped wr = [];
  rd_writed : ∀ c, is_Some (wr_writed wr !! c) ↔ c ∈ ar_components a;
  rd_sees : ∀ c, c ∈ ar_components a → c ∈ ar_components na → wr_get desc wr c = World_get w e c;
  rd_dense : ∀ c, c ∈ ar_components na → cd_storage (desc c) = Dense → is_Some (wr_get desc wr c)
}.

Lemma insert_moved_ready w e l a ni na o b bi bundle :
  world_inv w → located (w_entities w) e = Some l → arche_of w e = Some a →
  as_arches (w_archetypes w) !! ni = Some na → Z.to_nat (arche_id l) ≠ ni →
  ts_tables (w_tables w) !! ar_table_id na = Some o → has_room o → bd_infos (w_bundles w) !! b = Some bi →
  ∃ F F' l2 w2 wr, ready (add_fired w F) w2 e a na ni l2 wr ∧
    insert_moved desc w e l ni b bundle
    = (wr1 ← bundle_write_explicit desc bundle wr;
       wr2 ← bundle_write_required desc bundle.*1 wr1;
       w4 ← update_location_unwrap (put_writer w2 (ar_table_id na) wr2) e l2;
       Ret (relocate (add_fired w4 F') e, add_fired w4 F')).
Proof.
  intros Hinv Hl Hof Hna Hne Ho Hroom Hb. pose proof Hinv as [Hreg Hrow].
  destruct (rows_entity desc known w e l Hinv Hl)
    as (a' & t & Ha & Ht & Hlink & _ & Hte & Hof' & Htok & Htl & Hcomp & Hao). simplify_eq.
  pose proof (ao_set _ _ _ _ _ Hao) as Hseta. cbn in Hseta.
  pose proof (ao_set _ _ _ _ _ (ro_arche _ _ _ Hreg _ _ (shape_arche w _ _ Hna))) as Hsetn. cbn in Hsetn.
  unfold insert_moved, Archetypes_get_unchecked, Bundles_get_unchecked. rewrite Ha. cbn [of_option mbind outcome_bind].
  rewrite Hna. cbn [of_option mbind outcome_bind]. rewrite Hb. cbn [of_option mbind outcome_bind].
  match goal with |- context [move_arche (add_fired w ?x)] => set (F := x) end. set (w0 := add_fired w F).
  assert (Hinv0 : world_inv w0) by (by apply (world_inv_same desc known w)).
  destruct (move_spec desc known false w0 e l a ni na o) as (l1 & w1 & l2 & w2 & Hm1 & Hm2 & Hmv); auto; [apply types|].
  rewrite Hm1. cbn [mbind outcome_bind]. rewrite Hm2. cbn [mbind outcome_bind].
  destruct (mv_target _ _ _ _ _ _ _ _ _ Hmv) as (o' & Ho' & Hco' & Hoe & Hcells).
  destruct (mv_loc _ _ _ _ _ _ _ _ _ Hmv) as [Hlni Hltj]. rewrite Hltj.
  destruct (mv_tables _ _ _ _ _ _ _ _ _ Hmv _ _ Ho') as [Hok' _].
  assert (Hmaps2 : w_maps w2 = w_maps w) by apply Hmv.
  destruct (entity_writer w2 e na o' (Z.to_nat (table_row l2)) (ar_components a))
    as (wr0 & -> & Hwok & Hwe & Hwk & Hwt & Hwm & Hwd & Hww); [rewrite Hmaps2; apply Hrow|done|done|done|].
  cbn [mbind outcome_bind]. set (wr := foldl ComponentWriter_set_writed wr0 (ar_components a)) in *.
  eexists F, _, l2, w2, wr. split; [|reflexivity]. split; try done.
  - rewrite Hwk. apply Hmv.
  - by rewrite Hwt.
  - by rewrite Hwt.
  - by rewrite Hwm.
  - intros c Hc Hcn. unfold wr_get. destruct (cd_storage (desc c)) eqn:Hs.
    + rewrite Hwt, Hwe. apply Hcells; [by apply (set_ok_dense desc _ _ c Hseta)|by apply (set_ok_dense desc _ _ c Hsetn)].
    + rewrite Hwm, Hwe, Hmaps2. symmetry. apply (World_get_sparse desc w e a c Hof Hseta). by apply (set_ok_sparse desc _ _ c Hseta).
  - intros c Hc Hs. unfold wr_get. rewrite Hs, Hwt, Hwe.
    assert (c ∈ tbl_components o') as [k Hk]%list_elem_of_lookup by (rewrite Hco'; by apply (set_ok_dense desc _ _ c Hsetn)).
    destruct (Forall2_lookup_l _ _ _ _ _ (ok_columns _ _ Hok') Hk) as (col & Hcol & _).
    destruct (row_cell desc o' e _ k c col Hok' Hoe Hk Hcol) as [-> _]. by eexists.
Qed.

(** The world once the bundle is written. *)
Lemma insert_finish w w2 e l a ni na l2 wr wr2 :
  world_inv w → located (w_entities w) e = Some l → arche_of w e = Some a → as_arches (w_archetypes w) !! ni = Some na →
  ready w w2 e a na ni l2 wr → wrote_to desc wr wr2 →
  (∀ c, c ∈ ar_components a → c ∈ ar_components na) →
  (∀ c, c ∈ ar_components na → cd_storage (desc c) = Sparse → c ∈ ar_components a) →
  (∀ c, c ∈ ar_components na → ∃ x, wr_get desc wr2 c = Some x ∧ written x) →
  ∃ es, let w4 := set_entities_w (put_writer w2 (ar_table_id na) wr2) es in
    update_location_unwrap (put_writer w2 (ar_table_id na) wr2) e l2 = Ret w4 ∧ world_inv w4 ∧
    (∀ e', e' ≠ e → same_entity w w4 e') ∧ World_components w4 e = Some (ar_components na) ∧
    ∀ c, c ∈ ar_components na → World_get w4 e c = wr_get desc wr2 c.
Proof.
  intros Hinv Hl Hof Hna Hrd Hto Hsub Hnosp Hlive. pose proof Hinv as [Hreg Hrow]. destruct Hrd as [Hmv _ Hwe _ Ho' Hco' Hwm _ _ _ _].
  destruct (rows_entity desc known w e l Hinv Hl) as (a' & _ & _ & _ & _ & _ & _ & Hof' & _ & _ & _ & Hao). simplify_eq.
  pose proof (ao_set _ _ _ _ _ Hao) as Hseta. cbn in Hseta.
  pose proof (ao_set _ _ _ _ _ (ro_arche _ _ _ Hreg _ _ (shape_arche w _ _ Hna))) as Hsetn. cbn in Hsetn.
  destruct (mv_tables _ _ _ _ _ _ _ _ _ Hmv _ _ Ho') as [_ Hlb'].
  assert (Hmaps2 : w_maps w2 = w_maps w) by apply Hmv.
  destruct (moved_finish desc known false w w2 (put_writer w2 (ar_table_id na) wr2) (wr_entity wr) a na ni l2)
    as (es & na' & Hup & Hinv4 & Hloc & Hothers & Hof4 & Hcl); auto.
  { rewrite <- (mv_shape _ _ _ _ _ _ _ _ _ Hmv). unfold shape. cbn.
    rewrite (wt_mapper _ _ _ Hto), Hwm, Hmaps2. f_equal. eapply fmap_insert_same; [exact Ho'|apply Hto]. }
  { cbn. eapply fmap_insert_same; [exact Ho'|apply Hto]. }
  { cbn. intros i t0 [(<- & <- & _)|[Hni Hi]]%list_lookup_insert_Some.
    - split; [apply Hto|]. intros e' c x Hx. destruct (decide (e' = wr_entity wr)) as [->|Hne'].
      + assert (Hc : c ∈ Archetype_dense_components na).
        { unfold Table_lookup in Hx. apply bind_Some in Hx as (r & _ & Hx). apply bind_Some in Hx as (k & Hk & _).
          apply (get_table_col_Some info) in Hk; [|apply Hto]. rewrite (wt_comps _ _ _ Hto), Hco' in Hk.
          by eapply list_elem_of_lookup_2. }
        apply (set_ok_dense desc _ _ c Hsetn) in Hc as [Hc Hs]. destruct (Hlive c Hc) as (y & Hy & Hwy).
        unfold wr_get in Hy. rewrite Hs, (wt_entity _ _ _ Hto) in Hy. congruence.
      + rewrite (wt_table _ _ _ Hto) in Hx by done. apply (Hlb' e' c x Hx). by intros ->.
    - destruct (mv_tables _ _ _ _ _ _ _ _ _ Hmv i t0 Hi) as [Hok0 Hlb0]. split; [done|]. intros e' c x Hx.
      apply (Hlb0 e' c x Hx). intros ->. by destruct (moved_place desc _ _ _ _ _ _ _ _ _ _ _ _ Hmv Hi Hx). }
  { apply Hto. }
  { intros e' Hne'. split.
    - intros i c. rewrite <- (mv_others _ _ _ _ _ _ _ _ _ Hmv e' Hne' i c). cbn. eapply table_frame; [exact Ho'|].
      intros c'. by rewrite (wt_table _ _ _ Hto).
    - intros c. cbn. rewrite (wt_maps _ _ _ Hto) by done. by rewrite Hwm. }
  { intros c. cbn. rewrite (wt_dom _ _ _ Hto), Hwm, (rw_sparse _ _ Hrow), Hof.
    unfold Archetype_sparse_components. rewrite (set_ok_sparse desc _ _ c Hsetn). split.
    - intros (a0 & [= <-] & Hc). apply (set_ok_sparse desc _ _ c Hseta) in Hc as [Hc Hs]. auto.
    - intros [Hc Hs]. exists a. split; [done|]. apply (set_ok_sparse desc _ _ c Hseta). auto. }
  { cbn. intros c x Hx. assert (Hsp : is_Some (map_get (w_maps w) c (wr_entity wr))).
    { rewrite <- Hwm. apply (wt_dom _ _ _ Hto). by eexists. }
    apply (rw_sparse _ _ Hrow) in Hsp as (a0 & Ha0 & Hc). rewrite Hof in Ha0. injection Ha0 as <-.
    apply (set_ok_sparse desc _ _ c Hseta) in Hc as [Hc Hs]. destruct (Hlive c (Hsub c Hc)) as (y & Hy & Hwy).
    unfold wr_get in Hy. rewrite Hs, (wt_entity _ _ _ Hto) in Hy. congruence. }
  exists es. intros w4. subst w4. split; [done|]. split; [done|]. split; [exact Hothers|].
  split; [unfold World_components; rewrite Hof4; exact (f_equal Some (f_equal ar_components Hcl))|].
  intros c Hc. unfold World_get. rewrite Hof4. cbn [mbind option_bind]. unfold wr_get.
  rewrite (f_equal Archetype_dense_components Hcl : Archetype_dense_components na' = Archetype_dense_components na).
  rewrite (f_equal ar_table_id Hcl : ar_table_id na' = ar_table_id na).
  pose proof (set_ok_dense desc _ _ c Hsetn) as Hdd. unfold Archetype_dense_components. cbn.
  rewrite list_lookup_insert_eq by (by eapply lookup_lt_Some). cbn [mbind option_bind]. rewrite (wt_entity _ _ _ Hto).
  destruct (cd_storage (desc c)) eqn:Hs.
  - by rewrite decide_True by (by apply Hdd).
  - rewrite decide_False; [done|]. intros [_ ?]%Hdd. congruence.
Qed.

Lemma insert_moved_spec w e l a ni na o b bi bundle :
  world_inv w → located (w_entities w) e = Some l → arche_of w e = Some a →
  as_arches (w_archetypes w) !! ni = Some na → Z.to_nat (arche_id l) ≠ ni →
  ts_tables (w_tables w) !! ar_table_id na = Some o → has_room o → bd_infos (w_bundles w) !! b = Some bi →
  NoDup bundle.*1 → (∀ c v, (c, v) ∈ bundle → fits desc c v) →
  (∀ c, c ∈ directly_required desc bundle.*1 → fits desc c (cd_default (desc c))) →
  (∀ c, c ∈ ar_components na ↔ c ∈ ar_components a ∨ c ∈ bundle.*1 ∨ c ∈ directly_required desc bundle.*1) →
  (∀ c, c ∈ ar_components na → cd_storage (desc c) = Sparse → c ∈ ar_components a) →
  ∃ w', insert_moved desc w e l ni b bundle = Ret (located (w_entities w') e, w') ∧
    inserted w w' e bundle (ar_components a) (ar_components na) ∧ w_allocator w' = w_allocator w.
Proof.
  intros Hinv Hl Hof Hna Hne Ho Hroom Hb Hnd Hfit Hdef Hcomps Hnosp.
  destruct (insert_moved_ready w e l a ni na o b bi bundle Hinv Hl Hof Hna Hne Ho Hroom Hb) as (F & F' & l2 & w2 & wr & Hrd & ->).
  set (w0 := add_fired w F) in *. assert (Hinv0 : world_inv w0) by (by apply (world_inv_same desc known w)).
  assert (Hsub : ∀ c, c ∈ ar_components a → c ∈ ar_components na) by (intros c Hc; apply Hcomps; by left).
  assert (Hsees : ∀ c, c ∈ ar_components a → wr_get desc wr c = World_get w e c) by (intros c Hc; apply (rd_sees _ _ _ _ _ _ _ _ Hrd); auto).
  assert (Hav : ∀ c, c ∈ ar_components na → is_Some (wr_get desc wr c)).
  { intros c Hc. destruct (decide (c ∈ ar_components a)) as [Hca|Hca].
    - rewrite Hsees by done. destruct (World_get_written w e l a c Hinv Hl Hof Hca) as (x & -> & _). by eexists.
    - apply (rd_dense _ _ _ _ _ _ _ _ Hrd); [done|]. destruct (cd_storage (desc c)) eqn:Hs; [done|]. destruct Hca; auto. }
  destruct (bundle_write_spec desc bundle wr (rd_writer _ _ _ _ _ _ _ _ Hrd) Hnd) as (wr1 & wr2 & Hw1 & Hw2 & Hto & Hin & Hout & Hdr).
  { intros c v Hx. split; [|by apply Hfit]. apply Hav, Hcomps. right; left. apply list_elem_of_fmap. by exists (c, v). }
  { intros c Hx. split; [|by apply Hdef]. apply Hav, Hcomps. auto. }
  pose proof (rd_tick _ _ _ _ _ _ _ _ Hrd : wr_tick wr = w_this_run w) as Htk. rewrite Htk in Hin, Hout.
  pose proof (rd_writed _ _ _ _ _ _ _ _ Hrd) as Hww.
  assert (Hlive : ∀ c, c ∈ ar_components na → ∃ x, wr_get desc wr2 c = Some x ∧ written x).
  { intros c Hc. destruct (decide (c ∈ bundle.*1)) as [Hcb|Hcb].
    - apply list_elem_of_fmap in Hcb as ([c' v] & -> & Hcb). cbn in *. destruct (Hin _ _ Hcb) as (old & Hold & Hg).
      eexists. split; [exact Hg|]. split; [|by eexists]. case_decide as Hw; [|by eexists]. apply Hww in Hw.
      rewrite Hsees in Hold by done. destruct (World_get_written w e l a c' Hinv Hl Hof Hw) as (x & Hx & Hxw).
      rewrite Hx in Hold. injection Hold as <-. apply Hxw.
    - rewrite Hout by done. case_decide as Hd; [eexists; split; [done|split; by eexists]|].
      assert (Hca : c ∈ ar_components a).
      { rewrite Hww in Hd. apply Hcomps in Hc as [?|[?|?]]; [done|done|]. apply dec_stable. naive_solver. }
      rewrite Hsees by done. by eapply World_get_written. }
  destruct (insert_finish w0 w2 e l a ni na l2 wr wr2 Hinv0 Hl Hof Hna Hrd Hto Hsub Hnosp Hlive) as (es & Hup & Hinv4 & Hoth & Hcomp & Hget).
  rewrite Hw1. cbn [mbind outcome_bind]. rewrite Hw2. cbn [mbind outcome_bind]. rewrite Hup. cbn [mbind outcome_bind].
  set (w4 := set_entities_w (put_writer w2 (ar_table_id na) wr2) es) in *.
  exists (add_fired w4 F'). split; [done|]. split; [|apply Hrd]. split.
  - by apply (world_inv_same desc known w4).
  - exact Hcomp.
  - intros c v Hx. change (World_get (add_fired w4 F') e c) with (World_get w4 e c).
    rewrite Hget by (apply Hcomps; right; left; apply list_elem_of_fmap; by exists (c, v)).
    destruct (Hin c v Hx) as (old & Hold & ->). destruct (decide (c ∈ ar_components a)) as [Hca|Hca].
    + rewrite decide_True by (by apply Hww). rewrite Hsees in Hold by done. by rewrite Hold.
    + by rewrite decide_False by (by rewrite Hww).
  - intros c Hn Hc. change (World_get (add_fired w4 F') e c) with (World_get w4 e c).
    rewrite Hget, Hout, decide_False by (auto; rewrite Hww; tauto). by apply Hsees.
  - intros c Hn Hca Hc. change (World_get (add_fired w4 F') e c) with (World_get w4 e c).
    rewrite Hget, Hout, decide_True; [done| |done|done]. rewrite Hww. split; [|done]. apply Hcomps in Hc. tauto.
  - exact Hoth.
  - cbn. rewrite Hdr, (rd_dropped _ _ _ _ _ _ _ _ Hrd), (mv_dropped _ _ _ _ _ _ _ _ _ (rd_moved _ _ _ _ _ _ _ _ Hrd)). cbn.
    rewrite <- app_assoc. f_equal. 
    pose proof Hinv as [Hreg _].
    destruct (rows_entity desc known w e l Hinv Hl) as (a' & _ & _ & _ & _ & _ & _ & Hof' & _ & _ & _ & Hao). simplify_eq.
    pose proof (ao_set _ _ _ _ _ Hao) as Hseta. cbn in Hseta.
    pose proof (ao_set _ _ _ _ _ (ro_arche _ _ _ Hreg _ _ (shape_arche w _ _ Hna))) as Hsetn. cbn in Hsetn.
    rewrite moved_grow_nothing
      by (intros c [Hc Hs]%(set_ok_dense desc _ _ c Hseta); apply (set_ok_dense desc _ _ c Hsetn); auto). cbn.
    f_equal. apply list_fmap_ext. intros k c _. destruct (decide (c ∈ ar_components a)) as [Hca|Hca].
    + rewrite decide_True by (by apply Hww). by rewrite Hsees.
    + by rewrite decide_False by (by rewrite Hww).
Qed.
End insert.
