(* ===== verification/WorldOps.v ===== *)
(** * Despawning, removing, clearing: the theorems

    The operations of the world that take components away, from any world that
    satisfies the invariant: they return, the invariant holds again, the entity
    has exactly the components it should, every other entity keeps its own, and
    the values that go are dropped exactly once. *)

From Stdlib Require Import ZArith Lia Sorting.Sorted.
From stdpp Require Import relations.
From S2P Require Import Prelude Tick EntityIdent EntityInfo FreeCount FreeBuffer Allocator Column Table SparseMap.
From S2P Require Import Locations Registry Collector World WorldInv WorldRegister WorldDespawn WorldMove.

Section ops.
Context `{VecGrowth}.
Variable desc : Z → ComponentDesc.
Variable known : gset Z.
Hypothesis types : types_ok desc known.
Notation info := (λ c, cd_info (desc c)).
Notation world_inv := (world_inv desc known).

(** What a removal leaves: [cs] are the components [e] keeps. *)
Record removed (w w' : World) (e : Entity) (cs : list Z) : Prop := {
  rm_inv : world_inv w';
  rm_components : World_components w' e = Some cs;
  rm_values : ∀ c, World_get w' e c = if decide (c ∈ cs) then World_get w e c else None;
  rm_others : ∀ e', e' ≠ e → same_entity w w' e';
  rm_dropped : ∃ old, World_components w e = Some old ∧
    w_dropped w' = w_dropped w ++ entity_values desc w e (filter (λ c, c ∉ cs) old);
  rm_alloc : w_allocator w' = w_allocator w
}.

Lemma removed_none w w' e a :
  world_inv w → world_inv w' → extends desc w w' → arche_of w e = Some a → removed w w' e (ar_components a).
Proof.
  intros Hinv Hinv' Hex Ha. pose proof (λ e, extends_same desc known w w' e Hinv Hex) as Hsame.
  assert (Hc : World_components w e = Some (ar_components a)) by (unfold World_components; by rewrite Ha).
  split; auto.
  - by rewrite (proj1 (Hsame e)).
  - intros c. rewrite (proj2 (Hsame e)). case_decide as Hin; [done|]. unfold World_get. rewrite Ha. cbn.
    rewrite decide_False.
    + destruct (map_get (w_maps w) c e) eqn:Hg; [|done]. exfalso.
      destruct (proj1 (rw_sparse _ _ (proj2 Hinv) c e)) as (a' & Ha' & Hs); [by eexists|]. simplify_eq. apply Hin.
      rewrite <- (take_drop (ar_dense_len a) (ar_components a)). apply elem_of_app. by right.
    + intros Hd. apply Hin. rewrite <- (take_drop (ar_dense_len a) (ar_components a)). apply elem_of_app. by left.
  - exists (ar_components a). split; [done|]. rewrite (ex_dropped _ _ _ Hex).
    replace (filter _ _) with (@nil Z); [by rewrite app_nil_r|]. symmetry.
    apply elem_of_nil_inv. intros c. rewrite list_elem_of_filter. tauto.
  - apply Hex.
Qed.

Lemma lost_filter na (cs : list Z) : filter (λ c, lost na c = true) cs = filter (λ c, c ∉ ar_components na) cs.
Proof. apply list_filter_iff_elem. intros c _. apply lost_true. Qed.

Lemma remove_dynamic_spec w e l a b bi :
  world_inv w → world_room known w → located (w_entities w) e = Some l → arche_of w e = Some a →
  bd_infos (w_bundles w) !! b = Some bi →
  ∃ w' cs, EntityOwned_remove_dynamic desc (size known) w e (Some l) b = Ret (located (w_entities w') e, w') ∧
    removed w w' e cs ∧ ∀ c, c ∈ cs ↔ closure_of desc (remaining a bi) c.
Proof.
  intros Hinv Hroom Hl Hof Hb. pose proof Hroom as (_ & _ & Hid & _).
  destruct (rows_entity desc known w e l Hinv Hl) as (a' & t & Ha & _ & _ & _ & _ & Hof' & _ & _ & _ & Hao). simplify_eq.
  destruct (arche_after_remove_spec desc known (ty_closed _ _ types) w (Z.to_nat (arche_id l)) a b bi Hinv Hid Ha Hb)
    as (r & w1 & na & Hr & Hinv1 & Hex & Hna & Htgt).
  pose proof (bo_set _ _ _ (ro_bundles _ _ _ (proj1 Hinv)) b bi Hb) as Hbs.
  destruct (remove_target_ok desc known (ty_closed _ _ types) a bi) as (dl & cs & Htgt' & _ & _ & Hmem & Hsub);
    [apply Hao|done|apply Hao|apply Hao|].
  rewrite Htgt' in Htgt. injection Htgt as Hdl Hcs.
  destruct (extends_arche_of desc w w1 e a Hex Hof) as (a1 & Hof1 & Hs1).
  assert (Hl1 : located (w_entities w1) e = Some l) by (by rewrite (ex_entities _ _ _ Hex)).
  unfold EntityOwned_remove_dynamic. cbn [assert_is_spawned mbind outcome_bind]. rewrite Hr. cbn [mbind outcome_bind].
  destruct (decide (Z.to_nat (arche_id l) = r)) as [<-|Hne].
  { exists w1, cs. rewrite Hl1. split; [done|]. split; [|done].
    assert (ar_components a = cs) as <-; [|by apply removed_none].
    destruct (ex_arches _ _ _ Hex _ _ Ha) as (a2 & Ha2 & Hs2). simplify_eq. by destruct Hs2 as (_ & _ & _ & ? & _). }
  destruct (rows_entity desc known w1 e l Hinv1 Hl1) as (a2 & t1 & Ha1 & Ht1 & _ & _ & _ & Hof2 & _ & _ & _ & _). simplify_eq.
  assert (∃ o, ts_tables (w_tables w1) !! ar_table_id na = Some o) as [o Ho].
  { pose proof (ao_table _ _ _ _ _ (ro_arche _ _ _ (proj1 Hinv1) _ _ (shape_arche w1 _ _ Hna))) as Hx. cbn in Hx.
    rewrite list_lookup_fmap in Hx. apply fmap_Some in Hx as (o & ? & _). eauto. }
  unfold remove_moved, Archetypes_get_unchecked. rewrite Ha1. cbn [of_option mbind outcome_bind]. rewrite Hna.
  cbn [of_option mbind outcome_bind]. match goal with |- context [add_fired w1 ?x] => set (w2 := add_fired w1 x) end.
  destruct (shrink_spec desc known w2 e l a1 r na o)
    as (l1 & w3 & l2 & w4 & log & maps & w5 & Hm1 & Hm2 & Hm3 & Hm4 & Hinv5 & _ & Hrel & _ & Hal & Hoth & Hcomp & Hget & Hdrop).
  { apply types. }
  { by apply (world_inv_same desc known w1). }
  { exact Hl1. }
  { exact Hof1. }
  { done. }
  { done. }
  { done. }
  { by eapply (extends_table_room desc known (ty_growth _ _ types) w w1). }
  { intros c Hc. destruct Hs1 as (_ & _ & _ & -> & _). by apply Hsub. }
  exists w5, (ar_components na). split.
  - rewrite Hm1. cbn [mbind outcome_bind]. rewrite Hm2. cbn [mbind outcome_bind].
    rewrite Hm3. cbn [mbind outcome_bind]. rewrite Hm4. done.
  - split; [|done]. pose proof (λ e, extends_same desc known w w1 e Hinv Hex) as Hsame.
    assert (Hs1c : ar_components a1 = ar_components a) by apply Hs1. split.
    + done.
    + done.
    + intros c. rewrite Hget. case_decide; [|done]. apply (Hsame e).
    + intros e' Hne'. eapply same_entity_trans; [apply Hsame|]. by apply Hoth.
    + exists (ar_components a). split; [unfold World_components; by rewrite Hof|]. rewrite Hdrop. cbn.
      rewrite (ex_dropped _ _ _ Hex), lost_filter, Hs1c. f_equal. exact (entity_values_same desc w w1 e _ (Hsame e)).
    + rewrite Hal. apply Hex.
Qed.

Lemma clear_spec w e l a :
  world_inv w → world_room known w → located (w_entities w) e = Some l → arche_of w e = Some a →
  ∃ w', EntityOwned_clear w e (Some l) = Ret (located (w_entities w') e, w') ∧ removed w w' e [].
Proof.
  intros Hinv Hroom Hl Hof.
  destruct (rows_entity desc known w e l Hinv Hl) as (a' & t & Ha & _ & _ & _ & _ & Hof' & _ & _ & _ & Hao). simplify_eq.
  destruct (ro_empty _ _ _ (proj1 Hinv)) as (na & Hna & Hnc & Hnt).
  apply shape_arche_inv in Hna as (na0 & Hna & ->). cbn in Hnc, Hnt.
  unfold EntityOwned_clear. cbn [assert_is_spawned mbind outcome_bind].
  destruct (decide (Z.to_nat (arche_id l) = 0)) as [He0|Hne].
  { exists w. rewrite Hl. split; [done|]. rewrite He0 in Ha. rewrite Ha in Hna. injection Hna as ->. rewrite <- Hnc.
    apply removed_none; [done|done|apply extends_refl|done]. }
  unfold Archetypes_get_unchecked. rewrite Ha. cbn [of_option mbind outcome_bind].
  match goal with |- context [move_arche ?x] => set (w0 := x) end.
  assert (∃ o, ts_tables (w_tables w) !! 0 = Some o) as [o Ho].
  { pose proof (ao_table _ _ _ _ _ (ro_arche _ _ _ (proj1 Hinv) _ _ (shape_arche w _ _ Hna))) as Hx. cbn in Hx.
    rewrite Hnt, list_lookup_fmap in Hx. apply fmap_Some in Hx as (o & ? & _). eauto. }
  destruct (shrink_spec desc known w0 e l a 0 na0 o)
    as (l1 & w3 & l2 & w4 & log & maps & w5 & Hm1 & Hm2 & Hm3 & Hm4 & Hinv5 & _ & Hrel & _ & Hal & Hoth & Hcomp & Hget & Hdrop); auto.
  { apply types. }
  { by apply (world_inv_same desc known w). }
  { by rewrite Hnt. }
  { by apply (proj1 Hroom 0). }
  { rewrite Hnc. by intros c ?%elem_of_nil. }
  rewrite Hnt in Hm2. rewrite Hm1. cbn [mbind outcome_bind]. rewrite Hm2. cbn [mbind outcome_bind].
  assert (Hall : filter (λ c, Archetype_contains_sparse_component na0 c = false) (Archetype_sparse_components a) = Archetype_sparse_components a).
  { rewrite <- (list_filter_all (Archetype_sparse_components a)) at 2. apply list_filter_iff_elem. intros c _.
    unfold Archetype_contains_sparse_component, Archetype_sparse_components. rewrite bool_decide_eq_false, Hnc, drop_nil.
    split; [done|]. by intros _ ?%elem_of_nil. }
  rewrite Hall in Hm3. rewrite Hm3. cbn [mbind outcome_bind]. rewrite Hm4. exists w5. split; [done|]. rewrite Hnc in *. split; auto.
  exists (ar_components a). split; [unfold World_components; by rewrite Hof|]. rewrite Hdrop, lost_filter, Hnc. done.
Qed.
End ops.
