(* ===== verification/WorldTheorems.v ===== *)
(** * The world: theorems

    The public operations of the world on any world that satisfies the
    invariant, with room for one more row everywhere: they return, preserve the
    invariant, and do to the components and values of entities what they should
    and nothing else. *)

From Stdlib Require Import ZArith Lia Sorting.Sorted.
From stdpp Require Import relations.
From S2P Require Import Prelude Tick EntityIdent EntityInfo FreeCount FreeBuffer Allocator Column Table SparseMap.
From S2P Require Import Locations Registry Collector World WorldInv WorldRegister WorldDespawn WorldMove WorldWrite.
From S2P Require Import WorldStart WorldSpawn WorldInsert WorldOps.

(** A component type lists everything it needs: what a required type requires
    is required too.  This is a condition on the declarations of component types;
    registration does not establish it. *)
Definition requires_transitive (desc : Z → ComponentDesc) : Prop :=
  ∀ c r x, requires desc c r → requires desc r x → requires desc c x ∨ x = c.

(** A bundle of distinct registered types with values, and defaults, of the
    right size. *)
Record bundle_ok (desc : Z → ComponentDesc) (known : gset Z) (bundle : list (Z * value)) : Prop := {
  bk_distinct : NoDup bundle.*1;
  bk_known : ∀ c, c ∈ bundle.*1 → c ∈ known;
  bk_fits : ∀ c v, (c, v) ∈ bundle → fits desc c v;
  bk_defaults : ∀ c, c ∈ directly_required desc bundle.*1 → fits desc c (cd_default (desc c))
}.

Section theorems.
Context `{VecGrowth}.
Variable desc : Z → ComponentDesc.
Variable known : gset Z.
Hypothesis types : types_ok desc known.
Hypothesis flat : requires_transitive desc.
Notation info := (λ c, cd_info (desc c)).
Notation world_inv := (world_inv desc known).

Lemma closure_flat ts c : closure_of desc ts c ↔ c ∈ ts ∨ c ∈ directly_required desc ts.
Proof.
  unfold closure_of, directly_required. rewrite list_elem_of_bind. split.
  - intros (t & Ht & Hr). assert (c = t ∨ requires desc t c) as [->|Hx]; [|by left|right; eauto].
    clear Ht. induction Hr as [|t r c Htr _ IH]; [by left|]. destruct IH as [->|Hrc]; [by right|].
    destruct (flat t r c Htr Hrc); auto.
  - intros [Hc|(t & Hc & Ht)]; [by exists c|]. exists t. split; [done|]. by apply rtc_once.
Qed.

(** The table of an archetype exists. *)
Lemma arche_table w i a :
  world_inv w → as_arches (w_archetypes w) !! i = Some a → ∃ o, ts_tables (w_tables w) !! ar_table_id a = Some o.
Proof.
  intros [Hreg _] Ha. pose proof (ao_table _ _ _ _ _ (ro_arche _ _ _ Hreg _ _ (shape_arche w _ _ Ha))) as Hx. cbn in Hx.
  rewrite list_lookup_fmap in Hx. apply fmap_Some in Hx as (o & ? & _). eauto.
Qed.

(** What a spawn leaves. *)
Record spawned (w w' : World) (e : Entity) (bundle : list (Z * value)) (cs : list Z) : Prop := {
  sp_inv : world_inv w';
  sp_components : World_components w' e = Some cs;
  sp_closure : ∀ c, c ∈ cs ↔ closure_of desc bundle.*1 c;
  sp_explicit : ∀ c v, (c, v) ∈ bundle → World_get w' e c = Some (v, Some (w_this_run w), Some (w_this_run w));
  sp_required : ∀ c, c ∈ cs → c ∉ bundle.*1 →
    World_get w' e c = Some (cd_default (desc c), Some (w_this_run w), Some (w_this_run w));
  sp_others : ∀ e', e' ≠ e → same_entity w w' e';
  sp_dropped : w_dropped w' = w_dropped w
}.

(** Registration and then the rows: the common part of [spawn] and [spawn_at],
    with the allocator as [al] in between. *)
Lemma spawn_registered w bundle e al :
  world_inv w → world_room known w → bundle_ok desc known bundle →
  Entity_valid e → Entities_can_spawn (w_entities w) e = Ok tt →
  ∃ b w1 ai w2 l w3 cs, World_register_required_bundle desc (size known) w bundle.*1 = Ret (b, w1) ∧
    World_register_archetype desc w1 b = Ret (ai, w2) ∧ w_allocator w2 = w_allocator w ∧
    BundleSpawner_spawn_at desc (set_allocator w2 al) ai bundle e = Ret (l, w3) ∧
    spawned w w3 e bundle cs ∧ located (w_entities w3) e = Some l ∧ w_allocator w3 = al ∧
    ∀ j, j ≠ Entity_index e → slot (w_entities w3) j = slot (w_entities w) j.
Proof.
  intros Hinv Hroom Hbun Hval Hcan. pose proof Hroom as (_ & _ & Hid & Hbr).
  destruct (register_required_spec desc known (ty_closed _ _ types) w bundle.*1 Hinv)
    as (b & bs & bi & Hr1 & Hinv1 & Hex1 & _ & Hb & Hset & Hcl & Hk & Hmem); [unfold bundle_room in *; lia|apply Hbun|].
  set (w1 := set_bundles w bs) in *.
  destruct (register_archetype_spec desc known w1 b bi Hinv1 Hid Hb Hcl Hk) as (ai & w2 & a & Hr2 & Hinv2 & Hex2 & Ha & Hcs).
  pose proof (extends_trans _ _ _ _ Hex1 Hex2) as Hex.
  destruct (arche_table w2 ai a Hinv2 Ha) as [o Ho].
  destruct (spawn_at_spec desc known types (set_allocator w2 al) e ai a o bundle)
    as (l & w3 & Hsp & Hinv3 & _ & Hloc & Hal & Hslot & Hoth & Hcomp & Hexp & Hreq & Hdrop & _); auto.
  - by apply (world_inv_same desc known w2).
  - cbn. by rewrite (ex_entities _ _ _ Hex).
  - by eapply (extends_table_room desc known (ty_growth _ _ types) w w2).
  - intros c m _ Hm. by eapply (extends_map_room desc known (ty_growth _ _ types) w w2).
  - apply Hbun.
  - apply Hbun.
  - apply Hbun.
  - intros c. rewrite Hcs, Hmem. apply closure_flat.
  - cbn in Hslot, Hexp, Hreq, Hdrop, Hal. rewrite (ex_entities _ _ _ Hex) in Hslot. rewrite (ex_run _ _ _ Hex) in Hexp, Hreq.
    exists b, w1, ai, w2, l, w3, (ar_components a). repeat (split; [done|]). split; [apply Hex|]. split; [done|]. split; [|done].
    split; auto.
    + intros c. rewrite Hcs. apply Hmem.
    + intros e' Hne. eapply same_entity_trans; [by apply (extends_same desc known)|]. exact (Hoth e' Hne).
    + rewrite Hdrop. apply Hex.
Qed.

(** An insertion into an extended world is one into the world itself. *)
Lemma inserted_extends w w1 w' e bundle old cs :
  world_inv w → extends desc w w1 → inserted desc known w1 w' e bundle old cs → inserted desc known w w' e bundle old cs.
Proof.
  intros Hinv Hex Hin. pose proof (λ e, extends_same desc known w w1 e Hinv Hex) as Hsame.
  pose proof (ex_run _ _ _ Hex) as Hrun. split; try apply Hin.
  - intros c v Hx. rewrite (in_explicit _ _ _ _ _ _ _ _ Hin c v Hx), Hrun. by rewrite (proj2 (Hsame e)).
  - intros c Hn Hc. rewrite (in_kept _ _ _ _ _ _ _ _ Hin c Hn Hc). apply (Hsame e).
  - intros c Hn Ho Hc. by rewrite (in_required _ _ _ _ _ _ _ _ Hin c Hn Ho Hc), Hrun.
  - intros e' Hne. eapply same_entity_trans; [apply Hsame|]. by apply Hin.
  - rewrite (in_dropped _ _ _ _ _ _ _ _ Hin), (ex_dropped _ _ _ Hex). f_equal. f_equal. apply list_fmap_ext. intros k c _.
    by rewrite (proj2 (Hsame e)).
Qed.

(** Registration, and what it leaves [insert_local] and [insert_moved]. *)
Lemma insert_registered w e l a bundle :
  world_inv w → world_room known w → bundle_ok desc known bundle →
  located (w_entities w) e = Some l → arche_of w e = Some a →
  ∃ r w3 a3 na b bi,
    EntityOwned_insert desc (size known) w e (Some l) bundle
    = (if decide (Z.to_nat (arche_id l) = r) then insert_local desc w3 e l b bundle else insert_moved desc w3 e l r b bundle) ∧
    world_inv w3 ∧ extends desc w w3 ∧ located (w_entities w3) e = Some l ∧
    arche_of w3 e = Some a3 ∧ as_arches (w_archetypes w3) !! Z.to_nat (arche_id l) = Some a3 ∧
    as_arches (w_archetypes w3) !! r = Some na ∧ bd_infos (w_bundles w3) !! b = Some bi ∧
    ar_components a3 = ar_components a ∧
    ∀ c, c ∈ ar_components na ↔ c ∈ ar_components a ∨ closure_of desc bundle.*1 c.
Proof.
  intros Hinv Hroom Hbun Hl Hof. pose proof Hroom as (_ & _ & Hid & Hbr).
  destruct (register_required_spec desc known (ty_closed _ _ types) w bundle.*1 Hinv)
    as (b & bs & bi & Hr1 & Hinv1 & Hex1 & Hlen1 & Hb & Hset & Hcl & Hk & Hmem); [unfold bundle_room in *; lia|apply Hbun|].
  destruct (register_explicit_spec desc known (set_bundles w bs) bundle.*1 Hinv1)
    as (b2 & bs2 & bi2 & Hr2 & Hinv2 & Hex2 & _ & Hb2 & Hset2); [unfold bundle_room in *; cbn; lia|].
  set (w2 := set_bundles (set_bundles w bs) bs2) in *.
  pose proof (extends_trans _ _ _ _ Hex1 Hex2) as Hex12.
  assert (Hb' : bd_infos (w_bundles w2) !! b = Some bi) by (by apply (ex_bundles _ _ _ Hex2)).
  destruct (extends_arche_of desc w w2 e a Hex12 Hof) as (a2 & Hof2 & Hs2).
  assert (Hl2 : located (w_entities w2) e = Some l) by done.
  destruct (rows_entity desc known w2 e l Hinv2 Hl2) as (a2' & t & Ha2 & _ & _ & _ & _ & Hof2' & _). simplify_eq.
  destruct (arche_after_insert_spec desc known w2 (Z.to_nat (arche_id l)) a2 b bi Hinv2 Hid Ha2 Hb' Hcl Hk)
    as (r & w3 & na & Hr3 & Hinv3 & Hex3 & Hna & Htgt).
  destruct (extends_arche_of desc w2 w3 e a2 Hex3 Hof2) as (a3 & Hof3 & Hs3).
  assert (Hl3 : located (w_entities w3) e = Some l) by (by rewrite (ex_entities _ _ _ Hex3)).
  destruct (rows_entity desc known w3 e l Hinv3 Hl3) as (a3' & t3 & Ha3 & _ & _ & _ & _ & Hof3' & _). simplify_eq.
  exists r, w3, a3, na, b2, bi2.
  unfold EntityOwned_insert. cbn [assert_is_spawned mbind outcome_bind]. rewrite Hr1. cbn [mbind outcome_bind].
  rewrite Hr2. cbn [mbind outcome_bind]. rewrite Hr3. cbn [mbind outcome_bind].
  repeat (split; [solve [eauto using extends_trans]|]). split; [by apply (ex_bundles _ _ _ Hex3)|]. split.
  - destruct Hs3 as (_ & _ & _ & -> & _). by destruct Hs2 as (_ & _ & _ & -> & _).
  - intros c. pose proof (ao_set _ _ _ _ _ (ro_arche _ _ _ (proj1 Hinv2) _ _ (shape_arche w2 _ _ Ha2))) as Hseta. cbn in Hseta.
    pose proof (proj2 (insert_target_ok desc a2 bi Hseta Hset) c) as Hx.
    rewrite <- Htgt in Hx. cbn in Hx. rewrite Hx, Hmem. by destruct Hs2 as (_ & _ & _ & -> & _).
Qed.

Lemma insert_spec w e l a bundle :
  world_inv w → world_room known w → bundle_ok desc known bundle →
  located (w_entities w) e = Some l → arche_of w e = Some a →
  (∀ c, closure_of desc bundle.*1 c → cd_storage (desc c) = Sparse → c ∈ ar_components a) →
  ∃ w' cs, EntityOwned_insert desc (size known) w e (Some l) bundle = Ret (located (w_entities w') e, w') ∧
    inserted desc known w w' e bundle (ar_components a) cs ∧
    ∀ c, c ∈ cs ↔ c ∈ ar_components a ∨ closure_of desc bundle.*1 c.
Proof.
  intros Hinv Hroom Hbun Hl Hof Hsp.
  destruct (insert_registered w e l a bundle Hinv Hroom Hbun Hl Hof)
    as (r & w3 & a3 & na & b & bi & -> & Hinv3 & Hex & Hl3 & Hof3 & Ha3 & Hna & Hb3 & Hsc & Hmem3).
  destruct (decide (Z.to_nat (arche_id l) = r)) as [<-|Hne].
  - rewrite Ha3 in Hna. injection Hna as <-.
    destruct (insert_local_spec desc known w3 e l a3 b bi bundle Hinv3 Hl3 Hof3 Hb3) as (w' & -> & Hins & _ & _).
    + apply Hbun.
    + intros c v Hx. split; [|by eapply (bk_fits _ _ _ Hbun)]. rewrite Hmem3. right. exists c. split; [|done].
      apply list_elem_of_fmap. by exists (c, v).
    + exists w', (ar_components a3). split; [done|]. split; [|done]. rewrite Hsc in *. by eapply inserted_extends.
  - destruct (arche_table w3 r na Hinv3 Hna) as [o Ho].
    destruct (insert_moved_spec desc known types w3 e l a3 r na o b bi bundle) as (w' & -> & Hins & _); auto.
    + by eapply (extends_table_room desc known (ty_growth _ _ types) w w3).
    + apply Hbun.
    + apply Hbun.
    + apply Hbun.
    + intros c. rewrite Hmem3, Hsc, closure_flat. done.
    + intros c Hc Hs. rewrite Hsc. apply Hmem3 in Hc as [?|Hc]; [done|]. by apply Hsp.
    + exists w', (ar_components na). split; [done|]. split; [|done]. rewrite Hsc in *. by eapply inserted_extends.
Qed.

Lemma set_allocator_id w : set_allocator w (w_allocator w) = w.
Proof. by destruct w. Qed.

Lemma spawn_at_ok w bundle e :
  world_inv w → world_room known w → bundle_ok desc known bundle →
  Entity_valid e → Entities_can_spawn (w_entities w) e = Ok tt →
  ∃ w' cs, World_spawn_at desc (size known) w bundle e = Ret (Ok e, w') ∧
    is_Some (located (w_entities w') e) ∧ spawned w w' e bundle cs.
Proof.
  intros Hinv Hroom Hbun Hval Hcan. unfold World_spawn_at. rewrite Hcan.
  destruct (spawn_registered w bundle e (w_allocator w) Hinv Hroom Hbun Hval Hcan)
    as (b & w1 & ai & w2 & l & w3 & cs & -> & Hr & Hal & Hsp & Hs & Hloc & _).
  cbn [mbind outcome_bind]. rewrite Hr. cbn [mbind outcome_bind]. rewrite <- Hal, set_allocator_id in Hsp. rewrite Hsp.
  cbn [mbind outcome_bind]. exists w3, cs. split; [done|]. split; [by eexists|done].
Qed.
End theorems.

(** [spawn_at].  An entity whose slot is free and has its generation is
    spawned: the call returns, the entity then has exactly the closure of the
    bundle's types under required components, the explicit ones with the values
    given, the others with their defaults, all with both ticks set to the
    current run; every other entity keeps its components and values, nothing is
    dropped, and the invariant holds.  Any other entity is refused and the
    world does not change. *)
Theorem spawn_at_correct `{VecGrowth} desc known w bundle e :
  types_ok desc known → requires_transitive desc → world_inv desc known w → world_room known w →
  bundle_ok desc known bundle → Entity_valid e →
  match Entities_can_spawn (w_entities w) e with
  | Ok _ => ∃ w' cs, World_spawn_at desc (size known) w bundle e = Ret (Ok e, w') ∧
              is_Some (located (w_entities w') e) ∧ spawned desc known w w' e bundle cs
  | Err x => World_spawn_at desc (size known) w bundle e = Ret (Err x, w)
  end.
Proof.
  intros Hty Hflat Hinv Hroom Hbun Hval. destruct (Entities_can_spawn (w_entities w) e) as [[]|x] eqn:Hcan.
  - by apply spawn_at_ok.
  - unfold World_spawn_at. by rewrite Hcan.
Qed.

(** [despawn].  An entity that is not located is refused and the world does
    not change.  A located one leaves its archetype, its table and its maps: the
    call returns, the identifier comes back with the next generation and its
    slot is free for it, the stored values with a dropper are dropped exactly
    once, in component order, every other entity keeps its components and
    values although rows were moved to fill the gap, and the invariant holds. *)
Theorem despawn_correct `{VecGrowth} desc known w e :
  world_inv desc known w →
  match Entities_locate (w_entities w) e with
  | Err x => World_despawn_no_free w e = Ret (Err (DespawnError_from x), w)
  | Ok _ => ∃ w' cs,
      let e1 := Entity_new (ent_id e) (EntityTag_wrapping_add (ent_tag e) 1) in
      World_despawn_no_free w e = Ret (Ok e1, w') ∧ world_inv desc known w' ∧
      World_components w e = Some cs ∧ World_components w' e = None ∧ Entities_can_spawn (w_entities w') e1 = Ok tt ∧
      (∀ e', e' ≠ e → same_entity w w' e') ∧ w_dropped w' = w_dropped w ++ entity_values desc w e cs
  end.
Proof.
  intros Hinv. unfold World_despawn_no_free. destruct (Entities_locate (w_entities w) e) as [l|x] eqn:Hloc; [|done].
  assert (Hl : located (w_entities w) e = Some l) by (unfold located; by rewrite Hloc).
  destruct (rows_entity desc known w e l Hinv Hl) as (a & t & _ & _ & _ & _ & _ & Hof & _).
  destruct (despawn_spec desc known w e l a Hinv Hl Hof) as (w' & -> & Hinv' & _ & _ & Hslot & Hoth & Hdrop & _).
  cbn [mbind outcome_bind]. exists w', (ar_components a). split; [done|]. split; [done|].
  split; [unfold World_components; by rewrite Hof|]. split; [|split; [|done]].
  - unfold World_components, arche_of. destruct (apos (w_entities w') e) as [p|] eqn:Hp; [|done].
    assert (is_Some (located (w_entities w') e)) as [l' Hl'] by (apply apos_located; by rewrite Hp).
    apply located_slot in Hl'. by rewrite Hslot in Hl'.
  - set (e1 := Entity_new (ent_id e) (EntityTag_wrapping_add (ent_tag e) 1)).
    assert (Hx : default DEFAULT_INFO (infos (w_entities w') !! Entity_index e1) = mkInfo (ent_tag e1) None) by exact Hslot.
    unfold Entities_can_spawn. rewrite Hx. cbn. by rewrite decide_True.
Qed.

(** Removing a bundle ([remove_dynamic], to which [remove] and
    [remove_required] reduce).  The call returns with an up-to-date handle; the
    entity keeps exactly the components outside the bundle and whatever these
    require, with their values and ticks; the values of the components that go
    are dropped exactly once; every other entity keeps its own; and the
    invariant holds. *)
Theorem remove_correct `{VecGrowth} desc known w e l b bi old :
  types_ok desc known → world_inv desc known w → world_room known w →
  located (w_entities w) e = Some l → World_components w e = Some old → bd_infos (w_bundles w) !! b = Some bi →
  ∃ w' cs, EntityOwned_remove_dynamic desc (size known) w e (Some l) b = Ret (located (w_entities w') e, w') ∧
    removed desc known w w' e cs ∧
    ∀ c, c ∈ cs ↔ closure_of desc (filter (λ c, c ∉ bi_components bi) old) c.
Proof.
  intros Hty Hinv Hroom Hl Hold Hb. unfold World_components in Hold. apply fmap_Some in Hold as (a & Hof & ->).
  exact (remove_dynamic_spec desc known Hty w e l a b bi Hinv Hroom Hl Hof Hb).
Qed.

(** [clear] takes every component from an entity, drops each value exactly
    once, leaves the entity spawned in the empty archetype and every other entity
    as it was. *)
Theorem clear_correct `{VecGrowth} desc known w e l :
  types_ok desc known → world_inv desc known w → world_room known w → located (w_entities w) e = Some l →
  ∃ w', EntityOwned_clear w e (Some l) = Ret (located (w_entities w') e, w') ∧ removed desc known w w' e [].
Proof.
  intros Hty Hinv Hroom Hl. destruct (rows_entity desc known w e l Hinv Hl) as (a & t & _ & _ & _ & _ & _ & Hof & _).
  exact (clear_spec desc known Hty w e l a Hinv Hroom Hl Hof).
Qed.

(** C8: [insert], when no sparse component is new to the entity and component types
    list all they require, also indirectly ([requires_transitive]; registration does
    not see to it, and without it [required_chain_uninitialised] in [WorldFaults]
    shows a component that is never written).  The call returns
    with an up-to-date handle; the entity has its old components and the closure
    of the bundle's types; components of the bundle get the values given, with
    the changed tick set and the added tick set only if they are new; required
    components that were missing get their defaults; the other components keep
    values and ticks; exactly the overwritten values are dropped; every other
    entity keeps its own; and the invariant holds. *)
Theorem insert_correct `{VecGrowth} desc known w e l bundle old :
  types_ok desc known → requires_transitive desc → world_inv desc known w → world_room known w →
  bundle_ok desc known bundle → located (w_entities w) e = Some l → World_components w e = Some old →
  (∀ c, closure_of desc bundle.*1 c → cd_storage (desc c) = Sparse → c ∈ old) →
  ∃ w' cs, EntityOwned_insert desc (size known) w e (Some l) bundle = Ret (located (w_entities w') e, w') ∧
    inserted desc known w w' e bundle old cs ∧
    ∀ c, c ∈ cs ↔ c ∈ old ∨ closure_of desc bundle.*1 c.
Proof.
  intros Hty Hflat Hinv Hroom Hbun Hl Hold Hsp. unfold World_components in Hold. apply fmap_Some in Hold as (a & Hof & ->).
  exact (insert_spec desc known Hty Hflat w e l a bundle Hinv Hroom Hbun Hl Hof Hsp).
Qed.

(** ** Examples *)

(** Component 1 is dense and has a dropper, 2 is sparse, 3 is dense and requires
    1; each is one byte. *)
Definition ex_desc (c : Z) : ComponentDesc :=
  if decide (c = 1)%Z then mkDesc (mkComponentInfo 1 1 true) Dense [] (λ _, true) [Some Byte.x07]
  else if decide (c = 2)%Z then mkDesc (mkComponentInfo 1 1 true) Sparse [] (λ _, false) [Some Byte.x00]
  else if decide (c = 3)%Z then mkDesc (mkComponentInfo 1 1 false) Dense [1%Z] (λ _, false) [Some Byte.x00]
  else mkDesc (mkComponentInfo 1 1 false) Dense [] (λ _, false) [Some Byte.x00].

Definition ex_known : gset Z := {[ 1; 2; 3 ]}%Z.

#[local] Existing Instance doubling.

Lemma ex_types : types_ok ex_desc ex_known.
Proof.
  split.
  - intros c. unfold ex_desc. by repeat case_decide.
  - intros c r _. unfold requires, ex_desc. repeat case_decide; cbn; unfold ex_known; set_solver.
  - by vm_compute.
Qed.

Lemma ex_flat : requires_transitive ex_desc.
Proof.
  intros c r x. unfold requires, ex_desc. repeat case_decide; cbn; set_solver.
Qed.

Definition ex_run {A} (o : outcome (A * World)) : World := match o with Ret (_, w) => w | _ => World_alloc ex_desc end.

Definition ex_first : list (Z * value) := [(3, [Some Byte.x30]); (2, [Some Byte.x20])]%Z.
Definition ex_second : list (Z * value) := [(2, [Some Byte.x21])]%Z.

(** Entity 5 with components 1, 3 and 2, then entity 6 with component 2. *)
Definition ex_w1 : World := ex_run (World_spawn_at ex_desc (size ex_known) (World_alloc ex_desc) ex_first (ex_entity 5 0)).
Definition ex_w2 : World := ex_run (World_spawn_at ex_desc (size ex_known) ex_w1 ex_second (ex_entity 6 0)).
Definition ex_third : list (Z * value) := [(3, [Some Byte.x31])]%Z.

(** Then entity 7 with components 1 and 3. *)
Definition ex_w3 : World := ex_run (World_spawn_at ex_desc (size ex_known) ex_w2 ex_third (ex_entity 7 0)).

(** A bundle of registered one-byte components. *)
Lemma ex_bundle_ok (bundle : list (Z * value)) :
  NoDup bundle.*1 → Forall (λ x, x.1 ∈ ex_known ∧ length x.2 = 1) bundle → bundle_ok ex_desc ex_known bundle.
Proof.
  intros Hnd Hall. rewrite Forall_forall in Hall. split.
  - done.
  - intros c ([c' v] & -> & Hx)%list_elem_of_fmap. by apply (Hall _ Hx).
  - intros c v Hx. destruct (Hall _ Hx) as [_ Hlen]. cbn in Hlen. unfold fits. rewrite Hlen. unfold ex_desc. by repeat case_decide.
  - intros c _. unfold fits, ex_desc. by repeat case_decide.
Qed.

Ltac ex_bundle := apply ex_bundle_ok; [by apply (bool_decide_unpack _); vm_compute|repeat constructor; unfold ex_known; cbn; set_solver].

Lemma ex_spawn_inv w bundle e :
  world_inv ex_desc ex_known w → world_roomb ex_known w = true → bundle_ok ex_desc ex_known bundle →
  Entity_valid e → Entities_can_spawn (w_entities w) e = Ok tt →
  world_inv ex_desc ex_known (ex_run (World_spawn_at ex_desc (size ex_known) w bundle e)).
Proof.
  intros Hinv Hroom Hb Hv Hc.
  destruct (spawn_at_ok ex_desc ex_known ex_types ex_flat w bundle e Hinv (world_roomb_sound _ _ Hroom) Hb Hv Hc)
    as (w' & cs & -> & _ & Hs). apply Hs.
Qed.

Lemma ex_w1_inv : world_inv ex_desc ex_known ex_w1.
Proof.
  apply ex_spawn_inv; [apply World_alloc_inv|by vm_compute|unfold ex_first; ex_bundle|by vm_compute|by vm_compute].
Qed.

Lemma ex_w2_inv : world_inv ex_desc ex_known ex_w2.
Proof.
  apply ex_spawn_inv; [apply ex_w1_inv|by vm_compute|unfold ex_second; ex_bundle|by vm_compute|by vm_compute].
Qed.

Lemma ex_w3_inv : world_inv ex_desc ex_known ex_w3.
Proof.
  apply ex_spawn_inv; [apply ex_w2_inv|by vm_compute|unfold ex_third; ex_bundle|by vm_compute|by vm_compute].
Qed.

Lemma ex_w2_room : world_room ex_known ex_w2.
Proof. apply world_roomb_sound. by vm_compute. Qed.

Lemma spawn_at_correct_witness :
  ∃ w' cs, World_spawn_at ex_desc (size ex_known) ex_w2 ex_third (ex_entity 7 0) = Ret (Ok (ex_entity 7 0), w') ∧
    is_Some (located (w_entities w') (ex_entity 7 0)) ∧ spawned ex_desc ex_known ex_w2 w' (ex_entity 7 0) ex_third cs.
Proof.
  refine (spawn_at_correct ex_desc ex_known ex_w2 ex_third (ex_entity 7 0) ex_types ex_flat ex_w2_inv ex_w2_room _ _).
  - unfold ex_third. ex_bundle.
  - by vm_compute.
Defined.

Lemma despawn_correct_witness :
  ∃ w', World_despawn_no_free ex_w2 (ex_entity 5 0) = Ret (Ok (ex_entity 5 1), w') ∧
    w_dropped w' = [[Some Byte.x07]; [Some Byte.x20]] ∧ same_entity ex_w2 w' (ex_entity 6 0).
Proof.
  pose proof (despawn_correct ex_desc ex_known ex_w2 (ex_entity 5 0) ex_w2_inv) as Hd.
  assert (Hl : Entities_locate (w_entities ex_w2) (ex_entity 5 0) = Ok (mkLoc 1 1 0 0)) by (by vm_compute).
  rewrite Hl in Hd. destruct Hd as (w' & cs & Hr & _ & Hcs & _ & _ & Hoth & Hdr).
  assert (Hcs' : World_components ex_w2 (ex_entity 5 0) = Some [1; 3; 2]%Z) by (by vm_compute).
  rewrite Hcs' in Hcs. injection Hcs as <-. exists w'. split; [exact Hr|]. split.
  - rewrite Hdr. by vm_compute.
  - apply Hoth. by vm_compute.
Defined.

(** What the entity keeps and gains is computed by the flat closure. *)
Lemma remove_correct_witness :
  ∃ w' cs, EntityOwned_remove_dynamic ex_desc (size ex_known) ex_w2 (ex_entity 5 0) (Some (mkLoc 1 1 0 0)) 2
           = Ret (located (w_entities w') (ex_entity 5 0), w') ∧
    removed ex_desc ex_known ex_w2 w' (ex_entity 5 0) cs ∧ 2%Z ∉ cs ∧ 1%Z ∈ cs.
Proof.
  destruct (remove_correct ex_desc ex_known ex_w2 (ex_entity 5 0) (mkLoc 1 1 0 0) 2 (mkBundle 2 0 [2%Z]) [1; 3; 2]%Z)
    as (w' & cs & Hr & Hrem & Hcs); [apply ex_types|apply ex_w2_inv|apply ex_w2_room|by vm_compute..|].
  exists w', cs. split; [done|]. split; [done|]. rewrite !Hcs, !(closure_flat _ ex_flat).
  split; apply (bool_decide_unpack _); by vm_compute.
Defined.

Lemma clear_correct_witness :
  ∃ w', EntityOwned_clear ex_w2 (ex_entity 5 0) (Some (mkLoc 1 1 0 0))
        = Ret (located (w_entities w') (ex_entity 5 0), w') ∧ removed ex_desc ex_known ex_w2 w' (ex_entity 5 0) [].
Proof.
  apply (clear_correct ex_desc ex_known); [apply ex_types|apply ex_w2_inv|apply ex_w2_room|by vm_compute].
Defined.

Lemma insert_correct_witness :
  ∃ w' cs, EntityOwned_insert ex_desc (size ex_known) ex_w2 (ex_entity 6 0) (Some (mkLoc 2 0 0 0)) ex_third
           = Ret (located (w_entities w') (ex_entity 6 0), w') ∧
    inserted ex_desc ex_known ex_w2 w' (ex_entity 6 0) ex_third [2%Z] cs ∧ 1%Z ∈ cs ∧ 2%Z ∈ cs ∧ 3%Z ∈ cs.
Proof.
  destruct (insert_correct ex_desc ex_known ex_w2 (ex_entity 6 0) (mkLoc 2 0 0 0) ex_third [2%Z])
    as (w' & cs & Hr & Hins & Hcs);
    [apply ex_types|apply ex_flat|apply ex_w2_inv|apply ex_w2_room|unfold ex_third; ex_bundle|by vm_compute..| |].
  - intros c Hc Hs. rewrite (closure_flat _ ex_flat) in Hc. vm_compute in Hc. set_solver.
  - exists w', cs. split; [done|]. split; [done|]. rewrite !Hcs, !(closure_flat _ ex_flat).
    repeat split; apply (bool_decide_unpack _); by vm_compute.
Defined.
