(* ===== verification/WorldHistory.v ===== *)
(** * Histories of a world

    The world and its entity allocator together.  [out] are the identifiers the
    allocator has given out and not taken back.  In every history of spawns,
    despawns, insertions, removals and clears, the entities the allocator holds,
    and the ones it will still make, can be spawned, and every spawned entity has
    an identifier that is out: [spawn] never meets an occupied slot, and [despawn]
    never frees an identifier twice. *)

From Stdlib Require Import ZArith Lia Sorting.Sorted.
From stdpp Require Import relations.
From S2P Require Import Prelude Tick EntityIdent EntityInfo FreeCount FreeBuffer Allocator Held Column Table SparseMap.
From S2P Require Import Locations Registry Collector World WorldInv WorldRegister WorldDespawn WorldMove WorldWrite.
From S2P Require Import WorldQuiet WorldStart WorldSpawn WorldInsert WorldOps WorldTheorems.

Definition spawnable (es : Entities) (e : Entity) : Prop := Entities_can_spawn es e = Ok tt.

(** The allocator and the location table agree. *)
Definition coupled (w : World) (out : list Z) : Prop :=
  ∃ held, allocator_held (w_allocator w) out held ∧
    (∀ e, e ∈ held → spawnable (w_entities w) e ∧ Entity_valid e) ∧
    (∀ n, (sh_fresh (w_allocator w) <= n < u32_max)%Z → spawnable (w_entities w) (entity_from_u32 n)) ∧
    ∀ e, is_Some (located (w_entities w) e) → ident e ∈ out.

Lemma spawnable_tag es e : spawnable es e ↔ tag_at es (Entity_index e) = ent_tag e ∧ info_location (slot es (Entity_index e)) = None.
Proof.
  unfold spawnable, Entities_can_spawn, tag_at, slot. destruct (default _ _) as [t [l|]]; cbn; [naive_solver|].
  case_decide; naive_solver.
Qed.

Lemma spawnable_located es e : spawnable es e ↔ tag_at es (Entity_index e) = ent_tag e ∧ located es e = None.
Proof.
  rewrite spawnable_tag. split; intros [Ht Hl]; (split; [done|]).
  - apply eq_None_not_Some. intros [l Hx%located_slot]. by rewrite Hx in Hl.
  - destruct (info_location (slot es (Entity_index e))) as [l|] eqn:Hx; [|done].
    assert (located es e = Some l); [|congruence]. apply located_slot. unfold tag_at in Ht.
    destruct (slot es (Entity_index e)); cbn in *; congruence.
Qed.

Section history.
Context `{VecGrowth}.
Variable desc : Z → ComponentDesc.
Variable known : gset Z.
Hypothesis types : types_ok desc known.
Hypothesis flat : requires_transitive desc.
Notation world_inv := (world_inv desc known).

(** An entity has components exactly when it is located. *)
Lemma located_components w e : world_inv w → is_Some (located (w_entities w) e) ↔ is_Some (World_components w e).
Proof.
  intros Hinv. split.
  - intros [l Hl]. destruct (rows_entity desc known w e l Hinv Hl) as (a & t & _ & _ & _ & _ & _ & Hof & _).
    unfold World_components. rewrite Hof. by eexists.
  - intros [cs Hcs]. apply apos_located. unfold World_components, arche_of in Hcs.
    destruct (apos (w_entities w) e); [by eexists|done].
Qed.

Lemma same_located w w' e :
  world_inv w → world_inv w' → same_entity w w' e → is_Some (located (w_entities w') e) ↔ is_Some (located (w_entities w) e).
Proof. intros Hi Hi' [Hc _]. by rewrite !located_components, Hc. Qed.

Lemma spawnable_frame w w' e :
  world_inv w → world_inv w' → same_entity w w' e →
  tag_at (w_entities w') (Entity_index e) = tag_at (w_entities w) (Entity_index e) →
  spawnable (w_entities w) e → spawnable (w_entities w') e.
Proof.
  intros Hi Hi' Hs Ht. rewrite !spawnable_located, Ht, !eq_None_not_Some. by rewrite (same_located w w' e Hi Hi' Hs).
Qed.

(** Operations on a spawned entity keep the coupling. *)
Lemma coupled_quiet w w' e out :
  world_inv w → world_inv w' → quiet w w' → (∀ e', e' ≠ e → same_entity w w' e') →
  is_Some (located (w_entities w) e) → coupled w out → coupled w' out.
Proof.
  intros Hi Hi' [Ha Ht] Hoth Hl (held & Hh & Hsp & Hfr & Hout).
  assert (Hkeep : ∀ e', spawnable (w_entities w) e' → spawnable (w_entities w') e').
  { intros e' Hs. assert (H0 : e' ≠ e) by (intros ->; apply spawnable_located in Hs as [_ Hn]; rewrite Hn in Hl; by destruct Hl).
    by apply (spawnable_frame w w' e' Hi Hi' (Hoth _ H0) (Ht _)). }
  exists held. rewrite Ha. split; [done|].
  split; [intros x Hx; split; [by apply Hkeep, Hsp|by apply Hsp]|]. split; [intros n Hn; by apply Hkeep, Hfr|].
  intros e' Hl'. destruct (decide (e' = e)) as [->|Hne]; [by apply Hout|]. apply Hout.
  by apply (same_located w w' e' Hi Hi' (Hoth e' Hne)).
Qed.

(** Different identifiers have different slots. *)
Lemma ident_index e e' : Entity_valid e → Entity_index e' = Entity_index e → ident e' = ident e.
Proof. unfold Entity_valid, EntityId_valid, Entity_index, EntityId_index, EntityId_to_bits, ident. lia. Qed.

Lemma fresh_valid n : (1 <= n < u32_max)%Z → Entity_valid (entity_from_u32 n).
Proof. unfold u32_max. intros Hn. split; cbn; [unfold EntityId_valid; cbn; lia|done]. Qed.

(** The entity an allocation gives, and the ones it leaves, can be spawned. *)
Lemma taken_spawnable w out held e al held' x :
  allocator_held (w_allocator w) out held → taken (w_allocator w) out held e al held' →
  (∀ e, e ∈ held → spawnable (w_entities w) e ∧ Entity_valid e) →
  (∀ n, (sh_fresh (w_allocator w) <= n < u32_max)%Z → spawnable (w_entities w) (entity_from_u32 n)) →
  x ∈ e :: held' → spawnable (w_entities w) x ∧ Entity_valid x.
Proof.
  intros Hh (Hh' & Hle & Hp) Hsp Hfr. rewrite Hp, elem_of_app. intros [Hx|Hx]; [by apply Hsp|].
  apply list_elem_of_fmap in Hx as (n & -> & Hn%elem_of_seqZ).
  destruct Hh as (_ & _ & _ & _ & Hb & _). destruct Hh' as (_ & _ & _ & _ & Hb' & _).
  split; [apply Hfr; lia|apply fresh_valid; lia].
Qed.

Lemma spawnable_slot es es' e :
  slot es' (Entity_index e) = slot es (Entity_index e) → spawnable es e → spawnable es' e.
Proof. intros Hs. unfold spawnable, Entities_can_spawn. fold (slot es (Entity_index e)) (slot es' (Entity_index e)). by rewrite Hs. Qed.

(** [World::spawn]: a new entity, or the identifiers are used up. *)
Lemma spawn_coupled w out bundle :
  world_inv w → coupled w out → world_room known w → bundle_ok desc known bundle →
  (∃ e w' cs, World_spawn desc (size known) w bundle = Ret (e, w') ∧ located (w_entities w) e = None ∧ ident e ∉ out ∧
     is_Some (located (w_entities w') e) ∧ spawned desc known w w' e bundle cs ∧ coupled w' (out ++ [ident e])) ∨
  (World_spawn desc (size known) w bundle = Panic ∧ (u32_max < sh_fresh (w_allocator w) + 128)%Z).
Proof.
  intros Hinv (held & Hh & Hsp & Hfr & Hout) Hroom Hbun.
  destruct (alloc_mut_held _ _ _ Hh) as [(e & al & held' & Hal & Htk)|[Hpanic Hex]].
  - left. pose proof (taken_spawnable w out held e al held' e Hh Htk Hsp Hfr) as [Hs Hv]; [set_solver|].
    destruct (spawn_registered desc known types flat w bundle e al Hinv Hroom Hbun Hv Hs)
      as (b & w1 & ai & w2 & l & w3 & cs & Hr1 & Hr2 & Ha2 & Hr3 & Hspd & Hloc & Ha3 & Hslot).
    exists e, w3, cs. unfold World_spawn. rewrite Hr1. cbn [mbind outcome_bind]. rewrite Hr2. cbn [mbind outcome_bind].
    rewrite Ha2, Hal. cbn [mbind outcome_bind]. rewrite Hr3. cbn [mbind outcome_bind].
    pose proof Htk as (Hh' & Hle & Hp). pose proof (held_disjoint _ _ _ Hh') as Hnd.
    apply NoDup_app in Hnd as (Hndo & Hdis & _). apply NoDup_app in Hndo as (_ & Hnew & _).
    split; [done|]. split; [by apply spawnable_located in Hs as [_ ?]|].
    split; [intros Hi; by apply (Hnew _ Hi), list_elem_of_singleton|]. split; [by eexists|]. split; [done|].
    exists held'. rewrite Ha3. split; [done|]. split; [|split].
    + intros x Hx. destruct (taken_spawnable w out held e al held' x Hh Htk Hsp Hfr) as [Hxs Hxv]; [set_solver|].
      split; [|done]. apply (spawnable_slot (w_entities w)); [|done]. apply Hslot. intros Heq%(ident_index e x Hv).
      apply (Hdis (ident e)); [set_solver|]. rewrite <- Heq. apply list_elem_of_fmap. eauto.
    + intros n Hn. apply (spawnable_slot (w_entities w)); [|apply Hfr; lia]. apply Hslot. intros Heq%(ident_index e _ Hv).
      pose proof (held_range _ _ _ (ident e) Hh') as Hr. cbn in Heq. rewrite <- Heq in Hr.
      destruct Hr as [Hr _]; [set_solver|]. unfold ident in Hr. cbn in Hr. lia.
    + intros e' Hl'. destruct (decide (e' = e)) as [->|Hne]; [set_solver|]. apply elem_of_app. left. apply Hout.
      by apply (same_located w w3 e' Hinv (sp_inv _ _ _ _ _ _ _ Hspd) (sp_others _ _ _ _ _ _ _ Hspd e' Hne)).
  - right. split; [|done]. pose proof Hroom as (_ & _ & Hid & Hbr).
    destruct (register_required_spec desc known (ty_closed _ _ types) w bundle.*1 Hinv)
      as (b & bs & bi & Hr1 & Hinv1 & Hex1 & _ & Hb & Hset & Hcl & Hk & Hmem); [unfold bundle_room in *; lia|apply Hbun|].
    destruct (register_archetype_spec desc known (set_bundles w bs) b bi Hinv1 Hid Hb Hcl Hk) as (ai & w2 & a & Hr2 & Hinv2 & Hex2 & _).
    unfold World_spawn. rewrite Hr1. cbn [mbind outcome_bind]. rewrite Hr2. cbn [mbind outcome_bind].
    rewrite (ex_alloc _ _ _ Hex2). cbn. by rewrite Hpanic.
Qed.

(** [World::alloc_entity] reserves an identifier nobody holds. *)
Lemma alloc_entity_coupled w out :
  coupled w out →
  (∃ e al, World_alloc_entity w = Ret (e, set_allocator w al) ∧ spawnable (w_entities w) e ∧ Entity_valid e ∧ ident e ∉ out ∧
     coupled (set_allocator w al) (out ++ [ident e])) ∨
  (World_alloc_entity w = Panic ∧ sh_fresh (w_allocator w) = u32_max).
Proof.
  intros (held & Hh & Hsp & Hfr & Hout). unfold World_alloc_entity.
  destruct (alloc_held _ _ _ Hh) as [(e & al & held' & -> & Htk)|[-> Hex]]; [left|by right].
  pose proof (taken_spawnable w out held e al held' e Hh Htk Hsp Hfr) as [Hs Hv]; [set_solver|].
  pose proof Htk as (Hh' & Hle & Hp). pose proof (held_disjoint _ _ _ Hh') as (Hndo & _ & _)%NoDup_app.
  apply NoDup_app in Hndo as (_ & Hnew & _). exists e, al. cbn [mbind outcome_bind]. split; [done|]. split; [done|]. split; [done|].
  split; [intros Hi; by apply (Hnew _ Hi), list_elem_of_singleton|].
  exists held'. split; [exact Hh'|]. split; [|split; [intros n Hn; apply Hfr; cbn in Hn; lia|]].
  - intros x Hx. apply (taken_spawnable w out held e al held' x Hh Htk Hsp Hfr). set_solver.
  - intros e' Hl'. apply elem_of_app. left. by apply Hout.
Qed.

Lemma out_index w out held e x :
  coupled w out → allocator_held (w_allocator w) out held → is_Some (located (w_entities w) e) →
  Entity_valid x → x ∈ held → Entity_index x ≠ Entity_index e.
Proof.
  intros (held0 & _ & _ & _ & Hout) Hh Hl Hv Hx Heq. pose proof (held_disjoint _ _ _ Hh) as (_ & Hdis & _)%NoDup_app.
  apply (Hdis (ident e)); [by apply Hout|]. rewrite (ident_index x e Hv) by done. apply list_elem_of_fmap. eauto.
Qed.

(** The despawned slot can take the next generation. *)
Lemma located_valid w e l : world_inv w → located (w_entities w) e = Some l →
  Entity_valid (Entity_new (ent_id e) (EntityTag_wrapping_add (ent_tag e) 1)).
Proof.
  intros [_ Hrow] Hl. destruct (rw_wf _ _ Hrow) as [Hw _]. apply located_slot in Hl. split; cbn; [|apply wadd32_range].
  specialize (Hw (Entity_index e)). rewrite Hl in Hw. specialize (Hw ltac:(by eexists)).
  unfold EntityId_valid, Entity_index, EntityId_index, EntityId_to_bits in *. lia.
Qed.

Lemma despawn_coupled w out e l :
  world_inv w → coupled w out → located (w_entities w) e = Some l →
  ∃ w', let e1 := Entity_new (ent_id e) (EntityTag_wrapping_add (ent_tag e) 1) in
    despawn_internal w e l = Ret (e1, w') ∧ world_inv w' ∧ located (w_entities w') e = None ∧
    (∀ e', e' ≠ e → same_entity w w' e') ∧ w_allocator w' = w_allocator w ∧ spawnable (w_entities w') e1 ∧
    coupled w' out ∧ (∀ e', is_Some (located (w_entities w') e') → ident e' ≠ ident e).
Proof.
  intros Hinv Hc Hl. pose proof Hc as (held & Hh & Hsp & Hfr & Hout).
  destruct (rows_entity desc known w e l Hinv Hl) as (a & t & _ & _ & _ & _ & _ & Hof & _).
  destruct (despawn_spec desc known w e l a Hinv Hl Hof) as (w' & Hr & Hinv' & _ & Hal & Hslot & Hoth & _).
  pose proof (despawn_internal_tags w e l _ w' Hr) as [_ Htags].
  assert (Hdead : ∀ e', is_Some (located (w_entities w') e') → Entity_index e' ≠ Entity_index e).
  { intros e' [l' Hl'%located_slot] Heq. by rewrite Heq, Hslot in Hl'. }
  assert (Hkeep : ∀ x, Entity_index x ≠ Entity_index e → spawnable (w_entities w) x → spawnable (w_entities w') x).
  { intros x Hx. apply spawnable_frame; auto. apply Hoth. by intros ->. }
  exists w'. split; [done|]. split; [done|]. split; [|split; [done|split; [done|split; [|split]]]].
  - apply eq_None_not_Some. intros Hx. by apply (Hdead e).
  - apply spawnable_tag. unfold tag_at. change (Entity_index (Entity_new (ent_id e) _)) with (Entity_index e). by rewrite Hslot.
  - exists held. rewrite Hal. split; [done|]. split; [|split].
    + intros x Hx. destruct (Hsp x Hx) as [Hxs Hxv]. split; [|done]. apply Hkeep; [|done].
      apply (out_index w out held); eauto.
    + intros n Hn. apply Hkeep; [|by apply Hfr]. intros Heq.
      assert (Hv : Entity_valid (entity_from_u32 n)).
      { apply fresh_valid. destruct Hh as (_ & _ & _ & _ & Hb & _). lia. }
      pose proof (held_range _ _ _ (ident e) Hh) as Hrg. rewrite (ident_index _ _ Hv (eq_sym Heq)) in Hrg.
      rewrite <- (ident_index _ _ Hv (eq_sym Heq)) in Hrg at 1. destruct Hrg as [Hrg _]; [|unfold ident in Hrg; cbn in Hrg; lia].
      apply elem_of_app. left. apply Hout. by eexists.
    + intros e' Hl'. apply Hout. apply (same_located w w' e' Hinv Hinv'); [|done]. apply Hoth. intros ->. by apply (Hdead e).
  - intros e' Hl' Heq. apply (Hdead e' Hl'). unfold Entity_index, EntityId_index, EntityId_to_bits. unfold ident in Heq. by rewrite Heq.
Qed.

(** The identifier goes back to the allocator. *)
Lemma despawn_free_coupled w w' out out' e e1 al :
  ident e1 = ident e → Entity_valid e1 → spawnable (w_entities w) e1 → coupled w out → out ≡ₚ ident e :: out' →
  (∀ x, is_Some (located (w_entities w) x) → ident x ≠ ident e) →
  EntityAllocator_free (w_allocator w) e1 = Ret al → w' = set_allocator w al → coupled w' out'.
Proof.
  intros Hid Hv Hs (held & Hh & Hsp & Hfr & Hout) Hperm Hdead Hfree ->.
  destruct (free_held (w_allocator w) out out' held e1 Hh) as (al' & Hr & Hh' & Hfresh); [by rewrite Hid|].
  rewrite Hfree in Hr. injection Hr as <-. exists (e1 :: held). cbn. split; [done|]. split; [|split].
  - intros x [->|Hx]%elem_of_cons; [done|]. by apply Hsp.
  - rewrite Hfresh. exact Hfr.
  - intros x Hx. pose proof (Hout x Hx) as Hin. rewrite Hperm in Hin. apply elem_of_cons in Hin as [Heq|Hin]; [|done].
    by destruct (Hdead x Hx).
Qed.

Lemma out_split w out e : coupled w out → is_Some (located (w_entities w) e) → ∃ out', out ≡ₚ ident e :: out'.
Proof. intros (_ & _ & _ & _ & Hout) Hl. by apply elem_of_Permutation, Hout. Qed.

Lemma world_despawn_coupled w out e l :
  world_inv w → coupled w out → located (w_entities w) e = Some l →
  ∃ w', World_despawn w e = Ret (Ok tt, w') ∧ world_inv w' ∧ located (w_entities w') e = None ∧
    (∀ e', e' ≠ e → same_entity w w' e') ∧ ∀ out', out ≡ₚ ident e :: out' → coupled w' out'.
Proof.
  intros Hinv Hc Hl. destruct (despawn_coupled w out e l Hinv Hc Hl) as (w1 & Hr & Hinv1 & Hn & Hoth & Hal & Hs & Hc1 & Hdead).
  destruct (out_split w out e Hc) as [out0 Hperm]; [by eexists|].
  pose proof Hc1 as (held & Hh & _).
  destruct (free_held _ _ _ _ (Entity_new (ent_id e) (EntityTag_wrapping_add (ent_tag e) 1)) Hh Hperm) as (al & Hfree & _).
  exists (set_allocator w1 al). unfold World_despawn. unfold located in Hl.
  destruct (Entities_locate (w_entities w) e) as [l'|] eqn:Hloc; [|done]. injection Hl as ->. rewrite Hr. cbn [mbind outcome_bind].
  rewrite Hfree. split; [done|]. split; [by apply (world_inv_same desc known w1)|]. split; [done|]. split; [exact Hoth|].
  intros out' Hp. eapply (despawn_free_coupled w1 _ out out' e); [| | | | | |exact Hfree|done]; auto.
  eapply (located_valid w e l); [done|]. unfold located. by rewrite Hloc.
Qed.
End history.
