(* ===== verification/WorldRefine.v ===== *)
(** * The world refines a map of maps

    An abstract world maps each entity that exists to the values of its
    components.  Every history of calls on the detailed world is the history of
    the same calls on the abstract one, related by what can be read
    ([values_of]). *)

From Stdlib Require Import ZArith Lia Sorting.Sorted.
From stdpp Require Import relations.
From S2P Require Import Prelude Tick EntityIdent EntityInfo FreeCount FreeBuffer Allocator Held Column Table SparseMap.
From S2P Require Import Locations Registry Collector World WorldInv WorldRegister WorldDespawn WorldMove WorldWrite.
From S2P Require Import WorldQuiet WorldStart WorldSpawn WorldInsert WorldOps WorldTheorems WorldHistory.

(** ** The abstract world *)

Notation AWorld := (gmap Entity (gmap Z value)).

(** The values of an entity with the components [bundle] given, whatever they
    require by default, and [old] otherwise. *)
Record values_set (desc : Z → ComponentDesc) (bundle : list (Z * value)) (old vs : gmap Z value) : Prop := {
  vs_explicit : ∀ c v, (c, v) ∈ bundle → vs !! c = Some v;
  vs_default : ∀ c, c ∉ bundle.*1 → closure_of desc bundle.*1 c → old !! c = None → vs !! c = Some (cd_default (desc c));
  vs_kept : ∀ c v, c ∉ bundle.*1 → old !! c = Some v → vs !! c = Some v;
  vs_absent : ∀ c, old !! c = None → ¬ closure_of desc bundle.*1 c → vs !! c = None
}.

(** A call on a world: its arguments and what it answered. *)
Inductive WorldCall : Type :=
| CallSpawn (bundle : list (Z * value)) (e : Entity)
| CallSpawnAt (bundle : list (Z * value)) (e : Entity) (ok : bool)
| CallAllocEntity (e : Entity)
| CallDespawn (e : Entity) (ok : bool)
| CallDespawnNoFree (e : Entity) (ok : bool)
| CallInsert (e : Entity) (bundle : list (Z * value))
| CallRemove (e : Entity) (gone : list Z)
| CallClear (e : Entity).

(** What each call means for the map of values. *)
Inductive acall (desc : Z → ComponentDesc) : WorldCall → AWorld → AWorld → Prop :=
| ac_spawn m e bundle vs :
    m !! e = None → values_set desc bundle ∅ vs → acall desc (CallSpawn bundle e) m (<[e := vs]> m)
| ac_spawn_at m e bundle vs :
    m !! e = None → values_set desc bundle ∅ vs → acall desc (CallSpawnAt bundle e true) m (<[e := vs]> m)
| ac_spawn_refused m e bundle : acall desc (CallSpawnAt bundle e false) m m
| ac_alloc_entity m e : m !! e = None → acall desc (CallAllocEntity e) m m
| ac_despawn m e : is_Some (m !! e) → acall desc (CallDespawn e true) m (delete e m)
| ac_despawn_refused m e : m !! e = None → acall desc (CallDespawn e false) m m
| ac_despawn_no_free m e : is_Some (m !! e) → acall desc (CallDespawnNoFree e true) m (delete e m)
| ac_despawn_no_free_refused m e : m !! e = None → acall desc (CallDespawnNoFree e false) m m
| ac_insert m e bundle old vs :
    m !! e = Some old → values_set desc bundle old vs → acall desc (CallInsert e bundle) m (<[e := vs]> m)
| ac_remove m e old (gone keep : list Z) :
    m !! e = Some old → (∀ c, c ∈ keep ↔ ∃ d, is_Some (old !! d) ∧ d ∉ gone ∧ rtc (requires desc) d c) →
    acall desc (CallRemove e gone) m (<[e := filter (λ x, x.1 ∈ keep) old]> m)
| ac_clear m e : is_Some (m !! e) → acall desc (CallClear e) m (<[e := ∅]> m).

(** A history of calls. *)
Inductive acalls (desc : Z → ComponentDesc) : list WorldCall → AWorld → AWorld → Prop :=
| acalls_nil m : acalls desc [] m m
| acalls_cons c cs m m1 m2 : acall desc c m m1 → acalls desc cs m1 m2 → acalls desc (c :: cs) m m2.

(** The calls determine the map. *)
Lemma values_set_unique desc bundle old vs vs' :
  requires_transitive desc → values_set desc bundle old vs → values_set desc bundle old vs' → vs = vs'.
Proof.
  intros Hfl [He Hd Hk Ha] [He' Hd' Hk' Ha']. apply map_eq. intros c.
  destruct (decide (c ∈ bundle.*1)) as [Hc|Hc].
  { apply list_elem_of_fmap in Hc as ([c' v] & -> & Hv). cbn. rewrite (He c' v Hv), (He' c' v Hv). done. }
  destruct (old !! c) as [v|] eqn:Ho; [by rewrite (Hk c v), (Hk' c v)|].
  destruct (decide (c ∈ bundle.*1 ∨ c ∈ directly_required desc bundle.*1)) as [Hcl|Hcl].
  - apply (closure_flat desc Hfl) in Hcl. by rewrite Hd, Hd'.
  - rewrite <- (closure_flat desc Hfl) in Hcl. by rewrite Ha, Ha'.
Qed.

Lemma acall_unique desc c m m1 m2 : requires_transitive desc → acall desc c m m1 → acall desc c m m2 → m1 = m2.
Proof.
  intros Hfl H1 H2. destruct H1; inversion H2; simplify_eq; try done; try (f_equal; by eapply values_set_unique).
  f_equal. apply map_filter_ext. intros i x _. cbn. naive_solver.
Qed.

Lemma acalls_unique desc cs m m1 m2 : requires_transitive desc → acalls desc cs m m1 → acalls desc cs m m2 → m1 = m2.
Proof.
  intros Hfl H1. revert m2. induction H1 as [|c cs m m' m1 Hc _ IH]; intros m2 H2; [by inversion H2|].
  inversion H2 as [|? ? ? m0 ? Hc' Hcs]; subst. rewrite (acall_unique desc c m m0 m' Hfl Hc' Hc) in Hcs. by apply IH.
Qed.

Lemma acalls_app desc cs cs' m m1 m2 : acalls desc cs m m1 → acalls desc cs' m1 m2 → acalls desc (cs ++ cs') m m2.
Proof. induction 1; intros H2; [done|]. cbn. econstructor; eauto. Qed.

(** ** What a world stores *)

Definition cell_value (x : option cell) : option value := (λ x, x.1.1) <$> x.

Definition values_of (w : World) (e : Entity) : option (gmap Z value) :=
  cs ← World_components w e; Some (list_to_map (omap (λ c, (λ v, (c, v)) <$> cell_value (World_get w e c)) cs)).

Definition refines (w : World) (m : AWorld) : Prop := ∀ e, m !! e = values_of w e.

Lemma values_of_lookup w e cs vs c :
  World_components w e = Some cs → NoDup cs → values_of w e = Some vs →
  vs !! c = if decide (c ∈ cs) then cell_value (World_get w e c) else None.
Proof.
  unfold values_of. intros -> Hnd [= <-]. induction cs as [|d cs IH]; cbn.
  { by rewrite lookup_empty. }
  apply NoDup_cons in Hnd as [Hd Hnd]. specialize (IH Hnd). cbn in IH.
  destruct (cell_value (World_get w e d)) as [v|] eqn:Hv; cbn.
  - destruct (decide (c = d)) as [->|Hne].
    + by rewrite lookup_insert_eq, decide_True by set_solver.
    + rewrite lookup_insert_ne, IH by done. repeat case_decide; set_solver.
  - rewrite IH. destruct (decide (c = d)) as [->|Hne]; [|repeat case_decide; set_solver].
    rewrite decide_False, decide_True by set_solver. by rewrite Hv.
Qed.

Lemma values_of_same w w' e : same_entity w w' e → values_of w' e = values_of w e.
Proof.
  intros [Hc Hg]. unfold values_of. rewrite Hc. destruct (World_components w e) as [cs|]; [|done]. cbn. f_equal. f_equal.
  clear Hc. induction cs as [|c cs IH]; [done|]. cbn. rewrite Hg. destruct (cell_value _); cbn; [f_equal|]; apply IH.
Qed.

Section refine.
Context `{VecGrowth}.
Variable desc : Z → ComponentDesc.
Variable known : gset Z.
Hypothesis types : types_ok desc known.
Hypothesis flat : requires_transitive desc.
Notation world_inv := (world_inv desc known).

Lemma components_NoDup w e cs : world_inv w → World_components w e = Some cs → NoDup cs.
Proof.
  intros Hinv Hcs. pose proof Hcs as (a & Hof & ->)%fmap_Some.
  assert (is_Some (located (w_entities w) e)) as [l Hl] by (apply (located_components desc known w e Hinv); by eexists).
  destruct (rows_entity desc known w e l Hinv Hl) as (a' & t & _ & _ & _ & _ & _ & Hof' & _ & _ & _ & Hao). simplify_eq.
  exact (set_ok_NoDup desc _ _ (ao_set _ _ _ _ _ Hao)).
Qed.

(** Every component of an entity has a value. *)
Lemma component_value w e cs c :
  world_inv w → World_components w e = Some cs → c ∈ cs → is_Some (cell_value (World_get w e c)).
Proof.
  intros Hinv Hcs Hc. pose proof Hcs as (a & Hof & ->)%fmap_Some.
  assert (is_Some (located (w_entities w) e)) as [l Hl] by (apply (located_components desc known w e Hinv); by eexists).
  destruct (World_get_written desc known w e l a c Hinv Hl Hof Hc) as (x & -> & _). by eexists.
Qed.

(** The lookup function of the abstract values. *)
Lemma values_lookup w e cs vs :
  world_inv w → World_components w e = Some cs → values_of w e = Some vs →
  ∀ c, vs !! c = if decide (c ∈ cs) then cell_value (World_get w e c) else None.
Proof. intros Hinv Hcs Hv c. eapply values_of_lookup; eauto using components_NoDup. Qed.

Lemma values_of_components w e cs : World_components w e = Some cs → ∃ vs, values_of w e = Some vs.
Proof. intros Hcs. unfold values_of. rewrite Hcs. eauto. Qed.

Lemma values_of_none w e : world_inv w → values_of w e = None ↔ located (w_entities w) e = None.
Proof.
  intros Hinv. rewrite !eq_None_not_Some, (located_components desc known w e Hinv). unfold values_of.
  destruct (World_components w e); split; intros Hn [? [=]]; apply Hn; by eexists.
Qed.

(** One entity changed. *)
Lemma refines_update w w' e m vs :
  refines w m → (∀ e', e' ≠ e → same_entity w w' e') → values_of w' e = Some vs → refines w' (<[e := vs]> m).
Proof.
  intros Hr Hoth Hv e'. destruct (decide (e' = e)) as [->|Hne]; [by rewrite lookup_insert_eq|].
  rewrite lookup_insert_ne, Hr by done. symmetry. by apply values_of_same, Hoth.
Qed.

Lemma spawn_refines w w' e bundle cs m :
  refines w m → world_inv w → located (w_entities w) e = None → spawned desc known w w' e bundle cs →
  ∃ vs, m !! e = None ∧ values_set desc bundle ∅ vs ∧ refines w' (<[e := vs]> m).
Proof.
  intros Hr Hinv Hn Hs. pose proof (sp_components _ _ _ _ _ _ _ Hs) as Hcs.
  destruct (values_of_components w' e cs Hcs) as [vs Hvs]. exists vs.
  split; [rewrite Hr; by apply values_of_none|]. split; [|eapply refines_update; eauto; apply Hs].
  pose proof (values_lookup w' e cs vs (sp_inv _ _ _ _ _ _ _ Hs) Hcs Hvs) as Hl. split.
  - intros c v Hx. rewrite Hl, decide_True, (sp_explicit _ _ _ _ _ _ _ Hs c v Hx); [done|].
    apply (sp_closure _ _ _ _ _ _ _ Hs). exists c. split; [|done]. apply list_elem_of_fmap. by exists (c, v).
  - intros c Hc Hcl _. apply (sp_closure _ _ _ _ _ _ _ Hs) in Hcl. by rewrite Hl, decide_True, (sp_required _ _ _ _ _ _ _ Hs).
  - intros c v _. by rewrite lookup_empty.
  - intros c _ Hcl. rewrite Hl, decide_False; [done|]. by rewrite (sp_closure _ _ _ _ _ _ _ Hs).
Qed.

Lemma despawn_refines w w' e m :
  refines w m → world_inv w → world_inv w' → is_Some (located (w_entities w) e) → located (w_entities w') e = None →
  (∀ e', e' ≠ e → same_entity w w' e') → is_Some (m !! e) ∧ refines w' (delete e m).
Proof.
  intros Hr Hinv Hinv' Hl Hn Hoth. split.
  - apply (located_components desc known w e Hinv) in Hl as [cs Hcs].
    rewrite Hr. unfold values_of. rewrite Hcs. by eexists.
  - intros e'. destruct (decide (e' = e)) as [->|Hne].
    + rewrite lookup_delete_eq. symmetry. by apply values_of_none.
    + rewrite lookup_delete_ne, Hr by done. symmetry. by apply values_of_same, Hoth.
Qed.

Lemma insert_refines w w' e bundle old cs m :
  refines w m → world_inv w → World_components w e = Some old → inserted desc known w w' e bundle old cs →
  (∀ c, c ∈ cs ↔ c ∈ old ∨ closure_of desc bundle.*1 c) → ∃ m', acall desc (CallInsert e bundle) m m' ∧ refines w' m'.
Proof.
  intros Hr Hinv Hold Hi Hcs. pose proof (in_components _ _ _ _ _ _ _ _ Hi) as Hcomp.
  destruct (values_of_components w' e cs Hcomp) as [vs Hvs]. destruct (values_of_components w e old Hold) as [vo Hvo].
  exists (<[e := vs]> m). split; [|eapply refines_update; eauto; apply Hi].
  apply ac_insert with (old := vo); [by rewrite Hr|].
  pose proof (values_lookup w' e cs vs (in_inv _ _ _ _ _ _ _ _ Hi) Hcomp Hvs) as Hl.
  pose proof (values_lookup w e old vo Hinv Hold Hvo) as Hlo.
  assert (Hnone : ∀ c, vo !! c = None → c ∉ old).
  { intros c Hc Hin. rewrite Hlo, decide_True in Hc by done. destruct (component_value w e old c Hinv Hold Hin); congruence. }
  split.
  - intros c v Hx. rewrite Hl, decide_True, (in_explicit _ _ _ _ _ _ _ _ Hi c v Hx); [done|].
    apply Hcs. right. exists c. split; [|done]. apply list_elem_of_fmap. by exists (c, v).
  - intros c Hc Hcl Hno%Hnone. assert (c ∈ cs) by (apply Hcs; by right).
    by rewrite Hl, decide_True, (in_required _ _ _ _ _ _ _ _ Hi).
  - intros c v Hc Hv. rewrite Hlo in Hv. case_decide as Hin; [|done].
    assert (c ∈ cs) by (apply Hcs; by left). by rewrite Hl, decide_True, (in_kept _ _ _ _ _ _ _ _ Hi).
  - intros c Hno%Hnone Hcl. rewrite Hl, decide_False; [done|]. rewrite Hcs. tauto.
Qed.

(** What the components of an entity require it has. *)
Lemma components_closed w e cs c d :
  world_inv w → World_components w e = Some cs → d ∈ cs → rtc (requires desc) d c → c ∈ cs.
Proof.
  intros Hinv Hcs Hd Hr. pose proof Hcs as (a & Hof & ->)%fmap_Some.
  assert (is_Some (located (w_entities w) e)) as [l Hl] by (apply (located_components desc known w e Hinv); by eexists).
  destruct (rows_entity desc known w e l Hinv Hl) as (a' & t & _ & _ & _ & _ & _ & Hof' & _ & _ & _ & Hao). simplify_eq.
  induction Hr as [|d r c Hdr _ IH]; [done|]. apply IH. exact (ao_closed _ _ _ _ _ Hao d r Hd Hdr).
Qed.

Lemma remove_refines w w' e old (gone : list Z) cs m :
  refines w m → world_inv w → World_components w e = Some old → removed desc known w w' e cs →
  (∀ c, c ∈ cs ↔ closure_of desc (filter (λ c, c ∉ gone) old) c) → ∃ m', acall desc (CallRemove e gone) m m' ∧ refines w' m'.
Proof.
  intros Hr Hinv Hold Hm Hcs. pose proof (rm_components _ _ _ _ _ _ Hm) as Hcomp.
  destruct (values_of_components w' e cs Hcomp) as [vs Hvs]. destruct (values_of_components w e old Hold) as [vo Hvo].
  pose proof (values_lookup w' e cs vs (rm_inv _ _ _ _ _ _ Hm) Hcomp Hvs) as Hl.
  pose proof (values_lookup w e old vo Hinv Hold Hvo) as Hlo.
  assert (Hsub : ∀ c, c ∈ cs → c ∈ old).
  { intros c (d & [_ Hd]%list_elem_of_filter & Hdc)%Hcs. by eapply components_closed. }
  exists (<[e := filter (λ x, x.1 ∈ cs) vo]> m). split.
  { apply (ac_remove desc m e vo gone); [by rewrite Hr|]. intros c. rewrite Hcs. unfold closure_of.
    split; intros (d & Hd).
    - destruct Hd as [[Hg Hd]%list_elem_of_filter Hdc]. exists d. rewrite Hlo, decide_True by done.
      split; [by eapply component_value|done].
    - destruct Hd as (Hd & Hg & Hdc). exists d. rewrite list_elem_of_filter. split; [|done]. split; [done|].
      rewrite Hlo in Hd. case_decide; [done|]. by destruct Hd. }
  assert (filter (λ x, x.1 ∈ cs) vo = vs) as ->; [|eapply refines_update; eauto; apply Hm].
  apply map_eq. intros c. rewrite map_lookup_filter, Hl, Hlo, (rm_values _ _ _ _ _ _ Hm). cbn.
  destruct (decide (c ∈ cs)) as [Hc|Hc].
  - rewrite decide_True by auto. destruct (cell_value (World_get w e c)) eqn:Hv; [|done]. cbn. by rewrite option_guard_True.
  - destruct (if decide (c ∈ old) then _ else None); [|done]. cbn. by rewrite option_guard_False.
Qed.

Lemma clear_refines w w' e m :
  refines w m → world_inv w → is_Some (located (w_entities w) e) → removed desc known w w' e [] →
  acall desc (CallClear e) m (<[e := ∅]> m) ∧ refines w' (<[e := ∅]> m).
Proof.
  intros Hr Hinv Hl Hm. split.
  - apply ac_clear. rewrite Hr. apply (located_components desc known w e Hinv) in Hl as [cs Hcs]. unfold values_of. rewrite Hcs. by eexists.
  - eapply refines_update; [done|apply Hm|]. unfold values_of. by rewrite (rm_components _ _ _ _ _ _ Hm).
Qed.

(** ** Steps of a world *)

Definition is_ok {A B} (r : Result A B) : bool := match r with Ok _ => true | Err _ => false end.

(** One call on a world with room; [out] are the identifiers given out.  The
    entity of [spawn_at] must have one of these: reserved by [alloc_entity], or
    kept by [despawn_no_free].  [insert] adds no new sparse component, for which
    the code writes to a row that does not exist. *)
Inductive world_call : WorldCall → World * list Z → World * list Z → Prop :=
| ws_spawn w out bundle e w' :
    world_room known w → bundle_ok desc known bundle →
    World_spawn desc (size known) w bundle = Ret (e, w') → world_call (CallSpawn bundle e) (w, out) (w', out ++ [ident e])
| ws_spawn_at w out bundle e r w' :
    world_room known w → bundle_ok desc known bundle → Entity_valid e → ident e ∈ out →
    World_spawn_at desc (size known) w bundle e = Ret (r, w') → world_call (CallSpawnAt bundle e (is_ok r)) (w, out) (w', out)
| ws_alloc_entity w out e w' :
    World_alloc_entity w = Ret (e, w') → world_call (CallAllocEntity e) (w, out) (w', out ++ [ident e])
| ws_despawn w out out' e w' :
    World_despawn w e = Ret (Ok tt, w') → out ≡ₚ ident e :: out' → world_call (CallDespawn e true) (w, out) (w', out')
| ws_despawn_refused w out e x w' :
    World_despawn w e = Ret (Err x, w') → world_call (CallDespawn e false) (w, out) (w', out)
| ws_despawn_no_free w out e r w' :
    World_despawn_no_free w e = Ret (r, w') → world_call (CallDespawnNoFree e (is_ok r)) (w, out) (w', out)
| ws_insert w out e l bundle old r w' :
    world_room known w → bundle_ok desc known bundle → located (w_entities w) e = Some l → World_components w e = Some old →
    (∀ c, closure_of desc bundle.*1 c → cd_storage (desc c) = Sparse → c ∈ old) →
    EntityOwned_insert desc (size known) w e (Some l) bundle = Ret (r, w') → world_call (CallInsert e bundle) (w, out) (w', out)
| ws_remove w out e l b bi r w' :
    world_room known w → located (w_entities w) e = Some l → bd_infos (w_bundles w) !! b = Some bi →
    EntityOwned_remove_dynamic desc (size known) w e (Some l) b = Ret (r, w') →
    world_call (CallRemove e (bi_components bi)) (w, out) (w', out)
| ws_clear w out e l r w' :
    world_room known w → located (w_entities w) e = Some l →
    EntityOwned_clear w e (Some l) = Ret (r, w') → world_call (CallClear e) (w, out) (w', out).

Definition world_step (s s' : World * list Z) : Prop := ∃ c, world_call c s s'.

Inductive world_calls : list WorldCall → World * list Z → World * list Z → Prop :=
| wcs_nil s : world_calls [] s s
| wcs_cons c cs s s1 s2 : world_call c s s1 → world_calls cs s1 s2 → world_calls (c :: cs) s s2.

Definition state_ok (s : World * list Z) (m : AWorld) : Prop := world_inv s.1 ∧ coupled s.1 s.2 ∧ refines s.1 m.

Lemma alloc_state_ok : state_ok (World_alloc desc, []) ∅.
Proof.
  split; [apply World_alloc_inv|]. split.
  - exists []. split; [apply held_new|]. split; [set_solver|]. split; [|intros e; cbn; rewrite located_new; by intros []].
    intros n _. unfold spawnable, Entities_can_spawn. cbn. by rewrite lookup_nil.
  - intros e. rewrite lookup_empty. symmetry. apply (values_of_none _ e (World_alloc_inv desc known)). apply located_new.
Qed.

(** An operation on one spawned entity. *)
Lemma quiet_state_ok w w' e out m m' c :
  state_ok (w, out) m → is_Some (located (w_entities w) e) → world_inv w' → quiet w w' →
  (∀ e', e' ≠ e → same_entity w w' e') → acall desc c m m' → refines w' m' →
  ∃ m', acall desc c m m' ∧ state_ok (w', out) m'.
Proof.
  intros (Hinv & Hc & _) Hl Hinv' Hq Hoth Ha Hr. exists m'. split; [done|]. split; [done|]. split; [|done].
  exact (coupled_quiet desc known w w' e out Hinv Hinv' Hq Hoth Hl Hc).
Qed.

Lemma located_locate es e l : located es e = Some l → Entities_locate es e = Ok l.
Proof. unfold located. by destruct (Entities_locate es e); intros; simplify_eq. Qed.

Lemma spawn_at_coupled w w' e bundle cs out :
  world_inv w → coupled w out → ident e ∈ out → Entity_valid e → spawned desc known w w' e bundle cs → w_allocator w' = w_allocator w →
  (∀ j, j ≠ Entity_index e → slot (w_entities w') j = slot (w_entities w) j) → coupled w' out.
Proof.
  intros Hinv (held & Hh & Hsp & Hfr & Hout) Hid Hv Hs Hal Hslot. exists held. rewrite Hal. split; [done|].
  pose proof (held_disjoint _ _ _ Hh) as (_ & Hdis & _)%NoDup_app. split; [|split].
  - intros x Hx. destruct (Hsp x Hx) as [Hxs Hxv]. split; [|done]. apply (spawnable_slot (w_entities w)); [|done].
    apply Hslot. intros Heq. apply (Hdis (ident e) Hid). rewrite <- (ident_index e x Hv Heq). apply list_elem_of_fmap. eauto.
  - intros n Hn. apply (spawnable_slot (w_entities w)); [|by apply Hfr]. apply Hslot. intros Heq%(ident_index e _ Hv).
    pose proof (held_range _ _ _ (ident e) Hh) as Hr. rewrite <- Heq in Hr.
    destruct Hr as [Hr _]; [rewrite Heq; apply elem_of_app; by left|]. unfold ident in Hr. cbn in Hr. lia.
  - intros e' Hl'. destruct (decide (e' = e)) as [->|Hne]; [done|]. apply Hout.
    by apply (same_located desc known w w' e' Hinv (sp_inv _ _ _ _ _ _ _ Hs) (sp_others _ _ _ _ _ _ _ Hs e' Hne)).
Qed.

Lemma step_spawn w out bundle e w' m :
  state_ok (w, out) m → world_room known w → bundle_ok desc known bundle →
  World_spawn desc (size known) w bundle = Ret (e, w') →
  ∃ m', acall desc (CallSpawn bundle e) m m' ∧ state_ok (w', out ++ [ident e]) m'.
Proof.
  intros (Hinv & Hc & Hr) Hroom Hbun Hrun. cbn in *.
  destruct (spawn_coupled desc known types flat w out bundle Hinv Hc Hroom Hbun)
    as [(e0 & w0 & cs & Hrun' & Hn & _ & _ & Hs & Hc')|[Hrun' _]]; rewrite Hrun in Hrun'; [|done]. injection Hrun' as <- <-.
  destruct (spawn_refines w w' e bundle cs m Hr Hinv Hn Hs) as (vs & Hm & Hvs & Hr'). exists (<[e := vs]> m).
  split; [by apply ac_spawn|]. split; [apply Hs|done].
Qed.

Lemma step_spawn_at w out bundle e r w' m :
  state_ok (w, out) m → world_room known w → bundle_ok desc known bundle → Entity_valid e → ident e ∈ out →
  World_spawn_at desc (size known) w bundle e = Ret (r, w') →
  ∃ m', acall desc (CallSpawnAt bundle e (is_ok r)) m m' ∧ state_ok (w', out) m'.
Proof.
  intros (Hinv & Hc & Hr) Hroom Hbun Hv Hid. unfold World_spawn_at.
  destruct (Entities_can_spawn (w_entities w) e) as [[]|x] eqn:Hcan; intros Hrun.
  2: { injection Hrun as <- <-. exists m. split; [apply ac_spawn_refused|by split]. }
  destruct (spawn_registered desc known types flat w bundle e (w_allocator w) Hinv Hroom Hbun Hv Hcan)
    as (b & w1 & ai & w2 & l & w3 & cs & Hr1 & Hr2 & Hal & Hsp & Hs & Hloc & Hal3 & Hslot).
  rewrite Hr1 in Hrun. cbn [mbind outcome_bind] in Hrun. rewrite Hr2 in Hrun. cbn [mbind outcome_bind] in Hrun.
  rewrite <- Hal, set_allocator_id in Hsp. rewrite Hsp in Hrun. injection Hrun as <- <-.
  destruct (spawn_refines w w3 e bundle cs m Hr Hinv) as (vs & Hm & Hvs & Hr'); [by apply spawnable_located in Hcan as [_ ?]|done|].
  exists (<[e := vs]> m). split; [by apply ac_spawn_at|]. split; [apply Hs|]. split; [|done]. by eapply spawn_at_coupled.
Qed.

Lemma step_alloc_entity w out e w' m :
  state_ok (w, out) m → World_alloc_entity w = Ret (e, w') →
  ∃ m', acall desc (CallAllocEntity e) m m' ∧ state_ok (w', out ++ [ident e]) m'.
Proof.
  intros (Hinv & Hc & Hr) Hrun. cbn [fst snd] in *.
  destruct (alloc_entity_coupled desc known types flat w out Hc) as [(e0 & al & Hrun' & Hs & _ & _ & Hc')|[Hrun' _]]; rewrite Hrun in Hrun'; [|done].
  injection Hrun' as <- ->. exists m. split.
  - apply ac_alloc_entity. rewrite Hr. apply values_of_none; [done|]. by apply spawnable_located in Hs as [_ ?].
  - split; [by apply (world_inv_same desc known w)|]. split; [done|exact Hr].
Qed.

(** Despawning, with or without freeing the identifier. *)
Lemma located_refused w e x m : refines w m → world_inv w → Entities_locate (w_entities w) e = Err x → m !! e = None.
Proof. intros Hr Hinv Hx. rewrite Hr. apply values_of_none; [done|]. unfold located. by rewrite Hx. Qed.

Lemma step_despawn w out e r w' m :
  state_ok (w, out) m → World_despawn w e = Ret (r, w') →
  ∃ m', acall desc (CallDespawn e (is_ok r)) m m' ∧
    match r with Ok _ => ∀ out', out ≡ₚ ident e :: out' → state_ok (w', out') m' | Err _ => state_ok (w', out) m' end.
Proof.
  intros (Hinv & Hc & Hr) Hrun. cbn in *. destruct (located (w_entities w) e) as [l|] eqn:Hl.
  - destruct (world_despawn_coupled desc known w out e l Hinv Hc Hl) as (w0 & Hrun' & Hinv' & Hn & Hoth & Hc').
    rewrite Hrun in Hrun'. injection Hrun' as -> ->.
    destruct (despawn_refines w w0 e m Hr Hinv Hinv') as (Hm & Hr'); [by eexists|done|done|].
    exists (delete e m). split; [by apply ac_despawn|]. intros out' Hp. split; [done|]. split; [by apply Hc'|done].
  - unfold World_despawn in Hrun. unfold located in Hl. destruct (Entities_locate (w_entities w) e) eqn:Hx; [done|].
    injection Hrun as <- <-. exists m. split; [|by split]. eapply ac_despawn_refused, located_refused; eauto.
Qed.

Lemma step_despawn_no_free w out e r w' m :
  state_ok (w, out) m → World_despawn_no_free w e = Ret (r, w') →
  ∃ m', acall desc (CallDespawnNoFree e (is_ok r)) m m' ∧ state_ok (w', out) m'.
Proof.
  intros (Hinv & Hc & Hr) Hrun. cbn in *. unfold World_despawn_no_free in Hrun.
  destruct (Entities_locate (w_entities w) e) as [l|x] eqn:Hloc.
  2: { injection Hrun as <- <-. exists m. split; [|by split]. eapply ac_despawn_no_free_refused, located_refused; eauto. }
  assert (Hl : located (w_entities w) e = Some l) by (unfold located; by rewrite Hloc).
  destruct (despawn_coupled desc known w out e l Hinv Hc Hl) as (w0 & Hd & Hinv' & Hn & Hoth & _ & _ & Hc' & _).
  rewrite Hd in Hrun. injection Hrun as <- <-.
  destruct (despawn_refines w w0 e m Hr Hinv Hinv') as (Hm & Hr'); [by eexists|done|done|].
  exists (delete e m). split; [by apply ac_despawn_no_free|by split].
Qed.

Lemma step_insert w out e l bundle old r w' m :
  state_ok (w, out) m → world_room known w → bundle_ok desc known bundle → located (w_entities w) e = Some l →
  World_components w e = Some old → (∀ c, closure_of desc bundle.*1 c → cd_storage (desc c) = Sparse → c ∈ old) →
  EntityOwned_insert desc (size known) w e (Some l) bundle = Ret (r, w') →
  ∃ m', acall desc (CallInsert e bundle) m m' ∧ state_ok (w', out) m'.
Proof.
  intros Hst Hroom Hbun Hl Hold Hsp Hrun. pose proof Hst as (Hinv & _ & Hr). cbn in Hinv, Hr.
  pose proof Hold as (a & Hof & ->)%fmap_Some.
  destruct (insert_spec desc known types flat w e l a bundle Hinv Hroom Hbun Hl Hof Hsp) as (w0 & cs & Hrun' & Hins & Hcs).
  rewrite Hrun in Hrun'. injection Hrun' as -> ->.
  destruct (insert_refines w w0 e bundle (ar_components a) cs m Hr Hinv Hold Hins Hcs) as (m' & Ha & Hr').
  eapply (quiet_state_ok w w0 e out m m' _ Hst); [by eexists|apply Hins|by eapply insert_quiet|apply Hins|done|done].
Qed.

Lemma step_remove w out e l b bi r w' m :
  state_ok (w, out) m → world_room known w → located (w_entities w) e = Some l → bd_infos (w_bundles w) !! b = Some bi →
  EntityOwned_remove_dynamic desc (size known) w e (Some l) b = Ret (r, w') →
  ∃ m', acall desc (CallRemove e (bi_components bi)) m m' ∧ state_ok (w', out) m'.
Proof.
  intros Hst Hroom Hl Hb Hrun. pose proof Hst as (Hinv & _ & Hr). cbn in Hinv, Hr.
  destruct (rows_entity desc known w e l Hinv Hl) as (a & t & _ & _ & _ & _ & _ & Hof & _).
  destruct (remove_dynamic_spec desc known types w e l a b bi Hinv Hroom Hl Hof Hb) as (w0 & cs & Hrun' & Hrem & Hcs).
  rewrite Hrun in Hrun'. injection Hrun' as -> ->.
  destruct (remove_refines w w0 e (ar_components a) (bi_components bi) cs m Hr Hinv) as (m' & Ha & Hr');
    [unfold World_components; by rewrite Hof|done|exact Hcs|].
  eapply (quiet_state_ok w w0 e out m m' _ Hst); [by eexists|apply Hrem|by eapply remove_dynamic_quiet|apply Hrem|done|done].
Qed.

Lemma step_clear w out e l r w' m :
  state_ok (w, out) m → world_room known w → located (w_entities w) e = Some l →
  EntityOwned_clear w e (Some l) = Ret (r, w') → ∃ m', acall desc (CallClear e) m m' ∧ state_ok (w', out) m'.
Proof.
  intros Hst Hroom Hl Hrun. pose proof Hst as (Hinv & _ & Hr). cbn in Hinv, Hr.
  destruct (rows_entity desc known w e l Hinv Hl) as (a & t & _ & _ & _ & _ & _ & Hof & _).
  destruct (clear_spec desc known types w e l a Hinv Hroom Hl Hof) as (w0 & Hrun' & Hrem).
  rewrite Hrun in Hrun'. injection Hrun' as -> ->.
  destruct (clear_refines w w0 e m Hr Hinv) as (Ha & Hr'); [by eexists|done|].
  eapply (quiet_state_ok w w0 e out m _ _ Hst); [by eexists|apply Hrem|by eapply clear_quiet|apply Hrem|done|done].
Qed.

(** The simulation: a call on the world is the call of the same name, with the
    same arguments and the same answer, on the map. *)
Lemma world_call_ok c s s' m : world_call c s s' → state_ok s m → ∃ m', acall desc c m m' ∧ state_ok s' m'.
Proof.
  intros Hstep Hst. destruct Hstep.
  - by eapply step_spawn.
  - by eapply step_spawn_at.
  - by eapply step_alloc_entity.
  - destruct (step_despawn _ _ _ _ _ _ Hst H0) as (m' & Ha & Hok). exists m'. split; [done|]. by apply Hok.
  - exact (step_despawn _ _ _ _ _ _ Hst H0).
  - by eapply step_despawn_no_free.
  - by eapply step_insert.
  - by eapply step_remove.
  - by eapply step_clear.
Qed.

Lemma world_calls_ok cs s s' : world_calls cs s s' → ∀ m, state_ok s m → ∃ m', acalls desc cs m m' ∧ state_ok s' m'.
Proof.
  induction 1 as [s|c cs s s1 s2 Hc _ IH]; intros m Hm; [exists m; split; [constructor|done]|].
  destruct (world_call_ok c s s1 m Hc Hm) as (m1 & Ha1 & Hm1). destruct (IH m1 Hm1) as (m2 & Ha2 & Hm2).
  exists m2. split; [by econstructor|done].
Qed.

Lemma world_steps_calls s s' : rtc world_step s s' ↔ ∃ cs, world_calls cs s s'.
Proof.
  split.
  - induction 1 as [s|s s1 s2 [c Hc] _ [cs IH]]; [exists []; constructor|]. exists (c :: cs). by econstructor.
  - intros [cs Hcs]. induction Hcs; [done|]. eapply rtc_l; [by eexists|done].
Qed.

Lemma world_reachable_ok s : rtc world_step (World_alloc desc, []) s → ∃ m cs, acalls desc cs ∅ m ∧ state_ok s m.
Proof. intros [cs Hcs]%world_steps_calls. destruct (world_calls_ok cs _ _ Hcs ∅ alloc_state_ok) as (m & Ha & Hok). eauto. Qed.
End refine.

(** C2: The world refines a map from entities to component values, call by
    call.  A history of [spawn], [spawn_at], [alloc_entity], [despawn],
    [despawn_no_free], [insert], [remove] and [clear] on a new world is a history
    of the same calls, with the same arguments and the same answers, on the
    empty map, where each call means what it says: add an entity with a bundle's
    values and the defaults of what it requires, delete one, overwrite and extend
    one, restrict one.  The calls alone determine the map, and it holds for every
    entity exactly the components and values that can be read from the world's
    tables and sparse maps.  Component types list all they require
    ([requires_transitive]), [spawn_at] takes an identifier that was reserved, and
    [insert] brings no new sparse component; registration checks neither the first
    nor the last, and the code misbehaves without them. *)
Theorem world_refines `{VecGrowth} desc known calls w out :
  types_ok desc known → requires_transitive desc →
  world_calls desc known calls (World_alloc desc, []) (w, out) →
  ∃ m, acalls desc calls ∅ m ∧ (∀ m', acalls desc calls ∅ m' → m' = m) ∧ ∀ e, m !! e = values_of w e.
Proof.
  intros Hty Hfl Hr. destruct (world_calls_ok desc known Hty Hfl calls _ _ Hr ∅) as (m & Ha & _ & _ & Href); [by apply alloc_state_ok|].
  exists m. split; [done|]. split; [|exact Href]. intros m' Ha'. exact (acalls_unique desc calls ∅ m' m Hfl Ha' Ha).
Qed.

(** C3: Identifiers in every history of the calls of [world_call].  A spawned
    entity has an identifier that is out of the allocator; no two spawned entities
    share one; [spawn] returns an entity that was not spawned, with an identifier
    nobody holds, unless the 32-bit identifiers are used up, and so does
    [alloc_entity] for the entity it reserves; a reserved entity can be spawned;
    [despawn] of a spawned entity returns and frees it, and of any other is
    refused.  The limits of [world_call] apply: [spawn_at] takes an identifier
    that [alloc_entity] or a despawn that does not free has reserved (with one made
    up by the caller [spawn] may later hand out the same one), component types list
    all they require, and [insert] brings no new sparse component. *)
Theorem world_identifiers `{VecGrowth} desc known w out :
  types_ok desc known → requires_transitive desc →
  rtc (world_step desc known) (World_alloc desc, []) (w, out) →
  (∀ e, is_Some (located (w_entities w) e) → ident e ∈ out) ∧
  (∀ e e', is_Some (located (w_entities w) e) → is_Some (located (w_entities w) e') → ident e = ident e' → e = e') ∧
  (∀ bundle, world_room known w → bundle_ok desc known bundle →
     (∃ e w', World_spawn desc (size known) w bundle = Ret (e, w') ∧ located (w_entities w) e = None ∧ ident e ∉ out ∧
        is_Some (located (w_entities w') e)) ∨
     (World_spawn desc (size known) w bundle = Panic ∧ (u32_max < sh_fresh (w_allocator w) + 128)%Z)) ∧
  ((∃ e w', World_alloc_entity w = Ret (e, w') ∧ ident e ∉ out ∧ Entities_can_spawn (w_entities w') e = Ok tt) ∨
   (World_alloc_entity w = Panic ∧ sh_fresh (w_allocator w) = u32_max)) ∧
  (∀ e, if decide (is_Some (located (w_entities w) e))
        then ∃ w', World_despawn w e = Ret (Ok tt, w') ∧ located (w_entities w') e = None
        else ∃ x, World_despawn w e = Ret (Err x, w)).
Proof.
  intros Hty Hfl Hr. destruct (world_reachable_ok desc known Hty Hfl (w, out) Hr) as (m & _ & _ & Hinv & Hc & _). cbn in *.
  split; [by destruct Hc as (_ & _ & _ & _ & Hout)|]. split; [|split; [|split]].
  - intros e e' [l Hl] [l' Hl'] Hid. eapply (located_inj (w_entities w)); eauto; [apply Hinv|].
    unfold Entity_index, EntityId_index, EntityId_to_bits, ident in *. by rewrite Hid.
  - intros bundle Hroom Hbun. destruct (spawn_coupled desc known Hty Hfl w out bundle Hinv Hc Hroom Hbun)
      as [(e & w' & cs & ? & ? & ? & ? & _)|?]; [left; eauto 10|by right].
  - destruct (alloc_entity_coupled desc known Hty Hfl w out Hc) as [(e & al & ? & ? & _ & ? & _)|?]; [left; eauto 10|by right].
  - intros e. case_decide as Hl.
    + destruct Hl as [l Hl]. destruct (world_despawn_coupled desc known w out e l Hinv Hc Hl) as (w' & ? & _ & ? & _). eauto.
    + unfold World_despawn. unfold located in Hl. destruct (Entities_locate (w_entities w) e); [|eauto]. destruct Hl. by eexists.
Qed.

(** ** Examples *)

#[local] Existing Instance doubling.

Definition ex_spawn : outcome (Entity * World) := World_spawn ex_desc (size ex_known) (World_alloc ex_desc) ex_first.

Lemma ex_history : ∃ e w, ex_spawn = Ret (e, w) ∧
  world_calls ex_desc ex_known [CallSpawn ex_first e] (World_alloc ex_desc, []) (w, [ident e]) ∧
  world_room ex_known w ∧ located (w_entities w) e = Some (mkLoc 1 1 0 0).
Proof.
  destruct ex_spawn as [[e w]| |] eqn:Hr; [|by vm_compute in Hr|by vm_compute in Hr].
  exists e, w. split; [reflexivity|]. split; [|split].
  - eapply wcs_cons; [|apply wcs_nil].
    apply (ws_spawn ex_desc ex_known (World_alloc ex_desc) [] ex_first e w); [|unfold ex_first; ex_bundle|exact Hr].
    apply world_roomb_sound. by vm_compute.
  - apply world_roomb_sound. vm_compute in Hr. injection Hr as <- <-. by vm_compute.
  - vm_compute in Hr. injection Hr as <- <-. by vm_compute.
Qed.

Lemma ex_steps : ∃ e w, ex_spawn = Ret (e, w) ∧ rtc (world_step ex_desc ex_known) (World_alloc ex_desc, []) (w, [ident e]) ∧
  world_room ex_known w ∧ located (w_entities w) e = Some (mkLoc 1 1 0 0).
Proof.
  destruct ex_history as (e & w & Hr & Hh & Hx). exists e, w. split; [done|]. split; [|done]. apply world_steps_calls. by eexists.
Qed.

(** Spawning an entity and despawning it. *)
Lemma world_refines_witness :
  ∃ e w w' m, ex_spawn = Ret (e, w) ∧ World_despawn w e = Ret (Ok tt, w') ∧
    acalls ex_desc [CallSpawn ex_first e; CallDespawn e true] ∅ m ∧ ∀ e, m !! e = values_of w' e.
Proof.
  destruct ex_history as (e & w & Hr & Hh & _ & Hl).
  destruct (World_despawn w e) as [[[[]|x] w']| |] eqn:Hd;
    [|exfalso; revert Hd; vm_compute in Hr; injection Hr as <- <-; by vm_compute..].
  destruct (world_refines ex_desc ex_known [CallSpawn ex_first e; CallDespawn e true] w' [] ex_types ex_flat) as (m & Ha & _ & Hm).
  - inversion Hh as [|? ? ? s1 ? Hc Hn]; subst. inversion Hn; subst. eapply wcs_cons; [exact Hc|].
    eapply wcs_cons; [|apply wcs_nil]. by apply ws_despawn.
  - exists e, w, w', m. auto.
Defined.

Lemma world_identifiers_witness :
  ∃ e w w' e2 w2, ex_spawn = Ret (e, w) ∧ World_despawn w e = Ret (Ok tt, w') ∧
    World_spawn ex_desc (size ex_known) w ex_second = Ret (e2, w2) ∧ ident e2 ≠ ident e.
Proof.
  destruct ex_steps as (e & w & Hr & Hh & Hroom & Hl).
  destruct (world_identifiers ex_desc ex_known w [ident e] ex_types ex_flat Hh) as (_ & _ & Hspawn & _ & Hdespawn).
  specialize (Hdespawn e). rewrite decide_True in Hdespawn by (rewrite Hl; by eexists). destruct Hdespawn as (w' & Hd & _).
  destruct (Hspawn ex_second Hroom) as [(e2 & w2 & Hs & _ & Hn & _)|[_ Hmax]]; [unfold ex_second; ex_bundle| |].
  - exists e, w, w', e2, w2. split; [exact Hr|]. split; [exact Hd|]. split; [exact Hs|].
    intros Heq. apply Hn, list_elem_of_singleton, Heq.
  - exfalso. vm_compute in Hr. injection Hr as <- <-. by vm_compute in Hmax.
Defined.
