(* ===== verification/WorldGrows.v ===== *)
(** * Storages are only added

    No operation on a world removes an archetype or a table, moves one to another
    identifier, or changes the component set of one.  What was computed for an identifier
    stays true of it, which the incremental update of a query relies on. *)

From Stdlib Require Import ZArith Lia.
From stdpp Require Import relations.
From S2P Require Import Prelude Tick EntityIdent EntityInfo FreeCount FreeBuffer Allocator Column Table SparseMap Registry World.
From S2P Require Import WorldInv WorldRegister WorldQuiet WorldTheorems WorldHistory WorldRefine.

Definition arche_set (a : Archetype) : nat * list Z := (ar_dense_len a, ar_components a).
Definition arche_sets (w : World) : list (nat * list Z) := arche_set <$> as_arches (w_archetypes w).
Definition table_sets (w : World) : list (list Z) := tbl_components <$> ts_tables (w_tables w).

Definition grows (w w' : World) : Prop := arche_sets w `prefix_of` arche_sets w' ∧ table_sets w `prefix_of` table_sets w'.

#[global] Instance grows_preorder : PreOrder grows.
Proof. split; [by intros w; split|]. intros w1 w2 w3 [Ha Ht] [Ha' Ht']. split; by etrans. Qed.

(** The archetypes and tables are not touched, or only their rows are. *)
Definition same_sets (w w' : World) : Prop := arche_sets w' = arche_sets w ∧ table_sets w' = table_sets w.

Lemma same_grows w w' : same_sets w w' → grows w w'.
Proof. intros [Ha Ht]. unfold grows. by rewrite Ha, Ht. Qed.

Lemma of_option_ret {A} (o : option A) x : of_option o = Ret x → o = Some x.
Proof. destruct o; by intros [= ->]. Qed.

Lemma put_arche_sets w i a a' : Archetypes_get_unchecked (w_archetypes w) i = Ret a → arche_set a' = arche_set a → arche_sets (put_arche w i a') = arche_sets w.
Proof. intros Hi%of_option_ret Hs. by eapply fmap_insert_same. Qed.

Lemma set_table_sets ts i t t' : Tables_get_unchecked ts i = Ret t → tbl_components t' = tbl_components t →
  tbl_components <$> ts_tables (set_table ts i t') = tbl_components <$> ts_tables ts.
Proof. intros Hi%of_option_ret Hs. by eapply fmap_insert_same. Qed.

(** ** Rows *)

Section grows.
Context `{VecGrowth}.
Variable desc : Z → ComponentDesc.
Variable len : nat.

Lemma alloc_row_set t e r t' : Table_alloc_row t e = Ret (r, t') → tbl_components t' = tbl_components t.
Proof.
  unfold Table_alloc_row, Table_reserve_many. intros Hr. destruct (decide _) in Hr; [|split_run Hr; done].
  destruct (u32_max <? _)%Z in Hr; [done|]. split_run Hr. by destruct (for_each_col _ _) as [[]| |] in Heqo; simplify_eq/=.
Qed.

Lemma dealloc_row_set DROP t r log m t' : Table_dealloc_row DROP t r = Ret (log, m, t') → tbl_components t' = tbl_components t.
Proof. unfold Table_dealloc_row. intros Hr. split_run Hr; try done. Qed.

Lemma zip_for_each_set g ids cols other log cols' other' :
  (∀ id col o log col' o', g id col o = Ret (log, col', o') → tbl_components o' = tbl_components o) →
  zip_for_each g ids cols other = Ret (log, cols', other') → tbl_components other' = tbl_components other.
Proof.
  intros Hg. revert cols other log cols' other'. induction ids as [|id ids IH]; intros [|col cols] other log cols' other' Hr; try by (cbn in Hr; simplify_eq).
  cbn [zip_for_each] in Hr. split_run Hr. apply Hg in Heqo. apply IH in Heqo0. congruence.
Qed.

Lemma move_row_set DROP t r o log m row t' o' : Table_move_row DROP t r o = Ret (log, m, row, t', o') →
  tbl_components t' = tbl_components t ∧ tbl_components o' = tbl_components o.
Proof.
  unfold Table_move_row. intros Hr. split_run Hr; (split; [done|]).
  - apply zip_for_each_set in Heqo3; [by rewrite Heqo3; eapply alloc_row_set|]. clear. intros id col o log col' o' Hr.
    unfold move_col_swap in Hr. destruct DROP; split_run Hr; done.
  - apply zip_for_each_set in Heqo2; [by rewrite Heqo2; eapply alloc_row_set|]. clear. intros id col o log col' o' Hr.
    unfold move_col_last in Hr. destruct DROP; split_run Hr; done.
Qed.

Lemma arche_dealloc_set a r m a' : Archetype_dealloc_row a r = Ret (m, a') → arche_set a' = arche_set a.
Proof. unfold Archetype_dealloc_row. intros Hr. split_run Hr; done. Qed.

Lemma arche_alloc_set a e r a' : Archetype_alloc_row a e = (r, a') → arche_set a' = arche_set a.
Proof. by intros [= <- <-]. Qed.

(** ** Writers *)

Lemma init_item_set t c r x k t' : Table_init_item t c r x k = Ret t' → tbl_components t' = tbl_components t.
Proof. unfold Table_init_item. intros Hr. split_run Hr; done. Qed.

Lemma replace_item_set t c r x k log t' : Table_replace_item t c r x k = Ret (log, t') → tbl_components t' = tbl_components t.
Proof. unfold Table_replace_item. intros Hr. split_run Hr; done. Qed.

Lemma write_required_set wr id wr' : ComponentWriter_write_required desc wr id = Ret wr' → tbl_components (wr_table wr') = tbl_components (wr_table wr).
Proof.
  unfold ComponentWriter_write_required, ComponentWriter_init_dense, ComponentWriter_init_sparse. intros Hr.
  destruct (cd_storage _) in Hr; split_run Hr; try done; by eapply init_item_set.
Qed.

Lemma write_explicit_set wr id x wr' : ComponentWriter_write_explicit desc wr id x = Ret wr' → tbl_components (wr_table wr') = tbl_components (wr_table wr).
Proof.
  unfold ComponentWriter_write_explicit, ComponentWriter_write_dense, ComponentWriter_write_sparse. intros Hr.
  destruct (cd_storage _) in Hr; split_run Hr; try done; [by eapply replace_item_set|by eapply init_item_set].
Qed.

Lemma bundle_explicit_set b wr wr' : bundle_write_explicit desc b wr = Ret wr' → tbl_components (wr_table wr') = tbl_components (wr_table wr).
Proof.
  revert wr. induction b as [|[id x] b IH]; intros wr Hr; cbn in Hr; [by simplify_eq|]. split_run Hr.
  apply write_explicit_set in Heqo. apply IH in Hr. congruence.
Qed.

Lemma bundle_required_set ts wr wr' : bundle_write_required desc ts wr = Ret wr' → tbl_components (wr_table wr') = tbl_components (wr_table wr).
Proof.
  assert (Hone : ∀ ids wr wr', required_write desc ids wr = Ret wr' → tbl_components (wr_table wr') = tbl_components (wr_table wr)).
  { induction ids as [|id ids IH]; intros wr1 wr2 Hr; cbn in Hr; [by simplify_eq|]. split_run Hr. apply write_required_set in Heqo. apply IH in Hr. congruence. }
  revert wr. induction ts as [|t ts IH]; intros wr Hr; cbn in Hr; [by simplify_eq|]. split_run Hr. apply Hone in Heqo. apply IH in Hr. congruence.
Qed.

Lemma set_writed_set ids wr : wr_table (foldl ComponentWriter_set_writed wr ids) = wr_table wr.
Proof. revert wr. induction ids as [|id ids IH]; intros wr; cbn; [done|]. by rewrite IH. Qed.

Lemma put_writer_sets w e i r wr wr' : ComponentWriter_new w e i r = Ret wr → tbl_components (wr_table wr') = tbl_components (wr_table wr) →
  same_sets w (put_writer w i wr').
Proof. unfold ComponentWriter_new. intros Hr Hs. split_run Hr. split; [done|]. by eapply set_table_sets. Qed.

(** ** Moves *)

Lemma update_row_sets w m w' : update_row_unwrap w m = Ret w' → same_sets w w'.
Proof. unfold update_row_unwrap. destruct (Entities_update_row _ _) as [[]]; by intros [= <-]. Qed.

Lemma update_location_sets w e l w' : update_location_unwrap w e l = Ret w' → same_sets w w'.
Proof. unfold update_location_unwrap. destruct (Entities_update_location _ _ _) as [[]]; by intros [= <-]. Qed.

Lemma set_spawned_sets w e l w' : set_spawned_unwrap w e l = Ret w' → same_sets w w'.
Proof. unfold set_spawned_unwrap. intros Hr. split_run Hr. done. Qed.

Lemma move_arche_sets w e l i l' w' : move_arche w e l i = Ret (l', w') → same_sets w w'.
Proof.
  unfold move_arche. intros Hr. split_run Hr. apply arche_dealloc_set in Heqo0. apply update_row_sets in Heqo1 as [Ha Ht].
  split; [|exact Ht]. apply arche_alloc_set in Heqp0. erewrite put_arche_sets by done. rewrite Ha. by eapply put_arche_sets.
Qed.

Lemma move_table_sets DROP w l i j l' w' : move_table DROP w l i j = Ret (l', w') → same_sets w w'.
Proof.
  unfold move_table. intros Hr. split_run Hr; [done|]. apply move_row_set in Heqo1 as [Hs Ho]. apply update_row_sets in Heqo2 as [Ha Ht].
  split; [exact Ha|]. rewrite Ht. unfold table_sets. cbn [w_tables set_tables add_dropped].
  rewrite (set_table_sets _ j a0 t); [by eapply set_table_sets| |done].
  unfold Tables_get_unchecked, set_table in *. cbn. by rewrite list_lookup_insert_ne.
Qed.

Lemma alloc_rows_sets w i e l w' : alloc_rows w i e = Ret (l, w') → same_sets w w'.
Proof.
  unfold alloc_rows, Archetype_alloc_row. intros Hr. split_run Hr. apply alloc_row_set in Heqo1. split.
  - by eapply (put_arche_sets w).
  - by eapply set_table_sets.
Qed.

(** ** Registration *)

Lemma tables_register_grows ts ids i ts' : Tables_register desc ts ids = Ret (i, ts') →
  tbl_components <$> ts_tables ts `prefix_of` tbl_components <$> ts_tables ts'.
Proof. unfold Tables_register. intros Hr. split_run Hr; [done|]. cbn. rewrite fmap_app. by apply prefix_app_r. Qed.

Lemma register_unique_grows ar t n ids i ar' : Archetypes_register_unique desc ar t n ids = Ret (i, ar') →
  arche_set <$> as_arches ar `prefix_of` arche_set <$> as_arches ar'.
Proof. unfold Archetypes_register_unique. intros Hr. split_run Hr. cbn. rewrite fmap_app. by apply prefix_app_r. Qed.

Lemma register_storages_grows w ids n i w' : register_storages desc w ids n = Ret (i, w') → grows w w'.
Proof.
  unfold register_storages. intros Hr. split_run Hr. split; [by eapply register_unique_grows|by eapply tables_register_grows].
Qed.

Lemma find_or_register_grows w ids n i w' : find_or_register desc w ids n = Ret (i, w') → grows w w'.
Proof. unfold find_or_register. intros Hr. split_run Hr; [done|]. by eapply register_storages_grows. Qed.

Lemma register_explicit_sets w ts i w' : World_register_explicit_bundle desc w ts = Ret (i, w') → same_sets w w'.
Proof. unfold World_register_explicit_bundle. intros Hr. split_run Hr; done. Qed.

Lemma register_required_sets w ts i w' : World_register_required_bundle desc len w ts = Ret (i, w') → same_sets w w'.
Proof. unfold World_register_required_bundle. intros Hr. split_run Hr; done. Qed.

Lemma map_bundle_sets a b i a' : Archetypes_map_bundle_id a b i = Ret a' → as_arches a' = as_arches a.
Proof. unfold Archetypes_map_bundle_id. intros Hr. split_run Hr; done. Qed.

Lemma register_archetype_grows w b i w' : World_register_archetype desc w b = Ret (i, w') → grows w w'.
Proof.
  unfold World_register_archetype. intros Hr. split_run Hr; [done| |].
  - apply map_bundle_sets in Heqo2. apply same_grows. split; [|done]. unfold arche_sets. cbn. by rewrite Heqo2.
  - apply register_storages_grows in Heqo2. apply map_bundle_sets in Heqo3. etrans; [done|]. apply same_grows. split; [|done].
    unfold arche_sets. cbn. by rewrite Heqo3.
Qed.

Lemma after_insert_grows w a b i w' : World_arche_after_insert desc w a b = Ret (i, w') → grows w w'.
Proof.
  unfold World_arche_after_insert. intros Hr. split_run Hr; [done|]. apply find_or_register_grows in Heqo2. etrans; [done|].
  apply same_grows. split; [|done]. by eapply put_arche_sets.
Qed.

Lemma after_remove_grows w a b i w' : World_arche_after_remove desc len w a b = Ret (i, w') → grows w w'.
Proof.
  unfold World_arche_after_remove. intros Hr. split_run Hr; [done|]. apply find_or_register_grows in Heqo3. etrans; [done|].
  apply same_grows. split; [|done]. by eapply put_arche_sets.
Qed.

(** ** Operations *)

Lemma spawn_rows_sets w i bundle e l w' : BundleSpawner_spawn_at desc w i bundle e = Ret (l, w') → same_sets w w'.
Proof.
  unfold BundleSpawner_spawn_at. intros Hr. split_run Hr. apply alloc_rows_sets in Heqo as [Ha Ht].
  apply bundle_explicit_set in Heqo1. apply bundle_required_set in Heqo2. rewrite Heqo1 in Heqo2.
  destruct (put_writer_sets _ _ _ _ _ _ Heqo0 Heqo2) as [Ha' Ht']. apply set_spawned_sets in Heqo3 as [Ha'' Ht''].
  unfold same_sets. split; [change (arche_sets (add_fired ?x _)) with (arche_sets x)|change (table_sets (add_fired ?x _)) with (table_sets x)]; congruence.
Qed.

Lemma spawn_grows w bundle e w' : World_spawn desc len w bundle = Ret (e, w') → grows w w'.
Proof.
  unfold World_spawn. intros Hr. split_run Hr. apply register_required_sets, same_grows in Heqo. apply register_archetype_grows in Heqo0.
  apply spawn_rows_sets, same_grows in Heqo2. by do 2 (etrans; [done|]).
Qed.

Lemma spawn_at_grows w bundle e r w' : World_spawn_at desc len w bundle e = Ret (r, w') → grows w w'.
Proof.
  unfold World_spawn_at. intros Hr. destruct (Entities_can_spawn _ _) in Hr; [|by simplify_eq]. split_run Hr.
  apply register_required_sets, same_grows in Heqo. apply register_archetype_grows in Heqo0.
  apply spawn_rows_sets, same_grows in Heqo1. by do 2 (etrans; [done|]).
Qed.

Lemma despawn_internal_sets w e l e' w' : despawn_internal w e l = Ret (e', w') → same_sets w w'.
Proof.
  unfold despawn_internal. intros Hr. split_run Hr. apply arche_dealloc_set in Heqo1. apply dealloc_row_set in Heqo3. split.
  - by eapply (put_arche_sets w).
  - by eapply set_table_sets.
Qed.

Lemma alloc_entity_grows w e w' : World_alloc_entity w = Ret (e, w') → grows w w'.
Proof. unfold World_alloc_entity. intros Hr. split_run Hr. by apply same_grows. Qed.

Lemma despawn_grows w e r w' : World_despawn w e = Ret (r, w') → grows w w'.
Proof.
  unfold World_despawn. intros Hr. destruct (Entities_locate _ _) in Hr; [|by simplify_eq]. split_run Hr.
  by apply despawn_internal_sets, same_grows in Heqo.
Qed.

Lemma despawn_no_free_grows w e r w' : World_despawn_no_free w e = Ret (r, w') → grows w w'.
Proof.
  unfold World_despawn_no_free. intros Hr. destruct (Entities_locate _ _) in Hr; [|by simplify_eq]. split_run Hr.
  by apply despawn_internal_sets, same_grows in Heqo.
Qed.

Lemma insert_local_sets w e l b bundle r w' : insert_local desc w e l b bundle = Ret (r, w') → same_sets w w'.
Proof.
  unfold insert_local. intros Hr. split_run Hr. apply bundle_explicit_set in Heqo2. rewrite set_writed_set in Heqo2.
  exact (put_writer_sets _ _ _ _ _ _ Heqo1 Heqo2).
Qed.

Lemma insert_moved_sets w e l i b bundle r w' : insert_moved desc w e l i b bundle = Ret (r, w') → same_sets w w'.
Proof.
  unfold insert_moved. intros Hr. split_run Hr. apply move_arche_sets in Heqo2 as [Ha Ht]. apply move_table_sets in Heqo3 as [Ha' Ht'].
  apply bundle_explicit_set in Heqo5. apply bundle_required_set in Heqo6. rewrite Heqo5, set_writed_set in Heqo6.
  destruct (put_writer_sets _ _ _ _ _ _ Heqo4 Heqo6) as [Hp Hp']. apply update_location_sets in Heqo7 as [Hu Hu'].
  split; [etrans; [exact Hu|]; rewrite Hp, Ha'; exact Ha|etrans; [exact Hu'|]; rewrite Hp', Ht'; exact Ht].
Qed.

Lemma insert_grows w e h bundle r w' : EntityOwned_insert desc len w e h bundle = Ret (r, w') → grows w w'.
Proof.
  unfold EntityOwned_insert. intros Hr. split_run Hr; apply register_required_sets, same_grows in Heqo0;
    apply register_explicit_sets, same_grows in Heqo1; apply after_insert_grows in Heqo2;
    [apply insert_local_sets, same_grows in Hr|apply insert_moved_sets, same_grows in Hr]; by do 3 (etrans; [done|]).
Qed.

Lemma remove_moved_sets w e l i r w' : remove_moved w e l i = Ret (r, w') → same_sets w w'.
Proof.
  unfold remove_moved. intros Hr. split_run Hr. apply move_arche_sets in Heqo1 as [Ha Ht]. apply move_table_sets in Heqo2 as [Ha' Ht'].
  apply update_location_sets in Heqo4 as [Hu Hu']. split; [rewrite Hu|rewrite Hu']; etrans; [exact Ha'|exact Ha|exact Ht'|exact Ht].
Qed.

Lemma remove_dynamic_grows w e h b r w' : EntityOwned_remove_dynamic desc len w e h b = Ret (r, w') → grows w w'.
Proof.
  unfold EntityOwned_remove_dynamic. intros Hr. split_run Hr; apply after_remove_grows in Heqo0; [done|].
  apply remove_moved_sets, same_grows in Hr. by etrans.
Qed.

Lemma clear_grows w e h r w' : EntityOwned_clear w e h = Ret (r, w') → grows w w'.
Proof.
  unfold EntityOwned_clear. intros Hr. split_run Hr; [done|]. apply same_grows. apply move_arche_sets in Heqo1 as [Ha Ht].
  apply move_table_sets in Heqo2 as [Ha' Ht']. apply update_location_sets in Heqo4 as [Hu Hu'].
  split; [rewrite Hu|rewrite Hu']; etrans; [exact Ha'|exact Ha|exact Ht'|exact Ht].
Qed.
End grows.

Lemma world_step_grows `{VecGrowth} desc known s s' : world_step desc known s s' → grows s.1 s'.1.
Proof.
  intros [c Hc]. destruct Hc; cbn [fst]; eauto using alloc_entity_grows, spawn_grows, spawn_at_grows, despawn_grows, despawn_no_free_grows, insert_grows, remove_dynamic_grows, clear_grows.
Qed.

Lemma world_history_grows `{VecGrowth} desc known s s' : rtc (world_step desc known) s s' → grows s.1 s'.1.
Proof. induction 1 as [|s1 s2 s3 Hs _ IH]; [done|]. etrans; [by eapply world_step_grows|done]. Qed.
