(* ===== verification/WorldFaults.v ===== *)
(** * Faults of the world operations

    Where the operations of the world do not do what they are documented to do:
    [spawn_empty] and [spawn_empty_at] return handles to entities they have just
    forgotten, and [insert] writes through rows it has not allocated when a sparse
    component is new to the entity. *)

From Stdlib Require Import ZArith Lia Sorting.Sorted.
From stdpp Require Import relations.
From S2P Require Import Prelude Tick EntityIdent EntityInfo FreeCount FreeBuffer Allocator Column Table SparseMap.
From S2P Require Import Locations Registry Collector World WorldInv WorldRegister WorldDespawn WorldMove WorldWrite.
From S2P Require Import WorldStart WorldSpawn WorldInsert WorldOps WorldTheorems.

(** ** Forgetting an entity *)

Lemma located_None es e :
  located es e = None ↔
  ∀ i, infos es !! Entity_index e = Some i → info_tag i = ent_tag e → info_location i = None.
Proof.
  unfold located, Entities_locate. destruct (infos es !! Entity_index e) as [i|]; [|naive_solver].
  case_decide; destruct (info_location i) eqn:Hl; naive_solver.
Qed.

Lemma set_despawned_None es e : located (Entities_set_despawned es e).2 e = None.
Proof.
  rewrite located_None. unfold Entities_set_despawned. destruct (infos es !! Entity_index e) as [i|] eqn:Hi; cbn.
  - case_decide as Ht; cbn; [|congruence].
    destruct (info_location i); cbn; rewrite list_lookup_insert_eq by (by eapply lookup_lt_Some); naive_solver.
  - congruence.
Qed.

Lemma update_row_None es m e : located es e = None → located (Entities_update_row es m).2 e = None.
Proof.
  rewrite !located_None. unfold Entities_update_row. intros Hn.
  destruct (moved_entity m) as [e'|]; [|done]. destruct (infos es !! Entity_index e') as [i|] eqn:Hi; [|done].
  case_decide as Ht; [|done]. destruct (info_location i) as [l|] eqn:Hl; [|done]. cbn. intros i'.
  intros [(Heq & <- & _)|[_ Hx]]%list_lookup_insert_Some; [|by apply Hn].
  cbn. intros Hte. rewrite Heq in Hi. specialize (Hn _ Hi Hte). congruence.
Qed.

Lemma update_row_unwrap_None w m w' e :
  update_row_unwrap w m = Ret w' → located (w_entities w) e = None → located (w_entities w') e = None.
Proof.
  unfold update_row_unwrap. intros Hr Hn. pose proof (update_row_None (w_entities w) m e Hn) as Hn'.
  destruct (Entities_update_row (w_entities w) m) as [[]]; by simplify_eq.
Qed.

Lemma forget_arches_None ids e w w' :
  forget_arches ids e w = Ret w' → located (w_entities w) e = None → located (w_entities w') e = None.
Proof.
  revert w. induction ids as [|i ids IH]; cbn; intros w; [by intros [= ->]|].
  destruct (Archetypes_get_unchecked (w_archetypes w) i) as [a| |]; cbn; [|done..].
  destruct (Archetype_get_arche_row a e) as [r|]; cbn; [|apply IH].
  destruct (Archetype_dealloc_row a r) as [[m a1]| |]; cbn; [|done..].
  destruct (update_row_unwrap (put_arche w i a1) m) as [w1| |] eqn:Hu; cbn; [|done..].
  intros Hr Hn. eapply IH; [done|]. by eapply update_row_unwrap_None.
Qed.

Lemma forget_tables_None ids e w w' :
  forget_tables ids e w = Ret w' → located (w_entities w) e = None → located (w_entities w') e = None.
Proof.
  revert w. induction ids as [|i ids IH]; cbn; intros w; [by intros [= ->]|].
  destruct (Tables_get_unchecked (w_tables w) i) as [t| |]; cbn; [|done..].
  destruct (Table_get_table_row t e) as [r|]; cbn; [|apply IH].
  destruct (Table_dealloc_row false t r) as [[[log m] t1]| |]; cbn; [|done..].
  destruct (update_row_unwrap _ m) as [w1| |] eqn:Hu; cbn; [|done..].
  intros Hr Hn. eapply IH; [done|]. by eapply update_row_unwrap_None.
Qed.

Lemma forget_None w e w' : World_forget w e = Ret w' → located (w_entities w') e = None.
Proof.
  unfold World_forget. intros Hr.
  destruct (forget_arches _ e _) as [w1| |] eqn:Ha; cbn in Hr; [|done..].
  destruct (forget_tables _ e w1) as [w2| |] eqn:Ht; cbn in Hr; [|done..].
  destruct (forget_maps _ e) as [ms| |]; cbn in Hr; [|done..]. simplify_eq. cbn.
  eapply forget_tables_None; [done|]. eapply forget_arches_None; [done|]. apply set_despawned_None.
Qed.

Lemma spawn_empty_handle `{VecGrowth} w e l w' :
  World_spawn_empty w = Ret (e, l, w') →
  (∃ alloc, EntityAllocator_alloc_mut (w_allocator w) = Ret (e, alloc)) ∧ located (w_entities w') e = None.
Proof.
  unfold World_spawn_empty. intros Hr.
  destruct (EntityAllocator_alloc_mut (w_allocator w)) as [[e0 alloc]| |]; cbn in Hr; [|done..].
  destruct (Archetypes_get_unchecked _ 0) as [a| |]; cbn in Hr; [|done..].
  destruct (Tables_get_unchecked _ 0) as [t| |]; cbn in Hr; [|done..].
  destruct (Table_alloc_row t e0) as [[r t1]| |]; cbn in Hr; [|done..].
  destruct (set_spawned_unwrap _ e0 _) as [w1| |]; cbn in Hr; [|done..].
  destruct (World_forget w1 e0) as [w2| |] eqn:Hf; cbn in Hr; [|done..]. simplify_eq.
  split; [eauto|]. by eapply forget_None.
Qed.

(** [spawn_empty] and [spawn_empty_at] drop their clean-up guard on the
    normal path: whenever they return a handle, its entity is not spawned any
    more.  [spawn_empty_at] checks the entity it is given and then spawns, and
    forgets, one from the allocator instead. *)
Theorem spawn_empty_dead `{VecGrowth} w :
  (∀ e l w', World_spawn_empty w = Ret (e, l, w') → located (w_entities w') e = None) ∧
  (∀ given e l w', World_spawn_empty_at w given = Ret (Ok (e, l), w') →
     (∃ alloc, EntityAllocator_alloc_mut (w_allocator w) = Ret (e, alloc)) ∧ located (w_entities w') e = None).
Proof.
  split.
  - intros e l w' Hr. by apply spawn_empty_handle in Hr as [_ ?].
  - intros given e l w'. unfold World_spawn_empty_at.
    destruct (Entities_can_spawn (w_entities w) given); [|done].
    destruct (World_spawn_empty w) as [[[e0 l0] w0]| |] eqn:Hr; cbn; intros; simplify_eq.
    by apply spawn_empty_handle in Hr.
Qed.

(** ** Inserting a sparse component *)

Section sparse.
Context `{VecGrowth}.
Variable desc : Z → ComponentDesc.

Lemma write_sparse_missing wr c v :
  cd_storage (desc c) = Sparse → wr_get desc wr c = None → ComponentWriter_write_explicit desc wr c v = Undefined.
Proof.
  intros Hs Hg. unfold ComponentWriter_write_explicit, ComponentWriter_write_sparse. unfold wr_get in Hg. rewrite Hs in *.
  destruct (map_of (wr_maps wr) c) as [m|] eqn:Hof.
  - destruct (map_of_get _ _ _ Hof) as (id & -> & _). cbn [mbind outcome_bind]. unfold map_get in Hg. rewrite Hof in Hg.
    apply fmap_None in Hg. by rewrite Hg.
  - unfold Maps_get_unchecked, Maps_get_id. unfold map_of in Hof.
    destruct (ms_mapper (wr_maps wr) !! c) as [i|]; cbn in *; [|done]. by rewrite Hof.
Qed.

(** A bundle with a sparse component that has no row: nothing defined comes of
    writing it. *)
Lemma bundle_write_missing bundle wr :
  writer_ok desc wr → NoDup bundle.*1 → (∀ c v, (c, v) ∈ bundle → fits desc c v) →
  (∀ c, c ∈ bundle.*1 → cd_storage (desc c) = Dense → is_Some (wr_get desc wr c)) →
  (∃ c, c ∈ bundle.*1 ∧ wr_get desc wr c = None) → bundle_write_explicit desc bundle wr = Undefined.
Proof.
  revert wr. induction bundle as [|[d v] bundle IH]; intros wr Hok Hnd Hfit Hdense (c & Hc & Hn); cbn.
  { by apply elem_of_nil in Hc. }
  cbn in Hnd. apply NoDup_cons in Hnd as [Hd Hnd].
  destruct (wr_get desc wr d) as [x|] eqn:Hx.
  - destruct (write_explicit_spec desc wr d v Hok) as (wr1 & old & -> & _ & [Hto Hg] & _); [by eexists|apply Hfit; set_solver|].
    cbn [mbind outcome_bind]. apply IH; [apply Hto|done|intros; apply Hfit; set_solver| |].
    + intros c' Hc' Hs. rewrite Hg. destruct (decide (c' = d)); [by eexists|]. apply Hdense; [set_solver|done].
    + exists c. cbn in Hc. assert (c ≠ d) by (intros ->; rewrite Hx in Hn; done). split; [set_solver|]. by rewrite Hg, decide_False.
  - rewrite write_sparse_missing; [done| |done]. destruct (cd_storage (desc d)) eqn:Hs; [|done].
    destruct (Hdense d) as [y Hy]; [set_solver|done|congruence].
Qed.
End sparse.

(** Inserting a bundle with a sparse component that is new to the entity:
    [insert_moved] gives the entity no row in the map of the component before
    the writer looks the row up with [debug_checked_unwrap], so the behaviour is
    undefined, whatever the rest of the bundle is. *)
Theorem insert_new_sparse_undefined `{VecGrowth} desc known w e l bundle old c :
  types_ok desc known → world_inv desc known w → world_room known w →
  bundle_ok desc known bundle → located (w_entities w) e = Some l → World_components w e = Some old →
  c ∈ bundle.*1 → cd_storage (desc c) = Sparse → c ∉ old →
  EntityOwned_insert desc (size known) w e (Some l) bundle = Undefined.
Proof.
  intros Hty Hinv Hroom Hbun Hl Hold Hc Hs Hn. unfold World_components in Hold. apply fmap_Some in Hold as (a & Hof & ->).
  destruct (insert_registered desc known Hty w e l a bundle Hinv Hroom Hbun Hl Hof)
    as (r & w3 & a3 & na & b & bi & -> & Hinv3 & Hex & Hl3 & Hof3 & Ha3 & Hna & Hb3 & Hsc & Hmem3).
  assert (Hcl : ∀ d, d ∈ bundle.*1 → d ∈ ar_components na) by (intros d Hd; apply Hmem3; right; by exists d).
  destruct (decide (Z.to_nat (arche_id l) = r)) as [<-|Hne].
  { rewrite Ha3 in Hna. injection Hna as <-. destruct Hn. rewrite <- Hsc. by apply Hcl. }
  destruct (arche_table desc known w3 r na Hinv3 Hna) as [o Ho].
  destruct (insert_moved_ready desc known Hty w3 e l a3 r na o b bi bundle Hinv3 Hl3 Hof3 Hna Hne Ho) as (F & F' & l2 & w2 & wr & Hrd & ->);
    [by eapply (extends_table_room desc known (ty_growth _ _ Hty) w w3)|done|].
  rewrite (bundle_write_missing desc bundle wr); [done|apply Hrd|apply Hbun|apply Hbun| |].
  - intros d Hd Hds. by apply (rd_dense _ _ _ _ _ _ _ _ _ Hrd); [apply Hcl|].
  - exists c. split; [done|]. unfold wr_get. rewrite Hs, (rd_entity _ _ _ _ _ _ _ _ _ Hrd), (rd_maps _ _ _ _ _ _ _ _ _ Hrd).
    apply eq_None_not_Some. intros Hx. apply (rw_sparse _ _ (proj2 Hinv3)) in Hx as (a' & Ha' & Hin).
    rewrite Hof3 in Ha'. injection Ha' as <-. apply Hn. rewrite <- Hsc, <- (take_drop (ar_dense_len a3) (ar_components a3)).
    apply elem_of_app. by right.
Qed.

#[local] Existing Instance doubling.

Lemma spawn_empty_dead_witness :
  ∃ w', World_spawn_empty_at (World_alloc ex_desc) (ex_entity 9 0) = Ret (Ok (ex_entity 1 0, mkLoc 0 0 0 0), w') ∧
    located (w_entities w') (ex_entity 1 0) = None.
Proof.
  destruct (World_spawn_empty_at (World_alloc ex_desc) (ex_entity 9 0)) as [[r w']| |] eqn:Hr.
  - exists w'. assert (r = Ok (ex_entity 1 0, mkLoc 0 0 0 0)) as -> by (vm_compute in Hr; by injection Hr as <- _).
    split; [done|]. exact (proj2 (proj2 (spawn_empty_dead (World_alloc ex_desc)) _ _ _ _ Hr)).
  - by vm_compute in Hr.
  - by vm_compute in Hr.
Defined.

Lemma insert_new_sparse_undefined_witness :
  EntityOwned_insert ex_desc (size ex_known) ex_w3 (ex_entity 7 0) (Some (mkLoc 3 1 0 1)) ex_second = Undefined.
Proof.
  apply (insert_new_sparse_undefined ex_desc ex_known ex_w3 (ex_entity 7 0) (mkLoc 3 1 0 1) ex_second [1; 3]%Z 2%Z);
    [apply ex_types|apply ex_w3_inv|by apply world_roomb_sound; vm_compute|unfold ex_second; ex_bundle|by vm_compute|by vm_compute|..].
  all: apply (bool_decide_unpack _); by vm_compute.
Defined.

(** ** Required components of required components *)

(** 1 requires 2 and 2 requires 3; each is one byte. *)
Definition chain_desc (c : Z) : ComponentDesc :=
  mkDesc (mkComponentInfo 1 1 false) Dense
    (if decide (c = 1)%Z then [2%Z] else if decide (c = 2)%Z then [3%Z] else []) (λ _, false) [Some Byte.x07].

(** The collector follows requirements to the end, [required_write] only one
    step: an entity spawned with 1 has component 3, but nothing is ever written
    for it, neither value nor ticks. *)
Example required_chain_uninitialised :
  ∃ w', World_spawn_at chain_desc 3 (World_alloc chain_desc) [(1%Z, [Some Byte.x01])] (ex_entity 5 0) = Ret (Ok (ex_entity 5 0), w') ∧
    World_components w' (ex_entity 5 0) = Some [1; 2; 3]%Z ∧
    World_get w' (ex_entity 5 0) 2 = Some ([Some Byte.x07], Some (Tick_new 1), Some (Tick_new 1)) ∧
    World_get w' (ex_entity 5 0) 3 = Some ([None], None, None).
Proof. eexists. split; [by vm_compute|]. by vm_compute. Qed.
