(* ===== verification/Message.v ===== *)
(** * Message queues

    [crates/voker-ecs/src/message/]: the double-buffered [MessageQueue]
    (queue.rs), message keys (ident.rs), and the cursors and iterators that
    readers use (iterators.rs).

    Indices are [usize] values in [Z] with their wrap-around.  The flag
    [debug] says whether debug assertions are compiled in. *)

From Stdlib Require Import ZArith Lia.
From S2P Require Import Prelude.

Local Open Scope Z_scope.

(** ** Keys *)

Record MessageKey := mkKey { key_index : Z }.

Definition MessageKey_new (index : Z) : MessageKey := mkKey index.

Definition MessageKey_cmp (self other : MessageKey) : comparison :=
  let DIFF_MAX := Z.shiftr u64_max 1 in
  let d := wsub64 (key_index self) (key_index other) in
  if d =? 0 then Eq else if (1 <=? d) && (d <? DIFF_MAX) then Gt else Lt.

(** ** Queues *)

Section Messages.
Context {M : Type}.

Record MessageSequence := mkSeq { messages : list (MessageKey * M); start_id : Z }.

Record MessageQueue := mkQueue {
  messages_a : MessageSequence; messages_b : MessageSequence; counter : Z
}.

Definition seq_len (s : MessageSequence) : Z := Z.of_nat (length (messages s)).

Definition MessageSequence_default : MessageSequence := mkSeq [] 0.

Definition MessageQueue_default : MessageQueue :=
  mkQueue MessageSequence_default MessageSequence_default 0.

(** [extend]: keys are handed out from the counter while the source is drained. *)
Fixpoint extend_loop (msg_count : Z) (iter : list M) : list (MessageKey * M) * Z :=
  match iter with
  | [] => ([], msg_count)
  | m :: iter' =>
      let '(ms, c) := extend_loop (wadd64 msg_count 1) iter' in
      ((MessageKey_new msg_count, m) :: ms, c)
  end.

Definition MessageQueue_extend (self : MessageQueue) (iter : list M) : MessageQueue :=
  let '(ms, msg_count) := extend_loop (counter self) iter in
  mkQueue (messages_a self)
    (mkSeq (messages (messages_b self) ++ ms) (start_id (messages_b self))) msg_count.

Definition MessageQueue_len (self : MessageQueue) : Z :=
  seq_len (messages_a self) + seq_len (messages_b self).

Definition MessageQueue_is_empty (self : MessageQueue) : bool :=
  0 =? Z.lor (seq_len (messages_a self)) (seq_len (messages_b self)).

Definition MessageQueue_oldest_message_index (self : MessageQueue) : Z :=
  start_id (messages_a self).

Definition MessageQueue_get (self : MessageQueue) (id : Z) : option (MessageKey * M) :=
  if id <? start_id (messages_a self) then None
  else
    let s := if id <? start_id (messages_b self) then messages_a self else messages_b self in
    let index := wsub64 id (start_id s) in
    messages s !! Z.to_nat index.

(** [get_mut] followed by a write through the reference. *)
Definition MessageQueue_get_mut (self : MessageQueue) (id : Z) (f : M → M) : MessageQueue :=
  let upd (s : MessageSequence) :=
    let index := wsub64 id (start_id s) in
    mkSeq (alter (prod_map (λ k, k) f) (Z.to_nat index) (messages s)) (start_id s) in
  if id <? start_id (messages_a self) then self
  else if id <? start_id (messages_b self)
  then mkQueue (upd (messages_a self)) (messages_b self) (counter self)
  else mkQueue (messages_a self) (upd (messages_b self)) (counter self).

Definition MessageQueue_write (self : MessageQueue) (message : M) : MessageKey * MessageQueue :=
  let id := MessageKey_new (counter self) in
  (id, mkQueue (messages_a self)
         (mkSeq (messages (messages_b self) ++ [(id, message)]) (start_id (messages_b self)))
         (wadd64 (counter self) 1)).

Record MessageKeyIter := mkKeyIter { kit_last : Z; kit_end : Z }.

Definition MessageQueue_write_batch (self : MessageQueue) (ms : list M)
    : MessageKeyIter * MessageQueue :=
  let last := counter self in
  let self' := MessageQueue_extend self ms in
  (mkKeyIter last (counter self'), self').

Definition MessageQueue_clear (self : MessageQueue) : MessageQueue :=
  mkQueue (mkSeq [] (counter self)) (mkSeq [] (counter self)) (counter self).

(** The debug assertion adds with overflow checks. *)
Definition MessageQueue_update (debug : bool) (self : MessageQueue) : outcome MessageQueue :=
  let a := messages_b self in
  let b := mkSeq [] (counter self) in
  if debug && negb ((start_id a + seq_len a <=? u64_max) && (start_id a + seq_len a =? start_id b))
  then Panic
  else Ret (mkQueue a b (counter self)).

Definition MessageQueue_drain (self : MessageQueue) : list M * MessageQueue :=
  ((messages (messages_a self) ++ messages (messages_b self)).*2,
   mkQueue (mkSeq [] (counter self)) (mkSeq [] (counter self)) (counter self)).

Definition MessageQueue_update_drain (debug : bool) (self : MessageQueue)
    : outcome (list M * MessageQueue) :=
  let a := messages_b self in
  let b := mkSeq [] (counter self) in
  if debug && negb ((start_id a + seq_len a <=? u64_max) && (start_id a + seq_len a =? start_id b))
  then Panic
  else Ret ((messages (messages_a self)).*2, mkQueue a b (counter self)).

(** ** Key iterator *)

Definition MessageKeyIter_next (self : MessageKeyIter) : option MessageKey * MessageKeyIter :=
  if kit_last self =? kit_end self then (None, self)
  else (Some (MessageKey_new (kit_last self)),
        mkKeyIter (wadd64 (kit_last self) 1) (kit_end self)).

Definition MessageKeyIter_count (self : MessageKeyIter) : Z := wsub64 (kit_end self) (kit_last self).

(** ** Cursors and iterators *)

Record MessageCursor := mkCursor { last_index : Z }.

Definition MessageCursor_new (q : MessageQueue) : MessageCursor :=
  mkCursor (MessageQueue_oldest_message_index q).

Definition MessageCursor_len (self : MessageCursor) (q : MessageQueue) : Z :=
  let upper := wsub64 (counter q) (last_index self) in
  Z.min upper (MessageQueue_len q).

Definition MessageCursor_is_empty (self : MessageCursor) (q : MessageQueue) : bool :=
  MessageQueue_is_empty q || (counter q =? last_index self).

Definition MessageCursor_clear (self : MessageCursor) (q : MessageQueue) : MessageCursor :=
  mkCursor (counter q).

(** [get(index..).unwrap_or_default()] on a slice. *)
Definition slice_from {A} (l : list A) (index : Z) : list A :=
  if index <=? Z.of_nat (length l) then drop (Z.to_nat index) l else [].

(** The iterator borrows the cursor; the remaining items of the two chained
    slices are a list. *)
Record MessageWithKeyIter := mkIter { cursor : MessageCursor; chain : list (MessageKey * M); unread : Z }.

Definition MessageWithKeyIter_new (debug : bool) (c : MessageCursor) (q : MessageQueue)
    : outcome MessageWithKeyIter :=
  let unread := MessageCursor_len c q in
  let last_index := wsub64 (counter q) unread in
  let a_index := wsub64 last_index (start_id (messages_a q)) in
  let b_index := wsub64 last_index (start_id (messages_b q)) in
  let a := slice_from (messages (messages_a q)) a_index in
  let b := slice_from (messages (messages_b q)) b_index in
  if debug && negb (unread =? Z.of_nat (length a) + Z.of_nat (length b)) then Panic
  else Ret (mkIter (mkCursor last_index) (a ++ b) unread).

Definition MessageWithKeyIter_next (self : MessageWithKeyIter)
    : option (MessageKey * M) * MessageWithKeyIter :=
  match chain self with
  | item :: chain' =>
      (Some item, mkIter (mkCursor (wadd64 (last_index (cursor self)) 1)) chain'
                    (sat_sub (unread self) 1))
  | [] => (None, self)
  end.

Definition MessageWithKeyIter_size_hint (self : MessageWithKeyIter) : Z := unread self.

(** [count] and [last] consume the iterator and leave the cursor. *)
Definition MessageWithKeyIter_count (self : MessageWithKeyIter) : Z * MessageCursor :=
  (unread self, mkCursor (wadd64 (last_index (cursor self)) (unread self))).

Definition MessageWithKeyIter_last (self : MessageWithKeyIter)
    : option (MessageKey * M) * MessageCursor :=
  match last (chain self) with
  | Some instance =>
      (Some instance, mkCursor (wadd64 (last_index (cursor self)) (unread self)))
  | None => (None, cursor self)
  end.

Definition MessageWithKeyIter_nth (self : MessageWithKeyIter) (n : Z)
    : option (MessageKey * M) * MessageWithKeyIter :=
  match chain self !! Z.to_nat n with
  | Some instance =>
      let advanced := Z.min (n + 1) u64_max in
      (Some instance,
       mkIter (mkCursor (wadd64 (last_index (cursor self)) advanced))
         (drop (S (Z.to_nat n)) (chain self)) (sat_sub (unread self) advanced))
  | None =>
      (None, mkIter (mkCursor (wadd64 (last_index (cursor self)) (unread self))) [] 0)
  end.

(** [MessageIterator] drops the keys. *)
Definition MessageIterator_next (self : MessageWithKeyIter) : option M * MessageWithKeyIter :=
  let '(item, self') := MessageWithKeyIter_next self in (snd <$> item, self').

Definition MessageIterator_last (self : MessageWithKeyIter) : option M * MessageCursor :=
  let '(item, c) := MessageWithKeyIter_last self in (snd <$> item, c).

Definition MessageIterator_nth (self : MessageWithKeyIter) (n : Z) : option M * MessageWithKeyIter :=
  let '(item, self') := MessageWithKeyIter_nth self n in (snd <$> item, self').

(** A [for] loop over the iterator: [next] until it is exhausted. *)
Fixpoint MessageWithKeyIter_run (fuel : nat) (self : MessageWithKeyIter)
    : list (MessageKey * M) * MessageWithKeyIter :=
  match fuel with
  | O => ([], self)
  | S fuel' =>
      match MessageWithKeyIter_next self with
      | (None, self') => ([], self')
      | (Some x, self') =>
          let '(xs, self'') := MessageWithKeyIter_run fuel' self' in (x :: xs, self'')
      end
  end.

(** [MessageCursor::read_with_id] consumed by a [for] loop. *)
Definition MessageCursor_read_all (debug : bool) (c : MessageCursor) (q : MessageQueue)
    : outcome (list (MessageKey * M) * MessageCursor) :=
  it ← MessageWithKeyIter_new debug c q;
  let '(xs, it') := MessageWithKeyIter_run (S (length (chain it))) it in
  Ret (xs, cursor it').

(** ** Well-formed queues *)

(** Messages carry consecutive keys from the start of their sequence. *)
Definition seq_keys (s : MessageSequence) : Prop :=
  ∀ i k m, messages s !! i = Some (k, m) → k = mkKey (start_id s + Z.of_nat i).

(** [b] starts where [a] ends and the counter is where [b] ends; the counter
    has not wrapped. *)
Record queue_ok (q : MessageQueue) : Prop := {
  qok_start : 0 <= start_id (messages_a q);
  qok_ab : start_id (messages_a q) + seq_len (messages_a q) = start_id (messages_b q);
  qok_b : start_id (messages_b q) + seq_len (messages_b q) = counter q;
  qok_max : counter q <= u64_max;
  qok_keys_a : seq_keys (messages_a q);
  qok_keys_b : seq_keys (messages_b q)
}.

(** Everything still in the queue, oldest first. *)
Definition live_messages (q : MessageQueue) : list (MessageKey * M) :=
  messages (messages_a q) ++ messages (messages_b q).
End Messages.
Arguments MessageSequence : clear implicits.
Arguments MessageQueue : clear implicits.
Arguments MessageWithKeyIter : clear implicits.

Section Proofs.
Context {M : Type}.
Implicit Types (q : MessageQueue M) (c : MessageCursor).

Lemma lookup_consecutive (s : MessageSequence M) i :
  seq_keys s → fst <$> messages s !! i
               = if decide (i < length (messages s))%nat then Some (mkKey (start_id s + Z.of_nat i)) else None.
Proof.
  intros Hk. destruct (messages s !! i) as [[k m]|] eqn:E; cbn.
  - rewrite decide_True by (by eapply lookup_lt_Some). f_equal. by eapply Hk.
  - rewrite decide_False; [done|]. apply lookup_ge_None in E. lia.
Qed.

Lemma seq_keys_nil n : seq_keys (mkSeq (@nil (MessageKey * M)) n).
Proof. intros i k m Hi. by destruct i. Qed.

Lemma extend_loop_spec (n : Z) (ms : list M) :
  0 <= n → n + Z.of_nat (length ms) <= u64_max →
  extend_loop n ms = (zip_with pair (mkKey <$> seqZ n (Z.of_nat (length ms))) ms,
                      n + Z.of_nat (length ms)).
Proof.
  unfold u64_max. revert n. induction ms as [|m ms IH]; intros n H0 Hn; cbn [extend_loop length].
  - f_equal. lia.
  - cbn [length] in Hn. unfold wadd64. rewrite Z.mod_small by lia. rewrite IH by lia.
    rewrite (seqZ_cons n) by lia.
    replace (Z.pred (Z.of_nat (S (length ms)))) with (Z.of_nat (length ms)) by lia.
    rewrite <- Z.add_1_r. cbn [fmap list_fmap zip_with]. f_equal. lia.
Qed.

Lemma seq_keys_app (s : MessageSequence M) (ms : list M) :
  seq_keys s →
  seq_keys (mkSeq (messages s ++ zip_with pair (mkKey <$> seqZ (start_id s + seq_len s) (Z.of_nat (length ms))) ms)
              (start_id s)).
Proof.
  intros Hk i k m. cbn. rewrite lookup_app_Some. intros [Hi|[Hge Hi]]; [by eapply Hk|].
  rewrite lookup_zip_with_Some in Hi. destruct Hi as (k' & m' & [= -> ->] & Hk' & _).
  rewrite list_lookup_fmap in Hk'. destruct (seqZ _ _ !! _) as [z|] eqn:E; [|done].
  cbn in Hk'. apply lookup_seqZ in E as [-> _]. injection Hk' as <-. f_equal.
  unfold seq_len. lia.
Qed.

Lemma MessageQueue_extend_ok q ms :
  queue_ok q → counter q + Z.of_nat (length ms) <= u64_max →
  queue_ok (MessageQueue_extend q ms) ∧
  counter (MessageQueue_extend q ms) = counter q + Z.of_nat (length ms) ∧
  messages_a (MessageQueue_extend q ms) = messages_a q ∧
  start_id (messages_b (MessageQueue_extend q ms)) = start_id (messages_b q) ∧
  messages (messages_b (MessageQueue_extend q ms))
  = messages (messages_b q)
    ++ zip_with pair (mkKey <$> seqZ (counter q) (Z.of_nat (length ms))) ms.
Proof.
  intros [H0 Hab Hb Hm Ka Kb] Hn. unfold MessageQueue_extend. unfold seq_len in *.
  rewrite extend_loop_spec by lia. cbn. split; [|done]. split; cbn; unfold seq_len in *; auto.
  - cbn. rewrite length_app, length_zip_with, length_fmap, length_seqZ. lia.
  - rewrite <- Hb. by apply (seq_keys_app (messages_b q) ms).
Qed.

Lemma MessageQueue_write_extend q m :
  MessageQueue_write q m = (mkKey (counter q), MessageQueue_extend q [m]).
Proof. done. Qed.

(** Reading by index. *)
Lemma MessageQueue_get_spec q id :
  queue_ok q → 0 <= id <= u64_max →
  MessageQueue_get q id
  = if decide (start_id (messages_a q) <= id)
    then live_messages q !! Z.to_nat (id - start_id (messages_a q)) else None.
Proof.
  intros [H0 Hab Hb Hm Ka Kb] Hid. unfold MessageQueue_get, live_messages, seq_len, u64_max in *.
  destruct (Z.ltb_spec id (start_id (messages_a q))).
  - by rewrite decide_False by lia.
  - rewrite decide_True by lia. unfold wsub64.
    destruct (Z.ltb_spec id (start_id (messages_b q))).
    + rewrite Z.mod_small by lia. rewrite lookup_app_l by lia. done.
    + rewrite Z.mod_small by lia. rewrite lookup_app_r by lia. f_equal. lia.
Qed.

Lemma live_keys q i k m :
  queue_ok q → live_messages q !! i = Some (k, m) →
  k = mkKey (start_id (messages_a q) + Z.of_nat i).
Proof.
  intros [H0 Hab Hb Hm Ka Kb]. unfold live_messages, seq_len in *.
  rewrite lookup_app_Some. intros [Hi|[Hge Hi]]; [by eapply Ka|].
  apply Kb in Hi as ->. f_equal. lia.
Qed.

Lemma MessageQueue_update_ok debug q :
  queue_ok q →
  ∃ q', MessageQueue_update debug q = Ret q' ∧ queue_ok q' ∧
        messages_a q' = messages_b q ∧ messages (messages_b q') = [] ∧ counter q' = counter q.
Proof.
  intros [H0 Hab Hb Hm Ka Kb]. unfold MessageQueue_update, seq_len in *. cbn.
  rewrite (proj2 (Z.leb_le _ _)), (proj2 (Z.eqb_eq _ _)) by lia. cbn. rewrite andb_false_r.
  eexists. split; [done|]. split; [|done].
  split; cbn; unfold seq_len; cbn; auto using seq_keys_nil; lia.
Qed.

(** ** Histories *)

Inductive QueueOp :=
| QWrite (m : M)
| QBatch (ms : list M)
| QUpdate
| QClear
| QDrain
| QUpdateDrain.

Definition Queue_exec (debug : bool) q (o : QueueOp) : outcome (MessageQueue M) :=
  match o with
  | QWrite m => Ret (MessageQueue_write q m).2
  | QBatch ms => Ret (MessageQueue_write_batch q ms).2
  | QUpdate => MessageQueue_update debug q
  | QClear => Ret (MessageQueue_clear q)
  | QDrain => Ret (MessageQueue_drain q).2
  | QUpdateDrain => r ← MessageQueue_update_drain debug q; Ret r.2
  end.

Fixpoint Queue_run (debug : bool) q (os : list QueueOp) : outcome (MessageQueue M) :=
  match os with
  | [] => Ret q
  | o :: os' => q' ← Queue_exec debug q o; Queue_run debug q' os'
  end.

Definition written (o : QueueOp) : Z :=
  match o with
  | QWrite _ => 1
  | QBatch ms => Z.of_nat (length ms)
  | _ => 0
  end.

Fixpoint total_written (os : list QueueOp) : Z :=
  match os with
  | [] => 0
  | o :: os' => written o + total_written os'
  end.

Lemma total_written_nonneg os : 0 <= total_written os.
Proof. induction os as [|[] os IH]; cbn; lia. Qed.

Lemma queue_ok_emptied q : queue_ok q →
  queue_ok (mkQueue (mkSeq (@nil (MessageKey * M)) (counter q)) (mkSeq [] (counter q)) (counter q)).
Proof.
  intros [H0 Hab Hb Hm Ka Kb]. unfold seq_len in *.
  split; cbn; unfold seq_len; cbn; try apply seq_keys_nil; lia.
Qed.

Lemma Queue_exec_ok debug q o :
  queue_ok q → counter q + written o <= u64_max →
  ∃ q', Queue_exec debug q o = Ret q' ∧ queue_ok q' ∧ counter q' = counter q + written o.
Proof.
  intros Hok Hw. destruct o as [m|ms| | | |]; cbn [Queue_exec written] in *.
  - rewrite MessageQueue_write_extend. eexists. split; [done|].
    destruct (MessageQueue_extend_ok q [m]) as (? & ? & _); auto.
  - eexists. split; [done|]. destruct (MessageQueue_extend_ok q ms) as (? & ? & _); auto.
  - destruct (MessageQueue_update_ok debug q Hok) as (q' & -> & Hok' & _ & _ & Hc').
    eexists. split; [done|]. split; [done|]. lia.
  - eexists. split; [done|]. split; [by apply queue_ok_emptied|]. cbn. lia.
  - eexists. split; [done|]. split; [by apply queue_ok_emptied|]. cbn. lia.
  - destruct (MessageQueue_update_ok debug q Hok) as (q' & Hu & Hok' & _ & _ & Hc).
    unfold MessageQueue_update_drain, MessageQueue_update in *.
    destruct (debug && _); [done|]. cbn. injection Hu as <-.
    eexists. split; [done|]. split; [done|]. cbn. lia.
Qed.

Lemma Queue_run_ok debug os : ∀ q,
  queue_ok q → counter q + total_written os <= u64_max →
  ∃ q', Queue_run debug q os = Ret q' ∧ queue_ok q' ∧ counter q' = counter q + total_written os.
Proof.
  induction os as [|o os IH]; intros q Hok Hw; cbn in *.
  - exists q. split; [done|]. split; [done|]. lia.
  - pose proof (total_written_nonneg os).
    destruct (Queue_exec_ok debug q o) as (q1 & -> & Hok1 & Hc1); [done|lia|]. cbn.
    destruct (IH q1 Hok1) as (q' & -> & Hok' & Hc'); [lia|].
    exists q'. split; [done|]. split; [done|]. lia.
Qed.

Lemma queue_default_ok : queue_ok (@MessageQueue_default M).
Proof. split; cbn; unfold seq_len, u64_max; cbn; try apply seq_keys_nil; lia. Qed.

(** Histories of writes and updates only. *)
Definition keeps (o : QueueOp) : bool :=
  match o with QWrite _ | QBatch _ | QUpdate => true | _ => false end.

Definition is_update (o : QueueOp) : bool := match o with QUpdate => true | _ => false end.

Fixpoint updates (os : list QueueOp) : nat :=
  match os with
  | [] => O
  | o :: os' => if is_update o then S (updates os') else updates os'
  end.

(** Where a message of key [k] is after [n] updates. *)
Definition message_at (n : nat) (k : Z) (m : M) q : Prop :=
  match n with
  | O => (mkKey k, m) ∈ messages (messages_b q)
  | 1%nat => (mkKey k, m) ∈ messages (messages_a q)
  | _ => k < start_id (messages_a q)
  end.

Lemma message_at_step debug q o k m n :
  queue_ok q → counter q + written o <= u64_max → keeps o = true → message_at n k m q →
  ∃ q', Queue_exec debug q o = Ret q' ∧ queue_ok q' ∧ counter q' = counter q + written o ∧
        message_at (if is_update o then S n else n) k m q'.
Proof.
  intros Hok Hw Hk Hat.
  assert (Hext : ∀ ms, written o = Z.of_nat (length ms) → message_at n k m (MessageQueue_extend q ms)).
  { intros ms E. destruct (MessageQueue_extend_ok q ms) as (_ & _ & Ha & Hs & Hb); [done|lia|].
    destruct n as [|[|n]]; cbn in *; rewrite ?Ha, ?Hb; [set_solver|done..]. }
  destruct o as [x|ms| | | |]; try discriminate Hk; cbn [is_update];
    destruct (Queue_exec_ok debug q _ Hok Hw) as (q' & He & Hok' & Hc); exists q'; repeat (split; [done|]).
  - cbn in He. injection He as <-. rewrite <- (app_nil_r (messages (messages_b q) ++ _)).
    specialize (Hext [x] eq_refl). unfold MessageQueue_extend in Hext. cbn in Hext.
    by rewrite app_nil_r.
  - cbn in He. injection He as <-. by apply Hext.
  - destruct (MessageQueue_update_ok debug q Hok) as (q1 & Hu & Hok1 & Ha & Hb & _).
    cbn in He. rewrite Hu in He. injection He as <-.
    destruct Hok as [H0 Hab Hcb Hm Ka Kb]. unfold seq_len in *.
    destruct n as [|[|n]]; cbn in *.
    + by rewrite Ha.
    + rewrite Ha. apply list_elem_of_lookup in Hat as [i Hi].
      pose proof (Ka _ _ _ Hi) as [= ->]. apply lookup_lt_Some in Hi. lia.
    + rewrite Ha. lia.
Qed.

Lemma message_at_run debug os : ∀ q k m n,
  queue_ok q → counter q + total_written os <= u64_max → forallb keeps os = true →
  message_at n k m q →
  ∃ q', Queue_run debug q os = Ret q' ∧ queue_ok q' ∧ message_at (n + updates os) k m q'.
Proof.
  induction os as [|o os IH]; intros q k m n Hok Hw Hk Hat; cbn in *.
  - exists q. rewrite Nat.add_0_r. done.
  - apply andb_true_iff in Hk as [Hko Hk]. pose proof (total_written_nonneg os).
    destruct (message_at_step debug q o k m n) as (q1 & -> & Hok1 & Hc1 & Hat1); auto; [lia|]. cbn.
    destruct (IH q1 k m _ Hok1 ltac:(lia) Hk Hat1) as (q' & -> & Hok' & Hat').
    exists q'. split; [done|]. split; [done|].
    destruct (is_update o); [by rewrite <- Nat.add_succ_comm|done].
Qed.

(** ** Reading *)

Lemma run_chain (it : MessageWithKeyIter M) fuel :
  (length (chain it) < fuel)%nat → is_u64 (last_index (cursor it)) →
  last_index (cursor it) + Z.of_nat (length (chain it)) <= u64_max →
  ∃ it', MessageWithKeyIter_run fuel it = (chain it, it') ∧
         last_index (cursor it') = last_index (cursor it) + Z.of_nat (length (chain it)).
Proof.
  revert it. induction fuel as [|fuel IH]; intros [[last] ch u] Hf Hu Hmax; [lia|].
  cbn in *. unfold MessageWithKeyIter_next. cbn. destruct ch as [|x ch]; cbn in *.
  - eexists. split; [done|]. cbn. lia.
  - unfold is_u64, u64_max in *. unfold wadd64. rewrite Z.mod_small by lia.
    destruct (IH (mkIter (mkCursor (last + 1)) ch (sat_sub u 1))) as (it' & Hr & Hl); cbn; try lia.
    rewrite Hr. eexists. split; [done|]. cbn in Hl. lia.
Qed.

(** The position a read starts from: the oldest message the reader missed. *)
Definition read_pos c q : Z := Z.max (last_index c) (start_id (messages_a q)).

Lemma cursor_len_spec c q :
  queue_ok q → 0 <= last_index c <= counter q →
  MessageCursor_len c q = counter q - read_pos c q ∧
  wsub64 (counter q) (MessageCursor_len c q) = read_pos c q.
Proof.
  intros [H0 Hab Hb Hm Ka Kb] Hc. unfold MessageCursor_len, MessageQueue_len, read_pos, seq_len, u64_max in *.
  assert (wsub64 (counter q) (last_index c) = counter q - last_index c) as ->.
  { unfold wsub64. apply Z.mod_small. lia. }
  split; [lia|]. unfold wsub64. rewrite Z.mod_small; lia.
Qed.

Lemma slice_from_drop {A} (l : list A) i :
  0 <= i → slice_from l i = drop (Z.to_nat i) l.
Proof.
  intros Hi. unfold slice_from. destruct (Z.leb_spec i (Z.of_nat (length l))); [done|].
  by rewrite drop_ge by lia.
Qed.

(** What the two slices of a read hold. *)
Lemma read_slices c q :
  queue_ok q → 0 <= last_index c <= counter q →
  slice_from (messages (messages_a q)) (wsub64 (read_pos c q) (start_id (messages_a q)))
  = drop (Z.to_nat (read_pos c q - start_id (messages_a q))) (messages (messages_a q)) ∧
  slice_from (messages (messages_b q)) (wsub64 (read_pos c q) (start_id (messages_b q)))
  = if decide (start_id (messages_b q) <= read_pos c q)
    then drop (Z.to_nat (read_pos c q - start_id (messages_b q))) (messages (messages_b q))
    else [].
Proof.
  intros Hok Hc. pose proof Hok as [H0 Hab Hb Hm Ka Kb].
  unfold read_pos, seq_len, u64_max in *.
  set (p := Z.max _ _). assert (Hp : start_id (messages_a q) <= p <= counter q) by lia.
  split.
  - unfold wsub64. rewrite Z.mod_small by lia. apply slice_from_drop. lia.
  - case_decide.
    + unfold wsub64. rewrite Z.mod_small by lia. apply slice_from_drop. lia.
    + unfold slice_from, wsub64.
      replace ((p - start_id (messages_b q)) mod W64)
        with (W64 + (p - start_id (messages_b q))) by mlia.
      destruct (Z.leb_spec (W64 + (p - start_id (messages_b q)))
        (Z.of_nat (length (messages (messages_b q))))); [lia|done].
Qed.

(** The iterator a read creates, when debug assertions do not stop it. *)
Lemma read_iter debug c q :
  queue_ok q → 0 <= last_index c <= counter q →
  let a := drop (Z.to_nat (read_pos c q - start_id (messages_a q))) (messages (messages_a q)) in
  let b := if decide (start_id (messages_b q) <= read_pos c q)
           then drop (Z.to_nat (read_pos c q - start_id (messages_b q))) (messages (messages_b q))
           else [] in
  MessageWithKeyIter_new debug c q
  = if debug && negb (counter q - read_pos c q =? Z.of_nat (length a) + Z.of_nat (length b))
    then Panic else Ret (mkIter (mkCursor (read_pos c q)) (a ++ b) (counter q - read_pos c q)).
Proof.
  intros Hok Hc a b. unfold MessageWithKeyIter_new.
  destruct (cursor_len_spec c q Hok Hc) as [Hlen Hpos]. rewrite Hpos.
  destruct (read_slices c q Hok Hc) as [-> ->]. by rewrite Hlen.
Qed.

Lemma read_all_iter debug c q it :
  MessageWithKeyIter_new debug c q = Ret it → is_u64 (last_index (cursor it)) →
  last_index (cursor it) + Z.of_nat (length (chain it)) <= u64_max →
  MessageCursor_read_all debug c q
  = Ret (chain it, mkCursor (last_index (cursor it) + Z.of_nat (length (chain it)))).
Proof.
  intros Hn Hu Hm. unfold MessageCursor_read_all. rewrite Hn. unfold mbind, outcome_bind.
  destruct (run_chain it (S (length (chain it)))) as (it' & -> & Hl); [lia|done|done|].
  destruct (cursor it') as [l]. cbn in *. by rewrite Hl.
Qed.

(** Reading with nothing unread in [a], or nothing at all in [b]. *)
Lemma read_simple debug c q :
  queue_ok q → 0 <= last_index c <= counter q →
  start_id (messages_b q) <= read_pos c q ∨ messages (messages_b q) = [] →
  MessageWithKeyIter_new debug c q
  = Ret (mkIter (mkCursor (read_pos c q))
           (drop (Z.to_nat (read_pos c q - start_id (messages_a q))) (live_messages q))
           (counter q - read_pos c q)).
Proof.
  intros Hok Hc Hor. rewrite read_iter by done. pose proof Hok as [H0 Hab Hb Hm Ka Kb].
  unfold seq_len in *. unfold live_messages. rewrite drop_app.
  set (p := read_pos c q). assert (Hp : start_id (messages_a q) <= p <= counter q).
  { subst p. unfold read_pos. lia. }
  rewrite length_drop. destruct (decide (start_id (messages_b q) <= p)) as [Hge|Hlt].
  - rewrite length_drop. rewrite (proj2 (Z.eqb_eq _ _)) by lia. rewrite andb_false_r.
    do 4 f_equal. lia.
  - destruct Hor as [?|Hnil]; [lia|]. rewrite Hnil in *. cbn in Hb. rewrite drop_nil.
    cbn [length]. rewrite (proj2 (Z.eqb_eq _ _)) by lia. by rewrite andb_false_r.
Qed.

Lemma live_length q :
  queue_ok q → Z.of_nat (length (live_messages q)) = counter q - start_id (messages_a q).
Proof.
  intros [H0 Hab Hb Hm Ka Kb]. unfold live_messages, seq_len in *. rewrite length_app. lia.
Qed.

Lemma read_caught_up debug q :
  queue_ok q → MessageCursor_read_all debug (mkCursor (counter q)) q = Ret ([], mkCursor (counter q)).
Proof.
  intros Hok. pose proof (live_length q Hok) as Hlive.
  pose proof Hok as [H0 Hab Hb Hm Ka Kb]. unfold seq_len, u64_max in *.
  assert (Hp : read_pos (mkCursor (counter q)) q = counter q) by (unfold read_pos; cbn; lia).
  pose proof (read_simple debug (mkCursor (counter q)) q Hok) as Hs. rewrite Hp in Hs. cbn in Hs.
  specialize (Hs ltac:(lia) ltac:(left; lia)). rewrite drop_ge in Hs by lia.
  rewrite (read_all_iter _ _ _ _ Hs); unfold is_u64, u64_max; cbn; [|lia..]. do 3 f_equal. lia.
Qed.
End Proofs.
Arguments QueueOp : clear implicits.

(** ** Theorems *)

(** C19: Every history of writes, batches, updates, clears and drains that
    writes fewer than 2^64 messages runs without a failing assertion from an
    empty queue; the counter is then the number of messages written, and
    [get] answers exactly the messages still buffered, each under its key. *)
Theorem queue_history_ok {M} (debug : bool) (os : list (QueueOp M)) :
  total_written os <= u64_max →
  ∃ q, Queue_run debug MessageQueue_default os = Ret q ∧ queue_ok q ∧
       counter q = total_written os ∧
       ∀ id, 0 <= id <= u64_max →
         MessageQueue_get q id
         = (if decide (start_id (messages_a q) <= id)
            then live_messages q !! Z.to_nat (id - start_id (messages_a q)) else None) ∧
         ∀ k m, MessageQueue_get q id = Some (k, m) → k = mkKey id.
Proof.
  intros Hw. destruct (Queue_run_ok debug os MessageQueue_default queue_default_ok) as (q & Hr & Hok & Hc).
  { done. }
  exists q. split; [done|]. split; [done|]. split; [rewrite Hc; cbn; lia|]. intros id Hid.
  pose proof (MessageQueue_get_spec q id Hok Hid) as Hg. split; [done|]. intros k m Hkm.
  rewrite Hg in Hkm. case_decide; [|done]. apply live_keys in Hkm as ->; [|done]. f_equal. lia.
Qed.

(** A message lives for two updates: after writing it, whatever else is
    written and however often the queue is updated, it is found under its key
    as long as fewer than two updates happened, and not found from the second
    update on. *)
Theorem message_lifetime {M} (debug : bool) (q : MessageQueue M) (m : M) (os : list (QueueOp M)) :
  queue_ok q → counter q + 1 + total_written os <= u64_max → forallb keeps os = true →
  let '(k, q1) := MessageQueue_write q m in
  ∃ q2, Queue_run debug q1 os = Ret q2 ∧
        MessageQueue_get q2 (key_index k) = if decide (updates os < 2)%nat then Some (k, m) else None.
Proof.
  intros Hok Hw Hk. rewrite MessageQueue_write_extend. pose proof (total_written_nonneg os) as Htw.
  destruct (MessageQueue_extend_ok q [m]) as (Hok1 & Hc1 & Ha1 & _ & Hb1); [done|cbn; lia|].
  assert (Hat0 : message_at 0 (counter q) m (MessageQueue_extend q [m])).
  { unfold message_at. rewrite Hb1, seqZ_cons by (cbn; lia). cbn [fmap list_fmap zip_with].
    rewrite elem_of_app. right. apply list_elem_of_here. }
  cbn [length] in *.
  destruct (message_at_run debug os (MessageQueue_extend q [m]) (counter q) m 0)
    as (q2 & -> & Hok2 & Hat); [done|lia|done|exact Hat0|].
  exists q2. split; [done|]. cbn [key_index Nat.add] in *.
  assert (Hcq : 0 <= counter q <= u64_max).
  { destruct Hok as [H0 Hab Hb Hm Ka Kb]. unfold seq_len in *. lia. }
  rewrite MessageQueue_get_spec by done. pose proof Hok2 as [H0 Hab Hb Hm Ka Kb]. unfold seq_len in *.
  destruct (updates os) as [|[|n]]; cbn in Hat.
  - apply list_elem_of_lookup in Hat as [i Hi]. pose proof (Kb _ _ _ Hi) as [= Heq].
    rewrite !decide_True by lia. unfold live_messages. rewrite lookup_app_r by lia.
    rewrite <- Hi. f_equal. lia.
  - apply list_elem_of_lookup in Hat as [i Hi]. pose proof (Ka _ _ _ Hi) as [= Heq].
    rewrite !decide_True by lia. unfold live_messages.
    rewrite lookup_app_l by (apply lookup_lt_Some in Hi; lia).
    rewrite <- Hi. f_equal. lia.
  - by rewrite !decide_False by lia.
Qed.

(** Reading is exact when the reader has nothing unread in the older buffer,
    or the newer one is empty: a [for] loop yields exactly the buffered messages
    it has not seen, oldest first, in debug and release builds; the cursor ends
    at the counter, so that a second read yields nothing. *)
Theorem read_exact {M} (debug : bool) (c : MessageCursor) (q : MessageQueue M) :
  queue_ok q → 0 <= last_index c <= counter q →
  start_id (messages_b q) <= read_pos c q ∨ messages (messages_b q) = [] →
  MessageCursor_read_all debug c q
  = Ret (drop (Z.to_nat (read_pos c q - start_id (messages_a q))) (live_messages q),
         mkCursor (counter q)) ∧
  MessageCursor_read_all debug (mkCursor (counter q)) q = Ret ([], mkCursor (counter q)).
Proof.
  intros Hok Hc Hor. pose proof Hok as [H0 Hab Hb Hm Ka Kb]. unfold seq_len, u64_max in *.
  pose proof (live_length q Hok) as Hlive.
  assert (Hp : start_id (messages_a q) <= read_pos c q <= counter q) by (unfold read_pos; lia).
  split; [|by apply read_caught_up].
  erewrite read_all_iter; [|by apply read_simple|..]; cbn; rewrite ?length_drop;
    unfold is_u64, u64_max; try lia. do 3 f_equal. lia.
Qed.

(** When a reader has unread messages in the older buffer and the newer one
    is not empty, the index into the newer buffer wraps and its slice is empty.
    A debug build panics on the length assertion.  A release build reads only
    the older buffer's part; and asking the iterator for its last message
    returns the last one of the older buffer while moving the cursor past
    everything, so that the messages of the newer buffer are never delivered. *)
Theorem read_straddle_loses {M} (c : MessageCursor) (q : MessageQueue M) :
  queue_ok q → 0 <= last_index c <= counter q →
  read_pos c q < start_id (messages_b q) → messages (messages_b q) ≠ [] →
  let older := drop (Z.to_nat (read_pos c q - start_id (messages_a q))) (messages (messages_a q)) in
  MessageWithKeyIter_new true c q = Panic ∧
  MessageCursor_read_all false c q = Ret (older, mkCursor (start_id (messages_b q))) ∧
  ∃ it, MessageWithKeyIter_new false c q = Ret it ∧
        MessageWithKeyIter_last it = (last older, mkCursor (counter q)) ∧
        older ≠ [] ∧
        MessageCursor_read_all false (mkCursor (counter q)) q = Ret ([], mkCursor (counter q)).
Proof.
  intros Hok Hc Hlt Hne older. pose proof Hok as [H0 Hab Hb Hm Ka Kb]. unfold seq_len, u64_max in *.
  assert (Hlb : (0 < length (messages (messages_b q)))%nat).
  { destruct (messages (messages_b q)); [done|cbn; lia]. }
  assert (Hp : start_id (messages_a q) <= read_pos c q) by (unfold read_pos; lia).
  assert (Hol : Z.of_nat (length older) = start_id (messages_b q) - read_pos c q).
  { subst older. rewrite length_drop. lia. }
  assert (Hnew : MessageWithKeyIter_new false c q
    = Ret (mkIter (mkCursor (read_pos c q)) older (counter q - read_pos c q))).
  { rewrite read_iter by done. rewrite decide_False by lia. by rewrite app_nil_r. }
  assert (Hone : older ≠ []) by (intros E; rewrite E in Hol; cbn in Hol; lia).
  split; [|split].
  - rewrite read_iter by done. rewrite decide_False by lia. fold older. cbn [length].
    by rewrite (proj2 (Z.eqb_neq _ _)) by lia.
  - erewrite read_all_iter by (try exact Hnew; cbn; unfold is_u64, u64_max; lia). cbn.
    do 3 f_equal. lia.
  - eexists. split; [exact Hnew|]. unfold MessageWithKeyIter_last. cbn [chain cursor unread last_index].
    destruct (last older) as [x|] eqn:El; [|by apply last_None in El].
    split; [|split; [done|]].
    + unfold wadd64. rewrite Z.mod_small by lia. do 2 f_equal. lia.
    + exact (read_caught_up false q Hok).
Qed.

(** Keys an exhausted key iterator gives. *)
Fixpoint MessageKeyIter_run (fuel : nat) (self : MessageKeyIter) : list MessageKey :=
  match fuel with
  | O => []
  | S fuel' =>
      match MessageKeyIter_next self with
      | (None, _) => []
      | (Some k, self') => k :: MessageKeyIter_run fuel' self'
      end
  end.

Lemma MessageKeyIter_run_seqZ fuel a b :
  0 <= a <= b → b <= u64_max → (Z.to_nat (b - a) < fuel)%nat →
  MessageKeyIter_run fuel (mkKeyIter a b) = mkKey <$> seqZ a (b - a).
Proof.
  unfold u64_max. revert a. induction fuel as [|fuel IH]; intros a Ha Hb Hf; [lia|].
  cbn. unfold MessageKeyIter_next. cbn. destruct (Z.eqb_spec a b) as [->|Hne].
  - by rewrite Z.sub_diag.
  - unfold wadd64. rewrite Z.mod_small by lia. rewrite IH by lia.
    rewrite (seqZ_cons a) by lia. cbn. do 3 f_equal; lia.
Qed.

(** The key iterator of [write_batch] yields exactly the keys of the
    messages appended, in order, its count is their number, and each key
    compares greater than the one before it. *)
Theorem write_batch_keys {M} (q : MessageQueue M) (ms : list M) :
  queue_ok q → counter q + Z.of_nat (length ms) <= u64_max →
  let '(it, q') := MessageQueue_write_batch q ms in
  MessageKeyIter_run (S (length ms)) it
  = (drop (length (messages (messages_b q))) (messages (messages_b q'))).*1 ∧
  (drop (length (messages (messages_b q))) (messages (messages_b q'))).*2 = ms ∧
  MessageKeyIter_count it = Z.of_nat (length ms) ∧
  ∀ i k k', MessageKeyIter_run (S (length ms)) it !! i = Some k →
            MessageKeyIter_run (S (length ms)) it !! S i = Some k' → MessageKey_cmp k' k = Gt.
Proof.
  intros Hok Hn. unfold MessageQueue_write_batch.
  destruct (MessageQueue_extend_ok q ms Hok Hn) as (Hok' & Hc & _ & _ & Hb).
  assert (0 <= counter q).
  { destruct Hok as [H0 Hab Hcb Hm Ka Kb]. unfold seq_len in *. lia. }
  rewrite Hb, drop_app_length, MessageKeyIter_run_seqZ by lia.
  replace (counter (MessageQueue_extend q ms) - counter q) with (Z.of_nat (length ms)) by lia.
  assert (Hl : length (mkKey <$> seqZ (counter q) (Z.of_nat (length ms))) = length ms).
  { rewrite length_fmap, length_seqZ. lia. }
  split; [|split; [|split]].
  - symmetry. apply fst_zip. lia.
  - apply snd_zip. lia.
  - unfold MessageKeyIter_count. cbn. unfold wsub64, u64_max in *. rewrite Z.mod_small; lia.
  - intros i k k'. rewrite !list_lookup_fmap.
    destruct (seqZ _ _ !! i) as [z|] eqn:E; [|done].
    destruct (seqZ _ _ !! S i) as [z'|] eqn:E'; [|done]. intros [= <-] [= <-].
    apply lookup_seqZ in E as [-> ?]. apply lookup_seqZ in E' as [-> ?].
    unfold MessageKey_cmp, wsub64. cbn [key_index].
    replace ((counter q + Z.of_nat (S i) - (counter q + Z.of_nat i)) mod W64) with 1 by mlia. done.
Qed.

(** ** Witnesses *)

Definition ex_queue : MessageQueue nat :=
  mkQueue (mkSeq [(mkKey 3, 30%nat); (mkKey 4, 40%nat)] 3) (mkSeq [(mkKey 5, 50%nat)] 5) 6.

Lemma ex_queue_ok : queue_ok ex_queue.
Proof.
  split; cbn; unfold seq_len, u64_max; cbn; try lia.
  - intros [|[|i]] k m; cbn; intros; by simplify_eq.
  - intros [|i] k m; cbn; intros; by simplify_eq.
Qed.

Lemma queue_history_ok_witness :
  ∃ q, Queue_run true MessageQueue_default [QBatch [1; 2]%nat; QUpdate; QWrite 3%nat] = Ret q ∧
       MessageQueue_get q 2 = Some (mkKey 2, 3%nat).
Proof.
  destruct (queue_history_ok true [QBatch [1; 2]%nat; QUpdate; QWrite 3%nat])
    as (q & Hr & Hok & Hc & Hg); [vm_compute; discriminate|].
  exists q. split; [exact Hr|]. vm_compute in Hr. injection Hr as <-. reflexivity.
Defined.

Lemma message_lifetime_witness :
  ∃ q2, Queue_run true (MessageQueue_write ex_queue 7%nat).2 [QWrite 8%nat; QUpdate] = Ret q2 ∧
        MessageQueue_get q2 6 = Some (mkKey 6, 7%nat).
Proof.
  exact (message_lifetime true ex_queue 7%nat [QWrite 8%nat; QUpdate] ex_queue_ok
    ltac:(vm_compute; discriminate) eq_refl).
Defined.

Lemma read_exact_witness :
  MessageCursor_read_all true (mkCursor 5) ex_queue = Ret ([(mkKey 5, 50%nat)], mkCursor 6).
Proof.
  destruct (read_exact true (mkCursor 5) ex_queue ex_queue_ok) as [H1 _]; [cbn; lia|left; unfold read_pos; cbn; lia|].
  exact H1.
Defined.

(** A reader that saw message 3 reads with 4 unread in the older buffer and 5
    in the newer one. *)
Lemma read_straddle_loses_witness :
  MessageWithKeyIter_new true (mkCursor 4) ex_queue = Panic ∧
  MessageCursor_read_all false (mkCursor 4) ex_queue = Ret ([(mkKey 4, 40%nat)], mkCursor 5).
Proof.
  destruct (read_straddle_loses (mkCursor 4) ex_queue ex_queue_ok) as (H1 & H2 & _);
    [cbn; lia|unfold read_pos; cbn; lia|done|]. done.
Defined.

Lemma write_batch_keys_witness :
  MessageKeyIter_run 3 (MessageQueue_write_batch ex_queue [8; 9]%nat).1 = [mkKey 6; mkKey 7].
Proof.
  destruct (write_batch_keys ex_queue [8; 9]%nat ex_queue_ok) as (H1 & _); [vm_compute; discriminate|].
  exact H1.
Defined.
