(* ===== verification/State.v ===== *)
(** * Finite state machines

    [crates/voker-state/src]: the resources [State], [PreviousState] and
    [NextState], the systems of the [StateTransition] schedule for manual, derived
    and sub-states, and the despawning of state-scoped entities.  Transition
    signals go through the message queues of [Message]; every system reads them
    with a cursor of its own. *)

From Stdlib Require Import ZArith Lia.
From S2P Require Import Prelude Message.

(** ** Resources *)

Record StateTransitionSignal (S : Type) := mkSignal {
  sg_exited : option S;
  sg_entered : option S;
  sg_allow_same : bool
}.
Arguments mkSignal {S} _ _ _.
Arguments sg_exited {S} _.
Arguments sg_entered {S} _.
Arguments sg_allow_same {S} _.

Inductive NextState (S : Type) :=
| Unchanged
| Pending (s : S)
| PendingIfNeq (s : S).
Arguments Unchanged {S}.
Arguments Pending {S} s.
Arguments PendingIfNeq {S} s.

#[global] Instance NextState_eq_dec {S} `{EqDecision S} : EqDecision (NextState S).
Proof. solve_decision. Defined.

(** [State<S>], [PreviousState<S>], [NextState<S>] and the signals of one state
    type. *)
Record StateRes (S : Type) := mkStateRes {
  sr_state : option S;
  sr_previous : option S;
  sr_next : option (NextState S);
  sr_signals : MessageQueue (StateTransitionSignal S)
}.
Arguments mkStateRes {S} _ _ _ _.
Arguments sr_state {S} _.
Arguments sr_previous {S} _.
Arguments sr_next {S} _.
Arguments sr_signals {S} _.

Section states.
Context {S : Type} `{EqDecision S}.
Implicit Types (r : StateRes S) (n : NextState S).

Definition NextState_set n (next : S) : NextState S := Pending next.

Definition NextState_set_if_neq n (next : S) : NextState S :=
  match n with
  | Pending s => if decide (s = next) then n else PendingIfNeq next
  | _ => PendingIfNeq next
  end.

Definition NextState_reset n : NextState S := Unchanged.

Definition NextState_take n : option (S * bool) * NextState S :=
  match n with
  | Unchanged => (None, n)
  | Pending next => (Some (next, true), Unchanged)
  | PendingIfNeq next => (Some (next, false), Unchanged)
  end.

(** [next_state.and_then(NextState::take)]. *)
Definition take_next r : option (S * bool) * StateRes S :=
  match sr_next r with
  | None => (None, r)
  | Some n => let '(t, n) := NextState_take n in (t, mkStateRes (sr_state r) (sr_previous r) (Some n) (sr_signals r))
  end.

(** What the systems queue on [Commands]. *)
Inductive StateCommand :=
| InsertState (s : S)
| RemoveState
| InsertPrevious (s : S)
| RemovePrevious.

Definition run_command r (c : StateCommand) : StateRes S :=
  match c with
  | InsertState s => mkStateRes (Some s) (sr_previous r) (sr_next r) (sr_signals r)
  | RemoveState => mkStateRes None (sr_previous r) (sr_next r) (sr_signals r)
  | InsertPrevious s => mkStateRes (sr_state r) (Some s) (sr_next r) (sr_signals r)
  | RemovePrevious => mkStateRes (sr_state r) None (sr_next r) (sr_signals r)
  end.

Definition run_commands r (cs : list StateCommand) : StateRes S := foldl run_command r cs.

Definition write_signal r (sg : StateTransitionSignal S) : StateRes S :=
  mkStateRes (sr_state r) (sr_previous r) (sr_next r) (snd (MessageQueue_write (sr_signals r) sg)).

(** [PreviousState<S>] set in place, or inserted by a command. *)
Definition set_previous r (exited : S) : StateRes S * list StateCommand :=
  match sr_previous r with
  | Some _ => (mkStateRes (sr_state r) (Some exited) (sr_next r) (sr_signals r), [])
  | None => (r, [InsertPrevious exited])
  end.

(** The resources as the system leaves them and the commands it queued. *)
Definition internal_apply_state_transition r (new_state : option S) (allow_same_state_transitions : bool)
  : StateRes S * list StateCommand :=
  match new_state with
  | Some entered =>
      match sr_state r with
      | Some s =>
          let exited := if decide (s = entered) then entered else s in
          let r := mkStateRes (Some entered) (sr_previous r) (sr_next r) (sr_signals r) in
          let r := write_signal r (mkSignal (Some exited) (Some entered) allow_same_state_transitions) in
          set_previous r exited
      | None =>
          let r := write_signal r (mkSignal None (Some entered) allow_same_state_transitions) in
          (r, InsertState entered :: match sr_previous r with Some _ => [RemovePrevious] | None => [] end)
      end
  | None =>
      match sr_state r with
      | Some exited =>
          let r := write_signal r (mkSignal (Some exited) None allow_same_state_transitions) in
          let '(r, cs) := set_previous r exited in
          (r, RemoveState :: cs)
      | None => (r, [])
      end
  end.

(** [apply_state_transition] of a manual state. *)
Definition apply_manual r : StateRes S * list StateCommand :=
  match take_next r with
  | (None, r) => (r, [])
  | (Some (new_state, allow), r) => internal_apply_state_transition r (Some new_state) allow
  end.

(** ** Reading signals *)

Variable debug : bool.

(** [reader.read().count() > 0]. *)
Definition detect_transition (c : MessageCursor) r : outcome (bool * MessageCursor) :=
  it ← MessageWithKeyIter_new debug c (sr_signals r);
  let '(n, c) := MessageWithKeyIter_count it in
  Ret (bool_decide (0 < n)%Z, c).

(** [reader.read().last().cloned()]. *)
Definition last_transition (c : MessageCursor) r : outcome (option (StateTransitionSignal S) * MessageCursor) :=
  it ← MessageWithKeyIter_new debug c (sr_signals r);
  Ret (MessageIterator_last it).

(** ** Transition schedules *)

Inductive Label :=
| OnEnter (s : S)
| OnExit (s : S)
| OnTransition (exited entered : S).

Definition identity_skipped (t : StateTransitionSignal S) : bool :=
  bool_decide (sg_entered t = sg_exited t) && negb (sg_allow_same t).

(** The schedule each system runs, if any. *)
Definition run_enter (transition : option (StateTransitionSignal S)) : option Label :=
  t ← transition; if identity_skipped t then None else OnEnter <$> sg_entered t.

Definition run_exit (transition : option (StateTransitionSignal S)) : option Label :=
  t ← transition; if identity_skipped t then None else OnExit <$> sg_exited t.

Definition run_transition (transition : option (StateTransitionSignal S)) : option Label :=
  t ← transition; exited ← sg_exited t; entered ← sg_entered t; Some (OnTransition exited entered).

(** One registered system [last_transition.pipe(f).run_if(detect_transition)],
    with the cursors of its two readers. *)
Definition PhaseCursors : Type := MessageCursor * MessageCursor.

Definition phase_system (f : option (StateTransitionSignal S) → option Label) (cs : PhaseCursors) r
  : outcome (list Label * PhaseCursors) :=
  '(met, c1) ← detect_transition cs.1 r;
  if (met : bool) then
    '(t, c2) ← last_transition cs.2 r;
    Ret (match f t with Some l => [l] | None => [] end, (c1, c2))
  else Ret ([], (c1, cs.2)).

(** The systems of the sets [Exit], [Transition] and [Enter], which run in this
    order. *)
Record PhaseSystems := mkPhases {
  ph_exit : option (StateTransitionSignal S) → option Label;
  ph_trans : option (StateTransitionSignal S) → option Label;
  ph_enter : option (StateTransitionSignal S) → option Label
}.

(** [ManualStates::register_state], and [register_derived_state_for] of a single
    source. *)
Definition register_state : PhaseSystems := mkPhases run_exit run_transition run_enter.
Definition register_derived_single : PhaseSystems := mkPhases run_exit run_transition run_enter.

(** [register_sub_state_for], and [register_derived_state_for] of a tuple of
    sources, put the enter system in the exit set and the exit system in the enter
    set. *)
Definition register_sub_state : PhaseSystems := mkPhases run_enter run_transition run_exit.
Definition register_derived_tuple : PhaseSystems := mkPhases run_enter run_transition run_exit.

Record Cursors := mkCursors { cu_exit : PhaseCursors; cu_trans : PhaseCursors; cu_enter : PhaseCursors }.

(** The three phases after [Apply]; the commands of [Apply] are run before them. *)
Definition run_phases (p : PhaseSystems) r (cu : Cursors) : outcome (list Label * Cursors) :=
  '(l1, c1) ← phase_system (ph_exit p) (cu_exit cu) r;
  '(l2, c2) ← phase_system (ph_trans p) (cu_trans cu) r;
  '(l3, c3) ← phase_system (ph_enter p) (cu_enter cu) r;
  Ret (l1 ++ l2 ++ l3, mkCursors c1 c2 c3).

(** A run of the [StateTransition] schedule for a manual state. *)
Definition manual_pass r (cu : Cursors) : outcome (list Label * StateRes S * Cursors) :=
  let '(r, cs) := apply_manual r in
  let r := run_commands r cs in
  '(ls, cu) ← run_phases register_state r cu;
  Ret (ls, r, cu).

(** ** App *)

(** [insert_state] on a fresh app; [init_state] inserts the state's [from_world]. *)
Definition insert_state_new (state : S) : StateRes S :=
  mkStateRes (Some state) None (Some Unchanged)
    (snd (MessageQueue_write MessageQueue_default (mkSignal None (Some state) true))).

(** [insert_state] on an initialised state type. *)
Definition insert_state_again r (state : S) : StateRes S :=
  mkStateRes (Some state) (sr_previous r) (sr_next r)
    (snd (MessageQueue_write (MessageQueue_clear (sr_signals r)) (mkSignal None (Some state) true))).

(** The run conditions [state_exists] and [in_state]. *)
Definition state_exists r : bool := match sr_state r with Some _ => true | None => false end.
Definition in_state (expected : S) r : bool := bool_decide (sr_state r = Some expected).

(** ** State-scoped entities *)

(** The entities a despawn system queues for despawning: [marked] are the entities
    with the marker component. *)
Definition despawn_entities_on_enter_state {E} (c : MessageCursor) r (marked : list (E * S)) : outcome (list E * MessageCursor) :=
  '(t, c) ← last_transition c r;
  match t with
  | None => Ret ([], c)
  | Some t =>
      if identity_skipped t then Ret ([], c)
      else match sg_entered t with
           | None => Ret ([], c)
           | Some entered => Ret ((filter (λ m, m.2 = entered) marked).*1, c)
           end
  end.

Definition despawn_entities_on_exit_state {E} (c : MessageCursor) r (marked : list (E * S)) : outcome (list E * MessageCursor) :=
  '(t, c) ← last_transition c r;
  match t with
  | None => Ret ([], c)
  | Some t =>
      if identity_skipped t then Ret ([], c)
      else match sg_exited t with
           | None => Ret ([], c)
           | Some exited => Ret ((filter (λ m, m.2 = exited) marked).*1, c)
           end
  end.

Definition despawn_entities_when_state {E} (c : MessageCursor) r (marked : list (E * (StateTransitionSignal S → bool)))
  : outcome (list E * MessageCursor) :=
  '(t, c) ← last_transition c r;
  match t with
  | None => Ret ([], c)
  | Some t => if identity_skipped t then Ret ([], c) else Ret ((filter (λ m, m.2 t = true) marked).*1, c)
  end.
End states.
#[global] Arguments Label : clear implicits.
#[global] Arguments PhaseSystems : clear implicits.
#[global] Arguments StateCommand : clear implicits.

(** ** States that depend on others *)

Section dependent.
Context {S T : Type} `{EqDecision T}.
Variable debug : bool.

(** [clone_raw_state] of a source that is a state or an optional state, followed by
    [derive] or [should_exist]. *)
Definition from_state (f : S → option T) (source : option S) : option T := s ← source; f s.
Definition from_option_state (f : option S → option T) (source : option S) : option T := f source.

(** [apply_state_transition] of a derived state; [derive] includes
    [clone_raw_state]. *)
Definition apply_derived (derive : option S → option T) (allow_same : bool) (source : StateRes S) (c : MessageCursor) (r : StateRes T)
  : (StateRes T * list (StateCommand T)) * MessageCursor :=
  if MessageCursor_is_empty c (sr_signals source) then ((r, []), c)
  else
    let c := MessageCursor_clear c (sr_signals source) in
    (internal_apply_state_transition r (derive (sr_state source)) allow_same, c).

(** [apply_state_transition] of a sub-state. *)
Definition apply_sub (should_exist : option S → option T) (source : StateRes S) (c : MessageCursor) (r : StateRes T)
  : outcome ((StateRes T * list (StateCommand T)) * MessageCursor) :=
  it ← MessageWithKeyIter_new debug c (sr_signals source);
  let '(last, c) := MessageIterator_last it in
  let source_changed := match last with Some _ => true | None => false end in
  let '(next_state, r) := take_next r in
  if negb source_changed && match next_state with None => true | Some _ => false end then Ret ((r, []), c)
  else
    let current := sr_state r in
    let default_state := if source_changed then should_exist (sr_state source) else None in
    let allow_same := default false (snd <$> next_state) in
    let new_state := match fst <$> next_state with
                     | Some s => Some s
                     | None => match current with Some s => Some s | None => default_state end
                     end in
    Ret (internal_apply_state_transition r new_state allow_same, c).
End dependent.
