(* ===== verification/StateTheorems.v ===== *)
(** * State machines do what was requested

    Over [State]: a manual state machine refines an abstract one along any sequence
    of requests and transition passes, a derived state always equals what its
    source derives, and what a sub-state becomes on every branch. *)

From Stdlib Require Import ZArith Lia.
From S2P Require Import Prelude Message State.

Section reading.
Context {S : Type} `{EqDecision S}.
Variable debug : bool.
Implicit Types (r : StateRes S).

(** Cursors that have read everything, and the queue with room for one signal. *)
Definition at_end {M} (q : MessageQueue M) : MessageCursor := mkCursor (counter q).
Definition caught_up r : Cursors :=
  let c := (at_end (sr_signals r), at_end (sr_signals r)) in mkCursors c c c.

Lemma iter_end {M} (q : MessageQueue M) : queue_ok q → MessageWithKeyIter_new debug (at_end q) q = Ret (mkIter (at_end q) [] 0).
Proof.
  intros Hok. pose proof (live_length q Hok) as Hl. pose proof Hok as [H0 Hab Hb Hm _ _]. unfold seq_len in *.
  assert (Hp : read_pos (at_end q) q = counter q) by (unfold read_pos; cbn; lia).
  rewrite (read_simple debug (at_end q) q Hok) by (cbn; try left; lia). rewrite Hp, Z.sub_diag, drop_ge by lia. done.
Qed.

(** The iterator over the one message written since. *)
Lemma iter_one {M} (q : MessageQueue M) m : queue_ok q → (counter q < u64_max)%Z →
  let q' := snd (MessageQueue_write q m) in
  queue_ok q' ∧ counter q' = (counter q + 1)%Z ∧
  MessageWithKeyIter_new debug (at_end q) q' = Ret (mkIter (at_end q) [(mkKey (counter q), m)] 1).
Proof.
  intros Hok Hmax q'. destruct (MessageQueue_extend_ok q [m] Hok) as (Hok' & Hc & Ha & Hsb & Hb); [cbn; lia|].
  assert (Hq' : q' = MessageQueue_extend q [m]) by done. rewrite <- Hq' in Hok', Hc, Ha, Hsb, Hb. clear Hq'. clearbody q'.
  change (Z.of_nat (length [m])) with 1%Z in Hc, Hb.
  split; [done|]. split; [done|]. pose proof Hok as [H0 Hab Hbb Hm' _ _]. unfold seq_len in *.
  assert (Hp : read_pos (at_end q) q' = counter q) by (unfold read_pos; rewrite Ha; cbn; lia).
  rewrite (read_simple debug (at_end q) q' Hok'); [|cbn; lia|left; rewrite Hp, Hsb; lia]. rewrite Hp, Ha, Hc.
  assert (Hl : live_messages q' = live_messages q ++ [(mkKey (counter q), m)]).
  { unfold live_messages. rewrite Ha, Hb, <- app_assoc. done. }
  rewrite Hl, drop_app_length'; [|pose proof (live_length q Hok); lia]. f_equal. unfold at_end. f_equal. lia.
Qed.

Lemma phase_idle f r : queue_ok (sr_signals r) → let c := at_end (sr_signals r) in
  phase_system debug f (c, c) r = Ret ([], (c, c)).
Proof.
  intros Hok. cbn zeta. unfold phase_system, detect_transition. cbn [fst snd]. rewrite iter_end by done. cbn.
  unfold at_end. cbn. unfold wadd64. rewrite Z.add_0_r, Z.mod_small; [done|].
  pose proof Hok as [H0 Hab Hb Hm _ _]. unfold u64_max, seq_len in *. lia.
Qed.

Lemma phase_signal f r0 r sg : queue_ok (sr_signals r0) → (counter (sr_signals r0) < u64_max)%Z →
  sr_signals r = snd (MessageQueue_write (sr_signals r0) sg) →
  let c := at_end (sr_signals r0) in let c' := at_end (sr_signals r) in
  phase_system debug f (c, c) r = Ret (match f (Some sg) with Some l => [l] | None => [] end, (c', c')).
Proof.
  intros Hok Hmax Hr c c'. destruct (iter_one (sr_signals r0) sg Hok Hmax) as (Hok' & Hc & Hit). rewrite <- Hr in *.
  unfold phase_system, detect_transition, last_transition. cbn [fst snd]. unfold c. rewrite Hit. cbn.
  assert (Hw : wadd64 (counter (sr_signals r0)) 1 = counter (sr_signals r)).
  { rewrite Hc. unfold wadd64. apply Z.mod_small. destruct Hok as [H0 Hab Hb Hm _ _]. unfold u64_max, seq_len in *. lia. }
  rewrite Hw. done.
Qed.

Lemma phases_idle p r : queue_ok (sr_signals r) → run_phases debug p r (caught_up r) = Ret ([], caught_up r).
Proof.
  intros Hok. unfold run_phases, caught_up. cbn [cu_exit cu_trans cu_enter]. do 2 (rewrite phase_idle by done; cbn [mbind outcome_bind]).
  by rewrite phase_idle.
Qed.

Definition labels_of (p : PhaseSystems S) (sg : StateTransitionSignal S) : list (Label S) :=
  option_list (ph_exit p (Some sg)) ++ option_list (ph_trans p (Some sg)) ++ option_list (ph_enter p (Some sg)).

Lemma phases_signal p r0 r sg : queue_ok (sr_signals r0) → (counter (sr_signals r0) < u64_max)%Z →
  sr_signals r = snd (MessageQueue_write (sr_signals r0) sg) →
  run_phases debug p r (caught_up r0) = Ret (labels_of p sg, caught_up r).
Proof.
  intros Hok Hmax Hr. unfold run_phases, caught_up. cbn [cu_exit cu_trans cu_enter].
  do 2 (rewrite (phase_signal _ r0 r sg) by done; cbn [mbind outcome_bind]). by rewrite (phase_signal _ r0 r sg).
Qed.
End reading.

(** ** Manual states *)

Section manual.
Context {S : Type} `{EqDecision S}.
Variable debug : bool.

(** The requests of systems, the transition passes and the updates of the message
    queue, in any order. *)
Inductive StateOp :=
| OpSet (s : S)
| OpSetIfNeq (s : S)
| OpReset
| OpPass
| OpUpdate.

Definition set_next (r : StateRes S) (f : NextState S → NextState S) : outcome (StateRes S) :=
  match sr_next r with
  | Some n => Ret (mkStateRes (sr_state r) (sr_previous r) (Some (f n)) (sr_signals r))
  | None => Panic
  end.

(** The machine: resources, cursors of the systems, and the schedules run so far. *)
Definition Machine : Type := StateRes S * Cursors * list (Label S).

Definition machine_step (m : Machine) (o : StateOp) : outcome Machine :=
  let '(r, cu, ls) := m in
  match o with
  | OpSet s => r ← set_next r (λ n, NextState_set n s); Ret (r, cu, ls)
  | OpSetIfNeq s => r ← set_next r (λ n, NextState_set_if_neq n s); Ret (r, cu, ls)
  | OpReset => r ← set_next r NextState_reset; Ret (r, cu, ls)
  | OpPass => '(new, r, cu) ← manual_pass debug r cu; Ret (r, cu, ls ++ new)
  | OpUpdate => q ← MessageQueue_update debug (sr_signals r); Ret (mkStateRes (sr_state r) (sr_previous r) (sr_next r) q, cu, ls)
  end.

Fixpoint machine_run (m : Machine) (os : list StateOp) : outcome Machine :=
  match os with
  | [] => Ret m
  | o :: os => m ← machine_step m o; machine_run m os
  end.

(** The abstract machine: the state, the one before it, the request, and the
    schedules run. *)
Record AbsMachine := mkAbs { ab_cur : S; ab_prev : option S; ab_next : NextState S; ab_labels : list (Label S) }.

Definition transition_labels (s n : S) (allow : bool) : list (Label S) :=
  if bool_decide (s = n) && negb allow then [OnTransition s n] else [OnExit s; OnTransition s n; OnEnter n].

(** What the code does, on the data of the abstract machine. *)
Definition run_step (a : AbsMachine) (o : StateOp) : AbsMachine :=
  match o with
  | OpSet s => mkAbs (ab_cur a) (ab_prev a) (Pending s) (ab_labels a)
  | OpSetIfNeq s => mkAbs (ab_cur a) (ab_prev a)
      (if bool_decide (ab_next a = Pending s) then Pending s else PendingIfNeq s) (ab_labels a)
  | OpReset => mkAbs (ab_cur a) (ab_prev a) Unchanged (ab_labels a)
  | OpPass =>
      match ab_next a with
      | Unchanged => a
      | Pending n => mkAbs n (Some (ab_cur a)) Unchanged (ab_labels a ++ transition_labels (ab_cur a) n true)
      | PendingIfNeq n => mkAbs n (Some (ab_cur a)) Unchanged (ab_labels a ++ transition_labels (ab_cur a) n false)
      end
  | OpUpdate => a
  end.

(** What is documented: [set_if_neq] of the state that is current at the pass is
    as if it had not been made. *)
Definition abs_step (a : AbsMachine) (o : StateOp) : AbsMachine :=
  match o with
  | OpSet s => mkAbs (ab_cur a) (ab_prev a) (Pending s) (ab_labels a)
  | OpSetIfNeq s => mkAbs (ab_cur a) (ab_prev a)
      (if bool_decide (ab_next a = Pending s) then Pending s else PendingIfNeq s) (ab_labels a)
  | OpReset => mkAbs (ab_cur a) (ab_prev a) Unchanged (ab_labels a)
  | OpPass =>
      let enter n := mkAbs n (Some (ab_cur a)) Unchanged (ab_labels a ++ [OnExit (ab_cur a); OnTransition (ab_cur a) n; OnEnter n]) in
      match ab_next a with
      | Unchanged => a
      | Pending n => enter n
      | PendingIfNeq n => if decide (ab_cur a = n) then mkAbs (ab_cur a) (ab_prev a) Unchanged (ab_labels a) else enter n
      end
  | OpUpdate => a
  end.

(** The passes whose request is skipped. *)
Definition skips (a : AbsMachine) (o : StateOp) : bool :=
  match o, ab_next a with OpPass, PendingIfNeq n => bool_decide (ab_cur a = n) | _, _ => false end.

Fixpoint no_skips (a : AbsMachine) (os : list StateOp) : bool :=
  match os with [] => true | o :: os => negb (skips a o) && no_skips (abs_step a o) os end.

(** The schedules of states, without those of transitions. *)
Definition is_transition (l : Label S) : bool := match l with OnTransition _ _ => true | _ => false end.
Definition state_labels (ls : list (Label S)) : list (Label S) := filter (λ l, is_transition l = false) ls.

Definition same_states (a b : AbsMachine) : Prop :=
  ab_cur a = ab_cur b ∧ ab_next a = ab_next b ∧ state_labels (ab_labels a) = state_labels (ab_labels b).

Lemma run_abs_step a o : skips a o = false → run_step a o = abs_step a o.
Proof.
  destruct o; try done. cbn. destruct (ab_next a) as [|n|n]; try done; unfold transition_labels.
  - intros _. by rewrite andb_false_r.
  - intros Hs%bool_decide_eq_false. by rewrite bool_decide_false, decide_False.
Qed.

Lemma run_abs_states a b o : same_states a b → same_states (run_step a o) (abs_step b o).
Proof.
  intros (Hc & Hn & Hl). destruct o; cbn; rewrite <- ?Hc, <- ?Hn; try done.
  destruct (ab_next a) as [|n|n] eqn:E; cbn; [by split_and!; rewrite ?E| |]; unfold transition_labels, same_states, state_labels in *; cbn.
  - rewrite andb_false_r. cbn. by rewrite !filter_app, Hl.
  - case_decide as Hd; [subst; rewrite bool_decide_true by done|rewrite bool_decide_false by done]; cbn; rewrite ?filter_app, Hl; [|done].
    split_and!; [done|done|]. by rewrite app_nil_r.
Qed.

Lemma run_abs os : ∀ a, no_skips a os = true → foldl run_step a os = foldl abs_step a os.
Proof.
  induction os as [|o os IH]; intros a Hn; [done|]. cbn in *. apply andb_prop in Hn as [Ho%negb_true_iff Hn].
  rewrite (run_abs_step a o Ho). by apply IH.
Qed.

Lemma runs_abs_states os : ∀ a b, same_states a b → same_states (foldl run_step a os) (foldl abs_step b os).
Proof. induction os as [|o os IH]; intros a b Hs; [done|]. cbn. by apply IH, run_abs_states. Qed.

Definition machine_of (a : AbsMachine) (m : Machine) : Prop :=
  let '(r, cu, ls) := m in
  sr_state r = Some (ab_cur a) ∧ sr_previous r = ab_prev a ∧ sr_next r = Some (ab_next a) ∧ ls = ab_labels a ∧
  queue_ok (sr_signals r) ∧ cu = caught_up r.

Lemma labels_register s n allow :
  labels_of register_state (mkSignal (Some s) (Some n) allow) = transition_labels s n allow.
Proof.
  unfold labels_of, transition_labels. cbn [register_state ph_exit ph_trans ph_enter run_exit run_enter run_transition].
  assert (Hb : identity_skipped (mkSignal (Some s) (Some n) allow) = bool_decide (s = n) && negb allow).
  { unfold identity_skipped. cbn [sg_entered sg_exited sg_allow_same]. f_equal. apply bool_decide_ext. split; congruence. }
  unfold run_exit, run_enter, run_transition. cbn [mbind option_bind]. rewrite Hb. by destruct (bool_decide (s = n) && negb allow).
Qed.

(** The apply system of a state that exists. *)
Lemma apply_existing (r : StateRes S) s n allow :
  sr_state r = Some s →
  let '(r', cs) := internal_apply_state_transition r (Some n) allow in
  let r'' := run_commands r' cs in
  sr_state r'' = Some n ∧ sr_previous r'' = Some s ∧ sr_next r'' = sr_next r ∧
  sr_signals r'' = snd (MessageQueue_write (sr_signals r) (mkSignal (Some s) (Some n) allow)).
Proof.
  intros Hs. unfold internal_apply_state_transition. rewrite Hs.
  assert (Heq : (if decide (s = n) then n else s) = s) by (by case_decide). rewrite Heq.
  unfold set_previous. cbn. destruct (sr_previous r); done.
Qed.

Lemma machine_step_ok a m o :
  machine_of a m → (counter (sr_signals m.1.1) < u64_max)%Z →
  ∃ m', machine_step m o = Ret m' ∧ machine_of (run_step a o) m' ∧
    (counter (sr_signals m.1.1) <= counter (sr_signals m'.1.1) <= counter (sr_signals m.1.1) + 1)%Z.
Proof.
  destruct m as [[r cu] ls]. cbn [fst]. intros (Hs & Hp & Hn & -> & Hok & ->) Hmax. destruct o as [s|s| | |]; cbn [machine_step run_step].
  - unfold set_next. rewrite Hn. eexists. split; [reflexivity|]. cbn. split; [done|lia].
  - unfold set_next. rewrite Hn. eexists. split; [reflexivity|]. cbn. split; [|lia]. split; [done|]. split; [done|]. split; [|done].
    f_equal. unfold NextState_set_if_neq. destruct (ab_next a) as [|t|t]; try done.
    case_decide as Hd; [subst; by rewrite bool_decide_true|]. by rewrite bool_decide_false by congruence.
  - unfold set_next. rewrite Hn. eexists. split; [reflexivity|]. cbn. split; [done|lia].
  - unfold manual_pass, apply_manual, take_next. rewrite Hn.
    assert (Hcase : ∀ n allow, let r0 := mkStateRes (sr_state r) (sr_previous r) (Some Unchanged) (sr_signals r) in
      ∃ m', ('(new, r, cu) ← (let '(r, cs) := internal_apply_state_transition r0 (Some n) allow in
               let r := run_commands r cs in '(ls, cu) ← run_phases debug register_state r (caught_up r0); Ret (ls, r, cu));
             Ret (r, cu, ab_labels a ++ new)) = Ret m' ∧
        machine_of (mkAbs n (Some (ab_cur a)) Unchanged (ab_labels a ++ transition_labels (ab_cur a) n allow)) m' ∧
        (counter (sr_signals m'.1.1) = counter (sr_signals r) + 1)%Z).
    { intros n allow r0. pose proof (apply_existing r0 (ab_cur a) n allow Hs) as Ha.
      destruct (internal_apply_state_transition r0 (Some n) allow) as [r1 cs]. cbv zeta in Ha |- *.
      destruct Ha as (Hs2 & Hp2 & Hn2 & Hq2). set (r2 := run_commands r1 cs) in *.
      destruct (iter_one debug (sr_signals r0) (mkSignal (Some (ab_cur a)) (Some n) allow) Hok Hmax) as (Hok2 & Hc2 & _). rewrite <- Hq2 in Hok2, Hc2.
      rewrite (phases_signal debug _ r0 r2 _ Hok Hmax Hq2). cbn [mbind outcome_bind]. eexists. split; [reflexivity|]. cbn [fst].
      rewrite labels_register. split; [|exact Hc2]. cbn. done. }
    change (caught_up r) with (caught_up (mkStateRes (sr_state r) (sr_previous r) (Some Unchanged) (sr_signals r))).
    destruct (ab_next a) as [|n|n] eqn:Hna; cbn [NextState_take].
    + cbn [run_commands foldl]. set (r0 := mkStateRes _ _ _ _). rewrite (phases_idle debug register_state r0 Hok). cbn [mbind outcome_bind].
      eexists. split; [reflexivity|]. cbn. rewrite app_nil_r. split; [|lia]. rewrite Hna. done.
    + destruct (Hcase n true) as (m' & H1 & H2 & H3). exists m'. split; [exact H1|]. split; [exact H2|lia].
    + destruct (Hcase n false) as (m' & H1 & H2 & H3). exists m'. split; [exact H1|]. split; [exact H2|lia].
  - destruct (MessageQueue_update_ok debug (sr_signals r) Hok) as (q & Hu & Hok' & _ & _ & Hc). rewrite Hu. cbn.
    eexists. split; [reflexivity|]. cbn. rewrite Hc. split; [|lia]. unfold caught_up, at_end. cbn. rewrite Hc. done.
Qed.
End manual.

Section manual_run.
Context {S : Type} `{EqDecision S}.
Variable debug : bool.

Lemma machine_run_ok os : ∀ (a : AbsMachine) (m : Machine (S := S)),
  machine_of a m → (counter (sr_signals m.1.1) + Z.of_nat (length os) <= u64_max)%Z →
  ∃ m', machine_run debug m os = Ret m' ∧ machine_of (foldl run_step a os) m'.
Proof.
  induction os as [|o os IH]; intros a m Hm Hc; cbn [machine_run foldl length] in *; [eauto|].
  destruct (machine_step_ok debug a m o Hm) as (m1 & -> & Hm1 & Hc1); [lia|]. cbn [mbind outcome_bind].
  destruct (IH _ m1 Hm1) as (m2 & Hr & Hm2); [lia|]. eauto.
Qed.

(** A freshly inserted state, with the cursors its systems get. *)
Definition machine_start (s : S) : Machine :=
  let c := MessageCursor_new (sr_signals (insert_state_new s)) in (insert_state_new s, mkCursors (c, c) (c, c) (c, c), []).

Lemma first_pass_ok s : ∃ m, machine_step debug (machine_start s) OpPass = Ret m ∧
  machine_of (mkAbs s None Unchanged [OnEnter s]) m ∧ counter (sr_signals m.1.1) = 1%Z.
Proof.
  set (r0 := mkStateRes (Some s) None (Some Unchanged) (@MessageQueue_default (StateTransitionSignal S))).
  pose proof (@queue_default_ok (StateTransitionSignal S)) as Hok0.
  assert (Hp : run_phases debug register_state (insert_state_new s) (caught_up r0)
    = Ret (labels_of register_state (mkSignal None (Some s) true), caught_up (insert_state_new s))) by (by apply phases_signal).
  destruct (iter_one debug (sr_signals r0) (mkSignal None (Some s) true) Hok0 eq_refl) as (Hok & Hc & _).
  exists (insert_state_new s, caught_up (insert_state_new s), labels_of register_state (mkSignal None (Some s) true)).
  split; [|done]. unfold machine_step, machine_start, manual_pass, apply_manual. cbn [take_next insert_state_new sr_next NextState_take].
  cbn [run_commands foldl]. change (mkCursors _ _ _) with (caught_up r0).
  change (mkStateRes (sr_state (insert_state_new s)) (sr_previous (insert_state_new s)) (Some Unchanged) (sr_signals (insert_state_new s)))
    with (insert_state_new s). rewrite Hp. done.
Qed.
End manual_run.

(** C28: A manual state machine refines the documented one.  After [insert_state] the
    first pass of [StateTransition] runs [OnEnter] of the initial state; from then
    on, for any sequence of requests ([set], [set_if_neq], [reset]), passes and
    message-queue updates, the current state, the pending request and the [OnExit]
    and [OnEnter] schedules run are those of the documented machine: each pass
    with a request moves to the requested state and runs [OnExit] of the old,
    [OnTransition] and [OnEnter] of the new state once and in this order, the last
    request before the pass counts, and a pass without one, or with [set_if_neq] of
    the current state, does nothing.  The previous state and the [OnTransition]
    schedules are those of the documented machine too when no pass meets a
    [set_if_neq] of the current state.  The bound is the width of the message
    counter. *)
Theorem manual_machine_refines {S} `{EqDecision S} (debug : bool) (s : S) (os : list StateOp) :
  (Z.of_nat (length os) < u64_max)%Z →
  ∃ m, machine_run debug (machine_start s) (OpPass :: os) = Ret m ∧
    let a0 := mkAbs s None Unchanged [OnEnter s] in
    let a := foldl abs_step a0 os in
    sr_state m.1.1 = Some (ab_cur a) ∧ sr_next m.1.1 = Some (ab_next a) ∧ state_labels m.2 = state_labels (ab_labels a) ∧
    (no_skips a0 os = true → sr_previous m.1.1 = ab_prev a ∧ m.2 = ab_labels a).
Proof.
  intros Hb. destruct (first_pass_ok debug s) as (m1 & H1 & Hm1 & Hc1). cbn [machine_run]. rewrite H1. cbn [mbind outcome_bind].
  destruct (machine_run_ok debug os _ m1 Hm1) as (m & Hr & Hm); [lia|]. exists m. split; [done|].
  set (a0 := mkAbs s None Unchanged [OnEnter s]) in *. cbn zeta.
  destruct (runs_abs_states os a0 a0) as (Ec & En & El); [done|]. destruct m as [[r cu] ls].
  destruct Hm as (Hs & Hp & Hn & -> & _). cbn [fst snd]. rewrite Hs, Hn, Hp, Ec, En. do 2 (split; [done|]). split; [exact El|].
  intros Hno. by rewrite (run_abs os a0 Hno).
Qed.

Lemma manual_machine_refines_witness :
  ∃ m, machine_run true (machine_start 1) [OpPass; OpSet 2; OpPass; OpUpdate; OpSetIfNeq 3; OpPass] = Ret m ∧
    sr_state m.1.1 = Some 3 ∧ m.2 = [OnEnter 1; OnExit 1; OnTransition 1 2; OnEnter 2; OnExit 2; OnTransition 2 3; OnEnter 3].
Proof.
  destruct (manual_machine_refines true 1 [OpSet 2; OpPass; OpUpdate; OpSetIfNeq 3; OpPass] eq_refl) as (m & Hr & Hs & _ & _ & Hl).
  exists m. split; [exact Hr|]. split; [exact Hs|exact (proj2 (Hl eq_refl))].
Defined.

(** [set_if_neq] of the current state still runs [OnTransition] and sets the
    previous state. *)
Lemma set_if_neq_runs_transition : ∃ m, machine_run true (machine_start 1) [OpPass; OpSetIfNeq 1; OpPass] = Ret m ∧
  m.2 = [OnEnter 1; OnTransition 1 1] ∧ sr_previous m.1.1 = Some 1.
Proof. eexists. split; [vm_compute; reflexivity|by vm_compute]. Qed.

(** ** Derived states *)

Section derived.
Context {S T : Type} `{EqDecision S, EqDecision T}.
Variable debug : bool.
Variable derive : option S → option T.
Variable allow_same : bool.

Lemma apply_state (t : StateRes T) new allow :
  let '(t', cs) := internal_apply_state_transition t new allow in
  sr_state (run_commands t' cs) = new ∧ sr_next (run_commands t' cs) = sr_next t.
Proof.
  unfold internal_apply_state_transition, set_previous. destruct new as [n|], (sr_state t) eqn:Hs; cbn; destruct (sr_previous t); cbn; rewrite ?Hs; done.
Qed.

(** The apply systems of a manual state and of a state derived from it; each
    system's commands run before the next system. *)
Definition DerivedMachine : Type := StateRes S * MessageCursor * StateRes T.

Definition derived_step (m : DerivedMachine) (o : @StateOp S) : outcome DerivedMachine :=
  let '(r, c, t) := m in
  match o with
  | OpSet s => r ← set_next r (λ n, NextState_set n s); Ret (r, c, t)
  | OpSetIfNeq s => r ← set_next r (λ n, NextState_set_if_neq n s); Ret (r, c, t)
  | OpReset => r ← set_next r NextState_reset; Ret (r, c, t)
  | OpPass =>
      let '(r, cs) := apply_manual r in
      let r := run_commands r cs in
      let '((t, ct), c) := apply_derived derive allow_same r c t in
      Ret (r, c, run_commands t ct)
  | OpUpdate => q ← MessageQueue_update debug (sr_signals r); Ret (mkStateRes (sr_state r) (sr_previous r) (sr_next r) q, c, t)
  end.

Fixpoint derived_run (m : DerivedMachine) (os : list StateOp) : outcome DerivedMachine :=
  match os with
  | [] => Ret m
  | o :: os => m ← derived_step m o; derived_run m os
  end.

Definition derived_ok (m : DerivedMachine) : Prop :=
  let '(r, c, t) := m in
  is_Some (sr_state r) ∧ is_Some (sr_next r) ∧ queue_ok (sr_signals r) ∧ c = at_end (sr_signals r) ∧ sr_state t = derive (sr_state r).

Lemma derive_unread (r0 r : StateRes S) sg t : queue_ok (sr_signals r0) → (counter (sr_signals r0) < u64_max)%Z →
  sr_signals r = snd (MessageQueue_write (sr_signals r0) sg) →
  apply_derived derive allow_same r (at_end (sr_signals r0)) t
  = (internal_apply_state_transition t (derive (sr_state r)) allow_same, at_end (sr_signals r)).
Proof.
  intros Hok Hmax Hr. destruct (iter_one debug (sr_signals r0) sg Hok Hmax) as (Hok' & Hc & _). rewrite <- Hr in Hok', Hc.
  unfold apply_derived. assert (He : MessageCursor_is_empty (at_end (sr_signals r0)) (sr_signals r) = false); [|by rewrite He].
  unfold MessageCursor_is_empty. cbn [at_end last_index]. rewrite Hc, (proj2 (Z.eqb_neq _ _)), orb_false_r by lia.
  unfold MessageQueue_is_empty. apply Z.eqb_neq. intros Hz. symmetry in Hz. apply Z.lor_eq_0_iff in Hz as [_ Hz].
  rewrite Hr in Hz. unfold seq_len in Hz. cbn [MessageQueue_write snd messages_b messages] in Hz. rewrite length_app in Hz. cbn in Hz. lia.
Qed.

Lemma derived_step_ok m o : derived_ok m → (counter (sr_signals m.1.1) < u64_max)%Z →
  ∃ m', derived_step m o = Ret m' ∧ derived_ok m' ∧
    (counter (sr_signals m.1.1) <= counter (sr_signals m'.1.1) <= counter (sr_signals m.1.1) + 1)%Z.
Proof.
  destruct m as [[r c] t]. cbn [fst]. intros ([s Hs] & [n Hn] & Hok & -> & Ht) Hmax.
  destruct o as [x|x| | |]; cbn [derived_step]; unfold set_next; rewrite ?Hn.
  - eexists. split; [reflexivity|]. cbn. split; [split_and!; eauto|lia].
  - eexists. split; [reflexivity|]. cbn. split; [split_and!; eauto|lia].
  - eexists. split; [reflexivity|]. cbn. split; [split_and!; eauto|lia].
  - unfold apply_manual, take_next. rewrite Hn.
    set (r0 := mkStateRes (sr_state r) (sr_previous r) (Some Unchanged) (sr_signals r)).
    assert (Hcase : ∀ x allow, ∃ m', (let '(r, cs) := internal_apply_state_transition r0 (Some x) allow in
        let r := run_commands r cs in
        let '((t, ct), c) := apply_derived derive allow_same r (at_end (sr_signals r0)) t in
        Ret (r, c, run_commands t ct)) = Ret m' ∧ derived_ok m' ∧ (counter (sr_signals m'.1.1) = counter (sr_signals r) + 1)%Z).
    { intros x allow. pose proof (apply_existing r0 s x allow Hs) as Ha. destruct (internal_apply_state_transition r0 (Some x) allow) as [r1 cs].
      cbv zeta in Ha |- *. destruct Ha as (Hs2 & Hp2 & Hn2 & Hq2). set (r2 := run_commands r1 cs) in *.
      destruct (iter_one debug (sr_signals r0) (mkSignal (Some s) (Some x) allow) Hok Hmax) as (Hok2 & Hc2 & _). rewrite <- Hq2 in Hok2, Hc2.
      rewrite (derive_unread r0 r2 _ t Hok Hmax Hq2). pose proof (apply_state t (derive (sr_state r2)) allow_same) as Hd.
      destruct (internal_apply_state_transition t _ _) as [t1 ct]. destruct Hd as [Hd _]. eexists. split; [reflexivity|]. cbn [fst].
      split; [|exact Hc2]. unfold derived_ok. split_and!; eauto. rewrite Hn2. cbn. eauto. }
    destruct n as [|x|x]; cbn [NextState_take].
    + cbn [run_commands foldl]. fold r0. unfold apply_derived. replace (MessageCursor_is_empty _ _) with true.
      * eexists. split; [reflexivity|]. cbn. split; [split_and!; eauto|lia].
      * unfold MessageCursor_is_empty. cbn. by rewrite Z.eqb_refl, orb_true_r.
    + destruct (Hcase x true) as (m' & H1 & H2 & H3). exists m'. split; [exact H1|]. split; [exact H2|lia].
    + destruct (Hcase x false) as (m' & H1 & H2 & H3). exists m'. split; [exact H1|]. split; [exact H2|lia].
  - destruct (MessageQueue_update_ok debug (sr_signals r) Hok) as (q & Hu & Hok' & _ & _ & Hc). rewrite Hu. cbn.
    eexists. split; [reflexivity|]. cbn. rewrite Hc. split; [|lia]. unfold at_end. cbn. rewrite Hc. split_and!; eauto.
Qed.

Lemma derived_run_ok os : ∀ m, derived_ok m → (counter (sr_signals m.1.1) + Z.of_nat (length os) <= u64_max)%Z →
  ∃ m', derived_run m os = Ret m' ∧ derived_ok m'.
Proof.
  induction os as [|o os IH]; intros m Hm Hc; cbn [derived_run length] in *; [eauto|].
  destruct (derived_step_ok m o Hm) as (m1 & -> & Hm1 & Hc1); [lia|]. cbn [mbind outcome_bind].
  destruct (IH m1 Hm1) as (m2 & Hr & Hm2); [lia|]. eauto.
Qed.
End derived.

(** The resources of a derived or sub-state that does not exist yet. *)
Definition absent {T} (next : option (NextState T)) : StateRes T := mkStateRes None None next MessageQueue_default.

(** A derived state always equals what its source derives.  After the first
    pass, and after any further sequence of requests on the source, passes and
    queue updates, [State<T>] holds exactly the value [derive] gives for the
    current source state, and does not exist when [derive] gives none. *)
Theorem derived_tracks_source {S T} `{EqDecision S, EqDecision T} (debug : bool) (derive : option S → option T) (allow_same : bool)
    (s : S) (os : list StateOp) :
  (Z.of_nat (length os) < u64_max)%Z →
  ∃ r c t, derived_run debug derive allow_same
      (insert_state_new s, MessageCursor_new (sr_signals (insert_state_new s)), absent None) (OpPass :: os) = Ret (r, c, t) ∧
    is_Some (sr_state r) ∧ sr_state t = derive (sr_state r).
Proof.
  intros Hb. set (r0 := mkStateRes (Some s) None (Some Unchanged) (@MessageQueue_default (StateTransitionSignal S))).
  pose proof (@queue_default_ok (StateTransitionSignal S)) as Hok0.
  destruct (iter_one debug (sr_signals r0) (mkSignal None (Some s) true) Hok0 eq_refl) as (Hok & Hc & _).
  pose proof (derive_unread debug derive allow_same r0 (insert_state_new s) (mkSignal None (Some s) true) (absent None) Hok0 eq_refl eq_refl) as Hd.
  pose proof (apply_state (absent None) (derive (Some s)) allow_same) as Ha.
  cbn [derived_run derived_step]. cbn [apply_manual take_next insert_state_new sr_next NextState_take run_commands foldl].
  change (MessageCursor_new _) with (at_end (sr_signals r0)).
  change (mkStateRes (sr_state (insert_state_new s)) (sr_previous (insert_state_new s)) (Some Unchanged) (sr_signals (insert_state_new s)))
    with (insert_state_new s). unfold apply_manual, take_next. cbn [insert_state_new sr_next NextState_take].
  change (mkStateRes (sr_state (insert_state_new s)) (sr_previous (insert_state_new s)) (Some Unchanged) (sr_signals (insert_state_new s)))
    with (insert_state_new s) in *. cbn [run_commands foldl]. rewrite Hd. cbn [sr_state insert_state_new].
  destruct (internal_apply_state_transition _ _ _) as [t1 ct]. destruct Ha as [Ha _]. cbn [mbind outcome_bind].
  edestruct (derived_run_ok debug derive allow_same os (insert_state_new s, at_end (sr_signals (insert_state_new s)), run_commands t1 ct))
    as ([[r c] t] & Hr & (H1 & _ & _ & _ & H5)); [|cbn [fst]; change (counter _) with 1%Z; lia|].
  - split_and!; eauto; by eexists.
  - exists r, c, t. split_and!; done.
Qed.

Lemma derived_tracks_source_witness :
  ∃ r c t, derived_run true (λ s, if decide (s = Some 2) then Some true else None) true
      (insert_state_new 1, MessageCursor_new (sr_signals (insert_state_new 1)), absent None) [OpPass; OpSet 2; OpPass] = Ret (r, c, t) ∧
    is_Some (sr_state r) ∧ sr_state t = if decide (sr_state r = Some 2) then Some true else None.
Proof. exact (derived_tracks_source true (λ s, if decide (s = Some 2) then Some true else None) true 1 [OpSet 2; OpPass] eq_refl). Defined.

(** ** Sub-states *)

Section sub.
Context {S T : Type} `{EqDecision T}.
Variable debug : bool.
Variable should_exist : option S → option T.

(** The value a sub-state has after its apply system and its commands. *)
Definition sub_value (changed : bool) (source : option S) (next : option (T * bool)) (current : option T) : option T :=
  match next, current with
  | Some (n, _), _ => Some n
  | None, Some c => Some c
  | None, None => if changed then should_exist source else None
  end.

Lemma sub_apply_state (source : StateRes S) (t : StateRes T) c q0 sg changed :
  queue_ok q0 → (counter q0 < u64_max)%Z → c = at_end q0 →
  sr_signals source = (if changed : bool then snd (MessageQueue_write q0 sg) else q0) →
  ∃ t' cs, apply_sub debug should_exist source c t = Ret ((t', cs), at_end (sr_signals source)) ∧
    sr_state (run_commands t' cs) = sub_value changed (sr_state source) (take_next t).1 (sr_state t).
Proof.
  intros Hok Hmax -> Hq. unfold apply_sub.
  assert (Hst : sr_state (take_next t).2 = sr_state t) by (unfold take_next; destruct (sr_next t) as [[]|]; done).
  assert (Hread : ∃ it, MessageWithKeyIter_new debug (at_end q0) (sr_signals source) = Ret it ∧
    MessageIterator_last it = (if changed then Some sg else None, at_end (sr_signals source))).
  { destruct changed; rewrite Hq.
    - destruct (iter_one debug q0 sg Hok Hmax) as (_ & Hc & Hit). eexists. split; [exact Hit|]. unfold MessageIterator_last, MessageWithKeyIter_last. cbn [chain last cursor unread].
      unfold at_end. rewrite Hc. cbn. unfold wadd64. rewrite Z.mod_small; [done|]. destruct Hok as [? ? ? ? _ _]. unfold seq_len, u64_max in *. lia.
    - eexists. split; [by apply iter_end|]. done. }
  destruct Hread as (it & -> & Hl). cbn [mbind outcome_bind]. rewrite Hl. destruct (take_next t) as [next t0]. cbn [fst snd] in *.
  destruct next as [[n allow]|]; [|destruct changed]; cbn [negb andb fmap option_fmap option_map fst snd].
  - rewrite andb_false_r. change (default false (Some allow)) with allow. pose proof (apply_state t0 (Some n) allow) as Ha.
    destruct (internal_apply_state_transition _ _ _) as [t1 cs]. exists t1, cs. split; [done|]. apply Ha.
  - rewrite Hst. change (default false None) with false.
    pose proof (apply_state t0 (match sr_state t with Some s => Some s | None => should_exist (sr_state source) end) false) as Ha.
    destruct (internal_apply_state_transition _ _ _) as [t1 cs]. exists t1, cs. split; [done|]. destruct Ha as [-> _]. by destruct (sr_state t).
  - exists t0, []. split; [done|]. cbn. rewrite Hst. by destruct (sr_state t).
Qed.
End sub.

(** What a sub-state becomes, on every branch of its apply system: a pending
    request wins, otherwise a sub-state that exists keeps its value, otherwise a
    change of the source creates it with the default [should_exist] gives; without
    a change of the source or a request nothing happens.  The system reads the
    source's signals up to the end. *)
Theorem sub_state_value {S T} `{EqDecision T} (debug : bool) (should_exist : option S → option T)
    (source : StateRes S) (t : StateRes T) q0 sg changed :
  queue_ok q0 → (counter q0 < u64_max)%Z →
  sr_signals source = (if changed : bool then snd (MessageQueue_write q0 sg) else q0) →
  ∃ t' cs, apply_sub debug should_exist source (at_end q0) t = Ret ((t', cs), at_end (sr_signals source)) ∧
    sr_state (run_commands t' cs) =
      match (take_next t).1, sr_state t with
      | Some (n, _), _ => Some n
      | None, Some c => Some c
      | None, None => if changed then should_exist (sr_state source) else None
      end.
Proof. intros Hok Hmax Hq. by apply (sub_apply_state debug should_exist source t (at_end q0) q0 sg changed). Qed.

(** A source state in the menu that just left the game. *)
Definition ex_source : StateRes bool :=
  mkStateRes (Some false) (Some true) (Some Unchanged) (snd (MessageQueue_write MessageQueue_default (mkSignal (Some true) (Some false) true))).
Definition ex_start : MessageCursor := mkCursor 0.
Definition ex_in_game (s : option bool) : option nat := if decide (s = Some true) then Some 0 else None.

Lemma sub_state_value_witness :
  ∃ t' cs, apply_sub true ex_in_game ex_source ex_start (absent (Some (Pending 3))) = Ret ((t', cs), at_end (sr_signals ex_source)) ∧
    sr_state (run_commands t' cs) = Some 3.
Proof.
  apply (sub_state_value true ex_in_game ex_source (absent (Some (Pending 3))) MessageQueue_default (mkSignal (Some true) (Some false) true) true).
  - apply queue_default_ok.
  - reflexivity.
  - reflexivity.
Defined.

(** A sub-state whose source no longer allows it stays, although the source
    changed: the table at the system and the documentation say it is removed. *)
Lemma sub_state_outlives_source :
  ∃ t' cs c, apply_sub true ex_in_game ex_source ex_start (mkStateRes (Some 5) None (Some Unchanged) MessageQueue_default)
    = Ret ((t', cs), c) ∧ ex_in_game (sr_state ex_source) = None ∧ sr_state (run_commands t' cs) = Some 5.
Proof. eexists _, _, _. split; [vm_compute; reflexivity|]. split; vm_compute; reflexivity. Qed.

(** A request creates a sub-state that should not exist. *)
Lemma sub_state_created_outside :
  ∃ t' cs c, apply_sub true ex_in_game ex_source (at_end (sr_signals ex_source)) (absent (Some (Pending 3)))
    = Ret ((t', cs), c) ∧ ex_in_game (sr_state ex_source) = None ∧ sr_state (run_commands t' cs) = Some 3.
Proof. eexists _, _, _. split; [vm_compute; reflexivity|]. split; vm_compute; reflexivity. Qed.

(** The schedules of a sub-state and of a state derived from a tuple run in the
    opposite order: entering before exiting. *)
Lemma sub_state_enters_before_exit {S} `{EqDecision S} (s n : S) : s ≠ n →
  labels_of register_sub_state (mkSignal (Some s) (Some n) true) = [OnEnter n; OnTransition s n; OnExit s] ∧
  labels_of register_derived_tuple (mkSignal (Some s) (Some n) true) = [OnEnter n; OnTransition s n; OnExit s] ∧
  labels_of register_derived_single (mkSignal (Some s) (Some n) true) = [OnExit s; OnTransition s n; OnEnter n].
Proof.
  intros Hne. unfold labels_of, register_sub_state, register_derived_tuple, register_derived_single, run_exit, run_enter, identity_skipped.
  cbn [ph_exit ph_trans ph_enter mbind option_bind sg_entered sg_exited sg_allow_same]. rewrite andb_false_r. done.
Qed.

(** A state derived from a derived state misses its source's creation when the
    commands of the source's apply system have not run yet, as between two
    non-exclusive systems of the multi-threaded executor. *)
Lemma derived_chain_stale :
  let base := insert_state_new true in
  let c := MessageCursor_new (sr_signals base) in
  let '((mid, mid_cs), _) := apply_derived (λ s : option bool, s) true base c (absent None) in
  let '((top, top_cs), c') := apply_derived (λ s : option bool, s) true mid ex_start (absent None) in
  sr_state (run_commands mid mid_cs) = Some true ∧ sr_state (run_commands top top_cs) = None ∧
  MessageCursor_is_empty c' (sr_signals (run_commands mid mid_cs)) = true.
Proof. vm_compute. done. Qed.
