(* ===== verification/Access.v ===== *)
(** * System access tables

    [crates/voker-ecs/src/system/access/]: what a system may read and write
    ([AccessParam], data.rs), which entities a query ranges over
    ([FilterParam], filter.rs), and the table a system registers its parameters
    in ([AccessTable], table.rs), from which the scheduler decides which
    systems may run in parallel.

    Component and resource identifiers are integers; hash sets and bit sets are
    finite sets; the hash map from filters to access is an association list
    with one entry per filter.  The hash of a filter is a parameter. *)

From Stdlib Require Import ZArith Lia.
From stdpp Require Import sorting.
From S2P Require Import Prelude.

(** ** Access to components *)

Record AccessParam := mkAccess {
  entity_mut : bool; entity_ref : bool; reading : gset Z; writing : gset Z
}.

Definition AccessParam_new : AccessParam := mkAccess false false ∅ ∅.

Definition AccessParam_can_entity_ref (self : AccessParam) : bool :=
  negb (entity_mut self) && bool_decide (writing self = ∅).

Definition AccessParam_can_entity_mut (self : AccessParam) : bool :=
  negb (entity_mut self) && negb (entity_ref self)
  && bool_decide (reading self = ∅) && bool_decide (writing self = ∅).

Definition AccessParam_can_reading (self : AccessParam) (id : Z) : bool :=
  negb (entity_mut self) && negb (bool_decide (id ∈ writing self)).

Definition AccessParam_can_writing (self : AccessParam) (id : Z) : bool :=
  negb (entity_mut self) && negb (entity_ref self) && negb (bool_decide (id ∈ reading self)).

Definition AccessParam_set_entity_ref (self : AccessParam) : bool * AccessParam :=
  if AccessParam_can_entity_ref self
  then (true, mkAccess (entity_mut self) true ∅ (writing self))
  else (false, mkAccess (entity_mut self) true (reading self) (writing self)).

Definition AccessParam_set_entity_mut (self : AccessParam) : bool * AccessParam :=
  if AccessParam_can_entity_mut self
  then (true, mkAccess true (entity_ref self) ∅ ∅)
  else (false, mkAccess true (entity_ref self) (reading self) (writing self)).

Definition AccessParam_set_reading (self : AccessParam) (id : Z) : bool * AccessParam :=
  let inserted := mkAccess (entity_mut self) (entity_ref self) ({[id]} ∪ reading self) (writing self) in
  if AccessParam_can_reading self id
  then (true, if entity_ref self then self else inserted)
  else (false, inserted).

Definition AccessParam_set_writing (self : AccessParam) (id : Z) : bool * AccessParam :=
  let inserted :=
    mkAccess (entity_mut self) (entity_ref self) ({[id]} ∪ reading self) ({[id]} ∪ writing self) in
  if AccessParam_can_writing self id then (true, inserted) else (false, inserted).

Definition AccessParam_is_read_only (self : AccessParam) : bool :=
  negb (entity_mut self) && bool_decide (writing self = ∅).

Definition AccessParam_parallelizable (self other : AccessParam) : bool :=
  if entity_mut self || entity_mut other then false
  else if entity_ref self then bool_decide (writing other = ∅)
  else if entity_ref other then bool_decide (writing self = ∅)
  else bool_decide (writing self ## reading other) && bool_decide (writing other ## reading self).

Definition AccessParam_force_reading (self : AccessParam) (id : Z) : AccessParam :=
  if negb (entity_mut self) && negb (entity_ref self)
  then mkAccess (entity_mut self) (entity_ref self) ({[id]} ∪ reading self) (writing self)
  else self.

Definition AccessParam_merge_with (self other : AccessParam) : AccessParam :=
  let em := entity_mut self || entity_mut other in
  let er := entity_ref self && entity_ref other in
  if em || er then mkAccess em er ∅ ∅
  else mkAccess em er (reading self ∪ reading other) (writing self ∪ writing other).

(** ** Filters *)

Record FilterParamBuilder := mkBuilder { b_with : gset Z; b_without : gset Z }.

Definition FilterParamBuilder_new : FilterParamBuilder := mkBuilder ∅ ∅.

Definition FilterParamBuilder_with (self : FilterParamBuilder) (id : Z) : FilterParamBuilder :=
  mkBuilder ({[id]} ∪ b_with self) (b_without self).

Definition FilterParamBuilder_without (self : FilterParamBuilder) (id : Z) : FilterParamBuilder :=
  mkBuilder (b_with self) ({[id]} ∪ b_without self).

Definition FilterParamBuilder_merge (self other : FilterParamBuilder) : option FilterParamBuilder :=
  if bool_decide (b_with self ## b_without other) && bool_decide (b_with other ## b_without self)
  then Some (mkBuilder (b_with self ∪ b_with other) (b_without self ∪ b_without other))
  else None.

Record FilterParam := mkFilter { f_hash : Z; with_len : nat; f_params : list Z }.

#[global] Instance FilterParam_eq_dec : EqDecision FilterParam.
Proof. solve_decision. Defined.

(** Iteration order of a [BTreeSet]. *)
Definition ascending (s : gset Z) : list Z := merge_sort Z.le (elements s).

Definition FilterParamBuilder_build (hash : nat → list Z → Z) (self : FilterParamBuilder)
    : option FilterParam :=
  if bool_decide (b_with self ## b_without self) then
    let with_len := size (b_with self) in
    let params := ascending (b_with self) ++ ascending (b_without self) in
    Some (mkFilter (hash with_len params) with_len params)
  else None.

Definition FilterParam_with (self : FilterParam) : list Z := take (with_len self) (f_params self).

Definition FilterParam_without (self : FilterParam) : list Z := drop (with_len self) (f_params self).

Definition contains_component (id : Z) (slice : list Z) : bool := bool_decide (id ∈ slice).

Definition FilterParam_is_disjoint (self other : FilterParam) : bool :=
  existsb (λ id, contains_component id (FilterParam_with other)) (FilterParam_without self)
  || existsb (λ id, contains_component id (FilterParam_with self)) (FilterParam_without other).

(** ** Tables *)

Record AccessTable := mkAccessTable {
  world_mut : bool; world_ref : bool;
  res_reading : gset Z; res_writing : gset Z;
  filter_map : list (FilterParam * AccessParam)
}.

Definition AccessTable_new : AccessTable := mkAccessTable false false ∅ ∅ [].

Definition AccessTable_can_world_mut (self : AccessTable) : bool :=
  negb (world_mut self) && negb (world_ref self)
  && bool_decide (res_reading self = ∅) && bool_decide (res_writing self = ∅)
  && match filter_map self with [] => true | _ => false end.

Definition AccessTable_can_world_ref (self : AccessTable) : bool :=
  negb (world_mut self) && bool_decide (res_writing self = ∅)
  && forallb AccessParam_is_read_only (filter_map self).*2.

Definition AccessTable_set_world_mut (self : AccessTable) : bool * AccessTable :=
  if AccessTable_can_world_mut self then (true, mkAccessTable true false ∅ ∅ [])
  else (false, mkAccessTable true (world_ref self) (res_reading self) (res_writing self)
                 (filter_map self)).

Definition AccessTable_set_world_ref (self : AccessTable) : bool * AccessTable :=
  if AccessTable_can_world_ref self
  then (true, if world_ref self then self else mkAccessTable false true ∅ ∅ [])
  else (false, mkAccessTable (world_mut self) true (res_reading self) (res_writing self)
                 (filter_map self)).

Definition AccessTable_can_reading_res (self : AccessTable) (id : Z) : bool :=
  world_ref self || (negb (world_mut self) && negb (bool_decide (id ∈ res_writing self))).

Definition AccessTable_can_writing_res (self : AccessTable) (id : Z) : bool :=
  negb (world_ref self) && negb (world_mut self) && negb (bool_decide (id ∈ res_reading self)).

Definition AccessTable_set_reading_res (self : AccessTable) (id : Z) : bool * AccessTable :=
  let inserted := mkAccessTable (world_mut self) (world_ref self) ({[id]} ∪ res_reading self)
                    (res_writing self) (filter_map self) in
  if AccessTable_can_reading_res self id
  then (true, if world_ref self then self else inserted) else (false, inserted).

Definition AccessTable_set_writing_res (self : AccessTable) (id : Z) : bool * AccessTable :=
  let inserted := mkAccessTable (world_mut self) (world_ref self) ({[id]} ∪ res_reading self)
                    ({[id]} ∪ res_writing self) (filter_map self) in
  if AccessTable_can_writing_res self id then (true, inserted) else (false, inserted).

Definition AccessTable_can_query (self : AccessTable) (data : AccessParam) (params : list FilterParam)
    : bool :=
  if world_mut self then false
  else if world_ref self then AccessParam_is_read_only data
  else forallb (λ param, forallb (λ kv : FilterParam * AccessParam,
         if FilterParam_is_disjoint kv.1 param then true
         else AccessParam_parallelizable data kv.2) (filter_map self)) params.

(** [get_mut(param)] then [merge_with], or [insert]. *)
Fixpoint filter_merge (m : list (FilterParam * AccessParam)) (param : FilterParam) (data : AccessParam)
    : list (FilterParam * AccessParam) :=
  match m with
  | [] => [(param, data)]
  | (k, v) :: m' =>
      if decide (k = param) then (k, AccessParam_merge_with v data) :: m'
      else (k, v) :: filter_merge m' param data
  end.

Definition AccessTable_set_query (self : AccessTable) (data : AccessParam) (params : list FilterParam)
    : bool * AccessTable :=
  let merged := mkAccessTable (world_mut self) (world_ref self) (res_reading self) (res_writing self)
                  (foldl (λ m param, filter_merge m param data) (filter_map self) params) in
  if AccessTable_can_query self data params
  then (true, if world_ref self then self else merged) else (false, merged).

Definition AccessTable_parallelizable (self other : AccessTable) : bool :=
  if world_mut self || world_mut other then false
  else if negb (bool_decide (res_writing self ## res_reading other))
       || negb (bool_decide (res_writing other ## res_reading self)) then false
  else forallb (λ kv : FilterParam * AccessParam, forallb (λ xy : FilterParam * AccessParam,
         if FilterParam_is_disjoint kv.1 xy.1 then true
         else AccessParam_parallelizable kv.2 xy.2) (filter_map other)) (filter_map self).

Definition AccessTable_merge (self other : AccessTable) : AccessTable :=
  let wm := world_mut self || world_mut other in
  let wr := world_ref self || world_ref other in
  if wm then mkAccessTable wm wr ∅ ∅ []
  else mkAccessTable wm wr (res_reading self ∪ res_reading other)
         (res_writing self ∪ res_writing other)
         (foldl (λ m kv, filter_merge m kv.1 kv.2) (filter_map self) (filter_map other)).

(** ** Meaning

    One access a running system makes: to a resource, or to component [c] of
    an entity whose component set is [ent]. *)

Inductive access :=
| ARes (w : bool) (r : Z)
| AComp (w : bool) (ent : gset Z) (c : Z).

(** The entities a filter ranges over. *)
Definition matches (f : FilterParam) (ent : gset Z) : Prop :=
  (∀ c, c ∈ FilterParam_with f → c ∈ ent) ∧ (∀ c, c ∈ FilterParam_without f → c ∉ ent).

Definition param_allows (p : AccessParam) (w : bool) (c : Z) : Prop :=
  entity_mut p = true ∨
  if w then c ∈ writing p else entity_ref p = true ∨ c ∈ reading p.

Definition allows (t : AccessTable) (a : access) : Prop :=
  world_mut t = true ∨
  match a with
  | ARes w r => if w then r ∈ res_writing t else world_ref t = true ∨ r ∈ res_reading t
  | AComp w ent c =>
      (w = false ∧ world_ref t = true) ∨
      ∃ f p, (f, p) ∈ filter_map t ∧ matches f ent ∧ param_allows p w c
  end.

(** Two accesses to the same place, at least one of them a write. *)
Definition conflict (a b : access) : Prop :=
  match a, b with
  | ARes w r, ARes w' r' => r = r' ∧ (w || w') = true
  | AComp w ent c, AComp w' ent' c' => ent = ent' ∧ c = c' ∧ (w || w') = true
  | _, _ => False
  end.

(** Writers are readers, and whoever reads whole entities writes nothing: the
    form every accepted registration keeps. *)
Definition param_ok (p : AccessParam) : Prop :=
  writing p ⊆ reading p ∧ (entity_ref p = true → writing p = ∅).

Definition table_wf (t : AccessTable) : Prop :=
  res_writing t ⊆ res_reading t ∧ Forall (λ kv, param_ok kv.2) (filter_map t) ∧
  NoDup (filter_map t).*1.

(** ** Filters *)

Lemma ascending_elem s x : x ∈ ascending s ↔ x ∈ s.
Proof. unfold ascending. rewrite merge_sort_Permutation. apply elem_of_elements. Qed.

Lemma ascending_length s : length (ascending s) = size s.
Proof. unfold ascending. by rewrite merge_sort_Permutation. Qed.

Lemma build_spec hash b f :
  FilterParamBuilder_build hash b = Some f →
  b_with b ## b_without b ∧
  (∀ x, x ∈ FilterParam_with f ↔ x ∈ b_with b) ∧ (∀ x, x ∈ FilterParam_without f ↔ x ∈ b_without b).
Proof.
  unfold FilterParamBuilder_build. case_bool_decide as Hd; [|done]. intros [= <-].
  unfold FilterParam_with, FilterParam_without. cbn.
  rewrite <- ascending_length, take_app_length, drop_app_length.
  split; [done|]. split; intros; apply ascending_elem.
Qed.

Lemma is_disjoint_spec f g :
  FilterParam_is_disjoint f g = true ↔
  ∃ x, (x ∈ FilterParam_without f ∧ x ∈ FilterParam_with g) ∨
       (x ∈ FilterParam_without g ∧ x ∈ FilterParam_with f).
Proof.
  unfold FilterParam_is_disjoint, contains_component. rewrite orb_true_iff, !existsb_exists.
  setoid_rewrite bool_decide_eq_true. setoid_rewrite <- list_elem_of_In. naive_solver.
Qed.

(** Filters reported disjoint share no entity. *)
Lemma is_disjoint_sound f g ent :
  FilterParam_is_disjoint f g = true → matches f ent → matches g ent → False.
Proof.
  rewrite is_disjoint_spec. intros (x & [[H1 H2]|[H1 H2]]) [Hf Hf'] [Hg Hg']; naive_solver.
Qed.

Lemma is_disjoint_sym f g : FilterParam_is_disjoint f g = FilterParam_is_disjoint g f.
Proof. unfold FilterParam_is_disjoint. apply orb_comm. Qed.

(** ** Parameters *)

Lemma param_parallel_sound p p' w w' c :
  param_ok p → param_ok p' → AccessParam_parallelizable p p' = true →
  param_allows p w c → param_allows p' w' c → (w || w') = true → False.
Proof.
  unfold AccessParam_parallelizable, param_allows, param_ok.
  intros [Hp He] [Hp' He'] Hpar Ha Ha' Hw.
  destruct (entity_mut p), (entity_mut p'); try done. cbn in Hpar.
  destruct Ha as [Ha|Ha]; [done|]. destruct Ha' as [Ha'|Ha']; [done|].
  assert (Hw' : (w = true ∧ c ∈ writing p) ∨ (w' = true ∧ c ∈ writing p')).
  { destruct w; [by left|]. destruct w'; [by right|done]. }
  assert (Hr : c ∈ reading p ∨ entity_ref p = true) by (destruct w; naive_solver).
  assert (Hr' : c ∈ reading p' ∨ entity_ref p' = true) by (destruct w'; naive_solver).
  destruct (entity_ref p) eqn:E.
  - apply bool_decide_eq_true in Hpar. rewrite Hpar, (He eq_refl), !elem_of_empty in Hw'. tauto.
  - destruct (entity_ref p') eqn:E'.
    + apply bool_decide_eq_true in Hpar. rewrite Hpar, (He' eq_refl), !elem_of_empty in Hw'. tauto.
    + apply andb_true_iff in Hpar as [H1%bool_decide_eq_true H2%bool_decide_eq_true].
      destruct Hr as [Hr|?]; [|done]. destruct Hr' as [Hr'|?]; [|done].
      destruct Hw' as [[_ Hc]|[_ Hc]]; [by apply (H1 c)|by apply (H2 c)].
Qed.

Lemma param_ok_parallel_merge p p' :
  param_ok p → param_ok p' → AccessParam_parallelizable p p' = true →
  param_ok (AccessParam_merge_with p p').
Proof.
  intros [Hp He] [Hp' He'] Hpar. unfold AccessParam_merge_with, param_ok.
  destruct (entity_mut p || entity_mut p' || entity_ref p && entity_ref p') eqn:E; cbn; [done|].
  apply orb_false_iff in E as [_ E]. rewrite E. split; [set_solver|done].
Qed.

(** Merging keeps every access, unless exactly one side reads whole entities
    and neither has mutable access to them. *)
Lemma merge_with_allows p p' w c :
  entity_mut p = true ∨ entity_mut p' = true ∨ entity_ref p = entity_ref p' →
  param_ok p → param_ok p' →
  param_allows p w c ∨ param_allows p' w c → param_allows (AccessParam_merge_with p p') w c.
Proof.
  intros Hm [Hp He] [Hp' He']. unfold AccessParam_merge_with, param_allows.
  destruct (entity_mut p), (entity_mut p'); cbn; auto.
  destruct Hm as [?|[?|Hm]]; [done|done|]. rewrite <- Hm in *.
  destruct (entity_ref p); cbn.
  - rewrite (He eq_refl), (He' eq_refl). destruct w; [set_solver|]. auto.
  - destruct w; set_solver.
Qed.

(** ** The filter map *)

Lemma filter_merge_elem m param data f p :
  (f, p) ∈ filter_merge m param data →
  (f, p) ∈ m ∨ (f = param ∧ (p = data ∨ ∃ v, (f, v) ∈ m ∧ p = AccessParam_merge_with v data)).
Proof.
  induction m as [|[k v] m IH]; cbn; [set_solver|].
  destruct (decide (k = param)) as [->|Hne]; rewrite !elem_of_cons.
  - intros [[= -> ->]|Hin]; [|by auto]. right. split; [done|]. right. exists v. set_solver.
  - intros [[= -> ->]|Hin]; [by auto|]. destruct (IH Hin) as [?|(-> & [->|(v' & ? & ->)])]; eauto 10.
    right. split; [done|]. right. exists v'. set_solver.
Qed.

Lemma filter_merge_other m param data f p :
  (f, p) ∈ m → f ≠ param → (f, p) ∈ filter_merge m param data.
Proof.
  induction m as [|[k v] m IH]; cbn; [set_solver|]. rewrite elem_of_cons.
  intros [[= -> ->]|Hin] Hne.
  - rewrite decide_False by done. set_solver.
  - case_decide; set_solver.
Qed.

Lemma filter_merge_keys m param data f :
  f ∈ (filter_merge m param data).*1 ↔ f = param ∨ f ∈ m.*1.
Proof.
  induction m as [|[k v] m IH]; cbn; [set_solver|].
  case_decide; cbn; rewrite ?elem_of_cons; [set_solver|]. rewrite IH. tauto.
Qed.

Lemma filter_merge_NoDup m param data :
  NoDup m.*1 → NoDup (filter_merge m param data).*1.
Proof.
  induction m as [|[k v] m IH]; cbn; [constructor; [set_solver|constructor]|].
  rewrite NoDup_cons. intros [Hk Hm]. case_decide; cbn; apply NoDup_cons; split; auto.
  rewrite filter_merge_keys. naive_solver.
Qed.

Lemma filter_merge_same m param data :
  NoDup m.*1 →
  ∃ p, (param, p) ∈ filter_merge m param data ∧
       ((p = data ∧ param ∉ m.*1) ∨
        ∃ v, (param, v) ∈ m ∧ p = AccessParam_merge_with v data).
Proof.
  induction m as [|[k v] m IH]; cbn.
  - intros _. exists data. set_solver.
  - rewrite NoDup_cons. intros [Hk Hm]. case_decide; subst.
    + exists (AccessParam_merge_with v data). split; [set_solver|]. right. exists v. set_solver.
    + destruct (IH Hm) as (p & Hin & Hp). exists p. split; [set_solver|].
      destruct Hp as [[-> Hni]|(v' & ? & ->)]; [|right; exists v'; set_solver].
      left. split; [done|]. set_solver.
Qed.

Lemma filter_merge_ok m param data :
  Forall (λ kv, param_ok kv.2) m → param_ok data →
  Forall (λ kv, param_ok kv.2) (filter_merge m param data).
Proof.
  intros Hm Hd. rewrite Forall_forall in *. intros [f p] Hin.
  apply filter_merge_elem in Hin as [Hin|(-> & [->|(v & Hv & ->)])]; cbn; [by apply (Hm (f, p))|done|].
  specialize (Hm (param, v) Hv). cbn in Hm. destruct Hm as [H1 H2], Hd as [H3 H4].
  unfold AccessParam_merge_with, param_ok.
  destruct (entity_mut v || entity_mut data || entity_ref v && entity_ref data) eqn:E; cbn; [done|].
  apply orb_false_iff in E as [_ E]. rewrite E. split; [set_solver|done].
Qed.

Definition map_allows (m : list (FilterParam * AccessParam)) (ent : gset Z) (w : bool) (c : Z) : Prop :=
  ∃ f p, (f, p) ∈ m ∧ matches f ent ∧ param_allows p w c.

(** The entry a new access merges into reads whole entities iff the new access
    does, or one of them has mutable access to them. *)
Definition agree (m : list (FilterParam * AccessParam)) (kv : FilterParam * AccessParam) : Prop :=
  ∀ v, (kv.1, v) ∈ m →
       entity_mut v = true ∨ entity_mut kv.2 = true ∨ entity_ref v = entity_ref kv.2.

Lemma filter_merge_allows m param data ent w c :
  NoDup m.*1 → Forall (λ kv, param_ok kv.2) m → param_ok data → agree m (param, data) →
  map_allows m ent w c ∨ (matches param ent ∧ param_allows data w c) →
  map_allows (filter_merge m param data) ent w c.
Proof.
  intros Hnd Hm Hd Hag. rewrite Forall_forall in Hm.
  destruct (filter_merge_same m param data Hnd) as (p & Hin & Hp).
  intros [(f & v & Hv & Hf & Ha)|[Hf Ha]].
  - destruct (decide (f = param)) as [->|Hne]; [|exists f, v; auto using filter_merge_other].
    exists param, p. split; [done|]. split; [done|].
    destruct Hp as [[-> Hni]|(v' & Hv' & ->)].
    { destruct Hni. apply list_elem_of_fmap. by exists (param, v). }
    assert (v' = v) as ->.
    { apply list_elem_of_lookup in Hv as [i Hi], Hv' as [j Hj].
      assert (i = j) as ->; [|by simplify_eq].
      eapply (NoDup_lookup m.*1); [done|..]; rewrite list_lookup_fmap; [rewrite Hi|rewrite Hj]; done. }
    apply merge_with_allows; auto. apply (Hm (param, v) Hv).
  - exists param, p. split; [done|]. split; [done|].
    destruct Hp as [[-> Hni]|(v & Hv & ->)]; [done|].
    apply merge_with_allows; auto. apply (Hm (param, v) Hv).
Qed.

Lemma agree_preserved m kv kv' :
  NoDup m.*1 → (kv.1 = kv'.1 → kv = kv') → agree m kv → agree m kv' →
  agree (filter_merge m kv.1 kv.2) kv'.
Proof.
  destruct kv as [f p], kv' as [f' p']. cbn. intros Hnd Hfun Hag Hag' v Hin. cbn in *.
  apply filter_merge_elem in Hin as [Hin|(-> & [->|(v' & Hv' & ->)])]; [by apply Hag'|..];
    specialize (Hfun eq_refl); simplify_eq.
  - auto.
  - specialize (Hag v' Hv'). cbn in Hag. unfold AccessParam_merge_with.
    destruct (entity_mut v') eqn:E1, (entity_mut p') eqn:E2; cbn; auto.
    destruct Hag as [?|[?| ->]]; [done|done|].
    destruct (entity_ref p'); cbn; auto.
Qed.

Lemma fold_merge_allows kvs : ∀ m,
  NoDup m.*1 → Forall (λ kv, param_ok kv.2) m → Forall (λ kv, param_ok kv.2) kvs →
  (∀ kv kv', kv ∈ kvs → kv' ∈ kvs → kv.1 = kv'.1 → kv = kv') →
  let m' := foldl (λ m kv, filter_merge m kv.1 kv.2) m kvs in
  NoDup m'.*1 ∧ Forall (λ kv, param_ok kv.2) m' ∧
  (Forall (agree m) kvs →
   ∀ ent w c, map_allows m ent w c ∨ map_allows kvs ent w c → map_allows m' ent w c).
Proof.
  induction kvs as [|[f p] kvs IH]; intros m Hnd Hm Hk Hfun; cbn.
  - split; [done|]. split; [done|]. intros _ ent w c [?|(f & p & Hin & _)]; [done|set_solver].
  - apply Forall_cons in Hk as [Hp Hk]. cbn in Hp.
    destruct (IH (filter_merge m f p)) as (Hnd' & Hm' & Hall).
    + by apply filter_merge_NoDup.
    + by apply filter_merge_ok.
    + done.
    + intros kv kv' H1 H2. apply Hfun; set_solver.
    + split; [done|]. split; [done|]. intros Hag ent w c Hor.
      apply Forall_cons in Hag as [Ha Hag]. apply Hall.
      * rewrite Forall_forall in Hag |- *. intros kv Hin.
        apply (agree_preserved m (f, p)); auto. apply Hfun; set_solver.
      * destruct Hor as [Hor|(f' & p' & Hin & Hf & Hpa)].
        { left. apply filter_merge_allows; auto. }
        rewrite elem_of_cons in Hin. destruct Hin as [[= -> ->]|Hin].
        { left. apply filter_merge_allows; auto. }
        right. exists f', p'. auto.
Qed.

(** ** Theorems *)

Lemma not_disjoint (X Y : gset Z) : ¬ X ## Y → ∃ x, x ∈ X ∧ x ∈ Y.
Proof.
  intros Hn. destruct (set_choose_or_empty (X ∩ Y)) as [[x Hx]|He].
  - exists x. by apply elem_of_intersection.
  - destruct Hn. intros x Hx Hy. apply (not_elem_of_empty (C := gset Z) x), He. by apply elem_of_intersection.
Qed.

Lemma builder_merge_None b b' :
  FilterParamBuilder_merge b b' = None ↔
  ∃ x, (x ∈ b_with b ∧ x ∈ b_without b') ∨ (x ∈ b_with b' ∧ x ∈ b_without b).
Proof.
  unfold FilterParamBuilder_merge.
  case_bool_decide as H1; case_bool_decide as H2; cbn; split; try done.
  - intros (x & [[? ?]|[? ?]]); [by destruct (H1 x)|by destruct (H2 x)].
  - intros _. destruct (not_disjoint (b_with b') (b_without b)) as (x & ? & ?); eauto.
  - intros _. destruct (not_disjoint (b_with b) (b_without b')) as (x & ? & ?); eauto.
  - intros _. destruct (not_disjoint (b_with b) (b_without b')) as (x & ? & ?); eauto.
Qed.

Lemma matches_build hash b f :
  FilterParamBuilder_build hash b = Some f →
  ∀ ent, matches f ent ↔ (∀ c, c ∈ b_with b → c ∈ ent) ∧ (∀ c, c ∈ b_without b → c ∉ ent).
Proof.
  intros (_ & Hw & Hwo)%build_spec ent. unfold matches.
  setoid_rewrite Hw. setoid_rewrite Hwo. done.
Qed.

(** Two filters built from builders are reported disjoint exactly when no
    component set satisfies both; and merging two builders describes exactly
    the entities both describe, failing only when there are none. *)
Theorem filter_disjoint_exact hash b b' f g :
  FilterParamBuilder_build hash b = Some f → FilterParamBuilder_build hash b' = Some g →
  (FilterParam_is_disjoint f g = true ↔ ∀ ent, ¬ (matches f ent ∧ matches g ent)) ∧
  match FilterParamBuilder_merge b b' with
  | Some m => ∃ h, FilterParamBuilder_build hash m = Some h ∧
                   ∀ ent, matches h ent ↔ matches f ent ∧ matches g ent
  | None => FilterParam_is_disjoint f g = true
  end.
Proof.
  intros Hf Hg. destruct (build_spec _ _ _ Hf) as (Hd & Hw & Hwo).
  destruct (build_spec _ _ _ Hg) as (Hd' & Hw' & Hwo').
  pose proof (matches_build _ _ _ Hf) as Mf. pose proof (matches_build _ _ _ Hg) as Mg.
  assert (Hmerge : FilterParamBuilder_merge b b' = None ↔ FilterParam_is_disjoint f g = true).
  { rewrite builder_merge_None, is_disjoint_spec.
    setoid_rewrite Hw. setoid_rewrite Hw'. setoid_rewrite Hwo. setoid_rewrite Hwo'. naive_solver. }
  unfold FilterParamBuilder_merge in *.
  destruct (bool_decide _ && _) eqn:E.
  - apply andb_true_iff in E as [E1%bool_decide_eq_true E2%bool_decide_eq_true]. split.
    + split; [by intros ?%Hmerge|]. intros Hno. exfalso. apply (Hno (b_with b ∪ b_with b')).
      rewrite Mf, Mg. setoid_rewrite elem_of_union. split; split; intros c Hc; auto.
      * intros [?|?]; [by apply (Hd c)|by apply (E2 c)].
      * intros [?|?]; [by apply (E1 c)|by apply (Hd' c)].
    + destruct (FilterParamBuilder_build hash
        (mkBuilder (b_with b ∪ b_with b') (b_without b ∪ b_without b'))) as [h|] eqn:Eh.
      * exists h. split; [done|]. intros ent. rewrite (matches_build _ _ _ Eh), Mf, Mg. cbn.
        setoid_rewrite elem_of_union. naive_solver.
      * unfold FilterParamBuilder_build in Eh. cbn in Eh. case_bool_decide as Hn; [done|].
        destruct Hn. intros x. rewrite !elem_of_union.
        intros [?|?] [?|?]; [by apply (Hd x)|by apply (E1 x)|by apply (E2 x)|by apply (Hd' x)].
  - split; [|by apply Hmerge]. split; [|by intros _; apply Hmerge].
    intros Hdis ent [H1 H2]. by eapply is_disjoint_sound.
Qed.

(** Parallelizable tables admit no conflicting accesses. *)
Lemma parallel_no_conflict t t' :
  table_wf t → table_wf t' → world_ref t = false → world_ref t' = false →
  AccessTable_parallelizable t t' = true →
  ∀ a b, allows t a → allows t' b → ¬ conflict a b.
Proof.
  intros (Hr & Hm & _) (Hr' & Hm' & _) Hwr Hwr' Hpar a b Ha Hb Hc.
  unfold AccessTable_parallelizable in Hpar.
  destruct (world_mut t) eqn:E1; [done|]. destruct (world_mut t') eqn:E2; [done|]. cbn in Hpar.
  destruct (bool_decide_reflect (res_writing t ## res_reading t')) as [D1|]; [|done].
  destruct (bool_decide_reflect (res_writing t' ## res_reading t)) as [D2|]; [|done].
  cbn in Hpar. rewrite forallb_forall in Hpar. rewrite Forall_forall in Hm, Hm'.
  unfold allows in Ha, Hb. rewrite E1, Hwr in Ha. rewrite E2, Hwr' in Hb.
  destruct Ha as [?|Ha]; [done|]. destruct Hb as [?|Hb]; [done|].
  destruct a as [w r|w ent c], b as [w' r'|w' ent' c']; cbn in Hc; try done.
  - destruct Hc as [<- Hw]. destruct w, w'; try done.
    + apply (D1 r); auto.
    + destruct Hb as [?|Hb]; [done|]. by apply (D1 r).
    + destruct Ha as [?|Ha]; [done|]. by apply (D2 r).
  - destruct Hc as (<- & <- & Hw).
    destruct Ha as [[_ ?]|(f & p & Hin & Hf & Hp)]; [done|].
    destruct Hb as [[_ ?]|(f' & p' & Hin' & Hf' & Hp')]; [done|].
    specialize (Hpar (f, p) ltac:(by apply list_elem_of_In)). rewrite forallb_forall in Hpar.
    specialize (Hpar (f', p') ltac:(by apply list_elem_of_In)). cbn in Hpar.
    destruct (FilterParam_is_disjoint f f') eqn:Ed; [by eapply is_disjoint_sound|].
    eapply (param_parallel_sound p p'); eauto; [apply (Hm _ Hin)|apply (Hm' _ Hin')].
Qed.

(** C14: The scheduler's conflict test is sound for tables without whole-world
    references: if two well-formed tables are parallelizable, no access one
    system may make conflicts with an access the other may make. *)
Theorem parallelizable_sound t t' :
  table_wf t → table_wf t' → world_ref t = false → world_ref t' = false →
  AccessTable_parallelizable t t' = true →
  ∀ a b, allows t a → allows t' b → ¬ conflict a b.
Proof. apply parallel_no_conflict. Qed.

(** What a query with access [data] over the filters [params] does. *)
Definition query_access (data : AccessParam) (params : list FilterParam) (a : access) : Prop :=
  match a with
  | ARes _ _ => False
  | AComp w ent c => ∃ f, f ∈ params ∧ matches f ent ∧ param_allows data w c
  end.

(** A reference to the whole world leaves the rest of the table empty. *)
Definition world_ref_alone (t : AccessTable) : Prop :=
  world_ref t = true → res_writing t = ∅ ∧ filter_map t = [].

Lemma fold_params m data params :
  foldl (λ m param, filter_merge m param data) m params
  = foldl (λ m kv, filter_merge m kv.1 kv.2) m ((λ f, (f, data)) <$> params).
Proof. revert m. induction params as [|f params IH]; intros m; cbn; auto. Qed.

(** An accepted query cannot alias what the same system already holds: no
    access the table allowed conflicts with one the query makes.  The table
    stays well formed and, as long as whole-entity references are not merged
    with plain reads on one filter, allows everything it allowed before and
    everything the query does. *)
Theorem set_query_sound t data params t' :
  table_wf t → world_ref_alone t → param_ok data →
  AccessTable_set_query t data params = (true, t') →
  (∀ a b, allows t a → query_access data params b → ¬ conflict a b) ∧
  table_wf t' ∧
  (Forall (λ f, agree (filter_map t) (f, data)) params →
   ∀ a, allows t a ∨ query_access data params a → allows t' a).
Proof.
  intros Hwf Hwr Hd Hset. pose proof Hwf as (Hr & Hm & Hnd).
  unfold AccessTable_set_query in Hset.
  destruct (AccessTable_can_query t data params) eqn:Hcan; [|done]. injection Hset as <-.
  unfold AccessTable_can_query in Hcan. destruct (world_mut t) eqn:Ewm; [done|].
  destruct (world_ref t) eqn:Ewr.
  - destruct (Hwr Ewr) as [Hrw Hfm]. unfold AccessParam_is_read_only in Hcan.
    apply andb_true_iff in Hcan as [Hem Hwe%bool_decide_eq_true]. apply negb_true_iff in Hem.
    assert (Hro : ∀ w ent c, query_access data params (AComp w ent c) → w = false).
    { intros [] ent c; [|done]. intros (f & _ & _ & Hp). unfold param_allows in Hp.
      rewrite Hem, Hwe in Hp. by destruct Hp as [?|?%elem_of_empty]. }
    split; [|split; [done|]].
    + intros a [|w' ent' c'] Ha Hb Hc; [done|]. destruct a as [|w ent c]; [done|]. cbn in Hc.
      rewrite (Hro w' ent' c' Hb) in Hc. destruct Hc as (_ & _ & Hw).
      destruct Ha as [Ha|[[-> _]|(f & p & Hin & _)]]; [congruence|done|].
      rewrite Hfm in Hin. by apply elem_of_nil in Hin.
    + intros _ a [Ha|Ha]; [done|]. destruct a as [|w ent c]; [done|].
      right. left. split; [by eapply Hro|done].
  - rewrite forallb_forall in Hcan. rewrite fold_params.
    destruct (fold_merge_allows ((λ f, (f, data)) <$> params) (filter_map t)) as (Hnd' & Hm' & Hall); auto.
    { rewrite Forall_fmap. apply Forall_true. done. }
    { intros kv kv' (f & -> & _)%list_elem_of_fmap (f' & -> & _)%list_elem_of_fmap. cbn. by intros ->. }
    split; [|split; [done|]].
    + intros a [|w' ent' c'] Ha Hb Hc; [done|]. destruct a as [|w ent c]; [done|]. cbn in Hc.
      destruct Hc as (<- & <- & Hw). destruct Hb as (f' & Hf' & Hmt' & Hp').
      unfold allows in Ha. rewrite Ewm, Ewr in Ha.
      destruct Ha as [?|[[_ ?]|(f & p & Hin & Hmt & Hp)]]; [done|done|].
      specialize (Hcan f' ltac:(by apply list_elem_of_In)). rewrite forallb_forall in Hcan.
      specialize (Hcan (f, p) ltac:(by apply list_elem_of_In)). cbn in Hcan.
      destruct (FilterParam_is_disjoint f f') eqn:Ed; [by eapply is_disjoint_sound|].
      rewrite Forall_forall in Hm. eapply (param_parallel_sound data p); eauto; [apply (Hm _ Hin)|].
      by destruct w, w'.
    + intros Hag a Ha.
      assert (Hag' : Forall (agree (filter_map t)) ((λ f, (f, data)) <$> params)) by (by rewrite Forall_fmap).
      destruct a as [w r|w ent c].
      { destruct Ha as [Ha|Ha]; [|done]. unfold allows in *. by rewrite Ewm, Ewr in Ha. }
      right. right. apply (Hall Hag'). destruct Ha as [Ha|(f & Hf & Hmt & Hp)].
      * unfold allows in Ha. rewrite Ewm, Ewr in Ha. destruct Ha as [?|[[_ ?]|Ha]]; [done|done|].
        by left.
      * right. exists f, data. split; [|done]. apply list_elem_of_fmap. eauto.
Qed.

(** Merging two tables, as composing two systems does, is conservative when
    whole-entity references are not merged with plain reads on one filter: the
    result allows every access either table allows. *)
Theorem merge_conservative t t' :
  table_wf t → table_wf t' → Forall (agree (filter_map t)) (filter_map t') →
  ∀ a, allows t a ∨ allows t' a → allows (AccessTable_merge t t') a.
Proof.
  intros (_ & Hm & Hnd) (_ & Hm' & Hnd') Hag a Ha. unfold AccessTable_merge.
  destruct (world_mut t) eqn:E1; [by left|]. destruct (world_mut t') eqn:E2; [by left|]. cbn.
  destruct (fold_merge_allows (filter_map t') (filter_map t)) as (_ & _ & Hall); auto.
  { intros kv kv' Hk Hk' Heq. apply list_elem_of_lookup in Hk as [i Hi], Hk' as [j Hj].
    assert (i = j) as ->; [|by simplify_eq].
    eapply (NoDup_lookup (filter_map t').*1); [done|..]; rewrite list_lookup_fmap;
      [rewrite Hi; done|rewrite Hj; cbn; by rewrite Heq]. }
  specialize (Hall Hag). unfold allows in *. rewrite E1, E2 in Ha. right. cbn.
  destruct a as [[] r|w ent c].
  - rewrite elem_of_union. naive_solver.
  - rewrite elem_of_union, orb_true_iff. naive_solver.
  - rewrite orb_true_iff.
    destruct Ha as [[?|[[-> Hw]|Ha]]|[?|[[-> Hw]|Ha]]]; try done; [by left; auto| |by left; auto|];
      right; apply Hall; auto.
Qed.

(** Holding [&World] is not seen by the scheduler: a system whose only
    parameter is the world reference is reported parallel with every system
    that has no exclusive world access, in both orders, although it may read
    any resource the other one writes. *)
Theorem world_ref_ignored t r :
  world_mut t = false → r ∈ res_writing t →
  let '(accepted, reader) := AccessTable_set_world_ref AccessTable_new in
  accepted = true ∧
  AccessTable_parallelizable reader t = true ∧ AccessTable_parallelizable t reader = true ∧
  allows reader (ARes false r) ∧ allows t (ARes true r) ∧ conflict (ARes false r) (ARes true r).
Proof.
  intros Hm Hr.
  change (AccessTable_set_world_ref AccessTable_new) with (true, mkAccessTable false true ∅ ∅ []).
  unfold AccessTable_parallelizable. rewrite Hm. cbn [world_mut res_reading res_writing filter_map orb].
  rewrite !(bool_decide_eq_true_2 (_ ## _)) by set_solver. cbn [negb orb].
  split; [done|]. split; [done|]. split; [by induction (filter_map t)|].
  split; [by right; left|]. split; [by right|]. done.
Qed.

(** Merging a plain read into a whole-entity reference on the same filter
    forgets the reference: a system with such two queries, both accepted, is
    reported parallel with a writer of any other component, although its first
    query reads that component. *)
Theorem merge_forgets_entity_ref f c d ent :
  c ≠ d → matches f ent →
  let eref := (AccessParam_set_entity_ref AccessParam_new).2 in
  let read := (AccessParam_set_reading AccessParam_new c).2 in
  let write := (AccessParam_set_writing AccessParam_new d).2 in
  let '(ok1, t1) := AccessTable_set_query AccessTable_new eref [f] in
  let '(ok2, t2) := AccessTable_set_query t1 read [f] in
  let '(ok3, t3) := AccessTable_set_query AccessTable_new write [f] in
  FilterParam_is_disjoint f f = false →
  ok1 = true ∧ ok2 = true ∧ ok3 = true ∧
  AccessTable_parallelizable t2 t3 = true ∧
  query_access eref [f] (AComp false ent d) ∧ allows t3 (AComp true ent d) ∧
  conflict (AComp false ent d) (AComp true ent d).
Proof.
  intros Hne Hf eref read write.
  change (AccessTable_set_query AccessTable_new eref [f])
    with (true, mkAccessTable false false ∅ ∅ [(f, eref)]).
  change (AccessTable_set_query AccessTable_new write [f])
    with (true, mkAccessTable false false ∅ ∅ [(f, write)]).
  unfold AccessTable_set_query, AccessTable_can_query.
  cbn [world_mut world_ref filter_map res_reading res_writing forallb fst snd foldl filter_merge].
  rewrite decide_True by done. destruct (FilterParam_is_disjoint f f) eqn:Ed; [done|].
  change (AccessParam_parallelizable read eref) with true. cbn [andb]. intros _.
  unfold AccessTable_parallelizable. cbn [world_mut world_ref filter_map res_reading res_writing forallb fst snd orb].
  rewrite Ed, !(bool_decide_eq_true_2 (_ ## _)) by set_solver. cbn [negb orb andb].
  split; [done|]. split; [done|]. split; [done|]. split; [|split; [|split; [|done]]].
  - rewrite !andb_true_r.
    change (AccessParam_merge_with eref read) with (mkAccess false false (∅ ∪ ({[c]} ∪ ∅)) (∅ ∪ ∅)).
    change write with (mkAccess false false ({[d]} ∪ ∅) ({[d]} ∪ ∅)).
    unfold AccessParam_parallelizable. cbn [entity_mut entity_ref reading writing orb].
    apply andb_true_iff. split; apply bool_decide_eq_true_2; set_solver.
  - exists f. split; [apply list_elem_of_here|]. split; [done|]. right. by left.
  - right. right. exists f. eexists. split; [apply list_elem_of_here|]. split; [done|].
    right. cbn. set_solver.
Qed.

(** ** Witnesses *)

Definition ex_hash (n : nat) (l : list Z) : Z := Z.of_nat n.

(** [With(1), Without(2)] and [With(2)]. *)
Definition ex_b1 : FilterParamBuilder :=
  FilterParamBuilder_without (FilterParamBuilder_with FilterParamBuilder_new 1) 2.
Definition ex_b2 : FilterParamBuilder := FilterParamBuilder_with FilterParamBuilder_new 2.
Definition ex_f1 : FilterParam := mkFilter 1 1 [1; 2]%Z.
Definition ex_f2 : FilterParam := mkFilter 1 1 [2]%Z.

Lemma filter_disjoint_exact_witness :
  FilterParam_is_disjoint ex_f1 ex_f2 = true ∧
  ∀ ent, ¬ (matches ex_f1 ent ∧ matches ex_f2 ent).
Proof.
  destruct (filter_disjoint_exact ex_hash ex_b1 ex_b2 ex_f1 ex_f2) as [Hd _];
    [vm_compute; reflexivity..|].
  split; [reflexivity|]. apply Hd. reflexivity.
Defined.

Definition ex_write (c : Z) : AccessParam := (AccessParam_set_writing AccessParam_new c).2.

Definition ex_tab (f : FilterParam) (c : Z) : AccessTable :=
  (AccessTable_set_query AccessTable_new (ex_write c) [f]).2.

Lemma ex_write_ok c : param_ok (ex_write c).
Proof. split; [done|]. done. Qed.

Lemma ex_tab_wf f c : table_wf (ex_tab f c).
Proof.
  split; [done|]. split; [|repeat constructor; set_solver].
  constructor; [apply ex_write_ok|constructor].
Qed.

(** Two writers of component 1 on disjoint filters. *)
Lemma parallelizable_sound_witness :
  AccessTable_parallelizable (ex_tab ex_f1 1) (ex_tab ex_f2 1) = true ∧
  ∀ a b, allows (ex_tab ex_f1 1) a → allows (ex_tab ex_f2 1) b → ¬ conflict a b.
Proof.
  split; [vm_compute; reflexivity|].
  apply parallelizable_sound; try reflexivity; [apply ex_tab_wf..].
Defined.

Lemma set_query_sound_witness :
  (AccessTable_set_query (ex_tab ex_f1 1) (ex_write 1) [ex_f2]).1 = true ∧
  ∀ a b, allows (ex_tab ex_f1 1) a → query_access (ex_write 1) [ex_f2] b → ¬ conflict a b.
Proof.
  destruct (set_query_sound (ex_tab ex_f1 1) (ex_write 1) [ex_f2]
    (AccessTable_set_query (ex_tab ex_f1 1) (ex_write 1) [ex_f2]).2) as [Hno _].
  - apply ex_tab_wf.
  - discriminate.
  - apply ex_write_ok.
  - vm_compute. reflexivity.
  - split; [vm_compute; reflexivity|exact Hno].
Defined.

Lemma merge_conservative_witness :
  allows (AccessTable_merge (ex_tab ex_f1 1) (ex_tab ex_f2 5)) (AComp true {[2%Z; 5%Z]} 5).
Proof.
  apply merge_conservative; [apply ex_tab_wf..| |].
  - constructor; [|constructor]. intros v Hv. cbn in Hv.
    apply list_elem_of_singleton in Hv. discriminate Hv.
  - right. right. right. exists ex_f2, (ex_write 5). split; [apply list_elem_of_here|]. split.
    + split; intros c Hc; vm_compute in Hc; set_solver.
    + right. cbn. set_solver.
Defined.

Lemma world_ref_ignored_witness :
  AccessTable_parallelizable (AccessTable_set_world_ref AccessTable_new).2
    (AccessTable_set_writing_res AccessTable_new 3).2 = true.
Proof.
  apply (world_ref_ignored (AccessTable_set_writing_res AccessTable_new 3).2 3);
    [reflexivity|cbn; set_solver].
Defined.

Lemma merge_forgets_entity_ref_witness :
  conflict (AComp false {[2%Z; 7%Z]} 7) (AComp true {[2%Z; 7%Z]} 7) ∧
  let t1 := (AccessTable_set_query AccessTable_new
               (AccessParam_set_entity_ref AccessParam_new).2 [ex_f2]).2 in
  let t2 := (AccessTable_set_query t1 (AccessParam_set_reading AccessParam_new 2).2 [ex_f2]).2 in
  AccessTable_parallelizable t2 (ex_tab ex_f2 7) = true.
Proof.
  destruct (merge_forgets_entity_ref ex_f2 2 7 {[2%Z; 7%Z]}) as (_ & _ & _ & Hp & _ & _ & Hc).
  - done.
  - split; intros c Hc; vm_compute in Hc; set_solver.
  - reflexivity.
  - split; [exact Hc|exact Hp].
Defined.
