(* ===== verification/QueryMatch.v ===== *)
(** * Matching component sets

    [matches_sorted] and [jump_search] of [crates/voker-ecs/src/query/state.rs]: whether
    the dense and sparse components of a table or archetype, both ascending, have all of
    one ascending list and none of another, by galloping through the slices. *)

From Stdlib Require Import ZArith Lia Sorting.Sorted.
From S2P Require Import Prelude.

(** ** The code *)

(** The inner loop: doubles the step while it stays at or below [id]. *)
Fixpoint jump_step (fuel : nat) (id : Z) (slice : list Z) (index step : nat) : outcome nat :=
  match fuel with
  | O => Undefined
  | S fuel =>
      let offset := index + step in
      if decide (offset < length slice) then
        match slice !! offset with
        | None => Panic
        | Some x => if (x <=? id)%Z then jump_step fuel id slice index (step * 2) else Ret step
        end
      else Ret step
  end.

Fixpoint jump_loop (fuel : nat) (id : Z) (slice : list Z) (index : nat) : outcome (Result nat nat) :=
  match fuel with
  | O => Undefined
  | S fuel =>
      if decide (index = length slice) then Ret (Err index)
      else
        match slice !! index with
        | None => Panic
        | Some x =>
            if (id <? x)%Z then Ret (Err index)
            else if (x =? id)%Z then Ret (Ok index)
            else
              step ← jump_step (S (length slice)) id slice index 1;
              jump_loop fuel id slice (index + Nat.max (step / 2) 1)
        end
  end.

Definition jump_search (id : Z) (slice : list Z) : outcome (Result nat nat) := jump_loop (S (length slice)) id slice 0.

(** [&slice[i..]]. *)
Definition tail_from (slice : list Z) (i : nat) : outcome (list Z) := if decide (i ≤ length slice) then Ret (drop i slice) else Panic.

(** The closures of the two [all] calls with the slices they shorten. *)
Fixpoint matches_with (dense sparse ids : list Z) : outcome bool :=
  match ids with
  | [] => Ret true
  | id :: ids =>
      r ← jump_search id dense;
      match r with
      | Ok idx => dense ← tail_from dense (idx + 1); matches_with dense sparse ids
      | Err _ =>
          r ← jump_search id sparse;
          match r with
          | Ok idx => sparse ← tail_from sparse (idx + 1); matches_with dense sparse ids
          | Err _ => Ret false
          end
      end
  end.

Fixpoint matches_without (dense sparse ids : list Z) : outcome bool :=
  match ids with
  | [] => Ret true
  | id :: ids =>
      r ← jump_search id dense;
      match r with
      | Ok _ => Ret false
      | Err idx =>
          dense ← tail_from dense idx;
          r ← jump_search id sparse;
          match r with
          | Ok _ => Ret false
          | Err idx => sparse ← tail_from sparse idx; matches_without dense sparse ids
          end
      end
  end.

Definition matches_sorted (dense sparse with_ids without_ids : list Z) : outcome bool :=
  ok ← matches_with dense sparse with_ids;
  if ok : bool then matches_without dense sparse without_ids else Ret false.

(** [binary_search] of the standard library on an ascending slice of identifiers. *)
Fixpoint bisect (fuel : nat) (l : list nat) (x lo hi : nat) : bool :=
  match fuel with
  | O => false
  | S fuel =>
      if decide (lo < hi) then
        let mid := (lo + hi) / 2 in
        match l !! mid with
        | None => false
        | Some y => if decide (y = x) then true else if decide (y < x) then bisect fuel l x (S mid) hi else bisect fuel l x lo mid
        end
      else false
  end.

Definition binary_search (l : list nat) (x : nat) : bool := bisect (S (length l)) l x 0 (length l).

(** ** Galloping *)

Notation ascends := (StronglySorted Z.lt).

Lemma ascends_lookup l i j x y : ascends l → l !! i = Some x → l !! j = Some y → i < j → (x < y)%Z.
Proof.
  intros Hs. revert i j. induction Hs as [|z l Hs IH Hz]; intros i j Hi Hj Hij; [done|].
  destruct j as [|j]; [lia|]. cbn in Hj. destruct i as [|i]; cbn in Hi.
  - simplify_eq. rewrite Forall_lookup in Hz. by eapply Hz.
  - eapply IH; eauto. lia.
Qed.

Lemma ascends_drop l n : ascends l → ascends (drop n l).
Proof. intros Hs. revert n. induction Hs as [|z l Hs IH Hz]; intros [|n]; cbn; try constructor; auto. Qed.

(** Everything before [i] is below [id]. *)
Definition passed (id : Z) (slice : list Z) (i : nat) : Prop := ∀ j x, j < i → slice !! j = Some x → (x < id)%Z.

(** The step found is a power of two; the half of it is still at or below [id]. *)
Lemma jump_step_ok fuel id slice index step : index < length slice → length slice ≤ fuel + (index + step / 2) → 0 < step →
  (step = 1 ∨ ∃ half x, step = 2 * half ∧ 0 < half ∧ slice !! (index + half) = Some x ∧ (x <= id)%Z) →
  ∃ s, jump_step fuel id slice index step = Ret s ∧
    (s = 1 ∨ ∃ half x, s = 2 * half ∧ 0 < half ∧ slice !! (index + half) = Some x ∧ (x <= id)%Z).
Proof.
  revert step. induction fuel as [|fuel IH]; intros step Hi Hf Hpos Hst; cbn [jump_step].
  - exfalso. destruct Hst as [->|(half & x & -> & Hh & Hx%lookup_lt_Some & _)]; [cbn in Hf; lia|].
    rewrite Nat.mul_comm, Nat.div_mul in Hf; lia.
  - case_decide as Hlt; [|eauto]. destruct (lookup_lt_is_Some_2 _ _ Hlt) as [x Hx]. rewrite Hx.
    destruct (Z.leb_spec x id) as [Hle|Hle]; [|eauto].
    pose proof (Nat.div_lt step 2 Hpos (le_n 2)). apply IH; [done|rewrite Nat.div_mul; lia|lia|]. right. exists step, x. split_and!; [lia|done|done|done].
Qed.

Lemma jump_loop_ok fuel id slice index : ascends slice → length slice < fuel + index → index ≤ length slice → passed id slice index →
  ∃ r, jump_loop fuel id slice index = Ret r ∧
    match r with
    | Ok i => slice !! i = Some id
    | Err i => (i ≤ length slice ∧ passed id slice i) ∧ ∀ j x, i ≤ j → slice !! j = Some x → (id < x)%Z
    end.
Proof.
  intros Hs. revert index. induction fuel as [|fuel IH]; intros index Hf Hi Hp; [lia|]. cbn [jump_loop].
  case_decide as Hlen.
  { eexists. split; [done|]. split; [done|]. intros j x Hj Hx%lookup_lt_Some. lia. }
  destruct (lookup_lt_is_Some_2 slice index) as [x Hx]; [lia|]. rewrite Hx.
  destruct (Z.ltb_spec id x) as [Hlt|Hge].
  { eexists. split; [done|]. split; [done|]. intros j y Hj Hy. destruct (decide (j = index)) as [->|]; [by simplify_eq|].
    assert (x < y)%Z by (eapply ascends_lookup; eauto; lia). lia. }
  destruct (Z.eqb_spec x id) as [->|Hne]; [eauto|].
  destruct (jump_step_ok (S (length slice)) id slice index 1) as (s & -> & Hst); [lia|lia|lia|by left|]. cbn [mbind outcome_bind].
  assert (Hnext : ∃ y, s / 2 ≤ Nat.max (s / 2) 1 ∧ (Nat.max (s / 2) 1 = 1 ∨ (slice !! (index + Nat.max (s / 2) 1) = Some y ∧ (y <= id)%Z))).
  { destruct Hst as [->|(half & y & -> & Hh & Hy & Hle)]; [exists x; cbn; lia|]. exists y.
    replace (2 * half / 2) with half by (rewrite Nat.mul_comm, Nat.div_mul; lia).
    rewrite Nat.max_l by lia. split; [lia|by right]. }
  destruct Hnext as (y & _ & Hy). apply IH; [lia| |].
  - destruct Hy as [->|[Hy%lookup_lt_Some _]]; lia.
  - intros j z Hj Hz. destruct Hy as [E|[Hy Hle]].
    + rewrite E in Hj. destruct (decide (j = index)) as [->|]; [simplify_eq; lia|]. apply (Hp j z); [lia|done].
    + assert (z < y)%Z by (eapply ascends_lookup; eauto). lia.
Qed.

Lemma jump_search_ok id slice : ascends slice →
  ∃ r, jump_search id slice = Ret r ∧
    match r with
    | Ok i => slice !! i = Some id
    | Err i => id ∉ slice ∧ i ≤ length slice ∧ passed id slice i
    end.
Proof.
  intros Hs. unfold jump_search. destruct (jump_loop_ok (S (length slice)) id slice 0) as (r & -> & Hr); [done|lia|lia|intros j x Hj; lia|].
  exists r. split; [done|]. destruct r as [i|i]; [done|]. destruct Hr as [[Hle Hlo] Hhi]. split; [|done].
  intros (j & Hj)%list_elem_of_lookup. destruct (decide (j < i)) as [Hl|Hl].
  - specialize (Hlo j id Hl Hj). lia.
  - assert (i ≤ j) as Hij by lia. specialize (Hhi j id Hij Hj). lia.
Qed.

Lemma tail_from_ok slice i : i ≤ length slice → tail_from slice i = Ret (drop i slice).
Proof. intros Hi. unfold tail_from. by rewrite decide_True. Qed.

(** ** Matching *)

(** The slices are suffixes of the full lists, without what lies below the ids left. *)
Definition behind (full slice ids : list Z) : Prop :=
  ascends slice ∧ ∀ id, id ∈ ids → id ∈ full ↔ id ∈ slice.

Lemma behind_drop full slice id ids n : ascends (id :: ids) → behind full slice (id :: ids) →
  (∀ j x, j < n → slice !! j = Some x → (x <= id)%Z) → behind full (drop n slice) ids.
Proof.
  intros Hids [Hs Hb] Hn. split; [by apply ascends_drop|]. intros i Hi.
  rewrite Hb by (by apply list_elem_of_further). rewrite <- (take_drop n slice) at 1. rewrite elem_of_app.
  split; [|by right]. intros [Ht|?]; [|done]. exfalso. apply list_elem_of_lookup in Ht as (j & Hj).
  apply lookup_take_Some in Hj as [Hj Hjn]. specialize (Hn j i Hjn Hj).
  inversion Hids as [|? ? _ Hall]. rewrite Forall_forall in Hall. specialize (Hall i Hi). lia.
Qed.

Lemma behind_tail full slice id ids : behind full slice (id :: ids) → behind full slice ids.
Proof. intros [Hs Hb]. split; [done|]. intros i Hi. apply Hb. by apply list_elem_of_further. Qed.

Lemma matches_with_ok fd fs dense sparse ids : ascends ids → behind fd dense ids → behind fs sparse ids →
  matches_with dense sparse ids = Ret (bool_decide (Forall (λ id, id ∈ fd ∨ id ∈ fs) ids)).
Proof.
  intros Hids. revert dense sparse. induction Hids as [|id ids Hs IH Hall]; intros dense sparse Hd Hsp; cbn [matches_with].
  { done. }
  pose proof (SSorted_cons _ Hs Hall) as Hcons.
  assert (Htail : ∀ d s, behind fd d ids → behind fs s ids → id ∈ fd ∨ id ∈ fs →
    matches_with d s ids = Ret (bool_decide (Forall (λ id, id ∈ fd ∨ id ∈ fs) (id :: ids)))).
  { intros d s Hbd Hbs Hin. rewrite (IH d s Hbd Hbs). f_equal. apply bool_decide_ext. rewrite Forall_cons. naive_solver. }
  destruct (jump_search_ok id dense (proj1 Hd)) as (r & -> & Hr). cbn [mbind outcome_bind]. destruct r as [i|i].
  - rewrite tail_from_ok by (apply lookup_lt_Some in Hr; lia). cbn [mbind outcome_bind]. apply Htail; [|by eapply behind_tail|left; apply (proj2 Hd); [left|by eapply list_elem_of_lookup_2]].
    eapply behind_drop; eauto. intros j x Hj Hx. destruct (decide (j = i)) as [->|]; [simplify_eq; lia|].
    assert (x < id)%Z by (eapply ascends_lookup; [apply Hd|exact Hx|exact Hr|lia]). lia.
  - destruct (jump_search_ok id sparse (proj1 Hsp)) as (r' & -> & Hr'). cbn [mbind outcome_bind]. destruct r' as [k|k].
    + rewrite tail_from_ok by (apply lookup_lt_Some in Hr'; lia). cbn [mbind outcome_bind]. apply Htail; [by eapply behind_tail| |right; apply (proj2 Hsp); [left|by eapply list_elem_of_lookup_2]].
      eapply behind_drop; eauto. intros j x Hj Hx. destruct (decide (j = k)) as [->|]; [simplify_eq; lia|].
      assert (x < id)%Z by (eapply ascends_lookup; [apply Hsp|exact Hx|exact Hr'|lia]). lia.
    + rewrite bool_decide_false; [done|]. intros [[Hin|Hin] _]%Forall_cons.
      * apply (proj2 Hd) in Hin; [|left]. by destruct Hr.
      * apply (proj2 Hsp) in Hin; [|left]. by destruct Hr'.
Qed.

Lemma matches_without_ok fd fs dense sparse ids : ascends ids → behind fd dense ids → behind fs sparse ids →
  matches_without dense sparse ids = Ret (bool_decide (Forall (λ id, id ∉ fd ∧ id ∉ fs) ids)).
Proof.
  intros Hids. revert dense sparse. induction Hids as [|id ids Hs IH Hall]; intros dense sparse Hd Hsp; cbn [matches_without].
  { done. }
  pose proof (SSorted_cons _ Hs Hall) as Hcons.
  destruct (jump_search_ok id dense (proj1 Hd)) as (r & -> & Hr). cbn [mbind outcome_bind]. destruct r as [i|i].
  { rewrite bool_decide_false; [done|]. intros [[Hn _] _]%Forall_cons. apply Hn, (proj2 Hd); [left|].
    by eapply list_elem_of_lookup_2. }
  rewrite tail_from_ok by apply Hr. cbn [mbind outcome_bind].
  destruct (jump_search_ok id sparse (proj1 Hsp)) as (r' & -> & Hr'). cbn [mbind outcome_bind]. destruct r' as [k|k].
  { rewrite bool_decide_false; [done|]. intros [[_ Hn] _]%Forall_cons. apply Hn, (proj2 Hsp); [left|].
    by eapply list_elem_of_lookup_2. }
  rewrite tail_from_ok by apply Hr'. cbn [mbind outcome_bind].
  destruct Hr as (Hnd & _ & Hpd), Hr' as (Hns & _ & Hps). rewrite IH.
  - f_equal. apply bool_decide_ext. rewrite Forall_cons. split; [|naive_solver]. intros H. split; [|done].
    split; intros Hin; [apply Hnd, (proj2 Hd)|apply Hns, (proj2 Hsp)]; (done || left).
  - eapply behind_drop; eauto. intros j x Hj Hx. specialize (Hpd j x Hj Hx). lia.
  - eapply behind_drop; eauto. intros j x Hj Hx. specialize (Hps j x Hj Hx). lia.
Qed.

Lemma matches_sorted_ok dense sparse ws wos : ascends dense → ascends sparse → ascends ws → ascends wos →
  matches_sorted dense sparse ws wos =
  Ret (bool_decide (Forall (λ id, id ∈ dense ∨ id ∈ sparse) ws ∧ Forall (λ id, id ∉ dense ∧ id ∉ sparse) wos)).
Proof.
  intros Hd Hs Hw Ho. unfold matches_sorted. rewrite (matches_with_ok dense sparse) by (done || by split).
  cbn [mbind outcome_bind]. case_bool_decide as H.
  - rewrite (matches_without_ok dense sparse) by (done || by split). f_equal. apply bool_decide_ext. naive_solver.
  - rewrite bool_decide_false; [done|]. by intros [? _].
Qed.

(** ** Binary search *)

Lemma bisect_ok fuel l x lo hi : StronglySorted lt l → hi ≤ length l → hi < fuel + lo →
  (∀ i y, l !! i = Some y → i < lo ∨ hi ≤ i → y ≠ x) → bisect fuel l x lo hi = bool_decide (x ∈ l).
Proof.
  intros Hs. revert lo hi. induction fuel as [|fuel IH]; intros lo hi Hhi Hf Hout; cbn [bisect].
  { symmetry. apply bool_decide_false. intros (i & Hi)%list_elem_of_lookup. apply (Hout i x Hi); [lia|done]. }
  destruct (decide (lo < hi)) as [Hlt|Hlt].
  2:{ symmetry. apply bool_decide_false. intros (i & Hi)%list_elem_of_lookup. apply (Hout i x Hi); [lia|done]. }
  assert (lo ≤ (lo + hi) / 2 < hi) as Hmid.
  { split; [apply Nat.div_le_lower_bound; lia|apply Nat.div_lt_upper_bound; lia]. }
  set (mid := (lo + hi) / 2) in *. destruct (lookup_lt_is_Some_2 l mid) as [y Hy]; [lia|]. rewrite Hy.
  assert (Hord : ∀ i j a b, l !! i = Some a → l !! j = Some b → i < j → a < b).
  { clear -Hs. induction Hs as [|z l Hs IH Hz]; intros i j a b Hi Hj Hij; [done|]. destruct j as [|j]; [lia|].
    destruct i as [|i]; cbn in *; [simplify_eq; rewrite Forall_lookup in Hz; by eapply Hz|]. apply (IH i j a b Hi Hj). lia. }
  destruct (decide (y = x)) as [Heq|Heq]; [subst; symmetry; apply bool_decide_true; by eapply list_elem_of_lookup_2|].
  destruct (decide (y < x)) as [Hl|Hl]; (apply IH; [lia|lia|]); intros i z Hi Hz Hzx; subst z.
  - destruct (decide (i = mid)) as [->|]; [congruence|].
    destruct (decide (i < mid)) as [Him|Him]; [specialize (Hord i mid x y Hi Hy Him); lia|]. apply (Hout i x Hi); [lia|done].
  - destruct (decide (i = mid)) as [->|]; [congruence|].
    destruct (decide (mid < i)) as [Him|Him]; [specialize (Hord mid i y x Hy Hi Him); lia|]. apply (Hout i x Hi); [lia|done].
Qed.

Lemma binary_search_ok l x : StronglySorted lt l → binary_search l x = bool_decide (x ∈ l).
Proof.
  intros Hs. apply bisect_ok; [done|lia|lia|]. intros i y Hi%lookup_lt_Some [?|?]; lia.
Qed.
