(* ===== verification/Query.v ===== *)
(** * Queries

    [crates/voker-ecs/src/query/]: the query data and filters of [data/] and [filter/],
    [QueryState] (state.rs), [QueryIter] (iter.rs), the entity access of [Query]
    (query.rs) and [Single] (single.rs).

    A query type is a tree: the constructors of [DataT] and [FilterT] are the types that
    implement the two traits, a component type is its identifier, [desc] has its storage.
    [Mut<T>] is [&mut T]; a one-element [And] or [Or] is its element.  A cache keeps what
    it points to; the two ticks it carries are the arguments [last_run] and [this_run].
    A state is used with the world it was built from. *)

From Stdlib Require Import ZArith Lia.
From S2P Require Import Prelude Tick EntityIdent EntityInfo Column Table SparseMap Registry World Access QueryMatch.

(** ** Types *)

Inductive FilterT :=
| FUnit
| FWith (cs : list Z)
| FWithout (cs : list Z)
| FAdded (c : Z)
| FChanged (c : Z)
| FAnd (fs : list FilterT)
| FOr (fs : list FilterT).

Inductive DataT :=
| DEntity
| DEntityRef
| DEntityMut
| DRead (c : Z)
| DReadOpt (c : Z)
| DRef (c : Z)
| DRefOpt (c : Z)
| DMut (c : Z)
| DMutOpt (c : Z)
| DTuple (ds : list DataT).

(** What is fetched: entities, references to values, references with change ticks. *)
Inductive Item :=
| IEntity (e : Entity)
| IEntityRef (e : Entity) (l : EntityLocation)
| IEntityMut (e : Entity) (l : EntityLocation)
| IValue (v : value)
| IRef (v : value) (added changed : Tick)
| IMut (v : value) (added changed : Tick)
| IOption (i : option Item)
| ITuple (l : list Item).

(** [DataView], [ComponentView], [AddedView], [ChangedView] and the flags of [With]. *)
Inductive Cache :=
| CNone
| CColumn (c : option Column)
| CTicks (ts : option (list Tick))
| CMap (m : option SMap)
| CFlag (b : bool)
| CTuple (cs : list Cache).

(** The order in which a hash set of filters is iterated. *)
Class FilterOrder := {
  filter_order : list FilterParam → list FilterParam;
  filter_order_perm : ∀ l, filter_order l ≡ₚ l
}.

#[global] Program Instance id_FilterOrder : FilterOrder := {| filter_order := id |}.
Next Obligation. done. Qed.

(** Calls on the elements of a tuple, in order. *)
Definition each_cache {A} (f : A → Cache → outcome Cache) : list A → list Cache → outcome (list Cache) :=
  fix go l cs :=
    match l, cs with
    | [], [] => Ret []
    | x :: l, c :: cs => c ← f x c; cs ← go l cs; Ret (c :: cs)
    | _, _ => Undefined
    end.

(** [true && ..], [false || ..] and [Some((..?, ..))] over the elements. *)
Definition all_cache {A} (f : A → Cache → outcome bool) : list A → list Cache → outcome bool :=
  fix go l cs :=
    match l, cs with
    | [], [] => Ret true
    | x :: l, c :: cs => b ← f x c; if b : bool then go l cs else Ret false
    | _, _ => Undefined
    end.

Definition any_cache {A} (f : A → Cache → outcome bool) : list A → list Cache → outcome bool :=
  fix go l cs :=
    match l, cs with
    | [], [] => Ret false
    | x :: l, c :: cs => b ← f x c; if b : bool then Ret true else go l cs
    | _, _ => Undefined
    end.

Definition fetch_cache {A} (f : A → Cache → outcome (option Item)) : list A → list Cache → outcome (option (list Item)) :=
  fix go l cs : outcome (option (list Item)) :=
    match l, cs with
    | [], [] => Ret (Some [])
    | x :: l, c :: cs =>
        i ← f x c;
        match i return outcome (option (list Item)) with
        | None => Ret None
        | Some i => r ← go l cs; Ret (option_map (cons i) r)
        end
    | _, _ => Undefined
    end.

Section query.
Context `{FilterOrder}.
Variable desc : Z → ComponentDesc.
Variable hash : nat → list Z → Z.
Variables last_run this_run : Tick.

Definition is_dense (c : Z) : bool := bool_decide (cd_storage (desc c) = Dense).

(** ** Filters *)

Fixpoint F_COMPONENTS_ARE_DENSE (f : FilterT) : bool :=
  match f with
  | FUnit => true
  | FWith cs | FWithout cs => forallb is_dense cs
  | FAdded c | FChanged c => is_dense c
  | FAnd fs | FOr fs => forallb F_COMPONENTS_ARE_DENSE fs
  end.

Fixpoint F_ENABLE_ENTITY_FILTER (f : FilterT) : bool :=
  match f with
  | FAdded _ | FChanged _ => true
  | FAnd fs | FOr fs => existsb F_ENABLE_ENTITY_FILTER fs
  | _ => false
  end.

(** The product of [And]: [x] and [y] with every pair merged. *)
Definition merge_builders (x y : list FilterParamBuilder) : list FilterParamBuilder :=
  a ← x; omap (FilterParamBuilder_merge a) y.

(** What is appended to [outer]. *)
Fixpoint F_build_filter (f : FilterT) : list FilterParamBuilder :=
  match f with
  | FUnit => [FilterParamBuilder_new]
  | FWith cs => [foldl FilterParamBuilder_with FilterParamBuilder_new cs]
  | FWithout cs => [foldl FilterParamBuilder_without FilterParamBuilder_new cs]
  | FAdded c | FChanged c => [FilterParamBuilder_with FilterParamBuilder_new c]
  | FAnd fs => foldl merge_builders [FilterParamBuilder_new] (map F_build_filter fs)
  | FOr fs => concat (map F_build_filter fs)
  end.

Fixpoint F_build_access (f : FilterT) (out : AccessParam) : AccessParam :=
  match f with
  | FAdded c | FChanged c => AccessParam_force_reading out c
  | FAnd fs | FOr fs => foldl (λ out f, F_build_access f out) out fs
  | _ => out
  end.

Definition map_cache (w : World) (c : Z) : outcome Cache :=
  match Maps_get_id (w_maps w) c with
  | Some id => m ← of_option (ms_maps (w_maps w) !! id); Ret (CMap (Some m))
  | None => Ret (CMap None)
  end.

(** Not the [unsafe] lookup of the other caches: [maps.get(map_id)]. *)
Definition ticks_cache (w : World) (c : Z) : Cache :=
  if is_dense c then CTicks None
  else match Maps_get_id (w_maps w) c with Some id => CMap (ms_maps (w_maps w) !! id) | None => CMap None end.

Fixpoint F_build_cache (f : FilterT) (w : World) : Cache :=
  match f with
  | FUnit => CNone
  | FWith _ | FWithout _ => CFlag false
  | FAdded c | FChanged c => ticks_cache w c
  | FAnd fs | FOr fs => CTuple (map (λ f, F_build_cache f w) fs)
  end.

Definition Table_get_added_slice (t : Table) (col : nat) : outcome (list Tick) :=
  c ← Table_get_column t col; TickArray_slice (col_added c) (Table_entity_count t).
Definition Table_get_changed_slice (t : Table) (col : nat) : outcome (list Tick) :=
  c ← Table_get_column t col; TickArray_slice (col_changed c) (Table_entity_count t).

(** [set_for_arche] and [set_for_table] of [Added] and [Changed]. *)
Definition set_ticks (slice : Table → nat → outcome (list Tick)) (c : Z) (cache : Cache) (t : Table) : outcome Cache :=
  if is_dense c then
    match Table_get_table_col t c with
    | None => Ret (CTicks None)
    | Some col => s ← slice t col; Ret (CTicks (Some s))
    end
  else Ret cache.

Definition arche_has (a : Archetype) (c : Z) : bool :=
  if is_dense c then Archetype_contains_dense_component a c else Archetype_contains_sparse_component a c.

Fixpoint F_set_for_arche (f : FilterT) (cache : Cache) (a : Archetype) (t : Table) : outcome Cache :=
  match f with
  | FUnit => Ret cache
  | FWith cs => Ret (CFlag (forallb (arche_has a) cs))
  | FWithout cs => Ret (CFlag (forallb (λ c, negb (arche_has a c)) cs))
  | FAdded c => set_ticks Table_get_added_slice c cache t
  | FChanged c => set_ticks Table_get_changed_slice c cache t
  | FAnd fs | FOr fs =>
      match cache with
      | CTuple cs => cs ← each_cache (λ f c, F_set_for_arche f c a t) fs cs; Ret (CTuple cs)
      | _ => Undefined
      end
  end.

(** With its [debug_assert!]: the components of a table query are dense. *)
Fixpoint F_set_for_table (f : FilterT) (cache : Cache) (t : Table) : outcome Cache :=
  match f with
  | FUnit => Ret cache
  | FWith cs => if forallb is_dense cs then Ret (CFlag (forallb (λ c, bool_decide (is_Some (Table_get_table_col t c))) cs)) else Panic
  | FWithout cs => if forallb is_dense cs then Ret (CFlag (forallb (λ c, bool_decide (Table_get_table_col t c = None)) cs)) else Panic
  | FAdded c => set_ticks Table_get_added_slice c cache t
  | FChanged c => set_ticks Table_get_changed_slice c cache t
  | FAnd fs | FOr fs =>
      match cache with
      | CTuple cs => cs ← each_cache (λ f c, F_set_for_table f c t) fs cs; Ret (CTuple cs)
      | _ => Undefined
      end
  end.

(** [filter] of [Added] and [Changed]. *)
Definition newer (get : SMap → nat → outcome Tick) (c : Z) (cache : Cache) (e : Entity) (row : nat) : outcome bool :=
  match cache with
  | CTicks dense =>
      match dense with
      | None => Ret false
      | Some slice => tick ← of_option (slice !! row); Ret (Tick_is_newer_than tick last_run this_run)
      end
  | CMap sparse =>
      match sparse with
      | None => Ret false
      | Some m =>
          match Map_get_map_row m e with
          | None => Ret false
          | Some r => tick ← get m r; Ret (Tick_is_newer_than tick last_run this_run)
          end
      end
  | _ => Undefined
  end.

Fixpoint F_filter (f : FilterT) (cache : Cache) (e : Entity) (row : nat) : outcome bool :=
  match f with
  | FUnit => Ret true
  | FWith _ | FWithout _ => match cache with CFlag b => Ret b | _ => Undefined end
  | FAdded c => newer Map_get_added c cache e row
  | FChanged c => newer Map_get_changed c cache e row
  | FAnd fs => match cache with CTuple cs => all_cache (λ f c, F_filter f c e row) fs cs | _ => Undefined end
  | FOr fs => match cache with CTuple cs => any_cache (λ f c, F_filter f c e row) fs cs | _ => Undefined end
  end.

(** ** Data *)

Fixpoint D_COMPONENTS_ARE_DENSE (d : DataT) : bool :=
  match d with
  | DEntity | DEntityRef | DEntityMut => true
  | DRead c | DRef c | DMut c => is_dense c
  | DReadOpt _ | DRefOpt _ | DMutOpt _ => false
  | DTuple ds => forallb D_COMPONENTS_ARE_DENSE ds
  end.

Fixpoint D_build_filter (d : DataT) (out : list FilterParamBuilder) : list FilterParamBuilder :=
  match d with
  | DRead c | DRef c | DMut c => (λ b, FilterParamBuilder_with b c) <$> out
  | DTuple ds => foldl (λ out d, D_build_filter d out) out ds
  | _ => out
  end.

(** [valid && ..]: an element after a conflict is not visited. *)
Fixpoint D_build_access (d : DataT) (out : AccessParam) : bool * AccessParam :=
  match d with
  | DEntity => (true, out)
  | DEntityRef => AccessParam_set_entity_ref out
  | DEntityMut => AccessParam_set_entity_mut out
  | DRead c | DReadOpt c | DRef c | DRefOpt c => AccessParam_set_reading out c
  | DMut c | DMutOpt c => AccessParam_set_writing out c
  | DTuple ds => foldl (λ '(valid, out) d, if valid : bool then D_build_access d out else (false, out)) (true, out) ds
  end.

Definition view_cache (w : World) (c : Z) : outcome Cache := if is_dense c then Ret (CColumn None) else map_cache w c.

Fixpoint D_build_cache (d : DataT) (w : World) : outcome Cache :=
  match d with
  | DEntity | DEntityRef | DEntityMut => Ret CNone
  | DRead c | DReadOpt c | DRef c | DRefOpt c | DMut c | DMutOpt c => view_cache w c
  | DTuple ds => cs ← (fix go ds := match ds with [] => Ret [] | d :: ds => c ← D_build_cache d w; cs ← go ds; Ret (c :: cs) end) ds; Ret (CTuple cs)
  end.

(** [set_for_arche] and [set_for_table] are the same for every query data. *)
Definition set_view (c : Z) (cache : Cache) (t : Table) : outcome Cache :=
  if is_dense c then
    match Table_get_table_col t c with
    | Some col => column ← Table_get_column t col; Ret (CColumn (Some column))
    | None => Ret (CColumn None)
    end
  else Ret cache.

Fixpoint D_set_for_table (d : DataT) (cache : Cache) (t : Table) : outcome Cache :=
  match d with
  | DEntity | DEntityRef | DEntityMut => Ret cache
  | DRead c | DReadOpt c | DRef c | DRefOpt c | DMut c | DMutOpt c => set_view c cache t
  | DTuple ds =>
      match cache with
      | CTuple cs => cs ← each_cache (λ d c, D_set_for_table d c t) ds cs; Ret (CTuple cs)
      | _ => Undefined
      end
  end.

(** The column and row of a cell; a map's row is looked up by the entity. *)
Definition fetch_cell {A} (get : Column → nat → outcome A) (cache : Cache) (e : Entity) (row : nat) : outcome (option A) :=
  match cache with
  | CColumn dense => match dense with None => Ret None | Some col => x ← get col row; Ret (Some x) end
  | CMap sparse =>
      match sparse with
      | None => Ret None
      | Some m =>
          match Map_get_map_row m e with
          | None => Ret None
          | Some r => if decide (r < Map_capacity m) then x ← get (map_column m) r; Ret (Some x) else Panic
          end
      end
  | _ => Undefined
  end.

(** [Column::get_ref] and [get_mut]. *)
Definition Column_get_ref (col : Column) (row : nat) : outcome (value * Tick * Tick) :=
  v ← Column_get_data col row;
  added ← Column_get_added col row;
  changed ← Column_get_changed col row;
  Ret (v, added, changed).

Definition get_value (col : Column) (row : nat) : outcome Item := v ← Column_get_data col row; Ret (IValue v).
Definition get_ref (col : Column) (row : nat) : outcome Item := '(v, a, c) ← Column_get_ref col row; Ret (IRef v a c).
Definition get_mut (col : Column) (row : nat) : outcome Item := '(v, a, c) ← Column_get_ref col row; Ret (IMut v a c).

Definition locate_unwrap (w : World) (e : Entity) : outcome EntityLocation :=
  match Entities_locate (w_entities w) e with Ok l => Ret l | Err _ => Panic end.

Fixpoint D_fetch (w : World) (d : DataT) (cache : Cache) (e : Entity) (row : nat) : outcome (option Item) :=
  match d with
  | DEntity => Ret (Some (IEntity e))
  | DEntityRef => l ← locate_unwrap w e; Ret (Some (IEntityRef e l))
  | DEntityMut => l ← locate_unwrap w e; Ret (Some (IEntityMut e l))
  | DRead _ => fetch_cell get_value cache e row
  | DReadOpt _ => i ← fetch_cell get_value cache e row; Ret (Some (IOption i))
  | DRef _ => fetch_cell get_ref cache e row
  | DRefOpt _ => i ← fetch_cell get_ref cache e row; Ret (Some (IOption i))
  | DMut _ => fetch_cell get_mut cache e row
  | DMutOpt _ => i ← fetch_cell get_mut cache e row; Ret (Some (IOption i))
  | DTuple ds =>
      match cache with
      | CTuple cs => r ← fetch_cache (λ d c, D_fetch w d c e row) ds cs; Ret (option_map ITuple r)
      | _ => Undefined
      end
  end.

(** ** [QueryState] *)

Record QueryState := mkQueryState {
  qs_version : nat;
  qs_storages : list nat;
  qs_filter_data : AccessParam;
  qs_filter_params : list FilterParam
}.

Variable d : DataT.
Variable f : FilterT.

Definition IS_DENSE : bool := D_COMPONENTS_ARE_DENSE d && F_COMPONENTS_ARE_DENSE f.

(** A hash set drops the filters built twice. *)
Definition collect_param (builders : list FilterParamBuilder) : list FilterParam :=
  filter_order (remove_dups (omap (FilterParamBuilder_build hash) builders)).

Fixpoint any_param (dense sparse : list Z) (params : list FilterParam) : outcome bool :=
  match params with
  | [] => Ret false
  | p :: params =>
      b ← matches_sorted dense sparse (FilterParam_with p) (FilterParam_without p);
      if b : bool then Ret true else any_param dense sparse params
  end.

(** The loops of [updata_table_state] and [updata_arche_state]. *)
Fixpoint updata_tables (ids : list nat) (storages : list nat) (params : list FilterParam) (tables : Tables) : outcome (list nat) :=
  match ids with
  | [] => Ret storages
  | id :: ids =>
      t ← Tables_get_unchecked tables id;
      matched ← any_param (tbl_components t) [] params;
      updata_tables ids (if matched : bool then storages ++ [id] else storages) params tables
  end.

Fixpoint updata_arches (ids : list nat) (storages : list nat) (params : list FilterParam) (arches : Archetypes) : outcome (list nat) :=
  match ids with
  | [] => Ret storages
  | id :: ids =>
      a ← Archetypes_get_unchecked arches id;
      matched ← any_param (Archetype_dense_components a) (Archetype_sparse_components a) params;
      updata_arches ids (if matched : bool then storages ++ [id] else storages) params arches
  end.

Definition updata_table_state (version : nat) (storages : list nat) (params : list FilterParam) (tables : Tables) : outcome (nat * list nat) :=
  let new_version := length (ts_tables tables) in
  storages ← updata_tables (seq version (new_version - version)) storages params tables;
  Ret (new_version, storages).

Definition updata_arche_state (version : nat) (storages : list nat) (params : list FilterParam) (arches : Archetypes) : outcome (nat * list nat) :=
  let new_version := length (as_arches arches) in
  storages ← updata_arches (seq version (new_version - version)) storages params arches;
  Ret (new_version, storages).

(** [build_internal]: panics on data that conflict with themselves. *)
Definition QueryState_build (w : World) : outcome QueryState :=
  let '(valid, filter_data) := D_build_access d AccessParam_new in
  if negb valid then Panic
  else
    let filter_data := F_build_access f filter_data in
    let params := collect_param (D_build_filter d (F_build_filter f)) in
    '(version, storages) ← (if IS_DENSE then updata_table_state 0 [] params (w_tables w)
                            else updata_arche_state 0 [] params (w_archetypes w));
    Ret (mkQueryState version storages filter_data params).

Definition QueryState_update (self : QueryState) (w : World) : outcome QueryState :=
  '(version, storages) ←
    (if IS_DENSE then
       if decide (qs_version self < length (ts_tables (w_tables w)))
       then updata_table_state (qs_version self) (qs_storages self) (qs_filter_params self) (w_tables w)
       else Ret (qs_version self, qs_storages self)
     else
       if decide (qs_version self < length (as_arches (w_archetypes w)))
       then updata_arche_state (qs_version self) (qs_storages self) (qs_filter_params self) (w_archetypes w)
       else Ret (qs_version self, qs_storages self));
  Ret (mkQueryState version storages (qs_filter_data self) (qs_filter_params self)).

(** [edit_access_table] of every filter answers [true]. *)
Definition QueryState_mark_assess (self : QueryState) (table : AccessTable) : bool * AccessTable :=
  AccessTable_set_query table (qs_filter_data self) (qs_filter_params self).

(** ** [QueryIter] *)

Record QueryIter := mkQueryIter {
  qi_d_cache : Cache; qi_f_cache : Cache; qi_storages : list nat; qi_entities : list Entity; qi_row : nat
}.

Definition QueryIter_new (w : World) (self : QueryState) : outcome QueryIter :=
  dc ← D_build_cache d w;
  Ret (mkQueryIter dc (F_build_cache f w) (qs_storages self) [] 0).

(** The storage of an identifier: its entities and its caches. *)
Definition storage_entities (w : World) (id : nat) : outcome (list Entity) :=
  if IS_DENSE then t ← Tables_get_unchecked (w_tables w) id; Ret (tbl_entities t)
  else a ← Archetypes_get_unchecked (w_archetypes w) id; Ret (ar_entities a).

Definition set_caches (w : World) (id : nat) (dc fc : Cache) : outcome (Cache * Cache) :=
  if IS_DENSE then
    t ← Tables_get_unchecked (w_tables w) id;
    dc ← D_set_for_table d dc t;
    fc ← F_set_for_table f fc t;
    Ret (dc, fc)
  else
    a ← Archetypes_get_unchecked (w_archetypes w) id;
    t ← Tables_get_unchecked (w_tables w) (ar_table_id a);
    dc ← D_set_for_table d dc t;
    fc ← F_set_for_arche f fc a t;
    Ret (dc, fc).

(** [update_slice]: on to the next storage that has entities.  The row is reset and
    [entities] replaced as the walk goes, also when no storage is left. *)
Fixpoint update_slice (w : World) (dc fc : Cache) (entities : list Entity) (storages : list nat) : outcome (bool * QueryIter) :=
  match storages with
  | [] => Ret (false, mkQueryIter dc fc [] entities 0)
  | id :: storages =>
      entities ← storage_entities w id;
      match entities with
      | [] => update_slice w dc fc [] storages
      | _ => '(dc, fc) ← set_caches w id dc fc; Ret (true, mkQueryIter dc fc storages entities 0)
      end
  end.

Definition iter_table_row (w : World) (e : Entity) (old_row : nat) : outcome nat :=
  if IS_DENSE then Ret old_row else l ← locate_unwrap w e; Ret (Z.to_nat (table_row l)).

(** The filter of an entity, which is skipped when no filter needs it. *)
Definition entity_filter (fc : Cache) (e : Entity) (row : nat) : outcome bool :=
  if F_ENABLE_ENTITY_FILTER f then F_filter f fc e row else Ret true.

Fixpoint QueryIter_next (fuel : nat) (w : World) (it : QueryIter) : outcome (option Item * QueryIter) :=
  match fuel with
  | O => Undefined
  | S fuel =>
      '(more, it) ← (if decide (length (qi_entities it) ≤ qi_row it)
                     then update_slice w (qi_d_cache it) (qi_f_cache it) (qi_entities it) (qi_storages it) else Ret (true, it));
      if negb more then Ret (None, it)
      else
        e ← of_option (qi_entities it !! qi_row it);
        let it' := mkQueryIter (qi_d_cache it) (qi_f_cache it) (qi_storages it) (qi_entities it) (S (qi_row it)) in
        row ← iter_table_row w e (qi_row it);
        ok ← entity_filter (qi_f_cache it) e row;
        if negb ok then QueryIter_next fuel w it'
        else
          i ← D_fetch w d (qi_d_cache it) e row;
          match i with
          | Some i => Ret (Some i, it')
          | None => QueryIter_next fuel w it'
          end
  end.

(** A [for] loop over the iterator. *)
Fixpoint QueryIter_collect (fuel : nat) (w : World) (it : QueryIter) : outcome (list Item) :=
  match fuel with
  | O => Undefined
  | S fuel' =>
      '(r, it) ← QueryIter_next fuel w it;
      match r with
      | None => Ret []
      | Some i => rest ← QueryIter_collect fuel' w it; Ret (i :: rest)
      end
  end.

(** ** Access by entity *)

Inductive QueryEntityError := NoSuchEntity (e : Entity) | QueryMismatch (e : Entity) | DuplicateEntity (e : Entity).
Inductive QuerySingleError := NoEntities | MultipleEntities.

Definition get_storage_id (l : EntityLocation) : nat := Z.to_nat (if IS_DENSE then table_id l else arche_id l).

Definition contains_storage (self : QueryState) (id : nat) : bool :=
  if decide (length (qs_storages self) ≤ 200) then bool_decide (id ∈ qs_storages self) else binary_search (qs_storages self) id.

(** [update_filter_cache] and [update_data_cache]. *)
Definition update_filter_cache (w : World) (fc : Cache) (l : EntityLocation) : outcome Cache :=
  if IS_DENSE then t ← Tables_get_unchecked (w_tables w) (Z.to_nat (table_id l)); F_set_for_table f fc t
  else
    a ← Archetypes_get_unchecked (w_archetypes w) (Z.to_nat (arche_id l));
    t ← Tables_get_unchecked (w_tables w) (Z.to_nat (table_id l));
    F_set_for_arche f fc a t.

Definition update_data_cache (w : World) (dc : Cache) (l : EntityLocation) : outcome Cache :=
  if IS_DENSE then t ← Tables_get_unchecked (w_tables w) (Z.to_nat (table_id l)); D_set_for_table d dc t
  else
    _ ← Archetypes_get_unchecked (w_archetypes w) (Z.to_nat (arche_id l));
    t ← Tables_get_unchecked (w_tables w) (Z.to_nat (table_id l));
    D_set_for_table d dc t.

(** [get_with_cache_impl]; the caches it leaves. *)
Definition get_with_cache (w : World) (self : QueryState) (e : Entity) (fc dc : Cache)
    : outcome (Result Item QueryEntityError * Cache * Cache) :=
  match Entities_locate (w_entities w) e with
  | Err _ => Ret (Err (NoSuchEntity e), fc, dc)
  | Ok l =>
      if negb (contains_storage self (get_storage_id l)) then Ret (Err (QueryMismatch e), fc, dc)
      else
        fc ← (if F_ENABLE_ENTITY_FILTER f then update_filter_cache w fc l else Ret fc);
        ok ← entity_filter fc e (Z.to_nat (table_row l));
        if negb ok then Ret (Err (QueryMismatch e), fc, dc)
        else
          dc ← update_data_cache w dc l;
          i ← D_fetch w d dc e (Z.to_nat (table_row l));
          Ret (match i with Some i => Ok i | None => Err (QueryMismatch e) end, fc, dc)
  end.

(** The filter and the fetch of [get_impl] and [contains_impl], which build the caches
    where they use them. *)
Definition filter_at (w : World) (e : Entity) (l : EntityLocation) : outcome bool :=
  if F_ENABLE_ENTITY_FILTER f then
    fc ← update_filter_cache w (F_build_cache f w) l;
    F_filter f fc e (Z.to_nat (table_row l))
  else Ret true.

Definition fetch_at (w : World) (e : Entity) (l : EntityLocation) : outcome (option Item) :=
  dc ← D_build_cache d w;
  dc ← update_data_cache w dc l;
  D_fetch w d dc e (Z.to_nat (table_row l)).

Definition Query_get (w : World) (self : QueryState) (e : Entity) : outcome (Result Item QueryEntityError) :=
  match Entities_locate (w_entities w) e with
  | Err _ => Ret (Err (NoSuchEntity e))
  | Ok l =>
      if negb (contains_storage self (get_storage_id l)) then Ret (Err (QueryMismatch e))
      else
        ok ← filter_at w e l;
        if negb ok then Ret (Err (QueryMismatch e))
        else i ← fetch_at w e l; Ret (match i with Some i => Ok i | None => Err (QueryMismatch e) end)
  end.

Definition Query_contains (w : World) (self : QueryState) (e : Entity) : outcome bool :=
  match Entities_locate (w_entities w) e with
  | Err _ => Ret false
  | Ok l =>
      if negb (contains_storage self (get_storage_id l)) then Ret false
      else
        ok ← filter_at w e l;
        if negb ok then Ret false
        else i ← fetch_at w e l; Ret (bool_decide (is_Some i))
  end.

Fixpoint get_many_loop (w : World) (self : QueryState) (es : list Entity) (fc dc : Cache)
    : outcome (Result (list Item) QueryEntityError) :=
  match es with
  | [] => Ret (Ok [])
  | e :: es =>
      '(r, fc, dc) ← get_with_cache w self e fc dc;
      match r with
      | Err x => Ret (Err x)
      | Ok i =>
          rest ← get_many_loop w self es fc dc;
          Ret (match rest with Ok l => Ok (i :: l) | Err x => Err x end)
      end
  end.

Definition Query_get_many (w : World) (self : QueryState) (es : list Entity) : outcome (Result (list Item) QueryEntityError) :=
  dc ← D_build_cache d w; get_many_loop w self es (F_build_cache f w) dc.

(** The first entity that occurs before its place. *)
Fixpoint find_duplicate (seen es : list Entity) : option Entity :=
  match es with
  | [] => None
  | e :: es => if decide (e ∈ seen) then Some e else find_duplicate (seen ++ [e]) es
  end.

Definition Query_get_many_mut (w : World) (self : QueryState) (es : list Entity) : outcome (Result (list Item) QueryEntityError) :=
  match find_duplicate [] es with
  | Some e => Ret (Err (DuplicateEntity e))
  | None => Query_get_many w self es
  end.

(** [Single::new] and [Query::is_empty]. *)
Definition Single_new (fuel : nat) (w : World) (self : QueryState) : outcome (Result Item QuerySingleError) :=
  it ← QueryIter_new w self;
  '(r, it) ← QueryIter_next fuel w it;
  match r with
  | None => Ret (Err NoEntities)
  | Some i =>
      '(r, it) ← QueryIter_next fuel w it;
      Ret (match r with Some _ => Err MultipleEntities | None => Ok i end)
  end.

Definition Query_is_empty (fuel : nat) (w : World) (self : QueryState) : outcome bool :=
  it ← QueryIter_new w self;
  '(r, it) ← QueryIter_next fuel w it;
  Ret (match r with Some _ => false | None => true end).
End query.
