(* ===== verification/QueryCells.v ===== *)
(** * What a query reads

    The meaning of query data and filters on an entity, and that the caches of
    [Query.v] read exactly that: the columns and tick slices of the entity's table, the
    maps of its sparse components. *)

From Stdlib Require Import ZArith Lia Sorting.Sorted.
From S2P Require Import Prelude Tick EntityIdent EntityInfo FreeCount FreeBuffer Allocator Column Table SparseMap.
From S2P Require Import Locations Registry World WorldInv Access QueryMatch Query.

(** ** Meaning *)

Section meaning.
Variables last_run this_run : Tick.
Variable w : World.

Definition has (e : Entity) (c : Z) : bool := bool_decide (c ∈ default [] (World_components w e)).

Definition newer_tick (t : option Tick) : bool := match t with Some t => Tick_is_newer_than t last_run this_run | None => false end.

Fixpoint filter_holds (f : FilterT) (e : Entity) : bool :=
  match f with
  | FUnit => true
  | FWith cs => forallb (has e) cs
  | FWithout cs => forallb (λ c, negb (has e c)) cs
  | FAdded c => newer_tick (x ← World_get w e c; x.1.2)
  | FChanged c => newer_tick (x ← World_get w e c; x.2)
  | FAnd fs => forallb (λ f, filter_holds f e) fs
  | FOr fs => existsb (λ f, filter_holds f e) fs
  end.

Definition cell_item (mk : value → Tick → Tick → Item) (x : option cell) : option Item :=
  match x with Some (v, Some a, Some c) => Some (mk v a c) | _ => None end.

(** Every element, or nothing. *)
Definition gather {A B} (f : A → option B) : list A → option (list B) :=
  fix go l := match l with [] => Some [] | x :: l => match f x with Some y => option_map (cons y) (go l) | None => None end end.

Fixpoint data_item (d : DataT) (e : Entity) : option Item :=
  match d with
  | DEntity => Some (IEntity e)
  | DEntityRef => option_map (IEntityRef e) (located (w_entities w) e)
  | DEntityMut => option_map (IEntityMut e) (located (w_entities w) e)
  | DRead c => cell_item (λ v _ _, IValue v) (World_get w e c)
  | DReadOpt c => Some (IOption (cell_item (λ v _ _, IValue v) (World_get w e c)))
  | DRef c => cell_item IRef (World_get w e c)
  | DRefOpt c => Some (IOption (cell_item IRef (World_get w e c)))
  | DMut c => cell_item IMut (World_get w e c)
  | DMutOpt c => Some (IOption (cell_item IMut (World_get w e c)))
  | DTuple ds => option_map ITuple (gather (λ d, data_item d e) ds)
  end.

(** What a query yields for an entity. *)
Definition query_item (d : DataT) (f : FilterT) (e : Entity) : option Item := if filter_holds f e then data_item d e else None.
End meaning.

(** ** Induction on query types *)

Section trees.
Lemma FilterT_tree (P : FilterT → Prop) :
  P FUnit → (∀ cs, P (FWith cs)) → (∀ cs, P (FWithout cs)) → (∀ c, P (FAdded c)) → (∀ c, P (FChanged c)) →
  (∀ fs, Forall P fs → P (FAnd fs)) → (∀ fs, Forall P fs → P (FOr fs)) → ∀ f, P f.
Proof.
  intros H1 H2 H3 H4 H5 H6 H7. fix IH 1. intros [|cs|cs|c|c|fs|fs]; [exact H1|apply H2|apply H3|apply H4|apply H5| |].
  - apply H6. induction fs; constructor; [apply IH|done].
  - apply H7. induction fs; constructor; [apply IH|done].
Qed.

Lemma DataT_tree (P : DataT → Prop) :
  P DEntity → P DEntityRef → P DEntityMut → (∀ c, P (DRead c)) → (∀ c, P (DReadOpt c)) → (∀ c, P (DRef c)) → (∀ c, P (DRefOpt c)) →
  (∀ c, P (DMut c)) → (∀ c, P (DMutOpt c)) → (∀ ds, Forall P ds → P (DTuple ds)) → ∀ d, P d.
Proof.
  intros H1 H2 H3 H4 H5 H6 H7 H8 H9 H10. fix IH 1. intros [| | |c|c|c|c|c|c|ds]; [exact H1|exact H2|exact H3|apply H4|apply H5|apply H6|apply H7|apply H8|apply H9|].
  apply H10. induction ds; constructor; [apply IH|done].
Qed.
End trees.

(** ** Cells *)

Section cells.
Context `{VecGrowth}.
Variable desc : Z → ComponentDesc.
Variable known : gset Z.
Variables last_run this_run : Tick.
Variable w : World.
Hypothesis Hinv : world_inv desc known w.
Notation info := (λ c, cd_info (desc c)).
Notation is_dense := (is_dense desc).

Lemma is_dense_spec c : if is_dense c then cd_storage (desc c) = Dense else cd_storage (desc c) = Sparse.
Proof. unfold Query.is_dense. destruct (cd_storage (desc c)) eqn:E; [by rewrite bool_decide_true|by rewrite bool_decide_false]. Qed.

(** The view of a component in the table of an entity. *)
Definition table_column (t : Table) (c : Z) : option Column := col ← Table_get_table_col t c; tbl_columns t !! col.

Lemma get_column_ok t c : table_ok info t →
  match Table_get_table_col t c with
  | Some col => ∃ x, tbl_columns t !! col = Some x ∧ table_column t c = Some x ∧ col_ok (tbl_capacity t) x
  | None => table_column t c = None
  end.
Proof.
  intros Hok. unfold table_column. destruct (Table_get_table_col t c) as [col|] eqn:E; [|done]. cbn.
  apply (get_table_col_Some info t c col Hok) in E.
  destruct (Forall2_lookup_l _ _ _ _ _ (ok_columns _ _ Hok) E) as (x & Hx & (Hc & _)). eauto.
Qed.

Lemma dense_get e l t c : located (w_entities w) e = Some l → ts_tables (w_tables w) !! Z.to_nat (table_id l) = Some t → is_dense c = true →
  World_get w e c = (λ x, Column_cell x (Z.to_nat (table_row l))) <$> table_column t c.
Proof.
  intros Hl Ht Hd. pose proof (is_dense_spec c) as Hs. rewrite Hd in Hs.
  destruct (rows_entity desc known w e l Hinv Hl) as (a & t' & Ha & Ht' & Hid & _ & Hrow & Hof & Hok & Hlive & Hcomps & Hao).
  rewrite Ht in Ht'. injection Ht' as <-. unfold World_get. rewrite Hof. cbn [mbind option_bind].
  rewrite <- Hid, Ht. cbn [mbind option_bind]. rewrite (Table_lookup_row info t e c _ Hok Hrow).
  unfold table_column. destruct (Table_get_table_col t c) as [k|] eqn:Ek; cbn [mbind option_bind].
  - rewrite decide_True; [by destruct (tbl_columns t !! k)|]. rewrite <- Hcomps.
    apply (get_table_col_Some info t c k Hok) in Ek. by eapply list_elem_of_lookup_2.
  - rewrite decide_False.
    + cbn. destruct (map_get (w_maps w) c e) eqn:Em; [exfalso|done].
      destruct (proj1 (rw_sparse _ _ (proj2 Hinv) c e)) as (a' & Ha' & Hc); [by eexists|]. rewrite Hof in Ha'. injection Ha' as <-.
      apply (set_ok_sparse desc _ _ c (ao_set _ _ _ _ _ Hao)) in Hc as [_ Hc]. congruence.
    + rewrite <- Hcomps. intros (k & Hk)%list_elem_of_lookup. apply (get_table_col_Some info t c k Hok) in Hk. congruence.
Qed.

Lemma sparse_get e l c : located (w_entities w) e = Some l → is_dense c = false → World_get w e c = map_get (w_maps w) c e.
Proof.
  intros Hl Hd. pose proof (is_dense_spec c) as Hs. rewrite Hd in Hs.
  destruct (rows_entity desc known w e l Hinv Hl) as (a & _ & _ & _ & _ & _ & _ & Hof & _ & _ & _ & Hao).
  unfold World_get. rewrite Hof. cbn [mbind option_bind]. rewrite decide_False; [done|].
  intros Hc. apply (set_ok_dense desc _ _ c (ao_set _ _ _ _ _ Hao)) in Hc as [_ Hc]. congruence.
Qed.

Lemma cell_written e l c x : located (w_entities w) e = Some l → World_get w e c = Some x → written x.
Proof.
  intros Hl. destruct (rows_entity desc known w e l Hinv Hl) as (a & t & _ & Ht & Hid & _ & _ & Hof & _ & Hlive & _).
  unfold World_get. rewrite Hof. cbn [mbind option_bind]. rewrite <- Hid, Ht. cbn [mbind option_bind].
  case_decide; [apply Hlive|apply (rw_sparse_live _ _ (proj2 Hinv))].
Qed.

(** An entity has a cell for exactly its components. *)
Lemma World_get_has e l c : located (w_entities w) e = Some l → is_Some (World_get w e c) ↔ has w e c = true.
Proof.
  intros Hl. destruct (rows_entity desc known w e l Hinv Hl) as (a & t & _ & Ht & Hid & _ & Hrow & Hof & Hok & _ & Hcomps & Hao).
  unfold has, World_components. rewrite Hof. cbn [fmap option_fmap option_map default].
  rewrite bool_decide_eq_true. destruct (is_dense c) eqn:Hd; pose proof (is_dense_spec c) as Hs; rewrite Hd in Hs.
  - rewrite (dense_get e l t c Hl Ht Hd), fmap_is_Some. pose proof (get_column_ok t c Hok) as Hcol.
    assert (c ∈ ar_components a ↔ is_Some (Table_get_table_col t c)) as ->.
    { split.
      - intros Hc. assert (c ∈ tbl_components t) as (k & Hk)%list_elem_of_lookup.
        { rewrite Hcomps. apply (set_ok_dense desc _ _ c (ao_set _ _ _ _ _ Hao)). done. }
        exists k. by apply (get_table_col_Some info t c k Hok).
      - intros [k Hk]. apply (get_table_col_Some info t c k Hok), list_elem_of_lookup_2 in Hk. rewrite Hcomps in Hk.
        by apply (set_ok_dense desc _ _ c (ao_set _ _ _ _ _ Hao)) in Hk as [? _]. }
    destruct (Table_get_table_col t c); [destruct Hcol as (x & _ & -> & _)|rewrite Hcol]; split; intros [? ?]; eauto; done.
  - rewrite (sparse_get e l c Hl Hd), (rw_sparse _ _ (proj2 Hinv) c e). split.
    + intros (a' & Ha' & Hc). rewrite Hof in Ha'. injection Ha' as <-.
      by apply (set_ok_sparse desc _ _ c (ao_set _ _ _ _ _ Hao)) in Hc as [? _].
    + intros Hc. exists a. split; [done|]. by apply (set_ok_sparse desc _ _ c (ao_set _ _ _ _ _ Hao)).
Qed.

(** ** Fetching a cell *)

Definition view_at (t : Table) (c : Z) (cache : Cache) : Prop :=
  if is_dense c then cache = CColumn (table_column t c) else cache = CMap (map_of (w_maps w) c).

(** What a getter of a column makes of a written cell. *)
Definition reads (get : Column → nat → outcome Item) (mk : value → Tick → Tick → Item) : Prop :=
  ∀ cap col r v a c, col_ok cap col → r < cap → Column_cell col r = (v, Some a, Some c) → get col r = Ret (mk v a c).

Lemma get_value_reads : reads get_value (λ v _ _, IValue v).
Proof. intros cap col r v a c Hok Hr Hc. unfold get_value. by rewrite (Column_get_data_spec cap), Hc. Qed.

Lemma Column_get_ref_ok cap col r v a c : col_ok cap col → r < cap → Column_cell col r = (v, Some a, Some c) →
  Column_get_ref col r = Ret (v, a, c).
Proof.
  intros Hok Hr Hc. unfold Column_get_ref. rewrite (Column_get_data_spec cap), Hc by done. cbn [mbind outcome_bind fst].
  unfold Column_cell in Hc. injection Hc as _ Ha Hch. unfold Column_get_added, Column_get_changed, TickArray_get.
  by rewrite Ha, Hch.
Qed.

Lemma get_ref_reads : reads get_ref IRef.
Proof. intros cap col r v a c Hok Hr Hc. unfold get_ref. by rewrite (Column_get_ref_ok cap col r v a c). Qed.

Lemma get_mut_reads : reads get_mut IMut.
Proof. intros cap col r v a c Hok Hr Hc. unfold get_mut. by rewrite (Column_get_ref_ok cap col r v a c). Qed.

Lemma map_row_ok c m e r : map_of (w_maps w) c = Some m → Map_get_map_row m e = Some r →
  r < Map_capacity m ∧ col_ok (Map_capacity m) (map_column m) ∧ map_get (w_maps w) c e = Some (Column_cell (map_column m) r).
Proof.
  intros Hm Hr. destruct (map_of_shape desc _ c m (rw_maps_ok _ _ (proj2 Hinv)) Hm) as (hw & Hs). split_and!.
  - apply (mok_mapper _ _ _ Hs) in Hr. by apply lookup_lt_Some in Hr.
  - apply Hs.
  - unfold map_get. rewrite Hm. cbn. unfold Map_lookup. by rewrite Hr.
Qed.

Lemma fetch_cell_ok get mk e l t c cache : reads get mk → located (w_entities w) e = Some l →
  ts_tables (w_tables w) !! Z.to_nat (table_id l) = Some t → view_at t c cache →
  fetch_cell get cache e (Z.to_nat (table_row l)) = Ret (cell_item mk (World_get w e c)).
Proof.
  intros Hget Hl Ht. unfold view_at. destruct (rows_entity desc known w e l Hinv Hl) as (a & t' & _ & Ht' & _ & _ & Hrow & _ & Hok & _).
  rewrite Ht in Ht'. injection Ht' as <-. pose proof (cell_written e l c) as Hlive. destruct (is_dense c) eqn:Hd; intros ->; cbn [fetch_cell].
  - rewrite (dense_get e l t c Hl Ht Hd) in *. pose proof (get_column_ok t c Hok) as Hcol.
    destruct (Table_get_table_col t c); [destruct Hcol as (x & _ & Hx & Hcok)|rewrite Hcol; done]. rewrite Hx in *.
    cbn [fmap option_fmap option_map] in *. destruct (Hlive _ Hl eq_refl) as [[ta Ha] [tc Hc]].
    destruct (Column_cell x (Z.to_nat (table_row l))) as [[v a'] c'] eqn:Ecell. cbn in Ha, Hc. subst a' c'.
    rewrite (Hget (tbl_capacity t) x _ v ta tc Hcok); [done| |done].
    apply lookup_lt_Some in Hrow. pose proof (ok_len _ _ Hok). lia.
  - rewrite (sparse_get e l c Hl Hd) in *. destruct (map_of (w_maps w) c) as [m|] eqn:Em; [|unfold map_get; by rewrite Em].
    destruct (Map_get_map_row m e) as [r|] eqn:Er.
    2:{ unfold map_get, Map_lookup. rewrite Em. cbn. by rewrite Er. }
    destruct (map_row_ok c m e r Em Er) as (Hlt & Hcok & Hx). rewrite decide_True by done. rewrite Hx in *.
    destruct (Hlive _ Hl eq_refl) as [[ta Ha] [tc Hc]].
    destruct (Column_cell (map_column m) r) as [[v a'] c'] eqn:Ecell. cbn in Ha, Hc. subst a' c'.
    by rewrite (Hget (Map_capacity m) _ r v ta tc Hcok Hlt Ecell).
Qed.
End cells.
