(* ===== verification/QueryCaches.v ===== *)
(** * The caches of a query

    Set for a table or an archetype, the caches of query data and filters read for every
    entity in it exactly what the data and filters mean. *)

From Stdlib Require Import ZArith Lia Sorting.Sorted.
From S2P Require Import Prelude Tick EntityIdent EntityInfo FreeCount FreeBuffer Allocator Column Table SparseMap.
From S2P Require Import Locations Registry World WorldInv Access QueryMatch Query QueryCells.

(** ** Tuples of caches *)

(** An element and its cache, pair by pair. *)
Definition pairwise {A} (P : A → Cache → Prop) : list A → list Cache → Prop :=
  fix go l cs := match l, cs with [], [] => True | x :: l, c :: cs => P x c ∧ go l cs | _, _ => False end.

Lemma pairwise_impl {A} (P Q : A → Cache → Prop) l cs : (∀ x c, P x c → Q x c) → pairwise P l cs → pairwise Q l cs.
Proof. intros HPQ. revert cs. induction l as [|x l IH]; intros [|c cs]; cbn; try done. intros [? ?]. auto. Qed.

Lemma pairwise_impl_in {A} (P Q : A → Cache → Prop) l cs : Forall (λ x, ∀ c, P x c → Q x c) l → pairwise P l cs → pairwise Q l cs.
Proof. intros HPQ. revert cs. induction HPQ as [|x l Hx Hl IH]; intros [|c cs]; cbn; try done. intros [? ?]. auto. Qed.

Lemma each_cache_ok {A} (g : A → Cache → outcome Cache) (P Q : A → Cache → Prop) l cs :
  Forall (λ x, ∀ c, P x c → ∃ c', g x c = Ret c' ∧ Q x c') l → pairwise P l cs →
  ∃ cs', each_cache g l cs = Ret cs' ∧ pairwise Q l cs'.
Proof.
  intros Hl. revert cs. induction Hl as [|x l Hx Hl IH]; intros [|c cs]; cbn; try done; [by exists []|].
  intros [Hc Hcs]. destruct (Hx c Hc) as (c' & -> & Hc'). destruct (IH cs Hcs) as (cs' & -> & Hcs'). cbn. by exists (c' :: cs').
Qed.

Lemma all_cache_ok {A} (g : A → Cache → outcome bool) (h : A → bool) (P : A → Cache → Prop) l cs :
  Forall (λ x, ∀ c, P x c → g x c = Ret (h x)) l → pairwise P l cs → all_cache g l cs = Ret (forallb h l).
Proof.
  intros Hl. revert cs. induction Hl as [|x l Hx Hl IH]; intros [|c cs]; cbn; try done.
  intros [Hc Hcs]. rewrite (Hx c Hc). cbn. destruct (h x); [by apply IH|done].
Qed.

Lemma any_cache_ok {A} (g : A → Cache → outcome bool) (h : A → bool) (P : A → Cache → Prop) l cs :
  Forall (λ x, ∀ c, P x c → g x c = Ret (h x)) l → pairwise P l cs → any_cache g l cs = Ret (existsb h l).
Proof.
  intros Hl. revert cs. induction Hl as [|x l Hx Hl IH]; intros [|c cs]; cbn; try done.
  intros [Hc Hcs]. rewrite (Hx c Hc). cbn. destruct (h x); [done|by apply IH].
Qed.

Lemma fetch_cache_ok {A} (g : A → Cache → outcome (option Item)) (h : A → option Item) (P : A → Cache → Prop) l cs :
  Forall (λ x, ∀ c, P x c → g x c = Ret (h x)) l → pairwise P l cs → fetch_cache g l cs = Ret (gather h l).
Proof.
  intros Hl. revert cs. induction Hl as [|x l Hx Hl IH]; intros [|c cs]; cbn; try done.
  intros [Hc Hcs]. rewrite (Hx c Hc). cbn. destruct (h x); [|done]. by rewrite (IH cs Hcs).
Qed.

Section caches.
Context `{VecGrowth}.
Variable desc : Z → ComponentDesc.
Variable known : gset Z.
Variables last_run this_run : Tick.
Variable w : World.
Hypothesis Hinv : world_inv desc known w.
Notation info := (λ c, cd_info (desc c)).
Notation is_dense := (is_dense desc).
Notation view_at := (view_at desc w).

(** The entity has a row in the table. *)
Definition in_table (t : Table) (e : Entity) : Prop :=
  ∃ l, located (w_entities w) e = Some l ∧ ts_tables (w_tables w) !! Z.to_nat (table_id l) = Some t.

(** ** Data *)

(** Before a table is set, the maps of the sparse components are. *)
Definition view_ok (c : Z) (cache : Cache) : Prop := is_dense c = false → cache = CMap (map_of (w_maps w) c).

Fixpoint D_cache (leaf : Z → Cache → Prop) (d : DataT) (cache : Cache) : Prop :=
  match d with
  | DEntity | DEntityRef | DEntityMut => True
  | DRead c | DReadOpt c | DRef c | DRefOpt c | DMut c | DMutOpt c => leaf c cache
  | DTuple ds => match cache with CTuple cs => pairwise (D_cache leaf) ds cs | _ => False end
  end.

Lemma D_cache_impl (P Q : Z → Cache → Prop) d cache : (∀ c x, P c x → Q c x) → D_cache P d cache → D_cache Q d cache.
Proof.
  intros HPQ. revert cache. induction d as [| | |c|c|c|c|c|c|ds IH] using DataT_tree; intros cache; cbn [D_cache]; auto.
  destruct cache as [| | | | |cs]; try done. by apply pairwise_impl_in.
Qed.

Lemma view_cache_ok c : ∃ x, view_cache desc w c = Ret x ∧ view_ok c x.
Proof.
  unfold view_cache, view_ok. destruct (is_dense c) eqn:Hd; [by eexists|]. unfold map_cache, Maps_get_id, map_of.
  destruct (ms_mapper (w_maps w) !! c) as [id|] eqn:Ei; cbn; [|by eexists].
  destruct (mp_shape _ _ (rw_maps_ok _ _ (proj2 Hinv)) c id Ei) as (m & _ & -> & _). by eexists.
Qed.

Lemma D_build_cache_ok d : ∃ x, D_build_cache desc d w = Ret x ∧ D_cache view_ok d x.
Proof.
  induction d as [| | |c|c|c|c|c|c|ds IH] using DataT_tree; cbn [D_build_cache D_cache]; try apply view_cache_ok; try by eexists.
  assert (∃ cs, (fix go ds := match ds with [] => Ret [] | d :: ds => c ← D_build_cache desc d w; cs ← go ds; Ret (c :: cs) end) ds = Ret cs ∧
    pairwise (D_cache view_ok) ds cs) as (cs & -> & Hcs); [|by eexists].
  induction IH as [|d ds (x & Hx & Hd) Hds (cs & Hcs & Hp)]; [by exists []|]. exists (x :: cs). rewrite Hx. cbn. by rewrite Hcs.
Qed.

Lemma view_at_ok t c x : view_at t c x → view_ok c x.
Proof. unfold view_at, view_ok. by destruct (is_dense c). Qed.

Lemma set_view_ok t c x : table_ok info t → view_ok c x → ∃ x', set_view desc c x t = Ret x' ∧ view_at t c x'.
Proof.
  intros Hok Hx. unfold set_view, QueryCells.view_at, view_ok in *. destruct (is_dense c); [|eauto].
  pose proof (get_column_ok desc t c Hok) as Hc. destruct (Table_get_table_col t c) as [k|].
  - destruct Hc as (col & Hcol & -> & _). unfold Table_get_column. rewrite Hcol. cbn. eauto.
  - rewrite Hc. eauto.
Qed.

Lemma D_set_ok t d x : table_ok info t → D_cache view_ok d x → ∃ x', D_set_for_table desc d x t = Ret x' ∧ D_cache (view_at t) d x'.
Proof.
  intros Hok. revert x. induction d as [| | |c|c|c|c|c|c|ds IH] using DataT_tree; intros x; cbn [D_set_for_table D_cache];
    try apply set_view_ok; try done; try by eexists.
  destruct x as [| | | | |cs]; try done. intros Hcs.
  destruct (each_cache_ok (λ d c, D_set_for_table desc d c t) _ (D_cache (view_at t)) ds cs IH Hcs) as (cs' & -> & Hcs'). cbn. by eexists.
Qed.

Lemma D_fetch_ok t d x e l : located (w_entities w) e = Some l → ts_tables (w_tables w) !! Z.to_nat (table_id l) = Some t →
  D_cache (view_at t) d x → D_fetch w d x e (Z.to_nat (table_row l)) = Ret (data_item w d e).
Proof.
  intros Hl Ht. assert (locate_unwrap w e = Ret l) as Hloc.
  { unfold locate_unwrap. unfold located in Hl. destruct (Entities_locate _ _); by simplify_eq. }
  revert x. induction d as [| | |c|c|c|c|c|c|ds IH] using DataT_tree; intros x; cbn [D_fetch D_cache data_item]; intros Hx.
  - done. - by rewrite Hloc, Hl. - by rewrite Hloc, Hl.
  - by rewrite (fetch_cell_ok desc known w Hinv get_value _ e l t c x get_value_reads Hl Ht Hx).
  - by rewrite (fetch_cell_ok desc known w Hinv get_value _ e l t c x get_value_reads Hl Ht Hx).
  - by rewrite (fetch_cell_ok desc known w Hinv get_ref _ e l t c x get_ref_reads Hl Ht Hx).
  - by rewrite (fetch_cell_ok desc known w Hinv get_ref _ e l t c x get_ref_reads Hl Ht Hx).
  - by rewrite (fetch_cell_ok desc known w Hinv get_mut _ e l t c x get_mut_reads Hl Ht Hx).
  - by rewrite (fetch_cell_ok desc known w Hinv get_mut _ e l t c x get_mut_reads Hl Ht Hx).
  - destruct x as [| | | | |cs]; try done.
    by rewrite (fetch_cache_ok (λ d c, D_fetch w d c e (Z.to_nat (table_row l))) (λ d, data_item w d e) _ ds cs IH Hx).
Qed.

(** ** Ticks *)

(** One of the two tick arrays, with its accessors. *)
Record tick_side (arr : Column → TickArray) (pick : cell → option Tick) (slice : Table → nat → outcome (list Tick))
    (get : SMap → nat → outcome Tick) : Prop := {
  side_pick : ∀ col r, pick (Column_cell col r) = mjoin (arr col !! r);
  side_len : ∀ cap col, col_ok cap col → length (arr col) = cap;
  side_slice : ∀ t k, slice t k = (c ← Table_get_column t k; TickArray_slice (arr c) (Table_entity_count t));
  side_get : ∀ m r, get m r = if decide (r < Map_capacity m) then TickArray_get (arr (map_column m)) r else Panic;
  side_live : ∀ x, written x → is_Some (pick x)
}.

Lemma added_side : tick_side col_added (λ x, x.1.2) Table_get_added_slice Map_get_added.
Proof. split; try done; intros; [by destruct H0 as (_ & ? & _)|by destruct H0]. Qed.

Lemma changed_side : tick_side col_changed (λ x, x.2) Table_get_changed_slice Map_get_changed.
Proof. split; try done; intros; [by destruct H0 as (_ & _ & ?)|by destruct H0]. Qed.

Lemma TickArray_slice_ok (s : TickArray) n : n ≤ length s → (∀ r, r < n → is_Some (mjoin (s !! r))) →
  ∃ ts, TickArray_slice s n = Ret ts ∧ ∀ r, r < n → ts !! r = mjoin (s !! r).
Proof.
  intros Hn Hs. unfold TickArray_slice, mem_load. rewrite decide_True by lia. cbn [mbind outcome_bind]. rewrite drop_0.
  destruct (mapM id (take n s)) as [ts|] eqn:E.
  - exists ts. split; [done|]. intros r Hr. apply mapM_Some in E.
    destruct (Hs r Hr) as [x Hx]. rewrite Hx.
    assert (take n s !! r = Some (Some x)) as Htk.
    { rewrite lookup_take_lt by done. destruct (s !! r) as [y|]; cbn in Hx; [by subst|done]. }
    destruct (Forall2_lookup_l _ _ _ _ _ E Htk) as (y & Hy & [= <-]). done.
  - exfalso. apply mapM_None in E. apply Exists_exists in E as (x & (r & Hr)%list_elem_of_lookup & Hx). cbn in Hx. subst x.
    apply lookup_take_Some in Hr as [Hr Hrn]. specialize (Hs r Hrn). rewrite Hr in Hs. by destruct Hs.
Qed.

Section side.
Context {arr pick slice get} (Hside : tick_side arr pick slice get).

Definition ticks_at (t : Table) (c : Z) (cache : Cache) : Prop :=
  if is_dense c then
    match table_column t c with
    | None => cache = CTicks None
    | Some col => ∃ ts, cache = CTicks (Some ts) ∧ ∀ r, r < length (tbl_entities t) → ts !! r = mjoin (arr col !! r)
    end
  else cache = CMap (map_of (w_maps w) c).

Lemma set_ticks_ok t c x : table_ok info t → table_live t → view_ok c x → ∃ x', set_ticks desc slice c x t = Ret x' ∧ ticks_at t c x'.
Proof.
  intros Hok Hlive Hx. unfold set_ticks, ticks_at, view_ok in *. destruct (is_dense c); [|eauto].
  pose proof (get_column_ok desc t c Hok) as Hc. destruct (Table_get_table_col t c) as [k|] eqn:Ek; [|rewrite Hc; eauto].
  destruct Hc as (col & Hcol & -> & Hcok). rewrite (side_slice _ _ _ _ Hside). unfold Table_get_column. rewrite Hcol. cbn [of_option mbind outcome_bind].
  destruct (TickArray_slice_ok (arr col) (Table_entity_count t)) as (ts & -> & Hts).
  - rewrite (side_len _ _ _ _ Hside _ _ Hcok). apply Hok.
  - intros r Hr. rewrite <- (side_pick _ _ _ _ Hside). apply (side_live _ _ _ _ Hside).
    destruct (lookup_lt_is_Some_2 _ _ Hr) as [e He]. apply (Hlive e c). rewrite (Table_lookup_row info t e c r Hok He), Ek. cbn. by rewrite Hcol.
  - cbn. eauto.
Qed.

Lemma newer_ok t c x e l : located (w_entities w) e = Some l → ts_tables (w_tables w) !! Z.to_nat (table_id l) = Some t → ticks_at t c x →
  newer last_run this_run get c x e (Z.to_nat (table_row l)) = Ret (newer_tick last_run this_run (x ← World_get w e c; pick x)).
Proof.
  intros Hl Ht. unfold ticks_at. destruct (rows_entity desc known w e l Hinv Hl) as (a & t' & _ & Ht' & _ & _ & Hrow & _ & Hok & _).
  rewrite Ht in Ht'. injection Ht' as <-. pose proof (cell_written desc known w Hinv e l c) as Hlive. destruct (is_dense c) eqn:Hd.
  - rewrite (dense_get desc known w Hinv e l t c Hl Ht Hd) in *. destruct (table_column t c) as [col|]; [|by intros ->].
    intros (ts & -> & Hts). cbn [newer fmap option_fmap option_map mbind option_bind] in *.
    rewrite Hts by (by eapply lookup_lt_Some). destruct (side_live _ _ _ _ Hside _ (Hlive _ Hl eq_refl)) as [tick Htick].
    rewrite Htick. rewrite (side_pick _ _ _ _ Hside) in Htick. by rewrite Htick.
  - rewrite (sparse_get desc known w Hinv e l c Hl Hd) in *. intros ->. cbn [newer].
    destruct (map_of (w_maps w) c) as [m|] eqn:Em; [|unfold map_get; by rewrite Em].
    destruct (Map_get_map_row m e) as [r|] eqn:Er.
    2:{ unfold map_get, Map_lookup. rewrite Em. cbn. by rewrite Er. }
    destruct (map_row_ok desc known w Hinv c m e r Em Er) as (Hlt & _ & Hx). rewrite Hx in *. cbn [mbind option_bind].
    rewrite (side_get _ _ _ _ Hside), decide_True by done.
    destruct (side_live _ _ _ _ Hside _ (Hlive _ Hl eq_refl)) as [tick Htick]. rewrite Htick.
    rewrite (side_pick _ _ _ _ Hside) in Htick. unfold TickArray_get. by rewrite Htick.
Qed.
End side.
End caches.
