(* ===== verification/QueryFilters.v ===== *)
(** * The filters of a query

    Filters read through their caches what they mean; and the component sets a query is
    matched against ([FilterParam]) are exactly those that the static part of its filters
    and the components of its data admit. *)

From Stdlib Require Import ZArith Lia Sorting.Sorted.
From stdpp Require Import sorting.
From S2P Require Import Prelude Tick EntityIdent EntityInfo FreeCount FreeBuffer Allocator Column Table SparseMap.
From S2P Require Import Locations Registry World WorldInv Access QueryMatch Query QueryCells QueryCaches.

Lemma none_flag (o : option nat) : bool_decide (o = None) = negb (bool_decide (is_Some o)).
Proof. destruct o; repeat case_bool_decide; try done; exfalso; naive_solver. Qed.

Section filters.
Context `{VecGrowth}.
Variable desc : Z → ComponentDesc.
Variable known : gset Z.
Variables last_run this_run : Tick.
Variable w : World.
Hypothesis Hinv : world_inv desc known w.
Notation info := (λ c, cd_info (desc c)).
Notation is_dense := (is_dense desc).
Notation view_ok := (view_ok desc w).
Notation ticks_at arr := (QueryCaches.ticks_at desc w (arr := arr)).
Notation in_table := (in_table w).

Fixpoint F_cache (added changed : Z → Cache → Prop) (withs withouts : list Z → Cache → Prop) (f : FilterT) (cache : Cache) : Prop :=
  match f with
  | FUnit => True
  | FWith cs => withs cs cache
  | FWithout cs => withouts cs cache
  | FAdded c => added c cache
  | FChanged c => changed c cache
  | FAnd fs | FOr fs => match cache with CTuple cs => pairwise (F_cache added changed withs withouts) fs cs | _ => False end
  end.

Definition F_ok : FilterT → Cache → Prop := F_cache view_ok view_ok (λ _ _, True) (λ _ _, True).

Definition F_at (t : Table) (e : Entity) : FilterT → Cache → Prop :=
  F_cache (ticks_at col_added t) (ticks_at col_changed t)
    (λ cs x, x = CFlag (forallb (has w e) cs)) (λ cs x, x = CFlag (forallb (λ c, negb (has w e c)) cs)).

Lemma ticks_cache_ok c : view_ok c (ticks_cache desc w c).
Proof.
  intros Hd. unfold ticks_cache. rewrite Hd. unfold Maps_get_id, map_of. by destruct (ms_mapper (w_maps w) !! c).
Qed.

Lemma F_build_cache_ok f : F_ok f (F_build_cache desc f w).
Proof.
  induction f as [| | | | |fs IH|fs IH] using FilterT_tree; unfold F_ok; cbn [F_cache F_build_cache]; try done; try apply ticks_cache_ok;
    (induction IH; cbn; [done|by split]).
Qed.

(** Set, for all entities of a storage. *)
Definition F_set (t : Table) (S : Entity → Prop) (f : FilterT) (x : Cache) : Prop := F_ok f x ∧ ∀ e, S e → F_at t e f x.

Lemma ticks_at_ok arr t c x : ticks_at arr t c x → view_ok c x.
Proof. unfold QueryCaches.ticks_at, QueryCaches.view_ok. by destruct (is_dense c). Qed.

Lemma pairwise_set t S fs cs : pairwise (F_set t S) fs cs → pairwise F_ok fs cs ∧ ∀ e, S e → pairwise (F_at t e) fs cs.
Proof.
  intros Hp. split; [eapply pairwise_impl; [|done]; by intros x c [? _]|].
  intros e He. eapply pairwise_impl; [|done]. intros x c [_ Hx]. by apply Hx.
Qed.

Section set.
Variable t : Table.
Variable S : Entity → Prop.
Hypothesis Hok : table_ok info t.
Hypothesis Hlive : table_live t.

Lemma F_ticks_set c x : view_ok c x → ∃ x', set_ticks desc Table_get_added_slice c x t = Ret x' ∧ F_set t S (FAdded c) x'.
Proof.
  intros Hx. destruct (set_ticks_ok desc w added_side t c x Hok Hlive Hx) as (x' & -> & Hat). exists x'. split; [done|].
  split; [by eapply ticks_at_ok|done].
Qed.

Lemma F_changed_set c x : view_ok c x → ∃ x', set_ticks desc Table_get_changed_slice c x t = Ret x' ∧ F_set t S (FChanged c) x'.
Proof.
  intros Hx. destruct (set_ticks_ok desc w changed_side t c x Hok Hlive Hx) as (x' & -> & Hat). exists x'. split; [done|].
  split; [by eapply ticks_at_ok|done].
Qed.

Lemma F_tuple_set (g : FilterT → Cache → outcome Cache) (f : FilterT) fs x :
  f = FAnd fs ∨ f = FOr fs → Forall (λ f, ∀ x, F_ok f x → ∃ x', g f x = Ret x' ∧ F_set t S f x') fs → F_ok f x →
  ∃ x', match x with CTuple cs => cs ← each_cache g fs cs; Ret (CTuple cs) | _ => Undefined end = Ret x' ∧ F_set t S f x'.
Proof.
  intros Hf IH Hx. assert (∃ cs, x = CTuple cs ∧ pairwise F_ok fs cs) as (cs & -> & Hcs).
  { unfold F_ok in *. destruct Hf as [-> | ->]; cbn in Hx; destruct x as [| | | | |cs]; try done; eauto. }
  destruct (each_cache_ok g _ (F_set t S) fs cs IH Hcs) as (cs' & -> & [H1 H2]%pairwise_set). cbn. eexists. split; [done|].
  by destruct Hf as [-> | ->].
Qed.

Lemma F_set_arche_ok a f x : (∀ e c, S e → arche_has desc a c = has w e c) → F_ok f x →
  ∃ x', F_set_for_arche desc f x a t = Ret x' ∧ F_set t S f x'.
Proof.
  intros Ha. revert x. induction f as [|cs|cs|c|c|fs IH|fs IH] using FilterT_tree; intros x Hx; cbn [F_set_for_arche].
  - exists x. by split.
  - eexists. split; [done|]. split; [done|]. intros e He. unfold F_at; cbn. f_equal. induction cs as [|c cs IHc]; cbn; [done|]. by rewrite IHc, (Ha e c He).
  - eexists. split; [done|]. split; [done|]. intros e He. unfold F_at; cbn. f_equal. induction cs as [|c cs IHc]; cbn; [done|]. by rewrite IHc, (Ha e c He).
  - by apply F_ticks_set.
  - by apply F_changed_set.
  - apply (F_tuple_set (λ f c, F_set_for_arche desc f c a t)); auto.
  - apply (F_tuple_set (λ f c, F_set_for_arche desc f c a t)); auto.
Qed.

Lemma F_set_table_ok f x : F_COMPONENTS_ARE_DENSE desc f = true →
  (∀ e c, S e → is_dense c = true → bool_decide (is_Some (Table_get_table_col t c)) = has w e c) → F_ok f x →
  ∃ x', F_set_for_table desc f x t = Ret x' ∧ F_set t S f x'.
Proof.
  intros Hd Ht. revert Hd x. induction f as [|cs|cs|c|c|fs IH|fs IH] using FilterT_tree; intros Hd x Hx; cbn [F_set_for_table F_COMPONENTS_ARE_DENSE] in *.
  - exists x. by split.
  - rewrite Hd. eexists. split; [done|]. split; [done|]. intros e He. unfold F_at; cbn. f_equal.
    induction cs as [|c cs IHc]; cbn in *; [done|]. apply andb_prop in Hd as [Hc Hcs]. by rewrite IHc, (Ht e c He Hc).
  - rewrite Hd. eexists. split; [done|]. split; [done|]. intros e He. unfold F_at; cbn. f_equal.
    induction cs as [|c cs IHc]; cbn in *; [done|]. apply andb_prop in Hd as [Hc Hcs]. rewrite IHc, <- (Ht e c He Hc) by done.
    by rewrite none_flag.
  - by apply F_ticks_set.
  - by apply F_changed_set.
  - apply (F_tuple_set (λ f c, F_set_for_table desc f c t)); auto. rewrite forallb_forall in Hd. rewrite Forall_forall in *. intros f Hf. apply IH; [done|].
    apply Hd. by apply list_elem_of_In.
  - apply (F_tuple_set (λ f c, F_set_for_table desc f c t)); auto. rewrite forallb_forall in Hd. rewrite Forall_forall in *. intros f Hf. apply IH; [done|].
    apply Hd. by apply list_elem_of_In.
Qed.
End set.

Lemma F_filter_ok t f x e l : located (w_entities w) e = Some l → ts_tables (w_tables w) !! Z.to_nat (table_id l) = Some t →
  F_at t e f x → F_filter last_run this_run f x e (Z.to_nat (table_row l)) = Ret (filter_holds last_run this_run w f e).
Proof.
  intros Hl Ht. revert x. induction f as [|cs|cs|c|c|fs IH|fs IH] using FilterT_tree; unfold F_at; intros x; cbn [F_cache F_filter filter_holds]; intros Hx.
  - done. - by subst x. - by subst x.
  - by apply (newer_ok desc known last_run this_run w Hinv added_side t c x e l Hl Ht).
  - by apply (newer_ok desc known last_run this_run w Hinv changed_side t c x e l Hl Ht).
  - destruct x as [| | | | |cs]; try done.
    exact (all_cache_ok (λ f c, F_filter last_run this_run f c e (Z.to_nat (table_row l))) (λ f, filter_holds last_run this_run w f e) _ fs cs IH Hx).
  - destruct x as [| | | | |cs]; try done.
    exact (any_cache_ok (λ f c, F_filter last_run this_run f c e (Z.to_nat (table_row l))) (λ f, filter_holds last_run this_run w f e) _ fs cs IH Hx).
Qed.
End filters.
