(* ===== verification/QueryStates.v ===== *)
(** * Matched storages

    The filters a query builds admit exactly the component sets of its static part, and
    [QueryState] keeps exactly the tables or archetypes they admit, also when it is only
    brought up to date with those registered since. *)

From Stdlib Require Import ZArith Lia Sorting.Sorted.
From stdpp Require Import sorting.
From S2P Require Import Prelude Tick EntityIdent EntityInfo FreeCount FreeBuffer Allocator Column Table SparseMap.
From S2P Require Import Locations Registry World WorldInv WorldRegister WorldGrows Access QueryMatch Query QueryCells QueryCaches QueryFilters.

(** ** Component sets a filter admits *)

Fixpoint static_holds (f : FilterT) (cs : list Z) : bool :=
  match f with
  | FUnit => true
  | FWith ids => forallb (λ c, bool_decide (c ∈ cs)) ids
  | FWithout ids => forallb (λ c, bool_decide (c ∉ cs)) ids
  | FAdded c | FChanged c => bool_decide (c ∈ cs)
  | FAnd fs => forallb (λ f, static_holds f cs) fs
  | FOr fs => existsb (λ f, static_holds f cs) fs
  end.

Fixpoint required (d : DataT) : list Z :=
  match d with
  | DRead c | DRef c | DMut c => [c]
  | DTuple ds => concat (map required ds)
  | _ => []
  end.

Definition b_admits (cs : list Z) (b : FilterParamBuilder) : Prop :=
  (∀ c, c ∈ b_with b → c ∈ cs) ∧ (∀ c, c ∈ b_without b → c ∉ cs).

Definition admitted (cs : list Z) (bs : list FilterParamBuilder) : Prop := Exists (b_admits cs) bs.

Lemma foldl_with b ids : foldl FilterParamBuilder_with b ids = mkBuilder (list_to_set ids ∪ b_with b) (b_without b).
Proof.
  revert b. induction ids as [|c ids IH]; intros b; cbn; [destruct b; f_equal; set_solver|].
  rewrite IH. unfold FilterParamBuilder_with. cbn. f_equal. set_solver.
Qed.

Lemma foldl_without b ids : foldl FilterParamBuilder_without b ids = mkBuilder (b_with b) (list_to_set ids ∪ b_without b).
Proof.
  revert b. induction ids as [|c ids IH]; intros b; cbn; [destruct b; f_equal; set_solver|].
  rewrite IH. unfold FilterParamBuilder_without. cbn. f_equal. set_solver.
Qed.

Lemma admitted_one cs b : admitted cs [b] ↔ b_admits cs b.
Proof. unfold admitted. rewrite Exists_cons, Exists_nil. tauto. Qed.

Lemma admitted_app cs x y : admitted cs (x ++ y) ↔ admitted cs x ∨ admitted cs y.
Proof. apply Exists_app. Qed.

Lemma merge_admits cs a b : b_admits cs a ∧ b_admits cs b ↔ ∃ m, FilterParamBuilder_merge a b = Some m ∧ b_admits cs m.
Proof.
  unfold FilterParamBuilder_merge. split.
  - intros [[Ha Ha'] [Hb Hb']]. rewrite !bool_decide_true by set_solver. eexists. split; [done|]. split; cbn; set_solver.
  - intros (m & Hm & Hw & Ho). destruct (_ && _); [|done]. injection Hm as <-. cbn in *. unfold b_admits. set_solver.
Qed.

Lemma merge_builders_admits cs x y : admitted cs (merge_builders x y) ↔ admitted cs x ∧ admitted cs y.
Proof.
  unfold admitted, merge_builders. rewrite !Exists_exists. split.
  - intros (m & Hm & Had). apply list_elem_of_bind in Hm as (a & Hm & Ha). apply list_elem_of_omap in Hm as (b & Hb & Hab).
    destruct (proj2 (merge_admits cs a b)) as [? ?]; [eauto|]. eauto 10.
  - intros [(a & Ha & Haa) (b & Hb & Hbb)]. destruct (proj1 (merge_admits cs a b)) as (m & Hm & Had); [done|]. exists m. split; [|done].
    apply list_elem_of_bind. exists a. split; [|done]. apply list_elem_of_omap. eauto.
Qed.

Lemma merge_all_admits cs ys x : admitted cs (foldl merge_builders x ys) ↔ admitted cs x ∧ Forall (admitted cs) ys.
Proof.
  revert x. induction ys as [|y ys IH]; intros x; cbn; [rewrite Forall_nil; tauto|].
  rewrite IH, merge_builders_admits, Forall_cons. tauto.
Qed.

Lemma F_build_filter_ok f cs : admitted cs (F_build_filter f) ↔ static_holds f cs = true.
Proof.
  induction f as [|ids|ids|c|c|fs IH|fs IH] using FilterT_tree; cbn [F_build_filter static_holds].
  - rewrite admitted_one. unfold b_admits. cbn. set_solver.
  - rewrite admitted_one, foldl_with, forallb_forall. unfold b_admits. cbn. setoid_rewrite elem_of_union. setoid_rewrite elem_of_list_to_set.
    setoid_rewrite <- list_elem_of_In. setoid_rewrite bool_decide_eq_true. set_solver.
  - rewrite admitted_one, foldl_without, forallb_forall. unfold b_admits. cbn. setoid_rewrite elem_of_union. setoid_rewrite elem_of_list_to_set.
    setoid_rewrite <- list_elem_of_In. setoid_rewrite bool_decide_eq_true. set_solver.
  - rewrite admitted_one, bool_decide_eq_true. unfold b_admits. cbn. set_solver.
  - rewrite admitted_one, bool_decide_eq_true. unfold b_admits. cbn. set_solver.
  - rewrite merge_all_admits, admitted_one. assert (b_admits cs FilterParamBuilder_new) as Hn by (unfold b_admits; cbn; set_solver).
    induction IH as [|f fs Hf Hfs IHfs]; cbn; [by rewrite Forall_nil|]. rewrite Forall_cons, andb_true_iff. tauto.
  - induction IH as [|f fs Hf Hfs IHfs]; cbn; [unfold admitted; by rewrite Exists_nil|]. rewrite admitted_app, orb_true_iff. tauto.
Qed.

Lemma map_with_admits cs c bs : admitted cs ((λ b, FilterParamBuilder_with b c) <$> bs) ↔ admitted cs bs ∧ c ∈ cs.
Proof.
  unfold admitted. rewrite Exists_fmap, !Exists_exists. unfold compose, b_admits. cbn. split.
  - intros (b & Hb & Hw & Ho). split; [|set_solver]. exists b. set_solver.
  - intros [(b & Hb & Hw & Ho) Hc]. exists b. set_solver.
Qed.

Lemma D_build_filter_ok d cs bs : admitted cs (D_build_filter d bs) ↔ admitted cs bs ∧ Forall (λ c, c ∈ cs) (required d).
Proof.
  revert bs. induction d as [| | |c|c|c|c|c|c|ds IH] using DataT_tree; intros bs; cbn [D_build_filter required];
    rewrite ?map_with_admits, ?Forall_nil, ?Forall_singleton; try tauto.
  revert bs. induction IH as [|d ds Hd Hds IHds]; intros bs; cbn; [rewrite Forall_nil; tauto|].
  rewrite IHds, Hd, Forall_app. tauto.
Qed.

(** ** Built filters *)

Definition p_admits (dense sparse : list Z) (p : FilterParam) : Prop :=
  Forall (λ c, c ∈ dense ∨ c ∈ sparse) (FilterParam_with p) ∧ Forall (λ c, c ∉ dense ∧ c ∉ sparse) (FilterParam_without p).

#[export] Instance p_admits_dec dense sparse p : Decision (p_admits dense sparse p) :=
  decide (Forall (λ c, c ∈ dense ∨ c ∈ sparse) (FilterParam_with p) ∧ Forall (λ c, c ∉ dense ∧ c ∉ sparse) (FilterParam_without p)).

Definition p_sorted (p : FilterParam) : Prop := ascends (FilterParam_with p) ∧ ascends (FilterParam_without p).

Lemma ascending_sorted s : ascends (ascending s).
Proof.
  unfold ascending. assert (NoDup (merge_sort Z.le (elements s))) as Hnd by (rewrite merge_sort_Permutation; apply NoDup_elements).
  assert (StronglySorted Z.le (merge_sort Z.le (elements s))) as Hs.
  { apply StronglySorted_merge_sort; [intros a b c; lia|intros a b; lia]. }
  induction Hs as [|x l Hs IH Hx]; [constructor|]. apply NoDup_cons in Hnd as [Hn Hnd]. constructor; [by apply IH|].
  rewrite Forall_forall in *. intros y Hy. specialize (Hx y Hy). assert (x ≠ y) by (intros ->; done). lia.
Qed.

Section states.
Context `{VecGrowth, FilterOrder}.
Variable desc : Z → ComponentDesc.
Variable known : gset Z.
Variable hash : nat → list Z → Z.
Notation world_inv := (world_inv desc known).

Lemma build_sorted b p : FilterParamBuilder_build hash b = Some p → p_sorted p.
Proof.
  unfold FilterParamBuilder_build. case_bool_decide; [|done]. intros [= <-]. unfold p_sorted, FilterParam_with, FilterParam_without. cbn.
  rewrite <- ascending_length, take_app_length, drop_app_length. split; apply ascending_sorted.
Qed.

Lemma elem_of_collect p bs : p ∈ collect_param hash bs ↔ ∃ b, b ∈ bs ∧ FilterParamBuilder_build hash b = Some p.
Proof. unfold collect_param. rewrite filter_order_perm, elem_of_remove_dups. apply list_elem_of_omap. Qed.

Lemma collect_sorted bs : Forall p_sorted (collect_param hash bs).
Proof. apply Forall_forall. intros p (b & _ & Hb)%elem_of_collect. by eapply build_sorted. Qed.

Lemma p_admits_build b p dense sparse : FilterParamBuilder_build hash b = Some p → p_admits dense sparse p ↔ b_admits (dense ++ sparse) b.
Proof.
  intros (_ & Hw & Ho)%build_spec. unfold p_admits, b_admits. rewrite !Forall_forall. setoid_rewrite Hw. setoid_rewrite Ho.
  setoid_rewrite elem_of_app. split; intros [H1 H2]; (split; [done|]); intros c Hc; specialize (H2 c Hc); tauto.
Qed.

Lemma collect_admits bs dense sparse : Exists (p_admits dense sparse) (collect_param hash bs) ↔ admitted (dense ++ sparse) bs.
Proof.
  unfold admitted. rewrite !Exists_exists. split.
  - intros (p & (b & Hb & Hp)%elem_of_collect & Had). exists b. split; [done|]. by apply (p_admits_build b p).
  - intros (b & Hb & Had). destruct (FilterParamBuilder_build hash b) as [p|] eqn:Hp.
    + exists p. split; [apply elem_of_collect; eauto|]. by apply (p_admits_build b p).
    + exfalso. unfold FilterParamBuilder_build in Hp. case_bool_decide as Hdis; [done|]. apply Hdis. destruct Had. set_solver.
Qed.

Lemma any_param_ok dense sparse ps : ascends dense → ascends sparse → Forall p_sorted ps →
  any_param dense sparse ps = Ret (bool_decide (Exists (p_admits dense sparse) ps)).
Proof.
  intros Hd Hs. induction 1 as [|p ps [Hw Ho] Hps IH]; cbn [any_param]; [done|].
  rewrite matches_sorted_ok by done. cbn [mbind outcome_bind]. rewrite IH.
  fold (p_admits dense sparse p). destruct (decide (p_admits dense sparse p)) as [Hp|Hp].
  - rewrite (bool_decide_true (p_admits dense sparse p)) by done. rewrite bool_decide_true; [done|]. by apply Exists_cons_hd.
  - rewrite (bool_decide_false (p_admits dense sparse p)) by done. f_equal. apply bool_decide_ext. rewrite Exists_cons. tauto.
Qed.

(** ** Storages *)

Variable d : DataT.
Variable f : FilterT.
Notation IS_DENSE := (IS_DENSE desc d f).

(** The component sets a query is matched against. *)
Definition storage_sets (w : World) : list (list Z * list Z) :=
  if IS_DENSE then (λ t, (tbl_components t, [])) <$> ts_tables (w_tables w)
  else (λ a, (Archetype_dense_components a, Archetype_sparse_components a)) <$> as_arches (w_archetypes w).

Definition matched (ps : list FilterParam) (sets : list (list Z * list Z)) (id : nat) : bool :=
  match sets !! id with Some s => bool_decide (Exists (p_admits s.1 s.2) ps) | None => false end.

Definition sets_sorted (sets : list (list Z * list Z)) : Prop := Forall (λ s, ascends s.1 ∧ ascends s.2) sets.

Lemma storage_sets_sorted w : world_inv w → sets_sorted (storage_sets w).
Proof.
  intros [Hreg Hrow]. unfold sets_sorted, storage_sets. destruct IS_DENSE; apply Forall_lookup_2; intros i s; rewrite list_lookup_fmap.
  - intros (t & Ht & ->)%fmap_Some. cbn. destruct (rw_table_ok _ _ Hrow i t Ht) as [Hok _]. split; [apply Hok|constructor].
  - intros (a & Ha & ->)%fmap_Some. pose proof (ro_arche _ _ _ Hreg _ _ (shape_arche w _ _ Ha)) as Hao.
    destruct (ao_set _ _ _ _ _ Hao). split; done.
Qed.

Lemma updata_tables_ok ids st ps w : world_inv w → IS_DENSE = true → Forall p_sorted ps → Forall (λ i, i < length (storage_sets w)) ids →
  updata_tables ids st ps (w_tables w) = Ret (st ++ filter (λ i, matched ps (storage_sets w) i = true) ids).
Proof.
  intros Hinv Hd Hps Hids. pose proof (storage_sets_sorted w Hinv) as Hs. revert st. induction Hids as [|i ids Hi Hids IH]; intros st; cbn [updata_tables].
  { by rewrite app_nil_r. }
  destruct (lookup_lt_is_Some_2 _ _ Hi) as [s Hsi]. pose proof (Forall_lookup_1 _ _ _ _ Hs Hsi) as [Hs1 Hs2].
  assert (Hm : matched ps (storage_sets w) i = bool_decide (Exists (p_admits s.1 s.2) ps)) by (unfold matched; by rewrite Hsi).
  rewrite filter_cons. unfold storage_sets in Hsi. rewrite Hd, list_lookup_fmap in Hsi.
  apply fmap_Some in Hsi as (t & Ht & ->). cbn [fst snd] in *. unfold Tables_get_unchecked. rewrite Ht. cbn [of_option mbind outcome_bind].
  rewrite any_param_ok by done. cbn [mbind outcome_bind]. rewrite IH, <- Hm. destruct (matched ps (storage_sets w) i).
  - rewrite decide_True by done. by rewrite <- app_assoc.
  - by rewrite decide_False by done.
Qed.

Lemma updata_arches_ok ids st ps w : world_inv w → IS_DENSE = false → Forall p_sorted ps → Forall (λ i, i < length (storage_sets w)) ids →
  updata_arches ids st ps (w_archetypes w) = Ret (st ++ filter (λ i, matched ps (storage_sets w) i = true) ids).
Proof.
  intros Hinv Hd Hps Hids. pose proof (storage_sets_sorted w Hinv) as Hs. revert st. induction Hids as [|i ids Hi Hids IH]; intros st; cbn [updata_arches].
  { by rewrite app_nil_r. }
  destruct (lookup_lt_is_Some_2 _ _ Hi) as [s Hsi]. pose proof (Forall_lookup_1 _ _ _ _ Hs Hsi) as [Hs1 Hs2].
  assert (Hm : matched ps (storage_sets w) i = bool_decide (Exists (p_admits s.1 s.2) ps)) by (unfold matched; by rewrite Hsi).
  rewrite filter_cons. unfold storage_sets in Hsi. rewrite Hd, list_lookup_fmap in Hsi.
  apply fmap_Some in Hsi as (a & Ha & ->). cbn [fst snd] in *. unfold Archetypes_get_unchecked. rewrite Ha. cbn [of_option mbind outcome_bind].
  rewrite any_param_ok by done. cbn [mbind outcome_bind]. rewrite IH, <- Hm. destruct (matched ps (storage_sets w) i).
  - rewrite decide_True by done. by rewrite <- app_assoc.
  - by rewrite decide_False by done.
Qed.

Lemma storage_sets_length w : length (storage_sets w) = if IS_DENSE then length (ts_tables (w_tables w)) else length (as_arches (w_archetypes w)).
Proof. unfold storage_sets. destruct IS_DENSE; apply length_fmap. Qed.

Definition query_params : list FilterParam := collect_param hash (D_build_filter d (F_build_filter f)).

(** The state of a query for what is registered in a world. *)
Definition state_of (w : World) : QueryState :=
  mkQueryState (length (storage_sets w)) (filter (λ i, matched query_params (storage_sets w) i = true) (seq 0 (length (storage_sets w))))
    (F_build_access f (D_build_access d AccessParam_new).2) query_params.

Lemma seq_below n : Forall (λ i, i < n) (seq 0 n).
Proof. apply Forall_seq. lia. Qed.

Lemma build_state w : world_inv w →
  QueryState_build desc hash d f w = if (D_build_access d AccessParam_new).1 then Ret (state_of w) else Panic.
Proof.
  intros Hinv. unfold QueryState_build, state_of. destruct (D_build_access d AccessParam_new) as [[] acc]; cbn [fst snd negb]; [|done].
  fold query_params. rewrite storage_sets_length. destruct IS_DENSE eqn:Hd; unfold updata_table_state, updata_arche_state; rewrite Nat.sub_0_r.
  - rewrite updata_tables_ok; [done|done|done|apply collect_sorted|]. rewrite storage_sets_length, Hd. apply seq_below.
  - rewrite updata_arches_ok; [done|done|done|apply collect_sorted|]. rewrite storage_sets_length, Hd. apply seq_below.
Qed.

(** ** Bringing a state up to date *)

Lemma filter_ext_in {A} (P Q : A → Prop) `{!∀ x, Decision (P x), !∀ x, Decision (Q x)} (l : list A) :
  (∀ x, x ∈ l → P x ↔ Q x) → filter P l = filter Q l.
Proof.
  induction l as [|x l IH]; intros Hl; [done|]. rewrite !filter_cons, IH by (intros y Hy; apply Hl; by right).
  pose proof (Hl x (list_elem_of_here x l)) as Hx. destruct (decide (P x)), (decide (Q x)); tauto.
Qed.

Lemma sets_grow w w' : grows w w' → ∀ i s, storage_sets w !! i = Some s → storage_sets w' !! i = Some s.
Proof.
  intros [Ha Ht] i s. unfold storage_sets. destruct IS_DENSE; rewrite !list_lookup_fmap.
  - intros (t & Hi & ->)%fmap_Some. assert (table_sets w' !! i = Some (tbl_components t)) as Hx.
    { eapply prefix_lookup_Some; [|exact Ht]. unfold table_sets. by rewrite list_lookup_fmap, Hi. }
    unfold table_sets in Hx. rewrite list_lookup_fmap in Hx. apply fmap_Some in Hx as (t' & -> & ->). done.
  - intros (a & Hi & ->)%fmap_Some. assert (arche_sets w' !! i = Some (arche_set a)) as Hx.
    { eapply prefix_lookup_Some; [|exact Ha]. unfold arche_sets. by rewrite list_lookup_fmap, Hi. }
    unfold arche_sets in Hx. rewrite list_lookup_fmap in Hx. apply fmap_Some in Hx as (a' & -> & [= Hl Hc]). cbn.
    unfold Archetype_dense_components, Archetype_sparse_components. by rewrite Hl, Hc.
Qed.

Lemma update_state w w' : world_inv w → world_inv w' → grows w w' →
  QueryState_update desc d f (state_of w) w' = Ret (state_of w').
Proof.
  intros Hinv Hinv' Hle. pose proof (sets_grow w w' Hle) as Hg.
  assert (length (storage_sets w) ≤ length (storage_sets w')) as Hlen.
  { destruct (length (storage_sets w)) as [|n] eqn:En; [lia|]. destruct (lookup_lt_is_Some_2 (storage_sets w) n) as [s Hs]; [lia|].
    apply Hg, lookup_lt_Some in Hs. lia. }
  assert (Hold : filter (λ i, matched query_params (storage_sets w) i = true) (seq 0 (length (storage_sets w)))
               = filter (λ i, matched query_params (storage_sets w') i = true) (seq 0 (length (storage_sets w)))).
  { apply filter_ext_in. intros i Hi%elem_of_seq. unfold matched.
    destruct (lookup_lt_is_Some_2 (storage_sets w) i) as [s Hs]; [lia|]. by rewrite Hs, (Hg _ _ Hs). }
  assert (Hall : filter (λ i, matched query_params (storage_sets w') i = true) (seq 0 (length (storage_sets w'))) =
    filter (λ i, matched query_params (storage_sets w) i = true) (seq 0 (length (storage_sets w))) ++
    filter (λ i, matched query_params (storage_sets w') i = true) (seq (length (storage_sets w)) (length (storage_sets w') - length (storage_sets w)))).
  { rewrite Hold, <- filter_app, <- seq_app. by replace (length (storage_sets w) + _) with (length (storage_sets w')) by lia. }
  assert (Hnew : Forall (λ i, i < length (storage_sets w')) (seq (length (storage_sets w)) (length (storage_sets w') - length (storage_sets w)))).
  { apply Forall_seq. lia. }
  unfold QueryState_update, state_of. cbn [qs_version qs_storages qs_filter_params qs_filter_data]. rewrite Hall.
  pose proof (storage_sets_length w') as Hl'. destruct IS_DENSE eqn:Hd; rewrite <- Hl'; unfold updata_table_state, updata_arche_state; rewrite <- ?Hl'.
  - case_decide as Hlt; [by rewrite updata_tables_ok by (done || apply collect_sorted)|].
    replace (length (storage_sets w')) with (length (storage_sets w)) by lia. by rewrite Nat.sub_diag, app_nil_r.
  - case_decide as Hlt; [by rewrite updata_arches_ok by (done || apply collect_sorted)|].
    replace (length (storage_sets w')) with (length (storage_sets w)) by lia. by rewrite Nat.sub_diag, app_nil_r.
Qed.
End states.
