(* ===== verification/QueryIters.v ===== *)
(** * Iterating a query

    An iterator over an up-to-date [QueryState] yields, entity by entity through the
    storages it matched, exactly what the query means. *)

From Stdlib Require Import ZArith Lia Sorting.Sorted.
From S2P Require Import Prelude Tick EntityIdent EntityInfo FreeCount FreeBuffer Allocator Column Table SparseMap.
From S2P Require Import Locations Registry World WorldInv WorldRegister Access QueryMatch Query QueryCells QueryCaches QueryFilters QueryStates.

Section iter.
Context `{VecGrowth, FilterOrder}.
Variable desc : Z → ComponentDesc.
Variable known : gset Z.
Variable hash : nat → list Z → Z.
Variables last_run this_run : Tick.
Variable d : DataT.
Variable f : FilterT.
Variable w : World.
Hypothesis Hinv : world_inv desc known w.
Notation info := (λ c, cd_info (desc c)).
Notation is_dense := (is_dense desc).
Notation IS_DENSE := (IS_DENSE desc d f).
Notation get_storage_id := (get_storage_id desc d f).
Notation state := (state_of desc hash d f w).
Notation sets := (storage_sets desc d f w).
Notation holds := (filter_holds last_run this_run w).
Notation item := (query_item last_run this_run w d f).

(** ** Matched storages and entities *)

Lemma static_dense g cs cs' : F_COMPONENTS_ARE_DENSE desc g = true → (∀ c, is_dense c = true → c ∈ cs ↔ c ∈ cs') →
  static_holds g cs = static_holds g cs'.
Proof.
  intros Hd Hcs. revert Hd. induction g as [|ids|ids|c|c|fs IH|fs IH] using FilterT_tree; cbn [F_COMPONENTS_ARE_DENSE static_holds]; intros Hd.
  - done.
  - induction ids as [|c ids IHc]; cbn in *; [done|]. apply andb_prop in Hd as [Hc Hd]. rewrite IHc by done. f_equal. by apply bool_decide_ext, Hcs.
  - induction ids as [|c ids IHc]; cbn in *; [done|]. apply andb_prop in Hd as [Hc Hd]. rewrite IHc by done. f_equal. apply bool_decide_ext. by rewrite Hcs.
  - by apply bool_decide_ext, Hcs.
  - by apply bool_decide_ext, Hcs.
  - induction IH as [|g fs Hg Hfs IHfs]; cbn in *; [done|]. apply andb_prop in Hd as [? ?]. by rewrite Hg, IHfs.
  - induction IH as [|g fs Hg Hfs IHfs]; cbn in *; [done|]. apply andb_prop in Hd as [? ?]. by rewrite Hg, IHfs.
Qed.

Lemma required_dense g : D_COMPONENTS_ARE_DENSE desc g = true → Forall (λ c, is_dense c = true) (required g).
Proof.
  induction g as [| | |c|c|c|c|c|c|ds IH] using DataT_tree; cbn [D_COMPONENTS_ARE_DENSE required]; intros Hd; try done; try by constructor.
  induction IH as [|g ds Hg Hds IHds]; cbn in *; [done|]. apply andb_prop in Hd as [? ?]. apply Forall_app. auto.
Qed.

Definition comps (e : Entity) : list Z := default [] (World_components w e).

Lemma comps_arche e a : arche_of w e = Some a → comps e = ar_components a.
Proof. intros Ha. unfold comps, World_components. by rewrite Ha. Qed.

Lemma storage_matches e l : located (w_entities w) e = Some l →
  get_storage_id l ∈ qs_storages state ↔ static_holds f (comps e) = true ∧ Forall (λ c, c ∈ comps e) (required d).
Proof.
  intros Hl. destruct (rows_entity desc known w e l Hinv Hl) as (a & t & Ha & Ht & _ & _ & _ & Hof & _ & _ & Hcomps & Hao).
  rewrite (comps_arche e a Hof). cbn [state_of qs_storages]. rewrite list_elem_of_filter, elem_of_seq.
  pose proof (λ c, set_ok_dense desc _ _ c (ao_set _ _ _ _ _ Hao)) as Hset. cbn in Hset.
  set (s := if IS_DENSE then (Archetype_dense_components a, []) else (Archetype_dense_components a, Archetype_sparse_components a)).
  assert (Hs : sets !! get_storage_id l = Some s).
  { unfold storage_sets, Query.get_storage_id, s. destruct IS_DENSE; rewrite list_lookup_fmap; [rewrite Ht|rewrite Ha]; cbn; [by rewrite Hcomps|done]. }
  assert (matched (query_params hash d f) sets (get_storage_id l) = true ↔ admitted (s.1 ++ s.2) (D_build_filter d (F_build_filter f))) as ->.
  { unfold matched. rewrite Hs, bool_decide_eq_true. unfold query_params. by rewrite collect_admits. }
  rewrite D_build_filter_ok, F_build_filter_ok.
  assert (static_holds f (s.1 ++ s.2) = static_holds f (ar_components a) ∧
          (Forall (λ c, c ∈ s.1 ++ s.2) (required d) ↔ Forall (λ c, c ∈ ar_components a) (required d))) as [-> ->].
  { unfold s. destruct IS_DENSE eqn:Hd; cbn [fst snd].
    - apply andb_prop in Hd as [Hdd Hfd]. rewrite app_nil_r.
      assert (Hiff : ∀ c, is_dense c = true → c ∈ Archetype_dense_components a ↔ c ∈ ar_components a).
      { intros c Hc. pose proof (is_dense_spec desc c) as Hx. rewrite Hc in Hx. unfold Archetype_dense_components. rewrite Hset. tauto. }
      split; [by apply static_dense|]. pose proof (required_dense d Hdd) as Hr. rewrite !Forall_forall in *. split; intros Hx c Hc; by apply Hiff, Hx; [apply Hr|].
    - unfold Archetype_dense_components, Archetype_sparse_components. by rewrite take_drop. }
  apply lookup_lt_Some in Hs. intuition lia.
Qed.

(** A filter that holds admits the component set; without entity filters that is all. *)
Lemma holds_static g e l : located (w_entities w) e = Some l → holds g e = true → static_holds g (comps e) = true.
Proof.
  intros Hl. assert (Htick : ∀ c (pick : cell → option Tick), newer_tick last_run this_run (x ← World_get w e c; pick x) = true → c ∈ comps e).
  { intros c pick Hn. pose proof (proj1 (World_get_has desc known w Hinv e l c Hl)) as Hh. unfold has in Hh. rewrite bool_decide_eq_true in Hh.
    apply Hh. destruct (World_get w e c); [by eexists|done]. }
  induction g as [|ids|ids|c|c|fs IH|fs IH] using FilterT_tree; cbn [filter_holds static_holds]; intros Hg; auto.
  - induction ids as [|c ids IHc]; cbn in *; [done|]. apply andb_prop in Hg as [Hc Hg]. rewrite IHc, andb_true_r by done. rewrite bool_decide_not. exact Hc.
  - rewrite bool_decide_eq_true. by eapply (Htick c (λ x, x.1.2)).
  - rewrite bool_decide_eq_true. by eapply (Htick c (λ x, x.2)).
  - induction IH as [|g fs Hx Hfs IHfs]; cbn in *; [done|]. apply andb_prop in Hg as [? ?]. rewrite Hx, IHfs by done. done.
  - induction IH as [|g fs Hx Hfs IHfs]; cbn in *; [done|]. apply orb_true_iff. apply orb_true_iff in Hg as [?|?]; auto.
Qed.

Lemma static_exact g e : F_ENABLE_ENTITY_FILTER g = false → holds g e = static_holds g (comps e).
Proof.
  induction g as [|ids|ids|c|c|fs IH|fs IH] using FilterT_tree; cbn [F_ENABLE_ENTITY_FILTER filter_holds static_holds]; intros Hg; try done.
  - induction ids as [|c ids IHc]; cbn; [done|]. rewrite IHc. f_equal. unfold has. by rewrite bool_decide_not.
  - induction IH as [|g fs Hx Hfs IHfs]; cbn in *; [done|]. apply orb_false_iff in Hg as [? ?]. by rewrite Hx, IHfs.
  - induction IH as [|g fs Hx Hfs IHfs]; cbn in *; [done|]. apply orb_false_iff in Hg as [? ?]. by rewrite Hx, IHfs.
Qed.

Lemma data_required g e l i : located (w_entities w) e = Some l → data_item w g e = Some i → Forall (λ c, c ∈ comps e) (required g).
Proof.
  intros Hl. assert (Hcell : ∀ c mk i, cell_item mk (World_get w e c) = Some i → c ∈ comps e).
  { intros c mk j Hj. pose proof (proj1 (World_get_has desc known w Hinv e l c Hl)) as Hh. unfold has in Hh. rewrite bool_decide_eq_true in Hh.
    apply Hh. destruct (World_get w e c); [by eexists|done]. }
  revert i. induction g as [| | |c|c|c|c|c|c|ds IH] using DataT_tree; intros i; cbn [data_item required]; intros Hi; try done;
    try (constructor; [by eapply Hcell|done]).
  destruct (gather (λ d, data_item w d e) ds) as [is0|] eqn:Eg; [clear Hi|done]. revert is0 Eg.
  induction IH as [|g ds Hg Hds IHds]; intros is0 Eg; cbn in *; [done|]. destruct (data_item w g e) eqn:Ei; [|done].
  destruct (gather (λ d, data_item w d e) ds) eqn:Er; [|done]. apply Forall_app. split; [by eapply Hg|by eapply IHds].
Qed.

Lemma item_matched e l i : located (w_entities w) e = Some l → item e = Some i → get_storage_id l ∈ qs_storages state.
Proof.
  intros Hl. unfold query_item. destruct (holds f e) eqn:Hf; [|done]. intros Hi. apply (storage_matches e l Hl).
  split; [by eapply holds_static|by eapply data_required].
Qed.

(** ** Entities of a storage *)

Definition ents (id : nat) : list Entity :=
  if IS_DENSE then default [] (tbl_entities <$> ts_tables (w_tables w) !! id) else default [] (ar_entities <$> as_arches (w_archetypes w) !! id).

Lemma elem_of_ents e id r : ents id !! r = Some e ↔ ∃ l, located (w_entities w) e = Some l ∧ get_storage_id l = id ∧
  Z.to_nat (if IS_DENSE then table_row l else arche_row l) = r.
Proof.
  unfold ents, Query.get_storage_id. destruct IS_DENSE.
  - pose proof (rw_tables _ _ (proj2 Hinv) e id r) as Hp. unfold tpos in Hp. rewrite list_lookup_fmap in Hp.
    destruct (located (w_entities w) e) as [l|]; cbn in Hp; split.
    + intros Hr. destruct (tbl_entities <$> _) eqn:E in Hr; [|done]. cbn in Hr.
      rewrite E in Hp. pose proof (proj2 Hp (ex_intro _ _ (conj eq_refl Hr))) as E2. injection E2 as <- <-. eauto.
    + intros (l' & [= <-] & <- & <-). destruct (proj1 Hp eq_refl) as (v & -> & Hv). done.
    + intros Hr. destruct (tbl_entities <$> _) eqn:E in Hr; [|done]. cbn in Hr. rewrite E in Hp. by pose proof (proj2 Hp (ex_intro _ _ (conj eq_refl Hr))).
    + by intros (? & ? & _).
  - pose proof (rw_arches _ _ (proj2 Hinv) e id r) as Hp. unfold apos in Hp. rewrite list_lookup_fmap in Hp.
    destruct (located (w_entities w) e) as [l|]; cbn in Hp; split.
    + intros Hr. destruct (ar_entities <$> _) eqn:E in Hr; [|done]. cbn in Hr.
      rewrite E in Hp. pose proof (proj2 Hp (ex_intro _ _ (conj eq_refl Hr))) as E2. injection E2 as <- <-. eauto.
    + intros (l' & [= <-] & <- & <-). destruct (proj1 Hp eq_refl) as (v & -> & Hv). done.
    + intros Hr. destruct (ar_entities <$> _) eqn:E in Hr; [|done]. cbn in Hr. rewrite E in Hp. by pose proof (proj2 Hp (ex_intro _ _ (conj eq_refl Hr))).
    + by intros (? & ? & _).
Qed.

Lemma storage_entities_ok id : id < length sets → storage_entities desc d f w id = Ret (ents id).
Proof.
  rewrite storage_sets_length. intros Hid. unfold storage_entities, ents, Tables_get_unchecked, Archetypes_get_unchecked.
  destruct IS_DENSE; destruct (lookup_lt_is_Some_2 _ _ Hid) as [x Hx]; by rewrite Hx.
Qed.

(** ** Caches of a storage *)

Definition ready (dc fc : Cache) : Prop := D_cache (view_ok desc w) d dc ∧ F_ok desc w f fc.

Definition caches_at (id : nat) (dc fc : Cache) : Prop := ready dc fc ∧
  ∀ e l, located (w_entities w) e = Some l → get_storage_id l = id →
    ∃ t, ts_tables (w_tables w) !! Z.to_nat (table_id l) = Some t ∧ D_cache (view_at desc w t) d dc ∧ F_at desc w t e f fc.

Lemma set_for_table_ok id t dc fc : IS_DENSE = true → ts_tables (w_tables w) !! id = Some t → ready dc fc →
  ∃ dc' fc', D_set_for_table desc d dc t = Ret dc' ∧ F_set_for_table desc f fc t = Ret fc' ∧ caches_at id dc' fc'.
Proof.
  intros Hd Ht [Hdc Hfc]. pose proof Hd as [_ Hfd]%andb_prop. destruct (rw_table_ok _ _ (proj2 Hinv) id t Ht) as [Hok Hlive].
  destruct (D_set_ok desc w t d dc Hok Hdc) as (dc' & Hds & Hdat).
  destruct (F_set_table_ok desc w t (λ e, ∃ l, located (w_entities w) e = Some l ∧ get_storage_id l = id) Hok Hlive f fc Hfd) as (fc' & Hfs & Hfok & Hfat).
  { intros e c (l & Hl & Hid) Hc. unfold Query.get_storage_id in Hid. rewrite Hd in Hid.
    destruct (rows_entity desc known w e l Hinv Hl) as (a & t' & _ & Ht' & _ & _ & Hrow & _ & _ & _ & _ & _). rewrite Hid, Ht in Ht'. injection Ht' as <-.
    apply bool_decide_ext.
    pose proof (World_get_has desc known w Hinv e l c Hl) as Hh. unfold has in Hh. rewrite bool_decide_eq_true in Hh. rewrite <- Hh, (dense_get desc known w Hinv e l t c Hl) by (done || by rewrite Hid).
    rewrite fmap_is_Some. pose proof (get_column_ok desc t c Hok) as Hcol.
    destruct (Table_get_table_col t c); [destruct Hcol as (x & _ & -> & _); split; by eexists|rewrite Hcol; split; by intros []]. }
  { exact Hfc. }
  exists dc', fc'. split; [done|]. split; [done|]. split; [split; [|done]|].
  - eapply D_cache_impl; [|exact Hdat]. intros c x. apply view_at_ok.
  - intros e l Hl Hid. exists t. split; [unfold Query.get_storage_id in Hid; rewrite Hd in Hid; by rewrite Hid|]. split; [done|]. apply Hfat. eauto.
Qed.

Lemma set_for_arche_ok id a dc fc : IS_DENSE = false → as_arches (w_archetypes w) !! id = Some a → ready dc fc →
  ∃ t dc' fc', ts_tables (w_tables w) !! ar_table_id a = Some t ∧ D_set_for_table desc d dc t = Ret dc' ∧ F_set_for_arche desc f fc a t = Ret fc' ∧ caches_at id dc' fc'.
Proof.
  intros Hd Ha [Hdc Hfc]. pose proof (ro_arche _ _ _ (proj1 Hinv) _ _ (shape_arche w _ _ Ha)) as Hao.
  pose proof (ao_table _ _ _ _ _ Hao) as Ht. cbn in Ht. rewrite list_lookup_fmap in Ht. apply fmap_Some in Ht as (t & Ht & Hcomps).
  destruct (rw_table_ok _ _ (proj2 Hinv) _ t Ht) as [Hok Hlive].
  destruct (D_set_ok desc w t d dc Hok Hdc) as (dc' & Hds & Hdat).
  destruct (F_set_arche_ok desc w t (λ e, ∃ l, located (w_entities w) e = Some l ∧ get_storage_id l = id) Hok Hlive a f fc) as (fc' & Hfs & Hfok & Hfat).
  { intros e c (l & Hl & Hid). unfold Query.get_storage_id in Hid. rewrite Hd in Hid.
    destruct (rows_entity desc known w e l Hinv Hl) as (a' & _ & Ha' & _ & _ & _ & _ & Hof & _). rewrite Hid, Ha in Ha'. injection Ha' as <-.
    unfold arche_has, has, World_components. rewrite Hof. cbn [fmap option_fmap option_map default].
    pose proof (is_dense_spec desc c) as Hx. destruct (is_dense c); apply bool_decide_ext.
    - unfold Archetype_dense_components. rewrite (set_ok_dense desc _ _ c (ao_set _ _ _ _ _ Hao)). cbn. tauto.
    - unfold Archetype_sparse_components. rewrite (set_ok_sparse desc _ _ c (ao_set _ _ _ _ _ Hao)). cbn. tauto. }
  { exact Hfc. }
  exists t, dc', fc'. split_and!; [done|done|done|]. split; [split; [|done]|].
  - eapply D_cache_impl; [|exact Hdat]. intros c x. apply view_at_ok.
  - intros e l Hl Hid. exists t. split; [|split; [done|apply Hfat; eauto]]. unfold Query.get_storage_id in Hid. rewrite Hd in Hid.
    destruct (rows_entity desc known w e l Hinv Hl) as (a' & t' & Ha' & Ht' & Hlink & _). rewrite Hid, Ha in Ha'. injection Ha' as <-. by rewrite Hlink.
Qed.

Lemma set_caches_ok id dc fc : id < length sets → ready dc fc → ∃ dc' fc', set_caches desc d f w id dc fc = Ret (dc', fc') ∧ caches_at id dc' fc'.
Proof.
  rewrite storage_sets_length. intros Hid Hr. unfold set_caches, Tables_get_unchecked, Archetypes_get_unchecked. destruct IS_DENSE eqn:Hd.
  - destruct (lookup_lt_is_Some_2 _ _ Hid) as [t Ht]. rewrite Ht. cbn [of_option mbind outcome_bind].
    destruct (set_for_table_ok id t dc fc Hd Ht Hr) as (dc' & fc' & -> & -> & Hat). cbn. eauto.
  - destruct (lookup_lt_is_Some_2 _ _ Hid) as [a Ha]. rewrite Ha. cbn [of_option mbind outcome_bind].
    destruct (set_for_arche_ok id a dc fc Hd Ha Hr) as (t & dc' & fc' & -> & Hds & Hfs & Hat). cbn [of_option mbind outcome_bind].
    rewrite Hds. cbn [mbind outcome_bind]. rewrite Hfs. cbn. eauto.
Qed.

(** An entity of a matched storage, through the caches of its storage. *)
Lemma visit_ok id dc fc e l : id ∈ qs_storages state → caches_at id dc fc → located (w_entities w) e = Some l → get_storage_id l = id →
  entity_filter last_run this_run f fc e (Z.to_nat (table_row l)) = Ret (holds f e) ∧
  D_fetch w d dc e (Z.to_nat (table_row l)) = Ret (data_item w d e).
Proof.
  intros Hm [_ Hat] Hl Hid. destruct (Hat e l Hl Hid) as (t & Ht & Hd & Hf). split; [|by apply (D_fetch_ok desc known w Hinv t)].
  unfold entity_filter. destruct (F_ENABLE_ENTITY_FILTER f) eqn:He; [by apply (F_filter_ok desc known last_run this_run w Hinv t)|].
  rewrite (static_exact f e He). rewrite <- Hid in Hm. by apply (storage_matches e l Hl) in Hm as [-> _].
Qed.
End iter.
