(* ===== verification/QueryVisits.v ===== *)
(** * Runs of a query

    The iterator walks the entities of the matched storages in order; access by entity
    answers for one of them what the iterator would. *)

From Stdlib Require Import ZArith Lia Sorting.Sorted.
From S2P Require Import Prelude Tick EntityIdent EntityInfo FreeCount FreeBuffer Allocator Column Table SparseMap.
From S2P Require Import Locations Registry World WorldInv WorldRegister Access QueryMatch Query QueryCells QueryCaches QueryFilters QueryStates QueryIters.

Section visits.
Context `{VecGrowth, FilterOrder}.
Variable desc : Z → ComponentDesc.
Variable known : gset Z.
Variable hash : nat → list Z → Z.
Variables last_run this_run : Tick.
Variable d : DataT.
Variable f : FilterT.
Variable w : World.
Hypothesis Hinv : world_inv desc known w.
Notation IS_DENSE := (IS_DENSE desc d f).
Notation get_storage_id := (get_storage_id desc d f).
Notation state := (state_of desc hash d f w).
Notation sets := (storage_sets desc d f w).
Notation holds := (filter_holds last_run this_run w).
Notation item := (query_item last_run this_run w d f).
Notation ents := (ents desc d f w).
Notation ready := (ready desc d f w).
Notation caches_at := (caches_at desc d f w).
Notation next := (QueryIter_next desc last_run this_run d f).
Notation collect := (QueryIter_collect desc last_run this_run d f).
Notation get_with_cache := (get_with_cache desc last_run this_run d f).

(** ** Storages of a state *)

Lemma state_storages id : id ∈ qs_storages state → id < length sets.
Proof. cbn. rewrite list_elem_of_filter, elem_of_seq. lia. Qed.

Lemma storages_sorted : StronglySorted lt (qs_storages state).
Proof.
  cbn. generalize (length sets) at 1. intros n. generalize 0. induction n as [|n IH]; intros k; [constructor|].
  cbn [seq]. rewrite filter_cons. case_decide; [|apply IH]. constructor; [apply IH|]. apply Forall_forall.
  intros i [_ Hi%elem_of_seq]%list_elem_of_filter. lia.
Qed.

Lemma contains_storage_ok id : contains_storage state id = bool_decide (id ∈ qs_storages state).
Proof. unfold contains_storage. case_decide; [done|]. apply binary_search_ok, storages_sorted. Qed.

(** ** Walking *)

(** The entities an iterator has yet to visit. *)
Definition rest (it : QueryIter) : list Entity := drop (qi_row it) (qi_entities it) ++ concat (ents <$> qi_storages it).

Definition iter_ok (it : QueryIter) : Prop :=
  ready (qi_d_cache it) (qi_f_cache it) ∧ Forall (λ id, id ∈ qs_storages state) (qi_storages it) ∧
  (qi_row it < length (qi_entities it) →
     ∃ id, id ∈ qs_storages state ∧ qi_entities it = ents id ∧ caches_at id (qi_d_cache it) (qi_f_cache it)).

Definition step_row (it : QueryIter) : QueryIter :=
  mkQueryIter (qi_d_cache it) (qi_f_cache it) (qi_storages it) (qi_entities it) (S (qi_row it)).

Lemma update_slice_ok dc fc es ss : ready dc fc → Forall (λ id, id ∈ qs_storages state) ss →
  ∃ more it, update_slice desc d f w dc fc es ss = Ret (more, it) ∧
    if more : bool then iter_ok it ∧ rest it = concat (ents <$> ss) ∧ qi_row it < length (qi_entities it)
    else concat (ents <$> ss) = [].
Proof.
  intros Hr Hss0. revert es. induction Hss0 as [|id ss Hid Hss IH]; intros es; cbn [update_slice]; [by eexists _, _|].
  pose proof (state_storages id Hid) as Hlt. rewrite (storage_entities_ok desc d f w id Hlt). cbn [mbind outcome_bind].
  destruct (ents id) as [|e l] eqn:He.
  { destruct (IH []) as (more & it & Hr' & Hres). exists more, it. split; [done|]. cbn. rewrite He. done. }
  destruct (set_caches_ok desc known hash d f w Hinv id dc fc Hlt Hr) as (dc' & fc' & -> & Hat). cbn [mbind outcome_bind].
  eexists true, _. split; [done|]. unfold iter_ok, rest. cbn -[ents]. rewrite He. split; [|split; [done|cbn; lia]].
  split; [apply Hat|]. split; [done|]. intros _. exists id. by rewrite He.
Qed.

Lemma row_ok e id r : ents id !! r = Some e → ∃ l, located (w_entities w) e = Some l ∧ get_storage_id l = id ∧
  iter_table_row desc d f w e r = Ret (Z.to_nat (table_row l)).
Proof.
  intros (l & Hl & Hid & Hrow)%(elem_of_ents desc known d f w Hinv). exists l. split; [done|]. split; [done|]. unfold iter_table_row.
  destruct IS_DENSE; [by rewrite Hrow|]. unfold locate_unwrap. unfold located in Hl. by destruct (Entities_locate _ _); simplify_eq.
Qed.

(** One entity: it is yielded, or passed over. *)
Lemma visit_next e id it : id ∈ qs_storages state → caches_at id (qi_d_cache it) (qi_f_cache it) → ents id !! qi_row it = Some e →
  ∃ row, iter_table_row desc d f w e (qi_row it) = Ret row ∧ entity_filter last_run this_run f (qi_f_cache it) e row = Ret (holds f e) ∧
    D_fetch w d (qi_d_cache it) e row = Ret (data_item w d e).
Proof.
  intros Hid Hat He. destruct (row_ok e id _ He) as (l & Hl & Hs & Hrow). exists (Z.to_nat (table_row l)). split; [done|].
  by apply (visit_ok desc known hash last_run this_run d f w Hinv id).
Qed.

Lemma step_row_ok it e : iter_ok it → qi_entities it !! qi_row it = Some e → iter_ok (step_row it) ∧ rest it = e :: rest (step_row it).
Proof.
  intros (Hr & Hs & Hcur) He. pose proof (lookup_lt_Some _ _ _ He) as Hlt. split.
  - split; [done|]. split; [done|]. intros _. exact (Hcur Hlt).
  - unfold rest. cbn. by rewrite (drop_S _ e) by done.
Qed.

Lemma next_ok fuel it : iter_ok it → length (rest it) < fuel →
  ∃ r it', next fuel w it = Ret (r, it') ∧
    match r with
    | None => omap item (rest it) = []
    | Some i => iter_ok it' ∧ omap item (rest it) = i :: omap item (rest it') ∧ length (rest it') < length (rest it)
    end.
Proof.
  revert it. induction fuel as [|fuel IH]; intros it Hok Hfuel; [lia|]. cbn [QueryIter_next].
  assert (∃ more it', (if decide (length (qi_entities it) ≤ qi_row it)
      then update_slice desc d f w (qi_d_cache it) (qi_f_cache it) (qi_entities it) (qi_storages it) else Ret (true, it)) = Ret (more, it') ∧
      if more : bool then iter_ok it' ∧ rest it' = rest it ∧ qi_row it' < length (qi_entities it') else rest it = [])
    as (more & it1 & -> & Hr).
  { destruct Hok as (Hready & Hss & Hcur). case_decide as Hrow.
    - destruct (update_slice_ok _ _ (qi_entities it) _ Hready Hss) as (more & it1 & -> & Hr). exists more, it1. split; [done|].
      assert (rest it = concat (ents <$> qi_storages it)) as -> by (unfold rest; by rewrite drop_ge). exact Hr.
    - exists true, it. split; [done|]. split; [by split|]. split; [done|lia]. }
  cbn [mbind outcome_bind]. destruct more; cbn [negb]; [|exists None, it1; split; [done|by rewrite Hr]]. clear Hok. destruct Hr as (Hok1 & Hrest & Hlt). rewrite <- Hrest in Hfuel |- *.
  destruct (lookup_lt_is_Some_2 _ _ Hlt) as [e He]. rewrite He. cbn [of_option mbind outcome_bind]. fold (step_row it1).
  pose proof Hok1 as (_ & _ & (id & Hid & Hents & Hat)%(λ H, H Hlt)). rewrite Hents in He.
  destruct (visit_next e id it1 Hid Hat He) as (row & -> & Hf & Hd). cbn [mbind outcome_bind]. rewrite Hf. cbn [mbind outcome_bind].
  rewrite <- Hents in He. destruct (step_row_ok it1 e Hok1 He) as [Hok2 Hrest2]. rewrite Hrest2 in Hfuel |- *. cbn [length] in Hfuel.
  destruct (IH (step_row it1) Hok2 ltac:(lia)) as (r & it2 & Hrun & Hres). cbn [omap list_omap length].
  change (item e) with (if holds f e then data_item w d e else None).
  assert (Hpass : ∃ r it', next fuel w (step_row it1) = Ret (r, it') ∧ match r with
     | Some i => iter_ok it' ∧ omap item (rest (step_row it1)) = i :: omap item (rest it') ∧ length (rest it') < S (length (rest (step_row it1)))
     | None => omap item (rest (step_row it1)) = [] end).
  { exists r, it2. split; [done|]. destruct r as [i|]; [|done]. destruct Hres as (? & ? & ?). split_and!; [done|done|lia]. }
  destruct (holds f e); cbn [negb]; [|exact Hpass]. rewrite Hd. cbn [mbind outcome_bind]. destruct (data_item w d e) as [i|]; [|exact Hpass].
  eexists _, _. split; [done|]. cbn. split_and!; [done|done|lia].
Qed.

Lemma collect_ok fuel it : iter_ok it → length (rest it) < fuel → collect fuel w it = Ret (omap item (rest it)).
Proof.
  revert it. induction fuel as [|fuel IH]; intros it Hok Hfuel; [lia|]. cbn [QueryIter_collect].
  destruct (next_ok (S fuel) it Hok Hfuel) as (r & it' & -> & Hr). cbn [mbind outcome_bind].
  destruct r as [i|]; [|by rewrite Hr]. destruct Hr as (Hok' & -> & Hlt). by rewrite IH by (done || lia).
Qed.

(** ** A fresh iterator *)

Definition visited : list Entity := concat (ents <$> qs_storages state).

Lemma new_ok : ∃ it, QueryIter_new desc d f w state = Ret it ∧ iter_ok it ∧ rest it = visited.
Proof.
  destruct (D_build_cache_ok desc known w Hinv d) as (dc & Hdc & Hok). unfold QueryIter_new. rewrite Hdc. cbn [mbind outcome_bind].
  eexists. split; [done|]. split; [|done]. split; [split; [done|apply F_build_cache_ok]|]. split; [by apply Forall_forall|]. cbn. lia.
Qed.

Lemma elem_of_visited e : e ∈ visited ↔ ∃ l, located (w_entities w) e = Some l ∧ get_storage_id l ∈ qs_storages state.
Proof.
  unfold visited. rewrite list_elem_of_In, in_concat. setoid_rewrite <- list_elem_of_In. setoid_rewrite list_elem_of_fmap. split.
  - intros (x & (id & -> & Hid) & [r Hr]%list_elem_of_lookup_1). apply (elem_of_ents desc known d f w Hinv) in Hr as (l & Hl & <- & _). eauto.
  - intros (l & Hl & Hid). eexists. split; [eauto|]. eapply list_elem_of_lookup_2. apply (elem_of_ents desc known d f w Hinv). eauto.
Qed.

Lemma ents_NoDup id : NoDup (ents id).
Proof.
  apply NoDup_alt. intros i j e (l & Hl & _ & Hi)%(elem_of_ents desc known d f w Hinv) (l' & Hl' & _ & Hj)%(elem_of_ents desc known d f w Hinv).
  rewrite Hl in Hl'. injection Hl' as <-. congruence.
Qed.

Lemma visited_NoDup : NoDup visited.
Proof.
  unfold visited. pose proof storages_sorted as Hs. induction Hs as [|id ss Hs IH Hlt]; cbn -[state_of]; [constructor|].
  apply NoDup_app. split; [apply ents_NoDup|]. split; [|done]. intros e [r Hr]%list_elem_of_lookup_1 He.
  apply (elem_of_ents desc known d f w Hinv) in Hr as (l & Hl & Hid & _).
  rewrite list_elem_of_In, in_concat in He. destruct He as (x & Hx & He). apply list_elem_of_In in Hx, He.
  apply list_elem_of_fmap in Hx as (id' & -> & Hid'). apply list_elem_of_lookup_1 in He as [r' Hr'].
  apply (elem_of_ents desc known d f w Hinv) in Hr' as (l' & Hl' & Hid2 & _). rewrite Hl in Hl'. injection Hl' as <-.
  rewrite Forall_forall in Hlt. specialize (Hlt id' Hid'). lia.
Qed.

(** Everything the query means is visited. *)
Lemma visited_item e l i : located (w_entities w) e = Some l → item e = Some i → e ∈ visited.
Proof. intros Hl Hi. apply elem_of_visited. exists l. split; [done|]. by eapply item_matched. Qed.

(** ** Access by entity *)

(** The answer for one entity. *)
Definition answer (e : Entity) : Result Item QueryEntityError :=
  match located (w_entities w) e with
  | None => Err (NoSuchEntity e)
  | Some _ => match item e with Some i => Ok i | None => Err (QueryMismatch e) end
  end.

Lemma update_caches_ok e l dc fc : located (w_entities w) e = Some l → ready dc fc →
  ∃ dc' fc', update_filter_cache desc d f w fc l = Ret fc' ∧ update_data_cache desc d f w dc l = Ret dc' ∧ caches_at (get_storage_id l) dc' fc'.
Proof.
  intros Hl Hr. destruct (rows_entity desc known w e l Hinv Hl) as (a & t & Ha & Ht & Hlink & _).
  unfold update_filter_cache, update_data_cache, Tables_get_unchecked, Archetypes_get_unchecked, Query.get_storage_id. rewrite Ha, Ht.
  cbn [of_option mbind outcome_bind]. destruct IS_DENSE eqn:Hd.
  - destruct (set_for_table_ok desc known d f w Hinv _ t dc fc Hd Ht Hr) as (dc' & fc' & -> & -> & Hat). eauto.
  - destruct (set_for_arche_ok desc known hash d f w Hinv _ a dc fc Hd Ha Hr) as (t' & dc' & fc' & Ht' & Hds & Hfs & Hat).
    rewrite <- Hlink, Ht in Ht'. injection Ht' as <-. rewrite Hds, Hfs. eauto.
Qed.

Lemma get_with_cache_ok e fc dc : ready dc fc → ∃ fc' dc', get_with_cache w state e fc dc = Ret (answer e, fc', dc') ∧ ready dc' fc'.
Proof.
  intros Hr. unfold Query.get_with_cache, answer. unfold located at 1.
  destruct (Entities_locate (w_entities w) e) as [l|x] eqn:El; [|eauto].
  assert (Hl : located (w_entities w) e = Some l) by (unfold located; by rewrite El).
  rewrite contains_storage_ok. case_bool_decide as Hid; cbn [negb].
  2: { destruct (item e) eqn:Hi; [|eauto]. destruct Hid. by eapply item_matched. }
  destruct (update_caches_ok e l dc fc Hl Hr) as (dc' & fc' & Hfs & Hds & Hat).
  destruct (visit_ok desc known hash last_run this_run d f w Hinv _ dc' fc' e l Hid Hat Hl eq_refl) as [Hef Hfetch].
  assert (∃ fc1, (if F_ENABLE_ENTITY_FILTER f then update_filter_cache desc d f w fc l else Ret fc) = Ret fc1 ∧
    entity_filter last_run this_run f fc1 e (Z.to_nat (table_row l)) = Ret (holds f e) ∧ F_ok desc w f fc1) as (fc1 & -> & Hef1 & Hfok).
  { unfold entity_filter in *. destruct (F_ENABLE_ENTITY_FILTER f).
    - exists fc'. split; [done|]. split; [done|]. apply Hat.
    - exists fc. split; [done|]. split; [done|]. apply Hr. }
  cbn [mbind outcome_bind]. rewrite Hef1. cbn [mbind outcome_bind].
  change (item e) with (if holds f e then data_item w d e else None). destruct (holds f e); cbn [negb].
  - rewrite Hds. cbn [mbind outcome_bind]. rewrite Hfetch. cbn [mbind outcome_bind].
    exists fc1, dc'. split; [by destruct (data_item w d e)|]. split; [apply Hat|done].
  - exists fc1, dc. split; [done|]. split; [apply Hr|done].
Qed.

Lemma caches_ready : ∃ dc, D_build_cache desc d w = Ret dc ∧ ready dc (F_build_cache desc f w).
Proof.
  destruct (D_build_cache_ok desc known w Hinv d) as (dc & Hdc & Hok). exists dc. split; [done|]. split; [done|apply F_build_cache_ok].
Qed.

Lemma caches_built e l : located (w_entities w) e = Some l → get_storage_id l ∈ qs_storages state →
  filter_at desc last_run this_run d f w e l = Ret (holds f e) ∧ fetch_at desc d f w e l = Ret (data_item w d e).
Proof.
  intros Hl Hid. destruct caches_ready as (dc & Hdc & Hr). destruct (update_caches_ok e l dc _ Hl Hr) as (dc' & fc' & Hfs & Hds & Hat).
  destruct (visit_ok desc known hash last_run this_run d f w Hinv _ dc' fc' e l Hid Hat Hl eq_refl) as [Hef Hfetch].
  unfold filter_at, fetch_at. rewrite Hdc, Hfs. cbn [mbind outcome_bind]. rewrite Hds. cbn [mbind outcome_bind]. done.
Qed.

Lemma query_get_ok e : Query_get desc last_run this_run d f w state e = Ret (answer e).
Proof.
  unfold Query_get, answer. unfold located at 1. destruct (Entities_locate (w_entities w) e) as [l|x] eqn:El; [|done].
  assert (Hl : located (w_entities w) e = Some l) by (unfold located; by rewrite El).
  rewrite contains_storage_ok. case_bool_decide as Hid; cbn [negb].
  2: { destruct (item e) eqn:Hi; [|done]. destruct Hid. by eapply item_matched. }
  destruct (caches_built e l Hl Hid) as [-> Hf]. cbn [mbind outcome_bind].
  change (item e) with (if holds f e then data_item w d e else None). destruct (holds f e); cbn [negb]; [|done]. by rewrite Hf.
Qed.

Lemma contains_ok e : Query_contains desc last_run this_run d f w state e = Ret (match answer e with Ok _ => true | Err _ => false end).
Proof.
  unfold Query_contains, answer. unfold located at 1. destruct (Entities_locate (w_entities w) e) as [l|x] eqn:El; [|done].
  assert (Hl : located (w_entities w) e = Some l) by (unfold located; by rewrite El).
  rewrite contains_storage_ok. case_bool_decide as Hid; cbn [negb].
  2: { destruct (item e) eqn:Hi; [|done]. destruct Hid. by eapply item_matched. }
  destruct (caches_built e l Hl Hid) as [-> Hf]. cbn [mbind outcome_bind].
  change (item e) with (if holds f e then data_item w d e else None). destruct (holds f e); cbn [negb]; [|done].
  rewrite Hf. cbn [mbind outcome_bind]. by destruct (data_item w d e).
Qed.

(** The answers in order, up to the first error. *)
Fixpoint answers (es : list Entity) : Result (list Item) QueryEntityError :=
  match es with
  | [] => Ok []
  | e :: es =>
      match answer e with
      | Err x => Err x
      | Ok i => match answers es with Ok l => Ok (i :: l) | Err x => Err x end
      end
  end.

Lemma answers_spec es :
  match answers es with
  | Ok items => Forall2 (λ e i, answer e = Ok i) es items
  | Err x => ∃ es1 e es2, es = es1 ++ e :: es2 ∧ Forall (λ e, ∃ i, answer e = Ok i) es1 ∧ answer e = Err x
  end.
Proof.
  induction es as [|e es IH]; cbn [answers]; [constructor|]. destruct (answer e) as [i|x] eqn:He; [|by exists [], e, es].
  destruct (answers es) as [l|x]; [by constructor|]. destruct IH as (es1 & e' & es2 & -> & Hall & Hx).
  exists (e :: es1), e', es2. split; [done|]. split; [constructor; eauto|done].
Qed.

Lemma get_many_loop_ok es dc fc : ready dc fc → get_many_loop desc last_run this_run d f w state es fc dc = Ret (answers es).
Proof.
  revert dc fc. induction es as [|e es IH]; intros dc fc Hr; cbn [get_many_loop answers]; [done|].
  destruct (get_with_cache_ok e fc dc Hr) as (fc' & dc' & -> & Hr'). cbn [mbind outcome_bind]. destruct (answer e); [|done]. by rewrite IH.
Qed.

Lemma get_many_ok es : Query_get_many desc last_run this_run d f w state es = Ret (answers es).
Proof.
  destruct caches_ready as (dc & Hdc & Hr). unfold Query_get_many. rewrite Hdc. cbn [mbind outcome_bind]. by apply get_many_loop_ok.
Qed.

(** ** One entity *)

Lemma first_two fuel : length visited < fuel →
  ∃ it, QueryIter_new desc d f w state = Ret it ∧
    match omap item visited with
    | [] => ∃ it', next fuel w it = Ret (None, it')
    | i :: rest => ∃ it', next fuel w it = Ret (Some i, it') ∧ ∃ it'', next fuel w it' = Ret (hd_error rest, it'')
    end.
Proof.
  intros Hf. destruct new_ok as (it & Hnew & Hok & Hrest). rewrite <- Hrest in Hf |- *. exists it. split; [done|].
  destruct (next_ok fuel it Hok Hf) as (r & it' & -> & Hr). destruct r as [i|]; [|rewrite Hr; by eexists].
  destruct Hr as (Hok' & -> & Hlt). exists it'. split; [done|].
  destruct (next_ok fuel it' Hok' ltac:(lia)) as (r & it'' & -> & Hr). exists it''. destruct r as [j|]; [|by rewrite Hr].
  by destruct Hr as (_ & -> & _).
Qed.

Lemma single_ok fuel : length visited < fuel →
  ∃ it items, QueryIter_new desc d f w state = Ret it ∧ collect fuel w it = Ret items ∧
    Single_new desc last_run this_run d f fuel w state =
      Ret (match items with [] => Err NoEntities | [i] => Ok i | _ => Err MultipleEntities end) ∧
    Query_is_empty desc last_run this_run d f fuel w state = Ret (match items with [] => true | _ => false end).
Proof.
  intros Hf. destruct (first_two fuel Hf) as (it & Hnew & Htwo). destruct new_ok as (it0 & Hnew0 & Hok & Hrest).
  rewrite Hnew in Hnew0. injection Hnew0 as <-. exists it, (omap item visited). split; [done|].
  split; [by rewrite (collect_ok fuel it Hok), Hrest by (by rewrite Hrest)|]. unfold Single_new, Query_is_empty. rewrite Hnew. cbn [mbind outcome_bind].
  destruct (omap item visited) as [|i l]; [by destruct Htwo as (it1 & ->)|]. destruct Htwo as (it1 & -> & it2 & Hl). cbn [mbind outcome_bind].
  rewrite Hl. by destruct l.
Qed.
End visits.

(** ** Repeated entities *)

Lemma find_duplicate_from seen es : NoDup seen →
  match find_duplicate seen es with
  | None => NoDup (seen ++ es)
  | Some e => ∃ es1 es2, es = es1 ++ e :: es2 ∧ NoDup (seen ++ es1) ∧ e ∈ seen ++ es1
  end.
Proof.
  revert seen. induction es as [|e es IH]; intros seen Hs; cbn; [by rewrite app_nil_r|]. case_decide as He.
  - exists [], es. rewrite app_nil_r. done.
  - specialize (IH (seen ++ [e])). destruct (find_duplicate (seen ++ [e]) es) as [x|].
    + destruct IH as (es1 & es2 & -> & Hnd & Hx); [apply NoDup_app; split; [done|]; split; [set_solver|apply NoDup_singleton]|].
      rewrite <- app_assoc in Hnd, Hx. by exists (e :: es1), es2.
    + rewrite <- app_assoc in IH. apply IH. apply NoDup_app. split; [done|]. split; [set_solver|apply NoDup_singleton].
Qed.

Lemma find_duplicate_none es : NoDup es → find_duplicate [] es = None.
Proof.
  intros Hnd. pose proof (find_duplicate_from [] es (NoDup_nil_2)) as Hf. destruct (find_duplicate [] es) as [e|]; [|done].
  destruct Hf as (es1 & es2 & -> & _ & He). apply NoDup_app in Hnd as (_ & Hdis & _). destruct (Hdis e He). set_solver.
Qed.

Lemma find_duplicate_some es : ¬ NoDup es → ∃ es1 e es2, es = es1 ++ e :: es2 ∧ NoDup es1 ∧ e ∈ es1 ∧ find_duplicate [] es = Some e.
Proof.
  intros Hnd. pose proof (find_duplicate_from [] es (NoDup_nil_2)) as Hf. destruct (find_duplicate [] es) as [e|] eqn:Hd; [|done].
  destruct Hf as (es1 & es2 & -> & Hn & He). eauto 10.
Qed.
