(* ===== verification/QueryAccess.v ===== *)
(** * What a query may touch

    The accesses a query declares cover what it reads and writes; so two queries that were
    granted together, and the elements of one query, never alias. *)

From Stdlib Require Import ZArith Lia Sorting.Sorted.
From S2P Require Import Prelude Tick EntityIdent EntityInfo FreeCount FreeBuffer Allocator Column Table SparseMap.
From S2P Require Import Locations Registry World WorldInv WorldRegister Access QueryMatch Query QueryCells QueryStates QueryIters QueryVisits.

(** Query data touch component [c] of an entity they are fetched for, to write it if [w]. *)
Fixpoint D_touches (d : DataT) (w : bool) (c : Z) : Prop :=
  match d with
  | DEntity => False
  | DEntityRef => w = false
  | DEntityMut => True
  | DRead x | DReadOpt x | DRef x | DRefOpt x => x = c ∧ w = false
  | DMut x | DMutOpt x => x = c
  | DTuple ds => (fix go ds := match ds with [] => False | d :: ds => D_touches d w c ∨ go ds end) ds
  end.

(** A filter reads the ticks of component [c]. *)
Fixpoint F_reads (f : FilterT) (c : Z) : Prop :=
  match f with
  | FAdded x | FChanged x => x = c
  | FAnd fs | FOr fs => (fix go fs := match fs with [] => False | f :: fs => F_reads f c ∨ go fs end) fs
  | _ => False
  end.

Definition Q_touches (d : DataT) (f : FilterT) (w : bool) (c : Z) : Prop := D_touches d w c ∨ (w = false ∧ F_reads f c).

(** ** Declared accesses *)

(** [p'] may follow [p] when access [T] was granted to it. *)
Record granted (T : bool → Z → Prop) (p p' : AccessParam) : Prop := {
  gr_ok : param_ok p';
  gr_keeps : ∀ w c, param_allows p w c → param_allows p' w c;
  gr_gives : ∀ w c, T w c → param_allows p' w c;
  gr_apart : ∀ w w' c, param_allows p w c → T w' c → w || w' = false
}.

Lemma granted_reading p c p' : param_ok p → AccessParam_set_reading p c = (true, p') → granted (λ w x, c = x ∧ w = false) p p'.
Proof.
  intros [Hw He]. unfold AccessParam_set_reading, AccessParam_can_reading.
  destruct (entity_mut p) eqn:Em; cbn; [done|]. case_bool_decide as Hc; cbn; [done|]. intros [= <-]. split.
  - destruct (entity_ref p) eqn:Er; [by split; auto|]. split; cbn; [set_solver|done].
  - intros w x Hx. destruct (entity_ref p) eqn:Er; [done|]. revert Hx. unfold param_allows. cbn. rewrite Em, ?Er. destruct w; set_solver.
  - intros w x [<- ->]. unfold param_allows. destruct (entity_ref p) eqn:Er; cbn; [rewrite Er; auto|set_solver].
  - intros w w' x Hp [<- ->]. unfold param_allows in Hp. rewrite Em in Hp. destruct w; [|done]. destruct Hp; done.
Qed.

Lemma granted_writing p c p' : param_ok p → AccessParam_set_writing p c = (true, p') → granted (λ w x, c = x) p p'.
Proof.
  intros [Hw He]. unfold AccessParam_set_writing, AccessParam_can_writing.
  destruct (entity_mut p) eqn:Em; cbn; [done|]. destruct (entity_ref p) eqn:Er; cbn; [done|]. case_bool_decide as Hc; cbn; [done|]. intros [= <-]. split.
  - split; cbn; [set_solver|done].
  - intros w x. unfold param_allows. cbn. rewrite Em, Er. destruct w; set_solver.
  - intros w x <-. unfold param_allows. cbn. destruct w; set_solver.
  - intros w w' x Hp <-. unfold param_allows in Hp. rewrite Em, Er in Hp. exfalso. destruct w; naive_solver.
Qed.

Lemma granted_entity_ref p p' : param_ok p → AccessParam_set_entity_ref p = (true, p') → granted (λ w _, w = false) p p'.
Proof.
  intros [Hw He]. unfold AccessParam_set_entity_ref, AccessParam_can_entity_ref.
  destruct (entity_mut p) eqn:Em; cbn; [done|]. case_bool_decide as Hc; cbn; [|done]. intros [= <-]. split.
  - split; cbn; [set_solver|done].
  - intros w x. unfold param_allows. cbn. rewrite Em. destruct w; [set_solver|auto].
  - intros w x ->. unfold param_allows. cbn. auto.
  - intros w w' x Hp ->. unfold param_allows in Hp. rewrite Em in Hp. destruct w; [|done]. destruct Hp; [done|set_solver].
Qed.

Lemma granted_entity_mut p p' : param_ok p → AccessParam_set_entity_mut p = (true, p') → granted (λ _ _, True) p p'.
Proof.
  intros [Hw He]. unfold AccessParam_set_entity_mut, AccessParam_can_entity_mut.
  destruct (entity_mut p) eqn:Em; cbn; [done|]. destruct (entity_ref p) eqn:Er; cbn; [done|].
  case_bool_decide as Hr; cbn; [|done]. case_bool_decide as Hc; cbn; [|done]. intros [= <-]. split.
  - split; cbn; [set_solver|done].
  - intros w x _. unfold param_allows. cbn. auto.
  - intros w x _. unfold param_allows. cbn. auto.
  - intros w w' x Hp _. unfold param_allows in Hp. rewrite Em, Er in Hp. exfalso. destruct w; destruct Hp as [?|Hp]; try done; [set_solver|]. destruct Hp; [done|set_solver].
Qed.

Lemma granted_trans T T' p p1 p2 : granted T p p1 → granted T' p1 p2 → granted (λ w c, T w c ∨ T' w c) p p2.
Proof.
  intros [O1 K1 G1 A1] [O2 K2 G2 A2]. split; [done|auto| |].
  - intros w c [?|?]; auto.
  - intros w w' c Hp [?|?]; [eauto|]. eapply A2; eauto.
Qed.

Definition access_step : bool * AccessParam → DataT → bool * AccessParam :=
  λ '(valid, out) d, if valid : bool then D_build_access d out else (false, out).

Lemma access_fold_false ds p p' : foldl access_step (false, p) ds = (true, p') → False.
Proof. induction ds as [|d ds IH]; cbn; [done|exact IH]. Qed.

Lemma access_fold_cons d ds p p' : foldl access_step (true, p) (d :: ds) = (true, p') →
  ∃ p1, D_build_access d p = (true, p1) ∧ foldl access_step (true, p1) ds = (true, p').
Proof. cbn. destruct (D_build_access d p) as [[] p1]; [eauto|]. by intros ?%access_fold_false. Qed.

Lemma D_build_access_ok d p p' : param_ok p → D_build_access d p = (true, p') → granted (D_touches d) p p'.
Proof.
  revert p p'. induction d as [| | |c|c|c|c|c|c|ds IH] using DataT_tree; intros p p' Hp; cbn [D_build_access D_touches];
    try apply granted_reading; try apply granted_writing; try done; [| | |].
  - intros [= <-]. by split.
  - by apply granted_entity_ref.
  - by apply granted_entity_mut.
  - fold access_step. revert p Hp. induction IH as [|d ds Hd Hds IHds]; intros p Hp Hr; [cbn in Hr; injection Hr as <-; by split|].
    apply access_fold_cons in Hr as (p1 & H1 & H2). pose proof (Hd p p1 Hp H1) as Hg.
    exact (granted_trans _ _ _ _ _ Hg (IHds p1 (gr_ok _ _ _ Hg) H2)).
Qed.

(** What the filters add is read only: nothing granted is lost. *)
Record extended (T : Z → Prop) (p p' : AccessParam) : Prop := {
  ex_ok : param_ok p';
  ex_keeps : ∀ w c, param_allows p w c → param_allows p' w c;
  ex_gives : ∀ c, T c → param_allows p' false c
}.

Lemma force_reading_ok p c : param_ok p → extended (λ x, c = x) p (AccessParam_force_reading p c).
Proof.
  intros [Hw He]. unfold AccessParam_force_reading. destruct (entity_mut p) eqn:Em; cbn; [|destruct (entity_ref p) eqn:Er; cbn].
  - split; [by split; auto|done|]. intros x _. by left.
  - split; [by split; auto|done|]. intros x _. right. by left.
  - split; [split; cbn; [set_solver|done]| |].
    + intros w x. unfold param_allows. cbn. rewrite Em, Er. destruct w; set_solver.
    + intros x <-. unfold param_allows. cbn. set_solver.
Qed.

Lemma F_build_access_ok f p : param_ok p → extended (F_reads f) p (F_build_access f p).
Proof.
  revert p. induction f as [|ids|ids|c|c|fs IH|fs IH] using FilterT_tree; intros p Hp; cbn [F_build_access F_reads];
    try by apply force_reading_ok; try by split.
  all: try by (split; [done|done|]; intros ? []).
  all: revert p Hp; induction IH as [|f fs Hf Hfs IHfs]; intros p Hp; cbn; [by (split; [done|done|]; intros ? [])|].
  all: destruct (Hf p Hp) as [O1 K1 G1]; destruct (IHfs _ O1) as [O2 K2 G2]; split; [done|auto|intros c [?|?]; auto].
Qed.

(** The declared access of a query. *)
Lemma query_declares d f p : D_build_access d AccessParam_new = (true, p) →
  param_ok (F_build_access f p) ∧ ∀ w c, Q_touches d f w c → param_allows (F_build_access f p) w c.
Proof.
  intros Hd. assert (param_ok AccessParam_new) as H0 by (split; [set_solver|done]).
  pose proof (D_build_access_ok d _ _ H0 Hd) as [O1 _ G1 _]. destruct (F_build_access_ok f p O1) as [O2 K2 G2].
  split; [done|]. intros w c [Ht|[-> Hr]]; auto.
Qed.

(** ** Declared filters *)

Lemma merge_all_elem data params m p : NoDup params → p ∈ params → p ∉ m.*1 →
  (p, data) ∈ foldl (λ m param, filter_merge m param data) m params.
Proof.
  assert (Hkeep : ∀ params m, (p, data) ∈ m → p ∉ params → (p, data) ∈ foldl (λ m param, filter_merge m param data) m params).
  { induction params0 as [|q qs IH]; intros m0 Hm Hn; cbn; [done|]. apply IH; [apply filter_merge_other; [done|set_solver]|set_solver]. }
  revert m. induction params as [|q params IH]; intros m Hnd Hp Hm; [set_solver|]. apply NoDup_cons in Hnd as [Hq Hnd]. cbn.
  destruct (decide (p = q)) as [->|Hne].
  - apply Hkeep; [|done]. clear -Hm. induction m as [|[k v] m IH]; cbn; [set_solver|]. rewrite decide_False by set_solver. set_solver.
  - apply IH; [done|set_solver|]. rewrite filter_merge_keys. set_solver.
Qed.

Section access.
Context `{VecGrowth, FilterOrder}.
Variable desc : Z → ComponentDesc.
Variable known : gset Z.
Variable hash : nat → list Z → Z.
Variable w : World.
Hypothesis Hinv : world_inv desc known w.
Notation params d f := (query_params hash d f).
Notation visited d f := (visited desc hash d f w).

Lemma params_NoDup d f : NoDup (params d f).
Proof. unfold query_params, collect_param. rewrite filter_order_perm. apply NoDup_remove_dups. Qed.

(** An entity the query walks is one of a filter it declared. *)
Lemma visited_matches d f e : e ∈ visited d f → ∃ p, p ∈ params d f ∧ matches p (list_to_set (comps w e)).
Proof.
  intros (l & Hl & Hs)%(elem_of_visited desc known hash d f w Hinv). apply (storage_matches desc known hash d f w Hinv e l Hl) in Hs as [Hst Hreq].
  assert (Exists (p_admits (comps w e) []) (params d f)) as Hex.
  { apply (collect_admits desc hash (D_build_filter d (F_build_filter f)) (comps w e) []). rewrite app_nil_r. apply D_build_filter_ok. split; [by apply F_build_filter_ok|done]. }
  apply Exists_exists in Hex as (p & Hp & Hw & Ho). exists p. split; [done|]. rewrite !Forall_forall in *. split; intros c Hc.
  - apply elem_of_list_to_set. destruct (Hw c Hc) as [?|?%elem_of_nil]; done.
  - rewrite elem_of_list_to_set. by apply Ho.
Qed.

Lemma mark_declares d f st : QueryState_build desc hash d f w = Ret st → ∃ p,
  qs_filter_data st = p ∧ qs_filter_params st = params d f ∧ param_ok p ∧ (∀ b c, Q_touches d f b c → param_allows p b c) ∧
  ∃ m, QueryState_mark_assess st AccessTable_new = (true, mkAccessTable false false ∅ ∅ m) ∧ ∀ q, q ∈ params d f → (q, p) ∈ m.
Proof.
  intros Hb. rewrite (build_state desc known hash d f w Hinv) in Hb.
  destruct (D_build_access d AccessParam_new) as [[] p0] eqn:Hd; cbn [fst] in Hb; [|done]. injection Hb as <-.
  destruct (query_declares d f p0 Hd) as [Hok Hall]. eexists. split; [done|]. cbn [state_of qs_filter_params qs_filter_data]. rewrite Hd. cbn [snd].
  split; [done|]. split; [done|]. split; [done|]. unfold QueryState_mark_assess, AccessTable_set_query, AccessTable_can_query. cbn [qs_filter_data qs_filter_params snd].
  cbn. assert (forallb (λ _ : FilterParam, true) (params d f) = true) as -> by (by induction (params d f)).
  eexists. split; [done|]. intros q Hq. rewrite Hd. apply merge_all_elem; [apply params_NoDup|done|set_solver].
Qed.

(** Two queries are granted together: as the two parameters of one system, or each as the
    only parameter of two systems that may run at the same time. *)
Definition granted_together (st1 st2 : QueryState) : Prop :=
  (QueryState_mark_assess st2 (QueryState_mark_assess st1 AccessTable_new).2).1 = true ∨
  AccessTable_parallelizable (QueryState_mark_assess st1 AccessTable_new).2 (QueryState_mark_assess st2 AccessTable_new).2 = true.

Lemma together_apart d1 f1 d2 f2 st1 st2 e c b1 b2 :
  QueryState_build desc hash d1 f1 w = Ret st1 → QueryState_build desc hash d2 f2 w = Ret st2 → granted_together st1 st2 →
  e ∈ visited d1 f1 → e ∈ visited d2 f2 → Q_touches d1 f1 b1 c → Q_touches d2 f2 b2 c → b1 || b2 = false.
Proof.
  intros H1 H2 Hg He1 He2 Ht1 Ht2. destruct (visited_matches d1 f1 e He1) as (q1 & Hq1 & Hm1). destruct (visited_matches d2 f2 e He2) as (q2 & Hq2 & Hm2).
  destruct (mark_declares d1 f1 st1 H1) as (p1 & Hd1 & Hp1 & Hok1 & Hall1 & m1 & Hmk1 & Hin1).
  destruct (mark_declares d2 f2 st2 H2) as (p2 & Hd2 & Hp2 & Hok2 & Hall2 & m2 & Hmk2 & Hin2).
  assert (Hpar : AccessParam_parallelizable p1 p2 = true ∨ AccessParam_parallelizable p2 p1 = true).
  { unfold granted_together in Hg. rewrite Hmk1, Hmk2 in Hg. cbn [snd] in Hg. destruct Hg as [Hg|Hg].
    - right. unfold QueryState_mark_assess, AccessTable_set_query in Hg.
      destruct (AccessTable_can_query _ _ _) eqn:Hcan in Hg; [|done]. unfold AccessTable_can_query in Hcan. cbn in Hcan.
      rewrite Hp2, forallb_forall in Hcan. specialize (Hcan q2 (proj1 (list_elem_of_In _ _) Hq2)). rewrite forallb_forall in Hcan.
      specialize (Hcan (q1, p1) (proj1 (list_elem_of_In _ _) (Hin1 q1 Hq1))). cbn in Hcan.
      destruct (FilterParam_is_disjoint q1 q2) eqn:Hdis; [by destruct (is_disjoint_sound _ _ _ Hdis Hm1 Hm2)|]. by rewrite <- Hd2.
    - left. unfold AccessTable_parallelizable in Hg. cbn [world_mut res_writing res_reading filter_map orb] in Hg.
      destruct (negb _ || negb _) in Hg; [done|]. rewrite forallb_forall in Hg. specialize (Hg (q1, p1) (proj1 (list_elem_of_In _ _) (Hin1 q1 Hq1))).
      rewrite forallb_forall in Hg. specialize (Hg (q2, p2) (proj1 (list_elem_of_In _ _) (Hin2 q2 Hq2))). cbn in Hg.
      destruct (FilterParam_is_disjoint q1 q2) eqn:Hdis; [by destruct (is_disjoint_sound _ _ _ Hdis Hm1 Hm2)|done]. }
  apply not_true_iff_false. intros Hb. destruct Hpar as [Hpar|Hpar].
  - eapply (param_parallel_sound p1 p2); eauto.
  - rewrite orb_comm in Hb. eapply (param_parallel_sound p2 p1); eauto.
Qed.
End access.
