(* ===== verification/QueryTheorems.v ===== *)
(** * Queries: theorems

    In every history of a world a query state built at one time and updated at a later
    one is the state built then, its iterator yields every entity the query means exactly
    once, access by entity answers the same, and queries granted together do not alias. *)

From Stdlib Require Import ZArith Lia Sorting.Sorted.
From stdpp Require Import relations.
From S2P Require Import Prelude Tick EntityIdent EntityInfo FreeCount FreeBuffer Allocator Column Table SparseMap.
From S2P Require Import Locations Registry World WorldInv WorldRegister WorldTheorems WorldHistory WorldRefine WorldGrows.
From S2P Require Import Access QueryMatch Query QueryCells QueryStates QueryIters QueryVisits QueryAccess.

Section theorems.
Context `{VecGrowth, FilterOrder}.
Variable desc : Z → ComponentDesc.
Variable known : gset Z.
Variable hash : nat → list Z → Z.
Hypothesis types : types_ok desc known.
Hypothesis flat : requires_transitive desc.
Notation steps := (rtc (world_step desc known)).

Lemma history_inv w out : steps (World_alloc desc, []) (w, out) → world_inv desc known w.
Proof. intros Hr. by destruct (world_reachable_ok desc known types flat (w, out) Hr) as (m & _ & _ & Hinv & _). Qed.

Lemma history_update d f w out w' out' st : steps (World_alloc desc, []) (w, out) → QueryState_build desc hash d f w = Ret st →
  steps (w, out) (w', out') → world_inv desc known w' ∧ QueryState_update desc d f st w' = Ret (state_of desc hash d f w') ∧
  QueryState_build desc hash d f w' = Ret (state_of desc hash d f w').
Proof.
  intros Hr Hb Hs. pose proof (history_inv w out Hr) as Hinv. assert (Hinv' : world_inv desc known w') by (eapply history_inv; by etrans).
  rewrite (build_state desc known hash d f w Hinv) in Hb. rewrite (build_state desc known hash d f w' Hinv').
  destruct (D_build_access d AccessParam_new) as [[] p]; cbn [fst] in *; [|done]. injection Hb as <-. split; [done|]. split; [|done].
  apply (update_state desc known hash d f w w' Hinv Hinv'). exact (world_history_grows _ _ _ _ Hs).
Qed.
End theorems.

(** Walking ends: no more entities are visited than there are slots. *)
Lemma visited_bound `{VecGrowth, FilterOrder} desc known hash d f w : world_inv desc known w →
  length (visited desc hash d f w) ≤ length (infos (w_entities w)).
Proof.
  intros Hinv. rewrite <- (length_fmap Entity_index). rewrite <- (length_seq (length (infos (w_entities w))) 0).
  apply submseteq_length, NoDup_submseteq.
  - apply NoDup_fmap_2_strong; [|by apply (visited_NoDup desc known)]. intros e e' He He' Hi.
    apply (elem_of_visited desc known hash d f w Hinv) in He as (l & Hl & _), He' as (l' & Hl' & _).
    eapply located_inj; eauto. apply Hinv.
  - intros i (e & -> & He)%list_elem_of_fmap. apply (elem_of_visited desc known hash d f w Hinv) in He as (l & Hl & _).
    apply located_in, lookup_lt_Some in Hl. apply elem_of_seq. lia.
Qed.

Lemma omap_filter {A B} (g : A → option B) l : Forall2 (λ x y, g x = Some y) (filter (λ x, is_Some (g x)) l) (omap g l).
Proof.
  induction l as [|x l IH]; [constructor|]. rewrite filter_cons. cbn [omap list_omap]. destruct (g x) as [y|] eqn:Hx.
  - rewrite decide_True by done. by constructor.
  - rewrite decide_False by (by intros []). done.
Qed.

(** ** Claims *)

(** C35: Updating a query state is rebuilding it.  A state built at one time and brought
    up to date at any later time of the world, which looks only at the tables or
    archetypes registered since, is the state built then from scratch. *)
Theorem query_update_incremental `{VecGrowth, FilterOrder} desc known hash d f w out w' out' st :
  types_ok desc known → requires_transitive desc →
  rtc (world_step desc known) (World_alloc desc, []) (w, out) → QueryState_build desc hash d f w = Ret st →
  rtc (world_step desc known) (w, out) (w', out') →
  QueryState_update desc d f st w' = QueryState_build desc hash d f w'.
Proof.
  intros Hty Hfl Hr Hb Hs. destruct (history_update desc known hash Hty Hfl d f w out w' out' st Hr Hb Hs) as (_ & -> & ->). done.
Qed.

(** C4: A query iterates over what it means.  A state built at any time of a world and
    updated at a later one gives an iterator that ends after as many turns as there are
    entity slots, never reads out of bounds and yields, each exactly once, the entities
    that exist, satisfy the filter and have the data, with the values and ticks they
    have; the caches that are kept from one table, archetype or sparse map to the next
    never show. *)
Theorem query_iter_exact `{VecGrowth, FilterOrder} desc known hash last_run this_run d f w out w' out' st :
  types_ok desc known → requires_transitive desc →
  rtc (world_step desc known) (World_alloc desc, []) (w, out) → QueryState_build desc hash d f w = Ret st →
  rtc (world_step desc known) (w, out) (w', out') →
  ∃ st' it es items, QueryState_update desc d f st w' = Ret st' ∧ QueryIter_new desc d f w' st' = Ret it ∧
    QueryIter_collect desc last_run this_run d f (S (length (infos (w_entities w')))) w' it = Ret items ∧
    Forall2 (λ e i, query_item last_run this_run w' d f e = Some i) es items ∧ NoDup es ∧
    ∀ e, e ∈ es ↔ is_Some (located (w_entities w') e) ∧ is_Some (query_item last_run this_run w' d f e).
Proof.
  intros Hty Hfl Hr Hb Hs. destruct (history_update desc known hash Hty Hfl d f w out w' out' st Hr Hb Hs) as (Hinv & Hu & _).
  destruct (new_ok desc known hash d f w' Hinv) as (it & Hnew & Hok & Hrest).
  pose proof (visited_bound desc known hash d f w' Hinv) as Hlen.
  exists (state_of desc hash d f w'), it, (filter (λ e, is_Some (query_item last_run this_run w' d f e)) (visited desc hash d f w')).
  eexists. split; [done|]. split; [done|]. split; [apply (collect_ok desc known hash last_run this_run d f w' Hinv); [done|rewrite Hrest; lia]|].
  rewrite Hrest. split; [apply omap_filter|]. split; [apply NoDup_filter; by apply (visited_NoDup desc known)|].
  intros e. rewrite list_elem_of_filter, (elem_of_visited desc known hash d f w' Hinv). split.
  - intros (Hi & l & Hl & _). split; [by eexists|done].
  - intros [[l Hl] [i Hi]]. split; [by eexists|]. exists l. split; [done|]. by eapply item_matched.
Qed.

(** C36: Access by entity agrees with iteration.  [get] returns the item the query means
    for the entity, or says that the entity does not exist or that it does not match;
    [contains] says whether it returns one; [get_many] returns the items of the entities in
    order or the error of the first one that has none; [get_many_mut] in addition refuses
    a list with a repeated entity, naming it; [single] returns the only match and tells
    apart none and several. *)
Theorem query_entity_access `{VecGrowth, FilterOrder} desc known hash last_run this_run d f w out w' out' st :
  types_ok desc known → requires_transitive desc →
  rtc (world_step desc known) (World_alloc desc, []) (w, out) → QueryState_build desc hash d f w = Ret st →
  rtc (world_step desc known) (w, out) (w', out') →
  let item := query_item last_run this_run w' d f in
  let answer e := match located (w_entities w') e with
                  | None => Err (NoSuchEntity e)
                  | Some _ => match item e with Some i => Ok i | None => Err (QueryMismatch e) end
                  end in
  ∃ st', QueryState_update desc d f st w' = Ret st' ∧
    (∀ e, Query_get desc last_run this_run d f w' st' e = Ret (answer e)) ∧
    (∀ e, Query_contains desc last_run this_run d f w' st' e = Ret (match answer e with Ok _ => true | Err _ => false end)) ∧
    (∀ es, ∃ r, Query_get_many desc last_run this_run d f w' st' es = Ret r ∧
       match r with
       | Ok items => Forall2 (λ e i, answer e = Ok i) es items
       | Err x => ∃ es1 e es2, es = es1 ++ e :: es2 ∧ Forall (λ e, ∃ i, answer e = Ok i) es1 ∧ answer e = Err x
       end) ∧
    (∀ es, NoDup es → Query_get_many_mut desc last_run this_run d f w' st' es = Query_get_many desc last_run this_run d f w' st' es) ∧
    (∀ es, ¬ NoDup es → ∃ es1 e es2, es = es1 ++ e :: es2 ∧ NoDup es1 ∧ e ∈ es1 ∧
       Query_get_many_mut desc last_run this_run d f w' st' es = Ret (Err (DuplicateEntity e))) ∧
    (let fuel := S (length (infos (w_entities w'))) in
     ∃ it items, QueryIter_new desc d f w' st' = Ret it ∧ QueryIter_collect desc last_run this_run d f fuel w' it = Ret items ∧
       Single_new desc last_run this_run d f fuel w' st' =
         Ret (match items with [] => Err NoEntities | [i] => Ok i | _ => Err MultipleEntities end) ∧
       Query_is_empty desc last_run this_run d f fuel w' st' = Ret (match items with [] => true | _ => false end)).
Proof.
  intros Hty Hfl Hr Hb Hs item answer. destruct (history_update desc known hash Hty Hfl d f w out w' out' st Hr Hb Hs) as (Hinv & Hu & _).
  exists (state_of desc hash d f w'). split; [done|].
  pose proof (query_get_ok desc known hash last_run this_run d f w' Hinv) as Hget. split; [exact Hget|].
  split; [exact (contains_ok desc known hash last_run this_run d f w' Hinv)|].
  split; [intros es; eexists; split; [apply (get_many_ok desc known hash last_run this_run d f w' Hinv)|apply answers_spec]|].
  split; [intros es Hnd; unfold Query_get_many_mut; by rewrite find_duplicate_none|].
  split; [intros es Hnd; unfold Query_get_many_mut; destruct (find_duplicate_some es Hnd) as (es1 & e & es2 & Hes & ? & ? & ->); exists es1, e, es2; by split_and!|].
  intros fuel. pose proof (visited_bound desc known hash d f w' Hinv) as Hlen.
  by apply (single_ok desc known hash last_run this_run d f w' Hinv); lia.
Qed.

(** C37: Galloping search finds what is there and stays in bounds.  On ascending slices
    [jump_search] ends within as many turns as the slice is long, never indexes past its
    end, and returns the place of the identifier or a place where everything before is
    smaller; [matches_sorted], which shortens both slices as it goes, answers whether the
    slices have all of the first list and none of the second. *)
Theorem matches_sorted_exact dense sparse ws wos :
  StronglySorted Z.lt dense → StronglySorted Z.lt sparse → StronglySorted Z.lt ws → StronglySorted Z.lt wos →
  matches_sorted dense sparse ws wos =
    Ret (bool_decide (Forall (λ id, id ∈ dense ∨ id ∈ sparse) ws ∧ Forall (λ id, id ∉ dense ∧ id ∉ sparse) wos)) ∧
  ∀ id, ∃ r, jump_search id dense = Ret r ∧
    match r with
    | Ok i => dense !! i = Some id
    | Err i => id ∉ dense ∧ i ≤ length dense ∧ ∀ j x, j < i → dense !! j = Some x → (x < id)%Z
    end.
Proof.
  intros Hd Hs Hw Ho. split; [by apply matches_sorted_ok|]. intros id. destruct (jump_search_ok id dense Hd) as (r & Hr & Hres).
  exists r. split; [done|]. destruct r as [i|i]; [done|]. exact Hres.
Qed.

(** Elements of a tuple, each granted after the ones before. *)
Lemma elements_apart ds p p' i j d1 d2 b1 b2 c : param_ok p → foldl access_step (true, p) ds = (true, p') →
  ds !! i = Some d1 → ds !! j = Some d2 → i < j → D_touches d1 b1 c → D_touches d2 b2 c → b1 || b2 = false.
Proof.
  assert (Hkept : ∀ ds p p' j d b c b', param_ok p → foldl access_step (true, p) ds = (true, p') →
    ds !! j = Some d → param_allows p b' c → D_touches d b c → b' || b = false).
  { induction ds0 as [|d0 ds0 IH]; intros p0 p0' j0 d0' b c0 b' Hp Hr Hj Ha Ht; [done|].
    apply access_fold_cons in Hr as (p1 & H1 & H2). pose proof (D_build_access_ok _ _ _ Hp H1) as [O K _ A].
    destruct j0 as [|j0]; [injection Hj as ->; by eapply A|]. eapply (IH p1); eauto. }
  revert p i j. induction ds as [|d ds IH]; intros p i j Hp Hr Hi Hj Hlt Ht1 Ht2; [done|].
  apply access_fold_cons in Hr as (p1 & H1 & H2). pose proof (D_build_access_ok _ _ _ Hp H1) as [O K G _].
  destruct j as [|j]; [lia|]. destruct i as [|i].
  - injection Hi as ->. eapply Hkept; eauto.
  - eapply (IH p1 i j); eauto. lia.
Qed.

(** C5: Two queries granted together never alias.  Two queries that are the only access
    of one system, or each the only access of two systems that may run at the same time,
    never walk the same entity when one of them writes a component the other reads or
    writes, be it through its data, a whole-entity reference or the ticks its filter
    reads; and in a query that was built no two elements of its tuple touch one component
    when one of them writes it.  A third query on the same filter can make a table forget
    a whole-entity reference ([merge_forgets_entity_ref] in [Access]), so the tables are
    those of exactly the two queries. *)
Theorem queries_never_alias `{VecGrowth, FilterOrder} desc known hash d1 f1 d2 f2 w out st1 st2 :
  types_ok desc known → requires_transitive desc →
  rtc (world_step desc known) (World_alloc desc, []) (w, out) →
  QueryState_build desc hash d1 f1 w = Ret st1 → QueryState_build desc hash d2 f2 w = Ret st2 →
  (granted_together st1 st2 → ∀ e c b1 b2, e ∈ visited desc hash d1 f1 w → e ∈ visited desc hash d2 f2 w →
     Q_touches d1 f1 b1 c → Q_touches d2 f2 b2 c → b1 || b2 = false) ∧
  (∀ ds i j x y c b1 b2, d1 = DTuple ds → ds !! i = Some x → ds !! j = Some y → i < j →
     D_touches x b1 c → D_touches y b2 c → b1 || b2 = false) ∧
  (∀ last_run this_run e i, is_Some (located (w_entities w) e) → query_item last_run this_run w d1 f1 e = Some i →
     e ∈ visited desc hash d1 f1 w).
Proof.
  intros Hty Hfl Hr H1 H2. pose proof (history_inv desc known Hty Hfl w out Hr) as Hinv. split; [|split].
  - intros Hg e c b1 b2. by apply (together_apart desc known hash w Hinv d1 f1 d2 f2 st1 st2).
  - intros ds i j x y c b1 b2 ->. rewrite (build_state desc known hash _ f1 w Hinv) in H1.
    destruct (D_build_access (DTuple ds) AccessParam_new) as [[] p] eqn:Hd; [|done]. cbn [D_build_access] in Hd. fold access_step in Hd.
    eapply elements_apart; [|exact Hd]. split; [set_solver|done].
  - intros last_run this_run e i [l Hl] Hi. by eapply (visited_item desc known hash last_run this_run d1 f1 w Hinv).
Qed.

(** ** Examples *)

#[local] Existing Instance doubling.

Definition ex_hash (n : nat) (l : list Z) : Z := Z.of_nat n.
Definition ex_data : DataT := DTuple [DEntity; DMut 2; DReadOpt 1; DRead 3]%Z.
Definition ex_filter : FilterT := FAnd [FWith [1]; FChanged 3]%Z.
Definition ex_pair : DataT := DTuple [DRead 3; DRead 1]%Z.

Lemma ex_start : rtc (world_step ex_desc ex_known) (World_alloc ex_desc, []) (World_alloc ex_desc, []).
Proof. apply rtc_refl. Qed.

Lemma only_one {A} (es : list A) e : NoDup es → e ∈ es → (∀ x, x ∈ es → x = e) → es = [e].
Proof.
  intros Hnd He Hone. destruct es as [|x [|y es]]; [by apply elem_of_nil in He|by rewrite (Hone x) by set_solver|].
  apply NoDup_cons in Hnd as [Hnd _]. rewrite (Hone x), (Hone y) in Hnd by set_solver. destruct Hnd. left.
Qed.

(** The state built on a new world. *)
Definition ex_state (d : DataT) (f : FilterT) : QueryState :=
  match QueryState_build ex_desc ex_hash d f (World_alloc ex_desc) with Ret st => st | _ => mkQueryState 0 [] AccessParam_new [] end.

Lemma ex_built : QueryState_build ex_desc ex_hash ex_data ex_filter (World_alloc ex_desc) = Ret (ex_state ex_data ex_filter).
Proof. by vm_compute. Qed.

Lemma query_update_incremental_witness :
  ∃ e w, ex_spawn = Ret (e, w) ∧
    QueryState_update ex_desc ex_data ex_filter (ex_state ex_data ex_filter) w = QueryState_build ex_desc ex_hash ex_data ex_filter w.
Proof.
  destruct ex_steps as (e & w & Hr & Hh & _). exists e, w. split; [exact Hr|].
  exact (query_update_incremental ex_desc ex_known ex_hash ex_data ex_filter _ _ w [ident e] _ ex_types ex_flat ex_start ex_built Hh).
Defined.

(** One entity is found, with the components it was spawned with. *)
Lemma query_iter_exact_witness :
  ∃ e w st it i, ex_spawn = Ret (e, w) ∧ QueryState_update ex_desc ex_data ex_filter (ex_state ex_data ex_filter) w = Ret st ∧
    QueryIter_new ex_desc ex_data ex_filter w st = Ret it ∧ query_item (Tick_new 0) (Tick_new 1) w ex_data ex_filter e = Some i ∧
    QueryIter_collect ex_desc (Tick_new 0) (Tick_new 1) ex_data ex_filter (S (length (infos (w_entities w)))) w it = Ret [i].
Proof.
  destruct ex_steps as (e & w & Hr & Hh & _ & Hl).
  destruct (query_iter_exact ex_desc ex_known ex_hash (Tick_new 0) (Tick_new 1) ex_data ex_filter _ _ w [ident e] _ ex_types ex_flat ex_start ex_built Hh)
    as (st & it & es & items & Hu & Hn & Hc & Hall & Hnd & Hes).
  exists e, w, st, it. assert (Hi : is_Some (query_item (Tick_new 0) (Tick_new 1) w ex_data ex_filter e)).
  { vm_compute in Hr. injection Hr as <- <-. vm_compute. by eexists. }
  assert (Hone : ∀ x, x ∈ es → x = e).
  { intros x [Hx _]%Hes. destruct Hx as [l' Hx]. apply located_in in Hx. vm_compute in Hr. injection Hr as <- <-.
    destruct x as [[n] [t]]. remember (Entity_index _) as k eqn:Hk in Hx. destruct k as [|[|[|[|k]]]]; vm_compute in Hx; simplify_eq.
    unfold Entity_index, EntityId_index, EntityId_to_bits in Hk. cbn in Hk. by replace n with 1%Z by lia. }
  assert (es = [e]) as ->.
  { apply only_one; [exact Hnd| |exact Hone]. apply Hes. split; [rewrite Hl; by eexists|exact Hi]. }
  apply Forall2_cons_inv_l in Hall as (i & items' & Hi' & Hnil & ->). apply Forall2_nil_inv_l in Hnil as ->.
  exists i. split; [exact Hr|]. split; [exact Hu|]. split; [exact Hn|]. split; [exact Hi'|exact Hc].
Defined.

(** The iterator is not fused: after it has ended it yields the entities of the last
    storage again. *)
Definition ex_next_again : outcome (list (option Item)) :=
  '(e, w) ← ex_spawn;
  st ← QueryState_build ex_desc ex_hash ex_data ex_filter w;
  it ← QueryIter_new ex_desc ex_data ex_filter w st;
  let next := QueryIter_next ex_desc (Tick_new 0) (Tick_new 1) ex_data ex_filter 3 w in
  '(first, it) ← next it; '(second, it) ← next it; '(third, it) ← next it;
  Ret [first; second; third].

Lemma query_iter_not_fused : ∃ i, ex_next_again = Ret [Some i; None; Some i].
Proof. eexists. vm_compute. reflexivity. Qed.

(** The entity is got by its identifier, one that was never given out is refused, and a
    pair of the same entity too. *)
Lemma query_entity_access_witness :
  ∃ e w st i, ex_spawn = Ret (e, w) ∧ QueryState_update ex_desc ex_data ex_filter (ex_state ex_data ex_filter) w = Ret st ∧
    Query_get ex_desc (Tick_new 0) (Tick_new 1) ex_data ex_filter w st e = Ret (Ok i) ∧
    Query_get ex_desc (Tick_new 0) (Tick_new 1) ex_data ex_filter w st (ex_entity 9 0) = Ret (Err (NoSuchEntity (ex_entity 9 0))) ∧
    ∃ x, Query_get_many_mut ex_desc (Tick_new 0) (Tick_new 1) ex_data ex_filter w st [e; e] = Ret (Err (DuplicateEntity x)).
Proof.
  destruct ex_steps as (e & w & Hr & Hh & _ & Hl).
  destruct (query_entity_access ex_desc ex_known ex_hash (Tick_new 0) (Tick_new 1) ex_data ex_filter _ _ w [ident e] _ ex_types ex_flat ex_start ex_built Hh)
    as (st & Hu & Hg & _ & _ & _ & Hdup & _).
  assert (Hi : is_Some (query_item (Tick_new 0) (Tick_new 1) w ex_data ex_filter e)).
  { vm_compute in Hr. injection Hr as <- <-. vm_compute. by eexists. }
  assert (Hno : located (w_entities w) (ex_entity 9 0) = None).
  { vm_compute in Hr. injection Hr as <- <-. by vm_compute. }
  destruct Hi as [i Hi]. exists e, w, st, i. split; [exact Hr|]. split; [exact Hu|].
  split; [rewrite Hg, Hl, Hi; reflexivity|]. split; [rewrite Hg, Hno; reflexivity|].
  destruct (Hdup [e; e]) as (es1 & x & es2 & _ & _ & _ & Hx); [intros [Hn _]%NoDup_cons; destruct Hn; left|]. exists x. exact Hx.
Defined.

Lemma matches_sorted_exact_witness : matches_sorted [1; 4; 6]%Z [2; 3]%Z [2; 6]%Z [5; 7]%Z = Ret true.
Proof.
  destruct (matches_sorted_exact [1; 4; 6] [2; 3] [2; 6] [5; 7])%Z as [Hm _]; [repeat (constructor; [|repeat constructor; lia]); constructor..|].
  rewrite Hm. f_equal; try (by vm_compute).
Defined.

(** [(Entity, &mut B, Option<&A>, &C)] and [(&C, &A)] are granted together and walk the
    same entity. *)
Lemma queries_never_alias_witness :
  ∃ e w st1 st2, ex_spawn = Ret (e, w) ∧
    QueryState_build ex_desc ex_hash ex_data ex_filter w = Ret st1 ∧ QueryState_build ex_desc ex_hash ex_pair FUnit w = Ret st2 ∧
    granted_together st1 st2 ∧ e ∈ visited ex_desc ex_hash ex_data ex_filter w ∧ e ∈ visited ex_desc ex_hash ex_pair FUnit w ∧
    ∀ c b1 b2, Q_touches ex_data ex_filter b1 c → Q_touches ex_pair FUnit b2 c → b1 || b2 = false.
Proof.
  destruct ex_steps as (e & w & Hr & Hh & _ & Hl). exists e, w.
  assert (∃ st1 st2, QueryState_build ex_desc ex_hash ex_data ex_filter w = Ret st1 ∧ QueryState_build ex_desc ex_hash ex_pair FUnit w = Ret st2 ∧
    granted_together st1 st2 ∧ is_Some (query_item (Tick_new 0) (Tick_new 1) w ex_data ex_filter e) ∧ is_Some (query_item (Tick_new 0) (Tick_new 1) w ex_pair FUnit e))
    as (st1 & st2 & H1 & H2 & Hg & [i1 Hi1] & [i2 Hi2]).
  { clear Hh Hl. vm_compute in Hr. injection Hr as <- <-. eexists _, _. split; [by vm_compute|]. split; [by vm_compute|].
    split; [left; by vm_compute|]. split; vm_compute; by eexists. }
  destruct (queries_never_alias ex_desc ex_known ex_hash ex_data ex_filter ex_pair FUnit w [ident e] st1 st2 ex_types ex_flat Hh H1 H2) as (Hap & _ & Hv1).
  destruct (queries_never_alias ex_desc ex_known ex_hash ex_pair FUnit ex_data ex_filter w [ident e] st2 st1 ex_types ex_flat Hh H2 H1) as (_ & _ & Hv2).
  assert (He : is_Some (located (w_entities w) e)) by (rewrite Hl; by eexists).
  exists st1, st2. split; [exact Hr|]. split; [exact H1|]. split; [exact H2|]. split; [exact Hg|].
  split; [exact (Hv1 _ _ e i1 He Hi1)|]. split; [exact (Hv2 _ _ e i2 He Hi2)|].
  intros c b1 b2. exact (Hap Hg e c b1 b2 (Hv1 _ _ e i1 He Hi1) (Hv2 _ _ e i2 He Hi2)).
Defined.
