(* ===== verification/Executor.v ===== *)
(** * The multi-threaded schedule executor

    [crates/voker-ecs/src/schedule/executor/multi.rs]: one run of a schedule.
    Systems are indices into the schedule; a system becomes ready when its last
    predecessor completes, is spawned when it conflicts with no running system,
    and its completion is handled under the scheduler lock.

    The functions below are the critical sections.  Worker threads are the step
    relation [estep]: a spawned system may finish at any moment, which pushes
    its completion signal, and whoever holds the lock runs one [tick_internal].
    Signals pushed while the lock is held are seen through the queue only, so a
    tick takes the answers of its [completed.is_empty()] tests as an oracle.
    The loop over skip chains runs with fuel, one unit per system; [Undefined]
    marks an exhausted fuel. *)

From Stdlib Require Import ZArith Lia Sorting.Sorted.
From S2P Require Import Prelude.

(** ** Schedule and state *)

(** The parts of [SystemSchedule] an execution reads: edges by source index
    ([outgoing] includes the condition edges), the conflict matrix and flags. *)
Record SystemSchedule := mkSchedule {
  sys_count : nat;
  s_incoming : list nat;
  s_outgoing : list (list nat);
  s_condition_incoming : list nat;
  s_condition_outgoing : list (list nat);
  is_conflict : nat → nat → bool;
  is_no_op : nat → bool;
  is_deferred : nat → bool;
  is_exclusive : nat → bool
}.

Record ExecutorState := mkExec {
  incoming : list nat;
  condition_incoming : list nat;
  ready_systems : list nat;
  running_systems : gset nat;
  deferred_systems : list nat
}.

Record CompletedSignal := mkSignal { sig_index : nat; sig_deferred : bool; sig_meet : bool }.

Definition set_ready (st : ExecutorState) (r : list nat) : ExecutorState :=
  mkExec (incoming st) (condition_incoming st) r (running_systems st) (deferred_systems st).

(** [l[i] -= 1] on a vector of counters: out of range and underflow panic. *)
Definition decrement (l : list nat) (i : nat) : outcome (list nat) :=
  match l !! i with
  | Some (S k) => Ret (<[i := k]> l)
  | _ => Panic
  end.

(** [enumerate().for_each(|(idx, num)| if num == 0 { push_back(idx) })]. *)
Definition zero_indices (l : list nat) : list nat :=
  filter (λ i, l !! i = Some 0) (seq 0 (length l)).

Section Executor.
Variable schedule : SystemSchedule.

Definition ExecutorState_reset : outcome ExecutorState :=
  let n := sys_count schedule in
  if decide (length (s_incoming schedule) = n ∧ length (s_outgoing schedule) = n ∧
             length (s_condition_incoming schedule) = n ∧
             length (s_condition_outgoing schedule) = n)
  then Ret (mkExec (s_incoming schedule) (s_condition_incoming schedule)
              (zero_indices (s_incoming schedule)) ∅ [])
  else Panic.

(** [condition_outgoing[index].for_each(|to| condition_incoming[to] -= 1)]. *)
Fixpoint release_conditions (ts : list nat) (cond : list nat) : outcome (list nat) :=
  match ts with
  | [] => Ret cond
  | to :: ts' => cond' ← decrement cond to; release_conditions ts' cond'
  end.

(** [outgoing[index].for_each(...)]: the state and the pending stack, top first. *)
Fixpoint release_outgoing (ts : list nat) (st : ExecutorState) (pending : list CompletedSignal)
    : outcome (ExecutorState * list CompletedSignal) :=
  match ts with
  | [] => Ret (st, pending)
  | to :: ts' =>
      inc ← decrement (incoming st) to;
      let st1 := mkExec inc (condition_incoming st) (ready_systems st) (running_systems st)
                   (deferred_systems st) in
      if decide (inc !! to = Some 0) then
        match condition_incoming st1 !! to with
        | None => Panic
        | Some 0 => release_outgoing ts' (set_ready st1 (to :: ready_systems st1)) pending
        | Some _ => release_outgoing ts' st1 (mkSignal to false false :: pending)
        end
      else release_outgoing ts' st1 pending
  end.

(** One turn of the [while let Some(signal) = pending.pop()] loop. *)
Definition handle_one (st : ExecutorState) (signal : CompletedSignal) (pending : list CompletedSignal)
    : outcome (ExecutorState * list CompletedSignal) :=
  let index := sig_index signal in
  let running := running_systems st ∖ {[index]} in
  let deferred := if sig_deferred signal then deferred_systems st ++ [index]
                  else deferred_systems st in
  couts ← (match s_condition_outgoing schedule !! index with Some ts => Ret ts | None => Panic end);
  cond ← (if sig_meet signal then release_conditions couts (condition_incoming st)
          else Ret (condition_incoming st));
  outs ← (match s_outgoing schedule !! index with Some ts => Ret ts | None => Panic end);
  release_outgoing outs (mkExec (incoming st) cond (ready_systems st) running deferred) pending.

Fixpoint handle_loop (fuel : nat) (st : ExecutorState) (pending : list CompletedSignal)
    : outcome ExecutorState :=
  match pending with
  | [] => Ret st
  | signal :: pending' =>
      match fuel with
      | 0 => Undefined
      | S fuel' => '(st', p) ← handle_one st signal pending'; handle_loop fuel' st' p
      end
  end.

Definition handle_completed_system (st : ExecutorState) (signal : CompletedSignal)
    : outcome ExecutorState :=
  handle_loop (sys_count schedule) st [signal].

(** [VecDeque::swap_remove_back]. *)
Definition swap_remove_back (q : list nat) (i : nat) : option (nat * list nat) :=
  x ← q !! i; Some (x, swap_remove q i).

(** Positions of the no-op systems in the ready queue, last first. *)
Definition no_op_positions (q : list nat) : list nat :=
  rev (filter (λ i, default false (is_no_op schedule <$> q !! i) = true) (seq 0 (length q))).

Fixpoint no_op_loop (positions : list nat) (st : ExecutorState) : outcome ExecutorState :=
  match positions with
  | [] => Ret st
  | back :: positions' =>
      match swap_remove_back (ready_systems st) back with
      | None => Panic
      | Some (index, ready) =>
          st' ← handle_completed_system (set_ready st ready) (mkSignal index false true);
          no_op_loop positions' st'
      end
  end.

Definition handle_no_op_systems (st : ExecutorState) : outcome ExecutorState :=
  no_op_loop (no_op_positions (ready_systems st)) st.

(** Spawning marks the system running; for an exclusive one the collected
    deferred systems are handed to the task. *)
Definition spawn_system_task (st : ExecutorState) (index : nat) : outcome ExecutorState :=
  let exclusive := is_exclusive schedule index in
  let deferred := if exclusive && bool_decide (deferred_systems st ≠ []) then []
                  else deferred_systems st in
  let st' := mkExec (incoming st) (condition_incoming st) (ready_systems st)
               ({[index]} ∪ running_systems st) deferred in
  if exclusive && bool_decide (ready_systems st' ≠ []) then handle_no_op_systems st' else Ret st'.

Definition conflicts_running (st : ExecutorState) (index : nat) : bool :=
  existsb (λ running, is_conflict schedule index running) (elements (running_systems st)).

(** The loop of [spawn_ready_tasks]; it returns the systems spawned.  [oracle]
    answers [!completed.is_empty()], [false] once it runs out. *)
Fixpoint spawn_loop (len : nat) (oracle : list bool) (st : ExecutorState)
    : outcome (list nat * ExecutorState) :=
  match len with
  | 0 => Ret ([], st)
  | S len' =>
      match ready_systems st with
      | [] => Ret ([], st)
      | index :: rest =>
          let st1 := set_ready st rest in
          if negb (conflicts_running st1 index) then
            st2 ← spawn_system_task st1 index;
            '(log, st3) ← spawn_loop len' oracle st2;
            Ret (index :: log, st3)
          else
            let st2 := set_ready st1 (rest ++ [index]) in
            match oracle with
            | true :: _ => Ret ([], st2)
            | _ => spawn_loop len' (tl oracle) st2
            end
      end
  end.

Definition spawn_ready_tasks (oracle : list bool) (st : ExecutorState)
    : outcome (list nat * ExecutorState) :=
  spawn_loop (length (ready_systems st)) oracle st.

Fixpoint drain_completed (queue : list CompletedSignal) (st : ExecutorState) : outcome ExecutorState :=
  match queue with
  | [] => Ret st
  | signal :: queue' => st' ← handle_completed_system st signal; drain_completed queue' st'
  end.

Definition tick_internal (oracle : list bool) (queue : list CompletedSignal) (st : ExecutorState)
    : outcome (list nat * ExecutorState) :=
  st' ← drain_completed queue st; spawn_ready_tasks oracle st'.

(** The signal a finished task pushes: [Ok] whether it succeeded or its
    condition holds, [Err] when it panicked. *)
Definition push_completed_system (system_index : nat) (result : Result bool unit)
    : CompletedSignal :=
  match result with
  | Ok meet => mkSignal system_index (is_deferred schedule system_index) meet
  | Err _ => mkSignal system_index false false
  end.

(** ** Executions *)

(** Scheduler state, completion queue, systems whose task has not finished,
    every system spawned so far, and every signal handled so far. *)
Record config := mkConfig {
  c_state : ExecutorState; c_queue : list CompletedSignal;
  c_inflight : gset nat; c_spawned : list nat; c_handled : list CompletedSignal
}.

Inductive estep : config → config → Prop :=
| estep_tick oracle c log st' :
    tick_internal oracle (c_queue c) (c_state c) = Ret (log, st') →
    estep c (mkConfig st' [] (list_to_set log ∪ c_inflight c) (c_spawned c ++ log)
               (c_handled c ++ c_queue c))
| estep_finish c i result :
    i ∈ c_inflight c →
    estep c (mkConfig (c_state c) (c_queue c ++ [push_completed_system i result])
               (c_inflight c ∖ {[i]}) (c_spawned c) (c_handled c)).

Definition einit (c : config) : Prop :=
  ∃ st, ExecutorState_reset = Ret st ∧ c = mkConfig st [] ∅ [] [].

Inductive ereach : config → Prop :=
| ereach_init c : einit c → ereach c
| ereach_step c c' : ereach c → estep c c' → ereach c'.

(** ** Well-formed schedules *)

Definition outs (p : nat) : list nat := default [] (s_outgoing schedule !! p).
Definition couts (p : nat) : list nat := default [] (s_condition_outgoing schedule !! p).

(** Predecessors of [t] along [E] that are not in [X]. *)
Definition pending_preds (E : nat → list nat) (X : gset nat) (t : nat) : list nat :=
  filter (λ p, t ∈ E p ∧ p ∉ X) (seq 0 (sys_count schedule)).

Definition npred (E : nat → list nat) (X : gset nat) (t : nat) : nat :=
  length (pending_preds E X t).

(** What building a schedule establishes: systems in a topological order, each
    edge listed once, condition edges among the edges, counters that count
    them, and a symmetric conflict matrix. *)
Record schedule_ok : Prop := {
  sok_len_in : length (s_incoming schedule) = sys_count schedule;
  sok_len_out : length (s_outgoing schedule) = sys_count schedule;
  sok_len_cin : length (s_condition_incoming schedule) = sys_count schedule;
  sok_len_cout : length (s_condition_outgoing schedule) = sys_count schedule;
  sok_nodup : ∀ p, NoDup (outs p);
  sok_cnodup : ∀ p, NoDup (couts p);
  sok_topo : ∀ p t, t ∈ outs p → p < t < sys_count schedule;
  sok_sub : ∀ p t, t ∈ couts p → t ∈ outs p;
  sok_in : ∀ i, i < sys_count schedule → s_incoming schedule !! i = Some (npred outs ∅ i);
  sok_cin : ∀ i, i < sys_count schedule → s_condition_incoming schedule !! i = Some (npred couts ∅ i);
  sok_sym : ∀ i j, is_conflict schedule i j = is_conflict schedule j i
}.

Hypothesis Hok : schedule_ok.

Definition no_exclusive : Prop := ∀ i, is_exclusive schedule i = false.

(** ** Invariant

    [D] are the systems whose completion was handled, [M] those among them
    that met their condition, [P] those about to be handled, [S] those
    spawned. *)
Record inv (D M : gset nat) (P : list nat) (S : gset nat) (st : ExecutorState) : Prop := {
  inv_len : length (incoming st) = sys_count schedule;
  inv_clen : length (condition_incoming st) = sys_count schedule;
  inv_in : ∀ i, i < sys_count schedule → incoming st !! i = Some (npred outs D i);
  inv_cin : ∀ i, i < sys_count schedule → condition_incoming st !! i = Some (npred couts M i);
  inv_met : M ⊆ D;
  inv_nodup : NoDup (ready_systems st ++ P);
  inv_queued : ∀ i, i ∈ ready_systems st ++ P → i ∉ D ∧ i ∉ running_systems st;
  inv_running : ∀ i, i ∈ running_systems st → i ∉ D;
  inv_zero : ∀ i, (i < sys_count schedule ∧ npred outs D i = 0) ↔
               i ∈ ready_systems st ∨ i ∈ P ∨ i ∈ running_systems st ∨ i ∈ D;
  inv_cond : ∀ i, i ∈ ready_systems st → npred couts M i = 0;
  inv_spawned : running_systems st ⊆ S ∧ S ⊆ running_systems st ∪ D ∪ list_to_set P;
  inv_scond : ∀ i, i ∈ S → npred couts M i = 0;
  inv_skip : no_exclusive → ∀ i, i ∈ D ∪ list_to_set P → i ∉ S → npred couts M i ≠ 0
}.

(** ** Counting predecessors *)

Lemma filter_iff_in {A} (Q R : A → Prop) `{∀ x, Decision (Q x)} `{∀ x, Decision (R x)} (l : list A) :
  (∀ x, x ∈ l → (Q x ↔ R x)) → filter Q l = filter R l.
Proof.
  induction l as [|x l IH]; intros Heq; [done|]. rewrite !filter_cons.
  rewrite IH by (intros y Hy; apply Heq; by apply list_elem_of_further).
  specialize (Heq x (list_elem_of_here x l)). do 2 case_decide; tauto.
Qed.

Lemma filter_remove_one (Q : nat → Prop) `{∀ x, Decision (Q x)} (l : list nat) i :
  NoDup l → i ∈ l →
  length (filter Q l) = length (filter (λ x, Q x ∧ x ≠ i) l) + (if decide (Q i) then 1 else 0).
Proof.
  induction l as [|x l IH]; intros Hnd Hin; [by apply elem_of_nil in Hin|].
  apply NoDup_cons in Hnd as [Hx Hnd]. rewrite !filter_cons. apply elem_of_cons in Hin as [->|Hin].
  - assert (filter (λ y, Q y ∧ y ≠ x) l = filter Q l) as ->.
    { apply filter_iff_in. intros y Hy.
      split; [tauto|]. intros ?. split; [done|]. by intros ->. }
    destruct (decide (Q x ∧ x ≠ x)) as [[_ ?]|_]; [done|]. destruct (decide (Q x)); cbn; lia.
  - specialize (IH Hnd Hin). assert (x ≠ i) by (by intros ->).
    destruct (decide (Q x)), (decide (Q x ∧ x ≠ i)); cbn; try lia; tauto.
Qed.

Lemma npred_complete E X i t :
  i < sys_count schedule → i ∉ X →
  npred E X t = npred E ({[i]} ∪ X) t + (if decide (t ∈ E i) then 1 else 0).
Proof.
  intros Hi HX. unfold npred, pending_preds.
  rewrite (filter_remove_one _ _ i) by (try apply NoDup_seq; apply elem_of_seq; lia).
  f_equal.
  - f_equal. apply list_filter_iff. intros x. set_solver.
  - destruct (decide (t ∈ E i)), (decide (t ∈ E i ∧ i ∉ X)); tauto || done.
Qed.

Lemma npred_zero E X t :
  npred E X t = 0 ↔ ∀ p, p < sys_count schedule → t ∈ E p → p ∈ X.
Proof.
  unfold npred, pending_preds. rewrite length_zero_iff_nil. split.
  - intros Hnil p Hp Ht. destruct (decide (p ∈ X)) as [|Hn]; [done|].
    assert (p ∈ (filter (λ p, t ∈ E p ∧ p ∉ X) (seq 0 (sys_count schedule)))) as Hin.
    { apply list_elem_of_filter. split; [done|]. apply elem_of_seq. lia. }
    rewrite Hnil in Hin. by apply elem_of_nil in Hin.
  - intros Hall. apply elem_of_nil_inv. intros p [[Ht Hn] Hp]%list_elem_of_filter.
    apply elem_of_seq in Hp. apply Hn, Hall; [lia|done].
Qed.

(** ** Counters *)

Lemma decrement_spec l i k :
  l !! i = Some (S k) → decrement l i = Ret (<[i := k]> l).
Proof. intros E. unfold decrement. by rewrite E. Qed.

Lemma release_conditions_spec ts : ∀ l,
  NoDup ts → (∀ t, t ∈ ts → ∃ k, l !! t = Some (S k)) →
  ∃ l', release_conditions ts l = Ret l' ∧ length l' = length l ∧
        ∀ t, l' !! t = if decide (t ∈ ts) then pred <$> l !! t else l !! t.
Proof.
  induction ts as [|t0 ts IH]; intros l Hnd Hpos; cbn.
  - exists l. repeat split; auto.
  - apply NoDup_cons in Hnd as [Ht0 Hnd].
    destruct (Hpos t0) as [k Hk]; [apply list_elem_of_here|].
    rewrite (decrement_spec _ _ _ Hk). cbn.
    destruct (IH (<[t0 := k]> l) Hnd) as (l' & -> & Hlen & Hl').
    { intros t Ht. rewrite list_lookup_insert_ne by (by intros ->). apply Hpos. by apply list_elem_of_further. }
    exists l'. split; [done|]. split; [by rewrite Hlen, length_insert|]. intros t. rewrite Hl'.
    destruct (decide (t = t0)) as [->|Hne].
    + rewrite decide_False by done. rewrite decide_True by apply list_elem_of_here.
      rewrite Hk. cbn. apply list_lookup_insert_eq. by eapply lookup_lt_Some.
    + rewrite list_lookup_insert_ne by done.
      destruct (decide (t ∈ ts)); [rewrite decide_True by (by apply list_elem_of_further); done|].
      rewrite decide_False; [done|]. rewrite elem_of_cons. tauto.
Qed.

(** The successors whose counter reaches zero, split by their conditions. *)
Definition unblocked (inc cond : list nat) (ts : list nat) : list nat :=
  filter (λ t, inc !! t = Some 1 ∧ cond !! t = Some 0) ts.
Definition skipped (inc cond : list nat) (ts : list nat) : list nat :=
  filter (λ t, inc !! t = Some 1 ∧ cond !! t ≠ Some 0) ts.

Lemma release_outgoing_spec ts : ∀ st pending,
  NoDup ts → (∀ t, t ∈ ts → ∃ k, incoming st !! t = Some (S k)) →
  (∀ t, t ∈ ts → is_Some (condition_incoming st !! t)) →
  ∃ inc, release_outgoing ts st pending
    = Ret (mkExec inc (condition_incoming st)
             (rev (unblocked (incoming st) (condition_incoming st) ts) ++ ready_systems st)
             (running_systems st) (deferred_systems st),
           ((λ t, mkSignal t false false) <$> rev (skipped (incoming st) (condition_incoming st) ts))
             ++ pending) ∧
    length inc = length (incoming st) ∧
    ∀ t, inc !! t = if decide (t ∈ ts) then pred <$> incoming st !! t else incoming st !! t.
Proof.
  induction ts as [|t0 ts IH]; intros st pending Hnd Hpos Hc.
  - exists (incoming st). cbn. destruct st. repeat split; auto.
  - apply NoDup_cons in Hnd as [Ht0 Hnd].
    destruct (Hpos t0) as [k Hk]; [apply list_elem_of_here|].
    destruct (Hc t0) as [c0 Hc0]; [apply list_elem_of_here|].
    cbn [release_outgoing]. rewrite (decrement_spec _ _ _ Hk). unfold mbind, outcome_bind.
    pose proof (lookup_lt_Some _ _ _ Hk) as Hlt.
    rewrite list_lookup_insert_eq by done.
    assert (Hsame : ∀ t, t ∈ ts → <[t0 := k]> (incoming st) !! t = incoming st !! t).
    { intros t Ht. apply list_lookup_insert_ne. by intros ->. }
    assert (Hun : ∀ cond, unblocked (<[t0 := k]> (incoming st)) cond ts = unblocked (incoming st) cond ts).
    { intros cond. apply filter_iff_in. intros t Ht. by rewrite Hsame. }
    assert (Hsk : ∀ cond, skipped (<[t0 := k]> (incoming st)) cond ts = skipped (incoming st) cond ts).
    { intros cond. apply filter_iff_in. intros t Ht. by rewrite Hsame. }
    assert (Hpos' : ∀ t, t ∈ ts → ∃ k', <[t0 := k]> (incoming st) !! t = Some (S k')).
    { intros t Ht. rewrite Hsame by done. apply Hpos. by apply list_elem_of_further. }
    assert (Hc' : ∀ t, t ∈ ts → is_Some (condition_incoming st !! t)).
    { intros t Ht. apply Hc. by apply list_elem_of_further. }
    assert (Hfin : ∀ inc : list nat,
      length inc = length (<[t0 := k]> (incoming st)) ∧
      (∀ t, inc !! t = if decide (t ∈ ts) then pred <$> <[t0 := k]> (incoming st) !! t
                       else <[t0 := k]> (incoming st) !! t) →
      length inc = length (incoming st) ∧
      ∀ t, inc !! t = if decide (t ∈ t0 :: ts) then pred <$> incoming st !! t else incoming st !! t).
    { intros inc [Hl Hinc]. rewrite length_insert in Hl. split; [done|]. intros t. rewrite Hinc.
      destruct (decide (t = t0)) as [->|Hne].
      - rewrite decide_False, decide_True by (done || apply list_elem_of_here).
        rewrite Hk. cbn. by apply list_lookup_insert_eq.
      - rewrite list_lookup_insert_ne by done.
        destruct (decide (t ∈ ts)); [by rewrite decide_True by (by apply list_elem_of_further)|].
        rewrite decide_False; [done|]. rewrite elem_of_cons. tauto. }
    unfold unblocked, skipped. rewrite !filter_cons, Hk, Hc0. fold (unblocked (incoming st) (condition_incoming st) ts).
    fold (skipped (incoming st) (condition_incoming st) ts).
    destruct k as [|k]; [rewrite (decide_True (P := Some 0 = Some 0)) by done; destruct c0 as [|c0]; cbn [condition_incoming]; rewrite Hc0|].
    + destruct (IH (set_ready (mkExec (<[t0 := 0]> (incoming st)) (condition_incoming st)
        (ready_systems st) (running_systems st) (deferred_systems st)) (t0 :: ready_systems st)) pending)
        as (inc & Hr & Hinc); auto.
      cbn in Hr, Hinc. rewrite Hun, Hsk in Hr. exists inc. split; [|by apply Hfin].
      cbn [ready_systems]. rewrite Hr. rewrite decide_True, decide_False by naive_solver. cbn [rev].
      by rewrite <- app_assoc.
    + destruct (IH (mkExec (<[t0 := 0]> (incoming st)) (condition_incoming st)
        (ready_systems st) (running_systems st) (deferred_systems st)) (mkSignal t0 false false :: pending))
        as (inc & Hr & Hinc); auto.
      cbn in Hr, Hinc. rewrite Hun, Hsk in Hr. exists inc. split; [|by apply Hfin].
      rewrite Hr. rewrite decide_False, decide_True by naive_solver. cbn [rev].
      by rewrite fmap_app, <- app_assoc.
    + rewrite decide_False by done.
      destruct (IH (mkExec (<[t0 := S k]> (incoming st)) (condition_incoming st)
        (ready_systems st) (running_systems st) (deferred_systems st)) pending)
        as (inc & Hr & Hinc); auto.
      cbn in Hr, Hinc. rewrite Hun, Hsk in Hr. exists inc. split; [|by apply Hfin].
      rewrite Hr. by rewrite !decide_False by naive_solver.
Qed.

(** ** Handling a completion *)

Definition set_running (st : ExecutorState) (r : gset nat) : ExecutorState :=
  mkExec (incoming st) (condition_incoming st) (ready_systems st) r (deferred_systems st).

Definition add_if (b : bool) (i : nat) (M : gset nat) : gset nat := if b then {[i]} ∪ M else M.

Lemma outs_lookup i : i < sys_count schedule → s_outgoing schedule !! i = Some (outs i).
Proof.
  intros Hi. unfold outs. destruct (s_outgoing schedule !! i) eqn:E; [done|].
  apply lookup_ge_None in E. rewrite (sok_len_out Hok) in E. lia.
Qed.

Lemma couts_lookup i : i < sys_count schedule → s_condition_outgoing schedule !! i = Some (couts i).
Proof.
  intros Hi. unfold couts. destruct (s_condition_outgoing schedule !! i) eqn:E; [done|].
  apply lookup_ge_None in E. rewrite (sok_len_cout Hok) in E. lia.
Qed.

Lemma npred_mono E X Y t : X ⊆ Y → npred E X t = 0 → npred E Y t = 0.
Proof. rewrite !npred_zero. intros HXY H0 p Hp Ht. apply HXY. auto. Qed.

Lemma npred_add_if b E i M t :
  i < sys_count schedule → i ∉ M →
  npred E M t = npred E (add_if b i M) t + (if decide (b = true ∧ t ∈ E i) then 1 else 0).
Proof.
  intros Hi HM. destruct b; cbn [add_if].
  - rewrite (npred_complete E M i t) by done. f_equal.
    destruct (decide (t ∈ E i)), (decide (true = true ∧ t ∈ E i)); tauto.
  - rewrite decide_False by naive_solver. lia.
Qed.

Lemma elem_of_rev {A} (x : A) l : x ∈ rev l ↔ x ∈ l.
Proof. by rewrite !list_elem_of_In, <- in_rev. Qed.

Section complete.
Variables (D M : gset nat) (rest : list nat) (Sp : gset nat) (st : ExecutorState) (i : nat) (meet : bool).
Hypothesis Hinv : inv D M (i :: rest) Sp (set_running st (running_systems st ∖ {[i]})).

Let D' : gset nat := {[i]} ∪ D.
Let M' : gset nat := add_if meet i M.

Lemma completing_lt : i < sys_count schedule ∧ npred outs D i = 0 ∧ i ∉ D ∧ i ∉ M ∧
  i ∉ ready_systems st ∧ i ∉ rest.
Proof.
  assert (Hi : i < sys_count schedule ∧ npred outs D i = 0).
  { apply (inv_zero _ _ _ _ _ Hinv). right; left. apply list_elem_of_here. }
  assert (HD : i ∉ D).
  { apply (inv_queued _ _ _ _ _ Hinv i). apply elem_of_app. right. apply list_elem_of_here. }
  pose proof (inv_nodup _ _ _ _ _ Hinv) as Hnd. cbn in Hnd.
  apply NoDup_app in Hnd as (_ & Hr & Hp%NoDup_cons).
  split; [tauto|]. split; [tauto|]. split; [done|].
  split; [intros HM; by apply HD, (inv_met _ _ _ _ _ Hinv)|].
  split; [|tauto]. intros Hin. apply (Hr i Hin). apply list_elem_of_here.
Qed.

Lemma succ_blocked t : t ∈ outs i →
  t < sys_count schedule ∧ npred outs D t = S (npred outs D' t) ∧
  t ∉ ready_systems st ∧ t ∉ rest ∧ t ∉ running_systems st ∧ t ∉ D ∧ t ≠ i ∧ t ∉ Sp.
Proof.
  intros Ht. destruct completing_lt as (Hi & H0 & HD & _).
  pose proof (sok_topo Hok i t Ht) as Htopo.
  pose proof (npred_complete outs D i t Hi HD) as Hn. rewrite decide_True in Hn by done. fold D' in Hn.
  assert (Hnz : ¬ (t ∈ ready_systems st ∨ t ∈ i :: rest ∨ t ∈ running_systems st ∖ {[i]} ∨ t ∈ D)).
  { intros Hx. apply (inv_zero _ _ _ _ _ Hinv) in Hx. lia. }
  assert (t ≠ i) by lia.
  split; [lia|]. split; [lia|]. split; [tauto|].
  split; [intros ?; apply Hnz; right; left; by apply list_elem_of_further|].
  split; [intros ?; apply Hnz; right; right; left; set_solver|]. split; [tauto|]. split; [done|].
  intros HS. apply Hnz. destruct (inv_spawned _ _ _ _ _ Hinv) as [_ Hsub].
  apply Hsub in HS. rewrite !elem_of_union, elem_of_list_to_set in HS. cbn [running_systems set_running] in HS. tauto.
Qed.

Lemma cond_same_old t : npred outs D t = 0 → npred couts M' t = npred couts M t.
Proof.
  intros H0. destruct completing_lt as (Hi & _ & HD & HM & _).
  rewrite (npred_add_if meet couts i M t Hi HM). rewrite decide_False; [fold M'; lia|].
  intros [_ Hc]. apply (sok_sub Hok) in Hc. apply succ_blocked in Hc. lia.
Qed.

Lemma new_zero t :
  t ∉ outs i → npred outs D' t = npred outs D t.
Proof.
  intros Ht. destruct completing_lt as (Hi & _ & HD & _).
  rewrite (npred_complete outs D i t Hi HD), decide_False by done. fold D'. lia.
Qed.

(** Membership in the two lists of successors whose last predecessor was [i]. *)
Lemma unblocked_elem cond t :
  (∀ t, t < sys_count schedule → cond !! t = Some (npred couts M' t)) →
  (t ∈ unblocked (incoming st) cond (outs i) ↔
   t ∈ outs i ∧ npred outs D' t = 0 ∧ npred couts M' t = 0) ∧
  (t ∈ skipped (incoming st) cond (outs i) ↔
   t ∈ outs i ∧ npred outs D' t = 0 ∧ npred couts M' t ≠ 0).
Proof.
  intros Hc. unfold unblocked, skipped. rewrite !list_elem_of_filter.
  assert (Heq : t ∈ outs i → (incoming st !! t = Some 1 ↔ npred outs D' t = 0) ∧
                             cond !! t = Some (npred couts M' t)).
  { intros Ht. destruct (succ_blocked t Ht) as (Hlt & Hn & _).
    pose proof (inv_in _ _ _ _ _ Hinv t Hlt) as Hin. cbn in Hin. rewrite Hin, Hn.
    split; [|by apply Hc]. split; [intros [= ?]; lia|intros ->; done]. }
  split; split.
  - intros [[H1 H2] Ht]. destruct (Heq Ht) as [Hi Hcc]. rewrite Hcc in H2. naive_solver.
  - intros (Ht & H1 & H2). destruct (Heq Ht) as [Hi Hcc]. rewrite Hcc, H2. tauto.
  - intros [[H1 H2] Ht]. destruct (Heq Ht) as [Hi Hcc]. rewrite Hcc in H2. naive_solver.
  - intros (Ht & H1 & H2). destruct (Heq Ht) as [Hi Hcc]. rewrite Hcc. naive_solver.
Qed.

Lemma completed_inv inc cond :
  (∀ t, t < sys_count schedule → cond !! t = Some (npred couts M' t)) → length cond = sys_count schedule →
  length inc = sys_count schedule →
  (∀ t, inc !! t = if decide (t ∈ outs i) then pred <$> incoming st !! t else incoming st !! t) →
  ∀ deferred,
  inv D' M' (rev (skipped (incoming st) cond (outs i)) ++ rest) Sp
    (mkExec inc cond (rev (unblocked (incoming st) cond (outs i)) ++ ready_systems st)
       (running_systems st ∖ {[i]}) deferred).
Proof.
  intros Hcond Hcl Hil Hinc deferred. destruct completing_lt as (Hi & H0 & HD & HM & Hir & Hip).
  pose proof (λ t, unblocked_elem cond t Hcond) as Hun.
  set (un := unblocked _ _ _) in *. set (sk := skipped _ _ _) in *.
  split; cbn; auto.
  - intros t Ht. pose proof (inv_in _ _ _ _ _ Hinv t Ht) as Hin. cbn in Hin. rewrite Hinc, Hin.
    destruct (decide (t ∈ outs i)) as [Ho|Ho].
    + destruct (succ_blocked t Ho) as (_ & -> & _). done.
    + by rewrite new_zero.
  - intros x. unfold D', M'. pose proof (inv_met _ _ _ _ _ Hinv) as Hmet.
    unfold add_if. destruct meet; set_solver.
  - assert (Hperm : (rev un ++ ready_systems st) ++ rev sk ++ rest
                    ≡ₚ (un ++ sk) ++ (ready_systems st ++ rest)).
    { rewrite <- !Permutation_rev. solve_Permutation. }
    rewrite Hperm. pose proof (inv_nodup _ _ _ _ _ Hinv) as Hnd. cbn in Hnd.
    apply NoDup_app. split; [|split].
    + apply NoDup_app. split; [by apply NoDup_filter, Hok|]. split; [|by apply NoDup_filter, Hok].
      intros t Ht1 Ht2. apply Hun in Ht1. apply Hun in Ht2. tauto.
    + intros t Ht Hin. assert (Ho : t ∈ outs i) by (apply elem_of_app in Ht as [Ht|Ht]; apply Hun in Ht; tauto).
      destruct (succ_blocked t Ho) as (_ & _ & ? & ? & _). apply elem_of_app in Hin. tauto.
    + apply NoDup_app in Hnd as (Hn1 & Hn2 & Hn3%NoDup_cons). apply NoDup_app. split; [done|].
      split; [|tauto]. intros t Ht Hin. apply (Hn2 t Ht). by apply list_elem_of_further.
  - intros t Hin. rewrite !elem_of_app, !elem_of_rev in Hin.
    assert (Hcase : t ∈ outs i ∨ t ∈ ready_systems st ++ rest).
    { rewrite elem_of_app. destruct Hin as [[Hin|Hin]|[Hin|Hin]]; auto; apply Hun in Hin; tauto. }
    destruct Hcase as [Ho|Hin'].
    + destruct (succ_blocked t Ho) as (_ & _ & _ & _ & ? & ? & ? & _). unfold D'. set_solver.
    + destruct (inv_queued _ _ _ _ _ Hinv t) as [H1 H2]; [cbn; set_solver|]. cbn in H2.
      assert (t ≠ i) by (intros ->; apply elem_of_app in Hin'; tauto). unfold D'. set_solver.
  - intros t Ht. assert (t ≠ i ∧ t ∉ D) as [? ?]; [|unfold D'; set_solver].
    split; [set_solver|]. by apply (inv_running _ _ _ _ _ Hinv).
  - intros t. pose proof (inv_zero _ _ _ _ _ Hinv t) as Hz. cbn in Hz.
    rewrite !elem_of_app, !elem_of_rev.
    destruct (Hun t) as [Hu Hs]. unfold D' at 2. rewrite elem_of_union, elem_of_singleton.
    destruct (decide (t ∈ outs i)) as [Ho|Ho].
    + destruct (succ_blocked t Ho) as (Hlt & Hn & H1 & H2 & H3 & H4 & H5 & _).
      split; [|naive_solver lia]. intros [_ Hz0].
      destruct (decide (npred couts M' t = 0)); [left; left; tauto|right; left; left; tauto].
    + rewrite new_zero by done. rewrite Hz, elem_of_cons. naive_solver.
  - intros t Ht. apply elem_of_app in Ht as [Ht|Ht].
    + apply elem_of_rev, Hun in Ht. tauto.
    + assert (npred outs D t = 0) by (apply (inv_zero _ _ _ _ _ Hinv); by left).
      rewrite cond_same_old by done. by apply (inv_cond _ _ _ _ _ Hinv).
  - destruct (inv_spawned _ _ _ _ _ Hinv) as [Hs1 Hs2]. cbn in Hs1, Hs2. split; [done|].
    intros t Ht. apply Hs2 in Ht. unfold D'.
    rewrite !elem_of_union, elem_of_list_to_set, elem_of_singleton in Ht.
    rewrite !elem_of_union, elem_of_list_to_set, elem_of_app, elem_of_singleton. tauto.
  - intros t Ht. assert (npred outs D t = 0) as H00.
    { destruct (inv_spawned _ _ _ _ _ Hinv) as [_ Hs2]. apply Hs2 in Ht.
      apply (inv_zero _ _ _ _ _ Hinv). rewrite !elem_of_union, elem_of_list_to_set in Ht. tauto. }
    rewrite cond_same_old by done. by apply (inv_scond _ _ _ _ _ Hinv).
  - intros Hne t Ht HS. unfold D' in Ht.
    rewrite !elem_of_union, elem_of_list_to_set, elem_of_app, elem_of_rev, elem_of_singleton in Ht.
    assert (Hcase : (t ∈ D ∪ list_to_set (i :: rest)) ∨ t ∈ sk).
    { rewrite elem_of_union, elem_of_list_to_set, elem_of_cons. tauto. }
    destruct Hcase as [Hc|Hc]; [|apply Hun in Hc; tauto].
    assert (npred outs D t = 0) as H00.
    { apply (inv_zero _ _ _ _ _ Hinv). rewrite elem_of_union, elem_of_list_to_set in Hc. tauto. }
    rewrite cond_same_old by done. by apply (inv_skip _ _ _ _ _ Hinv).
Qed.
End complete.

Lemma handle_one_inv D M Sp st sig pending :
  inv D M (sig_index sig :: (sig_index <$> pending)) Sp
    (set_running st (running_systems st ∖ {[sig_index sig]})) →
  ∃ st' p', handle_one st sig pending = Ret (st', p') ∧
    inv ({[sig_index sig]} ∪ D) (add_if (sig_meet sig) (sig_index sig) M) (sig_index <$> p') Sp st' ∧
    running_systems st' = running_systems st ∖ {[sig_index sig]} ∧
    (∃ pre, ready_systems st' = pre ++ ready_systems st) ∧
    ∃ new, p' = ((λ t, mkSignal t false false) <$> new) ++ pending ∧
           ∀ t, t ∈ new → t ∉ running_systems st.
Proof.
  intros Hinv. set (i := sig_index sig) in *.
  destruct (completing_lt _ _ _ _ _ _ Hinv) as (Hi & H0 & HD & HM & _).
  pose proof (λ t, succ_blocked _ _ _ _ _ _ Hinv t) as Hsucc.
  unfold handle_one. fold i. rewrite (couts_lookup i Hi), (outs_lookup i Hi).
  assert (∃ cond, (if sig_meet sig then release_conditions (couts i) (condition_incoming st)
                   else Ret (condition_incoming st)) = Ret cond ∧
                  length cond = sys_count schedule ∧
                  ∀ t, t < sys_count schedule →
                       cond !! t = Some (npred couts (add_if (sig_meet sig) i M) t))
    as (cond & Hrel & Hcl & Hcond).
  { pose proof (inv_clen _ _ _ _ _ Hinv) as Hcl. pose proof (inv_cin _ _ _ _ _ Hinv) as Hcin.
    cbn in Hcl, Hcin. destruct (sig_meet sig); cbn [add_if]; [|eauto].
    destruct (release_conditions_spec (couts i) (condition_incoming st)) as (l' & -> & Hl & Hl').
    - apply Hok.
    - intros t Ht. destruct (Hsucc t (sok_sub Hok _ _ Ht)) as (Hlt & _).
      rewrite (Hcin t Hlt), (npred_complete couts M i t Hi HM), decide_True by done.
      rewrite Nat.add_1_r. eauto.
    - exists l'. split; [done|]. split; [lia|]. intros t Ht.
      rewrite Hl', (Hcin t Ht), (npred_complete couts M i t Hi HM).
      destruct (decide (t ∈ couts i)); cbn; f_equal; lia. }
  unfold mbind, outcome_bind. rewrite Hrel.
  set (dfr := if sig_deferred sig then deferred_systems st ++ [i] else deferred_systems st).
  destruct (release_outgoing_spec (outs i) (mkExec (incoming st) cond (ready_systems st)
    (running_systems st ∖ {[i]}) dfr) pending) as (inc & -> & Hil & Hinc).
  - apply Hok.
  - intros t Ht. destruct (Hsucc t Ht) as (Hlt & Hn & _).
    pose proof (inv_in _ _ _ _ _ Hinv t Hlt) as Hin. cbn in Hin |- *. rewrite Hin, Hn. eauto.
  - intros t Ht. destruct (Hsucc t Ht) as (Hlt & _). cbn. rewrite Hcond by done. eauto.
  - cbn in Hil, Hinc |- *. pose proof (inv_len _ _ _ _ _ Hinv) as Hl. cbn in Hl.
    pose proof (completed_inv D M (sig_index <$> pending) Sp st i (sig_meet sig) Hinv inc cond
      Hcond Hcl ltac:(lia) Hinc dfr) as Hfin.
    eexists _, _. split; [done|]. split; [|split; [done|split; [by eexists|]]].
    + rewrite fmap_app, <- list_fmap_compose. unfold compose. cbn. by rewrite list_fmap_id.
    + eexists. split; [done|]. intros t Ht. rewrite elem_of_rev in Ht. unfold skipped in Ht.
      apply list_elem_of_filter in Ht as [_ Ht]. by apply Hsucc in Ht as (_ & _ & _ & _ & ? & _).
Qed.

(** Moves a system from the running set to the head of the pending list. *)
Lemma inv_set_running D M P Sp st r :
  r = running_systems st → inv D M P Sp st → inv D M P Sp (set_running st r).
Proof. intros ->. by destruct st. Qed.

Lemma size_all (X : gset nat) n : (∀ i, i ∈ X → i < n) → size X ≤ n.
Proof.
  intros HX. rewrite <- (length_seq n 0), <- (size_list_to_set (C := gset nat)) by apply NoDup_seq.
  apply subseteq_size. intros i Hi. apply elem_of_list_to_set, elem_of_seq. specialize (HX i Hi). lia.
Qed.

Lemma inv_done_lt D M P Sp st i : inv D M P Sp st → i ∈ D → i < sys_count schedule.
Proof. intros Hi HD. apply (inv_zero _ _ _ _ _ Hi). auto. Qed.

Lemma handle_loop_inv fuel : ∀ D M Sp st pending,
  inv D M (sig_index <$> pending) Sp
    (set_running st (running_systems st ∖ list_to_set (sig_index <$> pending))) →
  (∀ sig, sig ∈ tail pending → sig_index sig ∉ running_systems st ∧ sig_meet sig = false) →
  sys_count schedule ≤ fuel + size D →
  ∃ D' st', handle_loop fuel st pending = Ret st' ∧
    inv D' (match pending with [] => M | sig :: _ => add_if (sig_meet sig) (sig_index sig) M end)
      [] Sp st' ∧
    running_systems st' = running_systems st ∖ list_to_set (sig_index <$> pending) ∧
    D ∪ list_to_set (sig_index <$> pending) ⊆ D' ∧
    ∃ pre, ready_systems st' = pre ++ ready_systems st.
Proof.
  induction fuel as [|fuel IH]; intros D M Sp st pending Hinv Htl Hf;
    destruct pending as [|sig pending]; cbn [handle_loop].
  1, 3: exists D, st; split; [done|]; cbn in Hinv |- *; rewrite difference_empty_L in *;
    (split; [by destruct st|]); (split; [done|]); (split; [set_solver|]); by exists [].
  - exfalso. cbn in Hinv. destruct (completing_lt _ _ _ _ _ _ Hinv) as (Hi & _ & HD & _) || idtac.
    assert (Hlt : sig_index sig < sys_count schedule ∧ sig_index sig ∉ D).
    { split; [apply (inv_zero _ _ _ _ _ Hinv); right; left; apply list_elem_of_here|].
      apply (inv_queued _ _ _ _ _ Hinv). apply elem_of_app. right. apply list_elem_of_here. }
    assert (Hs : size ({[sig_index sig]} ∪ D) ≤ sys_count schedule).
    { apply size_all. intros j [->%elem_of_singleton|Hj]%elem_of_union; [tauto|].
      by eapply inv_done_lt. }
    rewrite size_union, size_singleton in Hs by set_solver. lia.
  - assert (Hrest : list_to_set (sig_index <$> pending) ## running_systems st).
    { intros j Hj1 Hj2. apply elem_of_list_to_set, list_elem_of_fmap in Hj1 as (s & -> & Hs).
      by destruct (Htl s Hs). }
    assert (Hr : running_systems st ∖ list_to_set (sig_index <$> sig :: pending)
                 = running_systems st ∖ {[sig_index sig]}) by (cbn; set_solver).
    rewrite Hr in *. cbn in Hinv.
    destruct (handle_one_inv D M Sp st sig pending Hinv)
      as (st1 & p1 & -> & Hinv1 & Hrun1 & [pre1 Hpre1] & new & -> & Hnew).
    unfold mbind, outcome_bind.
    assert (HD : sig_index sig ∉ D).
    { apply (inv_queued _ _ _ _ _ Hinv). apply elem_of_app. right. apply list_elem_of_here. }
    assert (Hd1 : list_to_set (sig_index <$> ((λ t, mkSignal t false false) <$> new) ++ pending)
                  ## running_systems st1).
    { intros j Hj1 Hj2. apply elem_of_list_to_set in Hj1.
      apply (inv_queued _ _ _ _ _ Hinv1 j); [|done]. apply elem_of_app. by right. }
    assert (Hr1 : running_systems st1 ∖ list_to_set (sig_index <$> ((λ t, mkSignal t false false) <$> new) ++ pending)
                  = running_systems st1) by set_solver.
    destruct (IH ({[sig_index sig]} ∪ D) (add_if (sig_meet sig) (sig_index sig) M) Sp st1
      (((λ t, mkSignal t false false) <$> new) ++ pending)) as (D' & st' & Hh & Hinv' & Hrun' & HD' & [pre Hpre]).
    + rewrite Hr1. by destruct st1.
    + intros s Hs. assert (Hs' : s ∈ ((λ t, mkSignal t false false) <$> new) ++ pending).
      { destruct (((λ t, mkSignal t false false) <$> new) ++ pending); [by apply elem_of_nil in Hs|].
        by apply list_elem_of_further. }
      rewrite Hrun1. apply elem_of_app in Hs' as [(t & -> & Ht)%list_elem_of_fmap|Hs']; cbn.
      * specialize (Hnew t Ht). set_solver.
      * destruct (Htl s Hs') as [? ?]. set_solver.
    + rewrite size_union, size_singleton by set_solver. lia.
    + exists D', st'. split; [done|]. split; [|split; [|split]].
      * assert (Hm : match ((λ t, mkSignal t false false) <$> new) ++ pending with
          | [] => add_if (sig_meet sig) (sig_index sig) M
          | s :: _ => add_if (sig_meet s) (sig_index s) (add_if (sig_meet sig) (sig_index sig) M)
          end = add_if (sig_meet sig) (sig_index sig) M).
        { destruct new as [|t new]; cbn; [|done]. destruct pending as [|s pending]; [done|].
          destruct (Htl s) as [_ ->]; [apply list_elem_of_here|done]. }
        rewrite Hm in Hinv'. exact Hinv'.
      * rewrite Hrun', Hr1. done.
      * cbn. rewrite fmap_app, list_to_set_app in HD'. set_solver.
      * exists (pre ++ pre1). by rewrite Hpre, Hpre1, app_assoc.
Qed.

Lemma handle_completed_inv D M Sp st sig :
  inv D M [sig_index sig] Sp (set_running st (running_systems st ∖ {[sig_index sig]})) →
  ∃ D' st', handle_completed_system st sig = Ret st' ∧
    inv D' (add_if (sig_meet sig) (sig_index sig) M) [] Sp st' ∧
    running_systems st' = running_systems st ∖ {[sig_index sig]} ∧
    {[sig_index sig]} ∪ D ⊆ D' ∧ ∃ pre, ready_systems st' = pre ++ ready_systems st.
Proof.
  intros Hinv.
  assert (Hs : list_to_set (sig_index <$> [sig]) = ({[sig_index sig]} : gset nat)) by (cbn; set_solver).
  destruct (handle_loop_inv (sys_count schedule) D M Sp st [sig]) as (D' & st' & Hh & Hi & Hr & HD & Hp).
  - rewrite Hs. exact Hinv.
  - intros s Hs'. by apply elem_of_nil in Hs'.
  - lia.
  - rewrite Hs in Hr, HD. exists D', st'. split; [done|]. split; [done|]. split; [done|].
    split; [set_solver|done].
Qed.

Lemma inv_take_running D M Sp st i :
  inv D M [] Sp st → i ∈ running_systems st →
  inv D M [i] Sp (set_running st (running_systems st ∖ {[i]})).
Proof.
  intros Hinv Hi. pose proof (inv_running _ _ _ _ _ Hinv i Hi) as HD.
  destruct Hinv as [? ? ? ? ? Hnd Hq Hrun Hz ? [Hs1 Hs2] ? Hskip]. rewrite app_nil_r in *.
  assert (Hir : i ∉ ready_systems st) by (intros Hx; by apply (Hq i)).
  split; cbn; auto.
  - apply NoDup_app. split; [done|]. split; [|apply NoDup_singleton].
    intros x Hx ->%list_elem_of_singleton. done.
  - intros x. rewrite elem_of_app, list_elem_of_singleton. intros [Hx| ->]; [|set_solver].
    destruct (Hq x Hx). set_solver.
  - intros x. rewrite elem_of_difference. intros [Hx _]. auto.
  - intros x. rewrite Hz, list_elem_of_singleton, elem_of_difference, elem_of_singleton.
    destruct (decide (x = i)) as [->|]; [|rewrite elem_of_nil; tauto]. tauto.
  - split; [set_solver|]. intros x Hx. apply Hs2 in Hx. cbn in Hx.
    destruct (decide (x = i)) as [->|]; set_solver.
  - intros Hne x Hx HS. apply Hskip; [done| |done]. cbn in Hx |- *. set_solver.
Qed.

Lemma inv_take_ready D M Sp st i rest :
  ¬ no_exclusive → inv D M [] Sp st → ready_systems st ≡ₚ i :: rest →
  inv D M [i] Sp (set_running (set_ready st rest) (running_systems st ∖ {[i]})).
Proof.
  intros Hex Hinv Hp. destruct Hinv as [? ? ? ? ? Hnd Hq Hrun Hz Hc [Hs1 Hs2] ? Hskip].
  rewrite app_nil_r in *.
  assert (Hin : ∀ x, x ∈ ready_systems st ↔ x = i ∨ x ∈ rest) by (intros x; by rewrite Hp, elem_of_cons).
  destruct (Hq i ltac:(apply Hin; auto)) as [HiD Hir].
  assert (Hdiff : running_systems st ∖ {[i]} = running_systems st) by set_solver.
  rewrite Hdiff. rewrite Hp in Hnd. apply NoDup_cons in Hnd as [Hi Hnd].
  split; cbn; auto.
  - apply NoDup_app. split; [done|]. split; [|apply NoDup_singleton].
    intros x Hx ->%list_elem_of_singleton. done.
  - intros x. rewrite elem_of_app, list_elem_of_singleton. intros [Hx| ->]; [|done].
    apply Hq, Hin. by right.
  - intros x. rewrite Hz, Hin, list_elem_of_singleton, elem_of_nil. tauto.
  - intros x Hx. apply Hc, Hin. by right.
  - split; [done|]. cbn in Hs2. set_solver.
Qed.

Lemma inv_spawn D M Sp st i rest d :
  inv D M [] Sp st → ready_systems st = i :: rest →
  inv D M [] ({[i]} ∪ Sp)
    (mkExec (incoming st) (condition_incoming st) rest ({[i]} ∪ running_systems st) d) ∧
  i ∉ D ∧ i ∉ running_systems st ∧ i < sys_count schedule ∧ i ∉ Sp.
Proof.
  intros Hinv Hp. destruct Hinv as [? ? ? ? ? Hnd Hq Hrun Hz Hc [Hs1 Hs2] Hsc Hskip].
  rewrite Hp, !app_nil_r in *. apply NoDup_cons in Hnd as [Hi Hnd].
  destruct (Hq i ltac:(apply list_elem_of_here)) as [HiD Hir].
  assert (HiS : i ∉ Sp) by (intros Hx; apply Hs2 in Hx; cbn in Hx; set_solver).
  assert (Hi0 : i < sys_count schedule ∧ npred outs D i = 0).
  { apply Hz. left. apply list_elem_of_here. }
  split; [|repeat split; tauto].
  split; cbn; auto; rewrite ?app_nil_r; auto.
  - intros x Hx. destruct (Hq x) as [? ?]; [by apply list_elem_of_further|].
    split; [done|]. assert (x ≠ i) by (by intros ->). set_solver.
  - intros x [->%elem_of_singleton|Hx]%elem_of_union; auto.
  - intros x. rewrite Hz, elem_of_cons, elem_of_union, elem_of_singleton, elem_of_nil. tauto.
  - intros x Hx. apply Hc. by apply list_elem_of_further.
  - split; [set_solver|]. cbn in Hs2 |- *. set_solver.
  - intros x [->%elem_of_singleton|Hx]%elem_of_union; [|auto]. apply Hc, list_elem_of_here.
  - intros Hne x Hx HS. apply Hskip; [done|done|set_solver].
Qed.

Lemma inv_requeue D M Sp st q :
  inv D M [] Sp st → q ≡ₚ ready_systems st → inv D M [] Sp (set_ready st q).
Proof.
  intros [? ? ? ? ? Hnd Hq Hrun Hz Hc ? ? ?] Hp. rewrite app_nil_r in *.
  assert (Hin : ∀ x, x ∈ q ↔ x ∈ ready_systems st) by (intros x; by rewrite Hp).
  split; cbn; auto; rewrite ?app_nil_r; auto.
  - by rewrite Hp.
  - intros x Hx. by apply Hq, Hin.
  - intros x. by rewrite Hz, Hin.
  - intros x Hx. by apply Hc, Hin.
Qed.

(** ** The no-op shortcut *)

Lemma no_op_loop_inv positions : ∀ D M Sp st,
  ¬ no_exclusive → inv D M [] Sp st →
  StronglySorted (λ a b, b < a) positions → Forall (λ p, p < length (ready_systems st)) positions →
  ∃ D' M' st', no_op_loop positions st = Ret st' ∧ inv D' M' [] Sp st' ∧
    running_systems st' = running_systems st ∧ D ⊆ D' ∧ M ⊆ M'.
Proof.
  induction positions as [|b ps IH]; intros D M Sp st Hex Hinv Hs Hf; cbn [no_op_loop].
  - exists D, M, st. auto.
  - apply StronglySorted_inv in Hs as [Hs Hlt]. apply Forall_cons in Hf as [Hb Hf].
    destruct (lookup_lt_is_Some_2 _ _ Hb) as [i Hi]. unfold swap_remove_back. rewrite Hi. cbn [mbind option_bind].
    destruct (swap_remove_perm _ _ _ Hi) as [Hp Hl].
    pose proof (inv_take_ready D M Sp st i _ Hex Hinv Hp) as Hinv1.
    assert (Hir : i ∉ running_systems st).
    { apply (inv_queued _ _ _ _ _ Hinv). apply elem_of_app. left. by eapply list_elem_of_lookup_2. }
    destruct (handle_completed_inv D M Sp (set_ready st (swap_remove (ready_systems st) b))
      (mkSignal i false true)) as (D1 & st1 & -> & Hi1 & Hr1 & HD1 & [pre Hpre]); [exact Hinv1|].
    cbn in Hi1, Hr1, HD1, Hpre. unfold mbind, outcome_bind.
    destruct (IH D1 (add_if true i M) Sp st1) as (D' & M' & st' & -> & Hi' & Hr' & HD' & HM'); auto.
    + rewrite Hpre, length_app, Hl. rewrite Forall_forall in *. intros p Hp'.
      specialize (Hlt p Hp'). cbn in Hlt. lia.
    + exists D', M', st'. split; [done|]. split; [done|]. split; [rewrite Hr', Hr1; set_solver|].
      split; [set_solver|]. cbn in HM'. set_solver.
Qed.

Lemma rev_sorted (l : list nat) : StronglySorted lt l → StronglySorted (λ a b, b < a) (rev l).
Proof.
  induction 1 as [|x l Hs IH Hf]; cbn; [constructor|].
  assert (Hall : Forall (λ y, x < y) (rev l)).
  { apply Forall_forall. intros y Hy. rewrite elem_of_rev in Hy. rewrite Forall_forall in Hf. auto. }
  clear Hf Hs. induction IH as [|y m Hm IHm Hy]; cbn; [repeat constructor|].
  apply Forall_cons in Hall as [Hxy Hall]. constructor; [auto|].
  apply Forall_app. split; [done|]. by constructor.
Qed.

Lemma seq_sorted a n : StronglySorted lt (seq a n).
Proof.
  revert a. induction n as [|n IH]; intros a; cbn; constructor; auto.
  apply Forall_forall. intros y Hy%elem_of_seq. lia.
Qed.

Lemma filter_sorted (Q : nat → Prop) `{∀ x, Decision (Q x)} l :
  StronglySorted lt l → StronglySorted lt (filter Q l).
Proof.
  induction 1 as [|x l Hs IH Hf]; [constructor|]. rewrite filter_cons. case_decide; [|done].
  constructor; [done|]. rewrite Forall_forall in *. intros y [_ Hy]%list_elem_of_filter. auto.
Qed.

Lemma handle_no_op_inv D M Sp st :
  ¬ no_exclusive → inv D M [] Sp st →
  ∃ D' M' st', handle_no_op_systems st = Ret st' ∧ inv D' M' [] Sp st' ∧
    running_systems st' = running_systems st ∧ D ⊆ D' ∧ M ⊆ M'.
Proof.
  intros Hex Hinv. apply (no_op_loop_inv _ D M); auto.
  - apply rev_sorted, filter_sorted, seq_sorted.
  - apply Forall_forall. intros p Hp. unfold no_op_positions in Hp. rewrite elem_of_rev in Hp.
    apply list_elem_of_filter in Hp as [_ Hp%elem_of_seq]. lia.
Qed.

(** ** Spawning *)

(** No two running systems conflict. *)
Definition running_compatible (r : gset nat) : Prop :=
  ∀ i j, i ∈ r → j ∈ r → i ≠ j → is_conflict schedule i j = false.

Lemma spawn_system_task_inv D M Sp st i rest :
  inv D M [] Sp st → ready_systems st = i :: rest →
  ∃ D' M' st', spawn_system_task (set_ready st rest) i = Ret st' ∧
    inv D' M' [] ({[i]} ∪ Sp) st' ∧ running_systems st' = {[i]} ∪ running_systems st ∧
    D ⊆ D' ∧ M ⊆ M' ∧ (no_exclusive → M' = M).
Proof.
  intros Hinv Hr. unfold spawn_system_task.
  cbn [incoming condition_incoming ready_systems running_systems deferred_systems set_ready].
  set (d := if is_exclusive schedule i && bool_decide (deferred_systems st ≠ []) then [] else _).
  destruct (inv_spawn D M Sp st i rest d Hinv Hr) as [Hinv1 _].
  destruct (is_exclusive schedule i && bool_decide (rest ≠ [])) eqn:E.
  - assert (Hex : ¬ no_exclusive).
    { intros Hn. apply andb_true_iff in E as [E _]. by rewrite Hn in E. }
    destruct (handle_no_op_inv D M ({[i]} ∪ Sp) _ Hex Hinv1) as (D' & M' & st' & -> & ? & Hrun & ? & ?).
    exists D', M', st'. split; [done|]. split; [done|]. split; [done|]. split; [done|].
    split; [done|]. intros Hn. by destruct Hex.
  - exists D, M. eexists. split; [done|]. split; [done|]. done.
Qed.

Lemma conflicts_running_spec st i :
  conflicts_running st i = false → ∀ j, j ∈ running_systems st → is_conflict schedule i j = false.
Proof.
  unfold conflicts_running. intros Hc j Hj. destruct (is_conflict schedule i j) eqn:E; [|done].
  assert (existsb (λ running, is_conflict schedule i running) (elements (running_systems st)) = true)
    as Ht; [|congruence].
  apply existsb_exists. exists j. split; [|done]. apply list_elem_of_In, elem_of_elements, Hj.
Qed.

Lemma spawn_loop_inv len : ∀ oracle D M Sp st,
  inv D M [] Sp st → running_compatible (running_systems st) →
  ∃ D' M' log st', spawn_loop len oracle st = Ret (log, st') ∧
    inv D' M' [] (list_to_set log ∪ Sp) st' ∧
    running_systems st' = list_to_set log ∪ running_systems st ∧
    running_compatible (running_systems st') ∧ NoDup log ∧
    (∀ i, i ∈ log → i ∉ Sp ∧ i < sys_count schedule) ∧ D ⊆ D' ∧ M ⊆ M' ∧ (no_exclusive → M' = M) ∧
    (running_systems st = ∅ → log = [] → st' = st ∧ (0 < len → ready_systems st = [])).
Proof.
  induction len as [|len IH]; intros oracle D M Sp st Hinv Hcomp; cbn [spawn_loop].
  { exists D, M, [], st. split; [done|]. cbn. rewrite !union_empty_l_L.
    do 8 (split; [done || (by intros j Hj%elem_of_nil) || constructor|]). intros _ _; split; [done|lia]. }
  destruct (ready_systems st) as [|i rest] eqn:Hr.
  { exists D, M, [], st. split; [done|]. cbn. rewrite !union_empty_l_L.
    do 8 (split; [done || (by intros j Hj%elem_of_nil) || constructor|]). done. }
  destruct (conflicts_running (set_ready st rest) i) eqn:Hc; cbn [negb].
  - assert (Hne : running_systems st ≠ ∅).
    { intros E. unfold conflicts_running in Hc. cbn in Hc. rewrite E, elements_empty in Hc. done. }
    assert (Hinv2 : inv D M [] Sp (set_ready (set_ready st rest) (rest ++ [i]))).
    { apply (inv_requeue D M Sp st); [done|]. rewrite Hr. by rewrite Permutation_app_comm. }
    destruct oracle as [|[] oracle]; cbn [tl].
    2: { exists D, M, []. eexists. split; [done|]. cbn. rewrite !union_empty_l_L.
         split; [exact Hinv2|].
         do 7 (split; [done || (by intros j Hj%elem_of_nil) || constructor|]). done. }
    + destruct (IH [] D M Sp _ Hinv2) as (D' & M' & log & st' & -> & ? & ? & ? & ? & ? & ? & ? & ? & _);
        [done|]. exists D', M', log, st'. repeat (split; [done|]). done.
    + destruct (IH oracle D M Sp _ Hinv2) as (D' & M' & log & st' & -> & ? & ? & ? & ? & ? & ? & ? & ? & _);
        [done|]. exists D', M', log, st'. repeat (split; [done|]). done.
  - destruct (spawn_system_task_inv D M Sp st i rest Hinv Hr)
      as (D1 & M1 & st1 & -> & Hinv1 & Hrun1 & HD1 & HM1 & HMe1).
    destruct (inv_spawn D M Sp st i rest [] Hinv Hr) as (_ & HiD & Hir & Hin & HiS).
    unfold mbind, outcome_bind.
    assert (Hcomp1 : running_compatible (running_systems st1)).
    { rewrite Hrun1. intros a b [->%elem_of_singleton|Ha]%elem_of_union
        [->%elem_of_singleton|Hb]%elem_of_union Hab; [done|..].
      - by apply (conflicts_running_spec _ _ Hc).
      - rewrite (sok_sym Hok). by apply (conflicts_running_spec _ _ Hc).
      - by apply Hcomp. }
    destruct (IH oracle D1 M1 _ st1 Hinv1 Hcomp1)
      as (D' & M' & log & st' & -> & Hi' & Hr' & Hc' & Hnd & Hl & HD' & HM' & HMe' & _).
    exists D', M', (i :: log), st'. split; [done|]. cbn [list_to_set].
    split; [by replace ({[i]} ∪ list_to_set log ∪ Sp) with (list_to_set log ∪ ({[i]} ∪ Sp)) by set_solver|].
    split; [rewrite Hr', Hrun1; set_solver|]. split; [done|].
    split; [apply NoDup_cons; split; [|done]; intros Hx; destruct (Hl i Hx); set_solver|].
    split. { intros j [->|Hj]%elem_of_cons; [done|]. destruct (Hl j Hj). set_solver. }
    split; [set_solver|]. split; [set_solver|].
    split; [intros Hn; rewrite HMe', HMe1 by done; done|]. done.
Qed.

Lemma drain_completed_inv queue : ∀ D M Sp st,
  inv D M [] Sp st → NoDup (sig_index <$> queue) →
  (∀ s, s ∈ queue → sig_index s ∈ running_systems st) →
  ∃ D' st', drain_completed queue st = Ret st' ∧
    inv D' (M ∪ list_to_set (sig_index <$> filter (λ s, sig_meet s = true) queue)) [] Sp st' ∧
    running_systems st' = running_systems st ∖ list_to_set (sig_index <$> queue) ∧ D ⊆ D'.
Proof.
  induction queue as [|s queue IH]; intros D M Sp st Hinv Hnd Hq; cbn [drain_completed].
  - exists D, st. cbn. assert (M ∪ ∅ = M) as -> by set_solver.
    assert (running_systems st ∖ ∅ = running_systems st) as -> by set_solver. done.
  - cbn in Hnd. apply NoDup_cons in Hnd as [Hs Hnd].
    assert (Hsr : sig_index s ∈ running_systems st) by (apply Hq, list_elem_of_here).
    destruct (handle_completed_inv D M Sp st s) as (D1 & st1 & -> & Hi1 & Hr1 & HD1 & _).
    { by apply inv_take_running. }
    unfold mbind, outcome_bind.
    destruct (IH D1 _ Sp st1 Hi1 Hnd) as (D' & st' & -> & Hi' & Hr' & HD').
    { intros s' Hs'. rewrite Hr1. apply elem_of_difference. split; [apply Hq; by apply list_elem_of_further|].
      rewrite elem_of_singleton. intros Heq. apply Hs. rewrite <- Heq. apply list_elem_of_fmap. eauto. }
    exists D', st'. split; [done|]. split; [|split; [rewrite Hr', Hr1; cbn; set_solver|set_solver]].
    rewrite filter_cons. destruct (sig_meet s); cbn [add_if] in Hi'.
    + rewrite decide_True by done. cbn.
      by replace (M ∪ ({[sig_index s]} ∪ list_to_set (sig_index <$> filter (λ s, sig_meet s = true) queue)))
        with ({[sig_index s]} ∪ M ∪ list_to_set (sig_index <$> filter (λ s, sig_meet s = true) queue)) by set_solver.
    + by rewrite decide_False by done.
Qed.

(** ** Reachable configurations *)

Definition met_set (l : list CompletedSignal) : gset nat :=
  list_to_set (sig_index <$> filter (λ s, sig_meet s = true) l).

Record cinv (D M : gset nat) (c : config) : Prop := {
  cinv_state : inv D M [] (list_to_set (c_spawned c)) (c_state c);
  cinv_running : running_systems (c_state c) = c_inflight c ∪ list_to_set (sig_index <$> c_queue c);
  cinv_disjoint : c_inflight c ## list_to_set (sig_index <$> c_queue c);
  cinv_queue : NoDup (sig_index <$> c_queue c);
  cinv_compatible : running_compatible (running_systems (c_state c));
  cinv_spawned : NoDup (c_spawned c);
  cinv_spawned_lt : ∀ i, i ∈ c_spawned c → i < sys_count schedule;
  cinv_met : no_exclusive → M = met_set (c_handled c);
  cinv_handled : ∀ i, i ∈ c_spawned c ↔
    i ∈ running_systems (c_state c) ∨ i ∈ sig_index <$> c_handled c
}.

Lemma reset_inv :
  ∃ st, ExecutorState_reset = Ret st ∧ inv ∅ ∅ [] ∅ st ∧ running_systems st = ∅.
Proof.
  unfold ExecutorState_reset. rewrite decide_True by (repeat split; apply Hok).
  eexists. split; [done|]. split; [|done].
  assert (Hzero : ∀ i, i ∈ zero_indices (s_incoming schedule) ↔
    i < sys_count schedule ∧ npred outs ∅ i = 0).
  { intros i. unfold zero_indices. rewrite list_elem_of_filter, elem_of_seq, (sok_len_in Hok). split.
    - intros [Hz Hi]. rewrite (sok_in Hok) in Hz by lia. injection Hz as Hz. lia.
    - intros [Hi Hz]. rewrite (sok_in Hok), Hz by lia. split; [done|lia]. }
  split; cbn; try apply Hok; try done.
  - rewrite app_nil_r. apply NoDup_filter, NoDup_seq.
  - intros i. rewrite Hzero. set_solver.
  - intros i [Hi Hz]%Hzero. apply npred_zero. intros p Hp Hc. apply (sok_sub Hok) in Hc.
    exact (proj1 (npred_zero _ _ _) Hz p Hp Hc).
Qed.

Lemma tick_inv D M c oracle :
  cinv D M c →
  ∃ D' M' log st', tick_internal oracle (c_queue c) (c_state c) = Ret (log, st') ∧
    cinv D' M' (mkConfig st' [] (list_to_set log ∪ c_inflight c) (c_spawned c ++ log)
                  (c_handled c ++ c_queue c)) ∧
    (c_inflight c = ∅ → log = [] → ready_systems st' = []).
Proof.
  intros [Hinv Hrun Hdis Hq Hcomp Hnd Hlt Hmet Hhd]. unfold tick_internal.
  destruct (drain_completed_inv (c_queue c) D M _ _ Hinv Hq) as (D1 & st1 & -> & Hi1 & Hr1 & HD1).
  { intros s Hs. rewrite Hrun. apply elem_of_union. right. apply elem_of_list_to_set, list_elem_of_fmap. eauto. }
  unfold mbind, outcome_bind, spawn_ready_tasks.
  assert (Hr1' : running_systems st1 = c_inflight c) by (rewrite Hr1, Hrun; set_solver).
  destruct (spawn_loop_inv (length (ready_systems st1)) oracle D1 _ _ st1 Hi1)
    as (D' & M' & log & st' & -> & Hi' & Hr' & Hc' & Hndl & Hl & HD' & HM' & HMe & Hprog).
  { intros i j Hi Hj. apply Hcomp; rewrite Hrun; rewrite Hr1' in Hi, Hj; set_solver. }
  exists D', M', log, st'. split; [done|]. split.
  - split; cbn; auto.
    + by replace (list_to_set (c_spawned c ++ log)) with (list_to_set log ∪ list_to_set (c_spawned c) : gset nat)
        by (rewrite list_to_set_app_L; set_solver).
    + rewrite Hr', Hr1'. set_solver.
    + set_solver.
    + constructor.
    + apply NoDup_app. split; [done|]. split; [|done]. intros i Hi Hi2.
      destruct (Hl i Hi2) as [Hn _]. apply Hn. by apply elem_of_list_to_set.
    + intros i [Hi|Hi]%elem_of_app; [auto|]. by apply Hl.
    + intros Hn. rewrite (HMe Hn), (Hmet Hn). unfold met_set.
      rewrite filter_app, fmap_app, list_to_set_app_L. done.
    + intros i. rewrite Hr', Hr1', fmap_app, !elem_of_app, Hhd, Hrun, !elem_of_union.
      rewrite !elem_of_list_to_set. tauto.
  - intros Hin Hlog. destruct (Hprog ltac:(by rewrite Hr1') Hlog) as [-> Hz].
    destruct (ready_systems st1) eqn:Er; [done|]. apply Hz. cbn. lia.
Qed.

Lemma ereach_cinv c : ereach c → ∃ D M, cinv D M c.
Proof.
  induction 1 as [c (st & Hr & ->)|c c' _ (D & M & Hc) Hstep].
  - destruct reset_inv as (st' & Hr' & Hinv & Hrun). rewrite Hr in Hr'. injection Hr' as <-.
    exists ∅, ∅. split; cbn; auto; try constructor; rewrite ?Hrun; try set_solver.
    intros i j Hi. cbn in Hi. by apply not_elem_of_empty in Hi.
  - destruct Hstep as [oracle c log st' Ht|c i result Hi].
    + destruct (tick_inv D M c oracle Hc) as (D' & M' & log' & st'' & Ht' & Hc' & _).
      rewrite Ht in Ht'. injection Ht' as <- <-. eauto.
    + exists D, M. destruct Hc as [Hinv Hrun Hdis Hq Hcomp Hnd Hlt Hmet Hhd].
      assert (Hidx : sig_index (push_completed_system i result) = i) by (by destruct result).
      assert (Hnew : i ∉ (list_to_set (sig_index <$> c_queue c) : gset nat)) by set_solver.
      split; cbn; auto; rewrite ?fmap_app, ?list_to_set_app_L; cbn; rewrite ?Hidx.
      * rewrite Hrun. apply set_eq. intros x. destruct (decide (x = i)); set_solver.
      * set_solver.
      * apply NoDup_app. split; [done|]. split; [|apply NoDup_singleton].
        intros x Hx ->%list_elem_of_singleton. apply Hnew. by apply elem_of_list_to_set.
Qed.

(** A system whose completion was handled. *)
Definition completed_in (st : ExecutorState) (i : nat) : Prop :=
  incoming st !! i = Some 0 ∧ i ∉ ready_systems st ∧ i ∉ running_systems st.

Lemma completed_in_done D M Sp st i : inv D M [] Sp st → (i ∈ D ↔ completed_in st i).
Proof.
  intros Hinv. unfold completed_in. split.
  - intros Hi. pose proof (proj2 (inv_zero _ _ _ _ _ Hinv i) ltac:(auto)) as [Hlt Hz].
    rewrite (inv_in _ _ _ _ _ Hinv i Hlt), Hz. split; [done|]. split.
    + intros Hr. destruct (inv_queued _ _ _ _ _ Hinv i) as [? _]; [|done]. apply elem_of_app. by left.
    + intros Hr. by apply (inv_running _ _ _ _ _ Hinv i).
  - intros (Hz & Hr & Hrun). pose proof (lookup_lt_Some _ _ _ Hz) as Hlt.
    rewrite (inv_len _ _ _ _ _ Hinv) in Hlt. rewrite (inv_in _ _ _ _ _ Hinv) in Hz by done.
    injection Hz as Hz.
    destruct (proj1 (inv_zero _ _ _ _ _ Hinv i) (conj Hlt Hz)) as [Hx|[Hx|[Hx|Hx]]];
      [done|by apply elem_of_nil in Hx|done|done].
Qed.

Lemma all_done D M Sp st :
  inv D M [] Sp st → ready_systems st = [] → running_systems st = ∅ →
  ∀ i, i < sys_count schedule → i ∈ D.
Proof.
  intros Hinv Hr Hrun i. induction (lt_wf i) as [i _ IH]. intros Hi.
  assert (Hz : npred outs D i = 0).
  { apply npred_zero. intros p Hp Hin. pose proof (sok_topo Hok p i Hin). apply IH; lia. }
  destruct (proj1 (inv_zero _ _ _ _ _ Hinv i) (conj Hi Hz)) as [Hx|[Hx|[Hx|Hx]]]; [..|done].
  - rewrite Hr in Hx. by apply elem_of_nil in Hx.
  - by apply elem_of_nil in Hx.
  - rewrite Hrun in Hx. set_solver.
Qed.
End Executor.

(** ** The single-threaded executor

    [executor/single.rs]: the systems in schedule order.  [is_action] tells
    actions from conditions and [result] is what running the system gives:
    whether an action succeeds, the value of a condition. *)

Section Single.
Variable schedule : SystemSchedule.
Variable is_action : nat → bool.
Variable result : nat → bool.

(** One turn of the loop: the counters after it, and whether the system ran. *)
Definition single_step (cond : list nat) (index : nat) : outcome (list nat * bool) :=
  match cond !! index with
  | None => Panic
  | Some 0 =>
      if is_action index || result index then
        match s_condition_outgoing schedule !! index with
        | None => Panic
        | Some ts => cond' ← release_conditions ts cond; Ret (cond', true)
        end
      else Ret (cond, true)
  | Some _ => Ret (cond, false)
  end.

Fixpoint single_loop (cond : list nat) (indices : list nat) : outcome (list nat) :=
  match indices with
  | [] => Ret []
  | index :: indices' =>
      r ← single_step cond index;
      log ← single_loop r.1 indices';
      Ret (if (r.2 : bool) then index :: log else log)
  end.

(** The systems a run executes, in order. *)
Definition single_run : outcome (list nat) :=
  if decide (length (s_condition_incoming schedule) = sys_count schedule ∧
             length (s_condition_outgoing schedule) = sys_count schedule)
  then single_loop (s_condition_incoming schedule) (seq 0 (sys_count schedule)) else Panic.

Hypothesis Hok : schedule_ok schedule.

(** The systems that released their condition edges. *)
Definition released (i : nat) : bool := is_action i || result i.

Lemma single_loop_spec k : ∀ n M cond,
  n + k = sys_count schedule → length cond = sys_count schedule →
  (∀ i, i ∈ M → i < n) →
  (∀ i, i < sys_count schedule → cond !! i = Some (npred schedule (couts schedule) M i)) →
  ∃ log, single_loop cond (seq n k) = Ret log ∧ StronglySorted lt log ∧
    ∀ i, i ∈ log ↔ n ≤ i < sys_count schedule ∧
       ∀ p, i ∈ couts schedule p → p ∈ M ∨ (p ∈ log ∧ released p = true).
Proof.
  induction k as [|k IH]; intros n M cond Hn Hl HM Hc.
  - exists []. split; [done|]. split; [constructor|]. intros i.
    rewrite elem_of_nil. split; [done|lia].
  - cbn [seq single_loop]. unfold single_step. rewrite (Hc n) by lia.
    assert (Hfwd : ∀ p i, i ∈ couts schedule p → p < i < sys_count schedule).
    { intros p i Hp. apply (sok_topo _ Hok). by apply (sok_sub _ Hok). }
    assert (HnM : n ∉ M) by (intros Hx; specialize (HM n Hx); lia).
    destruct (npred schedule (couts schedule) M n) as [|m] eqn:Ez.
    + assert (Hrun : ∀ p, n ∈ couts schedule p → p ∈ M).
      { intros p Hp. apply (proj1 (npred_zero _ _ _ _) Ez); [|done]. specialize (Hfwd p n Hp). lia. }
      assert (∃ cond', (if is_action n || result n then
          match s_condition_outgoing schedule !! n with
          | None => Panic
          | Some ts => cond' ← release_conditions ts cond; Ret (cond', true)
          end else Ret (cond, true)) = Ret (cond', true) ∧ length cond' = sys_count schedule ∧
          ∀ i, i < sys_count schedule →
               cond' !! i = Some (npred schedule (couts schedule) (add_if (released n) n M) i))
        as (cond' & -> & Hl' & Hc').
      { unfold released. destruct (is_action n || result n); cbn [add_if]; [|eauto].
        rewrite (couts_lookup _ Hok) by lia.
        destruct (release_conditions_spec (couts schedule n) cond) as (l' & -> & Hl' & Hlk).
        - apply Hok.
        - intros t Ht. specialize (Hfwd n t Ht). rewrite (Hc t) by lia.
          rewrite (npred_complete _ Hok _ M n t), decide_True by (done || lia). rewrite Nat.add_1_r. eauto.
        - exists l'. split; [done|]. split; [lia|]. intros t Ht.
          rewrite Hlk, (Hc t Ht), (npred_complete _ Hok _ M n t) by (done || lia).
          destruct (decide (t ∈ couts schedule n)); cbn; f_equal; lia. }
      unfold mbind, outcome_bind. cbn [fst snd].
      destruct (IH (S n) (add_if (released n) n M) cond') as (log & -> & Hs & Hlog); auto; [lia| |].
      { intros i Hi. unfold add_if in Hi. destruct (released n); [|specialize (HM i Hi); lia].
        apply elem_of_union in Hi as [->%elem_of_singleton|Hi]; [lia|specialize (HM i Hi); lia]. }
      exists (n :: log). split; [done|]. split.
      { constructor; [done|]. apply Forall_forall. intros i Hi%Hlog. lia. }
      assert (Hadd : ∀ p, p ∈ add_if (released n) n M ↔ p ∈ M ∨ (p = n ∧ released n = true)).
      { intros p. unfold add_if. destruct (released n); set_solver. }
      intros i. rewrite elem_of_cons, Hlog. setoid_rewrite Hadd. setoid_rewrite elem_of_cons. split.
      * intros [->|[Hi Hp]]; [split; [lia|]; auto|]. split; [lia|]. intros p Hpi.
        destruct (Hp p Hpi) as [[?|[-> ?]]|[? ?]]; auto.
      * intros [Hi Hp]. destruct (decide (i = n)); [by left|]. right. split; [lia|]. intros p Hpi.
        destruct (Hp p Hpi) as [?|[[->|?] ?]]; auto.
    + unfold mbind, outcome_bind. cbn [fst snd].
      destruct (IH (S n) M cond) as (log & -> & Hs & Hlog); auto; [lia|intros i Hi; specialize (HM i Hi); lia|].
      exists log. split; [done|]. split; [done|]. intros i. rewrite Hlog. split; [intros [? ?]; split; [lia|done]|].
      intros [Hi Hp]. split; [|done]. destruct (decide (i = n)) as [->|]; [|lia]. exfalso.
      assert (Hz : npred schedule (couts schedule) M n = 0); [|lia].
      apply npred_zero. intros p Hpn Hpi. destruct (Hp p Hpi) as [?|[Hx%Hlog _]]; [done|].
      specialize (Hfwd p n Hpi). lia.
Qed.

Lemma single_run_spec :
  ∃ log, single_run = Ret log ∧ StronglySorted lt log ∧
    ∀ i, i ∈ log ↔ i < sys_count schedule ∧
       ∀ p, i ∈ couts schedule p → p ∈ log ∧ released p = true.
Proof.
  unfold single_run. rewrite decide_True by (split; apply Hok).
  destruct (single_loop_spec (sys_count schedule) 0 ∅ (s_condition_incoming schedule))
    as (log & -> & Hs & Hlog); [done|apply Hok|intros i Hi; set_solver|apply Hok|].
  exists log. split; [done|]. split; [done|]. intros i. rewrite Hlog. split.
  - intros [? Hp]. split; [lia|]. intros p Hpi. destruct (Hp p Hpi) as [?|?]; [set_solver|done].
  - intros [? Hp]. split; [lia|]. auto.
Qed.
End Single.

Lemma spawned_iff_met schedule c i :
  schedule_ok schedule → no_exclusive schedule → ereach schedule c → completed_in (c_state c) i →
  i ∈ c_spawned c ↔
  ∀ p, i ∈ couts schedule p → ∃ s, s ∈ c_handled c ∧ sig_index s = p ∧ sig_meet s = true.
Proof.
  intros Hok Hne Hr Hdone.
  destruct (ereach_cinv _ Hok c Hr) as (D & M & [Hinv _ _ _ _ _ _ Hmet _]). specialize (Hmet Hne).
  assert (HiD : i ∈ D) by (by apply (completed_in_done schedule D M (list_to_set (c_spawned c)) (c_state c))).
  assert (HM : ∀ p, p ∈ M ↔ ∃ s, s ∈ c_handled c ∧ sig_index s = p ∧ sig_meet s = true).
  { intros p. rewrite Hmet. unfold met_set. rewrite elem_of_list_to_set, list_elem_of_fmap.
    setoid_rewrite list_elem_of_filter. naive_solver. }
  setoid_rewrite <- HM. split.
  - intros Hs p Hp.
    assert (Hz : npred schedule (couts schedule) M i = 0).
    { apply (inv_scond _ _ _ _ _ _ Hinv). by apply elem_of_list_to_set. }
    apply (proj1 (npred_zero _ _ _ _) Hz); [|done].
    pose proof (sok_topo _ Hok p i (sok_sub _ Hok _ _ Hp)). lia.
  - intros Hall. destruct (decide (i ∈ c_spawned c)) as [|Hn]; [done|]. exfalso.
    apply (inv_skip _ _ _ _ _ _ Hinv Hne i); [set_solver|by rewrite elem_of_list_to_set|].
    apply npred_zero. auto.
Qed.


(** ** Theorems *)

(** Tasks in flight are pairwise conflict-free systems of the schedule. *)
Lemma inflight_compatible schedule c i j :
  schedule_ok schedule → ereach schedule c → i ∈ c_inflight c → j ∈ c_inflight c → i ≠ j →
  is_conflict schedule i j = false.
Proof.
  intros Hok Hr Hi Hj Hne. destruct (ereach_cinv _ Hok c Hr) as (D & M & [Hinv Hrun Hdis Hq Hcomp Hnd Hlt _ _]).
  apply Hcomp; [rewrite Hrun; set_solver..|done].
Qed.

Lemma inflight_lt schedule c i :
  schedule_ok schedule → ereach schedule c → i ∈ c_inflight c → i < sys_count schedule.
Proof.
  intros Hok Hr Hi. destruct (ereach_cinv _ Hok c Hr) as (D & M & [Hinv Hrun _ _ _ _ _ _ _]).
  apply (inv_zero _ _ _ _ _ _ Hinv i). right; right; left. rewrite Hrun. set_solver.
Qed.

(** C6: Safety of the multi-threaded executor: in every reachable configuration
    the systems whose tasks may be executing are pairwise conflict-free, no
    system is spawned twice in a run, and every predecessor of a system in
    flight has completed. *)
Theorem executor_safe schedule c :
  schedule_ok schedule → ereach schedule c →
  (∀ i j, i ∈ c_inflight c → j ∈ c_inflight c → i ≠ j → is_conflict schedule i j = false) ∧
  NoDup (c_spawned c) ∧ length (c_spawned c) ≤ sys_count schedule ∧
  ∀ i p, i ∈ c_inflight c → i ∈ outs schedule p →
         completed_in (c_state c) p ∧ p ∉ c_inflight c.
Proof.
  intros Hok Hr. destruct (ereach_cinv _ Hok c Hr) as (D & M & [Hinv Hrun Hdis Hq Hcomp Hnd Hlt _ _]).
  assert (Hin : ∀ i, i ∈ c_inflight c → i ∈ running_systems (c_state c)) by (rewrite Hrun; set_solver).
  split; [intros i j; by apply inflight_compatible|]. split; [done|]. split.
  { rewrite <- (length_seq (sys_count schedule) 0). apply submseteq_length, NoDup_submseteq; [done|].
    intros i Hi%Hlt. apply elem_of_seq. lia. }
  intros i p Hi Hp.
  assert (HpD : p ∈ D).
  { destruct (proj2 (inv_zero _ _ _ _ _ _ Hinv i)) as [_ Hz]; [auto|].
    apply (proj1 (npred_zero _ _ _ _) Hz); [|done]. pose proof (sok_topo _ Hok p i Hp). lia. }
  split; [by apply (completed_in_done schedule D M (list_to_set (c_spawned c)))|].
  intros Hx%Hin. by apply (inv_running _ _ _ _ _ _ Hinv p).
Qed.

(** C17: Progress: a tick always returns, whatever other threads push meanwhile;
    and when no task is in flight and a tick spawns nothing, every system of
    the schedule has completed.  So a run cannot get stuck. *)
Theorem executor_progress schedule c oracle :
  schedule_ok schedule → ereach schedule c →
  ∃ log st', tick_internal schedule oracle (c_queue c) (c_state c) = Ret (log, st') ∧
    (c_inflight c = ∅ → log = [] → ∀ i, i < sys_count schedule → completed_in st' i).
Proof.
  intros Hok Hr. destruct (ereach_cinv _ Hok c Hr) as (D & M & Hc).
  destruct (tick_inv _ Hok D M c oracle Hc) as (D' & M' & log & st' & -> & [Hinv Hrun _ _ _ _ _ _ _] & Hrdy).
  exists log, st'. split; [done|]. intros Hin Hlog i Hi. cbn in Hinv, Hrun.
  apply (completed_in_done schedule D' M' (list_to_set (c_spawned c ++ log))); [done|].
  eapply all_done; eauto. rewrite Hrun, Hin, Hlog. set_solver.
Qed.

(** Conditions: in a schedule without exclusive systems, a system that has
    completed was run exactly when every condition gating it was run and
    reported success; otherwise it was skipped. *)
Theorem executor_conditions schedule c i :
  schedule_ok schedule → no_exclusive schedule → ereach schedule c → completed_in (c_state c) i →
  i ∈ c_spawned c ↔
  ∀ p, i ∈ couts schedule p → ∃ s, s ∈ c_handled c ∧ sig_index s = p ∧ sig_meet s = true.
Proof. apply spawned_iff_met. Qed.

(** The signals handled in [c] are what running the systems gives. *)
Definition signals_agree (result : nat → bool) (c : config) : Prop :=
  ∀ s, s ∈ c_handled c → sig_meet s = result (sig_index s).

Lemma met_signal schedule c result p :
  schedule_ok schedule → ereach schedule c → completed_in (c_state c) p → signals_agree result c →
  (∃ s, s ∈ c_handled c ∧ sig_index s = p ∧ sig_meet s = true) ↔ p ∈ c_spawned c ∧ result p = true.
Proof.
  intros Hok Hr Hdone Hag.
  destruct (ereach_cinv _ Hok c Hr) as (D & M & [_ _ _ _ _ _ _ _ Hhd]).
  rewrite Hhd, list_elem_of_fmap. split.
  - intros (s & Hs & <- & Hm). rewrite <- (Hag s Hs). eauto.
  - intros [[Hx|(s & -> & Hs)] Hm]; [by destruct Hdone as (_ & _ & ?)|].
    exists s. rewrite (Hag s Hs). auto.
Qed.

(** C18: Both executors run the same systems: when every system of a schedule
    without exclusive systems has completed and its actions succeed, the
    multi-threaded executor has spawned exactly the systems the
    single-threaded one runs, which are run in schedule order. *)
Theorem executors_agree schedule is_action result c :
  schedule_ok schedule → no_exclusive schedule → ereach schedule c →
  (∀ i, i < sys_count schedule → completed_in (c_state c) i) → signals_agree result c →
  (∀ i, is_action i = true → result i = true) →
  ∃ log, single_run schedule is_action result = Ret log ∧ StronglySorted lt log ∧
         ∀ i, i ∈ c_spawned c ↔ i ∈ log.
Proof.
  intros Hok Hne Hr Hall Hag Hact.
  destruct (single_run_spec schedule is_action result Hok) as (log & Hrun & Hs & Hlog).
  exists log. split; [done|]. split; [done|].
  destruct (ereach_cinv _ Hok c Hr) as (D & M & [_ _ _ _ _ _ Hlt _ _]).
  assert (Hrel : ∀ p, released is_action result p = result p).
  { intros p. unfold released. destruct (is_action p) eqn:E; [by rewrite (Hact p E)|done]. }
  intros i. destruct (decide (i < sys_count schedule)) as [Hi|Hi].
  2: { split; [intros ?%Hlt; lia|intros [? _]%Hlog; lia]. }
  induction (lt_wf i) as [i _ IH].
  rewrite (spawned_iff_met schedule c i), Hlog by auto.
  assert (Hp : ∀ p, i ∈ couts schedule p → p < i).
  { intros p Hp. apply (sok_topo _ Hok p i), (sok_sub _ Hok), Hp. }
  split.
  - intros Hc. split; [done|]. intros p Hpi. specialize (Hp p Hpi).
    rewrite Hrel, <- (IH p) by lia. apply (met_signal schedule c result p); auto. apply Hall. lia.
  - intros [_ Hc] p Hpi. specialize (Hp p Hpi). apply (met_signal schedule c result p); auto.
    { apply Hall. lia. }
    rewrite (IH p), <- Hrel by lia. auto.
Qed.

(** [run_if_ran] differs between the executors: the single-threaded one
    runs a system gated by an action even if that action fails, while the
    multi-threaded one skips it. *)
Theorem single_ignores_failure schedule is_action result c p i :
  schedule_ok schedule → no_exclusive schedule → ereach schedule c →
  p < sys_count schedule → completed_in (c_state c) p → completed_in (c_state c) i →
  signals_agree result c →
  is_action p = true → result p = false → (∀ q, p ∉ couts schedule q) →
  (∀ q, i ∈ couts schedule q ↔ q = p) →
  i ∉ c_spawned c ∧ ∃ log, single_run schedule is_action result = Ret log ∧ i ∈ log.
Proof.
  intros Hok Hne Hr Hp Hpd Hid Hag Hact Hres Hfree Hgate. split.
  - rewrite (spawned_iff_met schedule c i) by auto. intros Hc.
    destruct (Hc p (proj2 (Hgate p) eq_refl)) as (s & Hs & Hidx & Hm).
    rewrite (Hag s Hs), Hidx, Hres in Hm. done.
  - destruct (single_run_spec schedule is_action result Hok) as (log & Hrun & _ & Hlog).
    exists log. split; [done|]. apply Hlog.
    assert (Hpi : i ∈ outs schedule p) by (apply (sok_sub _ Hok), Hgate; done).
    split; [apply (sok_topo _ Hok p i Hpi)|]. intros q ->%Hgate.
    split; [|unfold released; by rewrite Hact]. apply Hlog. split; [done|]. intros q Hq. by destruct (Hfree q).
Qed.

(** ** A schedule where the no-op shortcut goes wrong

    System 0 is exclusive, 1 and 2 are no-ops, 3 runs after 2. *)
Definition ex_sched : SystemSchedule := {|
  sys_count := 4;
  s_incoming := [0; 0; 0; 1];
  s_outgoing := [[]; []; [3]; []];
  s_condition_incoming := [0; 0; 0; 0];
  s_condition_outgoing := [[]; []; []; []];
  is_conflict := λ i j, (i =? 0) || (j =? 0);
  is_no_op := λ i, (i =? 1) || (i =? 2);
  is_deferred := λ _, false;
  is_exclusive := λ i, i =? 0
|}.

Lemma ex_sched_ok : schedule_ok ex_sched.
Proof.
  split; cbn; try done.
  - intros p. destruct p as [|[|[|[|p]]]]; cbn; repeat constructor; set_solver.
  - intros p. destruct p as [|[|[|[|p]]]]; cbn; constructor.
  - intros p t. destruct p as [|[|[|[|p]]]]; cbn; rewrite ?elem_of_nil, ?elem_of_cons; lia || (intros [->|?%elem_of_nil]; [lia|done]).
  - intros p t. destruct p as [|[|[|[|p]]]]; cbn; by intros ?%elem_of_nil.
  - intros i Hi. destruct i as [|[|[|[|i]]]]; [reflexivity..|lia].
  - intros i Hi. destruct i as [|[|[|[|i]]]]; [reflexivity..|lia].
  - intros i j. apply orb_comm.
Qed.

(** The no-op shortcut can swallow a real system: completing one no-op
    pushes newly unblocked systems to the front of the ready queue, which shifts
    the positions collected for the remaining no-ops.  In a well-formed schedule
    a system that is not a no-op and has no condition ends up completed without
    ever having been spawned. *)
Theorem no_op_shortcut_skips :
  ∃ schedule c y, schedule_ok schedule ∧ ereach schedule c ∧
    is_no_op schedule y = false ∧ (∀ p, y ∉ couts schedule p) ∧
    completed_in (c_state c) y ∧ y ∉ c_spawned c.
Proof.
  destruct (reset_inv ex_sched ex_sched_ok) as (st & Hst & _).
  destruct (tick_internal ex_sched [] [] st) as [[log st']| |] eqn:Ht;
    cbv [ExecutorState_reset] in Hst; rewrite decide_True in Hst by done; injection Hst as <-;
    vm_compute in Ht; try discriminate Ht.
  exists ex_sched. eexists. exists 3. split; [apply ex_sched_ok|]. split.
  - eapply ereach_step.
    + apply ereach_init. eexists. split; [|reflexivity]. unfold ExecutorState_reset.
      rewrite decide_True by done. reflexivity.
    + apply (estep_tick _ []). vm_compute. reflexivity.
  - split; [done|]. split; [intros p; destruct p as [|[|[|[|p]]]]; cbn; by intros ?%elem_of_nil|].
    split; [|vm_compute; set_solver].
    split; [reflexivity|]. split; vm_compute; set_solver.
Qed.

(** ** Witnesses *)

(** System 1 is gated by the action 0. *)
Definition ex_pair : SystemSchedule := {|
  sys_count := 2;
  s_incoming := [0; 1];
  s_outgoing := [[1]; []];
  s_condition_incoming := [0; 1];
  s_condition_outgoing := [[1]; []];
  is_conflict := λ _ _, false;
  is_no_op := λ _, false;
  is_deferred := λ _, false;
  is_exclusive := λ _, false
|}.

Lemma ex_pair_ok : schedule_ok ex_pair.
Proof.
  assert (Ho : ∀ p t, t ∈ outs ex_pair p ↔ p = 0 ∧ t = 1).
  { intros p t. destruct p as [|[|p]]; cbn; rewrite ?list_elem_of_singleton, ?elem_of_nil; lia. }
  split; try done.
  - intros p. destruct p as [|[|p]]; cbn; repeat constructor; set_solver.
  - intros p. destruct p as [|[|p]]; cbn; repeat constructor; set_solver.
  - intros p t [-> ->]%Ho. cbn. lia.
  - intros i Hi. destruct i as [|[|i]]; [reflexivity..|cbn in Hi; lia].
  - intros i Hi. destruct i as [|[|i]]; [reflexivity..|cbn in Hi; lia].
Qed.

Definition run_tick (s : SystemSchedule) (c : config) : config :=
  match tick_internal s [] (c_queue c) (c_state c) with
  | Ret (log, st') =>
      mkConfig st' [] (list_to_set log ∪ c_inflight c) (c_spawned c ++ log) (c_handled c ++ c_queue c)
  | _ => c
  end.

Definition run_finish (s : SystemSchedule) (i : nat) (meet : bool) (c : config) : config :=
  mkConfig (c_state c) (c_queue c ++ [push_completed_system s i (Ok meet)])
    (c_inflight c ∖ {[i]}) (c_spawned c) (c_handled c).

Definition ex_c0 : config :=
  mkConfig (mkExec [0; 1] [0; 1] [0] ∅ []) [] ∅ [] [].

Lemma ex_c0_reach : ereach ex_pair ex_c0.
Proof. apply ereach_init. eexists. split; reflexivity. Qed.

Lemma run_tick_reach s c : ereach s c → ereach s (run_tick s c).
Proof.
  intros Hr. unfold run_tick. destruct (tick_internal _ _ _ _) as [[log st']| |] eqn:E; auto.
  eapply ereach_step; [done|]. by apply (estep_tick _ []).
Qed.

Lemma run_finish_reach s i meet c :
  i ∈ c_inflight c → ereach s c → ereach s (run_finish s i meet c).
Proof. intros Hi Hr. eapply ereach_step; [done|]. by apply estep_finish. Qed.

Definition ex_c1 : config := run_tick ex_pair ex_c0.

(** The action fails. *)
Definition ex_failed : config := run_tick ex_pair (run_finish ex_pair 0 false ex_c1).

(** Both systems run. *)
Definition ex_both : config := run_tick ex_pair (run_finish ex_pair 1 true (run_tick ex_pair (run_finish ex_pair 0 true ex_c1))).

Lemma ex_failed_reach : ereach ex_pair ex_failed.
Proof.
  apply run_tick_reach, run_finish_reach; [apply (bool_decide_unpack _); vm_compute; exact I|].
  apply run_tick_reach, ex_c0_reach.
Qed.

Lemma ex_both_reach : ereach ex_pair ex_both.
Proof.
  apply run_tick_reach, run_finish_reach; [apply (bool_decide_unpack _); vm_compute; exact I|].
  apply run_tick_reach, run_finish_reach; [apply (bool_decide_unpack _); vm_compute; exact I|].
  apply run_tick_reach, ex_c0_reach.
Qed.

Definition completed_b (st : ExecutorState) (i : nat) : bool :=
  bool_decide (incoming st !! i = Some 0 ∧ i ∉ ready_systems st ∧ i ∉ running_systems st).

Lemma completed_b_true st i : completed_b st i = true → completed_in st i.
Proof. unfold completed_b, completed_in. by rewrite bool_decide_eq_true. Qed.

Lemma executor_safe_witness :
  ereach ex_pair ex_both ∧ NoDup (c_spawned ex_both).
Proof.
  split; [exact ex_both_reach|].
  exact (proj1 (proj2 (executor_safe ex_pair ex_both ex_pair_ok ex_both_reach))).
Defined.

Lemma executor_progress_witness :
  ∃ log st', tick_internal ex_pair [] (c_queue ex_failed) (c_state ex_failed) = Ret (log, st') ∧
             completed_in st' 1.
Proof.
  destruct (executor_progress ex_pair ex_failed [] ex_pair_ok ex_failed_reach) as (log & st' & Ht & Hdone).
  exists log, st'. split; [exact Ht|]. apply Hdone; [vm_compute; reflexivity| |cbn; lia].
  vm_compute in Ht. injection Ht as <- _. reflexivity.
Defined.

Lemma executor_conditions_witness :
  1 ∉ c_spawned ex_failed ∧
  ¬ (∀ p, 1 ∈ couts ex_pair p → ∃ s, s ∈ c_handled ex_failed ∧ sig_index s = p ∧ sig_meet s = true).
Proof.
  assert (Hn : 1 ∉ c_spawned ex_failed) by (vm_compute; set_solver).
  split; [exact Hn|]. intros Hc. apply Hn.
  apply (executor_conditions ex_pair ex_failed 1 ex_pair_ok);
    [done|exact ex_failed_reach|apply completed_b_true; vm_compute; reflexivity|exact Hc].
Defined.

Lemma executors_agree_witness :
  ∃ log, single_run ex_pair (λ _, true) (λ _, true) = Ret log ∧
         ∀ i, i ∈ c_spawned ex_both ↔ i ∈ log.
Proof.
  destruct (executors_agree ex_pair (λ _, true) (λ _, true) ex_both ex_pair_ok) as (log & Hr & _ & Heq).
  - done.
  - exact ex_both_reach.
  - intros i Hi. apply completed_b_true.
    destruct i as [|[|i]]; [vm_compute; reflexivity..|cbn in Hi; lia].
  - assert (Hh : c_handled ex_both = [mkSignal 0 false true; mkSignal 1 false true])
      by (vm_compute; reflexivity).
    intros s Hs. rewrite Hh, !elem_of_cons, elem_of_nil in Hs. by destruct Hs as [->|[->|[]]].
  - done.
  - exists log. split; [exact Hr|exact Heq].
Defined.

Lemma single_ignores_failure_witness :
  1 ∉ c_spawned ex_failed ∧ ∃ log, single_run ex_pair (λ _, true) (λ i, negb (i =? 0)) = Ret log ∧ 1 ∈ log.
Proof.
  apply (single_ignores_failure ex_pair (λ _, true) (λ i, negb (i =? 0)) ex_failed 0 1 ex_pair_ok).
  - done.
  - exact ex_failed_reach.
  - cbn. lia.
  - apply completed_b_true. vm_compute. reflexivity.
  - apply completed_b_true. vm_compute. reflexivity.
  - assert (Hh : c_handled ex_failed = [mkSignal 0 false false]) by (vm_compute; reflexivity).
    intros s Hs. rewrite Hh, elem_of_cons, elem_of_nil in Hs. by destruct Hs as [->|[]].
  - reflexivity.
  - reflexivity.
  - intros q. destruct q as [|[|q]]; cbn; rewrite ?list_elem_of_singleton, ?elem_of_nil; lia.
  - intros q. destruct q as [|[|q]]; cbn; rewrite ?list_elem_of_singleton, ?elem_of_nil; lia.
Defined.
