(* ===== verification/Graph.v ===== *)
(** * Graphs of the schedule

    [crates/voker-ecs/src/schedule/graph/graphs.rs]: [Graph<DIRECTED, N>], an
    [IndexMap] from nodes to adjacency lists together with a hash set of edges.
    The index map is an association list in its index order; [Link] and [Edge]
    are the pairs they pack.  The iteration order of the hash set is a
    parameter, the class [HashOrder].

    [digraph_refines] shows that a directed graph behaves as a pair of a vertex
    set and an edge set; [ungraph_remove_edge_stale] shows that removing an
    undirected edge from the other end leaves the adjacency lists behind. *)

From Stdlib Require Import ZArith Lia.
From S2P Require Import Prelude.

(** ** Nodes, directions *)

Inductive Direction := Outgoing | Incoming.

#[global] Instance Direction_eq_dec : EqDecision Direction.
Proof. solve_decision. Defined.

Definition Direction_opposite (d : Direction) : Direction :=
  match d with Outgoing => Incoming | Incoming => Outgoing end.

(** [trait GraphNode: Copy + Hash + Eq + Ord]. *)
Class GraphNode (N : Type) := {
  gn_eq :: EqDecision N;
  gn_countable :: Countable N;
  node_leb : N → N → bool;
  node_leb_total : ∀ a b, node_leb a b = true ∨ node_leb b a = true;
  node_leb_antisym : ∀ a b, node_leb a b = true → node_leb b a = true → a = b
}.

(** The order in which a hash set of edges is iterated. *)
Class HashOrder (N : Type) `{GraphNode N} := {
  hash_order : gset (N * N) → list (N * N);
  hash_order_perm : ∀ s, hash_order s ≡ₚ elements s
}.

#[global] Program Instance nat_GraphNode : GraphNode nat := {| node_leb := Nat.leb |}.
Next Obligation. intros a b. cbn. rewrite !Nat.leb_le. lia. Qed.
Next Obligation. intros a b. cbn. rewrite !Nat.leb_le. lia. Qed.

#[global] Program Instance elements_HashOrder {A} `{GraphNode A} : HashOrder A := {| hash_order := elements |}.
Next Obligation. done. Qed.

(** ** Index maps *)

Section IndexMap.
Context {K V : Type} `{EqDecision K}.

(** [IndexMap::get], [get_index_of], [entry(k).or_default()] followed by an
    update, and [swap_remove]. *)
Definition IndexMap_index_of (m : list (K * V)) (k : K) : option nat :=
  position (λ e, bool_decide (e.1 = k)) m.

Definition IndexMap_get (m : list (K * V)) (k : K) : option V :=
  i ← IndexMap_index_of m k; snd <$> m !! i.

Definition IndexMap_entry (m : list (K * V)) (k : K) (d : V) (f : V → V) : list (K * V) :=
  match IndexMap_index_of m k with
  | Some i => alter (λ e, (e.1, f e.2)) i m
  | None => m ++ [(k, f d)]
  end.

Definition IndexMap_swap_remove (m : list (K * V)) (k : K) : option (V * list (K * V)) :=
  i ← IndexMap_index_of m k;
  e ← m !! i;
  Some (e.2, swap_remove m i).

End IndexMap.

Arguments IndexMap_get : simpl never.
Arguments IndexMap_entry : simpl never.
Arguments IndexMap_index_of : simpl never.
Arguments IndexMap_swap_remove : simpl never.

(** ** The graph *)

Record Graph (DIRECTED : bool) (N : Type) `{GraphNode N} := mkGraph {
  g_nodes : list (N * list (N * Direction));
  g_edges : gset (N * N)
}.
Arguments mkGraph {DIRECTED N H} _ _.
Arguments g_nodes {DIRECTED N H} _.
Arguments g_edges {DIRECTED N H} _.

Notation DiGraph := (Graph true).
Notation UnGraph := (Graph false).

Section Ops.
Context {DIRECTED : bool} {N : Type} `{GraphNode N}.
Implicit Types (g : Graph DIRECTED N) (a b n x y : N).

Definition Graph_new : Graph DIRECTED N := mkGraph [] ∅.

Definition Graph_edge_key (a b : N) : N * N :=
  if DIRECTED || node_leb a b then (a, b) else (b, a).

Definition Graph_remove_link g x y (dir : Direction) : bool * Graph DIRECTED N :=
  match IndexMap_get (g_nodes g) x with
  | Some links =>
      match position (λ l, bool_decide (l = (y, dir))) links with
      | Some index =>
          (true, mkGraph (IndexMap_entry (g_nodes g) x [] (λ links, swap_remove links index))
                   (g_edges g))
      | None => (false, g)
      end
  | None => (false, g)
  end.

Definition Graph_node_count g : nat := length (g_nodes g).

Definition Graph_edge_count g : nat := size (g_edges g).

Definition Graph_contains_node g n : bool :=
  bool_decide (is_Some (IndexMap_get (g_nodes g) n)).

Definition Graph_contains_edge g a b : bool := bool_decide (Graph_edge_key a b ∈ g_edges g).

Definition Graph_insert_node g n : Graph DIRECTED N :=
  mkGraph (IndexMap_entry (g_nodes g) n [] id) (g_edges g).

(** One turn of the closure in [remove_node]. *)
Definition Graph_unlink (n : N) g (link : N * Direction) : Graph DIRECTED N :=
  let '(to, dir) := link in
  let '(edge, rdir) := if decide (dir = Outgoing) then (Graph_edge_key n to, Incoming)
                       else (Graph_edge_key to n, Outgoing) in
  let '(_, g') := Graph_remove_link g to n rdir in
  mkGraph (g_nodes g') (g_edges g' ∖ {[edge]}).

Definition Graph_remove_node g n : Graph DIRECTED N :=
  match IndexMap_swap_remove (g_nodes g) n with
  | None => g
  | Some (links, m) => foldl (Graph_unlink n) (mkGraph m (g_edges g)) links
  end.

Definition Graph_insert_edge g a b : Graph DIRECTED N :=
  let key := Graph_edge_key a b in
  if decide (key ∈ g_edges g) then g
  else
    let m := IndexMap_entry (g_nodes g) a [] (λ links, links ++ [(b, Outgoing)]) in
    let m' := if decide (a ≠ b) then IndexMap_entry m b [] (λ links, links ++ [(a, Incoming)])
              else m in
    mkGraph m' ({[key]} ∪ g_edges g).

(** The three flags are those of the closing [debug_assert!]. *)
Definition Graph_remove_edge g a b : (bool * bool * bool) * Graph DIRECTED N :=
  let '(ex1, g1) := Graph_remove_link g a b Outgoing in
  let '(ex2, g2) := if decide (a ≠ b) then Graph_remove_link g1 b a Incoming else (ex1, g1) in
  let key := Graph_edge_key a b in
  ((ex1, ex2, bool_decide (key ∈ g_edges g2)), mkGraph (g_nodes g2) (g_edges g2 ∖ {[key]})).

Definition Graph_node_list g : list N := (g_nodes g).*1.

Definition Graph_all_edges `{!HashOrder N} g : list (N * N) := hash_order (g_edges g).

Definition Graph_links g a : list (N * Direction) := default [] (IndexMap_get (g_nodes g) a).

Definition Graph_edge_list g a : list (N * N) :=
  omap (λ '(b, dir), if negb DIRECTED || bool_decide (dir = Outgoing) then Some (a, b) else None)
    (Graph_links g a).

Definition Graph_neighbors g a : list N :=
  omap (λ '(b, dir), if negb DIRECTED || bool_decide (dir = Outgoing) then Some b else None)
    (Graph_links g a).

Definition Graph_edges_directed g a (dir : Direction) : list (N * N) :=
  omap (λ '(b, d), if negb DIRECTED || bool_decide (d = dir) || bool_decide (b = a)
                   then Some (a, b) else None) (Graph_links g a).

Definition Graph_neighbors_directed g a (dir : Direction) : list N :=
  omap (λ '(b, d), if negb DIRECTED || bool_decide (d = dir) || bool_decide (b = a)
                   then Some b else None) (Graph_links g a).

(** [get_index_of(&ix).unwrap()]. *)
Definition Graph_to_index g ix : outcome nat :=
  match IndexMap_index_of (g_nodes g) ix with Some i => Ret i | None => Panic end.

End Ops.

(** ** Index map lemmas *)

Section IndexMapLemmas.
Context {K V : Type} `{EqDecision K}.
Implicit Types (m : list (K * V)) (k : K).

Lemma index_of_Some m k i :
  IndexMap_index_of m k = Some i → ∃ v, m !! i = Some (k, v) ∧
    ∀ j e, j < i → m !! j = Some e → e.1 ≠ k.
Proof.
  intros ([k' v] & Hi & Hk & Hmin)%position_Some. apply bool_decide_eq_true in Hk. cbn in Hk. subst k'.
  exists v. split; [done|]. intros j e Hj He Hek. specialize (Hmin j e Hj He).
  by apply bool_decide_eq_false in Hmin.
Qed.

Lemma index_of_None m k : IndexMap_index_of m k = None ↔ k ∉ m.*1.
Proof.
  split.
  - intros Hn (e & -> & He)%list_elem_of_fmap. apply (position_None _ _ Hn) in He.
    by apply bool_decide_eq_false in He.
  - intros Hk. destruct (IndexMap_index_of m k) as [i|] eqn:E; [|done].
    destruct (index_of_Some _ _ _ E) as (v & Hi & _). destruct Hk.
    apply list_elem_of_fmap. exists (k, v). split; [done|]. by eapply list_elem_of_lookup_2.
Qed.

Lemma get_is_Some m k : is_Some (IndexMap_get m k) ↔ k ∈ m.*1.
Proof.
  unfold IndexMap_get. destruct (IndexMap_index_of m k) as [i|] eqn:E; cbn.
  - destruct (index_of_Some _ _ _ E) as (v & Hi & _). rewrite Hi. cbn. split; [|by eexists].
    intros _. apply list_elem_of_fmap. exists (k, v). split; [done|]. by eapply list_elem_of_lookup_2.
  - apply index_of_None in E. split; [intros [? [=]]|done].
Qed.

Lemma get_None m k : IndexMap_get m k = None ↔ k ∉ m.*1.
Proof. rewrite eq_None_not_Some, get_is_Some. done. Qed.

Lemma get_Some_elem m k v : IndexMap_get m k = Some v → (k, v) ∈ m.
Proof.
  unfold IndexMap_get. destruct (IndexMap_index_of m k) as [i|] eqn:E; cbn; [|done].
  destruct (index_of_Some _ _ _ E) as (v' & Hi & _). rewrite Hi. intros [= <-].
  by eapply list_elem_of_lookup_2.
Qed.

Lemma keys_unique m k v v' : NoDup m.*1 → (k, v) ∈ m → (k, v') ∈ m → v = v'.
Proof.
  induction m as [|[k0 v0] m IH]; cbn; [by intros _ ?%elem_of_nil|].
  intros [Hk Hnd]%NoDup_cons H1 H2. apply elem_of_cons in H1, H2.
  assert (∀ w, (k0, w) ∉ m) as Hfresh.
  { intros w Hw. apply Hk, list_elem_of_fmap. by exists (k0, w). }
  destruct H1 as [H1|H1], H2 as [H2|H2]; [congruence| | |by apply IH].
  - injection H1 as -> ->. by apply Hfresh in H2.
  - injection H2 as -> ->. by apply Hfresh in H1.
Qed.

Lemma get_elem m k v : NoDup m.*1 → IndexMap_get m k = Some v ↔ (k, v) ∈ m.
Proof.
  intros Hnd. split; [apply get_Some_elem|]. intros Hin.
  destruct (proj2 (get_is_Some m k)) as [v' Hv'].
  { apply list_elem_of_fmap. by exists (k, v). }
  rewrite Hv'. f_equal. eapply keys_unique; [done| |done]. by apply get_Some_elem.
Qed.

Lemma entry_keys m k d f :
  (IndexMap_entry m k d f).*1 = if decide (k ∈ m.*1) then m.*1 else m.*1 ++ [k].
Proof.
  unfold IndexMap_entry. destruct (IndexMap_index_of m k) as [i|] eqn:E.
  - rewrite decide_True.
    + apply list_eq. intros j. rewrite !list_lookup_fmap. destruct (decide (j = i)) as [->|].
      * rewrite list_lookup_alter_eq. by destruct (m !! i).
      * by rewrite list_lookup_alter_ne by done.
    + destruct (decide (k ∈ m.*1)) as [|Hn]; [done|]. apply index_of_None in Hn. congruence.
  - apply index_of_None in E. rewrite decide_False by done. by rewrite fmap_app.
Qed.

Lemma entry_NoDup m k d f : NoDup m.*1 → NoDup (IndexMap_entry m k d f).*1.
Proof.
  intros Hnd. rewrite entry_keys. case_decide; [done|].
  apply NoDup_app. split; [done|]. split; [|apply NoDup_singleton].
  intros x Hx ->%list_elem_of_singleton. done.
Qed.

Lemma get_entry m k d f k' :
  NoDup m.*1 →
  IndexMap_get (IndexMap_entry m k d f) k' =
    if decide (k' = k) then Some (f (default d (IndexMap_get m k))) else IndexMap_get m k'.
Proof.
  intros Hnd. apply option_eq. intros v. rewrite get_elem by (by apply entry_NoDup).
  unfold IndexMap_entry, IndexMap_get at 1. destruct (IndexMap_index_of m k) as [i|] eqn:E; cbn.
  - destruct (index_of_Some _ _ _ E) as (v0 & Hi & _). rewrite Hi. cbn.
    assert (Hup : ∀ e, e ∈ alter (λ e, (e.1, f e.2)) i m ↔ e = (k, f v0) ∨ (e ∈ m ∧ e.1 ≠ k)).
    { intros e. rewrite !list_elem_of_lookup. split.
      - intros [j Hj]. destruct (decide (j = i)) as [->|Hne].
        + rewrite list_lookup_alter_eq, Hi in Hj. cbn in Hj. left. congruence.
        + rewrite list_lookup_alter_ne in Hj by done. right. split; [by exists j|]. intros Hk.
          apply Hne. apply (NoDup_lookup m.*1 j i k); [done| |]; rewrite list_lookup_fmap, ?Hj, ?Hi; cbn; congruence.
      - intros [->|[[j Hj] Hk]].
        + exists i. by rewrite list_lookup_alter_eq, Hi.
        + exists j. rewrite list_lookup_alter_ne; [done|]. intros ->. rewrite Hi in Hj. by injection Hj as <-. }
    rewrite Hup. case_decide as Hd; subst; [split; [|left; congruence]|].
    + intros [[= ->]|[_ ?]]; done.
    + rewrite get_elem by done. split; [intros [[= ? ?]|[? _]]; done|right; done].
  - apply index_of_None in E. rewrite elem_of_app, list_elem_of_singleton. case_decide as Hd; subst.
    + split; [|right; congruence]. intros [Hin|[= ->]]; [|done].
      destruct E. apply list_elem_of_fmap. by exists (k, v).
    + rewrite get_elem by done. split; [intros [?|[= ? ?]]; done|left; done].
Qed.

Lemma swap_remove_Some m k :
  NoDup m.*1 →
  match IndexMap_swap_remove m k with
  | None => IndexMap_get m k = None
  | Some (v, m') => IndexMap_get m k = Some v ∧ m ≡ₚ (k, v) :: m' ∧ NoDup m'.*1 ∧
      ∀ k', IndexMap_get m' k' = if decide (k' = k) then None else IndexMap_get m k'
  end.
Proof.
  intros Hnd. unfold IndexMap_swap_remove. destruct (IndexMap_index_of m k) as [i|] eqn:E; cbn.
  - destruct (index_of_Some _ _ _ E) as (v & Hi & _). rewrite Hi. cbn.
    destruct (swap_remove_perm _ _ _ Hi) as [Hp _].
    pose proof Hnd as Hnd'. rewrite Hp in Hnd'. cbn in Hnd'. apply NoDup_cons in Hnd' as [Hk Hnd'].
    split; [|split; [done|split; [done|]]].
    + apply get_elem; [done|]. by eapply list_elem_of_lookup_2.
    + intros k'. case_decide as Hd; subst; [by apply get_None|]. apply option_eq. intros v'.
      rewrite !get_elem by done. generalize dependent (swap_remove m i). intros m' Hp _ _.
      rewrite Hp, elem_of_cons. split; [by right|].
      intros [[= ? ?]|?]; done.
  - apply get_None. by apply index_of_None.
Qed.

End IndexMapLemmas.

(** ** Adjacency lists and the edge set *)

Section Refine.
Context {N : Type} `{GraphNode N}.
Implicit Types (g : DiGraph N) (a b n x y : N).

(** Keys and adjacency lists without repetition. *)
Record graph_shape g : Prop := {
  shape_keys : NoDup (Graph_node_list g);
  shape_links : ∀ a, NoDup (Graph_links g a)
}.

(** The adjacency lists hold exactly the edges of the edge set. *)
Record digraph_wf g : Prop := {
  wf_shape :> graph_shape g;
  wf_out : ∀ a b, (b, Outgoing) ∈ Graph_links g a ↔ (a, b) ∈ g_edges g;
  wf_in : ∀ a b, (a, Incoming) ∈ Graph_links g b ↔ (a, b) ∈ g_edges g ∧ a ≠ b
}.

Lemma edge_key_directed a b : Graph_edge_key (DIRECTED := true) a b = (a, b).
Proof. done. Qed.

Lemma links_is_node g a l : l ∈ Graph_links g a → a ∈ Graph_node_list g.
Proof.
  unfold Graph_links, Graph_node_list. rewrite <- get_is_Some.
  destruct (IndexMap_get (g_nodes g) a); [by eexists|]. cbn. by intros ?%elem_of_nil.
Qed.

Lemma links_entry (m : list (N * list (N * Direction))) (E : gset (N * N)) k f a :
  NoDup m.*1 →
  Graph_links (mkGraph (IndexMap_entry m k [] f) E : DiGraph N) a =
    if decide (a = k) then f (Graph_links (mkGraph m E : DiGraph N) k)
    else Graph_links (mkGraph m E : DiGraph N) a.
Proof.
  intros Hnd. unfold Graph_links. cbn. rewrite get_entry by done. by case_decide.
Qed.

Lemma links_edges_irrel (m : list (N * list (N * Direction))) (E E' : gset (N * N)) a :
  Graph_links (mkGraph m E : DiGraph N) a = Graph_links (mkGraph m E' : DiGraph N) a.
Proof. done. Qed.

Lemma links_eta g a : Graph_links (mkGraph (g_nodes g) (g_edges g) : DiGraph N) a = Graph_links g a.
Proof. done. Qed.

Lemma entry_same_keys g k f : k ∈ Graph_node_list g →
  (IndexMap_entry (g_nodes g) k [] f).*1 = Graph_node_list g.
Proof. intros Hk. rewrite entry_keys. by rewrite decide_True. Qed.

Lemma remove_link_spec g x y dir :
  graph_shape g →
  let r := Graph_remove_link g x y dir in
  r.1 = bool_decide ((y, dir) ∈ Graph_links g x) ∧ graph_shape r.2 ∧
  Graph_node_list r.2 = Graph_node_list g ∧ g_edges r.2 = g_edges g ∧
  ∀ z l, l ∈ Graph_links r.2 z ↔ l ∈ Graph_links g z ∧ ¬ (z = x ∧ l = (y, dir)).
Proof.
  intros [Hk Hl]. unfold Graph_remove_link.
  destruct (IndexMap_get (g_nodes g) x) as [links|] eqn:Eg.
  - assert (Hlx : Graph_links g x = links) by (unfold Graph_links; by rewrite Eg).
    destruct (position _ links) as [index|] eqn:Ep; cbn zeta.
    + destruct (position_Some _ _ _ Ep) as (l0 & Hi & Hb & _). apply bool_decide_eq_true in Hb. subst l0.
      destruct (swap_remove_perm _ _ _ Hi) as [Hp _].
      assert (Hnode : x ∈ Graph_node_list g).
      { apply (links_is_node g x (y, dir)). rewrite Hlx. by eapply list_elem_of_lookup_2. }
      assert (Hnd : NoDup ((y, dir) :: swap_remove links index)).
      { rewrite <- Hp, <- Hlx. apply Hl. }
      apply NoDup_cons in Hnd as [Hnew Hnd].
      assert (Hlinks : ∀ z, Graph_links (mkGraph (IndexMap_entry (g_nodes g) x [] (λ links, swap_remove links index))
                   (g_edges g) : DiGraph N) z = if decide (z = x) then swap_remove links index else Graph_links g z).
      { intros z. rewrite links_entry by done. rewrite links_eta, Hlx. done. }
      cbn [fst snd]. split; [|split; [|split; [|split]]]; [| | |done|].
      * symmetry. apply bool_decide_eq_true. rewrite Hlx. by eapply list_elem_of_lookup_2.
      * split; [unfold Graph_node_list; cbn; by apply entry_NoDup|].
        intros a. rewrite Hlinks. case_decide; [done|apply Hl].
      * by apply entry_same_keys.
      * intros z l. rewrite Hlinks. case_decide as Hz; subst; [|naive_solver].
        generalize dependent (swap_remove (Graph_links g x) index). intros rest Hp _ _ Hnew.
        rewrite Hp, elem_of_cons. split; [|naive_solver]. intros Hin. split; [by right|].
        by intros [_ ->].
    + cbn [fst snd]. assert (Hn : (y, dir) ∉ links).
      { intros Hin. apply (position_None _ _ Ep) in Hin. by apply bool_decide_eq_false in Hin. }
      split; [symmetry; apply bool_decide_eq_false; by rewrite Hlx|].
      split; [done|]. split; [done|]. split; [done|]. intros z l. split; [|tauto].
      intros Hin. split; [done|]. intros [-> ->]. by rewrite Hlx in Hin.
  - assert (Hlx : Graph_links g x = []) by (unfold Graph_links; by rewrite Eg).
    cbn [fst snd]. split; [symmetry; apply bool_decide_eq_false; rewrite Hlx; apply not_elem_of_nil|].
    split; [done|]. split; [done|]. split; [done|]. intros z l. split; [|tauto].
    intros Hin. split; [done|]. intros [-> ->]. rewrite Hlx in Hin. by apply elem_of_nil in Hin.
Qed.

(** A turn of [remove_node] takes the mirrored link and the edge. *)
Lemma unlink_spec n g to dir :
  graph_shape g →
  let g' := Graph_unlink n g (to, dir) in
  graph_shape g' ∧ Graph_node_list g' = Graph_node_list g ∧
  g_edges g' = g_edges g ∖ {[ if decide (dir = Outgoing) then (n, to) else (to, n) ]} ∧
  ∀ z l, l ∈ Graph_links g' z ↔ l ∈ Graph_links g z ∧ ¬ (z = to ∧ l = (n, Direction_opposite dir)).
Proof.
  intros Hs. unfold Graph_unlink.
  destruct dir; cbn [decide]; [rewrite !(decide_True (P := Outgoing = Outgoing)) by done
                              |rewrite !(decide_False (P := Incoming = Outgoing)) by done].
  - pose proof (remove_link_spec g to n Incoming Hs) as (_ & [Hk Hl] & Hn & He & Hlk).
    destruct (Graph_remove_link g to n Incoming) as [b g1]. cbn in *.
    split; [by split|]. rewrite He. done.
  - pose proof (remove_link_spec g to n Outgoing Hs) as (_ & [Hk Hl] & Hn & He & Hlk).
    destruct (Graph_remove_link g to n Outgoing) as [b g1]. cbn in *.
    split; [by split|]. rewrite He. done.
Qed.

(** The edge a link of [n] stands for. *)
Definition link_edge n (l : N * Direction) : N * N :=
  if decide (l.2 = Outgoing) then (n, l.1) else (l.1, n).

Lemma unlink_all n ls : ∀ g,
  graph_shape g →
  let g' := foldl (Graph_unlink n) g ls in
  graph_shape g' ∧ Graph_node_list g' = Graph_node_list g ∧
  g_edges g' = g_edges g ∖ list_to_set (link_edge n <$> ls) ∧
  ∀ z l, l ∈ Graph_links g' z ↔
         l ∈ Graph_links g z ∧ ¬ ∃ d, (z, d) ∈ ls ∧ l = (n, Direction_opposite d).
Proof.
  induction ls as [|[to dir] ls IH]; intros g Hs; cbn [foldl].
  - cbn. split; [done|]. split; [done|]. split; [set_solver|]. intros z l. split; [|tauto].
    intros ?. split; [done|]. by intros (d & ?%elem_of_nil & _).
  - destruct (unlink_spec n g to dir Hs) as (Hs1 & Hn1 & He1 & Hl1).
    destruct (IH _ Hs1) as (Hs2 & Hn2 & He2 & Hl2). cbn zeta in *.
    split; [done|]. split; [congruence|]. split.
    + rewrite He2, He1. cbn. unfold link_edge at 2. cbn. set_solver.
    + intros z l. rewrite Hl2, Hl1. split.
      * intros [[Hin H1] H2]. split; [done|]. intros (d & [[= -> ->]|Hd]%elem_of_cons & ->); [by apply H1|].
        apply H2. by exists d.
      * intros [Hin H1]. split; [split; [done|]|].
        -- intros [-> ->]. apply H1. exists dir. split; [apply list_elem_of_here|done].
        -- intros (d & Hd & ->). apply H1. exists d. split; [by apply list_elem_of_further|done].
Qed.

(** ** What each operation does *)

(** The abstract graph: its vertices and its edges. *)
Definition vertices g : gset N := list_to_set (Graph_node_list g).

Lemma elem_of_vertices g a : a ∈ vertices g ↔ a ∈ Graph_node_list g.
Proof. apply elem_of_list_to_set. Qed.

Lemma edge_vertices g a b : digraph_wf g → (a, b) ∈ g_edges g → a ∈ vertices g ∧ b ∈ vertices g.
Proof.
  intros Hwf He. rewrite !elem_of_vertices. pose proof He as Hl. apply (wf_out g Hwf) in Hl.
  split; [by eapply links_is_node|]. destruct (decide (a = b)) as [->|]; [by eapply links_is_node|].
  eapply links_is_node. by apply (wf_in g Hwf).
Qed.

Lemma new_wf : digraph_wf Graph_new ∧ vertices Graph_new = ∅ ∧ g_edges (N := N) (DIRECTED := true) Graph_new = ∅.
Proof.
  split; [|done]. assert (Hl : ∀ a, Graph_links (Graph_new : DiGraph N) a = []) by done.
  split; [split; [constructor|intros a; rewrite Hl; constructor]| |];
    intros a b; rewrite Hl; cbn; set_solver.
Qed.

Lemma entry_vertices g (k : N) (f : list (N * Direction) → list (N * Direction)) (E : gset (N * N)) :
  vertices (mkGraph (IndexMap_entry (g_nodes g) k [] f) E) = vertices g ∪ {[k]}.
Proof.
  apply set_eq. intros x. rewrite elem_of_union, elem_of_singleton, !elem_of_vertices.
  unfold Graph_node_list. cbn. rewrite entry_keys.
  case_decide; [|rewrite elem_of_app, list_elem_of_singleton; tauto]. split; [by left|]. by intros [?| ->].
Qed.

Lemma insert_node_spec g n :
  digraph_wf g →
  digraph_wf (Graph_insert_node g n) ∧ vertices (Graph_insert_node g n) = vertices g ∪ {[n]} ∧
  g_edges (Graph_insert_node g n) = g_edges g.
Proof.
  intros [[Hk Hl] Ho Hi]. unfold Graph_insert_node.
  assert (Hsame : ∀ a, Graph_links (mkGraph (IndexMap_entry (g_nodes g) n [] id) (g_edges g) : DiGraph N) a
                       = Graph_links g a).
  { intros a. rewrite links_entry by done. case_decide; by subst. }
  split; [|split; [apply entry_vertices|done]].
  split; [split|..]; [unfold Graph_node_list; cbn; by apply entry_NoDup| | |];
    setoid_rewrite Hsame; done.
Qed.

Lemma insert_edge_spec g a b :
  digraph_wf g →
  digraph_wf (Graph_insert_edge g a b) ∧
  vertices (Graph_insert_edge g a b) = vertices g ∪ {[a; b]} ∧
  g_edges (Graph_insert_edge g a b) = g_edges g ∪ {[(a, b)]}.
Proof.
  intros Hwf. unfold Graph_insert_edge. rewrite edge_key_directed. case_decide as Hin.
  { pose proof (edge_vertices g a b Hwf Hin). split; [done|]. set_solver. }
  destruct Hwf as [[Hk Hl] Ho Hi].
  set (m := IndexMap_entry (g_nodes g) a [] (λ links, links ++ [(b, Outgoing)])).
  set (m' := if decide (a ≠ b) then IndexMap_entry m b [] (λ links, links ++ [(a, Incoming)]) else m).
  set (g' := mkGraph m' ({[(a, b)]} ∪ g_edges g) : DiGraph N).
  assert (Hm : NoDup m.*1) by (by apply entry_NoDup).
  assert (Hlinks : ∀ x, Graph_links g' x =
    Graph_links g x ++ (if decide (x = a) then [(b, Outgoing)] else [])
                    ++ (if decide (x = b ∧ a ≠ b) then [(a, Incoming)] else [])).
  { intros x. unfold g', m'. destruct (decide (a ≠ b)) as [Hne|Heq].
    - rewrite links_entry by done. unfold m. rewrite !links_entry by done.
      rewrite !(links_edges_irrel (g_nodes g) ({[(a, b)]} ∪ g_edges g) (g_edges g)), !links_eta.
      repeat case_decide; subst; try tauto; cbn [app]; rewrite ?app_nil_r; done.
    - unfold m. rewrite links_entry by done.
      rewrite !(links_edges_irrel (g_nodes g) ({[(a, b)]} ∪ g_edges g) (g_edges g)), !links_eta.
      repeat case_decide; subst; try tauto; cbn [app]; rewrite ?app_nil_r; done. }
  split; [|split].
  - split; [split|..].
    + unfold g', m', Graph_node_list. destruct (decide (a ≠ b)); cbn [g_nodes]; [by apply entry_NoDup|exact Hm].
    + intros x. rewrite Hlinks. apply NoDup_app. split; [apply Hl|]. split.
      * intros l Hlx. rewrite elem_of_app. specialize (Ho a b). specialize (Hi a b).
        repeat case_decide; rewrite ?list_elem_of_singleton, ?elem_of_nil; naive_solver.
      * repeat case_decide; cbn; repeat constructor; set_solver.
    + intros x y. rewrite Hlinks, !elem_of_app, Ho. unfold g'. cbn.
      repeat case_decide; rewrite ?list_elem_of_singleton, ?elem_of_nil, elem_of_union, elem_of_singleton; naive_solver.
    + intros x y. rewrite Hlinks, !elem_of_app, Hi. unfold g'. cbn.
      repeat case_decide; rewrite ?list_elem_of_singleton, ?elem_of_nil, elem_of_union, elem_of_singleton; naive_solver.
  - unfold g', m'. destruct (decide (a ≠ b)) as [Hab|Hab].
    + etrans; [apply (entry_vertices (mkGraph m ∅))|]. unfold m. rewrite entry_vertices. set_solver.
    + apply dec_stable in Hab. unfold m. rewrite entry_vertices. set_solver.
  - unfold g'. cbn. set_solver.
Qed.

Lemma remove_edge_spec g a b :
  digraph_wf g →
  let r := Graph_remove_edge g a b in
  (∃ e, r.1 = (e, e, e) ∧ e = bool_decide ((a, b) ∈ g_edges g)) ∧
  digraph_wf r.2 ∧ vertices r.2 = vertices g ∧ g_edges r.2 = g_edges g ∖ {[(a, b)]}.
Proof.
  intros [Hs Ho Hi]. unfold Graph_remove_edge. rewrite edge_key_directed.
  destruct (remove_link_spec g a b Outgoing Hs) as (Hb1 & Hs1 & Hn1 & He1 & Hl1).
  destruct (Graph_remove_link g a b Outgoing) as [e1 g1]. cbn [fst snd] in *.
  assert (e1 = bool_decide ((a, b) ∈ g_edges g)) as Ee1.
  { rewrite Hb1. apply bool_decide_ext, Ho. }
  destruct (decide (a ≠ b)) as [Hab|Hab].
  - destruct (remove_link_spec g1 b a Incoming Hs1) as (Hb2 & Hs2 & Hn2 & He2 & Hl2).
    destruct (Graph_remove_link g1 b a Incoming) as [e2 g2]. cbn [fst snd] in *.
    assert (e2 = bool_decide ((a, b) ∈ g_edges g)) as Ee2.
    { rewrite Hb2. apply bool_decide_ext. rewrite Hl1, Hi. naive_solver. }
    split; [exists e1; rewrite He2, He1; split; [congruence|done]|]. split; [|split].
    + destruct Hs2 as [Hk2 Hnd2]. split; [by split|..]; intros x y; cbn; rewrite He2, He1.
      * change (Graph_links _ x) with (Graph_links g2 x). rewrite Hl2, Hl1, Ho. set_solver.
      * change (Graph_links _ y) with (Graph_links g2 y). rewrite Hl2, Hl1, Hi. set_solver.
    + unfold vertices. change (Graph_node_list _) with (Graph_node_list g2) at 1. by rewrite Hn2, Hn1.
    + cbn. by rewrite He2, He1.
  - apply dec_stable in Hab. subst b. cbn [fst snd].
    split; [exists e1; rewrite He1; split; [congruence|done]|]. split; [|split].
    + destruct Hs1 as [Hk1 Hnd1]. split; [by split|..]; intros x y; cbn; rewrite He1.
      * change (Graph_links _ x) with (Graph_links g1 x). rewrite Hl1, Ho. set_solver.
      * change (Graph_links _ y) with (Graph_links g1 y). rewrite Hl1, Hi. set_solver.
    + unfold vertices. change (Graph_node_list _) with (Graph_node_list g1) at 1. by rewrite Hn1.
    + cbn. by rewrite He1.
Qed.

Lemma remove_node_spec g n :
  digraph_wf g →
  digraph_wf (Graph_remove_node g n) ∧ vertices (Graph_remove_node g n) = vertices g ∖ {[n]} ∧
  g_edges (Graph_remove_node g n) = filter (λ e, e.1 ≠ n ∧ e.2 ≠ n) (g_edges g).
Proof.
  intros Hwf. pose proof Hwf as [[Hk Hl] Ho Hi]. unfold Graph_remove_node.
  pose proof (swap_remove_Some (g_nodes g) n Hk) as Hsr.
  destruct (IndexMap_swap_remove (g_nodes g) n) as [[links m]|].
  - destruct Hsr as (Hg & Hp & Hndm & Hgm).
    assert (Hlx : Graph_links g n = links) by (unfold Graph_links; by rewrite Hg).
    assert (Hlm : ∀ z, Graph_links (mkGraph m (g_edges g) : DiGraph N) z = if decide (z = n) then [] else Graph_links g z).
    { intros z. unfold Graph_links. cbn. rewrite Hgm. by case_decide. }
    destruct (unlink_all n links (mkGraph m (g_edges g))) as (Hs2 & Hn2 & He2 & Hl2).
    { split; [done|]. intros z. rewrite Hlm. case_decide; [constructor|apply Hl]. }
    cbn zeta in *. set (g2 := foldl _ _ _) in *.
    assert (He : g_edges g2 = filter (λ e, e.1 ≠ n ∧ e.2 ≠ n) (g_edges g)).
    { rewrite He2. cbn. apply set_eq. intros [x y]. rewrite elem_of_difference, elem_of_filter, elem_of_list_to_set.
      cbn. rewrite list_elem_of_fmap. subst links. split.
      - intros [Hin Hnot]. split; [|done]. split; intros ->; apply Hnot.
        + exists (y, Outgoing). split; [done|]. by apply Ho.
        + destruct (decide (x = n)) as [->|]; [exists (n, Outgoing); split; [done|by apply Ho]|].
          exists (x, Incoming). split; [done|]. by apply Hi.
      - intros [[Hx Hy] Hin]. split; [done|]. intros ([to []] & E & _); injection E as -> ->; done. }
    assert (Hlinks : ∀ z l, l ∈ Graph_links g2 z ↔ z ≠ n ∧ l ∈ Graph_links g z ∧ l.1 ≠ n).
    { intros z l. rewrite Hl2, Hlm. subst links. case_decide as Hz; [rewrite elem_of_nil; tauto|].
      split.
      - intros [Hin Hnot]. split; [done|]. split; [done|]. intros Hln. destruct l as [t d]. cbn in Hln. subst t.
        apply Hnot. exists (Direction_opposite d). split; [|by destruct d].
        destruct d; cbn; [apply Hi; split; [by apply Ho|done]|]. apply Hi in Hin as [Hin _]. by apply Ho.
      - intros (_ & Hin & Hln). split; [done|]. intros (d & _ & ->). done. }
    split; [|split; [|done]].
    + split; [done|..]; intros x y; rewrite Hlinks, He, elem_of_filter; cbn; rewrite ?Ho, ?Hi; tauto.
    + unfold vertices. rewrite Hn2. unfold Graph_node_list. cbn. apply set_eq. intros x.
      rewrite elem_of_difference, elem_of_singleton, !elem_of_list_to_set. rewrite <- !get_is_Some, Hgm.
      case_decide; [|tauto]. split; [by intros [? ?]|tauto].
  - apply get_None in Hsr. split; [done|].
    assert (n ∉ vertices g) as Hnv by (by rewrite elem_of_vertices). split; [set_solver|].
    apply set_eq. intros [x y]. rewrite elem_of_filter. cbn. split; [|tauto]. intros He. split; [|done].
    destruct (edge_vertices g x y Hwf He). split; by intros ->.
Qed.

Lemma neighbors_spec g a b : digraph_wf g → b ∈ Graph_neighbors g a ↔ (a, b) ∈ g_edges g.
Proof.
  intros Hwf. rewrite <- (wf_out g Hwf). unfold Graph_neighbors. rewrite list_elem_of_omap. split.
  - intros ([b' d] & Hin & E). cbn in E. case_bool_decide; [|done]. by simplify_eq.
  - intros Hin. by exists (b, Outgoing).
Qed.

Lemma neighbors_NoDup g a : digraph_wf g → NoDup (Graph_neighbors g a).
Proof.
  intros Hwf. pose proof (shape_links g Hwf a) as Hnd. unfold Graph_neighbors.
  induction Hnd as [|[b d] l Hn Hnd IH]; cbn; [constructor|]. case_bool_decide; [|done]. subst.
  constructor; [|done]. rewrite list_elem_of_omap. intros ([b' d'] & Hin & E). cbn in E.
  case_bool_decide; [|done]. by simplify_eq.
Qed.

Lemma neighbors_in_spec g a b :
  digraph_wf g → b ∈ Graph_neighbors_directed g a Incoming ↔ (b, a) ∈ g_edges g.
Proof.
  intros Hwf. unfold Graph_neighbors_directed. rewrite list_elem_of_omap. split.
  - intros ([b' d] & Hin & E). destruct (decide (b' = a)) as [->|Hne].
    + assert (b = a) as -> by (rewrite (bool_decide_eq_true_2 (a = a)), orb_true_r in E by done; congruence).
      destruct d; [by apply (wf_out g Hwf)|]. by apply (wf_in g Hwf) in Hin as [? _].
    + rewrite (bool_decide_eq_false_2 (b' = a)), orb_false_r in E by done. destruct d; [done|].
      rewrite bool_decide_eq_true_2 in E by done. cbn in E. injection E as ->. by apply (wf_in g Hwf) in Hin as [? _].
  - intros He. destruct (decide (b = a)) as [->|Hne].
    + exists (a, Outgoing). split; [by apply (wf_out g Hwf)|]. rewrite (bool_decide_eq_true_2 (a = a)) by done. by rewrite orb_true_r.
    + exists (b, Incoming). split; [by apply (wf_in g Hwf)|]. done.
Qed.

End Refine.

(** ** Histories *)

Inductive graph_op (N : Type) :=
| InsertNode (n : N)
| RemoveNode (n : N)
| InsertEdge (a b : N)
| RemoveEdge (a b : N).
Arguments InsertNode {N} n.
Arguments RemoveNode {N} n.
Arguments InsertEdge {N} a b.
Arguments RemoveEdge {N} a b.

Section History.
Context {N : Type} `{GraphNode N}.

Definition run_op (g : DiGraph N) (o : graph_op N) : DiGraph N :=
  match o with
  | InsertNode n => Graph_insert_node g n
  | RemoveNode n => Graph_remove_node g n
  | InsertEdge a b => Graph_insert_edge g a b
  | RemoveEdge a b => (Graph_remove_edge g a b).2
  end.

(** The same operations on a set of vertices and a set of edges. *)
Definition abs_op (VE : gset N * gset (N * N)) (o : graph_op N) : gset N * gset (N * N) :=
  let '(V, E) := VE in
  match o with
  | InsertNode n => (V ∪ {[n]}, E)
  | RemoveNode n => (V ∖ {[n]}, filter (λ e, e.1 ≠ n ∧ e.2 ≠ n) E)
  | InsertEdge a b => (V ∪ {[a; b]}, E ∪ {[(a, b)]})
  | RemoveEdge a b => (V, E ∖ {[(a, b)]})
  end.

Lemma run_op_abs (g : DiGraph N) o :
  digraph_wf g →
  digraph_wf (run_op g o) ∧
  (vertices (run_op g o), g_edges (run_op g o)) = abs_op (vertices g, g_edges g) o.
Proof.
  intros Hwf. destruct o as [n|n|a b|a b]; cbn [run_op abs_op].
  - destruct (insert_node_spec g n Hwf) as (? & -> & ->). done.
  - destruct (remove_node_spec g n Hwf) as (? & -> & ->). done.
  - destruct (insert_edge_spec g a b Hwf) as (? & -> & ->). done.
  - destruct (remove_edge_spec g a b Hwf) as (_ & ? & -> & ->). done.
Qed.

Lemma run_ops_abs ops : ∀ g : DiGraph N,
  digraph_wf g →
  digraph_wf (foldl run_op g ops) ∧
  (vertices (foldl run_op g ops), g_edges (foldl run_op g ops)) =
    foldl abs_op (vertices g, g_edges g) ops.
Proof.
  induction ops as [|o ops IH]; intros g Hwf; cbn [foldl]; [done|].
  destruct (run_op_abs g o Hwf) as [Hwf' <-]. by apply IH.
Qed.

Lemma node_count_spec (g : DiGraph N) : digraph_wf g → Graph_node_count g = size (vertices g).
Proof.
  intros [[Hk _] _ _]. unfold vertices. rewrite size_list_to_set by done.
  unfold Graph_node_list, Graph_node_count. by rewrite length_fmap.
Qed.

Lemma contains_node_spec (g : DiGraph N) a : Graph_contains_node g a = bool_decide (a ∈ vertices g).
Proof. apply bool_decide_ext. rewrite elem_of_vertices, get_is_Some. done. Qed.

(** C20: A directed graph refines a vertex set with an edge set.  After any
    sequence of node and edge insertions and removals, the keys of the index
    map are the vertices of the abstract history, the hash set is its edge set,
    and the adjacency lists agree with it: [neighbors] lists every successor
    exactly once, [neighbors_directed] the predecessors, the membership tests
    and counts are those of the sets, and the flags [remove_edge] compares in
    its assertion are all "the edge was there". *)
Theorem digraph_refines (ops : list (graph_op N)) :
  let g := foldl run_op Graph_new ops in
  let '(V, E) := foldl abs_op (∅, ∅) ops in
  vertices g = V ∧ g_edges g = E ∧ NoDup (Graph_node_list g) ∧
  Graph_node_count g = size V ∧ Graph_edge_count g = size E ∧
  ∀ a b,
    (Graph_contains_node g a = true ↔ a ∈ V) ∧
    (Graph_contains_edge g a b = true ↔ (a, b) ∈ E) ∧
    ((a, b) ∈ E → a ∈ V ∧ b ∈ V) ∧
    NoDup (Graph_neighbors g a) ∧
    (b ∈ Graph_neighbors g a ↔ (a, b) ∈ E) ∧
    (b ∈ Graph_neighbors_directed g a Incoming ↔ (b, a) ∈ E) ∧
    (∃ e, (Graph_remove_edge g a b).1 = (e, e, e) ∧ e = bool_decide ((a, b) ∈ E)).
Proof.
  destruct (new_wf (N := N)) as (Hwf0 & HV0 & HE0).
  destruct (run_ops_abs ops Graph_new Hwf0) as [Hwf Habs]. rewrite HV0, HE0 in Habs.
  intros g. fold g in Hwf, Habs. destruct (foldl abs_op (∅, ∅) ops) as [V E]. injection Habs as HV HE.
  subst V E. split; [done|]. split; [done|]. split; [apply Hwf|].
  split; [by apply node_count_spec|]. split; [done|]. intros a b.
  rewrite contains_node_spec, bool_decide_eq_true. split; [done|].
  split; [apply bool_decide_eq_true|]. split; [by apply edge_vertices|].
  split; [by apply neighbors_NoDup|]. split; [by apply neighbors_spec|].
  split; [by apply neighbors_in_spec|]. by destruct (remove_edge_spec g a b Hwf) as [? _].
Qed.

(** Removing an undirected edge from the end it was not inserted from.
    [remove_edge] looks for an outgoing link at its first argument, and the
    links of an undirected edge keep the direction of insertion: the edge leaves
    the edge set, both links stay, the three flags of the assertion disagree,
    and [neighbors] still reports the removed edge at both ends. *)
Theorem ungraph_remove_edge_stale (a b : N) :
  a ≠ b →
  let g := Graph_insert_edge (Graph_new : UnGraph N) a b in
  let '(flags, g') := Graph_remove_edge g b a in
  flags = (false, false, true) ∧ g_edges g' = ∅ ∧
  b ∈ Graph_neighbors g' a ∧ a ∈ Graph_neighbors g' b.
Proof.
  intros Hab. assert (b ≠ a) as Hba by done.
  assert (Hkey : Graph_edge_key (DIRECTED := false) b a = Graph_edge_key (DIRECTED := false) a b).
  { unfold Graph_edge_key. cbn. destruct (node_leb a b) eqn:E1, (node_leb b a) eqn:E2; try done.
    - by destruct Hab; apply node_leb_antisym.
    - destruct (node_leb_total a b); congruence. }
  assert (Hg : Graph_insert_edge (Graph_new : UnGraph N) a b =
               mkGraph [(a, [(b, Outgoing)]); (b, [(a, Incoming)])] {[Graph_edge_key (DIRECTED := false) a b]}).
  { unfold Graph_insert_edge. rewrite decide_False by (cbn; set_solver). rewrite decide_True by done.
    f_equal; [|cbn; by rewrite union_empty_r_L].
    unfold IndexMap_entry, IndexMap_index_of. cbn. rewrite bool_decide_eq_false_2 by done. done. }
  cbn zeta. rewrite Hg. unfold Graph_remove_edge, Graph_remove_link at 1.
  unfold IndexMap_get, IndexMap_index_of. cbn.
  rewrite (bool_decide_eq_false_2 (a = b)), (bool_decide_eq_true_2 (b = b)) by done. cbn.
  rewrite bool_decide_eq_false_2 by congruence. cbn. rewrite decide_True by done.
  unfold Graph_remove_link, IndexMap_get, IndexMap_index_of. cbn.
  rewrite (bool_decide_eq_true_2 (a = a)) by done. cbn. rewrite bool_decide_eq_false_2 by congruence. cbn.
  rewrite Hkey. rewrite bool_decide_eq_true_2 by set_solver. split; [done|]. split; [set_solver|].
  unfold Graph_neighbors, Graph_links, IndexMap_get, IndexMap_index_of. cbn.
  rewrite (bool_decide_eq_false_2 (a = b)), (bool_decide_eq_true_2 (a = a)), (bool_decide_eq_true_2 (b = b)) by done.
  cbn. rewrite !list_elem_of_singleton. done.
Qed.

End History.

Lemma ungraph_remove_edge_stale_witness :
  1 ≠ 2 ∧ 2 ∈ Graph_neighbors (Graph_remove_edge (Graph_insert_edge (Graph_new : UnGraph nat) 1 2) 2 1).2 1.
Proof.
  assert (H12 : 1 ≠ 2) by lia. split; [done|].
  pose proof (ungraph_remove_edge_stale 1 2 H12) as Hs. cbn zeta in Hs.
  destruct (Graph_remove_edge _ 2 1) as [flags g']. cbn. apply Hs.
Defined.
