(* ===== verification/Scc.v ===== *)
(** * Strongly connected components

    [crates/voker-ecs/src/schedule/graph/scc.rs]: [TarjanScc], an iterator over
    the strongly connected components of a directed graph, one per [next_scc],
    with an explicit visitation stack and with low-link indices that are handed
    back when a component is complete.

    The visitation stack is a list with its top first, the component stack a
    list with its top last (its tail is the returned slice).  [usize] is 64 bits
    wide, [Option<NonZeroUsize>] an [option Z].  The two nested loops of
    [next_scc] are one recursion with fuel; [TarjanScc_fuel] is the measure that
    bounds it, and [Undefined] marks an exhausted fuel. *)

From Stdlib Require Import ZArith Lia.
From S2P Require Import Prelude Graph.

Section Tarjan.
Context {N : Type} `{GraphNode N}.

Record NodeData := mkNode {
  nd_root : option Z;
  nd_pending : option N;
  nd_neighbors : list N
}.

Record TarjanScc := mkTarjan {
  t_unchecked : list N;
  t_nodes : list NodeData;
  t_dfs_index : Z;
  t_scc_index : Z;
  t_stack : list N;
  t_visitation : list (N * bool);
  t_scc_start : option nat;
  t_scc_len : option Z
}.

Definition set_root (r : option Z) (d : NodeData) : NodeData := mkNode r (nd_pending d) (nd_neighbors d).
Definition set_pending (p : option N) (d : NodeData) : NodeData := mkNode (nd_root d) p (nd_neighbors d).
Definition set_neighbors (l : list N) (d : NodeData) : NodeData := mkNode (nd_root d) (nd_pending d) l.

Definition NonZeroUsize_new (x : Z) : option Z := if (x =? 0)%Z then None else Some x.

(** [Option<NonZeroUsize>: PartialOrd]: [None] is the least value. *)
Definition root_ltb (a b : option Z) : bool :=
  match a, b with
  | Some x, Some y => (x <? y)%Z
  | None, Some _ => true
  | _, None => false
  end.

Section Graph.
Variable graph : DiGraph N.

Definition new_tarjan_scc : TarjanScc :=
  mkTarjan (Graph_node_list graph)
    ((λ node, mkNode None None (Graph_neighbors graph node)) <$> Graph_node_list graph)
    1 u64_max [] [] None None.

(** [self.nodes[self.graph.to_index(v)]], read and updated. *)
Definition node_data (nodes : list NodeData) (v : N) : outcome NodeData :=
  i ← Graph_to_index graph v;
  match nodes !! i with Some d => Ret d | None => Panic end.

Definition node_modify (nodes : list NodeData) (v : N) (f : NodeData → NodeData) : outcome (list NodeData) :=
  i ← Graph_to_index graph v;
  match nodes !! i with Some d => Ret (<[i := f d]> nodes) | None => Panic end.

(** [if root(v) > root(w) { root(v) = root(w); v_is_local_root = false; }]. *)
Definition lower_root (nodes : list NodeData) (v w : N) (flag : bool) : outcome (list NodeData * bool) :=
  dv ← node_data nodes v;
  dw ← node_data nodes w;
  if root_ltb (nd_root dw) (nd_root dv)
  then nodes' ← node_modify nodes v (set_root (nd_root dw)); Ret (nodes', false)
  else Ret (nodes, flag).

(** The [while let Some(w) = neighbors.next()] loop; a returned node is the
    unvisited neighbor the visit was interrupted for. *)
Fixpoint visit_neighbors (ns : list N) (nodes : list NodeData) (v : N) (flag : bool)
    : outcome (list NodeData * bool * option N) :=
  match ns with
  | [] => Ret (nodes, flag, None)
  | w :: ns' =>
      nodes1 ← node_modify nodes v (set_neighbors ns');
      dw ← node_data nodes1 w;
      match nd_root dw with
      | None => nodes2 ← node_modify nodes1 v (set_pending (Some w)); Ret (nodes2, flag, Some w)
      | Some _ => '(nodes2, flag') ← lower_root nodes1 v w flag; visit_neighbors ns' nodes2 v flag'
      end
  end.

(** The [rposition] over the stack, from its top: the start of the component,
    with the roots of its members set to [scc_id]. *)
Fixpoint scc_scan (rstack : list N) (nodes : list NodeData) (v : N) (scc_id : option Z) (scc_len : Z)
    : outcome (nat * list NodeData * Z) :=
  match rstack with
  | [] => Ret (0, nodes, scc_len)
  | w :: below =>
      dw ← node_data nodes w;
      dv ← node_data nodes v;
      if root_ltb (nd_root dw) (nd_root dv) then Ret (length rstack, nodes, scc_len)
      else nodes' ← node_modify nodes w (set_root scc_id);
           scc_scan below nodes' v scc_id (wadd64 scc_len 1)
  end.

(** The index of a node that is visited for the first time. *)
Definition visit_begin (nodes : list NodeData) (dfs_index : Z) (v : N) : outcome (list NodeData * Z) :=
  dv ← node_data nodes v;
  match nd_root dv with
  | None => nodes ← node_modify nodes v (set_root (NonZeroUsize_new dfs_index));
            Ret (nodes, wadd64 dfs_index 1)
  | Some _ => Ret (nodes, dfs_index)
  end.

(** The child the visit was interrupted for. *)
Definition visit_pending (nodes : list NodeData) (v : N) (flag : bool) : outcome (list NodeData * bool) :=
  dv ← node_data nodes v;
  match nd_pending dv with
  | Some w => nodes ← node_modify nodes v (set_pending None); lower_root nodes v w flag
  | None => Ret (nodes, flag)
  end.

Definition visit_once (self : TarjanScc) (v : N) (flag : bool) : outcome (option nat * TarjanScc) :=
  '(nodes, dfs) ← visit_begin (t_nodes self) (t_dfs_index self) v;
  '(nodes, flag) ← visit_pending nodes v flag;
  dv ← node_data nodes v;
  '(nodes, flag, child) ← visit_neighbors (nd_neighbors dv) nodes v flag;
  match child with
  | Some w =>
      Ret (None, mkTarjan (t_unchecked self) nodes dfs (t_scc_index self) (t_stack self)
                   ((w, true) :: (v, flag) :: t_visitation self) (t_scc_start self) (t_scc_len self))
  | None =>
      if negb flag then
        Ret (None, mkTarjan (t_unchecked self) nodes dfs (t_scc_index self) (t_stack self ++ [v])
                     (t_visitation self) (t_scc_start self) (t_scc_len self))
      else
        let scc_id := NonZeroUsize_new (t_scc_index self) in
        '(start, nodes, len) ← scc_scan (reverse (t_stack self)) nodes v scc_id 1;
        nodes ← node_modify nodes v (set_root scc_id);
        Ret (Some start, mkTarjan (t_unchecked self) nodes dfs (t_scc_index self) (t_stack self ++ [v])
                           (t_visitation self) (Some start) (Some len))
  end.

(** The inner [loop]: skip visited nodes. *)
Fixpoint next_unvisited (unchecked : list N) (nodes : list NodeData) : outcome (option N * list N) :=
  match unchecked with
  | [] => Ret (None, [])
  | node :: rest =>
      d ← node_data nodes node;
      match nd_root d with
      | None => Ret (Some node, rest)
      | Some _ => next_unvisited rest nodes
      end
  end.

Fixpoint next_scc_loop (fuel : nat) (self : TarjanScc) : outcome (option (list N) * TarjanScc) :=
  match fuel with
  | 0 => Undefined
  | S fuel' =>
      match t_visitation self with
      | (v, flag) :: below =>
          '(found, self') ← visit_once (mkTarjan (t_unchecked self) (t_nodes self) (t_dfs_index self)
                               (t_scc_index self) (t_stack self) below (t_scc_start self) (t_scc_len self)) v flag;
          match found with
          | Some start => Ret (Some (drop start (t_stack self')), self')
          | None => next_scc_loop fuel' self'
          end
      | [] =>
          '(node, rest) ← next_unvisited (t_unchecked self) (t_nodes self);
          match node with
          | None => Ret (None, mkTarjan rest (t_nodes self) (t_dfs_index self) (t_scc_index self)
                                 (t_stack self) [] (t_scc_start self) (t_scc_len self))
          | Some v => next_scc_loop fuel' (mkTarjan rest (t_nodes self) (t_dfs_index self) (t_scc_index self)
                        (t_stack self) [(v, true)] (t_scc_start self) (t_scc_len self))
          end
      end
  end.

(** Every turn of the loop takes an unchecked node, a remaining neighbor or a
    stack entry away. *)
Definition TarjanScc_fuel (self : TarjanScc) : nat :=
  S (2 * length (t_unchecked self) + 2 * sum_list ((λ d, length (nd_neighbors d)) <$> t_nodes self) +
     length (t_visitation self)).

(** The clean-up of the previous component at the head of [next_scc]. *)
Definition scc_cleanup (self : TarjanScc) : TarjanScc :=
  match t_scc_start self, t_scc_len self with
  | Some start, Some len =>
      mkTarjan (t_unchecked self) (t_nodes self) (wsub64 (t_dfs_index self) len)
        (wsub64 (t_scc_index self) 1) (take start (t_stack self)) (t_visitation self) None None
  | _, _ =>
      mkTarjan (t_unchecked self) (t_nodes self) (t_dfs_index self) (t_scc_index self)
        (t_stack self) (t_visitation self) None None
  end.

Definition next_scc (self : TarjanScc) : outcome (option (list N) * TarjanScc) :=
  let self := scc_cleanup self in
  next_scc_loop (TarjanScc_fuel self) self.

(** [while let Some(scc) = scc_iter.next_scc()]: all components in order. *)
Fixpoint collect_sccs (fuel : nat) (self : TarjanScc) : outcome (list (list N)) :=
  match fuel with
  | 0 => Undefined
  | S fuel' =>
      '(r, self') ← next_scc self;
      match r with
      | Some scc => sccs ← collect_sccs fuel' self'; Ret (scc :: sccs)
      | None => Ret []
      end
  end.

Definition iter_sccs : outcome (list (list N)) :=
  collect_sccs (S (Graph_node_count graph)) new_tarjan_scc.

End Graph.
End Tarjan.

Arguments NodeData N : clear implicits.
Arguments TarjanScc N : clear implicits.

Definition graph_of (es : list (nat * nat)) : DiGraph nat :=
  foldl (λ g '(a, b), Graph_insert_edge g a b) Graph_new es.

Lemma graph_of_wf es : digraph_wf (graph_of es).
Proof.
  unfold graph_of. pose proof (proj1 (new_wf (N := nat))) as Hwf. revert Hwf. generalize (Graph_new : DiGraph nat).
  induction es as [|[a b] es IH]; intros g Hwf; cbn [foldl]; [done|]. by apply IH, insert_edge_spec.
Qed.

Lemma graph_of_edges es e : e ∈ g_edges (graph_of es) ↔ e ∈ es.
Proof.
  unfold graph_of. pose proof (proj1 (new_wf (N := nat))) as Hwf.
  assert (Hgen : ∀ g : DiGraph nat, digraph_wf g →
    e ∈ g_edges (foldl (λ g '(a, b), Graph_insert_edge g a b) g es) ↔ e ∈ g_edges g ∨ e ∈ es).
  { clear Hwf. induction es as [|[a b] es IH]; intros g Hwf; cbn [foldl]; [rewrite elem_of_nil; tauto|].
    destruct (insert_edge_spec g a b Hwf) as (Hwf' & _ & HE). rewrite IH, HE by done. set_solver. }
  rewrite Hgen by done. cbn. set_solver.
Qed.

Example sccs_abc : iter_sccs (graph_of [(1, 2); (2, 3); (3, 1)]) = Ret [[3; 2; 1]].
Proof. vm_compute. reflexivity. Qed.

Example sccs_multi :
  iter_sccs (graph_of [(1, 2); (2, 1); (2, 3); (3, 2); (4, 5); (5, 4); (6, 2)]) = Ret [[3; 2; 1]; [5; 4]; [6]].
Proof. vm_compute. reflexivity. Qed.

(** ** Correctness

    Node data as a function of the node: the vector of the code is its image
    over the nodes of the graph. *)

Section Correct.
Context {N : Type} `{GraphNode N}.
Variable g : DiGraph N.
Hypothesis Hwf : digraph_wf g.

Notation keys := (Graph_node_list g).
Notation data := (N → NodeData N).
Implicit Types (D : data) (P stack : list N) (Ls : list (list N)) (frames rest : list (N * bool)).
Implicit Types (u v w x y : N).

Definition edge v w : Prop := (v, w) ∈ g_edges g.
Definition reach : N → N → Prop := rtc edge.

Definition nodes_of D : list (NodeData N) := D <$> keys.

Definition upd D v (f : NodeData N → NodeData N) : data := λ x, if decide (x = v) then f (D v) else D x.

Lemma upd_eq D v f : upd D v f v = f (D v).
Proof. unfold upd. by rewrite decide_True. Qed.

Lemma upd_ne D v f x : x ≠ v → upd D v f x = D x.
Proof. intros. unfold upd. by rewrite decide_False. Qed.

Lemma to_index_lookup v : v ∈ keys → ∃ i, Graph_to_index g v = Ret i ∧ keys !! i = Some v.
Proof.
  intros Hv. unfold Graph_to_index. destruct (IndexMap_index_of (g_nodes g) v) as [i|] eqn:E.
  - destruct (index_of_Some _ _ _ E) as (l & Hi & _). exists i. split; [done|].
    unfold Graph_node_list. by rewrite list_lookup_fmap, Hi.
  - by apply index_of_None in E.
Qed.

Lemma node_data_rep D v : v ∈ keys → node_data g (nodes_of D) v = Ret (D v).
Proof.
  intros (i & Hi & Hk)%to_index_lookup. unfold node_data. rewrite Hi. cbn.
  unfold nodes_of. by rewrite list_lookup_fmap, Hk.
Qed.

Lemma node_modify_rep D v f :
  v ∈ keys → node_modify g (nodes_of D) v f = Ret (nodes_of (upd D v f)).
Proof.
  intros (i & Hi & Hk)%to_index_lookup. unfold node_modify. rewrite Hi. cbn.
  unfold nodes_of. rewrite list_lookup_fmap, Hk. cbn. f_equal. apply list_eq. intros j.
  rewrite list_lookup_insert, !list_lookup_fmap, length_fmap. case_decide as Hj.
  - destruct Hj as [-> ?]. rewrite Hk. cbn. by rewrite upd_eq.
  - destruct (keys !! j) as [x|] eqn:Ej; [|done]. cbn. rewrite upd_ne; [done|]. intros ->.
    apply Hj. split; [|by eapply lookup_lt_Some].
    eapply NoDup_lookup; [apply (shape_keys g Hwf)| |]; done.
Qed.

Lemma edge_keys v w : edge v w → v ∈ keys ∧ w ∈ keys.
Proof. intros He. pose proof (edge_vertices g v w Hwf He) as [? ?]. by rewrite <- !elem_of_vertices. Qed.

(** ** The invariant

    [P] are the nodes in progress in the order of discovery, so that the node at
    position [i] was given index [i + 1]; [Ls] are the components returned. *)

(** The root of [v] is the index of the node in progress at position [r]. *)
Definition low D v (r : nat) : Prop := nd_root (D v) = Some (Z.of_nat (S r)).

Lemma low_fun D v r s : low D v r → low D v s → r = s.
Proof. unfold low. intros E1 E2. rewrite E1 in E2. injection E2. lia. Qed.

(** Components returned so far: strongly connected, and closed under edges. *)
Definition emitted_ok Ls : Prop := ∀ k scc, Ls !! k = Some scc →
  scc ≠ [] ∧ (∀ x y, x ∈ scc → y ∈ scc → reach x y) ∧
  ∀ x w, x ∈ scc → edge x w → ∃ k' scc', k' ≤ k ∧ Ls !! k' = Some scc' ∧ w ∈ scc'.

(** [frames] are the visits begun and not finished, the innermost first; [ex] is
    a neighbor of the innermost one that is about to be visited. *)
Record core D P Ls stack frames (ex : option N) : Prop := {
  c_keys : ∀ v, v ∈ P ∨ v ∈ concat Ls → v ∈ keys;
  c_nodup : NoDup (P ++ concat Ls);
  c_none : ∀ v, v ∈ keys → nd_root (D v) = None ↔ v ∉ P ∧ v ∉ concat Ls;
  c_fresh : ∀ v, v ∈ keys → nd_root (D v) = None →
              nd_pending (D v) = None ∧ nd_neighbors (D v) = Graph_neighbors g v;
  c_emit : ∀ v, v ∈ concat Ls → ∃ r, nd_root (D v) = Some r ∧ (Z.of_nat (length keys) < r)%Z;
  c_prog : ∀ i v, P !! i = Some v → ∃ r u, low D v r ∧ r ≤ i ∧ P !! r = Some u ∧ reach v u;
  c_perm : P ≡ₚ frames.*1 ++ stack;
  c_strict : ∀ i v, P !! i = Some v → v ∈ stack → ¬ low D v i;
  c_rem : ∀ v w, v ∈ P → w ∈ nd_neighbors (D v) → edge v w;
  c_finished : ∀ v, v ∈ stack → nd_neighbors (D v) = [];
  c_flag : ∀ i v b, P !! i = Some v → (v, b) ∈ frames → b = true ↔ low D v i;
  c_split : ∀ i v b, P !! i = Some v → (v, b) ∈ frames → ∃ S1 S2, stack = S1 ++ S2 ∧
              (∀ x, x ∈ S1 → ∃ j, P !! j = Some x ∧ j < i) ∧
              (∀ x, x ∈ S2 → ∃ j, P !! j = Some x ∧ i < j);
  c_sorted : ∀ k k' i j v w b c, k < k' → frames !! k = Some (w, c) → frames !! k' = Some (v, b) →
              P !! i = Some v → P !! j = Some w → i < j;
  c_chain : ∀ k i j v w b c, frames !! k = Some (w, c) → frames !! (S k) = Some (v, b) →
              P !! i = Some v → P !! j = Some w →
              nd_pending (D v) = Some w ∧ edge v w ∧
              ∀ m x r s, i < m < j → P !! m = Some x → low D v r → low D x s → r ≤ s;
  c_reach : ∀ i j v b x, P !! i = Some v → (v, b) ∈ frames → P !! j = Some x → i ≤ j → reach v x;
  c_succ : ∀ v w, v ∈ P → edge v w →
              w ∈ nd_neighbors (D v) ∨ w ∈ concat Ls ∨
              (∃ j r, P !! j = Some w ∧ low D v r ∧ r ≤ j) ∨
              (ex = Some w ∧ ∃ b, head frames = Some (v, b));
  c_emitted : emitted_ok Ls
}.

(** What the innermost visit knows of the nodes discovered after it; [wk] is a
    finished child it has not looked at yet. *)
Definition top_prop D P frames (wk : option N) : Prop := ∀ v b i j x s,
  head frames = Some (v, b) → P !! i = Some v → i < j → P !! j = Some x → low D x s →
  (∃ r, low D v r ∧ r ≤ s) ∨ (∃ c r, wk = Some c ∧ low D c r ∧ r ≤ s).

(** The states between two visits. *)
Inductive loop_inv D P Ls stack : list (N * bool) → Prop :=
| LI_idle : core D P Ls stack [] None → loop_inv D P Ls stack []
| LI_fresh w frames :
    core D P Ls stack frames (Some w) → top_prop D P frames None →
    w ∈ keys → nd_root (D w) = None →
    (∀ v b, head frames = Some (v, b) → edge v w ∧ nd_pending (D v) = Some w) →
    loop_inv D P Ls stack ((w, true) :: frames)
| LI_resume v b rest c :
    core D P Ls stack ((v, b) :: rest) None → top_prop D P ((v, b) :: rest) (Some c) →
    nd_pending (D v) = Some c → edge v c → c ∈ concat Ls ∨ c ∈ P →
    loop_inv D P Ls stack ((v, b) :: rest).

(** ** Consequences *)

Lemma core_in_P D P Ls stack frames ex v b :
  core D P Ls stack frames ex → (v, b) ∈ frames → ∃ i, P !! i = Some v.
Proof.
  intros Hc Hin. apply list_elem_of_lookup. rewrite (c_perm _ _ _ _ _ _ Hc), elem_of_app. left.
  apply list_elem_of_fmap. by exists (v, b).
Qed.

Lemma core_NoDup_P D P Ls stack frames ex : core D P Ls stack frames ex → NoDup P.
Proof. intros Hc. apply c_nodup in Hc. by apply NoDup_app in Hc as [? _]. Qed.

Lemma core_index D P Ls stack frames ex i j v :
  core D P Ls stack frames ex → P !! i = Some v → P !! j = Some v → i = j.
Proof. intros Hc ? ?. eapply NoDup_lookup; [by eapply core_NoDup_P|done|done]. Qed.

Lemma core_low D P Ls stack frames ex i v :
  core D P Ls stack frames ex → P !! i = Some v → ∃ r, low D v r ∧ r ≤ i.
Proof. intros Hc Hi. destruct (c_prog _ _ _ _ _ _ Hc i v Hi) as (r & u & ? & ? & _). eauto. Qed.

Lemma core_length D P Ls stack frames ex :
  core D P Ls stack frames ex → length P + length (concat Ls) ≤ length keys.
Proof.
  intros Hc. rewrite <- length_app. apply submseteq_length, NoDup_submseteq; [apply Hc|].
  intros v Hv. apply (c_keys _ _ _ _ _ _ Hc). by rewrite elem_of_app in Hv.
Qed.

(** With no visit begun, nothing is in progress. *)
Lemma core_idle D P Ls stack ex : core D P Ls stack [] ex → P = [] ∧ stack = [].
Proof.
  intros Hc. assert (P = []) as HP.
  { destruct P as [|v P]; [done|]. exfalso.
    destruct (c_prog _ _ _ _ _ _ Hc 0 v eq_refl) as (r & u & Hlow & Hr & _).
    assert (r = 0) as -> by lia. eapply (c_strict _ _ _ _ _ _ Hc 0 v); [done| |done].
    pose proof (c_perm _ _ _ _ _ _ Hc) as Hp. cbn in Hp. rewrite <- Hp. apply list_elem_of_here. }
  split; [done|]. pose proof (c_perm _ _ _ _ _ _ Hc) as Hp. subst P. cbn in Hp.
  by apply Permutation_nil_l in Hp.
Qed.

(** ** Updates of the innermost visit *)

Lemma core_update_top D D' P Ls stack v b b' rest ex ex' i r r' u :
  core D P Ls stack ((v, b) :: rest) ex →
  P !! i = Some v → low D v r →
  (∀ x, x ≠ v → D' x = D x) →
  low D' v r' → r' ≤ r → P !! r' = Some u → reach v u → (b' = true ↔ r' = i) →
  (∀ w, w ∈ nd_neighbors (D' v) → edge v w) →
  (∀ w, edge v w → w ∈ nd_neighbors (D v) ∨ ex = Some w →
     w ∈ nd_neighbors (D' v) ∨ w ∈ concat Ls ∨ (∃ j, P !! j = Some w ∧ r' ≤ j) ∨ ex' = Some w) →
  core D' P Ls stack ((v, b') :: rest) ex'.
Proof.
  intros Hc Hi Hlow Hne Hlow' Hr Hu Hreach Hb Hns Hsucc.
  assert (Hvs : v ∉ stack).
  { pose proof (core_NoDup_P _ _ _ _ _ _ Hc) as Hnd. rewrite (c_perm _ _ _ _ _ _ Hc) in Hnd.
    cbn in Hnd. apply NoDup_cons in Hnd as [Hn _]. rewrite elem_of_app in Hn. tauto. }
  assert (Hvr : ∀ c, (v, c) ∉ rest).
  { pose proof (core_NoDup_P _ _ _ _ _ _ Hc) as Hnd. rewrite (c_perm _ _ _ _ _ _ Hc) in Hnd.
    cbn in Hnd. apply NoDup_cons in Hnd as [Hn _]. rewrite elem_of_app, list_elem_of_fmap in Hn.
    intros c Hin. apply Hn. left. by exists (v, c). }
  assert (HvP : v ∈ P) by (by eapply list_elem_of_lookup_2).
  assert (HvL : v ∉ concat Ls).
  { pose proof (c_nodup _ _ _ _ _ _ Hc) as Hnd. apply NoDup_app in Hnd as (_ & Hd & _). by apply Hd. }
  assert (Hlow_ne : ∀ x s, x ≠ v → low D' x s ↔ low D x s) by (intros x s Hx; unfold low; by rewrite Hne).
  assert (Hframe : ∀ x c, (x, c) ∈ (v, b') :: rest → x = v ∧ c = b' ∨ x ≠ v ∧ (x, c) ∈ (v, b) :: rest).
  { intros x c [[= -> ->]|Hin]%elem_of_cons; [by left|]. right. split; [by intros ->; apply Hvr in Hin|].
    by apply list_elem_of_further. }
  assert (Hlook : ∀ k x c, ((v, b') :: rest) !! k = Some (x, c) → ∃ c', ((v, b) :: rest) !! k = Some (x, c')).
  { intros [|k] x c; cbn; [intros [= -> ->]|]; eauto. }
  split.
  - apply Hc.
  - apply Hc.
  - intros x Hx. destruct (decide (x = v)) as [->|Hn]; [|rewrite Hne by done; by apply Hc].
    rewrite Hlow'. split; [done|]. tauto.
  - intros x Hx. destruct (decide (x = v)) as [->|Hn]; [by rewrite Hlow'|]. rewrite Hne by done. by apply Hc.
  - intros x Hx. rewrite Hne by (by intros ->). by apply Hc.
  - intros j x Hj. destruct (decide (x = v)) as [->|Hn].
    + assert (j = i) as -> by (by eapply core_index). exists r', u. repeat split; try done.
      destruct (core_low _ _ _ _ _ _ _ _ Hc Hi) as (r0 & Hl0 & ?).
      rewrite (low_fun _ _ _ _ Hl0 Hlow) in *. lia.
    + destruct (c_prog _ _ _ _ _ _ Hc j x Hj) as (r0 & u0 & ? & ? & ? & ?). exists r0, u0.
      by rewrite Hlow_ne.
  - apply (c_perm _ _ _ _ _ _ Hc).
  - intros j x Hj Hx. rewrite Hlow_ne by (by intros ->). by apply (c_strict _ _ _ _ _ _ Hc).
  - intros x w Hx. destruct (decide (x = v)) as [->|Hn]; [apply Hns|]. rewrite Hne by done. by apply Hc.
  - intros x Hx. rewrite Hne by (by intros ->). by apply Hc.
  - intros j x c Hj [[-> ->]|[Hn Hin]]%Hframe.
    + assert (j = i) as -> by (by eapply core_index). rewrite Hb. split; [by intros ->|].
      intros Hl. by eapply low_fun.
    + rewrite Hlow_ne by done. by apply (c_flag _ _ _ _ _ _ Hc).
  - intros j x c Hj [[-> ->]|[Hn Hin]]%Hframe; [eapply (c_split _ _ _ _ _ _ Hc); [done|apply list_elem_of_here]|].
    by eapply (c_split _ _ _ _ _ _ Hc).
  - intros k k' j1 j2 x y c1 c2 Hk [? H1]%Hlook [? H2]%Hlook. by eapply (c_sorted _ _ _ _ _ _ Hc).
  - intros k j1 j2 x y c1 c2 H1 H2 Hj1 Hj2. pose proof H2 as Hx2.
    apply Hlook in H1 as [c1' H1], H2 as [c2' H2].
    destruct (c_chain _ _ _ _ _ _ Hc k j1 j2 x y c2' c1' H1 H2 Hj1 Hj2) as (Hp & He & Hbetween).
    assert (x ≠ v) as Hxv.
    { intros ->. cbn in Hx2. apply list_elem_of_lookup_2 in Hx2. by apply Hvr in Hx2. }
    rewrite Hne by done. split; [done|]. split; [done|]. intros m z r0 s0 Hm Hz Hl1 Hl2.
    assert (z ≠ v) as Hzv.
    { intros ->. assert (m = i) as -> by (by eapply core_index).
      destruct k as [|k]; [cbn in H1; injection H1 as -> ->; assert (i = j2) by (by eapply core_index); lia|].
      pose proof (c_sorted _ _ _ _ _ _ Hc 0 (S k) j2 i y v c1' b ltac:(lia) eq_refl H1 Hj2 Hi). lia. }
    rewrite Hlow_ne in Hl1, Hl2 by done. by eapply Hbetween.
  - intros j1 j2 x c y Hj1 [[-> ->]|[Hn Hin]]%Hframe Hj2 Hle; [eapply (c_reach _ _ _ _ _ _ Hc); [done|apply list_elem_of_here|done|done]|].
    by eapply (c_reach _ _ _ _ _ _ Hc).
  - intros x w Hx Hxw. destruct (decide (x = v)) as [->|Hn].
    + destruct (c_succ _ _ _ _ _ _ Hc v w Hx Hxw) as [Hin|[Hin|[(j & r0 & Hj & Hl0 & Hle)|[He _]]]].
      * destruct (Hsucc w Hxw (or_introl Hin)) as [?|[?|[(j & ? & ?)|?]]]; eauto 10.
      * eauto.
      * right; right; left. exists j, r'. rewrite (low_fun _ _ _ _ Hl0 Hlow) in Hle. repeat split; [done..|lia].
      * destruct (Hsucc w Hxw (or_intror He)) as [?|[?|[(j & ? & ?)|?]]]; eauto 10.
    + rewrite Hne by done. destruct (c_succ _ _ _ _ _ _ Hc x w Hx Hxw) as [Hin|[Hin|[(j & r0 & Hj & Hl0 & Hle)|[He [c Hh]]]]].
      * eauto.
      * eauto.
      * right; right; left. exists j, r0. by rewrite Hlow_ne.
      * cbn in Hh. congruence.
  - apply Hc.
Qed.

(** Lowering the root of the innermost visit to the root of a visited neighbor. *)
Definition lowered D v w b : data * bool :=
  if root_ltb (nd_root (D w)) (nd_root (D v))
  then (upd D v (set_root (nd_root (D w))), false) else (D, b).

Lemma lower_root_rep D v w b :
  v ∈ keys → w ∈ keys →
  lower_root g (nodes_of D) v w b = Ret (nodes_of (lowered D v w b).1, (lowered D v w b).2).
Proof.
  intros Hv Hw. unfold lower_root, lowered. rewrite node_data_rep by done. cbn.
  rewrite node_data_rep by done. cbn. destruct (root_ltb _ _); [|done].
  by rewrite node_modify_rep.
Qed.

Lemma lowered_frame D v w b x : x ≠ v → (lowered D v w b).1 x = D x.
Proof. intros Hx. unfold lowered. destruct (root_ltb _ _); [|done]. cbn. by rewrite upd_ne. Qed.

Lemma lowered_fields D v w b :
  nd_pending ((lowered D v w b).1 v) = nd_pending (D v) ∧
  nd_neighbors ((lowered D v w b).1 v) = nd_neighbors (D v).
Proof. unfold lowered. destruct (root_ltb _ _); [|done]. cbn. by rewrite upd_eq. Qed.

(** Its effect, for a neighbor [w] that may have been excepted. *)
Lemma core_lower D P Ls stack v b rest ex w wk :
  core D P Ls stack ((v, b) :: rest) ex → top_prop D P ((v, b) :: rest) wk →
  edge v w → w ∈ concat Ls ∨ w ∈ P → ex = None ∨ ex = Some w → wk = None ∨ wk = Some w →
  core (lowered D v w b).1 P Ls stack ((v, (lowered D v w b).2) :: rest) None ∧
  top_prop (lowered D v w b).1 P ((v, (lowered D v w b).2) :: rest) None.
Proof.
  intros Hc Ht He Hw Hex Hwk.
  destruct (core_in_P _ _ _ _ _ _ v b Hc (list_elem_of_here _ _)) as [i Hi].
  destruct (c_prog _ _ _ _ _ _ Hc i v Hi) as (r & u & Hlow & Hri & Hu & Hvu).
  assert (Hflag : b = true ↔ r = i).
  { rewrite (c_flag _ _ _ _ _ _ Hc i v b Hi (list_elem_of_here _ _)). split; [|by intros ->].
    intros. by eapply low_fun. }
  assert (HlenP : i < length P) by (by eapply lookup_lt_Some).
  assert (HvP : v ∈ P) by (by eapply list_elem_of_lookup_2).
  pose proof (core_length _ _ _ _ _ _ Hc) as Hlen.
  assert (Hkeep : (∀ s, low D w s → r ≤ s) → lowered D v w b = (D, b)).
  { intros Hs. unfold lowered. rewrite Hlow. destruct Hw as [Hw|[j Hj]%list_elem_of_lookup].
    - destruct (c_emit _ _ _ _ _ _ Hc w Hw) as (rw & Erw & ?). rewrite Erw. cbn [root_ltb].
      destruct (Z.ltb_spec rw (Z.of_nat (S r))); [lia|done].
    - destruct (core_low _ _ _ _ _ _ _ _ Hc Hj) as (s & Hls & _). rewrite Hls. cbn [root_ltb].
      destruct (Z.ltb_spec (Z.of_nat (S s)) (Z.of_nat (S r))); [|done]. specialize (Hs s Hls). lia. }
  destruct (decide (w ∈ P)) as [HwP|HwP].
  - apply list_elem_of_lookup in HwP as [j Hj].
    destruct (c_prog _ _ _ _ _ _ Hc j w Hj) as (s & u' & Hls & Hsj & Hu' & Hwu').
    destruct (le_lt_dec r s) as [Hle|Hlt].
    + rewrite Hkeep by (intros s' Hs'; rewrite (low_fun _ _ _ _ Hs' Hls); done). cbn [fst snd]. split.
      * eapply (core_update_top D D P Ls stack v b b rest ex None i r r u); try done.
        -- intros y Hy. by apply (c_rem _ _ _ _ _ _ Hc v y HvP).
        -- intros y _ [?|Hy]; [by left|]. right; right; left. exists j. destruct Hex; simplify_eq. split; [done|lia].
      * intros v' b' i' j' x s' Hh Hi' Hij Hx Hls'. destruct (Ht v' b' i' j' x s' Hh Hi' Hij Hx Hls') as [?|(c & r0 & Ec & Hc0 & ?)]; [by left|].
        left. cbn in Hh. injection Hh as -> ->. exists r. split; [done|]. destruct Hwk; simplify_eq.
        rewrite (low_fun _ _ _ _ Hc0 Hls) in *. lia.
    + assert (lowered D v w b = (upd D v (set_root (nd_root (D w))), false)) as ->.
      { unfold lowered. rewrite Hlow, Hls. cbn [root_ltb]. destruct (Z.ltb_spec (Z.of_nat (S s)) (Z.of_nat (S r))); [by rewrite Hls|lia]. }
      cbn [fst snd]. assert (Hlv : low (upd D v (set_root (nd_root (D w)))) v s) by (unfold low; by rewrite upd_eq). split.
      * eapply (core_update_top D _ P Ls stack v b false rest ex None i r s u'); try done.
        -- intros x Hx. by rewrite upd_ne.
        -- lia.
        -- eapply rtc_l; [done|done].
        -- split; [done|lia].
        -- intros y. rewrite upd_eq. cbn. intros Hy. by apply (c_rem _ _ _ _ _ _ Hc v y HvP).
        -- rewrite upd_eq. cbn. intros y _ [?|Hy]; [by left|]. right; right; left. exists j. destruct Hex; simplify_eq. split; [done|lia].
      * intros v' b' i' j' x s' Hh Hi' Hij Hx Hls'. cbn in Hh. injection Hh as <- <-. left.
        assert (i' = i) as -> by (by eapply core_index).
        assert (x ≠ v) as Hxv by (intros ->; assert (j' = i) by (by eapply core_index); lia).
        unfold low in Hls'. rewrite upd_ne in Hls' by done. exists s. split; [done|].
        destruct (Ht v b i j' x s' eq_refl Hi Hij Hx Hls') as [(r0 & Hr0 & ?)|(c & r0 & Ec & Hc0 & ?)].
        -- rewrite (low_fun _ _ _ _ Hr0 Hlow) in *. lia.
        -- destruct Hwk; simplify_eq. rewrite (low_fun _ _ _ _ Hc0 Hls) in *. lia.
  - assert (Hw' : w ∈ concat Ls) by tauto. destruct (c_emit _ _ _ _ _ _ Hc w Hw') as (rw & Erw & Hrw).
    assert (Hbig : ∀ s, low D w s → length P ≤ s).
    { intros s Hs. unfold low in Hs. rewrite Erw in Hs. injection Hs as ->. lia. }
    rewrite Hkeep by (intros s Hs%Hbig; lia). cbn [fst snd]. split.
    + eapply (core_update_top D D P Ls stack v b b rest ex None i r r u); try done.
      * intros y Hy. by apply (c_rem _ _ _ _ _ _ Hc v y HvP).
      * intros y _ [?|Hy]; [by left|]. right; left. destruct Hex; simplify_eq. done.
    + intros v' b' i' j' x s' Hh Hi' Hij Hx Hls'. destruct (Ht v' b' i' j' x s' Hh Hi' Hij Hx Hls') as [?|(c & r0 & Ec & Hc0 & ?)]; [by left|].
      destruct Hwk; simplify_eq. apply Hbig in Hc0.
      destruct (core_low _ _ _ _ _ _ _ _ Hc Hx) as (s0 & Hs0 & ?). rewrite (low_fun _ _ _ _ Hs0 Hls') in *.
      apply lookup_lt_Some in Hx. lia.
Qed.

(** ** Beginning a visit *)

Lemma lookup_snoc_inv {A} (l : list A) (a : A) (i : nat) (x : A) :
  (l ++ [a]) !! i = Some x → l !! i = Some x ∨ (i = length l ∧ x = a).
Proof.
  intros Hi. apply lookup_app_Some in Hi as [?|[Hle Hi]]; [by left|]. right.
  apply list_lookup_singleton_Some in Hi as [? ->]. split; [lia|done].
Qed.

Lemma core_start D P Ls stack frames w :
  core D P Ls stack frames (Some w) → top_prop D P frames None →
  w ∈ keys → nd_root (D w) = None →
  (∀ v b, head frames = Some (v, b) → edge v w ∧ nd_pending (D v) = Some w) →
  let D' := upd D w (set_root (Some (Z.of_nat (S (length P))))) in
  core D' (P ++ [w]) Ls stack ((w, true) :: frames) None ∧
  top_prop D' (P ++ [w]) ((w, true) :: frames) None.
Proof.
  intros Hc Ht Hk Hnone Hhead D'.
  destruct (proj1 (c_none _ _ _ _ _ _ Hc w Hk) Hnone) as [HwP HwL].
  assert (Hlw : low D' w (length P)) by (unfold low, D'; by rewrite upd_eq).
  assert (Hne : ∀ x, x ≠ w → D' x = D x) by (intros; by apply upd_ne).
  assert (HneP : ∀ i x, P !! i = Some x → x ≠ w) by (intros i x Hi ->; by apply HwP; eapply list_elem_of_lookup_2).
  assert (Hlow_ne : ∀ x r, x ≠ w → low D' x r ↔ low D x r) by (intros; unfold low; by rewrite Hne).
  assert (Hold : ∀ i x, P !! i = Some x → (P ++ [w]) !! i = Some x) by (intros; by apply lookup_app_l_Some).
  assert (Hneigh : ∀ x, nd_neighbors (D' x) = nd_neighbors (D x)).
  { intros x. unfold D', upd. by case_decide; subst. }
  assert (Hpend : ∀ x, nd_pending (D' x) = nd_pending (D x)).
  { intros x. unfold D', upd. by case_decide; subst. }
  assert (Hfr : ∀ x b, (x, b) ∈ frames → ∃ i, P !! i = Some x) by (intros; by eapply core_in_P).
  assert (HS : ∀ x, x ∈ stack → ∃ j, P !! j = Some x).
  { intros x Hx. apply list_elem_of_lookup. rewrite (c_perm _ _ _ _ _ _ Hc), elem_of_app. by right. }
  assert (Hin : ∀ i x b, (P ++ [w]) !! i = Some x → (x, b) ∈ frames → P !! i = Some x).
  { intros i x b [?|[-> ->]]%lookup_snoc_inv Hx; [done|]. apply Hfr in Hx as [j Hj]. by apply HneP in Hj. }
  split.
  - split.
    + intros v. rewrite elem_of_app, list_elem_of_singleton. intros [[?| ->]|?]; [|done|]; apply (c_keys _ _ _ _ _ _ Hc); tauto.
    + pose proof (c_nodup _ _ _ _ _ _ Hc) as (H1 & H2 & H3)%NoDup_app. rewrite <- app_assoc. cbn.
      apply NoDup_app. split; [done|]. split; [intros x Hx; rewrite elem_of_cons; intros [->|?]; [done|by eapply H2]|].
      by constructor.
    + intros v Hv. rewrite elem_of_app, list_elem_of_singleton. destruct (decide (v = w)) as [->|Hn].
      * rewrite Hlw. split; [done|]. tauto.
      * rewrite Hne by done. rewrite (c_none _ _ _ _ _ _ Hc v Hv). tauto.
    + intros v Hv. destruct (decide (v = w)) as [->|Hn]; [by rewrite Hlw|]. rewrite Hne by done. by apply Hc.
    + intros v Hv. rewrite Hne by (by intros ->). by apply Hc.
    + intros i v [Hi|[-> ->]]%lookup_snoc_inv.
      * destruct (c_prog _ _ _ _ _ _ Hc i v Hi) as (r & u & ? & ? & ? & ?). exists r, u.
        rewrite Hlow_ne by (by eapply HneP). auto.
      * exists (length P), w. repeat split; [done|lia|by apply list_lookup_middle|apply rtc_refl].
    + cbn. rewrite (c_perm _ _ _ _ _ _ Hc) at 1. rewrite Permutation_app_comm. done.
    + intros i v Hi Hv. destruct (HS v Hv) as [j Hj]. pose proof (HneP _ _ Hj). rewrite Hlow_ne by done.
      apply lookup_snoc_inv in Hi as [Hi|[_ ->]]; [by apply (c_strict _ _ _ _ _ _ Hc)|done].
    + intros v x. rewrite elem_of_app, list_elem_of_singleton, Hneigh. intros [Hv| ->] Hx; [by apply (c_rem _ _ _ _ _ _ Hc v x Hv)|].
      destruct (c_fresh _ _ _ _ _ _ Hc w Hk Hnone) as [_ Hn]. rewrite Hn in Hx. by apply neighbors_spec.
    + intros v Hv. rewrite Hneigh. by apply Hc.
    + intros i v b Hi [[= -> ->]|Hv]%elem_of_cons.
      * split; [|done]. intros _. apply lookup_snoc_inv in Hi as [Hi|[-> _]]; [by apply HneP in Hi|done].
      * pose proof (Hin _ _ _ Hi Hv) as Hi'. rewrite Hlow_ne by (by eapply HneP). by apply (c_flag _ _ _ _ _ _ Hc).
    + intros i v b Hi [[= -> ->]|Hv]%elem_of_cons.
      * apply lookup_snoc_inv in Hi as [Hi|[-> _]]; [by apply HneP in Hi|]. exists stack, []. rewrite app_nil_r.
        split; [done|]. split; [|by intros ? ?%elem_of_nil]. intros x [j Hj]%HS. exists j. split; [by apply Hold|by eapply lookup_lt_Some].
      * pose proof (Hin _ _ _ Hi Hv) as Hi'. destruct (c_split _ _ _ _ _ _ Hc i v b Hi' Hv) as (S1 & S2 & -> & H1 & H2).
        exists S1, S2. split; [done|]. split; intros x Hx; [destruct (H1 x Hx) as (j & ? & ?)|destruct (H2 x Hx) as (j & ? & ?)]; exists j; auto.
    + intros [|k] [|k'] i j v x b c Hkk; cbn; [lia| |lia|].
      * intros [= <- <-] Hv Hi Hj. apply list_elem_of_lookup_2 in Hv. apply (Hin _ _ _ Hi), lookup_lt_Some in Hv.
        apply lookup_snoc_inv in Hj as [Hj|[-> _]]; [by apply HneP in Hj|done].
      * intros H1 H2 Hi Hj. eapply (c_sorted _ _ _ _ _ _ Hc k k'); [lia|done|done| |].
        -- eapply Hin; [done|by eapply list_elem_of_lookup_2].
        -- eapply Hin; [done|by eapply list_elem_of_lookup_2].
    + intros [|k] i j v x b c; cbn.
      * intros [= <- <-] Hv Hi Hj. pose proof Hv as Hv'. apply list_elem_of_lookup_2 in Hv'. pose proof (Hin _ _ _ Hi Hv') as Hi'.
        assert (Hh : head frames = Some (v, b)) by (by destruct frames). destruct (Hhead v b Hh) as [? ?]. rewrite Hpend. split; [done|]. split; [done|].
        apply lookup_snoc_inv in Hj as [Hj|[-> _]]; [by apply HneP in Hj|].
        intros m y r s Hm [Hy|[-> _]]%lookup_snoc_inv Hr Hs; [|lia].
        rewrite Hlow_ne in Hr, Hs by (by eapply HneP).
        destruct (Ht v b i m y s Hh Hi' ltac:(lia) Hy Hs) as [(r0 & Hr0 & ?)|(? & ? & [=] & _)].
        rewrite (low_fun _ _ _ _ Hr Hr0). done.
      * intros H1 H2 Hi Hj.
        assert (Hi' : P !! i = Some v) by (eapply Hin; [done|by eapply list_elem_of_lookup_2]).
        assert (Hj' : P !! j = Some x) by (eapply Hin; [done|by eapply list_elem_of_lookup_2]).
        destruct (c_chain _ _ _ _ _ _ Hc k i j v x b c H1 H2 Hi' Hj') as (Hp & ? & Hb). rewrite Hpend. split; [done|]. split; [done|].
        intros m y r s Hm [Hy|[-> _]]%lookup_snoc_inv Hr Hs; [|apply lookup_lt_Some in Hj'; lia].
        rewrite Hlow_ne in Hr, Hs by (by eapply HneP). by eapply Hb.
    + intros i j v b x Hi [[= -> ->]|Hv]%elem_of_cons Hj Hle.
      * apply lookup_snoc_inv in Hi as [Hi|[-> _]]; [by apply HneP in Hi|].
        apply lookup_snoc_inv in Hj as [Hj|[_ ->]]; [apply lookup_lt_Some in Hj; lia|apply rtc_refl].
      * pose proof (Hin _ _ _ Hi Hv) as Hi'. apply lookup_snoc_inv in Hj as [Hj|[-> ->]].
        -- by eapply (c_reach _ _ _ _ _ _ Hc i j).
        -- destruct frames as [|[v0 b0] fr]; [by apply elem_of_nil in Hv|].
           destruct (Hhead v0 b0 eq_refl) as [He _]. destruct (Hfr v0 b0 (list_elem_of_here _ _)) as [i0 Hi0].
           eapply rtc_r; [|exact He]. eapply (c_reach _ _ _ _ _ _ Hc i i0); [done|done|done|].
           apply elem_of_cons in Hv as [[= -> ->]|Hv]; [assert (i = i0) by (by eapply core_index); lia|].
           apply list_elem_of_lookup in Hv as [k Hv].
           pose proof (c_sorted _ _ _ _ _ _ Hc 0 (S k) i i0 v v0 b b0 ltac:(lia) eq_refl Hv Hi' Hi0). lia.
    + intros v x. rewrite elem_of_app, list_elem_of_singleton, Hneigh. intros [Hv| ->] He.
      * assert (v ≠ w) by (by intros ->).
        destruct (c_succ _ _ _ _ _ _ Hc v x Hv He) as [?|[?|[(j & r & Hj & Hl & ?)|[[= <-] [b Hb]]]]]; [by left|auto|..].
        -- right; right; left. exists j, r. rewrite Hlow_ne by done. auto.
        -- right; right; left. exists (length P). apply list_elem_of_lookup in Hv as [i Hi].
           destruct (core_low _ _ _ _ _ _ _ _ Hc Hi) as (r & ? & ?). exists r. rewrite Hlow_ne by done.
           apply lookup_lt_Some in Hi. split; [by apply list_lookup_middle|]. split; [done|lia].
      * left. destruct (c_fresh _ _ _ _ _ _ Hc w Hk Hnone) as [_ ->]. by apply neighbors_spec.
    + apply Hc.
  - intros v b i j x s. cbn. intros [= <- <-] Hi Hij Hx.
    apply lookup_snoc_inv in Hi as [Hi|[-> _]]; [by apply HneP in Hi|].
    apply lookup_lt_Some in Hx. rewrite length_app in Hx. cbn in Hx. lia.
Qed.

(** ** Examining neighbors *)

Lemma top_prop_ext D D' P frames frames' :
  fst <$> head frames' = fst <$> head frames → (∀ x r, low D' x r ↔ low D x r) →
  top_prop D P frames None → top_prop D' P frames' None.
Proof.
  intros Hh Hl Ht v b i j x s Hv Hi Hij Hx Hs. rewrite Hv in Hh. cbn in Hh.
  destruct (head frames) as [[v0 b0]|] eqn:E; cbn in Hh; [|done]. injection Hh as ->.
  apply Hl in Hs. destruct (Ht v0 b0 i j x s E Hi Hij Hx Hs) as [(r & ? & ?)|(? & ? & [=] & _)].
  left. exists r. by rewrite Hl.
Qed.

(** A neighbor leaves the iterator and becomes the exception. *)
Lemma core_next_neighbor D P Ls stack v b rest w ns :
  core D P Ls stack ((v, b) :: rest) None → top_prop D P ((v, b) :: rest) None →
  nd_neighbors (D v) = w :: ns →
  core (upd D v (set_neighbors ns)) P Ls stack ((v, b) :: rest) (Some w) ∧
  top_prop (upd D v (set_neighbors ns)) P ((v, b) :: rest) None ∧ edge v w.
Proof.
  intros Hc Ht Hns.
  destruct (core_in_P _ _ _ _ _ _ v b Hc (list_elem_of_here _ _)) as [i Hi].
  assert (HvP : v ∈ P) by (by eapply list_elem_of_lookup_2).
  assert (He : ∀ y, y ∈ w :: ns → edge v y) by (rewrite <- Hns; intros y; by apply (c_rem _ _ _ _ _ _ Hc)).
  assert (Hl : ∀ x r, low (upd D v (set_neighbors ns)) x r ↔ low D x r).
  { intros x r. unfold low, upd. by case_decide; subst. }
  split; [|split; [by eapply top_prop_ext|apply He, list_elem_of_here]].
  destruct (c_prog _ _ _ _ _ _ Hc i v Hi) as (r & u & Hlow & Hri & Hu & Hvu).
  eapply (core_update_top D _ P Ls stack v b b rest None (Some w) i r r u); try done.
  - intros x Hx. by rewrite upd_ne.
  - by rewrite Hl.
  - rewrite (c_flag _ _ _ _ _ _ Hc i v b Hi (list_elem_of_here _ _)). split; [|by intros ->].
    intros. by eapply low_fun.
  - rewrite upd_eq. cbn. intros y Hy. apply He. by apply list_elem_of_further.
  - rewrite upd_eq, Hns. cbn. intros y _ [[->|?]%elem_of_cons|[=]]; auto.
Qed.

Lemma core_set_pending D P Ls stack v b rest ex p :
  core D P Ls stack ((v, b) :: rest) ex → core (upd D v (set_pending p)) P Ls stack ((v, b) :: rest) ex.
Proof.
  intros Hc. destruct (core_in_P _ _ _ _ _ _ v b Hc (list_elem_of_here _ _)) as [i Hi].
  assert (HvP : v ∈ P) by (by eapply list_elem_of_lookup_2).
  destruct (c_prog _ _ _ _ _ _ Hc i v Hi) as (r & u & Hlow & Hri & Hu & Hvu).
  eapply (core_update_top D _ P Ls stack v b b rest ex ex i r r u); try done.
  - intros x Hx. by rewrite upd_ne.
  - unfold low. by rewrite upd_eq.
  - rewrite (c_flag _ _ _ _ _ _ Hc i v b Hi (list_elem_of_here _ _)). split; [|by intros ->].
    intros. by eapply low_fun.
  - rewrite upd_eq. cbn. intros y. by apply (c_rem _ _ _ _ _ _ Hc).
  - rewrite upd_eq. cbn. intros y _ [?|?]; auto.
Qed.

Lemma low_set_pending D v p x r : low (upd D v (set_pending p)) x r ↔ low D x r.
Proof. unfold low, upd. by case_decide; subst. Qed.

(** After the loop the visit is complete, or a child is to be visited. *)
Definition neighbors_done D' P Ls stack v b' rest (child : option N) : Prop :=
  top_prop D' P ((v, b') :: rest) None ∧
  match child with
  | None => core D' P Ls stack ((v, b') :: rest) None ∧ nd_neighbors (D' v) = []
  | Some w => core D' P Ls stack ((v, b') :: rest) (Some w) ∧ w ∈ keys ∧ nd_root (D' w) = None ∧
              edge v w ∧ nd_pending (D' v) = Some w
  end.

Lemma visit_neighbors_ok P Ls stack v rest ns : ∀ D b,
  core D P Ls stack ((v, b) :: rest) None → top_prop D P ((v, b) :: rest) None →
  nd_neighbors (D v) = ns →
  ∃ D' b' child, visit_neighbors g ns (nodes_of D) v b = Ret (nodes_of D', b', child) ∧
    neighbors_done D' P Ls stack v b' rest child ∧ (∀ x, x ≠ v → D' x = D x) ∧
    length (nd_neighbors (D' v)) + (if child then 1 else 0) ≤ length ns.
Proof.
  induction ns as [|w ns IH]; intros D b Hc Ht Hns; cbn [visit_neighbors].
  - exists D, b, None. rewrite Hns. split; [done|]. split; [by split|]. split; [done|cbn; lia].
  - destruct (core_in_P _ _ _ _ _ _ v b Hc (list_elem_of_here _ _)) as [i Hi].
    assert (Hvk : v ∈ keys) by (apply (c_keys _ _ _ _ _ _ Hc); left; by eapply list_elem_of_lookup_2).
    destruct (core_next_neighbor _ _ _ _ _ _ _ _ _ Hc Ht Hns) as (Hc1 & Ht1 & He).
    destruct (edge_keys v w He) as [_ Hwk]. rewrite node_modify_rep by done. cbn.
    rewrite node_data_rep by done. cbn. set (D1 := upd D v (set_neighbors ns)) in *.
    assert (HD1 : ∀ x, x ≠ v → D1 x = D x) by (intros; by apply upd_ne).
    destruct (nd_root (D1 w)) as [rw|] eqn:Erw.
    + rewrite lower_root_rep by done. cbn.
      destruct (core_lower D1 P Ls stack v b rest (Some w) w None Hc1 Ht1 He) as [Hc2 Ht2]; [|by right|by left|].
      { destruct (decide (w ∈ P)) as [|HnP]; [by right|]. destruct (decide (w ∈ concat Ls)) as [|HnL]; [by left|].
        pose proof (proj2 (c_none _ _ _ _ _ _ Hc1 w Hwk) (conj HnP HnL)). congruence. }
      destruct (IH _ _ Hc2 Ht2) as (D' & b' & child & -> & Hdone & Hne & Hlen).
      { destruct (lowered_fields D1 v w b) as [_ ->]. unfold D1. by rewrite upd_eq. }
      exists D', b', child. split; [done|]. split; [done|]. split; [|destruct child; lia].
      intros x Hx. rewrite Hne, lowered_frame, HD1 by done. done.
    + rewrite node_modify_rep by done. cbn. exists (upd D1 v (set_pending (Some w))), b, (Some w).
      split; [done|]. split; [split; [|split; [|split; [|split; [|split]]]]|split]; try done.
      * eapply top_prop_ext; [done| |exact Ht1]. intros x r. apply low_set_pending.
      * by apply core_set_pending.
      * unfold upd. case_decide; subst; done.
      * by rewrite upd_eq.
      * intros x Hx. rewrite upd_ne, HD1 by done. done.
      * rewrite upd_eq. cbn. unfold D1. rewrite upd_eq. cbn. lia.
Qed.

(** ** Finishing a visit *)

Lemma core_frames_lt D P Ls stack v b rest ex i j x c :
  core D P Ls stack ((v, b) :: rest) ex → P !! i = Some v → (x, c) ∈ rest → P !! j = Some x → j < i.
Proof.
  intros Hc Hi [k Hk]%list_elem_of_lookup Hj.
  by apply (c_sorted _ _ _ _ _ _ Hc 0 (S k) j i x v c b ltac:(lia)).
Qed.

(** A node that is not the root of its component goes to the stack. *)
Lemma core_push D P Ls stack v rest :
  core D P Ls stack ((v, false) :: rest) None → top_prop D P ((v, false) :: rest) None →
  nd_neighbors (D v) = [] → loop_inv D P Ls (stack ++ [v]) rest.
Proof.
  intros Hc Ht Hns.
  destruct (core_in_P _ _ _ _ _ _ v false Hc (list_elem_of_here _ _)) as [i Hi].
  assert (Hrest : ∀ x c, (x, c) ∈ rest → (x, c) ∈ (v, false) :: rest) by (intros; by apply list_elem_of_further).
  assert (Hc' : core D P Ls (stack ++ [v]) rest None).
  { split; try apply Hc.
    - rewrite (c_perm _ _ _ _ _ _ Hc). cbn. rewrite Permutation_middle, app_assoc. by rewrite (Permutation_app_comm [v]) || solve_Permutation.
    - intros j x Hj. rewrite elem_of_app, list_elem_of_singleton. intros [Hx| ->]; [by apply (c_strict _ _ _ _ _ _ Hc)|].
      intros Hl. by apply (c_flag _ _ _ _ _ _ Hc j v false Hj (list_elem_of_here _ _)) in Hl.
    - intros x. rewrite elem_of_app, list_elem_of_singleton. intros [Hx| ->]; [by apply Hc|done].
    - intros j x c Hj Hx. by apply (c_flag _ _ _ _ _ _ Hc); auto.
    - intros j x c Hj Hx. destruct (c_split _ _ _ _ _ _ Hc j x c Hj (Hrest _ _ Hx)) as (S1 & S2 & -> & H1 & H2).
      exists S1, (S2 ++ [v]). rewrite app_assoc. split; [done|]. split; [done|]. intros y.
      rewrite elem_of_app, list_elem_of_singleton. intros [Hy| ->]; [by apply H2|]. exists i.
      split; [done|]. by eapply core_frames_lt.
    - intros k k' j1 j2 x y c1 c2 Hkk H1 H2. by apply (c_sorted _ _ _ _ _ _ Hc (S k) (S k') j1 j2 x y c1 c2 ltac:(lia)).
    - intros k j1 j2 x y c1 c2 H1 H2. by apply (c_chain _ _ _ _ _ _ Hc (S k) j1 j2 x y c1 c2).
    - intros j1 j2 x c y Hj1 Hx. apply (c_reach _ _ _ _ _ _ Hc j1 j2 x c y Hj1 (Hrest _ _ Hx)).
    - intros x w Hx He. destruct (c_succ _ _ _ _ _ _ Hc x w Hx He) as [?|[?|[?|[[=] _]]]]; auto. }
  destruct rest as [|[u bu] rest].
  - destruct (core_idle _ _ _ _ _ Hc') as [-> _]. done.
  - destruct (core_in_P _ _ _ _ _ _ u bu Hc' (list_elem_of_here _ _)) as [iu Hiu].
    destruct (c_chain _ _ _ _ _ _ Hc 0 iu i u v bu false eq_refl eq_refl Hiu Hi) as (Hp & He & Hb).
    eapply LI_resume; [done| |exact Hp|done|right; by eapply list_elem_of_lookup_2].
    intros u' b' i' j x s Hh Hi' Hij Hx Hs. cbn in Hh. injection Hh as <- <-.
    assert (i' = iu) as -> by (by eapply core_index).
    destruct (core_low _ _ _ _ _ _ _ _ Hc Hiu) as (ru & Hru & _).
    destruct (core_low _ _ _ _ _ _ _ _ Hc Hi) as (rv & Hrv & _).
    destruct (lt_eq_lt_dec j i) as [[Hlt| ->]|Hgt].
    + left. exists ru. split; [done|]. by apply (Hb j x ru s).
    + right. exists v, rv. split; [done|]. split; [done|]. assert (x = v) as -> by congruence.
      rewrite (low_fun _ _ _ _ Hs Hrv). done.
    + right. exists v. destruct (Ht v false i j x s eq_refl Hi Hgt Hx Hs) as [(r & ? & ?)|(? & ? & [=] & _)].
      exists r. done.
Qed.

(** ** Returning a component *)

Definition mark D (l : list N) (r : Z) : data := λ x, if decide (x ∈ l) then set_root (Some r) (D x) else D x.

Lemma nodes_of_ext D D' : (∀ x, D x = D' x) → nodes_of D = nodes_of D'.
Proof. intros HD. unfold nodes_of. by apply list_fmap_ext. Qed.

Lemma mark_cons D w l r : w ∉ l → ∀ x, mark (upd D w (set_root (Some r))) l r x = mark D (w :: l) r x.
Proof.
  intros Hw x. unfold mark, upd. destruct (decide (x = w)) as [->|Hne].
  - rewrite decide_False by done. by rewrite decide_True by apply list_elem_of_here.
  - destruct (decide (x ∈ l)); [rewrite decide_True by (by apply list_elem_of_further); done|].
    rewrite decide_False; [done|]. by intros [?|?]%elem_of_cons.
Qed.

(** The scan marks the nodes above the stopping point and counts them. *)
Lemma scc_scan_ok v r rv rS1 : ∀ rS2 D len,
  v ∈ keys → low D v rv → v ∉ rS2 → NoDup rS2 →
  (∀ x, x ∈ rS2 → x ∈ keys ∧ ∃ s, low D x s ∧ rv ≤ s) →
  (∀ x, x ∈ rS1 → x ∈ keys ∧ x ∉ rS2 ∧ ∃ s, low D x s ∧ s < rv) →
  (0 ≤ len)%Z → (len + Z.of_nat (length rS2) < W64)%Z →
  scc_scan g (rS2 ++ rS1) (nodes_of D) v (Some r) len =
    Ret (length rS1, nodes_of (mark D rS2 r), (len + Z.of_nat (length rS2))%Z).
Proof.
  induction rS2 as [|w rS2 IH]; intros D len Hv Hlv HvS Hnd H2 H1 Hl0 Hlen.
  - cbn [app length]. rewrite (nodes_of_ext (mark D [] r) D) by done. rewrite Z.add_0_r.
    destruct rS1 as [|w rS1]; [done|]. cbn [scc_scan].
    destruct (H1 w (list_elem_of_here _ _)) as (Hwk & _ & s & Hs & Hlt).
    rewrite node_data_rep by done. cbn [mbind outcome_bind]. rewrite node_data_rep by done. cbn [mbind outcome_bind].
    rewrite Hlv, Hs. cbn [root_ltb]. destruct (Z.ltb_spec (Z.of_nat (S s)) (Z.of_nat (S rv))); [done|lia].
  - cbn [app scc_scan]. destruct (H2 w (list_elem_of_here _ _)) as (Hwk & s & Hs & Hle).
    apply NoDup_cons in Hnd as [Hw Hnd]. rewrite not_elem_of_cons in HvS. destruct HvS as [Hvw HvS].
    rewrite node_data_rep by done. cbn [mbind outcome_bind]. rewrite node_data_rep by done. cbn [mbind outcome_bind].
    rewrite Hlv, Hs. cbn [root_ltb]. destruct (Z.ltb_spec (Z.of_nat (S s)) (Z.of_nat (S rv))); [lia|].
    rewrite node_modify_rep by done. cbn [mbind outcome_bind].
    assert (Hkeep : ∀ x t, x ≠ w → low D x t → low (upd D w (set_root (Some r))) x t).
    { intros x t Hx. unfold low. by rewrite upd_ne. }
    cbn [length] in Hlen. assert (Hw64 : wadd64 len 1 = (len + 1)%Z) by (unfold wadd64; rewrite Z.mod_small; lia).
    rewrite IH; try done.
    + rewrite Hw64, (nodes_of_ext _ _ (mark_cons D w rS2 r Hw)). cbn [length]. f_equal. f_equal. lia.
    + by apply Hkeep.
    + intros x Hx. destruct (H2 x (list_elem_of_further _ _ _ Hx)) as (? & t & Ht & ?).
      split; [done|]. exists t. split; [|done]. apply Hkeep; [by intros ->|done].
    + intros x Hx. destruct (H1 x Hx) as (? & Hn & t & Ht & ?). rewrite not_elem_of_cons in Hn.
      split; [done|]. split; [tauto|]. exists t. split; [|done]. apply Hkeep; [tauto|done].
    + lia.
    + lia.
Qed.

(** Where the component of [v] lies in [P] and in the stack. *)
Lemma core_segment D P Ls stack v b rest i :
  core D P Ls stack ((v, b) :: rest) None → P !! i = Some v →
  ∃ S1 S2, stack = S1 ++ S2 ∧
    (∀ x, x ∈ rest.*1 ++ S1 ↔ ∃ j, P !! j = Some x ∧ j < i) ∧
    (∀ x, x ∈ S2 ↔ ∃ j, P !! j = Some x ∧ i < j).
Proof.
  intros Hc Hi.
  destruct (c_split _ _ _ _ _ _ Hc i v b Hi (list_elem_of_here _ _)) as (S1 & S2 & Es & H1 & H2).
  exists S1, S2. split; [done|].
  assert (Hlow : ∀ x, x ∈ rest.*1 ++ S1 → ∃ j, P !! j = Some x ∧ j < i).
  { intros x [([y c] & -> & Hin)%list_elem_of_fmap|Hx]%elem_of_app; [|by apply H1].
    destruct (core_in_P _ _ _ _ _ _ y c Hc (list_elem_of_further _ _ _ Hin)) as [j Hj].
    exists j. split; [done|]. by eapply core_frames_lt. }
  assert (Hcase : ∀ x j, P !! j = Some x → x = v ∨ x ∈ rest.*1 ++ S1 ∨ x ∈ S2).
  { intros x j Hj. apply list_elem_of_lookup_2 in Hj. rewrite (c_perm _ _ _ _ _ _ Hc), Es in Hj. cbn in Hj.
    rewrite elem_of_cons, !elem_of_app in Hj. rewrite elem_of_app. tauto. }
  split; intros x; (split; [auto|]); intros (j & Hj & Hij).
  - destruct (Hcase x j Hj) as [->|[?|Hx]]; [assert (i = j) by (by eapply core_index); lia|done|].
    destruct (H2 x Hx) as (j' & Hj' & ?). assert (j = j') by (by eapply core_index). lia.
  - destruct (Hcase x j Hj) as [->|[Hx|?]]; [assert (i = j) by (by eapply core_index); lia| |done].
    destruct (Hlow x Hx) as (j' & Hj' & ?). assert (j = j') by (by eapply core_index). lia.
Qed.

(** The members of the segment reach each other. *)
Lemma segment_reach D P Ls stack v rest i :
  core D P Ls stack ((v, true) :: rest) None → top_prop D P ((v, true) :: rest) None →
  P !! i = Some v → ∀ j x, i ≤ j → P !! j = Some x → reach v x ∧ reach x v.
Proof.
  intros Hc Ht Hi j. induction j as [j IH] using lt_wf_ind. intros x Hij Hx.
  split; [by eapply (c_reach _ _ _ _ _ _ Hc); [done|apply list_elem_of_here|done|done]|].
  destruct (decide (j = i)) as [->|Hne]; [replace x with v by congruence; apply rtc_refl|].
  assert (Hlv : low D v i) by (by apply (c_flag _ _ _ _ _ _ Hc i v true Hi (list_elem_of_here _ _))).
  destruct (c_prog _ _ _ _ _ _ Hc j x Hx) as (s & u & Hs & Hsj & Hu & Hxu).
  assert (i ≤ s) as His.
  { destruct (Ht v true i j x s eq_refl Hi ltac:(lia) Hx Hs) as [(r & Hr & ?)|(? & ? & [=] & _)].
    rewrite (low_fun _ _ _ _ Hr Hlv) in *. done. }
  assert (s ≠ j) as Hsne.
  { intros ->. eapply (c_strict _ _ _ _ _ _ Hc j x); [done| |done].
    destruct (core_segment _ _ _ _ _ _ _ _ Hc Hi) as (S1 & S2 & -> & _ & H2). rewrite elem_of_app. right.
    apply H2. exists j. split; [done|lia]. }
  destruct (IH s ltac:(lia) u His Hu) as [_ Huv]. by etrans.
Qed.

Lemma elem_of_take_index (l : list N) i x : x ∈ take i l ↔ ∃ j, l !! j = Some x ∧ j < i.
Proof.
  rewrite list_elem_of_lookup. split.
  - intros [j [? ?]%lookup_take_Some]. eauto.
  - intros (j & ? & ?). exists j. by apply lookup_take_Some.
Qed.

(** The state after returning the component of [v], which is the segment of
    [P] from [v] on. *)
Section Emit.
Variables (D : data) (P : list N) (Ls : list (list N)) (S1 S2 : list N) (v : N) (rest : list (N * bool)) (i : nat) (r : Z).
Hypothesis Hc : core D P Ls (S1 ++ S2) ((v, true) :: rest) None.
Hypothesis Ht : top_prop D P ((v, true) :: rest) None.
Hypothesis Hns : nd_neighbors (D v) = [].
Hypothesis Hi : P !! i = Some v.
Hypothesis Hlow : ∀ x, x ∈ rest.*1 ++ S1 ↔ ∃ j, P !! j = Some x ∧ j < i.
Hypothesis Hhigh : ∀ x, x ∈ S2 ↔ ∃ j, P !! j = Some x ∧ i < j.
Hypothesis Hr : (Z.of_nat (length keys) < r)%Z.

Let scc := S2 ++ [v].
Let D' := upd (mark D (reverse S2) r) v (set_root (Some r)).
Let P' := take i P.

Lemma emit_scc x : x ∈ scc ↔ ∃ j, P !! j = Some x ∧ i ≤ j.
Proof.
  unfold scc. rewrite elem_of_app, list_elem_of_singleton, Hhigh. split.
  - intros [(j & ? & ?)| ->]; [exists j; split; [done|lia]|]. exists i. done.
  - intros (j & Hj & Hle). destruct (decide (j = i)) as [->|]; [right; congruence|]. left. exists j. split; [done|lia].
Qed.

Lemma emit_keep x : x ∉ scc → D' x = D x.
Proof.
  intros Hx. unfold scc in Hx. rewrite elem_of_app, list_elem_of_singleton in Hx. unfold D'.
  rewrite upd_ne by tauto. unfold mark. rewrite decide_False; [done|]. rewrite elem_of_reverse. tauto.
Qed.

Lemma emit_root x : x ∈ scc → nd_root (D' x) = Some r.
Proof.
  unfold scc. rewrite elem_of_app, list_elem_of_singleton. intros Hx. unfold D', upd, mark.
  case_decide; [done|]. rewrite decide_True; [done|]. rewrite elem_of_reverse. tauto.
Qed.

Lemma emit_take x : x ∈ P' ↔ ∃ j, P !! j = Some x ∧ j < i.
Proof. apply elem_of_take_index. Qed.

Lemma emit_disjoint x : x ∈ P' → x ∉ scc.
Proof.
  rewrite emit_take, emit_scc. intros (j & Hj & ?) (j' & Hj' & ?).
  assert (j = j') by (by eapply core_index). lia.
Qed.

Lemma emit_union x : x ∈ P ↔ x ∈ P' ∨ x ∈ scc.
Proof.
  rewrite emit_take, emit_scc, list_elem_of_lookup. split; [|naive_solver].
  intros [j Hj]. destruct (le_lt_dec i j); eauto.
Qed.

Lemma emit_lookup j x : P' !! j = Some x ↔ P !! j = Some x ∧ j < i.
Proof. apply lookup_take_Some. Qed.

Lemma emit_low j x s : P' !! j = Some x → low D' x s ↔ low D x s.
Proof.
  intros Hj. unfold low. rewrite emit_keep; [done|]. apply emit_disjoint. by eapply list_elem_of_lookup_2.
Qed.

Lemma emit_nodup : NoDup (S1 ++ S2 ++ [v]) ∧ NoDup (rest.*1 ++ S1).
Proof.
  pose proof (core_NoDup_P _ _ _ _ _ _ Hc) as Hnd. rewrite (c_perm _ _ _ _ _ _ Hc) in Hnd. cbn in Hnd.
  apply NoDup_cons in Hnd as [Hv Hnd]. rewrite !elem_of_app in Hv. split.
  - apply NoDup_app in Hnd as (_ & _ & Hnd). rewrite app_assoc. apply NoDup_app. split; [done|].
    split; [|apply NoDup_singleton]. intros x Hx ->%list_elem_of_singleton. rewrite elem_of_app in Hx. tauto.
  - rewrite app_assoc in Hnd. by apply NoDup_app in Hnd as (? & _ & _).
Qed.

Lemma emit_length : length P = i + length scc.
Proof.
  assert (Hp : drop i P ≡ₚ scc).
  { apply NoDup_Permutation.
    - pose proof (core_NoDup_P _ _ _ _ _ _ Hc) as Hnd. rewrite <- (take_drop i P) in Hnd.
      by apply NoDup_app in Hnd as (_ & _ & ?).
    - destruct emit_nodup as [Hnd _]. by apply NoDup_app in Hnd as (_ & _ & ?).
    - intros x. rewrite emit_scc, list_elem_of_lookup. split.
      + intros [j Hj]. rewrite lookup_drop in Hj. exists (i + j). split; [done|lia].
      + intros (j & Hj & ?). exists (j - i). rewrite lookup_drop. by replace (i + (j - i)) with j by lia. }
  rewrite <- Hp, length_drop. apply lookup_lt_Some in Hi. lia.
Qed.

Lemma emit_emitted : emitted_ok (Ls ++ [scc]).
Proof.
  intros k sc [Hk|[-> ->]]%lookup_snoc_inv.
  - destruct (c_emitted _ _ _ _ _ _ Hc k sc Hk) as (? & ? & Hcl). split; [done|]. split; [done|].
    intros x w Hx He. destruct (Hcl x w Hx He) as (k' & sc' & ? & ? & ?). exists k', sc'.
    split; [done|]. split; [by apply lookup_app_l_Some|done].
  - split; [unfold scc; by intros [_ [=]]%app_eq_nil|]. split.
    + intros x y (j & Hj & ?)%emit_scc (j' & Hj' & ?)%emit_scc.
      destruct (segment_reach _ _ _ _ _ _ _ Hc Ht Hi j x) as [_ ?]; [done..|].
      destruct (segment_reach _ _ _ _ _ _ _ Hc Ht Hi j' y) as [? _]; [done..|]. by etrans.
    + intros x w Hx He.
      assert (Hin : w ∈ concat Ls ∨ w ∈ scc).
      { assert (HxP : x ∈ P) by (apply emit_union; by right).
        assert (Hrem : nd_neighbors (D x) = []).
        { unfold scc in Hx. rewrite elem_of_app, list_elem_of_singleton in Hx. destruct Hx as [Hx| ->]; [|done].
          apply (c_finished _ _ _ _ _ _ Hc). rewrite elem_of_app. by right. }
        destruct (c_succ _ _ _ _ _ _ Hc x w HxP He) as [Hw|[?|[(j & s & Hj & Hs & Hle)|[[=] _]]]]; [|by left|].
        - rewrite Hrem in Hw. by apply elem_of_nil in Hw.
        - right. apply emit_scc. exists j. split; [done|]. etrans; [|exact Hle].
          apply emit_scc in Hx as (jx & Hjx & Hijx).
          assert (Hlv : low D v i) by (by apply (c_flag _ _ _ _ _ _ Hc i v true Hi (list_elem_of_here _ _))).
          destruct (decide (jx = i)) as [->|].
          + assert (x = v) as -> by congruence. rewrite (low_fun _ _ _ _ Hs Hlv). done.
          + destruct (Ht v true i jx x s eq_refl Hi ltac:(lia) Hjx Hs) as [(r0 & Hr0 & ?)|(? & ? & [=] & _)].
            rewrite (low_fun _ _ _ _ Hr0 Hlv) in *. done. }
      destruct Hin as [(sc & Hw & Hsc)%elem_of_concat|Hw].
      * apply list_elem_of_lookup in Hsc as [k Hk]. exists k, sc. pose proof (lookup_lt_Some _ _ _ Hk).
        split; [lia|]. split; [by apply lookup_app_l_Some|done].
      * exists (length Ls), scc. split; [done|]. split; [by apply list_lookup_middle|done].
Qed.

Lemma emit_concat : concat (Ls ++ [scc]) = concat Ls ++ scc.
Proof. rewrite concat_app. cbn. by rewrite app_nil_r. Qed.

Lemma emit_frame x c : (x, c) ∈ rest → x ∈ P'.
Proof.
  intros Hx. apply emit_take, Hlow. rewrite elem_of_app. left. apply list_elem_of_fmap. by exists (x, c).
Qed.

Lemma emit_core : core D' P' (Ls ++ [scc]) S1 rest None.
Proof.
  assert (HP : ∀ j x, P' !! j = Some x → P !! j = Some x) by (intros j x Hj; by apply emit_lookup in Hj as [? _]).
  assert (HinP : ∀ x, x ∈ P' → x ∈ P) by (intros; apply emit_union; by left).
  assert (HS1 : ∀ x, x ∈ S1 → x ∈ P') by (intros x Hx; apply emit_take, Hlow; rewrite elem_of_app; by right).
  assert (HD : ∀ x, x ∈ P' → D' x = D x) by (intros x Hx; by apply emit_keep, emit_disjoint).
  assert (Hfr : ∀ x c, (x, c) ∈ rest → (x, c) ∈ (v, true) :: rest) by (intros; by apply list_elem_of_further).
  destruct emit_nodup as [Hnd1 Hnd2].
  split; try rewrite emit_concat.
  - intros x. rewrite elem_of_app. intros Hx. apply (c_keys _ _ _ _ _ _ Hc). rewrite emit_union. tauto.
  - pose proof (c_nodup _ _ _ _ _ _ Hc) as (HndP & Hd & HndL)%NoDup_app. rewrite !NoDup_app.
    split; [|split; [|split; [done|split]]].
    + unfold P'. rewrite <- (take_drop i P) in HndP. by apply NoDup_app in HndP as (? & _ & _).
    + intros x Hx. rewrite elem_of_app. intros [?|Hs]; [by eapply Hd; [apply HinP|]|by apply emit_disjoint in Hx].
    + intros x Hx Hs. eapply Hd; [apply emit_union; right; exact Hs|done].
    + by apply NoDup_app in Hnd1 as (_ & _ & ?).
  - intros x Hx. rewrite elem_of_app. destruct (decide (x ∈ scc)) as [Hs|Hs].
    + rewrite emit_root by done. split; [done|tauto].
    + rewrite emit_keep, (c_none _ _ _ _ _ _ Hc x Hx), emit_union by done. tauto.
  - intros x Hx. destruct (decide (x ∈ scc)) as [Hs|Hs]; [by rewrite emit_root|].
    rewrite emit_keep by done. by apply Hc.
  - intros x. rewrite elem_of_app. destruct (decide (x ∈ scc)) as [Hs|Hs]; [rewrite emit_root by done; eauto|].
    rewrite emit_keep by done. intros [?|?]; [by apply Hc|done].
  - intros j x Hj. destruct (c_prog _ _ _ _ _ _ Hc j x (HP _ _ Hj)) as (s & u & ? & ? & ? & ?).
    exists s, u. rewrite (emit_low j) by done. repeat split; [done..| |done].
    apply emit_lookup. apply emit_lookup in Hj as [_ ?]. split; [done|lia].
  - apply NoDup_Permutation; [|done|].
    + pose proof (core_NoDup_P _ _ _ _ _ _ Hc) as HndP. unfold P'. rewrite <- (take_drop i P) in HndP.
      by apply NoDup_app in HndP as (? & _ & _).
    + intros x. by rewrite emit_take, Hlow.
  - intros j x Hj Hx. rewrite (emit_low j) by done. apply (c_strict _ _ _ _ _ _ Hc); [by apply HP|].
    rewrite elem_of_app. by left.
  - intros x w Hx. rewrite HD by done. apply (c_rem _ _ _ _ _ _ Hc). by apply HinP.
  - intros x Hx. rewrite HD by auto. apply (c_finished _ _ _ _ _ _ Hc). rewrite elem_of_app. by left.
  - intros j x c Hj Hx. rewrite (emit_low j) by done. apply (c_flag _ _ _ _ _ _ Hc); auto.
  - intros j x c Hj Hx.
    destruct (c_split _ _ _ _ _ _ Hc j x c (HP _ _ Hj) (Hfr _ _ Hx)) as (T1 & T2 & ET & H1 & H2).
    assert (Hpre : ∃ T, S1 = T1 ++ T).
    { apply app_eq_app in ET as [T [[-> _]|[-> ->]]]; [by exists T|]. destruct T as [|y T]; [exists []; by rewrite !app_nil_r|].
      exfalso. destruct (H1 y) as (jy & Hjy & ?); [rewrite elem_of_app; right; apply list_elem_of_here|].
      destruct (proj1 (Hhigh y)) as (jy' & Hjy' & ?); [apply elem_of_app; left; apply list_elem_of_here|].
      assert (jy = jy') by (by eapply core_index). apply emit_lookup in Hj as [_ ?]. lia. }
    destruct Hpre as [T ->]. exists T1, T. rewrite <- app_assoc in ET. apply app_inv_head in ET. subst T2.
    split; [done|].
    assert (Hback : ∀ y, y ∈ T1 ++ T → ∃ jy, P !! jy = Some y ∧ jy < i) by (intros y Hy; by apply emit_take, HS1).
    split; intros y Hy.
    + destruct (H1 y Hy) as (jy & Hjy & ?). exists jy. split; [|done]. apply emit_lookup. split; [done|].
      apply emit_lookup in Hj as [_ ?]. lia.
    + destruct (H2 y) as (jy & Hjy & ?); [rewrite elem_of_app; by left|].
      destruct (Hback y) as (jy' & Hjy' & ?); [rewrite elem_of_app; by right|].
      assert (jy = jy') as -> by (by eapply core_index). exists jy'. split; [by apply emit_lookup|done].
  - intros k k' j1 j2 x y c1 c2 Hkk Hk Hk' Hj1 Hj2.
    apply (c_sorted _ _ _ _ _ _ Hc (S k) (S k') j1 j2 x y c1 c2 ltac:(lia)); auto.
  - intros k j1 j2 x y c1 c2 Hk Hk' Hj1 Hj2. rewrite HD by (by eapply list_elem_of_lookup_2).
    destruct (c_chain _ _ _ _ _ _ Hc (S k) j1 j2 x y c1 c2 Hk Hk' (HP _ _ Hj1) (HP _ _ Hj2)) as (? & ? & Hb).
    split; [done|]. split; [done|]. intros m z s t Hm Hz. rewrite (emit_low j1), (emit_low m) by done. apply (Hb m z); auto.
  - intros j1 j2 x c y Hj1 Hx Hj2 Hle. apply (c_reach _ _ _ _ _ _ Hc j1 j2 x c y); auto.
  - intros x w Hx He. rewrite HD by done.
    destruct (c_succ _ _ _ _ _ _ Hc x w (HinP _ Hx) He) as [?|[?|[(j & s & Hj & Hs & Hle)|[[=] _]]]]; [by left|rewrite elem_of_app; auto|].
    destruct (le_lt_dec i j).
    + right; left. rewrite elem_of_app. right. apply emit_scc. eauto.
    + right; right; left. exists j, s. split; [by apply emit_lookup|]. split; [|done].
      unfold low. by rewrite HD.
  - apply emit_emitted.
Qed.

Lemma emit_loop_inv : loop_inv D' P' (Ls ++ [scc]) S1 rest.
Proof.
  pose proof emit_core as Hc'. pose proof Hc as Hc0.
  generalize (eq_refl rest). generalize rest at 1 3. intros fr Er. rewrite <- Er in Hc', Hc0.
  destruct fr as [|[u bu] rest']; [by apply LI_idle|].
  destruct (core_in_P _ _ _ _ _ _ u bu Hc' (list_elem_of_here _ _)) as [iu Hiu].
  apply emit_lookup in Hiu as [Hiu Hlt].
  destruct (c_chain _ _ _ _ _ _ Hc0 0 iu i u v bu true eq_refl eq_refl Hiu Hi) as (Hp & He & Hb).
  assert (HuP : P' !! iu = Some u) by (by apply emit_lookup).
  eapply (LI_resume _ _ _ _ u bu rest' v).
  - done.
  - intros u' b' i' j x s Hh Hi' Hij Hx Hs. cbn in Hh. injection Hh as <- <-.
    assert (i' = iu) as -> by (exact (core_index _ _ _ _ _ _ _ _ _ Hc' Hi' HuP)). left.
    destruct (core_low _ _ _ _ _ _ _ _ Hc' HuP) as (ru & Hru & _). exists ru. split; [done|].
    rewrite (emit_low iu) in Hru by done. rewrite (emit_low j) in Hs by done. apply emit_lookup in Hx as [Hx ?].
    by apply (Hb j x ru s).
  - rewrite emit_keep; [done|]. apply emit_disjoint. by eapply list_elem_of_lookup_2.
  - done.
  - left. rewrite emit_concat. unfold scc. rewrite !elem_of_app, list_elem_of_singleton. tauto.
Qed.

End Emit.

(** ** The loop *)

Hypothesis Hsmall : (2 * Z.of_nat (length keys) + 1 < u64_max)%Z.

(** The first half of a visit: its index and the child it waited for. *)
Lemma visit_enter D P Ls stack v b below :
  loop_inv D P Ls stack ((v, b) :: below) →
  v ∈ keys ∧ ∃ D1 P1 b1 nodes1, visit_begin g (nodes_of D) (1 + Z.of_nat (length P)) v = Ret (nodes1, (1 + Z.of_nat (length P1))%Z) ∧
    visit_pending g nodes1 v b = Ret (nodes_of D1, b1) ∧
    core D1 P1 Ls stack ((v, b1) :: below) None ∧ top_prop D1 P1 ((v, b1) :: below) None ∧
    (∀ x, nd_neighbors (D1 x) = nd_neighbors (D x)) ∧ nd_root (D1 v) ≠ None ∧
    (∀ x, x ≠ v → nd_root (D1 x) = nd_root (D x)).
Proof.
  intros Hinv. inversion Hinv as [|w frames Hc Ht Hk Hnone Hhead Hst|v' b' rest c Hc Ht Hp He Hcin Hst]; subst.
  - split; [done|]. set (D1 := upd D v (set_root (Some (Z.of_nat (S (length P)))))).
    pose proof (core_length _ _ _ _ _ _ Hc) as Hlen.
    assert (Hmod : NonZeroUsize_new (1 + Z.of_nat (length P)) = Some (Z.of_nat (S (length P)))).
    { unfold NonZeroUsize_new. destruct (Z.eqb_spec (1 + Z.of_nat (length P)) 0); [lia|]. f_equal. lia. }
    destruct (core_start _ _ _ _ _ _ Hc Ht Hk Hnone Hhead) as [Hc1 Ht1]. fold D1 in Hc1, Ht1.
    exists D1, (P ++ [v]), true, (nodes_of D1). split; [|split; [|split; [done|split; [done|split; [|split]]]]].
    + unfold visit_begin. rewrite node_data_rep by done. cbn [mbind outcome_bind]. rewrite Hnone, Hmod, node_modify_rep by done.
      cbn [mbind outcome_bind]. rewrite length_app. cbn [length]. do 2 f_equal. unfold wadd64. rewrite Z.mod_small; [lia|].
      unfold u64_max in Hsmall. lia.
    + unfold visit_pending. rewrite node_data_rep by done. cbn [mbind outcome_bind].
      assert (nd_pending (D1 v) = None) as ->; [|done].
      unfold D1. rewrite upd_eq. cbn. by apply (c_fresh _ _ _ _ _ _ Hc v Hk Hnone).
    + intros x. unfold D1, upd. by case_decide; subst.
    + unfold D1. by rewrite upd_eq.
    + intros x Hx. unfold D1. by rewrite upd_ne.
  - destruct (core_in_P _ _ _ _ _ _ v b Hc (list_elem_of_here _ _)) as [i Hi].
    assert (Hk : v ∈ keys) by (apply (c_keys _ _ _ _ _ _ Hc); left; by eapply list_elem_of_lookup_2).
    split; [done|]. destruct (core_low _ _ _ _ _ _ _ _ Hc Hi) as (r & Hr & _).
    set (D0 := upd D v (set_pending None)).
    assert (Hc0 : core D0 P Ls stack ((v, b) :: below) None) by (by apply core_set_pending).
    assert (Ht0 : top_prop D0 P ((v, b) :: below) (Some c)).
    { intros v' b' i' j x s Hh Hi' Hij Hx Hs. apply low_set_pending in Hs.
      destruct (Ht v' b' i' j x s Hh Hi' Hij Hx Hs) as [(r0 & ? & ?)|(c0 & r0 & ? & ? & ?)]; [left|right; exists c0];
        exists r0; unfold D0; rewrite low_set_pending; auto. }
    destruct (core_lower D0 P Ls stack v b below None c (Some c) Hc0 Ht0 He Hcin) as [Hc1 Ht1]; [by left|by right|].
    destruct (edge_keys v c He) as [_ Hck].
    exists (lowered D0 v c b).1, P, (lowered D0 v c b).2, (nodes_of D). split; [|split; [|split; [done|split; [done|split; [|split]]]]].
    + unfold visit_begin. rewrite node_data_rep by done. cbn [mbind outcome_bind]. by rewrite Hr.
    + unfold visit_pending. rewrite node_data_rep by done. cbn [mbind outcome_bind]. rewrite Hp, node_modify_rep by done.
      cbn [mbind outcome_bind]. by rewrite lower_root_rep.
    + intros x. destruct (decide (x = v)) as [->|Hx].
      * destruct (lowered_fields D0 v c b) as [_ ->]. unfold D0. by rewrite upd_eq.
      * rewrite lowered_frame by done. unfold D0. by rewrite upd_ne.
    + destruct (core_low _ _ _ _ _ _ _ _ Hc1 Hi) as (r' & Hr' & _). by rewrite Hr'.
    + intros x Hx. rewrite lowered_frame by done. unfold D0. by rewrite upd_ne.
Qed.

(** Neighbors left to examine. *)
Definition nsum D : nat := sum_list ((λ d, length (nd_neighbors d)) <$> nodes_of D).

Lemma nsum_le_aux D D' (l : list N) :
  (∀ x, length (nd_neighbors (D' x)) ≤ length (nd_neighbors (D x))) →
  sum_list ((λ d, length (nd_neighbors d)) <$> (D' <$> l)) ≤ sum_list ((λ d, length (nd_neighbors d)) <$> (D <$> l)) ∧
  ((∃ v, v ∈ l ∧ length (nd_neighbors (D' v)) < length (nd_neighbors (D v))) →
   sum_list ((λ d, length (nd_neighbors d)) <$> (D' <$> l)) < sum_list ((λ d, length (nd_neighbors d)) <$> (D <$> l))).
Proof.
  intros Hle. induction l as [|x l [IH1 IH2]]; cbn; [split; [done|by intros (v & ?%elem_of_nil & _)]|].
  specialize (Hle x). split; [lia|]. intros (v & [->|Hv]%elem_of_cons & Hlt); [lia|].
  assert (∃ v, v ∈ l ∧ length (nd_neighbors (D' v)) < length (nd_neighbors (D v))) as He by eauto.
  specialize (IH2 He). lia.
Qed.

Lemma nsum_le D D' : (∀ x, length (nd_neighbors (D' x)) ≤ length (nd_neighbors (D x))) → nsum D' ≤ nsum D.
Proof. apply nsum_le_aux. Qed.

Lemma nsum_lt D D' v :
  (∀ x, length (nd_neighbors (D' x)) ≤ length (nd_neighbors (D x))) → v ∈ keys →
  length (nd_neighbors (D' v)) < length (nd_neighbors (D v)) → nsum D' < nsum D.
Proof. intros Hle Hv Hlt. apply nsum_le_aux; [done|]. by exists v. Qed.

(** Finishing a visit whose node is the root of its component. *)
Lemma emit_scan D P Ls stack v rest r :
  core D P Ls stack ((v, true) :: rest) None → top_prop D P ((v, true) :: rest) None →
  nd_neighbors (D v) = [] → (Z.of_nat (length keys) < r)%Z →
  ∃ D' P' S1 sc, stack ++ [v] = S1 ++ sc ∧
    (∃ nodes, scc_scan g (reverse stack) (nodes_of D) v (Some r) 1 = Ret (length S1, nodes, Z.of_nat (length sc)) ∧
              node_modify g nodes v (set_root (Some r)) = Ret (nodes_of D')) ∧
    loop_inv D' P' (Ls ++ [sc]) S1 rest ∧ length P = length P' + length sc ∧
    (∀ x, nd_neighbors (D' x) = nd_neighbors (D x)) ∧
    (∀ x, nd_root (D x) ≠ None → nd_root (D' x) ≠ None).
Proof.
  intros Hc Ht Hns Hr.
  destruct (core_in_P _ _ _ _ _ _ v true Hc (list_elem_of_here _ _)) as [i Hi].
  assert (Hk : v ∈ keys) by (apply (c_keys _ _ _ _ _ _ Hc); left; by eapply list_elem_of_lookup_2).
  assert (Hlv : low D v i) by (by apply (c_flag _ _ _ _ _ _ Hc i v true Hi (list_elem_of_here _ _))).
  destruct (core_segment _ _ _ _ _ _ _ _ Hc Hi) as (S1 & S2 & -> & Hlow & Hhigh).
  assert (Hlen : length P = i + length (S2 ++ [v])) by (by eapply emit_length).
  assert (Hnd : NoDup (S1 ++ S2 ++ [v])) by (by eapply emit_nodup).
  exists (upd (mark D (reverse S2) r) v (set_root (Some r))), (take i P), S1, (S2 ++ [v]).
  split; [by rewrite app_assoc|]. split; [|split; [|split; [|split]]].
  - exists (nodes_of (mark D (reverse S2) r)). split; [|by rewrite node_modify_rep].
    rewrite reverse_app. erewrite (scc_scan_ok v r i).
    + do 2 f_equal; [f_equal|]; [by rewrite length_reverse|]. rewrite length_app, length_reverse. cbn. lia.
    + done.
    + done.
    + rewrite elem_of_reverse. intros Hv%Hhigh. destruct Hv as (j & Hj & ?). assert (i = j) by (by eapply core_index). lia.
    + rewrite reverse_Permutation. apply NoDup_app in Hnd as (_ & _ & Hnd). by apply NoDup_app in Hnd as (? & _ & _).
    + intros x. rewrite elem_of_reverse, Hhigh. intros (j & Hj & Hij).
      split; [apply (c_keys _ _ _ _ _ _ Hc); left; by eapply list_elem_of_lookup_2|].
      destruct (core_low _ _ _ _ _ _ _ _ Hc Hj) as (s & Hs & _). exists s. split; [done|].
      destruct (Ht v true i j x s eq_refl Hi Hij Hj Hs) as [(r0 & Hr0 & ?)|(? & ? & [=] & _)].
      by rewrite (low_fun _ _ _ _ Hr0 Hlv) in *.
    + intros x. rewrite !elem_of_reverse. intros Hx. destruct (proj1 (Hlow x)) as (j & Hj & Hij); [rewrite elem_of_app; by right|].
      split; [apply (c_keys _ _ _ _ _ _ Hc); left; by eapply list_elem_of_lookup_2|]. split.
      * rewrite Hhigh. intros (j' & Hj' & ?). assert (j = j') by (by eapply core_index). lia.
      * destruct (core_low _ _ _ _ _ _ _ _ Hc Hj) as (s & Hs & ?). exists s. split; [done|lia].
    + done.
    + rewrite length_reverse. pose proof (core_length _ _ _ _ _ _ Hc). rewrite length_app in Hlen. unfold u64_max in Hsmall. lia.
  - by eapply emit_loop_inv.
  - rewrite length_take. apply lookup_lt_Some in Hi. lia.
  - intros x. unfold upd, mark. repeat case_decide; by subst.
  - intros x. unfold upd, mark. by repeat case_decide.
Qed.

Lemma visit_once_ok D P Ls stack v b below un scc :
  loop_inv D P Ls stack ((v, b) :: below) →
  (u64_max - Z.of_nat (length (concat Ls)) ≤ scc ≤ u64_max)%Z →
  ∃ D' P', (∀ x, nd_root (D x) ≠ None → nd_root (D' x) ≠ None) ∧ nd_root (D' v) ≠ None ∧
  let st := mkTarjan un (nodes_of D) (1 + Z.of_nat (length P)) scc stack below None None in
  (∃ stack' vis', visit_once g st v b =
      Ret (None, mkTarjan un (nodes_of D') (1 + Z.of_nat (length P')) scc stack' vis' None None) ∧
    loop_inv D' P' Ls stack' vis' ∧ 2 * nsum D' + length vis' ≤ 2 * nsum D + length below) ∨
  (∃ st' S1 sc, visit_once g st v b = Ret (Some (length S1), st') ∧ t_stack st' = S1 ++ sc ∧
    scc_cleanup st' = mkTarjan un (nodes_of D') (1 + Z.of_nat (length P')) (scc - 1) S1 below None None ∧
    loop_inv D' P' (Ls ++ [sc]) S1 below ∧ sc ≠ [] ∧ nsum D' ≤ nsum D).
Proof.
  intros Hinv Hscc.
  destruct (visit_enter _ _ _ _ _ _ _ Hinv) as (Hk & D1 & P1 & b1 & nodes1 & Hbeg & Hpend & Hc1 & Ht1 & Hn1 & Hrv & Hr1).
  destruct (visit_neighbors_ok P1 Ls stack v below _ D1 b1 Hc1 Ht1 eq_refl) as (D2 & b2 & child & Hvis & [Ht2 Hdone] & Hne & Hlen).
  assert (Hmono : ∀ x, x ≠ v → nd_root (D x) ≠ None → nd_root (D2 x) ≠ None).
  { intros x Hx. by rewrite Hne, Hr1 by done. }
  assert (Hin2 : ∀ ex, core D2 P1 Ls stack ((v, b2) :: below) ex → nd_root (D2 v) ≠ None).
  { intros ex Hc2. destruct (core_in_P _ _ _ _ _ _ v b2 Hc2 (list_elem_of_here _ _)) as [i Hi].
    destruct (core_low _ _ _ _ _ _ _ _ Hc2 Hi) as (r & Hr & _). by rewrite Hr. }
  assert (Hle : ∀ x, length (nd_neighbors (D2 x)) ≤ length (nd_neighbors (D x))).
  { intros x. rewrite <- Hn1. destruct (decide (x = v)) as [->|Hx]; [|by rewrite Hne]. lia. }
  assert (Hgoal : ∀ D', (∀ x, nd_root (D2 x) ≠ None → nd_root (D' x) ≠ None) → nd_root (D2 v) ≠ None →
    (∀ x, nd_root (D x) ≠ None → nd_root (D' x) ≠ None) ∧ nd_root (D' v) ≠ None).
  { intros D' HD' Hv2. split; [|by apply HD']. intros x Hx. apply HD'.
    destruct (decide (x = v)) as [->|]; [done|by apply Hmono]. }
  assert (Hrun : ∀ k, visit_once g (mkTarjan un (nodes_of D) (1 + Z.of_nat (length P)) scc stack below None None) v b = k ↔
    match child with
    | Some w => Ret (None, mkTarjan un (nodes_of D2) (1 + Z.of_nat (length P1)) scc stack ((w, true) :: (v, b2) :: below) None None)
    | None =>
      if negb b2 then Ret (None, mkTarjan un (nodes_of D2) (1 + Z.of_nat (length P1)) scc (stack ++ [v]) below None None)
      else '(start, nodes, len) ← scc_scan g (reverse stack) (nodes_of D2) v (NonZeroUsize_new scc) 1;
           nodes ← node_modify g nodes v (set_root (NonZeroUsize_new scc));
           Ret (Some start, mkTarjan un nodes (1 + Z.of_nat (length P1)) scc (stack ++ [v]) below (Some start) (Some len))
    end = k).
  { intros k. unfold visit_once. cbn [t_nodes t_dfs_index t_unchecked t_stack t_visitation t_scc_index t_scc_start t_scc_len].
    rewrite Hbeg. cbn [mbind outcome_bind]. rewrite Hpend. cbn [mbind outcome_bind].
    rewrite node_data_rep by done. cbn [mbind outcome_bind]. rewrite Hvis. cbn [mbind outcome_bind]. done. }
  destruct child as [w|].
  - destruct Hdone as (Hc2 & Hwk & Hwn & He & Hp). exists D2, P1.
    destruct (Hgoal D2) as [? ?]; [done|by eapply Hin2|]. split; [done|]. split; [done|]. left.
    exists stack, ((w, true) :: (v, b2) :: below). split; [by apply Hrun|]. split.
    + apply LI_fresh; try done. intros v' b' [= <- <-]. done.
    + pose proof (nsum_lt D D2 v Hle Hk) as Hlt. rewrite Hn1 in Hlen. specialize (Hlt ltac:(lia)). cbn. lia.
  - destruct Hdone as [Hc2 Hns]. destruct b2; cbn [negb] in Hrun.
    + pose proof (core_length _ _ _ _ _ _ Hc2) as HlenP.
      assert (Hid : NonZeroUsize_new scc = Some scc).
      { unfold NonZeroUsize_new. destruct (Z.eqb_spec scc 0); [|done]. lia. }
      destruct (emit_scan D2 P1 Ls stack v below scc Hc2 Ht2 Hns ltac:(lia))
        as (D' & P' & S1 & sc & Hst & (nodes & Hscan & Hmod) & Hinv' & HP & Hn' & Hr').
      assert (Hne' : sc ≠ []).
      { intros ->. rewrite app_nil_r in Hst. subst S1.
        assert (core D' P' (Ls ++ [[]]) (stack ++ [v]) below None ∨ ∃ w, core D' P' (Ls ++ [[]]) (stack ++ [v]) (tail below) (Some w)) as Hcc.
        { inversion Hinv'; subst; cbn; eauto. }
        destruct Hcc as [Hcc|[w Hcc]]; destruct (c_emitted _ _ _ _ _ _ Hcc (length Ls) [] (list_lookup_middle _ _ _ _ eq_refl)) as [? _]; done. }
      exists D', P'. destruct (Hgoal D') as [? ?]; [done|by eapply Hin2|]. split; [done|]. split; [done|]. right.
      exists (mkTarjan un (nodes_of D') (1 + Z.of_nat (length P1)) scc (stack ++ [v]) below (Some (length S1)) (Some (Z.of_nat (length sc)))), S1, sc.
      split; [|split; [done|split; [|split; [done|split; [done|]]]]].
      * apply Hrun. rewrite Hid, Hscan. cbn [mbind outcome_bind]. by rewrite Hmod.
      * unfold scc_cleanup. cbn. rewrite Hst, take_app_length. unfold wsub64. rewrite !Z.mod_small; [f_equal; lia|..]; unfold u64_max in *; lia.
      * apply nsum_le. intros x. rewrite Hn'. apply Hle.
    + exists D2, P1. destruct (Hgoal D2) as [? ?]; [done|by eapply Hin2|]. split; [done|]. split; [done|]. left.
      exists (stack ++ [v]), below. split; [by apply Hrun|]. split; [by apply core_push|].
      pose proof (nsum_le D D2 Hle). lia.
Qed.

(** Every node is still to be checked, visited, or about to be. *)
Definition cover (un : list N) D (vis : list (N * bool)) : Prop :=
  (∀ x, x ∈ un → x ∈ keys) ∧
  ∀ x, x ∈ keys → x ∈ un ∨ nd_root (D x) ≠ None ∨ ∃ b, head vis = Some (x, b).

Lemma next_unvisited_ok D un :
  (∀ x, x ∈ un → x ∈ keys) →
  (next_unvisited g un (nodes_of D) = Ret (None, []) ∧ ∀ x, x ∈ un → nd_root (D x) ≠ None) ∨
  (∃ v un', next_unvisited g un (nodes_of D) = Ret (Some v, un') ∧ v ∈ keys ∧ nd_root (D v) = None ∧
     length un' < length un ∧ (∀ x, x ∈ un' → x ∈ keys) ∧
     ∀ x, x ∈ un → x = v ∨ x ∈ un' ∨ nd_root (D x) ≠ None).
Proof.
  induction un as [|y un IH]; intros Hk; cbn [next_unvisited].
  - left. split; [done|]. by intros x ?%elem_of_nil.
  - rewrite node_data_rep by (apply Hk, list_elem_of_here). cbn [mbind outcome_bind].
    assert (Hk' : ∀ x, x ∈ un → x ∈ keys) by (intros; apply Hk; by apply list_elem_of_further).
    destruct (nd_root (D y)) as [r|] eqn:Er.
    + destruct (IH Hk') as [[E Hall]|(v & un' & E & ? & ? & ? & ? & Hall)]; rewrite E.
      * left. split; [done|]. intros x [->|Hx]%elem_of_cons; [by rewrite Er|by apply Hall].
      * right. exists v, un'. split; [done|]. split; [done|]. split; [done|]. split; [cbn; lia|]. split; [done|].
        intros x [->|Hx]%elem_of_cons; [right; right; by rewrite Er|by apply Hall].
    + right. exists y, un. split; [done|]. split; [apply Hk, list_elem_of_here|]. split; [done|]. split; [cbn; lia|].
      split; [done|]. intros x [->|Hx]%elem_of_cons; auto.
Qed.

Lemma core_ex_idle D P Ls stack w : core D P Ls stack [] None → core D P Ls stack [] (Some w).
Proof.
  intros Hc. split; try apply Hc. intros v x Hv He.
  destruct (c_succ _ _ _ _ _ _ Hc v x Hv He) as [?|[?|[?|[[=] _]]]]; auto.
Qed.

Lemma next_scc_loop_ok fuel : ∀ D P Ls stack vis un scc,
  loop_inv D P Ls stack vis → cover un D vis →
  (u64_max - Z.of_nat (length (concat Ls)) ≤ scc ≤ u64_max)%Z →
  2 * length un + 2 * nsum D + length vis < fuel →
  let st := mkTarjan un (nodes_of D) (1 + Z.of_nat (length P)) scc stack vis None None in
  (∃ st' D', next_scc_loop g fuel st = Ret (None, st') ∧ core D' [] Ls [] [] None ∧ ∀ x, x ∈ keys → x ∈ concat Ls) ∨
  (∃ st' sc D' P' S1 vis' un', next_scc_loop g fuel st = Ret (Some sc, st') ∧
    scc_cleanup st' = mkTarjan un' (nodes_of D') (1 + Z.of_nat (length P')) (scc - 1) S1 vis' None None ∧
    loop_inv D' P' (Ls ++ [sc]) S1 vis' ∧ cover un' D' vis' ∧ sc ≠ []).
Proof.
  induction fuel as [|fuel IH]; intros D P Ls stack vis un scc Hinv [Hun Hcov] Hscc Hfuel; [lia|].
  cbn [next_scc_loop t_visitation]. destruct vis as [|[v b] below].
  - cbn [t_unchecked t_nodes].
    assert (Hc : core D P Ls stack [] None) by (by inversion Hinv). destruct (core_idle _ _ _ _ _ Hc) as [-> ->].
    destruct (next_unvisited_ok D un Hun) as [[-> Hall]|(v & un' & -> & Hvk & Hvn & Hlt & Hk' & Hall)]; cbn [mbind outcome_bind].
    + left. eexists _, D. split; [done|]. split; [done|]. intros x Hx.
      assert (Hr : nd_root (D x) ≠ None) by (destruct (Hcov x Hx) as [?|[?|[? [=]]]]; auto).
      destruct (decide (x ∈ concat Ls)) as [|Hn]; [done|]. destruct Hr. apply (c_none _ _ _ _ _ _ Hc x Hx).
      split; [apply not_elem_of_nil|done].
    + apply (IH D [] Ls [] [(v, true)] un' scc); [| |done|cbn in *; lia].
      * apply LI_fresh; try done. by apply core_ex_idle.
      * split; [done|]. intros x Hx. destruct (Hcov x Hx) as [Hin|[?|[? [=]]]]; [|auto].
        destruct (Hall x Hin) as [->|[?|?]]; eauto.
  - cbn [t_unchecked t_nodes t_dfs_index t_scc_index t_stack t_scc_start t_scc_len].
    destruct (visit_once_ok D P Ls stack v b below un scc Hinv Hscc)
      as (D' & P' & Hmono & Hv & [(stack' & vis' & -> & Hinv' & Hle)|(st' & S1 & sc & -> & Hst & Hclean & Hinv' & Hne & Hle)]);
      cbn [mbind outcome_bind].
    + apply (IH D' P' Ls stack' vis' un scc Hinv'); [|done|cbn in Hfuel; lia].
      split; [done|]. intros x Hx. destruct (Hcov x Hx) as [?|[?|[c Hh]]]; [auto|right; left; auto|].
      cbn in Hh. injection Hh as <- _. auto.
    + right. exists st', sc, D', P', S1, below, un. rewrite Hst, drop_app_length. split; [done|]. split; [done|].
      split; [done|]. split; [|done]. split; [done|]. intros x Hx.
      destruct (Hcov x Hx) as [?|[?|[c Hh]]]; [auto|right; left; auto|]. cbn in Hh. injection Hh as <- _. auto.
Qed.

Lemma loop_inv_core D P Ls stack vis : loop_inv D P Ls stack vis → ∃ frames ex, core D P Ls stack frames ex.
Proof. intros Hinv. inversion Hinv; eauto. Qed.

Lemma collect_sccs_ok fuel : ∀ st D P Ls stack vis un scc,
  scc_cleanup st = mkTarjan un (nodes_of D) (1 + Z.of_nat (length P)) scc stack vis None None →
  loop_inv D P Ls stack vis → cover un D vis →
  (u64_max - Z.of_nat (length (concat Ls)) ≤ scc ≤ u64_max)%Z →
  length keys < fuel + length (concat Ls) →
  ∃ sccs, collect_sccs g fuel st = Ret sccs ∧ emitted_ok (Ls ++ sccs) ∧ NoDup (concat (Ls ++ sccs)) ∧
          ∀ x, x ∈ concat (Ls ++ sccs) ↔ x ∈ keys.
Proof.
  induction fuel as [|fuel IH]; intros st D P Ls stack vis un scc Hst Hinv Hcov Hscc Hfuel.
  { destruct (loop_inv_core _ _ _ _ _ Hinv) as (fr & ex & Hc). pose proof (core_length _ _ _ _ _ _ Hc). lia. }
  cbn [collect_sccs]. unfold next_scc. rewrite Hst.
  destruct (next_scc_loop_ok (TarjanScc_fuel (mkTarjan un (nodes_of D) (1 + Z.of_nat (length P)) scc stack vis None None))
    D P Ls stack vis un scc Hinv Hcov Hscc)
    as [(st' & D' & E & Hc & Hall)|(st' & sc & D' & P' & S1 & vis' & un' & E & Hcl & Hinv' & Hcov' & Hne)].
  - unfold TarjanScc_fuel, nsum. cbn. lia.
  - rewrite E. cbn [mbind outcome_bind]. exists []. rewrite app_nil_r. split; [done|]. split; [apply Hc|].
    split; [by apply (c_nodup _ _ _ _ _ _ Hc)|].
    intros x. split; [|apply Hall]. intros Hx. apply (c_keys _ _ _ _ _ _ Hc). by right.
  - rewrite E. cbn [mbind outcome_bind]. assert (length sc ≠ 0) as Hlen by (by destruct sc).
    assert (Hconc : length (concat (Ls ++ [sc])) = length (concat Ls) + length sc).
    { rewrite concat_app, length_app. cbn. by rewrite app_nil_r. }
    destruct (loop_inv_core _ _ _ _ _ Hinv') as (fr & ex & Hc'). pose proof (core_length _ _ _ _ _ _ Hc').
    destruct (IH st' D' P' (Ls ++ [sc]) S1 vis' un' (scc - 1)%Z Hcl Hinv' Hcov') as (sccs & -> & Hok); [lia|lia|].
    exists (sc :: sccs). split; [done|]. by rewrite <- app_assoc in Hok.
Qed.

Lemma core_init : core (λ v, mkNode None None (Graph_neighbors g v)) [] [] [] [] None.
Proof.
  split; cbn; try done; try (intros; by exfalso; eapply elem_of_nil).
  - intros v [?%elem_of_nil|?%elem_of_nil]; done.
  - constructor.
  - intros v Hv. split; [|done]. intros _. split; apply not_elem_of_nil.
Qed.

Lemma iter_sccs_spec :
  ∃ sccs, iter_sccs g = Ret sccs ∧ emitted_ok sccs ∧ NoDup (concat sccs) ∧ ∀ x, x ∈ concat sccs ↔ x ∈ keys.
Proof.
  set (D0 := λ v, mkNode None None (Graph_neighbors g v)).
  apply (collect_sccs_ok _ _ D0 [] [] [] [] keys u64_max).
  - done.
  - apply LI_idle, core_init.
  - split; [done|]. auto.
  - cbn. lia.
  - cbn. unfold Graph_node_count, Graph_node_list. rewrite length_fmap. lia.
Qed.

(** ** Components *)

Lemma concat_unique {A} (ls : list (list A)) k k' l l' (x : A) :
  NoDup (concat ls) → ls !! k = Some l → ls !! k' = Some l' → x ∈ l → x ∈ l' → k = k'.
Proof.
  revert k k'. induction ls as [|l0 ls IH]; intros k k' Hnd; [done|]. cbn in Hnd.
  apply NoDup_app in Hnd as (_ & Hd & Hnd).
  assert (Hin : ∀ i l2, ls !! i = Some l2 → x ∈ l2 → x ∈ concat ls).
  { intros i l2 Hi Hx. apply elem_of_concat. exists l2. split; [done|]. by eapply list_elem_of_lookup_2. }
  destruct k as [|k], k' as [|k']; cbn; intros H1 H2 Hx Hx'.
  - done.
  - injection H1 as ->. by destruct (Hd x Hx); eapply Hin.
  - injection H2 as ->. by destruct (Hd x Hx'); eapply Hin.
  - f_equal. by apply IH.
Qed.

(** Following edges never leads to a later component. *)
Lemma emitted_reach sccs k scc x y :
  emitted_ok sccs → sccs !! k = Some scc → x ∈ scc → reach x y →
  ∃ k' scc', k' ≤ k ∧ sccs !! k' = Some scc' ∧ y ∈ scc'.
Proof.
  intros Hok Hk Hx Hr. revert k scc Hk Hx. induction Hr as [x|x z y Hxz _ IH]; intros k scc Hk Hx; [eauto|].
  destruct (Hok k scc Hk) as (_ & _ & Hcl). destruct (Hcl x z Hx Hxz) as (k1 & scc1 & Hle & Hk1 & Hz).
  destruct (IH k1 scc1 Hk1 Hz) as (k2 & scc2 & ? & ? & ?). exists k2, scc2. split; [lia|done].
Qed.

(** C11: The component iterator is correct on every graph of fewer than 2^63
    nodes: repeated calls of [next_scc] return, without panic or exhausted fuel,
    a sequence of non-empty lists that partition the nodes; two nodes are in the
    same list exactly when each reaches the other along edges, so the lists are
    the strongly connected components; and every edge leads to the same or an
    earlier component, so the order is reverse topological. *)
Theorem iter_sccs_correct :
  ∃ sccs, iter_sccs g = Ret sccs ∧ concat sccs ≡ₚ Graph_node_list g ∧
    (∀ scc, scc ∈ sccs → scc ≠ []) ∧
    (∀ scc x y, scc ∈ sccs → x ∈ scc → y ∈ scc ↔ reach x y ∧ reach y x) ∧
    (∀ k scc x w, sccs !! k = Some scc → x ∈ scc → (x, w) ∈ g_edges g →
       ∃ k' scc', k' ≤ k ∧ sccs !! k' = Some scc' ∧ w ∈ scc').
Proof.
  destruct iter_sccs_spec as (sccs & Hrun & Hok & Hnd & Hin). exists sccs. split; [done|].
  split; [apply NoDup_Permutation; [done|apply (shape_keys g Hwf)|done]|].
  split; [intros scc [k Hk]%list_elem_of_lookup; by apply (Hok k)|]. split.
  - intros scc x y [k Hk]%list_elem_of_lookup Hx. destruct (Hok k scc Hk) as (_ & Hconn & _).
    split; [auto|]. intros [Hxy Hyx].
    destruct (emitted_reach sccs k scc x y Hok Hk Hx Hxy) as (k1 & scc1 & Hle1 & Hk1 & Hy).
    destruct (emitted_reach sccs k1 scc1 y x Hok Hk1 Hy Hyx) as (k2 & scc2 & Hle2 & Hk2 & Hx2).
    assert (k = k2) as <- by (by eapply concat_unique). assert (k1 = k) as -> by lia. congruence.
  - intros k scc x w Hk Hx He. by apply (Hok k scc Hk) in He.
Qed.

End Correct.

Lemma iter_sccs_correct_witness :
  ∃ sccs, iter_sccs (graph_of [(1, 2); (2, 1); (2, 3)]) = Ret sccs ∧ concat sccs ≡ₚ [1; 2; 3].
Proof.
  destruct (iter_sccs_correct (graph_of [(1, 2); (2, 1); (2, 3)])) as (sccs & Hr & Hp & _).
  - apply graph_of_wf.
  - vm_compute. reflexivity.
  - exists sccs. split; [done|]. by vm_compute in Hp.
Defined.
