(* ===== verification/Toposort.v ===== *)
(** * Topological sort and the cached order of a DAG

    [crates/voker-ecs/src/schedule/graph/toposort.rs] and [dag.rs].
    [DiGraph_toposort] rejects self-loops, collects the strongly connected
    components, and returns the reversed concatenation when all of them are
    single nodes; otherwise it enumerates the cycles of the offending components
    for the error value ([simple_cycles_in_component], Johnson's algorithm).

    The enumeration runs with fuel, and [Undefined] marks an exhausted fuel: it
    can go on forever ([toposort_diverges]).  Its path and stacks are lists with
    the top first. *)

From Stdlib Require Import ZArith Lia.
From S2P Require Import Prelude Graph Scc.

Inductive ToposortError (N : Type) :=
| Loop (n : N)
| Cycle (cycles : list (list N)).
Arguments Loop {N} n.
Arguments Cycle {N} cycles.

(** ** Cycles of a component *)

Section Cycles.
Context {N : Type} `{GraphNode N}.

Record CycleState := mkCycle {
  cs_stack : list (N * list N);
  cs_path : list N;
  cs_blocked : gset N;
  cs_unblock : gmap N (gset N);
  cs_maybe : gset N;
  cs_cycles : list (list N)
}.

(** The subgraph induced by a component. *)
Definition component_subgraph (g : DiGraph N) (scc : list N) : DiGraph N :=
  let nodes := foldl Graph_insert_node Graph_new scc in
  foldl (λ sub node,
    foldl (λ sub successor,
      if Graph_contains_node sub successor then Graph_insert_edge sub node successor else sub)
      sub (Graph_neighbors g node)) nodes scc.

(** Entries of [unblock_together], a bound for the unblocking loop. *)
Definition unblock_size (ut : gmap N (gset N)) : nat := sum_list (size <$> (map_to_list ut).*2).

(** [while let Some(n) = unblock_stack.pop()]. *)
Fixpoint unblock_loop (fuel : nat) (stack : list N) (blocked : gset N) (ut : gmap N (gset N))
    : outcome (gset N * gmap N (gset N)) :=
  match stack with
  | [] => Ret (blocked, ut)
  | n :: stack' =>
      match fuel with
      | 0 => Undefined
      | S fuel' =>
          if decide (n ∈ blocked) then
            unblock_loop fuel' (elements (default ∅ (ut !! n)) ++ stack') (blocked ∖ {[n]}) (<[n := ∅]> ut)
          else unblock_loop fuel' stack' blocked ut
      end
  end.

Definition unblock (n : N) (blocked : gset N) (ut : gmap N (gset N)) : outcome (gset N * gmap N (gset N)) :=
  unblock_loop (S (unblock_size ut)) [n] blocked ut.

(** [for successor in neighbors { unblock_together.entry(successor).or_default().insert(node) }]. *)
Definition defer_unblock (node : N) (successors : list N) (ut : gmap N (gset N)) : gmap N (gset N) :=
  foldl (λ ut s, <[s := {[node]} ∪ default ∅ (ut !! s)]> ut) ut successors.

(** The end of a turn: [successors.peekable().peek()] takes an element from the
    iterator it looks into. *)
Definition cycle_tail (sub : DiGraph N) (node : N) (successors : list N) (below : list (N * list N))
    (st : CycleState) : outcome CycleState :=
  match successors with
  | _ :: rest =>
      Ret (mkCycle ((node, rest) :: below) (cs_path st) (cs_blocked st) (cs_unblock st) (cs_maybe st) (cs_cycles st))
  | [] =>
      '(blocked, ut) ←
        (if decide (node ∈ cs_maybe st) then unblock node (cs_blocked st) (cs_unblock st)
         else Ret (cs_blocked st, defer_unblock node (Graph_neighbors sub node) (cs_unblock st)));
      Ret (mkCycle below (tail (cs_path st)) blocked ut (cs_maybe st) (cs_cycles st))
  end.

(** One turn of [while !stack.is_empty()]. *)
Definition cycle_step (sub : DiGraph N) (root : N) (st : CycleState) : outcome CycleState :=
  match cs_stack st with
  | [] => Ret st
  | (node, []) :: below => cycle_tail sub node [] below st
  | (node, next :: successors) :: below =>
      if decide (next = root) then
        cycle_tail sub node successors below
          (mkCycle (cs_stack st) (cs_path st) (cs_blocked st) (cs_unblock st)
             (cs_maybe st ∪ list_to_set (cs_path st)) (cs_cycles st ++ [reverse (cs_path st)]))
      else if decide (next ∉ cs_blocked st) then
        Ret (mkCycle ((next, Graph_neighbors sub next) :: (node, successors) :: below) (next :: cs_path st)
               (cs_blocked st ∪ {[next]}) (cs_unblock st) (cs_maybe st ∖ {[next]}) (cs_cycles st))
      else cycle_tail sub node successors below st
  end.

Fixpoint cycle_loop (fuel : nat) (sub : DiGraph N) (root : N) (st : CycleState) : outcome CycleState :=
  match cs_stack st with
  | [] => Ret st
  | _ :: _ =>
      match fuel with
      | 0 => Undefined
      | S fuel' => st' ← cycle_step sub root st; cycle_loop fuel' sub root st'
      end
  end.

(** The state at [stack.push((root, subgraph.neighbors(root)))]. *)
Definition cycle_start (sub : DiGraph N) (root : N) (cycles : list (list N)) : CycleState :=
  mkCycle [(root, Graph_neighbors sub root)] [root] {[root]} ∅ ∅ cycles.

(** [while let Some(mut scc) = sccs.pop()]. *)
Fixpoint simple_cycles_loop (fuel : nat) (g : DiGraph N) (sccs : list (list N)) (cycles : list (list N))
    : outcome (list (list N)) :=
  match sccs with
  | [] => Ret cycles
  | scc :: sccs' =>
      match fuel with
      | 0 => Undefined
      | S fuel' =>
          let sub := component_subgraph g scc in
          match last scc with
          | None => Panic
          | Some root =>
              st ← cycle_loop fuel sub root (cycle_start sub root cycles);
              parts ← iter_sccs (Graph_remove_node sub root);
              simple_cycles_loop fuel' g
                (reverse (filter (λ scc, 1 < length scc) parts) ++ sccs') (cs_cycles st)
          end
      end
  end.

Definition simple_cycles_in_component (fuel : nat) (g : DiGraph N) (scc : list N) : outcome (list (list N)) :=
  simple_cycles_loop fuel g [scc] [].

(** ** Topological sort *)

(** [for scc in &sccs_with_cycles { cycles.append(...) }]. *)
Fixpoint report_cycles (fuel : nat) (g : DiGraph N) (sccs : list (list N)) (cycles : list (list N))
    : outcome (list (list N)) :=
  match sccs with
  | [] => Ret cycles
  | scc :: sccs' => cs ← simple_cycles_in_component fuel g scc; report_cycles fuel g sccs' (cycles ++ cs)
  end.

Definition DiGraph_toposort `{!HashOrder N} (fuel : nat) (g : DiGraph N) (scratch : list N)
    : outcome (Result (list N) (ToposortError N)) :=
  match find (λ e, bool_decide (e.1 = e.2)) (Graph_all_edges g) with
  | Some (node, _) => Ret (Err (Loop node))
  | None =>
      sccs ← iter_sccs g;
      let '(sorted, cyclic) :=
        foldl (λ '(sorted, cyclic) scc,
          (sorted ++ scc, if decide (1 < length scc) then cyclic ++ [scc] else cyclic)) ([], []) sccs in
      match cyclic with
      | [] => Ret (Ok (reverse sorted))
      | _ :: _ => cycles ← report_cycles fuel g cyclic []; Ret (Err (Cycle cycles))
      end
  end.

(** ** The cached order *)

Record Dag := mkDag {
  dag_graph : DiGraph N;
  dag_toposort : list N;
  dag_dirty : bool
}.

Definition Dag_new : Dag := mkDag Graph_new [] false.

Definition Dag_from (g : DiGraph N) : Dag := mkDag g [] true.

(** [graph_mut] followed by an update through the returned reference. *)
Definition Dag_graph_mut (self : Dag) (f : DiGraph N → DiGraph N) : Dag :=
  mkDag (f (dag_graph self)) (dag_toposort self) true.

Definition Dag_is_dirty (self : Dag) : bool := dag_dirty self.

Definition Dag_is_toposorted (self : Dag) : bool := negb (dag_dirty self).

(** The order is taken out of the cache before sorting, so an error leaves the
    cache empty and still dirty. *)
Definition Dag_ensure_toposorted `{!HashOrder N} (fuel : nat) (self : Dag)
    : outcome (Result unit (ToposortError N) * Dag) :=
  if dag_dirty self then
    r ← DiGraph_toposort fuel (dag_graph self) (dag_toposort self);
    match r with
    | Ok order => Ret (Ok tt, mkDag (dag_graph self) order false)
    | Err e => Ret (Err e, mkDag (dag_graph self) [] true)
    end
  else Ret (Ok tt, self).

Definition Dag_get_toposort (self : Dag) : option (list N) :=
  if dag_dirty self then None else Some (dag_toposort self).

Definition Dag_order `{!HashOrder N} (fuel : nat) (self : Dag)
    : outcome (Result (list N) (ToposortError N) * Dag) :=
  '(r, self') ← Dag_ensure_toposorted fuel self;
  Ret (match r with Ok _ => Ok (dag_toposort self') | Err e => Err e end, self').

End Cycles.

Arguments CycleState N {_}.
Arguments Dag N {_}.

(** The unit tests of the source. *)
Example toposort_simple : DiGraph_toposort 0 (graph_of [(1, 2); (2, 3); (2, 4)]) [] = Ret (Ok [1; 2; 4; 3]).
Proof. vm_compute. reflexivity. Qed.

Example toposort_self_loop : DiGraph_toposort 0 (graph_of [(1, 2); (1, 1)]) [] = Ret (Err (Loop 1)).
Proof. vm_compute. reflexivity. Qed.

Example toposort_cycle : DiGraph_toposort 20 (graph_of [(1, 2); (2, 1)]) [] = Ret (Err (Cycle [[1; 2]])).
Proof. vm_compute. reflexivity. Qed.

(** ** Soundness and completeness of the sort *)

Section Toposort.
Context {N : Type} `{GraphNode N, !HashOrder N}.
Implicit Types (g : DiGraph N) (l : list N).

Definition acyclic g : Prop := ∀ x, ¬ tc (edge g) x x.

(** Every edge points forward in [l]. *)
Definition topological g l : Prop := ∀ a b, (a, b) ∈ g_edges g → ∃ i j, i < j ∧ l !! i = Some a ∧ l !! j = Some b.

Lemma find_self_loop g :
  match find (λ e, bool_decide (e.1 = e.2)) (Graph_all_edges g) with
  | Some (n, m) => n = m ∧ (n, n) ∈ g_edges g
  | None => ∀ n, (n, n) ∉ g_edges g
  end.
Proof.
  destruct (find _ _) as [[n m]|] eqn:E.
  - apply find_some in E as [Hin Hb]. apply bool_decide_eq_true in Hb. cbn in Hb. subst m. split; [done|].
    apply list_elem_of_In in Hin. unfold Graph_all_edges in Hin. by rewrite hash_order_perm, elem_of_elements in Hin.
  - intros n Hn. assert (Hin : In (n, n) (Graph_all_edges g)).
    { apply list_elem_of_In. unfold Graph_all_edges. by rewrite hash_order_perm, elem_of_elements. }
    apply (find_none _ _ E) in Hin. by apply bool_decide_eq_false in Hin.
Qed.

Lemma toposort_split (sccs : list (list N)) : ∀ sorted cyclic,
  foldl (λ '(sorted, cyclic) scc,
    (sorted ++ scc, if decide (1 < length scc) then cyclic ++ [scc] else cyclic)) (sorted, cyclic) sccs =
  (sorted ++ concat sccs, cyclic ++ filter (λ scc, 1 < length scc) sccs).
Proof.
  induction sccs as [|scc sccs IH]; intros sorted cyclic; cbn [foldl concat]; [by rewrite filter_nil, !app_nil_r|].
  rewrite IH, filter_cons, <- app_assoc. case_decide; [by rewrite <- app_assoc|done].
Qed.

(** An order with all edges pointing forward excludes cycles. *)
Lemma topological_acyclic g l : NoDup l → topological g l → acyclic g.
Proof.
  intros Hnd Ht. assert (Htc : ∀ x y, tc (edge g) x y → ∃ i j, i < j ∧ l !! i = Some x ∧ l !! j = Some y).
  { induction 1 as [x y Hxy|x y z Hxy _ (i & j & Hij & Hi & Hj)]; [by apply Ht|].
    destruct (Ht x y Hxy) as (i' & j' & Hij' & Hi' & Hj'). assert (j' = i) as -> by (by eapply NoDup_lookup).
    exists i', j. split; [lia|done]. }
  intros x (i & j & Hij & Hi & Hj)%Htc. assert (i = j) by (by eapply NoDup_lookup). lia.
Qed.

Lemma reach_tc g x y : x ≠ y → reach g x y → tc (edge g) x y.
Proof.
  intros Hne Hr. apply rtc_tc in Hr as [?|?]; done.
Qed.

(** A component with two members lies on a cycle. *)
Lemma large_component_cyclic g sccs scc :
  emitted_ok g sccs → NoDup (concat sccs) → scc ∈ sccs → 1 < length scc → ¬ acyclic g.
Proof.
  intros Hok Hnd Hin Hlen Hac. apply list_elem_of_lookup in Hin as [k Hk].
  destruct (Hok k scc Hk) as (_ & Hconn & _).
  destruct scc as [|x [|y scc]]; cbn in Hlen; [lia|lia|].
  assert (x ≠ y) as Hxy.
  { intros ->. apply list_elem_of_lookup_2, list_elem_of_split in Hk as (l1 & l2 & ->).
    rewrite concat_app in Hnd. cbn in Hnd. apply NoDup_app in Hnd as (_ & _ & Hnd).
    apply NoDup_cons in Hnd as [Hn _]. apply Hn. apply list_elem_of_here. }
  apply (Hac x). eapply tc_transitive; apply reach_tc; try done; apply Hconn; set_solver.
Qed.

(** Singleton components in the order of the iterator. *)
Lemma singletons_lookup (sccs : list (list N)) k scc x :
  (∀ scc, scc ∈ sccs → length scc = 1) → sccs !! k = Some scc → x ∈ scc → concat sccs !! k = Some x.
Proof.
  revert k. induction sccs as [|s sccs IH]; intros k Hs Hk Hx; [done|].
  assert (length s = 1) as Hl by (apply Hs, list_elem_of_here). destruct s as [|y [|? ?]]; cbn in Hl; try lia.
  destruct k as [|k]; cbn in Hk |- *.
  - injection Hk as <-. apply list_elem_of_singleton in Hx. by subst.
  - apply IH; [|done|done]. intros s Hin. apply Hs. by apply list_elem_of_further.
Qed.

Lemma singletons_topological g sccs :
  emitted_ok g sccs → (∀ scc, scc ∈ sccs → length scc = 1) → (∀ n, (n, n) ∉ g_edges g) →
  (∀ x y, (x, y) ∈ g_edges g → x ∈ concat sccs) → topological g (reverse (concat sccs)).
Proof.
  intros Hok Hs Hloop Hcov a b He.
  destruct (proj1 (elem_of_concat _ _) (Hcov a b He)) as (scc & Ha & Hin). apply list_elem_of_lookup in Hin as [k Hk].
  destruct (Hok k scc Hk) as (_ & _ & Hcl). destruct (Hcl a b Ha He) as (k' & scc' & Hle & Hk' & Hb).
  pose proof (singletons_lookup _ _ _ _ Hs Hk Ha) as Hak. pose proof (singletons_lookup _ _ _ _ Hs Hk' Hb) as Hbk.
  assert (k' ≠ k) as Hne.
  { intros ->. rewrite Hak in Hbk. injection Hbk as ->. by apply Hloop in He. }
  pose proof (lookup_lt_Some _ _ _ Hak). pose proof (lookup_lt_Some _ _ _ Hbk).
  exists (length (concat sccs) - S k), (length (concat sccs) - S k'). split; [lia|].
  split; rewrite reverse_lookup by lia; [rewrite <- Hak|rewrite <- Hbk]; f_equal; lia.
Qed.

(** What the sort computes before it reports cycles. *)
Lemma toposort_cases fuel g scratch :
  digraph_wf g → (2 * Z.of_nat (Graph_node_count g) + 1 < u64_max)%Z →
  (∃ n, DiGraph_toposort fuel g scratch = Ret (Err (Loop n)) ∧ (n, n) ∈ g_edges g ∧ ¬ acyclic g) ∨
  ((∀ n, (n, n) ∉ g_edges g) ∧
   ((∃ l, DiGraph_toposort fuel g scratch = Ret (Ok l) ∧ l ≡ₚ Graph_node_list g ∧ topological g l ∧ acyclic g) ∨
    (∃ cyclic, DiGraph_toposort fuel g scratch =
       (cycles ← report_cycles fuel g cyclic []; Ret (Err (Cycle cycles))) ∧ ¬ acyclic g ∧
       cyclic ≠ [] ∧ ∀ scc, scc ∈ cyclic → 1 < length scc ∧ NoDup scc ∧ ∀ x, x ∈ scc → x ∈ Graph_node_list g))).
Proof.
  intros Hwf Hsmall. unfold DiGraph_toposort. pose proof (find_self_loop g) as Hloop.
  destruct (find _ _) as [[n m]|].
  - left. destruct Hloop as [-> Hn]. exists m. split; [done|]. split; [done|].
    intros Hac. apply (Hac m). by apply tc_once.
  - right. split; [done|].
    destruct (iter_sccs_spec g Hwf) as (sccs & -> & Hok & Hnd & Hin).
    { revert Hsmall. unfold Graph_node_count, Graph_node_list. by rewrite length_fmap. }
    cbn [mbind outcome_bind]. rewrite toposort_split. cbn [app].
    assert (Hperm : concat sccs ≡ₚ Graph_node_list g) by (apply NoDup_Permutation; [done|apply (shape_keys g Hwf)|done]).
    destruct (filter _ sccs) as [|c cs] eqn:Ef.
    + left. exists (reverse (concat sccs)).
      assert (Hsingle : ∀ scc, scc ∈ sccs → length scc = 1).
      { intros scc Hscc. destruct (decide (1 < length scc)) as [Hl|Hl].
        - assert (Hf : scc ∈ filter (λ scc, 1 < length scc) sccs) by (by apply list_elem_of_filter).
          rewrite Ef in Hf. by apply elem_of_nil in Hf.
        - apply list_elem_of_lookup in Hscc as [k Hk]. destruct (Hok k scc Hk) as [Hne _]. destruct scc; cbn in *; [done|lia]. }
      assert (Ht : topological g (reverse (concat sccs))).
      { apply singletons_topological; try done. intros x y He. rewrite Hin.
        destruct (edge_vertices g x y Hwf He). by rewrite <- elem_of_vertices. }
      split; [done|]. split; [by rewrite reverse_Permutation|]. split; [done|].
      eapply topological_acyclic; [|done]. by rewrite reverse_Permutation.
    + right. exists (c :: cs). split; [done|].
      assert (Hall : ∀ scc, scc ∈ c :: cs → 1 < length scc ∧ scc ∈ sccs) by (intros scc; by rewrite <- Ef, list_elem_of_filter).
      split; [|split; [done|]].
      * destruct (Hall c (list_elem_of_here _ _)). by eapply large_component_cyclic.
      * intros scc [? Hs]%Hall. split; [done|]. split.
        -- apply list_elem_of_split in Hs as (l1 & l2 & ->). rewrite concat_app in Hnd. cbn in Hnd.
           apply NoDup_app in Hnd as (_ & _ & Hnd). by apply NoDup_app in Hnd as (? & _ & _).
        -- intros x Hx. apply Hin, elem_of_concat. eauto.
Qed.

(** ** The cycle report *)

Lemma unblock_size_insert (ut : gmap N (gset N)) n :
  unblock_size (<[n := ∅]> ut) + size (default ∅ (ut !! n)) = unblock_size ut.
Proof.
  unfold unblock_size.
  assert (Hins : unblock_size (<[n := ∅]> ut) = unblock_size (delete n ut)).
  { unfold unblock_size. rewrite <- insert_delete_eq. rewrite map_to_list_insert by apply lookup_delete_eq.
    cbn. by rewrite size_empty. }
  unfold unblock_size in Hins. rewrite Hins. destruct (ut !! n) as [s|] eqn:E; cbn.
  - rewrite <- (map_to_list_delete ut n s E). cbn. lia.
  - rewrite delete_id by done. rewrite size_empty. lia.
Qed.

Lemma unblock_loop_total fuel : ∀ stack blocked ut,
  length stack + unblock_size ut ≤ fuel → ∃ r, unblock_loop fuel stack blocked ut = Ret r.
Proof.
  induction fuel as [|fuel IH]; intros [|n stack] blocked ut Hf; cbn [unblock_loop]; [eauto|cbn in Hf; lia|eauto|].
  cbn in Hf. case_decide; [|apply IH; lia]. apply IH. rewrite length_app.
  pose proof (unblock_size_insert ut n) as Hs. change (length (elements ?x)) with (size x). lia.
Qed.

(** A turn of the search always completes. *)
Lemma cycle_step_total sub root st : ∃ st', cycle_step sub root st = Ret st'.
Proof.
  assert (Htail : ∀ node succ below st, ∃ st', cycle_tail sub node succ below st = Ret st').
  { intros node [|x succ] below st0; unfold cycle_tail; [|eauto]. case_decide; [|cbn [mbind outcome_bind]; eauto].
    destruct (unblock_loop_total (S (unblock_size (cs_unblock st0))) [node] (cs_blocked st0) (cs_unblock st0)) as [[b u] E];
      [cbn; lia|]. unfold unblock. rewrite E. cbn [mbind outcome_bind]. eauto. }
  unfold cycle_step. destruct (cs_stack st) as [|[node [|next succ]] below]; [eauto|apply Htail|].
  case_decide; [apply Htail|]. case_decide; [eauto|apply Htail].
Qed.

Lemma cycle_loop_no_panic fuel sub root : ∀ st, cycle_loop fuel sub root st ≠ Panic.
Proof.
  induction fuel as [|fuel IH]; intros st; cbn; destruct (cs_stack st) as [|? ?]; try done.
  destruct (cycle_step_total sub root st) as [st' ->]. apply IH.
Qed.

Lemma subgraph_edges g node ss : ∀ sub,
  digraph_wf sub → node ∈ vertices sub →
  let sub' := foldl (λ sub successor,
      if Graph_contains_node sub successor then Graph_insert_edge sub node successor else sub) sub ss in
  digraph_wf sub' ∧ vertices sub' = vertices sub.
Proof.
  induction ss as [|s ss IH]; intros sub Hwf Hn; cbn [foldl]; [done|].
  rewrite contains_node_spec. case_bool_decide as Hs; [|by apply IH].
  destruct (insert_edge_spec sub node s Hwf) as (Hwf' & HV & _).
  assert (vertices (Graph_insert_edge sub node s) = vertices sub) as HV' by set_solver.
  destruct (IH _ Hwf') as [? ?]; [by rewrite HV'|]. split; [done|congruence].
Qed.

Lemma subgraph_ok g scc : digraph_wf (component_subgraph g scc) ∧ vertices (component_subgraph g scc) = list_to_set scc.
Proof.
  unfold component_subgraph.
  assert (Hnodes : ∀ l (sub : DiGraph N), digraph_wf sub →
    digraph_wf (foldl Graph_insert_node sub l) ∧ vertices (foldl Graph_insert_node sub l) = vertices sub ∪ list_to_set l).
  { induction l as [|x l IH]; intros sub Hwf; cbn [foldl]; [cbn; split; [done|set_solver]|].
    destruct (insert_node_spec sub x Hwf) as (Hwf' & HV & _). destruct (IH _ Hwf') as [? ->]. split; [done|].
    rewrite HV. cbn. set_solver. }
  destruct (new_wf (N := N)) as (Hwf0 & HV0 & _). destruct (Hnodes scc Graph_new Hwf0) as [Hwf1 HV1].
  rewrite HV0 in HV1. set (nodes := foldl Graph_insert_node Graph_new scc) in *.
  assert (Hfold : ∀ l (sub : DiGraph N), digraph_wf sub → (∀ x, x ∈ l → x ∈ vertices sub) →
    let sub' := foldl (λ sub node, foldl (λ sub successor,
      if Graph_contains_node sub successor then Graph_insert_edge sub node successor else sub)
      sub (Graph_neighbors g node)) sub l in
    digraph_wf sub' ∧ vertices sub' = vertices sub).
  { induction l as [|x l IH]; intros sub Hwf Hl; cbn [foldl]; [done|].
    destruct (subgraph_edges g x (Graph_neighbors g x) sub Hwf) as [Hwf' HV]; [apply Hl, list_elem_of_here|].
    cbn zeta in *. destruct (IH _ Hwf') as [? ?]; [|split; [done|congruence]].
    intros y Hy. rewrite HV. apply Hl. by apply list_elem_of_further. }
  destruct (Hfold scc nodes Hwf1) as [? HV2]; [|split; [done|rewrite HV2, HV1; set_solver]].
  intros x Hx. rewrite HV1. set_solver.
Qed.

Lemma size_list_to_set_le l : size (list_to_set l : gset N) ≤ length l.
Proof.
  induction l as [|x l IH]; [by rewrite list_to_set_nil, size_empty|]. rewrite list_to_set_cons.
  destruct (decide (x ∈ (list_to_set l : gset N))) as [Hin|Hin].
  - replace ({[x]} ∪ list_to_set l : gset N) with (list_to_set l : gset N) by set_solver. cbn. lia.
  - rewrite size_union, size_singleton by set_solver. cbn. lia.
Qed.

Lemma simple_cycles_no_panic fuel g (bound : nat) : ∀ sccs cycles,
  (2 * Z.of_nat bound + 1 < u64_max)%Z → (∀ scc, scc ∈ sccs → scc ≠ [] ∧ length scc ≤ bound) →
  simple_cycles_loop fuel g sccs cycles ≠ Panic.
Proof.
  induction fuel as [|fuel IH]; intros [|scc sccs] cycles Hb Hs; cbn [simple_cycles_loop]; try done.
  destruct (Hs scc (list_elem_of_here _ _)) as [Hne Hlen].
  destruct (last scc) as [root|] eqn:El; [|by apply last_None in El].
  destruct (subgraph_ok g scc) as [Hwf HV]. set (sub := component_subgraph g scc) in *.
  pose proof (cycle_loop_no_panic (S fuel) sub root (cycle_start sub root cycles)) as Hnp.
  destruct (cycle_loop (S fuel) sub root (cycle_start sub root cycles)) as [st| |]; cbn [mbind outcome_bind]; [|done|done].
  destruct (remove_node_spec sub root Hwf) as (Hwf' & HV' & _).
  assert (Hcount : length (Graph_node_list (Graph_remove_node sub root)) ≤ bound).
  { pose proof (node_count_spec _ Hwf') as Hc. unfold Graph_node_count in Hc.
    unfold Graph_node_list. rewrite length_fmap, Hc, HV', HV. etrans; [|exact Hlen].
    etrans; [|apply (size_list_to_set_le scc)]. apply subseteq_size. set_solver. }
  destruct (iter_sccs_spec _ Hwf') as (parts & -> & Hok & Hnd & Hin); [lia|]. cbn [mbind outcome_bind].
  apply IH; [done|]. intros s. rewrite elem_of_app, elem_of_reverse, list_elem_of_filter.
  intros [[Hl Hp]|Hp]; [|apply Hs; by apply list_elem_of_further].
  split; [by destruct s; [cbn in Hl; lia|]|]. etrans; [|exact Hcount]. apply submseteq_length, NoDup_submseteq.
  - apply list_elem_of_split in Hp as (l1 & l2 & ->). rewrite concat_app in Hnd. cbn in Hnd.
    apply NoDup_app in Hnd as (_ & _ & Hnd). by apply NoDup_app in Hnd as (? & _ & _).
  - intros x Hx. apply Hin, elem_of_concat. eauto.
Qed.

Lemma report_cycles_no_panic fuel g (bound : nat) sccs : ∀ cycles,
  (2 * Z.of_nat bound + 1 < u64_max)%Z → (∀ scc, scc ∈ sccs → scc ≠ [] ∧ length scc ≤ bound) →
  report_cycles fuel g sccs cycles ≠ Panic.
Proof.
  induction sccs as [|scc sccs IH]; intros cycles Hb Hs; cbn [report_cycles]; [done|].
  assert (Hp : simple_cycles_loop fuel g [scc] [] ≠ Panic).
  { apply (simple_cycles_no_panic fuel g bound); [done|]. intros s ->%list_elem_of_singleton. apply Hs, list_elem_of_here. }
  unfold simple_cycles_in_component. destruct (simple_cycles_loop fuel g [scc] []) as [cs| |]; cbn [mbind outcome_bind]; try done.
  apply IH; [done|]. intros s Hin. apply Hs. by apply list_elem_of_further.
Qed.

Lemma cyclic_report_no_panic fuel g cyclic :
  (2 * Z.of_nat (Graph_node_count g) + 1 < u64_max)%Z →
  (∀ scc, scc ∈ cyclic → 1 < length scc ∧ NoDup scc ∧ ∀ x, x ∈ scc → x ∈ Graph_node_list g) →
  report_cycles fuel g cyclic [] ≠ Panic.
Proof.
  intros Hsmall Hcs. apply (report_cycles_no_panic fuel g (Graph_node_count g)); [done|]. intros scc Hin.
  destruct (Hcs scc Hin) as (Hl & Hnd & Hsub). split; [by destruct scc; [cbn in Hl; lia|]|].
  unfold Graph_node_count. rewrite <- (length_fmap fst (g_nodes g)). by apply submseteq_length, NoDup_submseteq.
Qed.

(** The three outcomes of a sort that returns. *)
Lemma toposort_correct_cases fuel g scratch :
  digraph_wf g → (2 * Z.of_nat (Graph_node_count g) + 1 < u64_max)%Z →
  (∃ e, DiGraph_toposort fuel g scratch = Ret (Err e) ∧ ¬ acyclic g) ∨
  (∃ l, DiGraph_toposort fuel g scratch = Ret (Ok l) ∧ l ≡ₚ Graph_node_list g ∧ topological g l) ∨
  DiGraph_toposort fuel g scratch = Undefined.
Proof.
  intros Hwf Hsmall. destruct (toposort_cases fuel g scratch Hwf Hsmall)
    as [(n & -> & ? & ?)|[_ [(l & -> & ? & ? & ?)|(cyclic & -> & Hc & _ & Hcs)]]]; [eauto|eauto 6|].
  pose proof (cyclic_report_no_panic fuel g cyclic Hsmall Hcs) as Hnp.
  destruct (report_cycles fuel g cyclic []) as [cs| |]; cbn [mbind outcome_bind]; [eauto|done|eauto].
Qed.

(** C12: Topological sorting is sound and complete, on every graph of fewer than
    2^62 nodes.  On an acyclic graph it returns an order, whatever the fuel; an
    order it returns lists every node once, has every edge pointing forward, and
    the graph is acyclic.  A reported self-loop is an edge of the graph, a
    reported cycle means there is one, and nothing in it panics: the only other
    outcome is a cycle report that has not finished. *)
Theorem toposort_correct g (scratch : list N) :
  digraph_wf g → (2 * Z.of_nat (Graph_node_count g) + 1 < u64_max)%Z →
  (acyclic g → ∃ l, ∀ fuel, DiGraph_toposort fuel g scratch = Ret (Ok l)) ∧
  ∀ fuel, match DiGraph_toposort fuel g scratch with
          | Ret (Ok l) => l ≡ₚ Graph_node_list g ∧ NoDup l ∧ topological g l ∧ acyclic g
          | Ret (Err (Loop n)) => (n, n) ∈ g_edges g
          | Ret (Err (Cycle _)) => ¬ acyclic g ∧ ∀ n, (n, n) ∉ g_edges g
          | Panic => False
          | Undefined => ¬ acyclic g
          end.
Proof.
  intros Hwf Hsmall. split.
  - intros Hac.
    destruct (toposort_cases 0 g scratch Hwf Hsmall) as [(n & _ & _ & ?)|[_ [(l & E & _)|(? & _ & ? & _)]]]; [done| |done].
    exists l. intros fuel. rewrite <- E.
    destruct (toposort_cases fuel g scratch Hwf Hsmall) as [(n & _ & _ & ?)|[_ [(l' & E' & _)|(? & _ & ? & _)]]]; [done| |done].
    rewrite E'. rewrite E. unfold DiGraph_toposort in E, E'. destruct (find _ _) as [[? ?]|]; [done|].
    destruct (iter_sccs g) as [sccs| |]; cbn [mbind outcome_bind] in *; try done.
    rewrite toposort_split in E, E'. destruct (filter _ sccs) as [|? ?]; cbn [app] in *; [congruence|].
    by destruct (report_cycles 0 g _ []).
  - intros fuel. destruct (toposort_cases fuel g scratch Hwf Hsmall)
      as [(n & -> & ? & ?)|[Hloop [(l & -> & Hp & ? & ?)|(cyclic & -> & Hc & _ & Hcs)]]].
    + done.
    + split; [done|]. split; [rewrite Hp; apply (shape_keys g Hwf)|done].
    + pose proof (cyclic_report_no_panic fuel g cyclic Hsmall Hcs) as Hnp.
      by destruct (report_cycles fuel g cyclic []) as [cs| |].
Qed.

End Toposort.

Lemma toposort_correct_witness :
  ∃ l, DiGraph_toposort 0 (graph_of [(1, 2); (2, 3); (1, 3)]) [] = Ret (Ok l) ∧ topological (graph_of [(1, 2); (2, 3); (1, 3)]) l.
Proof.
  destruct (toposort_correct (graph_of [(1, 2); (2, 3); (1, 3)]) []) as [_ Hs].
  - apply graph_of_wf.
  - vm_compute. reflexivity.
  - specialize (Hs 0). assert (DiGraph_toposort 0 (graph_of [(1, 2); (2, 3); (1, 3)]) [] = Ret (Ok [1; 2; 3])) as E.
    { vm_compute. reflexivity. }
    rewrite E in Hs. exists [1; 2; 3]. split; [exact E|]. apply Hs.
Defined.

(** ** Divergence of the cycle report *)

Section Pump.
Context {N : Type} `{GraphNode N}.
Implicit Types (st : CycleState N) (pb : list N).

(** A search state on top of an older part of the stack and the path. *)
Definition cycle_frame st (sb : list (N * list N)) pb (c : list (list N)) : CycleState N :=
  mkCycle (cs_stack st ++ sb) (cs_path st ++ pb) (cs_blocked st) (cs_unblock st) (cs_maybe st) c.

(** A turn neither reads nor changes the older part, as long as the nodes on
    the older path are already accounted for. *)
Lemma cycle_step_frame sub root st st' sb pb c :
  cycle_step sub root st = Ret st' → cs_stack st ≠ [] → cs_path st ≠ [] →
  (∀ x, x ∈ pb → x ∈ cs_maybe st ∨ x ∈ cs_path st) →
  ∃ c', cycle_step sub root (cycle_frame st sb pb c) = Ret (cycle_frame st' sb pb c').
Proof.
  destruct st as [stk path B U M cyc]. unfold cycle_frame. cbn [cs_stack cs_path cs_blocked cs_unblock cs_maybe].
  intros Hst Hstk Hpath Hpb.
  assert (Htail : ∀ node succ below M' cyc' c', cycle_tail sub node succ below (mkCycle stk path B U M' cyc') = Ret st' →
    cycle_tail sub node succ (below ++ sb) (mkCycle (stk ++ sb) (path ++ pb) B U M' c') =
      Ret (mkCycle (cs_stack st' ++ sb) (cs_path st' ++ pb) (cs_blocked st') (cs_unblock st') (cs_maybe st') c')).
  { intros node succ below M' cyc' c' Ht. unfold cycle_tail in *. cbn [cs_path cs_blocked cs_unblock cs_maybe cs_cycles] in *.
    destruct succ as [|x succ]; [|by injection Ht as <-].
    destruct (decide (node ∈ M')).
    - destruct (unblock node B U) as [[B' U']| |]; cbn [mbind outcome_bind] in *; try discriminate.
      injection Ht as <-. cbn. by destruct path.
    - cbn [mbind outcome_bind] in *. injection Ht as <-. cbn. by destruct path. }
  assert (HM : M ∪ list_to_set (path ++ pb) = M ∪ list_to_set path).
  { rewrite list_to_set_app_L. apply set_eq. intros x. rewrite !elem_of_union, !elem_of_list_to_set. naive_solver. }
  unfold cycle_step in *. cbn [cs_stack cs_path cs_blocked cs_unblock cs_maybe cs_cycles] in *.
  destruct stk as [|[node [|next succ]] below]; [done| |]; cbn [app].
  - exists c. by eapply (Htail node [] below M cyc c).
  - destruct (decide (next = root)).
    + eexists. rewrite HM. by eapply (Htail node succ below).
    + destruct (decide (next ∉ B)); [injection Hst as <-; by exists c|].
      exists c. by eapply (Htail node succ below M cyc c).
Qed.

(** [n] turns from a state of which the older path contains only [ok] nodes. *)
Fixpoint run_turns (n : nat) (sub : DiGraph N) (root : N) (ok : list N) st : option (CycleState N) :=
  match n with
  | 0 => Some st
  | S n' =>
      if decide (cs_stack st ≠ [] ∧ cs_path st ≠ [] ∧ Forall (λ x, x ∈ cs_maybe st ∨ x ∈ cs_path st) ok)
      then match cycle_step sub root st with Ret st' => run_turns n' sub root ok st' | _ => None end
      else None
  end.

Lemma cycle_loop_turns sub root ok n : ∀ st st' fuel sb pb c,
  run_turns n sub root ok st = Some st' → (∀ x, x ∈ pb → x ∈ ok) →
  cycle_loop fuel sub root (cycle_frame st sb pb c) = Undefined ∨
  (n ≤ fuel ∧ ∃ c', cycle_loop fuel sub root (cycle_frame st sb pb c) =
                    cycle_loop (fuel - n) sub root (cycle_frame st' sb pb c')).
Proof.
  induction n as [|n IH]; intros st st' fuel sb pb c Hrun Hpb; cbn [run_turns] in Hrun.
  - injection Hrun as <-. right. split; [lia|]. exists c. by rewrite Nat.sub_0_r.
  - case_decide as Hc; [|done]. destruct Hc as (Hstk & Hpath & Hall).
    destruct (cycle_step sub root st) as [st1| |] eqn:E; try done.
    destruct (cycle_step_frame sub root st st1 sb pb c E Hstk Hpath) as [c1 Hs].
    { intros x Hx. rewrite Forall_forall in Hall. by apply Hall, Hpb. }
    assert (Hne : cs_stack (cycle_frame st sb pb c) ≠ []) by (by destruct st as [[|? ?] ? ? ? ? ?]).
    destruct fuel as [|fuel]; cbn [cycle_loop]; destruct (cs_stack (cycle_frame st sb pb c)) as [|? ?]; try done; [by left|].
    rewrite Hs. cbn [mbind outcome_bind].
    destruct (IH st1 st' fuel sb pb c1 Hrun Hpb) as [?|[? [c' ?]]]; [by left|]. right. split; [lia|]. by exists c'.
Qed.

(** A state that comes back on top of itself never finishes. *)
Lemma cycle_loop_pump sub root ok n st st' sx px :
  run_turns (S n) sub root ok st = Some st' →
  (∀ c, cycle_frame st' [] [] c = cycle_frame st sx px c) → (∀ x, x ∈ px → x ∈ ok) →
  ∀ fuel sb pb c, (∀ x, x ∈ pb → x ∈ ok) → cycle_loop fuel sub root (cycle_frame st sb pb c) = Undefined.
Proof.
  intros Hrun Hback Hpx fuel. induction fuel as [fuel IH] using lt_wf_ind. intros sb pb c Hpb.
  destruct (cycle_loop_turns sub root ok (S n) st st' fuel sb pb c Hrun Hpb) as [?|[Hle [c' ->]]]; [done|].
  assert (Heq : cycle_frame st' sb pb c' = cycle_frame st (sx ++ sb) (px ++ pb) c').
  { specialize (Hback c'). unfold cycle_frame in *. rewrite !app_nil_r in Hback. injection Hback as Hs Hp Hb Hu Hm.
    rewrite Hs, Hp, Hb, Hu, Hm. by rewrite <- !app_assoc. }
  rewrite Heq. apply IH; [lia|]. intros x [?|?]%elem_of_app; auto.
Qed.

Lemma report_diverges (g : DiGraph N) scc root fuel :
  last scc = Some root →
  (∀ f, cycle_loop f (component_subgraph g scc) root (cycle_start (component_subgraph g scc) root []) = Undefined) →
  report_cycles fuel g [scc] [] = Undefined.
Proof.
  intros Hl Hd. cbn [report_cycles]. unfold simple_cycles_in_component. destruct fuel as [|fuel]; [done|].
  cbn [simple_cycles_loop]. rewrite Hl, Hd. done.
Qed.

Lemma toposort_undefined `{!HashOrder N} (g : DiGraph N) scratch scc root fuel :
  (∀ n, (n, n) ∉ g_edges g) → iter_sccs g = Ret [scc] → 1 < length scc → last scc = Some root →
  (∀ f, cycle_loop f (component_subgraph g scc) root (cycle_start (component_subgraph g scc) root []) = Undefined) →
  DiGraph_toposort fuel g scratch = Undefined.
Proof.
  intros Hno Hs Hlen Hl Hd. unfold DiGraph_toposort. pose proof (find_self_loop g) as Hloop.
  destruct (find _ _) as [[n m]|]; [destruct Hloop as [_ Hn]; by apply Hno in Hn|].
  rewrite Hs. cbn [mbind outcome_bind]. rewrite toposort_split, filter_cons, filter_nil, decide_True by done.
  cbn [app]. by rewrite (report_diverges g scc root fuel Hl Hd).
Qed.

End Pump.

(** Six systems with seventeen ordering constraints. *)
Definition trap_edges : list (nat * nat) :=
  [(2, 3); (3, 5); (2, 5); (3, 1); (0, 2); (1, 3); (4, 3); (5, 2); (5, 0); (4, 0); (0, 1); (1, 5);
   (4, 1); (1, 4); (4, 2); (1, 2); (2, 4)].

Notation trap := (graph_of trap_edges).
Notation trap_sub := (component_subgraph trap [4; 1; 0; 5; 3; 2]).

(** After twenty-nine turns the search of the trap is in a state that returns
    every twenty-nine turns with two more entries below it. *)
Definition trap_state : CycleState nat :=
  match run_turns 29 trap_sub 2 [] (cycle_start trap_sub 2 []) with
  | Some st => mkCycle (take 2 (cs_stack st)) (take 2 (cs_path st)) (cs_blocked st) (cs_unblock st) (cs_maybe st) []
  | None => cycle_start trap_sub 2 []
  end.

Lemma trap_reached :
  ∃ st, run_turns 29 trap_sub 2 [] (cycle_start trap_sub 2 []) = Some st ∧
        ∀ c, cycle_frame st [] [] c = cycle_frame trap_state [(2, [])] [2] c.
Proof. eexists. split; [vm_compute; reflexivity|]. intros c. vm_compute. reflexivity. Qed.

Lemma trap_returns :
  ∃ st, run_turns 29 trap_sub 2 [1; 2; 4] trap_state = Some st ∧
        ∀ c, cycle_frame st [] [] c = cycle_frame trap_state [(1, [2]); (4, [2])] [1; 4] c.
Proof. eexists. split; [vm_compute; reflexivity|]. intros c. vm_compute. reflexivity. Qed.

Lemma trap_search_diverges fuel : cycle_loop fuel trap_sub 2 (cycle_start trap_sub 2 []) = Undefined.
Proof.
  destruct trap_reached as (st & Hr & Hst). destruct trap_returns as (st' & Hr' & Hst').
  assert (Hstart : cycle_start trap_sub 2 [] = cycle_frame (cycle_start trap_sub 2 []) [] [] []) by (vm_compute; reflexivity).
  rewrite Hstart.
  destruct (cycle_loop_turns trap_sub 2 [] 29 _ _ fuel [] [] [] Hr) as [?|[_ [c ->]]]; [by intros x ?|done|].
  rewrite Hst. apply (cycle_loop_pump trap_sub 2 [1; 2; 4] 28 _ _ [(1, [2]); (4, [2])] [1; 4] Hr' Hst');
    intros x; rewrite ?elem_of_cons; tauto.
Qed.

Lemma trap_sccs : iter_sccs trap = Ret [[4; 1; 0; 5; 3; 2]].
Proof. vm_compute. reflexivity. Qed.

Lemma trap_no_loop n : (n, n) ∉ g_edges trap.
Proof.
  intros Hn%graph_of_edges. assert (Hall : Forall (λ e, e.1 ≠ e.2) trap_edges) by (repeat constructor; done).
  rewrite Forall_forall in Hall. exact (Hall _ Hn eq_refl).
Qed.

(** Reporting the cycles of a graph need not terminate.  The search peeks
    into its iterator of successors with [successors.peekable().peek()], which
    takes an element and drops it; blocked nodes can then be released while
    they are still on the path.  On this graph of six nodes and seventeen edges,
    every one of them on a cycle, the path grows forever: no amount of fuel makes
    [toposort] return, where it should report an error. *)
Theorem toposort_diverges `{!HashOrder nat} (scratch : list nat) :
  ¬ acyclic trap ∧ ∀ fuel, DiGraph_toposort fuel trap scratch = Undefined.
Proof.
  split.
  - apply (large_component_cyclic trap [[4; 1; 0; 5; 3; 2]] [4; 1; 0; 5; 3; 2]).
    + destruct (iter_sccs_spec trap (graph_of_wf trap_edges)) as (sccs & Hs & Hok & _); [vm_compute; reflexivity|].
      rewrite trap_sccs in Hs. injection Hs as <-. exact Hok.
    + cbn [concat app]. repeat constructor; set_solver.
    + apply list_elem_of_here.
    + cbn. lia.
  - intros fuel. apply (toposort_undefined trap scratch [4; 1; 0; 5; 3; 2] 2).
    + exact trap_no_loop.
    + exact trap_sccs.
    + cbn. lia.
    + reflexivity.
    + exact trap_search_diverges.
Qed.

(** The swallowed successor also loses cycles: of the two cycles 1-2 and 0-2-1
    of this graph one is reported. *)
Example toposort_loses_cycle :
  DiGraph_toposort 30 (graph_of [(0, 2); (2, 1); (1, 2); (1, 0)]) [] = Ret (Err (Cycle [[1; 2]])).
Proof. vm_compute. reflexivity. Qed.

(** ** The cache *)

Section DagCache.
Context {N : Type} `{GraphNode N, !HashOrder N}.

Definition small_graph (g : DiGraph N) : Prop := (2 * Z.of_nat (Graph_node_count g) + 1 < u64_max)%Z.

(** States of a [Dag]: new, made from a graph, changed through [graph_mut], or
    asked for its order, with success or not. *)
Inductive dag_reach : Dag N → Prop :=
| dag_reach_new : dag_reach Dag_new
| dag_reach_from g : digraph_wf g → dag_reach (Dag_from g)
| dag_reach_mut d ops : dag_reach d → dag_reach (Dag_graph_mut d (λ g, foldl run_op g ops))
| dag_reach_order d fuel r d' :
    dag_reach d → small_graph (dag_graph d) → Dag_order fuel d = Ret (r, d') → dag_reach d'.

Definition dag_ok (d : Dag N) : Prop :=
  digraph_wf (dag_graph d) ∧
  (dag_dirty d = false →
     dag_toposort d ≡ₚ Graph_node_list (dag_graph d) ∧ topological (dag_graph d) (dag_toposort d)).

(** What [toposort] does to a cache in a good state. *)
Lemma dag_order_ok fuel d r d' :
  dag_ok d → small_graph (dag_graph d) → Dag_order fuel d = Ret (r, d') →
  dag_ok d' ∧ dag_graph d' = dag_graph d ∧
  match r with
  | Ok l => Dag_get_toposort d' = Some l ∧ dag_toposort d' = l
  | Err _ => Dag_get_toposort d' = None ∧ ¬ acyclic (dag_graph d)
  end.
Proof.
  intros [Hwf Hcache] Hsmall. unfold Dag_order, Dag_ensure_toposorted. destruct d as [g l []]; cbn in *.
  - destruct (toposort_correct_cases fuel g l Hwf Hsmall) as [(e & E & Hac)|[(l' & E & Hp & Ht)|E]];
      rewrite E; cbn; [| |done]; intros [= <- <-].
    + split; [|done]. split; [done|]. done.
    + split; [|done]. split; [done|]. done.
  - intros [= <- <-]. cbn. split; [|done]. split; [done|]. done.
Qed.

Lemma dag_reach_ok d : dag_reach d → dag_ok d.
Proof.
  induction 1 as [|g Hwf|d ops _ [Hwf _]|d fuel r d' _ IH Hsmall Hrun].
  - split; [apply new_wf|]. intros _. split; [done|]. intros a b He. cbn in He. set_solver.
  - split; [done|]. done.
  - split; [|done]. cbn. by apply run_ops_abs.
  - by eapply dag_order_ok.
Qed.

(** The cached order of a [Dag] is never stale.  In every state reached by
    changing the graph through [graph_mut] and asking for the order, whenever
    [get_toposort] answers, its answer lists every node of the current graph once
    with every edge pointing forward; asking again returns it unchanged; and an
    error leaves the graph as it was and the cache marked dirty. *)
Theorem dag_cache_current (d : Dag N) :
  dag_reach d → small_graph (dag_graph d) →
  (∀ l, Dag_get_toposort d = Some l →
     l ≡ₚ Graph_node_list (dag_graph d) ∧ topological (dag_graph d) l ∧
     ∀ fuel, Dag_order fuel d = Ret (Ok l, d)) ∧
  ∀ fuel r d', Dag_order fuel d = Ret (r, d') →
    dag_graph d' = dag_graph d ∧
    match r with
    | Ok l => Dag_get_toposort d' = Some l
    | Err _ => Dag_is_dirty d' = true ∧ ¬ acyclic (dag_graph d)
    end.
Proof.
  intros Hd%dag_reach_ok Hsmall. split.
  - intros l Hl. unfold Dag_get_toposort in Hl. destruct (dag_dirty d) eqn:E; [done|]. injection Hl as <-.
    destruct (proj2 Hd E) as [? ?]. split; [done|]. split; [done|]. intros fuel.
    unfold Dag_order, Dag_ensure_toposorted. by rewrite E.
  - intros fuel r d' Hrun. destruct (dag_order_ok fuel d r d' Hd Hsmall Hrun) as (_ & Hg & Hr). split; [done|].
    destruct r as [l|e]; [by destruct Hr|]. destruct Hr as [Hn ?]. split; [|done].
    unfold Dag_get_toposort in Hn. unfold Dag_is_dirty. by destruct (dag_dirty d').
Qed.

End DagCache.

Definition dag_example : Dag nat := Dag_from (graph_of [(1, 2); (2, 3)]).

Lemma dag_cache_current_witness :
  ∃ r d', Dag_order 0 dag_example = Ret (r, d') ∧ Dag_get_toposort d' = Some [1; 2; 3].
Proof.
  assert (E : Dag_order 0 dag_example = Ret (Ok [1; 2; 3], mkDag (graph_of [(1, 2); (2, 3)]) [1; 2; 3] false)).
  { vm_compute. reflexivity. }
  exists (Ok [1; 2; 3]), (mkDag (graph_of [(1, 2); (2, 3)]) [1; 2; 3] false). split; [exact E|].
  destruct (dag_cache_current dag_example) as [_ H].
  - apply dag_reach_from, graph_of_wf.
  - vm_compute. reflexivity.
  - exact (proj2 (H 0 _ _ E)).
Defined.
