(* ===== verification/Schedule.v ===== *)
(** * Building a schedule

    [crates/voker-ecs/src/schedule/schedule.rs]: the registry behind a
    [Schedule] and the pipeline that compiles it for the executors.  Systems are
    registered under their [SystemId] and addressed by slot-map keys; ordering and
    condition edges form two DAGs; accesses that cannot run in parallel form the
    conflict graph; [update] sorts, counts edges and fills the conflict matrix.

    What is not in this repository is a parameter: the slot map ([SlotMap], with
    its documented laws), the systems with their flags and [initialize], and the
    marker systems of a set.  A [FixedBitSet] is the set of its bits with its
    capacity, and an unchecked access beyond the capacity is [Undefined]. *)

From Stdlib Require Import ZArith Lia.
From S2P Require Import Prelude Access Executor Graph Scc Toposort.

(** ** Interfaces *)

(** [slotmap::SlotMap]: inserting gives a key no live slot has. *)
Class SlotMap (SM K V : Type) := {
  sm_empty : SM;
  sm_get : SM → K → option V;
  sm_insert : SM → V → K * SM;
  sm_remove : SM → K → SM
}.

Class SlotMapLaws (SM K V : Type) `{SlotMap SM K V, EqDecision K} := {
  sm_get_empty : ∀ k, sm_get sm_empty k = None;
  sm_insert_fresh : ∀ m v, sm_get m (sm_insert m v).1 = None;
  sm_get_insert : ∀ m v k,
    sm_get (sm_insert m v).2 k = if decide (k = (sm_insert m v).1) then Some v else sm_get m k;
  sm_get_remove : ∀ m k k', sm_get (sm_remove m k) k' = if decide (k' = k) then None else sm_get m k'
}.

(** What a schedule asks of a system, [trait System]. *)
Class SystemOps (System World Id : Type) := {
  sys_id : System → Id;
  sys_is_no_op : System → bool;
  sys_is_deferred : System → bool;
  sys_is_exclusive : System → bool;
  sys_initialize : System → World → AccessTable * System * World
}.

(** [SystemSet::begin] and [SystemSet::end]. *)
Class SetMarkers (Set_ System : Type) := {
  set_begin : Set_ → System;
  set_end : Set_ → System;
  set_unit : Set_
}.

(** [as u32] followed by [as usize]. *)
Definition as_u32 (n : nat) : nat := Z.to_nat (Z.of_nat n mod 4294967296).

(** ** Conflict matrix *)

Record ConflictTable := mkConflictTable { ct_lines : nat; ct_capacity : nat; ct_bits : gset nat }.

Definition ConflictTable_new (lines : nat) : ConflictTable := mkConflictTable lines (lines * lines) ∅.

(** [insert_unchecked] and [contains_unchecked]. *)
Definition bit_insert (self : ConflictTable) (index : nat) : outcome ConflictTable :=
  if decide (index < ct_capacity self)
  then Ret (mkConflictTable (ct_lines self) (ct_capacity self) ({[index]} ∪ ct_bits self))
  else Undefined.

Definition ConflictTable_set_conflict (self : ConflictTable) (a b : nat) : outcome ConflictTable :=
  bit_insert self (a * ct_lines self + b).

Fixpoint bit_insert_all (indices : list nat) (self : ConflictTable) : outcome ConflictTable :=
  match indices with
  | [] => Ret self
  | i :: rest => self' ← bit_insert self i; bit_insert_all rest self'
  end.

Definition ConflictTable_set_exclusive (self : ConflictTable) (a : nat) : outcome ConflictTable :=
  self1 ← bit_insert_all ((λ line, a * ct_lines self + line) <$> seq 0 (ct_lines self)) self;
  bit_insert_all ((λ line, a + line * ct_lines self) <$> seq 0 (ct_lines self)) self1.

Definition ConflictTable_is_conflict (self : ConflictTable) (a b : nat) : outcome bool :=
  let index := a * ct_lines self + b in
  if decide (index < ct_capacity self) then Ret (bool_decide (index ∈ ct_bits self)) else Undefined.

Section Schedule.
Context {K Id Set_ System World SM : Type}.
Context `{GraphNode K, !HashOrder K, EqDecision Id, Countable Id, EqDecision Set_, Countable Set_}.
Context `{!SlotMap SM K Id, !SystemOps System World Id, !SetMarkers Set_ System}.

(** ** Parts *)

Inductive SystemObject :=
| Action (system : System) (access : AccessTable)
| Condition (system : System) (access : AccessTable).

Definition obj_system (o : SystemObject) : System :=
  match o with Action s _ | Condition s _ => s end.
Definition obj_access (o : SystemObject) : AccessTable :=
  match o with Action _ a | Condition _ a => a end.

Definition SystemObject_new_action (s : System) : SystemObject := Action s AccessTable_new.
Definition SystemObject_new_condition (s : System) : SystemObject := Condition s AccessTable_new.
Definition SystemObject_id (o : SystemObject) : Id := sys_id (obj_system o).
Definition SystemObject_is_no_op (o : SystemObject) : bool := sys_is_no_op (obj_system o).
Definition SystemObject_is_deferred (o : SystemObject) : bool := sys_is_deferred (obj_system o).
Definition SystemObject_is_exclusive (o : SystemObject) : bool := sys_is_exclusive (obj_system o).

Record SAllocator := mkSAllocator { slots : SM; idents : gmap Id K }.

Definition SAllocator_len (self : SAllocator) : nat := size (idents self).

Definition SAllocator_get_key (self : SAllocator) (id : Id) : option K := idents self !! id.

Definition SAllocator_get_id (self : SAllocator) (key : K) : option Id := sm_get (slots self) key.

Definition SAllocator_insert (self : SAllocator) (id : Id) : K * SAllocator :=
  match idents self !! id with
  | Some key => (key, self)
  | None => let '(key, s) := sm_insert (slots self) id in (key, mkSAllocator s (<[id := key]> (idents self)))
  end.

Definition SAllocator_remove (self : SAllocator) (id : Id) : option (K * SAllocator) :=
  key ← idents self !! id;
  Some (key, mkSAllocator (sm_remove (slots self) key) (delete id (idents self))).

Record SystemBuffer := mkBuffer { sb_nodes : gmap K (option SystemObject); sb_uninit : list K }.

Definition SystemBuffer_insert_action (self : SystemBuffer) (key : K) (s : System) : SystemBuffer :=
  mkBuffer (<[key := Some (SystemObject_new_action s)]> (sb_nodes self)) (sb_uninit self ++ [key]).

Definition SystemBuffer_insert_condition (self : SystemBuffer) (key : K) (s : System) : SystemBuffer :=
  mkBuffer (<[key := Some (SystemObject_new_condition s)]> (sb_nodes self)) (sb_uninit self ++ [key]).

Definition SystemBuffer_remove (self : SystemBuffer) (key : K) : SystemBuffer :=
  mkBuffer (delete key (sb_nodes self))
    (match position (λ v, bool_decide (v = key)) (sb_uninit self) with
     | Some index => swap_remove (sb_uninit self) index
     | None => sb_uninit self
     end).

Definition SystemBuffer_get_system (self : SystemBuffer) (key : K) : option SystemObject :=
  o ← sb_nodes self !! key; o.

(** [nodes.get_mut(key).unwrap().take().unwrap()]. *)
Definition SystemBuffer_take_system (self : SystemBuffer) (key : K) : outcome (SystemObject * SystemBuffer) :=
  match sb_nodes self !! key with
  | Some (Some obj) => Ret (obj, mkBuffer (<[key := None]> (sb_nodes self)) (sb_uninit self))
  | _ => Panic
  end.

Record OrderingGraph := mkOrdering { og_dependency : Dag K; og_condition : Dag K }.

Definition OrderingGraph_insert_order (self : OrderingGraph) (before after : K) : OrderingGraph :=
  mkOrdering (Dag_graph_mut (og_dependency self) (λ g, Graph_insert_edge g before after)) (og_condition self).

Definition OrderingGraph_insert_condition_order (self : OrderingGraph) (condition runnable : K) : OrderingGraph :=
  mkOrdering (og_dependency self) (Dag_graph_mut (og_condition self) (λ g, Graph_insert_edge g condition runnable)).

Definition OrderingGraph_insert_node (self : OrderingGraph) (key : K) : OrderingGraph :=
  mkOrdering (Dag_graph_mut (og_dependency self) (λ g, Graph_insert_node g key))
    (Dag_graph_mut (og_condition self) (λ g, Graph_insert_node g key)).

Definition OrderingGraph_remove_node (self : OrderingGraph) (key : K) : OrderingGraph :=
  mkOrdering (Dag_graph_mut (og_dependency self) (λ g, Graph_remove_node g key))
    (Dag_graph_mut (og_condition self) (λ g, Graph_remove_node g key)).

Record ConflictGraph := mkConflictGraph { cg_exclusive : gset K; cg_conflicts : gmap K (gset K) }.

Definition ConflictGraph_set_exclusive (self : ConflictGraph) (key : K) : ConflictGraph :=
  mkConflictGraph ({[key]} ∪ cg_exclusive self) (cg_conflicts self).

Definition conflicts_insert (m : gmap K (gset K)) (a b : K) : gmap K (gset K) :=
  <[a := {[b]} ∪ default ∅ (m !! a)]> m.

Definition ConflictGraph_set_conflict (self : ConflictGraph) (a b : K) : ConflictGraph :=
  mkConflictGraph (cg_exclusive self) (conflicts_insert (conflicts_insert (cg_conflicts self) a b) b a).

Definition ConflictGraph_is_exclusive (self : ConflictGraph) (key : K) : bool :=
  bool_decide (key ∈ cg_exclusive self).

Definition ConflictGraph_is_conflict (self : ConflictGraph) (a b : K) : bool :=
  match cg_conflicts self !! a with Some s => bool_decide (b ∈ s) | None => false end.

Definition ConflictGraph_remove (self : ConflictGraph) (key : K) : ConflictGraph :=
  let exclusive := cg_exclusive self ∖ {[key]} in
  match cg_conflicts self !! key with
  | None => mkConflictGraph exclusive (cg_conflicts self)
  | Some a_set =>
      mkConflictGraph exclusive
        (foldl (λ m b, alter (λ b_set, b_set ∖ {[key]}) b m) (delete key (cg_conflicts self)) (elements a_set))
  end.

(** [SystemSchedule], the compiled form. *)
Record Compiled := mkCompiled {
  cp_keys : list K;
  cp_systems : list SystemObject;
  cp_conflict : ConflictTable;
  cp_incoming : list nat;
  cp_outgoing : list (list nat);
  cp_condition_incoming : list nat;
  cp_condition_outgoing : list (list nat)
}.

Definition Compiled_empty : Compiled := mkCompiled [] [] (mkConflictTable 0 0 ∅) [] [] [] [].

Record SetHierarchy := mkHierarchy { h_children : gmap Set_ (gset Set_); h_parents : gmap Set_ Set_ }.

Record Schedule := mkSched {
  sc_allocator : SAllocator;
  sc_buffer : SystemBuffer;
  sc_ordering : OrderingGraph;
  sc_conflict : ConflictGraph;
  sc_schedule : Compiled;
  sc_sets : gmap Set_ (gset Id);
  sc_hierarchy : SetHierarchy;
  sc_executor_initialized : bool;
  sc_is_changed : bool
}.

Definition Schedule_new : Schedule :=
  mkSched (mkSAllocator sm_empty ∅) (mkBuffer ∅ []) (mkOrdering Dag_new Dag_new) (mkConflictGraph ∅ ∅)
    Compiled_empty ∅ (mkHierarchy ∅ ∅) false false.

(** ** The build pipeline *)

Definition obj_with (o : SystemObject) (s : System) (a : AccessTable) : SystemObject :=
  match o with Action _ _ => Action s a | Condition _ _ => Condition s a end.

(** The first loop of [init_systems]. *)
Fixpoint initialize_all (uninit : list K) (buffer : SystemBuffer) (world : World)
    : outcome (SystemBuffer * World) :=
  match uninit with
  | [] => Ret (buffer, world)
  | key :: rest =>
      match SystemBuffer_get_system buffer key with
      | Some obj =>
          let '(access, s, world') := sys_initialize (obj_system obj) world in
          initialize_all rest
            (mkBuffer (<[key := Some (obj_with obj s access)]> (sb_nodes buffer)) (sb_uninit buffer)) world'
      | None => Panic
      end
  end.

(** The comparison of one system with all others. *)
Definition compare_access (a : K) (a_access : AccessTable) (buffer : SystemBuffer) (conflict : ConflictGraph)
    : ConflictGraph :=
  foldl (λ conflict '(b, v),
    match v with
    | Some v =>
        if decide (a ≠ b ∧ AccessTable_parallelizable a_access (obj_access v) = false)
        then ConflictGraph_set_conflict conflict a b else conflict
    | None => conflict
    end) conflict (map_to_list (sb_nodes buffer)).

(** The second loop of [init_systems]. *)
Fixpoint update_conflicts (uninit : list K) (buffer : SystemBuffer) (conflict : ConflictGraph)
    : outcome ConflictGraph :=
  match uninit with
  | [] => Ret conflict
  | a :: rest =>
      match SystemBuffer_get_system buffer a with
      | None => Panic
      | Some obj =>
          update_conflicts rest buffer
            (if SystemObject_is_exclusive obj then ConflictGraph_set_exclusive conflict a
             else compare_access a (obj_access obj) buffer conflict)
      end
  end.

Definition Schedule_init_systems (self : Schedule) (world : World) : outcome (Schedule * World) :=
  let uninit := sb_uninit (sc_buffer self) in
  '(buffer, world) ← initialize_all uninit (mkBuffer (sb_nodes (sc_buffer self)) []) world;
  conflict ← update_conflicts uninit buffer (sc_conflict self);
  Ret (mkSched (sc_allocator self) buffer (sc_ordering self) conflict (sc_schedule self) (sc_sets self)
         (sc_hierarchy self) (sc_executor_initialized self) (sc_is_changed self), world).

(** The systems of the compiled form go back to the buffer. *)
Fixpoint give_back (items : list (K * SystemObject)) (nodes : gmap K (option SystemObject))
    : outcome (gmap K (option SystemObject)) :=
  match items with
  | [] => Ret nodes
  | (k, v) :: rest =>
      match nodes !! k with
      | Some _ => give_back rest (<[k := Some v]> nodes)
      | None => Panic
      end
  end.

Definition Schedule_recycle_schedule (self : Schedule) : outcome Schedule :=
  let old := sc_schedule self in
  nodes ← give_back (zip (cp_keys old) (cp_systems old)) (sb_nodes (sc_buffer self));
  Ret (mkSched (sc_allocator self) (mkBuffer nodes (sb_uninit (sc_buffer self))) (sc_ordering self) (sc_conflict self)
         (mkCompiled [] [] (mkConflictTable 0 (ct_capacity (cp_conflict old)) ∅) [] [] [] [])
         (sc_sets self) (sc_hierarchy self) (sc_executor_initialized self) (sc_is_changed self)).

(** [topo.iter().map(|&key| buffer.take_system(key))]. *)
Fixpoint take_systems (topo : list K) (buffer : SystemBuffer) : outcome (list SystemObject * SystemBuffer) :=
  match topo with
  | [] => Ret ([], buffer)
  | key :: rest =>
      '(obj, buffer1) ← SystemBuffer_take_system buffer key;
      '(objs, buffer2) ← take_systems rest buffer1;
      Ret (obj :: objs, buffer2)
  end.

(** [topo.iter().enumerate().for_each(|(idx, &key)| indices.insert(key, idx))]. *)
Fixpoint index_keys (topo : list K) (idx : nat) (indices : gmap K nat) : gmap K nat :=
  match topo with
  | [] => indices
  | key :: rest => index_keys rest (S idx) (<[key := idx]> indices)
  end.

(** The closure over the neighbors of one system. *)
Fixpoint push_edges (tos : list K) (indices : gmap K nat) (idx : nat) (incoming : list nat)
    (outgoing : list (list nat)) : outcome (list nat * list (list nat)) :=
  match tos with
  | [] => Ret (incoming, outgoing)
  | to :: rest =>
      match indices !! to with
      | None => Panic
      | Some neighbor_index =>
          match incoming !! neighbor_index, outgoing !! idx with
          | Some n, Some out =>
              push_edges rest indices idx (<[neighbor_index := S n]> incoming)
                (<[idx := out ++ [as_u32 neighbor_index]]> outgoing)
          | _, _ => Panic
          end
      end
  end.

Fixpoint count_edges (g : DiGraph K) (topo : list K) (indices : gmap K nat) (idx : nat) (incoming : list nat)
    (outgoing : list (list nat)) : outcome (list nat * list (list nat)) :=
  match topo with
  | [] => Ret (incoming, outgoing)
  | key :: rest =>
      '(inc, out) ← push_edges (Graph_neighbors g key) indices idx incoming outgoing;
      count_edges g rest indices (S idx) inc out
  end.

(** The inner loop over [topo[(idx_a + 1)..]]. *)
Fixpoint fill_row (conflict : ConflictGraph) (idx_a : nat) (key_a : K) (rest : list K) (idx_b : nat)
    (table : ConflictTable) : outcome ConflictTable :=
  match rest with
  | [] => Ret table
  | key_b :: rest' =>
      table' ← (if ConflictGraph_is_conflict conflict key_a key_b then
                  t ← ConflictTable_set_conflict table (as_u32 idx_a) (as_u32 idx_b);
                  ConflictTable_set_conflict t (as_u32 idx_b) (as_u32 idx_a)
                else Ret table);
      fill_row conflict idx_a key_a rest' (S idx_b) table'
  end.

Fixpoint fill_table (conflict : ConflictGraph) (topo : list K) (idx_a : nat) (table : ConflictTable)
    : outcome ConflictTable :=
  match topo with
  | [] => Ret table
  | key_a :: rest =>
      table' ← (if ConflictGraph_is_exclusive conflict key_a
                then ConflictTable_set_exclusive table (as_u32 idx_a)
                else fill_row conflict idx_a key_a rest (S idx_a) table);
      fill_table conflict rest (S idx_a) table'
  end.

(** The mixed graph: ordering edges and condition edges. *)
Definition mixed_dag (ordering : OrderingGraph) : Dag K :=
  foldl (λ dag '(a, b), Dag_graph_mut dag (λ g, Graph_insert_edge g a b)) (og_dependency ordering)
    (Graph_all_edges (dag_graph (og_condition ordering))).

Definition Schedule_build_schedule (fuel : nat) (self : Schedule) : outcome Schedule :=
  let old := sc_schedule self in
  if decide (cp_keys old = [] ∧ cp_systems old = [] ∧ cp_outgoing old = [] ∧ cp_incoming old = [] ∧
             cp_condition_incoming old = [] ∧ cp_condition_outgoing old = []) then
    '(sorted, dag) ← Dag_order fuel (mixed_dag (sc_ordering self));
    match sorted with
    | Err _ => Panic
    | Ok topo =>
        '(systems, buffer) ← take_systems topo (sc_buffer self);
        let indices := index_keys topo 0 ∅ in
        let n := length topo in
        '(incoming, outgoing) ←
          count_edges (dag_graph dag) topo indices 0 (replicate n 0) (replicate n []);
        '(condition_incoming, condition_outgoing) ←
          count_edges (dag_graph (og_condition (sc_ordering self))) topo indices 0 (replicate n 0) (replicate n []);
        table ← fill_table (sc_conflict self) topo 0 (ConflictTable_new n);
        Ret (mkSched (sc_allocator self) buffer (sc_ordering self) (sc_conflict self)
               (mkCompiled topo systems table incoming outgoing condition_incoming condition_outgoing)
               (sc_sets self) (sc_hierarchy self) (sc_executor_initialized self) (sc_is_changed self))
    end
  else Panic.

Definition with_flags (self : Schedule) (initialized changed : bool) : Schedule :=
  mkSched (sc_allocator self) (sc_buffer self) (sc_ordering self) (sc_conflict self) (sc_schedule self)
    (sc_sets self) (sc_hierarchy self) initialized changed.

(** The flag in the result says whether [executor.init] was called. *)
Definition Schedule_update (fuel : nat) (self : Schedule) (world : World) : outcome (Schedule * World * bool) :=
  '(self, world) ←
    (if sc_is_changed self then
       '(self1, world1) ← Schedule_init_systems self world;
       self2 ← Schedule_build_schedule fuel self1;
       Ret (with_flags self2 (sc_executor_initialized self2) false, world1)
     else Ret (self, world));
  Ret (with_flags self true (sc_is_changed self), world, negb (sc_executor_initialized self)).

(** ** Registering and removing systems *)

(** [if !self.is_changed { self.recycle_schedule(); self.is_changed = true; }]. *)
Definition mark_changed (self : Schedule) : outcome Schedule :=
  if sc_is_changed self then Ret self
  else self' ← Schedule_recycle_schedule self; Ret (with_flags self' (sc_executor_initialized self') true).

(** [allocator.get_key(id).unwrap_or_else(...)] with the insertion of a new
    system; the flag says whether it was new. *)
Definition register (self : Schedule) (id : Id) (put : SystemBuffer → K → SystemBuffer) : K * Schedule * bool :=
  match SAllocator_get_key (sc_allocator self) id with
  | Some key => (key, self, false)
  | None =>
      let '(key, allocator) := SAllocator_insert (sc_allocator self) id in
      (key, mkSched allocator (put (sc_buffer self) key) (OrderingGraph_insert_node (sc_ordering self) key)
              (sc_conflict self) (sc_schedule self) (sc_sets self) (sc_hierarchy self)
              (sc_executor_initialized self) (sc_is_changed self), true)
  end.

Definition register_action (self : Schedule) (s : System) : K * Schedule * bool :=
  register self (sys_id s) (λ b k, SystemBuffer_insert_action b k s).

Definition set_insert (self : Schedule) (set : Set_) (ids : gset Id) : Schedule :=
  mkSched (sc_allocator self) (sc_buffer self) (sc_ordering self) (sc_conflict self) (sc_schedule self)
    (<[set := ids ∪ default ∅ (sc_sets self !! set)]> (sc_sets self)) (sc_hierarchy self)
    (sc_executor_initialized self) (sc_is_changed self).

Definition with_ordering (self : Schedule) (o : OrderingGraph) : Schedule :=
  mkSched (sc_allocator self) (sc_buffer self) o (sc_conflict self) (sc_schedule self) (sc_sets self)
    (sc_hierarchy self) (sc_executor_initialized self) (sc_is_changed self).

(** A marker system of a set; a new marker is also recorded as a member. *)
Definition register_marker (self : Schedule) (set : Set_) (marker : System) : K * Schedule :=
  let '(key, self', new) := register_action self marker in
  (key, if (new : bool) then set_insert self' set {[sys_id marker]} else self').

Definition Schedule_wire_set_boundaries (self : Schedule) (system_key : K) (id : Id) (set : Set_) : Schedule :=
  let self1 := set_insert self set {[id]} in
  let '(b, self2) := register_marker self1 set (set_begin set) in
  let '(e, self3) := register_marker self2 set (set_end set) in
  with_ordering self3
    (OrderingGraph_insert_condition_order
       (OrderingGraph_insert_condition_order
          (OrderingGraph_insert_order (sc_ordering self3) system_key e) b system_key) b e).

(** [assert!(self.allocator.len() <= u32::MAX)]. *)
Definition check_len (self : Schedule) : outcome Schedule :=
  if decide (Z.of_nat (SAllocator_len (sc_allocator self)) ≤ u32_max)%Z then Ret self else Panic.

Definition Schedule_insert_action (self : Schedule) (s : System) (set : Set_) : outcome Schedule :=
  self ← mark_changed self;
  let '(key, self, _) := register_action self s in
  check_len (Schedule_wire_set_boundaries self key (sys_id s) set).

Definition Schedule_insert_condition (self : Schedule) (s : System) (set : Set_) : outcome Schedule :=
  self ← mark_changed self;
  let '(key, self, _) := register self (sys_id s) (λ b k, SystemBuffer_insert_condition b k s) in
  check_len (Schedule_wire_set_boundaries self key (sys_id s) set).

Definition Schedule_init_system_set (self : Schedule) (set : Set_) : outcome Schedule :=
  match sc_sets self !! set with
  | Some _ => Ret self
  | None =>
      self ← mark_changed self;
      let self := set_insert self set ∅ in
      let '(b, self) := register_marker self set (set_begin set) in
      let '(e, self) := register_marker self set (set_end set) in
      Ret (with_ordering self (OrderingGraph_insert_condition_order (sc_ordering self) b e))
  end.

Definition Schedule_remove (self : Schedule) (name : Id) : outcome (bool * Schedule) :=
  match SAllocator_remove (sc_allocator self) name with
  | None => Ret (false, self)
  | Some (key, allocator) =>
      self ← mark_changed (mkSched allocator (sc_buffer self) (sc_ordering self) (sc_conflict self)
                (sc_schedule self) (sc_sets self) (sc_hierarchy self) (sc_executor_initialized self)
                (sc_is_changed self));
      Ret (true, mkSched (sc_allocator self) (SystemBuffer_remove (sc_buffer self) key)
                   (OrderingGraph_remove_node (sc_ordering self) key) (ConflictGraph_remove (sc_conflict self) key)
                   (sc_schedule self) ((λ ids, ids ∖ {[name]}) <$> sc_sets self) (sc_hierarchy self)
                   (sc_executor_initialized self) (sc_is_changed self))
  end.

Fixpoint remove_all (ids : list Id) (self : Schedule) : outcome Schedule :=
  match ids with
  | [] => Ret self
  | id :: rest => '(_, self') ← Schedule_remove self id; remove_all rest self'
  end.

Definition Schedule_remove_system_set_inner (self : Schedule) (set : Set_) : outcome Schedule :=
  match sc_sets self !! set with
  | None => Ret self
  | Some ids =>
      remove_all (elements ids)
        (mkSched (sc_allocator self) (sc_buffer self) (sc_ordering self) (sc_conflict self) (sc_schedule self)
           (delete set (sc_sets self)) (sc_hierarchy self) (sc_executor_initialized self) (sc_is_changed self))
  end.

Definition Schedule_insert_order (self : Schedule) (before after : Id) : outcome (bool * Schedule) :=
  match SAllocator_get_key (sc_allocator self) before, SAllocator_get_key (sc_allocator self) after with
  | Some b, Some a =>
      self ← mark_changed self;
      Ret (true, with_ordering self (OrderingGraph_insert_order (sc_ordering self) b a))
  | _, _ => Ret (false, self)
  end.

Definition Schedule_insert_run_if (self : Schedule) (runnable condition : Id) : outcome (bool * Schedule) :=
  match SAllocator_get_key (sc_allocator self) runnable, SAllocator_get_key (sc_allocator self) condition with
  | Some r, Some c =>
      self ← mark_changed self;
      Ret (true, with_ordering self (OrderingGraph_insert_condition_order (sc_ordering self) c r))
  | _, _ => Ret (false, self)
  end.

(** ** Sets *)

Definition with_hierarchy (self : Schedule) (h : SetHierarchy) : Schedule :=
  mkSched (sc_allocator self) (sc_buffer self) (sc_ordering self) (sc_conflict self) (sc_schedule self)
    (sc_sets self) h (sc_executor_initialized self) (sc_is_changed self).

Definition forget_parent (self : Schedule) (set : Set_) : Schedule :=
  with_hierarchy self (mkHierarchy (h_children (sc_hierarchy self)) (delete set (h_parents (sc_hierarchy self)))).

(** Each call takes the children entry of its set, so the entries bound the
    depth of the recursion. *)
Fixpoint remove_set_recursive (fuel : nat) (self : Schedule) (set : Set_) : outcome Schedule :=
  match fuel with
  | 0 => Undefined
  | S fuel' =>
      let children := default ∅ (h_children (sc_hierarchy self) !! set) in
      let self1 := with_hierarchy self
        (mkHierarchy (delete set (h_children (sc_hierarchy self))) (h_parents (sc_hierarchy self))) in
      self2 ← foldl (λ r child, s ← r; remove_set_recursive fuel' (forget_parent s child) child)
                (Ret self1) (elements children);
      Schedule_remove_system_set_inner (forget_parent self2 set) set
  end.

Definition Schedule_remove_system_set (self : Schedule) (set : Set_) : outcome Schedule :=
  remove_set_recursive (S (size (h_children (sc_hierarchy self)))) self set.

(** [SystemSetConfig]. *)
Record SetConfig := mkSetConfig {
  cf_set : Set_;
  cf_parent : option Set_;
  cf_run_after : list Set_;
  cf_run_before : list Set_;
  cf_conditions : list System
}.

Definition config_parent (self : Schedule) (set parent : Set_) : outcome Schedule :=
  self ← Schedule_init_system_set self parent;
  self ← Schedule_insert_action self (set_begin set) parent;
  self ← Schedule_insert_action self (set_end set) parent;
  let h := sc_hierarchy self in
  Ret (with_hierarchy self
    (mkHierarchy (<[parent := {[set]} ∪ default ∅ (h_children h !! parent)]> (h_children h))
       (<[set := parent]> (h_parents h)))).

Definition config_after (set : Set_) (r : outcome Schedule) (other : Set_) : outcome Schedule :=
  self ← r;
  self ← Schedule_init_system_set self other;
  '(_, self) ← Schedule_insert_order self (sys_id (set_end other)) (sys_id (set_begin set));
  Ret self.

Definition config_before (set : Set_) (r : outcome Schedule) (other : Set_) : outcome Schedule :=
  self ← r;
  self ← Schedule_init_system_set self other;
  '(_, self) ← Schedule_insert_order self (sys_id (set_end set)) (sys_id (set_begin other));
  Ret self.

Definition config_condition (set : Set_) (r : outcome Schedule) (cond : System) : outcome Schedule :=
  self ← r;
  self ← Schedule_insert_condition self cond set_unit;
  '(_, self) ← Schedule_insert_run_if self (sys_id (set_begin set)) (sys_id cond);
  Ret self.

Definition Schedule_config_set (self : Schedule) (config : SetConfig) : outcome Schedule :=
  let set := cf_set config in
  self ← Schedule_init_system_set self set;
  self ← (match cf_parent config with Some parent => config_parent self set parent | None => Ret self end);
  let r := foldl (config_after set) (Ret self) (cf_run_after config) in
  let r := foldl (config_before set) r (cf_run_before config) in
  foldl (config_condition set) r (cf_conditions config).

(** [SystemConfig] after [apply_to_set], and [SystemEntry]. *)
Inductive SystemEntry := EntryAction (s : System) | EntryCondition (s : System).

Record SysConfig := mkSysConfig {
  cf_systems : list SystemEntry;
  cf_deferred : list (Id * System);
  cf_dependencies : list (Id * Id);
  cf_gates : list (Id * Id)
}.

Definition add_entry (set : Set_) (r : outcome Schedule) (entry : SystemEntry) : outcome Schedule :=
  self ← r;
  match entry with
  | EntryAction s => Schedule_insert_action self s set
  | EntryCondition s => Schedule_insert_condition self s set
  end.

Definition add_deferred (set : Set_) (r : outcome Schedule) (d : Id * System) : outcome Schedule :=
  self ← r;
  self ← Schedule_insert_action self d.2 set;
  '(_, self) ← Schedule_insert_order self d.1 (sys_id d.2);
  Ret self.

Definition add_dependency (r : outcome Schedule) (d : Id * Id) : outcome Schedule :=
  self ← r; '(_, self) ← Schedule_insert_order self d.1 d.2; Ret self.

Definition add_gate (r : outcome Schedule) (d : Id * Id) : outcome Schedule :=
  self ← r; '(_, self) ← Schedule_insert_run_if self d.2 d.1; Ret self.

Definition Schedule_add_systems (self : Schedule) (set : Set_) (cfg : SysConfig) : outcome Schedule :=
  self ← Schedule_init_system_set self set;
  let r := foldl (add_entry set) (Ret self) (cf_systems cfg) in
  let r := foldl (add_deferred set) r (cf_deferred cfg) in
  let r := foldl add_dependency r (cf_dependencies cfg) in
  foldl add_gate r (cf_gates cfg).

End Schedule.

(** ** The conflict matrix *)

Lemma as_u32_id n : (Z.of_nat n ≤ u32_max)%Z → as_u32 n = n.
Proof. intros Hn. unfold as_u32, u32_max in *. rewrite Z.mod_small by lia. lia. Qed.

Lemma bit_insert_all_ok indices : ∀ t,
  (∀ i, i ∈ indices → i < ct_capacity t) →
  bit_insert_all indices t = Ret (mkConflictTable (ct_lines t) (ct_capacity t) (list_to_set indices ∪ ct_bits t)).
Proof.
  induction indices as [|i indices IH]; intros t Hi; cbn [bit_insert_all].
  - destruct t. cbn. by rewrite union_empty_l_L.
  - unfold bit_insert. rewrite decide_True by (apply Hi, list_elem_of_here). cbn [mbind outcome_bind].
    rewrite IH by (cbn; intros j Hj; apply Hi; by apply list_elem_of_further). cbn. do 2 f_equal. set_solver.
Qed.

(** A matrix of [n] lines whose bits are the pairs of a relation. *)
Definition table_is (n : nat) (R : nat → nat → Prop) (t : ConflictTable) : Prop :=
  ct_lines t = n ∧ ct_capacity t = n * n ∧ ∀ i j, i < n → j < n → i * n + j ∈ ct_bits t ↔ R i j.

Lemma cell_lt n i j : i < n → j < n → i * n + j < n * n.
Proof. nia. Qed.

Lemma cell_inj n i j i' j' : j < n → j' < n → i * n + j = i' * n + j' → i = i' ∧ j = j'.
Proof. intros. assert (i = i') by nia. subst. lia. Qed.

Lemma table_new_is n : table_is n (λ _ _, False) (ConflictTable_new n).
Proof. split; [done|]. split; [done|]. intros i j _ _. cbn. set_solver. Qed.

Lemma table_set_conflict n R t a b :
  table_is n R t → a < n → b < n →
  ∃ t', ConflictTable_set_conflict t a b = Ret t' ∧ table_is n (λ i j, R i j ∨ i = a ∧ j = b) t'.
Proof.
  intros (Hl & Hc & HR) Ha Hb. unfold ConflictTable_set_conflict, bit_insert. rewrite Hl, Hc.
  rewrite decide_True by (by apply cell_lt). eexists. split; [done|]. split; [done|]. split; [done|].
  intros i j Hi Hj. cbn. rewrite elem_of_union, elem_of_singleton, HR by done. split.
  - intros [E|?]; [|by left]. right. by apply cell_inj in E.
  - intros [?|[-> ->]]; auto.
Qed.

Lemma table_set_exclusive n R t a :
  table_is n R t → a < n →
  ∃ t', ConflictTable_set_exclusive t a = Ret t' ∧ table_is n (λ i j, R i j ∨ i = a ∨ j = a) t'.
Proof.
  intros (Hl & Hc & HR) Ha. unfold ConflictTable_set_exclusive. rewrite Hl.
  rewrite bit_insert_all_ok.
  2: { rewrite Hc. intros i (line & -> & Hline)%list_elem_of_fmap. apply elem_of_seq in Hline. apply cell_lt; lia. }
  cbn [mbind outcome_bind]. rewrite bit_insert_all_ok.
  2: { cbn. rewrite Hc. intros i (line & -> & Hline)%list_elem_of_fmap. apply elem_of_seq in Hline. nia. }
  eexists. split; [done|]. split; [done|]. split; [done|]. intros i j Hi Hj. cbn.
  rewrite !elem_of_union, !elem_of_list_to_set, !list_elem_of_fmap, HR by done. split.
  - intros [(line & E & Hline)|[(line & E & Hline)|?]]; [| |by left]; apply elem_of_seq in Hline.
    + assert (i * n + j = line * n + a) as E' by lia. apply cell_inj in E' as [_ ->]; [|done|done]. auto.
    + apply cell_inj in E as [-> _]; [|done|lia]. auto.
  - intros [?|[->| ->]]; [by right; right|right; left; exists j|left; exists i]; (split; [lia|apply elem_of_seq; lia]).
Qed.

Lemma table_is_ext n R R' t : (∀ i j, i < n → j < n → R i j ↔ R' i j) → table_is n R t → table_is n R' t.
Proof. intros HR (? & ? & Ht). split; [done|]. split; [done|]. intros i j Hi Hj. rewrite Ht, HR by done. done. Qed.

Lemma table_read n R t i j :
  table_is n R t → i < n → j < n → ∃ b, ConflictTable_is_conflict t i j = Ret b ∧ (b = true ↔ R i j).
Proof.
  intros (Hl & Hc & HR) Hi Hj. unfold ConflictTable_is_conflict. rewrite Hl, Hc, decide_True by (by apply cell_lt).
  eexists. split; [done|]. rewrite bool_decide_eq_true. by apply HR.
Qed.
