(* ===== verification/ScheduleInv.v ===== *)
(** * Correctness of schedule building

    The invariant of a [Schedule] over its registrations, removals and builds,
    and what a build establishes: the well-formedness [schedule_ok] the executor
    theorems start from, and a conflict matrix that covers every pair of systems
    whose accesses may not overlap. *)

From Stdlib Require Import ZArith Lia.
From S2P Require Import Prelude Access Executor Graph Scc Toposort Schedule.

#[local] Arguments vertices {_ _} _ : simpl never.

(** ** Counting edges *)

Section Counting.
Context {K : Type} `{GraphNode K}.
Implicit Types (topo : list K) (f : K → nat).

Lemma index_keys_lookup topo : ∀ idx (m : gmap K nat) k,
  NoDup topo →
  (∀ i, topo !! i = Some k → index_keys topo idx m !! k = Some (idx + i)) ∧
  (k ∉ topo → index_keys topo idx m !! k = m !! k).
Proof.
  induction topo as [|x topo IH]; intros idx m k Hnd; cbn [index_keys]; [by split|].
  apply NoDup_cons in Hnd as [Hx Hnd]. destruct (IH (S idx) (<[x := idx]> m) k Hnd) as [H1 H2]. split.
  - intros [|i] Hi; cbn in Hi.
    + injection Hi as ->. rewrite H2 by done. rewrite lookup_insert_eq. f_equal. lia.
    + rewrite (H1 i Hi). f_equal. lia.
  - intros [Hne Hn]%not_elem_of_cons. rewrite H2 by done. by rewrite lookup_insert_ne.
Qed.

Lemma push_edges_ok f (indices : gmap K nat) idx tos : ∀ inc out,
  (∀ to, to ∈ tos → indices !! to = Some (f to) ∧ f to < length inc ∧ as_u32 (f to) = f to) →
  NoDup (f <$> tos) → idx < length out →
  ∃ inc' out', push_edges tos indices idx inc out = Ret (inc', out') ∧
    (∀ i, inc' !! i = (λ n, n + if decide (i ∈ f <$> tos) then 1 else 0) <$> inc !! i) ∧
    (∀ p, out' !! p = if decide (p = idx) then (λ l, l ++ (f <$> tos)) <$> out !! p else out !! p).
Proof.
  induction tos as [|to tos IH]; intros inc out Hf Hnd Hidx; cbn [push_edges].
  - exists inc, out. split; [done|]. split.
    + intros i. cbn. destruct (inc !! i) as [n|]; cbn; [|done]. by rewrite Nat.add_0_r.
    + intros p. case_decide; [|done]. destruct (out !! p) as [l|]; cbn; [|done]. by rewrite app_nil_r.
  - destruct (Hf to (list_elem_of_here _ _)) as (-> & Hlt & Hu). cbn in Hnd. apply NoDup_cons in Hnd as [Hnew Hnd].
    destruct (lookup_lt_is_Some_2 _ _ Hlt) as [n Hn]. destruct (lookup_lt_is_Some_2 _ _ Hidx) as [l Hl].
    rewrite Hn, Hl, Hu.
    destruct (IH (<[f to := S n]> inc) (<[idx := l ++ [f to]]> out)) as (inc' & out' & -> & Hi & Ho).
    { intros x Hx. rewrite length_insert. apply Hf. by apply list_elem_of_further. }
    { done. } { by rewrite length_insert. }
    exists inc', out'. split; [done|]. split.
    + intros i. rewrite Hi. destruct (decide (i = f to)) as [->|Hne].
      * rewrite list_lookup_insert_eq, Hn by done. cbn. rewrite decide_False by done.
        rewrite decide_True by apply list_elem_of_here. f_equal. lia.
      * rewrite list_lookup_insert_ne by done. destruct (inc !! i); cbn; [|done]. f_equal. f_equal.
        destruct (decide (i ∈ f <$> tos)), (decide (i ∈ f to :: (f <$> tos))) as [Hc|Hc]; try done.
        -- destruct Hc. by apply list_elem_of_further.
        -- by apply elem_of_cons in Hc as [?|?].
    + intros p. rewrite Ho. destruct (decide (p = idx)) as [->|]; [|by rewrite list_lookup_insert_ne].
      rewrite list_lookup_insert_eq, Hl by done. cbn. by rewrite <- app_assoc.
Qed.

(** The edges of a position in the order, as positions. *)
Definition edges_at (g : DiGraph K) topo f (p : nat) : list nat :=
  match topo !! p with Some k => f <$> Graph_neighbors g k | None => [] end.

(** The positions of the successors of a position. *)
Definition family (g : DiGraph K) (topo : list K) (out : list (list nat)) : Prop :=
  length out = length topo ∧ (∀ p, NoDup (default [] (out !! p))) ∧
  ∀ p t, t ∈ default [] (out !! p) ↔ ∃ a b, (a, b) ∈ g_edges g ∧ topo !! p = Some a ∧ topo !! t = Some b.

Lemma count_edges_ok (g : DiGraph K) topo0 f (indices : gmap K nat) topo : ∀ idx inc out,
  (∀ q k, topo !! q = Some k → topo0 !! (idx + q) = Some k) →
  (∀ k to, k ∈ topo → to ∈ Graph_neighbors g k →
     indices !! to = Some (f to) ∧ f to < length inc ∧ as_u32 (f to) = f to) →
  (∀ k, k ∈ topo → NoDup (f <$> Graph_neighbors g k)) →
  idx + length topo ≤ length out →
  ∃ inc' out', count_edges g topo indices idx inc out = Ret (inc', out') ∧
    (∀ i, inc' !! i =
       (λ n, n + length (filter (λ p, i ∈ edges_at g topo0 f p) (seq idx (length topo)))) <$> inc !! i) ∧
    (∀ p, out' !! p = if decide (idx ≤ p < idx + length topo)
                      then (λ l, l ++ edges_at g topo0 f p) <$> out !! p else out !! p).
Proof.
  induction topo as [|k topo IH]; intros idx inc out Hpos Hf Hnd Hlen; cbn [count_edges].
  - exists inc, out. split; [done|]. split.
    + intros i. cbn. destruct (inc !! i) as [n|]; cbn; [|done]. by rewrite Nat.add_0_r.
    + intros p. by rewrite decide_False by (cbn; lia).
  - assert (Hat : edges_at g topo0 f idx = f <$> Graph_neighbors g k).
    { unfold edges_at. pose proof (Hpos 0 k eq_refl) as H0. rewrite Nat.add_0_r in H0. by rewrite H0. }
    cbn in Hlen.
    destruct (push_edges_ok f indices idx (Graph_neighbors g k) inc out) as (inc1 & out1 & -> & Hi1 & Ho1).
    { intros to Hto. apply (Hf k); [apply list_elem_of_here|done]. }
    { apply Hnd, list_elem_of_here. } { lia. }
    cbn [mbind outcome_bind].
    assert (Hl1 : length inc1 = length inc).
    { apply Nat.le_antisymm; apply Nat.nlt_ge; intros Hlt.
      - destruct (lookup_lt_is_Some_2 inc1 (length inc) Hlt) as [x Hx]. rewrite Hi1 in Hx.
        by rewrite lookup_ge_None_2 in Hx by lia.
      - destruct (lookup_lt_is_Some_2 inc (length inc1) Hlt) as [x Hx]. specialize (Hi1 (length inc1)).
        rewrite Hx, lookup_ge_None_2 in Hi1 by lia. done. }
    assert (Hl2 : length out1 = length out).
    { apply Nat.le_antisymm; apply Nat.nlt_ge; intros Hlt.
      - destruct (lookup_lt_is_Some_2 out1 (length out) Hlt) as [x Hx]. rewrite Ho1 in Hx.
        rewrite decide_False in Hx by lia. by rewrite lookup_ge_None_2 in Hx by lia.
      - destruct (lookup_lt_is_Some_2 out (length out1) Hlt) as [x Hx]. specialize (Ho1 (length out1)).
        rewrite Hx, lookup_ge_None_2 in Ho1 by lia. by destruct (decide _). }
    destruct (IH (S idx) inc1 out1) as (inc2 & out2 & -> & Hi2 & Ho2).
    { intros q k' Hq. rewrite Nat.add_succ_comm. by apply (Hpos (S q)). }
    { intros k' to Hk' Hto. rewrite Hl1. apply (Hf k'); [by apply list_elem_of_further|done]. }
    { intros k' Hk'. apply Hnd. by apply list_elem_of_further. }
    { rewrite Hl2. lia. }
    exists inc2, out2. split; [done|]. split.
    + intros i. rewrite Hi2, Hi1. destruct (inc !! i) as [n|]; [|done]. cbn [fmap option_fmap option_map length seq]. f_equal.
      rewrite filter_cons, Hat. case_decide; cbn [length]; lia.
    + intros p. rewrite Ho2, Ho1. cbn [length]. destruct (decide (p = idx)) as [->|Hne].
      * rewrite decide_False by lia. rewrite decide_True by lia. by rewrite Hat.
      * destruct (decide (S idx ≤ p < S idx + length topo)); [rewrite decide_True by lia; done|].
        by rewrite decide_False by lia.
Qed.

End Counting.

(** ** Filling the matrix *)

Section Matrix.
Context {K : Type} `{GraphNode K}.
Variable cg : ConflictGraph (K := K).
Variable topo0 : list K.
Notation n := (length topo0).
Hypothesis Hn : (Z.of_nat n ≤ u32_max)%Z.

Lemma small_index i : i < n → as_u32 i = i.
Proof. intros Hi. apply as_u32_id. lia. Qed.

Lemma fill_row_ok a ka rest : ∀ idx_b t R,
  table_is n R t → a < n → (∀ q k, rest !! q = Some k → topo0 !! (idx_b + q) = Some k) →
  ∃ t', fill_row cg a ka rest idx_b t = Ret t' ∧
    table_is n (λ i j, R i j ∨ ∃ q kb, rest !! q = Some kb ∧ ConflictGraph_is_conflict cg ka kb = true ∧
                  (i = a ∧ j = idx_b + q ∨ i = idx_b + q ∧ j = a)) t'.
Proof.
  induction rest as [|kb rest IH]; intros idx_b t R Ht Ha Hpos; cbn [fill_row].
  - exists t. split; [done|]. eapply table_is_ext; [|done]. intros i j _ _. split; [by left|]. by intros [?|(q & kb & [=] & _)].
  - assert (Hb : idx_b < n).
    { pose proof (Hpos 0 kb eq_refl) as H0. rewrite Nat.add_0_r in H0. by apply lookup_lt_Some in H0. }
    assert (Hpos' : ∀ q k, rest !! q = Some k → topo0 !! (S idx_b + q) = Some k).
    { intros q k Hq. replace (S idx_b + q) with (idx_b + S q) by lia. by apply Hpos. }
    destruct (ConflictGraph_is_conflict cg ka kb) eqn:Ec.
    + rewrite !small_index by done.
      destruct (table_set_conflict n R t a idx_b Ht Ha Hb) as (t1 & -> & Ht1). cbn [mbind outcome_bind].
      destruct (table_set_conflict n _ t1 idx_b a Ht1 Hb Ha) as (t2 & -> & Ht2). cbn [mbind outcome_bind].
      destruct (IH (S idx_b) t2 _ Ht2 Ha Hpos') as (t' & -> & Ht'). exists t'. split; [done|].
      eapply table_is_ext; [|exact Ht']. intros i j _ _. split.
      * intros [[[?|[-> ->]]|[-> ->]]|(q & kb' & Hq & Hc & Hij)]; [by left|right..].
        -- exists 0, kb. rewrite Nat.add_0_r. auto.
        -- exists 0, kb. rewrite Nat.add_0_r. auto.
        -- exists (S q), kb'. replace (idx_b + S q) with (S idx_b + q) by lia. auto.
      * intros [?|([|q] & kb' & Hq & Hc & Hij)]; [by left; left; left|..].
        -- cbn in Hq. injection Hq as <-. rewrite Nat.add_0_r in Hij. left. tauto.
        -- right. exists q, kb'. replace (idx_b + S q) with (S idx_b + q) in Hij by lia. auto.
    + cbn [mbind outcome_bind]. destruct (IH (S idx_b) t R Ht Ha Hpos') as (t' & -> & Ht'). exists t'. split; [done|].
      eapply table_is_ext; [|exact Ht']. intros i j _ _. split.
      * intros [?|(q & kb' & Hq & Hc & Hij)]; [by left|right]. exists (S q), kb'.
        replace (idx_b + S q) with (S idx_b + q) by lia. auto.
      * intros [?|([|q] & kb' & Hq & Hc & Hij)]; [by left|cbn in Hq; congruence|]. right. exists q, kb'.
        replace (idx_b + S q) with (S idx_b + q) in Hij by lia. auto.
Qed.

(** The pairs the rows from [idx] on contribute. *)
Definition row_pairs (idx i j : nat) : Prop :=
  ∃ a ka, idx ≤ a ∧ topo0 !! a = Some ka ∧
    ((ConflictGraph_is_exclusive cg ka = true ∧ (i = a ∨ j = a)) ∨
     (ConflictGraph_is_exclusive cg ka = false ∧
      ∃ b kb, a < b ∧ topo0 !! b = Some kb ∧ ConflictGraph_is_conflict cg ka kb = true ∧
              (i = a ∧ j = b ∨ i = b ∧ j = a))).

Lemma row_pairs_split idx k i j :
  topo0 !! idx = Some k → row_pairs idx i j ↔
  row_pairs (S idx) i j ∨
  (ConflictGraph_is_exclusive cg k = true ∧ (i = idx ∨ j = idx)) ∨
  (ConflictGraph_is_exclusive cg k = false ∧
   ∃ b kb, idx < b ∧ topo0 !! b = Some kb ∧ ConflictGraph_is_conflict cg k kb = true ∧
           (i = idx ∧ j = b ∨ i = b ∧ j = idx)).
Proof.
  intros Hk. unfold row_pairs. split.
  - intros (a & ka & Hle & Ha & Hp). destruct (decide (a = idx)) as [->|]; [|left; exists a, ka; split; [lia|done]].
    right. rewrite Hk in Ha. by injection Ha as <-.
  - intros [(a & ka & Hle & Ha & Hp)|Hp]; [exists a, ka; split; [lia|done]|]. exists idx, k. done.
Qed.

Lemma fill_table_ok topo : ∀ idx t R,
  table_is n R t → (∀ q k, topo !! q = Some k → topo0 !! (idx + q) = Some k) → idx + length topo = n →
  ∃ t', fill_table cg topo idx t = Ret t' ∧ table_is n (λ i j, R i j ∨ row_pairs idx i j) t'.
Proof.
  induction topo as [|k topo IH]; intros idx t R Ht Hpos Hlen; cbn [fill_table].
  - exists t. split; [done|]. eapply table_is_ext; [|done]. intros i j _ _. split; [by left|].
    intros [?|(a & ka & Hle & Ha & _)]; [done|]. apply lookup_lt_Some in Ha. cbn in Hlen. lia.
  - pose proof (Hpos 0 k eq_refl) as Hk. rewrite Nat.add_0_r in Hk. pose proof (lookup_lt_Some _ _ _ Hk) as Hlt.
    assert (Hpos' : ∀ q k, topo !! q = Some k → topo0 !! (S idx + q) = Some k).
    { intros q k' Hq. replace (S idx + q) with (idx + S q) by lia. by apply Hpos. }
    cbn in Hlen.
    assert (Hstep : ∃ t1, (if ConflictGraph_is_exclusive cg k then ConflictTable_set_exclusive t (as_u32 idx)
                           else fill_row cg idx k topo (S idx) t) = Ret t1 ∧
      table_is n (λ i j, R i j ∨ (ConflictGraph_is_exclusive cg k = true ∧ (i = idx ∨ j = idx)) ∨
        (ConflictGraph_is_exclusive cg k = false ∧
         ∃ b kb, idx < b ∧ topo0 !! b = Some kb ∧ ConflictGraph_is_conflict cg k kb = true ∧
                 (i = idx ∧ j = b ∨ i = b ∧ j = idx))) t1).
    { destruct (ConflictGraph_is_exclusive cg k).
      - rewrite small_index by done. destruct (table_set_exclusive n R t idx Ht Hlt) as (t1 & -> & Ht1).
        exists t1. split; [done|]. eapply table_is_ext; [|exact Ht1]. intros i j _ _. naive_solver.
      - destruct (fill_row_ok idx k topo (S idx) t R Ht Hlt Hpos') as (t1 & -> & Ht1). exists t1. split; [done|].
        eapply table_is_ext; [|exact Ht1]. intros i j _ _. split.
        + intros [?|(q & kb & Hq & Hc & Hij)]; [by left|]. right; right. split; [done|]. exists (S idx + q), kb.
          split; [lia|]. auto.
        + intros [?|[[? _]|[_ (b & kb & Hb & Hkb & Hc & Hij)]]]; [by left|done|]. right. exists (b - S idx), kb.
          replace (S idx + (b - S idx)) with b by lia. split; [|auto].
          destruct (lookup_lt_is_Some_2 topo (b - S idx)) as [kb' Hkb']; [apply lookup_lt_Some in Hkb; lia|].
          pose proof (Hpos' _ _ Hkb') as Hk'. replace (S idx + (b - S idx)) with b in Hk' by lia. congruence. }
    destruct Hstep as (t1 & -> & Ht1). cbn [mbind outcome_bind].
    destruct (IH (S idx) t1 _ Ht1 Hpos') as (t' & -> & Ht'); [lia|]. exists t'. split; [done|].
    eapply table_is_ext; [|exact Ht']. intros i j _ _. cbn beta. rewrite (row_pairs_split idx k) by done. tauto.
Qed.

(** The matrix of the whole order, for a symmetric conflict graph. *)
Lemma fill_table_all :
  (∀ a b, ConflictGraph_is_conflict cg a b = ConflictGraph_is_conflict cg b a) →
  ∃ t, fill_table cg topo0 0 (ConflictTable_new n) = Ret t ∧
    table_is n (λ i j, ∃ ki kj, topo0 !! i = Some ki ∧ topo0 !! j = Some kj ∧
      (ConflictGraph_is_exclusive cg ki = true ∨ ConflictGraph_is_exclusive cg kj = true ∨
       i ≠ j ∧ ConflictGraph_is_conflict cg ki kj = true)) t.
Proof.
  intros Hsym. destruct (fill_table_ok topo0 0 (ConflictTable_new n) _ (table_new_is n)) as (t & Ht & HR); [done|done|].
  exists t. split; [done|]. eapply table_is_ext; [|exact HR]. intros i j Hi Hj.
  destruct (lookup_lt_is_Some_2 _ _ Hi) as [ki Hki]. destruct (lookup_lt_is_Some_2 _ _ Hj) as [kj Hkj]. split.
  - intros [[]|(a & ka & _ & Ha & [[Hx Hij]|[Hx (b & kb & Hab & Hb & Hc & Hij)]])].
    + exists ki, kj. split; [done|]. split; [done|]. destruct Hij as [->| ->]; simplify_eq; auto.
    + exists ki, kj. split; [done|]. split; [done|]. right; right.
      destruct Hij as [[-> ->]|[-> ->]]; simplify_eq; (split; [lia|]); [done|]. by rewrite Hsym.
  - intros (ki' & kj' & Hki' & Hkj' & Hor). rewrite Hki in Hki'. rewrite Hkj in Hkj'. injection Hki' as <-. injection Hkj' as <-.
    right. destruct (ConflictGraph_is_exclusive cg ki) eqn:Ei.
    { exists i, ki. split; [lia|]. split; [done|]. left. auto. }
    destruct (ConflictGraph_is_exclusive cg kj) eqn:Ej.
    { exists j, kj. split; [lia|]. split; [done|]. left. auto. }
    destruct Hor as [?|[?|[Hne Hc]]]; [done|done|].
    destruct (le_lt_dec i j) as [Hle|Hgt].
    + exists i, ki. split; [lia|]. split; [done|]. right. split; [done|]. exists j, kj. split; [lia|]. auto.
    + exists j, kj. split; [lia|]. split; [done|]. right. split; [done|]. exists i, ki. split; [lia|].
      rewrite Hsym. auto.
Qed.

End Matrix.

(** ** The invariant *)

Section Invariant.
Context {K Id Set_ System World SM : Type}.
Context `{GraphNode K, !HashOrder K, EqDecision Id, Countable Id, EqDecision Set_, Countable Set_}.
Context `{!SlotMap SM K Id, !SlotMapLaws SM K Id, !SystemOps System World Id, !SetMarkers Set_ System}.

Notation Sched := (Schedule (K := K) (Id := Id) (Set_ := Set_) (System := System) (SM := SM)).
Notation Obj := (SystemObject (System := System)).
Notation Comp := (Compiled (K := K) (System := System)).
Implicit Types (st : Sched) (k : K) (o : Obj) (c : Comp).

Definition live st k : Prop := ∃ id, idents (sc_allocator st) !! id = Some k.

Definition dag_live st (d : Dag K) : Prop := dag_ok d ∧ ∀ k, k ∈ vertices (dag_graph d) ↔ live st k.

(** Where a registered system is kept. *)
Definition obj_at st k o : Prop :=
  sb_nodes (sc_buffer st) !! k = Some (Some o) ∨
  ∃ i, cp_keys (sc_schedule st) !! i = Some k ∧ cp_systems (sc_schedule st) !! i = Some o.

(** What the executors see of the compiled form; they ask for pairs of systems
    of the schedule only. *)
Definition view c : SystemSchedule :=
  mkSchedule (length (cp_keys c)) (cp_incoming c) (cp_outgoing c) (cp_condition_incoming c) (cp_condition_outgoing c)
    (λ i j, if decide (i < length (cp_keys c) ∧ j < length (cp_keys c))
            then match ConflictTable_is_conflict (cp_conflict c) i j with Ret b => b | _ => false end else false)
    (λ i, match cp_systems c !! i with Some o => SystemObject_is_no_op o | None => false end)
    (λ i, match cp_systems c !! i with Some o => SystemObject_is_deferred o | None => false end)
    (λ i, match cp_systems c !! i with Some o => SystemObject_is_exclusive o | None => false end).

Definition blank c : Prop :=
  cp_keys c = [] ∧ cp_systems c = [] ∧ cp_outgoing c = [] ∧ cp_incoming c = [] ∧
  cp_condition_incoming c = [] ∧ cp_condition_outgoing c = [].

(** The compiled form holds exactly the systems taken from the buffer. *)
Definition comp_ok st : Prop :=
  if sc_is_changed st
  then blank (sc_schedule st) ∧ ∀ k, sb_nodes (sc_buffer st) !! k ≠ Some None
  else NoDup (cp_keys (sc_schedule st)) ∧
       length (cp_systems (sc_schedule st)) = length (cp_keys (sc_schedule st)) ∧
       ∀ k, k ∈ cp_keys (sc_schedule st) ↔ sb_nodes (sc_buffer st) !! k = Some None.

(** What a build leaves: the registered systems in an order that respects all
    edges, with exactly the edges of the ordering graphs. *)
Record compiled_of st c : Prop := {
  co_keys : NoDup (cp_keys c) ∧ ∀ k, k ∈ cp_keys c ↔ live st k;
  co_topo : topological (dag_graph (mixed_dag (sc_ordering st))) (cp_keys c);
  co_out : family (dag_graph (mixed_dag (sc_ordering st))) (cp_keys c) (cp_outgoing c);
  co_cond : family (dag_graph (og_condition (sc_ordering st))) (cp_keys c) (cp_condition_outgoing c);
  co_systems : ∀ i k, cp_keys c !! i = Some k → ∃ o, cp_systems c !! i = Some o ∧ obj_at st k o
}.

(** A compiled form good for execution. *)
Definition compiled_ok (cg : ConflictGraph) c : Prop :=
  schedule_ok (view c) ∧
  ∀ i j ki kj, cp_keys c !! i = Some ki → cp_keys c !! j = Some kj → i ≠ j →
    is_conflict (view c) i j = false →
    ConflictGraph_is_exclusive cg ki = false ∧ ConflictGraph_is_exclusive cg kj = false ∧
    ConflictGraph_is_conflict cg ki kj = false.

Definition conflict_free o o' : Prop :=
  AccessTable_parallelizable (obj_access o) (obj_access o') = true ∨
  AccessTable_parallelizable (obj_access o') (obj_access o) = true.

(** The conflict graph covers all systems initialized so far. *)
Definition conflicts_known st : Prop :=
  (∀ a b, ConflictGraph_is_conflict (sc_conflict st) a b = ConflictGraph_is_conflict (sc_conflict st) b a) ∧
  ∀ a b oa ob, obj_at st a oa → obj_at st b ob →
    a ∉ sb_uninit (sc_buffer st) → b ∉ sb_uninit (sc_buffer st) →
    (SystemObject_is_exclusive oa = true → ConflictGraph_is_exclusive (sc_conflict st) a = true) ∧
    (a ≠ b → SystemObject_is_exclusive oa = false → SystemObject_is_exclusive ob = false →
     conflict_free oa ob ∨ ConflictGraph_is_conflict (sc_conflict st) a b = true).

Record sched_inv st : Prop := {
  si_ident : ∀ id k, idents (sc_allocator st) !! id = Some k ↔ sm_get (slots (sc_allocator st)) k = Some id;
  si_nodes : ∀ k, is_Some (sb_nodes (sc_buffer st) !! k) ↔ live st k;
  si_dep : dag_live st (og_dependency (sc_ordering st));
  si_cond : dag_live st (og_condition (sc_ordering st));
  si_uninit : NoDup (sb_uninit (sc_buffer st));
  si_uninit_live : ∀ k, k ∈ sb_uninit (sc_buffer st) → live st k;
  si_known : conflicts_known st;
  si_comp : comp_ok st;
  si_built : sc_is_changed st = false →
    sb_uninit (sc_buffer st) = [] ∧ compiled_of st (sc_schedule st) ∧
    compiled_ok (sc_conflict st) (sc_schedule st)
}.

(** Sets, hierarchy and the executor flag play no role. *)
Lemma inv_irrelevant st sets h b :
  sched_inv st →
  sched_inv (mkSched (sc_allocator st) (sc_buffer st) (sc_ordering st) (sc_conflict st) (sc_schedule st) sets h b
               (sc_is_changed st)).
Proof.
  intros [? ? ? ? ? ? ? ? Hb]. split; try done. intros (? & [? ? ? ? ?] & ?)%Hb. split; [done|]. split; [by split|done].
Qed.

Lemma view_blank c : blank c → schedule_ok (view c).
Proof.
  intros (Hk & Hs & Ho & Hi & Hci & Hco).
  assert (∀ p, outs (view c) p = []) as Houts by (intros p; unfold outs; cbn; by rewrite Ho).
  assert (∀ p, couts (view c) p = []) as Hcouts by (intros p; unfold couts; cbn; by rewrite Hco).
  split; cbn [view sys_count s_incoming s_outgoing s_condition_incoming s_condition_outgoing is_conflict];
    rewrite ?Hk, ?Hs, ?Ho, ?Hi, ?Hci, ?Hco; try done.
  - intros p. rewrite Houts. constructor.
  - intros p. rewrite Hcouts. constructor.
  - intros p t. rewrite Houts. by intros ?%elem_of_nil.
  - intros p t. rewrite Hcouts. by intros ?%elem_of_nil.
  - intros i Hlt. cbn in Hlt. lia.
  - intros i Hlt. cbn in Hlt. lia.
Qed.

Lemma inv_new : sched_inv (Schedule_new : Sched).
Proof.
  assert (Hlive : ∀ k, ¬ live (Schedule_new : Sched) k).
  { intros k [id Hid]. cbn in Hid. by rewrite lookup_empty in Hid. }
  assert (Hdag : dag_live (Schedule_new : Sched) Dag_new).
  { split; [apply dag_reach_ok, dag_reach_new|]. intros k. split; [|by intros ?%Hlive].
    change (vertices (dag_graph Dag_new)) with (vertices (Graph_new : DiGraph K)). destruct (new_wf (N := K)) as (_ & -> & _). set_solver. }
  split; cbn.
  - intros id k. rewrite lookup_empty, sm_get_empty. done.
  - intros k. rewrite lookup_empty. split; [by intros [? ?]|by intros ?%Hlive].
  - done.
  - done.
  - constructor.
  - by intros k ?%elem_of_nil.
  - split; [done|]. intros a b oa ob [Ha|(i & Ha & _)]; cbn in Ha; [by rewrite lookup_empty in Ha|done].
  - unfold comp_ok. cbn. split; [constructor|]. split; [done|]. intros k. rewrite lookup_empty, elem_of_nil. done.
  - intros _. split; [done|]. split; [|split; [by apply view_blank|]].
    { assert (Hf : ∀ g : DiGraph K, family g [] []) by (split; [done|]; split; [constructor|]; intros p t; cbn;
        rewrite elem_of_nil; split; [done|]; by intros (a & b & _ & ? & _)).
      split; cbn; [|..|done]; auto.
      - split; [constructor|]. intros k. rewrite elem_of_nil. split; [done|]. by intros ?%Hlive.
      - assert (Hno : Graph_all_edges (dag_graph (Dag_new : Dag K)) = []).
        { apply Permutation_nil. symmetry. etrans; [apply hash_order_perm|]. cbn. by rewrite elements_empty. }
        unfold mixed_dag. cbn [og_condition og_dependency]. rewrite Hno. intros a b He. cbn in He. set_solver. } intros i j ki kj Hi. done.
Qed.

(** ** Going back to the buffer *)

Lemma give_back_ok (items : list (K * Obj)) : ∀ nodes,
  NoDup items.*1 → (∀ k, k ∈ items.*1 → is_Some (nodes !! k)) →
  ∃ nodes', give_back items nodes = Ret nodes' ∧
    (∀ k o, (k, o) ∈ items → nodes' !! k = Some (Some o)) ∧ (∀ k, k ∉ items.*1 → nodes' !! k = nodes !! k).
Proof.
  induction items as [|[k0 o0] items IH]; intros nodes Hnd Hin; cbn [give_back].
  - exists nodes. split; [done|]. split; [by intros k o ?%elem_of_nil|done].
  - cbn in Hnd. apply NoDup_cons in Hnd as [Hk0 Hnd]. destruct (Hin k0 (list_elem_of_here _ _)) as [x ->].
    destruct (IH (<[k0 := Some o0]> nodes) Hnd) as (nodes' & -> & Hg1 & Hg2).
    { intros k Hk. destruct (decide (k = k0)) as [->|]; [by rewrite lookup_insert_eq|].
      rewrite lookup_insert_ne by done. apply Hin. by apply list_elem_of_further. }
    exists nodes'. split; [done|]. split.
    + intros k o [[= -> ->]|Hko]%elem_of_cons; [|by apply Hg1]. rewrite Hg2 by done. by rewrite lookup_insert_eq.
    + cbn. intros k [Hne Hk]%not_elem_of_cons. rewrite Hg2 by done. by rewrite lookup_insert_ne.
Qed.

(** [mark_changed] empties the compiled form and loses no system. *)
Lemma mark_changed_ok st :
  comp_ok st →
  ∃ nodes cp, mark_changed st =
      Ret (mkSched (sc_allocator st) (mkBuffer nodes (sb_uninit (sc_buffer st))) (sc_ordering st) (sc_conflict st) cp
             (sc_sets st) (sc_hierarchy st) (sc_executor_initialized st) true) ∧
    blank cp ∧ (∀ k, nodes !! k ≠ Some None) ∧
    (∀ k, is_Some (nodes !! k) ↔ is_Some (sb_nodes (sc_buffer st) !! k)) ∧
    ∀ k o, nodes !! k = Some (Some o) ↔ obj_at st k o.
Proof.
  unfold comp_ok, mark_changed. destruct (sc_is_changed st) eqn:Ec.
  - intros [Hb Hn]. exists (sb_nodes (sc_buffer st)), (sc_schedule st).
    split; [destruct st as [? [? ?] ? ? ? ? ? ? ?]; cbn in *; by subst|]. split; [done|]. split; [done|]. split; [done|].
    intros k o. unfold obj_at. destruct Hb as (-> & _). split; [by left|]. by intros [?|(i & ? & _)].
  - intros (Hnd & Hlen & Hk). unfold Schedule_recycle_schedule.
    assert (Hfst : (zip (cp_keys (sc_schedule st)) (cp_systems (sc_schedule st))).*1 = cp_keys (sc_schedule st)).
    { apply fst_zip. lia. }
    destruct (give_back_ok (zip (cp_keys (sc_schedule st)) (cp_systems (sc_schedule st))) (sb_nodes (sc_buffer st)))
      as (nodes & -> & Hg1 & Hg2); rewrite ?Hfst in *; [done| |].
    { intros k Hin%Hk. by rewrite Hin. }
    cbn [mbind outcome_bind]. eexists nodes, _. split; [done|]. split; [done|].
    assert (Hzip : ∀ k o, (k, o) ∈ zip (cp_keys (sc_schedule st)) (cp_systems (sc_schedule st)) ↔
      ∃ i, cp_keys (sc_schedule st) !! i = Some k ∧ cp_systems (sc_schedule st) !! i = Some o).
    { intros k o. rewrite list_elem_of_lookup. by setoid_rewrite lookup_zip_Some. }
    assert (Hkey : ∀ k, k ∈ cp_keys (sc_schedule st) → ∃ o, nodes !! k = Some (Some o) ∧
        ∃ i, cp_keys (sc_schedule st) !! i = Some k ∧ cp_systems (sc_schedule st) !! i = Some o).
    { intros k [i Hi]%list_elem_of_lookup. destruct (lookup_lt_is_Some_2 (cp_systems (sc_schedule st)) i) as [o Ho].
      { rewrite Hlen. by eapply lookup_lt_Some. }
      exists o. split; [|by exists i]. apply Hg1, Hzip. by exists i. }
    split; [|split].
    + intros k Hkn. destruct (decide (k ∈ cp_keys (sc_schedule st))) as [Hin|Hin].
      * destruct (Hkey k Hin) as (o & ? & _). congruence.
      * rewrite Hg2 in Hkn by done. by apply Hk in Hkn.
    + intros k. destruct (decide (k ∈ cp_keys (sc_schedule st))) as [Hin|Hin].
      * destruct (Hkey k Hin) as (o & -> & _). apply Hk in Hin as ->. split; by eexists.
      * by rewrite Hg2.
    + intros k o. unfold obj_at. destruct (decide (k ∈ cp_keys (sc_schedule st))) as [Hin|Hin].
      * destruct (Hkey k Hin) as (o' & Hn & i & Hi & Ho). split.
        -- intros E. right. exists i. split; [done|]. congruence.
        -- intros [E|(j & Hj & Hoj)]; [apply Hk in Hin; congruence|]. assert (i = j) as -> by (by eapply NoDup_lookup). congruence.
      * rewrite Hg2 by done. split; [by left|]. intros [?|(i & Hi & _)]; [done|]. by apply list_elem_of_lookup_2 in Hi.
Qed.

(** The invariant of a schedule with everything in the buffer. *)
Lemma inv_mark_changed st :
  sched_inv st →
  ∃ nodes cp, let st' := mkSched (sc_allocator st) (mkBuffer nodes (sb_uninit (sc_buffer st))) (sc_ordering st)
                (sc_conflict st) cp (sc_sets st) (sc_hierarchy st) (sc_executor_initialized st) true in
    mark_changed st = Ret st' ∧ sched_inv st'.
Proof.
  intros Hinv. destruct (mark_changed_ok st (si_comp _ Hinv)) as (nodes & cp & Hrun & Hb & Hn & Hdom & Hobj).
  exists nodes, cp. split; [done|]. destruct Hinv as [Hid Hnodes Hdep Hcond Hu1 Hu2 [Hs Hkn] Hcomp Hbuilt].
  split; try done.
  - intros k. cbn. rewrite Hdom. apply Hnodes.
  - split; [done|]. cbn. intros a b oa ob Ha Hb'. apply (Hkn a b oa ob); apply Hobj.
    + destruct Ha as [Ha|(i & Ha & _)]; [done|]. cbn in Ha. destruct Hb as (Hk & _). by rewrite Hk in Ha.
    + destruct Hb' as [Ha'|(i & Ha' & _)]; [done|]. cbn in Ha'. destruct Hb as (Hk & _). by rewrite Hk in Ha'.
Qed.

(** ** Registration *)

Lemma dag_ok_mut (d : Dag K) f : digraph_wf (f (dag_graph d)) → dag_ok (Dag_graph_mut d f).
Proof. intros Hwf. by split. Qed.

Lemma inv_register st id put obj :
  sched_inv st → sc_is_changed st = true →
  (∀ b k, put b k = mkBuffer (<[k := Some obj]> (sb_nodes b)) (sb_uninit b ++ [k])) →
  let '(key, st', _) := register st id put in
  sched_inv st' ∧ sc_is_changed st' = true ∧ live st' key ∧ ∀ k, live st k → live st' k.
Proof.
  intros Hinv Hch Hput. unfold register, SAllocator_get_key.
  destruct (idents (sc_allocator st) !! id) as [key|] eqn:Eid.
  { split; [done|]. split; [done|]. split; [by exists id|done]. }
  unfold SAllocator_insert. rewrite Eid.
  pose proof (sm_insert_fresh (slots (sc_allocator st)) id) as Hfresh.
  pose proof (sm_get_insert (slots (sc_allocator st)) id) as Hget.
  destruct (sm_insert (slots (sc_allocator st)) id) as [key s']. cbn [fst snd] in *. rewrite Hput.
  destruct Hinv as [Hid Hnodes [Hdep Hdepv] [Hcond Hcondv] Hu1 Hu2 [Hs Hkn] Hcomp Hbuilt].
  assert (Hdead : ¬ live st key).
  { intros [id' Hl]. apply Hid in Hl. congruence. }
  set (st' := mkSched _ _ _ _ _ _ _ _ _).
  assert (Hlive : ∀ k, live st' k ↔ k = key ∨ live st k).
  { intros k. unfold live. cbn. split.
    - intros [id' Hl]. destruct (decide (id' = id)) as [->|]; [rewrite lookup_insert_eq in Hl; left; congruence|].
      rewrite lookup_insert_ne in Hl by done. eauto.
    - intros [->|[id' Hl]]; [exists id; by rewrite lookup_insert_eq|]. exists id'. rewrite lookup_insert_ne by congruence. done. }
  split; [|split; [done|split; [apply Hlive; by left|intros k Hk; apply Hlive; by right]]].
  unfold comp_ok in Hcomp. rewrite Hch in Hcomp. destruct Hcomp as [Hb Hn].
  assert (Hobj : ∀ k o, obj_at st' k o → k = key ∨ obj_at st k o).
  { intros k o [Ho|(i & Hi & _)].
    - cbn in Ho. destruct (decide (k = key)) as [->|]; [by left|]. rewrite lookup_insert_ne in Ho by done. right. by left.
    - cbn in Hi. destruct Hb as (Hk & _). by rewrite Hk in Hi. }
  split.
  - intros id' k. cbn. rewrite Hget. destruct (decide (id' = id)) as [->|Hne].
    + rewrite lookup_insert_eq. case_decide; [naive_solver|]. split; [naive_solver|]. intros Hx%Hid. congruence.
    + rewrite lookup_insert_ne by done. case_decide as Hk; [|apply Hid]. subst k. split; [|naive_solver].
      intros Hx%Hid. congruence.
  - intros k. rewrite Hlive. cbn. destruct (decide (k = key)) as [->|]; [rewrite lookup_insert_eq; split; [by left|by eexists]|].
    rewrite lookup_insert_ne by done. rewrite Hnodes. naive_solver.
  - destruct (insert_node_spec (dag_graph (og_dependency (sc_ordering st))) key (proj1 Hdep)) as (Hw & HV & _).
    split; [by apply dag_ok_mut|]. intros k. cbn. rewrite HV, Hlive, elem_of_union, elem_of_singleton, Hdepv. tauto.
  - destruct (insert_node_spec (dag_graph (og_condition (sc_ordering st))) key (proj1 Hcond)) as (Hw & HV & _).
    split; [by apply dag_ok_mut|]. intros k. cbn. rewrite HV, Hlive, elem_of_union, elem_of_singleton, Hcondv. tauto.
  - cbn. apply NoDup_app. split; [done|]. split; [|apply NoDup_singleton].
    intros k Hk ->%list_elem_of_singleton. by apply Hu2 in Hk.
  - intros k. cbn. rewrite elem_of_app, list_elem_of_singleton, Hlive. intros [?| ->]; [right; by apply Hu2|by left].
  - split; [done|]. intros a b oa ob Ha Hb'. cbn. rewrite !elem_of_app, !list_elem_of_singleton. intros Hna Hnb.
    apply Hobj in Ha as [->|Ha]; [tauto|]. apply Hobj in Hb' as [->|Hb']; [tauto|].
    apply (Hkn a b oa ob); tauto.
  - unfold comp_ok. cbn. rewrite Hch. split; [done|]. intros k.
    destruct (decide (k = key)) as [->|]; [by rewrite lookup_insert_eq|]. by rewrite lookup_insert_ne.
  - cbn. congruence.
Qed.

(** An edge between registered systems. *)
Lemma inv_insert_order st a b :
  sched_inv st → sc_is_changed st = true → live st a → live st b →
  sched_inv (with_ordering st (OrderingGraph_insert_order (sc_ordering st) a b)).
Proof.
  intros [Hid Hnodes [Hdep Hdepv] Hcond Hu1 Hu2 Hkn Hcomp Hbuilt] Hch Ha Hb. split; try done; [|cbn; congruence].
  destruct (insert_edge_spec (dag_graph (og_dependency (sc_ordering st))) a b (proj1 Hdep)) as (Hw & HV & _).
  split; [by apply dag_ok_mut|]. intros k. cbn. rewrite HV, elem_of_union, Hdepv.
  split; [|by left]. intros [?|Hk]; [done|]. set_unfold in Hk. by destruct Hk as [->| ->].
Qed.

Lemma inv_insert_condition st a b :
  sched_inv st → sc_is_changed st = true → live st a → live st b →
  sched_inv (with_ordering st (OrderingGraph_insert_condition_order (sc_ordering st) a b)).
Proof.
  intros [Hid Hnodes Hdep [Hcond Hcondv] Hu1 Hu2 Hkn Hcomp Hbuilt] Hch Ha Hb. split; try done; [|cbn; congruence].
  destruct (insert_edge_spec (dag_graph (og_condition (sc_ordering st))) a b (proj1 Hcond)) as (Hw & HV & _).
  split; [by apply dag_ok_mut|]. intros k. cbn. rewrite HV, elem_of_union, Hcondv.
  split; [|by left]. intros [?|Hk]; [done|]. set_unfold in Hk. by destruct Hk as [->| ->].
Qed.

Lemma inv_marker st set m :
  sched_inv st → sc_is_changed st = true →
  let '(key, st') := register_marker st set m in
  sched_inv st' ∧ sc_is_changed st' = true ∧ live st' key ∧ ∀ k, live st k → live st' k.
Proof.
  intros Hinv Hch. unfold register_marker, register_action.
  pose proof (inv_register st (sys_id m) (λ b k, SystemBuffer_insert_action b k m) (SystemObject_new_action m) Hinv Hch) as Hr.
  destruct (register st (sys_id m) _) as [[key st'] new]. destruct Hr as (Hi & Hc & Hl & Hm); [done|].
  destruct new; [|done]. split; [|done]. unfold set_insert. by apply inv_irrelevant.
Qed.

Lemma inv_wire st key id set :
  sched_inv st → sc_is_changed st = true → live st key →
  let st' := Schedule_wire_set_boundaries st key id set in
  sched_inv st' ∧ sc_is_changed st' = true ∧ ∀ k, live st k → live st' k.
Proof.
  intros Hinv Hch Hkey. unfold Schedule_wire_set_boundaries.
  assert (Hinv1 : sched_inv (set_insert st set {[id]})) by (by apply inv_irrelevant).
  pose proof (inv_marker (set_insert st set {[id]}) set (set_begin set) Hinv1 Hch) as Hb.
  destruct (register_marker _ set (set_begin set)) as [b st2]. destruct Hb as (Hi2 & Hc2 & Hl2 & Hm2).
  pose proof (inv_marker st2 set (set_end set) Hi2 Hc2) as He.
  destruct (register_marker st2 set (set_end set)) as [e st3]. destruct He as (Hi3 & Hc3 & Hl3 & Hm3).
  assert (Hkey3 : live st3 key) by (by apply Hm3, Hm2).
  pose proof (inv_insert_order st3 key e Hi3 Hc3 Hkey3 Hl3) as Hi4.
  pose proof (inv_insert_condition _ b key Hi4 Hc3 (Hm3 _ Hl2) Hkey3) as Hi5.
  pose proof (inv_insert_condition _ b e Hi5 Hc3 (Hm3 _ Hl2) Hl3) as Hi6.
  split; [exact Hi6|]. split; [done|]. intros k Hk. by apply (Hm3 k), Hm2.
Qed.

(** A call that returns keeps the invariant; it may panic, but nothing is
    undefined. *)
Definition good (r : outcome Sched) : Prop :=
  match r with Ret st => sched_inv st | Panic => True | Undefined => False end.

Lemma good_bind (r : outcome Sched) (f : Sched → outcome Sched) :
  good r → (∀ st, sched_inv st → good (f st)) → good (r ≫= f).
Proof. intros Hr Hf. destruct r; cbn; auto. Qed.

Lemma good_foldl {A} (f : outcome Sched → A → outcome Sched) l : ∀ r,
  good r → (∀ r a, good r → good (f r a)) → good (foldl f r l).
Proof. induction l as [|a l IH]; intros r Hr Hf; cbn; auto. Qed.

Lemma good_check_len st : sched_inv st → good (check_len st).
Proof. intros Hi. unfold check_len. by case_decide. Qed.

Lemma good_insert st id put obj set :
  sched_inv st → (∀ b k, put b k = mkBuffer (<[k := Some obj]> (sb_nodes b)) (sb_uninit b ++ [k])) →
  good (self ← mark_changed st;
        let '(key, self, _) := register self id put in
        check_len (Schedule_wire_set_boundaries self key id set)).
Proof.
  intros Hinv Hput. destruct (inv_mark_changed st Hinv) as (nodes & cp & -> & Hi). cbn [mbind outcome_bind].
  match goal with |- context [register ?s id put] => pose proof (inv_register s id put obj Hi eq_refl Hput) as Hr end.
  destruct (register _ id put) as [[key st1] new]. destruct Hr as (Hi1 & Hc1 & Hl1 & _).
  apply good_check_len. by apply (inv_wire st1 key id set).
Qed.

Lemma good_insert_action st s set : sched_inv st → good (Schedule_insert_action st s set).
Proof. intros Hinv. by apply (good_insert st (sys_id s) _ (SystemObject_new_action s) set). Qed.

Lemma good_insert_condition st s set : sched_inv st → good (Schedule_insert_condition st s set).
Proof. intros Hinv. by apply (good_insert st (sys_id s) _ (SystemObject_new_condition s) set). Qed.

Lemma good_init_set st set : sched_inv st → good (Schedule_init_system_set st set).
Proof.
  intros Hinv. unfold Schedule_init_system_set. destruct (sc_sets st !! set); [done|].
  destruct (inv_mark_changed st Hinv) as (nodes & cp & -> & Hi). cbn [mbind outcome_bind].
  match goal with |- context [register_marker ?s set (set_begin set)] =>
    pose proof (inv_marker s set (set_begin set)) as Hb end.
  destruct (register_marker _ set (set_begin set)) as [b st2].
  destruct Hb as (Hi2 & Hc2 & Hl2 & _); [by apply (inv_irrelevant _ _ _ _ Hi)|done|].
  pose proof (inv_marker st2 set (set_end set) Hi2 Hc2) as He.
  destruct (register_marker st2 set (set_end set)) as [e st3]. destruct He as (Hi3 & Hc3 & Hl3 & Hm3).
  cbn. apply inv_insert_condition; auto.
Qed.

(** The calls that return a flag. *)
Definition good_flag (r : outcome (bool * Sched)) : Prop :=
  match r with Ret (_, st) => sched_inv st | _ => False end.

Lemma good_insert_order st a b : sched_inv st → good_flag (Schedule_insert_order st a b).
Proof.
  intros Hinv. unfold Schedule_insert_order, SAllocator_get_key.
  destruct (idents (sc_allocator st) !! a) as [ka|] eqn:Ea; [|done].
  destruct (idents (sc_allocator st) !! b) as [kb|] eqn:Eb; [|done].
  destruct (inv_mark_changed st Hinv) as (nodes & cp & -> & Hi). cbn [mbind outcome_bind].
  cbn. apply (inv_insert_order _ ka kb Hi eq_refl); [by exists a|by exists b].
Qed.

Lemma good_insert_run_if st (r cnd : Id) : sched_inv st → good_flag (Schedule_insert_run_if st r cnd).
Proof.
  intros Hinv. unfold Schedule_insert_run_if, SAllocator_get_key.
  destruct (idents (sc_allocator st) !! r) as [kr|] eqn:Er; [|done].
  destruct (idents (sc_allocator st) !! cnd) as [kc|] eqn:Ec; [|done].
  destruct (inv_mark_changed st Hinv) as (nodes & cp & -> & Hi). cbn [mbind outcome_bind].
  cbn. apply (inv_insert_condition _ kc kr Hi eq_refl); [by exists cnd|by exists r].
Qed.

Lemma good_flag_bind (r : outcome (bool * Sched)) (f : Sched → outcome Sched) :
  good_flag r → (∀ st, sched_inv st → good (f st)) → good ('(_, st) ← r; f st).
Proof. intros Hr Hf. destruct r as [[b st]| |]; cbn in *; auto. Qed.

(** ** Removal *)

Lemma conflict_remove_ok (cg : ConflictGraph) key :
  (∀ a b, ConflictGraph_is_conflict cg a b = ConflictGraph_is_conflict cg b a) →
  ∀ a b, ConflictGraph_is_conflict (ConflictGraph_remove cg key) a b =
         bool_decide (a ≠ key ∧ b ≠ key) && ConflictGraph_is_conflict cg a b.
Proof.
  intros Hsym a b. unfold ConflictGraph_remove.
  assert (Hfold : ∀ l (m : gmap K (gset K)) x,
    foldl (λ m b, alter (λ b_set, b_set ∖ {[key]}) b m) m l !! x =
    (λ s, if decide (x ∈ l) then s ∖ {[key]} else s) <$> m !! x).
  { induction l as [|y l IH]; intros m x; cbn [foldl]; [by destruct (m !! x)|]. rewrite IH.
    destruct (decide (x = y)) as [->|Hne].
    - rewrite lookup_alter_eq. destruct (m !! y) as [s|]; [|done]. cbn. f_equal.
      rewrite (decide_True (P := y ∈ y :: l)) by apply list_elem_of_here. case_decide; set_solver.
    - rewrite lookup_alter_ne by done. destruct (m !! x) as [s|]; [|done]. cbn. f_equal.
      destruct (decide (x ∈ l)), (decide (x ∈ y :: l)) as [Hc|Hc]; try done; exfalso; set_solver. }
  unfold ConflictGraph_is_conflict in *. destruct (cg_conflicts cg !! key) as [ks|] eqn:Ek; cbn [cg_conflicts].
  - rewrite Hfold. destruct (decide (a = key)) as [->|Ha].
    + rewrite lookup_delete_eq. cbn. rewrite bool_decide_eq_false_2 by tauto. done.
    + rewrite lookup_delete_ne by done. destruct (cg_conflicts cg !! a) as [sa|] eqn:Ea; cbn; [|by rewrite andb_false_r].
      destruct (decide (b = key)) as [->|Hb].
      * rewrite (bool_decide_eq_false_2 (a ≠ key ∧ key ≠ key)) by tauto. apply bool_decide_eq_false_2.
        specialize (Hsym a key). rewrite Ea, Ek in Hsym. destruct (decide (a ∈ elements ks)) as [Hin|Hin].
        { intros [_ Hx]%elem_of_difference. by apply Hx, elem_of_singleton. }
        rewrite elem_of_elements in Hin. intros Hk. rewrite (bool_decide_eq_true_2 _ Hk) in Hsym. symmetry in Hsym. by apply bool_decide_eq_true in Hsym.
      * rewrite (bool_decide_eq_true_2 (a ≠ key ∧ b ≠ key)) by done. cbn. apply bool_decide_ext. destruct (decide (a ∈ elements ks)); [|done].
        rewrite elem_of_difference, elem_of_singleton. tauto.
  - destruct (decide (a = key)) as [->|Ha]; [rewrite Ek; by rewrite andb_false_r|].
    destruct (decide (b = key)) as [->|Hb].
    + specialize (Hsym a key). rewrite Ek in Hsym. rewrite Hsym. by rewrite andb_false_r.
    + by rewrite (bool_decide_eq_true_2 (a ≠ key ∧ b ≠ key)).
Qed.

Lemma good_remove st name : sched_inv st → good_flag (Schedule_remove st name).
Proof.
  intros Hinv. unfold Schedule_remove, SAllocator_remove.
  destruct (idents (sc_allocator st) !! name) as [key|] eqn:Ek; cbn [mbind option_bind]; [|done].
  set (st0 := mkSched _ _ _ _ _ _ _ _ _).
  destruct (mark_changed_ok st0 (si_comp _ Hinv)) as (nodes & cp & -> & Hb & Hn & Hdom & Hobj).
  cbn [mbind outcome_bind good_flag]. subst st0. cbn [sc_allocator sc_buffer sc_ordering sc_conflict sc_schedule sc_sets sc_hierarchy sc_executor_initialized sc_is_changed sb_uninit sb_nodes].
  destruct Hinv as [Hid Hnodes [Hdep Hdepv] [Hcond Hcondv] Hu1 Hu2 [Hs Hkn] Hcomp Hbuilt].
  set (st' := mkSched _ _ _ _ _ _ _ _ _).
  assert (Hlive : ∀ k, live st' k ↔ live st k ∧ k ≠ key).
  { intros k. unfold live. cbn. split.
    - intros [id Hl]. apply lookup_delete_Some in Hl as [Hne Hl]. split; [by exists id|]. intros ->.
      apply Hid in Hl. apply Hid in Ek. congruence.
    - intros [[id Hl] Hne]. exists id. apply lookup_delete_Some. split; [|done]. intros ->. congruence. }
  assert (Hu : ∀ k, k ∈ sb_uninit (sc_buffer st') ↔ k ∈ sb_uninit (sc_buffer st) ∧ k ≠ key).
  { intros k. cbn. destruct (position _ (sb_uninit (sc_buffer st))) as [ix|] eqn:Ep.
    - destruct (position_Some _ _ _ Ep) as (x & Hx & Hbx & _). apply bool_decide_eq_true in Hbx. subst x.
      destruct (swap_remove_perm _ _ _ Hx) as [Hp _]. pose proof Hu1 as Hnd. rewrite Hp in Hnd. apply NoDup_cons in Hnd as [Hnew _].
      generalize dependent (swap_remove (sb_uninit (sc_buffer st)) ix). intros l Hp Hnew. rewrite Hp, elem_of_cons. naive_solver.
    - split; [|naive_solver]. intros Hin. split; [done|]. intros ->. apply (position_None _ _ Ep) in Hin.
      by apply bool_decide_eq_false in Hin. }
  assert (Hobj' : ∀ k o, obj_at st' k o → k ≠ key ∧ obj_at st k o).
  { intros k o [Ho|(i & Hi & _)].
    - cbn in Ho. apply lookup_delete_Some in Ho as [Hne Ho]. split; [done|]. by apply Hobj in Ho.
    - cbn in Hi. destruct Hb as (Hk & _). by rewrite Hk in Hi. }
  assert (Hlivek : live st key) by (by exists name).
  split.
  - intros id k. cbn. rewrite sm_get_remove. rewrite lookup_delete_Some. case_decide as Hk; subst.
    + split; [|done]. intros [Hne Hl]. apply Hid in Hl. apply Hid in Ek. congruence.
    + rewrite Hid. split; [tauto|]. intros Hg. split; [|done]. intros ->. apply Hid in Hg. congruence.
  - intros k. rewrite Hlive. cbn. destruct (decide (k = key)) as [->|Hne]; [rewrite lookup_delete_eq; split; [by intros [? ?]|tauto]|].
    rewrite lookup_delete_ne, Hdom by done. cbn. rewrite Hnodes. tauto.
  - destruct (remove_node_spec (dag_graph (og_dependency (sc_ordering st))) key (proj1 Hdep)) as (Hw & HV & _).
    split; [by apply dag_ok_mut|]. intros k. cbn. rewrite HV, Hlive, elem_of_difference, elem_of_singleton, Hdepv. tauto.
  - destruct (remove_node_spec (dag_graph (og_condition (sc_ordering st))) key (proj1 Hcond)) as (Hw & HV & _).
    split; [by apply dag_ok_mut|]. intros k. cbn. rewrite HV, Hlive, elem_of_difference, elem_of_singleton, Hcondv. tauto.
  - cbn. destruct (position _ (sb_uninit (sc_buffer st))) as [ix|] eqn:Ep; [|done].
    destruct (position_Some _ _ _ Ep) as (x & Hx & _). destruct (swap_remove_perm _ _ _ Hx) as [Hp _].
    rewrite Hp in Hu1. by apply NoDup_cons in Hu1 as [_ ?].
  - intros k [Hk Hne]%Hu. apply Hlive. auto.
  - split; cbn [st' sc_conflict].
    + intros a b. rewrite !conflict_remove_ok by done. rewrite Hs. f_equal. apply bool_decide_ext. tauto.
    + intros a b oa ob [Hak Ha]%Hobj' [Hbk Hb']%Hobj' Hna Hnb. rewrite Hu in Hna, Hnb.
      destruct (Hkn a b oa ob Ha Hb') as [He Hc]; [tauto|tauto|]. split.
      * intros Hx. specialize (He Hx). unfold ConflictGraph_is_exclusive in *. apply bool_decide_eq_true in He.
        apply bool_decide_eq_true. unfold ConflictGraph_remove. destruct (cg_conflicts (sc_conflict st) !! key); cbn; set_solver.
      * rewrite conflict_remove_ok, bool_decide_eq_true_2 by done. done.
  - unfold comp_ok. cbn. split; [done|]. intros k Hk. apply lookup_delete_Some in Hk as [_ Hk]. by apply Hn in Hk.
  - cbn. done.
Qed.

Lemma good_remove_all ids : ∀ st, sched_inv st → ∃ st', remove_all ids st = Ret st' ∧ sched_inv st'.
Proof.
  induction ids as [|id ids IH]; intros st Hinv; cbn [remove_all]; [by exists st|].
  pose proof (good_remove st id Hinv) as Hr. destruct (Schedule_remove st id) as [[b st1]| |]; cbn in *; [|done|done].
  by apply IH.
Qed.

Lemma good_remove_inner st set : sched_inv st → ∃ st', Schedule_remove_system_set_inner st set = Ret st' ∧ sched_inv st'.
Proof.
  intros Hinv. unfold Schedule_remove_system_set_inner. destruct (sc_sets st !! set) as [ids|]; [|by exists st].
  apply good_remove_all. by apply inv_irrelevant.
Qed.

Lemma mark_changed_hierarchy st st' : mark_changed st = Ret st' → sc_hierarchy st' = sc_hierarchy st.
Proof.
  unfold mark_changed, Schedule_recycle_schedule. destruct (sc_is_changed st); [by intros [= <-]|].
  destruct (give_back _ _); cbn; [|done|done]. by intros [= <-].
Qed.

Lemma remove_all_hierarchy ids : ∀ st st', remove_all ids st = Ret st' → sc_hierarchy st' = sc_hierarchy st.
Proof.
  induction ids as [|id ids IH]; intros st st'; cbn [remove_all]; [by intros [= <-]|].
  unfold Schedule_remove. destruct (SAllocator_remove _ id) as [[key al]|]; cbn [mbind outcome_bind]; [|by apply IH].
  destruct (mark_changed _) as [st1| |] eqn:E; cbn [mbind outcome_bind]; [|done|done].
  intros Hr%IH. cbn in Hr. rewrite Hr. by apply mark_changed_hierarchy in E.
Qed.

Lemma remove_inner_hierarchy st st' set :
  Schedule_remove_system_set_inner st set = Ret st' → sc_hierarchy st' = sc_hierarchy st.
Proof.
  unfold Schedule_remove_system_set_inner. destruct (sc_sets st !! set); [|by intros [= <-]].
  apply (remove_all_hierarchy _ (mkSched _ _ _ _ _ _ _ _ _)).
Qed.

(** The children entries bound the depth of the recursion. *)
Lemma remove_recursive_ok fuel : ∀ st set,
  sched_inv st → size (h_children (sc_hierarchy st)) < fuel →
  ∃ st', remove_set_recursive fuel st set = Ret st' ∧ sched_inv st' ∧
    size (h_children (sc_hierarchy st')) ≤ size (h_children (sc_hierarchy st)).
Proof.
  induction fuel as [|fuel IH]; intros st set Hinv Hsize; [lia|]. cbn [remove_set_recursive].
  set (st1 := with_hierarchy st _).
  assert (Hi1 : sched_inv st1) by (by apply inv_irrelevant).
  assert (Hle : size (h_children (sc_hierarchy st1)) ≤ size (h_children (sc_hierarchy st))).
  { cbn. rewrite map_size_delete. destruct (_ !! set); cbn; lia. }
  assert (Hfold : ∀ l s, sched_inv s → size (h_children (sc_hierarchy s)) ≤ size (h_children (sc_hierarchy st1)) →
    (l ≠ [] → size (h_children (sc_hierarchy st1)) < fuel) →
    ∃ s', foldl (λ r child, s ← r; remove_set_recursive fuel (forget_parent s child) child) (Ret s) l = Ret s' ∧
      sched_inv s' ∧ size (h_children (sc_hierarchy s')) ≤ size (h_children (sc_hierarchy st1))).
  { induction l as [|child l IHl]; intros s Hs Hs1 Hf; cbn [foldl mbind outcome_bind]; [by exists s|].
    specialize (Hf ltac:(done)).
    destruct (IH (forget_parent s child) child) as (s' & -> & Hs' & Hle'); [by apply inv_irrelevant|cbn; lia|].
    apply IHl; [done|cbn in Hle'; lia|done]. }
  destruct (Hfold (elements (default ∅ (h_children (sc_hierarchy st) !! set))) st1) as (st2 & -> & Hi2 & Hle2); [done|done| |].
  { intros Hne. cbn. rewrite map_size_delete. destruct (h_children (sc_hierarchy st) !! set) as [ch|] eqn:E; cbn in *.
    - assert (size (h_children (sc_hierarchy st)) ≠ 0); [|lia]. intros Hx%map_size_empty_inv. by rewrite Hx, lookup_empty in E.
    - by rewrite elements_empty in Hne. }
  cbn [mbind outcome_bind].
  destruct (good_remove_inner (forget_parent st2 set) set) as (st3 & Hr & Hi3); [by apply inv_irrelevant|].
  exists st3. split; [done|]. split; [done|]. apply remove_inner_hierarchy in Hr. rewrite Hr. cbn in *. lia.
Qed.

Lemma remove_system_set_ok st set :
  sched_inv st → ∃ st', Schedule_remove_system_set st set = Ret st' ∧ sched_inv st'.
Proof.
  intros Hinv. destruct (remove_recursive_ok (S (size (h_children (sc_hierarchy st)))) st set Hinv) as (st' & ? & ? & _);
    [lia|eauto].
Qed.

(** ** Configurations *)

Lemma good_config_set st config : sched_inv st → good (Schedule_config_set st config).
Proof.
  intros Hinv. unfold Schedule_config_set. apply good_bind; [by apply good_init_set|]. clear st Hinv. intros st Hinv.
  apply good_bind.
  { destruct (cf_parent config) as [parent|]; [|done]. unfold config_parent.
    apply good_bind; [by apply good_init_set|]. clear st Hinv. intros st Hinv.
    apply good_bind; [by apply good_insert_action|]. clear st Hinv. intros st Hinv.
    apply good_bind; [by apply good_insert_action|]. clear st Hinv. intros st Hinv. by apply inv_irrelevant. }
  clear st Hinv. intros st Hinv. apply good_foldl; [apply good_foldl; [apply good_foldl; [done|]|]|];
    intros r a Hr; (apply good_bind; [done|]); clear r Hr st Hinv; intros st Hinv.
  - apply good_bind; [by apply good_init_set|]. clear st Hinv. intros st Hinv. apply good_flag_bind; [by apply good_insert_order|done].
  - apply good_bind; [by apply good_init_set|]. clear st Hinv. intros st Hinv. apply good_flag_bind; [by apply good_insert_order|done].
  - apply good_bind; [by apply good_insert_condition|]. clear st Hinv. intros st Hinv.
    apply good_flag_bind; [by apply good_insert_run_if|done].
Qed.

Lemma good_add_systems st set cfg : sched_inv st → good (Schedule_add_systems st set cfg).
Proof.
  intros Hinv. unfold Schedule_add_systems. apply good_bind; [by apply good_init_set|]. clear st Hinv. intros st Hinv.
  apply good_foldl; [apply good_foldl; [apply good_foldl; [apply good_foldl; [done|]|]|]|];
    intros r a Hr; (apply good_bind; [done|]); clear r Hr; intros st' Hinv'.
  - destruct a; [by apply good_insert_action|by apply good_insert_condition].
  - apply good_bind; [by apply good_insert_action|]. intros st2 Hinv2. apply good_flag_bind; [by apply good_insert_order|done].
  - apply good_flag_bind; [by apply good_insert_order|done].
  - apply good_flag_bind; [by apply good_insert_run_if|done].
Qed.

End Invariant.
