(* ===== verification/ScheduleBuild.v ===== *)
(** * What a schedule build establishes

    [Schedule::update] over a registry in a good state: initialization covers
    every pair of systems in the conflict graph, the compiled form satisfies the
    well-formedness the executors rely on, and so systems that execute at the
    same time make no conflicting accesses. *)

From Stdlib Require Import ZArith Lia.
From S2P Require Import Prelude Access Executor Graph Scc Toposort Schedule ScheduleInv.

#[local] Arguments vertices {_ _} _ : simpl never.

(** ** Edge families *)

Section Family.
Context {K : Type} `{GraphNode K}.

Lemma count_edges_family (g : DiGraph K) topo :
  digraph_wf g → NoDup topo → (∀ a, a ∈ vertices g → a ∈ topo) → (Z.of_nat (length topo) ≤ u32_max)%Z →
  let n := length topo in
  ∃ inc out, count_edges g topo (index_keys topo 0 ∅) 0 (replicate n 0) (replicate n []) = Ret (inc, out) ∧
    family g topo out ∧ length inc = n ∧
    ∀ i, i < n → inc !! i = Some (length (filter (λ p, i ∈ default [] (out !! p)) (seq 0 n))).
Proof.
  intros Hwf Hnd Hall Hn n. set (indices := index_keys topo 0 ∅). set (f := λ k, default 0 (indices !! k)).
  assert (Hf : ∀ i k, topo !! i = Some k → indices !! k = Some i).
  { intros i k Hi. destruct (index_keys_lookup topo 0 ∅ k Hnd) as [Hl _]. by apply (Hl i). }
  assert (Hf' : ∀ i k, topo !! i = Some k → f k = i) by (intros i k Hi; unfold f; by rewrite (Hf i k)).
  assert (Hnb : ∀ a b, b ∈ Graph_neighbors g a → ∃ j, topo !! j = Some b).
  { intros a b Hb. apply (neighbors_spec g a b Hwf) in Hb. apply (edge_vertices g a b Hwf) in Hb as [_ Hb].
    by apply list_elem_of_lookup, Hall. }
  assert (Hfam : ∀ p t, t ∈ edges_at g topo f p ↔
    ∃ a b, (a, b) ∈ g_edges g ∧ topo !! p = Some a ∧ topo !! t = Some b).
  { intros p t. unfold edges_at. destruct (topo !! p) as [a|] eqn:Ea.
    - rewrite list_elem_of_fmap. split.
      + intros (b & -> & Hb). destruct (Hnb a b Hb) as [j Hj]. exists a, b. rewrite (Hf' j b Hj).
        by rewrite <- (neighbors_spec g a b Hwf).
      + intros (a' & b & He & [= <-] & Ht). exists b. by rewrite (Hf' t b Ht), (neighbors_spec g a b Hwf).
    - rewrite elem_of_nil. split; [done|]. by intros (a & b & _ & [=] & _). }
  assert (HndE : ∀ k, NoDup (f <$> Graph_neighbors g k)).
  { intros k. apply NoDup_fmap_2_strong; [|by apply neighbors_NoDup]. intros x y Hx Hy E.
    destruct (Hnb k x Hx) as [i Hi], (Hnb k y Hy) as [j Hj]. rewrite (Hf' i x Hi), (Hf' j y Hj) in E. congruence. }
  destruct (count_edges_ok g topo f indices topo 0 (replicate n 0) (replicate n [])) as (inc & out & Hrun & Hi & Ho).
  { done. }
  { intros k to _ Hto. destruct (Hnb k to Hto) as [j Hj]. rewrite (Hf' j to Hj), (Hf j to Hj).
    apply lookup_lt_Some in Hj. rewrite length_replicate. split; [done|]. split; [done|]. apply as_u32_id. lia. }
  { intros k _. apply HndE. }
  { by rewrite length_replicate. }
  assert (Hout : ∀ p, default [] (out !! p) = edges_at g topo f p).
  { intros p. rewrite Ho. case_decide as Hp.
    - rewrite lookup_replicate_2 by (cbn in Hp; lia). done.
    - rewrite lookup_ge_None_2 by (rewrite length_replicate; cbn in Hp; lia). unfold edges_at.
      by rewrite lookup_ge_None_2 by (cbn in Hp; lia). }
  exists inc, out. split; [done|]. split; [split; [|split]|split].
  - apply Nat.le_antisymm; apply Nat.nlt_ge; intros Hlt.
    + destruct (lookup_lt_is_Some_2 out (length topo) Hlt) as [x Hx]. rewrite Ho in Hx. rewrite decide_False in Hx by lia.
      by rewrite lookup_ge_None_2 in Hx by (rewrite length_replicate; lia).
    + specialize (Ho (length out)). rewrite decide_True in Ho by lia.
      rewrite lookup_replicate_2 in Ho by done. by rewrite lookup_ge_None_2 in Ho by lia.
  - intros p. rewrite Hout. unfold edges_at. destruct (topo !! p); [done|constructor].
  - intros p t. by rewrite Hout.
  - apply Nat.le_antisymm; apply Nat.nlt_ge; intros Hlt.
    + destruct (lookup_lt_is_Some_2 inc n Hlt) as [x Hx]. rewrite Hi in Hx.
      by rewrite lookup_ge_None_2 in Hx by (rewrite length_replicate; lia).
    + specialize (Hi (length inc)). rewrite lookup_replicate_2 in Hi by done. by rewrite lookup_ge_None_2 in Hi by lia.
  - intros i Hlt. rewrite Hi, lookup_replicate_2 by done. cbn. f_equal. f_equal. apply list_filter_iff. intros p. by rewrite Hout.
Qed.

End Family.

Section Build.
Context {K Id Set_ System World SM : Type}.
Context `{GraphNode K, !HashOrder K, EqDecision Id, Countable Id, EqDecision Set_, Countable Set_}.
Context `{!SlotMap SM K Id, !SlotMapLaws SM K Id, !SystemOps System World Id, !SetMarkers Set_ System}.

Notation Sched := (Schedule (K := K) (Id := Id) (Set_ := Set_) (System := System) (SM := SM)).
Notation Obj := (SystemObject (System := System)).
Notation Buffer := (SystemBuffer (K := K) (System := System)).
Notation Conflicts := (ConflictGraph (K := K)).
Implicit Types (st : Sched) (k : K) (o : Obj) (bf : Buffer) (cg : Conflicts) (w : World).

(** ** Initialization *)

Lemma initialize_all_ok uninit : ∀ bf w,
  (∀ k, k ∈ uninit → ∃ o, sb_nodes bf !! k = Some (Some o)) →
  ∃ nodes w', initialize_all uninit bf w = Ret (mkBuffer nodes (sb_uninit bf), w') ∧
    (∀ k, k ∈ uninit → ∃ o, nodes !! k = Some (Some o)) ∧ ∀ k, k ∉ uninit → nodes !! k = sb_nodes bf !! k.
Proof.
  induction uninit as [|key uninit IH]; intros bf w Hin; cbn [initialize_all].
  - exists (sb_nodes bf), w. split; [by destruct bf|]. split; [by intros k ?%elem_of_nil|done].
  - destruct (Hin key (list_elem_of_here _ _)) as [o Ho]. unfold SystemBuffer_get_system. rewrite Ho. cbn [mbind option_bind].
    destruct (sys_initialize (obj_system o) w) as [[a s] w1].
    destruct (IH (mkBuffer (<[key := Some (obj_with o s a)]> (sb_nodes bf)) (sb_uninit bf)) w1) as (nodes & w' & -> & Hn1 & Hn2).
    { intros k Hk. cbn. destruct (decide (k = key)) as [->|]; [rewrite lookup_insert_eq; eauto|].
      rewrite lookup_insert_ne by done. apply Hin. by apply list_elem_of_further. }
    exists nodes, w'. split; [done|]. split.
    + intros k Hk. destruct (decide (k ∈ uninit)) as [|Hk']; [by apply Hn1|]. apply elem_of_cons in Hk as [->|?]; [|done].
      rewrite Hn2 by done. cbn. rewrite lookup_insert_eq. eauto.
    + intros k [Hne Hk]%not_elem_of_cons. rewrite Hn2 by done. cbn. by rewrite lookup_insert_ne.
Qed.

Definition symmetric cg : Prop := ∀ a b, ConflictGraph_is_conflict cg a b = ConflictGraph_is_conflict cg b a.

(** The recorded conflicts and exclusive systems only grow. *)
Definition cg_extends cg cg' : Prop :=
  (∀ a b, ConflictGraph_is_conflict cg a b = true → ConflictGraph_is_conflict cg' a b = true) ∧
  (∀ a, ConflictGraph_is_exclusive cg a = true → ConflictGraph_is_exclusive cg' a = true).

Lemma cg_extends_trans cg1 cg2 cg3 : cg_extends cg1 cg2 → cg_extends cg2 cg3 → cg_extends cg1 cg3.
Proof. unfold cg_extends. naive_solver. Qed.

Lemma conflicts_insert_lookup (m : gmap K (gset K)) x y a b :
  match conflicts_insert m x y !! a with Some s => bool_decide (b ∈ s) | None => false end =
  bool_decide (a = x ∧ b = y) || match m !! a with Some s => bool_decide (b ∈ s) | None => false end.
Proof.
  unfold conflicts_insert. destruct (decide (a = x)) as [->|Hne].
  - rewrite lookup_insert_eq. apply eq_true_iff_eq. rewrite orb_true_iff, !bool_decide_eq_true, elem_of_union, elem_of_singleton.
    destruct (m !! x) as [s|]; cbn; [rewrite bool_decide_eq_true; tauto|]. rewrite elem_of_empty. naive_solver.
  - rewrite lookup_insert_ne by done. by rewrite (bool_decide_eq_false_2 (a = x ∧ b = y)) by tauto.
Qed.

Lemma set_conflict_spec cg x y a b :
  ConflictGraph_is_conflict (ConflictGraph_set_conflict cg x y) a b =
  bool_decide (a = x ∧ b = y ∨ a = y ∧ b = x) || ConflictGraph_is_conflict cg a b.
Proof.
  unfold ConflictGraph_is_conflict, ConflictGraph_set_conflict. cbn [cg_conflicts]. rewrite !conflicts_insert_lookup.
  rewrite orb_assoc. f_equal. apply eq_true_iff_eq. rewrite orb_true_iff, !bool_decide_eq_true. tauto.
Qed.

Lemma set_conflict_ok cg x y :
  symmetric cg → symmetric (ConflictGraph_set_conflict cg x y) ∧ cg_extends cg (ConflictGraph_set_conflict cg x y) ∧
  ConflictGraph_is_conflict (ConflictGraph_set_conflict cg x y) x y = true.
Proof.
  intros Hs. split; [|split; [split|]].
  - intros a b. rewrite !set_conflict_spec, Hs. f_equal. apply bool_decide_ext. tauto.
  - intros a b Hc. by rewrite set_conflict_spec, Hc, orb_true_r.
  - done.
  - rewrite set_conflict_spec, (bool_decide_eq_true_2 (x = x ∧ y = y ∨ x = y ∧ y = x)) by auto. done.
Qed.

Definition compare_step (a : K) (a_access : AccessTable) cg (bv : K * option Obj) : Conflicts :=
  match bv.2 with
  | Some v => if decide (a ≠ bv.1 ∧ AccessTable_parallelizable a_access (obj_access v) = false)
              then ConflictGraph_set_conflict cg a bv.1 else cg
  | None => cg
  end.

Lemma compare_fold_ok a a_access (l : list (K * option Obj)) : ∀ cg,
  symmetric cg →
  let cg' := foldl (compare_step a a_access) cg l in
  symmetric cg' ∧ cg_extends cg cg' ∧
  ∀ b ob, (b, Some ob) ∈ l → a ≠ b → AccessTable_parallelizable a_access (obj_access ob) = false →
    ConflictGraph_is_conflict cg' a b = true.
Proof.
  induction l as [|[b v] l IH]; intros cg Hs; cbn [foldl].
  - split; [done|]. split; [by split|]. by intros b ob ?%elem_of_nil.
  - assert (Hstep : symmetric (compare_step a a_access cg (b, v)) ∧ cg_extends cg (compare_step a a_access cg (b, v)) ∧
      ∀ ob, v = Some ob → a ≠ b → AccessTable_parallelizable a_access (obj_access ob) = false →
        ConflictGraph_is_conflict (compare_step a a_access cg (b, v)) a b = true).
    { unfold compare_step. cbn. destruct v as [v|]; [|by split].
      case_decide as Hd; [|split; [done|split; [done|naive_solver]]].
      destruct (set_conflict_ok cg a b Hs) as (? & ? & ?). split; [done|]. split; [done|]. by intros. }
    destruct Hstep as (Hs1 & He1 & Hc1). destruct (IH _ Hs1) as (Hs2 & He2 & Hc2).
    split; [done|]. split; [by eapply cg_extends_trans|].
    intros b' ob [[= -> <-]|Hin]%elem_of_cons Hne Hp; [|by eapply Hc2]. apply He2. by eapply Hc1.
Qed.

Lemma compare_access_ok a a_access bf cg :
  symmetric cg →
  symmetric (compare_access a a_access bf cg) ∧ cg_extends cg (compare_access a a_access bf cg) ∧
  ∀ b ob, sb_nodes bf !! b = Some (Some ob) → a ≠ b → AccessTable_parallelizable a_access (obj_access ob) = false →
    ConflictGraph_is_conflict (compare_access a a_access bf cg) a b = true.
Proof.
  intros Hs. assert (Heq : compare_access a a_access bf cg = foldl (compare_step a a_access) cg (map_to_list (sb_nodes bf))).
  { unfold compare_access. generalize (map_to_list (sb_nodes bf)) as l. intros l. clear Hs. revert cg.
    induction l as [|[b v] l IH]; intros cg; [done|]. apply IH. }
  rewrite Heq. destruct (compare_fold_ok a a_access (map_to_list (sb_nodes bf)) cg Hs) as (? & ? & Hc).
  split; [done|]. split; [done|]. intros b ob Hb. apply Hc. by apply elem_of_map_to_list.
Qed.

Lemma update_conflicts_ok bf uninit : ∀ cg,
  symmetric cg → (∀ k, k ∈ uninit → ∃ o, sb_nodes bf !! k = Some (Some o)) →
  ∃ cg', update_conflicts uninit bf cg = Ret cg' ∧ symmetric cg' ∧ cg_extends cg cg' ∧
    ∀ a oa, a ∈ uninit → sb_nodes bf !! a = Some (Some oa) →
      (SystemObject_is_exclusive oa = true → ConflictGraph_is_exclusive cg' a = true) ∧
      (SystemObject_is_exclusive oa = false → ∀ b ob, sb_nodes bf !! b = Some (Some ob) → a ≠ b →
         AccessTable_parallelizable (obj_access oa) (obj_access ob) = true ∨
         ConflictGraph_is_conflict cg' a b = true).
Proof.
  induction uninit as [|x uninit IH]; intros cg Hs Hin; cbn [update_conflicts].
  - exists cg. split; [done|]. split; [done|]. split; [by split|]. by intros a oa ?%elem_of_nil.
  - destruct (Hin x (list_elem_of_here _ _)) as [ox Hx]. unfold SystemBuffer_get_system. rewrite Hx. cbn [mbind option_bind].
    set (cg1 := if SystemObject_is_exclusive ox then _ else _).
    assert (Hcg1 : symmetric cg1 ∧ cg_extends cg cg1 ∧
      (SystemObject_is_exclusive ox = true → ConflictGraph_is_exclusive cg1 x = true) ∧
      (SystemObject_is_exclusive ox = false → ∀ b ob, sb_nodes bf !! b = Some (Some ob) → x ≠ b →
         AccessTable_parallelizable (obj_access ox) (obj_access ob) = true ∨ ConflictGraph_is_conflict cg1 x b = true)).
    { subst cg1. destruct (SystemObject_is_exclusive ox).
      - split; [done|]. split; [|split; [|done]].
        + split; [done|]. unfold ConflictGraph_is_exclusive, ConflictGraph_set_exclusive. cbn. intros a Ha.
          apply bool_decide_eq_true in Ha. apply bool_decide_eq_true. set_solver.
        + intros _. unfold ConflictGraph_is_exclusive. apply bool_decide_eq_true. cbn. set_solver.
      - destruct (compare_access_ok x (obj_access ox) bf cg Hs) as (? & ? & Hc). split; [done|]. split; [done|]. split; [done|].
        intros _ b ob Hb Hne. destruct (AccessTable_parallelizable _ _) eqn:Ep; [by left|]. right. by eapply Hc. }
    clearbody cg1. destruct Hcg1 as (Hs1 & He1 & Hx1 & Hx2).
    destruct (IH cg1 Hs1) as (cg' & -> & Hs' & He' & Hcov); [intros k Hk; apply Hin; by apply list_elem_of_further|].
    exists cg'. split; [done|]. split; [done|]. split; [by eapply cg_extends_trans|].
    intros a oa Ha Hoa. destruct (decide (a ∈ uninit)) as [Hau|Hau]; [by apply Hcov|].
    apply elem_of_cons in Ha as [->|?]; [|done]. rewrite Hx in Hoa. injection Hoa as <-. destruct He' as [Hc' Hex']. split; [auto|].
    intros Hne b ob Hb Hab. destruct (Hx2 Hne b ob Hb Hab); auto.
Qed.

(** [init_systems]: every pair of systems is covered. *)
Lemma init_systems_ok st w :
  sched_inv st → sc_is_changed st = true →
  ∃ st' w', Schedule_init_systems st w = Ret (st', w') ∧ sched_inv st' ∧ sc_is_changed st' = true ∧
    sb_uninit (sc_buffer st') = [] ∧ sc_allocator st' = sc_allocator st ∧ sc_ordering st' = sc_ordering st ∧
    sc_executor_initialized st' = sc_executor_initialized st.
Proof.
  intros [Hid Hnodes Hdep Hcond Hu1 Hu2 [Hs Hkn] Hcomp Hbuilt] Hch. unfold comp_ok in Hcomp. rewrite Hch in Hcomp.
  destruct Hcomp as [Hb Hn]. unfold Schedule_init_systems.
  assert (Hun : ∀ k, k ∈ sb_uninit (sc_buffer st) → ∃ o, sb_nodes (sc_buffer st) !! k = Some (Some o)).
  { intros k Hk%Hu2%Hnodes. destruct Hk as [[o|] Hk]; [eauto|]. by apply Hn in Hk. }
  destruct (initialize_all_ok (sb_uninit (sc_buffer st)) (mkBuffer (sb_nodes (sc_buffer st)) []) w Hun)
    as (nodes & w' & -> & Hn1 & Hn2). cbn [mbind outcome_bind sb_uninit sb_nodes] in *.
  destruct (update_conflicts_ok (mkBuffer nodes []) (sb_uninit (sc_buffer st)) (sc_conflict st) Hs Hn1)
    as (cg' & -> & Hs' & [Hec Hex] & Hcov). cbn [mbind outcome_bind].
  eexists _, w'. split; [done|]. split; [|done].
  assert (Hobj : ∀ k o, obj_at (mkSched (sc_allocator st) (mkBuffer nodes []) (sc_ordering st) cg' (sc_schedule st) (sc_sets st)
     (sc_hierarchy st) (sc_executor_initialized st) (sc_is_changed st)) k o → nodes !! k = Some (Some o)).
  { intros k o [Hk|(i & Hi & _)]; [done|]. cbn in Hi. destruct Hb as (Hk & _). by rewrite Hk in Hi. }
  assert (Hold : ∀ k o, k ∉ sb_uninit (sc_buffer st) → nodes !! k = Some (Some o) → obj_at st k o).
  { intros k o Hk Ho. left. by rewrite <- Hn2. }
  split; try done.
  - intros k. cbn. rewrite <- (Hnodes k). destruct (decide (k ∈ sb_uninit (sc_buffer st))) as [Hk|Hk].
    + destruct (Hn1 k Hk) as [? ->]. destruct (Hun k Hk) as [? ->]. split; by eexists.
    + by rewrite Hn2.
  - cbn. constructor.
  - cbn. by intros k ?%elem_of_nil.
  - split; [done|]. cbn. intros a b oa ob Ha%Hobj Hb'%Hobj _ _.
    destruct (decide (a ∈ sb_uninit (sc_buffer st))) as [Hau|Hau].
    + destruct (Hcov a oa Hau Ha) as [Hc1 Hc2]. split; [done|]. intros Hab Hea Heb.
      destruct (Hc2 Hea b ob Hb' Hab); [left; by left|by right].
    + destruct (decide (b ∈ sb_uninit (sc_buffer st))) as [Hbu|Hbu].
      * split; [intros Hea; apply Hex, (Hkn a a oa oa); auto|]. intros Hab Hea Heb.
        destruct (Hcov b ob Hbu Hb') as [_ Hc2]. destruct (Hc2 Heb a oa Ha) as [?|Hc]; [done|left; by right|].
        right. by rewrite Hs'.
      * destruct (Hkn a b oa ob) as [Hk1 Hk2]; auto. split; [auto|]. intros Hab Hea Heb.
        destruct (Hk2 Hab Hea Heb); auto.
  - unfold comp_ok. cbn. rewrite Hch. split; [done|]. intros k Hk.
    destruct (decide (k ∈ sb_uninit (sc_buffer st))) as [Hku|Hku]; [destruct (Hn1 k Hku); congruence|].
    rewrite Hn2 in Hk by done. by apply Hn in Hk.
  - cbn. congruence.
Qed.

(** ** Compilation *)

Lemma take_systems_ok topo : ∀ bf,
  NoDup topo → (∀ k, k ∈ topo → ∃ o, sb_nodes bf !! k = Some (Some o)) →
  ∃ objs nodes, take_systems topo bf = Ret (objs, mkBuffer nodes (sb_uninit bf)) ∧ length objs = length topo ∧
    (∀ i k, topo !! i = Some k → ∃ o, objs !! i = Some o ∧ sb_nodes bf !! k = Some (Some o)) ∧
    ∀ k, nodes !! k = if decide (k ∈ topo) then Some None else sb_nodes bf !! k.
Proof.
  induction topo as [|key topo IH]; intros bf Hnd Hin; cbn [take_systems].
  - exists [], (sb_nodes bf). split; [by destruct bf|]. done.
  - apply NoDup_cons in Hnd as [Hkey Hnd]. destruct (Hin key (list_elem_of_here _ _)) as [o Ho].
    unfold SystemBuffer_take_system. rewrite Ho. cbn [mbind outcome_bind].
    destruct (IH (mkBuffer (<[key := None]> (sb_nodes bf)) (sb_uninit bf)) Hnd) as (objs & nodes & -> & Hl & Hf & Hn).
    { intros k Hk. cbn. rewrite lookup_insert_ne by congruence. apply Hin. by apply list_elem_of_further. }
    cbn [mbind outcome_bind]. exists (o :: objs), nodes. split; [done|]. split; [cbn; by rewrite Hl|]. split.
    + intros [|i] k Hi; cbn in *; [injection Hi as <-; eauto|]. destruct (Hf i k Hi) as (o' & ? & Hk).
      apply list_elem_of_lookup_2 in Hi. rewrite lookup_insert_ne in Hk by congruence. eauto.
    + intros k. rewrite Hn. cbn. destruct (decide (k = key)) as [->|Hne].
      * rewrite decide_False by done. rewrite (decide_True (P := key ∈ key :: topo)) by apply list_elem_of_here.
        by rewrite lookup_insert_eq.
      * rewrite lookup_insert_ne by done. apply decide_ext. rewrite elem_of_cons. tauto.
Qed.

Lemma mixed_fold_ok (es : list (K * K)) : ∀ d : Dag K,
  dag_ok d → (∀ a b, (a, b) ∈ es → a ∈ vertices (dag_graph d) ∧ b ∈ vertices (dag_graph d)) →
  let d' := foldl (λ dag '(a, b), Dag_graph_mut dag (λ g, Graph_insert_edge g a b)) d es in
  dag_ok d' ∧ vertices (dag_graph d') = vertices (dag_graph d) ∧
  g_edges (dag_graph d') = list_to_set es ∪ g_edges (dag_graph d).
Proof.
  induction es as [|[a b] es IH]; intros d Hd Hes; cbn [foldl].
  - split; [done|]. split; [done|]. set_solver.
  - destruct (insert_edge_spec (dag_graph d) a b (proj1 Hd)) as (Hw & HV & HE).
    destruct (Hes a b (list_elem_of_here _ _)) as [Ha Hb].
    assert (HV' : vertices (Graph_insert_edge (dag_graph d) a b) = vertices (dag_graph d)) by (rewrite HV; set_solver).
    destruct (IH (Dag_graph_mut d (λ g, Graph_insert_edge g a b))) as (Hd' & HV2 & HE2).
    { by apply dag_ok_mut. }
    { intros x y Hxy. cbn. rewrite HV'. apply Hes. by apply list_elem_of_further. }
    split; [done|]. split; [by rewrite HV2|]. rewrite HE2. cbn. rewrite HE. set_solver.
Qed.

Lemma mixed_dag_ok st :
  sched_inv st → dag_live st (mixed_dag (sc_ordering st)) ∧
  g_edges (dag_graph (mixed_dag (sc_ordering st))) =
    g_edges (dag_graph (og_condition (sc_ordering st))) ∪ g_edges (dag_graph (og_dependency (sc_ordering st))).
Proof.
  intros Hinv. destruct (si_dep _ Hinv) as [Hd Hdv], (si_cond _ Hinv) as [Hc Hcv].
  assert (Hes : ∀ e, e ∈ Graph_all_edges (dag_graph (og_condition (sc_ordering st))) ↔
                     e ∈ g_edges (dag_graph (og_condition (sc_ordering st)))).
  { intros e. unfold Graph_all_edges. by rewrite hash_order_perm, elem_of_elements. }
  destruct (mixed_fold_ok (Graph_all_edges (dag_graph (og_condition (sc_ordering st)))) _ Hd) as (Hd' & HV & HE).
  { intros a b [Ha Hb]%Hes%(edge_vertices _ a b (proj1 Hc)). by rewrite !Hdv, <- !Hcv. }
  split; [split; [exact Hd'|]|].
  - intros k. rewrite <- (Hdv k). unfold mixed_dag. by rewrite HV.
  - unfold mixed_dag. rewrite HE. apply set_eq. intros e. by rewrite !elem_of_union, elem_of_list_to_set, Hes.
Qed.

Lemma live_count st : sched_inv st → length (Graph_node_list (dag_graph (mixed_dag (sc_ordering st)))) ≤ SAllocator_len (sc_allocator st).
Proof.
  intros Hinv. destruct (mixed_dag_ok st Hinv) as [[[Hwf _] HV] _].
  unfold Graph_node_list. rewrite length_fmap.
  pose proof (node_count_spec _ Hwf) as Hcount. unfold Graph_node_count in Hcount. rewrite Hcount. unfold SAllocator_len.
  assert (Heq : vertices (dag_graph (mixed_dag (sc_ordering st))) ⊆ list_to_set (map_to_list (idents (sc_allocator st))).*2).
  { intros k [id Hid]%HV. apply elem_of_list_to_set, list_elem_of_fmap. exists (id, k). split; [done|]. by apply elem_of_map_to_list. }
  apply subseteq_size in Heq. etrans; [exact Heq|]. etrans; [apply size_list_to_set_le|].
  by rewrite length_fmap, length_map_to_list.
Qed.

(** On an acyclic graph an order is found, whatever the fuel. *)
Lemma dag_order_acyclic fuel (d : Dag K) :
  dag_ok d → small_graph (dag_graph d) → acyclic (dag_graph d) → ∃ l d', Dag_order fuel d = Ret (Ok l, d').
Proof.
  intros [Hwf _] Hsmall Hac. unfold Dag_order, Dag_ensure_toposorted. destruct (dag_dirty d); [|eauto].
  destruct (toposort_cases fuel (dag_graph d) (dag_toposort d) Hwf Hsmall)
    as [(n & _ & _ & ?)|[_ [(l & E & _)|(? & _ & ? & _)]]]; [done| |done].
  rewrite E. cbn. eauto.
Qed.

Notation Comp := (Compiled (K := K) (System := System)).

(** Counters that count the edges of a family. *)
Definition counts (inc : list nat) (out : list (list nat)) : Prop :=
  length inc = length out ∧
  ∀ i, i < length out → inc !! i = Some (length (filter (λ p, i ∈ default [] (out !! p)) (seq 0 (length out)))).

Lemma view_is_conflict (c : Comp) R i j :
  table_is (length (cp_keys c)) R (cp_conflict c) → i < length (cp_keys c) → j < length (cp_keys c) →
  is_conflict (view c) i j = true ↔ R i j.
Proof.
  intros Ht Hi Hj. cbn. rewrite decide_True by done. destruct (table_read _ R _ i j Ht Hi Hj) as (b & -> & Hb). done.
Qed.

Lemma view_ok (c : Comp) (gm gc : DiGraph K) R :
  NoDup (cp_keys c) → topological gm (cp_keys c) → g_edges gc ⊆ g_edges gm →
  family gm (cp_keys c) (cp_outgoing c) → family gc (cp_keys c) (cp_condition_outgoing c) →
  counts (cp_incoming c) (cp_outgoing c) → counts (cp_condition_incoming c) (cp_condition_outgoing c) →
  table_is (length (cp_keys c)) R (cp_conflict c) → (∀ i j, R i j → R j i) →
  schedule_ok (view c).
Proof.
  intros Hnd Htopo Hsub (Hol & Hond & Ho) (Hcl & Hcnd & Hc) [Hil Hin] [Hcil Hcin] Ht HR.
  split; cbn [view sys_count s_incoming s_outgoing s_condition_incoming s_condition_outgoing];
    unfold outs, couts; cbn [view s_outgoing s_condition_outgoing]; try lia; try done.
  - intros p t (a & b & Hab & Hp & Ht')%Ho. split; [|by eapply lookup_lt_Some].
    destruct (Htopo a b Hab) as (i & j & Hij & Hi & Hj).
    assert (i = p) as <- by (by eapply NoDup_lookup). assert (j = t) as <- by (by eapply NoDup_lookup). done.
  - intros p t (a & b & Hab & Hp & Ht')%Hc. apply Ho. exists a, b. split; [by apply Hsub|done].
  - intros i Hi. rewrite Hin by lia. f_equal. unfold npred, pending_preds. cbn [view sys_count]. rewrite Hol. f_equal.
    apply list_filter_iff. intros p. split; [|tauto]. intros Hp. split; [done|]. set_solver.
  - intros i Hi. rewrite Hcin by lia. f_equal. unfold npred, pending_preds. cbn [view sys_count]. rewrite Hcl. f_equal.
    apply list_filter_iff. intros p. split; [|tauto]. intros Hp. split; [done|]. set_solver.
  - intros i j. destruct (decide (i < length (cp_keys c) ∧ j < length (cp_keys c))) as [[Hi Hj]|Hn].
    + apply eq_true_iff_eq. rewrite !(view_is_conflict c R) by done. split; apply HR.
    + cbn. rewrite !decide_False by tauto. done.
Qed.

Lemma build_ok fuel st topo d :
  sched_inv st → sc_is_changed st = true → sb_uninit (sc_buffer st) = [] →
  (Z.of_nat (SAllocator_len (sc_allocator st)) ≤ u32_max)%Z →
  Dag_order fuel (mixed_dag (sc_ordering st)) = Ret (Ok topo, d) →
  ∃ nodes c, Schedule_build_schedule fuel st =
      Ret (mkSched (sc_allocator st) (mkBuffer nodes []) (sc_ordering st) (sc_conflict st) c (sc_sets st) (sc_hierarchy st)
             (sc_executor_initialized st) (sc_is_changed st)) ∧
    compiled_of st c ∧ compiled_ok (sc_conflict st) c ∧ length (cp_systems c) = length (cp_keys c) ∧
    ∀ k, nodes !! k = if decide (k ∈ cp_keys c) then Some None else sb_nodes (sc_buffer st) !! k.
Proof.
  intros Hinv Hch Hun Hlen Hord. unfold Schedule_build_schedule.
  destruct (mixed_dag_ok st Hinv) as [[Hmd Hmv] Hme]. pose proof (live_count st Hinv) as Hcount.
  pose proof (si_comp _ Hinv) as Hcomp. unfold comp_ok in Hcomp. rewrite Hch in Hcomp. destruct Hcomp as [Hb Hn].
  destruct (si_cond _ Hinv) as [[Hcwf _] Hcv]. destruct (si_known _ Hinv) as [Hsym _].
  assert (Hsmall : small_graph (dag_graph (mixed_dag (sc_ordering st)))).
  { unfold small_graph, Graph_node_count, Graph_node_list, u32_max, u64_max in *. rewrite length_fmap in Hcount. lia. }
  destruct (dag_order_ok fuel _ _ d Hmd Hsmall Hord) as ([Hwd Hcache] & Hg & Hget & Htd).
  unfold Dag_get_toposort in Hget. destruct (dag_dirty d) eqn:Ed; [done|]. destruct (Hcache eq_refl) as [Hperm Htopo].
  rewrite Htd in Hperm, Htopo. rewrite Hg in Hperm, Htopo, Hwd.
  assert (Hnd : NoDup topo) by (rewrite Hperm; apply (shape_keys _ (wf_shape _ Hwd))).
  assert (Hall : ∀ k, k ∈ topo ↔ live st k) by (intros k; by rewrite Hperm, <- elem_of_vertices, Hmv).
  assert (Hsz : (Z.of_nat (length topo) ≤ u32_max)%Z) by (rewrite Hperm; lia).
  rewrite decide_True by (destruct Hb as (? & ? & ? & ? & ? & ?); done). rewrite Hord. cbn [mbind outcome_bind].
  destruct (take_systems_ok topo (sc_buffer st) Hnd) as (objs & nodes & -> & Hol & Ho & Hnodes).
  { intros k Hk%Hall%(si_nodes _ Hinv). destruct Hk as [[o|] Hk]; [eauto|]. by apply Hn in Hk. }
  cbn [mbind outcome_bind]. rewrite Hg.
  destruct (count_edges_family (dag_graph (mixed_dag (sc_ordering st))) topo Hwd Hnd) as (inc & out & -> & Hfo & Hil & Hic);
    [by intros a Ha%Hmv%Hall|done|].
  cbn [mbind outcome_bind].
  destruct (count_edges_family (dag_graph (og_condition (sc_ordering st))) topo Hcwf Hnd) as (cinc & cout & -> & Hfc & Hcil & Hcic);
    [by intros a Ha%Hcv%Hall|done|].
  cbn [mbind outcome_bind].
  destruct (fill_table_all (sc_conflict st) topo Hsz Hsym) as (t & -> & Ht). cbn [mbind outcome_bind]. rewrite Hun.
  eexists nodes, _. split; [done|].
  assert (Hcounts : ∀ (i : list nat) (o : list (list nat)), length o = length topo → length i = length topo →
    (∀ x, x < length topo → i !! x = Some (length (filter (λ p, x ∈ default [] (o !! p)) (seq 0 (length topo))))) → counts i o).
  { intros i o Hlo Hli Hx. split; [lia|]. intros x. rewrite Hlo. apply Hx. }
  split; [|split; [split|split; [done|done]]].
  - split; cbn; [done|done|done|done|]. intros i k Hi. destruct (Ho i k Hi) as (o & ? & ?). exists o. split; [done|]. by left.
  - eapply (view_ok _ (dag_graph (mixed_dag (sc_ordering st))) (dag_graph (og_condition (sc_ordering st)))); cbn; try done.
    + rewrite Hme. set_solver.
    + apply Hcounts; [apply Hfo|done|done].
    + apply Hcounts; [apply Hfc|done|done].
    + intros i j (ki & kj & Hi & Hj & Hor). exists kj, ki. split; [done|]. split; [done|].
      destruct Hor as [?|[?|[? ?]]]; auto. right; right. rewrite Hsym. auto.
  - intros i j ki kj Hi Hj Hne Hcf. cbn [cp_keys] in Hi, Hj.
    assert (HR : ¬ (ConflictGraph_is_exclusive (sc_conflict st) ki = true ∨ ConflictGraph_is_exclusive (sc_conflict st) kj = true ∨
       i ≠ j ∧ ConflictGraph_is_conflict (sc_conflict st) ki kj = true)).
    { intros Hor. apply not_true_iff_false in Hcf. apply Hcf. eapply (view_is_conflict (mkCompiled _ _ _ _ _ _ _)); cbn; [exact Ht|..].
      - by eapply lookup_lt_Some.
      - by eapply lookup_lt_Some.
      - exists ki, kj. auto. }
    split; [|split]; apply not_true_iff_false; intros Hx; apply HR; auto.
Qed.

Lemma dag_order_total fuel (d : Dag K) :
  dag_ok d → small_graph (dag_graph d) → acyclic (dag_graph d) ∨
  ¬ acyclic (dag_graph d) ∧ ∀ l d', Dag_order fuel d ≠ Ret (Ok l, d').
Proof.
  intros Hd Hsmall. destruct (Dag_order fuel d) as [[[l|e] d']| |] eqn:E.
  - left. destruct (dag_order_ok fuel d _ d' Hd Hsmall E) as ([Hwf Hc] & Hg & Hget & Ht).
    unfold Dag_get_toposort in Hget. destruct (dag_dirty d'); [done|]. destruct (Hc eq_refl) as [Hp Htopo].
    rewrite Hg in *. eapply topological_acyclic; [|exact Htopo]. rewrite Hp. apply (shape_keys _ (wf_shape _ Hwf)).
  - right. split; [|done]. by destruct (dag_order_ok fuel d _ d' Hd Hsmall E) as (_ & _ & _ & ?).
  - right. split; [|done]. intros Hac. destruct (dag_order_acyclic fuel d Hd Hsmall Hac) as (l & d' & E'). congruence.
  - right. split; [|done]. intros Hac. destruct (dag_order_acyclic fuel d Hd Hsmall Hac) as (l & d' & E'). congruence.
Qed.

Lemma mixed_small st :
  sched_inv st → (Z.of_nat (SAllocator_len (sc_allocator st)) ≤ u32_max)%Z →
  small_graph (dag_graph (mixed_dag (sc_ordering st))).
Proof.
  intros Hinv Hlen. pose proof (live_count st Hinv) as Hcount.
  unfold small_graph, Graph_node_count, Graph_node_list, u32_max, u64_max in *. rewrite length_fmap in Hcount. lia.
Qed.

(** [update] on a good state: it builds when something changed, and fails to
    return exactly on a cyclic ordering. *)
Lemma update_ok fuel st w :
  sched_inv st → (Z.of_nat (SAllocator_len (sc_allocator st)) ≤ u32_max)%Z →
  (sc_is_changed st = true → acyclic (dag_graph (mixed_dag (sc_ordering st)))) →
  ∃ st' w', Schedule_update fuel st w = Ret (st', w', negb (sc_executor_initialized st)) ∧ sched_inv st' ∧
    sc_is_changed st' = false ∧ sc_executor_initialized st' = true ∧
    sc_allocator st' = sc_allocator st ∧ sc_ordering st' = sc_ordering st.
Proof.
  intros Hinv Hlen Hac. unfold Schedule_update. destruct (sc_is_changed st) eqn:Hch.
  2:{ cbn [mbind outcome_bind]. eexists _, _. split; [done|]. split; [by apply inv_irrelevant|]. by cbn; rewrite ?Hch. }
  specialize (Hac eq_refl).
  destruct (init_systems_ok st w Hinv Hch) as (st1 & w1 & -> & Hi1 & Hc1 & Hu1 & Ha1 & Ho1 & He1). cbn [mbind outcome_bind].
  rewrite <- Ha1 in Hlen. rewrite <- Ho1 in Hac.
  destruct (mixed_dag_ok st1 Hi1) as [[Hmd _] _].
  destruct (dag_order_acyclic fuel _ Hmd (mixed_small st1 Hi1 Hlen) Hac) as (topo & d & Hord).
  destruct (build_ok fuel st1 topo d Hi1 Hc1 Hu1 Hlen Hord) as (nodes & c & -> & Hof & Hok & Hls & Hn).
  cbn [mbind outcome_bind with_flags sc_executor_initialized sc_is_changed]. eexists _, w1.
  split; [by rewrite <- He1|]. split; [|done].
  pose proof (si_comp _ Hi1) as Hcomp. unfold comp_ok in Hcomp. rewrite Hc1 in Hcomp. destruct Hcomp as [Hb Hnn].
  destruct Hof as [[Hnd Hkeys] Ht Hfo Hfc Hsys]. set (st' := mkSched _ _ _ _ _ _ _ _ _).
  assert (Hlive : ∀ k, live st' k ↔ live st1 k) by done.
  assert (Hobj : ∀ k o, obj_at st' k o → obj_at st1 k o).
  { intros k o [Hk|(i & Hi & Hio)].
    - cbn in Hk. rewrite Hn in Hk. case_decide; [done|]. by left.
    - cbn in Hi, Hio. destruct (Hsys i k Hi) as (o' & Ho' & ?). congruence. }
  destruct Hi1 as [Hid Hnodes Hdep Hcond Hun1 Hun2 [Hs Hkn] _ _]. split; try done.
  - intros k. etrans; [|symmetry; apply Hlive]. rewrite <- Hkeys. cbn [st' sc_buffer sb_nodes]. rewrite Hn.
    case_decide as Hk; [split; [done|by eexists]|]. by rewrite Hnodes, <- Hkeys.
  - cbn. constructor.
  - cbn. by intros k ?%elem_of_nil.
  - split; [done|]. cbn. intros a b oa ob Ha%Hobj Hb'%Hobj _ _. apply (Hkn a b oa ob); rewrite ?Hu1; try done; by intros ?%elem_of_nil.
  - unfold comp_ok. cbn. split; [done|]. split; [done|]. intros k. rewrite Hn. case_decide as Hk; [done|].
    split; [done|]. by intros ?%Hnn.
  - intros _. cbn. split; [done|]. split; [|done]. split; cbn; try done.
    intros i k Hi. destruct (Hsys i k Hi) as (o & Ho & _). exists o. split; [done|]. right. by exists i.
Qed.

(** A cyclic ordering: [update] does not return. *)
Lemma update_cyclic fuel st w :
  sched_inv st → (Z.of_nat (SAllocator_len (sc_allocator st)) ≤ u32_max)%Z → sc_is_changed st = true →
  ¬ acyclic (dag_graph (mixed_dag (sc_ordering st))) → ∀ r, Schedule_update fuel st w ≠ Ret r.
Proof.
  intros Hinv Hlen Hch Hac r. unfold Schedule_update. rewrite Hch.
  destruct (init_systems_ok st w Hinv Hch) as (st1 & w1 & -> & Hi1 & Hc1 & Hu1 & Ha1 & Ho1 & He1). cbn [mbind outcome_bind].
  rewrite <- Ha1 in Hlen. rewrite <- Ho1 in Hac. destruct (mixed_dag_ok st1 Hi1) as [[Hmd _] _].
  unfold Schedule_build_schedule. case_decide; [|done].
  destruct (dag_order_total fuel _ Hmd (mixed_small st1 Hi1 Hlen)) as [?|[_ Hno]]; [done|].
  destruct (Dag_order fuel (mixed_dag (sc_ordering st1))) as [[[l|e] d']| |]; try done. by destruct (Hno l d').
Qed.

(** ** Histories *)

(** Every state a [Schedule] gets into by its public operations; a build is
    asked for with at most [u32::MAX] systems registered. *)
Inductive sched_reach : Sched → Prop :=
| sr_new : sched_reach Schedule_new
| sr_action st s set st' : sched_reach st → Schedule_insert_action st s set = Ret st' → sched_reach st'
| sr_condition st s set st' : sched_reach st → Schedule_insert_condition st s set = Ret st' → sched_reach st'
| sr_init_set st set st' : sched_reach st → Schedule_init_system_set st set = Ret st' → sched_reach st'
| sr_order st a b r st' : sched_reach st → Schedule_insert_order st a b = Ret (r, st') → sched_reach st'
| sr_run_if st a b r st' : sched_reach st → Schedule_insert_run_if st a b = Ret (r, st') → sched_reach st'
| sr_remove st a r st' : sched_reach st → Schedule_remove st a = Ret (r, st') → sched_reach st'
| sr_remove_set st set st' : sched_reach st → Schedule_remove_system_set st set = Ret st' → sched_reach st'
| sr_config st config st' : sched_reach st → Schedule_config_set st config = Ret st' → sched_reach st'
| sr_systems st set cfg st' : sched_reach st → Schedule_add_systems st set cfg = Ret st' → sched_reach st'
| sr_update st fuel w st' w' b :
    sched_reach st → (Z.of_nat (SAllocator_len (sc_allocator st)) ≤ u32_max)%Z →
    Schedule_update fuel st w = Ret (st', w', b) → sched_reach st'.

Lemma good_ret r st : good r → r = Ret st → sched_inv st.
Proof. by intros Hg ->. Qed.

Lemma good_flag_ret r b st : good_flag r → r = Ret (b, st) → sched_inv st.
Proof. by intros Hg ->. Qed.

Lemma sched_reach_inv st : sched_reach st → sched_inv st.
Proof.
  induction 1 as [| | | | | | |st set st' _ IH Hr| | |st fuel w st' w' b _ IH Hlen Hr]; [apply inv_new|..].
  - eapply good_ret; [|done]. by apply good_insert_action.
  - eapply good_ret; [|done]. by apply good_insert_condition.
  - eapply good_ret; [|done]. by apply good_init_set.
  - eapply good_flag_ret; [|done]. by apply good_insert_order.
  - eapply good_flag_ret; [|done]. by apply good_insert_run_if.
  - eapply good_flag_ret; [|done]. by apply good_remove.
  - destruct (remove_system_set_ok st set IH) as (st1 & Hr1 & ?). congruence.
  - eapply good_ret; [|done]. by apply good_config_set.
  - eapply good_ret; [|done]. by apply good_add_systems.
  - destruct (sc_is_changed st) eqn:Hch.
    + destruct (mixed_dag_ok st IH) as [[Hmd _] _].
      destruct (dag_order_total fuel _ Hmd (mixed_small st IH Hlen)) as [Hac|[Hac _]].
      * destruct (update_ok fuel st w IH Hlen) as (st1 & w1 & Hr1 & ? & _); [done|]. congruence.
      * by apply update_cyclic in Hr.
    + destruct (update_ok fuel st w IH Hlen) as (st1 & w1 & Hr1 & ? & _); [congruence|]. congruence.
Qed.

Lemma obj_at_unique st k o o' : sched_inv st → obj_at st k o → obj_at st k o' → o = o'.
Proof.
  intros Hinv. pose proof (si_comp _ Hinv) as Hc. unfold comp_ok in Hc. destruct (sc_is_changed st).
  - destruct Hc as [(Hk & _) _]. unfold obj_at. rewrite Hk. intros [?|(i & ? & _)] [?|(j & ? & _)]; try done. congruence.
  - destruct Hc as (Hnd & _ & Hk). intros [?|(i & Hi & Ho)] [?|(j & Hj & Ho')].
    + congruence.
    + apply list_elem_of_lookup_2, Hk in Hj. congruence.
    + apply list_elem_of_lookup_2, Hk in Hi. congruence.
    + assert (i = j) as -> by (by eapply NoDup_lookup). congruence.
Qed.

Lemma obj_at_live st k : sched_inv st → live st k ↔ ∃ o, obj_at st k o.
Proof.
  intros Hinv. rewrite <- (si_nodes _ Hinv k). pose proof (si_comp _ Hinv) as Hc. unfold comp_ok in Hc. split.
  - intros [[o|] Hk]; [exists o; by left|]. destruct (sc_is_changed st); [destruct Hc as [_ Hn]; by apply Hn in Hk|].
    destruct Hc as (_ & Hl & Hk'). apply Hk', list_elem_of_lookup in Hk as [i Hi].
    destruct (lookup_lt_is_Some_2 (cp_systems (sc_schedule st)) i) as [o Ho]; [rewrite Hl; by eapply lookup_lt_Some|].
    exists o. right. by exists i.
  - intros [o [Hk|(i & Hi & _)]]; [by eexists|]. destruct (sc_is_changed st).
    + destruct Hc as [(Hk & _) _]. by rewrite Hk in Hi.
    + destruct Hc as (_ & _ & Hk). apply list_elem_of_lookup_2, Hk in Hi. by eexists.
Qed.

(** C21: The registry of a schedule is consistent after every history of
    insertions, removals, configurations and builds: identifiers and keys are in
    bijection; a registered key is a node of both ordering graphs and its system
    is kept in exactly one place, the buffer or the compiled form; an
    unregistered key has no node, no edge and no system. *)
Theorem registry_consistent st :
  sched_reach st →
  (∀ id k, SAllocator_get_key (sc_allocator st) id = Some k ↔ SAllocator_get_id (sc_allocator st) k = Some id) ∧
  ∀ k, match SAllocator_get_id (sc_allocator st) k with
       | Some _ => k ∈ vertices (dag_graph (og_dependency (sc_ordering st))) ∧
                   k ∈ vertices (dag_graph (og_condition (sc_ordering st))) ∧
                   ∃ o, obj_at st k o ∧ ∀ o', obj_at st k o' → o' = o
       | None => ∀ k', (k, k') ∉ g_edges (dag_graph (mixed_dag (sc_ordering st))) ∧
                       (k', k) ∉ g_edges (dag_graph (mixed_dag (sc_ordering st))) ∧ ∀ o, ¬ obj_at st k o
       end.
Proof.
  intros Hinv%sched_reach_inv. split; [apply (si_ident _ Hinv)|]. intros k. unfold SAllocator_get_id.
  destruct (sm_get (slots (sc_allocator st)) k) as [id|] eqn:E.
  - apply (si_ident _ Hinv) in E. assert (Hl : live st k) by (by exists id).
    split; [by apply (si_dep _ Hinv)|]. split; [by apply (si_cond _ Hinv)|].
    apply (obj_at_live st k Hinv) in Hl as [o Ho]. exists o. split; [done|]. intros o' Ho'. by eapply obj_at_unique.
  - assert (Hl : ¬ live st k) by (intros [id Hid%(si_ident _ Hinv)]; congruence).
    destruct (mixed_dag_ok st Hinv) as [[[Hwf _] HV] _]. intros k'. split; [|split].
    + intros [Hk _]%(edge_vertices _ _ _ Hwf). by apply Hl, HV.
    + intros [_ Hk]%(edge_vertices _ _ _ Hwf). by apply Hl, HV.
    + intros o Ho. apply Hl, (obj_at_live st k Hinv). eauto.
Qed.

(** C10: Building is correct and complete for at most [u32::MAX] systems.  When
    ordering and condition edges together are acyclic, [update] returns whatever
    the fuel; the compiled order lists every registered system once with every
    edge pointing forward, the edge lists are exactly the edges of the graphs,
    the executor's well-formedness conditions hold and the executor is
    initialized on the first build only.  On a cyclic ordering it never
    returns. *)
Theorem update_builds st fuel w :
  sched_reach st → (Z.of_nat (SAllocator_len (sc_allocator st)) ≤ u32_max)%Z →
  (acyclic (dag_graph (mixed_dag (sc_ordering st))) →
     ∃ st' w', Schedule_update fuel st w = Ret (st', w', negb (sc_executor_initialized st)) ∧
       sc_is_changed st' = false ∧ sc_executor_initialized st' = true ∧
       sc_allocator st' = sc_allocator st ∧ sc_ordering st' = sc_ordering st ∧
       compiled_of st' (sc_schedule st') ∧ schedule_ok (view (sc_schedule st'))) ∧
  (¬ acyclic (dag_graph (mixed_dag (sc_ordering st))) → sc_is_changed st = true →
     ∀ r, Schedule_update fuel st w ≠ Ret r).
Proof.
  intros Hinv%sched_reach_inv Hlen. split; [|intros Hac Hch; by apply update_cyclic].
  intros Hac. destruct (update_ok fuel st w Hinv Hlen) as (st' & w' & Hr & Hi & Hc & He & Ha & Ho); [done|].
  exists st', w'. destruct (si_built _ Hi Hc) as (_ & ? & [? _]). done.
Qed.

Lemma conflict_sym a b : conflict a b → conflict b a.
Proof. destruct a, b; cbn; try done; rewrite orb_comm; naive_solver. Qed.

(** C1: End to end: in every state the multi-threaded executor reaches while
    running a schedule built from any history, two systems in flight at the same
    time are both non-exclusive, and if both access tables are well-formed
    ([table_wf], which the setters keep) and neither holds a whole-world reference,
    no access of the one conflicts with an access of the other.  Without the second
    condition it is not true: the executor runs a system with a [&World] parameter
    beside writers ([world_ref_ignored] in [Access]). *)
Theorem parallel_systems_disjoint st c i j :
  sched_reach st → sc_is_changed st = false → ereach (view (sc_schedule st)) c →
  i ∈ c_inflight c → j ∈ c_inflight c → i ≠ j →
  ∃ oi oj, cp_systems (sc_schedule st) !! i = Some oi ∧ cp_systems (sc_schedule st) !! j = Some oj ∧
    SystemObject_is_exclusive oi = false ∧ SystemObject_is_exclusive oj = false ∧
    (table_wf (obj_access oi) → table_wf (obj_access oj) →
     world_ref (obj_access oi) = false → world_ref (obj_access oj) = false →
     ∀ a b, allows (obj_access oi) a → allows (obj_access oj) b → ¬ conflict a b).
Proof.
  intros Hinv%sched_reach_inv Hch Hr Hi Hj Hne. destruct (si_built _ Hinv Hch) as (Hu & Hof & [Hok Hcov]).
  pose proof (inflight_compatible _ c i j Hok Hr Hi Hj Hne) as Hcf.
  apply (inflight_lt _ c _ Hok Hr) in Hi, Hj. cbn [view sys_count] in Hi, Hj.
  destruct (lookup_lt_is_Some_2 _ _ Hi) as [ki Hki], (lookup_lt_is_Some_2 _ _ Hj) as [kj Hkj].
  destruct (co_systems _ _ Hof i ki Hki) as (oi & Hoi & Hai), (co_systems _ _ Hof j kj Hkj) as (oj & Hoj & Haj).
  destruct (Hcov i j ki kj Hki Hkj Hne Hcf) as (Hei & Hej & Hc). destruct (si_known _ Hinv) as [_ Hkn].
  assert (Hnu : ∀ k, k ∉ sb_uninit (sc_buffer st)) by (intros k; rewrite Hu; by intros ?%elem_of_nil).
  destruct (Hkn ki kj oi oj Hai Haj (Hnu _) (Hnu _)) as [Hx1 Hx2]. destruct (Hkn kj ki oj oi Haj Hai (Hnu _) (Hnu _)) as [Hx3 _].
  assert (SystemObject_is_exclusive oi = false) by (apply not_true_iff_false; intros ?%Hx1; congruence).
  assert (SystemObject_is_exclusive oj = false) by (apply not_true_iff_false; intros ?%Hx3; congruence).
  exists oi, oj. do 4 (split; [done|]). intros Hwi Hwj Hri Hrj a b Ha Hb.
  assert (Hk : ki ≠ kj) by (intros ->; apply Hne; eapply NoDup_lookup; [apply (co_keys _ _ Hof)|done..]).
  destruct (Hx2 Hk) as [[Hp|Hp]|?]; [done|done|..|congruence].
  - by apply (parallel_no_conflict (obj_access oi) (obj_access oj)).
  - intros Hcx%conflict_sym. by apply (parallel_no_conflict (obj_access oj) (obj_access oi)) in Hcx.
Qed.

(** ** Removing sets *)

(** Registrations only disappear: a member of a set is unregistered or stays a
    member. *)
Definition shrinks st st' : Prop :=
  (∀ id, idents (sc_allocator st) !! id = None → idents (sc_allocator st') !! id = None) ∧
  (∀ x, sc_sets st !! x = None → sc_sets st' !! x = None) ∧
  ∀ x ids id, sc_sets st !! x = Some ids → id ∈ ids →
    idents (sc_allocator st') !! id = None ∨ ∃ ids', sc_sets st' !! x = Some ids' ∧ id ∈ ids'.

Lemma shrinks_same st st' :
  sc_allocator st' = sc_allocator st → sc_sets st' = sc_sets st → shrinks st st'.
Proof. intros Ha Hs. unfold shrinks. rewrite Ha, Hs. naive_solver. Qed.

Lemma shrinks_trans st1 st2 st3 : shrinks st1 st2 → shrinks st2 st3 → shrinks st1 st3.
Proof.
  intros (Ha & Hb & Hc) (Ha' & Hb' & Hc'). split; [auto|]. split; [auto|].
  intros x ids id Hx Hid. destruct (Hc x ids id Hx Hid) as [?|(ids' & Hx' & Hid')]; [left; auto|eauto].
Qed.

Lemma mark_changed_frame st st' :
  mark_changed st = Ret st' → sc_allocator st' = sc_allocator st ∧ sc_sets st' = sc_sets st.
Proof.
  unfold mark_changed, Schedule_recycle_schedule. destruct (sc_is_changed st); [by intros [= <-]|].
  destruct (give_back _ _); cbn; [|done|done]. by intros [= <-].
Qed.

Lemma remove_shrinks st name r st' :
  Schedule_remove st name = Ret (r, st') → shrinks st st' ∧ idents (sc_allocator st') !! name = None.
Proof.
  unfold Schedule_remove, SAllocator_remove. destruct (idents (sc_allocator st) !! name) as [key|] eqn:E; cbn [mbind option_bind].
  2:{ intros [= _ <-]. split; [by apply shrinks_same|done]. }
  destruct (mark_changed _) as [st1| |] eqn:Em; cbn [mbind outcome_bind]; [|done|done].
  apply mark_changed_frame in Em as [Ha Hs]. cbn in Ha, Hs. intros [= _ <-]. unfold shrinks. cbn. rewrite Ha, Hs. cbn.
  split; [|apply lookup_delete_eq]. split; [|split].
  - intros id Hid. apply lookup_delete_None. by right.
  - intros x Hx. by rewrite lookup_fmap, Hx.
  - intros x ids id Hx Hid. destruct (decide (id = name)) as [->|Hne]; [left; apply lookup_delete_eq|].
    right. rewrite lookup_fmap, Hx. cbn. eexists. split; [done|]. set_solver.
Qed.

Lemma remove_all_shrinks ids : ∀ st st', remove_all ids st = Ret st' →
  shrinks st st' ∧ ∀ id, id ∈ ids → idents (sc_allocator st') !! id = None.
Proof.
  induction ids as [|i ids IH]; intros st st'; cbn [remove_all].
  - intros [= <-]. split; [by apply shrinks_same|]. by intros id ?%elem_of_nil.
  - destruct (Schedule_remove st i) as [[r st1]| |] eqn:E; cbn [mbind outcome_bind]; [|done|done].
    apply remove_shrinks in E as [Hs1 Hi]. intros [Hs2 Hids]%IH. split; [by eapply shrinks_trans|].
    intros id [->|?]%elem_of_cons; [|auto]. by apply Hs2.
Qed.

Lemma remove_inner_shrinks st set st' :
  Schedule_remove_system_set_inner st set = Ret st' → shrinks st st' ∧ sc_sets st' !! set = None.
Proof.
  unfold Schedule_remove_system_set_inner. destruct (sc_sets st !! set) as [ids|] eqn:E.
  2:{ intros [= <-]. split; [by apply shrinks_same|done]. }
  intros [(Ha & Hb & Hc) Hids]%remove_all_shrinks. cbn in Ha, Hb, Hc.
  split; [|apply Hb, lookup_delete_eq]. split; [done|]. split.
  - intros x Hx. apply Hb, lookup_delete_None. by right.
  - intros x ids' id Hx Hid. destruct (decide (x = set)) as [->|Hne].
    + left. apply Hids, elem_of_elements. congruence.
    + apply (Hc x ids' id); [|done]. by rewrite lookup_delete_ne.
Qed.

Lemma remove_recursive_shrinks fuel : ∀ st set st',
  remove_set_recursive fuel st set = Ret st' →
  shrinks st st' ∧ sc_sets st' !! set = None ∧
  ∀ child, child ∈ default ∅ (h_children (sc_hierarchy st) !! set) → sc_sets st' !! child = None.
Proof.
  induction fuel as [|fuel IH]; intros st set st'; cbn [remove_set_recursive]; [done|].
  assert (Hfold : ∀ l r s', foldl (λ r child, s ← r; remove_set_recursive fuel (forget_parent s child) child) r l = Ret s' →
    ∃ s, r = Ret s ∧ shrinks s s' ∧ ∀ child, child ∈ l → sc_sets s' !! child = None).
  { induction l as [|child l IHl]; intros r s'; cbn [foldl].
    - intros ->. exists s'. split; [done|]. split; [by apply shrinks_same|]. by intros child ?%elem_of_nil.
    - intros (s1 & Hs1 & Hsh & Hch)%IHl. destruct r as [s| |]; cbn [mbind outcome_bind] in Hs1; [|done|done].
      apply IH in Hs1 as (Hsh1 & Hnone & _). exists s. split; [done|]. split; [by eapply shrinks_trans|].
      intros x [->|?]%elem_of_cons; [|auto]. by apply Hsh. }
  destruct (foldl _ _ _) as [st2| |] eqn:E; cbn [mbind outcome_bind]; [|done|done].
  apply Hfold in E as (s & [= <-] & Hsh & Hch). intros [Hsh' Hset]%remove_inner_shrinks. split; [|split; [done|]].
  - eapply shrinks_trans; [|exact Hsh']. eapply (shrinks_trans _ st2); [|by apply shrinks_same].
    eapply shrinks_trans; [|exact Hsh]. by apply shrinks_same.
  - intros child Hc. apply Hsh'. cbn. apply Hch. by apply elem_of_elements.
Qed.

(** Removing a set always returns, even when the recorded hierarchy is
    cyclic; afterwards the set and its child sets are gone, none of their members
    is registered, and the registry is still consistent. *)
Theorem remove_set_complete st set :
  sched_reach st →
  ∃ st', Schedule_remove_system_set st set = Ret st' ∧ sched_inv st' ∧
    ∀ x, x = set ∨ x ∈ default ∅ (h_children (sc_hierarchy st) !! set) →
      sc_sets st' !! x = None ∧
      ∀ ids id, sc_sets st !! x = Some ids → id ∈ ids → SAllocator_get_key (sc_allocator st') id = None.
Proof.
  intros Hinv%sched_reach_inv. destruct (remove_system_set_ok st set Hinv) as (st' & Hr & Hi). exists st'.
  split; [done|]. split; [done|]. apply remove_recursive_shrinks in Hr as ((_ & _ & Hsh) & Hset & Hch).
  intros x Hx. assert (Hnone : sc_sets st' !! x = None) by (destruct Hx as [->|Hx]; [exact Hset|exact (Hch x Hx)]).
  split; [done|]. intros ids id Hids Hid. destruct (Hsh x ids id Hids Hid) as [?|(ids' & ? & _)]; [done|congruence].
Qed.

End Build.

(** ** A concrete schedule

    Keys are numbers drawn fresh, and a system is its identifier with what it
    declares. *)

Record ExSystem := mkExSystem { es_id : nat; es_exclusive : bool; es_access : AccessTable }.

#[local] Instance ex_slots : SlotMap (gmap nat nat) nat nat := {|
  sm_empty := ∅;
  sm_get m k := m !! k;
  sm_insert m v := (fresh (dom m), <[fresh (dom m) := v]> m);
  sm_remove m k := delete k m
|}.

#[local] Instance ex_slots_laws : SlotMapLaws (gmap nat nat) nat nat.
Proof.
  split; cbn.
  - done.
  - intros m v. apply not_elem_of_dom, is_fresh.
  - intros m v k. case_decide; [subst; apply lookup_insert_eq|by apply lookup_insert_ne].
  - intros m k k'. case_decide; [subst; apply lookup_delete_eq|by apply lookup_delete_ne].
Qed.

#[local] Instance ex_systems : SystemOps ExSystem unit nat := {|
  sys_id := es_id;
  sys_is_no_op _ := false;
  sys_is_deferred _ := false;
  sys_is_exclusive := es_exclusive;
  sys_initialize s w := (es_access s, s, w)
|}.

#[local] Instance ex_markers : SetMarkers nat ExSystem := {|
  set_begin s := mkExSystem (100 + s) false AccessTable_new;
  set_end s := mkExSystem (200 + s) false AccessTable_new;
  set_unit := 0
|}.

Notation ExSched := (Schedule (K := nat) (Id := nat) (Set_ := nat) (System := ExSystem) (SM := gmap nat nat)).

(** Two systems writing different components, in one set. *)
Definition ex_sys (i : nat) : ExSystem := mkExSystem i false (ex_tab ex_f1 (Z.of_nat i)).

Definition get_sched (r : outcome ExSched) : ExSched := match r with Ret s => s | _ => Schedule_new end.

Definition ex_one : ExSched := get_sched (Schedule_insert_action Schedule_new (ex_sys 1) 7).
Definition ex_two : ExSched := get_sched (Schedule_insert_action ex_one (ex_sys 2) 7).
Definition ex_built : ExSched :=
  match Schedule_update 0 ex_two tt with Ret (s, _, _) => s | _ => Schedule_new end.

Definition is_ret {A} (r : outcome A) : bool := match r with Ret _ => true | _ => false end.

Lemma get_sched_ret (r : outcome ExSched) : is_ret r = true → r = Ret (get_sched r).
Proof. by destruct r. Qed.

Lemma ex_two_reach : sched_reach (World := unit) ex_two.
Proof.
  eapply (sr_action ex_one); [eapply (sr_action Schedule_new); [apply sr_new|]|]; apply get_sched_ret; vm_compute; reflexivity.
Qed.

Lemma ex_two_len : (Z.of_nat (SAllocator_len (sc_allocator ex_two)) ≤ u32_max)%Z.
Proof. by vm_compute. Qed.

Lemma ex_built_reach : sched_reach (World := unit) ex_built.
Proof.
  assert (Hr : is_ret (Schedule_update 0 ex_two tt) = true) by (vm_compute; reflexivity).
  unfold ex_built. destruct (Schedule_update 0 ex_two tt) as [[[s w] b]| |] eqn:E; [|done|done].
  eapply (sr_update ex_two); [apply ex_two_reach|apply ex_two_len|exact E].
Qed.

(** A graph with a rank that grows along every edge is acyclic. *)
Lemma ranked_acyclic {A : Type} `{GraphNode A} (g : DiGraph A) (rank : A → nat) :
  (∀ a b, (a, b) ∈ g_edges g → rank a < rank b) → acyclic g.
Proof.
  intros Hr x Hx. assert (Hlt : ∀ a b, tc (edge g) a b → rank a < rank b).
  { intros a b. induction 1 as [a b He|a b c He _ IH]; [by apply Hr|]. apply Hr in He. lia. }
  apply Hlt in Hx. lia.
Qed.

Definition ex_rank (k : nat) : nat := match k with 1 => 0 | 2 => 2 | _ => 1 end.

Lemma ex_two_acyclic : acyclic (dag_graph (mixed_dag (sc_ordering ex_two))).
Proof.
  apply (ranked_acyclic _ ex_rank). intros a b Hab. apply elem_of_elements in Hab.
  assert (Hall : forallb (λ e : nat * nat, Nat.ltb (ex_rank e.1) (ex_rank e.2))
                   (elements (g_edges (dag_graph (mixed_dag (sc_ordering ex_two))))) = true) by (vm_compute; reflexivity).
  rewrite forallb_forall in Hall. specialize (Hall (a, b)). rewrite <- list_elem_of_In in Hall. by apply Nat.ltb_lt, Hall.
Qed.

(** Begin marker, then both systems at once. *)
Definition ex_flight : config :=
  run_tick (view (sc_schedule ex_built))
    (run_finish (view (sc_schedule ex_built)) 0 true
       (run_tick (view (sc_schedule ex_built))
          (mkConfig (mkExec [0; 1; 1; 3] [0; 1; 1; 1] [0] ∅ []) [] ∅ [] []))).

Lemma ex_flight_reach : ereach (view (sc_schedule ex_built)) ex_flight.
Proof.
  apply run_tick_reach, run_finish_reach; [apply (bool_decide_unpack _); vm_compute; exact I|].
  apply run_tick_reach, ereach_init. eexists. split; [vm_compute; reflexivity|reflexivity].
Qed.

Lemma registry_consistent_witness :
  SAllocator_get_key (sc_allocator ex_built) 1 = Some 0 ∧ SAllocator_get_id (sc_allocator ex_built) 0 = Some 1.
Proof.
  assert (Hk : SAllocator_get_key (sc_allocator ex_built) 1 = Some 0) by (vm_compute; reflexivity).
  split; [exact Hk|exact (proj1 (proj1 (registry_consistent ex_built ex_built_reach) 1 0) Hk)].
Defined.

Lemma update_builds_witness :
  ∃ st' w', Schedule_update 0 ex_two tt = Ret (st', w', true) ∧ schedule_ok (view (sc_schedule st')).
Proof.
  destruct (proj1 (update_builds ex_two 0 tt ex_two_reach ex_two_len) ex_two_acyclic)
    as (st' & w' & Hr & _ & _ & _ & _ & _ & Hok).
  exists st', w'. split; [exact Hr|exact Hok].
Defined.

(** Both writers are in flight at once. *)
Lemma parallel_systems_disjoint_witness :
  ∃ oi oj, cp_systems (sc_schedule ex_built) !! 1 = Some oi ∧ cp_systems (sc_schedule ex_built) !! 2 = Some oj ∧
    SystemObject_is_exclusive oi = false ∧ SystemObject_is_exclusive oj = false.
Proof.
  destruct (parallel_systems_disjoint ex_built ex_flight 1 2 ex_built_reach ltac:(vm_compute; reflexivity) ex_flight_reach
    ltac:(apply (bool_decide_unpack _); vm_compute; exact I) ltac:(apply (bool_decide_unpack _); vm_compute; exact I) ltac:(lia))
    as (oi & oj & Hi & Hj & Hx & Hy & _).
  exists oi, oj. split; [exact Hi|]. split; [exact Hj|]. split; [exact Hx|exact Hy].
Defined.

Lemma remove_set_complete_witness :
  ∃ st', Schedule_remove_system_set ex_built 7 = Ret st' ∧ SAllocator_get_key (sc_allocator st') 1 = None.
Proof.
  destruct (remove_set_complete ex_built 7 ex_built_reach) as (st' & Hr & _ & Hx).
  exists st'. split; [exact Hr|]. destruct (Hx 7 (or_introl eq_refl)) as [_ Hids].
  eapply (Hids {[1; 2; 107; 207]}); [vm_compute; reflexivity|]. apply (bool_decide_unpack _); vm_compute; exact I.
Defined.
